(* ===== verification/_CoqProject ===== *)
-Q . S2P
Prelude.v
Bytes.v
F64.v
Lex.v
LexFacts.v
LexRound.v
LetLang.v
LetFacts.v
LetRound.v
Ast.v
Semantics.v
LowerQdup.v
LowerRecurse.v
LowerExit.v
Classes.v
Parse.v
ParseFacts.v
Resolve.v
ResolveFacts.v
Effect.v
EffectFacts.v
Factor.v
LetCode.v
Sema.v
Pipeline.v
SemaFacts.v
Emit.v
Driver.v
SampleVM.v
FactorFacts.v
LetCodeFacts.v
EmitCode.v
EmitFacts.v
LoopFacts.v
HeadFacts.v
GenericFacts.v
DriverFacts.v
Rope.v
RopeBuffer.v
RopeFacts.v
BufferFacts.v
RopeBalance.v
Utf8Facts.v
Edit.v
EditWindow.v
EditFacts.v
EditMotion.v
EditMessages.v
EditHistory.v
EditText.v
SortBy.v
DagreGraph.v
DagreGraphFacts.v
Acyclic.v
FasDfs.v
FasGreedy.v
AcyclicFacts.v
CrossCount.v
Rank.v
RankFacts.v
RankFeasible.v
NetworkSimplex.v
SimplexFacts.v
AssignRanks.v
Normalize.v
NormalizeFacts.v
Layers.v
Order.v
OrderSort.v
OrderFacts.v
Phases.v
PhasesFacts.v
Nesting.v
Compound.v
ParentChains.v
NestingFacts.v
Bk.v
BkFacts.v
Layout.v
LayoutFacts.v
