(* ===== verification/Prelude.v ===== *)
(** * NewFactor front end: a verification library (root file)

    NewFactor compiles ANS Forth to the source text of Factor, an embedded VM.
    The compiler proper is [src/src/compiler/]; this library models it whole,
    from the bytes of a source file to the Factor program, with the parts of
    the runtime its output depends on, and proves what makes each stage right.
    A second part models the editor programs are written in, [src/crates/igui/],
    from the rope that holds its text to the messages of its window.  A third
    models the layered layout of graphs by which diagrams in documents are drawn,
    [src/crates/selkie/src/layout/dagre/].

    ** Parts and files

    A text goes through [lex], [parse], [sema::build] and [emit], in
    [mod.rs: compile_in_context_with_diagnostics].  Each file below names the
    source file it models; the definitions keep the names of the source.

    - [Bytes], [F64]: what the code uses of Rust's strings, integers and
      doubles, and the positions and compile errors of error.rs.  Machine
      integers are [Z] with the wrap-around written out ([u32_wrap], [u64_wrap],
      [i64_wrap]); stack counts are [N] ([n32_add]).
    - [Lex], [LexFacts], [LexRound] (lex.rs): the tokeniser is total, its tokens
      tile the source; numbers and words read back as they were printed.
    - [LetLang], [LetFacts], [LetRound] (let_lang/parser.rs): the infix
      sub-language; the parser ends, and inverts a printer.
    - [Ast] (ast.rs): the trees, with their induction principle.
    - [Parse], [ParseFacts] (parse.rs): recursive descent over tokens.  It ends,
      never panics, and gives each word reference the span of a token of its own.
    - [Semantics]: what a Forth body does, as big-step relations over a machine
      class [Machine]; the specification of the three lowering passes
      [LowerQdup] (lower_qdup.rs), [LowerRecurse] (lower_recurse.rs) and
      [LowerExit] (lower_exit.rs).
    - [Classes] (lower_classes.rs): the slots of classes.
    - [Resolve], [ResolveFacts] (resolve.rs): built-in words and
      their Factor names, name mangling, and the resolver, equal to a reference
      definition over the list of a program's references.
    - [Effect], [EffectFacts] (effect.rs): inferred stack effects; sound for the
      runs of [Semantics], but for two loop formulas shown to be wrong.
    - [Sema], [Pipeline], [SemaFacts] (sema.rs): the order of the passes, the
      tables, and the composition from text to target map.
    - [Factor]: the frames of counted loops (factor/forth/runtime/runtime.factor),
      the one part of the runtime with a control flow of its own; and the Factor that is emitted, as it is documented: a scanner, a
      reader of brackets, and a big-step semantics over the class [FactorVM],
      which stands for the words of the image.  [SampleVM] is an instance on
      which examples run; no theorem depends on it.
    - [LetCode], [LetCodeFacts] (let_lang/codegen.rs): LET forms as quotations;
      the code computes what the form denotes, which is said without the tables
      and the power rule of the code generator.
    - [Emit] (emit.rs): the program's text.  [FactorFacts], [EmitCode],
      [EmitFacts]: the text of a body is read back as code, and the code does
      what the source body does.  [LoopFacts]: counted loops.  [HeadFacts]:
      annotations, the preamble of bodies with locals, the vocabularies.
      [GenericFacts]: method combination and the class lists of methods.
    - [Driver], [DriverFacts] (mod.rs): sessions, NEEDS, SEE records.  The file
      system is the class [FileSystem].

    The editor ([src/crates/igui/src/]), apart from the compiler:

    - [Rope], [RopeBuffer] (rope_buffer.rs): the tree of leaves and the buffer
      over it.  [RopeFacts], [BufferFacts]: it is a list of code points, with
      the lines and columns of a walk over the list.  [RopeBalance]: edits keep
      it an AVL tree, as long as the texts put in are built as AVL trees.
      [Utf8Facts]: encoding and decoding are inverse.
    - [Edit] (fedit.rs: the editing core of [FeditState]) and [EditWindow]
      (fedit.rs: tabs, clipboard, mouse, files, checks, the window procedure).
      The answers of Win32, the file system and the checker are the record
      [Host], one per message; what is sent out is the field [sent].
      [EditFacts] states each operation on the part of the state edits are
      about, [Doc]; [EditMotion], [EditMessages], [EditHistory], [EditText]
      are its theorems.

    The layered layout ([src/crates/selkie/src/layout/dagre/]), apart from both.
    [mod.rs: layout] runs its phases one after the other on one mutable graph;
    here each is a function of graphs, and one that may panic answers [panics].
    - [DagreGraph] (graph.rs, types.rs): labels, edge keys, the graph with its
      adjacency lists and its tree of subgraphs.  [DagreGraphFacts]: [wf], the
      agreement of these parts, is kept by every operation; who is whose parent
      and child after any sequence of them is read off the sequence.
    - [F64], its end: doubles as the code computes with them, and their order.
      [SortBy]: stable sorting as [slice::sort_by].
    - [Acyclic], [FasDfs], [FasGreedy], [AcyclicFacts] (acyclic.rs): cycles are
      broken, and turned back.
    - [Rank], [RankFacts], [RankFeasible], [NetworkSimplex], [SimplexFacts],
      [AssignRanks] (rank/): longest paths, tight trees, network simplex.
    - [Normalize], [NormalizeFacts] (normalize.rs): chains of dummies.
    - [Layers], [Order], [OrderSort], [OrderFacts], [CrossCount] (order/):
      barycenter sweeps and the count of crossings.
    - [Phases], [PhasesFacts] (edge_labels.rs, self_edges.rs, util.rs and the
      small phases of mod.rs): labels, loops, rank directions.
    - [Nesting], [NestingFacts] (nesting_graph.rs), [Compound], [ParentChains]
      (compound.rs, parent_dummy_chains.rs): subgraphs; the theorems about all
      three are in [NestingFacts].
    - [Bk], [BkFacts] (position/bk.rs): Brandes and Koepf's coordinates.
    - [Layout] (position/mod.rs, mod.rs: layout), [LayoutFacts]: the
      composition, and graphs on which it goes wrong.
    The source walks over hash maps and hash sets there; each order it meets them
    in is a class with a permutation as its law: [MapOrder] (edges), [SetOrder]
    (nodes of a tree), [GroupOrder] (nodes by parent), [XsOrder] (coordinates by
    name).  Theorems hold for every instance.

    ** What the theorems show

    - Whole pipeline: [Pipeline] (every reference has the target its name means
      in its scope), [EmitFacts] with [LowerExit] (a definition's emitted text
      runs as its source body, EXIT included).
    - Passes preserve meaning: ?DUP, RECURSE, EXIT, LET, generics with before
      and after methods.
    - Totality and termination: tokeniser, both parsers, NEEDS over cyclic
      files, counted loops.
    - Errors: the resolver rejects exactly the programs without a meaning, a
      failed compile leaves the session alone.
    - The editor: the rope refines a list and stays balanced (where
      the texts put in are), no message panics,
      undo and redo move in a zipper of the texts there were, motions and edits
      do what they are named for, files and columns round-trip.
    - The layout: a graph without subgraphs comes back with its nodes and edges,
      placed and drawn ([LayoutFacts]), phase by phase: no cycle is left, ranks
      by longest paths are the lengths of the longest chains, a feasible tree is
      a tree of tight edges that no edge leaves, long edges become unit ones and whole again, orders are
      permutations and the first best of all those tried, children of a subgraph are between
      its top and bottom and it has borders at every rank, paths go through the
      lowest common ancestor, blocks do not cross and neighbours are apart by the
      largest separation between their blocks.
    - Limits of the code, as theorems about concrete programs: EXIT in a CASE
      arm, two loop effects, +LOOP downwards, positions shared by files, stack
      comments that repeat a name, a rope of five leaves built unbalanced,
      parents that dangle after a removal, a
      lone byte order mark put over a selection, ranks against an edge, edges to a
      subgraph that merge ([LayoutFacts]).

    ** Fuel and bounds

    A definition that does not recurse structurally takes fuel and answers
    [OutOfFuel] without it; with the one exception named below there is a theorem
    that what it is given is enough:
    the length of the source for [lex] and [let_parse], the number of tokens
    for [parse], the size of a body for the EXIT lowering, one more than the
    number of readable files not yet included for NEEDS; in the layout the
    number of nodes, edges or parents a search can meet, and for the network
    simplex the bound of its own loop.  The exception is the walk along a chain
    of dummies ([ParentChains.walk_chain]), which ends where chains do, and is
    given the number of nodes.  Process-wide counters
    (made-up spans, discard names, method helpers) are threaded as numbers of
    their width.

    ** Not modelled

    Hash maps and sets are [gmap] and [gset]: where the compiler iterates over
    one, the order does not reach its result; for the layout see above.  [emit_local_name] is dead code.
    Of the editor, what only paints is left out (fonts, colours, the tokens for
    highlighting), with the dialogs, the making of windows and the arithmetic
    from pixels to cells, whose results the messages carry.
    Not modelled: [dump.rs] (diagnostic listings, read by no other part),
    [session.rs], [gfx.rs], the programs under [bin/] and [main.rs] (foreign
    calls, processes, windows), and the other crates under [crates/] (the window
    toolkit, the document pane, and of the diagram renderer all but its layered
    layout: parsers of diagrams, SVG writers, themes).  Of the layout,
    [resolve_conflicts] and the sorting of [sort_subgraph] are left out, which the
    ordering never calls; on subgraphs it is not proved that the whole layout
    gives the graph back, since it does not (the end of [LayoutFacts]).  Of the runtime only the
    loop frames are modelled; its other words are the parameters of
    [FactorVM]. *)
From stdpp Require Export base tactics option list gmap strings pretty.
From Stdlib Require Export ZArith Lia.
From Stdlib Require Ascii String.
Export Stdlib.Strings.Ascii (ascii(..), N_of_ascii, ascii_of_N, ascii_N_embedding,
                             N_ascii_embedding, N_ascii_bounded).
Export (notations) Stdlib.Strings.Ascii.
#[export] Set Default Proof Using "Type".

Declare Scope nf_scope.
Delimit Scope nf_scope with nf.
Open Scope Z_scope.

(** ** Results

    [result E A] is Rust's [Result<A, E>].  [outcome E A] adds the third
    possibility of a fuelled definition; every fuelled entry point of the
    development comes with a theorem that [OutOfFuel] is not its answer. *)

Inductive result (E A : Type) : Type :=
  | Ok (a : A)
  | Err (e : E).
Arguments Ok {E A} a.
Arguments Err {E A} e.

Inductive outcome (E A : Type) : Type :=
  | Done (a : A)
  | Fail (e : E)
  | OutOfFuel.
Arguments Done {E A} a.
Arguments Fail {E A} e.
Arguments OutOfFuel {E A}.

Global Instance result_ret {E} : MRet (result E) := λ A a, Ok a.
Global Instance result_bind {E} : MBind (result E) :=
  λ A B f m, match m with Ok a => f a | Err e => Err e end.
Global Instance outcome_ret {E} : MRet (outcome E) := λ A a, Done a.
Global Instance outcome_bind {E} : MBind (outcome E) :=
  λ A B f m, match m with Done a => f a | Fail e => Fail e | OutOfFuel => OutOfFuel end.

(** A computation that may panic: [Fail tt] is the panic. *)
Notation panics := (outcome unit).
Definition panic {A} : panics A := Fail tt.
(** [Option::unwrap]. *)
Definition unwrap {A} (o : option A) : panics A := match o with Some a => Done a | None => panic end.

(** A fuel-free computation used inside a fuelled one. *)
Definition lift {E A} (r : result E A) : outcome E A :=
  match r with Ok a => Done a | Err e => Fail e end.

(** Rust's [Option::ok_or]. *)
Definition ok_or {E A} (o : option A) (e : E) : result E A :=
  match o with Some a => Ok a | None => Err e end.

(** Rust's [Option::or]. *)
Definition or_else {A} (a b : option A) : option A :=
  match a with Some x => Some x | None => b end.

(** A [for] loop that threads a state, and one whose body may return early. *)
Definition fold_with {A S} (f : A → S → S) : list A → S → S :=
  fix go l s := match l with [] => s | x :: l' => go l' (f x s) end.
Lemma fold_with_app {A S} (f : A → S → S) a b s : fold_with f (a ++ b) s = fold_with f b (fold_with f a s).
Proof. revert s. induction a as [|x a IH]; intros s; [done|]. apply IH. Qed.
Lemma fold_with_pres {A S} (P : S → Prop) (f : A → S → S) l : (∀ x s, P s → P (f x s)) → ∀ s, P s → P (fold_with f l s).
Proof. intros Hf. induction l as [|x l IH]; intros s Hs; cbn [fold_with]; [done|]. by apply IH, Hf. Qed.
Definition opt_with {A S} (f : A → S → S) (o : option A) (s : S) : S :=
  match o with Some x => f x s | None => s end.
Definition fold_result {E A S} (f : A → S → result E S) : list A → S → result E S :=
  fix go l s := match l with [] => Ok s | x :: l' => s' ← f x s; go l' s' end.
Definition opt_result {E A S} (f : A → S → result E S) (o : option A) (s : S) : result E S :=
  match o with Some x => f x s | None => Ok s end.

Definition fold_outcome {E A S} (f : A → S → outcome E S) : list A → S → outcome E S :=
  fix go l s := match l with [] => Done s | x :: l' => s' ← f x s; go l' s' end.

Lemma fold_outcome_app {E A S} (f : A → S → outcome E S) a b s :
  fold_outcome f (a ++ b) s = (s' ← fold_outcome f a s; fold_outcome f b s').
Proof. revert s. induction a as [|x a IH]; intros s; simpl; [done|]. by destruct (f x s); simpl. Qed.

(** An invariant of a loop whose body may fail. *)
Lemma fold_outcome_inv {E A S} (P : list A → S → Prop) (f : A → S → outcome E S) l s :
  P [] s →
  (∀ pre x post s, l = pre ++ x :: post → P pre s → ∃ s', f x s = Done s' ∧ P (pre ++ [x]) s') →
  ∃ s', fold_outcome f l s = Done s' ∧ P l s'.
Proof.
  intros H0 Hstep.
  cut (∀ post pre s, l = pre ++ post → P pre s → ∃ s', fold_outcome f post s = Done s' ∧ P l s').
  { intros H. by apply (H l []). }
  clear s H0. induction post as [|x post IH]; intros pre s Heq HP; simpl.
  { rewrite app_nil_r in Heq. subst pre. by eexists. }
  destruct (Hstep pre x post s Heq HP) as (s' & -> & HP'). simpl.
  apply (IH (pre ++ [x])); [|done]. by rewrite <- app_assoc.
Qed.

Lemma fold_result_app {E A S} (f : A → S → result E S) a b s :
  fold_result f (a ++ b) s = (s' ← fold_result f a s; fold_result f b s').
Proof. revert s. induction a as [|x a IH]; intros s; simpl; [done|]. by destruct (f x s); simpl. Qed.

Definition is_fuel {E A} (r : outcome E A) : bool :=
  match r with OutOfFuel => true | _ => false end.

Lemma result_bind_ok {E A B} (f : A → result E B) m b :
  m ≫= f = Ok b ↔ ∃ a, m = Ok a ∧ f a = Ok b.
Proof. destruct m; simpl; naive_solver. Qed.

Lemma outcome_bind_done {E A B} (f : A → outcome E B) m b :
  m ≫= f = Done b ↔ ∃ a, m = Done a ∧ f a = Done b.
Proof. destruct m; simpl; naive_solver. Qed.

Lemma bind_done {E A B} (a : A) (f : A → outcome E B) : Done a ≫= f = f a.
Proof. done. Qed.

Lemma outcome_bind_total {E A B} (f : A → outcome E B) m :
  m ≠ OutOfFuel → (∀ a, m = Done a → f a ≠ OutOfFuel) → m ≫= f ≠ OutOfFuel.
Proof. destruct m; simpl; naive_solver. Qed.

Lemma lift_total {E A} (r : result E A) : lift r ≠ OutOfFuel.
Proof. by destruct r. Qed.

(** [bounded sz k r]: the fuelled computation [r] does not run out, and its
    answer, if it has one, is smaller than [k] in the measure [sz].  The
    termination proofs of the parsers compose with [bounded_bind]. *)
Definition bounded {E A} (sz : A → nat) (k : nat) (r : outcome E A) : Prop :=
  match r with Done a => (sz a < k)%nat | Fail _ => True | OutOfFuel => False end.

Lemma bounded_bind {E A B} (sa : A → nat) (sb : B → nat) k k' m (f : A → outcome E B) :
  bounded sa k m → (∀ a, (sa a < k)%nat → bounded sb k' (f a)) → bounded sb k' (m ≫= f).
Proof. destruct m; simpl; naive_solver. Qed.

Lemma bounded_mono {E A} (sz : A → nat) k k' (r : outcome E A) :
  bounded sz k r → (k ≤ k')%nat → bounded sz k' r.
Proof. destruct r; simpl; [lia|done..]. Qed.

Lemma bounded_total {E A} (sz : A → nat) k (r : outcome E A) : bounded sz k r → r ≠ OutOfFuel.
Proof. by destruct r. Qed.

(** [tolerates P r]: [r] answers a value in [P], or runs out of fuel.  With a
    [bounded] fact this gives the answer without any arithmetic on fuel. *)
Definition tolerates {E A} (P : A → Prop) (r : outcome E A) : Prop :=
  match r with Done a => P a | Fail _ => False | OutOfFuel => True end.

Lemma tolerates_bind {E A B} (P : A → Prop) (Q : B → Prop) m (f : A → outcome E B) :
  tolerates P m → (∀ a, P a → tolerates Q (f a)) → tolerates Q (m ≫= f).
Proof. destruct m; simpl; naive_solver. Qed.

Lemma tolerates_done {E A} (P : A → Prop) (r : outcome E A) :
  tolerates P r → r ≠ OutOfFuel → ∃ a, r = Done a ∧ P a.
Proof. destruct r; simpl; naive_solver. Qed.

(** ** Machine integers

    The widths the compiler uses: [u32] for source positions, counts and
    byte sizes, [i64] for Forth cells.  Arithmetic wraps as in a release
    build; [saturating_*] and [wrapping_*] are the methods of those names. *)

Definition u32_max : Z := 2 ^ 32 - 1.
Definition u32_wrap (z : Z) : Z := z mod 2 ^ 32.
Definition u32_add (a b : Z) : Z := u32_wrap (a + b).
Definition u32_sat_add (a b : Z) : Z := Z.min u32_max (a + b).
Definition u32_sat_mul (a b : Z) : Z := Z.min u32_max (a * b).
Definition u64_wrap (z : Z) : Z := z mod 2 ^ 64.
Definition i64_wrap (z : Z) : Z := (z + 2 ^ 63) mod 2 ^ 64 - 2 ^ 63.

Definition is_u32 (z : Z) : Prop := 0 ≤ z < 2 ^ 32.
Definition is_i64 (z : Z) : Prop := - 2 ^ 63 ≤ z < 2 ^ 63.

Lemma u32_wrap_range z : is_u32 (u32_wrap z).
Proof. unfold is_u32, u32_wrap. apply Z.mod_pos_bound. lia. Qed.

Lemma u32_wrap_small z : is_u32 z → u32_wrap z = z.
Proof. unfold is_u32, u32_wrap. intros. by apply Z.mod_small. Qed.

Lemma i64_wrap_range z : is_i64 (i64_wrap z).
Proof.
  unfold is_i64, i64_wrap.
  pose proof (Z.mod_pos_bound (z + 2 ^ 63) (2 ^ 64) eq_refl). lia.
Qed.

Lemma i64_wrap_small z : is_i64 z → i64_wrap z = z.
Proof. unfold is_i64, i64_wrap. intros. rewrite Z.mod_small; lia. Qed.

Lemma i64_wrap_mod z : (i64_wrap z) mod 2 ^ 64 = z mod 2 ^ 64.
Proof.
  unfold i64_wrap. rewrite Zminus_mod, Zmod_mod, <- Zminus_mod. f_equal. lia.
Qed.

Lemma i64_wrap_congr a b : a mod 2 ^ 64 = b mod 2 ^ 64 → i64_wrap a = i64_wrap b.
Proof.
  unfold i64_wrap. intros H. f_equal.
  by rewrite Zplus_mod, H, <- Zplus_mod.
Qed.

(** [i32], the width of ranks, weights and lengths in the layout engine. *)
Definition i32_wrap (z : Z) : Z := (z + 2 ^ 31) mod 2 ^ 32 - 2 ^ 31.
Definition i32_max : Z := 2 ^ 31 - 1.
Definition i32_min : Z := - 2 ^ 31.
Definition is_i32 (z : Z) : Prop := i32_min ≤ z ≤ i32_max.

Lemma i32_wrap_range z : is_i32 (i32_wrap z).
Proof.
  unfold is_i32, i32_wrap, i32_min, i32_max.
  pose proof (Z.mod_pos_bound (z + 2 ^ 31) (2 ^ 32) eq_refl). lia.
Qed.
Lemma i32_wrap_small z : is_i32 z → i32_wrap z = z.
Proof. unfold is_i32, i32_wrap, i32_min, i32_max. intros. rewrite Z.mod_small; lia. Qed.
Lemma i32_wrap_add a b : i32_wrap (i32_wrap a + b) = i32_wrap (a + b).
Proof.
  unfold i32_wrap. f_equal.
  replace ((a + 2 ^ 31) mod 2 ^ 32 - 2 ^ 31 + b + 2 ^ 31) with ((a + 2 ^ 31) mod 2 ^ 32 + b) by lia.
  rewrite Zplus_mod_idemp_l. f_equal. lia.
Qed.

(** Equality modulo 2^32, which [i32] arithmetic respects. *)
Definition eqm (a b : Z) : Prop := a mod 2 ^ 32 = b mod 2 ^ 32.
#[export] Instance eqm_equiv : Equivalence eqm.
Proof. split; unfold eqm; intros x; congruence. Qed.
#[export] Instance eqm_add : Proper (eqm ==> eqm ==> eqm) Z.add.
Proof. intros a b E c d F. unfold eqm in *. by rewrite Zplus_mod, E, F, <- Zplus_mod. Qed.
#[export] Instance eqm_sub : Proper (eqm ==> eqm ==> eqm) Z.sub.
Proof. intros a b E c d F. unfold eqm in *. by rewrite Zminus_mod, E, F, <- Zminus_mod. Qed.
#[export] Instance eqm_mul : Proper (eqm ==> eqm ==> eqm) Z.mul.
Proof. intros a b E c d F. unfold eqm in *. by rewrite Zmult_mod, E, F, <- Zmult_mod. Qed.
Lemma wrap_eqm a : eqm (i32_wrap a) a.
Proof. unfold eqm, i32_wrap. rewrite Zminus_mod_idemp_l. f_equal. lia. Qed.
Lemma eqm_wrap a b : eqm a b → i32_wrap a = i32_wrap b.
Proof.
  unfold eqm, i32_wrap. intros E. f_equal. rewrite Zplus_mod, E, <- Zplus_mod. done.
Qed.

(** A decidable fact about data that is written out. *)
Ltac by_list := apply (bool_decide_unpack _); vm_compute; exact I.
