(* ===== verification/Bytes.v ===== *)
(** * Bytes and strings

    Rust's [String]/[&str] are byte strings ([string], a list of [ascii]
    bytes).  This file gives the pieces of the standard library the front end
    calls on them: ASCII predicates and case folding, prefix tests and
    splitting, UTF-8 validation, decimal printing, and the lemmas about them
    the components share.  At the end are the positions in a source text and the
    errors that name them (error.rs). *)
From S2P Require Import Prelude.

#[global] Arguments Stdlib.Strings.String.append : simpl nomatch.

(** ** Bytes *)

Definition byte_val (b : ascii) : Z := Z.of_N (N_of_ascii b).
Definition byte_of (z : Z) : ascii := ascii_of_N (Z.to_N z).

Definition in_range (lo hi : Z) (b : ascii) : bool :=
  (lo <=? byte_val b) && (byte_val b <=? hi).

Definition is_digit : ascii → bool := in_range 48 57.
Definition is_upper : ascii → bool := in_range 65 90.
Definition is_lower : ascii → bool := in_range 97 122.
Definition is_alpha (b : ascii) : bool := is_upper b || is_lower b.
Definition is_alnum (b : ascii) : bool := is_alpha b || is_digit b.
Definition is_hexdigit (b : ascii) : bool :=
  is_digit b || in_range 97 102 b || in_range 65 70 b.

(** The whitespace tests of the source: the four bytes the lexers compare
    with; [u8::is_ascii_whitespace], which adds form feed; and
    [(b as char).is_whitespace()], Unicode's [White_Space] restricted to the
    first 256 code points. *)
Definition is_ws (b : ascii) : bool :=
  (b =? " ")%char || (b =? "009")%char || (b =? "013")%char || (b =? "010")%char.
Definition is_ascii_ws (b : ascii) : bool := is_ws b || (b =? "012")%char.
Definition is_char_ws (b : ascii) : bool :=
  in_range 9 13 b || (b =? " ")%char || (byte_val b =? 133) || (byte_val b =? 160).

Definition lower_byte (b : ascii) : ascii :=
  if is_upper b then byte_of (byte_val b + 32) else b.

#[global] Arguments lower_byte : simpl never.
#[global] Arguments byte_val : simpl never.
#[global] Arguments in_range : simpl never.

Lemma byte_val_range b : 0 ≤ byte_val b < 256.
Proof. unfold byte_val. pose proof (N_ascii_bounded b). lia. Qed.

Lemma byte_of_val b : byte_of (byte_val b) = b.
Proof. unfold byte_of, byte_val. by rewrite N2Z.id, ascii_N_embedding. Qed.

Lemma byte_val_of z : 0 ≤ z < 256 → byte_val (byte_of z) = z.
Proof.
  intros. unfold byte_of, byte_val.
  rewrite N_ascii_embedding by lia. lia.
Qed.

Lemma byte_val_inj a b : byte_val a = byte_val b → a = b.
Proof. intros H. by rewrite <- (byte_of_val a), <- (byte_of_val b), H. Qed.

(** A boolean statement about one byte is checked on all 256 of them. *)
Ltac byte_cases b := destruct b as [[] [] [] [] [] [] [] []]; vm_compute; try done.

Lemma lower_byte_idem b : lower_byte (lower_byte b) = lower_byte b.
Proof. byte_cases b. Qed.

Lemma lower_byte_not_upper b : is_upper (lower_byte b) = false.
Proof. byte_cases b. Qed.

Lemma is_ws_lower b : is_ws (lower_byte b) = is_ws b.
Proof. byte_cases b. Qed.

Lemma digit_not_ws b : is_digit b = true → is_ws b = false.
Proof. byte_cases b. Qed.

(** ** Strings *)

Fixpoint str_all (p : ascii → bool) (s : string) : bool :=
  match s with EmptyString => true | String b s' => p b && str_all p s' end.
Fixpoint str_any (p : ascii → bool) (s : string) : bool :=
  match s with EmptyString => false | String b s' => p b || str_any p s' end.
Fixpoint str_map (f : ascii → ascii) (s : string) : string :=
  match s with EmptyString => EmptyString | String b s' => String (f b) (str_map f s') end.

(** [str::to_ascii_lowercase] and [str::eq_ignore_ascii_case]. *)
Definition lowercase : string → string := str_map lower_byte.
Definition eq_nocase (a b : string) : bool := bool_decide (lowercase a = lowercase b).

Definition slen (s : string) : Z := Z.of_nat (String.length s).

Fixpoint str_take (n : nat) (s : string) : string :=
  match n, s with
  | S n, String b s' => String b (str_take n s')
  | _, _ => EmptyString
  end.
Fixpoint str_drop (n : nat) (s : string) : string :=
  match n, s with
  | S n, String _ s' => str_drop n s'
  | _, _ => s
  end.

(** The longest prefix whose bytes satisfy [p], and what follows it. *)
Fixpoint span_while (p : ascii → bool) (s : string) : string * string :=
  match s with
  | EmptyString => (EmptyString, EmptyString)
  | String b s' =>
      if p b then let '(pre, rest) := span_while p s' in (String b pre, rest)
      else (EmptyString, s)
  end.

(** [str::strip_prefix]. *)
Fixpoint strip_prefix (pre s : string) : option string :=
  match pre, s with
  | EmptyString, _ => Some s
  | String a pre', String b s' => if (a =? b)%char then strip_prefix pre' s' else None
  | String _ _, EmptyString => None
  end.
Definition starts_with (pre s : string) : bool :=
  match strip_prefix pre s with Some _ => true | None => false end.

Fixpoint last_byte (s : string) : option ascii :=
  match s with
  | EmptyString => None
  | String b EmptyString => Some b
  | String _ s' => last_byte s'
  end.
Fixpoint drop_last (s : string) : string :=
  match s with
  | EmptyString | String _ EmptyString => EmptyString
  | String b s' => String b (drop_last s')
  end.

(** [trim_end_matches(c)]. *)
Fixpoint trim_end_byte (c : ascii) (s : string) : string :=
  match s with
  | EmptyString => EmptyString
  | String b s' =>
      match trim_end_byte c s' with
      | EmptyString => if (b =? c)%char then EmptyString else String b EmptyString
      | t => String b t
      end
  end.

(** [str::contains] on one byte, and [str::replace] of one byte by a string. *)
Definition contains_byte (c : ascii) : string → bool := str_any (λ b, (b =? c)%char).
Fixpoint replace_byte (c : ascii) (by_ : string) (s : string) : string :=
  match s with
  | EmptyString => EmptyString
  | String b s' =>
      if (b =? c)%char then by_ +:+ replace_byte c by_ s' else String b (replace_byte c by_ s')
  end.

(** [str::split_once] at a byte. *)
Fixpoint split_once (c : ascii) (s : string) : option (string * string) :=
  match s with
  | EmptyString => None
  | String b s' =>
      if (b =? c)%char then Some (EmptyString, s')
      else match split_once c s' with
           | Some (l, r) => Some (String b l, r)
           | None => None
           end
  end.

Fixpoint concat_sep (sep : string) (l : list string) : string :=
  match l with
  | [] => EmptyString
  | [x] => x
  | x :: l' => x +:+ sep +:+ concat_sep sep l'
  end.

(** ** UTF-8

    [std::str::from_utf8] accepts exactly the well-formed byte sequences of
    the Unicode standard's table 3-7. *)

Definition is_cont : ascii → bool := in_range 128 191.

Fixpoint utf8_valid (s : string) : bool :=
  match s with
  | EmptyString => true
  | String b0 r0 =>
      if in_range 0 127 b0 then utf8_valid r0 else
      match r0 with
      | EmptyString => false
      | String b1 r1 =>
          if in_range 194 223 b0 then is_cont b1 && utf8_valid r1 else
          match r1 with
          | EmptyString => false
          | String b2 r2 =>
              if in_range 224 239 b0 then
                (if byte_val b0 =? 224 then in_range 160 191 b1
                 else if byte_val b0 =? 237 then in_range 128 159 b1
                 else is_cont b1) && is_cont b2 && utf8_valid r2
              else
              match r2 with
              | EmptyString => false
              | String b3 r3 =>
                  in_range 240 244 b0 &&
                  (if byte_val b0 =? 240 then in_range 144 191 b1
                   else if byte_val b0 =? 244 then in_range 128 143 b1
                   else is_cont b1) && is_cont b2 && is_cont b3 && utf8_valid r3
              end
          end
      end
  end.

Definition from_utf8 (s : string) : option string :=
  if utf8_valid s then Some s else None.
(** [std::str::from_utf8(..).unwrap_or("")]. *)
Definition from_utf8_or_empty (s : string) : string :=
  match from_utf8 s with Some t => t | None => EmptyString end.

(** The string holding the one character [b as char]. *)
Definition char_of_u8 (b : ascii) : string :=
  if byte_val b <? 128 then String b EmptyString
  else String (byte_of (192 + Z.shiftr (byte_val b) 6))
         (String (byte_of (128 + Z.land (byte_val b) 63)) EmptyString).

(** The length in bytes of the [White_Space] character a string starts with. *)
Definition ws_char_len (s : string) : option nat :=
  match s with
  | EmptyString => None
  | String b0 r0 =>
      if in_range 9 13 b0 || (b0 =? " ")%char then Some 1%nat else
      match r0 with
      | EmptyString => None
      | String b1 r1 =>
          if byte_val b0 =? 194 then
            if (byte_val b1 =? 133) || (byte_val b1 =? 160) then Some 2%nat else None
          else
          match r1 with
          | EmptyString => None
          | String b2 _ =>
              let v := (byte_val b0 * 256 + byte_val b1) * 256 + byte_val b2 in
              if (v =? 14785152)                              (* U+1680 *)
                 || ((14844032 <=? v) && (v <=? 14844042))    (* U+2000..U+200A *)
                 || (v =? 14844072) || (v =? 14844073)        (* U+2028, U+2029 *)
                 || (v =? 14844079)                           (* U+202F *)
                 || (v =? 14844319)                           (* U+205F *)
                 || (v =? 14909568)                           (* U+3000 *)
              then Some 3%nat else None
          end
      end
  end.

(** [str::split_whitespace]: [cur] is the word being read, [skip] the bytes
    left of the whitespace character being skipped. *)
Fixpoint split_ws_go (cur : string) (skip : nat) (s : string) : list string :=
  match s with
  | EmptyString => if bool_decide (cur = EmptyString) then [] else [cur]
  | String b s' =>
      match skip with
      | S skip' => split_ws_go cur skip' s'
      | O =>
          match ws_char_len s with
          | Some n =>
              if bool_decide (cur = EmptyString) then split_ws_go EmptyString (pred n) s'
              else cur :: split_ws_go EmptyString (pred n) s'
          | None => split_ws_go (cur +:+ String b EmptyString) 0 s'
          end
      end
  end.
Definition split_whitespace (s : string) : list string := split_ws_go EmptyString 0 s.

Example split_whitespace_ex :
  split_whitespace " n1  n2
 -- x " = ["n1"; "n2"; "--"; "x"].
Proof. reflexivity. Qed.

(** ** Lemmas on strings *)

Lemma str_app_nil_r (s : string) : s +:+ "" = s.
Proof. induction s; simpl; [done|]. by f_equal/=. Qed.

Lemma str_app_assoc (a b c : string) : (a +:+ b) +:+ c = a +:+ (b +:+ c).
Proof. induction a; simpl; [done|]. by f_equal/=. Qed.

Lemma str_app_cons b (s t : string) : String b s +:+ t = String b (s +:+ t).
Proof. done. Qed.

Lemma str_app_nil_l (s : string) : "" +:+ s = s.
Proof. done. Qed.

Lemma str_length_app (a b : string) :
  String.length (a +:+ b) = (String.length a + String.length b)%nat.
Proof. induction a; simpl; [done|]. by rewrite <- IHa. Qed.

Lemma slen_app (a b : string) : slen (a +:+ b) = slen a + slen b.
Proof. unfold slen. rewrite str_length_app. lia. Qed.

Lemma slen_cons c (s : string) : slen (String c s) = 1 + slen s.
Proof. unfold slen. simpl. lia. Qed.

Lemma slen_nonneg (s : string) : 0 ≤ slen s.
Proof. unfold slen. lia. Qed.

Lemma str_all_app p (a b : string) : str_all p (a +:+ b) = str_all p a && str_all p b.
Proof. induction a; simpl; [done|]. by rewrite IHa, andb_assoc. Qed.

Lemma str_any_app p (a b : string) : str_any p (a +:+ b) = str_any p a || str_any p b.
Proof. induction a; simpl; [done|]. by rewrite IHa, orb_assoc. Qed.

Lemma str_all_impl (p q : ascii → bool) (s : string) :
  (∀ b, p b = true → q b = true) → str_all p s = true → str_all q s = true.
Proof.
  intros Hpq. induction s as [|b s IH]; simpl; [done|].
  rewrite !andb_true_iff. intuition.
Qed.

Lemma str_take_app (a b : string) : str_take (String.length a) (a +:+ b) = a.
Proof. induction a as [|c a IH]; [by destruct b|]. cbn. by rewrite IH. Qed.

Lemma str_drop_app (a b : string) : str_drop (String.length a) (a +:+ b) = b.
Proof. induction a as [|c a IH]; [done|]. cbn. by rewrite IH. Qed.

Lemma lowercase_app (a b : string) : lowercase (a +:+ b) = lowercase a +:+ lowercase b.
Proof. unfold lowercase. induction a; simpl; [done|]. by f_equal/=. Qed.

Lemma lowercase_idem (s : string) : lowercase (lowercase s) = lowercase s.
Proof.
  unfold lowercase. induction s as [|b s IH]; simpl; [done|].
  by rewrite lower_byte_idem, IH.
Qed.

Lemma eq_nocase_spec a b : eq_nocase a b = true ↔ lowercase a = lowercase b.
Proof. apply bool_decide_eq_true. Qed.

Lemma span_while_app p (s pre rest : string) :
  span_while p s = (pre, rest) → s = pre +:+ rest ∧ str_all p pre = true.
Proof.
  revert pre rest. induction s as [|b s IH]; simpl; intros pre rest H.
  - by simplify_eq.
  - destruct (p b) eqn:Hp; [|by simplify_eq].
    destruct (span_while p s) as [pre' rest'] eqn:E. simplify_eq.
    destruct (IH _ _ eq_refl) as [-> Hall]. simpl. by rewrite Hp, Hall.
Qed.

Lemma span_while_stop p (s pre rest : string) :
  span_while p s = (pre, rest) →
  rest = EmptyString ∨ ∃ b r, rest = String b r ∧ p b = false.
Proof.
  revert pre rest. induction s as [|b s IH]; simpl; intros pre rest H.
  - simplify_eq. by left.
  - destruct (p b) eqn:Hp; [|simplify_eq; right; eauto].
    destruct (span_while p s) as [pre' rest'] eqn:E. simplify_eq. eauto.
Qed.

Lemma span_while_nonempty p (b : ascii) (s pre rest : string) :
  span_while p (String b s) = (pre, rest) → p b = true → ∃ c, pre = String b c.
Proof.
  simpl. intros H Hb. rewrite Hb in H. destruct (span_while p s). simplify_eq. eauto.
Qed.

Lemma span_while_all p (s : string) b r :
  str_all p s = true → p b = false → span_while p (s +:+ String b r) = (s, String b r).
Proof.
  induction s as [|c s IH]; simpl; intros Hs Hb; [by rewrite Hb|].
  apply andb_true_iff in Hs as [Hc Hs]. by rewrite Hc, IH.
Qed.

Lemma span_while_all_nil p (s : string) :
  str_all p s = true → span_while p s = (s, EmptyString).
Proof.
  induction s as [|c s IH]; simpl; intros Hs; [done|].
  apply andb_true_iff in Hs as [Hc Hs]. by rewrite Hc, IH.
Qed.

Lemma strip_prefix_Some pre (s r : string) :
  strip_prefix pre s = Some r ↔ s = pre +:+ r.
Proof.
  revert s. induction pre as [|a pre IH]; intros [|b s]; simpl.
  - naive_solver.
  - naive_solver.
  - naive_solver.
  - destruct (Stdlib.Strings.Ascii.eqb_spec a b); naive_solver.
Qed.

#[export] Hint Rewrite str_app_nil_r str_app_assoc str_app_cons str_app_nil_l
  slen_app slen_cons : str.

(** * Source positions and compile errors ([src/compiler/error.rs]) *)

(** 1-based [line] and [col], 0-based [byte_offset], all [u32]. *)
Record Pos := mkPos { p_line : Z; p_col : Z; p_byte_offset : Z }.
Record Span := mkSpan { sp_start : Pos; sp_end : Pos }.

Definition START : Pos := mkPos 1 1 0.
Definition point (p : Pos) : Span := mkSpan p p.

(** [(self.end.byte_offset - self.start.byte_offset) as usize]: the [u32]
    subtraction wraps. *)
Definition span_len (s : Span) : Z :=
  u32_wrap (p_byte_offset (sp_end s) - p_byte_offset (sp_start s)).

#[export] Instance Pos_eq_dec : EqDecision Pos.
Proof. solve_decision. Defined.
#[export] Instance Span_eq_dec : EqDecision Span.
Proof. solve_decision. Defined.
#[export] Program Instance Pos_countable : Countable Pos :=
  inj_countable' (λ p, (p_line p, p_col p, p_byte_offset p))
                 (λ '(l, c, b), mkPos l c b) _.
Next Obligation. by intros []. Qed.
#[export] Program Instance Span_countable : Countable Span :=
  inj_countable' (λ s, (sp_start s, sp_end s)) (λ '(a, b), mkSpan a b) _.
Next Obligation. by intros []. Qed.

Inductive CompileError :=
  | UnterminatedString (kind : string) (opened_at : Span)
  | UnterminatedBlockComment (opened_at : Span)
  | MalformedNumber (token : string) (at_ : Span) (reason : string).

#[export] Instance CompileError_eq_dec : EqDecision CompileError.
Proof. solve_decision. Defined.

(** The [Display] implementations. *)
Definition show_pos (p : Pos) : string :=
  "line " +:+ pretty (p_line p) +:+ ", column " +:+ pretty (p_col p).
Definition show_span (s : Span) : string := show_pos (sp_start s).

Definition show_compile_error (e : CompileError) : string :=
  match e with
  | UnterminatedString kind at_ =>
      "unterminated " +:+ kind +:+ " string opened at " +:+ show_span at_
  | UnterminatedBlockComment at_ =>
      "unterminated ( comment opened at " +:+ show_span at_
  | MalformedNumber token at_ reason =>
      "malformed number `" +:+ token +:+ "` at " +:+ show_span at_ +:+ ": " +:+ reason
  end.

Example show_pos_ex : show_pos (mkPos 3 14 40) = "line 3, column 14".
Proof. vm_compute. reflexivity. Qed.
