(* ===== verification/F64.v ===== *)
(** * IEEE-754 doubles

    Rust's [f64] as the [spec_float] values of precision 53 and maximal
    exponent 1024.  [f64_parse] is [str::parse::<f64>]: the grammar of the
    standard library's documentation, the value correctly rounded (to
    nearest, ties to even).  [f64_display] and [f64_debug] are the [{}] and
    [{:?}] formats: the shortest digits that read back as the number.  At the end is the arithmetic
    the layout of diagrams does with them. *)
From S2P Require Import Prelude Bytes.
From Stdlib Require Import SpecFloat.

Abbreviation f64 := spec_float.
Definition f64_prec : Z := 53.
Definition f64_emax : Z := 1024.

#[export] Instance f64_eq_dec : EqDecision f64.
Proof. solve_decision. Defined.

(** ** Reading *)

(** Digits of a string of ASCII digits, most significant first. *)
Fixpoint digits_val (acc : Z) (s : string) : Z :=
  match s with
  | EmptyString => acc
  | String b s' => digits_val (acc * 10 + (byte_val b - 48)) s'
  end.

(** [m * 10^e], correctly rounded.  [SFdiv_core_binary] and
    [binary_round] take mantissas of any size. *)
Definition f64_of_decimal (neg : bool) (m : Z) (e : Z) : f64 :=
  match m with
  | Zpos p =>
      if 0 <=? e then
        match m * 10 ^ e with
        | Zpos q => binary_round f64_prec f64_emax neg q 0
        | _ => S754_zero neg
        end
      else
        match 10 ^ (- e) with
        | Zpos q =>
            let '(mz, ez, lz) := SFdiv_core_binary f64_prec f64_emax (Zpos p) 0 (Zpos q) 0 in
            binary_round_aux f64_prec f64_emax neg mz ez lz
        | _ => S754_zero neg
        end
  | _ => S754_zero neg
  end.

Definition split_sign (s : string) : bool * string :=
  match s with
  | String "-" r => (true, r)
  | String "+" r => (false, r)
  | _ => (false, s)
  end.

(** [Exp ::= 'e' Sign? Digit+]; the empty string stands for exponent 0. *)
Definition parse_exp (s : string) : option Z :=
  match s with
  | EmptyString => Some 0
  | String c r =>
      if (c =? "e")%char || (c =? "E")%char then
        let '(neg, ds) := split_sign r in
        if bool_decide (ds = EmptyString) then None
        else if str_all is_digit ds then
          let v := digits_val 0 ds in Some (if neg then - v else v)
        else None
      else None
  end.

(** [Number ::= ( Digit+ | Digit+ '.' Digit* | Digit* '.' Digit+ ) Exp?]. *)
Definition parse_number (neg : bool) (s : string) : option f64 :=
  let '(ip, r) := span_while is_digit s in
  let '(fp, r') :=
    match r with
    | String "." r1 => span_while is_digit r1
    | _ => (EmptyString, r)
    end in
  if bool_decide (ip = EmptyString) && bool_decide (fp = EmptyString) then None
  else match parse_exp r' with
       | Some e => Some (f64_of_decimal neg (digits_val 0 (ip +:+ fp)) (e - slen fp))
       | None => None
       end.

Definition f64_parse (s : string) : option f64 :=
  let '(neg, r) := split_sign s in
  if eq_nocase r "inf" || eq_nocase r "infinity" then Some (S754_infinity neg)
  else if eq_nocase r "nan" then Some S754_nan
  else parse_number neg r.

Definition f64_neg (x : f64) : f64 := SFopp x.

(** ** Classification *)

Definition f64_is_finite (x : f64) : bool :=
  match x with S754_zero _ | S754_finite _ _ _ => true | _ => false end.

(** The exact value of a finite double as [m * 2^e]. *)
Definition f64_exact (x : f64) : Z * Z :=
  match x with
  | S754_finite s m e => ((if s then - Zpos m else Zpos m), e)
  | _ => (0, 0)
  end.

(** [x.fract() == 0.0] on finite doubles ([inf.fract()] is NaN). *)
Definition f64_is_integer (x : f64) : bool :=
  match x with
  | S754_zero _ => true
  | S754_finite _ m e => (0 <=? e) || (Z.pos m mod 2 ^ (- e) =? 0)
  | _ => false
  end.

(** The integer value of a double for which [f64_is_integer] holds. *)
Definition f64_to_Z (x : f64) : Z :=
  let '(m, e) := f64_exact x in
  if 0 <=? e then m * 2 ^ e else Z.quot m (2 ^ (- e)).

Definition f64_of_Z (z : Z) : f64 :=
  match z with
  | Z0 => S754_zero false
  | Zpos p => binary_round f64_prec f64_emax false p 0
  | Zneg p => binary_round f64_prec f64_emax true p 0
  end.

Definition f64_le (a b : f64) : bool := SFleb a b.
Definition f64_lt (a b : f64) : bool := SFltb a b.
Definition f64_abs (a : f64) : f64 := SFabs a.

Example f64_parse_ex1 : f64_parse "1.5e0" = Some (S754_finite false 6755399441055744 (-52)).
Proof. vm_compute. reflexivity. Qed.
Example f64_parse_ex2 : f64_parse "0.1" = Some (S754_finite false 7205759403792794 (-56)).
Proof. vm_compute. reflexivity. Qed.
Example f64_parse_ex3 : f64_parse "1.5.3" = None ∧ f64_parse "." = None ∧ f64_parse "1e" = None.
Proof. vm_compute. done. Qed.
Example f64_parse_ex4 : f64_parse "1e400" = Some (S754_infinity false).
Proof. vm_compute. reflexivity. Qed.

(** ** Printing *)

(** The decimal exponent of [num / den > 0]: [10^(E-1) <= num/den < 10^E],
    searched upwards from [lo]. *)
Fixpoint dec_exponent (fuel : nat) (num den lo : Z) : Z :=
  match fuel with
  | O => lo
  | S fuel' =>
      if (if 0 <=? lo then num <? den * 10 ^ lo else num * 10 ^ (- lo) <? den)
      then lo else dec_exponent fuel' num den (lo + 1)
  end.

(** [floor (num / den / 10^s)] and whether the remainder is at least half. *)
Definition dec_floor (num den s : Z) : Z * bool :=
  let '(n, d) := if 0 <=? s then (num, den * 10 ^ s) else (num * 10 ^ (- s), den) in
  (n / d, d <=? 2 * (n mod d)).

(** The shortest digits [c * 10^(E-k)] that read back as the positive double
    [x], the closest such where two of the same length do. *)
Fixpoint shortest (fuel : nat) (x : f64) (num den E k : Z) : Z * Z :=
  let s := E - k in
  let '(q, up) := dec_floor num den s in
  let lo_ok := bool_decide (f64_of_decimal false q s = x) in
  let hi_ok := bool_decide (f64_of_decimal false (q + 1) s = x) in
  match fuel with
  | O => (q, s)
  | S fuel' =>
      if hi_ok && (negb lo_ok || up) then (q + 1, s)
      else if lo_ok then (q, s)
      else shortest fuel' x num den E (k + 1)
  end.

Fixpoint strip_zeros (fuel : nat) (c s : Z) : Z * Z :=
  match fuel with
  | O => (c, s)
  | S fuel' => if c mod 10 =? 0 then strip_zeros fuel' (c / 10) (s + 1) else (c, s)
  end.

(** The digits and the decimal exponent [E] of [0.d1d2... * 10^E]. *)
Definition f64_digits (m : positive) (e : Z) : string * Z :=
  let num := if 0 <=? e then Zpos m * 2 ^ e else Zpos m in
  let den := if 0 <=? e then 1 else 2 ^ (- e) in
  let lo := (Z.log2 (Zpos m) + e) * 30103 / 100000 - 2 in
  let E := dec_exponent 6 num den lo in
  let '(c, s) := shortest 17 (S754_finite false m e) num den E 1 in
  let '(c, s) := strip_zeros 17 c s in
  (pretty c, s + slen (pretty c)).

Fixpoint zeros (n : nat) : string :=
  match n with O => "" | S n' => String "0" (zeros n') end.

(** [flt2dec::digits_to_dec_str], with at least [frac] fractional digits. *)
Definition dec_str (ds : string) (E : Z) (frac : nat) : string :=
  let n := slen ds in
  if E <=? 0 then "0." +:+ zeros (Z.to_nat (- E)) +:+ ds
  else if E <? n then str_take (Z.to_nat E) ds +:+ "." +:+ str_drop (Z.to_nat E) ds
  else ds +:+ zeros (Z.to_nat (E - n)) +:+
       match frac with O => "" | _ => "." +:+ zeros frac end.

(** [flt2dec::digits_to_exp_str]. *)
Definition exp_str (ds : string) (E : Z) : string :=
  match ds with
  | EmptyString => ""
  | String d r => String d (match r with EmptyString => "" | _ => "." +:+ r end)
  end +:+ "e" +:+ pretty (E - 1).

Definition f64_show (body : string → Z → string) (zero : string) (x : f64) : string :=
  match x with
  | S754_nan => "NaN"
  | S754_infinity s => (if s then "-" else "") +:+ "inf"
  | S754_zero s => (if s then "-" else "") +:+ zero
  | S754_finite s m e =>
      (if s then "-" else "") +:+ (let '(ds, E) := f64_digits m e in body ds E)
  end.

Definition f64_display : f64 → string := f64_show (λ ds E, dec_str ds E 0) "0".
(** Debug switches to an exponent below [1e-4] and from [1e16] on. *)
Definition f64_debug : f64 → string :=
  f64_show (λ ds E, if (E <? -3) || (17 <=? E) then exp_str ds E else dec_str ds E 1) "0.0".

Example f64_show_ex :
  (λ s, match f64_parse s with Some x => (f64_display x, f64_debug x) | None => ("", "") end)
    <$> ["0.1"; "1.5e3"; "-2"; "1e16"; "1e15"; "0.0001"; "0.00001"; "5e-324"; "1.7976931348623157e308";
         "-0"; "123456.789"; "9007199254740993"]
  = [("0.1", "0.1"); ("1500", "1500.0"); ("-2", "-2.0"); ("10000000000000000", "1e16");
     ("1000000000000000", "1000000000000000.0"); ("0.0001", "0.0001"); ("0.00001", "1e-5");
     ("0." +:+ zeros 323 +:+ "5", "5e-324");
     ("17976931348623157" +:+ zeros 292, "1.7976931348623157e308"); ("-0", "-0.0");
     ("123456.789", "123456.789"); ("9007199254740992", "9007199254740992.0")].
Proof. vm_compute. reflexivity. Qed.

(** * Arithmetic of the layout's floating-point numbers

    Sums, products, quotients and roots round to the nearest [f64]; comparisons
    with a NaN are false. *)

Definition f64_add (a b : f64) : f64 := SFadd f64_prec f64_emax a b.
Definition f64_sub (a b : f64) : f64 := SFsub f64_prec f64_emax a b.
Definition f64_mul (a b : f64) : f64 := SFmul f64_prec f64_emax a b.
Definition f64_div (a b : f64) : f64 := SFdiv f64_prec f64_emax a b.
Definition f64_sqrt (a : f64) : f64 := SFsqrt f64_prec f64_emax a.
Definition f64_eqb (a b : f64) : bool := SFeqb a b.
Definition f64_half (a : f64) : f64 := f64_div a (f64_of_Z 2).
Definition is_nan (a : f64) : bool := match a with S754_nan => true | _ => false end.
(** [f64::min] and [f64::max] prefer the number to a NaN; of two zeros the
    second, which the language leaves open. *)
Definition f64_min (a b : f64) : f64 :=
  if is_nan a then b else if is_nan b then a else if f64_lt a b then a else b.
Definition f64_max (a b : f64) : f64 :=
  if is_nan a then b else if is_nan b then a else if f64_lt b a then a else b.
(** [f64::MAX] and [f64::MIN]. *)
Definition f64_largest : f64 := S754_finite false (2 ^ 53 - 1)%positive 971.
Definition f64_least : f64 := f64_neg f64_largest.

(** Changing the sign twice is no change. *)
Lemma f64_neg_neg x : f64_neg (f64_neg x) = x.
Proof. destruct x as [[]|[]| |[]]; reflexivity. Qed.

(** ** Order *)

(** Where a number that is no NaN stands among the others. *)
Definition f64_key (a : f64) : Z * Z * Z :=
  match a with
  | S754_infinity s => (if s then -2 else 2, 0, 0)
  | S754_finite s m e => if s then (-1, - e, Z.neg m) else (1, e, Z.pos m)
  | _ => (0, 0, 0)
  end.
Definition key_lt (a b : Z * Z * Z) : Prop :=
  let '(a1, a2, a3) := a in let '(b1, b2, b3) := b in a1 < b1 ∨ a1 = b1 ∧ (a2 < b2 ∨ a2 = b2 ∧ a3 < b3).
Lemma f64_lt_key a b : f64_lt a b = true ↔ is_nan a = false ∧ is_nan b = false ∧ key_lt (f64_key a) (f64_key b).
Proof.
  unfold f64_lt, SFltb, key_lt. destruct a as [[]|[]| |[] m e], b as [[]|[]| |[] m' e']; cbn; try (split; [intros [=]|intros (? & ? & ?)]; lia || done);
    try (split; intros; split_and?; lia || done);
    change (Pos.compare_cont Eq m m') with (Pos.compare m m');
    destruct (Z.compare_spec e e'), (Pos.compare_spec m m'); cbn; subst;
    split; intros; split_and?; try done; lia.
Qed.
(** A NaN is below and above nothing; other numbers are in a total order. *)
Lemma f64_lt_irrefl a : f64_lt a a = false.
Proof. apply not_true_is_false. rewrite f64_lt_key. destruct (f64_key a) as [[x y] z]. cbn. lia. Qed.
Lemma f64_lt_asym a b : f64_lt a b = true → f64_lt b a = false.
Proof.
  rewrite f64_lt_key. intros (_ & _ & H). apply not_true_is_false. rewrite f64_lt_key. intros (_ & _ & H').
  destruct (f64_key a) as [[x y] z], (f64_key b) as [[x' y'] z']. cbn in *. lia.
Qed.
Lemma f64_lt_between a b c : is_nan b = false → f64_lt a c = true → f64_lt a b = true ∨ f64_lt b c = true.
Proof.
  rewrite !f64_lt_key. intros Hb (Ha & Hc & H). rewrite Ha, Hb, Hc.
  destruct (f64_key a) as [[x y] z], (f64_key b) as [[x' y'] z'], (f64_key c) as [[x2 y2] z2]. cbn in *.
  enough ((x < x' ∨ x = x' ∧ (y < y' ∨ y = y' ∧ z < z')) ∨ (x' < x2 ∨ x' = x2 ∧ (y' < y2 ∨ y' = y2 ∧ z' < z2))) as [?|?]; [by left|by right|lia].
Qed.
Lemma f64_not_lt_trans a b c : is_nan b = false → f64_lt b a = false → f64_lt c b = false → f64_lt c a = false.
Proof. intros Hb H1 H2. apply not_true_is_false. intros [H|H]%(f64_lt_between c b a); congruence. Qed.
Lemma f64_max_above a b : f64_lt (f64_max a b) a = false ∧ f64_lt (f64_max a b) b = false.
Proof.
  unfold f64_max. destruct (is_nan a) eqn:Ha; [split; [by destruct a, b as [[]|[]| |[]]|apply f64_lt_irrefl]|].
  destruct (is_nan b) eqn:Hb; [split; [apply f64_lt_irrefl|by destruct b, a as [[]|[]| |[]]]|].
  destruct (f64_lt b a) eqn:E; (split; [|]); by rewrite ?f64_lt_irrefl, ?(f64_lt_asym _ _ E).
Qed.
Lemma f64_min_below a b : f64_lt a (f64_min a b) = false ∧ f64_lt b (f64_min a b) = false.
Proof.
  unfold f64_min. destruct (is_nan a) eqn:Ha; [split; [by destruct a, b as [[]|[]| |[]]|apply f64_lt_irrefl]|].
  destruct (is_nan b) eqn:Hb; [split; [apply f64_lt_irrefl|by destruct b, a as [[]|[]| |[]]]|].
  destruct (f64_lt a b) eqn:E; (split; [|]); by rewrite ?f64_lt_irrefl, ?(f64_lt_asym _ _ E).
Qed.
Lemma f64_max_nan a b : is_nan a = false → is_nan (f64_max a b) = false.
Proof. unfold f64_max. intros Ha. rewrite Ha. destruct (is_nan b) eqn:Hb; [done|]. by destruct (f64_lt b a). Qed.
Lemma f64_min_nan a b : is_nan a = false → is_nan (f64_min a b) = false.
Proof. unfold f64_min. intros Ha. rewrite Ha. destruct (is_nan b) eqn:Hb; [done|]. by destruct (f64_lt a b). Qed.
Lemma f64_max_again a b : f64_max (f64_max a b) b = f64_max a b.
Proof.
  unfold f64_max. destruct (is_nan a) eqn:Ha.
  - destruct (is_nan b) eqn:Hb; [done|]. by rewrite f64_lt_irrefl.
  - destruct (is_nan b) eqn:Hb; [by rewrite Ha|]. destruct (f64_lt b a) eqn:E; [by rewrite Ha, E|]. by rewrite Hb, f64_lt_irrefl.
Qed.
#[local] Ltac compare_cases :=
  unfold f64_lt, SFltb, f64_le, SFleb;
  match goal with |- context [SFcompare ?a ?b] =>
    destruct a as [[]|[]| |[] m e], b as [[]|[]| |[] m' e']; cbn; try done;
      change (Pos.compare_cont Eq m m') with (Pos.compare m m'); change (Pos.compare_cont Eq m' m) with (Pos.compare m' m);
      rewrite (Z.compare_antisym e e'), (Pos.compare_antisym m m');
      destruct (e ?= e')%Z; cbn; try done; by destruct (Pos.compare m m')
  end.
Lemma f64_not_lt_le a b : is_nan a = false → is_nan b = false → f64_lt b a = false → f64_le a b = true.
Proof. compare_cases. Qed.
Lemma f64_lt_not_le a b : f64_lt a b = true → f64_le b a = false.
Proof. compare_cases. Qed.

(** ** Sums that are numbers *)

Lemma shr_1_pos r : 0 ≤ shr_m r → 0 ≤ shr_m (shr_1 r).
Proof. destruct r as [[|[p|p|]|[p|p|]] ? ?]; cbn; lia. Qed.
Lemma shr_pos p : ∀ r, 0 ≤ shr_m r → 0 ≤ shr_m (SpecFloat.iter_pos shr_1 p r).
Proof. induction p as [p IH|p IH|]; intros r Hr; cbn [iter_pos]; [do 2 apply IH|do 2 apply IH|]; by try apply shr_1_pos. Qed.
Lemma shr_fexp_pos m e l : 0 ≤ m → 0 ≤ shr_m (shr_fexp f64_prec f64_emax m e l).1.
Proof.
  intros Hm. assert (H : 0 ≤ shr_m (shr_record_of_loc m l)) by by destruct l as [|[]].
  unfold shr_fexp, shr. destruct (_ - e); cbn [fst]; [done|by apply shr_pos|done].
Qed.
Lemma round_pos m l : 0 ≤ m → 0 ≤ round_nearest_even m l.
Proof. intros. destruct l as [|[]]; cbn; try lia. destruct (Z.even m); lia. Qed.
Lemma binary_round_aux_num s m e l : 0 ≤ m → is_nan (binary_round_aux f64_prec f64_emax s m e l) = false.
Proof.
  intros Hm. unfold binary_round_aux. pose proof (shr_fexp_pos m e l Hm) as H1.
  destruct (shr_fexp f64_prec f64_emax m e l) as [r1 e1]. cbn [fst] in H1.
  pose proof (shr_fexp_pos (round_nearest_even (shr_m r1) (loc_of_shr_record r1)) e1 loc_Exact (round_pos _ _ H1)) as H2.
  destruct (shr_fexp _ _ _ _ _) as [r2 e2]. cbn [fst] in H2. destruct (shr_m r2); [done|by destruct (_ <=? _)|lia].
Qed.
Lemma binary_normalize_num m e s : is_nan (binary_normalize f64_prec f64_emax m e s) = false.
Proof. destruct m; [done|..]; unfold binary_normalize, binary_round; destruct (shl_align _ _ _); by apply binary_round_aux_num. Qed.
(** Numbers have a sum when both are not below zero. *)
Lemma f64_add_num a b : is_nan a = false → is_nan b = false → f64_lt a (S754_zero false) = false → f64_lt (S754_zero false) b = true →
  is_nan (f64_add a b) = false.
Proof.
  intros. destruct a as [[]|[]| |[] ? ?], b as [[]|[]| |[] ? ?]; try done. apply binary_normalize_num.
Qed.
(** So has a difference with a number that is not infinite. *)
Lemma f64_sub_num a b : is_nan a = false → is_nan b = false → (a = S754_infinity false → b ≠ S754_infinity false) →
  f64_lt (S754_zero false) b = true → is_nan (f64_sub a b) = false.
Proof.
  intros ? ? Hi ?. destruct a as [[]|[]| |[] ? ?], b as [[]|[]| |[] ? ?]; try done; [by destruct (Hi eq_refl)|apply binary_normalize_num..].
Qed.
