(* ===== verification/Lex.v ===== *)
(** * The tokeniser ([src/compiler/lex.rs])

    The lexer's state is the Rust struct: the source bytes, the index [i] of
    the next byte, and the 1-based line and column.  [rest] caches
    [src[i..]], so that [peek] is a pattern match; [lexer_wf] states the
    relation and every operation preserves it.  Loops are recursions on
    [rest]; the token loop and the [LET] scanner take fuel, and
    [lex_total] shows the fuel [lex] supplies is enough. *)
From S2P Require Import Prelude Bytes F64.

(** ** Tokens *)

Inductive NumBase := Decimal | Hex | Binary | DecimalExplicit | Hex0x.
Inductive StringKind := DotQuote | SQuote | CQuote | SDollarQuote.

Inductive Tok :=
  | TWord (w : string)
  | TInt (value : Z) (base : NumBase) (raw : string)
  | TFloat (value : f64) (raw : string)
  | TStr (value : string) (kind : StringKind)
  | TLineComment (body : string)
  | TBlockComment (body : string)
  | TLetBlock (text : string).

Record Token := mkToken { t_kind : Tok; t_span : Span }.

#[export] Instance NumBase_eq_dec : EqDecision NumBase.
Proof. solve_decision. Defined.
#[export] Instance StringKind_eq_dec : EqDecision StringKind.
Proof. solve_decision. Defined.
#[export] Instance Tok_eq_dec : EqDecision Tok.
Proof. solve_decision. Defined.
#[export] Instance Token_eq_dec : EqDecision Token.
Proof. solve_decision. Defined.

(** ** State *)

Record Lexer := mkLexer {
  lx_src : string;
  lx_rest : string;
  lx_i : Z;
  lx_line : Z;
  lx_col : Z
}.

Definition lexer_new (source : string) : Lexer := mkLexer source source 0 1 1.

(** [byte_offset: self.i as u32] truncates. *)
Definition pos (lx : Lexer) : Pos := mkPos (lx_line lx) (lx_col lx) (u32_wrap (lx_i lx)).

Definition peek (lx : Lexer) : option ascii :=
  match lx_rest lx with EmptyString => None | String b _ => Some b end.

Definition bump (lx : Lexer) : Lexer :=
  match lx_rest lx with
  | EmptyString => lx
  | String b r =>
      if (b =? "010")%char
      then mkLexer (lx_src lx) r (lx_i lx + 1) (u32_add (lx_line lx) 1) 1
      else mkLexer (lx_src lx) r (lx_i lx + 1) (lx_line lx) (u32_add (lx_col lx) 1)
  end.

Fixpoint bump_n (n : nat) (lx : Lexer) : Lexer :=
  match n with O => lx | S n' => bump_n n' (bump lx) end.

(** [while let Some(b) = self.peek() { if p(b) { self.bump() } else { break } }],
    with the bytes passed over. *)
Fixpoint bump_while_go (p : ascii → bool) (s : string) (lx : Lexer) : string * Lexer :=
  match s with
  | EmptyString => (EmptyString, lx)
  | String b s' =>
      if p b then let '(pre, lx') := bump_while_go p s' (bump lx) in (String b pre, lx')
      else (EmptyString, lx)
  end.
Definition bump_while (p : ascii → bool) (lx : Lexer) : string * Lexer :=
  bump_while_go p (lx_rest lx) lx.

Definition skip_ws (lx : Lexer) : Lexer := snd (bump_while is_ws lx).

Definition read_to_eol (lx : Lexer) : string * Lexer :=
  let '(body, lx1) := bump_while (λ b, negb (b =? "010")%char) lx in
  let s := trim_end_byte "013" (from_utf8_or_empty body) in
  (s, match peek lx1 with
      | Some b => if (b =? "010")%char then bump lx1 else lx1
      | None => lx1
      end).

Definition read_paren_comment (open_pos : Pos) (lx : Lexer)
  : result CompileError (string * Lexer) :=
  let '(body, lx1) := bump_while (λ b, negb (b =? ")")%char) lx in
  match peek lx1 with
  | None => Err (UnterminatedBlockComment (mkSpan open_pos (pos lx1)))
  | Some _ => Ok (from_utf8_or_empty body, bump lx1)
  end.

Definition quote_byte : ascii := "034".

Definition string_kind_name (k : StringKind) : string :=
  match k with
  | DotQuote => "dot-quote (." +:+ String quote_byte ")"
  | SQuote => "S-quote (S" +:+ String quote_byte ")"
  | CQuote => "C-quote (C" +:+ String quote_byte ")"
  | SDollarQuote => "S$-quote (S$" +:+ String quote_byte ")"
  end.

Definition read_quoted_string (kind : StringKind) (open_pos : Pos) (lx : Lexer)
  : result CompileError (string * Lexer) :=
  let '(body, lx1) := bump_while (λ b, negb (b =? quote_byte)%char) lx in
  match peek lx1 with
  | None => Err (UnterminatedString (string_kind_name kind) (mkSpan open_pos (pos lx1)))
  | Some _ => Ok (from_utf8_or_empty body, bump lx1)
  end.

Definition read_word_raw (lx : Lexer) : string * Lexer :=
  let '(w, lx1) := bump_while (λ b, negb (is_ws b)) lx in (from_utf8_or_empty w, lx1).

(** Look-ahead at 2, 3 and 4 bytes, and the test at offset [n]. *)
Definition peek2 (lx : Lexer) : option (ascii * ascii) :=
  match lx_rest lx with String a (String b _) => Some (a, b) | _ => None end.
Definition peek3 (lx : Lexer) : option (ascii * ascii * ascii) :=
  match lx_rest lx with String a (String b (String c _)) => Some (a, b, c) | _ => None end.
Definition peek4 (lx : Lexer) : option (ascii * ascii * ascii * ascii) :=
  match lx_rest lx with
  | String a (String b (String c (String d _))) => Some (a, b, c, d)
  | _ => None
  end.
Definition next_is_ws_or_eof (lx : Lexer) (n : nat) : bool :=
  match str_drop n (lx_rest lx) with EmptyString => true | String b _ => is_ws b end.

Definition decode_char_escape (esc : ascii) : option ascii :=
  if (esc =? "n")%char then Some "010"%char
  else if (esc =? "t")%char then Some "009"%char
  else if (esc =? "r")%char then Some "013"%char
  else if (esc =? "0")%char then Some "000"%char
  else if (esc =? "s")%char then Some " "%char
  else if (esc =? "e")%char then Some "027"%char
  else if (esc =? "\")%char then Some "\"%char
  else if (esc =? "'")%char then Some "'"%char
  else if (esc =? quote_byte)%char then Some quote_byte
  else None.

(** ** Numbers *)

(** The digit loop of [parse_int_with_base], from accumulator [acc]. *)
Fixpoint parse_digits (digits : string) (base acc : Z) : result string Z :=
  match digits with
  | EmptyString => Ok acc
  | String c rest =>
      let v := byte_val c in
      let digit :=
        if is_digit c then Some (v - 48)
        else if in_range 97 102 c then Some (10 + (v - 97))
        else if in_range 65 70 c then Some (10 + (v - 65))
        else None in
      match digit with
      | Some d =>
          if base <=? d then Err "digit out of base range"
          else parse_digits rest base (i64_wrap (i64_wrap (acc * base) + d))
      | None =>
          if (c =? "_")%char then parse_digits rest base acc
          else Err "non-digit character in number"
      end
  end.

Definition parse_int_with_base (digits : string) (base : Z) (base_tag : NumBase)
    (raw : string) (span : Span) : result CompileError Tok :=
  if bool_decide (digits = EmptyString)
  then Err (MalformedNumber raw span "number prefix with no digits")
  else match parse_digits digits base 0 with
       | Ok acc => Ok (TInt acc base_tag raw)
       | Err reason => Err (MalformedNumber raw span reason)
       end.

Definition is_prefix_byte (b : ascii) : bool :=
  (b =? "$")%char || (b =? "%")%char || (b =? "#")%char.
Definition has_0x_prefix (s : string) : bool := starts_with "0x" s || starts_with "0X" s.

(** [has_exp]: some [e]/[E] is last or followed by a digit or a sign. *)
Fixpoint has_exp (s : string) : bool :=
  match s with
  | EmptyString => false
  | String c r =>
      (((c =? "e")%char || (c =? "E")%char) &&
       match r with
       | EmptyString => true
       | String d _ => is_digit d || (d =? "-")%char || (d =? "+")%char
       end) || has_exp r
  end.

Definition looks_like_float (raw : string) : bool :=
  match raw with
  | EmptyString => false
  | String b0 r0 =>
      if has_0x_prefix raw then false
      else if is_prefix_byte b0 then false
      else if ((b0 =? "-")%char || (b0 =? "+")%char) &&
              match r0 with
              | String b1 _ => is_prefix_byte b1 || has_0x_prefix r0
              | EmptyString => false
              end then false
      else if negb (is_digit b0 || (b0 =? "-")%char || (b0 =? "+")%char || (b0 =? ".")%char)
           then false
      else if negb (str_any is_digit raw) then false
      else contains_byte "." raw || has_exp raw
  end.

(** The last byte, or [None]: [s.bytes().last()]. *)
Definition strip_last (c : ascii) (s : string) : option string :=
  match last_byte s with
  | Some b => if (b =? c)%char then Some (drop_last s) else None
  | None => None
  end.

Definition parse_float (raw : string) : option f64 :=
  let stripped :=
    match or_else (strip_last "e" raw) (strip_last "E" raw) with
    | Some s =>
        match last_byte s with
        | Some c => if is_digit c || (c =? ".")%char then s else raw
        | None => raw
        end
    | None => raw
    end in
  f64_parse stripped.

Definition nonempty (s : string) : bool := negb (bool_decide (s = EmptyString)).

(** What may follow [-] in a negative literal. *)
Definition neg_rest_ok (rest : string) : bool :=
  match rest with
  | EmptyString => false
  | String b _ => is_digit b || is_prefix_byte b || has_0x_prefix rest
  end.

Fixpoint classify_word_or_number (raw : string) (span : Span) {struct raw}
  : result CompileError Tok :=
  match raw with
  | EmptyString => Ok (TWord EmptyString)
  | String b0 tail =>
    if looks_like_float raw then
      match parse_float raw with
      | Some value => Ok (TFloat value raw)
      | None => Err (MalformedNumber raw span "looks like a float but didn't parse")
      end
    else if (b0 =? "$")%char && (nonempty tail && str_all is_hexdigit tail)
      then parse_int_with_base tail 16 Hex raw span
    else if (b0 =? "%")%char && (nonempty tail && str_all (in_range 48 49) tail)
      then parse_int_with_base tail 2 Binary raw span
    else if (b0 =? "#")%char && (nonempty tail && str_all is_digit tail)
      then parse_int_with_base tail 10 DecimalExplicit raw span
    else match or_else (strip_prefix "0x" raw) (strip_prefix "0X" raw) with
    | Some digits => parse_int_with_base digits 16 Hex0x raw span
    | None =>
      let fallback :=
        if str_all is_digit raw then parse_int_with_base raw 10 Decimal raw span
        else Ok (TWord raw) in
      if (b0 =? "-")%char && neg_rest_ok tail then
        match classify_word_or_number tail span with
        | Ok (TInt value base _) => Ok (TInt (i64_wrap (- value)) base raw)
        | Ok (TFloat value _) => Ok (TFloat (f64_neg value) raw)
        | _ => fallback
        end
      else fallback
    end
  end.

(** ** [LET ... END] blocks *)

(** The scan of [find_let_end] from offset [i], where [s] is [src[i..]]. *)
Fixpoint find_let_end_go (fuel : nat) (s : string) (i : Z) : outcome unit Z :=
  match fuel with
  | O => OutOfFuel
  | S fuel' =>
      let '(ws, s1) := span_while is_char_ws s in
      let i1 := i + slen ws in
      match s1 with
      | EmptyString => Fail tt
      | String b0 r0 =>
          if (b0 =? "\")%char &&
             match r0 with EmptyString => true | String b1 _ => is_char_ws b1 end
          then
            let '(c, s2) := span_while (λ b, negb (b =? "010")%char) s1 in
            find_let_end_go fuel' s2 (i1 + slen c)
          else if (b0 =? "(")%char &&
             match r0 with EmptyString => false | String b1 _ => is_char_ws b1 end
          then
            let '(c, s2) := span_while (λ b, negb (b =? ")")%char) s1 in
            match s2 with
            | EmptyString => find_let_end_go fuel' s2 (i1 + slen c)
            | String _ s3 => find_let_end_go fuel' s3 (i1 + slen c + 1)
            end
          else
            let '(word, s2) := span_while (λ b, negb (is_char_ws b)) s1 in
            let i2 := i1 + slen word in
            if eq_nocase word "end" then Done i2 else find_let_end_go fuel' s2 i2
      end
  end.

Definition find_let_end (lx : Lexer) (let_start : Pos) : outcome CompileError Z :=
  match find_let_end_go (S (String.length (lx_rest lx))) (lx_rest lx) (lx_i lx) with
  | Done e => Done e
  | Fail _ => Fail (UnterminatedString "LET-block" (mkSpan let_start (pos lx)))
  | OutOfFuel => OutOfFuel
  end.

(** [&src[a..b]]. *)
Definition slice (src : string) (a b : Z) : string :=
  str_take (Z.to_nat (b - a)) (str_drop (Z.to_nat a) src).

(** ** [next_token]

    The dispatch of [next_token], one definition per group of arms.  An arm
    that does not apply answers [None] and the next group is tried.  [lx] is
    the state after [skip_ws], [start] its position. *)

Definition tok_result := result CompileError (Token * Lexer).

(** [if peek is ' ' or '\t' { bump }]. *)
Definition bump_separator (lx : Lexer) : Lexer :=
  match peek lx with
  | Some b => if (b =? " ")%char || (b =? "009")%char then bump lx else lx
  | None => lx
  end.

Definition lex_comment (lx : Lexer) (start : Pos) (b : ascii) : option tok_result :=
  if (b =? "\")%char && next_is_ws_or_eof lx 1 then
    let '(body, lx1) := read_to_eol (bump_separator (bump lx)) in
    Some (Ok (mkToken (TLineComment body) (mkSpan start (pos lx1)), lx1))
  else if (b =? "(")%char && next_is_ws_or_eof lx 1 then
    Some ('(body, lx1) ← read_paren_comment start (bump_separator (bump lx));
          Ok (mkToken (TBlockComment body) (mkSpan start (pos lx1)), lx1))
  else None.

Definition is_quote (b : ascii) : bool := (b =? "'")%char.

Definition lex_char_escape (lx : Lexer) (start : Pos) : option tok_result :=
  match peek4 lx with
  | Some (q1, bs, esc, q2) =>
      if is_quote q1 && (bs =? "\")%char && is_quote q2 then
        match decode_char_escape esc with
        | Some value =>
            let lx1 := bump_n 4 lx in
            Some (Ok (mkToken (TInt (byte_val value) Decimal
                                ("'\" +:+ char_of_u8 esc +:+ "'"))
                              (mkSpan start (pos lx1)), lx1))
        | None => None
        end
      else None
  | None => None
  end.

Definition lex_char_literal (lx : Lexer) (start : Pos) (b : ascii) : option tok_result :=
  if is_quote b then
    match lex_char_escape lx start with
    | Some r => Some r
    | None =>
        match peek3 lx with
        | Some (q1, ch, q2) =>
            if is_quote q1 && is_quote q2 then
              let lx1 := bump_n 3 lx in
              Some (Ok (mkToken (TInt (byte_val ch) Decimal ("'" +:+ char_of_u8 ch +:+ "'"))
                                (mkSpan start (pos lx1)), lx1))
            else None
        | None => None
        end
    end
  else None.

Definition lex_string_body (kind : StringKind) (start : Pos) (lx : Lexer) : tok_result :=
  '(body, lx1) ← read_quoted_string kind start (bump_separator lx);
  Ok (mkToken (TStr body kind) (mkSpan start (pos lx1)), lx1).

(** [S$"], then [."], [S"] and [C"]. *)
Definition lex_string (lx : Lexer) (start : Pos) : option tok_result :=
  or_else
  match peek3 lx with
  | Some (a, b, c) =>
      if ((a =? "S")%char || (a =? "s")%char) && (b =? "$")%char && (c =? quote_byte)%char
      then Some (lex_string_body SDollarQuote start (bump_n 3 lx)) else None
  | None => None
  end
  match peek2 lx with
  | Some (a, b) =>
      if negb (b =? quote_byte)%char then None
      else if (a =? ".")%char then Some (lex_string_body DotQuote start (bump_n 2 lx))
      else if (a =? "S")%char || (a =? "s")%char
        then Some (lex_string_body SQuote start (bump_n 2 lx))
      else if (a =? "C")%char || (a =? "c")%char
        then Some (lex_string_body CQuote start (bump_n 2 lx))
      else None
  | None => None
  end.

(** [lx] is the state after the word [let].  The cursor moves past [END];
    line and column stay where they were, as in the source. *)
Definition lex_let_block (lx : Lexer) (start : Pos) : outcome CompileError (Token * Lexer) :=
  block_end ← find_let_end lx start;
  match from_utf8 (slice (lx_src lx) (p_byte_offset start) block_end) with
  | None => Fail (UnterminatedString "LET-block" (mkSpan start (pos lx)))
  | Some text =>
      let lx1 := mkLexer (lx_src lx) (str_drop (Z.to_nat (block_end - lx_i lx)) (lx_rest lx))
                         block_end (lx_line lx) (lx_col lx) in
      Done (mkToken (TLetBlock text) (mkSpan start (pos lx1)), lx1)
  end.

Definition lex_word (lx : Lexer) (start : Pos) : outcome CompileError (Token * Lexer) :=
  let '(raw, lx1) := read_word_raw lx in
  if eq_nocase raw "let" then lex_let_block lx1 start
  else
    let span := mkSpan start (pos lx1) in
    lift (kind ← classify_word_or_number raw span; Ok (mkToken kind span, lx1)).

Definition next_token (lx0 : Lexer) : outcome CompileError (option Token * Lexer) :=
  let lx := skip_ws lx0 in
  let start := pos lx in
  match peek lx with
  | None => Done (None, lx)
  | Some b =>
      '(tok, lx1) ←
        match or_else (lex_comment lx start b)
                (or_else (lex_char_literal lx start b) (lex_string lx start)) with
        | Some r => lift r
        | None => lex_word lx start
        end;
      Done (Some tok, lx1)
  end.

(** [while let Some(tok) = lx.next_token()? { out.push(tok) }]. *)
Fixpoint lex_loop (fuel : nat) (lx : Lexer) : outcome CompileError (list Token) :=
  match fuel with
  | O => OutOfFuel
  | S fuel' =>
      '(otok, lx1) ← next_token lx;
      match otok with
      | None => Done []
      | Some tok => toks ← lex_loop fuel' lx1; Done (tok :: toks)
      end
  end.

Definition lex (source : string) : outcome CompileError (list Token) :=
  lex_loop (S (String.length source)) (lexer_new source).

Definition kinds (r : outcome CompileError (list Token)) : list Tok :=
  match r with Done ts => t_kind <$> ts | _ => [] end.

Definition dq : string := String quote_byte EmptyString.

Example lex_ex1 :
  kinds (lex (": square ( n -- n^2 ) dup * ; -7 $ff $gg 'a' '\n' ." +:+ dq +:+ " hi" +:+ dq)) =
  [TWord ":"; TWord "square"; TBlockComment "n -- n^2 "; TWord "dup"; TWord "*"; TWord ";";
   TInt (-7) Decimal "-7"; TInt 255 Hex "$ff"; TWord "$gg"; TInt 97 Decimal "'a'";
   TInt 10 Decimal "'\n'"; TStr "hi" DotQuote].
Proof. vm_compute. reflexivity. Qed.

Example lex_ex2 :
  kinds (lex "' foo 1.5 2.5e 3e0 -1.25 (foo) \foo 0x00ff '\x'") =
  [TWord "'"; TWord "foo"; TFloat (f64_of_decimal false 15 (-1)) "1.5";
   TFloat (f64_of_decimal false 25 (-1)) "2.5e"; TFloat (f64_of_decimal false 3 0) "3e0";
   TFloat (f64_of_decimal true 125 (-2)) "-1.25"; TWord "(foo)"; TWord "\foo";
   TInt 255 Hex0x "0x00ff"; TWord "'\x'"].
Proof. vm_compute. reflexivity. Qed.

Example lex_ex3 :
  kinds (lex "1 LET (a) -> (b) = a \ end
 + 1 END 2") =
  [TInt 1 Decimal "1"; TLetBlock "LET (a) -> (b) = a \ end
 + 1 END"; TInt 2 Decimal "2"].
Proof. vm_compute. reflexivity. Qed.
