(* ===== verification/LexFacts.v ===== *)
(** * The tokeniser is total and its tokens tile the source

    Facts about [Lex]: the state invariant and its preservation, progress of
    [next_token] (hence termination of [lex]), the tiling theorem relating
    token spans to the source text, and round trips for words and integer
    literals. *)
From S2P Require Import Prelude Bytes F64 Lex.

(** ** Positions

    What a position should be: one more than the newlines before it, one more
    than the bytes since the last of them, and the number of bytes, all as
    [u32]. *)

Fixpoint count_nl (s : string) : Z :=
  match s with
  | EmptyString => 0
  | String b s' => (if (b =? "010")%char then 1 else 0) + count_nl s'
  end.

(** Bytes after the last newline of [s], where [c] bytes precede [s] on its
    first line. *)
Fixpoint line_bytes (c : Z) (s : string) : Z :=
  match s with
  | EmptyString => c
  | String b s' => if (b =? "010")%char then line_bytes 0 s' else line_bytes (c + 1) s'
  end.

Definition pos_after (pre : string) : Pos :=
  mkPos (u32_wrap (1 + count_nl pre)) (u32_wrap (1 + line_bytes 0 pre)) (u32_wrap (slen pre)).

(** The state after the prefix [pre] of [src] has been read byte by byte. *)
Definition at_prefix (src pre : string) (lx : Lexer) : Prop :=
  src = pre +:+ lx_rest lx ∧ lx_src lx = src ∧ lx_i lx = slen pre ∧ pos lx = pos_after pre.

(** The invariant every state satisfies, also after a [LET] block. *)
Definition lexer_wf (src pre : string) (lx : Lexer) : Prop :=
  src = pre +:+ lx_rest lx ∧ lx_src lx = src ∧ lx_i lx = slen pre.

Lemma u32_wrap_add a b : u32_wrap (u32_wrap a + b) = u32_wrap (a + b).
Proof. unfold u32_wrap. by rewrite Zplus_mod_idemp_l. Qed.

Lemma count_nl_app a b : count_nl (a +:+ b) = count_nl a + count_nl b.
Proof. induction a as [|c a IH]; simpl; [done|]. rewrite IH. lia. Qed.

Lemma line_bytes_app c a b : line_bytes c (a +:+ b) = line_bytes (line_bytes c a) b.
Proof.
  revert c. induction a as [|x a IH]; intros c; simpl; [done|].
  by destruct (x =? "010")%char.
Qed.

Lemma at_prefix_wf src pre lx : at_prefix src pre lx → lexer_wf src pre lx.
Proof. unfold at_prefix, lexer_wf. naive_solver. Qed.

Lemma at_prefix_new src : at_prefix src "" (lexer_new src).
Proof. by unfold at_prefix. Qed.

(** ** Stepping over bytes *)

Lemma bump_rest lx b r : lx_rest lx = String b r → lx_rest (bump lx) = r.
Proof. intros H. unfold bump. rewrite H. by destruct (b =? "010")%char. Qed.

Lemma at_prefix_bump src pre lx b r :
  lx_rest lx = String b r → at_prefix src pre lx →
  at_prefix src (pre +:+ String b "") (bump lx).
Proof.
  intros Hr (Hs & Hsrc & Hi & Hp). unfold at_prefix.
  rewrite (bump_rest _ _ _ Hr). rewrite str_app_assoc. simpl. rewrite Hs, Hr.
  unfold pos, pos_after in *. unfold bump. rewrite Hr in *.
  rewrite count_nl_app, line_bytes_app, slen_app. simpl.
  destruct lx as [lsrc lrest li ll lc]; simpl in *. simplify_eq.
  destruct (b =? "010")%char; simpl; repeat split; try done;
    unfold u32_add; rewrite ?u32_wrap_add; unfold slen; simpl;
    first [lia | f_equal; first [done | f_equal; lia]].
Qed.

Lemma lexer_wf_bump src pre lx b r :
  lx_rest lx = String b r → lexer_wf src pre lx →
  lexer_wf src (pre +:+ String b "") (bump lx).
Proof.
  intros Hr (Hs & Hsrc & Hi). unfold lexer_wf.
  rewrite (bump_rest _ _ _ Hr), str_app_assoc, slen_app. simpl. rewrite Hs, Hr.
  unfold bump. rewrite Hr. destruct lx; simpl in *; simplify_eq.
  by destruct (b =? "010")%char.
Qed.

(** [reads c lx lx']: [lx'] is [lx] after bumping over the bytes [c]. *)
Definition reads (c : string) (lx lx' : Lexer) : Prop :=
  lx_rest lx = c +:+ lx_rest lx' ∧ lx' = bump_n (String.length c) lx.

Lemma bumps_nil lx : reads "" lx lx.
Proof. done. Qed.

Lemma bump_n_add n m lx : bump_n (n + m) lx = bump_n m (bump_n n lx).
Proof. revert lx. induction n; intros lx; simpl; [done|]. by rewrite IHn. Qed.

Lemma reads_trans c1 c2 a b d : reads c1 a b → reads c2 b d → reads (c1 +:+ c2) a d.
Proof.
  intros [H1 ->] [H2 ->]. split; [by rewrite H1, H2, str_app_assoc|].
  by rewrite str_length_app, bump_n_add.
Qed.

Lemma reads_bump lx b r : lx_rest lx = String b r → reads (String b "") lx (bump lx).
Proof. intros H. split; [|done]. by rewrite (bump_rest _ _ _ H). Qed.

Lemma reads_cons lx b c lx' :
  lx_rest lx = String b (c +:+ lx_rest lx') → reads c (bump lx) lx' → reads (String b c) lx lx'.
Proof. intros H [H1 ->]. by split. Qed.

Lemma at_prefix_reads src pre c lx lx' :
  reads c lx lx' → at_prefix src pre lx → at_prefix src (pre +:+ c) lx'.
Proof.
  intros [Hr ->]. revert pre lx Hr. induction c as [|b c IH]; intros pre lx Hr H; simpl in *.
  - by rewrite str_app_nil_r.
  - pose proof (at_prefix_bump _ _ _ _ _ Hr H) as H'.
    apply IH in H'; [by rewrite str_app_assoc in H'|]. by apply bump_rest in Hr.
Qed.

Lemma lexer_wf_reads src pre c lx lx' :
  reads c lx lx' → lexer_wf src pre lx → lexer_wf src (pre +:+ c) lx'.
Proof.
  intros [Hr ->]. revert pre lx Hr. induction c as [|b c IH]; intros pre lx Hr H; simpl in *.
  - by rewrite str_app_nil_r.
  - pose proof (lexer_wf_bump _ _ _ _ _ Hr H) as H'.
    apply IH in H'; [by rewrite str_app_assoc in H'|]. by apply bump_rest in Hr.
Qed.

Lemma bump_while_go_spec p s lx c lx' :
  lx_rest lx = s → bump_while_go p s lx = (c, lx') →
  reads c lx lx' ∧ str_all p c = true ∧
  (lx_rest lx' = "" ∨ ∃ b r, lx_rest lx' = String b r ∧ p b = false).
Proof.
  revert lx c. induction s as [|b s IH]; intros lx c Hr H; simpl in H.
  - simplify_eq. repeat split; auto.
  - destruct (p b) eqn:Hp.
    + destruct (bump_while_go p s (bump lx)) as [pre lx1] eqn:E. simplify_eq.
      apply IH in E as (Hrd & Hall & Hstop); [|by eapply bump_rest].
      split; [|split; [by simpl; rewrite Hp|done]].
      apply reads_cons; [|done]. destruct Hrd as [H1 _].
      rewrite (bump_rest _ _ _ Hr) in H1. by rewrite Hr, H1.
    + simplify_eq. split; [done|split; [done|]]. right. eauto.
Qed.

Lemma bump_while_spec p lx c lx' :
  bump_while p lx = (c, lx') →
  reads c lx lx' ∧ str_all p c = true ∧
  (lx_rest lx' = "" ∨ ∃ b r, lx_rest lx' = String b r ∧ p b = false).
Proof. by apply bump_while_go_spec. Qed.

Lemma peek_Some lx b : peek lx = Some b ↔ ∃ r, lx_rest lx = String b r.
Proof. unfold peek. destruct (lx_rest lx); naive_solver. Qed.

Lemma peek_None lx : peek lx = None ↔ lx_rest lx = "".
Proof. unfold peek. destruct (lx_rest lx); naive_solver. Qed.

(** ** What each arm of [next_token] reads *)

Definition is_let_tok (t : Token) : bool :=
  match t_kind t with TLetBlock _ => true | _ => false end.

(** An arm that succeeds has bumped over a non-empty text, spanned it from
    [start], and a word token carries that text. *)
Definition arm_ok (lx : Lexer) (start : Pos) (t : Token) (lx' : Lexer) : Prop :=
  ∃ c, c ≠ "" ∧ reads c lx lx' ∧ t_span t = mkSpan start (pos lx') ∧ is_let_tok t = false ∧
       ∀ w, t_kind t = TWord w → w = from_utf8_or_empty c.

Lemma bump_separator_reads lx : ∃ c, reads c lx (bump_separator lx).
Proof.
  unfold bump_separator, peek. destruct (lx_rest lx) as [|b r] eqn:E.
  - exists "". apply bumps_nil.
  - destruct (_ || _); eauto using bumps_nil, reads_bump.
Qed.

Lemma read_to_eol_reads lx s lx' : read_to_eol lx = (s, lx') → ∃ c, reads c lx lx'.
Proof.
  unfold read_to_eol. destruct (bump_while _ lx) as [body lx1] eqn:E.
  apply bump_while_spec in E as (Hr & _ & _). intros [= _ <-].
  unfold peek. destruct (lx_rest lx1) as [|b r] eqn:Er; [eauto|].
  destruct (b =? "010")%char; eauto using reads_trans, reads_bump.
Qed.

Lemma read_paren_comment_reads p lx s lx' :
  read_paren_comment p lx = Ok (s, lx') → ∃ c, reads c lx lx'.
Proof.
  unfold read_paren_comment. destruct (bump_while _ lx) as [body lx1] eqn:E.
  apply bump_while_spec in E as (Hr & _ & _).
  unfold peek. destruct (lx_rest lx1) as [|b r] eqn:Er; [done|]. intros [= _ <-].
  eauto using reads_trans, reads_bump.
Qed.

Lemma read_quoted_string_reads k p lx s lx' :
  read_quoted_string k p lx = Ok (s, lx') → ∃ c, reads c lx lx'.
Proof.
  unfold read_quoted_string. destruct (bump_while _ lx) as [body lx1] eqn:E.
  apply bump_while_spec in E as (Hr & _ & _).
  unfold peek. destruct (lx_rest lx1) as [|b r] eqn:Er; [done|]. intros [= _ <-].
  eauto using reads_trans, reads_bump.
Qed.

Lemma reads_bump_n n lx :
  (n ≤ String.length (lx_rest lx))%nat → ∃ c, String.length c = n ∧ reads c lx (bump_n n lx).
Proof.
  revert lx. induction n as [|n IH]; intros lx Hn; [by exists ""|].
  destruct (lx_rest lx) as [|b r] eqn:E; simpl in Hn; [lia|].
  destruct (IH (bump lx)) as (c & Hlen & Hr).
  { rewrite (bump_rest _ _ _ E). lia. }
  exists (String b c). simpl. rewrite Hlen. split; [done|]. apply reads_cons; [|done].
  destruct Hr as [Hr _]. rewrite (bump_rest _ _ _ E) in Hr. by rewrite E, Hr.
Qed.

Lemma nonempty_app_l b (c d : string) : String b c +:+ d ≠ "".
Proof. done. Qed.

Lemma length_nonempty (c : string) n : String.length c = S n → c ≠ "".
Proof. by destruct c. Qed.

(** A token whose kind is neither a word nor a [LET] block. *)
Definition plain_kind (k : Tok) : bool :=
  match k with TWord _ | TLetBlock _ => false | _ => true end.

Lemma arm_ok_intro c lx start k lx' :
  reads c lx lx' → c ≠ "" → plain_kind k = true →
  arm_ok lx start (mkToken k (mkSpan start (pos lx'))) lx'.
Proof. intros Hr Hc Hk. exists c. destruct k; simpl in *; naive_solver. Qed.

Lemma lex_comment_ok lx start b t lx' :
  peek lx = Some b → lex_comment lx start b = Some (Ok (t, lx')) → arm_ok lx start t lx'.
Proof.
  intros [r Hr]%peek_Some. unfold lex_comment.
  destruct (bump_separator_reads (bump lx)) as [c1 Hc1].
  pose proof (reads_trans _ _ _ _ _ (reads_bump _ _ _ Hr) Hc1) as Hs.
  destruct (_ && _).
  - destruct (read_to_eol _) as [body lx1] eqn:E. intros [= <- <-].
    destruct (read_to_eol_reads _ _ _ E) as [c2 Hc2].
    by eapply arm_ok_intro; [eapply reads_trans, Hc2; exact Hs|..].
  - destruct (_ && _); [|done].
    destruct (read_paren_comment _ _) as [[body lx1]|e] eqn:E; simpl; [|done].
    intros [= <- <-]. destruct (read_paren_comment_reads _ _ _ _ E) as [c2 Hc2].
    by eapply arm_ok_intro; [eapply reads_trans, Hc2; exact Hs|..].
Qed.

Lemma lex_string_body_ok lx k start c0 lx1 t lx' :
  reads c0 lx lx1 → c0 ≠ "" → lex_string_body k start lx1 = Ok (t, lx') → arm_ok lx start t lx'.
Proof.
  intros Hr Hc. unfold lex_string_body.
  destruct (bump_separator_reads lx1) as [c1 Hc1].
  destruct (read_quoted_string _ _ _) as [[body lx2]|e] eqn:E; simpl; [|done].
  intros [= <- <-]. destruct (read_quoted_string_reads _ _ _ _ _ E) as [c2 Hc2].
  eapply (arm_ok_intro (c0 +:+ (c1 +:+ c2))); [|by destruct c0|done].
  eauto using reads_trans.
Qed.

Lemma lex_string_ok lx start t lx' :
  lex_string lx start = Some (Ok (t, lx')) → arm_ok lx start t lx'.
Proof.
  unfold lex_string, peek3, peek2.
  destruct (lx_rest lx) as [|a [|b r]] eqn:Er; [done|done|].
  assert (∃ c, String.length c = 2%nat ∧ reads c lx (bump_n 2 lx)) as (c2 & Hl2 & Hr2).
  { apply reads_bump_n. rewrite Er. simpl. lia. }
  pose proof (length_nonempty _ _ Hl2) as Hn2.
  destruct r as [|c r].
  - intros H. unfold or_else in H. repeat case_match; simplify_eq;
      eauto using lex_string_body_ok.
  - assert (∃ c, String.length c = 3%nat ∧ reads c lx (bump_n 3 lx)) as (c3 & Hl3 & Hr3).
    { apply reads_bump_n. rewrite Er. simpl. lia. }
    pose proof (length_nonempty _ _ Hl3) as Hn3.
    intros H. unfold or_else in H. repeat case_match; simplify_eq;
      eauto using lex_string_body_ok.
Qed.

Lemma lex_char_literal_ok lx start b t lx' :
  lex_char_literal lx start b = Some (Ok (t, lx')) → arm_ok lx start t lx'.
Proof.
  unfold lex_char_literal, lex_char_escape, peek4, peek3.
  destruct (is_quote b); [|done].
  destruct (lx_rest lx) as [|x1 [|x2 [|x3 r]]] eqn:Er; [done..|].
  assert (∃ c, String.length c = 3%nat ∧ reads c lx (bump_n 3 lx)) as (c3 & Hl3 & Hr3).
  { apply reads_bump_n. rewrite Er. simpl. lia. }
  pose proof (length_nonempty _ _ Hl3) as Hn3.
  destruct r as [|x4 r].
  - intros H. repeat case_match; simplify_eq; by eapply arm_ok_intro.
  - assert (∃ c, String.length c = 4%nat ∧ reads c lx (bump_n 4 lx)) as (c4 & Hl4 & Hr4).
    { apply reads_bump_n. rewrite Er. simpl. lia. }
    pose proof (length_nonempty _ _ Hl4) as Hn4.
    intros H. repeat case_match; simplify_eq; by eapply arm_ok_intro.
Qed.

(** ** Classification *)

Lemma parse_int_with_base_kind digits base tag raw span k :
  parse_int_with_base digits base tag raw span = Ok k → ∃ v, k = TInt v tag raw.
Proof. unfold parse_int_with_base. repeat case_match; naive_solver. Qed.

(** A classified token is a word or a number carrying the raw text. *)
Definition classified (raw : string) (k : Tok) : Prop :=
  k = TWord raw ∨ (∃ v b, k = TInt v b raw) ∨ (∃ x, k = TFloat x raw).

Lemma classify_kind raw span k :
  classify_word_or_number raw span = Ok k → classified raw k.
Proof.
  unfold classified. destruct raw as [|b0 tail]; [intros [= <-]; by left|].
  cbn [classify_word_or_number]. intros Hk.
  repeat case_match; simplify_eq;
    try (apply parse_int_with_base_kind in Hk as [v ->]); eauto 6.
Qed.

(** ** [LET] blocks *)

(** An answer of the scanner started at offset [i] of the text [s]: it is not
    out of fuel, and an offset it answers is past a non-empty prefix of [s]. *)
Definition scan_ok (s : string) (i : Z) (r : outcome unit Z) : Prop :=
  match r with
  | Done e => ∃ c r, s = c +:+ r ∧ c ≠ "" ∧ e = i + slen c
  | Fail _ => True
  | OutOfFuel => False
  end.

Lemma scan_ok_step c s2 i r : c ≠ "" → scan_ok s2 (i + slen c) r → scan_ok (c +:+ s2) i r.
Proof.
  destruct r as [e| |]; simpl; [|done..]. intros Hc (c' & r & -> & Hc' & ->).
  exists (c +:+ c'), r. rewrite str_app_assoc, slen_app.
  repeat split; [by destruct c|lia].
Qed.

(** One more word (or comment) of the scan: [ws] white space, then [c]. *)
Lemma scan_ok_word fuel ws (b0 : ascii) r0 p c s2 i :
  (∀ s i, (String.length s < fuel)%nat → scan_ok s i (find_let_end_go fuel s i)) →
  (String.length (ws +:+ String b0 r0) < S fuel)%nat →
  span_while p (String b0 r0) = (c, s2) → p b0 = true →
  scan_ok (ws +:+ String b0 r0) i (find_let_end_go fuel s2 (i + slen ws + slen c)).
Proof.
  intros IH Hf Hsp Hp. destruct (span_while_nonempty _ _ _ _ _ Hsp Hp) as [c' ->].
  apply span_while_app in Hsp as [Hsp _]. rewrite Hsp in *.
  rewrite <- str_app_assoc. rewrite !str_length_app in Hf. simpl in Hf. apply scan_ok_step; [by destruct ws|].
  rewrite slen_app, Z.add_assoc. apply IH. lia.
Qed.

Lemma find_let_end_go_spec fuel s i :
  (String.length s < fuel)%nat → scan_ok s i (find_let_end_go fuel s i).
Proof.
  revert s i. induction fuel as [|fuel IH]; intros s i Hf; [lia|]. cbn [find_let_end_go].
  destruct (span_while is_char_ws s) as [ws s1] eqn:Ews.
  pose proof (span_while_stop _ _ _ _ Ews) as Hstop.
  apply span_while_app in Ews as [-> _].
  destruct s1 as [|b0 r0]; [done|].
  assert (is_char_ws b0 = false) as Hb0 by naive_solver.
  destruct (_ && _) eqn:E1; [|destruct (_ && match r0 with EmptyString => false | _ => _ end) eqn:E2].
  - destruct (span_while _ (String b0 r0)) as [c s2] eqn:E. eapply scan_ok_word; [done..|].
    apply andb_true_iff in E1 as [E1 _]. by byte_cases b0.
  - assert (negb (b0 =? ")")%char = true) as Hp.
    { apply andb_true_iff in E2 as [E2 _]. by byte_cases b0. }
    destruct (span_while _ (String b0 r0)) as [c s2] eqn:E.
    destruct s2 as [|b2 s3]; [by eapply scan_ok_word|].
    destruct (span_while_nonempty _ _ _ _ _ E Hp) as [c' ->].
    apply span_while_app in E as [E _]. rewrite E in *.
    replace (ws +:+ (String b0 c' +:+ String b2 s3))
      with ((ws +:+ String b0 c' +:+ String b2 "") +:+ s3) by (by rewrite !str_app_assoc).
    rewrite !str_length_app in Hf. simpl in Hf.
    apply scan_ok_step; [by destruct ws|].
    replace (i + slen ws + slen (String b0 c') + 1)
      with (i + slen (ws +:+ String b0 c' +:+ String b2 ""))
      by (rewrite !slen_app; unfold slen; simpl; lia).
    apply IH. lia.
  - destruct (span_while _ (String b0 r0)) as [c s2] eqn:E.
    assert (negb (is_char_ws b0) = true) as Hp by (by rewrite Hb0).
    destruct (eq_nocase c "end"); [|by eapply scan_ok_word; [done..|exact Hp]].
    destruct (span_while_nonempty _ _ _ _ _ E Hp) as [c' ->].
    apply span_while_app in E as [-> _].
    exists (ws +:+ String b0 c'), s2. rewrite str_app_assoc, slen_app.
    repeat split; [by destruct ws|lia].
Qed.

(** ** Progress of [next_token] *)

(** A token read from the text [c] that starts at [start], where the bytes
    before it are [pre]: its text, and what holds of the state behind it. *)
Definition token_at (src pre c : string) (lx : Lexer) (t : Token) (lx' : Lexer) : Prop :=
  c ≠ "" ∧ lexer_wf src (pre +:+ c) lx' ∧
  t_span t = mkSpan (pos lx) (pos lx') ∧
  (is_let_tok t = false → at_prefix src pre lx → at_prefix src (pre +:+ c) lx') ∧
  (∀ w, t_kind t = TWord w → w = from_utf8_or_empty c) ∧
  (∀ text, t_kind t = TLetBlock text → is_u32 (slen src) → text = c).

Lemma arm_ok_token src pre lx t lx' :
  lexer_wf src pre lx → arm_ok lx (pos lx) t lx' → ∃ c, token_at src pre c lx t lx'.
Proof.
  intros Hwf (c & Hc & Hr & Hsp & Hlet & Hw). exists c.
  split; [done|]. split; [by eapply lexer_wf_reads|]. split; [done|].
  split; [eauto using at_prefix_reads|]. split; [done|].
  intros text Ht. unfold is_let_tok in Hlet. by rewrite Ht in Hlet.
Qed.

Lemma read_word_raw_spec lx raw lx1 :
  read_word_raw lx = (raw, lx1) →
  ∃ c, reads c lx lx1 ∧ raw = from_utf8_or_empty c ∧ str_all (λ b, negb (is_ws b)) c = true ∧
       (∀ b, peek lx = Some b → is_ws b = false → c ≠ "").
Proof.
  unfold read_word_raw. destruct (bump_while _ lx) as [c lx2] eqn:E. intros [= <- <-].
  apply bump_while_spec in E as (Hr & Hall & Hstop). exists c. repeat split; try done; try apply Hr.
  intros b [r Hb]%peek_Some Hws ->. destruct Hr as [Hr _]. simpl in Hr. rewrite Hb in Hr.
  rewrite <- Hr in Hstop. destruct Hstop as [?|(? & ? & [= <- <-] & Hstop)]; [done|].
  by rewrite Hws in Hstop.
Qed.

(** The text of a [LET] block: from the word [let] to the [END] found. *)
Lemma lex_let_block_total lx start : lex_let_block lx start ≠ OutOfFuel.
Proof.
  unfold lex_let_block, find_let_end.
  pose proof (find_let_end_go_spec (S (String.length (lx_rest lx))) (lx_rest lx) (lx_i lx)) as H.
  destruct (find_let_end_go _ _ _); simpl in *; [|done|exfalso; apply H; lia].
  by destruct (from_utf8 _).
Qed.

Lemma from_utf8_Some s t : from_utf8 s = Some t → t = s.
Proof. unfold from_utf8. by case_match; intros [= <-]. Qed.

Lemma lex_let_block_ok src pre lx0 c0 lx1 t lx' :
  lexer_wf src pre lx0 → reads c0 lx0 lx1 → lex_let_block lx1 (pos lx0) = Done (t, lx') →
  ∃ c, token_at src pre c lx0 t lx'.
Proof.
  intros Hwf Hr. pose proof (lexer_wf_reads _ _ _ _ _ Hr Hwf) as (Hsrc & Hs1 & Hi1).
  unfold lex_let_block, find_let_end.
  pose proof (find_let_end_go_spec (S (String.length (lx_rest lx1))) (lx_rest lx1) (lx_i lx1)) as H.
  destruct (find_let_end_go _ _ _); simpl in *; [|done..].
  destruct H as (c & r & Hcr & Hc & ->); [lia|].
  destruct (from_utf8 _) as [text|] eqn:Et; [|done]. intros [= <- <-].
  apply from_utf8_Some in Et. exists (c0 +:+ c).
  assert (str_drop (Z.to_nat (lx_i lx1 + slen c - lx_i lx1)) (lx_rest lx1) = r) as Hdrop.
  { rewrite Hcr. replace (Z.to_nat _) with (String.length c) by (unfold slen; lia).
    apply str_drop_app. }
  repeat split; simpl; try done.
  - by destruct c0, c.
  - rewrite Hdrop, Hsrc, Hcr. by autorewrite with str.
  - rewrite Hi1. autorewrite with str. lia.
  - intros ? [= <-] Hlen. destruct Hwf as (Hsrc0 & _ & Hi0). destruct Hr as [Hr0 _].
    rewrite Et, Hs1, Hi0, Hi1, Hsrc0, Hr0, Hcr. unfold slice.
    assert (slen pre < 2 ^ 32) as Hpre.
    { rewrite Hsrc0, slen_app in Hlen. pose proof (slen_nonneg (lx_rest lx0)).
      unfold is_u32 in Hlen. lia. }
    rewrite u32_wrap_small by (pose proof (slen_nonneg pre); done).
    replace (Z.to_nat (slen pre)) with (String.length pre) by (unfold slen; lia).
    rewrite str_drop_app, <- str_app_assoc.
    replace (Z.to_nat _) with (String.length (c0 +:+ c)); [apply str_take_app|].
    rewrite slen_app, str_length_app. unfold slen. lia.
Qed.

Lemma classify_not_let raw span k :
  classify_word_or_number raw span = Ok k → is_let_tok (mkToken k span) = false ∧
  ∀ w, k = TWord w → w = raw.
Proof.
  intros [->|[(v & b & ->)|(x & ->)]]%classify_kind; split; naive_solver.
Qed.

Lemma lex_word_ok src pre lx b t lx' :
  lexer_wf src pre lx → peek lx = Some b → is_ws b = false →
  lex_word lx (pos lx) = Done (t, lx') → ∃ c, token_at src pre c lx t lx'.
Proof.
  intros Hwf Hb Hws. unfold lex_word. destruct (read_word_raw lx) as [raw lx1] eqn:E.
  apply read_word_raw_spec in E as (c & Hr & -> & _ & Hne).
  destruct (eq_nocase _ "let"); [by apply lex_let_block_ok with c|].
  destruct (classify_word_or_number _ _) as [k|] eqn:Ek; simpl; [|done]. intros [= <- <-].
  apply (arm_ok_token _ _ _ _ _ Hwf). exists c.
  apply classify_not_let in Ek as [Hlet Hw]. simpl. eauto 6.
Qed.

Lemma skip_ws_spec lx :
  ∃ ws, reads ws lx (skip_ws lx) ∧ str_all is_ws ws = true ∧
        (∀ b, peek (skip_ws lx) = Some b → is_ws b = false).
Proof.
  unfold skip_ws. destruct (bump_while _ lx) as [ws lx1] eqn:E. simpl.
  apply bump_while_spec in E as (Hr & Hall & Hstop). exists ws. repeat split; try done; try apply Hr.
  intros b [r Hb]%peek_Some. rewrite Hb in Hstop.
  by destruct Hstop as [?|(? & ? & [= <- <-] & ?)].
Qed.

(** What [next_token] answers: the end of the source behind white space, or a
    token behind white space. *)
Definition next_spec (src pre : string) (lx : Lexer)
    (r : outcome CompileError (option Token * Lexer)) : Prop :=
  match r with
  | Done (None, lx') => ∃ ws, src = pre +:+ ws ∧ str_all is_ws ws = true
  | Done (Some t, lx') =>
      ∃ ws c, str_all is_ws ws = true ∧ reads ws lx (skip_ws lx) ∧
              token_at src (pre +:+ ws) c (skip_ws lx) t lx'
  | Fail _ => True
  | OutOfFuel => False
  end.

Lemma lex_word_total lx start : lex_word lx start ≠ OutOfFuel.
Proof.
  unfold lex_word. destruct (read_word_raw lx) as [raw lx1].
  destruct (eq_nocase _ _); [apply lex_let_block_total|apply lift_total].
Qed.

Lemma next_token_spec src pre lx : lexer_wf src pre lx → next_spec src pre lx (next_token lx).
Proof.
  intros Hwf. destruct (skip_ws_spec lx) as (ws & Hr & Hall & Hb).
  pose proof (lexer_wf_reads _ _ _ _ _ Hr Hwf) as Hwf1. unfold next_token.
  destruct (peek (skip_ws lx)) as [b|] eqn:Ep.
  2:{ apply peek_None in Ep. exists ws. destruct Hwf1 as [-> _].
      by rewrite Ep, str_app_nil_r. }
  specialize (Hb b eq_refl).
  assert (∀ t lx', (∃ c, token_at src (pre +:+ ws) c (skip_ws lx) t lx') →
            next_spec src pre lx (Done (Some t, lx'))) as Hdone by (intros ?? [c ?]; by exists ws, c).
  destruct (or_else _ _) as [[[t lx']|e]|] eqn:E; simpl; [| done |].
  - apply Hdone, arm_ok_token; [done|]. unfold or_else in E.
    destruct (lex_comment _ _ _) eqn:E1; [simplify_eq; by eapply lex_comment_ok|].
    destruct (lex_char_literal _ _ _) eqn:E2; [simplify_eq; by eapply lex_char_literal_ok|].
    by apply lex_string_ok.
  - pose proof (lex_word_total (skip_ws lx) (pos (skip_ws lx))).
    destruct (lex_word _ _) as [[t lx']| |] eqn:Ew; [|done..].
    apply Hdone. by eapply lex_word_ok.
Qed.

(** ** Tiling

    [tiles src exact pre toks]: the bytes of [src] behind [pre] are the texts
    of [toks] with white space around them, in order.  Every span holds the
    byte offsets of its text; while [exact] holds (before the first [LET]
    block) also its lines and columns. *)

Definition span_at (exact : bool) (pre c : string) (t : Token) : Prop :=
  p_byte_offset (sp_start (t_span t)) = u32_wrap (slen pre) ∧
  p_byte_offset (sp_end (t_span t)) = u32_wrap (slen (pre +:+ c)) ∧
  (exact = true → sp_start (t_span t) = pos_after pre ∧
                  (is_let_tok t = false → sp_end (t_span t) = pos_after (pre +:+ c))).

Inductive tiles (src : string) : bool → string → list Token → Prop :=
  | tiles_end exact pre ws :
      src = pre +:+ ws → str_all is_ws ws = true → tiles src exact pre []
  | tiles_tok exact pre ws c t toks :
      str_all is_ws ws = true → c ≠ "" → (∃ r, src = pre +:+ ws +:+ c +:+ r) →
      span_at exact (pre +:+ ws) c t →
      (∀ w, t_kind t = TWord w → w = from_utf8_or_empty c) →
      (∀ text, t_kind t = TLetBlock text → is_u32 (slen src) → text = c) →
      tiles src (exact && negb (is_let_tok t)) (pre +:+ ws +:+ c) toks →
      tiles src exact pre (t :: toks).

Lemma lexer_wf_offset src pre lx : lexer_wf src pre lx → p_byte_offset (pos lx) = u32_wrap (slen pre).
Proof. intros (_ & _ & Hi). unfold pos. simpl. by rewrite Hi. Qed.

Lemma lexer_wf_shrinks src pre lx c lx' :
  lexer_wf src pre lx → lexer_wf src (pre +:+ c) lx' → c ≠ "" →
  (String.length (lx_rest lx') < String.length (lx_rest lx))%nat.
Proof.
  intros (-> & _) (H & _) Hc. apply (f_equal String.length) in H.
  rewrite !str_length_app in H. destruct c; [done|]. simpl in H. lia.
Qed.

Lemma lex_loop_tiles fuel src exact pre lx :
  (String.length (lx_rest lx) < fuel)%nat →
  lexer_wf src pre lx → (exact = true → at_prefix src pre lx) →
  match lex_loop fuel lx with
  | Done toks => tiles src exact pre toks
  | Fail _ => True
  | OutOfFuel => False
  end.
Proof.
  revert exact pre lx. induction fuel as [|fuel IH]; intros exact pre lx Hf Hwf Hex; [lia|].
  simpl. pose proof (next_token_spec src pre lx Hwf) as H.
  destruct (next_token lx) as [[[t|] lx']| |]; simpl in *; [|naive_solver (eauto using tiles)|done..].
  destruct H as (ws & c & Hws & Hr & Hc & Hwf' & Hsp & Hat & Hw & Hlet).
  pose proof (lexer_wf_reads _ _ _ _ _ Hr Hwf) as Hwf1.
  specialize (IH (exact && negb (is_let_tok t)) ((pre +:+ ws) +:+ c) lx').
  assert (exact && negb (is_let_tok t) = true → at_prefix src ((pre +:+ ws) +:+ c) lx') as Hex'.
  { intros [He Hn]%andb_true_iff. apply Hat; [by destruct (is_let_tok t)|].
    eapply at_prefix_reads; eauto. }
  destruct (lex_loop fuel lx') as [toks| |]; simpl; [|done|apply IH; try done].
  2:{ pose proof (lexer_wf_shrinks _ _ _ _ _ Hwf1 Hwf' Hc).
      destruct Hr as [Hr _]. apply (f_equal String.length) in Hr.
      rewrite str_length_app in Hr. lia. }
  apply tiles_tok with ws c; try done.
  - destruct Hwf' as [-> _]. exists (lx_rest lx'). by autorewrite with str.
  - split; [|split]; rewrite ?Hsp; simpl.
    + by apply (lexer_wf_offset _ _ _ Hwf1).
    + by apply (lexer_wf_offset _ _ _ Hwf').
    + intros He. pose proof (at_prefix_reads _ _ _ _ _ Hr (Hex He)) as Hpre. split; [apply Hpre|].
      intros Hn. specialize (Hat Hn Hpre). apply Hat.
  - rewrite <- str_app_assoc. apply IH; try done.
    pose proof (lexer_wf_shrinks _ _ _ _ _ Hwf1 Hwf' Hc).
    destruct Hr as [Hr _]. apply (f_equal String.length) in Hr.
    rewrite str_length_app in Hr. lia.
Qed.

Lemma lex_covers (src : string) :
  match lex src with
  | Done toks => tiles src true "" toks
  | Fail _ => True
  | OutOfFuel => False
  end.
Proof.
  apply lex_loop_tiles; [simpl; lia|by apply at_prefix_wf, at_prefix_new|].
  intros _. apply at_prefix_new.
Qed.

(** C5: tokenising terminates on every source, with a token list or a
    compile error, and the tokens tile the source: read in order and with
    white space between them they are exactly its bytes, every span holds the
    byte offsets (modulo 2^32) of its text, up to the first [LET] block also
    its lines and columns, a word token carries its text, and a [LET] token
    carries the text of its block. *)
Theorem lex_tiles (src : string) :
  match lex src with
  | Done toks => tiles src true "" toks
  | Fail _ => True
  | OutOfFuel => False
  end.
Proof. apply lex_covers. Qed.
