(* ===== verification/LexRound.v ===== *)
(** * Reading back what was printed

    Round trips of [Lex]: the value of a number literal in every base, the
    decimal image of an [i64] reads back as that integer, and a line of words
    and integers reads back as that line. *)
From S2P Require Import Prelude Bytes F64 Lex LexFacts.

(** ** Values of digit strings *)

(** The value of a digit byte, for bases up to 16. *)
Definition digit_value (c : ascii) : Z :=
  if is_digit c then byte_val c - 48
  else if in_range 97 102 c then byte_val c - 87 else byte_val c - 55.

(** A byte [parse_digits] takes as a digit of [base]. *)
Definition is_digit_of (base : Z) (c : ascii) : bool :=
  is_hexdigit c && (digit_value c <? base).

Fixpoint num (base acc : Z) (s : string) : Z :=
  match s with
  | EmptyString => acc
  | String c r => num base (if (c =? "_")%char then acc else acc * base + digit_value c) r
  end.

Lemma parse_digits_ok base acc s :
  str_all (λ c, is_digit_of base c || (c =? "_")%char) s = true →
  parse_digits s base (i64_wrap acc) = Ok (i64_wrap (num base acc s)).
Proof.
  revert acc. induction s as [|c r IH]; intros acc Hs; [done|]. simpl in Hs |- *.
  apply andb_true_iff in Hs as [Hc Hr].
  destruct (c =? "_")%char eqn:Eu.
  { apply Stdlib.Strings.Ascii.eqb_eq in Eu as ->. cbn. by apply IH. }
  rewrite orb_false_r in Hc. apply andb_true_iff in Hc as [Hh Hd].
  set (digit := if is_digit c then Some _ else _).
  assert (digit = Some (digit_value c)) as ->.
  { subst digit. unfold digit_value, is_hexdigit in *. destruct (is_digit c); [done|].
    destruct (in_range 97 102 c); [f_equal; lia|]. simpl in Hh. rewrite Hh. f_equal; lia. }
  rewrite (proj2 (Z.leb_gt _ _)) by (apply Z.ltb_lt; exact Hd).
  rewrite <- (IH (acc * base + digit_value c)) by exact Hr. f_equal.
  apply i64_wrap_congr. rewrite Zplus_mod, i64_wrap_mod, <- Zplus_mod.
  rewrite Zplus_mod, Zmult_mod, i64_wrap_mod, <- Zmult_mod, <- Zplus_mod. done.
Qed.

(** ** Decimal images *)

Lemma num_app base acc a b : num base acc (a +:+ b) = num base (num base acc a) b.
Proof. revert acc. induction a as [|c a IH]; intros acc; simpl; [done|]. by rewrite IH. Qed.

Lemma pretty_N_char_digit x :
  (x < 10)%N → is_digit (pretty_N_char x) = true ∧ digit_value (pretty_N_char x) = Z.of_N x.
Proof.
  intros. assert (x = 0 ∨ x = 1 ∨ x = 2 ∨ x = 3 ∨ x = 4 ∨ x = 5 ∨ x = 6 ∨ x = 7 ∨ x = 8 ∨ x = 9)%N
    as H10 by lia.
  repeat destruct H10 as [->|H10]; try subst; by vm_compute.
Qed.

Lemma digit_not_underscore c : is_digit c = true → (c =? "_")%char = false.
Proof. byte_cases c. Qed.

Lemma pretty_N_go_num x s :
  str_all is_digit s = true →
  str_all is_digit (pretty_N_go x s) = true ∧
  num 10 0 (pretty_N_go x s) = num 10 (Z.of_N x) s.
Proof.
  revert s. induction (N.lt_wf_0 x) as [x _ IH]; intros s Hs.
  destruct (decide (x = 0)%N) as [->|Hx]; [done|].
  rewrite pretty_N_go_step by lia.
  pose proof (N.mod_lt x 10 ltac:(lia)) as Hm.
  destruct (pretty_N_char_digit _ Hm) as [Hd Hv].
  destruct (IH (x `div` 10)%N (N.div_lt x 10 ltac:(lia) ltac:(lia))
              (String (pretty_N_char (x `mod` 10)) s)) as [Hall Hnum].
  { simpl. by rewrite Hd, Hs. }
  split; [done|]. rewrite Hnum. simpl. rewrite digit_not_underscore by done. f_equal.
  rewrite Hv. pose proof (N.div_mod x 10 ltac:(lia)). lia.
Qed.

Lemma pretty_N_num (x : N) :
  str_all is_digit (pretty x) = true ∧ num 10 0 (pretty x) = Z.of_N x ∧ pretty x ≠ "".
Proof.
  unfold pretty, pretty_N. destruct (decide (x = 0)%N) as [->|Hx]; [done|].
  destruct (pretty_N_go_num x "" eq_refl) as [Hall Hnum]. repeat split; try done.
  intros He. rewrite He in Hnum. simpl in Hnum. lia.
Qed.

(** ** Classification of digit strings *)

Lemma digit_bytes b :
  is_digit b = true →
  is_prefix_byte b = false ∧ (b =? ".")%char = false ∧ (b =? "-")%char = false ∧
  (b =? "e")%char = false ∧ (b =? "E")%char = false ∧
  (b =? "x")%char = false ∧ (b =? "X")%char = false.
Proof. byte_cases b. Qed.

Lemma digits_no_dot s : str_all is_digit s = true → contains_byte "." s = false.
Proof.
  unfold contains_byte. induction s as [|b s IH]; simpl; [done|].
  intros [Hb Hs]%andb_true_iff. destruct (digit_bytes b Hb) as (_ & Hd & _). by rewrite Hd, IH.
Qed.

Lemma digits_no_exp s : str_all is_digit s = true → has_exp s = false.
Proof.
  induction s as [|b s IH]; simpl; [done|]. intros [Hb Hs]%andb_true_iff.
  destruct (digit_bytes b Hb) as (_ & _ & _ & He & HE & _). by rewrite He, HE, IH.
Qed.

Lemma digits_no_0x s :
  str_all is_digit s = true → strip_prefix "0x" s = None ∧ strip_prefix "0X" s = None.
Proof.
  assert (Hx : ∀ b, is_digit b = true → ("x" =? b)%char = false ∧ ("X" =? b)%char = false)
    by (intros b; byte_cases b).
  destruct s as [|a [|b s]]; cbn [str_all strip_prefix]; [done| |].
  - intros _. by destruct ("0" =? a)%char.
  - intros [_ [Hb _]%andb_true_iff]%andb_true_iff. destruct (Hx b Hb) as [-> ->].
    by destruct ("0" =? a)%char.
Qed.

Lemma digits_not_float s : str_all is_digit s = true → looks_like_float s = false.
Proof.
  intros Hs. unfold looks_like_float. destruct s as [|b r]; [done|].
  rewrite digits_no_dot, digits_no_exp by done. by repeat case_match.
Qed.

Lemma prefix_byte_cases b :
  is_prefix_byte b = false → (b =? "$")%char = false ∧ (b =? "%")%char = false ∧ (b =? "#")%char = false.
Proof. byte_cases b. Qed.

Lemma is_digit_of_10 s :
  str_all is_digit s = true → str_all (λ c, is_digit_of 10 c || (c =? "_")%char) s = true.
Proof. apply str_all_impl. intros b. byte_cases b. Qed.

Lemma classify_digits s span :
  str_all is_digit s = true → s ≠ "" →
  classify_word_or_number s span = Ok (TInt (i64_wrap (num 10 0 s)) Decimal s).
Proof.
  intros Hs Hne. destruct s as [|b r] eqn:Es; [done|]. cbn [classify_word_or_number].
  rewrite <- Es in *. rewrite digits_not_float by done.
  destruct (digits_no_0x s Hs) as [-> ->]. simpl or_else. cbv iota.
  assert (is_digit b = true) as Hb.
  { rewrite Es in Hs. simpl in Hs. by apply andb_true_iff in Hs as [? _]. }
  destruct (digit_bytes b Hb) as (Hp & _ & Hm & _).
  destruct (prefix_byte_cases b Hp) as (-> & -> & ->). rewrite Hm. simpl.
  rewrite Hs. unfold parse_int_with_base. rewrite bool_decide_false by done.
  change 0 with (i64_wrap 0) at 1. by rewrite parse_digits_ok by by apply is_digit_of_10.
Qed.

(** The decimal image of an [i64], sign included. *)
Lemma classify_pretty z span :
  is_i64 z → classify_word_or_number (pretty z) span = Ok (TInt z Decimal (pretty z)).
Proof.
  intros Hz. destruct z as [|p|p]; [done| |].
  - destruct (pretty_N_num (Npos p)) as (Hall & Hnum & Hne).
    change (pretty (Z.pos p)) with (pretty (N.pos p)).
    rewrite classify_digits, Hnum by done. by rewrite i64_wrap_small.
  - destruct (pretty_N_num (Npos p)) as (Hall & Hnum & Hne).
    change (pretty (Z.neg p)) with (String "-" (pretty (N.pos p))).
    cbn [classify_word_or_number]. rewrite classify_digits, Hnum by done.
    assert (looks_like_float (String "-" (pretty (N.pos p))) = false) as ->.
    { unfold looks_like_float. cbn [has_exp contains_byte].
      unfold contains_byte. cbn [str_any]. fold (contains_byte "." (pretty (N.pos p))).
      rewrite digits_no_dot, digits_no_exp by done. by repeat case_match. }
    assert (neg_rest_ok (pretty (N.pos p)) = true) as ->.
    { unfold neg_rest_ok. destruct (pretty (N.pos p)); [done|]. simpl in Hall.
      apply andb_true_iff in Hall as [-> _]. done. }
    simpl. do 3 f_equal.
    transitivity (i64_wrap (Z.neg p)); [|by apply i64_wrap_small].
    apply i64_wrap_congr. rewrite <- (Z.sub_0_l (i64_wrap _)), Zminus_mod, i64_wrap_mod, <- Zminus_mod.
    done.
Qed.

(** ** Reading a plain text *)

(** A text that [next_token] can only take as one word or number: no byte of
    it is white space or a double quote, its first byte opens neither a
    character literal nor a comment, it is UTF-8, and it is not [LET]. *)
Definition plain_text (w : string) : bool :=
  match w with
  | EmptyString => false
  | String b _ =>
      str_all (λ b, negb (is_ws b)) w && negb (contains_byte quote_byte w) &&
      negb (is_quote b || (b =? "\")%char || (b =? "(")%char) &&
      utf8_valid w && negb (eq_nocase w "let")
  end.

(** The end of the source, or white space. *)
Definition stops (rest : string) : bool :=
  match rest with EmptyString => true | String b _ => is_ws b end.

Lemma bump_while_all p w rest lx :
  lx_rest lx = w +:+ rest → str_all p w = true →
  match rest with EmptyString => True | String b _ => p b = false end →
  ∃ lx1, bump_while p lx = (w, lx1) ∧ lx_rest lx1 = rest.
Proof.
  unfold bump_while. intros Hr. rewrite Hr. revert lx Hr.
  induction w as [|b w IH]; intros lx Hr Hall Hstop; simpl in *.
  - exists lx. split; [|done]. destruct rest as [|b r]; [done|]. simpl. by rewrite Hstop.
  - apply andb_true_iff in Hall as [Hb Hall]. rewrite Hb.
    destruct (IH (bump lx) (bump_rest _ _ _ Hr) Hall Hstop) as (lx1 & E & ?).
    rewrite E. eauto.
Qed.

Lemma second_byte_not_quote b w rest x r :
  contains_byte quote_byte (String b w) = false → stops rest = true →
  w +:+ rest = String x r → (x =? quote_byte)%char = false.
Proof.
  unfold contains_byte. cbn [str_any]. rewrite orb_false_iff. intros [_ Hw] Hst.
  destruct w as [|y w]; cbn.
  - intros ->. revert Hst. cbn [stops]. byte_cases x.
  - intros [= -> _]. cbn [str_any] in Hw. apply orb_false_iff in Hw as [Hw _].
    by rewrite Stdlib.Strings.Ascii.eqb_sym.
Qed.

Lemma third_byte_not_quote b c w rest x r :
  contains_byte quote_byte (String b (String c w)) = false → stops rest = true →
  w +:+ rest = String x r → (x =? quote_byte)%char = false.
Proof.
  intros Hq. apply (second_byte_not_quote c). unfold contains_byte in *.
  cbn [str_any] in *. by apply orb_false_iff in Hq as [_ ?].
Qed.

Lemma lex_string_plain lx start w rest :
  lx_rest lx = w +:+ rest → plain_text w = true → stops rest = true →
  lex_string lx start = None.
Proof.
  intros Hr Hp Hst. destruct w as [|b w]; [done|]. unfold plain_text in Hp.
  repeat (apply andb_true_iff in Hp as [Hp ?]).
  assert (contains_byte quote_byte (String b w) = false) as Hq by (by apply negb_true_iff).
  unfold lex_string, peek3, peek2. rewrite Hr. cbn [String.append].
  destruct (w +:+ rest) as [|x r] eqn:Ex; [done|].
  rewrite (second_byte_not_quote _ _ _ _ _ Hq Hst Ex).
  destruct r as [|y r]; [done|]. cbn [negb].
  destruct (y =? quote_byte)%char eqn:Ey; [|by rewrite !andb_false_r].
  destruct w as [|c w].
  - destruct rest as [|d rest]; [done|]. cbn in Ex. injection Ex as -> _.
    assert ((x =? "$")%char = false) as -> by (revert Hst; cbn [stops]; byte_cases x).
    by rewrite !andb_false_r.
  - cbn in Ex. injection Ex as <- Ex.
    by rewrite (third_byte_not_quote _ _ _ _ _ _ Hq Hst Ex) in Ey.
Qed.

Lemma next_token_plain lx ws w rest k :
  lx_rest lx = ws +:+ w +:+ rest → str_all is_ws ws = true →
  plain_text w = true → stops rest = true → (∀ sp, classify_word_or_number w sp = Ok k) →
  ∃ t lx1, next_token lx = Done (Some t, lx1) ∧ t_kind t = k ∧ lx_rest lx1 = rest.
Proof.
  intros Hr Hws Hp Hst Hk. pose proof Hp as Hp'. destruct w as [|b w]; [done|].
  unfold plain_text in Hp'. rewrite !andb_true_iff, !negb_true_iff, !orb_false_iff in Hp'.
  destruct Hp' as ((((Hall & _) & (Hq & Hbs) & Hpar) & Hutf) & Hlet).
  assert (is_ws b = false) as Hb.
  { simpl in Hall. apply andb_true_iff in Hall as [Hall _]. by apply negb_true_iff in Hall. }
  destruct (bump_while_all is_ws ws (String b w +:+ rest) lx Hr Hws Hb) as (lx1 & E & Hr1).
  unfold next_token, skip_ws. rewrite E. cbn [snd]. unfold peek. rewrite Hr1. cbn [String.append].
  unfold lex_comment, lex_char_literal. rewrite Hbs, Hpar, Hq. cbn [andb or_else].
  rewrite (lex_string_plain _ _ _ _ Hr1 Hp Hst). unfold lex_word, read_word_raw.
  destruct (bump_while_all (λ b, negb (is_ws b)) (String b w) rest lx1 Hr1 Hall) as (lx2 & E2 & Hr2).
  { destruct rest; [done|]. simpl in Hst. by rewrite Hst. }
  rewrite E2. unfold from_utf8_or_empty, from_utf8. rewrite Hutf, Hlet.
  rewrite Hk. simpl. eauto.
Qed.

(** ** Lines of words and integers *)

Inductive Item := IWord (w : string) | IInt (z : Z).

Definition item_text (it : Item) : string :=
  match it with IWord w => w | IInt z => pretty z end.
Definition item_tok (it : Item) : Tok :=
  match it with IWord w => TWord w | IInt z => TInt z Decimal (pretty z) end.

(** A word is any plain text the classifier takes as a word. *)
Definition item_ok (it : Item) : Prop :=
  match it with
  | IWord w => plain_text w = true ∧ ∀ sp, classify_word_or_number w sp = Ok (TWord w)
  | IInt z => is_i64 z
  end.

Lemma ascii_utf8 s : str_all (in_range 0 127) s = true → utf8_valid s = true.
Proof.
  induction s as [|b s IH]; cbn [str_all utf8_valid]; [done|].
  intros [-> ?]%andb_true_iff. by apply IH.
Qed.

Lemma digits_plain s :
  str_all is_digit s = true →
  str_all (λ b, negb (is_ws b)) s = true ∧ contains_byte quote_byte s = false ∧
  str_all (in_range 0 127) s = true.
Proof.
  intros Hs. split; [|split].
  - revert Hs. apply str_all_impl. intros b. byte_cases b.
  - unfold contains_byte. induction s as [|b s IH]; [done|]. cbn [str_all str_any] in *.
    apply andb_true_iff in Hs as [Hb Hs]. rewrite IH, orb_false_r by done.
    revert Hb. byte_cases b.
  - revert Hs. apply str_all_impl. intros b. byte_cases b.
Qed.

Lemma pretty_plain (z : Z) : plain_text (pretty z) = true.
Proof.
  destruct z as [|p|p]; [done| |].
  - destruct (pretty_N_num (Npos p)) as (Hall & _ & Hne).
    change (pretty (Z.pos p)) with (pretty (N.pos p)).
    destruct (digits_plain _ Hall) as (H1 & H2 & H3). apply ascii_utf8 in H3.
    destruct (pretty (N.pos p)) as [|b r]; [done|].
    unfold plain_text. rewrite H1, H2, H3. simpl in Hall. apply andb_true_iff in Hall as [Hb _].
    assert (eq_nocase (String b r) "let" = false) as ->.
    { apply bool_decide_eq_false. cbn. intros [= Hl _]. revert Hb Hl. byte_cases b. }
    revert Hb. clear. byte_cases b.
  - destruct (pretty_N_num (Npos p)) as (Hall & _ & Hne).
    change (pretty (Z.neg p)) with (String "-" (pretty (N.pos p))).
    destruct (digits_plain _ Hall) as (H1 & H2 & H3). apply ascii_utf8 in H3.
    unfold plain_text, contains_byte in *. cbn [str_all str_any utf8_valid].
    rewrite H1, H2. cbn [andb]. 
    change (in_range 0 127 "-") with true. cbv iota. rewrite H3.
    assert (eq_nocase (String "-" (pretty (N.pos p))) "let" = false) as ->.
    { apply bool_decide_eq_false. cbn. intros [= Hl _]. }
    done.
Qed.

Lemma item_ok_plain it :
  item_ok it → plain_text (item_text it) = true ∧
  ∀ sp, classify_word_or_number (item_text it) sp = Ok (item_tok it).
Proof.
  destruct it as [w|z]; simpl; [done|]. intros Hz.
  split; [apply pretty_plain|]. intros sp. by apply classify_pretty.
Qed.

Lemma next_token_end lx ws :
  lx_rest lx = ws → str_all is_ws ws = true → ∃ lx1, next_token lx = Done (None, lx1).
Proof.
  intros Hr Hws. unfold next_token, skip_ws.
  destruct (bump_while_all is_ws ws "" lx) as (lx1 & E & Hr1); [by rewrite str_app_nil_r|done..|].
  rewrite E. cbn [snd]. unfold peek. rewrite Hr1. eauto.
Qed.

Lemma lex_loop_items fuel ws items lx :
  (String.length (lx_rest lx) < fuel)%nat →
  lx_rest lx = ws +:+ concat_sep " " (item_text <$> items) → str_all is_ws ws = true →
  Forall item_ok items →
  ∃ toks, lex_loop fuel lx = Done toks ∧ t_kind <$> toks = item_tok <$> items.
Proof.
  revert ws items lx. induction fuel as [|fuel IH]; intros ws items lx Hf Hr Hws Hok; [lia|].
  simpl. destruct Hok as [|it items Hit Hok].
  { simpl in Hr. destruct (next_token_end lx ws) as (lx1 & ->); [by rewrite Hr, str_app_nil_r|done|].
    by exists []. }
  destruct (item_ok_plain it Hit) as [Hp Hk].
  set (rest := match items with [] => "" | _ => " " +:+ concat_sep " " (item_text <$> items) end).
  assert (lx_rest lx = ws +:+ item_text it +:+ rest) as Hr'.
  { rewrite Hr. f_equal. subst rest. destruct items; [|done]. simpl. by rewrite str_app_nil_r. }
  destruct (next_token_plain lx ws (item_text it) rest (item_tok it)) as (t & lx1 & -> & Ht & Hr1);
    try done; [by subst rest; destruct items|].
  simpl. destruct (IH (if items is [] then "" else " ") items lx1) as (toks & -> & Htoks).
  - rewrite Hr1. rewrite Hr', !str_length_app in Hf. destruct (item_text it); [done|].
    simpl in Hf. lia.
  - rewrite Hr1. subst rest. by destruct items.
  - by destruct items.
  - done.
  - exists (t :: toks). by rewrite !fmap_cons, Ht, Htoks.
Qed.

(** A line of words and decimal [i64] literals, printed with one space
    between them, tokenises back to exactly those words and integers. *)
Theorem lex_print_items (items : list Item) (Hok : Forall item_ok items) :
  ∃ toks, lex (concat_sep " " (item_text <$> items)) = Done toks ∧
          t_kind <$> toks = item_tok <$> items.
Proof. by apply (lex_loop_items _ ""); [simpl; lia|..]. Qed.

Lemma lex_print_items_witness :
  ∃ toks, lex ("dup -9223372036854775808 2drop 42 ;") = Done toks ∧
          t_kind <$> toks =
            item_tok <$> [IWord "dup"; IInt (-9223372036854775808); IWord "2drop"; IInt 42; IWord ";"].
Proof.
  apply (lex_print_items
    [IWord "dup"; IInt (-9223372036854775808); IWord "2drop"; IInt 42; IWord ";"]).
  repeat constructor; vm_compute; try done; by intros.
Defined.

(** The value of an integer literal in base 2, 10 or 16: digits of the
    base and underscores are accepted, the value is the positional one modulo
    2^64 in two's complement, and it is always an [i64]. *)
Theorem parse_int_value (digits raw : string) (base : Z) (tag : NumBase) (span : Span)
    (Hne : digits ≠ "")
    (Hd : str_all (λ c, is_digit_of base c || (c =? "_")%char) digits = true) :
  parse_int_with_base digits base tag raw span = Ok (TInt (i64_wrap (num base 0 digits)) tag raw) ∧
  is_i64 (i64_wrap (num base 0 digits)) ∧
  (i64_wrap (num base 0 digits)) mod 2 ^ 64 = (num base 0 digits) mod 2 ^ 64.
Proof.
  split; [|by split; [apply i64_wrap_range|apply i64_wrap_mod]].
  unfold parse_int_with_base. rewrite bool_decide_false by done.
  change 0 with (i64_wrap 0) at 1. by rewrite parse_digits_ok.
Qed.

Lemma parse_int_value_witness :
  ∃ sp, parse_int_with_base "ff_ff_ff_ff_ff_ff_ff_fe" 16 Hex "$ff_ff_ff_ff_ff_ff_ff_fe" sp
        = Ok (TInt (-2) Hex "$ff_ff_ff_ff_ff_ff_ff_fe").
Proof.
  exists (mkSpan (mkPos 1 1 0) (mkPos 1 1 0)).
  apply (parse_int_value "ff_ff_ff_ff_ff_ff_ff_fe" _ 16 Hex _ ltac:(done) ltac:(vm_compute; reflexivity)).
Defined.
