(* ===== verification/LetLang.v ===== *)
(** * The LET sub-language ([src/compiler/let_lang/parser.rs])

    The infix expression language of [LET ( inputs ) -> ( outputs ) = ... END]:
    its own tokeniser and a recursive-descent parser.  The tokeniser is lazy,
    as in the source: [bump] reads one token ahead, so a bad token is reported
    when the parser reaches it.  The parser's recursion takes fuel;
    [LetFacts.let_parse_total] shows the fuel of [let_parse] is enough. *)
From S2P Require Import Prelude Bytes F64.

(** ** Syntax trees *)

Inductive BinOp := OpAdd | OpSub | OpMul | OpDiv | OpPow | OpEq | OpNe | OpLt | OpGt | OpLe | OpGe.

Inductive LExpr :=
  | LLit (x : f64)
  | LVar (name : string)
  | LBin (op : BinOp) (a b : LExpr)
  | LNeg (a : LExpr)
  | LCall (name : string) (args : list LExpr).

Record DestructureClause := mkDestructure { dc_class : string; dc_slots : list string }.
Record LetInput := mkLetInput { li_name : string; li_destructure : option DestructureClause }.
Definition plain (name : string) : LetInput := mkLetInput name None.

Record LetForm := mkLetForm {
  lf_inputs : list LetInput;
  lf_outputs : list string;
  lf_results : list LExpr;
  lf_wheres : list (string * LExpr)
}.

Record LetError := mkLetError { le_message : string; le_pos : Z }.
Definition show_let_error (e : LetError) : string :=
  "LET error at byte " +:+ pretty (le_pos e) +:+ ": " +:+ le_message e.

(** ** Tokens *)

Inductive LTok :=
  | LParen | RParen | Comma | Equals | Arrow
  | Plus | Minus | Star | Slash | StarStar
  | EqEq | NotEq | Less | Greater | LessEq | GreaterEq
  | Colon
  | LetKw | EndKw | WhereKw | AsKw
  | Ident (name : string)
  | Num (x : f64)
  | Eof.

#[export] Instance LTok_eq_dec : EqDecision LTok.
Proof. solve_decision. Defined.
#[export] Instance BinOp_eq_dec : EqDecision BinOp.
Proof. solve_decision. Defined.

Definition ldq : string := String "034" "".

(** The derived [Debug] of a token; identifiers hold no byte to escape. *)
Definition show_ltok (t : LTok) : string :=
  match t with
  | LParen => "LParen" | RParen => "RParen" | Comma => "Comma" | Equals => "Equals"
  | Arrow => "Arrow" | Plus => "Plus" | Minus => "Minus" | Star => "Star" | Slash => "Slash"
  | StarStar => "StarStar" | EqEq => "EqEq" | NotEq => "NotEq" | Less => "Less"
  | Greater => "Greater" | LessEq => "LessEq" | GreaterEq => "GreaterEq" | Colon => "Colon"
  | LetKw => "LetKw" | EndKw => "EndKw" | WhereKw => "WhereKw" | AsKw => "AsKw"
  | Ident s => "Ident(" +:+ ldq +:+ s +:+ ldq +:+ ")"
  | Num x => "Num(" +:+ f64_debug x +:+ ")"
  | Eof => "Eof"
  end.

(** ** Tokeniser

    The state is the source behind the cursor and the cursor. *)

Record LLexer := mkLLexer { ll_rest : string; ll_pos : Z }.

(** White space and [\] line comments; [comment] holds inside one. *)
Fixpoint let_skip_ws (comment : bool) (s : string) (p : Z) : LLexer :=
  match s with
  | EmptyString => mkLLexer EmptyString p
  | String c r =>
      if comment then let_skip_ws (negb (c =? "010")%char) r (p + 1)
      else if is_ws c then let_skip_ws false r (p + 1)
      else if (c =? "\")%char &&
              match r with EmptyString => true | String d _ => is_ws d end
        then let_skip_ws true r (p + 1)
        else mkLLexer s p
  end.

Definition is_ident_start (c : ascii) : bool := is_alpha c || (c =? "_")%char.
Definition is_ident_byte (c : ascii) : bool := is_alnum c || (c =? "_")%char.

Definition keyword_or_ident (word : string) : LTok :=
  if eq_nocase word "let" then LetKw
  else if eq_nocase word "end" then EndKw
  else if eq_nocase word "where" then WhereKw
  else if eq_nocase word "as" then AsKw
  else Ident word.

(** The run of bytes the number arm takes. *)
Fixpoint scan_number (has_dot : bool) (s : string) : string * string :=
  match s with
  | EmptyString => (EmptyString, EmptyString)
  | String c r =>
      let keep dot r :=
        let '(n, r') := scan_number dot r in (String c n, r') in
      if is_digit c then keep has_dot r
      else if (c =? ".")%char && negb has_dot then keep true r
      else if (c =? "e")%char || (c =? "E")%char then
        match r with
        | String d r2 =>
            if (d =? "+")%char || (d =? "-")%char
            then let '(n, r') := scan_number has_dot r2 in (String c (String d n), r')
            else keep has_dot r
        | EmptyString => keep has_dot r
        end
      else (EmptyString, s)
  end.

Definition let_number (s : string) (start : Z) : result LetError (LTok * Z * LLexer) :=
  let '(n, r) := scan_number false s in
  if bool_decide (n = ".") then Err (mkLetError "lone '.' isn't a number" start)
  else match f64_parse n with
       | Some x => Ok (Num x, start, mkLLexer r (start + slen n))
       | None => Err (mkLetError ("invalid number '" +:+ n +:+ "'") start)
       end.

Definition let_ident (s : string) (start : Z) : LTok * Z * LLexer :=
  let '(w, r) := span_while is_ident_byte s in
  (keyword_or_ident w, start, mkLLexer r (start + slen w)).

(** [one] when the byte behind is not [c2], else [two] and two bytes read. *)
Definition one_or_two (r : string) (start : Z) (c2 : ascii) (two one : LTok) : LTok * Z * LLexer :=
  match r with
  | String d r2 =>
      if (d =? c2)%char then (two, start, mkLLexer r2 (start + 2))
      else (one, start, mkLLexer r (start + 1))
  | EmptyString => (one, start, mkLLexer r (start + 1))
  end.

Definition next_tok (lx : LLexer) : result LetError (LTok * Z * LLexer) :=
  let lx := let_skip_ws false (ll_rest lx) (ll_pos lx) in
  let start := ll_pos lx in
  match ll_rest lx with
  | EmptyString => Ok (Eof, start, lx)
  | String c r =>
      let single t := Ok (t, start, mkLLexer r (start + 1)) in
      if (c =? "(")%char then single LParen
      else if (c =? ")")%char then single RParen
      else if (c =? ",")%char then single Comma
      else if (c =? "=")%char then Ok (one_or_two r start "=" EqEq Equals)
      else if (c =? "!")%char then
        match one_or_two r start "=" NotEq Eof with
        | (NotEq, p, lx') => Ok (NotEq, p, lx')
        | _ => Err (mkLetError "stray '!' (did you mean '!='?)" start)
        end
      else if (c =? "<")%char then Ok (one_or_two r start "=" LessEq Less)
      else if (c =? ">")%char then Ok (one_or_two r start "=" GreaterEq Greater)
      else if (c =? "+")%char then single Plus
      else if (c =? "-")%char then Ok (one_or_two r start ">" Arrow Minus)
      else if (c =? "*")%char then Ok (one_or_two r start "*" StarStar Star)
      else if (c =? "/")%char then single Slash
      else if (c =? ":")%char then single Colon
      else if (c =? "^")%char then single StarStar
      else if is_ident_start c then Ok (let_ident (String c r) start)
      else if is_digit c || (c =? ".")%char then let_number (String c r) start
      else Err (mkLetError ("unexpected character '" +:+ char_of_u8 c +:+ "'") start)
  end.

(** ** Parser state *)

Record LP := mkLP { lp_lex : LLexer; lp_cur : LTok; lp_pos : Z }.

Definition lp_new (src : string) : result LetError LP :=
  '(t, p, lx) ← next_tok (mkLLexer src 0); Ok (mkLP lx t p).

Definition lp_bump (s : LP) : result LetError (LTok * Z * LP) :=
  '(t, p, lx) ← next_tok (lp_lex s); Ok (lp_cur s, lp_pos s, mkLP lx t p).

(** [self.bump()?] for its effect. *)
Definition advance (s : LP) : result LetError LP := '(_, _, s') ← lp_bump s; Ok s'.

Definition let_err {A} (msg : string) (s : LP) : result LetError A :=
  Err (mkLetError msg (lp_pos s)).

(** The tokens expected carry no data, so equal discriminants are equal
    tokens. *)
Definition expect (t : LTok) (s : LP) : result LetError LP :=
  if bool_decide (lp_cur s = t) then advance s
  else let_err ("expected " +:+ show_ltok t +:+ ", got " +:+ show_ltok (lp_cur s)) s.

(** An identifier, or the error [what ", got " token]. *)
Definition expect_ident (what : string) (s : LP) : result LetError (string * LP) :=
  match lp_cur s with
  | Ident n => s' ← advance s; Ok (n, s')
  | t => let_err (what +:+ ", got " +:+ show_ltok t) s
  end.

(** ** Name lists *)

Fixpoint skip_commas (fuel : nat) (s : LP) : outcome LetError LP :=
  match fuel with
  | O => OutOfFuel
  | S fuel' =>
      if bool_decide (lp_cur s = Comma) then s' ← lift (advance s); skip_commas fuel' s'
      else Done s
  end.

Fixpoint output_loop (fuel : nat) (s : LP) : outcome LetError (list string * LP) :=
  match fuel with
  | O => OutOfFuel
  | S fuel' =>
      s1 ← skip_commas fuel' s;
      if bool_decide (lp_cur s1 = RParen) then Done ([], s1)
      else
        '(n, s2) ← lift (expect_ident "expected identifier or ')'" s1);
        '(ns, s3) ← output_loop fuel' s2;
        Done (n :: ns, s3)
  end.

Definition output_list (fuel : nat) (s : LP) : outcome LetError (list string * LP) :=
  s1 ← lift (expect LParen s);
  '(ns, s2) ← output_loop fuel s1;
  s3 ← lift (expect RParen s2);
  Done (ns, s3).

(** The slot names behind [as]: identifiers, up to the first other token. *)
Fixpoint slot_names (fuel : nat) (s : LP) : outcome LetError (list string * LP) :=
  match fuel with
  | O => OutOfFuel
  | S fuel' =>
      match lp_cur s with
      | Ident n =>
          s1 ← lift (advance s); '(ns, s2) ← slot_names fuel' s1; Done (n :: ns, s2)
      | _ => Done ([], s)
      end
  end.

Definition destructure_clause (fuel : nat) (s : LP)
  : outcome LetError (option DestructureClause * LP) :=
  if bool_decide (lp_cur s = Colon) then
    s1 ← lift (advance s);
    '(class, s2) ← lift (expect_ident "expected class name after `:`" s1);
    if bool_decide (lp_cur s2 = AsKw) then
      s3 ← lift (advance s2);
      '(slots, s4) ← slot_names fuel s3;
      match slots with
      | [] => lift (let_err "`as` requires at least one slot name" s4)
      | _ => Done (Some (mkDestructure class slots), s4)
      end
    else Done (Some (mkDestructure class []), s2)
  else Done (None, s).

Fixpoint input_loop (fuel : nat) (s : LP) : outcome LetError (list LetInput * LP) :=
  match fuel with
  | O => OutOfFuel
  | S fuel' =>
      s1 ← skip_commas fuel' s;
      if bool_decide (lp_cur s1 = RParen) then Done ([], s1)
      else
        '(n, s2) ← lift (expect_ident "expected identifier" s1);
        '(d, s3) ← destructure_clause fuel' s2;
        '(ns, s4) ← input_loop fuel' s3;
        Done (mkLetInput n d :: ns, s4)
  end.

Definition input_list (fuel : nat) (s : LP) : outcome LetError (list LetInput * LP) :=
  s1 ← lift (expect LParen s);
  '(ns, s2) ← input_loop fuel s1;
  s3 ← lift (expect RParen s2);
  Done (ns, s3).

(** ** Expressions *)

Definition compare_op (t : LTok) : option BinOp :=
  match t with
  | Less => Some OpLt | Greater => Some OpGt | LessEq => Some OpLe | GreaterEq => Some OpGe
  | EqEq => Some OpEq | NotEq => Some OpNe | _ => None
  end.
Definition add_op (t : LTok) : option BinOp :=
  match t with Plus => Some OpAdd | Minus => Some OpSub | _ => None end.
Definition mul_op (t : LTok) : option BinOp :=
  match t with Star => Some OpMul | Slash => Some OpDiv | _ => None end.

Definition expr_result : Type := outcome LetError (LExpr * LP).

(** [loop { let op = match cur { .. _ => break }; bump; rhs = sub; .. }]. *)
Fixpoint bin_loop (ops : LTok → option BinOp) (sub : LP → expr_result)
    (fuel : nat) (lhs : LExpr) (s : LP) : expr_result :=
  match fuel with
  | O => OutOfFuel
  | S fuel' =>
      match ops (lp_cur s) with
      | None => Done (lhs, s)
      | Some op =>
          s1 ← lift (advance s);
          '(rhs, s2) ← sub s1;
          bin_loop ops sub fuel' (LBin op lhs rhs) s2
      end
  end.

Section Levels.
(** [primary] is [parse_primary]; [fuel] bounds the loops. *)
Context (primary : LP → expr_result) (fuel : nat).

Fixpoint parse_unary (n : nat) (s : LP) : expr_result :=
  match n with
  | O => OutOfFuel
  | S n' =>
      if bool_decide (lp_cur s = Minus) then
        s1 ← lift (advance s); '(e, s2) ← parse_unary n' s1; Done (LNeg e, s2)
      else primary s
  end.

Fixpoint parse_pow (n : nat) (s : LP) : expr_result :=
  match n with
  | O => OutOfFuel
  | S n' =>
      '(lhs, s1) ← parse_unary fuel s;
      if bool_decide (lp_cur s1 = StarStar) then
        s2 ← lift (advance s1); '(rhs, s3) ← parse_pow n' s2; Done (LBin OpPow lhs rhs, s3)
      else Done (lhs, s1)
  end.

Definition parse_mul (s : LP) : expr_result :=
  '(lhs, s1) ← parse_pow fuel s; bin_loop mul_op (parse_pow fuel) fuel lhs s1.
Definition parse_add (s : LP) : expr_result :=
  '(lhs, s1) ← parse_mul s; bin_loop add_op parse_mul fuel lhs s1.
Definition parse_compare (s : LP) : expr_result :=
  '(lhs, s1) ← parse_add s; bin_loop compare_op parse_add fuel lhs s1.
End Levels.

(** [loop { results.push(expr); if cur == Comma { bump } else { break } }]. *)
Fixpoint expr_list (expr : LP → expr_result) (fuel : nat) (s : LP)
  : outcome LetError (list LExpr * LP) :=
  match fuel with
  | O => OutOfFuel
  | S fuel' =>
      '(e, s1) ← expr s;
      if bool_decide (lp_cur s1 = Comma) then
        s2 ← lift (advance s1); '(es, s3) ← expr_list expr fuel' s2; Done (e :: es, s3)
      else Done ([e], s1)
  end.

(** [primary] with [expr] for [parse_expr] inside parentheses. *)
Definition primary_with (expr : LP → expr_result) (fuel : nat) (s : LP) : expr_result :=
  '(t, p, s1) ← lift (lp_bump s);
  match t with
  | Num x => Done (LLit x, s1)
  | Ident name =>
      if bool_decide (lp_cur s1 = LParen) then
        s2 ← lift (advance s1);
        '(args, s3) ← (if bool_decide (lp_cur s2 = RParen) then Done ([], s2)
                       else expr_list expr fuel s2);
        s4 ← lift (expect RParen s3);
        Done (LCall name args, s4)
      else Done (LVar name, s1)
  | LParen =>
      '(e, s2) ← expr s1;
      s3 ← lift (expect RParen s2);
      Done (e, s3)
  | other => Fail (mkLetError ("unexpected token in expression: " +:+ show_ltok other) p)
  end.

(** [depth] bounds the nesting of parentheses, [fuel] every loop. *)
Fixpoint parse_primary (fuel depth : nat) (s : LP) : expr_result :=
  match depth with
  | O => OutOfFuel
  | S d => primary_with (parse_compare (parse_primary fuel d) fuel) fuel s
  end.

Definition parse_expr (fuel : nat) (s : LP) : expr_result :=
  parse_compare (parse_primary fuel fuel) fuel s.

(** ** Forms *)

Fixpoint where_clauses (expr : LP → expr_result) (fuel : nat) (s : LP)
  : outcome LetError (list (string * LExpr) * LP) :=
  match fuel with
  | O => OutOfFuel
  | S fuel' =>
      if bool_decide (lp_cur s = WhereKw) then
        s1 ← lift (advance s);
        '(n, s2) ← lift (expect_ident "WHERE expects identifier" s1);
        s3 ← lift (expect Equals s2);
        '(e, s4) ← expr s3;
        '(ws, s5) ← where_clauses expr fuel' s4;
        Done ((n, e) :: ws, s5)
      else Done ([], s)
  end.

Definition parse_form (fuel : nat) (s : LP) : outcome LetError (LetForm * LP) :=
  s1 ← lift (expect LetKw s);
  '(inputs, s2) ← input_list fuel s1;
  s3 ← lift (expect Arrow s2);
  '(outputs, s4) ← output_list fuel s3;
  s5 ← lift (expect Equals s4);
  '(results, s6) ← expr_list (parse_expr fuel) fuel s5;
  '(wheres, s7) ← where_clauses (parse_expr fuel) fuel s6;
  s8 ← lift (expect EndKw s7);
  if negb (length outputs =? length results)%nat then
    Fail (mkLetError ("LET declares " +:+ pretty (length outputs) +:+
                      " outputs but body has " +:+ pretty (length results) +:+
                      " result expressions") 0)
  else Done (mkLetForm inputs outputs results wheres, s8).

Definition let_fuel (src : string) : nat := S (S (String.length src)).

Definition let_parse (src : string) : outcome LetError LetForm :=
  s ← lift (lp_new src);
  '(form, s1) ← parse_form (let_fuel src) s;
  if bool_decide (lp_cur s1 = Eof) then Done form
  else Fail (mkLetError ("trailing tokens after END: " +:+ show_ltok (lp_cur s1)) (lp_pos s1)).

Example let_parse_ex1 :
  let_parse "LET ( a:point as ax ay, b ) -> ( d e ) = sqrt((ax - ay)**2) , -b^2*3 + t < 1 WHERE t = b END"
  = Done (mkLetForm [mkLetInput "a" (Some (mkDestructure "point" ["ax"; "ay"])); plain "b"]
       ["d"; "e"]
       [LCall "sqrt" [LBin OpPow (LBin OpSub (LVar "ax") (LVar "ay"))
                                 (LLit (f64_of_decimal false 2 0))];
        LBin OpLt
          (LBin OpAdd
             (LBin OpMul (LBin OpPow (LNeg (LVar "b")) (LLit (f64_of_decimal false 2 0)))
                         (LLit (f64_of_decimal false 3 0)))
             (LVar "t"))
          (LLit (f64_of_decimal false 1 0))]
       [("t", LVar "b")]).
Proof. vm_compute. reflexivity. Qed.

Example let_parse_ex2 :
  let_parse "LET (a) -> (b) = 1.5 @ END" = Fail (mkLetError "unexpected character '@'" 21) ∧
  let_parse "LET (a) -> (b) = 1.5 * 1e16 2.5 END"
    = Fail (mkLetError "expected EndKw, got Num(2.5)" 28).
Proof. vm_compute. done. Qed.
