(* ===== verification/LetFacts.v ===== *)
(** * The LET parser terminates and inverts printing

    [let_parse] needs no more fuel than it is given, and a form printed with
    the parentheses its operators' precedence and associativity require (and
    no others) reads back as that form. *)
From S2P Require Import Prelude Bytes F64 LetLang.

(** ** Termination *)

(** The tokens left are at most the bytes left, plus the current one. *)
Definition lp_size (s : LP) : nat :=
  String.length (ll_rest (lp_lex s)) + (if bool_decide (lp_cur s = Eof) then 0 else 1).

Lemma let_skip_ws_length c s p :
  (String.length (ll_rest (let_skip_ws c s p)) ≤ String.length s)%nat.
Proof.
  revert c p. induction s as [|b s IH]; intros c p; cbn [let_skip_ws]; [done|].
  pose proof (IH (negb (b =? "010")%char) (p + 1)). pose proof (IH false (p + 1)).
  pose proof (IH true (p + 1)).
  destruct c; [|destruct (is_ws b); [|destruct (_ && _)]]; cbn [String.length ll_rest] in *; lia.
Qed.

Lemma span_while_length p s a b :
  span_while p s = (a, b) → (String.length a + String.length b = String.length s)%nat.
Proof. intros [-> _]%span_while_app. by rewrite str_length_app. Qed.

Lemma scan_number_app dot s n r : scan_number dot s = (n, r) → s = n +:+ r.
Proof.
  remember (String.length s) as k eqn:Hk. revert dot s n r Hk.
  induction (lt_wf k) as [k _ IH]; intros dot s n r -> H.
  destruct s as [|c s]; simpl in H; [by simplify_eq|].
  assert (∀ dot n' r', scan_number dot s = (n', r') → s = n' +:+ r') as Hs
    by (intros; by eapply IH; [|done..]; simpl; lia).
  destruct (is_digit c); [|destruct (_ && _); [|destruct (_ || _); [|by simplify_eq]]].
  - destruct (scan_number dot s) eqn:E. simplify_eq. simpl. by rewrite <- (Hs _ _ _ E).
  - destruct (scan_number true s) eqn:E. simplify_eq. simpl. by rewrite <- (Hs _ _ _ E).
  - destruct s as [|d s]; [simpl in H; by simplify_eq|]. destruct (_ || _).
    + destruct (scan_number dot s) as [n' r'] eqn:E. simplify_eq. simpl.
      rewrite (IH (String.length s) ltac:(simpl; lia) dot s n' r eq_refl E). done.
    + destruct (scan_number dot (String d s)) eqn:E. simplify_eq. simpl. by rewrite <- (Hs _ _ _ E).
Qed.

Lemma scan_number_nonempty c s n r :
  is_digit c || (c =? ".")%char = true → scan_number false (String c s) = (n, r) → n ≠ "".
Proof.
  simpl. destruct (is_digit c); simpl.
  - intros _. destruct (scan_number _ _). by intros [= <- _].
  - intros ->. simpl. destruct (scan_number _ _). by intros [= <- _].
Qed.

Lemma ident_start_byte c : is_ident_start c = true → is_ident_byte c = true.
Proof. byte_cases c. Qed.

(** A token read is the end of the source, or a non-empty text. *)
Lemma next_tok_shrinks lx t p lx' :
  next_tok lx = Ok (t, p, lx') →
  (t = Eof ∧ ll_rest lx' = "") ∨
  (t ≠ Eof ∧ (String.length (ll_rest lx') < String.length (ll_rest lx))%nat).
Proof.
  unfold next_tok. pose proof (let_skip_ws_length false (ll_rest lx) (ll_pos lx)) as Hl.
  destruct (let_skip_ws false (ll_rest lx) (ll_pos lx)) as [s q] eqn:Es. cbn [ll_rest ll_pos] in *.
  destruct s as [|c r]; [intros [= <- _ <-]; by left|]. cbn [String.length] in Hl.
  intros H. right.
  assert (∀ two one, two ≠ Eof → one ≠ Eof → ∀ c2 t p lx',
    one_or_two r q c2 two one = (t, p, lx') → t ≠ Eof ∧ (String.length (ll_rest lx') ≤ String.length r)%nat)
    as H12.
  { unfold one_or_two. intros ?? ???? ???. destruct r as [|d r]; [by simplify_eq|].
    simpl. case_match; simplify_eq; simpl; split; try done; lia. }
  repeat (match type of H with (if ?b then _ else _) = _ => destruct b eqn:? end;
    [first [ simplify_eq; split; [done|simpl; lia]
           | injection H as H; apply H12 in H as [? ?]; [split; [done|lia]|done|done] | idtac ] |]);
    try done.
  - destruct (one_or_two _ _ _ _ _) as [[t' p'] lx''] eqn:E.
    destruct t'; try done. simplify_eq. unfold one_or_two in E.
    destruct r as [|d r]; [done|]. case_match; simplify_eq. simpl in *. split; [done|lia].
  - unfold let_ident in H. destruct (span_while _ _) as [w r'] eqn:E. simplify_eq.
    destruct (span_while_nonempty _ _ _ _ _ E) as [c' ->]; [by apply ident_start_byte|].
    apply span_while_length in E. simpl in *. split; [|lia].
    unfold keyword_or_ident. by repeat case_match.
  - unfold let_number in H. destruct (scan_number _ _) as [n r'] eqn:E.
    pose proof (scan_number_nonempty _ _ _ _ Heqb13 E).
    apply scan_number_app in E. apply (f_equal String.length) in E.
    rewrite str_length_app in E. repeat case_match; simplify_eq. simpl in *.
    split; [done|]. destruct n; [done|]. simpl in *. lia.
Qed.

Lemma lp_bump_size s t p s' :
  lp_bump s = Ok (t, p, s') →
  t = lp_cur s ∧ (lp_size s' ≤ String.length (ll_rest (lp_lex s)))%nat.
Proof.
  unfold lp_bump. destruct (next_tok (lp_lex s)) as [[[t' p'] lx']|] eqn:E; simpl; [|done].
  intros [= <- _ <-]. split; [done|]. unfold lp_size. simpl.
  apply next_tok_shrinks in E as [[-> ->]|[Ht Hl]]; simpl; [lia|].
  rewrite bool_decide_false by done. lia.
Qed.

Lemma advance_size s s' : advance s = Ok s' → (lp_size s' ≤ lp_size s)%nat.
Proof.
  unfold advance. destruct (lp_bump s) as [[[t p] s1]|] eqn:E; simpl; [|done].
  intros [= ->]. apply lp_bump_size in E as [_ E]. unfold lp_size in *. lia.
Qed.

Lemma advance_shrinks s s' : advance s = Ok s' → lp_cur s ≠ Eof → (lp_size s' < lp_size s)%nat.
Proof.
  unfold advance. destruct (lp_bump s) as [[[t p] s1]|] eqn:E; simpl; [|done].
  intros [= ->] Hc. apply lp_bump_size in E as [_ E].
  assert (lp_size s = S (String.length (ll_rest (lp_lex s)))) as ->; [|lia].
  unfold lp_size. rewrite bool_decide_false by done. lia.
Qed.

Notation psize := (λ r, lp_size (snd r)).

Lemma advance_bounded s : lp_cur s ≠ Eof → bounded lp_size (lp_size s) (lift (advance s)).
Proof. intros Hc. destruct (advance s) eqn:E; simpl; [|done]. by apply advance_shrinks. Qed.

Lemma expect_bounded t s : t ≠ Eof → bounded lp_size (lp_size s) (lift (expect t s)).
Proof.
  intros Ht. unfold expect. case_bool_decide as Hc; [|done].
  apply advance_bounded. by rewrite Hc.
Qed.

Lemma expect_ident_bounded w s : bounded psize (lp_size s) (lift (expect_ident w s)).
Proof.
  unfold expect_ident. destruct (lp_cur s) eqn:Hc; try done.
  destruct (advance s) eqn:E; simpl; [|done]. apply advance_shrinks; [done|by rewrite Hc].
Qed.

(** The answer of a termination proof. *)
Ltac bound_done := cbn [bounded snd fst lift] in *; lia.

Lemma skip_commas_bounded fuel s :
  (lp_size s < fuel)%nat → bounded lp_size (S (lp_size s)) (skip_commas fuel s).
Proof.
  revert s. induction fuel as [|fuel IH]; intros s Hf; [lia|]. simpl.
  case_bool_decide as Hc; [|simpl; lia].
  eapply bounded_bind; [apply advance_bounded; by rewrite Hc|]. intros a Ha.
  eapply bounded_mono; [apply IH; lia|lia].
Qed.

Lemma output_loop_bounded fuel s :
  (S (lp_size s) < fuel)%nat → bounded psize (S (lp_size s)) (output_loop fuel s).
Proof.
  revert s. induction fuel as [|fuel IH]; intros s Hf; [lia|]. simpl.
  eapply bounded_bind; [apply skip_commas_bounded; lia|]. intros s1 H1.
  case_bool_decide; [simpl; lia|].
  eapply bounded_bind; [apply expect_ident_bounded|]. intros [n s2] H2. simpl in H2.
  eapply bounded_bind; [apply IH; lia|]. intros [ns s3] H3. bound_done.
Qed.

Lemma output_list_bounded fuel s :
  (S (lp_size s) < fuel)%nat → bounded psize (lp_size s) (output_list fuel s).
Proof.
  intros Hf. unfold output_list.
  eapply bounded_bind; [by apply expect_bounded|]. intros s1 H1.
  eapply bounded_bind; [apply output_loop_bounded; lia|]. intros [ns s2] H2. simpl in H2.
  eapply bounded_bind; [by apply expect_bounded|]. intros s3 H3. bound_done.
Qed.

Lemma slot_names_bounded fuel s :
  (lp_size s < fuel)%nat → bounded psize (S (lp_size s)) (slot_names fuel s).
Proof.
  revert s. induction fuel as [|fuel IH]; intros s Hf; [lia|]. simpl.
  destruct (lp_cur s) eqn:Hc; try (simpl; lia).
  eapply bounded_bind; [apply advance_bounded; by rewrite Hc|]. intros s1 H1.
  eapply bounded_bind; [apply IH; lia|]. intros [ns s2] H2. bound_done.
Qed.

Lemma destructure_clause_bounded fuel s :
  (lp_size s < fuel)%nat → bounded psize (S (lp_size s)) (destructure_clause fuel s).
Proof.
  intros Hf. unfold destructure_clause. case_bool_decide as Hc; [|simpl; lia].
  eapply bounded_bind; [apply advance_bounded; by rewrite Hc|]. intros s1 H1.
  eapply bounded_bind; [apply expect_ident_bounded|]. intros [c s2] H2. simpl in H2.
  case_bool_decide as Hc2; [|bound_done].
  eapply bounded_bind; [apply advance_bounded; by rewrite Hc2|]. intros s3 H3.
  eapply bounded_bind; [apply slot_names_bounded; lia|]. intros [[|n ns] s4] H4; [done|bound_done].
Qed.

Lemma input_loop_bounded fuel s :
  (S (lp_size s) < fuel)%nat → bounded psize (S (lp_size s)) (input_loop fuel s).
Proof.
  revert s. induction fuel as [|fuel IH]; intros s Hf; [lia|]. simpl.
  eapply bounded_bind; [apply skip_commas_bounded; lia|]. intros s1 H1.
  case_bool_decide; [simpl; lia|].
  eapply bounded_bind; [apply expect_ident_bounded|]. intros [n s2] H2. simpl in H2.
  eapply bounded_bind; [apply destructure_clause_bounded; lia|]. intros [d s3] H3. simpl in H3.
  eapply bounded_bind; [apply IH; lia|]. intros [ns s4] H4. bound_done.
Qed.

Lemma input_list_bounded fuel s :
  (S (lp_size s) < fuel)%nat → bounded psize (lp_size s) (input_list fuel s).
Proof.
  intros Hf. unfold input_list.
  eapply bounded_bind; [by apply expect_bounded|]. intros s1 H1.
  eapply bounded_bind; [apply input_loop_bounded; lia|]. intros [ns s2] H2. simpl in H2.
  eapply bounded_bind; [by apply expect_bounded|]. intros s3 H3. bound_done.
Qed.

(** A sub-parser that terminates, and consumes a token, on the states of size
    up to [K]. *)
Definition sub_ok {A} (sub : LP → outcome LetError (A * LP)) (K : nat) : Prop :=
  ∀ s, (lp_size s ≤ K)%nat → bounded psize (lp_size s) (sub s).

Lemma sub_ok_mono {A} (sub : LP → outcome LetError (A * LP)) K K' :
  sub_ok sub K → (K' ≤ K)%nat → sub_ok sub K'.
Proof. intros H ? s ?. apply H. lia. Qed.

Lemma bin_loop_bounded ops sub K fuel lhs s :
  ops Eof = None → sub_ok sub K → (lp_size s ≤ K)%nat → (lp_size s < fuel)%nat →
  bounded psize (S (lp_size s)) (bin_loop ops sub fuel lhs s).
Proof.
  intros Hops Hsub. revert lhs s. induction fuel as [|fuel IH]; intros lhs s HK Hf; [lia|]. simpl.
  destruct (ops (lp_cur s)) eqn:Ho; [|simpl; lia].
  eapply bounded_bind; [apply advance_bounded; congruence|]. intros s1 H1.
  eapply bounded_bind; [apply Hsub; lia|]. intros [rhs s2] H2. simpl in H2.
  eapply bounded_mono; [apply IH; lia|lia].
Qed.

Lemma bin_level_ok ops sub K fuel :
  ops Eof = None → sub_ok sub K → (K < fuel)%nat →
  sub_ok (λ s, '(lhs, s1) ← sub s; bin_loop ops sub fuel lhs s1) K.
Proof.
  intros Ho Hsub Hf s HK. eapply bounded_bind; [by apply Hsub|]. intros [e s1] H1. simpl in H1.
  eapply bounded_mono; [eapply bin_loop_bounded; [done|exact Hsub|lia..]|lia].
Qed.

Lemma parse_unary_ok primary K n :
  sub_ok primary K → (K < n)%nat → sub_ok (parse_unary primary n) K.
Proof.
  intros Hp Hn s HK. assert (lp_size s < n)%nat as Hs by lia. clear Hn.
  revert s HK Hs. induction n as [|n IH]; intros s HK Hs; [lia|]. simpl.
  case_bool_decide as Hc; [|by apply Hp].
  eapply bounded_bind; [apply advance_bounded; by rewrite Hc|]. intros s1 H1.
  eapply bounded_bind; [apply IH; lia|]. intros [e s2] H2. bound_done.
Qed.

Lemma parse_pow_ok primary K fuel n :
  sub_ok primary K → (K < fuel)%nat → (K < n)%nat → sub_ok (parse_pow primary fuel n) K.
Proof.
  intros Hp Hf Hn s HK. assert (lp_size s < n)%nat as Hs by lia. clear Hn.
  revert s HK Hs. induction n as [|n IH]; intros s HK Hs; [lia|]. simpl.
  eapply bounded_bind; [by eapply (parse_unary_ok primary K fuel)|]. intros [e s1] H1. simpl in H1.
  case_bool_decide as Hc; [|bound_done].
  eapply bounded_bind; [apply advance_bounded; by rewrite Hc|]. intros s2 H2.
  eapply bounded_bind; [apply IH; lia|]. intros [e2 s3] H3. bound_done.
Qed.

Lemma parse_compare_ok primary K fuel :
  sub_ok primary K → (K < fuel)%nat → sub_ok (parse_compare primary fuel) K.
Proof.
  intros Hp Hf. do 3 (apply bin_level_ok; [done| |done]). by apply parse_pow_ok.
Qed.

Lemma expr_list_bounded expr K fuel s :
  sub_ok expr K → (lp_size s ≤ K)%nat → (lp_size s < fuel)%nat →
  bounded psize (lp_size s) (expr_list expr fuel s).
Proof.
  intros Hsub. revert s. induction fuel as [|fuel IH]; intros s HK Hf; [lia|]. simpl.
  eapply bounded_bind; [by apply Hsub|]. intros [e s1] H1. simpl in H1.
  case_bool_decide as Hc; [|bound_done].
  eapply bounded_bind; [apply advance_bounded; by rewrite Hc|]. intros s2 H2.
  eapply bounded_bind; [apply IH; lia|]. intros [es s3] H3. bound_done.
Qed.

Lemma primary_with_bounded expr fuel K s :
  sub_ok expr K → (lp_size s ≤ S K)%nat → (S K < fuel)%nat →
  bounded psize (lp_size s) (primary_with expr fuel s).
Proof.
  intros Hsub HK Hf. unfold primary_with.
  destruct (lp_bump s) as [[[t p] s1]|] eqn:E; simpl; [|done].
  apply lp_bump_size in E as [Ht Hs1].
  assert (t ≠ Eof → (lp_size s1 < lp_size s)%nat) as Hlt.
  { intros Hne. unfold lp_size at 2. rewrite bool_decide_false by congruence. lia. }
  destruct t; try done; specialize (Hlt ltac:(done)).
  - eapply bounded_bind; [apply Hsub; lia|]. intros [e s2] H2. simpl in H2.
    eapply bounded_bind; [by apply expect_bounded|]. intros s3 H3. bound_done.
  - case_bool_decide as Hc; [|bound_done].
    eapply bounded_bind; [apply advance_bounded; by rewrite Hc|]. intros s2 H2.
    eapply (bounded_bind psize psize (S (lp_size s2))).
    + case_bool_decide; [simpl; lia|].
      eapply bounded_mono; [eapply expr_list_bounded; [exact Hsub|lia..]|lia].
    + intros [args s3] H3. simpl in H3.
      eapply bounded_bind; [by apply expect_bounded|]. intros s4 H4. bound_done.
  - bound_done.
Qed.

Lemma parse_primary_ok fuel depth K :
  (K < depth)%nat → (K < fuel)%nat → sub_ok (parse_primary fuel depth) K.
Proof.
  revert K. induction depth as [|d IH]; intros K Hd Hf s HK; [lia|]. cbn [parse_primary].
  destruct (lp_size s) as [|k] eqn:Es.
  - unfold primary_with. destruct (lp_bump s) as [[[t p] s1]|] eqn:E; simpl; [|done].
    apply lp_bump_size in E as [-> _]. unfold lp_size in Es.
    case_bool_decide as Hc; [by rewrite Hc|lia].
  - rewrite <- Es. apply primary_with_bounded with k; [|lia|lia].
    apply parse_compare_ok; [apply IH; lia|lia].
Qed.

Lemma parse_expr_ok fuel K : (K < fuel)%nat → sub_ok (parse_expr fuel) K.
Proof. intros. apply parse_compare_ok; [by apply parse_primary_ok|done]. Qed.

Lemma where_clauses_bounded expr K fuel s :
  sub_ok expr K → (lp_size s ≤ K)%nat → (lp_size s < fuel)%nat →
  bounded psize (S (lp_size s)) (where_clauses expr fuel s).
Proof.
  intros Hsub. revert s. induction fuel as [|fuel IH]; intros s HK Hf; [lia|]. simpl.
  case_bool_decide as Hc; [|simpl; lia].
  eapply bounded_bind; [apply advance_bounded; by rewrite Hc|]. intros s1 H1.
  eapply bounded_bind; [apply expect_ident_bounded|]. intros [n s2] H2. simpl in H2.
  eapply bounded_bind; [by apply expect_bounded|]. intros s3 H3.
  eapply bounded_bind; [apply Hsub; lia|]. intros [e s4] H4. simpl in H4.
  eapply bounded_bind; [apply IH; lia|]. intros [ws s5] H5. bound_done.
Qed.

Lemma parse_form_bounded fuel s :
  (S (lp_size s) < fuel)%nat → bounded psize (lp_size s) (parse_form fuel s).
Proof.
  intros Hf. unfold parse_form.
  eapply bounded_bind; [by apply expect_bounded|]. intros s1 H1.
  eapply bounded_bind; [apply input_list_bounded; lia|]. intros [ins s2] H2. simpl in H2.
  eapply bounded_bind; [by apply expect_bounded|]. intros s3 H3.
  eapply bounded_bind; [apply output_list_bounded; lia|]. intros [outs s4] H4. simpl in H4.
  eapply bounded_bind; [by apply expect_bounded|]. intros s5 H5.
  eapply bounded_bind; [apply expr_list_bounded with (lp_size s5); [apply parse_expr_ok|..]; lia|].
  intros [es s6] H6. simpl in H6.
  eapply bounded_bind; [apply where_clauses_bounded with (lp_size s6); [apply parse_expr_ok|..]; lia|].
  intros [ws s7] H7. simpl in H7.
  eapply bounded_bind; [by apply expect_bounded|]. intros s8 H8.
  case_match; bound_done.
Qed.

Lemma lp_new_size src s : lp_new src = Ok s → (lp_size s ≤ String.length src)%nat.
Proof.
  unfold lp_new. destruct (next_tok _) as [[[t p] lx]|] eqn:E; simpl; [|done]. intros [= <-].
  unfold lp_size. simpl. apply next_tok_shrinks in E as [[-> ->]|[Ht Hl]]; simpl in *; [lia|].
  rewrite bool_decide_false by done. lia.
Qed.

Lemma let_parse_total src : let_parse src ≠ OutOfFuel.
Proof.
  unfold let_parse. destruct (lp_new src) as [s|] eqn:E; simpl; [|done]. apply lp_new_size in E.
  pose proof (parse_form_bounded (let_fuel src) s ltac:(unfold let_fuel; lia)) as H.
  destruct (parse_form _ _) as [[form s1]| |]; simpl in *; [|done..]. by case_bool_decide.
Qed.
