(* ===== verification/LetRound.v ===== *)
(** * Printed LET forms read back

    A printer of LET forms that writes the parentheses precedence and
    associativity require and no others, and the theorem that [let_parse]
    inverts it. *)
From S2P Require Import Prelude Bytes F64 LetLang LetFacts.

(** ** Printing *)

Definition op_tok (op : BinOp) : LTok :=
  match op with
  | OpAdd => Plus | OpSub => Minus | OpMul => Star | OpDiv => Slash | OpPow => StarStar
  | OpEq => EqEq | OpNe => NotEq | OpLt => Less | OpGt => Greater | OpLe => LessEq
  | OpGe => GreaterEq
  end.

(** The grammar's levels: comparisons 0, sums 1, products 2, powers 3,
    negation 4, primaries 5. *)
Definition op_level (op : BinOp) : nat :=
  match op with
  | OpEq | OpNe | OpLt | OpGt | OpLe | OpGe => 0
  | OpAdd | OpSub => 1
  | OpMul | OpDiv => 2
  | OpPow => 3
  end.
Definition level (e : LExpr) : nat :=
  match e with LBin op _ _ => op_level op | LNeg _ => 4 | _ => 5 end.

(** The levels the operands are printed at: the left-associative operators
    take an operand of their own level on the left, [**] on the right. *)
Definition left_level (op : BinOp) : nat := match op with OpPow => 4 | _ => op_level op end.
Definition right_level (op : BinOp) : nat := match op with OpPow => 3 | _ => S (op_level op) end.

Fixpoint comma_sep (l : list (list LTok)) : list LTok :=
  match l with
  | [] => []
  | [x] => x
  | x :: l' => x ++ Comma :: comma_sep l'
  end.

Definition paren (b : bool) (l : list LTok) : list LTok :=
  if b then LParen :: l ++ [RParen] else l.

Fixpoint toks (lvl : nat) (e : LExpr) : list LTok :=
  paren (level e <? lvl)%nat
  match e with
  | LLit x => [Num x]
  | LVar n => [Ident n]
  | LBin op a b => toks (left_level op) a ++ op_tok op :: toks (right_level op) b
  | LNeg a => Minus :: toks 4 a
  | LCall n args => Ident n :: LParen :: comma_sep (toks 0 <$> args) ++ [RParen]
  end.

Definition clause_toks (d : option DestructureClause) : list LTok :=
  match d with
  | None => []
  | Some d => Colon :: Ident (dc_class d) ::
      match dc_slots d with [] => [] | sl => AsKw :: (Ident <$> sl) end
  end.

Definition input_toks (i : LetInput) : list LTok :=
  Ident (li_name i) :: clause_toks (li_destructure i).

Definition where_toks (w : string * LExpr) : list LTok :=
  WhereKw :: Ident (fst w) :: Equals :: toks 0 (snd w).

Definition form_toks (f : LetForm) : list LTok :=
  LetKw :: LParen :: comma_sep (input_toks <$> lf_inputs f) ++ RParen :: Arrow ::
  LParen :: comma_sep ((λ n, [Ident n]) <$> lf_outputs f) ++ RParen :: Equals ::
  comma_sep (toks 0 <$> lf_results f) ++ concat (where_toks <$> lf_wheres f) ++ [EndKw].

Definition ltok_text (t : LTok) : string :=
  match t with
  | LParen => "(" | RParen => ")" | Comma => "," | Equals => "=" | Arrow => "->"
  | Plus => "+" | Minus => "-" | Star => "*" | Slash => "/" | StarStar => "**"
  | EqEq => "==" | NotEq => "!=" | Less => "<" | Greater => ">" | LessEq => "<="
  | GreaterEq => ">=" | Colon => ":" | LetKw => "LET" | EndKw => "END" | WhereKw => "WHERE"
  | AsKw => "as" | Ident s => s | Num x => f64_display x | Eof => ""
  end.
Definition print_form (f : LetForm) : string := concat_sep " " (ltok_text <$> form_toks f).

(** ** Well-formed trees: identifiers are identifiers, literals print as one
    number token that reads back. *)

Definition ident_ok (s : string) : bool :=
  match s with
  | EmptyString => false
  | String c r =>
      is_ident_start c && str_all is_ident_byte r &&
      negb (eq_nocase s "let" || eq_nocase s "end" || eq_nocase s "where" || eq_nocase s "as")
  end.

Definition lit_ok (x : f64) : bool :=
  let s := f64_display x in
  match s with
  | EmptyString => false
  | String c _ =>
      (is_digit c || (c =? ".")%char) && bool_decide (scan_number false s = (s, "")) &&
      negb (bool_decide (s = ".")) && bool_decide (f64_parse s = Some x)
  end.

Definition tok_ok (t : LTok) : bool :=
  match t with Ident s => ident_ok s | Num x => lit_ok x | Eof => false | _ => true end.

Definition input_ok (i : LetInput) : bool :=
  ident_ok (li_name i) &&
  match li_destructure i with
  | None => true
  | Some d => ident_ok (dc_class d) && forallb ident_ok (dc_slots d)
  end.

Fixpoint expr_ok (e : LExpr) : bool :=
  match e with
  | LLit x => lit_ok x
  | LVar n => ident_ok n
  | LBin _ a b => expr_ok a && expr_ok b
  | LNeg a => expr_ok a
  | LCall n args => ident_ok n && forallb expr_ok args
  end.

Definition form_ok (f : LetForm) : bool :=
  forallb input_ok (lf_inputs f) && forallb ident_ok (lf_outputs f) &&
  forallb expr_ok (lf_results f) &&
  forallb (λ w, ident_ok (fst w) && expr_ok (snd w)) (lf_wheres f) &&
  (length (lf_outputs f) =? length (lf_results f))%nat && negb (length (lf_results f) =? 0)%nat.

(** ** The tokeniser reads back what was printed *)

Definition sep_ok (rest : string) : Prop := rest = "" ∨ ∃ r, rest = " " +:+ r.

Lemma scan_number_ext dot n rest :
  scan_number dot n = (n, "") → sep_ok rest → scan_number dot (n +:+ rest) = (n, rest).
Proof.
  intros Hn Hsep. remember (String.length n) as k eqn:Hk. revert dot n Hk Hn.
  induction (lt_wf k) as [k _ IH]; intros dot n -> Hn.
  destruct n as [|c n].
  { destruct Hsep as [->|[r ->]]; done. }
  assert (∀ d, scan_number d n = (n, "") → scan_number d (n +:+ rest) = (n, rest)) as Hs
    by (intros; eapply IH; [|done..]; simpl; lia).
  assert (∀ d a b, scan_number d n = (a, b) → String c a = String c n → b = "" →
            (let '(n0, r') := scan_number d (n +:+ rest) in (String c n0, r')) = (String c n, rest))
    as Hk by (intros d a b E [= ->] ->; by rewrite (Hs _ E)).
  cbn [scan_number String.append] in *.
  destruct (is_digit c); [destruct (scan_number dot n) eqn:E; simplify_eq; by eapply Hk|].
  destruct (_ && _); [destruct (scan_number true n) eqn:E; simplify_eq; by eapply Hk|].
  destruct (_ || _); [|by simplify_eq].
  destruct n as [|d n].
  - destruct Hsep as [->|[r ->]]; done.
  - cbn [String.append]. destruct (_ || _).
    + destruct (scan_number dot n) eqn:E. simplify_eq.
      rewrite (IH (String.length n)) by (simpl; try lia; done). done.
    + destruct (scan_number dot (String d n)) eqn:E. simplify_eq. by eapply Hk.
Qed.

Lemma next_tok_sep lx r : ll_rest lx = " " +:+ r →
  ∃ p, next_tok lx = next_tok (mkLLexer r p).
Proof. intros H. exists (ll_pos lx + 1). unfold next_tok. by rewrite H. Qed.

Lemma let_skip_none c r p :
  is_ws c = false → (c =? "\")%char = false → let_skip_ws false (String c r) p = mkLLexer (String c r) p.
Proof. intros Hw Hb. cbn [let_skip_ws]. by rewrite Hw, Hb. Qed.

(** The bytes an identifier or a number starts with match no punctuation. *)
Definition not_punct (c : ascii) : bool :=
  negb (is_ws c || (c =? "\")%char || (c =? "(")%char || (c =? ")")%char || (c =? ",")%char ||
        (c =? "=")%char || (c =? "!")%char || (c =? "<")%char || (c =? ">")%char ||
        (c =? "+")%char || (c =? "-")%char || (c =? "*")%char || (c =? "/")%char ||
        (c =? ":")%char || (c =? "^")%char).

Lemma next_tok_word c s p :
  not_punct c = true →
  next_tok (mkLLexer (String c s) p) =
    if is_ident_start c then Ok (let_ident (String c s) p)
    else if is_digit c || (c =? ".")%char then let_number (String c s) p
    else Err (mkLetError ("unexpected character '" +:+ char_of_u8 c +:+ "'") p).
Proof.
  unfold not_punct. rewrite negb_true_iff, !orb_false_iff. intros H. destruct_and! H.
  unfold next_tok. cbn [ll_rest ll_pos]. rewrite let_skip_none by done. cbn [ll_rest ll_pos].
  by repeat match goal with H : (c =? _)%char = false |- _ => rewrite H; clear H end.
Qed.

Lemma ident_start_not_punct c : is_ident_start c = true → not_punct c = true.
Proof. byte_cases c. Qed.
Lemma number_start_not_punct c :
  is_digit c || (c =? ".")%char = true → not_punct c = true ∧ is_ident_start c = false.
Proof. byte_cases c. Qed.

Lemma span_ident s rest :
  str_all is_ident_byte s = true → sep_ok rest → span_while is_ident_byte (s +:+ rest) = (s, rest).
Proof.
  intros Hs [->|[r ->]]; [|by apply span_while_all].
  rewrite str_app_nil_r. by apply span_while_all_nil.
Qed.

Lemma next_tok_text t rest p :
  tok_ok t = true → sep_ok rest →
  ∃ q lx', next_tok (mkLLexer (ltok_text t +:+ rest) p) = Ok (t, q, lx') ∧ ll_rest lx' = rest.
Proof.
  intros Ht Hsep. destruct t; simpl in Ht; try done;
    try (by destruct Hsep as [->|[r ->]]; eexists _, _; split).
  - destruct name as [|c r]; [done|]. unfold ident_ok in Ht.
    rewrite !andb_true_iff, negb_true_iff, !orb_false_iff in Ht.
    destruct Ht as [[Hc Hr] [[[H1 H2] H3] H4]].
    cbn [ltok_text String.append]. rewrite next_tok_word by by apply ident_start_not_punct.
    rewrite Hc. unfold let_ident.
    change (String c (r +:+ rest)) with (String c r +:+ rest).
    rewrite span_ident; [|by simpl; rewrite ident_start_byte, Hr|done].
    unfold keyword_or_ident. rewrite H1, H2, H3, H4. eauto.
  - unfold lit_ok in Ht. cbn [ltok_text].
    destruct (f64_display x) as [|c r] eqn:E; [done|]. rewrite !andb_true_iff in Ht.
    destruct Ht as [[[Hc Hscan%bool_decide_eq_true] Hdot%negb_true_iff] Hp%bool_decide_eq_true].
    destruct (number_start_not_punct _ Hc) as [Hnp Hid].
    cbn [String.append]. rewrite next_tok_word by done. rewrite Hid, Hc. unfold let_number.
    change (String c (r +:+ rest)) with (String c r +:+ rest).
    rewrite scan_number_ext, Hdot, Hp by done. eauto.
Qed.

(** ** Token streams *)

(** The parser state [s] will see the tokens [l], then the end. *)
Fixpoint feeds (s : LP) (l : list LTok) : Prop :=
  match l with
  | [] => lp_cur s = Eof
  | t :: r => lp_cur s = t ∧ ∃ s', lp_bump s = Ok (t, lp_pos s, s') ∧ feeds s' r
  end.

Definition rest_text (l : list LTok) : string :=
  match l with [] => "" | _ => " " +:+ concat_sep " " (ltok_text <$> l) end.

Lemma rest_text_sep l : sep_ok (rest_text l).
Proof. destruct l; [by left|right; by eexists]. Qed.

Lemma text_cons t l : concat_sep " " (ltok_text <$> t :: l) = ltok_text t +:+ rest_text l.
Proof. destruct l; simpl; [by rewrite str_app_nil_r|done]. Qed.

Lemma feeds_state l s :
  forallb tok_ok l = true → ll_rest (lp_lex s) = rest_text l → feeds s (lp_cur s :: l).
Proof.
  revert s. induction l as [|t l IH]; intros s Hok Hr.
  - split; [done|]. unfold lp_bump, next_tok. rewrite Hr. cbn. by eexists.
  - simpl in Hok. apply andb_true_iff in Hok as [Ht Hok].
    split; [done|]. unfold rest_text in Hr. rewrite text_cons in Hr.
    destruct (next_tok_sep _ _ Hr) as [p Hp].
    destruct (next_tok_text t (rest_text l) p Ht (rest_text_sep l)) as (q & lx & E & Hl).
    unfold lp_bump. rewrite Hp, E. simpl. eexists. split; [done|].
    by apply (IH (mkLP lx t q)).
Qed.

Lemma feeds_text t l :
  forallb tok_ok (t :: l) = true →
  ∃ s, lp_new (concat_sep " " (ltok_text <$> t :: l)) = Ok s ∧ feeds s (t :: l).
Proof.
  cbn [forallb]. intros [Ht Hok]%andb_true_iff. rewrite text_cons.
  destruct (next_tok_text t (rest_text l) 0 Ht (rest_text_sep l)) as (q & lx & E & Hl).
  unfold lp_new. rewrite E. simpl. eexists. split; [done|]. by apply (feeds_state l (mkLP lx t q)).
Qed.

(** [reads_as a rest r]: the parser answers [a] and is left with [rest]. *)
Definition reads_as {A} (a : A) (rest : list LTok) (r : outcome LetError (A * LP)) : Prop :=
  tolerates (λ '(a', s'), a' = a ∧ feeds s' rest) r.

Lemma reads_done {A} (a : A) s rest : feeds s rest → reads_as a rest (Done (a, s)).
Proof. done. Qed.

Lemma reads_bind {A B} (a : A) rest (Q : B → Prop) m (f : A * LP → outcome LetError B) :
  reads_as a rest m → (∀ s, feeds s rest → tolerates Q (f (a, s))) → tolerates Q (m ≫= f).
Proof.
  intros Hm Hf. eapply tolerates_bind; [exact Hm|]. intros [a' s'] [-> Hs]. by apply Hf.
Qed.

Lemma feeds_cur s t l : feeds s (t :: l) → lp_cur s = t.
Proof. by intros []. Qed.

Lemma feeds_advance s t l : feeds s (t :: l) → ∃ s', advance s = Ok s' ∧ feeds s' l.
Proof. intros (_ & s' & E & H). exists s'. unfold advance. by rewrite E. Qed.

Lemma feeds_expect s t l : feeds s (t :: l) → ∃ s', expect t s = Ok s' ∧ feeds s' l.
Proof.
  intros H. unfold expect. rewrite (feeds_cur _ _ _ H), bool_decide_true by done.
  by eapply feeds_advance.
Qed.

Lemma feeds_ident w s n l : feeds s (Ident n :: l) → ∃ s', expect_ident w s = Ok (n, s') ∧ feeds s' l.
Proof.
  intros H. unfold expect_ident. rewrite (feeds_cur _ _ _ H).
  destruct (feeds_advance _ _ _ H) as (s' & E & H'). rewrite E. by eexists.
Qed.

(** The first token of a stream. *)
Definition hd_tok (l : list LTok) : LTok := match l with [] => Eof | t :: _ => t end.
Lemma feeds_hd s l : feeds s l → lp_cur s = hd_tok l.
Proof. destruct l; [done|by intros []]. Qed.

(** Nothing that continues an expression of level [lvl]. *)
Definition stops (lvl : nat) (t : LTok) : bool :=
  negb (bool_decide (t = LParen)) &&
  ((3 <? lvl)%nat || negb (bool_decide (t = StarStar))) &&
  ((2 <? lvl)%nat || bool_decide (mul_op t = None)) &&
  ((1 <? lvl)%nat || bool_decide (add_op t = None)) &&
  ((0 <? lvl)%nat || bool_decide (compare_op t = None)).

Lemma stops_mono lvl lvl' t : stops lvl t = true → (lvl ≤ lvl')%nat → stops lvl' t = true.
Proof.
  unfold stops. rewrite !andb_true_iff, !orb_true_iff, !Nat.ltb_lt. intuition lia.
Qed.

(** ** Expressions *)

Fixpoint esize (e : LExpr) : nat :=
  match e with
  | LLit _ | LVar _ => 1
  | LBin _ a b => S (esize a + esize b)
  | LNeg a => S (esize a)
  | LCall _ args => S (list_sum (esize <$> args))
  end.

(** The first token of an expression. *)
Definition starts_expr (lvl : nat) (t : LTok) : bool :=
  match t with LParen | Num _ | Ident _ => true | Minus => (lvl <? 5)%nat | _ => false end.

Lemma toks_hd lvl e : (lvl ≤ 5)%nat → ∃ t l, toks lvl e = t :: l ∧ starts_expr lvl t = true.
Proof.
  revert lvl. induction e as [| |op a IHa b _|a _|]; intros lvl Hl; cbn [toks level];
    (destruct (_ <? lvl)%nat eqn:E; cbn [paren]; [by eexists _, _|]); try by eexists _, _.
  - destruct (IHa (left_level op)) as (t & l & -> & Ht); [by destruct op; cbn; lia|].
    exists t, (l ++ op_tok op :: toks (right_level op) b). split; [done|].
    apply Nat.ltb_ge in E. destruct t; try done.
    assert (lvl < 5)%nat by (destruct op; cbn in *; lia). simpl. by apply Nat.ltb_lt.
  - eexists _, _. split; [done|]. simpl. apply Nat.ltb_ge in E. apply Nat.ltb_lt. lia.
Qed.

Lemma toks_eq lvl lvl' e :
  ((level e <? lvl) = (level e <? lvl'))%nat → toks lvl e = toks lvl' e.
Proof. intros H. destruct e; cbn [toks level] in *; by rewrite H. Qed.

Lemma toks_paren lvl e : (level e < lvl)%nat → toks lvl e = LParen :: toks 0 e ++ [RParen].
Proof.
  intros H. destruct e; cbn [toks level] in *;
    by rewrite (proj2 (Nat.ltb_lt _ _) H).
Qed.

Lemma level_le e : (level e ≤ 5)%nat.
Proof. destruct e as [| |[]| |]; cbn; lia. Qed.

Lemma elem_list_sum n (l : list nat) : n ∈ l → (n ≤ list_sum l)%nat.
Proof. induction 1; simpl; lia. Qed.

Section Expr.
Context (fuel : nat).

(** The parsing function of each level, over a given [parse_primary]; [n]
    is the fuel of the two levels that recurse. *)
Definition at_level (prim : LP → expr_result) (n lvl : nat) : LP → expr_result :=
  match lvl with
  | 0 => parse_compare prim fuel
  | 1 => parse_add prim fuel
  | 2 => parse_mul prim fuel
  | 3 => parse_pow prim fuel n
  | 4 => parse_unary prim n
  | _ => prim
  end%nat.

Definition reads_toks (prim : LP → expr_result) (lvl : nat) (l : list LTok) (e : LExpr) : Prop :=
  ∀ n s rest, feeds s (l ++ rest) → stops lvl (hd_tok rest) = true →
              reads_as e rest (at_level prim n lvl s).

Definition loop_ops (lvl : nat) : LTok → option BinOp :=
  match lvl with 0 => compare_op | 1 => add_op | _ => mul_op end%nat.

(** A left-associative level is the next one and a loop. *)
Lemma at_level_loop prim n lvl s :
  (lvl ≤ 2)%nat →
  at_level prim n lvl s =
    ('(lhs, s1) ← at_level prim fuel (S lvl) s;
     bin_loop (loop_ops lvl) (at_level prim fuel (S lvl)) fuel lhs s1).
Proof. destruct lvl as [|[|[|]]]; [done..|lia]. Qed.

Lemma stops_loop lvl t : (lvl ≤ 2)%nat → stops lvl t = true → loop_ops lvl t = None.
Proof.
  intros Hl. unfold stops. rewrite !andb_true_iff, !orb_true_iff, !Nat.ltb_lt, !bool_decide_eq_true.
  destruct lvl as [|[|[|]]]; simpl; intuition lia.
Qed.

Lemma bin_loop_stop lvl sub f e s rest :
  (lvl ≤ 2)%nat → feeds s rest → stops lvl (hd_tok rest) = true →
  reads_as e rest (bin_loop (loop_ops lvl) sub f e s).
Proof.
  intros Hl Hs Hst. destruct f as [|f]; [done|]. cbn [bin_loop].
  rewrite (feeds_hd _ _ Hs), stops_loop by done. by apply reads_done.
Qed.

(** An expression read at a tighter level is read at the looser ones. *)
Lemma reads_descend prim lvl l e :
  (lvl < 5)%nat → (∃ t r, l = t :: r ∧ (lvl = 4%nat → t ≠ Minus)) →
  reads_toks prim (S lvl) l e → reads_toks prim lvl l e.
Proof.
  intros Hl (t & r & -> & Ht) H n s rest Hs Hst.
  assert (stops (S lvl) (hd_tok rest) = true) as Hst' by (eapply stops_mono; eauto).
  destruct (decide (lvl ≤ 2)%nat) as [Hle|Hgt].
  { rewrite at_level_loop by done. eapply reads_bind; [by apply H|].
    intros s' Hs'. by apply bin_loop_stop. }
  assert (lvl = 3 ∨ lvl = 4)%nat as [->| ->] by lia; destruct n as [|n]; try done;
    cbn [at_level parse_pow parse_unary].
  - eapply reads_bind; [by apply (H fuel s rest)|]. intros s' Hs'.
    rewrite bool_decide_false; [by apply reads_done|]. rewrite (feeds_hd _ _ Hs').
    intros E. rewrite E in Hst. by vm_compute in Hst.
  - rewrite bool_decide_false; [by apply (H n)|].
    rewrite (feeds_cur _ _ _ Hs). by apply Ht.
Qed.

Lemma reads_descend_to prim k lvl l e :
  (lvl ≤ k ≤ 5)%nat → (∃ t r, l = t :: r ∧ (k = 5%nat → t ≠ Minus)) →
  reads_toks prim k l e → reads_toks prim lvl l e.
Proof.
  intros [Hlk Hk] (t & r & -> & Ht). induction Hlk as [|k Hlk IH]; [done|].
  intros H. apply IH; [lia|intros ->; lia|].
  apply reads_descend; [lia| |done]. eexists _, _. split; [done|].
  intros ->. by apply Ht.
Qed.

Lemma op_facts op :
  op_level op = 3%nat ∧ op = OpPow ∨
  (op_level op ≤ 2)%nat ∧ left_level op = op_level op ∧ right_level op = S (op_level op) ∧
  loop_ops (op_level op) (op_tok op) = Some op ∧ stops (S (op_level op)) (op_tok op) = true.
Proof.
  destruct op; first [left; split; reflexivity | right; split; [cbn; lia|done]].
Qed.

(** [e] reads back at every level, whatever the nesting bound. *)
Definition reads_all (e : LExpr) : Prop :=
  ∀ depth lvl, (lvl ≤ 5)%nat → reads_toks (parse_primary fuel depth) lvl (toks lvl e) e.

(** An operand of a left-associative level that is not itself an operation
    of that level. *)
Lemma operand_reads prim e lvl (Q : LExpr * LP → Prop) rest s f :
  reads_toks prim (S lvl) (toks (S lvl) e) e → level e ≠ lvl →
  feeds s (toks lvl e ++ rest) → stops (S lvl) (hd_tok rest) = true →
  (∀ s', feeds s' rest → tolerates Q (f (e, s'))) →
  tolerates Q (at_level prim fuel (S lvl) s ≫= f).
Proof.
  intros He Hne Hs Hst HK. eapply reads_bind; [apply He; [|exact Hst]|exact HK].
  erewrite toks_eq; [exact Hs|].
  destruct (Nat.ltb_spec (level e) (S lvl)), (Nat.ltb_spec (level e) lvl); lia || done.
Qed.

Lemma loop_reads prim k e :
  (∀ e' lvl, (esize e' < k)%nat → (lvl ≤ 5)%nat → reads_toks prim lvl (toks lvl e') e') →
  ∀ lvl (Q : LExpr * LP → Prop) rest s,
    (esize e < k ∨ esize e ≤ k ∧ level e = lvl)%nat → (lvl ≤ 2)%nat →
    feeds s (toks lvl e ++ rest) → stops (S lvl) (hd_tok rest) = true →
    (∀ f s', feeds s' rest →
       tolerates Q (bin_loop (loop_ops lvl) (at_level prim fuel (S lvl)) f e s')) →
    tolerates Q ('(lhs, s1) ← at_level prim fuel (S lvl) s;
                 bin_loop (loop_ops lvl) (at_level prim fuel (S lvl)) fuel lhs s1).
Proof.
  intros Hsmall. induction e as [x|x|op a IHa b _|a _|x args];
    intros lvl Q rest s Hsz Hl Hs Hst HK; cbn [level] in Hsz;
    try (eapply operand_reads; [| |exact Hs|done|intros; by apply HK]; [apply Hsmall|cbn]; lia).
  destruct (decide (op_level op = lvl)) as [<-|Hne];
    [|eapply operand_reads; [| |exact Hs|done|intros; by apply HK]; [apply Hsmall; lia|done]].
  destruct (op_facts op) as [[H3 _]|(_ & Hleft & Hright & Hop & Hstop)]; [lia|].
  cbn [toks level] in Hs. rewrite Nat.ltb_irrefl in Hs. cbn [paren] in Hs.
  rewrite Hleft, Hright, <- app_assoc in Hs. cbn [app] in Hs. cbn [esize] in Hsz.
  eapply IHa; [lia|done|exact Hs|done|]. intros f s1 Hs1.
  destruct f as [|f]; [done|]. cbn [bin_loop]. rewrite (feeds_cur _ _ _ Hs1), Hop.
  destruct (feeds_advance _ _ _ Hs1) as (s2 & E & Hs2). rewrite E.
  eapply (reads_bind b rest); [|intros s3 Hs3; by apply HK].
  apply (Hsmall b (S (op_level op)) ltac:(lia) ltac:(lia) fuel s2 rest); done.
Qed.

Lemma expr_list_reads sub es s rest f :
  es ≠ [] → (∀ e s rest, e ∈ es → feeds s (toks 0 e ++ rest) → stops 0 (hd_tok rest) = true →
     reads_as e rest (sub s)) →
  feeds s (comma_sep (toks 0 <$> es) ++ rest) → stops 0 (hd_tok rest) = true →
  hd_tok rest ≠ Comma → reads_as es rest (expr_list sub f s).
Proof.
  intros Hne Hsub Hs Hst Hc. revert f s Hs Hne Hsub.
  induction es as [|e es IH]; intros f s Hs Hne Hsub; [done|].
  destruct f as [|f]; [done|]. cbn [expr_list].
  destruct es as [|e2 es].
  - eapply (reads_bind e rest); [by apply Hsub; [left|..]|]. intros s1 Hs1.
    rewrite bool_decide_false; [by apply reads_done|]. by rewrite (feeds_hd _ _ Hs1).
  - change (comma_sep (toks 0 <$> e :: e2 :: es))
      with (toks 0 e ++ Comma :: comma_sep (toks 0 <$> e2 :: es)) in Hs.
    rewrite <- app_assoc in Hs. cbn [app] in Hs.
    eapply reads_bind; [apply Hsub; [left|exact Hs|done]|]. intros s1 Hs1.
    rewrite bool_decide_true by exact (feeds_cur _ _ _ Hs1).
    destruct (feeds_advance _ _ _ Hs1) as (s2 & -> & Hs2). cbn [lift].
    eapply (reads_bind (e2 :: es) rest); [|intros; by apply reads_done].
    apply IH; [done..|]. intros e' s' r' He'. apply Hsub. by right.
Qed.

Lemma prim_paren depth lvl e :
  (∀ d, reads_toks (parse_primary fuel d) 0 (toks 0 e) e) → (level e < lvl)%nat →
  reads_toks (parse_primary fuel depth) 5 (toks lvl e) e.
Proof.
  intros H0 Hlvl n s rest Hs _. rewrite toks_paren in Hs by done.
  destruct depth as [|d]; [done|]. cbn [at_level parse_primary]. unfold primary_with.
  destruct Hs as (Hc & s1 & -> & Hs1). fold (feeds s1) in Hs1. cbn [lift].
  rewrite <- app_assoc in Hs1. 
  eapply (reads_bind e (RParen :: rest)); [by apply (H0 d n)|]. intros s2 Hs2.
  destruct (feeds_expect _ _ _ Hs2) as (s3 & -> & Hs3). by apply reads_done.
Qed.

Lemma prim_call depth x args :
  (∀ e, e ∈ args → reads_all e) →
  reads_toks (parse_primary fuel depth) 5 (toks 5 (LCall x args)) (LCall x args).
Proof.
  intros Hargs n s rest Hs Hst. destruct depth as [|d]; [done|].
  cbn [at_level parse_primary]. unfold primary_with. cbn [toks level paren] in Hs.
  destruct Hs as (Hc & s1 & E1 & Hs1). rewrite E1. cbn [lift].
  fold (feeds s1 (LParen :: (comma_sep (toks 0 <$> args) ++ [RParen]) ++ rest)) in Hs1.
  cbn [mbind outcome_bind]. rewrite bool_decide_true by exact (feeds_cur _ _ _ Hs1).
  destruct (feeds_advance _ _ _ Hs1) as (s2 & -> & Hs2). cbn [lift mbind outcome_bind].
  change (feeds s2 ((comma_sep (toks 0 <$> args) ++ [RParen]) ++ rest)) in Hs2.
  rewrite <- app_assoc in Hs2.
  eapply (reads_bind args (RParen :: rest)).
  - destruct args as [|a args].
    { rewrite bool_decide_true by exact (feeds_cur _ _ _ Hs2). by apply reads_done. }
    rewrite bool_decide_false.
    + apply (expr_list_reads _ (a :: args)); try done.
      intros e' s' r' He' Hs' Hst'. by apply (Hargs e' He' d 0%nat ltac:(lia) 0%nat).
    + destruct (toks_hd 0 a) as (t & l & Ht & Hst'); [lia|].
      assert (lp_cur s2 = t) as ->; [|by destruct t].
      rewrite (feeds_hd _ _ Hs2). destruct args; cbn; by rewrite Ht.
  - intros s3 Hs3. destruct (feeds_expect _ _ _ Hs3) as (s4 & -> & Hs4). by apply reads_done.
Qed.

Lemma own_level depth e :
  (∀ e', (esize e' < esize e)%nat → reads_all e') →
  reads_toks (parse_primary fuel depth) (level e) (toks (level e) e) e.
Proof.
  intros Hsmall n s rest Hs Hst. destruct e as [x|x|op a b|a|x args].
  - destruct depth as [|d]; [done|]. destruct Hs as (Hc & s1 & E1 & Hs1).
    cbn [at_level level parse_primary]. unfold primary_with. by rewrite E1.
  - destruct depth as [|d]; [done|]. destruct Hs as (Hc & s1 & E1 & Hs1).
    cbn [at_level level parse_primary]. unfold primary_with. rewrite E1.
    cbn [lift mbind outcome_bind]. rewrite bool_decide_false; [by apply reads_done|].
    change (feeds s1 rest) in Hs1. rewrite (feeds_hd _ _ Hs1). intros E. by rewrite E in Hst.
  - cbn [esize] in Hsmall. destruct (op_facts op) as [[H3 ->]|(Hle & _)].
    + cbn [at_level level op_level] in *. destruct n as [|n]; [done|]. cbn [parse_pow].
      change (feeds s ((toks 4 a ++ StarStar :: toks 3 b) ++ rest)) in Hs.
      rewrite <- app_assoc in Hs. cbn [app] in Hs.
      eapply reads_bind;
        [by apply (Hsmall a ltac:(lia) depth 4%nat ltac:(lia) fuel s (StarStar :: toks 3 b ++ rest))|].
      intros s1 Hs1. rewrite bool_decide_true by exact (feeds_cur _ _ _ Hs1).
      destruct (feeds_advance _ _ _ Hs1) as (s2 & -> & Hs2).
      eapply (reads_bind b rest); [|intros; by apply reads_done].
      by apply (Hsmall b ltac:(lia) depth 3%nat ltac:(lia) n s2).
    + cbn [level] in *. rewrite at_level_loop by done.
      eapply (loop_reads _ (S (esize a + esize b)) (LBin op a b)); [|right; split; [cbn; lia|reflexivity]|done|exact Hs| |].
      * intros e' lvl He Hl. by apply Hsmall.
      * eapply stops_mono; [exact Hst|lia].
      * intros f s' Hs'. by apply bin_loop_stop.
  - cbn [at_level level] in *. destruct n as [|n]; [done|]. cbn [parse_unary].
    change (feeds s (Minus :: toks 4 a ++ rest)) in Hs.
    rewrite bool_decide_true by exact (feeds_cur _ _ _ Hs).
    destruct (feeds_advance _ _ _ Hs) as (s1 & -> & Hs1).
    eapply (reads_bind a rest); [|intros; by apply reads_done].
    by apply (Hsmall a ltac:(simpl; lia) depth 4%nat ltac:(lia) n s1).
  - apply (prim_call depth x args); [|done..]. intros e He. apply Hsmall. cbn [esize].
    pose proof (elem_list_sum _ _ (list_elem_of_fmap_2 esize _ _ He)). lia.
Qed.

Lemma expr_reads e : reads_all e.
Proof.
  remember (esize e) as k eqn:Hk. revert e Hk.
  induction (lt_wf k) as [k _ IH]; intros e ->.
  assert (∀ depth, reads_toks (parse_primary fuel depth) (level e) (toks (level e) e) e) as Hown.
  { intros depth. apply own_level. intros e' He'. by eapply IH. }
  assert (∀ depth lvl, (lvl ≤ level e)%nat →
            reads_toks (parse_primary fuel depth) lvl (toks lvl e) e) as Hlow.
  { intros depth lvl Hl. pose proof (level_le e).
    rewrite (toks_eq lvl (level e)).
    2:{ rewrite Nat.ltb_irrefl. by apply Nat.ltb_ge. }
    apply reads_descend_to with (level e); [done| |done].
    destruct (toks_hd (level e) e) as (t & l & -> & Ht); [done|]. exists t, l. split; [done|].
    intros E ->. by rewrite E in Ht. }
  intros depth lvl Hl. destruct (decide (lvl ≤ level e)%nat); [by apply Hlow|].
  apply reads_descend_to with 5%nat; [lia| |].
  - rewrite toks_paren by lia. by eexists _, _.
  - apply prim_paren; [|lia]. intros d. apply Hlow. lia.
Qed.

Lemma parse_expr_reads e s rest :
  feeds s (toks 0 e ++ rest) → stops 0 (hd_tok rest) = true →
  reads_as e rest (parse_expr fuel s).
Proof. intros Hs Hst. by apply (expr_reads e fuel 0%nat ltac:(lia) 0%nat). Qed.
End Expr.

(** ** Forms *)

Lemma skip_commas_none f s t l :
  feeds s (t :: l) → t ≠ Comma → tolerates (λ s', s' = s) (skip_commas f s).
Proof.
  intros Hs Ht. destruct f as [|f]; [done|]. cbn [skip_commas].
  by rewrite bool_decide_false by by rewrite (feeds_cur _ _ _ Hs).
Qed.

Lemma skip_commas_one f s t l :
  feeds s (Comma :: t :: l) → t ≠ Comma → tolerates (λ s', feeds s' (t :: l)) (skip_commas f s).
Proof.
  intros Hs Ht. destruct f as [|f]; [done|]. cbn [skip_commas].
  rewrite bool_decide_true by exact (feeds_cur _ _ _ Hs).
  destruct (feeds_advance _ _ _ Hs) as (s1 & -> & Hs1).
  pose proof (skip_commas_none f s1 t l Hs1 Ht) as H. cbn [lift mbind outcome_bind].
  destruct (skip_commas f s1); simpl in *; [by subst|done..].
Qed.

(** The tokens of the rest of a comma-separated list, behind an element. *)
Definition more (l : list (list LTok)) : list LTok :=
  match l with [] => [] | _ => Comma :: comma_sep l end.

Lemma comma_sep_cons x l : comma_sep (x :: l) = x ++ more l.
Proof. destruct l; simpl; [by rewrite app_nil_r|done]. Qed.

(** A list read element by element, commas skipped in front of each. *)
Lemma output_loop_reads names f s rest :
  feeds s (comma_sep ((λ n, [Ident n]) <$> names) ++ RParen :: rest) ∨
  feeds s (more ((λ n, [Ident n]) <$> names) ++ RParen :: rest) →
  reads_as names (RParen :: rest) (output_loop f s).
Proof.
  revert f s. induction names as [|n names IH]; intros f s Hs; (destruct f as [|f]; [done|]);
    cbn [output_loop].
  - assert (feeds s (RParen :: rest)) as Hs' by by destruct Hs.
    eapply tolerates_bind; [by eapply skip_commas_none|]. intros ? ->.
    rewrite bool_decide_true by exact (feeds_cur _ _ _ Hs'). by apply reads_done.
  - rewrite !fmap_cons in Hs. change (more ([Ident n] :: ?l)) with (Comma :: comma_sep ([Ident n] :: l)) in Hs.
    rewrite comma_sep_cons in Hs.
    eapply (tolerates_bind (λ s', feeds s' (Ident n :: more ((λ n, [Ident n]) <$> names) ++ RParen :: rest))).
    { destruct Hs as [Hs|Hs]; [|by eapply skip_commas_one].
      pose proof (skip_commas_none f s _ _ Hs ltac:(done)) as H.
      destruct (skip_commas f s); simpl in *; [by subst|done..]. }
    intros s1 Hs1. rewrite bool_decide_false by by rewrite (feeds_cur _ _ _ Hs1).
    destruct (feeds_ident "expected identifier or ')'" _ _ _ Hs1) as (s2 & -> & Hs2).
    eapply (reads_bind names); [apply IH; by right|]. intros; by apply reads_done.
Qed.

Lemma slot_names_reads slots f s t rest :
  feeds s ((Ident <$> slots) ++ t :: rest) → (∀ n, t ≠ Ident n) →
  reads_as slots (t :: rest) (slot_names f s).
Proof.
  intros Hs Ht. revert f s Hs. induction slots as [|n slots IH]; intros f s Hs;
    (destruct f as [|f]; [done|]); cbn [slot_names]; rewrite (feeds_cur _ _ _ Hs).
  - destruct t; try by apply reads_done. by destruct (Ht name).
  - destruct (feeds_advance _ _ _ Hs) as (s1 & -> & Hs1).
    eapply (reads_bind slots); [by apply IH|]. intros; by apply reads_done.
Qed.

Lemma destructure_reads d f s t rest :
  feeds s (clause_toks d ++ t :: rest) → t = Comma ∨ t = RParen →
  reads_as d (t :: rest) (destructure_clause f s).
Proof.
  intros Hs Ht. unfold destructure_clause. destruct d as [[class slots]|].
  2:{ destruct Hs as [Hc Hs]. rewrite bool_decide_false by (rewrite Hc; by destruct Ht as [-> | ->]).
      apply reads_done. by split. }
  unfold clause_toks in Hs. cbn [dc_slots dc_class app] in Hs.
  rewrite bool_decide_true by exact (feeds_cur _ _ _ Hs).
  destruct (feeds_advance _ _ _ Hs) as (s1 & -> & Hs1). cbn [lift mbind outcome_bind].
  destruct (feeds_ident "expected class name after `:`" _ _ _ Hs1) as (s2 & -> & Hs2).
  cbn [lift mbind outcome_bind]. destruct slots as [|n slots].
  - rewrite bool_decide_false; [by apply reads_done|].
    rewrite (feeds_cur _ _ _ Hs2). by destruct Ht as [-> | ->].
  - rewrite bool_decide_true by exact (feeds_cur _ _ _ Hs2).
    destruct (feeds_advance _ _ _ Hs2) as (s3 & -> & Hs3). cbn [lift mbind outcome_bind].
    eapply (reads_bind (n :: slots)); [apply slot_names_reads; [exact Hs3|by destruct Ht as [-> | ->]]|].
    intros s4 Hs4. by apply reads_done.
Qed.

Lemma input_loop_reads ins f s rest :
  feeds s (comma_sep (input_toks <$> ins) ++ RParen :: rest) ∨
  feeds s (more (input_toks <$> ins) ++ RParen :: rest) →
  reads_as ins (RParen :: rest) (input_loop f s).
Proof.
  revert f s. induction ins as [|[n d] ins IH]; intros f s Hs; (destruct f as [|f]; [done|]);
    cbn [input_loop].
  - assert (feeds s (RParen :: rest)) as Hs' by by destruct Hs.
    eapply tolerates_bind; [by eapply skip_commas_none|]. intros ? ->.
    rewrite bool_decide_true by exact (feeds_cur _ _ _ Hs'). by apply reads_done.
  - rewrite !fmap_cons in Hs. cbn [more] in Hs. rewrite comma_sep_cons in Hs.
    eapply (tolerates_bind (λ s', feeds s' (Ident n :: clause_toks d ++ more (input_toks <$> ins) ++ RParen :: rest))).
    { rewrite <- app_assoc in Hs.
      change (input_toks (mkLetInput n d)) with (Ident n :: clause_toks d) in Hs.
      destruct Hs as [Hs|Hs]; [|by eapply skip_commas_one; [rewrite app_assoc|]].
      pose proof (skip_commas_none f s _ _ Hs ltac:(done)) as H.
      destruct (skip_commas f s); simpl in *; [by subst|done..]. }
    intros s1 Hs1. rewrite bool_decide_false by by rewrite (feeds_cur _ _ _ Hs1).
    destruct (feeds_ident "expected identifier" _ _ _ Hs1) as (s2 & -> & Hs2).
    cbn [lift mbind outcome_bind].
    set (tl := more (input_toks <$> ins) ++ RParen :: rest) in *.
    assert (∃ t l, tl = t :: l ∧ (t = Comma ∨ t = RParen)) as (t & l & Etl & Ht).
    { subst tl. destruct ins; eexists _, _; eauto. }
    rewrite Etl in Hs2.
    eapply (reads_bind d (t :: l)); [by apply destructure_reads|]. intros s3 Hs3.
    eapply (reads_bind ins); [apply IH; right; by rewrite <- Etl in Hs3|].
    intros; by apply reads_done.
Qed.

Lemma where_clauses_reads fuel ws f s rest :
  feeds s (concat (where_toks <$> ws) ++ EndKw :: rest) →
  reads_as ws (EndKw :: rest) (where_clauses (parse_expr fuel) f s).
Proof.
  revert f s. induction ws as [|[n e] ws IH]; intros f s Hs; (destruct f as [|f]; [done|]);
    cbn [where_clauses].
  - rewrite bool_decide_false by by rewrite (feeds_cur _ _ _ Hs). by apply reads_done.
  - rewrite fmap_cons in Hs. cbn [concat where_toks fst snd] in Hs.
    rewrite <- app_assoc in Hs.
    change (feeds s (WhereKw :: Ident n :: Equals :: toks 0 e ++ concat (where_toks <$> ws) ++ EndKw :: rest)) in Hs.
    rewrite bool_decide_true by exact (feeds_cur _ _ _ Hs).
    destruct (feeds_advance _ _ _ Hs) as (s1 & -> & Hs1). cbn [lift mbind outcome_bind].
    destruct (feeds_ident "WHERE expects identifier" _ _ _ Hs1) as (s2 & -> & Hs2).
    cbn [lift mbind outcome_bind].
    destruct (feeds_expect _ _ _ Hs2) as (s3 & -> & Hs3). cbn [lift mbind outcome_bind].
    eapply reads_bind; [apply (parse_expr_reads fuel e); [exact Hs3|by destruct ws as [|[]]]|].
    intros s4 Hs4. eapply (reads_bind ws); [by apply IH|]. intros; by apply reads_done.
Qed.

Lemma parse_form_reads fuel form s :
  form_ok form = true → feeds s (form_toks form) → reads_as form [] (parse_form fuel s).
Proof.
  intros Hok Hs. unfold form_ok in Hok. rewrite !andb_true_iff, negb_true_iff in Hok.
  destruct Hok as [[_ Hlen%Nat.eqb_eq] Hne%Nat.eqb_neq].
  destruct form as [ins outs es ws]. cbn [lf_outputs lf_results] in *.
  unfold parse_form, form_toks in *. cbn [lf_inputs lf_outputs lf_results lf_wheres] in *.
  destruct (feeds_expect _ _ _ Hs) as (s1 & -> & Hs1). cbn [lift mbind outcome_bind].
  set (l1 := Arrow :: _) in Hs1. eapply (reads_bind ins l1).
  { unfold input_list. destruct (feeds_expect _ _ _ Hs1) as (s2 & -> & Hs2).
    eapply (reads_bind ins (RParen :: l1)); [apply input_loop_reads; by left|]. intros s3 Hs3.
    destruct (feeds_expect _ _ _ Hs3) as (s4 & -> & Hs4). by apply reads_done. }
  intros s2 Hs2. destruct (feeds_expect _ _ _ Hs2) as (s3 & -> & Hs3). cbn [lift mbind outcome_bind].
  set (l2 := Equals :: _) in Hs3. eapply (reads_bind outs l2).
  { unfold output_list. destruct (feeds_expect _ _ _ Hs3) as (s4 & -> & Hs4).
    eapply (reads_bind outs (RParen :: l2)); [apply output_loop_reads; by left|]. intros s5 Hs5.
    destruct (feeds_expect _ _ _ Hs5) as (s6 & -> & Hs6). by apply reads_done. }
  intros s4 Hs4. destruct (feeds_expect _ _ _ Hs4) as (s5 & -> & Hs5). cbn [lift mbind outcome_bind].
  eapply (reads_bind es).
  { apply expr_list_reads; [by destruct es| |exact Hs5|by destruct ws as [|[]]..].
    intros e s' r _ Hs' Hst. by apply parse_expr_reads. }
  intros s6 Hs6. eapply (reads_bind ws); [by apply where_clauses_reads|]. intros s7 Hs7.
  destruct (feeds_expect _ _ _ Hs7) as (s8 & -> & Hs8). cbn [lift mbind outcome_bind].
  rewrite Hlen, Nat.eqb_refl. by apply reads_done.
Qed.

(** ** The tokens of a well-formed form are well formed *)

Lemma forallb_app_true {A} (p : A → bool) a b :
  forallb p a = true → forallb p b = true → forallb p (a ++ b) = true.
Proof. intros Ha Hb. by rewrite forallb_app, Ha, Hb. Qed.

Lemma comma_sep_ok l : Forall (λ x, forallb tok_ok x = true) l → forallb tok_ok (comma_sep l) = true.
Proof.
  induction 1 as [|x l Hx _ IH]; [done|]. rewrite comma_sep_cons. apply forallb_app_true; [done|].
  destruct l; [done|]. exact IH.
Qed.

Lemma forallb_Forall {A} (p : A → bool) l : forallb p l = true ↔ Forall (λ x, p x = true) l.
Proof. induction l as [|x l IH]; simpl; [done|]. by rewrite andb_true_iff, Forall_cons, IH. Qed.

Lemma paren_ok b l : forallb tok_ok l = true → forallb tok_ok (paren b l) = true.
Proof. intros H. destruct b; [|done]. cbn. by apply forallb_app_true. Qed.

Lemma toks_ok e : expr_ok e = true → ∀ lvl, forallb tok_ok (toks lvl e) = true.
Proof.
  remember (esize e) as k eqn:Hk. revert e Hk.
  induction (lt_wf k) as [k _ IH]; intros e -> He lvl.
  destruct e as [x|x|op a b|a|x args]; cbn [toks expr_ok] in *; apply paren_ok; simpl.
  - by rewrite He.
  - by rewrite He.
  - apply andb_true_iff in He as [Ha Hb]. apply forallb_app_true.
    + by eapply IH; [|done..]; simpl; lia.
    + simpl. assert (tok_ok (op_tok op) = true) as -> by by destruct op.
      by eapply IH; [|done..]; simpl; lia.
  - by eapply IH; [|done..]; simpl; lia.
  - apply andb_true_iff in He as [-> Hargs]. simpl. apply forallb_app_true; [|done].
    apply comma_sep_ok, Forall_fmap, Forall_forall. intros a Ha.
    apply forallb_Forall in Hargs. rewrite Forall_forall in Hargs.
    eapply IH; [|done|by apply Hargs]. cbn [esize].
    pose proof (elem_list_sum _ _ (list_elem_of_fmap_2 esize _ _ Ha)). lia.
Qed.

Lemma idents_ok l : forallb ident_ok l = true → forallb tok_ok (Ident <$> l) = true.
Proof. induction l; simpl; [done|]. rewrite !andb_true_iff. intuition. Qed.

Lemma input_toks_ok i : input_ok i = true → forallb tok_ok (input_toks i) = true.
Proof.
  destruct i as [n [[c sl]|]]; unfold input_ok, input_toks;
    cbn [li_name li_destructure clause_toks dc_class dc_slots forallb tok_ok]; [|done].
  rewrite !andb_true_iff. intros (-> & -> & Hsl). repeat split; try done.
  destruct sl as [|x sl]; [done|]. by apply (idents_ok (x :: sl)).
Qed.

Lemma form_toks_ok form : form_ok form = true → forallb tok_ok (form_toks form) = true.
Proof.
  unfold form_ok. rewrite !andb_true_iff. intros [[[[[Hi Ho] He] Hw] _] _].
  apply forallb_Forall in Hi, Ho, He, Hw. unfold form_toks. cbn [forallb tok_ok andb].
  apply forallb_app_true; [apply comma_sep_ok, Forall_fmap; eapply Forall_impl, input_toks_ok; exact Hi|].
  simpl. apply forallb_app_true.
  { apply comma_sep_ok, Forall_fmap. eapply Forall_impl; [exact Ho|]. intros x Hx. simpl. by rewrite Hx. }
  simpl. apply forallb_app_true.
  { apply comma_sep_ok, Forall_fmap. eapply Forall_impl; [exact He|]. intros x Hx. by apply toks_ok. }
  apply forallb_app_true; [|done].
  induction Hw as [|[n e] ws [Hn Hx]%andb_true_iff _ IH]; [done|]. cbn in Hn, Hx |- *.
  rewrite Hn. simpl. apply forallb_app_true; [by apply toks_ok|exact IH].
Qed.

(** C10: the LET parser is total, and it inverts the printer that writes only
    the parentheses demanded by precedence (comparison, sum, product, power,
    negation) and associativity (left, but right for powers): whatever the
    form, its printed text parses back to it. *)
Theorem let_parse_print (form : LetForm) (Hok : form_ok form = true) :
  (∀ src, let_parse src ≠ OutOfFuel) ∧ let_parse (print_form form) = Done form.
Proof.
  split; [apply let_parse_total|].
  pose proof (let_parse_total (print_form form)) as Htot.
  pose proof (form_toks_ok form Hok) as Htoks. revert Htot. unfold let_parse, print_form.
  destruct (form_toks form) as [|t l] eqn:E; [done|].
  destruct (feeds_text t l Htoks) as (s & Hs & Hf). rewrite Hs. cbn [lift mbind outcome_bind].
  rewrite <- E in Hf.
  pose proof (parse_form_reads (let_fuel (concat_sep " " (ltok_text <$> t :: l))) form s Hok Hf) as Hr.
  destruct (parse_form _ s) as [[form' s1]| |]; [|done..].
  destruct Hr as [-> Hend]. intros _. cbn [mbind outcome_bind].
  by rewrite bool_decide_true by exact Hend.
Qed.

(** The distance of two points, with a subtraction chain that needs one pair
    of parentheses and a power of a negation that needs none. *)
Definition sample_form : LetForm :=
  mkLetForm
    [mkLetInput "a" (Some (mkDestructure "point" ["ax"; "ay"])); plain "b"] ["d"; "e"]
    [LCall "sqrt" [LBin OpPow (LBin OpSub (LVar "ax") (LVar "ay")) (LLit (f64_of_decimal false 2 0))];
     LBin OpSub (LBin OpSub (LVar "b") (LBin OpSub (LVar "t") (LVar "ax")))
       (LBin OpPow (LNeg (LVar "b")) (LBin OpPow (LVar "t") (LLit (f64_of_decimal false 5 (-1)))))]
    [("t", LBin OpLt (LVar "b") (LBin OpAdd (LVar "ay") (LVar "b")))].

Lemma let_parse_print_witness :
  print_form sample_form =
    "LET ( a : point as ax ay , b ) -> ( d , e ) = sqrt ( ( ax - ay ) ** 2 ) , b - ( t - ax ) - - b ** t ** 0.5 WHERE t = b < ay + b END"
  ∧ let_parse (print_form sample_form) = Done sample_form.
Proof.
  split; [vm_compute; reflexivity|].
  apply (let_parse_print sample_form ltac:(vm_compute; reflexivity)).
Defined.
