(* ===== verification/Ast.v ===== *)
(** * Syntax trees ([src/compiler/ast.rs])

    The data the parser builds and every later pass rewrites.  Expressions
    nest through lists and [CASE] arms, so the file also gives the induction
    principle that reaches the nested ones, and [expr_size], the measure the
    passes that do not recurse structurally are shown to decrease. *)
From S2P Require Import Prelude Bytes F64 Lex LetLang.

(** ** Expressions *)

Inductive LoopKind := Plus1 | PlusN.

Inductive Literal :=
  | LitInt (value : Z) (span : Span)
  | LitFloat (value : f64) (span : Span)
  | LitStr (value : string) (kind : StringKind) (span : Span).

Record LocalDecl := mkLocalDecl { ld_name : string; ld_span : Span }.

Record StackEffect := mkStackEffect {
  se_inputs : list string; se_outputs : list string; se_span : Span }.

Inductive Expr :=
  | Lit (l : Literal)
  | WordRef (name : string) (span : Span)
  | If (then_body : list Expr) (else_body : option (list Expr)) (span : Span)
  | BeginUntil (body : list Expr) (span : Span)
  | BeginWhileRepeat (pred body : list Expr) (span : Span)
  | BeginAgain (body : list Expr) (span : Span)
  | DoLoop (is_qdo : bool) (body : list Expr) (loop_kind : LoopKind) (span : Span)
  | Case (arms : list CaseArm) (dflt : option (list Expr)) (span : Span)
  | Tick (name : string) (span : Span)
  | To (name : string) (span : Span)
  | See (name : string) (span : Span)
  | LetExpr (form : LetForm) (span : Span)
  | Locals (names : list LocalDecl) (span : Span)
with CaseArm :=
  | mkArm (match_expr body : list Expr) (span : Span).

Definition arm_match (a : CaseArm) : list Expr := let '(mkArm m _ _) := a in m.
Definition arm_body (a : CaseArm) : list Expr := let '(mkArm _ b _) := a in b.
Definition arm_span (a : CaseArm) : Span := let '(mkArm _ _ s) := a in s.

Definition literal_span (l : Literal) : Span :=
  match l with LitInt _ s | LitFloat _ s | LitStr _ _ s => s end.

(** [Expr::span]. *)
Definition expr_span (e : Expr) : Span :=
  match e with
  | Lit l => literal_span l
  | WordRef _ s | If _ _ s | BeginUntil _ s | BeginWhileRepeat _ _ s | BeginAgain _ s
  | DoLoop _ _ _ s | Case _ _ s | Tick _ s | To _ s | See _ s | LetExpr _ s | Locals _ s => s
  end.

(** ** Items *)

Inductive MethodKind := Primary | Before | After.
Inductive CollectionKind := Array | FArray | CBuffer.
Inductive ConstFlavour := CellFlavour | FloatFlavour.
Inductive ConstValue :=
  | CInt (v : Z)
  | CFloat (v : f64)
  | Computed (exprs : list Expr).

Definition elt_size (k : CollectionKind) : Z :=
  match k with Array | FArray => 8 | CBuffer => 1 end.
Definition collection_keyword (k : CollectionKind) : string :=
  match k with Array => "array" | FArray => "farray" | CBuffer => "cbuffer" end.

Definition as_int (v : ConstValue) : option Z := match v with CInt z => Some z | _ => None end.
Definition as_float (v : ConstValue) : option f64 := match v with CFloat x => Some x | _ => None end.

Record Definition_ := mkDefinition {
  d_name : string; d_name_span : Span; d_effect : option StackEffect;
  d_locals : list LocalDecl; d_body : list Expr; d_span : Span }.
Record VariableDef := mkVariable { v_name : string; v_name_span : Span; v_span : Span }.
Record ConstantDef := mkConstant {
  k_name : string; k_name_span : Span; k_value : ConstValue; k_span : Span; k_flavour : ConstFlavour }.
Record CreateDef := mkCreate {
  cr_name : string; cr_name_span : Span; cr_allotted : Z; cr_span : Span }.
Record CollectionDef := mkCollection {
  co_name : string; co_name_span : Span; co_kind : CollectionKind; co_count : Z; co_span : Span }.
Record TemplateDef := mkTemplate {
  t_name : string; t_name_span : Span; t_effect : option StackEffect;
  t_constructor : list Expr; t_does : list Expr; t_def_span : Span }.
Record TemplateInstanceDef := mkTemplateInstance {
  ti_name : string; ti_name_span : Span; ti_template : string; ti_bytes : Z;
  ti_does : list Expr; ti_span : Span }.
Record ValueDef := mkValue {
  va_name : string; va_name_span : Span; va_initial : list Expr; va_span : Span }.
Record SlotDef := mkSlot { sl_name : string; sl_span : Span }.
Record ClassDef := mkClass {
  cl_name : string; cl_name_span : Span; cl_extends : option string;
  cl_slots : list SlotDef; cl_span : Span }.
Record GenericDef := mkGeneric {
  g_name : string; g_name_span : Span; g_effect : StackEffect; g_span : Span }.
Record MethodSpecializer := mkSpecializer {
  ms_position : Z; ms_param : string; ms_class : string; ms_at : Span }.
Record MethodDef := mkMethod {
  m_generic : string; m_generic_span : Span; m_specializers : list MethodSpecializer;
  m_effect : StackEffect; m_locals : list LocalDecl; m_body : list Expr; m_span : Span;
  m_kind : MethodKind }.
Record RawFactorItem := mkRawFactor { rf_source : string; rf_span : Span }.
(** What [SEE] shows of a name. *)
Record WordDoc := mkWordDoc {
  wd_kind : string; wd_effect : string; wd_source : string; wd_detail : string }.

Inductive Item :=
  | IDefinition (d : Definition_)
  | ITopLevel (exprs : list Expr) (span : Span)
  | IVariable (v : VariableDef)
  | IConstant (c : ConstantDef)
  | ICreate (c : CreateDef)
  | ICollection (c : CollectionDef)
  | ITemplate (t : TemplateDef)
  | ITemplateInstance (t : TemplateInstanceDef)
  | IValue (v : ValueDef)
  | IClass (c : ClassDef)
  | IGeneric (g : GenericDef)
  | IMethod (m : MethodDef)
  | IRawFactor (r : RawFactorItem)
  | INeeds (path : string) (span : Span).

Record Program := mkProgram { p_items : list Item }.

(** ** Induction *)

Section ExprInd.
Context (P : Expr → Prop).
Context (HLit : ∀ l, P (Lit l)) (HWordRef : ∀ n s, P (WordRef n s)).
Context (HIf : ∀ t e s, Forall P t → (∀ b, e = Some b → Forall P b) → P (If t e s)).
Context (HUntil : ∀ b s, Forall P b → P (BeginUntil b s)).
Context (HWhile : ∀ p b s, Forall P p → Forall P b → P (BeginWhileRepeat p b s)).
Context (HAgain : ∀ b s, Forall P b → P (BeginAgain b s)).
Context (HDo : ∀ q b k s, Forall P b → P (DoLoop q b k s)).
Context (HCase : ∀ arms d s,
  Forall (λ a, Forall P (arm_match a) ∧ Forall P (arm_body a)) arms →
  (∀ b, d = Some b → Forall P b) → P (Case arms d s)).
Context (HTick : ∀ n s, P (Tick n s)) (HTo : ∀ n s, P (To n s)) (HSee : ∀ n s, P (See n s)).
Context (HLet : ∀ f s, P (LetExpr f s)) (HLocals : ∀ ns s, P (Locals ns s)).

Definition seq_ind (f : ∀ e, P e) : ∀ l, Forall P l :=
  fix go l := match l with
              | [] => Forall_nil_2 P
              | e :: l' => Forall_cons_2 P e l' (f e) (go l')
              end.

Definition opt_ind (f : ∀ e, P e) (o : option (list Expr)) : ∀ b, o = Some b → Forall P b :=
  match o with
  | None => λ b H, match H in _ = o' return match o' with Some _ => Forall P b | None => True end
                   with eq_refl => I end
  | Some b0 => λ b H, match H in _ = o' return match o' with Some b' => Forall P b' | None => True end
                   with eq_refl => seq_ind f b0 end
  end.

Fixpoint Expr_nested_ind (e : Expr) : P e :=
  match e with
  | Lit l => HLit l
  | WordRef n s => HWordRef n s
  | If t el s => HIf t el s (seq_ind Expr_nested_ind t) (opt_ind Expr_nested_ind el)
  | BeginUntil b s => HUntil b s (seq_ind Expr_nested_ind b)
  | BeginWhileRepeat p b s =>
      HWhile p b s (seq_ind Expr_nested_ind p) (seq_ind Expr_nested_ind b)
  | BeginAgain b s => HAgain b s (seq_ind Expr_nested_ind b)
  | DoLoop q b k s => HDo q b k s (seq_ind Expr_nested_ind b)
  | Case arms d s =>
      HCase arms d s
        ((fix go arms : Forall (λ a, Forall P (arm_match a) ∧ Forall P (arm_body a)) arms :=
            match arms with
            | [] => Forall_nil_2 _
            | a :: arms' => Forall_cons_2 _ a arms' (arm_nested_ind a) (go arms')
            end) arms)
        (opt_ind Expr_nested_ind d)
  | Tick n s => HTick n s
  | To n s => HTo n s
  | See n s => HSee n s
  | LetExpr f s => HLet f s
  | Locals ns s => HLocals ns s
  end
with arm_nested_ind (a : CaseArm) : Forall P (arm_match a) ∧ Forall P (arm_body a) :=
  match a with
  | mkArm m b s => conj (seq_ind Expr_nested_ind m) (seq_ind Expr_nested_ind b)
  end.
End ExprInd.

(** ** Size *)

Definition sum_with {A} (f : A → nat) : list A → nat :=
  fix go l := match l with [] => 0%nat | x :: l' => (f x + go l')%nat end.
Definition opt_sum {A} (f : A → nat) (o : option A) : nat :=
  match o with Some x => f x | None => 0%nat end.

Fixpoint expr_size (e : Expr) : nat :=
  S match e with
    | If t el _ => sum_with expr_size t + opt_sum (sum_with expr_size) el
    | BeginUntil b _ | BeginAgain b _ | DoLoop _ b _ _ => sum_with expr_size b
    | BeginWhileRepeat p b _ => sum_with expr_size p + sum_with expr_size b
    | Case arms d _ => sum_with arm_size arms + opt_sum (sum_with expr_size) d
    | _ => 0
    end
with arm_size (a : CaseArm) : nat :=
  match a with mkArm m b _ => S (sum_with expr_size m + sum_with expr_size b) end.

Definition seq_size : list Expr → nat := sum_with expr_size.

Lemma seq_size_app a b : seq_size (a ++ b) = (seq_size a + seq_size b)%nat.
Proof. unfold seq_size. induction a as [|e a IH]; simpl; [done|]. rewrite IH. lia. Qed.

Lemma seq_size_cons e l : seq_size (e :: l) = (expr_size e + seq_size l)%nat.
Proof. done. Qed.

Lemma expr_size_pos e : (0 < expr_size e)%nat.
Proof. destruct e; simpl; lia. Qed.

Lemma sum_with_elem {A} (f : A → nat) x l : x ∈ l → (f x ≤ sum_with f l)%nat.
Proof. induction 1; simpl; lia. Qed.

(** ** Traversals

    [visits p e]: [p] holds of [e] or of an expression nested in it. *)
Definition any_in {A} (f : A → bool) : list A → bool :=
  fix go l := match l with [] => false | x :: l' => f x || go l' end.
Definition opt_any {A} (f : A → bool) (o : option A) : bool :=
  match o with Some x => f x | None => false end.

Lemma any_in_app {A} (f : A → bool) a b : any_in f (a ++ b) = any_in f a || any_in f b.
Proof. induction a as [|x a IH]; simpl; [done|]. by rewrite IH, orb_assoc. Qed.

Section Visits.
Context (p : Expr → bool).
Fixpoint visits (e : Expr) : bool :=
  p e ||
  match e with
  | If t el _ => any_in visits t || opt_any (any_in visits) el
  | BeginUntil b _ | BeginAgain b _ | DoLoop _ b _ _ => any_in visits b
  | BeginWhileRepeat pr b _ => any_in visits pr || any_in visits b
  | Case arms d _ => any_in visits_arm arms || opt_any (any_in visits) d
  | _ => false
  end
with visits_arm (a : CaseArm) : bool :=
  match a with mkArm m b _ => any_in visits m || any_in visits b end.
Definition visits_seq : list Expr → bool := any_in visits.
End Visits.

(** Everything [f] gives on the expressions of a tree, in source order. *)
Definition flat_with {A B} (f : A → list B) : list A → list B :=
  fix go l := match l with [] => [] | x :: l' => f x ++ go l' end.
Definition opt_flat {A B} (f : A → list B) (o : option A) : list B :=
  match o with Some x => f x | None => [] end.

Lemma flat_with_app {A B} (f : A → list B) a b :
  flat_with f (a ++ b) = flat_with f a ++ flat_with f b.
Proof. induction a as [|x a IH]; simpl; [done|]. by rewrite IH, app_assoc. Qed.

Section Gather.
Context {B : Type} (f : Expr → list B).
Fixpoint gather (e : Expr) : list B :=
  f e ++
  match e with
  | If t el _ => flat_with gather t ++ opt_flat (flat_with gather) el
  | BeginUntil b _ | BeginAgain b _ | DoLoop _ b _ _ => flat_with gather b
  | BeginWhileRepeat pr b _ => flat_with gather pr ++ flat_with gather b
  | Case arms d _ => flat_with gather_arm arms ++ opt_flat (flat_with gather) d
  | _ => []
  end
with gather_arm (a : CaseArm) : list B :=
  match a with mkArm m b _ => flat_with gather m ++ flat_with gather b end.
Definition gather_seq : list Expr → list B := flat_with gather.
End Gather.

(** The equations of the traversals, in terms of sequences. *)
Section Equations.
Context {B : Type} (f : Expr → list B) (p : Expr → bool).
Lemma gather_if t el s :
  gather f (If t el s) = f (If t el s) ++ gather_seq f t ++ opt_flat (gather_seq f) el.
Proof. done. Qed.
Lemma gather_until b s : gather f (BeginUntil b s) = f (BeginUntil b s) ++ gather_seq f b.
Proof. done. Qed.
Lemma gather_while q b s :
  gather f (BeginWhileRepeat q b s) =
    f (BeginWhileRepeat q b s) ++ gather_seq f q ++ gather_seq f b.
Proof. done. Qed.
Lemma gather_again b s : gather f (BeginAgain b s) = f (BeginAgain b s) ++ gather_seq f b.
Proof. done. Qed.
Lemma gather_do q b k s : gather f (DoLoop q b k s) = f (DoLoop q b k s) ++ gather_seq f b.
Proof. done. Qed.
Lemma gather_case arms d s :
  gather f (Case arms d s) =
    f (Case arms d s) ++ flat_with (gather_arm f) arms ++ opt_flat (gather_seq f) d.
Proof. done. Qed.
Lemma gather_arm_eq m b s : gather_arm f (mkArm m b s) = gather_seq f m ++ gather_seq f b.
Proof. done. Qed.
Lemma gather_seq_cons e l : gather_seq f (e :: l) = gather f e ++ gather_seq f l.
Proof. done. Qed.
Lemma gather_seq_app a b : gather_seq f (a ++ b) = gather_seq f a ++ gather_seq f b.
Proof. apply flat_with_app. Qed.
Lemma visits_if t el s :
  visits p (If t el s) = p (If t el s) || (visits_seq p t || opt_any (visits_seq p) el).
Proof. done. Qed.
Lemma visits_until b s : visits p (BeginUntil b s) = p (BeginUntil b s) || visits_seq p b.
Proof. done. Qed.
Lemma visits_while q b s :
  visits p (BeginWhileRepeat q b s) =
    p (BeginWhileRepeat q b s) || (visits_seq p q || visits_seq p b).
Proof. done. Qed.
Lemma visits_again b s : visits p (BeginAgain b s) = p (BeginAgain b s) || visits_seq p b.
Proof. done. Qed.
Lemma visits_do q b k s : visits p (DoLoop q b k s) = p (DoLoop q b k s) || visits_seq p b.
Proof. done. Qed.
Lemma visits_case arms d s :
  visits p (Case arms d s) =
    p (Case arms d s) || (any_in (visits_arm p) arms || opt_any (visits_seq p) d).
Proof. done. Qed.
Lemma visits_arm_eq m b s : visits_arm p (mkArm m b s) = visits_seq p m || visits_seq p b.
Proof. done. Qed.
Lemma visits_seq_cons e l : visits_seq p (e :: l) = visits p e || visits_seq p l.
Proof. done. Qed.
Lemma visits_seq_app a b : visits_seq p (a ++ b) = visits_seq p a || visits_seq p b.
Proof. apply any_in_app. Qed.
End Equations.
#[export] Hint Rewrite @gather_if @gather_until @gather_while @gather_again @gather_do @gather_case
  @gather_arm_eq @gather_seq_cons @gather_seq_app visits_if visits_until visits_while visits_again
  visits_do visits_case visits_arm_eq visits_seq_cons visits_seq_app : ast.

(** Gathering finer values from the values gathered. *)
Section GatherFlat.
Context {A B} (f : Expr → list A) (k : A → list B) (g : Expr → list B).
Context (Hfg : ∀ e, flat_with k (f e) = g e).
#[local] Set Default Proof Using "All".

Lemma gather_flat_list l :
  Forall (λ e, flat_with k (gather f e) = gather g e) l →
  flat_with k (gather_seq f l) = gather_seq g l.
Proof. induction 1 as [|e l He _ IH]; [done|]. by rewrite !gather_seq_cons, flat_with_app, He, IH. Qed.

Lemma gather_flat_opt o :
  (∀ b, o = Some b → Forall (λ e, flat_with k (gather f e) = gather g e) b) →
  flat_with k (opt_flat (gather_seq f) o) = opt_flat (gather_seq g) o.
Proof. destruct o; [|done]. intros H. by apply gather_flat_list, H. Qed.

Lemma gather_flat_arms arms :
  Forall (λ a, Forall (λ e, flat_with k (gather f e) = gather g e) (arm_match a) ∧
               Forall (λ e, flat_with k (gather f e) = gather g e) (arm_body a)) arms →
  flat_with k (flat_with (gather_arm f) arms) = flat_with (gather_arm g) arms.
Proof.
  induction 1 as [|[m b s] arms [Hm Hb] _ IH]; [done|]. cbn [flat_with arm_match arm_body] in *.
  rewrite !gather_arm_eq, !flat_with_app, IH. by rewrite !gather_flat_list.
Qed.

Lemma gather_flat e : flat_with k (gather f e) = gather g e.
Proof.
  induction e using Expr_nested_ind; autorewrite with ast; rewrite ?flat_with_app, ?Hfg;
    rewrite ?gather_flat_list, ?gather_flat_opt, ?gather_flat_arms by done; try done;
    cbn [gather]; by rewrite flat_with_app, Hfg.
Qed.

Lemma gather_seq_flat l : flat_with k (gather_seq f l) = gather_seq g l.
Proof. apply gather_flat_list, Forall_forall. intros e _. apply gather_flat. Qed.
End GatherFlat.

(** Where the references of a body start, words and ticks: what keeps the keys
    of the resolver's target map apart. *)
Definition ref_start (e : Expr) : list Pos :=
  match e with WordRef _ s | Tick _ s => [sp_start s] | _ => [] end.
Definition ref_starts : list Expr → list Pos := gather_seq ref_start.

(** The expression sequences an item holds. *)
Definition item_seqs (i : Item) : list (list Expr) :=
  match i with
  | IDefinition d => [d_body d]
  | ITopLevel exprs _ => [exprs]
  | IConstant c => match k_value c with Computed e => [e] | _ => [] end
  | ITemplate t => [t_constructor t; t_does t]
  | ITemplateInstance t => [ti_does t]
  | IValue v => [va_initial v]
  | IMethod m => [m_body m]
  | _ => []
  end.
Definition program_seqs (p : Program) : list (list Expr) := flat_with item_seqs (p_items p).

(** [iter().map(f)] where [f] threads a state, left to right. *)
Definition map_state {A B S} (f : A → S → B * S) : list A → S → list B * S :=
  fix go l s :=
    match l with
    | [] => ([], s)
    | x :: l' => let '(y, s1) := f x s in let '(ys, s2) := go l' s1 in (y :: ys, s2)
    end.
Definition opt_state {A B S} (f : A → S → B * S) (o : option A) (s : S) : option B * S :=
  match o with Some x => let '(y, s1) := f x s in (Some y, s1) | None => (None, s) end.
