(* ===== verification/Semantics.v ===== *)
(** * What a Forth body does

    A big-step semantics of the syntax trees, the specification the lowering
    passes are proved against.  The machine is a class: the values, the state
    beside the data stack, and the words the passes do not touch.  The three
    stack words the passes rewrite ([dup], [drop], [?dup]) are fixed here.
    A run that underflows or does not end has no derivation.  [a ≡ b] relates
    bodies with the same runs; every constructor is [Proper] for it, so a pass
    is verified by rewriting. *)
From S2P Require Import Prelude Bytes F64 Lex LetLang Ast.

(** ** Machines *)

Class Machine := {
  V : Type;
  R : Type;
  truthy : V → bool;
  same : V → V → bool;
  (** leaf expressions other than the three stack words *)
  prim : Expr → list V * R → list V * R → Prop;
  (** whether the loop is entered, and whether another turn is taken *)
  do_enter : bool → list V * R → option (bool * (list V * R));
  do_next : LoopKind → list V * R → option (bool * (list V * R))
}.

Inductive flow (S : Type) := Norm (s : S) | Exit (s : S).
Arguments Norm {S} s.
Arguments Exit {S} s.

Definition is_leaf (e : Expr) : bool :=
  match e with
  | Lit _ | WordRef _ _ | Tick _ _ | To _ _ | See _ _ | LetExpr _ _ | Locals _ _ => true
  | _ => false
  end.

Section Exec.
Context `{Machine}.
(** Which word references mean [EXIT]. *)
Context (exit_word : string → Span → bool).

Definition state : Type := list V * R.

Definition is_exit (e : Expr) : bool :=
  match e with WordRef n s => exit_word n s | _ => false end.

Definition leaf (e : Expr) (s s' : state) : Prop :=
  match e with
  | WordRef n _ =>
      if eq_nocase n "dup" then
        match fst s with [] => False | v :: st => s' = (v :: v :: st, snd s) end
      else if eq_nocase n "drop" then
        match fst s with [] => False | v :: st => s' = (st, snd s) end
      else if eq_nocase n "?dup" then
        match fst s with
        | [] => False
        | v :: st => s' = if truthy v then (v :: v :: st, snd s) else s
        end
      else prim e s s'
  | _ => prim e s s'
  end.

Inductive exec : list Expr → state → flow state → Prop :=
  | x_nil s : exec [] s (Norm s)
  | x_cons e l s s1 r : exec1 e s (Norm s1) → exec l s1 r → exec (e :: l) s r
  | x_leave e l s s1 : exec1 e s (Exit s1) → exec (e :: l) s (Exit s1)
with exec1 : Expr → state → flow state → Prop :=
  | x_exit e s : is_exit e = true → exec1 e s (Exit s)
  | x_leaf e s s' : is_leaf e = true → is_exit e = false → leaf e s s' → exec1 e s (Norm s')
  | x_if_true t el sp v st rs r :
      truthy v = true → exec t (st, rs) r → exec1 (If t el sp) (v :: st, rs) r
  | x_if_false t el sp v st rs r :
      truthy v = false → exec (default [] el) (st, rs) r → exec1 (If t el sp) (v :: st, rs) r
  | x_until_done b sp s v st rs :
      exec b s (Norm (v :: st, rs)) → truthy v = true → exec1 (BeginUntil b sp) s (Norm (st, rs))
  | x_until_more b sp s v st rs r :
      exec b s (Norm (v :: st, rs)) → truthy v = false →
      exec1 (BeginUntil b sp) (st, rs) r → exec1 (BeginUntil b sp) s r
  | x_until_exit b sp s s1 : exec b s (Exit s1) → exec1 (BeginUntil b sp) s (Exit s1)
  | x_while_done p b sp s v st rs :
      exec p s (Norm (v :: st, rs)) → truthy v = false →
      exec1 (BeginWhileRepeat p b sp) s (Norm (st, rs))
  | x_while_more p b sp s v st rs s2 r :
      exec p s (Norm (v :: st, rs)) → truthy v = true → exec b (st, rs) (Norm s2) →
      exec1 (BeginWhileRepeat p b sp) s2 r → exec1 (BeginWhileRepeat p b sp) s r
  | x_while_pred p b sp s s1 : exec p s (Exit s1) → exec1 (BeginWhileRepeat p b sp) s (Exit s1)
  | x_while_exit p b sp s v st rs s1 :
      exec p s (Norm (v :: st, rs)) → truthy v = true → exec b (st, rs) (Exit s1) →
      exec1 (BeginWhileRepeat p b sp) s (Exit s1)
  | x_again_more b sp s s1 r :
      exec b s (Norm s1) → exec1 (BeginAgain b sp) s1 r → exec1 (BeginAgain b sp) s r
  | x_again_exit b sp s s1 : exec b s (Exit s1) → exec1 (BeginAgain b sp) s (Exit s1)
  | x_do_skip q b k sp s s1 :
      do_enter q s = Some (false, s1) → exec1 (DoLoop q b k sp) s (Norm s1)
  | x_do q b k sp s s1 r :
      do_enter q s = Some (true, s1) → exec_do b k s1 r → exec1 (DoLoop q b k sp) s r
  | x_case arms d sp s r : exec_arms arms d s r → exec1 (Case arms d sp) s r
with exec_do : list Expr → LoopKind → state → flow state → Prop :=
  | d_last b k s s1 s2 :
      exec b s (Norm s1) → do_next k s1 = Some (false, s2) → exec_do b k s (Norm s2)
  | d_more b k s s1 s2 r :
      exec b s (Norm s1) → do_next k s1 = Some (true, s2) → exec_do b k s2 r → exec_do b k s r
  | d_exit b k s s1 : exec b s (Exit s1) → exec_do b k s (Exit s1)
(** An arm is [dup MATCH = IF drop BODY ELSE rest THEN]: the match runs on a
    copy of the dispatch value, the default on the value itself, and [ENDCASE]
    drops it. *)
with exec_arms : list CaseArm → option (list Expr) → state → flow state → Prop :=
  | a_default d s v st rs :
      exec (default [] d) s (Norm (v :: st, rs)) → exec_arms [] d s (Norm (st, rs))
  | a_default_exit d s s1 : exec (default [] d) s (Exit s1) → exec_arms [] d s (Exit s1)
  | a_hit m b sp arms d x st rs v w y st1 rs1 r :
      exec m (x :: x :: st, rs) (Norm (v :: w :: y :: st1, rs1)) → same v w = true →
      exec b (st1, rs1) r → exec_arms (mkArm m b sp :: arms) d (x :: st, rs) r
  | a_miss m b sp arms d x st rs v w st1 rs1 r :
      exec m (x :: x :: st, rs) (Norm (v :: w :: st1, rs1)) → same v w = false →
      exec_arms arms d (st1, rs1) r → exec_arms (mkArm m b sp :: arms) d (x :: st, rs) r
  | a_match_exit m b sp arms d x st rs s1 :
      exec m (x :: x :: st, rs) (Exit s1) →
      exec_arms (mkArm m b sp :: arms) d (x :: st, rs) (Exit s1).

(** A word's body returns at its end or at an [EXIT]. *)
Definition returns (l : list Expr) (s s' : state) : Prop := exec l s (Norm s') ∨ exec l s (Exit s').

(** ** Sequencing *)

Lemma exec_nil_inv s r : exec [] s r ↔ r = Norm s.
Proof. split; [by inversion 1|intros ->; constructor]. Qed.

Lemma exec_cons_inv e l s r :
  exec (e :: l) s r ↔
  (∃ s1, exec1 e s (Norm s1) ∧ exec l s1 r) ∨ (∃ s1, r = Exit s1 ∧ exec1 e s (Exit s1)).
Proof.
  split; [inversion 1; eauto|]. intros [(s1 & ? & ?)|(s1 & -> & ?)]; eauto using exec.
Qed.

Lemma exec_app a b s r :
  exec (a ++ b) s r ↔
  (∃ s1, exec a s (Norm s1) ∧ exec b s1 r) ∨ (∃ s1, r = Exit s1 ∧ exec a s (Exit s1)).
Proof.
  revert s. induction a as [|e a IH]; intros s; simpl.
  - setoid_rewrite exec_nil_inv. naive_solver.
  - rewrite exec_cons_inv. setoid_rewrite IH. setoid_rewrite exec_cons_inv. naive_solver.
Qed.

Lemma returns_nil s s' : returns [] s s' ↔ s' = s.
Proof. unfold returns. rewrite !exec_nil_inv. naive_solver. Qed.

Lemma returns_cons e l s s' :
  returns (e :: l) s s' ↔
  (∃ s1, exec1 e s (Norm s1) ∧ returns l s1 s') ∨ exec1 e s (Exit s').
Proof. unfold returns. rewrite !exec_cons_inv. naive_solver. Qed.

Lemma returns_app a b s s' :
  returns (a ++ b) s s' ↔
  (∃ s1, exec a s (Norm s1) ∧ returns b s1 s') ∨ exec a s (Exit s').
Proof. unfold returns. rewrite !exec_app. naive_solver. Qed.

Lemma exec_single e s r : exec [e] s r ↔ exec1 e s r.
Proof.
  rewrite exec_cons_inv. setoid_rewrite exec_nil_inv. split; [naive_solver|].
  intros Hx. destruct r as [s1|s1]; eauto.
Qed.

Lemma exec_word_cons n sp l s r :
  exit_word n sp = false →
  exec (WordRef n sp :: l) s r ↔ ∃ s', leaf (WordRef n sp) s s' ∧ exec l s' r.
Proof.
  intros Hn. rewrite exec_cons_inv. split.
  - intros [(s1 & Hx & ?)|(s1 & -> & Hx)]; inversion Hx; simplify_eq/=; eauto; congruence.
  - intros (s' & Hl & Hx). left. exists s'. split; [by apply x_leaf|done].
Qed.

Lemma exec1_if t el sp s r :
  exec1 (If t el sp) s r ↔
  ∃ v st rs, s = (v :: st, rs) ∧ exec (if truthy v then t else default [] el) (st, rs) r.
Proof.
  split.
  - inversion 1; simplify_eq/=; try done; eexists _, _, _; split; try done; by case_match.
  - intros (v & st & rs & -> & Hx). destruct (truthy v) eqn:?; eauto using exec1.
Qed.

Lemma exec1_do q b k sp s r :
  exec1 (DoLoop q b k sp) s r ↔
  ∃ go s1, do_enter q s = Some (go, s1) ∧ if (go : bool) then exec_do b k s1 r else r = Norm s1.
Proof.
  split.
  - inversion 1; simplify_eq/=; try done; by do 2 eexists.
  - intros ([|] & s1 & ? & ?); simplify_eq; eauto using exec1.
Qed.

(** ** Equivalence *)

#[local] Instance seq_equiv : Equiv (list Expr) := λ a b, ∀ s r, exec a s r ↔ exec b s r.
#[local] Instance opt_equiv : Equiv (option (list Expr)) := λ a b, default [] a ≡ default [] b.
#[local] Instance expr_equiv : Equiv Expr := λ a b, ∀ s r, exec1 a s r ↔ exec1 b s r.
#[local] Instance arm_equiv : Equiv CaseArm := λ a b,
  arm_match a ≡ arm_match b ∧ arm_body a ≡ arm_body b.

#[global] Instance seq_equivalence : Equivalence (≡@{list Expr}).
Proof.
  split; [intros a s r; done|intros a b Hab s r; by rewrite (Hab s r)|].
  intros a b c Hab Hbc s r. by rewrite (Hab s r), (Hbc s r).
Qed.
#[global] Instance expr_equivalence : Equivalence (≡@{Expr}).
Proof.
  split; [intros a s r; done|intros a b Hab s r; by rewrite (Hab s r)|].
  intros a b c Hab Hbc s r. by rewrite (Hab s r), (Hbc s r).
Qed.
#[global] Instance opt_equivalence : Equivalence (≡@{option (list Expr)}).
Proof.
  split; [intros a; unfold equiv, opt_equiv; done|intros a b; unfold equiv, opt_equiv; by symmetry|].
  intros a b c. unfold equiv, opt_equiv. by etransitivity.
Qed.

#[global] Instance cons_proper : Proper ((≡) ==> (≡) ==> (≡)) (@cons Expr).
Proof.
  intros e e' He l l' Hl s r. rewrite !exec_cons_inv. setoid_rewrite (He _ _).
  by setoid_rewrite (Hl _ _).
Qed.
#[global] Instance app_proper : Proper ((≡) ==> (≡) ==> (≡)) (@app Expr).
Proof.
  intros a a' Ha b b' Hb s r. rewrite !exec_app. setoid_rewrite (Ha _ _).
  by setoid_rewrite (Hb _ _).
Qed.
#[global] Instance Some_proper : Proper ((≡) ==> (≡)) (@Some (list Expr)).
Proof. intros a b Hab. exact Hab. Qed.

Lemma if_equiv t t' el el' sp sp' : t ≡ t' → el ≡ el' → If t el sp ≡ If t' el' sp'.
Proof.
  intros Ht He s r. rewrite !exec1_if.
  split; intros (v & st & rs & -> & Hx); exists v, st, rs; (split; [done|]);
    destruct (truthy v); by first [apply Ht|apply He].
Qed.

(** A loop's runs are those of its body: one direction, for each loop. *)
Lemma until_mono b b' sp sp' s r :
  (∀ s r, exec b s r → exec b' s r) → exec1 (BeginUntil b sp) s r → exec1 (BeginUntil b' sp') s r.
Proof.
  intros Hb Hx. remember (BeginUntil b sp) as e eqn:He.
  induction Hx; simplify_eq/=; try done; eauto using exec1.
Qed.
Lemma while_mono p p' b b' sp sp' s r :
  (∀ s r, exec p s r → exec p' s r) → (∀ s r, exec b s r → exec b' s r) →
  exec1 (BeginWhileRepeat p b sp) s r → exec1 (BeginWhileRepeat p' b' sp') s r.
Proof.
  intros Hp Hb Hx. remember (BeginWhileRepeat p b sp) as e eqn:He.
  induction Hx; simplify_eq/=; try done; eauto using exec1.
Qed.
Lemma again_mono b b' sp sp' s r :
  (∀ s r, exec b s r → exec b' s r) → exec1 (BeginAgain b sp) s r → exec1 (BeginAgain b' sp') s r.
Proof.
  intros Hb Hx. remember (BeginAgain b sp) as e eqn:He.
  induction Hx; simplify_eq/=; try done; eauto using exec1.
Qed.
Lemma do_mono b b' k s r :
  (∀ s r, exec b s r → exec b' s r) → exec_do b k s r → exec_do b' k s r.
Proof. intros Hb Hx. induction Hx; eauto using exec_do. Qed.

Lemma until_equiv b b' sp sp' : b ≡ b' → BeginUntil b sp ≡ BeginUntil b' sp'.
Proof. intros Hb s r. split; apply until_mono; intros; by apply Hb. Qed.
Lemma while_equiv p p' b b' sp sp' :
  p ≡ p' → b ≡ b' → BeginWhileRepeat p b sp ≡ BeginWhileRepeat p' b' sp'.
Proof. intros Hp Hb s r. split; apply while_mono; intros; first [by apply Hp|by apply Hb]. Qed.
Lemma again_equiv b b' sp sp' : b ≡ b' → BeginAgain b sp ≡ BeginAgain b' sp'.
Proof. intros Hb s r. split; apply again_mono; intros; by apply Hb. Qed.
Lemma do_equiv q b b' k sp sp' : b ≡ b' → DoLoop q b k sp ≡ DoLoop q b' k sp'.
Proof.
  intros Hb s r. split; inversion 1; simplify_eq/=; try done; eauto using exec1;
    (eapply x_do; [done|]); eapply do_mono; [|done| |done]; intros; by apply Hb.
Qed.

Lemma arms_mono arms arms' d d' s r :
  Forall2 (≡) arms arms' → d ≡ d' → exec_arms arms d s r → exec_arms arms' d' s r.
Proof.
  intros Ha Hd Hx. revert arms' Ha. induction Hx; intros arms' Ha;
    inversion Ha as [|? [m' b' sp'] ? ? [Hm Hb]]; simplify_eq/=.
  - eapply a_default. by apply Hd.
  - eapply a_default_exit. by apply Hd.
  - eapply a_hit; [by apply Hm|done|by apply Hb].
  - eapply a_miss; [by apply Hm|done|eauto].
  - eapply a_match_exit. by apply Hm.
Qed.
Lemma arm_equiv_sym a b : a ≡@{CaseArm} b → b ≡ a.
Proof. intros [H1 H2]. by split. Qed.
Lemma case_equiv arms arms' d d' sp sp' :
  Forall2 (≡) arms arms' → d ≡ d' → Case arms d sp ≡ Case arms' d' sp'.
Proof.
  intros Ha Hd s r. split; inversion 1; simplify_eq/=; try done; constructor;
    (eapply arms_mono; [| |done]); try done.
  apply Forall2_flip. eapply Forall2_impl; [done|]. intros. by apply arm_equiv_sym.
Qed.
End Exec.

(** Induction over runs, all four relations at once. *)
Scheme exec_rules := Minimality for exec Sort Prop
with exec1_rules := Minimality for exec1 Sort Prop
with exec_do_rules := Minimality for exec_do Sort Prop
with exec_arms_rules := Minimality for exec_arms Sort Prop.
Combined Scheme exec_induction from exec_rules, exec1_rules, exec_do_rules, exec_arms_rules.

(** ** A machine

    Integers, addition and counted loops: the machine of the concrete
    examples.  [do_enter] takes limit and start, [do_next] the step of
    [+LOOP]. *)
Definition z_prim (e : Expr) (s s' : list Z * list (Z * Z)) : Prop :=
  match e, s with
  | Lit (LitInt v _), (st, rs) => s' = (v :: st, rs)
  | WordRef "+" _, (a :: b :: st, rs) => s' = (a + b :: st, rs)
  | WordRef "i" _, (st, (i, l) :: rs) => s' = (i :: st, (i, l) :: rs)
  | _, _ => False
  end.

Definition z_enter (is_qdo : bool) (s : list Z * list (Z * Z))
  : option (bool * (list Z * list (Z * Z))) :=
  match s with
  | (start :: limit :: st, rs) =>
      if is_qdo && (start =? limit) then Some (false, (st, rs))
      else Some (true, (st, (start, limit) :: rs))
  | _ => None
  end.

Definition z_next (k : LoopKind) (s : list Z * list (Z * Z))
  : option (bool * (list Z * list (Z * Z))) :=
  let turn step st i limit rs :=
    if i + step <? limit then Some (true, (st, (i + step, limit) :: rs)) else Some (false, (st, rs)) in
  match k, s with
  | Plus1, (st, (i, limit) :: rs) => turn 1 st i limit rs
  | PlusN, (n :: st, (i, limit) :: rs) => turn n st i limit rs
  | _, _ => None
  end.

Definition ZMachine : Machine := {|
  V := Z; R := list (Z * Z); truthy := λ v, negb (v =? 0); same := Z.eqb;
  prim := z_prim; do_enter := z_enter; do_next := z_next |}.

(** References by name, and no [EXIT]. *)
Definition no_exit_word (_ : string) (_ : Span) : bool := false.
Definition exit_by_name (n : string) (_ : Span) : bool := eq_nocase n "exit".
Definition span_at_byte (n : Z) : Span := mkSpan (mkPos 1 (n + 1) n) (mkPos 1 (n + 2) (n + 1)).
