(* ===== verification/LowerQdup.v ===== *)
(** * [?DUP IF] ([src/compiler/lower_qdup.rs])

    The pass that turns [?DUP IF t ELSE e THEN] into
    [DUP IF t ELSE DROP e THEN].  Each rewrite takes two spans from a global
    counter that counts down from [0xFFFF_0000]; the counter is the state
    threaded through.  The source's two mutually recursive functions are
    [lower_seq_with], abstracted over the other, and [rewrite_nested]; the
    equations of [lower_seq] below are the source's loop body. *)
From S2P Require Import Prelude Bytes F64 Lex LetLang Ast Semantics.

Definition synth_start : Z := 4294901760.

(** [fetch_sub(1)] on an [AtomicU32], then the span with that offset. *)
Definition synth_span (orig : Span) (n : Z) : Span * Z :=
  (mkSpan (mkPos (p_line (sp_start orig)) (p_col (sp_start orig)) n)
          (mkPos (p_line (sp_end orig)) (p_col (sp_end orig)) n),
   u32_wrap (n - 1)).

Definition is_qdup_word (e : Expr) : bool :=
  match e with WordRef name _ => eq_nocase name "?dup" | _ => false end.

(** The two nodes built for [?dup IF] once the [IF]'s branches are lowered. *)
Definition qdup_nodes (dup_span drop_span : Span) (e : Expr) : list Expr :=
  match e with
  | If then_l else_l if_span =>
      [WordRef "dup" dup_span;
       If then_l (Some (WordRef "drop" drop_span :: default [] else_l)) if_span]
  | _ => [e]
  end.

Section LowerSeq.
Context (nested : Expr → Z → Expr * Z).

Fixpoint lower_seq_with (seq : list Expr) (n : Z) : list Expr * Z :=
  match seq with
  | [] => ([], n)
  | e :: rest =>
      if is_qdup_word e then
        match rest with
        | (If _ _ _ as i) :: rest' =>
            let '(dup_span, n1) := synth_span (expr_span e) n in
            let '(drop_span, n2) := synth_span (expr_span e) n1 in
            let '(i', n3) := nested i n2 in
            let '(out, n4) := lower_seq_with rest' n3 in
            (qdup_nodes dup_span drop_span i' ++ out, n4)
        | _ => let '(out, n1) := lower_seq_with rest n in (e :: out, n1)
        end
      else
        let '(e', n1) := nested e n in
        let '(out, n2) := lower_seq_with rest n1 in
        (e' :: out, n2)
  end.
End LowerSeq.

Fixpoint rewrite_nested (e : Expr) (n : Z) : Expr * Z :=
  match e with
  | If t el sp =>
      let '(t', n1) := lower_seq_with rewrite_nested t n in
      let '(el', n2) := opt_state (lower_seq_with rewrite_nested) el n1 in
      (If t' el' sp, n2)
  | BeginUntil b sp =>
      let '(b', n1) := lower_seq_with rewrite_nested b n in (BeginUntil b' sp, n1)
  | BeginAgain b sp =>
      let '(b', n1) := lower_seq_with rewrite_nested b n in (BeginAgain b' sp, n1)
  | BeginWhileRepeat p b sp =>
      let '(p', n1) := lower_seq_with rewrite_nested p n in
      let '(b', n2) := lower_seq_with rewrite_nested b n1 in
      (BeginWhileRepeat p' b' sp, n2)
  | DoLoop q b k sp =>
      let '(b', n1) := lower_seq_with rewrite_nested b n in (DoLoop q b' k sp, n1)
  | Case arms d sp =>
      let '(arms', n1) := map_state rewrite_arm arms n in
      let '(d', n2) := opt_state (lower_seq_with rewrite_nested) d n1 in
      (Case arms' d' sp, n2)
  | _ => (e, n)
  end
with rewrite_arm (a : CaseArm) (n : Z) : CaseArm * Z :=
  match a with
  | mkArm m b sp =>
      let '(m', n1) := lower_seq_with rewrite_nested m n in
      let '(b', n2) := lower_seq_with rewrite_nested b n1 in
      (mkArm m' b' sp, n2)
  end.

Definition lower_seq : list Expr → Z → list Expr * Z := lower_seq_with rewrite_nested.

(** One item, then the program. *)
Definition lower_item (i : Item) (n : Z) : Item * Z :=
  match i with
  | IDefinition (mkDefinition nm ns eff ls body sp) =>
      let '(body', n1) := lower_seq body n in (IDefinition (mkDefinition nm ns eff ls body' sp), n1)
  | ITopLevel exprs sp =>
      let '(exprs', n1) := lower_seq exprs n in (ITopLevel exprs' sp, n1)
  | IConstant (mkConstant nm ns (Computed exprs) sp fl) =>
      let '(exprs', n1) := lower_seq exprs n in
      (IConstant (mkConstant nm ns (Computed exprs') sp fl), n1)
  | ITemplate (mkTemplate nm ns eff ctor does sp) =>
      let '(ctor', n1) := lower_seq ctor n in
      let '(does', n2) := lower_seq does n1 in
      (ITemplate (mkTemplate nm ns eff ctor' does' sp), n2)
  | IValue (mkValue nm ns init sp) =>
      let '(init', n1) := lower_seq init n in (IValue (mkValue nm ns init' sp), n1)
  | IMethod (mkMethod g gs specs eff ls body sp k) =>
      let '(body', n1) := lower_seq body n in (IMethod (mkMethod g gs specs eff ls body' sp k), n1)
  | ITemplateInstance (mkTemplateInstance nm ns t bytes does sp) =>
      let '(does', n1) := lower_seq does n in
      (ITemplateInstance (mkTemplateInstance nm ns t bytes does' sp), n1)
  | _ => (i, n)
  end.

Definition lower_program (p : Program) (n : Z) : Program * Z :=
  let '(items, n1) := map_state lower_item (p_items p) n in (mkProgram items, n1).

(** ** The loop body of the source *)

Lemma lower_seq_qdup q sp t el if_sp rest n :
  is_qdup_word (WordRef q sp) = true →
  lower_seq (WordRef q sp :: If t el if_sp :: rest) n =
    let '(dup_span, n1) := synth_span sp n in
    let '(drop_span, n2) := synth_span sp n1 in
    let '(then_l, n3) := lower_seq t n2 in
    let '(else_l, n4) := opt_state lower_seq el n3 in
    let '(out, n5) := lower_seq rest n4 in
    (WordRef "dup" dup_span ::
     If then_l (Some (WordRef "drop" drop_span :: default [] else_l)) if_sp :: out, n5).
Proof.
  intros Hq. unfold lower_seq. cbn [lower_seq_with rewrite_nested expr_span].
  rewrite Hq. cbn [synth_span]. unfold synth_span. 
  destruct (lower_seq_with rewrite_nested t _) as [t' n3].
  destruct (opt_state _ el n3) as [el' n4].
  by destruct (lower_seq_with rewrite_nested rest n4) as [out n5].
Qed.

Lemma rewrite_if t el sp n : ∃ t' el', fst (rewrite_nested (If t el sp) n) = If t' el' sp.
Proof.
  cbn [rewrite_nested]. destruct (lower_seq_with _ t n) as [t' n1].
  destruct (opt_state _ el n1) as [el' n2]. by eexists _, _.
Qed.

(** ** Meaning *)

Section Correct.
#[local] Set Default Proof Using "All".
Context `{Machine} (exit_word : string → Span → bool).
(** [EXIT] is not one of the words the pass rewrites. *)
Context (Hdup : ∀ sp, exit_word "dup" sp = false) (Hdrop : ∀ sp, exit_word "drop" sp = false).
Context (Hqdup : ∀ n sp, is_qdup_word (WordRef n sp) = true → exit_word n sp = false).
#[local] Instance seq_eq : Equiv (list Expr) := seq_equiv exit_word.
#[local] Instance expr_eq : Equiv Expr := expr_equiv exit_word.
#[local] Instance opt_eq : Equiv (option (list Expr)) := opt_equiv exit_word.
#[local] Instance arm_eq : Equiv CaseArm := arm_equiv exit_word.

(** The rewriting step: both sides take [x], and run [t] with it or [e]
    without it. *)
Lemma qdup_step n sp d1 d2 t el if_sp if_sp' :
  is_qdup_word (WordRef n sp) = true →
  [WordRef n sp; If t el if_sp] ≡
  [WordRef "dup" d1; If t (Some (WordRef "drop" d2 :: default [] el)) if_sp'].
Proof.
  intros Hq [st rs] r.
  rewrite !exec_word_cons by auto. setoid_rewrite exec_single. setoid_rewrite exec1_if.
  assert (∀ s', leaf (WordRef n sp) (st, rs) s' ↔
            ∃ v st', st = v :: st' ∧ s' = if truthy v then (v :: v :: st', rs) else (st, rs)) as Hleaf.
  { intros s'. cbn [is_qdup_word leaf fst snd] in *.
    assert (eq_nocase n "dup" = false ∧ eq_nocase n "drop" = false) as [-> ->].
    { unfold eq_nocase in *. rewrite bool_decide_eq_true in Hq.
      split; apply bool_decide_eq_false; by rewrite Hq. }
    rewrite Hq. destruct st; naive_solver. }
  setoid_rewrite Hleaf. cbn [leaf fst snd from_option id].
  change (eq_nocase "dup" "dup") with true. cbv iota.
  destruct st as [|v st]; [naive_solver|]. split.
  - intros (s' & (v' & st' & [= <- <-] & ->) & (v2 & st2 & rs2 & Hs & Hx)).
    exists (v :: v :: st, rs). split; [done|]. exists v, (v :: st), rs. split; [done|].
    destruct (truthy v) eqn:Hv; simplify_eq; rewrite Hv in Hx; [done|].
    rewrite exec_word_cons by auto. by exists (st2, rs2).
  - intros (s' & -> & (v2 & st2 & rs2 & [= <- <- <-] & Hx)).
    exists (if truthy v then (v :: v :: st, rs) else (v :: st, rs)). split; [by exists v, st|].
    destruct (truthy v) eqn:Hv.
    + exists v, (v :: st), rs. by rewrite Hv.
    + exists v, st, rs. rewrite Hv. split; [done|].
      rewrite exec_word_cons in Hx by auto. destruct Hx as (s2 & Hl & Hx). change (s2 = (st, rs)) in Hl. by subst.
Qed.

Definition nested_ok (e : Expr) : Prop := ∀ n, fst (rewrite_nested e n) ≡ e.

Lemma lower_seq_equiv seq : Forall nested_ok seq → ∀ n, fst (lower_seq seq n) ≡ seq.
Proof.
  intros Hok. remember (length seq) as k eqn:Hk. revert seq Hk Hok.
  induction (lt_wf k) as [k _ IH]; intros seq -> Hok n. unfold lower_seq.
  destruct Hok as [|e rest He Hok]; [done|]. cbn [lower_seq_with].
  assert (∀ n, fst (lower_seq_with rewrite_nested rest n) ≡ rest) as Hrest.
  { intros n'. eapply IH; [|done..]. simpl. lia. }
  destruct (is_qdup_word e) eqn:Hq.
  2:{ specialize (He n). destruct (rewrite_nested e n) as [e' n1]. specialize (Hrest n1).
      destruct (lower_seq_with rewrite_nested rest n1) as [out n2]. cbn [fst] in *.
      by rewrite He, Hrest. }
  assert (let '(out, n1) := lower_seq_with rewrite_nested rest n in fst (e :: out, n1) ≡ e :: rest)
    as Hplain.
  { specialize (Hrest n). destruct (lower_seq_with rewrite_nested rest n). simpl in *. by rewrite Hrest. }
  destruct rest as [|i rest]; [done|].
  destruct i; try (destruct (lower_seq_with _ (_ :: rest) n); exact Hplain).
  clear Hplain. unfold synth_span. set (n2 := u32_wrap (u32_wrap (n - 1) - 1)).
  inversion Hok as [|? ? Hi Hok']; subst. specialize (Hi n2).
  destruct (rewrite_if then_body else_body span n2) as (t' & el' & Hif).
  destruct (rewrite_nested _ n2) as [i' n3]. cbn [fst] in Hif, Hi. subst i'.
  assert (fst (lower_seq_with rewrite_nested rest n3) ≡ rest) as Hrest'.
  { eapply (IH (length rest)); [simpl; lia|done..]. }
  destruct (lower_seq_with rewrite_nested rest n3) as [out n4]. cbn [fst qdup_nodes app] in *.
  destruct e as [|nm sp| | | | | | | | | | |]; try done.
  change (WordRef nm sp :: If then_body else_body span :: rest)
    with ([WordRef nm sp; If then_body else_body span] ++ rest).
  rewrite <- Hi, <- Hrest'.
  apply (app_proper exit_word [_; _] [_; _]); [|done]. symmetry. by apply qdup_step.
Qed.

Lemma opt_state_equiv el n :
  (∀ b, el = Some b → Forall nested_ok b) →
  fst (opt_state (lower_seq_with rewrite_nested) el n) ≡ el.
Proof.
  intros Hel. destruct el as [b|]; [|done]. cbn [opt_state].
  pose proof (lower_seq_equiv b (Hel b eq_refl) n) as Hb. unfold lower_seq in Hb.
  destruct (lower_seq_with rewrite_nested b n). exact Hb.
Qed.

Lemma rewrite_arms_equiv arms n :
  Forall (λ a, Forall nested_ok (arm_match a) ∧ Forall nested_ok (arm_body a)) arms →
  Forall2 (≡) (fst (map_state rewrite_arm arms n)) arms.
Proof.
  intros Hok. revert n. induction Hok as [|[m b sp] arms [Hm Hb] _ IH]; intros n; [constructor|].
  cbn [map_state rewrite_arm arm_match arm_body] in *.
  pose proof (lower_seq_equiv m Hm n) as Hm'. unfold lower_seq in *.
  destruct (lower_seq_with rewrite_nested m n) as [m' n1].
  pose proof (lower_seq_equiv b Hb n1) as Hb'. unfold lower_seq in *.
  destruct (lower_seq_with rewrite_nested b n1) as [b' n2]. specialize (IH n2).
  destruct (map_state rewrite_arm arms n2). cbn [fst] in *. constructor; [by split|done].
Qed.

Lemma rewrite_nested_equiv e : nested_ok e.
Proof.
  induction e using Expr_nested_ind; intros c; try done; cbn [rewrite_nested].
  all: repeat match goal with
    | Hb : Forall _ ?b |- context [lower_seq_with rewrite_nested ?b ?m] =>
        pose proof (lower_seq_equiv b Hb m); unfold lower_seq in *;
        destruct (lower_seq_with rewrite_nested b m)
    end; cbn [fst] in *.
  - match goal with |- context [opt_state _ ?el ?m] =>
      pose proof (opt_state_equiv el m ltac:(eassumption)); destruct (opt_state _ el m) end.
    by apply if_equiv.
  - by apply until_equiv.
  - by apply while_equiv.
  - by apply again_equiv.
  - by apply do_equiv.
  - pose proof (rewrite_arms_equiv arms c ltac:(eassumption)).
    destruct (map_state rewrite_arm arms c) as [arms' n1].
    pose proof (opt_state_equiv d n1 ltac:(eassumption)).
    destruct (opt_state _ d n1). by apply case_equiv.
Qed.

Lemma lower_seq_correct seq n : fst (lower_seq seq n) ≡ seq.
Proof. apply lower_seq_equiv. apply Forall_forall. intros e _. apply rewrite_nested_equiv. Qed.
End Correct.

(** ** Fresh spans *)

(** [n, n-1, ..., n'+1]. *)
Definition countdown (n n' : Z) : list Z := (λ i, n - i) <$> seqZ 0 (n - n').

(** [out] holds spans of [src] and spans with the offsets from [n] down to
    [n' + 1], one each. *)
Definition fresh_post (src out : list Pos) (n n' : Z) : Prop :=
  n' ≤ n ∧ ∃ kept synth,
    out ≡ₚ kept ++ synth ∧ kept ⊆+ src ∧ p_byte_offset <$> synth ≡ₚ countdown n n'.

Lemma countdown_app n n1 n2 : n1 ≤ n → n2 ≤ n1 → countdown n n2 = countdown n n1 ++ countdown n1 n2.
Proof.
  intros. unfold countdown. replace (n - n2) with ((n - n1) + (n1 - n2)) by lia.
  rewrite seqZ_app by lia. rewrite fmap_app. f_equal.
  replace (0 + (n - n1)) with ((n - n1) + 0) by lia. rewrite <- fmap_add_seqZ.
  rewrite <- list_fmap_compose. apply list_fmap_ext. intros ? ? _. simpl. lia.
Qed.

Lemma fresh_keep l n : fresh_post l l n n.
Proof.
  split; [lia|]. exists l, []. rewrite app_nil_r. repeat split; try done.
  unfold countdown. by rewrite Z.sub_diag.
Qed.

Lemma fresh_app a a' b b' n n1 n2 :
  fresh_post a a' n n1 → fresh_post b b' n1 n2 → fresh_post (a ++ b) (a' ++ b') n n2.
Proof.
  intros (H1 & k1 & s1 & Ha & Hk1 & Ho1) (H2 & k2 & s2 & Hb & Hk2 & Ho2). split; [lia|].
  exists (k1 ++ k2), (s1 ++ s2). split; [|split].
  - rewrite Ha, Hb. solve_Permutation.
  - by apply submseteq_app.
  - by rewrite fmap_app, Ho1, Ho2, (countdown_app n n1 n2).
Qed.

Lemma fresh_perm a a' b b' n n' :
  a ≡ₚ b → a' ≡ₚ b' → fresh_post a a' n n' → fresh_post b b' n n'.
Proof.
  intros Ha Hb (H1 & k & s & Hp & Hk & Ho). split; [done|]. exists k, s.
  by rewrite <- Ha, <- Hb.
Qed.

Lemma fresh_qdup q d1 d2 n :
  p_byte_offset d1 = n → p_byte_offset d2 = n - 1 → fresh_post [q] [d1; d2] n (n - 2).
Proof.
  intros H1 H2. split; [lia|]. exists [], [d1; d2]. split; [done|]. split; [apply submseteq_nil_l|].
  unfold countdown. replace (n - (n - 2)) with 2 by lia.
  change (seqZ 0 2) with [0; 1]. cbn [fmap list_fmap]. by rewrite H1, H2, Z.sub_0_r.
Qed.

(** What [lower_seq] and [rewrite_nested] do to the counter and the spans of
    a tree of size [k]: two offsets at most per node. *)
Definition fresh_at (src : list Pos) (k : nat) (n : Z) (r : list Pos * Z) : Prop :=
  n - 2 * Z.of_nat k ≤ snd r ∧ fresh_post src (fst r) n (snd r).

Definition nested_fresh (e : Expr) : Prop :=
  ∀ n, 2 * Z.of_nat (expr_size e) ≤ n < 2 ^ 32 →
  let '(e', n') := rewrite_nested e n in
  fresh_at (gather ref_start e) (expr_size e) n (gather ref_start e', n').

Definition seq_fresh (seq : list Expr) : Prop :=
  ∀ n, 2 * Z.of_nat (seq_size seq) ≤ n < 2 ^ 32 →
  let '(seq', n') := lower_seq seq n in
  fresh_at (ref_starts seq) (seq_size seq) n (ref_starts seq', n').

Lemma fresh_at_app a a' b b' k1 k2 k n n1 n2 :
  fresh_at a k1 n (a', n1) → fresh_at b k2 n1 (b', n2) → (k1 + k2 ≤ k)%nat →
  fresh_at (a ++ b) k n (a' ++ b', n2).
Proof.
  intros [H1 Hp1] [H2 Hp2] Hk. cbn [fst snd] in *. split; cbn [fst snd]; [lia|].
  by eapply fresh_app.
Qed.

Lemma fresh_at_weaken l k k' n r : fresh_at l k n r → (k ≤ k')%nat → fresh_at l k' n r.
Proof. intros [? ?] ?. split; [lia|done]. Qed.

Lemma fresh_at_le l l' k n n' : fresh_at l k n (l', n') → n - 2 * Z.of_nat k ≤ n' ≤ n.
Proof. intros [? [? _]]. simpl in *. lia. Qed.

Lemma ref_starts_cons e l : ref_starts (e :: l) = gather ref_start e ++ ref_starts l.
Proof. done. Qed.

Lemma lower_seq_fresh seq : Forall nested_fresh seq → seq_fresh seq.
Proof.
  intros Hok. remember (length seq) as k eqn:Hk. revert seq Hk Hok.
  induction (lt_wf k) as [k _ IH]; intros seq -> Hok n Hn. unfold lower_seq.
  destruct Hok as [|e rest He Hok]; [split; [simpl; lia|apply fresh_keep]|].
  rewrite seq_size_cons in *. pose proof (expr_size_pos e) as Hpos.
  assert (seq_fresh rest) as Hrest by (eapply IH; [|done..]; simpl; lia).
  rewrite ref_starts_cons. cbn [lower_seq_with].
  destruct (is_qdup_word e) eqn:Hq.
  2:{ specialize (He n ltac:(lia)). destruct (rewrite_nested e n) as [e' n1].
      pose proof (fresh_at_le _ _ _ _ _ He). specialize (Hrest n1 ltac:(lia)).
      unfold lower_seq in Hrest. destruct (lower_seq_with rewrite_nested rest n1) as [out n2].
      rewrite ref_starts_cons. by eapply fresh_at_app. }
  assert (let '(out, n1) := lower_seq_with rewrite_nested rest n in
          fresh_at (gather ref_start e ++ ref_starts rest) (expr_size e + seq_size rest) n
            (gather ref_start e ++ ref_starts out, n1)) as Hplain.
  { specialize (Hrest n ltac:(lia)). unfold lower_seq in Hrest.
    destruct (lower_seq_with rewrite_nested rest n) as [out n1].
    eapply (fresh_at_app _ _ _ _ 0 _ _ n n); [|exact Hrest|lia]. split; [simpl; lia|apply fresh_keep]. }
  destruct rest as [|i rest]; [done|].
  destruct i; try (destruct (lower_seq_with _ (_ :: rest) n); exact Hplain).
  clear Hplain. unfold synth_span. rewrite seq_size_cons in *.
  pose proof (expr_size_pos (If then_body else_body span)).
  rewrite (u32_wrap_small (n - 1)), (u32_wrap_small (n - 1 - 1)) by (unfold is_u32; lia).
  replace (n - 1 - 1) with (n - 2) by lia.
  inversion Hok as [|? ? Hi Hok']; subst. specialize (Hi (n - 2) ltac:(lia)).
  destruct (rewrite_if then_body else_body span (n - 2)) as (t' & el' & Hif).
  destruct (rewrite_nested _ (n - 2)) as [i' n3]. cbn [fst] in Hif. subst i'.
  pose proof (fresh_at_le _ _ _ _ _ Hi).
  assert (seq_fresh rest) as Hrest' by (eapply (IH (length rest)); [simpl; lia|done..]).
  specialize (Hrest' n3 ltac:(lia)). unfold lower_seq in Hrest'.
  destruct (lower_seq_with rewrite_nested rest n3) as [out n4].
  destruct e as [|nm sp| | | | | | | | | | |]; try done.
  set (d1 := mkSpan _ _). set (d2 := mkSpan _ _).
  assert (fresh_at [sp_start sp] 1 n ([sp_start d1; sp_start d2], n - 2)) as Hd by (split; [simpl; lia|by apply fresh_qdup]).
  pose proof (fresh_at_app _ _ _ _ _ _ _ _ _ _ Hd (fresh_at_app _ _ _ _ _ _ _ _ _ _ Hi Hrest' (le_n _))
                (le_n _)) as [Hlow Hpost]. cbn [fst snd] in *.
  split; cbn [fst snd]; [simpl in *; lia|].
  eapply fresh_perm; [| |exact Hpost]; [done|].
  cbn [qdup_nodes app]. rewrite !ref_starts_cons. cbn [gather ref_start app opt_flat].
  destruct el' as [el'|]; cbn [opt_flat from_option id]; cbn [flat_with gather ref_start app];
    rewrite <- ?app_assoc; solve_Permutation.
Qed.

Lemma opt_fresh el n :
  (∀ b, el = Some b → Forall nested_fresh b) →
  2 * Z.of_nat (opt_sum seq_size el) ≤ n < 2 ^ 32 →
  let '(el', n') := opt_state lower_seq el n in
  fresh_at (opt_flat ref_starts el) (opt_sum seq_size el) n (opt_flat ref_starts el', n').
Proof.
  intros Hel Hn. destruct el as [b|]; cbn in *; [|split; [simpl; lia|apply fresh_keep]].
  pose proof (lower_seq_fresh b (Hel b eq_refl) n Hn) as Hb. by destruct (lower_seq b n).
Qed.

Lemma arms_fresh arms n :
  Forall (λ a, Forall nested_fresh (arm_match a) ∧ Forall nested_fresh (arm_body a)) arms →
  2 * Z.of_nat (sum_with arm_size arms) ≤ n < 2 ^ 32 →
  let '(arms', n') := map_state rewrite_arm arms n in
  fresh_at (flat_with (gather_arm ref_start) arms) (sum_with arm_size arms) n
           (flat_with (gather_arm ref_start) arms', n').
Proof.
  intros Hok. revert n. induction Hok as [|[m b sp] arms [Hm Hb] _ IH]; intros n Hn;
    [split; [simpl; lia|apply fresh_keep]|].
  cbn [map_state rewrite_arm arm_match arm_body sum_with arm_size flat_with gather_arm] in *.
  change (sum_with expr_size) with seq_size in *.
  pose proof (lower_seq_fresh m Hm n ltac:(lia)) as Hm'. unfold lower_seq in Hm'.
  destruct (lower_seq_with rewrite_nested m n) as [m' n1].
  pose proof (fresh_at_le _ _ _ _ _ Hm').
  pose proof (lower_seq_fresh b Hb n1 ltac:(lia)) as Hb'. unfold lower_seq in Hb'.
  destruct (lower_seq_with rewrite_nested b n1) as [b' n2].
  pose proof (fresh_at_le _ _ _ _ _ Hb'). specialize (IH n2 ltac:(lia)).
  destruct (map_state rewrite_arm arms n2) as [arms' n3]. cbn [flat_with gather_arm].
  eapply fresh_at_app; [eapply fresh_at_app; [exact Hm'|exact Hb'|done]|exact IH|lia].
Qed.

Lemma rewrite_nested_fresh e : nested_fresh e.
Proof.
  induction e using Expr_nested_ind; intros c Hc;
    try (split; [simpl; lia|apply fresh_keep]);
    cbn [rewrite_nested expr_size] in *; change (sum_with expr_size) with seq_size in *.
  all: repeat match goal with
    | Hb : Forall _ ?b |- context [lower_seq_with rewrite_nested ?b ?m] =>
        let Hf := fresh "Hf" in
        pose proof (lower_seq_fresh b Hb m ltac:(lia)) as Hf; unfold lower_seq in Hf;
        destruct (lower_seq_with rewrite_nested b m);
        pose proof (fresh_at_le _ _ _ _ _ Hf)
    end.
  - match goal with |- context [opt_state _ ?el ?m] =>
      pose proof (opt_fresh el m ltac:(eassumption) ltac:(lia)) as Ho; unfold lower_seq in Ho;
      destruct (opt_state _ el m) end.
    cbn [gather ref_start app]. eapply fresh_at_app; [exact Hf|exact Ho|lia].
  - eapply fresh_at_weaken; [exact Hf|lia].
  - cbn [gather ref_start app]. eapply fresh_at_app; [exact Hf|exact Hf0|lia].
  - eapply fresh_at_weaken; [exact Hf|lia].
  - eapply fresh_at_weaken; [exact Hf|lia].
  - pose proof (arms_fresh arms c ltac:(eassumption) ltac:(lia)) as Ha.
    destruct (map_state rewrite_arm arms c) as [arms' n1].
    pose proof (fresh_at_le _ _ _ _ _ Ha).
    pose proof (opt_fresh d n1 ltac:(eassumption) ltac:(lia)) as Ho. unfold lower_seq in Ho.
    destruct (opt_state _ d n1). cbn [gather ref_start app]. eapply fresh_at_app; [exact Ha|exact Ho|lia].
Qed.

Lemma lower_seq_spans seq : seq_fresh seq.
Proof. apply lower_seq_fresh, Forall_forall. intros e _. apply rewrite_nested_fresh. Qed.

(** ** Nothing left to rewrite *)

Definition is_if (e : Expr) : bool := match e with If _ _ _ => true | _ => false end.
Definition head_if (l : list Expr) : bool := match l with e :: _ => is_if e | [] => false end.

(** No [?dup] stands immediately before an [IF] in the sequence. *)
Fixpoint pair_free (l : list Expr) : bool :=
  match l with
  | [] => true
  | e :: rest => negb (is_qdup_word e && head_if rest) && pair_free rest
  end.

Definition all_in {A} (f : A → bool) : list A → bool :=
  fix go l := match l with [] => true | x :: l' => f x && go l' end.
Definition opt_all {A} (f : A → bool) (o : option A) : bool :=
  match o with Some x => f x | None => true end.

(** Nor in any sequence nested in it. *)
Fixpoint nested_free (e : Expr) : bool :=
  let seq l := pair_free l && all_in nested_free l in
  match e with
  | If t el _ => seq t && opt_all seq el
  | BeginUntil b _ | BeginAgain b _ | DoLoop _ b _ _ => seq b
  | BeginWhileRepeat p b _ => seq p && seq b
  | Case arms d _ => all_in nested_free_arm arms && opt_all seq d
  | _ => true
  end
with nested_free_arm (a : CaseArm) : bool :=
  let seq l := pair_free l && all_in nested_free l in
  match a with mkArm m b _ => seq m && seq b end.
Definition qdup_if_free (l : list Expr) : bool := pair_free l && all_in nested_free l.

Definition nested_done (e : Expr) : Prop := ∀ n, nested_free (fst (rewrite_nested e n)) = true.

Lemma is_if_rewrite e n : is_if (fst (rewrite_nested e n)) = is_if e.
Proof. destruct e; cbn [rewrite_nested]; repeat case_match; done. Qed.

Lemma head_if_lower l n : head_if (fst (lower_seq l n)) = true → head_if l = true.
Proof.
  destruct l as [|e rest]; [done|]. unfold lower_seq. cbn [lower_seq_with head_if].
  destruct (is_qdup_word e) eqn:Hq.
  - destruct e as [|nm sp| | | | | | | | | | |]; try done.
    destruct rest as [|[] rest]; intros H; try (by repeat case_match; simplify_eq/=).
    revert H. cbn. by repeat case_match; simplify_eq/=.
  - pose proof (is_if_rewrite e n) as Hi. destruct (rewrite_nested e n).
    destruct (lower_seq_with _ rest z). simpl in *. by rewrite Hi.
Qed.

Lemma is_qdup_rewrite e n : is_qdup_word (fst (rewrite_nested e n)) = is_qdup_word e.
Proof. destruct e; cbn [rewrite_nested]; repeat case_match; done. Qed.

Lemma lower_seq_done seq : Forall nested_done seq → ∀ n, qdup_if_free (fst (lower_seq seq n)) = true.
Proof.
  intros Hok. remember (length seq) as k eqn:Hk. revert seq Hk Hok.
  induction (lt_wf k) as [k _ IH]; intros seq -> Hok n. unfold lower_seq.
  destruct Hok as [|e rest He Hok]; [done|]. cbn [lower_seq_with].
  assert (∀ n, qdup_if_free (fst (lower_seq rest n)) = true) as Hrest.
  { intros n'. eapply IH; [|done..]. simpl. lia. }
  destruct (is_qdup_word e) eqn:Hq.
  2:{ specialize (He n). pose proof (is_qdup_rewrite e n) as Hq'. rewrite Hq in Hq'.
      destruct (rewrite_nested e n) as [e' n1]. specialize (Hrest n1). unfold lower_seq in Hrest.
      destruct (lower_seq_with rewrite_nested rest n1) as [out n2]. cbn [fst] in *.
      unfold qdup_if_free in *. cbn [pair_free all_in]. rewrite He, Hq'. exact Hrest. }
  assert (head_if rest = false →
          let '(out, n1) := lower_seq_with rewrite_nested rest n in qdup_if_free (e :: out) = true) as Hplain.
  { intros Hh. specialize (Hrest n). pose proof (head_if_lower rest n) as Hhd. unfold lower_seq in *.
    destruct (lower_seq_with rewrite_nested rest n) as [out n1]. cbn [fst] in *.
    unfold qdup_if_free in *. cbn [pair_free all_in]. rewrite Hq.
    destruct (head_if out); [specialize (Hhd eq_refl); congruence|].
    destruct e; try done; exact Hrest. }
  destruct rest as [|i rest]; [by apply Hplain|].
  destruct i;
    try (specialize (Hplain eq_refl); destruct (lower_seq_with _ (_ :: rest) n); exact Hplain).
  clear Hplain. unfold synth_span. set (n2 := u32_wrap (u32_wrap (n - 1) - 1)).
  inversion Hok as [|? ? Hi Hok']; subst. specialize (Hi n2).
  destruct (rewrite_if then_body else_body span n2) as (t' & el' & Hif).
  destruct (rewrite_nested _ n2) as [i' n3]. cbn [fst] in Hif, Hi. subst i'.
  assert (qdup_if_free (fst (lower_seq rest n3)) = true) as Hr.
  { eapply (IH (length rest)); [simpl; lia|done..]. }
  unfold lower_seq in Hr. destruct (lower_seq_with rewrite_nested rest n3) as [out n4].
  cbn [fst qdup_nodes app] in *. unfold qdup_if_free in *.
  apply andb_true_iff in Hr as [Hr1 Hr2].
  cbn [nested_free opt_all] in Hi. rewrite !andb_true_iff in Hi. destruct Hi as [[Ht1 Ht2] Hel].
  cbn [pair_free all_in nested_free opt_all]. rewrite Hr1, Hr2, Ht1, Ht2.
  change (is_qdup_word (WordRef "dup" _)) with false.
  change (is_qdup_word (WordRef "drop" _)) with false. simpl.
  destruct el' as [el'|]; simpl in *; by rewrite ?Hel.
Qed.

Lemma opt_done el n :
  (∀ b, el = Some b → Forall nested_done b) →
  opt_all qdup_if_free (fst (opt_state lower_seq el n)) = true.
Proof.
  intros Hel. destruct el as [b|]; [|done]. cbn.
  pose proof (lower_seq_done b (Hel b eq_refl) n). by destruct (lower_seq b n).
Qed.

Lemma arms_done arms n :
  Forall (λ a, Forall nested_done (arm_match a) ∧ Forall nested_done (arm_body a)) arms →
  all_in nested_free_arm (fst (map_state rewrite_arm arms n)) = true.
Proof.
  intros Hok. revert n. induction Hok as [|[m b sp] arms [Hm Hb] _ IH]; intros n; [done|].
  cbn [map_state rewrite_arm arm_match arm_body] in *.
  pose proof (lower_seq_done m Hm n) as Hm'. unfold lower_seq in *.
  destruct (lower_seq_with rewrite_nested m n) as [m' n1].
  pose proof (lower_seq_done b Hb n1) as Hb'. unfold lower_seq in *.
  destruct (lower_seq_with rewrite_nested b n1) as [b' n2]. specialize (IH n2).
  destruct (map_state rewrite_arm arms n2). cbn [fst all_in nested_free_arm] in *.
  unfold qdup_if_free in *. by rewrite Hm', Hb', IH.
Qed.

Lemma rewrite_nested_done e : nested_done e.
Proof.
  induction e using Expr_nested_ind; intros c; try done; cbn [rewrite_nested].
  all: repeat match goal with
    | Hb : Forall _ ?b |- context [lower_seq_with rewrite_nested ?b ?m] =>
        pose proof (lower_seq_done b Hb m); unfold lower_seq in *;
        destruct (lower_seq_with rewrite_nested b m)
    end; cbn [fst] in *.
  all: unfold qdup_if_free in *; cbn [nested_free].
  all: try (repeat match goal with H : ?b = true |- context [?b] => rewrite H end; done).
  - match goal with |- context [opt_state _ ?el ?m] =>
      pose proof (opt_done el m ltac:(eassumption)) as Ho; unfold lower_seq in Ho;
      destruct (opt_state _ el m) end.
    unfold qdup_if_free in *. by apply andb_true_iff.
  - pose proof (arms_done arms c ltac:(eassumption)).
    destruct (map_state rewrite_arm arms c) as [arms' n1].
    pose proof (opt_done d n1 ltac:(eassumption)) as Ho. unfold lower_seq in Ho.
    destruct (opt_state _ d n1). by apply andb_true_iff.
Qed.

(** ** Programs *)

Definition erase_item (i : Item) : Item :=
  match i with
  | IDefinition (mkDefinition nm ns eff ls _ sp) => IDefinition (mkDefinition nm ns eff ls [] sp)
  | ITopLevel _ sp => ITopLevel [] sp
  | IConstant (mkConstant nm ns (Computed _) sp fl) => IConstant (mkConstant nm ns (Computed []) sp fl)
  | ITemplate (mkTemplate nm ns eff _ _ sp) => ITemplate (mkTemplate nm ns eff [] [] sp)
  | IValue (mkValue nm ns _ sp) => IValue (mkValue nm ns [] sp)
  | IMethod (mkMethod g gs specs eff ls _ sp k) => IMethod (mkMethod g gs specs eff ls [] sp k)
  | ITemplateInstance (mkTemplateInstance nm ns t bytes _ sp) =>
      ITemplateInstance (mkTemplateInstance nm ns t bytes [] sp)
  | _ => i
  end.

Lemma map_state_app {A B S} (f : A → S → B * S) a b s :
  map_state f (a ++ b) s =
    let '(a', s1) := map_state f a s in let '(b', s2) := map_state f b s1 in (a' ++ b', s2).
Proof.
  revert s. induction a as [|x a IH]; intros s; simpl; [by destruct (map_state f b s)|].
  destruct (f x s) as [y s1]. rewrite IH. destruct (map_state f a s1) as [a' s2].
  by destruct (map_state f b s2).
Qed.

(** The pass on an item is the pass on its sequences, in order. *)
Lemma lower_item_seqs i n :
  let '(i', n') := lower_item i n in
  map_state lower_seq (item_seqs i) n = (item_seqs i', n') ∧ erase_item i' = erase_item i.
Proof.
  destruct i as [[]| | |[? ? [] ? ?]| | |[]|[]|[]| | |[]| |]; try done; cbn;
    repeat (destruct (lower_seq _ _)); done.
Qed.

Lemma lower_program_seqs p n :
  let '(p', n') := lower_program p n in
  map_state lower_seq (program_seqs p) n = (program_seqs p', n') ∧
  erase_item <$> p_items p' = erase_item <$> p_items p.
Proof.
  destruct p as [items]. unfold lower_program, program_seqs. cbn [p_items].
  revert n. induction items as [|i items IH]; intros n; [done|].
  cbn [map_state flat_with]. pose proof (lower_item_seqs i n) as Hi.
  destruct (lower_item i n) as [i' n1]. specialize (IH n1). destruct Hi as [Hi He].
  destruct (map_state lower_item items n1) as [items' n2]. cbn [p_items flat_with].
  destruct IH as [IH1 IH2]. rewrite map_state_app, Hi. cbn [p_items] in IH1. rewrite IH1.
  split; [done|]. cbn [p_items] in IH2. by rewrite !fmap_cons, He, IH2.
Qed.

Lemma map_state_Forall2 {A B S} (f : A → S → B * S) (Q : B → A → Prop) l s :
  (∀ x s, Q (fst (f x s)) x) → Forall2 Q (fst (map_state f l s)) l.
Proof.
  intros Hf. revert s. induction l as [|x l IH]; intros s; [constructor|]. cbn.
  specialize (Hf x s). destruct (f x s) as [y s1]. specialize (IH s1).
  destruct (map_state f l s1). by constructor.
Qed.

(** C13: [lower_qdup] rewrites every [?DUP IF] of a program, in every nested
    sequence, and changes no meaning: each body of the result has the same
    runs as the body it came from, on every machine, and the items are
    otherwise untouched. *)
Theorem lower_qdup_correct `{Machine} (exit_word : string → Span → bool) (p : Program) (n : Z)
    (Hdup : ∀ sp, exit_word "dup" sp = false) (Hdrop : ∀ sp, exit_word "drop" sp = false)
    (Hqdup : ∀ nm sp, is_qdup_word (WordRef nm sp) = true → exit_word nm sp = false) :
  let '(p', _) := lower_program p n in
  Forall2 (λ out src, qdup_if_free out = true ∧
             ∀ s r, exec exit_word out s r ↔ exec exit_word src s r)
          (program_seqs p') (program_seqs p) ∧
  erase_item <$> p_items p' = erase_item <$> p_items p.
Proof.
  pose proof (lower_program_seqs p n) as Hp. destruct (lower_program p n) as [p' n'].
  destruct Hp as [Hseqs Hitems]. split; [|done].
  replace (program_seqs p') with (fst (map_state lower_seq (program_seqs p) n)) by (by rewrite Hseqs).
  apply map_state_Forall2. intros seq c. split.
  - apply lower_seq_done, Forall_forall. intros e _. apply rewrite_nested_done.
  - by apply (lower_seq_correct exit_word).
Qed.

(** The spans of a list of sequences, lowered one after the other. *)
Lemma map_lower_spans seqs n :
  2 * Z.of_nat (sum_with seq_size seqs) ≤ n < 2 ^ 32 →
  let '(seqs', n') := map_state lower_seq seqs n in
  fresh_at (flat_with ref_starts seqs) (sum_with seq_size seqs) n (flat_with ref_starts seqs', n').
Proof.
  revert n. induction seqs as [|seq seqs IH]; intros n Hn; [split; [simpl; lia|apply fresh_keep]|].
  cbn [map_state flat_with sum_with] in *.
  pose proof (lower_seq_spans seq n ltac:(lia)) as Hs. destruct (lower_seq seq n) as [seq' n1].
  pose proof (fresh_at_le _ _ _ _ _ Hs). specialize (IH n1 ltac:(lia)).
  destruct (map_state lower_seq seqs n1) as [seqs' n2]. cbn [flat_with].
  eapply fresh_at_app; [exact Hs|exact IH|lia].
Qed.

Lemma countdown_NoDup n n' : NoDup (countdown n n').
Proof. unfold countdown. apply NoDup_fmap_2; [intros x y; lia|apply NoDup_seqZ]. Qed.

Lemma elem_of_countdown k n n' : k ∈ countdown n n' → n' < k ≤ n.
Proof.
  unfold countdown. intros (i & -> & Hi)%list_elem_of_fmap. apply elem_of_seqZ in Hi. lia.
Qed.

(** The pass keeps the resolver's keys apart, from whatever value [n] the
    span counter has in the session: the references of a lowered program start
    at pairwise distinct positions when those of the source program do, because
    every span the pass makes up has an offset of its own above the source's. *)
Theorem lower_qdup_spans (p : Program) (n : Z)
    (Hnd : NoDup (flat_with ref_starts (program_seqs p)))
    (Hoff : Forall (λ s, p_byte_offset s ≤ n - 2 * Z.of_nat (sum_with seq_size (program_seqs p)))
                   (flat_with ref_starts (program_seqs p)))
    (Hn : 2 * Z.of_nat (sum_with seq_size (program_seqs p)) ≤ n < 2 ^ 32) :
  NoDup (flat_with ref_starts (program_seqs (fst (lower_program p n)))).
Proof.
  pose proof (lower_program_seqs p n) as Hp.
  destruct (lower_program p n) as [p' n']. destruct Hp as [Hseqs _].
  pose proof (map_lower_spans (program_seqs p) n) as Hf. rewrite Hseqs in Hf.
  destruct Hf as [Hlow (Hle & kept & synth & Hperm & Hkept & Hsyn)]; [lia|].
  cbn [fst snd] in *. rewrite Hperm. apply NoDup_app. split; [|split].
  - apply submseteq_Permutation in Hkept as [l Hl]. rewrite Hl in Hnd. by apply NoDup_app in Hnd as [? _].
  - intros s Hs Hs'. rewrite Forall_forall in Hoff.
    specialize (Hoff s (elem_of_submseteq _ _ _ Hs Hkept)).
    assert (p_byte_offset s ∈ countdown n n') as Hc%elem_of_countdown; [|lia].
    rewrite <- Hsyn. by apply list_elem_of_fmap_2.
  - apply (NoDup_fmap_1 p_byte_offset). rewrite Hsyn. apply countdown_NoDup.
Qed.

(** [1 ?DUP IF 2 ELSE 3 THEN], once plain and once inside a loop. *)
Definition sample_qdup : list Expr :=
  [Lit (LitInt 1 (span_at_byte 0)); WordRef "?DUP" (span_at_byte 2);
   If [Lit (LitInt 2 (span_at_byte 10))] (Some [Lit (LitInt 3 (span_at_byte 17))]) (span_at_byte 7)].
Definition sample_program : Program :=
  mkProgram [ITopLevel (sample_qdup ++ [BeginAgain [WordRef "?dup" (span_at_byte 30);
                                                    If [] None (span_at_byte 35)] (span_at_byte 24)])
                       (span_at_byte 0)].

Lemma lower_qdup_correct_witness :
  program_seqs (fst (lower_program sample_program synth_start)) =
    [[Lit (LitInt 1 (span_at_byte 0));
      WordRef "dup" (fst (synth_span (span_at_byte 2) 4294901760));
      If [Lit (LitInt 2 (span_at_byte 10))]
         (Some [WordRef "drop" (fst (synth_span (span_at_byte 2) 4294901759));
                Lit (LitInt 3 (span_at_byte 17))]) (span_at_byte 7);
      BeginAgain [WordRef "dup" (fst (synth_span (span_at_byte 30) 4294901758));
        If [] (Some [WordRef "drop" (fst (synth_span (span_at_byte 30) 4294901757))])
           (span_at_byte 35)] (span_at_byte 24)]] ∧
  Forall2 (λ out src, qdup_if_free out = true ∧
             ∀ s r, @exec ZMachine exit_by_name out s r ↔ @exec ZMachine exit_by_name src s r)
          (program_seqs (fst (lower_program sample_program synth_start)))
          (program_seqs sample_program).
Proof.
  split; [vm_compute; reflexivity|].
  apply (@lower_qdup_correct ZMachine exit_by_name sample_program synth_start).
  - intros sp. vm_compute. reflexivity.
  - intros sp. vm_compute. reflexivity.
  - intros nm sp. unfold is_qdup_word, exit_by_name, eq_nocase.
    rewrite bool_decide_eq_true. intros ->. vm_compute. reflexivity.
Defined.

Lemma lower_qdup_spans_witness :
  NoDup (flat_with ref_starts (program_seqs (fst (lower_program sample_program synth_start)))).
Proof.
  apply (lower_qdup_spans sample_program).
  - vm_compute. repeat (apply NoDup_cons; split; [|try apply NoDup_nil; try done]); set_solver.
  - repeat constructor; vm_compute; done.
  - vm_compute. done.
Defined.
