(* ===== verification/LowerRecurse.v ===== *)
(** * [RECURSE] ([src/compiler/lower_recurse.rs])

    Binds [RECURSE] to the enclosing definition: every reference to it becomes
    a reference to the definition's own name, and a definition that uses it
    without a stack effect is reported.  The flag [saw] is threaded as in the
    source. *)
From S2P Require Import Prelude Bytes F64 Lex LetLang Ast Semantics.

Record MissingRecurseEffect := mkMissing { mr_word_name : string; mr_at : Span }.

Definition show_missing (m : MissingRecurseEffect) : string :=
  "RECURSE requires a stack-effect annotation on `" +:+ mr_word_name m +:+
  "` — add `( ... -- ... )` after the name".

Definition is_recurse (e : Expr) : bool :=
  match e with WordRef name _ => eq_nocase name "recurse" | _ => false end.

Fixpoint rewrite_expr (target : string) (e : Expr) (saw : bool) : Expr * bool :=
  match e with
  | WordRef name sp => if eq_nocase name "recurse" then (WordRef target sp, true) else (e, saw)
  | If t el sp =>
      let '(t', saw1) := map_state (rewrite_expr target) t saw in
      let '(el', saw2) := opt_state (map_state (rewrite_expr target)) el saw1 in
      (If t' el' sp, saw2)
  | BeginUntil b sp =>
      let '(b', saw1) := map_state (rewrite_expr target) b saw in (BeginUntil b' sp, saw1)
  | BeginAgain b sp =>
      let '(b', saw1) := map_state (rewrite_expr target) b saw in (BeginAgain b' sp, saw1)
  | BeginWhileRepeat p b sp =>
      let '(p', saw1) := map_state (rewrite_expr target) p saw in
      let '(b', saw2) := map_state (rewrite_expr target) b saw1 in
      (BeginWhileRepeat p' b' sp, saw2)
  | DoLoop q b k sp =>
      let '(b', saw1) := map_state (rewrite_expr target) b saw in (DoLoop q b' k sp, saw1)
  | Case arms d sp =>
      let '(arms', saw1) := map_state (rewrite_case_arm target) arms saw in
      let '(d', saw2) := opt_state (map_state (rewrite_expr target)) d saw1 in
      (Case arms' d' sp, saw2)
  | _ => (e, saw)
  end
with rewrite_case_arm (target : string) (a : CaseArm) (saw : bool) : CaseArm * bool :=
  match a with
  | mkArm m b sp =>
      let '(m', saw1) := map_state (rewrite_expr target) m saw in
      let '(b', saw2) := map_state (rewrite_expr target) b saw1 in
      (mkArm m' b' sp, saw2)
  end.

Definition rewrite_seq (seq : list Expr) (target : string) (saw : bool) : list Expr * bool :=
  map_state (rewrite_expr target) seq saw.

Definition rewrite_def (d : Definition_) : Definition_ * bool :=
  let '(body, saw) := rewrite_seq (d_body d) (d_name d) false in
  (mkDefinition (d_name d) (d_name_span d) (d_effect d) (d_locals d) body (d_span d), saw).

Definition recurse_item (i : Item) (missing : list MissingRecurseEffect)
  : Item * list MissingRecurseEffect :=
  match i with
  | IDefinition d =>
      let '(d', saw) := rewrite_def d in
      (IDefinition d',
       if saw && bool_decide (d_effect d = None)
       then missing ++ [mkMissing (d_name d) (d_name_span d)] else missing)
  | _ => (i, missing)
  end.

#[export] Instance StackEffect_eq_dec : EqDecision StackEffect.
Proof. solve_decision. Defined.

Definition recurse_program (p : Program) : Program * list MissingRecurseEffect :=
  let '(items, missing) := map_state recurse_item (p_items p) [] in (mkProgram items, missing).

(** ** The rewriting as a map *)

Section Rename.
Context (target : string).
Fixpoint rename (e : Expr) : Expr :=
  match e with
  | WordRef name sp => if eq_nocase name "recurse" then WordRef target sp else e
  | If t el sp => If (rename <$> t) (fmap (M:=list) rename <$> el) sp
  | BeginUntil b sp => BeginUntil (rename <$> b) sp
  | BeginAgain b sp => BeginAgain (rename <$> b) sp
  | BeginWhileRepeat p b sp => BeginWhileRepeat (rename <$> p) (rename <$> b) sp
  | DoLoop q b k sp => DoLoop q (rename <$> b) k sp
  | Case arms d sp => Case (rename_arm <$> arms) (fmap (M:=list) rename <$> d) sp
  | _ => e
  end
with rename_arm (a : CaseArm) : CaseArm :=
  match a with mkArm m b sp => mkArm (rename <$> m) (rename <$> b) sp end.

Definition renames (e : Expr) : Prop :=
  ∀ saw, rewrite_expr target e saw = (rename e, saw || visits is_recurse e).

Lemma rewrite_seq_map l saw :
  Forall renames l → map_state (rewrite_expr target) l saw = (rename <$> l, saw || visits_seq is_recurse l).
Proof.
  intros Hl. revert saw. induction Hl as [|e l He _ IH]; intros saw; [by rewrite orb_false_r|].
  cbn [map_state]. rewrite He, IH. unfold visits_seq. cbn [any_in]. by rewrite orb_assoc.
Qed.

Lemma rewrite_opt_map o saw :
  (∀ b, o = Some b → Forall renames b) →
  opt_state (map_state (rewrite_expr target)) o saw =
    (fmap (M:=list) rename <$> o, saw || opt_any (visits_seq is_recurse) o).
Proof.
  intros Ho. destruct o as [b|]; cbn; [|by rewrite orb_false_r].
  by rewrite rewrite_seq_map by by apply Ho.
Qed.

Lemma rewrite_arms_map arms saw :
  Forall (λ a, Forall renames (arm_match a) ∧ Forall renames (arm_body a)) arms →
  map_state (rewrite_case_arm target) arms saw =
    (rename_arm <$> arms, saw || any_in (visits_arm is_recurse) arms).
Proof.
  intros Ha. revert saw. induction Ha as [|[m b sp] arms [Hm Hb] _ IH]; intros saw; [by rewrite orb_false_r|].
  cbn [map_state rewrite_case_arm arm_match arm_body] in *.
  rewrite !rewrite_seq_map by done. rewrite IH. cbn [any_in visits_arm].
  unfold visits_seq. by rewrite !orb_assoc.
Qed.

Lemma rewrite_expr_map e : renames e.
Proof.
  induction e using Expr_nested_ind; intros saw; cbn [rewrite_expr rename visits is_recurse];
    rewrite ?orb_false_r; try done.
  - destruct (eq_nocase n "recurse"); [by rewrite orb_true_r|by rewrite orb_false_r].
  - rewrite rewrite_seq_map, rewrite_opt_map by done. simpl. by rewrite orb_assoc.
  - by rewrite rewrite_seq_map.
  - rewrite !rewrite_seq_map by done. simpl. by rewrite orb_assoc.
  - by rewrite rewrite_seq_map.
  - by rewrite rewrite_seq_map.
  - rewrite rewrite_arms_map, rewrite_opt_map by done. simpl. by rewrite orb_assoc.
Qed.

Lemma rewrite_seq_eq l saw :
  rewrite_seq l target saw = (rename <$> l, saw || visits_seq is_recurse l).
Proof. apply rewrite_seq_map, Forall_forall. intros e _. apply rewrite_expr_map. Qed.

(** ** What is left, and where *)

Definition gone (e : Expr) : Prop :=
  visits is_recurse (rename e) = visits is_recurse e && eq_nocase target "recurse" ∧
  gather ref_start (rename e) = gather ref_start e.

Lemma gone_seq l :
  Forall gone l →
  visits_seq is_recurse (rename <$> l) = visits_seq is_recurse l && eq_nocase target "recurse" ∧
  ref_starts (rename <$> l) = ref_starts l.
Proof.
  intros Hl. induction Hl as [|e l [He Hs] _ [IH1 IH2]]; [done|].
  unfold ref_starts in *. rewrite fmap_cons. autorewrite with ast.
  by rewrite He, Hs, IH1, IH2, andb_orb_distrib_l.
Qed.

Lemma gone_opt o :
  (∀ b, o = Some b → Forall gone b) →
  opt_any (visits_seq is_recurse) (fmap (M:=list) rename <$> o) =
    opt_any (visits_seq is_recurse) o && eq_nocase target "recurse" ∧
  opt_flat ref_starts (fmap (M:=list) rename <$> o) = opt_flat ref_starts o.
Proof. intros Ho. destruct o as [b|]; [|done]. by apply gone_seq, Ho. Qed.

Lemma gone_arms arms :
  Forall (λ a, Forall gone (arm_match a) ∧ Forall gone (arm_body a)) arms →
  any_in (visits_arm is_recurse) (rename_arm <$> arms) =
    any_in (visits_arm is_recurse) arms && eq_nocase target "recurse" ∧
  flat_with (gather_arm ref_start) (rename_arm <$> arms) = flat_with (gather_arm ref_start) arms.
Proof.
  intros Ha. induction Ha as [|[m b sp] arms [Hm Hb] _ [IH1 IH2]]; [done|].
  destruct (gone_seq _ Hm) as [Hm1 Hm2], (gone_seq _ Hb) as [Hb1 Hb2].
  cbn [arm_match arm_body] in *. unfold ref_starts in *.
  rewrite fmap_cons. cbn [rename_arm any_in flat_with]. rewrite !visits_arm_eq, !gather_arm_eq.
  by rewrite Hm1, Hm2, Hb1, Hb2, IH1, IH2, !andb_orb_distrib_l.
Qed.

Lemma rename_gone e : gone e.
Proof.
  induction e using Expr_nested_ind; try done; unfold gone in *; cbn [rename].
  { destruct (eq_nocase n "recurse") eqn:E; cbn; by rewrite ?E, ?orb_false_r. }
  all: repeat match goal with
    | Hf : Forall _ ?l |- _ => first [apply gone_seq in Hf | apply gone_arms in Hf]; destruct Hf
    | Ho : ∀ b, ?o = Some b → _ |- _ => apply gone_opt in Ho; destruct Ho
    end.
  all: autorewrite with ast; unfold ref_starts in *; cbn [is_recurse ref_start app orb];
    repeat match goal with H : _ = _ |- _ => rewrite H; clear H end;
    by rewrite ?andb_orb_distrib_l.
Qed.

Lemma rename_seq_starts l : ref_starts (rename <$> l) = ref_starts l.
Proof. apply gone_seq, Forall_forall. intros e _. apply rename_gone. Qed.
Lemma rename_seq_gone l :
  eq_nocase target "recurse" = false → visits_seq is_recurse (rename <$> l) = false.
Proof.
  intros Ht. destruct (gone_seq l) as [-> _]; [|by rewrite Ht, andb_false_r].
  apply Forall_forall. intros e _. apply rename_gone.
Qed.

(** ** Meaning *)

Section Meaning.
Context `{Machine} (exit_word : string → Span → bool).
(** [RECURSE] calls the word being defined, and is not [EXIT]. *)
Context (Hrec : ∀ nm sp s s', eq_nocase nm "recurse" = true →
           leaf (WordRef nm sp) s s' ↔ leaf (WordRef target sp) s s').
Context (Hexit : ∀ nm sp, eq_nocase nm "recurse" = true →
           exit_word nm sp = exit_word target sp).
#[local] Set Default Proof Using "All".
#[local] Instance seq_eq : Equiv (list Expr) := seq_equiv exit_word.
#[local] Instance expr_eq : Equiv Expr := expr_equiv exit_word.
#[local] Instance opt_eq : Equiv (option (list Expr)) := opt_equiv exit_word.
#[local] Instance arm_eq : Equiv CaseArm := arm_equiv exit_word.

Lemma rename_word nm sp :
  eq_nocase nm "recurse" = true → WordRef target sp ≡ WordRef nm sp.
Proof.
  intros Hn s r. split; inversion 1; simplify_eq/=.
  - apply x_exit. cbn [is_exit] in *. by rewrite (Hexit nm).
  - apply x_leaf; [done| |by apply Hrec]. cbn [is_exit] in *. by rewrite (Hexit nm).
  - apply x_exit. cbn [is_exit] in *. by rewrite <- (Hexit nm).
  - apply x_leaf; [done| |by apply (Hrec nm)]. cbn [is_exit] in *. by rewrite <- (Hexit nm).
Qed.

Lemma rename_seq_equiv l : Forall (λ e, rename e ≡ e) l → rename <$> l ≡ l.
Proof.
  induction 1 as [|e l He _ IH]; [done|]. rewrite fmap_cons. by rewrite He, IH.
Qed.

Lemma rename_opt_equiv (o : option (list Expr)) :
  (∀ b, o = Some b → Forall (λ e, rename e ≡ e) b) → fmap (M:=list) rename <$> o ≡ o.
Proof. destruct o as [b|]; [|done]. intros Hb. by apply rename_seq_equiv, Hb. Qed.

Lemma rename_equiv e : rename e ≡ e.
Proof.
  induction e using Expr_nested_ind; try done; cbn [rename].
  - destruct (eq_nocase n "recurse") eqn:E; [by apply rename_word|done].
  - apply if_equiv; [by apply rename_seq_equiv|by apply rename_opt_equiv].
  - by apply until_equiv, rename_seq_equiv.
  - apply while_equiv; by apply rename_seq_equiv.
  - by apply again_equiv, rename_seq_equiv.
  - by apply do_equiv, rename_seq_equiv.
  - apply case_equiv; [|by apply rename_opt_equiv].
    apply Forall2_fmap_l, Forall_Forall2_diag. eapply Forall_impl; [eassumption|].
    intros [m b sp] [Hm Hb]. split; by apply rename_seq_equiv.
Qed.
End Meaning.
End Rename.

(** ** Programs *)

(** The machine [M] runs [RECURSE] as a call of the word [target]. *)
Definition recurse_calls `{Machine} (exit_word : string → Span → bool) (target : string) : Prop :=
  ∀ nm sp, eq_nocase nm "recurse" = true →
    exit_word nm sp = exit_word target sp ∧
    ∀ s s', leaf (WordRef nm sp) s s' ↔ leaf (WordRef target sp) s s'.

(** What becomes of an item. *)
Definition recurse_rel `{Machine} (exit_word : string → Span → bool) (i' i : Item) : Prop :=
  match i with
  | IDefinition d =>
      ∃ body, i' = IDefinition (mkDefinition (d_name d) (d_name_span d) (d_effect d) (d_locals d)
                                  body (d_span d)) ∧
        ref_starts body = ref_starts (d_body d) ∧
        (eq_nocase (d_name d) "recurse" = false → visits_seq is_recurse body = false) ∧
        (recurse_calls exit_word (d_name d) →
         ∀ s r, exec exit_word body s r ↔ exec exit_word (d_body d) s r)
  | _ => i' = i
  end.

Definition missing_of (i : Item) : list MissingRecurseEffect :=
  match i with
  | IDefinition d =>
      if visits_seq is_recurse (d_body d) && bool_decide (d_effect d = None)
      then [mkMissing (d_name d) (d_name_span d)] else []
  | _ => []
  end.

Lemma recurse_item_spec `{Machine} exit_word i missing :
  let '(i', missing') := recurse_item i missing in
  recurse_rel exit_word i' i ∧ missing' = missing ++ missing_of i.
Proof.
  destruct i as [d| | | | | | | | | | | | |]; cbn; try (by rewrite app_nil_r).
  unfold rewrite_def. rewrite rewrite_seq_eq. cbn. split.
  - eexists. split; [done|]. split; [apply rename_seq_starts|]. split.
    + apply rename_seq_gone.
    + intros Hrec. apply (rename_seq_equiv (d_name d) exit_word);
        [intros; by apply Hrec..|]. apply Forall_forall. intros e _.
      apply rename_equiv; intros; by apply Hrec.
  - case_match; [done|by rewrite app_nil_r].
Qed.

(** C37: [lower_recurse] binds [RECURSE]: in every definition (not itself
    called [recurse]) no reference to it is left, at any depth, and references
    keep their spans; on a machine where [RECURSE] calls the word being defined
    the body means what it meant; other items are untouched; and the definitions
    reported are exactly those that use [RECURSE] without a stack effect, in
    source order. *)
Theorem lower_recurse_correct `{Machine} (exit_word : string → Span → bool) (p : Program) :
  let '(p', missing) := recurse_program p in
  Forall2 (recurse_rel exit_word) (p_items p') (p_items p) ∧
  missing = flat_with missing_of (p_items p).
Proof.
  destruct p as [items]. unfold recurse_program. cbn [p_items].
  assert (∀ missing, let '(items', missing') := map_state recurse_item items missing in
            Forall2 (recurse_rel exit_word) items' items ∧
            missing' = missing ++ flat_with missing_of items) as Hgen.
  { induction items as [|i items IH]; intros missing; [by rewrite app_nil_r|]. cbn [map_state flat_with].
    pose proof (recurse_item_spec exit_word i missing) as Hi. destruct (recurse_item i missing) as [i' m1].
    destruct Hi as [Hi ->]. specialize (IH (missing ++ missing_of i)).
    destruct (map_state recurse_item items _) as [items' m2]. destruct IH as [IH ->].
    split; [by constructor|]. by rewrite app_assoc. }
  specialize (Hgen []). by destruct (map_state recurse_item items []).
Qed.

Example recurse_ex :
  recurse_program (mkProgram [IDefinition (mkDefinition "fact" (span_at_byte 2) None []
     [If [WordRef "Recurse" (span_at_byte 9)] None (span_at_byte 7)] (span_at_byte 0))]) =
  (mkProgram [IDefinition (mkDefinition "fact" (span_at_byte 2) None []
     [If [WordRef "fact" (span_at_byte 9)] None (span_at_byte 7)] (span_at_byte 0))],
   [mkMissing "fact" (span_at_byte 2)]).
Proof. vm_compute. reflexivity. Qed.
