(* ===== verification/LowerExit.v ===== *)
(** * [EXIT] ([src/compiler/lower_exit.rs])

    Rewrites [EXIT] into structured control flow: the code behind an [IF] or a
    [CASE] that contains an [EXIT] moves into its branches, and what follows an
    [EXIT] is dropped.  The recursion is on sequences built by appending the
    tail, so it takes fuel; [lower_fix] is the equation the fuel of [lower_seq]
    satisfies, which is the source's loop.  The resolver's target map is
    represented by [exit_word], the test it is used for. *)
From S2P Require Import Prelude Bytes F64 Lex LetLang Ast Semantics.

Section LowerExit.
(** [word_targets.get(span)] is [continuations:return]. *)
Context (exit_span : Span → bool).

Definition is_exit_word (e : Expr) : bool :=
  match e with WordRef _ span => exit_span span | _ => false end.

Fixpoint expr_uses_exit (e : Expr) : bool :=
  is_exit_word e ||
  match e with
  | If t el _ => any_in expr_uses_exit t || opt_any (any_in expr_uses_exit) el
  | BeginUntil b _ | BeginAgain b _ | DoLoop _ b _ _ => any_in expr_uses_exit b
  | BeginWhileRepeat p b _ => any_in expr_uses_exit p || any_in expr_uses_exit b
  | Case arms d _ => any_in arm_uses_exit arms || opt_any (any_in expr_uses_exit) d
  | _ => false
  end
(** An arm's match expression is not looked at. *)
with arm_uses_exit (a : CaseArm) : bool :=
  match a with mkArm _ b _ => any_in expr_uses_exit b end.
Definition body_uses_exit : list Expr → bool := any_in expr_uses_exit.

(** The branch of the loop for one expression [e] with the code [tail]
    behind it: the lowered sequence from [e] on, and whether it always
    exits. [lower] is the recursive call. *)
Definition lower_if (lower : list Expr → list Expr * bool)
    (t : list Expr) (el : option (list Expr)) (span : Span) (tail : list Expr) : list Expr * bool :=
  if negb (body_uses_exit t || opt_any body_uses_exit el) then
    let '(out, term) := lower tail in
    (If (fst (lower t)) ((λ b, fst (lower b)) <$> el) span :: out, term)
  else
    let '(then_l, then_term) := lower (t ++ tail) in
    let '(else_l, else_term) := lower (default [] el ++ tail) in
    ([If then_l (Some else_l) span], then_term && else_term).

Definition lower_case (lower : list Expr → list Expr * bool)
    (arms : list CaseArm) (d : option (list Expr)) (span : Span) (tail : list Expr)
  : list Expr * bool :=
  if negb (any_in (λ a, body_uses_exit (arm_body a)) arms || opt_any body_uses_exit d) then
    let '(out, term) := lower tail in
    (Case ((λ a, mkArm (arm_match a) (fst (lower (arm_body a))) (arm_span a)) <$> arms)
          ((λ b, fst (lower b)) <$> d) span :: out, term)
  else
    let lowered := (λ a, (a, lower (arm_body a ++ tail))) <$> arms in
    let new_arms := (λ x : CaseArm * (list Expr * bool),
                       mkArm (arm_match (fst x)) (fst (snd x)) (arm_span (fst x))) <$> lowered in
    let all_terminate := forallb (λ x, snd (snd x)) lowered in
    let default_seq := default [] d ++ tail in
    let '(default_l, default_term) :=
      match default_seq with [] => ([], false) | _ => lower default_seq end in
    ([Case new_arms (match default_l with [] => None | _ => Some default_l end) span],
     all_terminate && default_term).

Fixpoint lower_go (fuel : nat) (seq : list Expr) : list Expr * bool :=
  match fuel with
  | O => ([], false)
  | S fuel' =>
      match seq with
      | [] => ([], false)
      | e :: tail =>
          if is_exit_word e then ([], true)
          else match e with
               | If t el span => lower_if (lower_go fuel') t el span tail
               | Case arms d span => lower_case (lower_go fuel') arms d span tail
               | _ => let '(out, term) := lower_go fuel' tail in (e :: out, term)
               end
      end
  end.

Definition lower_seq (seq : list Expr) : list Expr * bool := lower_go (S (seq_size seq)) seq.
Definition lower_body (body : list Expr) : list Expr := fst (lower_seq body).

(** ** The fuel is enough *)

Lemma lower_if_ext f g t el span tail :
  (∀ l, (seq_size l < seq_size (If t el span :: tail))%nat → f l = g l) →
  lower_if f t el span tail = lower_if g t el span tail.
Proof.
  intros H. unfold lower_if.
  assert (seq_size t < seq_size (If t el span :: tail))%nat as Ht.
  { rewrite seq_size_cons. cbn [expr_size]. unfold seq_size. lia. }
  rewrite (H t Ht), (H tail) by (rewrite seq_size_cons; cbn [expr_size]; lia).
  assert ((λ b, fst (f b)) <$> el = (λ b, fst (g b)) <$> el) as ->.
  { destruct el as [b|]; cbn; [|done]. rewrite (H b); [done|].
    rewrite seq_size_cons. cbn [expr_size opt_sum]. unfold seq_size. lia. }
  rewrite (H (t ++ tail)), (H (default [] el ++ tail)); [done|..];
    rewrite seq_size_app, seq_size_cons; cbn [expr_size]; unfold seq_size;
    destruct el; cbn [opt_sum default sum_with]; simpl; lia.
Qed.

Lemma lower_case_ext f g arms d span tail :
  (∀ l, (seq_size l < seq_size (Case arms d span :: tail))%nat → f l = g l) →
  lower_case f arms d span tail = lower_case g arms d span tail.
Proof.
  intros H. unfold lower_case. rewrite seq_size_cons in H. cbn [expr_size] in H.
  assert (Harm : ∀ a, a ∈ arms → (seq_size (arm_body a) < sum_with arm_size arms)%nat).
  { intros [m b sp] Ha. apply (sum_with_elem arm_size) in Ha. cbn in *. unfold seq_size. lia. }
  rewrite (H tail) by lia.
  assert (∀ (h : CaseArm → list Expr * bool → CaseArm),
    (λ a, h a (f (arm_body a))) <$> arms = (λ a, h a (g (arm_body a))) <$> arms) as Hmap.
  { intros h. apply list_fmap_ext. intros i a Ha%list_elem_of_lookup_2.
    specialize (Harm a Ha). by rewrite H by lia. }
  rewrite (Hmap (λ a r, mkArm (arm_match a) (fst r) (arm_span a))).
  assert ((λ b, fst (f b)) <$> d = (λ b, fst (g b)) <$> d) as ->.
  { destruct d as [b|]; cbn; [|done]. rewrite (H b); [done|]. cbn [opt_sum]. unfold seq_size. lia. }
  assert ((λ a, (a, f (arm_body a ++ tail))) <$> arms = (λ a, (a, g (arm_body a ++ tail))) <$> arms) as ->.
  { apply list_fmap_ext. intros i a Ha%list_elem_of_lookup_2. specialize (Harm a Ha).
    rewrite H; [done|]. rewrite seq_size_app. lia. }
  assert (f (default [] d ++ tail) = g (default [] d ++ tail)) as Hd.
  { apply H. rewrite seq_size_app. unfold seq_size. destruct d; cbn [opt_sum default sum_with]; simpl; lia. }
  destruct (default [] d ++ tail) eqn:E; [done|]. by rewrite Hd.
Qed.

Lemma lower_go_enough fuel1 fuel2 seq :
  (seq_size seq < fuel1)%nat → (seq_size seq < fuel2)%nat → lower_go fuel1 seq = lower_go fuel2 seq.
Proof.
  revert fuel2 seq. induction fuel1 as [|fuel1 IH]; intros fuel2 seq H1 H2; [lia|].
  destruct fuel2 as [|fuel2]; [lia|]. cbn [lower_go]. destruct seq as [|e tail]; [done|].
  assert (∀ l, (seq_size l < seq_size (e :: tail))%nat → lower_go fuel1 l = lower_go fuel2 l) as Hl
    by (intros; apply IH; lia).
  destruct (is_exit_word e); [done|].
  assert (lower_go fuel1 tail = lower_go fuel2 tail) as ->.
  { apply Hl. rewrite seq_size_cons. pose proof (expr_size_pos e). lia. }
  destruct e; try done; [by apply lower_if_ext|by apply lower_case_ext].
Qed.

(** The source's loop. *)
Lemma lower_fix seq :
  lower_seq seq =
    match seq with
    | [] => ([], false)
    | e :: tail =>
        if is_exit_word e then ([], true)
        else match e with
             | If t el span => lower_if lower_seq t el span tail
             | Case arms d span => lower_case lower_seq arms d span tail
             | _ => let '(out, term) := lower_seq tail in (e :: out, term)
             end
    end.
Proof.
  unfold lower_seq at 1. cbn [lower_go]. destruct seq as [|e tail]; [done|].
  destruct (is_exit_word e); [done|].
  assert (∀ l, (seq_size l < seq_size (e :: tail))%nat →
            lower_go (seq_size (e :: tail)) l = lower_seq l) as Hl
    by (intros; apply lower_go_enough; lia).
  assert (lower_go (seq_size (e :: tail)) tail = lower_seq tail) as ->.
  { apply Hl. rewrite seq_size_cons. pose proof (expr_size_pos e). lia. }
  destruct e; try done; [by apply lower_if_ext|by apply lower_case_ext].
Qed.

(** Induction on the size of a sequence, the way [lower_seq] recurses. *)
Lemma seq_size_ind (P : list Expr → Prop) :
  (∀ seq, (∀ l, (seq_size l < seq_size seq)%nat → P l) → P seq) → ∀ seq, P seq.
Proof.
  intros Hstep seq. remember (seq_size seq) as k eqn:Hk. revert seq Hk.
  induction (lt_wf k) as [k _ IH]. intros seq ->. apply Hstep. intros l Hl. by eapply IH.
Qed.

Lemma size_tail e tail : (seq_size tail < seq_size (e :: tail))%nat.
Proof. rewrite seq_size_cons. pose proof (expr_size_pos e). lia. Qed.
Lemma size_then t el sp tail : (seq_size (t ++ tail) < seq_size (If t el sp :: tail))%nat.
Proof. rewrite seq_size_app, seq_size_cons. cbn [expr_size]. unfold seq_size. lia. Qed.
Lemma size_else t el sp tail :
  (seq_size (default [] el ++ tail) < seq_size (If t el sp :: tail))%nat.
Proof.
  rewrite seq_size_app, seq_size_cons. unfold seq_size. destruct el; simpl; lia.
Qed.
Lemma size_arm a arms d sp tail :
  a ∈ arms → (seq_size (arm_body a ++ tail) < seq_size (Case arms d sp :: tail))%nat.
Proof.
  intros Ha%(sum_with_elem arm_size). rewrite seq_size_app, seq_size_cons. cbn [expr_size].
  destruct a as [m b s]. cbn in *. unfold seq_size. lia.
Qed.
Lemma size_default arms d sp tail :
  (seq_size (default [] d ++ tail) < seq_size (Case arms d sp :: tail))%nat.
Proof.
  rewrite seq_size_app, seq_size_cons. unfold seq_size. destruct d; simpl; lia.
Qed.

Lemma size_app_l (a b : list Expr) n : (seq_size (a ++ b) < n)%nat → (seq_size a < n)%nat.
Proof. rewrite seq_size_app. lia. Qed.

Lemma uses_exit_app a b : body_uses_exit (a ++ b) = body_uses_exit a || body_uses_exit b.
Proof. apply any_in_app. Qed.

Lemma any_in_elem {A} (f : A → bool) l : any_in f l = false → ∀ x, x ∈ l → f x = false.
Proof.
  intros H x Hx. induction Hx; simpl in H; apply orb_false_iff in H as [? ?]; auto.
Qed.

Lemma uses_exit_if t el sp :
  expr_uses_exit (If t el sp) = body_uses_exit t || opt_any body_uses_exit el.
Proof. done. Qed.
Lemma uses_exit_case arms d sp :
  expr_uses_exit (Case arms d sp) =
    any_in (λ a, body_uses_exit (arm_body a)) arms || opt_any body_uses_exit d.
Proof.
  cbn. f_equal. induction arms as [|[m b s] arms IH]; [done|]. simpl. by rewrite IH.
Qed.

(** ** Meaning *)

Section Correct.
Context `{Machine}.
#[local] Notation exit_word := (λ (_ : string) sp, exit_span sp).
#[local] Instance seq_eq : Equiv (list Expr) := seq_equiv exit_word.
#[local] Instance expr_eq : Equiv Expr := expr_equiv exit_word.
#[local] Instance opt_eq : Equiv (option (list Expr)) := opt_equiv exit_word.
#[local] Instance arm_eq : Equiv CaseArm := arm_equiv exit_word.

(** Code without [EXIT] is only walked through. *)
Lemma lower_plain seq :
  body_uses_exit seq = false → fst (lower_seq seq) ≡ seq ∧ snd (lower_seq seq) = false.
Proof.
  induction seq as [seq IH] using seq_size_ind. rewrite lower_fix.
  destruct seq as [|e tail]; [done|]. unfold body_uses_exit. cbn [any_in].
  rewrite orb_false_iff. intros [He Ht].
  destruct (IH tail (size_tail _ _) Ht) as [IHt IHterm].
  assert (is_exit_word e = false) as ->.
  { destruct e; cbn in He |- *; try done. by rewrite orb_false_r in He. }
  destruct e;
    try (destruct (lower_seq tail) as [out term]; cbn [fst snd] in *; by rewrite IHt).
  - rewrite uses_exit_if in He. unfold lower_if. rewrite He. cbn [negb].
    apply orb_false_iff in He as [Hthen Helse].
    destruct (lower_seq tail) as [out term]. cbn [fst snd] in *. split; [|done].
    rewrite IHt. apply cons_proper; [|done]. apply if_equiv.
    + apply IH; [|done]. eapply size_app_l, size_then.
    + destruct else_body as [b|]; [|done]. cbn. apply IH; [|done].
      eapply size_app_l, (size_else _ (Some b)).
  - rewrite uses_exit_case in He. unfold lower_case. rewrite He. cbn [negb].
    apply orb_false_iff in He as [Harms Hdef].
    destruct (lower_seq tail) as [out term]. cbn [fst snd] in *. split; [|done].
    rewrite IHt. apply cons_proper; [|done]. apply case_equiv.
    + apply Forall2_fmap_l, Forall_Forall2_diag, Forall_forall. intros a Ha.
      split; [done|]. cbn. apply IH; [eapply size_app_l, size_arm; exact Ha|].
      exact (any_in_elem _ _ Harms a Ha).
    + destruct dflt as [b|]; [|done]. cbn. apply IH; [|done].
      eapply size_app_l, (size_default _ (Some b)).
Qed.

(** No [EXIT] inside a [CASE]; loops are not looked into. *)
Fixpoint case_exit_free (e : Expr) : bool :=
  match e with
  | If t el _ => forallb case_exit_free t && match el with Some b => forallb case_exit_free b | None => true end
  | Case _ _ _ => negb (expr_uses_exit e)
  | _ => true
  end.

Lemma returns_if t el sp tail s s' :
  returns exit_word (If t el sp :: tail) s s' ↔
  ∃ v st rs, s = (v :: st, rs) ∧
    returns exit_word ((if truthy v then t else default [] el) ++ tail) (st, rs) s'.
Proof.
  rewrite returns_cons. setoid_rewrite exec1_if. setoid_rewrite returns_app. naive_solver.
Qed.

Lemma returns_cons_equiv e e' l l' s s' :
  e ≡ e' → (∀ s, returns exit_word l s s' ↔ returns exit_word l' s s') →
  returns exit_word (e :: l) s s' ↔ returns exit_word (e' :: l') s s'.
Proof.
  intros He Hl. rewrite !returns_cons. setoid_rewrite (He _ _). by setoid_rewrite Hl.
Qed.

Lemma lower_returns seq :
  forallb case_exit_free seq = true →
  ∀ s s', returns exit_word (fst (lower_seq seq)) s s' ↔ returns exit_word seq s s'.
Proof.
  induction seq as [seq IH] using seq_size_ind. rewrite lower_fix.
  destruct seq as [|e tail]; [done|]. cbn [forallb]. intros [He Ht]%andb_true_iff s s'.
  pose proof (IH tail (size_tail _ _) Ht) as IHt.
  destruct (is_exit_word e) eqn:Hx.
  { destruct e; try done. cbn [fst]. rewrite returns_nil, returns_cons. split.
    - intros ->. right. by apply x_exit.
    - intros [(s1 & Hn & _)|Hn]; inversion Hn; subst; cbn in *; congruence. }
  destruct e;
    try (destruct (lower_seq tail) as [out term]; apply returns_cons_equiv; [done|intros; apply IHt]).
  - cbn [case_exit_free] in He. apply andb_true_iff in He as [Hthen Helse].
    unfold lower_if. destruct (_ || _) eqn:Hany; cbn [negb].
    + assert (∀ s s', returns exit_word (fst (lower_seq (then_body ++ tail))) s s' ↔
                returns exit_word (then_body ++ tail) s s') as IHthen.
      { apply IH; [apply size_then|]. by rewrite forallb_app, Hthen, Ht. }
      assert (∀ s s', returns exit_word (fst (lower_seq (default [] else_body ++ tail))) s s' ↔
                returns exit_word (default [] else_body ++ tail) s s') as IHelse.
      { apply IH; [apply size_else|]. rewrite forallb_app, Ht.
        destruct else_body; simpl; by rewrite ?Helse. }
      destruct (lower_seq (then_body ++ tail)) as [then_l ?].
      destruct (lower_seq (default [] else_body ++ tail)) as [else_l ?]. cbn [fst] in *.
      rewrite !returns_if.
      split; intros (v & st & rs & -> & Hr); exists v, st, rs; (split; [done|]);
        rewrite ?app_nil_r in *; destruct (truthy v); first [by apply IHthen|by apply IHelse].
    + apply orb_false_iff in Hany as [Hnt Hne].
      destruct (lower_seq tail) as [out term]. apply returns_cons_equiv; [|intros; apply IHt].
      apply if_equiv; [by apply lower_plain|].
      destruct else_body as [b|]; [|done]. by apply lower_plain.
  - cbn [case_exit_free] in He. apply negb_true_iff in He.
    assert (body_uses_exit [Case arms dflt span] = false) as Hc
      by (unfold body_uses_exit; cbn [any_in]; by rewrite He).
    rewrite uses_exit_case in He. unfold lower_case. rewrite He. cbn [negb].
    apply lower_plain in Hc as [Hc _]. rewrite lower_fix in Hc. cbn [is_exit_word] in Hc.
    unfold lower_case in Hc. rewrite He in Hc. cbn [negb] in Hc.
    change (lower_seq []) with (@nil Expr, false) in Hc. cbn [fst] in Hc.
    destruct (lower_seq tail) as [out term]. apply returns_cons_equiv; [|intros; apply IHt].
    intros s1 r. rewrite <- !exec_single. apply Hc.
Qed.
End Correct.

(** ** What is left *)

(** No [EXIT] inside a loop. *)
Fixpoint loop_exit_free (e : Expr) : bool :=
  match e with
  | If t el _ => forallb loop_exit_free t && match el with Some b => forallb loop_exit_free b | None => true end
  | Case arms d _ =>
      forallb loop_exit_free_arm arms && match d with Some b => forallb loop_exit_free b | None => true end
  | BeginUntil _ _ | BeginAgain _ _ | BeginWhileRepeat _ _ _ | DoLoop _ _ _ _ =>
      negb (expr_uses_exit e)
  | _ => true
  end
with loop_exit_free_arm (a : CaseArm) : bool :=
  match a with mkArm _ b _ => forallb loop_exit_free b end.

Lemma arms_exit_free arms (lower : list Expr → list Expr) :
  (∀ a, a ∈ arms → body_uses_exit (lower (arm_body a)) = false) →
  any_in arm_uses_exit ((λ a, mkArm (arm_match a) (lower (arm_body a)) (arm_span a)) <$> arms) = false.
Proof.
  intros Ha. induction arms as [|a arms IH]; [done|]. rewrite fmap_cons. cbn [any_in arm_uses_exit].
  apply orb_false_iff. split; [apply Ha; by left|]. apply IH. intros a' ?. apply Ha. by right.
Qed.

Lemma lower_gone seq :
  forallb loop_exit_free seq = true → body_uses_exit (fst (lower_seq seq)) = false.
Proof.
  induction seq as [seq IH] using seq_size_ind. rewrite lower_fix.
  destruct seq as [|e tail]; [done|]. cbn [forallb]. intros [He Ht]%andb_true_iff.
  pose proof (IH tail (size_tail _ _) Ht) as IHt.
  destruct (is_exit_word e) eqn:Hx; [done|].
  assert (∀ e', expr_uses_exit e' = false → body_uses_exit (fst (lower_seq tail)) = false →
            body_uses_exit (fst (let '(out, term) := lower_seq tail in (e' :: out, term))) = false) as Hcons.
  { intros e' He'. destruct (lower_seq tail). cbn [fst]. unfold body_uses_exit. cbn [any_in].
    intros Hout. by rewrite He', Hout. }
  destruct e; try (apply Hcons; [by rewrite ?Hx|done]);
    try (apply Hcons; [by apply negb_true_iff|done]).
  - apply Hcons; [|done]. cbn [expr_uses_exit]. by rewrite Hx.
  - cbn [loop_exit_free] in He. apply andb_true_iff in He as [Hthen Helse]. unfold lower_if.
    destruct (_ || _) eqn:Hany; cbn [negb].
    + pose proof (IH (then_body ++ tail) (size_then _ _ _ _)) as IHthen.
      rewrite forallb_app, Hthen, Ht in IHthen. specialize (IHthen eq_refl).
      pose proof (IH (default [] else_body ++ tail) (size_else _ _ _ _)) as IHelse.
      rewrite forallb_app, Ht, andb_true_r in IHelse.
      assert (forallb loop_exit_free (default [] else_body) = true) as Hd by (by destruct else_body).
      specialize (IHelse Hd).
      destruct (lower_seq (then_body ++ tail)), (lower_seq (default [] else_body ++ tail)).
      cbn [fst] in *. unfold body_uses_exit in *. cbn. by rewrite IHthen, IHelse.
    + apply Hcons; [|done]. rewrite uses_exit_if. apply orb_false_iff. split.
      * apply IH; [eapply size_app_l, size_then|done].
      * destruct else_body as [b|]; [|done]. cbn.
        apply IH; [eapply size_app_l, (size_else _ (Some b))|done].
  - cbn [loop_exit_free] in He. apply andb_true_iff in He as [Harms Hdef]. unfold lower_case.
    rewrite forallb_forall in Harms.
    assert (∀ a, a ∈ arms → forallb loop_exit_free (arm_body a) = true) as Ha.
    { intros [m b sp] Hin%list_elem_of_In. exact (Harms _ Hin). }
    destruct (any_in _ _ || _) eqn:Hany; cbn [negb].
    + rewrite <- list_fmap_compose. cbn [compose fst snd].
      assert (body_uses_exit (fst (match default [] dflt ++ tail with
                 | [] => ([], false) | _ => lower_seq (default [] dflt ++ tail) end)) = false) as Hd.
      { destruct (default [] dflt ++ tail) eqn:E; [done|]. rewrite <- E.
        apply IH; [apply size_default|]. rewrite forallb_app, Ht, andb_true_r. by destruct dflt. }
      destruct (match default [] dflt ++ tail with [] => _ | _ => _ end) as [default_l default_term].
      unfold body_uses_exit in *. cbn [fst any_in expr_uses_exit is_exit_word] in *. rewrite orb_false_r. cbn [orb].
      apply orb_false_iff. split; [|by destruct default_l].
      apply (arms_exit_free arms (λ b, fst (lower_seq (b ++ tail)))). intros a Hin.
      apply IH; [by apply size_arm|]. by rewrite forallb_app, Ha, Ht by done.
    + apply Hcons; [|done]. cbn [expr_uses_exit is_exit_word orb]. apply orb_false_iff. split.
      * apply (arms_exit_free arms (λ b, fst (lower_seq b))). intros a Hin.
        apply IH; [by eapply size_app_l, size_arm|by apply Ha].
      * destruct dflt as [b|]; [|done]. cbn.
        apply IH; [eapply size_app_l, (size_default _ (Some b))|done].
Qed.
End LowerExit.

(** C12: lowering [EXIT] preserves what a word does: for a body with no [EXIT]
    inside a [CASE], on every machine, the lowered body returns from a state to
    another exactly when the body does, whether at its end or at an [EXIT]. *)
Theorem lower_exit_returns `{Machine} (exit_span : Span → bool) (body : list Expr)
    (Hcase : forallb (case_exit_free exit_span) body = true) (s s' : state) :
  returns (λ _ sp, exit_span sp) (lower_body exit_span body) s s' ↔
  returns (λ _ sp, exit_span sp) body s s'.
Proof. by apply lower_returns. Qed.

(** The only [EXIT]s that survive lowering are those inside loops: a body
    with none there is emitted without the [with-return] wrapper. *)
Theorem lower_exit_gone (exit_span : Span → bool) (body : list Expr)
    (Hloop : forallb (loop_exit_free exit_span) body = true) :
  body_uses_exit exit_span (lower_body exit_span body) = false.
Proof. by apply lower_gone. Qed.

(** [1 IF 2 EXIT THEN 3 0 IF EXIT THEN 4]. *)
Definition exit_span_at (n : Z) (s : Span) : bool := bool_decide (s = span_at_byte n).
Definition lit_at (v n : Z) : Expr := Lit (LitInt v (span_at_byte n)).
Definition sample_exit : list Expr :=
  [lit_at 1 0; If [lit_at 2 5; WordRef "exit" (span_at_byte 7)] None (span_at_byte 2);
   lit_at 3 17; lit_at 0 19; If [WordRef "exit" (span_at_byte 7)] None (span_at_byte 21); lit_at 4 31].

Lemma lower_exit_returns_witness :
  lower_body (exit_span_at 7) sample_exit =
    [lit_at 1 0;
     If [lit_at 2 5]
        (Some [lit_at 3 17; lit_at 0 19; If [] (Some [lit_at 4 31]) (span_at_byte 21)])
        (span_at_byte 2)] ∧
  ∀ s s', @returns ZMachine (λ _ sp, exit_span_at 7 sp) (lower_body (exit_span_at 7) sample_exit) s s' ↔
          @returns ZMachine (λ _ sp, exit_span_at 7 sp) sample_exit s s'.
Proof.
  split; [vm_compute; reflexivity|]. intros s s'.
  apply (@lower_exit_returns ZMachine (exit_span_at 7) sample_exit). vm_compute. reflexivity.
Defined.

Lemma lower_exit_gone_witness :
  body_uses_exit (exit_span_at 7) (lower_body (exit_span_at 7) sample_exit) = false.
Proof. apply lower_exit_gone. vm_compute. reflexivity. Defined.

(** ** [CASE] and the dispatch value

    [2 CASE 1 OF 10 EXIT ENDOF ENDCASE 5 +]: on the path where no arm matches,
    [ENDCASE] drops the 2 and 5 is added to what was below it. *)
Definition sample_case : list Expr :=
  [lit_at 2 0;
   Case [mkArm [lit_at 1 7] [lit_at 10 12; WordRef "exit" (span_at_byte 15)] (span_at_byte 9)] None
        (span_at_byte 2);
   lit_at 5 40; WordRef "+" (span_at_byte 42)].

(** Inverts the runs of a concrete body, one constructor at a time. *)
Ltac invert_run :=
  repeat match goal with
  | H : exec _ [] _ _ |- _ => inversion H; subst; clear H
  | H : exec _ (_ :: _) _ _ |- _ => inversion H; subst; clear H
  | H : exec1 _ _ _ _ |- _ => inversion H; subst; clear H; cbn in *; try done
  | H : exec_arms _ _ _ _ _ |- _ => inversion H; subst; clear H
  end; cbn in *; simplify_eq.

(** The pass is not sound for an [EXIT] inside a [CASE] arm: the code
    behind the [CASE] is moved into its default, which runs before [ENDCASE]
    drops the dispatch value, so it computes with that value and its result is
    dropped. *)
Theorem lower_exit_case_unsound :
  let exit := exit_span_at 15 in
  @returns ZMachine (λ _ sp, exit sp) sample_case ([100], []) ([105], []) ∧
  lower_body exit sample_case =
    [lit_at 2 0;
     Case [mkArm [lit_at 1 7] [lit_at 10 12] (span_at_byte 9)]
          (Some [lit_at 5 40; WordRef "+" (span_at_byte 42)]) (span_at_byte 2)] ∧
  @returns ZMachine (λ _ sp, exit sp) (lower_body exit sample_case) ([100], []) ([100], []) ∧
  ¬ @returns ZMachine (λ _ sp, exit sp) (lower_body exit sample_case) ([100], []) ([105], []).
Proof.
  set (M := ZMachine). intros exit. split; [|split; [|split]].
  - left. repeat first
      [ eapply (@x_cons M) | by apply (@x_leaf M) | apply (@x_nil M) | apply (@x_case M)
      | eapply (@a_miss M _ _ _ _ _ _ 2 [100] [] 1 2 [2; 100] []) | reflexivity ].
    { apply (@a_default M _ _ _ 2), (@x_nil M). }
    all: by apply (@x_leaf M).
  - vm_compute. reflexivity.
  - left. replace (lower_body exit sample_case) with
      [lit_at 2 0; Case [mkArm [lit_at 1 7] [lit_at 10 12] (span_at_byte 9)]
          (Some [lit_at 5 40; WordRef "+" (span_at_byte 42)]) (span_at_byte 2)]
      by (vm_compute; reflexivity).
    repeat first
      [ eapply (@x_cons M) | by apply (@x_leaf M) | apply (@x_nil M) | apply (@x_case M)
      | eapply (@a_miss M _ _ _ _ _ _ 2 [100] [] 1 2 [2; 100] []) | reflexivity ].
    apply (@a_default M _ _ _ 7). 
    repeat first [ eapply (@x_cons M) | by apply (@x_leaf M) | apply (@x_nil M) ].
  - replace (lower_body exit sample_case) with
      [lit_at 2 0; Case [mkArm [lit_at 1 7] [lit_at 10 12] (span_at_byte 9)]
          (Some [lit_at 5 40; WordRef "+" (span_at_byte 42)]) (span_at_byte 2)]
      by (vm_compute; reflexivity).
    intros [Hr|Hr]; do 3 invert_run.
    by match goal with H : if _ then _ else _ |- _ => vm_compute in H end.
Qed.
