(* ===== verification/Classes.v ===== *)
(** * Class slots ([src/compiler/lower_classes.rs])

    The full slot list of every class, inherited slots first, and the words a
    class declaration brings into being. *)
From S2P Require Import Prelude Bytes Lex Ast.

Notation class_map := (gmap string (list string)).

(** The slots the parent had when the class is declared; an unknown parent
    gives none (the resolver reports it). *)
Definition inherited (out : class_map) (c : ClassDef) : list string :=
  match cl_extends c with
  | Some parent => default [] (out !! lowercase parent)
  | None => []
  end.
Definition own_slots (c : ClassDef) : list string := (λ s, lowercase (sl_name s)) <$> cl_slots c.

Definition add_class (out : class_map) (i : Item) : class_map :=
  match i with
  | IClass c => <[lowercase (cl_name c) := inherited out c ++ own_slots c]> out
  | _ => out
  end.

Definition compute_class_slots (p : Program) (prior_classes : class_map) : class_map :=
  fold_left add_class (p_items p) prior_classes.

(** The words declared for one slot, then for the class. *)
Definition slot_names_of (class_lc s : string) : list string :=
  [class_lc +:+ ">" +:+ s; s +:+ ">>" +:+ class_lc; class_lc +:+ "." +:+ s +:+ "!"].

Definition class_synthesised_names (c : ClassDef) (all_slots : list string) : list (string * Span) :=
  let class_lc := lowercase (cl_name c) in
  (λ n, (n, cl_name_span c)) <$>
    [class_lc; "<" +:+ class_lc +:+ ">"; class_lc +:+ "?"] ++
    flat_with (slot_names_of class_lc) all_slots.

(** ** What the map holds *)

Definition declares (n : string) (i : Item) : bool :=
  match i with IClass c => bool_decide (lowercase (cl_name c) = n) | _ => false end.

Lemma add_class_other n i out : declares n i = false → add_class out i !! n = out !! n.
Proof.
  destruct i; try done. cbn [declares add_class]. rewrite bool_decide_eq_false. intros Hn.
  by rewrite lookup_insert_ne.
Qed.

Lemma fold_classes_other n items out :
  forallb (λ i, negb (declares n i)) items = true → fold_left add_class items out !! n = out !! n.
Proof.
  revert out. induction items as [|i items IH]; intros out; [done|]. cbn.
  intros [Hi Hr]%andb_true_iff. rewrite IH by done. apply add_class_other. by apply negb_true_iff.
Qed.

(** The slots of a class are those its parent had before it, then its
    own, in declaration order; the last declaration of a name counts, and as
    long as the parent is not declared again the parent's final slots are a
    prefix of the class's, so a method on the parent finds its slots. *)
Theorem class_slots_inherit (pre post : list Item) (c : ClassDef) (prior : class_map)
    (Hlast : forallb (λ i, negb (declares (lowercase (cl_name c)) i)) post = true) :
  let final := compute_class_slots (mkProgram (pre ++ IClass c :: post)) prior in
  let before := compute_class_slots (mkProgram pre) prior in
  final !! lowercase (cl_name c) = Some (inherited before c ++ own_slots c) ∧
  (∀ parent, cl_extends c = Some parent → lowercase parent ≠ lowercase (cl_name c) →
     forallb (λ i, negb (declares (lowercase parent) i)) post = true →
     default [] (final !! lowercase parent) `prefix_of` default [] (final !! lowercase (cl_name c))).
Proof.
  intros final before.
  assert (final = fold_left add_class post
            (<[lowercase (cl_name c) := inherited before c ++ own_slots c]> before)) as Hf.
  { subst final before. unfold compute_class_slots. cbn [p_items]. by rewrite fold_left_app. }
  assert (final !! lowercase (cl_name c) = Some (inherited before c ++ own_slots c)) as Hc.
  { rewrite Hf, fold_classes_other by done. by rewrite lookup_insert_eq. }
  split; [done|]. intros parent Hp Hne Hpost. rewrite Hc. simpl.
  rewrite Hf, fold_classes_other, lookup_insert_ne by done.
  unfold inherited. rewrite Hp. by apply prefix_app_r.
Qed.

Definition sp0 : Span := mkSpan (mkPos 1 1 0) (mkPos 1 1 0).
Definition sample_class (n : string) (p : option string) (slots : list string) : ClassDef :=
  mkClass n sp0 p ((λ s, mkSlot s sp0) <$> slots) sp0.

Lemma class_slots_inherit_witness :
  default [] (compute_class_slots (mkProgram
      [IClass (sample_class "Point" None ["x"; "Y"]); IClass (sample_class "point3" (Some "POINT") ["z"])])
    ∅ !! "point3") = ["x"; "y"; "z"] ∧
  ["x"; "y"] `prefix_of` ["x"; "y"; "z"].
Proof.
  destruct (class_slots_inherit [IClass (sample_class "Point" None ["x"; "Y"])] []
              (sample_class "point3" (Some "POINT") ["z"]) ∅ eq_refl) as [H1 H2].
  split.
  - vm_compute. reflexivity.
  - specialize (H2 "POINT" eq_refl). vm_compute in H2. apply H2; [intros [=]|reflexivity].
Defined.
