(* ===== verification/Parse.v ===== *)
(** * The parser ([src/compiler/parse.rs])

    Recursive descent over the token list; the state is the list of tokens
    behind the cursor.  [Panic] stands for the [unwrap]s and [expect]s of the
    source, so that their absence is a theorem.  Functions that parse nested
    code take [expr], the parser of one expression; [expr_one] ties the knot
    on a bound of the nesting, and every loop takes fuel ([ParseFacts] shows
    that the number of tokens is enough for both). *)
From S2P Require Import Prelude Bytes F64 Lex LetLang Ast.

(** ** Errors *)

Inductive ParseError :=
  | ExpectedDefName (at_ : Span)
  | ExpectedDefiningName (keyword : string) (at_ : Span)
  | ConstantWithoutValue (keyword : string) (at_ : Span)
  | NonLiteralConstantValue (keyword : string) (at_ : Span)
  | NestedColon (outer inner : Span)
  | StraySemicolon (at_ : Span)
  | UnterminatedDefinition (opened_at : Span)
  | MalformedStackEffect (at_ : Span) (reason : string)
  | StrayControlWord (word : string) (at_ : Span)
  | UnterminatedControl (opener : string) (opened_at : Span) (expected : list string)
  | LetSyntax (at_ : Span) (reason : string).

Definition quoted (s : string) : string := "`" +:+ s +:+ "`".

Definition show_parse_error (e : ParseError) : string :=
  match e with
  | ExpectedDefName at_ => "expected definition name after `:` at " +:+ show_span at_
  | ExpectedDefiningName kw at_ => "expected name after `" +:+ kw +:+ "` at " +:+ show_span at_
  | ConstantWithoutValue kw at_ =>
      quoted kw +:+ " at " +:+ show_span at_ +:+
      " needs a value before it (e.g. `64 CONSTANT max`)"
  | NonLiteralConstantValue kw at_ =>
      quoted kw +:+ " at " +:+ show_span at_ +:+
      ": only literal values are supported in this milestone"
  | NestedColon _ inner =>
      "nested `:` at " +:+ show_span inner +:+ ": ANS forbids defining a word inside another"
  | StraySemicolon at_ => "stray `;` at " +:+ show_span at_ +:+ ": no `:` to close"
  | UnterminatedDefinition at_ => "unterminated `:` definition opened at " +:+ show_span at_
  | MalformedStackEffect at_ reason =>
      "malformed stack effect at " +:+ show_span at_ +:+ ": " +:+ reason
  | StrayControlWord w at_ =>
      "stray `" +:+ w +:+ "` at " +:+ show_span at_ +:+ ": no matching opener"
  | UnterminatedControl opener at_ expected =>
      "unterminated `" +:+ opener +:+ "` opened at " +:+ show_span at_ +:+
      "; expected one of: " +:+ concat_sep ", " (quoted <$> expected)
  | LetSyntax at_ reason => "LET syntax error at " +:+ show_span at_ +:+ ": " +:+ reason
  end.

Inductive pfail := PErr (e : ParseError) | Panic.

Notation presult A := (outcome pfail (A * list Token)).
Definition perr {A} (e : ParseError) : outcome pfail A := Fail (PErr e).

(** ** Tokens *)

Definition is_comment (t : Token) : bool :=
  match t_kind t with TLineComment _ | TBlockComment _ => true | _ => false end.

Fixpoint skip_comments (toks : list Token) : list Token :=
  match toks with
  | t :: rest => if is_comment t then skip_comments rest else toks
  | [] => []
  end.

(** The lower-cased text of a word token. *)
Definition word_lc (t : Token) : option string :=
  match t_kind t with TWord w => Some (lowercase w) | _ => None end.
(** The token is the word [s], in exactly this case. *)
Definition is_word (s : string) (t : Token) : bool :=
  match t_kind t with TWord w => bool_decide (w = s) | _ => false end.

Definition span_to (a b : Span) : Span := mkSpan (sp_start a) (sp_end b).

(** The next token, which has to be a word: its text and span. *)
Definition expect_name (e : ParseError) (toks : list Token) : presult (string * Span) :=
  match toks with
  | t :: rest => match t_kind t with TWord w => Done ((w, t_span t), rest) | _ => perr e end
  | [] => perr e
  end.

(** ** Stack effects *)

(** The text before and after the first free-standing [--]; [before] is the
    text passed, [left_ok] whether a [--] may start here. *)
Fixpoint find_dashes (before : string) (left_ok : bool) (s : string) : option (string * string) :=
  match s with
  | String a s1 =>
      match s1 with
      | String b s2 =>
          if (a =? "-")%char && (b =? "-")%char && left_ok &&
             match s2 with EmptyString => true | String c _ => is_ascii_ws c end
          then Some (before, s2)
          else find_dashes (before +:+ String a "") (is_ascii_ws a) s1
      | EmptyString => None
      end
  | EmptyString => None
  end.

Definition parse_stack_effect (body : string) (span : Span) : option StackEffect :=
  match find_dashes "" true body with
  | Some (ins, outs) => Some (mkStackEffect (split_whitespace ins) (split_whitespace outs) span)
  | None => None
  end.

(** ** Locals *)

Fixpoint parse_locals_block (fuel : nat) (open_span : Span) (toks : list Token)
  : presult (list LocalDecl) :=
  match fuel with
  | O => OutOfFuel
  | S fuel' =>
      match skip_comments toks with
      | [] => perr (UnterminatedDefinition open_span)
      | t :: rest =>
          match t_kind t with
          | TWord w =>
              if bool_decide (w = ":}") then Done ([], rest)
              else if bool_decide (w = ";") || bool_decide (w = ":") || bool_decide (w = "{:")
                then perr (UnterminatedDefinition open_span)
              else
                '(names, rest') ← parse_locals_block fuel' open_span rest;
                Done (mkLocalDecl w (t_span t) :: names, rest')
          | _ => perr (UnterminatedDefinition open_span)
          end
      end
  end.

(** ** Control flow *)

Definition expr_parser : Type := Token → list Token → presult Expr.

Section Blocks.
Context (expr : expr_parser) (fuel : nat).

Fixpoint block_until (n : nat) (opener : string) (opened_at : Span)
    (terminators : list string) (toks : list Token) : presult (list Expr * Token) :=
  match n with
  | O => OutOfFuel
  | S n' =>
      match skip_comments toks with
      | [] => perr (UnterminatedControl opener opened_at terminators)
      | t :: rest =>
          let next :=
            '(e, rest1) ← expr t rest;
            '((body, term), rest2) ← block_until n' opener opened_at terminators rest1;
            Done ((e :: body, term), rest2) in
          match t_kind t with
          | TWord w =>
              if bool_decide (lowercase w ∈ terminators) then Done (([], t), rest)
              else if bool_decide (w = ";")
                then perr (UnterminatedControl opener opened_at terminators)
              else next
          | _ => next
          end
      end
  end.

Definition parse_block_until := block_until fuel.

(** The text of a terminator; for anything but a word it is [unreachable!()]. *)
Definition term_word (t : Token) : outcome pfail string :=
  match word_lc t with Some w => Done w | None => Fail Panic end.

Definition parse_if (if_span : Span) (toks : list Token) : presult Expr :=
  '((then_body, term), rest) ← parse_block_until "if" if_span ["else"; "then"] toks;
  w ← term_word term;
  if bool_decide (w = "else") then
    '((eb, then_tok), rest1) ← parse_block_until "else" (t_span term) ["then"] rest;
    Done (If then_body (Some eb) (span_to if_span (t_span then_tok)), rest1)
  else Done (If then_body None (span_to if_span (t_span term)), rest).

Definition parse_begin (begin_span : Span) (toks : list Token) : presult Expr :=
  '((body, term), rest) ← parse_block_until "begin" begin_span ["until"; "again"; "while"] toks;
  w ← term_word term;
  let span := span_to begin_span (t_span term) in
  if bool_decide (w = "until") then Done (BeginUntil body span, rest)
  else if bool_decide (w = "again") then Done (BeginAgain body span, rest)
  else if bool_decide (w = "while") then
    '((loop_body, repeat_tok), rest1) ← parse_block_until "while" (t_span term) ["repeat"] rest;
    Done (BeginWhileRepeat body loop_body (span_to begin_span (t_span repeat_tok)), rest1)
  else Fail Panic.

Definition parse_do (do_span : Span) (is_qdo : bool) (toks : list Token) : presult Expr :=
  '((body, term), rest) ←
    parse_block_until (if is_qdo then "?do" else "do") do_span ["loop"; "+loop"] toks;
  w ← term_word term;
  loop_kind ← (if bool_decide (w = "loop") then Done Plus1
               else if bool_decide (w = "+loop") then Done PlusN else Fail Panic);
  Done (DoLoop is_qdo body loop_kind (span_to do_span (t_span term)), rest).

(** One round per arm; [arms] are those read so far. *)
Fixpoint parse_case_loop (n : nat) (case_span : Span) (arms : list CaseArm) (toks : list Token)
  : presult Expr :=
  match n with
  | O => OutOfFuel
  | S n' =>
      '((exprs, term), rest) ←
        parse_block_until "case" case_span ["of"; "default"; "other"; "endcase"] toks;
      w ← term_word term;
      if bool_decide (w = "of") then
        let arm_start := match exprs with e :: _ => expr_span e | [] => t_span term end in
        '((body, endof), rest1) ← parse_block_until "of" (t_span term) ["endof"] rest;
        parse_case_loop n' case_span
          (arms ++ [mkArm exprs body (span_to arm_start (t_span endof))]) rest1
      else if bool_decide (w = "default") || bool_decide (w = "other") then
        '((body, endcase), rest1) ← parse_block_until w (t_span term) ["endcase"] rest;
        Done (Case arms (Some body) (span_to case_span (t_span endcase)), rest1)
      else
        Done (Case arms (match exprs with [] => None | _ => Some exprs end)
                   (span_to case_span (t_span term)), rest)
  end.
Definition parse_case (case_span : Span) (toks : list Token) : presult Expr :=
  parse_case_loop fuel case_span [] toks.

(** [' name], [TO name] and [SEE name]. *)
Definition parsing_word (keyword : string) (build : string → Span → Expr) (t : Token)
    (toks : list Token) : presult Expr :=
  '((name, name_span), rest) ← expect_name (ExpectedDefiningName keyword (t_span t)) toks;
  Done (build name (span_to (t_span t) name_span), rest).

Definition stray_words : list string :=
  ["else"; "then"; "until"; "while"; "repeat"; "again"; "loop"; "+loop";
   "of"; "endof"; "default"; "other"; "endcase"].

Definition word_expr (w : string) (t : Token) (rest : list Token) : presult Expr :=
  let lc := lowercase w in
  if bool_decide (lc = "if") then parse_if (t_span t) rest
  else if bool_decide (lc = "begin") then parse_begin (t_span t) rest
  else if bool_decide (lc = "do") then parse_do (t_span t) false rest
  else if bool_decide (lc = "?do") then parse_do (t_span t) true rest
  else if bool_decide (lc = "case") then parse_case (t_span t) rest
  else if bool_decide (lc = "'") then parsing_word "'" Tick t rest
  else if bool_decide (lc = "to") then parsing_word "TO" To t rest
  else if bool_decide (lc = "see") then parsing_word "SEE" See t rest
  else if bool_decide (lc = "{:") then
    '(names, rest1) ← parse_locals_block fuel (t_span t) rest;
    Done (Locals names (t_span t), rest1)
  else if bool_decide (lc ∈ stray_words) then perr (StrayControlWord lc (t_span t))
  else Done (WordRef w (t_span t), rest).

Definition expr_one_with (t : Token) (rest : list Token) : presult Expr :=
  match t_kind t with
  | TInt v _ _ => Done (Lit (LitInt v (t_span t)), rest)
  | TFloat x _ => Done (Lit (LitFloat x (t_span t)), rest)
  | TStr v k => Done (Lit (LitStr v k (t_span t)), rest)
  | TLetBlock text =>
      match let_parse text with
      | Done form => Done (LetExpr form (t_span t), rest)
      | Fail e => perr (LetSyntax (t_span t) (le_message e))
      | OutOfFuel => OutOfFuel
      end
  | TWord w => word_expr w t rest
  | TLineComment _ | TBlockComment _ =>
      match rest with t' :: rest' => expr t' rest' | [] => Fail Panic end
  end.
End Blocks.

Fixpoint expr_one (fuel depth : nat) : expr_parser :=
  match depth with
  | O => λ _ _, OutOfFuel
  | S d => expr_one_with (expr_one fuel d) fuel
  end.

(** ** Definitions *)

Inductive ColonResult := CDef (d : Definition_) | CTemplate (t : TemplateDef).

Section Items.
Context (fuel : nat).
#[local] Notation expr := (expr_one fuel fuel).

(** The body of a [:] definition or a method, up to [;]: the expressions and
    the span of the [;]. A [:] is an error inside a definition only. *)
Fixpoint def_body (n : nat) (opened_at : Span) (colon_is_error : bool) (toks : list Token)
  : presult (list Expr * Span) :=
  match n with
  | O => OutOfFuel
  | S n' =>
      match skip_comments toks with
      | [] => perr (UnterminatedDefinition opened_at)
      | t :: rest =>
          if is_word ";" t then Done (([], t_span t), rest)
          else if colon_is_error && is_word ":" t then perr (NestedColon opened_at (t_span t))
          else
            '(e, rest1) ← expr t rest;
            '((body, end_span), rest2) ← def_body n' opened_at colon_is_error rest1;
            Done ((e :: body, end_span), rest2)
      end
  end.

(** The optional stack effect right behind a name. *)
Definition opt_effect (toks : list Token) : option StackEffect * list Token :=
  match toks with
  | t :: rest =>
      match t_kind t with
      | TBlockComment body =>
          match parse_stack_effect body (t_span t) with
          | Some e => (Some e, rest)
          | None => (None, toks)
          end
      | _ => (None, toks)
      end
  | [] => (None, [])
  end.

(** The optional [{: names :}] in front of a body. *)
Definition head_locals (toks : list Token) : presult (list LocalDecl) :=
  match skip_comments toks with
  | t :: rest =>
      if is_word "{:" t then parse_locals_block fuel (t_span t) rest else Done ([], t :: rest)
  | [] => Done ([], [])
  end.

(** [iter().position] of the first reference to the word [w]. *)
Fixpoint word_position (w : string) (body : list Expr) : option nat :=
  match body with
  | [] => None
  | e :: rest =>
      if match e with WordRef n _ => eq_nocase n w | _ => false end then Some 0%nat
      else S <$> word_position w rest
  end.

(** A body with [CREATE] before [DOES>] makes the definition a template. *)
Definition finish_colon (name : string) (name_span : Span) (effect : option StackEffect)
    (locals : list LocalDecl) (body : list Expr) (span : Span) : ColonResult :=
  match word_position "create" body, word_position "does>" body with
  | Some ci, Some di =>
      if (ci <? di)%nat then
        CTemplate (mkTemplate name name_span effect
                     (take (di - ci - 1) (drop (ci + 1) body)) (drop (di + 1) body) span)
      else CDef (mkDefinition name name_span effect locals body span)
  | _, _ => CDef (mkDefinition name name_span effect locals body span)
  end.

Definition colon_definition (colon_span : Span) (toks : list Token) : presult ColonResult :=
  '((name, name_span), rest) ← expect_name (ExpectedDefName colon_span) toks;
  let '(effect, rest1) := opt_effect rest in
  '(locals, rest2) ← head_locals rest1;
  '((body, end_span), rest3) ← def_body fuel colon_span true rest2;
  Done (finish_colon name name_span effect locals body (span_to colon_span end_span), rest3).

(** ** Classes, generics and methods *)

Fixpoint class_body (n : nat) (kw_span : Span) (toks : list Token)
  : presult (list SlotDef * Span) :=
  match n with
  | O => OutOfFuel
  | S n' =>
      match skip_comments toks with
      | [] => perr (UnterminatedDefinition kw_span)
      | t :: rest =>
          if is_word ";" t then Done (([], t_span t), rest)
          else if bool_decide (word_lc t = Some "slot:") then
            '((name, name_span), rest1) ←
              expect_name (ExpectedDefiningName "SLOT:" kw_span) (skip_comments rest);
            '((slots, end_span), rest2) ← class_body n' kw_span rest1;
            Done ((mkSlot name name_span :: slots, end_span), rest2)
          else
            perr (StrayControlWord
                    match t_kind t with TWord w => w | _ => "<non-word>" end (t_span t))
      end
  end.

Definition extends_clause (kw_span : Span) (toks : list Token) : presult (option string) :=
  match toks with
  | t :: rest =>
      if bool_decide (word_lc t = Some "extends") then
        '((parent, _), rest1) ←
          expect_name (ExpectedDefiningName "EXTENDS" kw_span) (skip_comments rest);
        Done (Some parent, rest1)
      else Done (None, toks)
  | [] => Done (None, [])
  end.

Definition class_definition (kw_span : Span) (toks : list Token) : presult ClassDef :=
  '((name, name_span), rest) ← expect_name (ExpectedDefiningName "CLASS:" kw_span) toks;
  '(extends, rest1) ← extends_clause kw_span (skip_comments rest);
  '((slots, end_span), rest2) ← class_body fuel kw_span rest1;
  Done (mkClass name name_span extends slots (span_to kw_span end_span), rest2).

(** The stack effect a generic or a method has to declare. *)
Definition required_effect (missing malformed : string) (name_span : Span) (toks : list Token)
  : presult (StackEffect * Span) :=
  match toks with
  | t :: rest =>
      match t_kind t with
      | TBlockComment body =>
          match parse_stack_effect body (t_span t) with
          | Some e => Done ((e, t_span t), rest)
          | None => perr (MalformedStackEffect (t_span t) malformed)
          end
      | _ => perr (MalformedStackEffect name_span missing)
      end
  | [] => perr (MalformedStackEffect name_span missing)
  end.

Definition generic_declaration (kw_span : Span) (toks : list Token) : presult GenericDef :=
  '((name, name_span), rest) ← expect_name (ExpectedDefiningName "GENERIC:" kw_span) toks;
  '((effect, eff_span), rest1) ←
    required_effect "GENERIC: requires a stack effect annotation"
                    "GENERIC: stack effect must contain `--`" name_span rest;
  Done (mkGeneric name name_span effect (span_to kw_span eff_span), rest1).

(** Inputs [name:class] give a specialiser and the bare name. *)
Fixpoint split_specializers (i : Z) (eff_span : Span) (inputs : list string)
  : list MethodSpecializer * list string :=
  match inputs with
  | [] => ([], [])
  | raw :: rest =>
      let '(specs, clean) := split_specializers (i + 1) eff_span rest in
      match split_once ":" raw with
      | Some (pname, cls) =>
          if nonempty pname && nonempty cls
          then (mkSpecializer (u32_wrap i) pname cls eff_span :: specs, pname :: clean)
          else (specs, raw :: clean)
      | None => (specs, raw :: clean)
      end
  end.

Definition method_definition (kw_span : Span) (kw_static : string) (kind : MethodKind)
    (toks : list Token) : presult MethodDef :=
  '((gname, gname_span), rest) ← expect_name (ExpectedDefiningName kw_static kw_span) toks;
  '((raw_effect, eff_span), rest1) ←
    required_effect "METHOD: requires a stack effect annotation"
                    "METHOD: stack effect must contain `--`" gname_span rest;
  let '(specializers, clean_inputs) := split_specializers 0 eff_span (se_inputs raw_effect) in
  let effect := mkStackEffect clean_inputs (se_outputs raw_effect) (se_span raw_effect) in
  '(locals, rest2) ← head_locals rest1;
  '((body, end_span), rest3) ← def_body fuel kw_span false rest2;
  Done (mkMethod gname gname_span specializers effect locals body
          (span_to kw_span end_span) kind, rest3).

(** ** The top level *)

(** Items read, expressions pending, and where the pending ones start. *)
Record PState := mkPState {
  ps_items : list Item; ps_pending : list Expr; ps_start : option Span }.

Definition push_item (i : Item) (s : PState) : PState :=
  mkPState (ps_items s ++ [i]) (ps_pending s) (ps_start s).

Definition flush_pending (s : PState) : outcome pfail PState :=
  match last (ps_pending s) with
  | None => Done s
  | Some e =>
      match ps_start s with
      | Some start =>
          Done (mkPState (ps_items s ++ [ITopLevel (ps_pending s) (span_to start (expr_span e))])
                         [] None)
      | None => Fail Panic
      end
  end.

(** The size of one [N ALLOT], [N CELLS ALLOT] or [N CHARS ALLOT], if the
    tokens (comments between them skipped) start with one. *)
Definition allot_one (toks : list Token) : option (Z * Span * list Token) :=
  match skip_comments toks with
  | t :: rest =>
      match t_kind t with
      | TInt v _ _ =>
          if 0 <=? v then
            let n_val := u32_wrap v in
            let rest0 := skip_comments rest in
            let '(multiplier, rest1) :=
              match rest0 with
              | t2 :: rest2 =>
                  if bool_decide (word_lc t2 = Some "cells") then (8, skip_comments rest2)
                  else if bool_decide (word_lc t2 = Some "chars") then (1, skip_comments rest2)
                  else (1, rest0)
              | [] => (1, [])
              end in
            match rest1 with
            | t3 :: rest3 =>
                if bool_decide (word_lc t3 = Some "allot")
                then Some (u32_sat_mul n_val multiplier, t_span t3, rest3) else None
            | [] => None
            end
          else None
      | _ => None
      end
  | [] => None
  end.

(** The loop rolls the cursor back when no further run follows. *)
Fixpoint allot_loop (n : nat) (allotted : Z) (end_span : Span) (toks : list Token)
  : presult (Z * Span) :=
  match n with
  | O => OutOfFuel
  | S n' =>
      match allot_one toks with
      | Some (size, span, rest) => allot_loop n' (u32_sat_add allotted size) span rest
      | None => Done ((allotted, end_span), toks)
      end
  end.

(** One definition per keyword; [t] is the keyword, [rest] what follows. *)

Definition arm_variable (t : Token) (rest : list Token) (s : PState) : presult PState :=
  s1 ← flush_pending s;
  '((name, name_span), rest1) ← expect_name (ExpectedDefiningName "VARIABLE" (t_span t)) rest;
  Done (push_item (IVariable (mkVariable name name_span (span_to (t_span t) name_span))) s1, rest1).

Definition arm_needs (t : Token) (rest : list Token) (s : PState) : presult PState :=
  s1 ← flush_pending s;
  '((path, path_span), rest1) ← expect_name (ExpectedDefiningName "NEEDS" (t_span t)) rest;
  Done (push_item (INeeds path (span_to (t_span t) path_span)) s1, rest1).

Definition arm_create (t : Token) (rest : list Token) (s : PState) : presult PState :=
  s1 ← flush_pending s;
  '((name, name_span), rest1) ← expect_name (ExpectedDefiningName "CREATE" (t_span t)) rest;
  '((allotted, end_span), rest2) ← allot_loop fuel 0 name_span rest1;
  Done (push_item (ICreate (mkCreate name name_span allotted (span_to (t_span t) end_span))) s1,
        rest2).

(** [Vec::pop]. *)
Definition pop_pending (s : PState) : option (Expr * PState) :=
  match last (ps_pending s) with
  | Some e => Some (e, mkPState (ps_items s) (removelast (ps_pending s)) (ps_start s))
  | None => None
  end.

Definition arm_collection (kind : CollectionKind) (keyword : string) (t : Token)
    (rest : list Token) (s : PState) : presult PState :=
  match pop_pending s with
  | None => perr (ConstantWithoutValue keyword (t_span t))
  | Some (size_expr, s1) =>
      match size_expr with
      | Lit (LitInt v _) =>
          if 0 <=? v then
            s2 ← flush_pending s1;
            '((name, name_span), rest1) ←
              expect_name (ExpectedDefiningName keyword (t_span t)) rest;
            Done (push_item (ICollection (mkCollection name name_span kind (u32_wrap v)
                               (span_to (expr_span size_expr) name_span))) s2, rest1)
          else perr (NonLiteralConstantValue keyword (expr_span size_expr))
      | _ => perr (NonLiteralConstantValue keyword (expr_span size_expr))
      end
  end.

Definition arm_constant (flavour : ConstFlavour) (keyword : string) (t : Token)
    (rest : list Token) (s : PState) : presult PState :=
  match ps_pending s with
  | [] => perr (ConstantWithoutValue keyword (t_span t))
  | e :: _ =>
      let value :=
        match ps_pending s with
        | [Lit (LitInt v _)] => CInt v
        | [Lit (LitFloat x _)] => CFloat x
        | _ => Computed (ps_pending s)
        end in
      '((name, name_span), rest1) ←
        expect_name (ExpectedDefiningName keyword (t_span t)) rest;
      Done (push_item (IConstant (mkConstant name name_span value
                         (span_to (expr_span e) name_span) flavour))
              (mkPState (ps_items s) [] None), rest1)
  end.

Definition arm_value (t : Token) (rest : list Token) (s : PState) : presult PState :=
  match ps_pending s with
  | [] => perr (ConstantWithoutValue "VALUE" (t_span t))
  | e :: _ =>
      '((name, name_span), rest1) ←
        expect_name (ExpectedDefiningName "VALUE" (t_span t)) rest;
      Done (push_item (IValue (mkValue name name_span (ps_pending s)
                         (span_to (expr_span e) name_span)))
              (mkPState (ps_items s) [] None), rest1)
  end.

(** Flush, then parse an item with [p]. *)
Definition arm_item {A} (build : A → Item) (p : Span → list Token → presult A) (t : Token)
    (rest : list Token) (s : PState) : presult PState :=
  s1 ← flush_pending s;
  '(x, rest1) ← p (t_span t) rest;
  Done (push_item (build x) s1, rest1).

Definition colon_item (r : ColonResult) : Item :=
  match r with CDef d => IDefinition d | CTemplate t => ITemplate t end.

Definition arm_expr (t : Token) (rest : list Token) (s : PState) : presult PState :=
  let start := match ps_start s with Some sp => sp | None => t_span t end in
  '(e, rest1) ← expr t rest;
  Done (mkPState (ps_items s) (ps_pending s ++ [e]) (Some start), rest1).

Definition dispatch (opener : option string) : Token → list Token → PState → presult PState :=
  let on w := bool_decide (opener = Some w) in
  if on ":" then arm_item colon_item colon_definition
  else if on ";" then λ t _ _, perr (StraySemicolon (t_span t))
  else if on "variable" then arm_variable
  else if on "needs" then arm_needs
  else if on "create" then arm_create
  else if on "array" then arm_collection Array "ARRAY"
  else if on "farray" then arm_collection FArray "FARRAY"
  else if on "cbuffer" then arm_collection CBuffer "CBUFFER"
  else if on "constant" then arm_constant CellFlavour "CONSTANT"
  else if on "fconstant" then arm_constant FloatFlavour "FCONSTANT"
  else if on "class:" then arm_item IClass class_definition
  else if on "generic:" then arm_item IGeneric generic_declaration
  else if on "method:" then
    arm_item IMethod (λ kw, method_definition kw "METHOD:" Primary)
  else if on "method-before:" then
    arm_item IMethod (λ kw, method_definition kw "METHOD-BEFORE:" Before)
  else if on "method-after:" then
    arm_item IMethod (λ kw, method_definition kw "METHOD-AFTER:" After)
  else if on "value" then arm_value
  else arm_expr.

Fixpoint program_loop (n : nat) (toks : list Token) (s : PState) : outcome pfail PState :=
  match n with
  | O => OutOfFuel
  | S n' =>
      match skip_comments toks with
      | [] => flush_pending s
      | t :: rest => '(s1, rest1) ← dispatch (word_lc t) t rest s; program_loop n' rest1 s1
      end
  end.
End Items.

Definition parse_fuel (toks : list Token) : nat := S (length toks).

Definition parse (toks : list Token) : outcome pfail Program :=
  let fuel := parse_fuel toks in
  s ← program_loop fuel fuel toks (mkPState [] [] None);
  Done (mkProgram (ps_items s)).

Definition parse_source (src : string) : outcome unit (outcome pfail Program) :=
  match lex src with Done toks => Done (parse toks) | Fail _ => Fail tt | OutOfFuel => OutOfFuel end.

Example parse_ex1 :
  match parse_source ": sq ( n -- n2 ) dup * ; 10 array a 3 CELLS constant k : c create , does> @ ; if" with
  | Done (Fail (PErr e)) => show_parse_error e
  | _ => ""
  end = "unterminated `if` opened at line 1, column 79; expected one of: `else`, `then`".
Proof. vm_compute. reflexivity. Qed.

Example parse_ex2 :
  match parse_source ": sq ( n -- n2 ) dup if 2 else 3 then ; 10 array a create b 3 cells allot 4 allot b" with
  | Done (Done (mkProgram [IDefinition d; ICollection c; ICreate cr; ITopLevel [WordRef "b" _] _])) =>
      (d_name d, length (d_body d), option_map se_inputs (d_effect d), co_count c, cr_allotted cr)
  | _ => ("", 0%nat, None, 0, 0)
  end = ("sq", 2%nat, Some ["n"], 10, 28).
Proof. vm_compute. reflexivity. Qed.
