(* ===== verification/ParseFacts.v ===== *)
(** * The parser terminates, never panics, and keeps the spans it is given

    Every parsing function consumes a prefix of its tokens; the spans of the
    word references it builds are spans of tokens of that prefix, in order,
    and the tree is no larger than the prefix is long.  Composed with the
    tiling of the tokeniser this gives the resolver distinct keys. *)
From S2P Require Import Prelude Bytes F64 Lex LexFacts LetLang LetFacts Ast Parse.

(** ** Consuming tokens *)

(** [r] ends without a panic; an answer leaves a suffix of [toks], and [Q]
    relates it to the tokens used. *)
Definition consumes {A} (Q : A → list Token → Prop) (toks : list Token) (r : presult A) : Prop :=
  match r with
  | Done (a, rest) => ∃ used, toks = used ++ rest ∧ Q a used
  | Fail (PErr _) => True
  | _ => False
  end.

Lemma consumes_bind {A B} (Q1 : A → list Token → Prop) (Q2 : B → list Token → Prop) toks
    (m : presult A) (f : A * list Token → presult B) :
  consumes Q1 toks m →
  (∀ a used rest, toks = used ++ rest → Q1 a used →
     consumes (λ b used2, Q2 b (used ++ used2)) rest (f (a, rest))) →
  consumes Q2 toks (m ≫= f).
Proof.
  destruct m as [[a rest]|[]|]; simpl; try done. intros (used & -> & HQ) Hf.
  specialize (Hf a used rest eq_refl HQ). destruct (f (a, rest)) as [[b rest2]|[]|]; simpl in *; try done.
  destruct Hf as (used2 & -> & HQ2). exists (used ++ used2). by rewrite app_assoc.
Qed.

Lemma consumes_prefix {A} (Q : A → list Token → Prop) pre toks r :
  consumes (λ a used, Q a (pre ++ used)) toks r → consumes Q (pre ++ toks) r.
Proof.
  destruct r as [[a rest]|[]|]; simpl; try done. intros (used & -> & HQ).
  exists (pre ++ used). by rewrite app_assoc.
Qed.

Lemma consumes_impl {A} (Q1 Q2 : A → list Token → Prop) toks r :
  consumes Q1 toks r → (∀ a used, Q1 a used → Q2 a used) → consumes Q2 toks r.
Proof. destruct r as [[a rest]|[]|]; simpl; naive_solver. Qed.

Lemma consumes_done {A} (Q : A → list Token → Prop) a rest :
  Q a [] → consumes Q rest (Done (a, rest)).
Proof. intros HQ. by exists []. Qed.

Lemma skip_comments_app toks : ∃ pre, toks = pre ++ skip_comments toks.
Proof.
  induction toks as [|t toks [pre IH]]; [by exists []|]. simpl.
  destruct (is_comment t); [|by exists []]. exists (t :: pre). by rewrite IH at 1.
Qed.

Lemma skip_comments_head toks t rest : skip_comments toks = t :: rest → is_comment t = false.
Proof.
  induction toks as [|t' toks IH]; [done|]. simpl. destruct (is_comment t') eqn:E; [done|].
  by intros [= <- _].
Qed.

(** Comments in front are consumed too. *)
Lemma consumes_comments {A} (Q : A → list Token → Prop) toks r :
  (∀ a pre used, Q a used → Q a (pre ++ used)) → consumes Q (skip_comments toks) r → consumes Q toks r.
Proof.
  intros HQ H. destruct (skip_comments_app toks) as [pre E]. rewrite E. apply consumes_prefix.
  eapply consumes_impl; eauto.
Qed.

Definition token_start (t : Token) : Pos := sp_start (t_span t).

(** [ws] are starts of tokens of [used], in order, and [k] is at most their
    number. *)
Definition within (ws : list Pos) (k : nat) (used : list Token) : Prop :=
  ws `sublist_of` (token_start <$> used) ∧ (k ≤ length used)%nat.

Lemma within_nil used : within [] 0 used.
Proof. split; [apply sublist_nil_l|lia]. Qed.

Lemma within_app a b k j u v : within a k u → within b j v → within (a ++ b) (k + j) (u ++ v).
Proof.
  intros [Ha Hk] [Hb Hj]. split; [|rewrite length_app; lia].
  rewrite fmap_app. by apply sublist_app.
Qed.

Lemma within_mono ws k j u pre post :
  within ws k u → (j ≤ k + length pre + length post)%nat → within ws j (pre ++ u ++ post).
Proof.
  intros [Hw Hk] Hj. split; [|rewrite !length_app; lia]. rewrite !fmap_app.
  by apply sublist_inserts_l, sublist_inserts_r.
Qed.

Lemma within_pre ws k u pre : within ws k u → within ws (length pre + k) (pre ++ u).
Proof. intros H. pose proof (within_mono ws k (length pre + k) u pre [] H) as Hm.
  rewrite app_nil_r in Hm. apply Hm. simpl. lia. Qed.

Lemma within_sub ws ws' k k' u : within ws k u → ws' `sublist_of` ws → (k' ≤ k)%nat → within ws' k' u.
Proof. intros [Hw Hk] ? ?. split; [by etransitivity|lia]. Qed.

Lemma within_one t : within [token_start t] 1 [t].
Proof. done. Qed.

Lemma expect_name_ok e toks :
  consumes (λ r used, ∃ t, used = [t]) toks (expect_name e toks).
Proof.
  destruct toks as [|t rest]; [done|]. cbn. destruct (t_kind t); try done. exists [t]. eauto.
Qed.

(** ** Locals and control flow *)

Lemma locals_ok fuel sp toks :
  (length toks < fuel)%nat →
  consumes (λ _ used, (1 ≤ length used)%nat) toks (parse_locals_block fuel sp toks).
Proof.
  revert toks. induction fuel as [|fuel IH]; intros toks Hf; [lia|]. cbn [parse_locals_block].
  apply consumes_comments; [intros; rewrite length_app; lia|]. destruct (skip_comments_app toks) as [pre Epre].
  destruct (skip_comments toks) as [|t rest]; [done|].
  assert (length rest < fuel)%nat as Hl by (rewrite Epre, length_app in Hf; simpl in Hf; lia).
  destruct (t_kind t) as [w| | | | | |]; try done.
  apply (consumes_prefix _ [t]). case_bool_decide; [by exists []; simpl; auto with lia|].
  destruct (_ || _); [done|].
  eapply consumes_bind; [by apply IH|]. intros ? used ? _ ?. apply consumes_done. simpl. lia.
Qed.

(** What a parser of one expression does with the tokens of length up to [K]. *)
Definition expr_post (e : Expr) (used : list Token) : Prop :=
  within (gather ref_start e) (expr_size e) used.
Definition sub_parser (expr : expr_parser) (K : nat) : Prop :=
  ∀ t rest, (length (t :: rest) ≤ K)%nat → is_comment t = false →
    consumes (λ e used, used ≠ [] ∧ expr_post e used) (t :: rest) (expr t rest).

(** What was read of a block, and the word of [terms] it ended with. *)
Definition block_post (terms : list string) (r : list Expr * Token) (used : list Token) : Prop :=
  within (ref_starts (fst r)) (S (seq_size (fst r))) used ∧ ∃ w, term_word (snd r) = Done w ∧ w ∈ terms.

Section Blocks.
Context (expr : expr_parser) (fuel K : nat).
Context (Hexpr : sub_parser expr K) (Hfuel : (K < fuel)%nat).
#[local] Set Default Proof Using "All".

Lemma block_ok n opener sp terms toks :
  (length toks < n)%nat → (length toks ≤ K)%nat →
  consumes (block_post terms) toks (block_until expr n opener sp terms toks).
Proof.
  revert toks. induction n as [|n IH]; intros toks Hn HK; [lia|]. cbn [block_until].
  apply consumes_comments.
  { intros [body t] pre used [Hb Hw]. split; [|done]. eapply within_sub; [by apply within_pre|done|lia]. }
  destruct (skip_comments_app toks) as [pre Epre]. pose proof (skip_comments_head toks) as Hcom.
  destruct (skip_comments toks) as [|t rest]; [done|]. specialize (Hcom t rest eq_refl).
  assert (length (t :: rest) ≤ length toks)%nat as Hl by (rewrite Epre, length_app; lia).
  simpl in Hl.
  assert (consumes (block_post terms) (t :: rest)
            ('(e, rest1) ← expr t rest;
             '((body, term), rest2) ← block_until expr n opener sp terms rest1;
             Done ((e :: body, term), rest2))) as Hnext.
  { eapply consumes_bind; [apply Hexpr; [simpl; lia|done]|].
    intros e used rest1 Er [Hne He]. apply (f_equal length) in Er. rewrite length_app in Er. simpl in Er.
    assert (0 < length used)%nat by (destruct used; [done|simpl; lia]).
    eapply consumes_bind; [apply IH; lia|].
    intros [body term] used2 rest2 _ [Hb Hw]. apply consumes_done. rewrite app_nil_r. split; [|exact Hw].
    cbn [fst] in *. rewrite seq_size_cons.
    replace (S (expr_size e + seq_size body)) with (expr_size e + S (seq_size body))%nat by lia.
    by apply within_app. }
  destruct (t_kind t) as [w| | | | | |] eqn:Ek; try exact Hnext.
  case_bool_decide; [|case_bool_decide; [done|exact Hnext]].
  exists [t]. split; [done|]. split; [split; [apply sublist_nil_l|simpl; lia]|].
  exists (lowercase w). unfold term_word, word_lc. cbn [snd]. by rewrite Ek.
Qed.

Lemma parse_block_ok opener sp terms toks :
  (length toks ≤ K)%nat → consumes (block_post terms) toks (parse_block_until expr fuel opener sp terms toks).
Proof. intros. apply block_ok; lia. Qed.

Lemma rest_le {toks used rest : list Token} :
  toks = used ++ rest → (length toks ≤ K)%nat → (length rest ≤ K)%nat.
Proof. intros ->. rewrite length_app. lia. Qed.

Lemma parse_if_ok sp toks :
  (length toks ≤ K)%nat → consumes expr_post toks (parse_if expr fuel sp toks).
Proof.
  intros HK. unfold parse_if. eapply consumes_bind; [by apply parse_block_ok|].
  intros [tb term] used rest Er [Hb (w & Hw & _)]. cbn [snd] in Hw. rewrite Hw, bind_done. case_bool_decide.
  - eapply consumes_bind; [apply parse_block_ok; by eapply rest_le|].
    intros [eb tt] used2 rest2 _ [Hb2 _]. apply consumes_done. rewrite app_nil_r.
    unfold expr_post. rewrite gather_if. cbn [ref_start app opt_flat].
    eapply within_sub; [by apply (within_app _ _ _ _ _ _ Hb Hb2)|done|].
    cbn [fst expr_size opt_sum]. unfold seq_size. lia.
  - apply consumes_done. rewrite app_nil_r. unfold expr_post. rewrite gather_if.
    cbn [ref_start app opt_flat]. rewrite app_nil_r. eapply within_sub; [exact Hb|done|].
    cbn [fst expr_size opt_sum]. unfold seq_size. lia.
Qed.

Lemma parse_begin_ok sp toks :
  (length toks ≤ K)%nat → consumes expr_post toks (parse_begin expr fuel sp toks).
Proof.
  intros HK. unfold parse_begin. eapply consumes_bind; [by apply parse_block_ok|].
  intros [b term] used rest Er [Hb (w & Hw & Hin)]. cbn [snd] in Hw. rewrite Hw, bind_done.
  case_bool_decide; [|case_bool_decide; [|case_bool_decide]].
  - apply consumes_done. rewrite app_nil_r. exact Hb.
  - apply consumes_done. rewrite app_nil_r. exact Hb.
  - eapply consumes_bind; [apply parse_block_ok; by eapply rest_le|].
    intros [b2 t2] used2 rest2 _ [Hb2 _]. apply consumes_done. rewrite app_nil_r.
    unfold expr_post. rewrite gather_while.
    eapply within_sub; [by apply (within_app _ _ _ _ _ _ Hb Hb2)|done|].
    cbn [fst expr_size]. unfold seq_size. lia.
  - set_solver.
Qed.

Lemma parse_do_ok sp q toks :
  (length toks ≤ K)%nat → consumes expr_post toks (parse_do expr fuel sp q toks).
Proof.
  intros HK. unfold parse_do. eapply consumes_bind; [by apply parse_block_ok|].
  intros [b term] used rest Er [Hb (w & Hw & Hin)]. cbn [snd] in Hw. rewrite Hw, bind_done.
  repeat case_bool_decide; [..|set_solver]; rewrite bind_done; apply consumes_done; rewrite app_nil_r; exact Hb.
Qed.

Definition case_post (arms : list CaseArm) (e : Expr) (used : list Token) : Prop :=
  ∃ more d sp, e = Case (arms ++ more) d sp ∧
    within (flat_with (gather_arm ref_start) more ++ opt_flat ref_starts d)
           (S (sum_with arm_size more + opt_sum seq_size d)) used.

Lemma parse_case_ok n sp arms toks :
  (length toks < n)%nat → (length toks ≤ K)%nat →
  consumes (case_post arms) toks (parse_case_loop expr fuel n sp arms toks).
Proof.
  revert arms toks. induction n as [|n IH]; intros arms toks Hn HK; [lia|]. cbn [parse_case_loop].
  eapply consumes_bind; [by apply parse_block_ok|].
  intros [exprs term] used rest Er [Hb (w & Hw & _)]. cbn [snd] in Hw. rewrite Hw, bind_done. pose proof (rest_le Er HK) as HK1.
  assert (length rest < length toks)%nat as Hlt.
  { destruct Hb as [_ Hb]. rewrite Er, length_app. lia. }
  case_bool_decide; [|destruct (_ || _)].
  - eapply consumes_bind; [by apply parse_block_ok|].
    intros [body endof] used2 rest2 Er2 [Hb2 _]. pose proof (rest_le Er2 HK1).
    eapply consumes_impl; [apply IH|].
    + apply (f_equal length) in Er2. rewrite length_app in Er2. lia.
    + done.
    + intros e used3 (more & d & sp' & -> & Hm). set (a := mkArm exprs body _).
      exists (a :: more), d, sp'. rewrite <- app_assoc. split; [done|].
      cbn [flat_with]. subst a. rewrite gather_arm_eq, <- !app_assoc.
      eapply within_sub; [apply (within_app _ _ _ _ _ _ Hb (within_app _ _ _ _ _ _ Hb2 Hm))|done|].
      cbn [fst sum_with arm_size]. unfold seq_size. lia.
  - eapply consumes_bind; [by apply parse_block_ok|].
    intros [body endcase] used2 rest2 Er2 [Hb2 _]. apply consumes_done. rewrite app_nil_r.
    exists [], (Some body). eexists. rewrite app_nil_r. split; [done|].
    cbn [flat_with app opt_flat sum_with opt_sum].
    apply (within_sub _ _ _ _ _ (within_pre _ _ _ used Hb2)); [done|cbn [fst]; lia].
  - apply consumes_done. rewrite app_nil_r. eexists [], _, _. rewrite app_nil_r. split; [done|].
    destruct exprs; exact Hb.
Qed.

Lemma parsing_word_ok kw build t toks :
  (∀ n s, (gather ref_start (build n s) = [] ∨ gather ref_start (build n s) = [sp_start s]) ∧
          expr_size (build n s) = 1%nat) →
  consumes (λ e used, used ≠ [] ∧ expr_post e used) (t :: toks) (parsing_word kw build t toks).
Proof.
  intros Hb. apply (consumes_prefix _ [t]). eapply consumes_bind; [apply expect_name_ok|].
  intros [n s] used rest _ [t' ->]. apply consumes_done. split; [done|]. rewrite app_nil_r.
  destruct (Hb n (span_to (t_span t) s)) as [Hg Hs]. unfold expr_post, within. rewrite Hs.
  split; [|simpl; lia]. destruct Hg as [-> | ->]; [apply sublist_nil_l|].
  apply sublist_skip, sublist_nil_l.
Qed.

(** An expression whose opening word was [t]. *)
Lemma opened t rest r :
  consumes expr_post rest r →
  consumes (λ e used, used ≠ [] ∧ expr_post e used) (t :: rest) r.
Proof.
  intros H. apply (consumes_prefix _ [t]). eapply consumes_impl; [exact H|].
  intros e used He. split; [done|]. eapply within_sub; [by apply within_pre|done|lia].
Qed.

Lemma simple_expr e t rest :
  gather ref_start e = [] ∨ gather ref_start e = [token_start t] → expr_size e = 1%nat →
  consumes (λ e used, used ≠ [] ∧ expr_post e used) (t :: rest) (Done (e, rest)).
Proof.
  intros Hg Hs. exists [t]. split; [done|]. split; [done|]. unfold expr_post. rewrite Hs.
  split; [|simpl; lia]. destruct Hg as [-> | ->]; [apply sublist_nil_l|done].
Qed.

Lemma expr_one_with_ok t rest :
  (length rest ≤ K)%nat → is_comment t = false →
  consumes (λ e used, used ≠ [] ∧ expr_post e used) (t :: rest) (expr_one_with expr fuel t rest).
Proof.
  intros HK Hc. unfold expr_one_with, is_comment in *.
  destruct (t_kind t) as [w|v b r|x r|v k|c|c|text]; try done;
    try (apply simple_expr; [by left|done]).
  - unfold word_expr.
    repeat (case_bool_decide; [first
      [ by apply opened, parse_if_ok | by apply opened, parse_begin_ok | by apply opened, parse_do_ok
      | apply parsing_word_ok; intros; split; [|done]; by (left + right) | apply opened]|]).
    + eapply consumes_impl; [apply parse_case_ok; lia|].
      intros e used (more & d & sp & -> & Hm). unfold expr_post. rewrite gather_case. exact Hm.
    + eapply consumes_bind; [apply locals_ok; lia|]. intros names used rest1 _ Hu.
      apply consumes_done. rewrite app_nil_r. split; [apply sublist_nil_l|exact Hu].
    + done.
    + apply simple_expr; [by right|done].
  - pose proof (let_parse_total text). destruct (let_parse text); try done.
    apply simple_expr; [by left|done].
Qed.
End Blocks.

Lemma expr_one_ok fuel depth K :
  (K < fuel)%nat → (K ≤ depth)%nat → sub_parser (expr_one fuel depth) K.
Proof.
  revert K. induction depth as [|d IH]; intros K Hf Hd t rest Hl Hc; simpl in Hl; [lia|].
  cbn [expr_one]. destruct K as [|K]; [lia|].
  apply (expr_one_with_ok _ fuel K); [apply IH; lia|lia..|done].
Qed.

(** ** Items *)

(** The sequences of [i] within the tokens used. *)
Definition seqs_starts (ls : list (list Expr)) : list Pos := flat_with ref_starts ls.
Definition seqs_size (ls : list (list Expr)) : nat := sum_with seq_size ls.

Lemma sum_with_app {A} (f : A → nat) a b : sum_with f (a ++ b) = (sum_with f a + sum_with f b)%nat.
Proof. induction a as [|x a IH]; simpl; [done|]. rewrite IH. lia. Qed.

Lemma seqs_starts_app a b : seqs_starts (a ++ b) = seqs_starts a ++ seqs_starts b.
Proof. apply flat_with_app. Qed.
Lemma seqs_size_app a b : seqs_size (a ++ b) = (seqs_size a + seqs_size b)%nat.
Proof. apply sum_with_app. Qed.

Definition item_post (i : Item) (used : list Token) : Prop :=
  within (seqs_starts (item_seqs i)) (seqs_size (item_seqs i)) used.

Definition body_post (r : list Expr * Span) (used : list Token) : Prop :=
  within (ref_starts (fst r)) (seq_size (fst r)) used.

(** A part of a sequence, in order. *)
Lemma part_starts (a b : list Expr) : a `sublist_of` b → ref_starts a `sublist_of` ref_starts b.
Proof.
  induction 1 as [|e a b _ IH|e a b _ IH]; [done| |].
  - unfold ref_starts. rewrite !gather_seq_cons. by apply sublist_app.
  - unfold ref_starts in *. rewrite gather_seq_cons. by apply sublist_inserts_l.
Qed.
Lemma part_size (a b : list Expr) : a `sublist_of` b → (seq_size a ≤ seq_size b)%nat.
Proof. induction 1; rewrite ?seq_size_cons; lia. Qed.

Lemma within_part body body' used :
  body' `sublist_of` body → within (ref_starts body) (seq_size body) used →
  within (ref_starts body') (seq_size body') used.
Proof. intros Hs Hw. eapply within_sub; [exact Hw|by apply part_starts|by apply part_size]. Qed.

Section Items.
Context (fuel : nat).
#[local] Notation short toks := (length (toks : list Token) < fuel)%nat.

Lemma short_rest toks used rest : toks = used ++ rest → short toks → short rest.
Proof. intros ->. rewrite length_app. lia. Qed.

Lemma def_body_ok n sp colon toks :
  (length toks < n)%nat → short toks → consumes body_post toks (def_body fuel n sp colon toks).
Proof.
  revert toks. induction n as [|n IH]; intros toks Hn Hf; [lia|]. cbn [def_body].
  apply consumes_comments.
  { intros [b e] pre used Hb. eapply within_sub; [by apply within_pre|done|lia]. }
  destruct (skip_comments_app toks) as [pre Epre]. pose proof (skip_comments_head toks) as Hcom.
  destruct (skip_comments toks) as [|t rest]; [done|]. specialize (Hcom t rest eq_refl).
  assert (length (t :: rest) ≤ length toks)%nat as Hl by (rewrite Epre, length_app; lia).
  simpl in Hl. destruct (is_word ";" t).
  { exists [t]. split; [done|]. split; [apply sublist_nil_l|simpl; lia]. }
  destruct (_ && _); [done|].
  eapply consumes_bind; [apply (expr_one_ok fuel fuel (length (t :: rest))); simpl; lia || done|].
  intros e used rest1 Er [Hne He]. apply (f_equal length) in Er. rewrite length_app in Er. simpl in Er.
  assert (0 < length used)%nat by (destruct used; [done|simpl; lia]).
  eapply consumes_bind; [apply IH; lia|]. intros [body es] used2 rest2 _ Hb.
  apply consumes_done. rewrite app_nil_r. unfold body_post in *. cbn [fst] in *.
  rewrite seq_size_cons. by apply within_app.
Qed.

Lemma opt_effect_app toks : ∃ pre, toks = pre ++ snd (opt_effect toks).
Proof.
  destruct toks as [|t rest]; [by exists []|]. cbn.
  destruct (t_kind t); try (by exists []). destruct (parse_stack_effect _ _); [by exists [t]|by exists []].
Qed.

Lemma head_locals_ok toks : short toks → consumes (λ _ _, True) toks (head_locals fuel toks).
Proof.
  intros Hf. unfold head_locals. apply consumes_comments; [done|].
  destruct (skip_comments_app toks) as [pre Epre].
  destruct (skip_comments toks) as [|t rest]; [by exists []|].
  destruct (is_word "{:" t); [|by exists []]. apply (consumes_prefix _ [t]).
  eapply consumes_impl; [apply locals_ok|done].
  rewrite Epre, length_app in Hf. simpl in Hf. lia.
Qed.

Lemma sublist_drop_1 {A} (l : list A) : drop 1 l `sublist_of` l.
Proof. destruct l; [done|]. by apply sublist_cons. Qed.

Lemma template_part ci di (body : list Expr) :
  (ci < di)%nat → take (di - ci - 1) (drop (ci + 1) body) ++ drop (di + 1) body `sublist_of` body.
Proof.
  intros Hlt.
  replace (drop (di + 1) body) with (drop 1 (drop (di - ci - 1) (drop (ci + 1) body)))
    by (rewrite !drop_drop; f_equal; lia).
  transitivity (drop (ci + 1) body); [|apply sublist_drop].
  set (l := drop (ci + 1) body).
  transitivity (take (di - ci - 1) l ++ drop (di - ci - 1) l); [|by rewrite take_drop].
  apply sublist_app; [done|]. apply sublist_drop_1.
Qed.

Lemma finish_colon_ok name ns eff ls body sp used :
  body_post (body, sp) used → item_post (colon_item (finish_colon name ns eff ls body sp)) used.
Proof.
  intros Hb. unfold finish_colon.
  assert (item_post (IDefinition (mkDefinition name ns eff ls body sp)) used) as Hdef.
  { unfold item_post, seqs_starts, seqs_size. cbn. rewrite app_nil_r, Nat.add_0_r. exact Hb. }
  destruct (word_position "create" body) as [ci|]; [|exact Hdef].
  destruct (word_position "does>" body) as [di|]; [|exact Hdef].
  destruct (Nat.ltb_spec ci di); [|exact Hdef].
  pose proof (within_part _ _ _ (template_part ci di body ltac:(lia)) Hb) as Hw.
  unfold item_post, seqs_starts, seqs_size. cbn. rewrite app_nil_r, Nat.add_0_r.
  rewrite seq_size_app in Hw. unfold ref_starts in *. by rewrite gather_seq_app in Hw.
Qed.

(** Parsers of what stands behind a keyword. *)
Definition item_parser {A} (build : A → Item) (p : Span → list Token → presult A) : Prop :=
  ∀ kw toks, short toks → consumes (λ a used, item_post (build a) used) toks (p kw toks).

Lemma item_post_pre i pre used : item_post i used → item_post i (pre ++ used).
Proof. intros H. eapply within_sub; [by apply within_pre|done|lia]. Qed.

Lemma colon_ok : item_parser colon_item (colon_definition fuel).
Proof.
  intros kw toks Hf. unfold colon_definition.
  eapply consumes_bind; [apply expect_name_ok|]. intros [name ns] used rest Er _.
  pose proof (short_rest _ _ _ Er Hf) as Hf1.
  destruct (opt_effect_app rest) as [pre Epre]. destruct (opt_effect rest) as [eff rest1].
  cbn [snd] in Epre. pose proof (short_rest _ _ _ Epre Hf1) as Hf2. rewrite Epre.
  apply consumes_prefix. eapply consumes_bind; [by apply head_locals_ok|].
  intros ls used2 rest2 Er2 _. pose proof (short_rest _ _ _ Er2 Hf2).
  eapply consumes_bind; [by apply def_body_ok|].
  intros [body es] used3 rest3 _ Hb. apply consumes_done. rewrite app_nil_r.
  do 3 apply item_post_pre. by apply finish_colon_ok.
Qed.

Lemma class_body_ok n kw toks :
  (length toks < n)%nat → consumes (λ _ _, True) toks (class_body n kw toks).
Proof.
  revert toks. induction n as [|n IH]; intros toks Hn; [lia|]. cbn [class_body].
  apply consumes_comments; [done|]. destruct (skip_comments_app toks) as [pre Epre].
  destruct (skip_comments toks) as [|t rest]; [done|].
  assert (length rest < n)%nat as Hl by (rewrite Epre, length_app in Hn; simpl in Hn; lia).
  apply (consumes_prefix _ [t]). destruct (is_word ";" t); [by exists []|].
  case_bool_decide; [|done]. apply consumes_comments; [done|].
  destruct (skip_comments_app rest) as [pre2 Epre2].
  eapply consumes_bind; [apply expect_name_ok|]. intros [nm s] used rest1 Er1 _.
  eapply consumes_bind; [apply IH|].
  { rewrite Epre2, Er1, !length_app in Hl. lia. }
  intros [sl es] ? ? _ _. by apply consumes_done.
Qed.

Lemma class_ok : item_parser IClass (class_definition fuel).
Proof.
  intros kw toks Hf. unfold class_definition.
  eapply (consumes_impl (λ _ _, True)); [|intros; apply within_nil].
  eapply consumes_bind; [apply expect_name_ok|]. intros [name ns] used rest Er _.
  pose proof (short_rest _ _ _ Er Hf) as Hf1. apply consumes_comments; [done|].
  destruct (skip_comments_app rest) as [pre Epre]. pose proof (short_rest _ _ _ Epre Hf1) as Hf2.
  eapply (consumes_bind (λ _ _, True)).
  - destruct (skip_comments rest) as [|t rest2]; [by exists []|]. cbn.
    case_bool_decide; [|by exists []]. apply (consumes_prefix _ [t]), consumes_comments; [done|].
    eapply consumes_bind; [apply expect_name_ok|]. intros [] ? ? _ _. by apply consumes_done.
  - intros ext used2 rest2 Er2 _. eapply consumes_bind.
    + apply class_body_ok. by eapply short_rest.
    + intros [] ? ? _ _. by apply consumes_done.
Qed.

Lemma required_effect_ok m1 m2 s toks : consumes (λ _ _, True) toks (required_effect m1 m2 s toks).
Proof.
  destruct toks as [|t rest]; [done|]. cbn. destruct (t_kind t); try done.
  destruct (parse_stack_effect _ _); [by exists [t]|done].
Qed.

Lemma generic_ok : item_parser IGeneric generic_declaration.
Proof.
  intros kw toks Hf. eapply (consumes_impl (λ _ _, True)); [|intros; apply within_nil].
  eapply consumes_bind; [apply expect_name_ok|]. intros [name ns] used rest _ _.
  eapply consumes_bind; [apply required_effect_ok|]. intros [] ? ? _ _. by apply consumes_done.
Qed.

Lemma method_ok ks k : item_parser IMethod (λ kw, method_definition fuel kw ks k).
Proof.
  intros kw toks Hf. unfold method_definition.
  eapply consumes_bind; [apply expect_name_ok|]. intros [name ns] used rest Er _.
  pose proof (short_rest _ _ _ Er Hf) as Hf1.
  eapply consumes_bind; [apply required_effect_ok|]. intros [eff es] used1 rest1 Er1 _.
  pose proof (short_rest _ _ _ Er1 Hf1) as Hf2.
  destruct (split_specializers 0 es (se_inputs eff)) as [specs clean].
  eapply consumes_bind; [by apply head_locals_ok|].
  intros ls used2 rest2 Er2 _. pose proof (short_rest _ _ _ Er2 Hf2).
  eapply consumes_bind; [by apply def_body_ok|].
  intros [body bs] used3 rest3 _ Hb. apply consumes_done. rewrite app_nil_r.
  do 3 apply item_post_pre. unfold item_post, seqs_starts, seqs_size. cbn.
  rewrite app_nil_r, Nat.add_0_r. exact Hb.
Qed.

(** ** The top level *)

Definition state_starts (s : PState) : list Pos :=
  seqs_starts (flat_with item_seqs (ps_items s)) ++ ref_starts (ps_pending s).
Definition state_size (s : PState) : nat :=
  seqs_size (flat_with item_seqs (ps_items s)) + seq_size (ps_pending s).

(** What has been read lies within the tokens [u] passed, and pending
    expressions have a start. *)
Definition state_ok (s : PState) (u : list Token) : Prop :=
  within (state_starts s) (state_size s) u ∧ (ps_pending s ≠ [] → ps_start s ≠ None).

Lemma state_ok_more s u v : state_ok s u → state_ok s (u ++ v).
Proof.
  intros [Hw Hp]. split; [|done].
  apply (within_mono _ _ (state_size s) _ [] v Hw). simpl. lia.
Qed.

Lemma flush_ok s u :
  state_ok s u → ∃ s', flush_pending s = Done s' ∧ state_ok s' u ∧ ps_pending s' = [] ∧
                       state_starts s' = state_starts s.
Proof.
  intros [Hw Hp]. unfold flush_pending. destruct (last (ps_pending s)) as [e|] eqn:El.
  - destruct (ps_start s) as [st|]; [|exfalso; apply Hp; [intros E; by rewrite E in El|done]].
    eexists. split; [done|]. unfold state_ok, state_starts, state_size in *. cbn.
    rewrite flat_with_app, seqs_starts_app, seqs_size_app. cbn. rewrite !app_nil_r, !Nat.add_0_r.
    repeat split; try done; apply Hw.
  - apply last_None in El. exists s. split; [done|]. split; [by split|done].
Qed.

Lemma push_ok s u i used :
  state_ok s u → ps_pending s = [] → item_post i used → state_ok (push_item i s) (u ++ used).
Proof.
  intros [Hw _] Hp Hi. unfold state_ok, state_starts, state_size, item_post in *. cbn. rewrite Hp in *.
  split; [|done]. rewrite flat_with_app, seqs_starts_app, seqs_size_app. cbn.
  rewrite !app_nil_r, !Nat.add_0_r in *. by apply within_app.
Qed.

(** A step of the top level on the tokens [toks], [u] being behind. *)
Definition step_ok (u toks : list Token) (r : presult PState) : Prop :=
  consumes (λ s' used, used ≠ [] ∧ state_ok s' (u ++ used)) toks r.

Lemma keyword_step u t rest (s : PState) (r : PState → presult PState) :
  state_ok s u →
  (∀ s1, state_ok s1 u → ps_pending s1 = [] →
     consumes (λ s' used, ∀ pre, state_ok s' (u ++ pre ++ used)) rest (r s1)) →
  step_ok u (t :: rest) (s1 ← flush_pending s; r s1).
Proof.
  intros Hs Hr. destruct (flush_ok s u Hs) as (s1 & -> & Hs1 & Hp & _). cbn [mbind outcome_bind].
  apply (consumes_prefix _ [t]). eapply consumes_impl; [by apply Hr|].
  intros s' used Hs'. split; [done|]. apply (Hs' [t]).
Qed.

Lemma push_plain s u i pre used :
  state_ok s u → ps_pending s = [] → item_post i used → state_ok (push_item i s) (u ++ pre ++ used).
Proof. intros. apply push_ok; [done..|]. by apply item_post_pre. Qed.

Lemma named_ok u t rest s kw (build : string → Span → Item) :
  state_ok s u → (∀ n sp, item_seqs (build n sp) = []) →
  step_ok u (t :: rest)
    (s1 ← flush_pending s;
     '((name, name_span), rest1) ← expect_name (ExpectedDefiningName kw (t_span t)) rest;
     Done (push_item (build name name_span) s1, rest1)).
Proof.
  intros Hs Hb. apply keyword_step; [done|]. intros s1 Hs1 Hp.
  eapply consumes_bind; [apply expect_name_ok|]. intros [n sp] used rest1 _ _.
  apply consumes_done. intros pre. apply push_plain; [done..|].
  unfold item_post. rewrite Hb. apply within_nil.
Qed.

Lemma allot_one_shrinks toks size sp rest :
  allot_one toks = Some (size, sp, rest) → ∃ used, toks = used ++ rest ∧ used ≠ [].
Proof.
  unfold allot_one. destruct (skip_comments_app toks) as [pre Epre].
  destruct (skip_comments toks) as [|t rest0]; [done|]. destruct (t_kind t); try done.
  destruct (0 <=? value); [|done]. destruct (skip_comments_app rest0) as [pre1 Epre1].
  assert (∀ m rest1 pre2, rest0 = pre2 ++ rest1 →
    match rest1 with
    | t3 :: rest3 => if bool_decide (word_lc t3 = Some "allot")
                     then Some (u32_sat_mul (u32_wrap value) m, t_span t3, rest3) else None
    | [] => None
    end = Some (size, sp, rest) → ∃ used, toks = used ++ rest ∧ used ≠ []) as Hfin.
  { intros m rest1 pre2 E. destruct rest1 as [|t3 rest3]; [done|]. case_bool_decide; [|done].
    intros [= _ _ <-]. exists (pre ++ t :: pre2 ++ [t3]). split; [|by destruct pre].
    rewrite Epre, E. by rewrite <- app_assoc; simpl; rewrite <- app_assoc. }
  destruct (skip_comments rest0) as [|t2 rest2]; [done|].
  destruct (skip_comments_app rest2) as [pre2 Epre2].
  assert (rest0 = (pre1 ++ [t2] ++ pre2) ++ skip_comments rest2) as E2.
  { rewrite Epre1, Epre2 at 1. by rewrite <- !app_assoc. }
  destruct (bool_decide (word_lc t2 = Some "cells")); [by apply (Hfin 8 _ _ E2)|].
  destruct (bool_decide (word_lc t2 = Some "chars")); [by apply (Hfin 1 _ _ E2)|].
  by apply (Hfin 1 _ _ Epre1).
Qed.

Lemma allot_ok n a sp toks :
  (length toks < n)%nat → consumes (λ _ _, True) toks (allot_loop n a sp toks).
Proof.
  revert a sp toks. induction n as [|n IH]; intros a sp toks Hn; [lia|]. cbn [allot_loop].
  destruct (allot_one toks) as [[[sz sp'] rest]|] eqn:E; [|by apply consumes_done].
  apply allot_one_shrinks in E as (used & -> & Hne). apply consumes_prefix, IH.
  rewrite length_app in Hn. destruct used; [done|]. simpl in Hn. lia.
Qed.

Lemma create_ok u t rest s :
  state_ok s u → short rest → step_ok u (t :: rest) (arm_create fuel t rest s).
Proof.
  intros Hs Hf. apply keyword_step; [done|]. intros s1 Hs1 Hp.
  eapply consumes_bind; [apply expect_name_ok|]. intros [n sp] used rest1 Er _.
  eapply consumes_bind; [apply allot_ok; by eapply short_rest|]. intros [a es] used2 rest2 _ _.
  apply consumes_done. intros pre. apply push_plain; [done..|]. apply within_nil.
Qed.

Lemma item_step {A} (build : A → Item) p u t rest s :
  item_parser build p → state_ok s u → short rest →
  step_ok u (t :: rest) (arm_item build p t rest s).
Proof.
  intros Hp Hs Hf. apply keyword_step; [done|]. intros s1 Hs1 Hpe.
  eapply consumes_bind; [by apply Hp|]. intros a used rest1 _ Hi.
  apply consumes_done. intros pre. rewrite app_nil_r. by apply push_plain.
Qed.

(** Dropping the last pending expression. *)
Lemma pop_ok s u e s1 : pop_pending s = Some (e, s1) → state_ok s u → state_ok s1 u.
Proof.
  unfold pop_pending. destruct (last (ps_pending s)) as [e'|] eqn:El; [|done]. intros [= <- <-].
  apply last_Some in El as [l' El]. intros [Hw Hp]. unfold state_ok, state_starts, state_size in *. cbn.
  rewrite El, removelast_last in *. split; [|intros _; apply Hp; by destruct l'].
  eapply within_sub; [exact Hw| |].
  - apply sublist_app; [done|]. apply part_starts. by apply sublist_inserts_r.
  - unfold seqs_size. rewrite seq_size_app. lia.
Qed.

Lemma collection_ok k kw u t rest s :
  state_ok s u → step_ok u (t :: rest) (arm_collection k kw t rest s).
Proof.
  intros Hs. unfold arm_collection. destruct (pop_pending s) as [[e s1]|] eqn:Ep; [|done].
  pose proof (pop_ok _ _ _ _ Ep Hs) as Hs1.
  destruct e as [[v sp| |]| | | | | | | | | | | |]; try done.
  destruct (0 <=? v); [|done]. by apply named_ok.
Qed.

(** The pending expressions become the body of one item. *)
Lemma take_pending u s i :
  state_ok s u → within (seqs_starts (item_seqs i)) (seqs_size (item_seqs i)) [] ∨
                 item_seqs i = [ps_pending s] →
  state_ok (push_item i (mkPState (ps_items s) [] None)) u.
Proof.
  intros [Hw _] Hi. unfold state_ok, state_starts, state_size in *. cbn.
  rewrite flat_with_app, seqs_starts_app, seqs_size_app. cbn. rewrite !app_nil_r, !Nat.add_0_r.
  split; [|done]. destruct Hi as [[Hi1 Hi2] | ->].
  - apply sublist_nil_r in Hi1. unfold seqs_starts, seqs_size in *. simpl in Hi2.
    eapply within_sub; [exact Hw| |lia]. rewrite Hi1. apply sublist_app; [done|apply sublist_nil_l].
  - cbn. rewrite app_nil_r, Nat.add_0_r. exact Hw.
Qed.

Lemma constant_ok f kw u t rest s :
  state_ok s u → step_ok u (t :: rest) (arm_constant f kw t rest s).
Proof.
  intros Hs. unfold arm_constant. destruct (ps_pending s) as [|e es] eqn:Ep; [done|]. rewrite <- Ep.
  apply (consumes_prefix _ [t]). eapply consumes_bind; [apply expect_name_ok|].
  intros [n sp] used rest1 _ _. apply consumes_done. split; [done|].
  apply state_ok_more, take_pending; [done|]. cbn. rewrite Ep.
  destruct e as [l| | | | | | | | | | | |]; try (by right); destruct l, es; try (by right);
    left; apply within_nil.
Qed.

Lemma value_ok u t rest s : state_ok s u → step_ok u (t :: rest) (arm_value t rest s).
Proof.
  intros Hs. unfold arm_value. destruct (ps_pending s) as [|e es] eqn:Ep; [done|]. rewrite <- Ep.
  apply (consumes_prefix _ [t]). eapply consumes_bind; [apply expect_name_ok|].
  intros [n sp] used rest1 _ _. apply consumes_done. split; [done|].
  apply state_ok_more, take_pending; [done|]. by right.
Qed.

Lemma arm_expr_ok u t rest s :
  state_ok s u → short (t :: rest) → is_comment t = false →
  step_ok u (t :: rest) (arm_expr fuel t rest s).
Proof.
  intros [Hw Hp] Hf Hc. unfold arm_expr.
  eapply consumes_bind; [apply (expr_one_ok fuel fuel (length (t :: rest))); lia || done|].
  intros e used rest1 _ [Hne He]. apply consumes_done. rewrite app_nil_r. split; [done|].
  unfold state_ok, state_starts, state_size in *. cbn. split; [|done].
  unfold ref_starts in *. rewrite gather_seq_app, app_assoc, seq_size_app.
  rewrite Nat.add_assoc. apply within_app; [exact Hw|].
  unfold gather_seq. cbn. rewrite app_nil_r, Nat.add_0_r. exact He.
Qed.

Lemma dispatch_ok o u t rest s :
  state_ok s u → short (t :: rest) → is_comment t = false →
  step_ok u (t :: rest) (dispatch fuel o t rest s).
Proof.
  intros Hs Hf Hc. assert (short rest) as Hf' by (simpl in Hf; lia). unfold dispatch.
  repeat (case_bool_decide; [first
    [ done | by apply item_step; [apply colon_ok|..] | by apply item_step; [apply class_ok|..]
    | by apply item_step; [apply generic_ok|..] | by apply item_step; [apply method_ok|..]
    | by apply create_ok | by apply collection_ok | by apply constant_ok | by apply value_ok
    | by apply named_ok ]|]).
  by apply arm_expr_ok.
Qed.

Lemma program_loop_ok n toks u s :
  (length toks < n)%nat → short toks → state_ok s u →
  match program_loop fuel n toks s with
  | Done s' => state_ok s' (u ++ toks) ∧ ps_pending s' = []
  | Fail (PErr _) => True
  | _ => False
  end.
Proof.
  revert toks u s. induction n as [|n IH]; intros toks u s Hn Hf Hs; [lia|]. cbn [program_loop].
  destruct (skip_comments_app toks) as [pre Epre]. pose proof (skip_comments_head toks) as Hcom.
  destruct (skip_comments toks) as [|t rest].
  { destruct (flush_ok s u Hs) as (s' & -> & Hs' & Hp & _). split; [by apply state_ok_more|done]. }
  specialize (Hcom t rest eq_refl).
  assert (length (t :: rest) ≤ length toks)%nat as Hl by (rewrite Epre, length_app; lia).
  pose proof (dispatch_ok (word_lc t) (u ++ pre) t rest s ltac:(by apply state_ok_more) ltac:(lia) Hcom) as Hd.
  destruct (dispatch fuel (word_lc t) t rest s) as [[s1 rest1]|[]|]; try done.
  destruct Hd as (used & Er & Hne & Hs1). cbn [mbind outcome_bind].
  assert (length rest1 < length (t :: rest))%nat as Hlt.
  { rewrite Er, length_app. destruct used; [done|]. simpl. lia. }
  specialize (IH rest1 ((u ++ pre) ++ used) s1 ltac:(lia) ltac:(lia) Hs1).
  by rewrite Epre, Er, !app_assoc.
Qed.
End Items.

Lemma parse_within (toks : list Token) :
  match parse toks with
  | Done p => within (seqs_starts (program_seqs p)) (seqs_size (program_seqs p)) toks
  | Fail (PErr _) => True
  | _ => False
  end.
Proof.
  unfold parse. set (fuel := parse_fuel toks).
  pose proof (program_loop_ok fuel fuel toks [] (mkPState [] [] None)) as H.
  destruct (program_loop fuel fuel toks _) as [s|[]|]; cbn;
    try (by apply H; [unfold fuel, parse_fuel; lia..|split; [apply within_nil|done]]).
  destruct H as [[Hw _] Hp]; [unfold fuel, parse_fuel; lia..|split; [apply within_nil|done]|].
  unfold state_starts, state_size in Hw. rewrite Hp in Hw. unfold program_seqs. cbn [p_items].
  by rewrite app_nil_r, Nat.add_0_r in Hw.
Qed.

(** C31: the parser terminates on every token list and never panics: it
    answers a program or a parse error. The references of the program, words
    and ticks, start in source order at tokens, each token used at most once,
    and the program has at most as many nodes as there are tokens. *)
Theorem parse_spans (toks : list Token) :
  match parse toks with
  | Done p => within (seqs_starts (program_seqs p)) (seqs_size (program_seqs p)) toks
  | Fail (PErr _) => True
  | _ => False
  end.
Proof. apply parse_within. Qed.
