(* ===== verification/Resolve.v ===== *)
(** * Word resolution ([src/compiler/resolve.rs])

    Every word reference is given its target, keyed by its span: a local of the
    enclosing definition, a user word, or a row of the dictionary, in that
    order of preference. *)
From stdpp Require Import strings gmap.
From S2P Require Import Prelude Bytes F64 Lex LetLang Ast Classes.

(** * The dictionary of built-in words ([src/compiler/resolve.rs]: [Target],

    [builtin_table], [factor_user_name])

    The table has one row per ANS word, with the Factor word it is compiled to;
    user-defined names are mangled with a prefix of their own. *)

(** ** Targets *)

Inductive Target :=
  | Builtin (vocab factor_name : string)
  | QualifiedBuiltin (vocab factor_name : string)
  | UserDefined (factor_name : string)
  | Local (name : string).

#[export] Instance Target_eq_dec : EqDecision Target.
Proof. solve_decision. Defined.

Definition to_factor_token (t : Target) : string :=
  match t with
  | Builtin _ f => f
  | QualifiedBuiltin v f => v +:+ ":" +:+ f
  | UserDefined f => f
  | Local n => n
  end.

Definition target_vocab (t : Target) : option string :=
  match t with
  | Builtin v _ | QualifiedBuiltin v _ => Some v
  | UserDefined _ | Local _ => None
  end.

(** ** The table *)

(** Stack words. *)
Definition stack_words : list (string * Target) := [
  ("dup", Builtin "kernel" "dup");
  ("drop", Builtin "kernel" "drop");
  ("swap", Builtin "kernel" "swap");
  ("over", Builtin "kernel" "over");
  ("rot", Builtin "kernel" "rot");
  ("nip", Builtin "kernel" "nip");
  ("tuck", Builtin "kernel" "tuck");
  ("depth", QualifiedBuiltin "forth.runtime" "depth");
  (">r", QualifiedBuiltin "forth.runtime" ">r");
  ("r>", QualifiedBuiltin "forth.runtime" "r>");
  ("r@", QualifiedBuiltin "forth.runtime" "r@");
  ("rdrop", QualifiedBuiltin "forth.runtime" "rdrop");
  ("2>r", QualifiedBuiltin "forth.runtime" "2>r");
  ("2r>", QualifiedBuiltin "forth.runtime" "2r>")
].

(** Arithmetic, comparisons, bit operations, loop indices. *)
Definition arith_words : list (string * Target) := [
  ("+", Builtin "math" "+");
  ("-", Builtin "math" "-");
  ("*", Builtin "math" "*");
  ("/", Builtin "math" "/i");
  ("mod", QualifiedBuiltin "forth.runtime" "floored-mod");
  ("negate", Builtin "math" "neg");
  ("abs", Builtin "math" "abs");
  ("min", Builtin "math.order" "min");
  ("max", Builtin "math.order" "max");
  ("=", QualifiedBuiltin "forth.runtime" "ans=");
  ("<>", QualifiedBuiltin "forth.runtime" "ans<>");
  ("<", QualifiedBuiltin "forth.runtime" "ans<");
  (">", QualifiedBuiltin "forth.runtime" "ans>");
  ("<=", QualifiedBuiltin "forth.runtime" "ans<=");
  (">=", QualifiedBuiltin "forth.runtime" "ans>=");
  ("0=", QualifiedBuiltin "forth.runtime" "ans0=");
  ("0<", QualifiedBuiltin "forth.runtime" "ans0<");
  ("0>", QualifiedBuiltin "forth.runtime" "ans0>");
  ("and", Builtin "math.bitwise" "bitand");
  ("or", Builtin "math.bitwise" "bitor");
  ("xor", Builtin "math.bitwise" "bitxor");
  ("invert", Builtin "math.bitwise" "bitnot");
  ("i", QualifiedBuiltin "forth.runtime" "i");
  ("j", QualifiedBuiltin "forth.runtime" "j");
  ("leave", QualifiedBuiltin "forth.runtime" "leave");
  ("unloop", QualifiedBuiltin "forth.runtime" "pop-loop-frame")
].

(** Terminal output, strings, pictured numbers, bases. *)
Definition io_words : list (string * Target) := [
  (".", QualifiedBuiltin "forth.runtime" ".");
  ("u.", QualifiedBuiltin "forth.runtime" "u.");
  ("cr", QualifiedBuiltin "forth.runtime" "cr");
  ("emit", QualifiedBuiltin "forth.runtime" "emit");
  ("space", QualifiedBuiltin "forth.runtime" "space");
  ("spaces", QualifiedBuiltin "forth.runtime" "spaces");
  ("type", QualifiedBuiltin "forth.runtime" "type");
  ("cmove", QualifiedBuiltin "forth.runtime" "cmove");
  ("fill", QualifiedBuiltin "forth.runtime" "fill");
  ("bl", QualifiedBuiltin "forth.runtime" "bl");
  ("key", QualifiedBuiltin "forth.runtime" "key");
  ("accept", QualifiedBuiltin "forth.runtime" "accept");
  ("<#", QualifiedBuiltin "forth.runtime" "<#");
  ("#", QualifiedBuiltin "forth.runtime" "#");
  ("#s", QualifiedBuiltin "forth.runtime" "#S");
  ("sign", QualifiedBuiltin "forth.runtime" "sign");
  ("hold", QualifiedBuiltin "forth.runtime" "hold");
  ("#>", QualifiedBuiltin "forth.runtime" "#>");
  ("n>$", QualifiedBuiltin "forth.runtime" "n>$");
  ("hex", QualifiedBuiltin "forth.runtime" "hex");
  ("decimal", QualifiedBuiltin "forth.runtime" "decimal");
  ("binary", QualifiedBuiltin "forth.runtime" "binary");
  ("octal", QualifiedBuiltin "forth.runtime" "octal")
].

(** Memory, conversions, floats, execution tokens. *)
Definition memory_words : list (string * Target) := [
  ("@", QualifiedBuiltin "forth.runtime" "@");
  ("!", QualifiedBuiltin "forth.runtime" "nf-!");
  ("c@", QualifiedBuiltin "forth.runtime" "c@");
  ("c!", QualifiedBuiltin "forth.runtime" "nf-c!");
  ("+!", QualifiedBuiltin "forth.runtime" "nf-+!");
  ("cell+", QualifiedBuiltin "forth.runtime" "cell+");
  ("char+", QualifiedBuiltin "forth.runtime" "char+");
  ("cells", QualifiedBuiltin "forth.runtime" "cells");
  ("chars", QualifiedBuiltin "forth.runtime" "chars");
  ("floats", QualifiedBuiltin "forth.runtime" "floats");
  ("allot", QualifiedBuiltin "forth.runtime" "allot");
  ("here", QualifiedBuiltin "forth.runtime" "here");
  ("f@", QualifiedBuiltin "forth.runtime" "f@");
  ("f!", QualifiedBuiltin "forth.runtime" "nf-f!");
  ("s>d", QualifiedBuiltin "forth.runtime" "s>d");
  ("d>s", QualifiedBuiltin "forth.runtime" "d>s");
  ("d>f", QualifiedBuiltin "forth.runtime" "d>f");
  ("f>d", QualifiedBuiltin "forth.runtime" "f>d");
  ("f+", QualifiedBuiltin "forth.runtime" "f+");
  ("f-", QualifiedBuiltin "forth.runtime" "f-");
  ("f*", QualifiedBuiltin "forth.runtime" "f*");
  ("f/", QualifiedBuiltin "forth.runtime" "f/");
  ("f<", QualifiedBuiltin "forth.runtime" "ansf<");
  ("f>", QualifiedBuiltin "forth.runtime" "ansf>");
  ("f=", QualifiedBuiltin "forth.runtime" "ansf=");
  ("execute", QualifiedBuiltin "forth.runtime" "ans-execute")
].

(** Shortcuts of the ANS core set. *)
Definition core_words : list (string * Target) := [
  ("1+", QualifiedBuiltin "forth.runtime" "1+");
  ("1-", QualifiedBuiltin "forth.runtime" "1-");
  ("2*", QualifiedBuiltin "forth.runtime" "ans2*");
  ("2/", QualifiedBuiltin "math" "2/");
  ("/mod", QualifiedBuiltin "forth.runtime" "ans/mod");
  ("*/", QualifiedBuiltin "forth.runtime" "ans*/");
  ("*/mod", QualifiedBuiltin "forth.runtime" "ans*/mod");
  ("lshift", QualifiedBuiltin "forth.runtime" "ans-lshift");
  ("rshift", QualifiedBuiltin "forth.runtime" "ans-rshift");
  ("2dup", Builtin "kernel" "2dup");
  ("2drop", Builtin "kernel" "2drop");
  ("2swap", QualifiedBuiltin "forth.runtime" "ans2swap");
  ("2over", QualifiedBuiltin "forth.runtime" "ans2over");
  ("-rot", Builtin "kernel" "-rot");
  ("2@", QualifiedBuiltin "forth.runtime" "ans2@");
  ("2!", QualifiedBuiltin "forth.runtime" "ans2!");
  ("erase", QualifiedBuiltin "forth.runtime" "ans-erase");
  ("0<>", QualifiedBuiltin "forth.runtime" "ans0<>");
  ("included", QualifiedBuiltin "forth.runtime" "nf-included")
].

(** Managed strings and [EXIT]. *)
Definition string_words : list (string * Target) := [
  ("$len", QualifiedBuiltin "forth.runtime" "$len");
  ("$clen", QualifiedBuiltin "forth.runtime" "$clen");
  ("$+", QualifiedBuiltin "forth.runtime" "$+");
  ("$upper", QualifiedBuiltin "forth.runtime" "$upper");
  ("$lower", QualifiedBuiltin "forth.runtime" "$lower");
  ("$find", QualifiedBuiltin "forth.runtime" "$find");
  ("$contains?", QualifiedBuiltin "forth.runtime" "$contains?");
  ("$starts?", QualifiedBuiltin "forth.runtime" "$starts?");
  ("$ends?", QualifiedBuiltin "forth.runtime" "$ends?");
  ("$slice", QualifiedBuiltin "forth.runtime" "$slice");
  ("$cmp", QualifiedBuiltin "forth.runtime" "$cmp");
  ("$hash", QualifiedBuiltin "forth.runtime" "$hash");
  ("$.", QualifiedBuiltin "forth.runtime" "$.");
  ("$.cr", QualifiedBuiltin "forth.runtime" "$.cr");
  ("int>$", QualifiedBuiltin "forth.runtime" "int>$");
  ("$>int", QualifiedBuiltin "forth.runtime" "$>int");
  (">$", QualifiedBuiltin "forth.runtime" ">$");
  ("$>addr", QualifiedBuiltin "forth.runtime" "$>addr");
  ("exit", QualifiedBuiltin "continuations" "return")
].

(** Type introspection, tools, collection primitives, files. *)
Definition tools_words : list (string * Target) := [
  ("typeof", QualifiedBuiltin "forth.runtime" "nf-typeof");
  ("int?", QualifiedBuiltin "forth.runtime" "nf-int?");
  ("float?", QualifiedBuiltin "forth.runtime" "nf-float?");
  ("string?", QualifiedBuiltin "forth.runtime" "nf-string?");
  ("xt?", QualifiedBuiltin "forth.runtime" "nf-xt?");
  ("addr?", QualifiedBuiltin "forth.runtime" "nf-addr-pred?");
  (".s", QualifiedBuiltin "forth.runtime" "nf-.s");
  ("words", QualifiedBuiltin "forth.runtime" "nf-words");
  ("dump", QualifiedBuiltin "forth.runtime" "nf-dump");
  ("<cells>", QualifiedBuiltin "forth.runtime" "nf-cells-new");
  ("cells@", QualifiedBuiltin "forth.runtime" "nf-cells-at");
  ("cells!", QualifiedBuiltin "forth.runtime" "nf-cells-set");
  ("<rawvec>", QualifiedBuiltin "forth.runtime" "nf-rawvec");
  ("rawvec-push", QualifiedBuiltin "forth.runtime" "nf-rawvec-push");
  ("rawvec-len", QualifiedBuiltin "forth.runtime" "nf-rawvec-len");
  ("rawvec-at", QualifiedBuiltin "forth.runtime" "nf-rawvec-at");
  ("rawvec-set", QualifiedBuiltin "forth.runtime" "nf-rawvec-set");
  ("call1", QualifiedBuiltin "forth.runtime" "nf-call1");
  ("call1>", QualifiedBuiltin "forth.runtime" "nf-call1>");
  ("call2>", QualifiedBuiltin "forth.runtime" "nf-call2>");
  ("call2", QualifiedBuiltin "forth.runtime" "nf-call2");
  ("(clone)", QualifiedBuiltin "forth.runtime" "nf-clone");
  ("<hash>", QualifiedBuiltin "forth.runtime" "nf-hash-new");
  ("hash-at", QualifiedBuiltin "forth.runtime" "nf-hash-at");
  ("hash!", QualifiedBuiltin "forth.runtime" "nf-hash-set");
  ("hash-key?", QualifiedBuiltin "forth.runtime" "nf-hash-key?");
  ("hash-del", QualifiedBuiltin "forth.runtime" "nf-hash-del");
  ("hash-len", QualifiedBuiltin "forth.runtime" "nf-hash-len");
  ("hash-keys", QualifiedBuiltin "forth.runtime" "nf-hash-keys");
  ("hash-vals", QualifiedBuiltin "forth.runtime" "nf-hash-values");
  ("<hashset>", QualifiedBuiltin "forth.runtime" "nf-set-new");
  ("hs-add", QualifiedBuiltin "forth.runtime" "nf-set-add");
  ("hs-in?", QualifiedBuiltin "forth.runtime" "nf-set-has?");
  ("hs-del", QualifiedBuiltin "forth.runtime" "nf-set-del");
  ("hs-len", QualifiedBuiltin "forth.runtime" "nf-set-len");
  ("hs-members", QualifiedBuiltin "forth.runtime" "nf-set-members");
  ("num>chars", QualifiedBuiltin "forth.runtime" "nf-num>str-chars");
  ("chars>num", QualifiedBuiltin "forth.runtime" "nf-str>num");
  ("capture1", QualifiedBuiltin "forth.runtime" "nf-capture-1");
  ("slurp-vec", QualifiedBuiltin "forth.runtime" "nf-slurp-file");
  ("spit-vec", QualifiedBuiltin "forth.runtime" "nf-spit-file");
  ("file-exists-vec?", QualifiedBuiltin "forth.runtime" "nf-file-exists?");
  ("int-type", QualifiedBuiltin "forth.runtime" "int-type");
  ("float-type", QualifiedBuiltin "forth.runtime" "float-type");
  ("string-type", QualifiedBuiltin "forth.runtime" "string-type");
  ("xt-type", QualifiedBuiltin "forth.runtime" "xt-type");
  ("addr-type", QualifiedBuiltin "forth.runtime" "addr-type");
  ("other-type", QualifiedBuiltin "forth.runtime" "other-type")
].

(** Graphics, document panes, event kinds. *)
Definition gfx_words : list (string * Target) := [
  ("gpane-open", QualifiedBuiltin "forth.wf64-gfx" "gpane-open");
  ("gpane-begin", QualifiedBuiltin "forth.wf64-gfx" "gpane-begin");
  ("gpane-present", QualifiedBuiltin "forth.wf64-gfx" "gpane-present");
  ("gpane-clear", QualifiedBuiltin "forth.wf64-gfx" "gpane-clear");
  ("gpane-fill-rect", QualifiedBuiltin "forth.wf64-gfx" "gpane-fill-rect");
  ("gpane-stroke-rect", QualifiedBuiltin "forth.wf64-gfx" "gpane-stroke-rect");
  ("gpane-line", QualifiedBuiltin "forth.wf64-gfx" "gpane-line");
  ("gpane-fill-circle", QualifiedBuiltin "forth.wf64-gfx" "gpane-fill-circle");
  ("gpane-next-event", QualifiedBuiltin "forth.wf64-gfx" "gpane-next-event");
  ("doc-open", QualifiedBuiltin "forth.wf64-gfx" "doc-open");
  ("doc-set", QualifiedBuiltin "forth.wf64-gfx" "doc-set");
  ("doc-append", QualifiedBuiltin "forth.wf64-gfx" "doc-append");
  ("ev-none", QualifiedBuiltin "forth.wf64-gfx" "EV_NONE");
  ("ev-key", QualifiedBuiltin "forth.wf64-gfx" "EV_KEY");
  ("ev-char", QualifiedBuiltin "forth.wf64-gfx" "EV_CHAR");
  ("ev-mouse", QualifiedBuiltin "forth.wf64-gfx" "EV_MOUSE");
  ("ev-focus", QualifiedBuiltin "forth.wf64-gfx" "EV_FOCUS");
  ("ev-resize", QualifiedBuiltin "forth.wf64-gfx" "EV_RESIZE");
  ("ev-close", QualifiedBuiltin "forth.wf64-gfx" "EV_CLOSE");
  ("ev-frame-close", QualifiedBuiltin "forth.wf64-gfx" "EV_FRAME_CLOSE");
  ("ev-tick", QualifiedBuiltin "forth.wf64-gfx" "EV_TICK")
].

Definition builtin_entries : list (string * Target) :=
  stack_words ++ arith_words ++ io_words ++ memory_words ++ core_words ++ string_words ++
  tools_words ++ gfx_words.

(** [entries.iter().map(..).collect()]: a later row would replace an earlier
    one of the same name. *)
Definition collect_map {A} (rows : list (string * A)) : gmap string A :=
  foldl (λ m '(k, v), <[k := v]> m) ∅ rows.

Definition builtin_table : gmap string Target := collect_map builtin_entries.

(** ** Names of user words *)

Definition USER_NAME_PREFIX : string := "z-".

Definition safe_name (ans_lc : string) : string :=
  if bool_decide (ans_lc = "->") then "arrow"
  else if bool_decide (ans_lc = "}t") then "end-test"
  else if bool_decide (ans_lc = "t{") then "begin-test"
  else ans_lc.

Definition factor_user_name (ans_lc : string) : string := USER_NAME_PREFIX +:+ safe_name ans_lc.

(** ** What the names keep apart *)

Lemma collect_map_elem {A} (rows : list (string * A)) k v :
  collect_map rows !! k = Some v → (k, v) ∈ rows.
Proof.
  unfold collect_map. assert (∀ m : gmap string A, foldl (λ m '(k, v), <[k := v]> m) m rows !! k = Some v →
    m !! k = Some v ∨ (k, v) ∈ rows) as H.
  { induction rows as [|[k' v'] rows IH]; intros m; cbn [foldl]; [by left|].
    intros [Hm|Hin]%IH; [|right; by right]. destruct (decide (k' = k)) as [->|Hne].
    - rewrite lookup_insert_eq in Hm. injection Hm as ->. right. by left.
    - rewrite lookup_insert_ne in Hm by done. by left. }
  intros [Hm|Hin]%H; [|done]. by rewrite lookup_empty in Hm.
Qed.

Lemma collect_map_unique {A} (rows : list (string * A)) k v :
  NoDup rows.*1 → (k, v) ∈ rows → collect_map rows !! k = Some v.
Proof.
  unfold collect_map. generalize (∅ : gmap string A).
  induction rows as [|[k' v'] rows IH]; intros m; cbn [foldl fmap list_fmap fst].
  { by intros _ ?%elem_of_nil. }
  intros [Hk Hnd]%NoDup_cons [[= -> ->]|Hin]%elem_of_cons; [|by apply IH].
  clear IH. assert (∀ m : gmap string A, m !! k' = Some v' → foldl (λ m '(k, v), <[k := v]> m) m rows !! k' = Some v')
    as H; [|apply H; by rewrite lookup_insert_eq].
  clear m. induction rows as [|[k2 v2] rows IH]; intros m Hm; cbn [foldl]; [done|].
  cbn in Hk, Hnd. apply not_elem_of_cons in Hk as [Hne Hk]. apply NoDup_cons in Hnd as [_ Hnd].
  apply IH; [done..|]. by rewrite lookup_insert_ne.
Qed.

Definition rows_ok : bool :=
  bool_decide (NoDup builtin_entries.*1) &&
  forallb (λ '(k, t), bool_decide (lowercase k = k) && negb (starts_with USER_NAME_PREFIX (to_factor_token t)))
          builtin_entries.
Lemma rows_ok_true : rows_ok = true.
Proof. vm_compute. reflexivity. Qed.

Lemma starts_with_app a b : starts_with a (a +:+ b) = true.
Proof.
  unfold starts_with. induction a as [|c a IH]; [done|]. rewrite str_app_cons. cbn [strip_prefix].
  by rewrite Ascii.eqb_refl.
Qed.

Lemma safe_name_cases a :
  (a = "->" ∧ safe_name a = "arrow") ∨ (a = "}t" ∧ safe_name a = "end-test") ∨
  (a = "t{" ∧ safe_name a = "begin-test") ∨ safe_name a = a.
Proof. unfold safe_name. repeat case_bool_decide; naive_solver. Qed.

(** The dictionary has one row per name, each under a name in lower case,
    so that a case-insensitive lookup finds it; and the Factor names of user
    words are no Factor names of built-in ones, and different for different
    words, but for the three spellings the mangling reserves. *)
Theorem dictionary_apart :
  (∀ k t, builtin_table !! k = Some t ↔ (k, t) ∈ builtin_entries) ∧
  (∀ k t, builtin_table !! k = Some t →
     lowercase k = k ∧ ∀ user, to_factor_token t ≠ factor_user_name user) ∧
  (∀ a b, factor_user_name a = factor_user_name b → a ≠ b →
     ∃ safe, safe ∈ [a; b] ∧ safe ∈ ["arrow"; "end-test"; "begin-test"]).
Proof.
  pose proof rows_ok_true as [Hnd%bool_decide_eq_true Hrows]%andb_true_iff. split; [|split].
  - intros k t. split; [apply collect_map_elem|by apply collect_map_unique].
  - intros k t Hin%collect_map_elem. rewrite forallb_forall in Hrows.
    specialize (Hrows (k, t) (proj1 (list_elem_of_In _ _) Hin)).
    apply andb_true_iff in Hrows as [Hlc%bool_decide_eq_true Hpre]. split; [done|].
    intros user E. rewrite E in Hpre. unfold factor_user_name in Hpre. by rewrite starts_with_app in Hpre.
  - clear. intros a b E Hne. unfold factor_user_name in E. apply (inj _) in E.
    destruct (safe_name_cases a) as [[-> Ha]|[[-> Ha]|[[-> Ha]|Ha]]],
             (safe_name_cases b) as [[-> Hb]|[[-> Hb]|[[-> Hb]|Hb]]];
      rewrite ?Ha, ?Hb in E; try discriminate; subst; try done;
      first [ eexists; split; [apply list_elem_of_here|by apply (bool_decide_unpack _)]
            | eexists; split; [apply list_elem_of_further, list_elem_of_here|by apply (bool_decide_unpack _)] ].
Qed.

(** * The resolver *)

Inductive ResolveError :=
  | UnknownWord (name : string) (at_ : Span)
  | RedefinedWord (name : string) (at_ prev : Span)
  | RecurseNeedsEffect (word : string) (at_ : Span)
  | ToNotValue (name : string) (at_ : Span).

Definition show_resolve_error (e : ResolveError) : string :=
  match e with
  | UnknownWord name a => "unknown word `" +:+ name +:+ "` at " +:+ show_span a
  | RedefinedWord name a prev =>
      "redefinition of `" +:+ name +:+ "` at " +:+ show_span a +:+ " (previously defined at " +:+
      show_span prev +:+ ")"
  | RecurseNeedsEffect word a =>
      "`" +:+ word +:+ "` at " +:+ show_span a +:+
      " uses RECURSE but has no stack-effect annotation — add `( ... -- ... )` after the name"
  | ToNotValue name a =>
      "`TO " +:+ name +:+ "` at " +:+ show_span a +:+ ": `" +:+ name +:+
      "` is not a VALUE (TO only works on VALUEs)"
  end.

(** [HashMap<String, Span>] and [HashMap<Span, Target>]. *)
Notation span_map := (gmap string Span).
Notation target_map := (gmap Span Target).

Record Resolved := mkResolved {
  r_program : Program; r_word_targets : target_map; r_user_words : span_map }.

(** ** Pass 1: the names a program declares *)

Definition register (name : string) (at_ : Span) (items : span_map) : result ResolveError span_map :=
  match items !! lowercase name with
  | Some prev => Err (RedefinedWord name at_ prev)
  | None => Ok (<[lowercase name := at_]> items)
  end.

(** The user words and the [VALUE] names among them. *)
Definition register_item (class_slots : class_map) (i : Item) (st : span_map * span_map)
    : result ResolveError (span_map * span_map) :=
  let '(user_words, local_value_names) := st in
  let one name sp := w ← register name sp user_words; Ok (w, local_value_names) in
  match i with
  | IDefinition d => one (d_name d) (d_name_span d)
  | IVariable v => one (v_name v) (v_name_span v)
  | IConstant c => one (k_name c) (k_name_span c)
  | ICreate c => one (cr_name c) (cr_name_span c)
  | ICollection c => one (co_name c) (co_name_span c)
  | ITemplate t => one (t_name t) (t_name_span t)
  | ITemplateInstance t => one (ti_name t) (ti_name_span t)
  | IValue v =>
      w ← register (va_name v) (va_name_span v) user_words;
      Ok (w, <[lowercase (va_name v) := va_name_span v]> local_value_names)
  | IClass c =>
      let all_slots := default [] (class_slots !! lowercase (cl_name c)) in
      w ← fold_result (λ '(name, sp) m, register name sp m) (class_synthesised_names c all_slots)
                      user_words;
      Ok (w, local_value_names)
  | IGeneric g => one (g_name g) (g_name_span g)
  | IMethod _ | IRawFactor _ | ITopLevel _ _ | INeeds _ _ => Ok st
  end.

(** ** The locals of a definition *)

(** Names other than the discard marker. *)
Definition bind_local (l : LocalDecl) (scope : gset string) : gset string :=
  if bool_decide (ld_name l = "_") then scope else {[lowercase (ld_name l)]} ∪ scope.

Fixpoint collect_expr (e : Expr) (scope : gset string) : gset string :=
  match e with
  | Locals names _ => fold_with bind_local names scope
  | If t el _ => opt_with (fold_with collect_expr) el (fold_with collect_expr t scope)
  | BeginUntil b _ | BeginAgain b _ | DoLoop _ b _ _ => fold_with collect_expr b scope
  | BeginWhileRepeat pr b _ => fold_with collect_expr b (fold_with collect_expr pr scope)
  | Case arms d _ => opt_with (fold_with collect_expr) d (fold_with collect_arm arms scope)
  | _ => scope
  end
with collect_arm (a : CaseArm) (scope : gset string) : gset string :=
  match a with mkArm m b _ => fold_with collect_expr b (fold_with collect_expr m scope) end.
Definition collect_body_locals : list Expr → gset string → gset string := fold_with collect_expr.

Definition local_scope (locals : list LocalDecl) (body : list Expr) : gset string :=
  collect_body_locals body
    (list_to_set ((λ l, lowercase (ld_name l)) <$> filter (λ l, ld_name l ≠ "_") locals)).

(** ** Pass 2: the targets *)

Section ResolveExprs.
Context (builtins : gmap string Target) (user_words value_names : span_map) (locals : gset string).

(** A word or a ticked word. *)
Definition resolve_ref (name : string) (span : Span) (out : target_map)
    : result ResolveError target_map :=
  let lc := lowercase name in
  if decide (lc ∈ locals) then Ok (<[span := Local lc]> out)
  else match user_words !! lc with
  | Some _ => Ok (<[span := UserDefined (factor_user_name lc)]> out)
  | None =>
      match builtins !! lc with
      | Some t => Ok (<[span := t]> out)
      | None => Err (UnknownWord name span)
      end
  end.

Definition resolve_to (name : string) (span : Span) (out : target_map)
    : result ResolveError target_map :=
  match value_names !! lowercase name with
  | Some _ => Ok out
  | None => Err (ToNotValue name span)
  end.

Fixpoint resolve_expr (e : Expr) (out : target_map) : result ResolveError target_map :=
  match e with
  | Lit _ | See _ _ | LetExpr _ _ | Locals _ _ => Ok out
  | WordRef name span | Tick name span => resolve_ref name span out
  | To name span => resolve_to name span out
  | If t el _ =>
      out1 ← fold_result resolve_expr t out; opt_result (fold_result resolve_expr) el out1
  | BeginUntil b _ | BeginAgain b _ | DoLoop _ b _ _ => fold_result resolve_expr b out
  | BeginWhileRepeat pr b _ => out1 ← fold_result resolve_expr pr out; fold_result resolve_expr b out1
  | Case arms d _ =>
      out1 ← fold_result resolve_arm arms out; opt_result (fold_result resolve_expr) d out1
  end
with resolve_arm (a : CaseArm) (out : target_map) : result ResolveError target_map :=
  match a with
  | mkArm m b _ => out1 ← fold_result resolve_expr m out; fold_result resolve_expr b out1
  end.

Definition resolve_exprs : list Expr → target_map → result ResolveError target_map :=
  fold_result resolve_expr.
End ResolveExprs.

Section ResolveProgram.
Context (builtins : gmap string Target) (combined combined_values : span_map).

Definition resolve_item (i : Item) (out : target_map) : result ResolveError target_map :=
  let go := resolve_exprs builtins combined combined_values in
  match i with
  | IDefinition d => go (local_scope (d_locals d) (d_body d)) (d_body d) out
  | ITopLevel exprs _ => go ∅ exprs out
  | IConstant c => match k_value c with Computed e => go ∅ e out | _ => Ok out end
  | IValue v => go ∅ (va_initial v) out
  | ITemplate t => out1 ← go ∅ (t_constructor t) out; go ∅ (t_does t) out1
  | IMethod m => go (local_scope (m_locals m) (m_body m)) (m_body m) out
  | IVariable _ | ICreate _ | ICollection _ | ITemplateInstance _ | IClass _ | IGeneric _
  | IRawFactor _ | INeeds _ _ => Ok out
  end.
End ResolveProgram.

(** Prior names, shadowed by those of this compile. *)
Definition shadow (prior new : span_map) : span_map := new ∪ prior.

Definition resolve_with_prior_and_values_and_classes (prog : Program)
    (prior_user_words prior_value_names : span_map) (class_slots : class_map)
    : result ResolveError Resolved :=
  '(user_words, local_value_names) ← fold_result (register_item class_slots) (p_items prog) (∅, ∅);
  let combined := shadow prior_user_words user_words in
  let combined_values := shadow prior_value_names local_value_names in
  word_targets ← fold_result (resolve_item builtin_table combined combined_values) (p_items prog) ∅;
  Ok (mkResolved prog word_targets user_words).

Definition resolve_with_prior_and_values (prog : Program)
    (prior_user_words prior_value_names : span_map) : result ResolveError Resolved :=
  resolve_with_prior_and_values_and_classes prog prior_user_words prior_value_names ∅.
Definition resolve_with_prior (prog : Program) (prior_user_words : span_map) :=
  resolve_with_prior_and_values prog prior_user_words ∅.
Definition resolve (prog : Program) : result ResolveError Resolved := resolve_with_prior prog ∅.
