(* ===== verification/ResolveFacts.v ===== *)
(** * What the resolver answers

    The resolver is equal to a reference definition that walks the list of the
    program's references ([program_refs]): it accepts exactly the programs whose
    names are distinct and whose references all have a meaning, and the target
    map then holds the target of each reference and nothing else. *)
From stdpp Require Import strings gmap.
From S2P Require Import Prelude Bytes F64 Lex LetLang Ast Classes Resolve.

(** ** References *)

Inductive Ref := RefWord (name : string) (span : Span) | RefTo (name : string) (span : Span).

Definition expr_ref (e : Expr) : list Ref :=
  match e with
  | WordRef n s | Tick n s => [RefWord n s]
  | To n s => [RefTo n s]
  | _ => []
  end.

(** The sequences of an item, each with the locals in scope; an instance of a
    template holds the template's code, resolved there. *)
Definition item_scopes (i : Item) : list (gset string * list Expr) :=
  match i with
  | IDefinition d => [(local_scope (d_locals d) (d_body d), d_body d)]
  | ITopLevel exprs _ => [(∅, exprs)]
  | IConstant c => match k_value c with Computed e => [(∅, e)] | _ => [] end
  | IValue v => [(∅, va_initial v)]
  | ITemplate t => [(∅, t_constructor t); (∅, t_does t)]
  | IMethod m => [(local_scope (m_locals m) (m_body m), m_body m)]
  | _ => []
  end.
Definition scope_refs (ls : gset string * list Expr) : list (gset string * Ref) :=
  (λ r, (fst ls, r)) <$> gather_seq expr_ref (snd ls).
Definition item_refs (i : Item) : list (gset string * Ref) := flat_with scope_refs (item_scopes i).
Definition program_refs (p : Program) : list (gset string * Ref) := flat_with item_refs (p_items p).

(** The keys of the target map. *)
Definition ref_key (lr : gset string * Ref) : list Span :=
  match snd lr with RefWord _ s => [s] | RefTo _ _ => [] end.
Definition ref_keys (p : Program) : list Span := flat_with ref_key (program_refs p).

Section Meaning.
Context (builtins : gmap string Target) (words values : span_map).

(** What a name means: a local before a user word before a built-in one. *)
Definition name_target (locals : gset string) (name : string) : option Target :=
  let lc := lowercase name in
  if decide (lc ∈ locals) then Some (Local lc)
  else match words !! lc with
       | Some _ => Some (UserDefined (factor_user_name lc))
       | None => builtins !! lc
       end.

Definition ref_error (lr : gset string * Ref) : option ResolveError :=
  match snd lr with
  | RefWord n s =>
      match name_target (fst lr) n with Some _ => None | None => Some (UnknownWord n s) end
  | RefTo n s =>
      match values !! lowercase n with Some _ => None | None => Some (ToNotValue n s) end
  end.

Definition write_ref (lr : gset string * Ref) (out : target_map) : target_map :=
  match snd lr with
  | RefWord n s =>
      match name_target (fst lr) n with Some t => <[s := t]> out | None => out end
  | RefTo _ _ => out
  end.

Definition resolve_one (lr : gset string * Ref) (out : target_map)
    : result ResolveError target_map :=
  match snd lr with
  | RefWord n s => resolve_ref builtins words (fst lr) n s out
  | RefTo n s => resolve_to values n s out
  end.

Lemma resolve_one_eq lr out :
  resolve_one lr out = match ref_error lr with Some e => Err e | None => Ok (write_ref lr out) end.
Proof.
  destruct lr as [l [n s|n s]]; unfold resolve_one, ref_error, write_ref, resolve_ref, resolve_to,
    name_target; cbn [fst snd]; [|by destruct (values !! _)].
  destruct (decide _); [done|]. destruct (words !! _); [done|]. by destruct (builtins !! _).
Qed.

(** *** The walk over the tree is a walk over the list of references *)

Notation walks locals e :=
  (∀ out, resolve_expr builtins words values locals e out =
          fold_result resolve_one ((λ r, (locals, r)) <$> gather expr_ref e) out).

Lemma resolve_list locals (l : list Expr) out :
  Forall (λ e, walks locals e) l →
  fold_result (resolve_expr builtins words values locals) l out =
  fold_result resolve_one (scope_refs (locals, l)) out.
Proof.
  unfold scope_refs. cbn [fst snd].
  intros Hl. revert out. induction Hl as [|e l He _ IH]; intros out; [done|].
  rewrite gather_seq_cons, fmap_app, fold_result_app. cbn [fold_result]. rewrite He.
  destruct (fold_result resolve_one _ out); cbn; [|done]. apply IH.
Qed.

Lemma resolve_opt locals (o : option (list Expr)) out :
  (∀ b, o = Some b → Forall (λ e, walks locals e) b) →
  opt_result (fold_result (resolve_expr builtins words values locals)) o out =
  fold_result resolve_one ((λ r, (locals, r)) <$> opt_flat (gather_seq expr_ref) o) out.
Proof.
  intros Ho. destruct o as [b|]; [|done]. exact (resolve_list locals b out (Ho b eq_refl)).
Qed.

Lemma resolve_arm_eq locals m b sp out :
  resolve_arm builtins words values locals (mkArm m b sp) out =
  (out1 ← fold_result (resolve_expr builtins words values locals) m out;
   fold_result (resolve_expr builtins words values locals) b out1).
Proof. done. Qed.

Lemma resolve_case_eq locals arms d sp out :
  resolve_expr builtins words values locals (Case arms d sp) out =
  (out1 ← fold_result (resolve_arm builtins words values locals) arms out;
   opt_result (fold_result (resolve_expr builtins words values locals)) d out1).
Proof. done. Qed.

Lemma resolve_arms locals (arms : list CaseArm) out :
  Forall (λ a, Forall (λ e, walks locals e) (arm_match a) ∧
               Forall (λ e, walks locals e) (arm_body a)) arms →
  fold_result (resolve_arm builtins words values locals) arms out =
  fold_result resolve_one ((λ r, (locals, r)) <$> flat_with (gather_arm expr_ref) arms) out.
Proof.
  intros Ha. revert out. induction Ha as [|[m b sp] arms [Hm Hb] _ IH]; intros out; [done|].
  cbn [flat_with fold_result arm_match arm_body] in *.
  rewrite resolve_arm_eq, gather_arm_eq, !fmap_app, !fold_result_app, (resolve_list _ m) by done.
  unfold scope_refs. cbn [fst snd].
  destruct (fold_result resolve_one _ out) as [o1|]; cbn; [|done].
  rewrite (resolve_list _ b) by done. unfold scope_refs. cbn [fst snd].
  destruct (fold_result resolve_one _ o1); cbn; [|done]. apply IH.
Qed.

Lemma bind_eq {E A B} (m m' : result E A) (f g : A → result E B) :
  m = m' → (∀ a, f a = g a) → m ≫= f = m' ≫= g.
Proof. intros -> Hf. destruct m'; [apply Hf|done]. Qed.

Lemma resolve_expr_walk locals e : walks locals e.
Proof.
  induction e using Expr_nested_ind; intros out;
    first [rewrite resolve_case_eq | cbn [resolve_expr]]; autorewrite with ast;
    cbn [expr_ref app]; rewrite ?fmap_app, ?fold_result_app;
    first [ by apply resolve_list
          | apply bind_eq; [first [by apply resolve_list|by apply resolve_arms]|intros out1;
              first [by apply resolve_list|by apply resolve_opt]]
          | by cbn; match goal with |- ?r = _ => destruct r end
          | done ].
Qed.

Lemma resolve_exprs_walk locals l out :
  resolve_exprs builtins words values locals l out =
  fold_result resolve_one (scope_refs (locals, l)) out.
Proof. apply resolve_list, Forall_forall. intros e _. apply resolve_expr_walk. Qed.

Lemma resolve_item_walk i out :
  resolve_item builtins words values i out = fold_result resolve_one (item_refs i) out.
Proof.
  unfold item_refs. destruct i; cbn [resolve_item item_scopes flat_with]; try done;
    try (by rewrite app_nil_r, resolve_exprs_walk).
  - destruct (k_value c); [done|done|]. cbn [flat_with]. by rewrite app_nil_r, resolve_exprs_walk.
  - rewrite app_nil_r, fold_result_app, resolve_exprs_walk.
    destruct (fold_result resolve_one _ out); [|done]. cbn. by rewrite resolve_exprs_walk.
Qed.

Lemma resolve_items_walk items out :
  fold_result (resolve_item builtins words values) items out =
  fold_result resolve_one (flat_with item_refs items) out.
Proof.
  revert out. induction items as [|i items IH]; intros out; [done|].
  cbn [fold_result flat_with]. rewrite fold_result_app, resolve_item_walk.
  destruct (fold_result resolve_one _ out); cbn; [apply IH|done].
Qed.

(** *** The outcome of a walk *)

Lemma walk_spec refs out :
  (Forall (λ lr, ref_error lr = None) refs ∧
   fold_result resolve_one refs out = Ok (fold_with write_ref refs out)) ∨
  (∃ pre lr post e, refs = pre ++ lr :: post ∧ Forall (λ lr, ref_error lr = None) pre ∧
     ref_error lr = Some e ∧ fold_result resolve_one refs out = Err e).
Proof.
  revert out. induction refs as [|lr refs IH]; intros out; [by left|].
  cbn [fold_result fold_with]. rewrite resolve_one_eq. destruct (ref_error lr) as [e|] eqn:He.
  - right. exists [], lr, refs, e. by repeat split.
  - cbn. destruct (IH (write_ref lr out)) as [[Hok Hr]|(pre & lr' & post & e & -> & Hpre & He' & Hr)].
    + left. split; [by constructor|done].
    + right. exists (lr :: pre), lr', post, e. repeat split; [by constructor|done..].
Qed.

Lemma write_ref_other lr out s : s ∉ ref_key lr → write_ref lr out !! s = out !! s.
Proof.
  destruct lr as [l [n s'|n s']]; unfold write_ref, ref_key; cbn [fst snd]; [|done].
  intros Hs%not_elem_of_cons. destruct (name_target l n); [|done]. by rewrite lookup_insert_ne by naive_solver.
Qed.

Lemma write_refs_other refs out s :
  s ∉ flat_with ref_key refs → fold_with write_ref refs out !! s = out !! s.
Proof.
  revert out. induction refs as [|lr refs IH]; intros out; [done|].
  cbn [flat_with fold_with]. intros [H1 H2]%not_elem_of_app. rewrite IH by done. by apply write_ref_other.
Qed.

Lemma write_refs_key refs out l n s :
  NoDup (flat_with ref_key refs) → (l, RefWord n s) ∈ refs → is_Some (name_target l n) →
  fold_with write_ref refs out !! s = name_target l n.
Proof.
  revert out. induction refs as [|lr refs IH]; intros out; cbn [flat_with fold_with].
  { by intros _ ?%elem_of_nil. }
  intros (H1 & H2 & H3)%NoDup_app [<-|Hin]%elem_of_cons [t Ht].
  - rewrite write_refs_other by (apply H2; by left). unfold write_ref. cbn [fst snd]. rewrite Ht.
    by rewrite lookup_insert_eq.
  - by apply IH.
Qed.

(** A place in the map holds the target of the last reference written there. *)
Definition last_at (refs : list (gset string * Ref)) (l : gset string) (n : string) (s : Span) : Prop :=
  ∃ pre post, refs = pre ++ (l, RefWord n s) :: post ∧ s ∉ flat_with ref_key post.
Lemma last_at_snoc refs lr l n s :
  last_at (refs ++ [lr]) l n s ↔ lr = (l, RefWord n s) ∨ s ∉ ref_key lr ∧ last_at refs l n s.
Proof.
  split.
  - intros (pre & post & E & Hs). destruct post as [|x post _] using rev_ind.
    + left. by apply app_inj_tail in E as [_ ->].
    + right. rewrite app_comm_cons, app_assoc in E. apply app_inj_tail in E as [-> ->].
      rewrite flat_with_app in Hs. cbn [flat_with] in Hs. rewrite app_nil_r in Hs. apply not_elem_of_app in Hs as [H1 H2].
      split; [done|]. by exists pre, post.
  - intros [->|(H & pre & post & -> & Hs)]; [exists refs, []; split; [done|apply not_elem_of_nil]|].
    exists pre, (post ++ [lr]). split; [by rewrite <- app_assoc|]. rewrite flat_with_app. cbn [flat_with].
    rewrite app_nil_r. by apply not_elem_of_app.
Qed.
Lemma write_refs_last refs s t : Forall (λ lr, ref_error lr = None) refs →
  fold_with write_ref refs ∅ !! s = Some t ↔ ∃ l n, last_at refs l n s ∧ name_target l n = Some t.
Proof.
  induction refs as [|lr refs IH] using rev_ind; intros Hok.
  { cbn. rewrite lookup_empty. split; [done|]. by intros (l & n & ([|] & ? & ? & _) & _). }
  apply Forall_app in Hok as [Hok [Hlr _]%Forall_cons]. specialize (IH Hok). rewrite fold_with_app. cbn [fold_with].
  setoid_rewrite last_at_snoc. destruct lr as [l0 [n0 s0|n0 s0]]; unfold write_ref, ref_error, ref_key in *; cbn [fst snd] in *.
  - destruct (name_target l0 n0) as [t0|] eqn:Et; [|done]. destruct (decide (s0 = s)) as [->|Hne].
    + rewrite lookup_insert_eq. split; [intros [= ->]; exists l0, n0; split; [by left|done]|].
      intros (l & n & [[= <- <-]|[Hs _]] & Ht); [congruence|]. by apply not_elem_of_cons in Hs as [? _].
    + rewrite lookup_insert_ne, IH by done. split.
      * intros (l & n & Hl & Ht). exists l, n. split; [right; split; [|done]|done]. apply not_elem_of_cons.
        split; [done|apply not_elem_of_nil].
      * intros (l & n & [[= _ _ ->]|[_ Hl]] & Ht); [done|]. by exists l, n.
  - rewrite IH. split; [intros (l & n & Hl & Ht)|intros (l & n & [[=]|[_ Hl]] & Ht)]; exists l, n; split; [|done..].
    right. split; [apply not_elem_of_nil|done].
Qed.
End Meaning.

(** ** Names *)

Definition key_of (ns : string * Span) : string := lowercase (fst ns).
Definition key_map (names : list (string * Span)) : span_map :=
  list_to_map ((λ ns, (key_of ns, snd ns)) <$> names).

(** The first name declared twice, with the span of the first declaration. *)
Definition redeclared (names : list (string * Span)) (e : ResolveError) : Prop :=
  ∃ pre n a post prev, names = pre ++ (n, a) :: post ∧ NoDup (key_of <$> pre) ∧
    key_map pre !! lowercase n = Some prev ∧ e = RedefinedWord n a prev.

Lemma key_map_keys names : ((λ ns, (key_of ns, snd ns)) <$> names).*1 = key_of <$> names.
Proof. by rewrite <- list_fmap_compose. Qed.

Lemma key_map_None names n : key_map names !! lowercase n = None ↔ lowercase n ∉ key_of <$> names.
Proof. unfold key_map. rewrite <- not_elem_of_list_to_map. by rewrite key_map_keys. Qed.

Lemma key_map_snoc names n a :
  lowercase n ∉ key_of <$> names → key_map (names ++ [(n, a)]) = <[lowercase n := a]> (key_map names).
Proof.
  intros Hn. unfold key_map. rewrite fmap_app. cbn.
  apply list_to_map_snoc. by rewrite key_map_keys.
Qed.

Lemma register_names names seen :
  NoDup (key_of <$> seen) →
  (NoDup (key_of <$> seen ++ names) ∧
   fold_result (λ '(n, s) m, register n s m) names (key_map seen) = Ok (key_map (seen ++ names))) ∨
  (∃ pre n a post prev, names = pre ++ (n, a) :: post ∧ NoDup (key_of <$> seen ++ pre) ∧
     key_map (seen ++ pre) !! lowercase n = Some prev ∧
     fold_result (λ '(n, s) m, register n s m) names (key_map seen) = Err (RedefinedWord n a prev)).
Proof.
  revert seen. induction names as [|[n a] names IH]; intros seen Hnd.
  { left. by rewrite app_nil_r. }
  cbn [fold_result].
  assert (register n a (key_map seen) = match key_map seen !! lowercase n with
            | Some prev => Err (RedefinedWord n a prev)
            | None => Ok (<[lowercase n := a]> (key_map seen)) end) as -> by done.
  destruct (key_map seen !! lowercase n) as [prev|] eqn:Hs.
  - right. exists [], n, a, names, prev. by rewrite app_nil_r.
  - apply key_map_None in Hs as Hn. cbn [mbind result_bind]. rewrite <- key_map_snoc by done.
    destruct (IH (seen ++ [(n, a)])) as [H|(pre & n' & a' & post & prev & -> & Hp & Hl & Hr)].
    { rewrite fmap_app. apply NoDup_app. split; [done|]. split; [|apply NoDup_singleton].
      intros x Hx ->%list_elem_of_singleton. by apply Hn. }
    + left. by rewrite <- app_assoc in H.
    + right. exists ((n, a) :: pre), n', a', post, prev. by rewrite <- app_assoc in *.
Qed.

(** What an item declares, and the [VALUE]s among it. *)
Definition declared_names (class_slots : class_map) (i : Item) : list (string * Span) :=
  match i with
  | IDefinition d => [(d_name d, d_name_span d)]
  | IVariable v => [(v_name v, v_name_span v)]
  | IConstant c => [(k_name c, k_name_span c)]
  | ICreate c => [(cr_name c, cr_name_span c)]
  | ICollection c => [(co_name c, co_name_span c)]
  | ITemplate t => [(t_name t, t_name_span t)]
  | ITemplateInstance t => [(ti_name t, ti_name_span t)]
  | IValue v => [(va_name v, va_name_span v)]
  | IClass c => class_synthesised_names c (default [] (class_slots !! lowercase (cl_name c)))
  | IGeneric g => [(g_name g, g_name_span g)]
  | IMethod _ | IRawFactor _ | ITopLevel _ _ | INeeds _ _ => []
  end.
Definition program_names (class_slots : class_map) (p : Program) : list (string * Span) :=
  flat_with (declared_names class_slots) (p_items p).

Definition add_value (i : Item) (m : span_map) : span_map :=
  match i with IValue v => <[lowercase (va_name v) := va_name_span v]> m | _ => m end.
Definition program_values (p : Program) : span_map := fold_with add_value (p_items p) ∅.

Lemma register_item_names cs i w v :
  register_item cs i (w, v) =
  (w' ← fold_result (λ '(n, s) m, register n s m) (declared_names cs i) w; Ok (w', add_value i v)).
Proof.
  destruct i; cbn [register_item declared_names add_value fold_result]; try done;
    unfold mbind, result_bind; by destruct (register _ _ w).
Qed.

Lemma register_items cs items w v :
  fold_result (register_item cs) items (w, v) =
  (w' ← fold_result (λ '(n, s) m, register n s m) (flat_with (declared_names cs) items) w;
   Ok (w', fold_with add_value items v)).
Proof.
  revert w v. induction items as [|i items IH]; intros w v; [done|].
  cbn [fold_result flat_with fold_with]. rewrite register_item_names, fold_result_app.
  destruct (fold_result _ (declared_names cs i) w) as [w1|]; cbn; [|done]. apply IH.
Qed.

(** ** The reference definition *)

Section Spec.
Context (prog : Program) (prior_words prior_values : span_map) (cs : class_map).
Let names := program_names cs prog.
Let words := shadow prior_words (key_map names).
Let values := shadow prior_values (program_values prog).

Lemma resolve_spec :
  let r := resolve_with_prior_and_values_and_classes prog prior_words prior_values cs in
  (∃ e, redeclared names e ∧ r = Err e) ∨
  NoDup (key_of <$> names) ∧
  ((∃ pre lr post e, program_refs prog = pre ++ lr :: post ∧
      Forall (λ lr, ref_error builtin_table words values lr = None) pre ∧
      ref_error builtin_table words values lr = Some e ∧ r = Err e) ∨
   Forall (λ lr, ref_error builtin_table words values lr = None) (program_refs prog) ∧
   r = Ok (mkResolved prog (fold_with (write_ref builtin_table words) (program_refs prog) ∅)
                      (key_map names))).
Proof.
  unfold resolve_with_prior_and_values_and_classes. rewrite register_items.
  destruct (register_names names [] NoDup_nil_2)
    as [[Hnd Hr]|(pre & n & a & post & prev & E & Hnd & Hl & Hr)]; cbn [app] in *.
  - right. split; [done|]. change (key_map []) with (∅ : span_map) in Hr.
    fold (program_names cs prog). fold names. rewrite Hr. cbn [mbind result_bind].
    fold (program_values prog). fold words values. rewrite resolve_items_walk.
    fold (program_refs prog).
    destruct (walk_spec builtin_table words values (program_refs prog) ∅)
      as [[Hok Hw]|(pre & lr & post & e & E & Hpre & He & Hw)]; rewrite Hw.
    + by right.
    + left. by exists pre, lr, post, e.
  - left. exists (RedefinedWord n a prev). split; [by exists pre, n, a, post, prev|].
    change (key_map []) with (∅ : span_map) in Hr.
    fold (program_names cs prog). fold names. by rewrite Hr.
Qed.
End Spec.

(** ** Scopes *)

Definition local_names (e : Expr) : list LocalDecl := match e with Locals names _ => names | _ => [] end.

Definition bound_by (decls : list LocalDecl) (x : string) : Prop :=
  ∃ l, l ∈ decls ∧ ld_name l ≠ "_" ∧ x = lowercase (ld_name l).

Lemma bound_by_app a b x : bound_by (a ++ b) x ↔ bound_by a x ∨ bound_by b x.
Proof.
  unfold bound_by. split.
  - intros (l & [Hl|Hl]%elem_of_app & ?); eauto.
  - intros [(l & Hl & ?)|(l & Hl & ?)]; exists l; rewrite elem_of_app; eauto.
Qed.

(** [f] adds to a scope what [decls] binds. *)
Definition collects (f : gset string → gset string) (decls : list LocalDecl) : Prop :=
  ∀ scope x, x ∈ f scope ↔ x ∈ scope ∨ bound_by decls x.

Lemma collects_nil : collects id [].
Proof. intros scope x. split; [by left|]. intros [?|(l & ?%elem_of_nil & _)]; done. Qed.

Lemma collects_comp f g a b : collects f a → collects g b → collects (λ s, g (f s)) (a ++ b).
Proof. intros Hf Hg scope x. rewrite (Hg _ x), (Hf _ x), bound_by_app. tauto. Qed.

Lemma collects_list {A} (f : A → gset string → gset string) (d : A → list LocalDecl) l :
  Forall (λ x, collects (f x) (d x)) l → collects (fold_with f l) (flat_with d l).
Proof.
  induction 1 as [|x l Hx _ IH]; [apply collects_nil|]. exact (collects_comp _ _ _ _ Hx IH).
Qed.

Lemma collects_opt {A} (f : A → gset string → gset string) (d : A → list LocalDecl) o :
  (∀ b, o = Some b → collects (f b) (d b)) → collects (opt_with f o) (opt_flat d o).
Proof. destruct o; [intros H; by apply H|intros _; apply collects_nil]. Qed.

Lemma collects_bind l : collects (bind_local l) [l].
Proof.
  intros scope x. unfold bind_local, bound_by. case_bool_decide as Hl.
  - split; [by left|]. by intros [?|(l' & ->%list_elem_of_singleton & ? & _)].
  - rewrite elem_of_union, elem_of_singleton. split.
    + intros [->|?]; [right|by left]. exists l. by rewrite list_elem_of_singleton.
    + intros [?|(l' & ->%list_elem_of_singleton & _ & ->)]; [by right|by left].
Qed.

Lemma flat_with_single {A} (l : list A) : flat_with (λ x, [x]) l = l.
Proof. induction l as [|x l IH]; simpl; [done|]. by rewrite IH. Qed.

Lemma collect_arms_collects arms :
  Forall (λ a, Forall (λ e, collects (collect_expr e) (gather local_names e)) (arm_match a) ∧
               Forall (λ e, collects (collect_expr e) (gather local_names e)) (arm_body a)) arms →
  collects (fold_with collect_arm arms) (flat_with (gather_arm local_names) arms).
Proof.
  intros Ha. apply collects_list. eapply Forall_impl; [exact Ha|].
  intros [m b sp] [Hm Hb]. rewrite gather_arm_eq.
  apply (collects_comp (fold_with collect_expr m) (fold_with collect_expr b));
    by apply collects_list.
Qed.

Lemma collect_expr_collects e : collects (collect_expr e) (gather local_names e).
Proof.
  induction e using Expr_nested_ind; autorewrite with ast; cbn [local_names app];
    try (by apply collects_nil); try (by apply collects_list).
  - apply (collects_comp (fold_with collect_expr t) (opt_with (fold_with collect_expr) e));
      [by apply collects_list|]. apply collects_opt. intros b ->. apply collects_list. by apply H0.
  - apply (collects_comp (fold_with collect_expr p) (fold_with collect_expr b));
      by apply collects_list.
  - apply (collects_comp (fold_with collect_arm arms) (opt_with (fold_with collect_expr) d));
      [by apply collect_arms_collects|]. apply collects_opt. intros b ->. apply collects_list. by apply H0.
  - cbn [gather local_names]. rewrite app_nil_r. rewrite <- (flat_with_single ns) at 2.
    apply (collects_list bind_local (λ l, [l])), Forall_forall. intros l _. apply collects_bind.
Qed.

(** The names local to a definition are those of its head block and of
    every block in its body, at whatever depth, in lower case; [_] binds
    nothing. *)
Theorem local_scope_binds (locals : list LocalDecl) (body : list Expr) (x : string) :
  x ∈ local_scope locals body ↔ bound_by (locals ++ gather_seq local_names body) x.
Proof.
  unfold local_scope, collect_body_locals. rewrite bound_by_app.
  assert (collects (fold_with collect_expr body) (gather_seq local_names body)) as Hb.
  { apply collects_list, Forall_forall. intros e _. apply collect_expr_collects. }
  rewrite (Hb _ x), elem_of_list_to_set, list_elem_of_fmap. f_equiv. unfold bound_by.
  split; intros (l & H); exists l; rewrite list_elem_of_filter in *; naive_solver.
Qed.

(** C34: the resolver accepts a program when the names it declares are
    distinct, in lower case, and every reference has a meaning: a word is a
    local, a user word or in the dictionary, the target of [TO] is a [VALUE].
    Otherwise the error reports the first name declared twice, with the place
    of the first declaration, or the first reference without a meaning. *)
Theorem resolve_rejects (prog : Program) (prior_words prior_values : span_map) (cs : class_map) :
  let names := program_names cs prog in
  let error := ref_error builtin_table (shadow prior_words (key_map names))
                         (shadow prior_values (program_values prog)) in
  match resolve_with_prior_and_values_and_classes prog prior_words prior_values cs with
  | Ok _ => NoDup (key_of <$> names) ∧ Forall (λ lr, error lr = None) (program_refs prog)
  | Err e => redeclared names e ∨
             NoDup (key_of <$> names) ∧
             ∃ pre lr post, program_refs prog = pre ++ lr :: post ∧
               Forall (λ lr, error lr = None) pre ∧ error lr = Some e
  end.
Proof.
  destruct (resolve_spec prog prior_words prior_values cs)
    as [(e & He & ->)|[Hnd [(pre & lr & post & e & E & Hpre & He & ->)|[Hok ->]]]].
  - by left.
  - right. split; [done|]. by exists pre, lr, post.
  - done.
Qed.

Lemma accepted_targets (prog : Program) (prior_words prior_values : span_map) (cs : class_map)
    (r : Resolved)
    (Hok : resolve_with_prior_and_values_and_classes prog prior_words prior_values cs = Ok r)
    (Hkeys : NoDup (ref_keys prog)) :
  r_program r = prog ∧
  (∀ n s, (n, s) ∈ program_names cs prog → r_user_words r !! lowercase n = Some s) ∧
  (∀ l n s, (l, RefWord n s) ∈ program_refs prog →
     ∃ t, name_target builtin_table (shadow prior_words (r_user_words r)) l n = Some t ∧
          r_word_targets r !! s = Some t) ∧
  (∀ s, is_Some (r_word_targets r !! s) → s ∈ ref_keys prog).
Proof.
  destruct (resolve_spec prog prior_words prior_values cs)
    as [(e & _ & E)|[Hnd [(pre & lr & post & e & _ & _ & _ & E)|[Href E]]]];
    rewrite E in Hok; try done.
  injection Hok as <-. cbn [r_program r_user_words r_word_targets]. split; [done|]. split; [|split].
  - intros n s Hin. apply elem_of_list_to_map_1; [by rewrite key_map_keys|].
    exact (list_elem_of_fmap_2 (λ ns, (key_of ns, snd ns)) _ _ Hin).
  - intros l n s Hin. rewrite Forall_forall in Href. specialize (Href _ Hin).
    unfold ref_error in Href. cbn [fst snd] in Href.
    destruct (name_target _ _ l n) as [t|] eqn:Ht; [|done]. exists t. split; [done|].
    rewrite <- Ht. apply write_refs_key; [done..|by rewrite Ht].
  - intros s [t Ht]. destruct (decide (s ∈ ref_keys prog)) as [|Hs]; [done|].
    by rewrite write_refs_other, lookup_empty in Ht.
Qed.

(** C27: the target map of an accepted program is what its references mean.
    Every word reference, ticked or not, has a meaning: the locals of its
    definition come before the words of the session and of the program, those
    before the dictionary.  A place in the source is given the target of the
    last reference there, and no other place is given one; so where no two
    references stand at the same place, as the lines of two files can make them,
    each is given its own.  The words recorded are exactly the names the program
    declares, in lower case, each with the place of its declaration. *)
Theorem resolve_targets (prog : Program) (prior_words prior_values : span_map) (cs : class_map)
    (r : Resolved)
    (Hok : resolve_with_prior_and_values_and_classes prog prior_words prior_values cs = Ok r) :
  let meaning := name_target builtin_table (shadow prior_words (r_user_words r)) in
  r_program r = prog ∧
  (∀ k s, r_user_words r !! k = Some s ↔ ∃ n, (n, s) ∈ program_names cs prog ∧ k = lowercase n) ∧
  (∀ l n s, (l, RefWord n s) ∈ program_refs prog → is_Some (meaning l n)) ∧
  (∀ s t, r_word_targets r !! s = Some t ↔ ∃ l n, last_at (program_refs prog) l n s ∧ meaning l n = Some t) ∧
  (NoDup (ref_keys prog) → ∀ l n s, (l, RefWord n s) ∈ program_refs prog → r_word_targets r !! s = meaning l n).
Proof.
  destruct (resolve_spec prog prior_words prior_values cs)
    as [(e & _ & E)|[Hnd [(pre & lr & post & e & _ & _ & _ & E)|[Href E]]]];
    rewrite E in Hok; try done.
  injection Hok as <-. cbn [r_program r_user_words r_word_targets]. cbn zeta. set (words := shadow _ _) in *.
  assert (Hmean : ∀ l n s, (l, RefWord n s) ∈ program_refs prog → is_Some (name_target builtin_table words l n)).
  { intros l n s Hin. rewrite Forall_forall in Href. specialize (Href _ Hin). unfold ref_error in Href. cbn [fst snd] in Href.
    by destruct (name_target _ _ l n). }
  split_and!; [done| |done|intros s t; by eapply write_refs_last|].
  - intros k s. unfold key_map. rewrite <- elem_of_list_to_map by (by rewrite key_map_keys). rewrite list_elem_of_fmap. split.
    + intros ([n s'] & [= -> ->] & Hin). by exists n.
    + intros (n & Hin & ->). by exists (n, s).
  - intros Hkeys l n s Hin. apply write_refs_key; [done..|by eapply Hmean].
Qed.

(** [: sq {: n :} n n * ; 5 SQ]. *)
Definition sample_span (n : Z) : Span := mkSpan (mkPos 1 (n + 1) n) (mkPos 1 (n + 2) (n + 1)).
Definition sample_prog : Program := mkProgram [
  IDefinition (mkDefinition "sq" (sample_span 2) None [mkLocalDecl "n" (sample_span 8)]
    [WordRef "n" (sample_span 13); WordRef "N" (sample_span 15); WordRef "*" (sample_span 17)]
    (sample_span 0));
  ITopLevel [Lit (LitInt 5 (sample_span 21)); WordRef "SQ" (sample_span 23)] (sample_span 21)].
Definition sample_result : Resolved :=
  match resolve_with_prior_and_values_and_classes sample_prog ∅ ∅ ∅ with
  | Ok r => r
  | Err _ => mkResolved sample_prog ∅ ∅
  end.

Lemma resolve_targets_witness :
  r_program sample_result = sample_prog ∧
  r_user_words sample_result !! "sq" = Some (sample_span 2) ∧
  (∀ k s, r_user_words sample_result !! k = Some s → ∃ n, (n, s) ∈ program_names ∅ sample_prog ∧ k = lowercase n) ∧
  (∀ s t, r_word_targets sample_result !! s = Some t →
     ∃ l n, last_at (program_refs sample_prog) l n s ∧
       name_target builtin_table (shadow ∅ (r_user_words sample_result)) l n = Some t) ∧
  r_word_targets sample_result !! sample_span 15 = Some (Local "n") ∧
  r_word_targets sample_result !! sample_span 23 = Some (UserDefined "z-sq").
Proof.
  destruct (resolve_targets sample_prog ∅ ∅ ∅ sample_result) as (H1 & H2 & H3 & H4 & H5); [vm_compute; reflexivity|].
  split; [exact H1|]. split; [by vm_compute|]. split; [intros k s; apply (proj1 (H2 k s))|].
  split; [intros s t; apply (proj1 (H4 s t))|]. by vm_compute.
Defined.
