(* ===== verification/Effect.v ===== *)
(** * Stack effects ([src/compiler/effect.rs])

    How many items an expression takes from the data stack and leaves there,
    inferred from the bodies of the definitions and compared with the declared
    annotations.  Counts are [u32]: sums wrap. *)
From stdpp Require Import strings gmap.
From S2P Require Import Prelude Bytes F64 Lex LetLang Ast Classes Resolve.

Inductive Effect := Known (inputs outputs : N) | Unknown.

#[export] Instance Effect_eq_dec : EqDecision Effect.
Proof. solve_decision. Defined.

(** [+] on [u32], and [len() as u32]. *)
Definition n32_add (a b : N) : N := ((a + b) `mod` 2 ^ 32)%N.
Definition len32 {A} (l : list A) : N := (N.of_nat (length l) `mod` 2 ^ 32)%N.

(** [Effect::then]: [next] takes what [self] leaves, and dips below it for the
    rest. *)
Definition then_ (self next : Effect) : Effect :=
  match self, next with
  | Known ai ao, Known bi bo =>
      if (bi <=? ao)%N then Known ai (n32_add (ao - bi) bo) else Known (n32_add ai (bi - ao)) bo
  | _, _ => Unknown
  end.

Definition show_effect (e : Effect) : string :=
  match e with
  | Known i o => "( " +:+ pretty i +:+ " -- " +:+ pretty o +:+ " )"
  | Unknown => "( ? )"
  end.

Inductive EffectError :=
  | Mismatch (name : string) (at_ : Span) (declared inferred : N * N)
  | CaseNeedsDefault (name : string) (at_ : Span).

Definition show_effect_error (e : EffectError) : string :=
  match e with
  | Mismatch name a declared inferred =>
      let plural n := if bool_decide (n = 1%N) then "" else "s " in
      "warning: `" +:+ name +:+ "` at " +:+ show_span a +:+ ": declared ( -- " +:+
      pretty (snd declared) +:+ " item" +:+ plural (snd declared) +:+ ") but body produces ( -- " +:+
      pretty (snd inferred) +:+ " item" +:+ plural (snd inferred) +:+ ")" +:+
      (if bool_decide (fst declared = fst inferred) then ""
       else "; also consumes " +:+ pretty (fst inferred) +:+ " (declared " +:+
            pretty (fst declared) +:+ ")")
  | CaseNeedsDefault name a =>
      "warning: `" +:+ name +:+ "` at " +:+ show_span a +:+
      ": CASE has no explicit DEFAULT/OTHER branch, and the no-match path leaves a different stack shape than its OF arms"
  end.

(** ** The effects of the built-in words *)

(** Stack words and arithmetic. *)
Definition stack_effects : list (string * N * N) := [
  ("dup", 1, 2); ("drop", 1, 0); ("swap", 2, 2); ("over", 2, 3); ("rot", 3, 3); ("nip", 2, 1);
  ("tuck", 2, 3); ("+", 2, 1); ("-", 2, 1); ("*", 2, 1); ("/", 2, 1); ("mod", 2, 1);
  ("negate", 1, 1); ("abs", 1, 1); ("min", 2, 1); ("max", 2, 1); ("=", 2, 1); ("<>", 2, 1);
  ("<", 2, 1); (">", 2, 1); ("<=", 2, 1); (">=", 2, 1)
]%N.

(** Comparisons, loop words, terminal, strings, pictured numbers. *)
Definition logic_io_effects : list (string * N * N) := [
  ("0=", 1, 1); ("0<", 1, 1); ("0>", 1, 1); ("and", 2, 1); ("or", 2, 1); ("xor", 2, 1);
  ("invert", 1, 1); ("i", 0, 1); ("j", 0, 1); ("leave", 0, 0); ("unloop", 0, 0); (".", 1, 0);
  ("cr", 0, 0); ("emit", 1, 0); ("space", 0, 0); ("spaces", 1, 0); ("type", 2, 0);
  ("cmove", 3, 0); ("fill", 3, 0); ("bl", 0, 1); ("key", 0, 1); ("accept", 2, 1); ("<#", 0, 0);
  ("#", 1, 1); ("#s", 1, 1); ("sign", 1, 0); ("hold", 1, 0); ("#>", 1, 2); ("n>$", 1, 2);
  ("hex", 0, 0); ("decimal", 0, 0); ("binary", 0, 0); ("octal", 0, 0)
]%N.

(** Memory, return stack, conversions, floats, [execute]. *)
Definition memory_effects : list (string * N * N) := [
  ("@", 1, 1); ("!", 2, 0); ("c@", 1, 1); ("c!", 2, 0); ("+!", 2, 0); ("cell+", 1, 1);
  ("char+", 1, 1); ("cells", 1, 1); ("chars", 1, 1); ("floats", 1, 1); ("allot", 1, 0);
  ("here", 0, 1); ("f@", 1, 1); ("f!", 2, 0); ("depth", 0, 1); (">r", 1, 0); ("r>", 0, 1);
  ("r@", 0, 1); ("rdrop", 0, 0); ("2>r", 2, 0); ("2r>", 0, 2); ("u.", 1, 0); ("s>d", 1, 1);
  ("d>s", 1, 1); ("d>f", 1, 1); ("f>d", 1, 1); ("f+", 2, 1); ("f-", 2, 1); ("f*", 2, 1);
  ("f/", 2, 1); ("f<", 2, 1); ("f>", 2, 1); ("f=", 2, 1); ("execute", 1, 0)
]%N.

(** The ANS core set, managed strings, files. *)
Definition core_effects : list (string * N * N) := [
  ("1+", 1, 1); ("1-", 1, 1); ("2*", 1, 1); ("2/", 1, 1); ("/mod", 2, 2); ("*/", 3, 1);
  ("*/mod", 3, 2); ("lshift", 2, 1); ("rshift", 2, 1); ("2dup", 2, 4); ("2drop", 2, 0);
  ("2swap", 4, 4); ("2over", 4, 6); ("-rot", 3, 3); ("2@", 1, 2); ("2!", 3, 0);
  ("erase", 2, 0); ("0<>", 1, 1); ("$len", 1, 1); ("$clen", 1, 1); ("$+", 2, 1);
  ("$upper", 1, 1); ("$lower", 1, 1); ("$find", 2, 1); ("$contains?", 2, 1);
  ("$starts?", 2, 1); ("$ends?", 2, 1); ("$slice", 3, 1); ("$cmp", 2, 1); ("$hash", 1, 1);
  ("$.", 1, 0); ("$.cr", 1, 0); ("int>$", 1, 1); ("$>int", 1, 1); (">$", 2, 1);
  ("$>addr", 1, 2); ("included", 2, 0)
]%N.

(** Type introspection, tools, collections, bridges, documents. *)
Definition tools_effects : list (string * N * N) := [
  ("typeof", 1, 1); ("int?", 1, 1); ("float?", 1, 1); ("string?", 1, 1); ("xt?", 1, 1);
  ("addr?", 1, 1); ("int-type", 0, 1); ("float-type", 0, 1); ("string-type", 0, 1);
  ("xt-type", 0, 1); ("addr-type", 0, 1); ("other-type", 0, 1); (".s", 0, 0); ("words", 0, 0);
  ("dump", 1, 1); ("<cells>", 1, 1); ("cells@", 2, 1); ("cells!", 3, 0); ("<rawvec>", 0, 1);
  ("rawvec-push", 2, 0); ("rawvec-len", 1, 1); ("rawvec-at", 2, 1); ("rawvec-set", 3, 0);
  ("call1", 2, 0); ("call1>", 2, 1); ("call2>", 3, 1); ("call2", 3, 0); ("(clone)", 1, 1);
  ("<hash>", 0, 1); ("hash-at", 2, 2); ("hash!", 3, 0); ("hash-key?", 2, 1);
  ("hash-del", 2, 0); ("hash-len", 1, 1); ("hash-keys", 1, 1); ("hash-vals", 1, 1);
  ("<hashset>", 0, 1); ("hs-add", 2, 0); ("hs-in?", 2, 1); ("hs-del", 2, 0); ("hs-len", 1, 1);
  ("hs-members", 1, 1); ("num>chars", 1, 1); ("chars>num", 1, 2); ("capture1", 2, 1);
  ("slurp-vec", 1, 1); ("spit-vec", 2, 0); ("file-exists-vec?", 1, 1); ("doc-open", 2, 1);
  ("doc-set", 3, 0); ("doc-append", 3, 0)
]%N.

Definition effect_rows : list (string * N * N) :=
  stack_effects ++ logic_io_effects ++ memory_effects ++ core_effects ++ tools_effects.

Definition builtin_effects : gmap string Effect :=
  collect_map ((λ '(w, i, o), (w, Known i o)) <$> effect_rows).

(** ** Inference *)

Definition join_branch_effects (then_eff else_eff : Effect) : option (N * N) :=
  match then_eff, else_eff with
  | Known ti to, Known ei eo =>
      if ((ti =? ei) && (to =? eo))%N then Some (ti, to) else None
  | _, _ => None
  end.

Definition if_else_effect (then_eff else_eff : Effect) : Effect :=
  match join_branch_effects then_eff else_eff with
  | Some (i, o) => Known i o
  | None => Unknown
  end.

Definition balanced (e : Effect) : bool := match e with Known i o => (i =? o)%N | Unknown => false end.

(** [infer_block], for the effect [f] of one expression. *)
Definition block_from (f : Expr → Effect) : Effect → list Expr → Effect :=
  fix go acc l :=
    match l with
    | [] => acc
    | e :: l' => match then_ acc (f e) with Unknown => Unknown | acc' => go acc' l' end
    end.
Definition block_with (f : Expr → Effect) (l : list Expr) : Effect := block_from f (Known 0 0) l.

Definition flag : Effect := Known 1 0.

(** [infer_case_effect], for the effects of an arm's match and body. *)
Definition case_with (f : CaseArm → Effect * Effect) (base : Effect) : list CaseArm → Effect :=
  fix go arms :=
    match arms with
    | [] => then_ base (Known 1 0)
    | head :: tail =>
        let '(match_eff, body_eff) := f head in
        let cond_eff := then_ (then_ (Known 1 2) match_eff) (Known 2 1) in
        let then_eff := then_ (Known 1 0) body_eff in
        then_ (then_ cond_eff flag) (if_else_effect then_eff (go tail))
    end.

Definition string_effect (kind : StringKind) : Effect :=
  match kind with
  | DotQuote => Known 0 0
  | SQuote => Known 0 2
  | CQuote | SDollarQuote => Known 0 1
  end.

Definition until_effect (body : Effect) : Effect :=
  match body with
  | Known i o =>
      if ((1 <=? o) && (o =? n32_add i 1))%N then Known i i
      else if (i <? o)%N then Known i (o - 1) else Unknown
  | Unknown => Unknown
  end.

Definition while_effect (pred body : Effect) : Effect :=
  match pred, body with
  | Known pi po, Known bi bo =>
      if ((po =? n32_add pi 1) && (bi =? bo))%N then Known (N.max pi bi) (N.max pi bi) else Unknown
  | _, _ => Unknown
  end.

Definition do_effect (body : Effect) : Effect :=
  match body with
  | Known i o => if (i =? o)%N then Known (n32_add 2 i) i else Unknown
  | Unknown => Unknown
  end.

Definition if_effect (then_eff : Effect) (else_eff : option Effect) : Effect :=
  match else_eff with
  | None => match then_eff with
            | Known i o => if (i =? o)%N then then_ flag (Known i o) else Unknown
            | Unknown => Unknown
            end
  | Some else_eff => then_ flag (if_else_effect then_eff else_eff)
  end.

Section Infer.
Context (builtins user_effects : gmap string Effect) (word_targets : target_map).

Definition word_effect (name : string) (span : Span) : Effect :=
  let lc := lowercase name in
  match word_targets !! span with
  | Some (Local _) => Known 0 1
  | Some (UserDefined _) => default Unknown (user_effects !! lc)
  | _ => default Unknown (builtins !! lc)
  end.

Fixpoint effect_of_expr (e : Expr) : Effect :=
  match e with
  | Lit (LitInt _ _) | Lit (LitFloat _ _) => Known 0 1
  | Lit (LitStr _ kind _) => string_effect kind
  | WordRef name span => word_effect name span
  | If t el _ => if_effect (block_with effect_of_expr t) (block_with effect_of_expr <$> el)
  | BeginUntil b _ => until_effect (block_with effect_of_expr b)
  | BeginWhileRepeat p b _ =>
      while_effect (block_with effect_of_expr p) (block_with effect_of_expr b)
  | BeginAgain _ _ => Unknown
  | DoLoop _ b _ _ => do_effect (block_with effect_of_expr b)
  | Case arms d _ =>
      case_with arm_effects
        (match d with Some b => block_with effect_of_expr b | None => Known 0 0 end) arms
  | Tick _ _ => Known 0 1
  | To _ _ => Known 1 0
  | LetExpr form _ => Known (len32 (lf_inputs form)) (len32 (lf_outputs form))
  | See _ _ => Known 0 0
  | Locals names _ => Known (len32 names) 0
  end
with arm_effects (a : CaseArm) : Effect * Effect :=
  match a with mkArm m b _ => (block_with effect_of_expr m, block_with effect_of_expr b) end.

Definition infer_block : list Expr → Effect := block_with effect_of_expr.

Definition case_needs_default_warning (arms : list CaseArm) : bool :=
  existsb (λ a,
    let arm_eff := then_ (Known 1 0) (infer_block (arm_body a)) in
    match arm_eff with
    | Known _ _ => match join_branch_effects arm_eff (Known 1 0) with None => true | Some _ => false end
    | Unknown => false
    end) arms.

(** The warning of one node; [gather] is the recursion. *)
Definition case_warning (name : string) (e : Expr) : list EffectError :=
  match e with
  | Case arms None span =>
      if case_needs_default_warning arms then [CaseNeedsDefault name span] else []
  | _ => []
  end.
Definition collect_case_warnings (exprs : list Expr) (name : string) : list EffectError :=
  gather_seq (case_warning name) exprs.
End Infer.

Definition check_definition (d : Definition_) (body_eff : Effect) : list EffectError :=
  match d_effect d, body_eff with
  | Some se, Known bi bo =>
      let declared := (len32 (se_inputs se), len32 (se_outputs se)) in
      let inferred := match d_locals d with [] => (bi, bo) | _ => (fst declared, bo) end in
      if bool_decide (declared = inferred) then []
      else [Mismatch (d_name d) (d_name_span d) declared inferred]
  | _, _ => []
  end.

(** ** The driver *)

Notation effect_map := (gmap string Effect).

Definition declared_effect (se : StackEffect) : Effect :=
  Known (len32 (se_inputs se)) (len32 (se_outputs se)).

Definition seed_effect (i : Item) (m : effect_map) : effect_map :=
  match i with
  | IDefinition d =>
      <[lowercase (d_name d) := match d_effect d with Some se => declared_effect se | None => Unknown end]> m
  | IVariable v => <[lowercase (v_name v) := Known 0 1]> m
  | IConstant c => <[lowercase (k_name c) := Known 0 1]> m
  | ICreate c => <[lowercase (cr_name c) := Known 0 1]> m
  | ICollection c => <[lowercase (co_name c) := Known 1 1]> m
  | ITemplate t => <[lowercase (t_name t) := Known 0 0]> m
  | ITemplateInstance t => <[lowercase (ti_name t) := Known 1 1]> m
  | IValue v => <[lowercase (va_name v) := Known 0 1]> m
  | IClass c => <[lowercase (cl_name c) := Known 0 0]> m
  | IGeneric g => <[lowercase (g_name g) := declared_effect (g_effect g)]> m
  | IMethod _ | IRawFactor _ | ITopLevel _ _ | INeeds _ _ => m
  end.

Record Inferred := mkInferred { in_user : effect_map; in_body : effect_map }.

(** One round of pass 2. *)
Definition infer_item (word_targets : target_map) (i : Item) (st : Inferred * list EffectError)
    : Inferred * list EffectError :=
  let '(inf, errors) := st in
  match i with
  | IDefinition d =>
      let body_eff := infer_block builtin_effects (in_user inf) word_targets (d_body d) in
      let lc := lowercase (d_name d) in
      (mkInferred (match d_effect d with None => <[lc := body_eff]> (in_user inf) | Some _ => in_user inf end)
                  (<[lc := body_eff]> (in_body inf)),
       errors ++ check_definition d body_eff ++
       collect_case_warnings builtin_effects (in_user inf) word_targets (d_body d) (d_name d))
  | _ => st
  end.

Definition infer_with_prior (r : Resolved) (prior_effects : effect_map) : Inferred * list EffectError :=
  let items := p_items (r_program r) in
  let user_effects := fold_with seed_effect items prior_effects in
  fold_with (infer_item (r_word_targets r)) items (mkInferred user_effects ∅, []).

Definition infer (r : Resolved) : Inferred * list EffectError := infer_with_prior r ∅.
