(* ===== verification/EffectFacts.v ===== *)
(** * What an inferred stack effect means

    An effect [Known i o] of a body is a promise about its runs: given [i] items
    it replaces them by [o] and leaves the rest of the stack alone.  The
    machine's side of the promise is the class [EffectMachine]; the theorem is
    that inference keeps it for every body, whatever its control flow, but for
    two shapes of loop on which the formulas are wrong. *)
From stdpp Require Import strings gmap.
From S2P Require Import Prelude Bytes F64 Lex LetLang Ast Semantics Classes Resolve.
From S2P Require Import Effect.

(** ** The algebra of effects *)

Lemma n32_add_small a b : (a + b < 2 ^ 32)%N → n32_add a b = (a + b)%N.
Proof. apply N.mod_small. Qed.

(** The number of items an effect speaks of. *)
Definition effect_size (e : Effect) : N := match e with Known i o => (i + o)%N | Unknown => 0%N end.

Lemma then_exact ai ao bi bo :
  (ai + ao + (bi + bo) < 2 ^ 32)%N →
  then_ (Known ai ao) (Known bi bo) =
  if (bi <=? ao)%N then Known ai (ao - bi + bo) else Known (ai + (bi - ao)) bo.
Proof.
  intros H. cbn [then_]. destruct (N.leb_spec bi ao); by rewrite n32_add_small by lia.
Qed.

Lemma then_unknown_r e : then_ e Unknown = Unknown.
Proof. by destruct e. Qed.

Lemma n32_add_le a b : (n32_add a b ≤ a + b)%N.
Proof. by apply N.Div0.mod_le. Qed.

Lemma then_size a b : (effect_size (then_ a b) ≤ effect_size a + effect_size b)%N.
Proof.
  destruct a as [ai ao|], b as [bi bo|]; cbn [effect_size then_]; try lia.
  pose proof (n32_add_le (ao - bi) bo). pose proof (n32_add_le ai (bi - ao)).
  destruct (N.leb_spec bi ao); cbn [effect_size]; lia.
Qed.

(** The bicyclic monoid: sequencing is associative and has a unit. *)
Lemma then_assoc a b c :
  (effect_size a + effect_size b + effect_size c < 2 ^ 32)%N →
  then_ (then_ a b) c = then_ a (then_ b c).
Proof.
  destruct a as [ai ao|], b as [bi bo|], c as [ci co|]; cbn [effect_size]; intros H; try done;
    rewrite ?then_unknown_r; try done.
  rewrite !then_exact by lia. destruct (N.leb_spec bi ao), (N.leb_spec ci bo);
    rewrite !then_exact by lia;
    repeat (match goal with |- context [(?x <=? ?y)%N] => destruct (N.leb_spec x y) end);
    try lia; f_equal; lia.
Qed.

Lemma then_unit_l e : (effect_size e < 2 ^ 32)%N → then_ (Known 0 0) e = e.
Proof.
  destruct e as [i o|]; cbn [effect_size]; intros H; [|done]. rewrite then_exact by lia.
  destruct (N.leb_spec i 0); f_equal; lia.
Qed.

Lemma if_else_known t e i o : if_else_effect t e = Known i o → t = Known i o ∧ e = Known i o.
Proof.
  unfold if_else_effect, join_branch_effects. destruct t as [ti to|], e as [ei eo|]; try done.
  destruct (N.eqb_spec ti ei) as [->|], (N.eqb_spec to eo) as [->|]; cbn; naive_solver.
Qed.

Lemma if_else_size t e : (effect_size (if_else_effect t e) ≤ effect_size t)%N.
Proof.
  destruct (if_else_effect t e) as [i o|] eqn:E; [|cbn; lia].
  apply if_else_known in E as [-> _]. done.
Qed.

Arguments then_ : simpl never.

Lemma block_from_unknown f l : block_from f Unknown l = match l with [] => Unknown | _ => Unknown end.
Proof. by destruct l. Qed.

(** The early return of the loop changes nothing. *)
Lemma block_from_cons f acc e l : block_from f acc (e :: l) = block_from f (then_ acc (f e)) l.
Proof.
  cbn [block_from]. destruct (then_ acc (f e)); [done|]. by rewrite block_from_unknown; destruct l.
Qed.

Lemma block_from_app f acc a b : block_from f acc (a ++ b) = block_from f (block_from f acc a) b.
Proof.
  revert acc. induction a as [|e a IH]; intros acc; [done|].
  cbn [app]. by rewrite !block_from_cons, IH.
Qed.

(** ** What a run does to the stack *)

Section Moves.
Context `{Machine}.
Implicit Types (s : state) (i o : N).

Definition moves i o s s' : Prop :=
  ∀ top base, fst s = top ++ base → N.of_nat (length top) = i →
  ∃ top', fst s' = top' ++ base ∧ N.of_nat (length top') = o.

Definition meets (e : Effect) s s' : Prop :=
  match e with Known i o => moves i o s s' | Unknown => True end.

Lemma moves_refl i s : moves i i s s.
Proof. intros top base E Hl. by exists top. Qed.

Lemma split_top (l : list V) (n : nat) : (n ≤ length l)%nat → ∃ a b, l = a ++ b ∧ length a = n.
Proof. intros Hn. exists (take n l), (drop n l). by rewrite take_drop, length_take_le. Qed.

Lemma moves_frame i o k s s' : moves i o s s' → moves (i + k) (o + k) s s'.
Proof.
  intros Hm top base E Hl. destruct (split_top top (N.to_nat i)) as (a & b & -> & Ha); [lia|].
  rewrite length_app in Hl. rewrite <- app_assoc in E.
  destruct (Hm a (b ++ base) E ltac:(lia)) as (a' & E' & Ha'). exists (a' ++ b).
  rewrite <- app_assoc, length_app. split; [done|lia].
Qed.

Lemma moves_seq ai ao bi bo s s1 s2 :
  moves ai ao s s1 → moves bi bo s1 s2 →
  if (bi <=? ao)%N then moves ai (ao - bi + bo) s s2 else moves (ai + (bi - ao)) bo s s2.
Proof.
  intros H1 H2. destruct (N.leb_spec bi ao) as [Hle|Hlt].
  - intros top base E Hl. destruct (H1 top base E Hl) as (top1 & E1 & Hl1).
    destruct (split_top top1 (N.to_nat bi)) as (a & b & -> & Ha); [lia|].
    rewrite <- app_assoc in E1. destruct (H2 a (b ++ base) E1 ltac:(lia)) as (a' & E2 & Ha').
    exists (a' ++ b). rewrite <- app_assoc. split; [done|]. rewrite length_app in *. lia.
  - apply (moves_frame _ _ (bi - ao)) in H1. intros top base E Hl.
    destruct (H1 top base E Hl) as (top1 & E1 & Hl1). apply (H2 top1 base E1). lia.
Qed.

Lemma meets_then a b s s1 s2 :
  (effect_size a + effect_size b < 2 ^ 32)%N →
  meets a s s1 → meets b s1 s2 → meets (then_ a b) s s2.
Proof.
  destruct a as [ai ao|], b as [bi bo|]; try done. intros Hs Ha Hb. cbn [effect_size] in Hs.
  rewrite then_exact by done. pose proof (moves_seq _ _ _ _ _ _ _ Ha Hb). by destruct (_ <=? _)%N.
Qed.

(** Single steps of the machine's own. *)
Lemma moves_pop v st rs : moves 1 0 (v :: st, rs) (st, rs).
Proof.
  intros [|w [|]] base E Hl; simpl in *; try lia. simplify_eq. by exists [].
Qed.
Lemma moves_dup v st rs : moves 1 2 (v :: st, rs) (v :: v :: st, rs).
Proof.
  intros [|w [|]] base E Hl; simpl in *; try lia. simplify_eq. by exists [w; w].
Qed.
End Moves.

(** ** Machines that keep the effects of the leaves *)

Class EffectMachine `{Machine} (exit_word : string → Span → bool) (eff : Expr → Effect) : Prop := {
  leaf_meets e s s' : is_leaf e = true → is_exit exit_word e = false → leaf e s s' → meets (eff e) s s';
  enter_moves q s b s1 : do_enter q s = Some (b, s1) → moves 2 0 s s1;
  next_moves s b s1 : do_next Plus1 s = Some (b, s1) → moves 0 0 s s1
}.

Definition sum_N {A} (f : A → N) : list A → N :=
  fix go l := match l with [] => 0%N | x :: l' => (f x + go l')%N end.
Definition opt_N {A} (f : A → N) (o : option A) : N := match o with Some x => f x | None => 0%N end.

Lemma sum_N_app {A} (f : A → N) a b : (sum_N f (a ++ b) = sum_N f a + sum_N f b)%N.
Proof. induction a as [|x a IH]; cbn [app sum_N]; [done|]. rewrite IH. lia. Qed.

Section Weight.
Context (eff : Expr → Effect).

(** A bound for every count that inference meets in an expression. *)
Fixpoint weight (e : Expr) : N :=
  match e with
  | If t el _ => (8 + sum_N weight t + opt_N (sum_N weight) el)%N
  | BeginUntil b _ | BeginAgain b _ | DoLoop _ b _ _ => (8 + 2 * sum_N weight b)%N
  | BeginWhileRepeat p b _ => (8 + 2 * sum_N weight p + 2 * sum_N weight b)%N
  | Case arms d _ => (8 + sum_N arm_weight arms + opt_N (sum_N weight) d)%N
  | _ => effect_size (eff e)
  end
with arm_weight (a : CaseArm) : N :=
  match a with mkArm m b _ => (8 + sum_N weight m + sum_N weight b)%N end.
End Weight.

Lemma weight_case eff arms d sp :
  weight eff (Case arms d sp) =
  (8 + sum_N (arm_weight eff) arms + opt_N (sum_N (weight eff)) d)%N.
Proof. done. Qed.
Lemma arm_weight_eq eff m b sp :
  arm_weight eff (mkArm m b sp) = (8 + sum_N (weight eff) m + sum_N (weight eff) b)%N.
Proof. done. Qed.

(** The two shapes of loop the formulas get wrong: a [BEGIN UNTIL] whose body
    leaves more than its flag, and any [+LOOP]. *)
Definition wrong_loop (eff : Expr → Effect) (e : Expr) : bool :=
  match e with
  | BeginUntil b _ =>
      match block_with eff b with
      | Known i o => negb (o =? n32_add i 1)%N && (i <? o)%N
      | Unknown => false
      end
  | DoLoop _ _ PlusN _ => true
  | _ => false
  end.

Section Bounds.
Context (eff : Expr → Effect).
Notation bounded e := (effect_size (eff e) ≤ weight eff e)%N.

Lemma block_from_size acc l :
  Forall (λ e, bounded e) l →
  (effect_size (block_from eff acc l) ≤ effect_size acc + sum_N (weight eff) l)%N.
Proof.
  intros Hl. revert acc. induction Hl as [|e l He _ IH]; intros acc; [simpl; lia|].
  rewrite block_from_cons. specialize (IH (then_ acc (eff e))). pose proof (then_size acc (eff e)).
  cbn [sum_N]. lia.
Qed.

Lemma block_size l :
  Forall (λ e, bounded e) l → (effect_size (block_with eff l) ≤ sum_N (weight eff) l)%N.
Proof. intros Hl. pose proof (block_from_size (Known 0 0) l Hl). simpl in *. unfold block_with. lia. Qed.
End Bounds.

(** ** Soundness *)

Section Sound.
Context (builtins user_effects : gmap string Effect) (word_targets : target_map).
Notation eff := (effect_of_expr builtins user_effects word_targets).
Notation arms_eff := (arm_effects builtins user_effects word_targets).
Notation infer := (infer_block builtins user_effects word_targets).
Notation wt := (weight eff).

Lemma case_size base arms :
  Forall (λ a, Forall (λ e, effect_size (eff e) ≤ wt e)%N (arm_match a) ∧
               Forall (λ e, effect_size (eff e) ≤ wt e)%N (arm_body a)) arms →
  (effect_size (case_with arms_eff base arms) ≤ 8 + sum_N (arm_weight eff) arms + effect_size base)%N.
Proof.
  intros Ha. destruct Ha as [|[m b sp] arms [Hm Hb] _]; cbn [case_with].
  { pose proof (then_size base (Known 1 0)). cbn [sum_N]. simpl in *. lia. }
  cbn [arm_match arm_body] in *. cbn [sum_N]. rewrite arm_weight_eq.
  change (arms_eff (mkArm m b sp)) with (infer m, infer b). cbn beta iota.
  match goal with |- (effect_size (then_ ?c ?j) ≤ _)%N => pose proof (then_size c j) end.
  match goal with |- context [if_else_effect ?t ?e] => pose proof (if_else_size t e) end.
  pose proof (then_size (Known 1 0) (infer b)).
  pose proof (then_size (then_ (then_ (Known 1 2) (infer m)) (Known 2 1)) flag).
  pose proof (then_size (then_ (Known 1 2) (infer m)) (Known 2 1)).
  pose proof (then_size (Known 1 2) (infer m)).
  pose proof (block_size eff m Hm). pose proof (block_size eff b Hb).
  unfold infer_block in *. cbn [effect_size flag] in *. lia.
Qed.

Lemma until_size b : (effect_size (until_effect b) ≤ 2 * effect_size b)%N.
Proof.
  destruct b as [i o|]; cbn [until_effect effect_size]; [|lia].
  repeat case_match; cbn [effect_size]; lia.
Qed.
Lemma while_size p b : (effect_size (while_effect p b) ≤ 2 * effect_size p + 2 * effect_size b)%N.
Proof.
  destruct p, b; cbn [while_effect effect_size]; try lia. repeat case_match; cbn [effect_size]; lia.
Qed.
Lemma do_size b : (effect_size (do_effect b) ≤ 2 + 2 * effect_size b)%N.
Proof.
  destruct b as [i o|]; cbn [do_effect effect_size]; [|lia]. pose proof (n32_add_le 2 i).
  case_match; cbn [effect_size]; lia.
Qed.
Lemma if_size t e : (effect_size (if_effect t e) ≤ 1 + effect_size t)%N.
Proof.
  destruct e as [e|]; cbn [if_effect].
  - pose proof (then_size flag (if_else_effect t e)). pose proof (if_else_size t e).
    unfold flag in *. cbn [effect_size] in *. lia.
  - destruct t as [i o|]; [|cbn [effect_size]; lia]. pose proof (then_size flag (Known i o)).
    unfold flag in *. cbn [effect_size] in *. destruct (i =? o)%N; cbn [effect_size]; lia.
Qed.

Lemma eff_weight e : (effect_size (eff e) ≤ wt e)%N.
Proof.
  induction e using Expr_nested_ind; try (cbn [weight]; lia).
  - cbn [effect_of_expr weight].
    pose proof (if_size (block_with eff t) (block_with eff <$> e)). pose proof (block_size eff t H). lia.
  - cbn [effect_of_expr weight]. pose proof (until_size (block_with eff b)).
    pose proof (block_size eff b H). lia.
  - cbn [effect_of_expr weight]. pose proof (while_size (block_with eff p) (block_with eff b)).
    pose proof (block_size eff p H). pose proof (block_size eff b H0). lia.
  - cbn; lia.
  - cbn [effect_of_expr weight]. pose proof (do_size (block_with eff b)).
    pose proof (block_size eff b H). lia.
  - rewrite weight_case. cbn [effect_of_expr].
    match goal with |- (effect_size (case_with _ ?base _) ≤ _)%N =>
      pose proof (case_size base arms H) as Hc; assert (effect_size base ≤ opt_N (sum_N wt) d)%N end.
    { destruct d as [b|]; [apply (block_size eff b), H0; done|cbn; lia]. }
    etransitivity; [exact Hc|]. lia.
Qed.

(** *** Runs *)

Context {M : Machine} (exit_word : string → Span → bool).
Context {EM : EffectMachine exit_word eff}.
Notation runs l s s' := (exec exit_word l s (Norm s')).
Notation runs1 e s s' := (exec1 exit_word e s (Norm s')).

Definition sound (e : Expr) : Prop :=
  (wt e < 2 ^ 31)%N → visits (wrong_loop eff) e = false →
  ∀ s s', runs1 e s s' → meets (eff e) s s'.

(** A body all of whose runs keep the effect inferred for it. *)
Definition body_sound (l : list Expr) : Prop := ∀ s s', runs l s s' → meets (infer l) s s'.

Lemma block_from_sound l acc s0 s s' :
  Forall sound l → (effect_size acc + sum_N wt l < 2 ^ 31)%N →
  visits_seq (wrong_loop eff) l = false → meets acc s0 s → runs l s s' →
  meets (block_from eff acc l) s0 s'.
Proof.
  intros Hl. revert acc s. induction Hl as [|e l He Hl IH]; intros acc s Hw Hp Hacc Hx.
  { apply exec_nil_inv in Hx. by simplify_eq. }
  rewrite block_from_cons. cbn [sum_N] in Hw. rewrite visits_seq_cons in Hp.
  apply orb_false_iff in Hp as [Hp1 Hp2].
  apply exec_cons_inv in Hx as [(s1 & Hx1 & Hx2)|(s1 & [=] & _)].
  pose proof (then_size acc (eff e)). pose proof (eff_weight e).
  eapply IH; [lia|done| |exact Hx2]. eapply meets_then; [lia|exact Hacc|]. apply He; [lia|done..].
Qed.

Lemma block_sound l :
  Forall sound l → (sum_N wt l < 2 ^ 31)%N → visits_seq (wrong_loop eff) l = false → body_sound l.
Proof.
  intros Hl Hw Hp s s' Hx. eapply block_from_sound; [done| |done| |exact Hx].
  - cbn [effect_size]. lia.
  - apply moves_refl.
Qed.

Lemma moves_trans i j k s s1 s2 : moves i j s s1 → moves j k s1 s2 → moves i k s s2.
Proof. intros H1 H2 top base E Hl. destruct (H1 top base E Hl) as (t1 & E1 & Hl1). eauto. Qed.

Lemma moves_then_pop i o v st rs s :
  moves i (o + 1) s (v :: st, rs) → moves i o s (st, rs).
Proof.
  intros Hm. eapply moves_trans; [exact Hm|]. rewrite (N.add_comm o).
  exact (moves_frame 1 0 o _ _ (moves_pop v st rs)).
Qed.

Lemma until_moves b sp i s r :
  (∀ s s', runs b s s' → moves i (i + 1) s s') →
  exec1 exit_word (BeginUntil b sp) s r → match r with Norm s' => moves i i s s' | Exit _ => True end.
Proof.
  intros Hb Hx. remember (BeginUntil b sp) as e eqn:E.
  induction Hx; simplify_eq/=; try done.
  - eapply moves_then_pop. by apply Hb.
  - specialize (IHHx eq_refl). destruct r; [|done].
    eapply moves_trans; [eapply moves_then_pop; by apply Hb|done].
Qed.

Lemma while_moves p b sp i s r :
  (∀ s s', runs p s s' → moves i (i + 1) s s') → (∀ s s', runs b s s' → moves i i s s') →
  exec1 exit_word (BeginWhileRepeat p b sp) s r →
  match r with Norm s' => moves i i s s' | Exit _ => True end.
Proof.
  intros Hp Hb Hx. remember (BeginWhileRepeat p b sp) as e eqn:E.
  induction Hx; simplify_eq/=; try done.
  - eapply moves_then_pop. by apply Hp.
  - specialize (IHHx eq_refl). destruct r; [|done].
    eapply moves_trans; [eapply moves_then_pop; by apply Hp|].
    eapply moves_trans; [by apply Hb|done].
Qed.

#[local] Set Default Proof Using "All".
Lemma do_moves b i s r :
  (∀ s s', runs b s s' → moves i i s s') →
  exec_do exit_word b Plus1 s r → match r with Norm s' => moves i i s s' | Exit _ => True end.
Proof.
  intros Hb Hx. remember Plus1 as k eqn:E. induction Hx; simplify_eq/=; try done.
  - eapply moves_trans; [by apply Hb|]. apply (moves_frame 0 0 i). by eapply next_moves.
  - specialize (IHHx Hb eq_refl). destruct r; [|done]. eapply moves_trans; [by apply Hb|].
    eapply moves_trans; [|done]. apply (moves_frame 0 0 i). by eapply next_moves.
Qed.

(** An arm, from the dispatch value to the branch its match selects. *)
Lemma arm_flag m x st rs v w st1 rs1 :
  (effect_size (infer m) + 8 < 2 ^ 32)%N → body_sound m →
  runs m (x :: x :: st, rs) (v :: w :: st1, rs1) →
  meets (then_ (then_ (then_ (Known 1 2) (infer m)) (Known 2 1)) flag) (x :: st, rs) (st1, rs1).
Proof.
  intros Hw Hm Hx. pose proof (then_size (Known 1 2) (infer m)) as H1.
  pose proof (then_size (then_ (Known 1 2) (infer m)) (Known 2 1)) as H2.
  unfold flag. cbn [effect_size] in H1, H2.
  apply (meets_then _ _ _ (v :: st1, rs1)); [cbn [effect_size]; lia| |apply moves_pop].
  apply (meets_then _ _ _ (v :: w :: st1, rs1)); [cbn [effect_size]; lia| |].
  - apply (meets_then _ _ _ (x :: x :: st, rs)); [cbn [effect_size]; lia|apply moves_dup|by apply Hm].
  - intros top base E Hl. destruct top as [|a [|c [|]]]; simpl in *; try lia.
    simplify_eq. by exists [a].
Qed.

Lemma arms_meet base arms d s s' :
  Forall (λ a, body_sound (arm_match a) ∧ body_sound (arm_body a)) arms →
  Forall (λ a, effect_size (infer (arm_match a)) + effect_size (infer (arm_body a)) + 32 < 2 ^ 32)%N arms →
  (effect_size base + 8 < 2 ^ 32)%N →
  (∀ s s', runs (default [] d) s s' → meets base s s') →
  exec_arms exit_word arms d s (Norm s') → meets (case_with arms_eff base arms) s s'.
Proof.
  intros Hs Hw Hbw Hbase. revert s. induction arms as [|[m b sp] arms IH]; intros s Hx.
  { inversion Hx; simplify_eq/=. cbn [case_with]. eapply meets_then; [cbn [effect_size]; lia| |].
    - by apply Hbase.
    - apply moves_pop. }
  apply Forall_cons in Hs as [[Hm Hb] Hs], Hw as [Hw1 Hw]. cbn [arm_match arm_body] in *.
  specialize (IH Hs Hw). cbn [case_with]. change (arms_eff (mkArm m b sp)) with (infer m, infer b).
  cbn beta iota.
  pose proof (then_size (Known 1 2) (infer m)) as H1.
  pose proof (then_size (then_ (Known 1 2) (infer m)) (Known 2 1)) as H2.
  pose proof (then_size (then_ (then_ (Known 1 2) (infer m)) (Known 2 1)) flag) as H3.
  pose proof (then_size (Known 1 0) (infer b)) as H4. cbn [effect_size flag] in *.
  destruct (if_else_effect _ _) as [i o|] eqn:Ej; [|by rewrite then_unknown_r].
  apply if_else_known in Ej as [Et Ee]. rewrite Et in H4. cbn [effect_size] in H4.
  inversion Hx; simplify_eq/=.
  - eapply meets_then; [cbn [effect_size]; lia|eapply arm_flag; [lia|done..]|].
    rewrite <- Et. eapply meets_then; [cbn [effect_size]; lia|apply moves_pop|by apply Hb].
  - eapply meets_then; [cbn [effect_size]; lia|eapply arm_flag; [lia|done..]|].
    rewrite <- Ee. by apply IH.
Qed.

Lemma infer_weight l : (effect_size (infer l) ≤ sum_N wt l)%N.
Proof using. apply block_size, Forall_forall. intros e _. apply eff_weight. Qed.

Lemma sum_N_elem {A} (f : A → N) x l : x ∈ l → (f x ≤ sum_N f l)%N.
Proof using. induction 1; cbn [sum_N]; lia. Qed.

Lemma until_sound b sp : body_sound b → (wt (BeginUntil b sp) < 2 ^ 32)%N →
  wrong_loop eff (BeginUntil b sp) = false →
  ∀ s s', runs1 (BeginUntil b sp) s s' → meets (eff (BeginUntil b sp)) s s'.
Proof.
  intros Hb Hw Hp s s' Hx. cbn [effect_of_expr wrong_loop weight] in *.
  pose proof (infer_weight b) as Hi. unfold body_sound, infer_block in *.
  destruct (block_with eff b) as [i o|]; [|done]. cbn [until_effect effect_size] in *.
  rewrite n32_add_small in * by lia.
  destruct (N.eqb_spec o (i + 1)) as [->|]; cbn [negb andb] in Hp.
  - rewrite andb_true_r. destruct (N.leb_spec 1 (i + 1)); [|lia].
    exact (until_moves _ _ _ _ (Norm s') Hb Hx).
  - rewrite andb_false_r. by rewrite Hp.
Qed.

Lemma while_sound p b sp : body_sound p → body_sound b →
  (wt (BeginWhileRepeat p b sp) < 2 ^ 32)%N →
  ∀ s s', runs1 (BeginWhileRepeat p b sp) s s' → meets (eff (BeginWhileRepeat p b sp)) s s'.
Proof.
  intros Hp Hb Hw s s' Hx. cbn [effect_of_expr weight] in *.
  pose proof (infer_weight p) as Hwp. unfold body_sound, infer_block in *.
  destruct (block_with eff p) as [pi po|], (block_with eff b) as [bi bo|]; try done.
  cbn [while_effect effect_size] in *. rewrite n32_add_small in * by lia.
  destruct (N.eqb_spec po (pi + 1)) as [->|], (N.eqb_spec bi bo) as [->|]; try done. cbn [andb meets].
  refine (while_moves _ _ _ _ _ (Norm s') _ _ Hx); intros s1 s2 H12.
  - replace (N.max pi bo) with (pi + (N.max pi bo - pi))%N by lia. rewrite <- N.add_assoc, (N.add_comm _ 1), N.add_assoc.
    apply moves_frame. exact (Hp _ _ H12).
  - replace (N.max pi bo) with (bo + (N.max pi bo - bo))%N by lia. apply moves_frame. exact (Hb _ _ H12).
Qed.

Lemma do_sound q b k sp : body_sound b → (wt (DoLoop q b k sp) < 2 ^ 32)%N →
  wrong_loop eff (DoLoop q b k sp) = false →
  ∀ s s', runs1 (DoLoop q b k sp) s s' → meets (eff (DoLoop q b k sp)) s s'.
Proof.
  intros Hb Hw Hp s s' Hx. cbn [effect_of_expr wrong_loop weight] in *. destruct k; [|done].
  pose proof (infer_weight b) as Hi. unfold body_sound, infer_block in *.
  destruct (block_with eff b) as [i o|]; [|done]. cbn [do_effect effect_size] in *.
  destruct (N.eqb_spec i o) as [->|]; [|done]. rewrite n32_add_small by lia. cbn [meets].
  apply exec1_do in Hx as (go & s1 & He & Hd). pose proof (moves_frame 2 0 o _ _ (enter_moves _ _ _ _ He)).
  destruct go; [|by simplify_eq]. eapply moves_trans; [done|]. exact (do_moves _ _ _ (Norm s') Hb Hd).
Qed.

Lemma if_sound t el sp : body_sound t → (∀ b, el = Some b → body_sound b) →
  (wt (If t el sp) < 2 ^ 32)%N →
  ∀ s s', runs1 (If t el sp) s s' → meets (eff (If t el sp)) s s'.
Proof.
  intros Ht Hel Hw s s' (v & st & rs & -> & Hx)%exec1_if. cbn [effect_of_expr weight] in *.
  pose proof (infer_weight t) as Hwt. unfold body_sound, infer_block in *.
  assert (∀ i o, (i + o < 2 ^ 32 - 8)%N → block_with eff t = Known i o →
            (runs (default [] el) (st, rs) s' → moves i o (st, rs) s') →
            meets (then_ flag (Known i o)) (v :: st, rs) s') as Hjoin.
  { intros i o Hio E Hd. eapply meets_then; [unfold flag; cbn [effect_size]; lia|apply moves_pop|].
    destruct (truthy v); [|by apply Hd]. specialize (Ht _ _ Hx). by rewrite E in Ht. }
  destruct el as [b|]; cbn [if_effect fmap option_fmap option_map default from_option id] in *.
  - destruct (if_else_effect _ _) as [i o|] eqn:E; [|by rewrite then_unknown_r].
    apply if_else_known in E as [E1 E2]. rewrite E1 in Hwt. cbn [effect_size opt_N] in *.
    apply Hjoin; [lia|done|]. intros Hd. specialize (Hel b eq_refl _ _ Hd). by rewrite E2 in Hel.
  - destruct (block_with eff t) as [i o|] eqn:E; [|done]. cbn [effect_size opt_N] in *.
    destruct (N.eqb_spec i o) as [->|]; [|done]. apply Hjoin; [lia|done|].
    intros Hd%exec_nil_inv. simplify_eq. apply moves_refl.
Qed.

Lemma case_sound arms d sp :
  Forall (λ a, body_sound (arm_match a) ∧ body_sound (arm_body a)) arms →
  (∀ b, d = Some b → body_sound b) → (wt (Case arms d sp) < 2 ^ 32 - 32)%N →
  ∀ s s', runs1 (Case arms d sp) s s' → meets (eff (Case arms d sp)) s s'.
Proof.
  intros Ha Hd Hw s s' Hx. rewrite weight_case in Hw. cbn [effect_of_expr].
  inversion Hx; simplify_eq/=; try done. eapply arms_meet; [done| | | |done].
  - apply Forall_forall. intros [m b asp] Hin. cbn [arm_match arm_body].
    apply (sum_N_elem (arm_weight eff)) in Hin. rewrite arm_weight_eq in Hin.
    pose proof (infer_weight m). pose proof (infer_weight b). lia.
  - destruct d as [b|]; [|by vm_compute]. pose proof (infer_weight b) as Hb. unfold infer_block in Hb.
    cbn [opt_N] in Hw. lia.
  - destruct d as [b|]; cbn [default from_option id]; [by apply Hd|].
    intros s1 s2 H12%exec_nil_inv. simplify_eq. apply moves_refl.
Qed.

Lemma leaf_sound e : is_leaf e = true → sound e.
Proof.
  intros Hl _ _ s s' Hx.
  assert (is_exit exit_word e = false ∧ leaf e s s') as [He Hs]
    by (destruct e; try done; by inversion Hx).
  by apply leaf_meets.
Qed.

Lemma arms_sound arms :
  Forall (λ a, Forall sound (arm_match a) ∧ Forall sound (arm_body a)) arms →
  (sum_N (arm_weight eff) arms < 2 ^ 31)%N → any_in (visits_arm (wrong_loop eff)) arms = false →
  Forall (λ a, body_sound (arm_match a) ∧ body_sound (arm_body a)) arms.
Proof.
  intros Ha. induction Ha as [|[m b sp] arms [Hm Hb] _ IH]; [by constructor|].
  cbn [sum_N any_in arm_match arm_body] in *. rewrite arm_weight_eq, visits_arm_eq.
  intros Hw [[Hv1 Hv2]%orb_false_iff Hv3]%orb_false_iff.
  constructor; [|apply IH; [lia|done]]. split; cbn [arm_match arm_body]; apply block_sound; done || lia.
Qed.

Lemma expr_sound e : sound e.
Proof.
  induction e using Expr_nested_ind; try (by apply leaf_sound); unfold sound in *; intros Hw Hv s1 s2.
  - rewrite visits_if in Hv. apply orb_false_iff in Hv as [_ [Hv1 Hv2]%orb_false_iff].
    apply if_sound; [|intros b ->|lia];
      (apply block_sound; [by auto| |done]); cbn [weight opt_N] in *; lia.
  - rewrite visits_until in Hv. apply orb_false_iff in Hv as [Hv1 Hv2].
    apply until_sound; [|lia|done]. apply block_sound; [done| |done]. cbn [weight] in Hw. lia.
  - rewrite visits_while in Hv. apply orb_false_iff in Hv as [_ [Hv1 Hv2]%orb_false_iff].
    cbn [weight] in Hw. apply while_sound; [apply block_sound..|cbn [weight]]; done || lia.
  - intros _. done.
  - rewrite visits_do in Hv. apply orb_false_iff in Hv as [Hv1 Hv2].
    apply do_sound; [|lia|done]. apply block_sound; [done| |done]. cbn [weight] in Hw. lia.
  - rewrite visits_case in Hv. apply orb_false_iff in Hv as [_ [Hv1 Hv2]%orb_false_iff].
    rewrite weight_case in Hw. apply case_sound; [| |rewrite weight_case; lia].
    + apply arms_sound; [done|lia|done].
    + intros b ->. cbn [opt_N opt_any] in *. apply block_sound; [by apply H0|lia|done].
Qed.
End Sound.

Lemma body_effect_sound {M : Machine} (builtins user_effects : gmap string Effect)
    (word_targets : target_map) (exit_word : string → Span → bool) (body : list Expr)
    (Hm : EffectMachine exit_word (effect_of_expr builtins user_effects word_targets))
    (Hw : (sum_N (weight (effect_of_expr builtins user_effects word_targets)) body < 2 ^ 31)%N)
    (Hp : visits_seq (wrong_loop (effect_of_expr builtins user_effects word_targets)) body = false)
    (s s' : state) (Hx : exec exit_word body s (Norm s')) :
  meets (infer_block builtins user_effects word_targets body) s s'.
Proof.
  eapply block_sound; [|exact Hw|exact Hp|exact Hx]. apply Forall_forall. intros e _.
  by apply expr_sound.
Qed.

(** C15: an inferred effect holds.  On every machine whose leaves keep their
    effects, each run of a body to its end takes the items the inferred effect
    says and leaves the items it says, touching nothing below; for bodies
    without a [+LOOP], or a [BEGIN UNTIL] that leaves more than its flag, and
    whose counts stay in range. *)
Theorem infer_block_sound {M : Machine} (builtins user_effects : gmap string Effect)
    (word_targets : target_map) (exit_word : string → Span → bool) (body : list Expr)
    (Hm : EffectMachine exit_word (effect_of_expr builtins user_effects word_targets))
    (Hw : (sum_N (weight (effect_of_expr builtins user_effects word_targets)) body < 2 ^ 31)%N)
    (Hp : visits_seq (wrong_loop (effect_of_expr builtins user_effects word_targets)) body = false)
    (s s' : state) (Hx : exec exit_word body s (Norm s')) :
  meets (infer_block builtins user_effects word_targets body) s s'.
Proof. by eapply body_effect_sound. Qed.

(** Inference is compositional: the effect of a body is that of its parts,
    one after the other, wherever it is cut. *)
Theorem infer_block_app (builtins user_effects : gmap string Effect) (word_targets : target_map)
    (a b : list Expr)
    (Hw : (sum_N (weight (effect_of_expr builtins user_effects word_targets)) (a ++ b) < 2 ^ 31)%N) :
  infer_block builtins user_effects word_targets (a ++ b) =
  then_ (infer_block builtins user_effects word_targets a)
        (infer_block builtins user_effects word_targets b).
Proof.
  unfold infer_block, block_with. rewrite block_from_app.
  pose proof (infer_weight builtins user_effects word_targets a) as Hs.
  pose proof (eff_weight builtins user_effects word_targets) as He.
  rewrite sum_N_app in Hw. unfold infer_block, block_with in Hs. revert Hw Hs He.
  generalize (effect_of_expr builtins user_effects word_targets) as eff. intros eff Hw.
  generalize (block_from eff (Known 0 0) a). intros acc Hs He.
  assert (∀ acc2, effect_size acc + effect_size acc2 + sum_N (weight eff) b < 2 ^ 32 →
            block_from eff (then_ acc acc2) b = then_ acc (block_from eff acc2 b))%N as Hgo.
  { clear Hs Hw. induction b as [|e b IH]; intros acc2 H; [done|]. rewrite !block_from_cons.
    specialize (He e). cbn [sum_N] in *. rewrite then_assoc by lia.
    pose proof (then_size acc2 (eff e)). apply IH; lia. }
  rewrite <- Hgo by (cbn [effect_size]; lia). f_equal. destruct acc as [i o|]; [|done].
  cbn [effect_size] in Hs. rewrite then_exact by lia. destruct (N.leb_spec 0 o); f_equal; lia.
Qed.

(** ** The driver *)

Lemma infer_items_errors wt items st :
  ∃ more, snd (fold_with (infer_item wt) items st) = snd st ++ more.
Proof.
  revert st. induction items as [|i items IH]; intros st; [exists []; by rewrite app_nil_r|].
  cbn [fold_with]. destruct (IH (infer_item wt i st)) as [more ->]. destruct st as [inf errs].
  destruct i; try by eexists. cbn [infer_item snd]. eexists. by rewrite <- app_assoc.
Qed.

(** The effects of user words when the definition behind [pre] is reached. *)
Definition effects_at (r : Resolved) (prior : effect_map) (pre : list Item) : effect_map :=
  in_user (fst (fold_with (infer_item (r_word_targets r)) pre
    (mkInferred (fold_with seed_effect (p_items (r_program r)) prior) ∅, []))).

Lemma definition_checked r prior pre d post :
  p_items (r_program r) = pre ++ IDefinition d :: post → snd (infer_with_prior r prior) = [] →
  check_definition d
    (infer_block builtin_effects (effects_at r prior pre) (r_word_targets r) (d_body d)) = [].
Proof.
  intros E. unfold infer_with_prior, effects_at. rewrite E, fold_with_app. cbn [fold_with].
  destruct (fold_with _ pre _) as [inf errs]. cbn [infer_item fst].
  match goal with |- snd (fold_with ?f post ?st) = [] → _ =>
    destruct (infer_items_errors (r_word_targets r) post st) as [more ->] end. cbn [snd].
  intros [[_ [Hc _]%app_nil]%app_nil _]%app_nil. exact Hc.
Qed.

(** A definition that passes the check does what its annotation says: when
    no warning is raised, every definition without locals whose effect can be
    inferred takes and leaves what it declares, on every run to its end, on a
    machine that keeps the effects of the words it uses. *)
Theorem checked_definition_sound {M : Machine} (r : Resolved) (prior : gmap string Effect)
    (pre post : list Item) (d : Definition_) (se : StackEffect)
    (exit_word : string → Span → bool)
    (Hitems : p_items (r_program r) = pre ++ IDefinition d :: post)
    (Hquiet : snd (infer_with_prior r prior) = [])
    (Hdecl : d_effect d = Some se) (Hlocals : d_locals d = []) :
  let eff := effect_of_expr builtin_effects (effects_at r prior pre) (r_word_targets r) in
  EffectMachine exit_word eff →
  (sum_N (weight eff) (d_body d) < 2 ^ 31)%N → visits_seq (wrong_loop eff) (d_body d) = false →
  block_with eff (d_body d) ≠ Unknown →
  ∀ s s', exec exit_word (d_body d) s (Norm s') →
  moves (len32 (se_inputs se)) (len32 (se_outputs se)) s s'.
Proof.
  intros eff Hm Hw Hp Hk s s' Hx.
  pose proof (body_effect_sound _ _ _ exit_word (d_body d) Hm Hw Hp s s' Hx) as Hs.
  pose proof (definition_checked _ _ _ _ _ Hitems Hquiet) as Hc.
  unfold infer_block in *. fold eff in Hc, Hs. destruct (block_with eff (d_body d)) as [i o|]; [|done].
  unfold check_definition in Hc. rewrite Hdecl, Hlocals in Hc.
  case_bool_decide as Heq; [|done]. by injection Heq as -> ->.
Qed.

(** ** On the machine of the examples *)

Lemma z_prim_word n sp s s' :
  z_prim (WordRef n sp) s s' →
  (n = "+" ∧ ∃ a b st rs, s = (a :: b :: st, rs) ∧ s' = (a + b :: st, rs)) ∨
  (n = "i" ∧ ∃ i l st rs, s = (st, (i, l) :: rs) ∧ s' = (i :: st, (i, l) :: rs)).
Proof.
  destruct n as [|[[] [] [] [] [] [] [] []] [|]]; try done; destruct s as [st rs]; cbn.
  - destruct st as [|a [|b st]]; try done. intros ->. left. split; [done|]. by eexists _, _, _, _.
  - destruct rs as [|[i l] rs]; [done|]. intros ->. right. split; [done|]. by eexists _, _, _, _.
Qed.

Lemma builtin_lookups :
  builtin_effects !! "dup" = Some (Known 1 2) ∧ builtin_effects !! "drop" = Some (Known 1 0) ∧
  builtin_effects !! "?dup" = None ∧ builtin_effects !! "+" = Some (Known 2 1) ∧
  builtin_effects !! "i" = Some (Known 0 1).
Proof. vm_compute. done. Qed.
#[local] Opaque builtin_effects.

#[export] Instance z_effects exit_word user_effects :
  EffectMachine (H := ZMachine) exit_word (effect_of_expr builtin_effects user_effects ∅).
Proof.
  split.
  - intros e s s' _ _ Hl. destruct e as [[v sp| |]|n sp| | | | | | | | | | |]; cbn in Hl; try contradiction.
    + destruct s as [st rs]. subst s'. intros [|x top] base E Hn; simpl in *; [|lia].
      subst. by exists [v].
    + cbn [effect_of_expr]. unfold word_effect. rewrite lookup_empty.
      destruct builtin_lookups as (Bdup & Bdrop & Bqdup & Bplus & Bi).
      destruct (eq_nocase n "dup") eqn:E1; [|destruct (eq_nocase n "drop") eqn:E2;
        [|destruct (eq_nocase n "?dup") eqn:E3]].
      * apply eq_nocase_spec in E1 as ->. change (lowercase "dup") with "dup". rewrite Bdup. cbn [default from_option id meets]. clear -Hl.
        destruct s as [[|v st] rs]; [done|]. cbn [fst snd] in Hl. subst s'. exact (@moves_dup ZMachine v st rs).
      * apply eq_nocase_spec in E2 as ->. change (lowercase "drop") with "drop". rewrite Bdrop. cbn [default from_option id meets]. clear -Hl.
        destruct s as [[|v st] rs]; [done|]. cbn [fst snd] in Hl. subst s'. exact (@moves_pop ZMachine v st rs).
      * apply eq_nocase_spec in E3 as ->. change (lowercase "?dup") with "?dup". by rewrite Bqdup.
      * apply (z_prim_word n sp) in Hl as [(-> & a & b & st & rs & -> & ->)|(-> & i & l & st & rs & -> & ->)].
        -- change (lowercase "+") with "+". rewrite Bplus. clear.
           intros [|x [|y [|]]] base E Hn; simpl in *; try lia. simplify_eq. by exists [x + y].
        -- change (lowercase "i") with "i". rewrite Bi. clear.
           intros [|x top] base E Hn; simpl in *; [|lia]. subst. by exists [i].
  - intros q [[|start [|limit st]] rs] b s1; try done. cbn.
    destruct (q && (start =? limit)); intros [= <- <-];
      intros [|x [|y [|]]] base E Hn; simpl in *; try lia; simplify_eq; by exists [].
  - intros [st [|[i l] rs]] b s1; [done|]. cbn. destruct (i + 1 <? l); intros [= <- <-];
      by intros top base E Hn; exists top.
Qed.

(** [: sq ( n -- n ) dup dup if 1 + else drop 3 then + ;]. *)
Definition eff_lit (v : Z) : Expr := Lit (LitInt v (span_at_byte 0)).
Definition eff_word (n : string) : Expr := WordRef n (span_at_byte 0).
Definition sample_body : list Expr :=
  [eff_word "dup"; eff_word "dup";
   If [eff_lit 1; eff_word "+"] (Some [eff_word "drop"; eff_lit 3]) (span_at_byte 0); eff_word "+"].
Definition sample_def : Definition_ :=
  mkDefinition "sq" (span_at_byte 0) (Some (mkStackEffect ["n"] ["n"] (span_at_byte 0))) []
    sample_body (span_at_byte 0).
Definition sample_resolved : Resolved :=
  mkResolved (mkProgram [IDefinition sample_def]) ∅ ∅.

Lemma sample_run : exec (H := ZMachine) no_exit_word sample_body ([5; 9], []) (Norm ([11; 9], [])).
Proof.
  set (M := ZMachine). repeat first
    [ apply (@x_nil M) | eapply (@x_cons M) | apply (@x_if_true M); [reflexivity|]
    | apply (@x_leaf M); [reflexivity|reflexivity|reflexivity] ].
Qed.

Lemma infer_block_sound_witness :
  infer_block builtin_effects ∅ ∅ sample_body = Known 1 1 ∧
  meets (H := ZMachine) (infer_block builtin_effects ∅ ∅ sample_body) ([5; 9], []) ([11; 9], []).
Proof.
  split; [vm_compute; reflexivity|].
  apply (infer_block_sound builtin_effects ∅ ∅ no_exit_word sample_body (z_effects _ _)).
  - vm_compute. reflexivity.
  - vm_compute. reflexivity.
  - exact sample_run.
Defined.

Lemma infer_block_app_witness :
  infer_block builtin_effects ∅ ∅ (sample_body ++ [eff_word "swap"]) =
  then_ (infer_block builtin_effects ∅ ∅ sample_body) (infer_block builtin_effects ∅ ∅ [eff_word "swap"]).
Proof. apply infer_block_app. vm_compute. reflexivity. Defined.

Lemma checked_definition_sound_witness :
  snd (infer_with_prior sample_resolved ∅) = [] ∧
  moves (H := ZMachine) 1 1 ([5; 9], []) ([11; 9], []).
Proof.
  split; [vm_compute; reflexivity|].
  apply (checked_definition_sound sample_resolved ∅ [] [] sample_def
           (mkStackEffect ["n"] ["n"] (span_at_byte 0)) no_exit_word).
  - reflexivity.
  - vm_compute. reflexivity.
  - reflexivity.
  - reflexivity.
  - exact (z_effects _ _).
  - vm_compute. reflexivity.
  - vm_compute. reflexivity.
  - vm_compute. discriminate.
  - exact sample_run.
Defined.

(** ** The loops the formulas get wrong *)

Definition wrong_until : list Expr :=
  [BeginUntil [eff_lit 1; eff_word "+"; eff_word "dup"; eff_word "dup"] (span_at_byte 0)].
Definition wrong_plus_loop : list Expr := [DoLoop false [] PlusN (span_at_byte 0)].

(** The two exclusions are needed.  A [BEGIN UNTIL] whose body leaves two
    items and a flag is inferred to leave the two items once, but leaves them on
    every turn; and the formula for counted loops takes no account of the step
    [+LOOP] consumes, so a loop without one is inferred to be balanced while it
    eats an item of its caller's. *)
Theorem loop_effects_unsound :
  infer_block builtin_effects ∅ ∅ wrong_until = Known 1 2 ∧
  exec (H := ZMachine) no_exit_word wrong_until ([-1], []) (Norm ([1; 1; 0], [])) ∧
  ¬ moves (H := ZMachine) 1 2 ([-1], []) ([1; 1; 0], []) ∧
  infer_block builtin_effects ∅ ∅ wrong_plus_loop = Known 2 0 ∧
  exec (H := ZMachine) no_exit_word wrong_plus_loop ([0; 5; 9; 7], []) (Norm ([7], [])) ∧
  ¬ moves (H := ZMachine) 2 0 ([0; 5; 9; 7], []) ([7], []).
Proof.
  set (M := ZMachine). split; [vm_compute; reflexivity|]. split.
  { apply (@exec_single M). eapply (@x_until_more M _ _ _ _ 0 [0; 0]); [|reflexivity|].
    - repeat first [ apply (@x_nil M) | eapply (@x_cons M)
                   | apply (@x_leaf M); [reflexivity|reflexivity|reflexivity] ].
    - eapply (@x_until_done M _ _ _ _ 1 [1; 1; 0]); [|reflexivity].
      repeat first [ apply (@x_nil M) | eapply (@x_cons M)
                   | apply (@x_leaf M); [reflexivity|reflexivity|reflexivity] ]. }
  split. { intros H. destruct (H [-1] [] eq_refl eq_refl) as ([|a [|b [|c l]]] & E & Hl); simpl in *; lia || done. }
  split; [vm_compute; reflexivity|]. split.
  { apply (@exec_single M). eapply (@x_do M); [reflexivity|]. eapply (@d_last M); [apply (@x_nil M)|reflexivity]. }
  intros H. destruct (H [0; 5] [9; 7] eq_refl eq_refl) as ([|a l] & E & Hl); simpl in *; lia || done.
Qed.

(** ** The tables *)

Definition words_without_effect : list string :=
  ["exit"; "gpane-open"; "gpane-begin"; "gpane-present"; "gpane-clear"; "gpane-fill-rect";
   "gpane-stroke-rect"; "gpane-line"; "gpane-fill-circle"; "gpane-next-event"; "ev-none"; "ev-key";
   "ev-char"; "ev-mouse"; "ev-focus"; "ev-resize"; "ev-close"; "ev-frame-close"; "ev-tick"].

(** The effect table has exactly the words of the dictionary, but for
    [EXIT], the graphics panes and the event kinds: a body that uses one of
    those has no inferred effect. *)
Theorem effect_table_covers :
  filter (λ k, builtin_effects !! k = None) builtin_entries.*1 = words_without_effect ∧
  Forall (λ r, r.1.1 ∈ builtin_entries.*1 ∧ builtin_effects !! r.1.1 = Some (Known r.1.2 r.2)) effect_rows.
Proof.
  split; [vm_compute; reflexivity|]. apply (bool_decide_unpack _). vm_compute. exact I.
Qed.
