(* ===== verification/Factor.v ===== *)
(** * The Factor the emitter writes

    The emitted text is Factor source.  What a body relies on is small: the
    words of a text and its string literals, quotations in brackets, [:>]
    bindings, the quotation with named parameters that is called at once, and
    the combinators [if], [unless] and [loop].  This file fixes that part as it
    is documented: a scanner, a reader of brackets, and a big-step semantics.
    Everything else — the arithmetic, the memory, the terminal — is the class
    [FactorVM], over which the theorems about emitted code are stated.  First
    come the loop frames of the runtime, which are its own and modelled. *)
From stdpp Require Import strings gmap.
From S2P Require Import Prelude Bytes F64.

(** * The loop frames of the runtime ([factor/forth/runtime/runtime.factor])

    [DO .. LOOP] keeps its limit and index in a frame on a stack of its own:
    [do-loop] pushes one, [bump-loop] moves the index at the end of a turn and
    says whether the loop is done, [leave] marks the frame.  The indices are
    Factor integers: they have no width. *)

Record Frame := mkFrame { fr_limit : Z; fr_index : Z; fr_left : bool }.

Definition push_loop_frame (limit start : Z) (fs : list Frame) : list Frame :=
  mkFrame limit start false :: fs.
Definition pop_loop_frame (fs : list Frame) : list Frame := tail fs.

(** [bump-loop]: whether the loop is done, and the frames. *)
Definition bump_loop (delta : Z) (fs : list Frame) : option (bool * list Frame) :=
  match fs with
  | fr :: fs' =>
      if fr_left fr then Some (true, fs)
      else
        let new_index := fr_index fr + delta in
        Some (fr_limit fr <=? new_index, mkFrame (fr_limit fr) new_index false :: fs')
  | [] => None
  end.

Definition leave (fs : list Frame) : option (list Frame) :=
  match fs with
  | fr :: fs' => Some (mkFrame (fr_limit fr) (fr_index fr) true :: fs')
  | [] => None
  end.
Definition loop_i (fs : list Frame) : option Z := fr_index <$> head fs.
Definition loop_j (fs : list Frame) : option Z := fr_index <$> head (tail fs).

(** ** The turns of a loop

    The indices a loop counting by [delta] goes through after the first turn,
    when nothing else touches its frame. *)
Fixpoint indices (fuel : nat) (delta limit index : Z) : list Z :=
  match fuel with
  | O => []
  | S fuel' =>
      index :: if limit <=? index + delta then [] else indices fuel' delta limit (index + delta)
  end.

Lemma indices_up limit start :
  start < limit →
  indices (Z.to_nat (limit - start)) 1 limit start = seqZ start (limit - start).
Proof.
  intros Hlt. remember (Z.to_nat (limit - start)) as n eqn:En.
  revert start Hlt En. induction n as [|n IH]; intros start Hlt En; [lia|].
  rewrite seqZ_cons by lia. cbn [indices]. f_equal.
  destruct (Z.leb_spec limit (start + 1)).
  - replace (Z.pred (limit - start)) with 0 by lia. done.
  - rewrite IH by lia. f_equal; lia.
Qed.

(** * Texts, code and its runs *)

(** ** Text *)

Inductive lexeme := LWord (w : string) | LStr (s : string) | LBad.
#[export] Instance lexeme_eq_dec : EqDecision lexeme.
Proof. solve_decision. Defined.

Definition is_blank (c : ascii) : bool :=
  (c =? " ")%char || (c =? "009")%char || (c =? "010")%char || (c =? "013")%char.
Definition is_dquote (c : ascii) : bool := (c =? "034")%char.

(** The escapes of a string literal. *)
Definition unescape (c : ascii) : option ascii :=
  if (c =? "n")%char then Some "010"%char
  else if (c =? "r")%char then Some "013"%char
  else if (c =? "t")%char then Some "009"%char
  else if (c =? "\")%char || is_dquote c then Some c else None.

Inductive mode := Between | InWord (w : string) | InStr (s : string) | InEscape (s : string).

Fixpoint scan_in (m : mode) (t : string) : list lexeme :=
  match t with
  | EmptyString =>
      match m with Between => [] | InWord w => [LWord w] | InStr _ | InEscape _ => [LBad] end
  | String c r =>
      match m with
      | Between =>
          if is_blank c then scan_in Between r
          else if is_dquote c then scan_in (InStr "") r
          else scan_in (InWord (String c "")) r
      | InWord w =>
          if is_blank c then LWord w :: scan_in Between r else scan_in (InWord (w +:+ String c "")) r
      | InStr s =>
          if is_dquote c then LStr s :: scan_in Between r
          else if (c =? "\")%char then scan_in (InEscape s) r
          else scan_in (InStr (s +:+ String c "")) r
      | InEscape s =>
          match unescape c with
          | Some d => scan_in (InStr (s +:+ String d "")) r
          | None => [LBad]
          end
      end
  end.
Definition scan : string → list lexeme := scan_in Between.

(** ** Trees of code *)

Inductive fcode :=
  | FWord (w : string)
  | FStr (s : string)
  | FQuot (body : list fcode)
  (** [[| params | body ] call( ins -- outs )] *)
  | FLet (params : list string) (body : list fcode) (ins outs : list string)
  (** [:> name] *)
  | FBind (name : string).

Section Induction.
Context (P : fcode → Prop).
Context (HWord : ∀ w, P (FWord w)) (HStr : ∀ s, P (FStr s)) (HBind : ∀ n, P (FBind n)).
Context (HQuot : ∀ b, Forall P b → P (FQuot b)).
Context (HLet : ∀ ps b i o, Forall P b → P (FLet ps b i o)).
Fixpoint fcode_nested_ind (c : fcode) : P c :=
  let each := fix go l : Forall P l :=
    match l with [] => Forall_nil_2 P | c :: l' => Forall_cons_2 P c l' (fcode_nested_ind c) (go l') end in
  match c with
  | FWord w => HWord w
  | FStr s => HStr s
  | FBind n => HBind n
  | FQuot b => HQuot b (each b)
  | FLet ps b i o => HLet ps b i o (each b)
  end.
End Induction.

Fixpoint flat (c : fcode) : list lexeme :=
  let all := fix go l := match l with [] => [] | c :: l' => flat c ++ go l' end in
  match c with
  | FWord w => [LWord w]
  | FStr s => [LStr s]
  | FQuot b => LWord "[" :: all b ++ [LWord "]"]
  | FLet ps b i o =>
      LWord "[|" :: (LWord <$> ps) ++ LWord "|" :: all b ++ LWord "]" :: LWord "call(" ::
      (LWord <$> i) ++ LWord "--" :: (LWord <$> o) ++ [LWord ")"]
  | FBind n => [LWord ":>"; LWord n]
  end.
Definition flats : list fcode → list lexeme := fix go l := match l with [] => [] | c :: l' => flat c ++ go l' end.

(** ** Reading brackets

    [opened] are the brackets around the place, innermost first, each with its
    parameters and the code before it; [cur] is the code since the last one,
    reversed. *)
Inductive place :=
  | Code
  | Params (ps : list string)
  | CallOpen (ps : list string) (b : list fcode)
  | CallIns (ps : list string) (b : list fcode) (i : list string)
  | CallOuts (ps : list string) (b : list fcode) (i o : list string)
  | Binder
  (** [:> ( names )], the last name for the top: the names so far, reversed *)
  | Binders (ns : list string).

Definition opening : list string := ["["; "]"; "[|"; ":>"].

Fixpoint read_in (p : place) (opened : list (option (list string) * list fcode)) (cur : list fcode)
    (ls : list lexeme) : option (list fcode) :=
  match ls with
  | [] => match p, opened with Code, [] => Some (rev cur) | _, _ => None end
  | LBad :: _ => None
  | LStr s :: ls' => match p with Code => read_in Code opened (FStr s :: cur) ls' | _ => None end
  | LWord w :: ls' =>
      match p with
      | Code =>
          if bool_decide (w = "[") then read_in Code ((None, cur) :: opened) [] ls'
          else if bool_decide (w = "[|") then read_in (Params []) opened cur ls'
          else if bool_decide (w = ":>") then read_in Binder opened cur ls'
          else if bool_decide (w = "]") then
            match opened with
            | (None, before) :: opened' => read_in Code opened' (FQuot (rev cur) :: before) ls'
            | (Some ps, before) :: opened' => read_in (CallOpen ps (rev cur)) opened' before ls'
            | [] => None
            end
          else read_in Code opened (FWord w :: cur) ls'
      | Params ps =>
          if bool_decide (w = "|") then read_in Code ((Some (rev ps), cur) :: opened) [] ls'
          else read_in (Params (w :: ps)) opened cur ls'
      | CallOpen ps b =>
          if bool_decide (w = "call(") then read_in (CallIns ps b []) opened cur ls' else None
      | CallIns ps b i =>
          if bool_decide (w = "--") then read_in (CallOuts ps b i []) opened cur ls'
          else read_in (CallIns ps b (i ++ [w])) opened cur ls'
      | CallOuts ps b i o =>
          if bool_decide (w = ")") then read_in Code opened (FLet ps b i o :: cur) ls'
          else read_in (CallOuts ps b i (o ++ [w])) opened cur ls'
      | Binder =>
          if bool_decide (w = "(") then read_in (Binders []) opened cur ls'
          else read_in Code opened (FBind w :: cur) ls'
      | Binders ns =>
          if bool_decide (w = ")") then read_in Code opened (rev (FBind <$> ns) ++ cur) ls'
          else read_in (Binders (w :: ns)) opened cur ls'
      end
  end.
Definition read_code (t : string) : option (list fcode) := read_in Code [] [] (scan t).

(** ** Machines *)

(** Values, the rest of the state (return stack, globals, memory, output) and
    the words that are not fixed below.  [f_word] is any word that works on
    the whole state, [f_fun] a function of its arguments, deepest first. *)
Class FactorVM := {
  fV : Type;
  fR : Type;
  f_bool : bool → fV;
  f_quot : gmap string fV → list fcode → fV;
  f_int : Z → fV;
  f_to_int : fV → option Z;
  f_float : f64 → fV;
  f_str : string → fV;
  (** the number a token is, if it is one *)
  f_read : string → option fV;
  f_zero : fV → bool;
  f_same : fV → fV → bool;
  f_fun : string → list fV → fV → Prop;
  f_word : string → list fV * fR → list fV * fR → Prop
}.

Section Run.
Context `{FactorVM}.
(** The local bindings in scope. *)
Notation env := (gmap string fV).
(** The data stack, the loop frames, the rest. *)
Definition fstate : Type := list fV * list Frame * fR.

(** Words without control: booleans, numbers, stack words, the loop words of
    the runtime, and the machine's own. *)
Inductive plain_step : string → fstate → fstate → Prop :=
  | p_bool (b : bool) st fs rs : plain_step (if b then "t" else "f") (st, fs, rs) (f_bool b :: st, fs, rs)
  | p_number w v st fs rs : f_read w = Some v → plain_step w (st, fs, rs) (v :: st, fs, rs)
  | p_dup v st fs rs : plain_step "dup" (v :: st, fs, rs) (v :: v :: st, fs, rs)
  | p_drop v st fs rs : plain_step "drop" (v :: st, fs, rs) (st, fs, rs)
  | p_kernel_drop v st fs rs : plain_step "kernel:drop" (v :: st, fs, rs) (st, fs, rs)
  | p_equal a b st fs rs : plain_step "=" (b :: a :: st, fs, rs) (f_bool (f_same a b) :: st, fs, rs)
  | p_zero v st fs rs : plain_step "math:zero?" (v :: st, fs, rs) (f_bool (f_zero v) :: st, fs, rs)
  | p_choose (x : bool) a b st fs rs :
      plain_step "kernel:?" (b :: a :: f_bool x :: st, fs, rs) ((if x then a else b) :: st, fs, rs)
  | p_not (x : bool) st fs rs : plain_step "kernel:not" (f_bool x :: st, fs, rs) (f_bool (negb x) :: st, fs, rs)
  | p_i st fs rs n : loop_i fs = Some n → plain_step "forth.runtime:i" (st, fs, rs) (f_int n :: st, fs, rs)
  | p_j st fs rs n : loop_j fs = Some n → plain_step "forth.runtime:j" (st, fs, rs) (f_int n :: st, fs, rs)
  | p_leave st fs rs fs' : leave fs = Some fs' → plain_step "forth.runtime:leave" (st, fs, rs) (st, fs', rs)
  | p_unloop st fs rs : plain_step "forth.runtime:pop-loop-frame" (st, fs, rs) (st, pop_loop_frame fs, rs)
  | p_fun w args v st fs rs :
      f_fun w args v → plain_step w (rev args ++ st, fs, rs) (v :: st, fs, rs)
  | p_word w st fs rs st' rs' :
      f_word w (st, rs) (st', rs') → plain_step w (st, fs, rs) (st', fs, rs').

(** [bind_top [a; b]]: [b] is bound to the top of the stack. *)
Fixpoint bind_all (names : list string) (vs : list fV) (ρ : env) : env :=
  match names, vs with n :: ns, v :: vs' => bind_all ns vs' (<[n := v]> ρ) | _, _ => ρ end.

Inductive frun : env → list fcode → fstate → fstate → Prop :=
  | f_nil ρ s : frun ρ [] s s
  | f_local ρ w v l st fs rs s' :
      ρ !! w = Some v → frun ρ l (v :: st, fs, rs) s' → frun ρ (FWord w :: l) (st, fs, rs) s'
  | f_call ρ w l s s1 s' :
      ρ !! w = None → fstep w s s1 → frun ρ l s1 s' → frun ρ (FWord w :: l) s s'
  | f_string ρ t l st fs rs s' :
      frun ρ l (f_str t :: st, fs, rs) s' → frun ρ (FStr t :: l) (st, fs, rs) s'
  | f_quotation ρ q l st fs rs s' :
      frun ρ l (f_quot ρ q :: st, fs, rs) s' → frun ρ (FQuot q :: l) (st, fs, rs) s'
  | f_bind ρ n l v st fs rs s' :
      frun (<[n := v]> ρ) l (st, fs, rs) s' → frun ρ (FBind n :: l) (v :: st, fs, rs) s'
  (** the call takes as many items as it names and leaves as many *)
  | f_let ρ ps b i o args results l st fs rs fs1 rs1 s' :
      length args = length ps → length i = length ps → length results = length o →
      frun (bind_all ps args ρ) b (st, fs, rs) (rev results ++ st, fs1, rs1) →
      frun ρ l (rev results ++ st, fs1, rs1) s' →
      frun ρ (FLet ps b i o :: l) (rev args ++ st, fs, rs) s'
with fstep : string → fstate → fstate → Prop :=
  | s_plain w s s' : plain_step w s s' → fstep w s s'
  | s_if ρ1 q1 ρ2 q2 (x : bool) st fs rs s' :
      frun (if x then ρ1 else ρ2) (if x then q1 else q2) (st, fs, rs) s' →
      fstep "kernel:if" (f_quot ρ2 q2 :: f_quot ρ1 q1 :: f_bool x :: st, fs, rs) s'
  | s_unless_true ρ q st fs rs :
      fstep "kernel:unless" (f_quot ρ q :: f_bool true :: st, fs, rs) (st, fs, rs)
  | s_unless_false ρ q st fs rs s' :
      frun ρ q (st, fs, rs) s' →
      fstep "kernel:unless" (f_quot ρ q :: f_bool false :: st, fs, rs) s'
  | s_loop_done ρ q st fs rs st1 fs1 rs1 :
      frun ρ q (st, fs, rs) (f_bool false :: st1, fs1, rs1) →
      fstep "kernel:loop" (f_quot ρ q :: st, fs, rs) (st1, fs1, rs1)
  | s_loop_more ρ q st fs rs st1 fs1 rs1 s' :
      frun ρ q (st, fs, rs) (f_bool true :: st1, fs1, rs1) →
      fstep "kernel:loop" (f_quot ρ q :: st1, fs1, rs1) s' →
      fstep "kernel:loop" (f_quot ρ q :: st, fs, rs) s'
  | s_do ρ q a b limit start st fs rs s' :
      f_to_int a = Some limit → f_to_int b = Some start →
      fturns ρ q (st, push_loop_frame limit start fs, rs) s' →
      fstep "forth.runtime:do-loop" (f_quot ρ q :: b :: a :: st, fs, rs) s'
  | s_qdo_skip ρ q a b st fs rs :
      f_same a b = true → fstep "forth.runtime:?do-loop" (f_quot ρ q :: b :: a :: st, fs, rs) (st, fs, rs)
  | s_qdo ρ q a b st fs rs s' :
      f_same a b = false → fstep "forth.runtime:do-loop" (f_quot ρ q :: b :: a :: st, fs, rs) s' →
      fstep "forth.runtime:?do-loop" (f_quot ρ q :: b :: a :: st, fs, rs) s'
(** [[ quot call bump-loop not ] loop pop-loop-frame] *)
with fturns : env → list fcode → fstate → fstate → Prop :=
  | t_done ρ q s d delta st fs rs fs' :
      frun ρ q s (d :: st, fs, rs) → f_to_int d = Some delta → bump_loop delta fs = Some (true, fs') →
      fturns ρ q s (st, pop_loop_frame fs', rs)
  | t_more ρ q s d delta st fs rs fs' s' :
      frun ρ q s (d :: st, fs, rs) → f_to_int d = Some delta → bump_loop delta fs = Some (false, fs') →
      fturns ρ q (st, fs', rs) s' → fturns ρ q s s'.
End Run.
Notation env := (gmap string fV).
