(* ===== verification/LetCode.v ===== *)
(** * LET code generation ([src/compiler/let_lang/codegen.rs])

    A LET form becomes one Factor quotation with named parameters, called on
    the spot: the algebra of its expressions is written out in postfix order,
    and destructured slots and WHERE clauses become [:>] bindings. *)
From stdpp Require Import strings gmap.
From Stdlib Require Import SpecFloat.
From S2P Require Import Prelude Bytes F64 LetLang Classes Resolve.

(** LET names are prefixed, so that they are no names of words. *)
Definition factor_local (name : string) : string := "nfl-" +:+ name.

(** The text of each element, one after the other. *)
Definition text_with {A} (f : A → string) : list A → string :=
  fix go l := match l with [] => "" | x :: l' => f x +:+ go l' end.
Fixpoint repeat_text (n : nat) (s : string) : string :=
  match n with O => "" | S n' => s +:+ repeat_text n' s end.

(** Rust's [{:.1}] of a finite double that is an integer: all its digits. *)
Definition f64_fixed1 (x : f64) : string :=
  (match x with S754_zero s | S754_finite s _ _ => if s then "-" else "" | _ => "" end) +:+
  pretty (Z.abs (f64_to_Z x)) +:+ ".0".

Definition let_literal (n : f64) : string :=
  if f64_is_integer n && f64_is_finite n && f64_lt (f64_abs n) (f64_of_Z (10 ^ 15))
  then f64_fixed1 n else f64_display n.

Definition factor_bin_op (op : BinOp) : string :=
  match op with
  | OpAdd => "math:+"
  | OpSub => "math:-"
  | OpMul => "math:*"
  | OpDiv => "math:/"
  | OpPow => "math.functions:^"
  | OpEq => "kernel:=  1.0 0.0 kernel:?"
  | OpNe => "kernel:=  kernel:not  1.0 0.0 kernel:?"
  | OpLt => "math.order:<   1.0 0.0 kernel:?"
  | OpGt => "math.order:>   1.0 0.0 kernel:?"
  | OpLe => "math.order:<=  1.0 0.0 kernel:?"
  | OpGe => "math.order:>=  1.0 0.0 kernel:?"
  end.

Definition call_targets : list (string * string) := [
  ("sqrt", "math.functions:sqrt"); ("abs", "math:abs"); ("min", "math.order:min");
  ("max", "math.order:max"); ("floor", "math.functions:floor"); ("ceil", "math.functions:ceiling");
  ("round", "math.functions:round"); ("trunc", "math.functions:truncate");
  ("sin", "math.functions:sin"); ("cos", "math.functions:cos"); ("tan", "math.functions:tan");
  ("asin", "math.functions:asin"); ("acos", "math.functions:acos"); ("atan", "math.functions:atan");
  ("atan2", "math.libm:fatan2"); ("exp", "math.functions:exp"); ("log", "math.functions:log");
  ("pow", "math.functions:^"); ("hypot", "math.functions:hypot"); ("pi", "math.constants:pi");
  ("e", "math.constants:e") ].

Definition factor_call_target (name : string) : string :=
  match list_find (λ r, r.1 = name) call_targets with
  | Some (_, (_, target)) => target
  | None => "kernel:throw-LET-unknown-call"
  end.

(** The exponent of a power that is written out as a product. *)
Definition small_power (r : LExpr) : option nat :=
  match r with
  | LLit n =>
      if f64_is_integer n && (f64_le (f64_of_Z 1) n && f64_le n (f64_of_Z 8))
      then Some (Z.to_nat (u32_wrap (f64_to_Z n))) else None
  | _ => None
  end.

Fixpoint emit_lexpr (e : LExpr) : string :=
  match e with
  | LLit n => let_literal n
  | LVar name => factor_local name
  | LNeg inner => emit_lexpr inner +:+ " math:neg"
  | LBin op l r =>
      let plain_op := emit_lexpr l +:+ " " +:+ emit_lexpr r +:+ " " +:+ factor_bin_op op in
      match op, small_power r with
      | OpPow, Some k =>
          emit_lexpr l +:+ repeat_text (k - 1) " dup" +:+ repeat_text (k - 1) " math:*"
      | _, _ => plain_op
      end
  | LCall name args => text_with (λ a, emit_lexpr a +:+ " ") args +:+ factor_call_target name
  end.

(** ** Destructured inputs *)

(** The binding of one alias. *)
Definition bind_slot (input cls : string) (p : string * string) : string :=
  let '(alias, slot) := p in
  factor_local input +:+ " " +:+ factor_user_name (cls +:+ ">" +:+ slot) +:+ " :> " +:+
  factor_local alias +:+ " ".

Definition destructure (class_slots : class_map) (inp : LetInput) : result string string :=
  match li_destructure inp with
  | None => Ok ""
  | Some d =>
      let cls := lowercase (dc_class d) in
      actual ← ok_or (class_slots !! cls)
        ("class `" +:+ dc_class d +:+ "` not found (in destructure of `" +:+ li_name inp +:+ "`)");
      if (length actual <? length (dc_slots d))%nat then
        Err ("`" +:+ li_name inp +:+ ":" +:+ dc_class d +:+ " as ...` lists " +:+
             pretty (length (dc_slots d)) +:+ " aliases but `" +:+ dc_class d +:+ "` has " +:+
             pretty (length actual) +:+ " slots")
      else Ok (text_with (bind_slot (li_name inp) cls) (zip (dc_slots d) actual))
  end.

Definition destructures (class_slots : class_map) : list LetInput → string → result string string :=
  fold_result (λ inp out, t ← destructure class_slots inp; Ok (out +:+ t)).

(** ** Forms *)

Definition name_list (names : list string) : string :=
  text_with (λ n, factor_local n +:+ " ") names.

Definition lower_to_factor (form : LetForm) (class_slots : class_map) : result string string :=
  slots ← destructures class_slots (lf_inputs form) "";
  let names := name_list (li_name <$> lf_inputs form) in
  Ok ("[| " +:+ names +:+ "| " +:+ slots +:+
      text_with (λ '(name, body), emit_lexpr body +:+ " :> " +:+ factor_local name +:+ " ")
                (lf_wheres form) +:+
      text_with (λ r, emit_lexpr r +:+ " ") (lf_results form) +:+
      "] call( " +:+ names +:+ "-- " +:+ name_list (lf_outputs form) +:+ ")").

Definition lower_text (src : string) : option string :=
  match let_parse src with
  | Done form =>
      match lower_to_factor form {[ "point" := ["x"; "y"] ]} with Ok t => Some t | Err e => Some e end
  | _ => None
  end.

Example lower_ex :
  lower_text <$> ["LET (x) -> (y) = a + 1 WHERE a = x * 2 END";
                  "LET (a:point as ax ay, b) -> (d e) = sqrt(ax**2 - ay) , -b < 1e15 END";
                  "LET (a:line as p) -> (d) = a END"] =
  [Some "[| nfl-x | nfl-x 2.0 math:* :> nfl-a nfl-a 1.0 math:+ ] call( nfl-x -- nfl-y )";
   Some ("[| nfl-a nfl-b | nfl-a z-point>x :> nfl-ax nfl-a z-point>y :> nfl-ay " +:+
         "nfl-ax dup math:* nfl-ay math:- math.functions:sqrt " +:+
         "nfl-b math:neg 1000000000000000 math.order:<   1.0 0.0 kernel:? ] " +:+
         "call( nfl-a nfl-b -- nfl-d nfl-e )");
   Some "class `line` not found (in destructure of `a`)"].
Proof. vm_compute. reflexivity. Qed.
