(* ===== verification/Sema.v ===== *)
(** * The semantic model ([src/compiler/sema.rs])

    Runs the passes in order — template expansion, [?DUP], [RECURSE], class
    slots, resolution, [EXIT], effects — and tabulates what the later passes
    ask for: dictionary entries, call graph, use sites, escape states. *)
From stdpp Require Import strings gmap.
From S2P Require Import Prelude Bytes F64 Lex LetLang Ast Classes Parse Resolve Effect.
From S2P Require LowerQdup LowerRecurse LowerExit.

Inductive EscapeReason :=
  | Duplicated | PassedToUnknownWord | AddressArithmetic | UnknownSink | PrintedAsValue
  | InteractiveSession.
Inductive EscapeState :=
  | Narrow
  | Wide (reason : EscapeReason) (at_ : Span)
  | EscapeUnknown.

Record UserWord := mkUserWord {
  uw_name : string; uw_span : Span; uw_inputs : option N; uw_outputs : option N }.

Record Sema := mkSema {
  s_program : Program; s_word_targets : target_map; s_user_words : gmap string UserWord;
  s_variables : gmap string VariableDef; s_constants : gmap string ConstantDef;
  s_creates : gmap string CreateDef; s_collections : gmap string CollectionDef;
  s_templates : gmap string TemplateDef; s_values : gmap string ValueDef;
  s_class_slots : class_map; s_user_effects : effect_map; s_body_effects : effect_map;
  s_effect_errors : list EffectError; s_call_graph : gmap string (gset string);
  s_use_sites : gmap string (list Span); s_escape : gmap string EscapeState;
  s_docs : gmap string WordDoc }.

(** ** Templates *)

Notation template_map := (gmap string TemplateDef).

(** Bytes per unit, from the last size word of the constructor. *)
Definition alloc_unit (ctor : list Expr) : Z :=
  fold_with (λ e unit,
    match e with
    | WordRef name _ =>
        let lc := lowercase name in
        if bool_decide (lc = "cells") || bool_decide (lc = "floats") then 8
        else if bool_decide (lc = "chars") then 1 else unit
    | _ => unit
    end) ctor 1.
Definition compute_alloc_bytes (tmpl : TemplateDef) (count : Z) : Z :=
  Z.max (u32_sat_mul count (alloc_unit (t_constructor tmpl))) 1.

Definition flush_current (current : list Expr) (out : list Item) : list Item :=
  match current, last current with
  | first :: _, Some last_ => out ++ [ITopLevel current (span_to (expr_span first) (expr_span last_))]
  | _, _ => out
  end.

Section Expand.
Context (templates : template_map).

Definition template_at (e : Expr) : option TemplateDef :=
  match e with WordRef name _ => templates !! lowercase name | _ => None end.
(** The count on top of the current run, and the run without it. *)
Definition count_lit (current : list Expr) : option (Z * Expr * list Expr) :=
  match last current with
  | Some (Lit (LitInt v sp)) => if 0 <=? v then Some (u32_wrap v, Lit (LitInt v sp), removelast current) else None
  | _ => None
  end.

Fixpoint expand_go (current exprs : list Expr) (out : list Item) : list Item :=
  match exprs with
  | [] => flush_current current out
  | e :: rest =>
      match template_at e, count_lit current, rest with
      | Some tmpl, Some (count, count_expr, current'), WordRef newname newname_span :: rest' =>
          expand_go [] rest'
            (flush_current current' out ++
             [ITemplateInstance (mkTemplateInstance newname newname_span (t_name tmpl)
                (compute_alloc_bytes tmpl count) (t_does tmpl)
                (span_to (expr_span count_expr) newname_span))])
      | _, _, _ => expand_go (current ++ [e]) rest out
      end
  end.
Definition expand_toplevel (exprs : list Expr) (out : list Item) : list Item := expand_go [] exprs out.
Definition expand_item (i : Item) (out : list Item) : list Item :=
  match i with ITopLevel exprs _ => expand_toplevel exprs out | _ => out ++ [i] end.
End Expand.

Definition collect_templates (items : list Item) (prior : template_map) : template_map :=
  fold_with (λ i m, match i with ITemplate t => <[lowercase (t_name t) := t]> m | _ => m end) items prior.

Definition expand_templates_pre_resolve_with_prior (p : Program) (prior : template_map) : Program :=
  let templates := collect_templates (p_items p) prior in
  if decide (templates = ∅) then p
  else mkProgram (fold_with (expand_item templates) (p_items p) []).

(** ** Tables *)

(** [lower_exit] on the definitions, with the resolver's targets. *)
Definition is_return (word_targets : target_map) (span : Span) : bool :=
  bool_decide (word_targets !! span = Some (QualifiedBuiltin "continuations" "return")).
Definition exit_item (word_targets : target_map) (i : Item) : Item :=
  match i with
  | IDefinition d =>
      IDefinition (mkDefinition (d_name d) (d_name_span d) (d_effect d) (d_locals d)
        (LowerExit.lower_body (is_return word_targets) (d_body d)) (d_span d))
  | _ => i
  end.

Definition slots_of (class_slots : class_map) (c : ClassDef) : list string :=
  default [] (class_slots !! lowercase (cl_name c)).

(** The effects of the words a class brings into being. *)
Definition seed_slot (class_lc : string) (s : string) (m : effect_map) : effect_map :=
  <[class_lc +:+ "." +:+ s +:+ "!" := Known 2 0]>
  (<[s +:+ ">>" +:+ class_lc := Known 2 1]> (<[class_lc +:+ ">" +:+ s := Known 1 1]> m)).
Definition seed_class (class_slots : class_map) (i : Item) (m : effect_map) : effect_map :=
  match i with
  | IClass c =>
      let class_lc := lowercase (cl_name c) in
      let all_slots := slots_of class_slots c in
      fold_with (seed_slot class_lc) all_slots
        (<["<" +:+ class_lc +:+ ">" := Known (len32 all_slots) 1]> m)
  | _ => m
  end.

(** The entry of the name an item introduces. *)
Definition word_entry (i : Item) : option UserWord :=
  let plain name sp := Some (mkUserWord name sp None None) in
  match i with
  | IDefinition d =>
      Some (mkUserWord (d_name d) (d_name_span d)
              (option_map (λ se, len32 (se_inputs se)) (d_effect d))
              (option_map (λ se, len32 (se_outputs se)) (d_effect d)))
  | IVariable v => plain (v_name v) (v_name_span v)
  | IConstant c => plain (k_name c) (k_name_span c)
  | ICreate c => plain (cr_name c) (cr_name_span c)
  | ICollection c => plain (co_name c) (co_name_span c)
  | ITemplate t => plain (t_name t) (t_name_span t)
  | ITemplateInstance t => plain (ti_name t) (ti_name_span t)
  | IValue v => Some (mkUserWord (va_name v) (va_name_span v) (Some 0%N) (Some 1%N))
  | IClass c => Some (mkUserWord (cl_name c) (cl_name_span c) (Some 0%N) (Some 0%N))
  | IGeneric g =>
      Some (mkUserWord (g_name g) (g_name_span g) (Some (len32 (se_inputs (g_effect g))))
              (Some (len32 (se_outputs (g_effect g)))))
  | IMethod _ | IRawFactor _ | ITopLevel _ _ | INeeds _ _ => None
  end.
Definition add_word (i : Item) (m : gmap string UserWord) : gmap string UserWord :=
  match word_entry i with Some w => <[lowercase (uw_name w) := w]> m | None => m end.

(** [entry(k).or_insert(w)]. *)
Definition or_insert {A} (k : string) (w : A) (m : gmap string A) : gmap string A :=
  match m !! k with Some _ => m | None => <[k := w]> m end.
Definition class_entry (c : ClassDef) (k name : string) (i o : N) (m : gmap string UserWord) :=
  or_insert k (mkUserWord name (cl_name_span c) (Some i) (Some o)) m.
Definition add_slot_words (c : ClassDef) (s : string) (m : gmap string UserWord)
    : gmap string UserWord :=
  let class_lc := lowercase (cl_name c) in
  let m1 := class_entry c (class_lc +:+ ">" +:+ s) (cl_name c +:+ ">" +:+ s) 1 1 m in
  let m2 := class_entry c (s +:+ ">>" +:+ class_lc) (s +:+ ">>" +:+ cl_name c) 2 1 m1 in
  class_entry c (class_lc +:+ "." +:+ s +:+ "!") (cl_name c +:+ "." +:+ s +:+ "!") 2 0 m2.
Definition add_class_words (class_slots : class_map) (i : Item) (m : gmap string UserWord)
    : gmap string UserWord :=
  match i with
  | IClass c =>
      let class_lc := lowercase (cl_name c) in
      let all_slots := slots_of class_slots c in
      let m1 := class_entry c ("<" +:+ class_lc +:+ ">") ("<" +:+ cl_name c +:+ ">")
                  (len32 all_slots) 1 m in
      let m2 := class_entry c (class_lc +:+ "?") (cl_name c +:+ "?") 1 1 m1 in
      fold_with (add_slot_words c) all_slots m2
  | _ => m
  end.
Definition build_user_words (class_slots : class_map) (items : list Item) : gmap string UserWord :=
  fold_with (add_class_words class_slots) items (fold_with add_word items ∅).

(** One table per kind of item. *)
Definition table {A} (pick : Item → option (string * A)) (items : list Item) : gmap string A :=
  fold_with (λ i m, match pick i with Some (n, a) => <[lowercase n := a]> m | None => m end) items ∅.
Definition pick_variable (i : Item) : option (string * VariableDef) :=
  match i with IVariable v => Some (v_name v, v) | _ => None end.
Definition pick_constant (i : Item) : option (string * ConstantDef) :=
  match i with IConstant c => Some (k_name c, c) | _ => None end.
Definition pick_create (i : Item) : option (string * CreateDef) :=
  match i with ICreate c => Some (cr_name c, c) | _ => None end.
Definition pick_collection (i : Item) : option (string * CollectionDef) :=
  match i with ICollection c => Some (co_name c, c) | _ => None end.
Definition pick_template (i : Item) : option (string * TemplateDef) :=
  match i with ITemplate t => Some (t_name t, t) | _ => None end.
Definition pick_value (i : Item) : option (string * ValueDef) :=
  match i with IValue v => Some (va_name v, v) | _ => None end.

(** ** Call graph and use sites *)

Record Graph := mkGraph { gr_calls : gmap string (gset string); gr_uses : gmap string (list Span) }.

Definition add_use (name : string) (span : Span) (g : Graph) : Graph :=
  mkGraph (gr_calls g) (<[name := default [] (gr_uses g !! name) ++ [span]]> (gr_uses g)).
Definition add_call (caller : option string) (callee : string) (g : Graph) : Graph :=
  match caller with
  | Some c => mkGraph (<[c := {[callee]} ∪ default ∅ (gr_calls g !! c)]> (gr_calls g)) (gr_uses g)
  | None => g
  end.

Section Walk.
Context (caller : option string).
Fixpoint walk_expr (e : Expr) (g : Graph) : Graph :=
  match e with
  | WordRef name span | Tick name span | To name span =>
      add_call caller (lowercase name) (add_use (lowercase name) span g)
  | See name span => add_use (lowercase name) span g
  | If t el _ => opt_with (fold_with walk_expr) el (fold_with walk_expr t g)
  | BeginUntil b _ | BeginAgain b _ | DoLoop _ b _ _ => fold_with walk_expr b g
  | BeginWhileRepeat p b _ => fold_with walk_expr b (fold_with walk_expr p g)
  | Case arms d _ => opt_with (fold_with walk_expr) d (fold_with walk_arm arms g)
  | Lit _ | LetExpr _ _ | Locals _ _ => g
  end
with walk_arm (a : CaseArm) (g : Graph) : Graph :=
  match a with mkArm m b _ => fold_with walk_expr b (fold_with walk_expr m g) end.
Definition walk_body_for_refs : list Expr → Graph → Graph := fold_with walk_expr.
End Walk.

(** The bodies of an item, each with the caller it counts for. *)
Definition walk_item (i : Item) (g : Graph) : Graph :=
  match i with
  | IDefinition d => walk_body_for_refs (Some (lowercase (d_name d))) (d_body d) g
  | ITopLevel exprs _ => walk_body_for_refs None exprs g
  | IConstant c => match k_value c with Computed e => walk_body_for_refs None e g | _ => g end
  | IValue v => walk_body_for_refs None (va_initial v) g
  | ITemplate t =>
      let lc := Some (lowercase (t_name t)) in
      walk_body_for_refs lc (t_does t) (walk_body_for_refs lc (t_constructor t) g)
  | ITemplateInstance t => walk_body_for_refs (Some (lowercase (ti_name t))) (ti_does t) g
  | IMethod m => walk_body_for_refs (Some (lowercase (m_generic m))) (m_body m) g
  | IVariable _ | ICreate _ | ICollection _ | IClass _ | IGeneric _ | IRawFactor _ | INeeds _ _ => g
  end.
Definition analyse_call_graph (items : list Item) : Graph := fold_with walk_item items (mkGraph ∅ ∅).

(** ** Escape analysis *)

Definition narrow_sinks : list string := ["@"; "!"; "+!"; "c@"; "c!"].
Definition is_sink (e : Expr) : bool :=
  match e with WordRef next _ => bool_decide (lowercase next ∈ narrow_sinks) | _ => false end.

Notation escape_map := (gmap string EscapeState).

Section Escape.
Context (var_names : gset string).

(** The reference [e] when [next] follows it in its block. *)
Definition check_use (e : Expr) (next : option Expr) (m : escape_map) : escape_map :=
  match e with
  | WordRef name span =>
      let lc := lowercase name in
      if decide (lc ∈ var_names) then
        if match next with Some n => is_sink n | None => false end then m
        else match m !! lc with
             | Some (Wide _ _) => m
             | _ => <[lc := Wide UnknownSink span]> m
             end
      else m
  | _ => m
  end.

(** A block, given the effect [f] of the blocks nested in one expression. *)
Definition block_escape (f : Expr → escape_map → escape_map) : list Expr → escape_map → escape_map :=
  fix go l m :=
    match l with
    | [] => m
    | e :: l' => go l' (check_use e (head l') (f e m))
    end.

Fixpoint nested_escape (e : Expr) (m : escape_map) : escape_map :=
  match e with
  | If t el _ => opt_with (block_escape nested_escape) el (block_escape nested_escape t m)
  | BeginUntil b _ | BeginAgain b _ | DoLoop _ b _ _ => block_escape nested_escape b m
  | BeginWhileRepeat p b _ => block_escape nested_escape b (block_escape nested_escape p m)
  | Case arms d _ => opt_with (block_escape nested_escape) d (fold_with arm_escape arms m)
  | _ => m
  end
with arm_escape (a : CaseArm) (m : escape_map) : escape_map :=
  match a with mkArm mt b _ => block_escape nested_escape b (block_escape nested_escape mt m) end.

Definition walk_block_for_escape : list Expr → escape_map → escape_map := block_escape nested_escape.
End Escape.

Definition variable_names (items : list Item) : list string :=
  omap (λ i, match i with IVariable v => Some (lowercase (v_name v)) | _ => None end) items.

(** The bodies of the items are their sequences, in the order of [item_seqs]. *)
Definition analyse_escape (items : list Item) : escape_map :=
  let var_names : gset string := list_to_set (variable_names items) in
  if decide (var_names = ∅) then ∅
  else fold_with (λ i m, fold_with (walk_block_for_escape var_names) (item_seqs i) m) items
         (gset_to_gmap Narrow var_names).

(** ** The build *)

Definition build_with_prior_state (n : Z) (program : Program) (prior_user_words : span_map)
    (prior_effects : effect_map) (prior_templates : template_map) (prior_values : span_map)
    (prior_classes : class_map) : result ResolveError Sema * Z :=
  let expanded := expand_templates_pre_resolve_with_prior program prior_templates in
  let '(lowered, n') := LowerQdup.lower_program expanded n in
  let '(bound, missing) := LowerRecurse.recurse_program lowered in
  match missing with
  | first :: _ =>
      (Err (RecurseNeedsEffect (LowerRecurse.mr_word_name first) (LowerRecurse.mr_at first)), n')
  | [] =>
      let class_slots := compute_class_slots bound prior_classes in
      (resolved ← resolve_with_prior_and_values_and_classes bound prior_user_words prior_values
                    class_slots;
       let items := exit_item (r_word_targets resolved) <$> p_items (r_program resolved) in
       let r := mkResolved (mkProgram items) (r_word_targets resolved) (r_user_words resolved) in
       let '(inferred, effect_errors) := infer_with_prior r prior_effects in
       let g := analyse_call_graph items in
       Ok {| s_program := mkProgram items; s_word_targets := r_word_targets resolved;
             s_user_words := build_user_words class_slots items;
             s_variables := table pick_variable items; s_constants := table pick_constant items;
             s_creates := table pick_create items; s_collections := table pick_collection items;
             s_templates := table pick_template items; s_values := table pick_value items;
             s_class_slots := class_slots;
             s_user_effects := fold_with (seed_class class_slots) items (in_user inferred);
             s_body_effects := in_body inferred; s_effect_errors := effect_errors;
             s_call_graph := gr_calls g; s_use_sites := gr_uses g;
             s_escape := analyse_escape items; s_docs := ∅ |}, n')
  end.

Definition build_with_prior_and_templates (n : Z) (program : Program) (prior_user_words : span_map)
    (prior_effects : effect_map) (prior_templates : template_map) : result ResolveError Sema * Z :=
  build_with_prior_state n program prior_user_words prior_effects prior_templates ∅ ∅.
Definition build_with_prior (n : Z) (program : Program) (prior_user_words : span_map)
    (prior_effects : effect_map) : result ResolveError Sema * Z :=
  build_with_prior_and_templates n program prior_user_words prior_effects ∅.
Definition build (n : Z) (program : Program) : result ResolveError Sema * Z :=
  build_with_prior n program ∅ ∅.
