(* ===== verification/Pipeline.v ===== *)
(** * From source text to targets

    The resolver keys its answers by span.  This file follows the references
    of one source through tokeniser, parser, template expansion, [?DUP] and
    [RECURSE] lowering, and shows that they start at distinct positions when
    they reach the resolver, so that each gets its own answer. *)
From stdpp Require Import strings gmap.
From S2P Require Import Prelude Bytes F64 Lex LexFacts LetLang Ast Classes Parse ParseFacts.
From S2P Require Import Resolve ResolveFacts Effect Sema.
From S2P Require LowerQdup LowerRecurse.

(** ** Token starts *)

Lemma tiles_starts src exact pre toks :
  tiles src exact pre toks → slen src < 2 ^ 32 →
  Forall (λ t, slen pre ≤ p_byte_offset (token_start t) < slen src) toks ∧ NoDup (token_start <$> toks).
Proof.
  intros Ht Hs. induction Ht as [exact pre ws E _|exact pre ws c t toks _ Hc [r E] Hsp _ _ _ IH];
    [by split; constructor|].
  destruct IH as [Hall Hnd]. destruct Hsp as [Hst _].
  assert (0 < slen c) as Hpos by (destruct c; [done|]; rewrite slen_cons; pose proof (slen_nonneg c); lia).
  assert (slen src = slen pre + slen ws + slen c + slen r) as Hlen.
  { rewrite E, !slen_app. lia. }
  pose proof (slen_nonneg pre). pose proof (slen_nonneg ws). pose proof (slen_nonneg r).
  assert (p_byte_offset (token_start t) = slen pre + slen ws) as Hoff.
  { unfold token_start. rewrite Hst, slen_app. apply u32_wrap_small. unfold is_u32. lia. }
  split.
  - constructor; [lia|]. eapply Forall_impl; [exact Hall|]. intros t' Ht'. cbn beta in *.
    rewrite !slen_app in Ht'. lia.
  - rewrite fmap_cons. apply NoDup_cons. split; [|done]. intros Hin.
    apply list_elem_of_fmap in Hin as (t' & Et & Hin). rewrite Forall_forall in Hall.
    specialize (Hall t' Hin). rewrite !slen_app, <- Et in Hall. lia.
Qed.

(** ** The sequences the resolver visits *)

Definition resolved_seqs (i : Item) : list (list Expr) :=
  match i with ITemplateInstance _ => [] | _ => item_seqs i end.
Definition visited (items : list Item) : list Pos :=
  flat_with ref_starts (flat_with resolved_seqs items).

Definition key_start (r : Ref) : list Pos :=
  match r with RefWord _ s => [sp_start s] | RefTo _ _ => [] end.

Lemma flat_with_fmap {A B C} (f : B → list C) (g : A → B) l :
  flat_with f (g <$> l) = flat_with (λ x, f (g x)) l.
Proof. induction l as [|x l IH]; cbn; [done|]. by rewrite IH. Qed.
Lemma fmap_flat_with {A B C} (f : A → list B) (g : B → C) l :
  g <$> flat_with f l = flat_with (λ x, g <$> f x) l.
Proof. induction l as [|x l IH]; cbn [flat_with]; [done|]. by rewrite fmap_app, IH. Qed.
Lemma flat_with_ext {A B} (f g : A → list B) l : (∀ x, f x = g x) → flat_with f l = flat_with g l.
Proof. intros H. induction l as [|x l IH]; cbn; [done|]. by rewrite H, IH. Qed.
Lemma flat_with_flat {A B C} (f : A → list B) (g : B → list C) l :
  flat_with g (flat_with f l) = flat_with (λ x, flat_with g (f x)) l.
Proof. induction l as [|x l IH]; cbn [flat_with]; [done|]. by rewrite flat_with_app, IH. Qed.

Lemma scope_key_starts ls : sp_start <$> flat_with ref_key (scope_refs ls) = ref_starts (snd ls).
Proof.
  destruct ls as [l seq]. unfold scope_refs, ref_starts. cbn [fst snd].
  rewrite fmap_flat_with, flat_with_fmap.
  rewrite (flat_with_ext _ key_start) by (by intros []).
  apply gather_seq_flat. by intros [].
Qed.

Lemma key_starts p : sp_start <$> ref_keys p = visited (p_items p).
Proof.
  unfold ref_keys, program_refs, visited. rewrite fmap_flat_with, !flat_with_flat.
  apply flat_with_ext. intros i. unfold item_refs. rewrite <- fmap_flat_with, flat_with_flat, fmap_flat_with.
  rewrite (flat_with_ext _ _ _ scope_key_starts).
  rewrite <- (flat_with_fmap ref_starts snd). f_equal. destruct i; try done. cbn. by destruct (k_value c).
Qed.

(** ** Template expansion drops references, and moves none *)

Lemma visited_app a b : visited (a ++ b) = visited a ++ visited b.
Proof. unfold visited. by rewrite !flat_with_app. Qed.
Lemma visited_cons i l : visited (i :: l) = visited [i] ++ visited l.
Proof. apply (visited_app [i]). Qed.
Lemma visited_top exprs sp : visited [ITopLevel exprs sp] = ref_starts exprs.
Proof. unfold visited. cbn. by rewrite app_nil_r. Qed.

Lemma flush_visited current out : visited (flush_current current out) = visited out ++ ref_starts current.
Proof.
  unfold flush_current. destruct current as [|e l]; [by rewrite app_nil_r|].
  destruct (last (e :: l)) eqn:El; [by rewrite visited_app, visited_top|].
  apply last_None in El. done.
Qed.

Lemma count_lit_split current c e rest : count_lit current = Some (c, e, rest) → rest `sublist_of` current.
Proof.
  unfold count_lit. destruct (last current) as [[[v sp| |]| | | | | | | | | | | |]|] eqn:El; try done.
  destruct (0 <=? v); [|done]. intros [= _ _ <-]. apply last_Some in El as [l' ->].
  rewrite removelast_last. by apply sublist_inserts_r.
Qed.

Lemma expand_go_visited templates current exprs out :
  visited (expand_go templates current exprs out) `sublist_of` visited out ++ ref_starts (current ++ exprs).
Proof.
  remember (length exprs) as k eqn:Ek. revert current exprs out Ek.
  induction k as [k IH] using lt_wf_ind. intros current exprs out ->.
  destruct exprs as [|e rest]; cbn [expand_go].
  { by rewrite flush_visited, app_nil_r. }
  assert (visited (expand_go templates (current ++ [e]) rest out)
          `sublist_of` visited out ++ ref_starts (current ++ e :: rest)) as Hplain.
  { pose proof (IH (length rest) ltac:(simpl; lia) (current ++ [e]) rest out eq_refl) as H.
    by rewrite <- app_assoc in H. }
  destruct (template_at templates e) as [tmpl|]; [|done].
  destruct (count_lit current) as [[[c ce] current']|] eqn:Ec; [|done].
  destruct rest as [|[|newname nsp| | | | | | | | | | |] rest']; try done.
  etransitivity; [eapply IH; [|done]; simpl; lia|].
  rewrite visited_app, flush_visited. change (visited [ITemplateInstance _]) with (@nil Pos).
  rewrite app_nil_r, <- app_assoc. apply sublist_app; [done|].
  unfold ref_starts. rewrite <- gather_seq_app. apply part_starts. apply sublist_app.
  - by eapply count_lit_split.
  - cbn [app]. by apply sublist_cons, sublist_cons.
Qed.

Lemma expand_visited p prior :
  visited (p_items (expand_templates_pre_resolve_with_prior p prior)) `sublist_of` visited (p_items p).
Proof.
  unfold expand_templates_pre_resolve_with_prior. destruct (decide _); [done|]. cbn [p_items].
  generalize (collect_templates (p_items p) prior). intros templates.
  assert (∀ items out, visited (fold_with (expand_item templates) items out)
            `sublist_of` visited out ++ visited items) as H.
  { induction items as [|i items IH]; intros out; [by rewrite app_nil_r|]. cbn [fold_with].
    etransitivity; [apply IH|]. rewrite (visited_cons i), app_assoc. apply sublist_app; [|done].
    destruct i; cbn [expand_item]; try (by rewrite visited_app).
    rewrite visited_top. apply (expand_go_visited templates []). }
  apply (H _ []).
Qed.

(** ** [?DUP] lowering keeps the starts apart *)

(** As [LowerQdup.fresh_post], for some of the sequences. *)
Definition fresh_sub (src out : list Pos) (n n' : Z) : Prop :=
  n' ≤ n ∧ ∃ kept synth,
    out ≡ₚ kept ++ synth ∧ kept ⊆+ src ∧ (p_byte_offset <$> synth) ⊆+ LowerQdup.countdown n n'.

Lemma fresh_sub_app a a' b b' n n1 n2 :
  fresh_sub a a' n n1 → fresh_sub b b' n1 n2 → fresh_sub (a ++ b) (a' ++ b') n n2.
Proof.
  intros (H1 & k1 & s1 & Ha & Hk1 & Ho1) (H2 & k2 & s2 & Hb & Hk2 & Ho2). split; [lia|].
  exists (k1 ++ k2), (s1 ++ s2). split; [|split].
  - rewrite Ha, Hb. solve_Permutation.
  - by apply submseteq_app.
  - rewrite fmap_app, (LowerQdup.countdown_app n n1 n2) by done. by apply submseteq_app.
Qed.

Lemma lower_item_visited i n :
  2 * Z.of_nat (sum_with seq_size (item_seqs i)) ≤ n < 2 ^ 32 →
  let '(i', n') := LowerQdup.lower_item i n in
  n - 2 * Z.of_nat (sum_with seq_size (item_seqs i)) ≤ n' ∧ fresh_sub (visited [i]) (visited [i']) n n'.
Proof.
  intros Hn. pose proof (LowerQdup.lower_item_seqs i n) as Hi.
  pose proof (LowerQdup.map_lower_spans (item_seqs i) n Hn) as Hf.
  destruct (LowerQdup.lower_item i n) as [i' n'] eqn:Ei. destruct Hi as [Hi _]. rewrite Hi in Hf.
  destruct Hf as [Hlow (Hle & kept & synth & Hp & Hk & Hs)]. cbn [fst snd] in *. split; [done|].
  split; [done|].
  destruct (decide (resolved_seqs i = [])) as [Er|Er].
  - exists [], []. assert (visited [i'] = []) as ->; [|split; [done|split; apply submseteq_nil_l]].
    destruct i; try (by simplify_eq/=); cbn in Ei;
      try (destruct t; cbn in Ei; repeat (destruct (LowerQdup.lower_seq _ _)); by simplify_eq/=).
    destruct c as [? ? [] ? ?]; simplify_eq/=; try done.
  - exists kept, synth. assert (visited [i'] = flat_with ref_starts (item_seqs i') ∧
      visited [i] = flat_with ref_starts (item_seqs i)) as [-> ->].
    { unfold visited. cbn [flat_with]. rewrite !app_nil_r.
      destruct i; try done; cbn in Ei;
        repeat (case_match; try done); by simplify_eq/=. }
    split; [done|]. split; [done|]. by rewrite Hs.
Qed.

Lemma lower_items_visited items n :
  2 * Z.of_nat (sum_with seq_size (flat_with item_seqs items)) ≤ n < 2 ^ 32 →
  let '(items', n') := map_state LowerQdup.lower_item items n in
  n - 2 * Z.of_nat (sum_with seq_size (flat_with item_seqs items)) ≤ n' ∧
  fresh_sub (visited items) (visited items') n n'.
Proof.
  revert n. induction items as [|i items IH]; intros n Hn.
  { split; [simpl; lia|]. split; [lia|]. exists [], []. repeat split; try done; apply submseteq_nil_l. }
  cbn [map_state flat_with] in *. rewrite sum_with_app in *.
  pose proof (lower_item_visited i n ltac:(lia)) as Hi.
  destruct (LowerQdup.lower_item i n) as [i' n1]. destruct Hi as [Hlow Hi]. pose proof (proj1 Hi).
  specialize (IH n1 ltac:(lia)). destruct (map_state _ items n1) as [items' n2]. destruct IH as [Hlow' IH].
  split; [lia|]. rewrite (visited_cons i), (visited_cons i'). by eapply fresh_sub_app.
Qed.

Lemma fresh_sub_NoDup src out n n' :
  fresh_sub src out n n' → NoDup src → Forall (λ s, p_byte_offset s ≤ n') src → NoDup out.
Proof.
  intros (Hle & kept & synth & -> & Hk & Hs) Hnd Hoff. apply NoDup_app. split; [|split].
  - apply submseteq_Permutation in Hk as [l Hl]. rewrite Hl in Hnd. by apply NoDup_app in Hnd as [? _].
  - intros s Hin Hin'. rewrite Forall_forall in Hoff.
    specialize (Hoff s (elem_of_submseteq _ _ _ Hin Hk)).
    assert (p_byte_offset s ∈ LowerQdup.countdown n n') as Hc%LowerQdup.elem_of_countdown; [|lia].
    eapply elem_of_submseteq; [|exact Hs]. by apply list_elem_of_fmap_2.
  - apply (NoDup_fmap_1 p_byte_offset). apply submseteq_Permutation in Hs as [l Hl].
    pose proof (LowerQdup.countdown_NoDup n n') as Hc. rewrite Hl in Hc. by apply NoDup_app in Hc as [? _].
Qed.

(** ** [RECURSE] lowering keeps every start *)

Lemma recurse_visited items missing :
  visited (fst (map_state LowerRecurse.recurse_item items missing)) = visited items.
Proof.
  revert missing. induction items as [|i items IH]; intros missing; [done|]. cbn [map_state].
  destruct (LowerRecurse.recurse_item i missing) as [i' m1] eqn:Ei. specialize (IH m1).
  destruct (map_state _ items m1) as [items' m2]. cbn [fst] in *.
  rewrite (visited_cons i), (visited_cons i'), IH. f_equal.
  destruct i as [d| | | | | | | | | | | | |]; cbn in Ei; simplify_eq/=; try done.
  unfold LowerRecurse.rewrite_def in Ei. rewrite LowerRecurse.rewrite_seq_eq in Ei. simplify_eq/=.
  unfold visited. cbn. by rewrite !app_nil_r, LowerRecurse.rename_seq_starts.
Qed.

(** ** The pipeline *)

(** The program as the resolver sees it. *)
Definition front_end (n : Z) (p : Program) (prior : template_map) : Program :=
  fst (LowerRecurse.recurse_program
         (fst (LowerQdup.lower_program (expand_templates_pre_resolve_with_prior p prior) n))).

Lemma within_starts toks ws k :
  within ws k toks → NoDup (token_start <$> toks) →
  NoDup ws ∧ ∀ s, s ∈ ws → s ∈ token_start <$> toks.
Proof.
  intros [Hs _] Hnd. split; [by eapply sublist_NoDup|].
  intros s Hin. eapply elem_of_submseteq; [exact Hin|]. by apply sublist_submseteq.
Qed.

Lemma resolved_seqs_sub items : flat_with resolved_seqs items `sublist_of` flat_with item_seqs items.
Proof.
  induction items as [|i items IH]; [done|]. cbn [flat_with]. apply sublist_app; [|done].
  destruct i; try done. apply sublist_nil_l.
Qed.
Lemma flat_with_sub {A B} (f : A → list B) a b :
  a `sublist_of` b → flat_with f a `sublist_of` flat_with f b.
Proof. induction 1; cbn [flat_with]; [done|by apply sublist_app|by apply sublist_inserts_l]. Qed.

Lemma front_end_starts src toks p n prior :
  lex src = Done toks → parse toks = Done p →
  let expanded := expand_templates_pre_resolve_with_prior p prior in
  slen src + 2 * Z.of_nat (sum_with seq_size (program_seqs expanded)) ≤ n < 2 ^ 32 →
  NoDup (ref_keys (front_end n p prior)).
Proof.
  intros Hlex Hparse expanded Hn. pose proof (lex_covers src) as Ht. rewrite Hlex in Ht.
  pose proof (slen_nonneg src).
  destruct (tiles_starts _ _ _ _ Ht ltac:(lia)) as [Hoff Hnd].
  pose proof (parse_within toks) as Hp. rewrite Hparse in Hp.
  destruct (within_starts _ _ _ Hp Hnd) as [Hws Hin].
  assert (visited (p_items expanded) `sublist_of` seqs_starts (program_seqs p)) as Hsub.
  { etransitivity; [apply expand_visited|]. apply flat_with_sub, resolved_seqs_sub. }
  apply (NoDup_fmap_1 sp_start). rewrite key_starts. unfold front_end. fold expanded.
  destruct (LowerQdup.lower_program expanded n) as [[items'] n'] eqn:El. cbn [fst].
  unfold LowerRecurse.recurse_program. cbn [p_items].
  pose proof (recurse_visited items' []) as Hr.
  destruct (map_state LowerRecurse.recurse_item items' []) as [items2 m]. cbn [fst p_items] in *. rewrite Hr.
  pose proof (lower_items_visited (p_items expanded) n) as Hl. unfold LowerQdup.lower_program in El.
  destruct (map_state LowerQdup.lower_item (p_items expanded) n) as [items1 n1]. simplify_eq.
  destruct Hl as [Hlow Hf]; [unfold program_seqs in Hn; lia|].
  eapply fresh_sub_NoDup; [exact Hf|by eapply sublist_NoDup|].
  apply Forall_forall. intros s Hs. eapply elem_of_submseteq in Hs; [|by apply sublist_submseteq].
  apply Hin in Hs. apply list_elem_of_fmap in Hs as (t & -> & Ht'). rewrite Forall_forall in Hoff.
  specialize (Hoff t Ht'). unfold program_seqs in Hn. lia.
Qed.

Lemma build_ok n n' p prior_words prior_effects prior_templates prior_values prior_classes sema :
  build_with_prior_state n p prior_words prior_effects prior_templates prior_values prior_classes =
    (Ok sema, n') →
  let bound := front_end n p prior_templates in
  let cs := compute_class_slots bound prior_classes in
  ∃ r, resolve_with_prior_and_values_and_classes bound prior_words prior_values cs = Ok r ∧
    r_user_words r = key_map (program_names cs bound) ∧
    let items := exit_item (r_word_targets r) <$> p_items bound in
    s_program sema = mkProgram items ∧ s_word_targets sema = r_word_targets r ∧
    s_class_slots sema = cs ∧ s_user_words sema = build_user_words cs items ∧
    s_call_graph sema = gr_calls (analyse_call_graph items) ∧
    s_use_sites sema = gr_uses (analyse_call_graph items) ∧
    s_escape sema = analyse_escape items.
Proof.
  unfold build_with_prior_state, front_end.
  destruct (LowerQdup.lower_program _ n) as [lowered n1]. cbn [fst].
  destruct (LowerRecurse.recurse_program lowered) as [bound missing]. cbn [fst].
  destruct missing as [|m missing]; [|done].
  set (cs := compute_class_slots bound prior_classes).
  destruct (resolve_spec bound prior_words prior_values cs)
    as [(e & _ & E)|[_ [(pre & lr & post & e & _ & _ & _ & E)|[_ E]]]]; rewrite E; try done.
  cbn [mbind result_bind r_program r_word_targets]. destruct (infer_with_prior _ _) as [inferred errs].
  intros [= <- _]. eexists. split; [done|]. by repeat split.
Qed.

(** C1: the targets of a compile are the meanings of its source.  When a text
    is tokenised, parsed and built into a model, every reference the resolver
    met, those made up by the [?DUP] pass included, has in the model's target
    map exactly the target its name means in its scope, and the map holds no
    other keys; for texts that leave the span counter room for two made-up
    spans per node. *)
Theorem build_targets (src : string) (toks : list Token) (p : Program) (n n' : Z)
    (prior_words prior_values : span_map) (prior_effects : gmap string Effect)
    (prior_templates : gmap string TemplateDef) (prior_classes : class_map) (sema : Sema)
    (Hlex : lex src = Done toks) (Hparse : parse toks = Done p)
    (Hroom : slen src + 2 * Z.of_nat (sum_with seq_size (program_seqs
               (expand_templates_pre_resolve_with_prior p prior_templates))) ≤ n < 2 ^ 32)
    (Hbuild : build_with_prior_state n p prior_words prior_effects prior_templates prior_values
                prior_classes = (Ok sema, n')) :
  let bound := front_end n p prior_templates in
  let words := shadow prior_words (key_map (program_names (s_class_slots sema) bound)) in
  (∀ l name s, (l, RefWord name s) ∈ program_refs bound →
     ∃ t, name_target builtin_table words l name = Some t ∧ s_word_targets sema !! s = Some t) ∧
  (∀ s, is_Some (s_word_targets sema !! s) → s ∈ ref_keys bound).
Proof.
  intros bound words.
  pose proof (front_end_starts _ _ _ n prior_templates Hlex Hparse Hroom) as Hnd.
  destruct (build_ok _ _ _ _ _ _ _ _ _ Hbuild) as (r & Er & Ew & _ & Et & Ec & _).
  destruct (accepted_targets _ _ _ _ _ Er Hnd) as (_ & _ & Ht & Hd).
  unfold words, bound in *. rewrite Ec, Et, <- Ew. by split.
Qed.

(** [?dup if], a local that shadows nothing, a user word and built-in ones. *)
Definition sample_text : string := ": sq {: n :} N n * ; : f ( n -- n ) ?dup if sq then ; 5 F .".
Definition sample_toks : list Token := match lex sample_text with Done t => t | _ => [] end.
Definition sample_parsed : Program := match parse sample_toks with Done p => p | _ => mkProgram [] end.
Definition sample_build : result ResolveError Sema * Z :=
  build_with_prior_state LowerQdup.synth_start sample_parsed ∅ ∅ ∅ ∅ ∅.
Definition empty_sema : Sema := mkSema (mkProgram []) ∅ ∅ ∅ ∅ ∅ ∅ ∅ ∅ ∅ ∅ ∅ [] ∅ ∅ ∅ ∅.
Definition sample_sema : Sema := match fst sample_build with Ok s => s | Err _ => empty_sema end.

Lemma build_targets_witness :
  (∀ s, is_Some (s_word_targets sample_sema !! s) →
        s ∈ ref_keys (front_end LowerQdup.synth_start sample_parsed ∅)) ∧
  size (s_word_targets sample_sema) = 8%nat.
Proof.
  split; [|vm_compute; reflexivity].
  apply (build_targets sample_text sample_toks sample_parsed LowerQdup.synth_start (snd sample_build)
           ∅ ∅ ∅ ∅ ∅ sample_sema).
  - vm_compute. reflexivity.
  - vm_compute. reflexivity.
  - vm_compute. split; [discriminate|reflexivity].
  - vm_compute. reflexivity.
Defined.
