(* ===== verification/SemaFacts.v ===== *)
(** * What the model's tables hold *)
From stdpp Require Import strings gmap.
From S2P Require Import Prelude Bytes F64 Lex LetLang Ast Classes Parse Resolve.
From S2P Require Import ResolveFacts Effect Sema Pipeline.

(** ** Tree folds that visit the nodes in order *)

Section TreeFold.
Context {B S : Type} (node : Expr → list B) (step : B → S → S).
Context (f : Expr → S → S) (fa : CaseArm → S → S).
Context (Hleaf : ∀ e s, match e with
  | If _ _ _ | BeginUntil _ _ | BeginWhileRepeat _ _ _ | BeginAgain _ _ | DoLoop _ _ _ _ | Case _ _ _ =>
      node e = []
  | _ => f e s = fold_with step (node e) s
  end).
Context (Hif : ∀ t el sp s, f (If t el sp) s = opt_with (fold_with f) el (fold_with f t s)).
Context (Huntil : ∀ b sp s, f (BeginUntil b sp) s = fold_with f b s).
Context (Hagain : ∀ b sp s, f (BeginAgain b sp) s = fold_with f b s).
Context (Hdo : ∀ q b k sp s, f (DoLoop q b k sp) s = fold_with f b s).
Context (Hwhile : ∀ p b sp s, f (BeginWhileRepeat p b sp) s = fold_with f b (fold_with f p s)).
Context (Hcase : ∀ arms d sp s, f (Case arms d sp) s = opt_with (fold_with f) d (fold_with fa arms s)).
Context (Harm : ∀ m b sp s, fa (mkArm m b sp) s = fold_with f b (fold_with f m s)).
#[local] Set Default Proof Using "All".

Notation folds e := (∀ s, f e s = fold_with step (gather node e) s).

Lemma fold_list l s :
  Forall (λ e, folds e) l → fold_with f l s = fold_with step (gather_seq node l) s.
Proof.
  intros Hl. revert s. induction Hl as [|e l He _ IH]; intros s; [done|].
  cbn [fold_with]. by rewrite gather_seq_cons, fold_with_app, He, IH.
Qed.
Lemma fold_opt o s :
  (∀ b, o = Some b → Forall (λ e, folds e) b) →
  opt_with (fold_with f) o s = fold_with step (opt_flat (gather_seq node) o) s.
Proof. intros Ho. destruct o; [|done]. by apply fold_list, Ho. Qed.
Lemma fold_arms arms s :
  Forall (λ a, Forall (λ e, folds e) (arm_match a) ∧ Forall (λ e, folds e) (arm_body a)) arms →
  fold_with fa arms s = fold_with step (flat_with (gather_arm node) arms) s.
Proof.
  intros Ha. revert s. induction Ha as [|[m b sp] arms [Hm Hb] _ IH]; intros s; [done|].
  cbn [fold_with flat_with arm_match arm_body] in *.
  by rewrite gather_arm_eq, !fold_with_app, Harm, !fold_list, IH.
Qed.

Lemma tree_fold e : folds e.
Proof.
  induction e using Expr_nested_ind; intros st;
    match goal with |- f ?e st = _ => pose proof (Hleaf e st) as Hn; cbn beta iota in Hn end;
    try (by rewrite Hn; cbn [gather]; rewrite app_nil_r);
    autorewrite with ast; rewrite Hn; cbn [app]; rewrite ?fold_with_app.
  - by rewrite Hif, fold_opt, fold_list.
  - by rewrite Huntil, fold_list.
  - by rewrite Hwhile, !fold_list.
  - by rewrite Hagain, fold_list.
  - by rewrite Hdo, fold_list.
  - by rewrite Hcase, fold_opt, fold_arms.
Qed.

Lemma tree_fold_seq l s : fold_with f l s = fold_with step (gather_seq node l) s.
Proof. apply fold_list, Forall_forall. intros e _. apply tree_fold. Qed.
End TreeFold.

(** ** Call graph and use sites *)

(** A mention of a name: whether it is a call, the name, the place. *)
Record Mention := mkMention { mn_call : bool; mn_name : string; mn_span : Span }.
Definition mention (e : Expr) : list Mention :=
  match e with
  | WordRef n s | Tick n s | To n s => [mkMention true (lowercase n) s]
  | See n s => [mkMention false (lowercase n) s]
  | _ => []
  end.

(** The bodies of an item, with the caller its calls are booked to. *)
Definition item_bodies (i : Item) : list (option string * list Expr) :=
  match i with
  | IDefinition d => [(Some (lowercase (d_name d)), d_body d)]
  | ITopLevel exprs _ => [(None, exprs)]
  | IConstant c => match k_value c with Computed e => [(None, e)] | _ => [] end
  | IValue v => [(None, va_initial v)]
  | ITemplate t => [(Some (lowercase (t_name t)), t_constructor t); (Some (lowercase (t_name t)), t_does t)]
  | ITemplateInstance t => [(Some (lowercase (ti_name t)), ti_does t)]
  | IMethod m => [(Some (lowercase (m_generic m)), m_body m)]
  | _ => []
  end.
Definition body_mentions (cb : option string * list Expr) : list (option string * Mention) :=
  (λ u, (fst cb, u)) <$> gather_seq mention (snd cb).
Definition mentions (items : list Item) : list (option string * Mention) :=
  flat_with body_mentions (flat_with item_bodies items).

Definition graph_step (cu : option string * Mention) (g : Graph) : Graph :=
  let g1 := add_use (mn_name (snd cu)) (mn_span (snd cu)) g in
  if mn_call (snd cu) then add_call (fst cu) (mn_name (snd cu)) g1 else g1.

Lemma walk_body caller l g :
  walk_body_for_refs caller l g = fold_with graph_step (body_mentions (caller, l)) g.
Proof.
  unfold walk_body_for_refs, body_mentions. cbn [fst snd].
  assert (∀ us g, fold_with graph_step ((λ u, (caller, u)) <$> us) g =
                  fold_with (λ u, graph_step (caller, u)) us g) as ->.
  { intros us. induction us as [|u us IH]; intros g'; [done|]. cbn. apply IH. }
  apply (tree_fold_seq _ _ _ (walk_arm caller)); try done. intros [[]| | | | | | | | | | | |]; done.
Qed.

Lemma walk_item_mentions i g :
  walk_item i g = fold_with graph_step (flat_with body_mentions (item_bodies i)) g.
Proof.
  destruct i; cbn [walk_item item_bodies flat_with]; try done;
    try (by rewrite app_nil_r, walk_body).
  - destruct (k_value c); [done|done|]. cbn [flat_with]. by rewrite app_nil_r, walk_body.
  - by rewrite app_nil_r, fold_with_app, !walk_body.
Qed.

Lemma analyse_mentions items :
  analyse_call_graph items = fold_with graph_step (mentions items) (mkGraph ∅ ∅).
Proof.
  unfold analyse_call_graph, mentions. generalize (mkGraph ∅ ∅).
  induction items as [|i items IH]; intros g; [done|]. cbn [fold_with flat_with].
  by rewrite flat_with_app, fold_with_app, IH, walk_item_mentions.
Qed.

Definition spans_of (n : string) (us : list (option string * Mention)) : list Span :=
  flat_with (λ cu, if decide (mn_name (snd cu) = n) then [mn_span (snd cu)] else []) us.

Lemma uses_fold us g n :
  default [] (gr_uses (fold_with graph_step us g) !! n) = default [] (gr_uses g !! n) ++ spans_of n us.
Proof.
  revert g. induction us as [|[c [b m s]] us IH]; intros g; [by rewrite app_nil_r|].
  cbn [fold_with]. rewrite IH. unfold spans_of at 2. cbn [flat_with snd mn_name mn_span].
  fold (spans_of n us). rewrite app_assoc. f_equal. unfold graph_step. cbn [fst snd mn_call mn_name mn_span].
  assert (gr_uses (if b then add_call c m (add_use m s g) else add_use m s g) = gr_uses (add_use m s g))
    as -> by (destruct b, c; done).
  cbn [add_use gr_uses]. destruct (decide (m = n)) as [->|Hne].
  - by rewrite lookup_insert_eq.
  - by rewrite lookup_insert_ne, app_nil_r.
Qed.

Lemma calls_fold us g c f :
  f ∈ default ∅ (gr_calls (fold_with graph_step us g) !! c) ↔
  f ∈ default ∅ (gr_calls g !! c) ∨ ∃ s, (Some c, mkMention true f s) ∈ us.
Proof.
  revert g. induction us as [|[c' [b m s]] us IH]; intros g; cbn [fold_with].
  { split; [by left|]. intros [?|[s ?%elem_of_nil]]; done. }
  rewrite IH. setoid_rewrite elem_of_cons.
  assert (f ∈ default ∅ (gr_calls (graph_step (c', mkMention b m s) g) !! c) ↔
          f ∈ default ∅ (gr_calls g !! c) ∨ (c' = Some c ∧ b = true ∧ m = f)) as ->.
  { unfold graph_step. cbn [fst snd mn_call mn_name mn_span]. destruct b; cbn; [|naive_solver].
    destruct c' as [c'|]; cbn; [|naive_solver]. destruct (decide (c' = c)) as [->|Hne].
    - rewrite lookup_insert_eq. cbn. rewrite elem_of_union, elem_of_singleton. naive_solver.
    - rewrite lookup_insert_ne by done. naive_solver. }
  split.
  - intros [[?|(-> & -> & ->)]|[s' ?]]; eauto.
  - intros [?|[s' [[= <- <- <- <-]|?]]]; eauto.
Qed.

(** The model's graph is what the program says: the use sites of a name are
    the places that mention it — as a word, ticked, as the target of [TO] or of
    [SEE] — in program order, and a caller's callees are the names its bodies
    mention, [SEE] apart. *)
Theorem call_graph_spec (items : list Item) :
  let g := analyse_call_graph items in
  (∀ n, default [] (gr_uses g !! n) = spans_of n (mentions items)) ∧
  (∀ c f, f ∈ default ∅ (gr_calls g !! c) ↔ ∃ s, (Some c, mkMention true f s) ∈ mentions items).
Proof.
  intros g. unfold g. rewrite analyse_mentions. split.
  - intros n. rewrite uses_fold. cbn. by rewrite lookup_empty.
  - intros c f. rewrite calls_fold. cbn. rewrite lookup_empty. cbn. split; [|by right].
    by intros [?%not_elem_of_empty|?].
Qed.

(** ** Escape analysis *)

(** A reference by name, its place, and whether the expression behind it in
    its block is a sink. *)
Record Use := mkUse { us_name : string; us_span : Span; us_sunk : bool }.
Definition own_use (e : Expr) (next : option Expr) : list Use :=
  match e with
  | WordRef n s => [mkUse (lowercase n) s (match next with Some x => is_sink x | None => false end)]
  | _ => []
  end.
Definition block_uses (f : Expr → list Use) : list Expr → list Use :=
  fix go l := match l with [] => [] | e :: l' => f e ++ own_use e (head l') ++ go l' end.
Fixpoint nested_uses (e : Expr) : list Use :=
  match e with
  | If t el _ => block_uses nested_uses t ++ opt_flat (block_uses nested_uses) el
  | BeginUntil b _ | BeginAgain b _ | DoLoop _ b _ _ => block_uses nested_uses b
  | BeginWhileRepeat p b _ => block_uses nested_uses p ++ block_uses nested_uses b
  | Case arms d _ => flat_with arm_uses arms ++ opt_flat (block_uses nested_uses) d
  | _ => []
  end
with arm_uses (a : CaseArm) : list Use :=
  match a with mkArm m b _ => block_uses nested_uses m ++ block_uses nested_uses b end.
Definition uses (l : list Expr) : list Use := block_uses nested_uses l.

Section EscapeWalk.
Context (vars : gset string).

Definition use_step (u : Use) (m : escape_map) : escape_map :=
  if decide (us_name u ∈ vars) then
    if us_sunk u then m
    else match m !! us_name u with
         | Some (Wide _ _) => m
         | _ => <[us_name u := Wide UnknownSink (us_span u)]> m
         end
  else m.

Lemma check_use_own e next m : check_use vars e next m = fold_with use_step (own_use e next) m.
Proof. by destruct e. Qed.

Notation walks e := (∀ m, nested_escape vars e m = fold_with use_step (nested_uses e) m).

Lemma escape_block l m :
  Forall (λ e, walks e) l →
  block_escape vars (nested_escape vars) l m = fold_with use_step (uses l) m.
Proof.
  intros Hl. revert m. induction Hl as [|e l He _ IH]; intros m; [done|].
  cbn [block_escape]. unfold uses. cbn [block_uses].
  by rewrite IH, check_use_own, He, !fold_with_app.
Qed.
Lemma escape_opt o m :
  (∀ b, o = Some b → Forall (λ e, walks e) b) →
  opt_with (block_escape vars (nested_escape vars)) o m = fold_with use_step (opt_flat uses o) m.
Proof. destruct o; [|done]. intros Ho. by apply escape_block, Ho. Qed.
Lemma escape_arms arms m :
  Forall (λ a, Forall (λ e, walks e) (arm_match a) ∧ Forall (λ e, walks e) (arm_body a)) arms →
  fold_with (arm_escape vars) arms m = fold_with use_step (flat_with arm_uses arms) m.
Proof.
  intros Ha. revert m. induction Ha as [|[mt b sp] arms [Hm Hb] _ IH]; intros m; [done|].
  cbn [fold_with flat_with arm_match arm_body] in *.
  change (arm_uses (mkArm mt b sp)) with (uses mt ++ uses b). rewrite !fold_with_app, IH. f_equal.
  change (arm_escape vars (mkArm mt b sp) m) with
    (block_escape vars (nested_escape vars) b (block_escape vars (nested_escape vars) mt m)).
  by rewrite !escape_block.
Qed.

Lemma nested_escape_walk e : walks e.
Proof.
  induction e using Expr_nested_ind; intros m; try done.
  - change (nested_uses (If t e s)) with (uses t ++ opt_flat uses e).
    rewrite fold_with_app, <- escape_opt, <- escape_block; done.
  - by apply escape_block.
  - change (nested_uses (BeginWhileRepeat p b s)) with (uses p ++ uses b).
    rewrite fold_with_app, <- !escape_block; done.
  - by apply escape_block.
  - by apply escape_block.
  - change (nested_uses (Case arms d s)) with (flat_with arm_uses arms ++ opt_flat uses d).
    rewrite fold_with_app, <- escape_opt, <- escape_arms; done.
Qed.

Lemma walk_block_uses l m : walk_block_for_escape vars l m = fold_with use_step (uses l) m.
Proof. apply escape_block, Forall_forall. intros e _. apply nested_escape_walk. Qed.

Lemma walk_items_uses items m :
  fold_with (λ i m, fold_with (walk_block_for_escape vars) (item_seqs i) m) items m =
  fold_with use_step (flat_with uses (flat_with item_seqs items)) m.
Proof.
  assert (∀ ls m, fold_with (walk_block_for_escape vars) ls m = fold_with use_step (flat_with uses ls) m)
    as Hls.
  { intros ls. induction ls as [|l ls IH]; intros m'; [done|]. cbn [fold_with flat_with].
    by rewrite IH, walk_block_uses, fold_with_app. }
  revert m. induction items as [|i items IH]; intros m; [done|]. cbn [fold_with flat_with].
  by rewrite IH, Hls, flat_with_app, fold_with_app.
Qed.

(** The state the uses of a variable give it: that of the first that escapes. *)
Definition escape_of (v : string) (us : list Use) : EscapeState :=
  match filter (λ u, us_name u = v ∧ us_sunk u = false) us with
  | u :: _ => Wide UnknownSink (us_span u)
  | [] => Narrow
  end.

Lemma uses_escape us m v :
  v ∈ vars → m !! v = Some Narrow → fold_with use_step us m !! v = Some (escape_of v us).
Proof.
  intros Hv. assert (∀ us m r a, m !! v = Some (Wide r a) → fold_with use_step us m !! v = Some (Wide r a))
    as Hwide.
  { intros us'. induction us' as [|u us' IH]; intros m' r a Hm; [done|]. cbn [fold_with]. apply IH.
    unfold use_step. destruct (decide _); [|done]. destruct (us_sunk u); [done|].
    destruct (decide (us_name u = v)) as [->|Hne]; [by rewrite Hm|].
    destruct (m' !! us_name u) as [[]|]; rewrite ?lookup_insert_ne; done. }
  revert m. induction us as [|u us IH]; intros m Hm; [done|]. cbn [fold_with].
  unfold escape_of. destruct (decide (us_name u = v ∧ us_sunk u = false)) as [[Hn Hs]|Hno].
  - rewrite filter_cons_True by done. apply Hwide. unfold use_step. rewrite Hn, Hs, Hm.
    rewrite decide_True by done. by rewrite lookup_insert_eq.
  - rewrite filter_cons_False by done. apply IH. unfold use_step. destruct (decide _); [|done].
    destruct (us_sunk u) eqn:Hs; [done|]. assert (us_name u ≠ v) by naive_solver.
    destruct (m !! us_name u) as [[]|]; rewrite ?lookup_insert_ne; done.
Qed.

Lemma uses_other us m v : v ∉ vars → fold_with use_step us m !! v = m !! v.
Proof.
  intros Hv. revert m. induction us as [|u us IH]; intros m; [done|]. cbn [fold_with]. rewrite IH.
  unfold use_step. destruct (decide _); [|done]. destruct (us_sunk u); [done|].
  assert (us_name u ≠ v) by naive_solver. destruct (m !! us_name u) as [[]|]; rewrite ?lookup_insert_ne; done.
Qed.
End EscapeWalk.

(** A variable is narrow exactly when every reference to it, at any depth of
    any body, is followed in its own block by a fetch or a store; otherwise the
    state names the first reference that is not.  Ticked references do not
    count. *)
Theorem escape_spec (items : list Item) (v : string) :
  analyse_escape items !! v =
  if decide (v ∈ variable_names items)
  then Some (escape_of v (flat_with uses (flat_with item_seqs items))) else None.
Proof.
  unfold analyse_escape. set (vars := list_to_set (variable_names items) : gset string).
  assert (v ∈ vars ↔ v ∈ variable_names items) as Hv by (unfold vars; by rewrite elem_of_list_to_set).
  destruct (decide (vars = ∅)) as [E|_].
  { rewrite lookup_empty. rewrite decide_False; [done|]. rewrite <- Hv, E. by apply not_elem_of_empty. }
  rewrite walk_items_uses. destruct (decide (v ∈ variable_names items)) as [Hin|Hin].
  - apply uses_escape; [by apply Hv|]. apply lookup_gset_to_gmap_Some. by split; [apply Hv|].
  - rewrite uses_other by (by rewrite Hv). apply lookup_gset_to_gmap_None. by rewrite Hv.
Qed.
