(* ===== verification/Emit.v ===== *)
(** * The emitter ([src/compiler/emit.rs])

    Writes a semantic model out as Factor source.  The two process-wide
    counters behind the names the emitter makes up are threaded as a state. *)
From stdpp Require Import strings gmap.
From Stdlib Require Import SpecFloat.
From S2P Require Import Prelude Bytes F64 Lex LetLang Ast Classes Resolve Effect.
From S2P Require Import LetCode Sema.
From S2P Require LowerExit.

(** ** Names the emitter makes up *)

(** [DISCARD_COUNTER] and [METHOD_HELPER_COUNTER]. *)
Record Fresh := mkFresh { fr_discard : Z; fr_helper : Z }.

Definition next_discard_name (f : Fresh) : string * Fresh :=
  let n := u64_wrap (fr_discard f + 1) in ("_d" +:+ pretty n, mkFresh n (fr_helper f)).
Definition next_method_helper_name (gname_lc : string) (f : Fresh) : string * Fresh :=
  let n := u64_wrap (fr_helper f + 1) in
  (factor_user_name gname_lc +:+ "-mh" +:+ pretty n, mkFresh (fr_discard f) n).

(** A local where it is bound: [_] becomes a name of its own, dots are no
    characters of a Factor local. *)
Definition undot (n : string) : string := replace_byte "." "_" n.
Definition local_name (l : LocalDecl) (f : Fresh) : string * Fresh :=
  if bool_decide (ld_name l = "_") then next_discard_name f
  else (undot (lowercase (ld_name l)), f).

(** The text of each element, with the counters threaded through. *)
Definition text_state {A S} (g : A → S → string * S) : list A → S → string * S :=
  fix go l s :=
    match l with
    | [] => ("", s)
    | x :: l' => let '(t, s1) := g x s in let '(t', s2) := go l' s1 in (t +:+ t', s2)
    end.

(** Names a Factor effect can have. *)
Definition sanitize (name : string) : string :=
  if bool_decide (name = "...") then "_dots_" else undot name.

(** ** Literals *)

Definition dquote : string := String "034" "".

(** [factor_escape]. *)
Fixpoint factor_escape (s : string) : string :=
  match s with
  | EmptyString => ""
  | String c r =>
      (if (c =? "\")%char then "\\"
       else if (c =? "034")%char then "\" +:+ dquote
       else if (c =? "010")%char then "\n"
       else if (c =? "013")%char then "\r"
       else if (c =? "009")%char then "\t"
       else String c "") +:+ factor_escape r
  end.
Definition quoted_text (s : string) : string := dquote +:+ s +:+ dquote.

Definition float_text (v : f64) : string :=
  if f64_is_integer v && f64_is_finite v then f64_fixed1 v else f64_display v.

Definition emit_literal (l : Literal) : string :=
  match l with
  | LitInt v _ => pretty v
  | LitFloat v _ => float_text v
  | LitStr v kind _ =>
      quoted_text (factor_escape v) +:+
      match kind with
      | DotQuote => " forth.runtime:print-string"
      | SQuote => " forth.runtime:s-quote-runtime"
      | SDollarQuote | CQuote => ""
      end
  end.

Definition value_storage_name (name_lc : string) : string := "nf-value-" +:+ name_lc.

(** ** [SEE] *)

Definition letter (i : N) : string :=
  if (i <? 26)%N then String (byte_of (97 + Z.of_N i)) ""
  else "x" +:+ pretty (i - 26)%N.
Definition render_effect_counts (inputs outputs : N) : string :=
  "( " +:+ text_with (λ i, letter (N.of_nat i) +:+ " ") (seq 0 (N.to_nat inputs)) +:+ "-- " +:+
  text_with (λ o, letter (n32_add inputs (N.of_nat o)) +:+ " ") (seq 0 (N.to_nat outputs)) +:+ ")".

(** [str::lines]. *)
Definition drop_cr (s : string) : string :=
  match last_byte s with Some "013"%char => drop_last s | _ => s end.
Fixpoint lines_go (cur : string) (s : string) : list string :=
  match s with
  | EmptyString => if bool_decide (cur = "") then [] else [cur]
  | String c r =>
      if (c =? "010")%char then drop_cr cur :: lines_go "" r else lines_go (cur +:+ String c "") r
  end.
Definition lines (s : string) : list string := lines_go "" s.

Definition nl : string := String "010" "".
Definition unless_empty (s : string) (t : string) : string := if bool_decide (s = "") then "" else t.

Definition doc_report (name : string) (doc : WordDoc) : string :=
  name +:+ "   " +:+ wd_kind doc +:+ unless_empty (wd_effect doc) ("   " +:+ wd_effect doc) +:+ nl +:+
  unless_empty (wd_detail doc) ("  " +:+ wd_detail doc +:+ nl) +:+
  unless_empty (wd_source doc)
    ("  source:" +:+ nl +:+ text_with (λ l, "    " +:+ l +:+ nl) (lines (wd_source doc))).

Definition builtin_report (name : string) : string :=
  let lc := lowercase name in
  match builtin_table !! lc with
  | Some _ =>
      name +:+ "   builtin (core word)" +:+
      match builtin_effects !! lc with
      | Some (Known i o) => "   " +:+ render_effect_counts i o
      | _ => ""
      end +:+ nl
  | None => name +:+ "   (unknown word — not defined this session)" +:+ nl
  end.

Definition see_report (docs : gmap string WordDoc) (name : string) : string :=
  match docs !! lowercase name with Some doc => doc_report name doc | None => builtin_report name end.

(** The escaping of a report: three replacements, one after the other. *)
Definition escape_report (s : string) : string :=
  replace_byte "010" "\n" (replace_byte "034" ("\" +:+ dquote) (replace_byte "\" "\\" s)).

Definition emit_see (docs : gmap string WordDoc) (name : string) : string :=
  quoted_text (escape_report (see_report docs name)) +:+ " forth.runtime:print-string".

(** ** Expressions *)

Section Exprs.
Context (r : Sema).

Definition target_text (name : string) (span : Span) : string :=
  match s_word_targets r !! span with Some t => to_factor_token t | None => name end.

Definition is_narrow (name_lc : string) : bool :=
  match s_escape r !! name_lc with Some Narrow => true | _ => false end.

(** [try_emit_narrow_sink]: the access of a narrow variable and its sink as
    one access of a Factor global. *)
Definition narrow_sink (cur next : Expr) : option string :=
  match cur, next with
  | WordRef var_name _, WordRef next_name _ =>
      let var_lc := lowercase var_name in
      if is_narrow var_lc then
        let next_lc := lowercase next_name in
        let n := factor_user_name var_lc in
        if bool_decide (next_lc = "@") || bool_decide (next_lc = "c@") then Some (n +:+ " get-global")
        else if bool_decide (next_lc = "!") || bool_decide (next_lc = "c!")
        then Some (n +:+ " set-global")
        else if bool_decide (next_lc = "+!")
        then Some (n +:+ " get-global + " +:+ n +:+ " set-global")
        else None
      else None
  | _, _ => None
  end.

Definition gap {A} (l : list A) : string := match l with [] => "" | _ => " " end.

(** [emit_exprs], for the text [g] of one expression. *)
Definition emit_seq_with (g : Expr → Fresh → string * Fresh) : list Expr → Fresh → string * Fresh :=
  fix go l f :=
    match l with
    | [] => ("", f)
    | e :: l1 =>
        let one := let '(t, f1) := g e f in let '(t', f2) := go l1 f1 in (t +:+ gap l1 +:+ t', f2) in
        match l1 with
        | e2 :: l2 =>
            match narrow_sink e e2 with
            | Some t => let '(t', f1) := go l2 f in (t +:+ gap l2 +:+ t', f1)
            | None => one
            end
        | [] => one
        end
    end.

(** [emit_case_chain], for the texts of an arm and of the chain's end. *)
Definition case_chain (arm : CaseArm → Fresh → (string * string) * Fresh)
    (last_text : Fresh → string * Fresh) : list CaseArm → Fresh → string * Fresh :=
  fix go arms f :=
    match arms with
    | [] => last_text f
    | head :: tail =>
        let '((m, b), f1) := arm head f in
        let '(rest, f2) := go tail f1 in
        ("dup " +:+ m +:+ " = [ drop " +:+ b +:+ " ] [ " +:+ rest +:+ " ] kernel:if", f2)
    end.

Definition emit_locals (names : list LocalDecl) : Fresh → string * Fresh :=
  text_state (λ l f, let '(n, f1) := local_name l f in (":> " +:+ n +:+ " ", f1)) (rev names).

Definition emit_let (form : LetForm) : string :=
  match lower_to_factor form (s_class_slots r) with
  | Ok ir => ir
  | Err e =>
      quoted_text ("LET codegen error: " +:+ replace_byte "034" ("\" +:+ dquote) (replace_byte "\" "\\" e)) +:+
      " forth.runtime:print-string"
  end.

Fixpoint emit_expr (e : Expr) (f : Fresh) : string * Fresh :=
  match e with
  | Lit l => (emit_literal l, f)
  | WordRef name span => (target_text name span, f)
  | If t None _ =>
      let '(thn, f1) := emit_seq_with emit_expr t f in
      ("math:zero? [ " +:+ thn +:+ " ] kernel:unless", f1)
  | If t (Some eb) _ =>
      let '(et, f1) := emit_seq_with emit_expr eb f in
      let '(thn, f2) := emit_seq_with emit_expr t f1 in
      ("math:zero? [ " +:+ et +:+ " ] [ " +:+ thn +:+ " ] kernel:if", f2)
  | BeginUntil b _ =>
      let '(bt, f1) := emit_seq_with emit_expr b f in
      ("[ " +:+ bt +:+ " math:zero? ] kernel:loop", f1)
  | BeginWhileRepeat p b _ =>
      let '(pt, f1) := emit_seq_with emit_expr p f in
      let '(bt, f2) := emit_seq_with emit_expr b f1 in
      ("[ " +:+ pt +:+ " math:zero? [ f ] [ " +:+ bt +:+ " t ] kernel:if ] kernel:loop", f2)
  | BeginAgain b _ =>
      let '(bt, f1) := emit_seq_with emit_expr b f in
      ("[ " +:+ bt +:+ " t ] kernel:loop", f1)
  | DoLoop is_qdo b loop_kind _ =>
      let '(bt, f1) := emit_seq_with emit_expr b f in
      ("[ " +:+ bt +:+ (match loop_kind with Plus1 => " 1" | PlusN => "" end) +:+ " ] " +:+
       (if is_qdo then "forth.runtime:?do-loop" else "forth.runtime:do-loop"), f1)
  | Case arms d _ =>
      case_chain emit_arm
        (λ f, match d with
              | Some b => let '(t, f1) := emit_seq_with emit_expr b f in (t +:+ " kernel:drop", f1)
              | None => ("kernel:drop", f)
              end) arms f
  | Tick name span => ("[ " +:+ target_text name span +:+ " ]", f)
  | To name _ => (value_storage_name (lowercase name) +:+ " set-global", f)
  | See name _ => (emit_see (s_docs r) name, f)
  | LetExpr form _ => (emit_let form, f)
  | Locals names _ => emit_locals names f
  end
with emit_arm (a : CaseArm) (f : Fresh) : (string * string) * Fresh :=
  match a with
  | mkArm m b _ =>
      let '(mt, f1) := emit_seq_with emit_expr m f in
      let '(bt, f2) := emit_seq_with emit_expr b f1 in ((mt, bt), f2)
  end.
Definition emit_exprs : list Expr → Fresh → string * Fresh := emit_seq_with emit_expr.

(** A body, with the return wrapper when an [EXIT] is left in it. *)
Definition emit_body (body : list Expr) (f : Fresh) : string * Fresh :=
  let '(t, f1) := emit_exprs body f in
  if LowerExit.body_uses_exit (is_return (s_word_targets r)) body
  then ("[ " +:+ t +:+ " ] continuations:with-return", f1) else (t, f1).
End Exprs.

(** Any [{: .. :}] block in a body. *)
Definition body_uses_locals : list Expr → bool :=
  visits_seq (λ e, match e with Locals _ _ => true | _ => false end).

(** ** The body of a [DOES>] *)

Definition runtime_words : list string := [
  "cells"; "chars"; "floats"; "cell+"; "char+"; "@"; "!"; "c@"; "c!"; "+!"; "f@"; "f!";
  "nf-!"; "nf-c!"; "nf-+!"; "nf-f!"; "type"; "cmove"; "fill"; "bl" ].
Definition emit_does_word (name : string) : string :=
  let lc := lowercase name in
  if bool_decide (lc ∈ runtime_words) then "forth.runtime:" +:+ lc else name.
Definition does_expr (e : Expr) : string :=
  match e with
  | Lit (LitInt v _) => pretty v
  | Lit (LitFloat v _) => float_text v
  | WordRef name _ => if bool_decide (name = "+") then "forth.runtime:nf-addr+" else emit_does_word name
  | _ => "/* deferred-does-expr */"
  end.
Definition emit_does_body (exprs : list Expr) : string := concat_sep " " (does_expr <$> exprs).

(** ** Items *)

(** [r0 r1 ..], [a0 a1 ..] and the like, each followed by a space. *)
Definition numbered (prefix : string) (n : N) : string :=
  text_with (λ i, prefix +:+ pretty (N.of_nat i) +:+ " ") (seq 0 (N.to_nat n)).
Definition words_text (names : list string) : string := text_with (λ s, s +:+ " ") names.

Definition emit_variable (r : Sema) (v : VariableDef) : string :=
  let lc := lowercase (v_name v) in
  let n := factor_user_name lc in
  if is_narrow r lc then "SYMBOL: " +:+ n +:+ nl +:+ "0 " +:+ n +:+ " set-global"
  else "SYMBOL: nf-var-" +:+ lc +:+ nl +:+ "<variable> nf-var-" +:+ lc +:+ " set-global" +:+ nl +:+
       ": " +:+ n +:+ " ( -- addr ) nf-var-" +:+ lc +:+ " get-global ; inline".

Definition emit_value_decl (v : ValueDef) : string :=
  let lc := lowercase (va_name v) in
  let storage := value_storage_name lc in
  "SYMBOL: " +:+ storage +:+ nl +:+
  ": " +:+ factor_user_name lc +:+ " ( -- v ) " +:+ storage +:+ " get-global ; inline".
Definition emit_value_seed (r : Sema) (v : ValueDef) (f : Fresh) : string * Fresh :=
  let '(t, f1) := emit_exprs r (va_initial v) f in
  (t +:+ " " +:+ value_storage_name (lowercase (va_name v)) +:+ " set-global", f1).

(** The three accessors of a slot. *)
Definition slot_words (n sn : string) : string :=
  ": " +:+ factor_user_name (n +:+ ">" +:+ sn) +:+ " ( p -- v ) " +:+ sn +:+ ">> ; inline" +:+ nl +:+
  ": " +:+ factor_user_name (sn +:+ ">>" +:+ n) +:+ " ( p v -- p ) >>" +:+ sn +:+ " ; inline" +:+ nl +:+
  ": " +:+ factor_user_name (n +:+ "." +:+ sn +:+ "!") +:+ " ( v p -- ) swap >>" +:+ sn +:+
  " drop ; inline" +:+ nl.
Definition emit_class (r : Sema) (c : ClassDef) : string :=
  let n := lowercase (cl_name c) in
  let mn := factor_user_name n in
  let all_slots := slots_of (s_class_slots r) c in
  "TUPLE: " +:+ mn +:+
  match cl_extends c with
  | Some parent => " < " +:+ factor_user_name (lowercase parent)
  | None => ""
  end +:+
  text_with (λ s, " { " +:+ lowercase (sl_name s) +:+ " }") (cl_slots c) +:+ " ;" +:+ nl +:+
  ": " +:+ factor_user_name ("<" +:+ n +:+ ">") +:+ " ( " +:+ words_text all_slots +:+ "-- p ) " +:+
  mn +:+ " boa ; inline" +:+ nl +:+
  text_with (slot_words n) all_slots.

(** [ndrop]: the text of the chain of [2drop]s, its last space trimmed. *)
Fixpoint drop_chain (n : nat) : string :=
  match n with
  | S (S n') => "2drop " +:+ drop_chain n'
  | S O => "drop "
  | O => ""
  end.
Definition ndrop (n : nat) : string :=
  match n with
  | 0 => "" | 1 => "drop" | 2 => "2drop" | 3 => "3drop"
  | _ => drop_last (drop_chain n)
  end%nat.

Definition plain_generic (n : string) (g : GenericDef) : string :=
  "multi-methods:GENERIC: " +:+ n +:+ " ( " +:+ words_text (se_inputs (g_effect g)) +:+ "-- " +:+
  words_text (se_outputs (g_effect g)) +:+ ")" +:+ nl.

Definition is_nil {A} (l : list A) : bool := match l with [] => true | _ => false end.
Definition if_some {A} (l : list A) (t : string) : string := if is_nil l then "" else t.

(** The body of the wrapper: the inputs for each of the three, the results of
    the primary kept in locals. *)
Definition wrapper_body (n : string) (ins outs : list string) : string :=
  if_some ins (words_text ins +:+ n +:+ ":before ") +:+ if_some ins (words_text ins) +:+ n +:+ ":primary" +:+
  match outs with
  | [] => " "
  | [_] => " :> r0 "
  | _ => " :> ( " +:+ words_text outs +:+ ") "
  end +:+
  if_some ins (words_text ins +:+ n +:+ ":after ") +:+ words_text outs.
Definition numbers (prefix : string) (n : nat) : list string :=
  (λ i, prefix +:+ pretty (N.of_nat i)) <$> seq 0 n.

(** The primary generic, the two shadows and their default methods. *)
Definition aux_declarations (n : string) (g : GenericDef) : string :=
  let ins := words_text (se_inputs (g_effect g)) in
  let outs := words_text (se_outputs (g_effect g)) in
  let n_in := length (se_inputs (g_effect g)) in
  let shadow which := "multi-methods:GENERIC: " +:+ n +:+ which +:+ " ( " +:+ ins +:+ "-- )" +:+ nl in
  let default_method which :=
    "multi-methods:METHOD: " +:+ n +:+ which +:+ " { " +:+ repeat_text n_in "object " +:+ "} " +:+
    ndrop n_in +:+ " ;" +:+ nl in
  "multi-methods:GENERIC: " +:+ n +:+ ":primary ( " +:+ ins +:+ "-- " +:+ outs +:+ ")" +:+ nl +:+
  shadow ":before" +:+ shadow ":after" +:+
  if_some (se_inputs (g_effect g)) (default_method ":before" +:+ default_method ":after").
Definition aux_generic (n : string) (g : GenericDef) : string :=
  let in_locals := numbers "a" (length (se_inputs (g_effect g))) in
  let out_locals := numbers "r" (length (se_outputs (g_effect g))) in
  aux_declarations n g +:+
  ":: " +:+ n +:+ " ( " +:+ words_text in_locals +:+ "-- " +:+ words_text out_locals +:+ ") " +:+
  wrapper_body n in_locals out_locals +:+ ";" +:+ nl.

Definition emit_generic (aux : gset string) (g : GenericDef) : string :=
  let raw_lc := lowercase (g_name g) in
  let n := factor_user_name raw_lc in
  if decide (raw_lc ∈ aux) then aux_generic n g else plain_generic n g.

(** The class a method asks of its input at [pos]. *)
Definition specializer_class (m : MethodDef) (pos : nat) : string :=
  match list_find (λ s, ms_position s = Z.of_nat pos) (m_specializers m) with
  | Some (_, s) =>
      let raw := lowercase (ms_class s) in
      if bool_decide (raw = "object") then "object" else factor_user_name raw
  | None => "object"
  end.
Definition emit_specializer_list (m : MethodDef) : string :=
  "{ " +:+
  match length (se_inputs (m_effect m)) with
  | O => "object "
  | n => text_with (λ pos, specializer_class m pos +:+ " ") (seq 0 n)
  end +:+ "}".

Definition is_primary (k : MethodKind) : bool := match k with Primary => true | _ => false end.
Definition method_target (aux : gset string) (m : MethodDef) : string :=
  let g_lc := lowercase (m_generic m) in
  let mg := factor_user_name g_lc in
  match m_kind m with
  | Primary => if decide (g_lc ∈ aux) then mg +:+ ":primary" else mg
  | Before => mg +:+ ":before"
  | After => mg +:+ ":after"
  end.

Definition head_locals (locals : list LocalDecl) : Fresh → string * Fresh :=
  text_state (λ l f, let '(n, f1) := local_name l f in (n +:+ " ", f1)) locals.

Definition emit_method (r : Sema) (aux : gset string) (m : MethodDef) (f : Fresh) : string * Fresh :=
  let header := "multi-methods:METHOD: " +:+ method_target aux m +:+ " " +:+
                emit_specializer_list m +:+ " " in
  if negb (is_nil (m_locals m)) || body_uses_locals (m_body m) then
    let '(helper, f1) := next_method_helper_name (lowercase (m_generic m)) f in
    let n_in := len32 (se_inputs (m_effect m)) in
    let n_out := len32 (se_outputs (m_effect m)) in
    let '(params, f2) := if is_nil (m_locals m) then (numbered "a" n_in, f1)
                         else head_locals (m_locals m) f1 in
    let '(body, f3) := emit_body r (m_body m) f2 in
    (":: " +:+ helper +:+ " ( " +:+ params +:+ "-- " +:+ numbered "r" n_out +:+
     (if (n_out =? 0)%N then " " else "") +:+ ") " +:+ body +:+ " ;" +:+ nl +:+
     header +:+ helper +:+ " ;" +:+ nl, f3)
  else
    let '(body, f1) := emit_body r (m_body m) f in (header +:+ body +:+ " ;" +:+ nl, f1).

(** A data word with a buffer behind a hidden symbol. *)
Definition buffer_lines (storage : string) (bytes : Z) : string :=
  "SYMBOL: " +:+ storage +:+ nl +:+ pretty bytes +:+ " <buffer> " +:+ storage +:+ " set-global" +:+ nl.
Definition emit_collection (c : CollectionDef) : string :=
  let raw := lowercase (co_name c) in
  let total_bytes := Z.max (u32_sat_mul (co_count c) (elt_size (co_kind c))) 1 in
  buffer_lines ("nf-coll-" +:+ raw) total_bytes +:+
  ": " +:+ factor_user_name raw +:+ " ( idx -- addr ) nf-coll-" +:+ raw +:+ " get-global swap " +:+
  pretty (elt_size (co_kind c)) +:+ " * forth.runtime:nf-addr+ ; inline".
Definition emit_template_instance (t : TemplateInstanceDef) : string :=
  let raw := lowercase (ti_name t) in
  buffer_lines ("nf-tmpl-" +:+ raw) (Z.max (ti_bytes t) 1) +:+
  ": " +:+ factor_user_name raw +:+ " ( idx -- addr ) nf-tmpl-" +:+ raw +:+ " get-global " +:+
  emit_does_body (ti_does t) +:+ " ; inline".
Definition emit_create (c : CreateDef) : string :=
  let raw := lowercase (cr_name c) in
  buffer_lines ("nf-create-" +:+ raw) (Z.max (cr_allotted c) 1) +:+
  ": " +:+ factor_user_name raw +:+ " ( -- addr ) nf-create-" +:+ raw +:+ " get-global ; inline".

Definition emit_constant (r : Sema) (c : ConstantDef) (f : Fresh) : string * Fresh :=
  let n := factor_user_name (lowercase (k_name c)) in
  match k_value c with
  | CInt v => ("CONSTANT: " +:+ n +:+ " " +:+ pretty v, f)
  | CFloat v => ("CONSTANT: " +:+ n +:+ " " +:+ float_text v, f)
  | Computed exprs =>
      let out_name := match k_flavour c with FloatFlavour => "f" | CellFlavour => "n" end in
      let '(t, f1) := emit_exprs r exprs f in
      (": " +:+ n +:+ " ( -- " +:+ out_name +:+ " ) " +:+ t +:+ " ; inline", f1)
  end.

(** ** Definitions *)

Definition effect_letter (i : N) : string := String (byte_of (97 + Z.of_N (i mod 26))) "".
Definition synth_effect_annotation (inputs outputs : N) : string :=
  let blank n := if (n =? 0)%N then " " else "" in
  "(" +:+ text_with (λ i, " " +:+ effect_letter (N.of_nat i)) (seq 0 (N.to_nat inputs)) +:+ blank inputs +:+
  " --" +:+ text_with (λ i, " r" +:+ pretty (N.of_nat i)) (seq 0 (N.to_nat outputs)) +:+ blank outputs +:+
  " ) ".

Definition declared_annotation (eff : StackEffect) : string :=
  "(" +:+ text_with (λ s, " " +:+ sanitize s) (se_inputs eff) +:+
  (if is_nil (se_inputs eff) then " " else "") +:+
  " --" +:+ text_with (λ s, " " +:+ sanitize s) (se_outputs eff) +:+ " ) ".

(** The inferred effect wins over the declared one where they differ; the
    names of the declared one are kept where they agree. *)
Definition effect_annotation (declared : option StackEffect) (synth : option Effect) : string :=
  match declared, synth with
  | Some eff, Some (Known i o) =>
      if ((len32 (se_inputs eff) =? i) && (len32 (se_outputs eff) =? o))%N
      then declared_annotation eff else synth_effect_annotation i o
  | Some eff, _ => declared_annotation eff
  | None, Some (Known i o) => synth_effect_annotation i o
  | None, _ => "( ..a -- ..b ) "
  end.

Definition blank_if_none {A} (l : list A) : string := if is_nil l then " " else "".

(** The outputs of a [::] definition. *)
Definition locals_outputs (d : Definition_) (synth : option Effect) (clean : string → string) : string :=
  match d_effect d, synth with
  | Some eff, _ =>
      text_with (λ s, clean s +:+ " ") (se_outputs eff) +:+ blank_if_none (se_outputs eff)
  | None, Some (Known _ outputs) =>
      numbered "r" outputs +:+ (if (outputs =? 0)%N then " " else "")
  | None, _ => "..b "
  end.

Definition emit_definition_with_locals (r : Sema) (d : Definition_) (factor_name : string) (f : Fresh)
    : string * Fresh :=
  let '(ins, f1) := head_locals (d_locals d) f in
  let synth := s_body_effects r !! lowercase (d_name d) in
  let '(body, f2) := emit_body r (d_body d) f1 in
  (":: " +:+ factor_name +:+ " ( " +:+ ins +:+ "-- " +:+ locals_outputs d synth sanitize +:+ ") " +:+
   body +:+ " ;", f2).

Definition sanitize_lower (s : string) : string :=
  if bool_decide (s = "...") then "_dots_"
  else if contains_byte "." s then undot s else lowercase s.

(** A body that binds locals half-way: its inputs are bound as locals and
    pushed again at once. *)
Definition preamble_names (d : Definition_) (synth : option Effect) : option (list string) :=
  match d_effect d, synth with
  | Some eff, _ => Some (sanitize_lower <$> se_inputs eff)
  | None, Some (Known i _) => Some ((λ k, "_mi" +:+ pretty (N.of_nat k)) <$> seq 0 (N.to_nat i))
  | None, _ => None
  end.
Definition emit_definition_mid_locals_only (r : Sema) (d : Definition_) (factor_name : string)
    (f : Fresh) : string * Fresh :=
  let synth := s_body_effects r !! lowercase (d_name d) in
  let '(body, f1) := emit_body r (d_body d) f in
  match preamble_names d synth with
  | Some names =>
      (":: " +:+ factor_name +:+ " ( " +:+ words_text names +:+ blank_if_none names +:+ "-- " +:+
       locals_outputs d synth sanitize_lower +:+ ") " +:+ words_text names +:+ body +:+ " ;", f1)
  | None => (":: " +:+ factor_name +:+ " ( ..a -- ..b ) " +:+ body +:+ " ;", f1)
  end.

Definition emit_definition (r : Sema) (d : Definition_) (f : Fresh) : string * Fresh :=
  let lc := lowercase (d_name d) in
  let factor_name := factor_user_name lc in
  if negb (is_nil (d_locals d)) then emit_definition_with_locals r d factor_name f
  else if body_uses_locals (d_body d) then emit_definition_mid_locals_only r d factor_name f
  else
    let '(body, f1) := emit_body r (d_body d) f in
    (": " +:+ factor_name +:+ " " +:+ effect_annotation (d_effect d) (s_body_effects r !! lc) +:+
     body +:+ " ;", f1).

(** ** The vocabularies in use

    [BTreeSet]: a list in byte order without repetitions. *)
Fixpoint bset_insert (x : string) (l : list string) : list string :=
  match l with
  | [] => [x]
  | y :: l' =>
      if bool_decide (x = y) then l
      else if String.leb x y then x :: l else y :: bset_insert x l'
  end.

Definition base_vocabs : list string :=
  ["kernel"; "math"; "io"; "forth.runtime"; "namespaces"; "math.functions"; "math.order";
   "math.constants"; "math.libm"].
Definition is_class_item (i : Item) : bool :=
  match i with IClass _ | IGeneric _ | IMethod _ | IRawFactor _ => true | _ => false end.
Definition is_method_item (i : Item) : bool :=
  match i with IGeneric _ | IMethod _ => true | _ => false end.
Definition is_aux_method (i : Item) : bool :=
  match i with IMethod m => negb (is_primary (m_kind m)) | _ => false end.
Definition item_uses_locals (i : Item) : bool :=
  match i with
  | IDefinition d => negb (is_nil (d_locals d)) || body_uses_locals (d_body d)
  | IMethod m => negb (is_nil (m_locals m)) || body_uses_locals (m_body m)
  | _ => false
  end.
Definition vocabs_needed (r : Sema) : list string :=
  let items := p_items (s_program r) in
  let when (b : bool) names := if b then names else [] in
  let fixed :=
    base_vocabs ++ when (existsb is_class_item items) ["classes.tuple"; "accessors"] ++
    when (existsb is_method_item items) ["multi-methods"] ++
    when (existsb is_aux_method items || existsb item_uses_locals items) ["locals"] in
  let used := omap target_vocab (map_to_list (s_word_targets r)).*2 in
  fold_with bset_insert (fixed ++ used) [].

(** ** The program *)

Definition aux_generics (items : list Item) : gset string :=
  list_to_set (omap (λ i, match i with
                          | IMethod m => if is_primary (m_kind m) then None
                                         else Some (lowercase (m_generic m))
                          | _ => None
                          end) items).

Definition emit_using_line (r : Sema) : string :=
  "USING:" +:+ text_with (λ v, " " +:+ v) (vocabs_needed r) +:+ " ;" +:+ nl.

(** The three passes over the items; an item a pass does not write has no
    text in it. *)
Definition pass_data (r : Sema) (aux : gset string) (i : Item) (f : Fresh) : string * Fresh :=
  match i with
  | IVariable v => (emit_variable r v +:+ nl, f)
  | IConstant c => let '(t, f1) := emit_constant r c f in (t +:+ nl, f1)
  | ICreate c => (emit_create c +:+ nl, f)
  | ICollection c => (emit_collection c +:+ nl, f)
  | ITemplateInstance t => (emit_template_instance t +:+ nl, f)
  | IValue v => (emit_value_decl v +:+ nl, f)
  | IClass c => (emit_class r c +:+ nl, f)
  | IGeneric g => (emit_generic aux g +:+ nl, f)
  | IRawFactor w => (rf_source w +:+ nl, f)
  | _ => ("", f)
  end.
Definition pass_methods (r : Sema) (aux : gset string) (i : Item) (f : Fresh) : string * Fresh :=
  match i with IMethod m => let '(t, f1) := emit_method r aux m f in (t +:+ nl, f1) | _ => ("", f) end.
Definition pass_definitions (r : Sema) (i : Item) (f : Fresh) : string * Fresh :=
  match i with IDefinition d => let '(t, f1) := emit_definition r d f in (t +:+ nl, f1) | _ => ("", f) end.
Definition pass_top (r : Sema) (i : Item) (f : Fresh) : string * Fresh :=
  match i with
  | ITopLevel exprs _ => let '(t, f1) := emit_exprs r exprs f in (t +:+ nl, f1)
  | IValue v => let '(t, f1) := emit_value_seed r v f in (t +:+ nl, f1)
  | _ => ("", f)
  end.

(** [flush_at_end] of [EmitOpts]. *)
Definition emit (r : Sema) (flush_at_end : bool) (f : Fresh) : string * Fresh :=
  let items := p_items (s_program r) in
  let aux := aux_generics items in
  let '(data, f1) := text_state (pass_data r aux) items f in
  let '(methods, f2) := text_state (pass_methods r aux) items f1 in
  let '(defs, f3) := text_state (pass_definitions r) items f2 in
  let '(top, f4) := text_state (pass_top r) items f3 in
  let out := emit_using_line r +:+ "IN: scratchpad" +:+ nl +:+ data +:+ methods +:+ defs +:+ top in
  let space := match last_byte out with Some " "%char | Some "010"%char => "" | _ => " " end in
  (out +:+ (if flush_at_end then space +:+ "flush" else ""), f4).
