(* ===== verification/Driver.v ===== *)
(** * The compile driver ([src/compiler/mod.rs])

    Runs the stages on a source text, with what a session remembers from
    earlier compiles, expands [NEEDS] directives and records what [SEE]
    shows.  The file system is a parameter: paths and the standard library's
    operations on them. *)
From stdpp Require Import strings gmap.
From S2P Require Import Prelude Bytes F64 Lex LetLang Ast Classes Parse Resolve Effect.
From S2P Require Import LetCode Sema Emit.

(** ** Errors *)

(** The driver's errors are the texts of the stages' errors. *)
Inductive dfail := DErr (message : string) | DPanic.
Notation doutcome := (outcome dfail).

Definition stage {E A} (show : E → dfail) (o : outcome E A) : doutcome A :=
  match o with Done a => Done a | Fail e => Fail (show e) | OutOfFuel => OutOfFuel end.
Definition show_pfail (e : pfail) : dfail :=
  match e with PErr e => DErr (show_parse_error e) | Panic => DPanic end.
Definition parse_text (source : string) : doutcome Program :=
  toks ← stage (λ e, DErr (show_compile_error e)) (lex source);
  stage show_pfail (parse toks).

(** ** [SEE] records *)

(** [str::get]: a slice on character boundaries. *)
Definition is_char_boundary (s : string) (i : Z) : bool :=
  (i =? 0) || (i =? slen s) ||
  match str_drop (Z.to_nat i) s with String b _ => (0 <=? i) && negb (is_cont b) | EmptyString => false end.
Definition str_get (s : string) (a b : Z) : option string :=
  if (a <=? b) && is_char_boundary s a && is_char_boundary s b then Some (slice s a b) else None.

(** [str::trim]. *)
Fixpoint ws_only (skip : nat) (s : string) : bool :=
  match s with
  | EmptyString => true
  | String _ s' =>
      match skip with
      | S k => ws_only k s'
      | O => match ws_char_len s with Some n => ws_only (pred n) s' | None => false end
      end
  end.
Fixpoint trim_start (skip : nat) (s : string) : string :=
  match s with
  | EmptyString => ""
  | String _ s' =>
      match skip with
      | S k => trim_start k s'
      | O => match ws_char_len s with Some n => trim_start (pred n) s' | None => s end
      end
  end.
Fixpoint trim_end (s : string) : string :=
  match s with
  | EmptyString => ""
  | String b s' => if ws_only 0 s then "" else String b (trim_end s')
  end.
Definition trim (s : string) : string := trim_end (trim_start 0 s).

Example trim_ex : trim "  a b " = "a b" ∧ str_get "abc" 1 2 = Some "b" ∧ str_get "abc" 2 9 = None.
Proof. vm_compute. auto. Qed.

Definition render_effect (e : StackEffect) : string :=
  "( " +:+ text_with (λ i, i +:+ " ") (se_inputs e) +:+ "-- " +:+
  text_with (λ o, o +:+ " ") (se_outputs e) +:+ ")".

Definition doc_slice (source : string) (span : Span) : string :=
  trim (default "" (str_get source (p_byte_offset (sp_start span)) (p_byte_offset (sp_end span)))).

(** The record of an item, for the items that are named definitions. *)
Definition item_doc (source : string) (i : Item) : option (string * WordDoc) :=
  let doc name kind effect span detail :=
    Some (lowercase name, mkWordDoc kind effect (doc_slice source span) detail) in
  match i with
  | IDefinition d =>
      doc (d_name d) "colon definition"
        (match d_effect d with Some e => render_effect e | None => "" end) (d_span d) ""
  | IGeneric g => doc (g_name g) "generic" (render_effect (g_effect g)) (g_span g) ""
  | IConstant c =>
      doc (k_name c) "constant" "" (k_span c)
        (match k_value c with
         | CInt v => "value: " +:+ pretty v
         | CFloat v => "value: " +:+ f64_display v
         | Computed _ => "value: (computed)"
         end)
  | IVariable v => doc (v_name v) "variable" "" (v_span v) ""
  | IValue v => doc (va_name v) "value" "" (va_span v) ""
  | IClass c =>
      let slots := concat_sep " " (sl_name <$> cl_slots c) in
      doc (cl_name c) "class" "" (cl_span c)
        ((if bool_decide (slots = "") then "slots: (none)" else "slots: " +:+ slots) +:+
         match cl_extends c with Some parent => "   extends: " +:+ parent | None => "" end)
  | ICollection c => doc (co_name c) "collection" "" (co_span c) ""
  | ICreate c => doc (cr_name c) "data buffer (CREATE)" "" (cr_span c) ""
  | ITemplate t => doc (t_name t) "defining word (CREATE/DOES>)" "" (t_def_span t) ""
  | IMethod _ | ITemplateInstance _ | IRawFactor _ | ITopLevel _ _ | INeeds _ _ => None
  end.
Notation doc_map := (gmap string WordDoc).
Definition build_docs (items : list Item) (source : string) : doc_map :=
  fold_with (λ i m, match item_doc source i with Some (n, d) => <[n := d]> m | None => m end) items ∅.

(** ** [NEEDS] *)

(** [Path] and [std::fs], as far as the driver uses them. *)
Class FileSystem := {
  path : Type;
  path_of : string → path;
  path_join : path → string → path;
  path_parent : path → option path;
  path_display : path → string;
  (** the canonical path as a text, or the path itself where there is none *)
  path_key : path → string;
  (** the text of a file, or the error of reading it *)
  read_to_string : path → result string string
}.

(** [ctx.included] and the records of the compile. *)
Record NeedsState := mkNeeds { ns_included : gset string; ns_docs : doc_map }.

Section Needs.
Context `{FileSystem}.

Definition needs_path (base_dir : option path) (p : string) : path :=
  match base_dir with Some dir => path_join dir p | None => path_of p end.
Definition read_error (full : path) (e : string) : dfail :=
  DErr ("NEEDS: cannot read " +:+ path_display full +:+ ": " +:+ e).

(** Each directive, given what expands the files it names. *)
Definition expand_items (expand : list Item → option path → NeedsState → doutcome (list Item) * NeedsState)
    (base_dir : option path) : list Item → list Item → NeedsState → doutcome (list Item) * NeedsState :=
  fix go items out st :=
    match items with
    | [] => (Done out, st)
    | INeeds p _ :: rest =>
        let full := needs_path base_dir p in
        let key := path_key full in
        if decide (key ∈ ns_included st) then go rest out st
        else
          let st1 := mkNeeds ({[key]} ∪ ns_included st) (ns_docs st) in
          match read_to_string full with
          | Err e => (Fail (read_error full e), st1)
          | Ok contents =>
              match parse_text contents with
              | Done sub =>
                  let docs := ns_docs st1 ∪ build_docs (p_items sub) contents in
                  match expand (p_items sub) (path_parent full) (mkNeeds (ns_included st1) docs) with
                  | (Done items', st2) => go rest (out ++ items') st2
                  | (failed, st2) => (failed, st2)
                  end
              | Fail e => (Fail e, st1)
              | OutOfFuel => (OutOfFuel, st1)
              end
          end
    | other :: rest => go rest (out ++ [other]) st
    end.
Fixpoint expand_needs (fuel : nat) (items : list Item) (base_dir : option path) (st : NeedsState)
    : doutcome (list Item) * NeedsState :=
  match fuel with
  | O => (OutOfFuel, st)
  | S fuel' => expand_items (expand_needs fuel') base_dir items [] st
  end.
End Needs.

(** ** Sessions *)

Record CompileContext := mkContext {
  c_user_words : gmap string Span; c_user_effects : gmap string Effect;
  c_templates : gmap string TemplateDef; c_values : gmap string Span;
  c_classes : gmap string (list string); c_docs : doc_map; c_included : gset string }.
Definition new_context : CompileContext := mkContext ∅ ∅ ∅ ∅ ∅ ∅ ∅.

(** The process-wide counters. *)
Record Globals := mkGlobals { g_synth : Z; g_fresh : Fresh }.

(** Every variable takes the form other compiles can refer to. *)
Definition dummy_span : Span := mkSpan (mkPos 0 0 0) (mkPos 0 0 0).
Definition widen (s : Sema) (docs : doc_map) : Sema :=
  {| s_program := s_program s; s_word_targets := s_word_targets s; s_user_words := s_user_words s;
     s_variables := s_variables s; s_constants := s_constants s; s_creates := s_creates s;
     s_collections := s_collections s; s_templates := s_templates s; s_values := s_values s;
     s_class_slots := s_class_slots s; s_user_effects := s_user_effects s;
     s_body_effects := s_body_effects s; s_effect_errors := s_effect_errors s;
     s_call_graph := s_call_graph s; s_use_sites := s_use_sites s;
     s_escape := (λ _, Wide InteractiveSession dummy_span) <$> s_escape s; s_docs := docs |}.

(** What a compile adds to the session. *)
Definition merge_context (ctx : CompileContext) (included : gset string) (s : Sema) : CompileContext :=
  {| c_user_words := (uw_span <$> s_user_words s) ∪ c_user_words ctx;
     c_user_effects := s_user_effects s ∪ c_user_effects ctx;
     c_templates := s_templates s ∪ c_templates ctx;
     c_values := (va_name_span <$> s_values s) ∪ c_values ctx;
     c_classes := s_class_slots s ∪ c_classes ctx;
     c_docs := s_docs s; c_included := included |}.
Definition set_included (ctx : CompileContext) (included : gset string) : CompileContext :=
  mkContext (c_user_words ctx) (c_user_effects ctx) (c_templates ctx) (c_values ctx) (c_classes ctx)
    (c_docs ctx) included.

Section Compile.
Context `{FileSystem}.

(** The IR and the warnings; the context and the counters after. *)
Definition compile_in_context_with_diagnostics (fuel : nat) (source : string) (ctx : CompileContext)
    (g : Globals) : doutcome (string * list EffectError) * CompileContext * Globals :=
  match parse_text source with
  | Fail e => (Fail e, ctx, g)
  | OutOfFuel => (OutOfFuel, ctx, g)
  | Done prog =>
      let '(expanded, st) := expand_needs fuel (p_items prog) None
                               (mkNeeds (c_included ctx) (build_docs (p_items prog) source)) in
      let ctx1 := set_included ctx (ns_included st) in
      match expanded with
      | Fail e => (Fail e, ctx1, g)
      | OutOfFuel => (OutOfFuel, ctx1, g)
      | Done items =>
          let '(built, synth) := build_with_prior_state (g_synth g) (mkProgram items) (c_user_words ctx1)
                                   (c_user_effects ctx1) (c_templates ctx1) (c_values ctx1) (c_classes ctx1) in
          match built with
          | Err e => (Fail (DErr (show_resolve_error e)), ctx1, mkGlobals synth (g_fresh g))
          | Ok sema0 =>
              let sema := widen sema0 (ns_docs st ∪ c_docs ctx1) in
              let '(ir, fresh) := emit sema true (g_fresh g) in
              (Done (ir, s_effect_errors sema), merge_context ctx1 (ns_included st) sema, mkGlobals synth fresh)
          end
      end
  end.

Definition compile_in_context (fuel : nat) (source : string) (ctx : CompileContext) (g : Globals)
    : doutcome string * CompileContext * Globals :=
  let '(r, ctx', g') := compile_in_context_with_diagnostics fuel source ctx g in
  ('(ir, _) ← r; Done ir, ctx', g').
Definition compile_with_diagnostics (fuel : nat) (source : string) (g : Globals)
    : doutcome (string * list EffectError) * Globals :=
  let '(r, _, g') := compile_in_context_with_diagnostics fuel source new_context g in (r, g').
Definition compile (fuel : nat) (source : string) (g : Globals) : doutcome string * Globals :=
  let '(r, g') := compile_with_diagnostics fuel source g in ('(ir, _) ← r; Done ir, g').
End Compile.
