(* ===== verification/SampleVM.v ===== *)
(** * A machine for the examples

    An instance of [FactorVM]: integers, doubles, booleans, strings and
    quotations, a few of the words the emitter uses, and as the rest of the
    state the Factor globals and the values printed so far.  The theorems hold
    of every machine; this one is where their examples run. *)
From stdpp Require Import strings gmap.
From Stdlib Require Import SpecFloat.
From S2P Require Import Prelude Bytes F64 Factor.

Inductive val :=
  | VBool (b : bool)
  | VInt (z : Z)
  | VNum (x : f64)
  | VStr (s : string)
  | VQuot (scope : list (string * val)) (q : list fcode).

Definition read_int (w : string) : option Z :=
  let '(neg, ds) := split_sign w in
  match ds with
  | EmptyString => None
  | _ => if str_all is_digit ds then Some (if neg then - digits_val 0 ds else digits_val 0 ds) else None
  end.
(** A token that starts as a number does. *)
Definition numeric (w : string) : bool :=
  match w with String c _ => is_digit c || ((c =? "-")%char && negb (bool_decide (w = "-"))) | _ => false end.
Definition vm_read (w : string) : option val :=
  if numeric w then
    match read_int w with Some z => Some (VInt z) | None => VNum <$> f64_parse w end
  else None.

Definition vm_same (a b : val) : bool :=
  match a, b with
  | VInt x, VInt y => x =? y
  | VNum x, VNum y => SFeqb x y
  | VBool x, VBool y => Bool.eqb x y
  | VStr x, VStr y => bool_decide (x = y)
  | _, _ => false
  end.

Definition f64_op (op : Z → Z → f64 → f64 → f64) : f64 → f64 → f64 := op f64_prec f64_emax.
Definition num2 (fz : Z → Z → Z) (ff : f64 → f64 → f64) (a b : val) : option val :=
  match a, b with
  | VInt x, VInt y => Some (VInt (fz x y))
  | VNum x, VNum y => Some (VNum (ff x y))
  | _, _ => None
  end.
Definition arith (w : string) : option (val → val → option val) :=
  if bool_decide (w = "math:+") || bool_decide (w = "+") || bool_decide (w = "z-add:primary") then Some (num2 Z.add (f64_op SFadd))
  else if bool_decide (w = "math:-") || bool_decide (w = "-") then Some (num2 Z.sub (f64_op SFsub))
  else if bool_decide (w = "math:*") || bool_decide (w = "*") then Some (num2 Z.mul (f64_op SFmul))
  else if bool_decide (w = "kernel:=") then Some (λ a b, Some (VBool (vm_same a b)))
  else if bool_decide (w = "math.order:<") then
    Some (λ a b, match a, b with
                 | VNum x, VNum y => Some (VBool (f64_lt x y))
                 | VInt x, VInt y => Some (VBool (x <? y))
                 | _, _ => None
                 end)
  else if bool_decide (w = "forth.runtime:ans>") then
    Some (λ a b, match a, b with
                 | VInt x, VInt y => Some (VInt (if y <? x then -1 else 0))
                 | _, _ => None
                 end)
  else None.
Definition vm_fun (w : string) (args : list val) : option val :=
  match args with
  | [a; b] => match arith w with Some f => f a b | None => None end
  | [VNum x] => if bool_decide (w = "math:neg") then Some (VNum (SFopp x)) else None
  | _ => None
  end.

(** The Factor globals, and what was printed. *)
Record Rest := mkRest { globals : gmap string val; printed : list val }.
Definition vm_word (w : string) (s : list val * Rest) : option (list val * Rest) :=
  match s with
  | (v :: st, rs) =>
      if bool_decide (w = "forth.runtime:.") || bool_decide (w = "forth.runtime:print-string")
      then Some (st, mkRest (globals rs) (printed rs ++ [v]))
      else if bool_decide (w = "z-add:before") || bool_decide (w = "z-add:after")
      then match st with
           | u :: st' => Some (st', mkRest (globals rs) (printed rs ++ [VStr w; u; v]))
           | [] => None
           end
      else None
  | _ => None
  end.

#[export] Instance SampleVM : FactorVM := {|
  fV := val; fR := Rest;
  f_bool := VBool; f_quot := λ ρ q, VQuot (map_to_list ρ) q; f_int := VInt;
  f_to_int := λ v, match v with VInt z => Some z | _ => None end;
  f_float := VNum; f_str := VStr; f_read := vm_read;
  f_zero := λ v, match v with VInt z => z =? 0 | VNum x => SFeqb x (S754_zero false) | _ => false end;
  f_same := vm_same;
  f_fun := λ w args v, vm_fun w args = Some v;
  f_word := λ w s s', vm_word w s = Some s'
|}.
