(* ===== verification/FactorFacts.v ===== *)
(** * Reading emitted text, and running code in pieces *)
From stdpp Require Import strings gmap.
From S2P Require Import Prelude Bytes F64 Factor LetCode Sema Emit.

(** ** Scanning in pieces

    [reads t ls]: wherever a blank or the end follows, [t] is the lexemes
    [ls]. *)
Definition ends (s : string) : Prop := match s with EmptyString => True | String c _ => is_blank c = true end.
Definition reads (t : string) (ls : list lexeme) : Prop := ∀ s, ends s → scan (t +:+ s) = ls ++ scan s.

Definition token_ok (w : string) : bool :=
  match w with
  | EmptyString => false
  | String c _ => negb (is_dquote c) && str_all (λ b, negb (is_blank b)) w
  end.

Lemma reads_scan t ls : reads t ls → scan t = ls.
Proof. intros Ht. specialize (Ht "" I). rewrite str_app_nil_r in Ht. by rewrite Ht, app_nil_r. Qed.

Lemma reads_nil : reads "" [].
Proof. done. Qed.

Lemma scan_word w r s :
  str_all (λ b, negb (is_blank b)) r = true → ends s →
  scan_in (InWord w) (r +:+ s) = LWord (w +:+ r) :: scan s.
Proof.
  revert w. induction r as [|c r IH]; intros w.
  - rewrite str_app_nil_l, str_app_nil_r. destruct s as [|c s]; [done|]. cbn. by intros _ ->.
  - cbn [str_all]. intros [Hc%negb_true_iff Hr]%andb_true_iff Hs. rewrite str_app_cons. cbn [scan_in].
    rewrite Hc, IH by done. by rewrite str_app_assoc.
Qed.

Lemma reads_word w : token_ok w = true → reads w [LWord w].
Proof.
  destruct w as [|c w]; [done|]. cbn [token_ok str_all].
  intros [Hq%negb_true_iff [Hc%negb_true_iff Hw]%andb_true_iff]%andb_true_iff s Hs.
  rewrite str_app_cons. unfold scan at 1. cbn [scan_in]. rewrite Hc, Hq. by rewrite scan_word.
Qed.

Lemma reads_join a la b lb : reads a la → reads b lb → reads (a +:+ " " +:+ b) (la ++ lb).
Proof.
  intros Ha Hb s Hs. rewrite !str_app_assoc, Ha by done. rewrite <- app_assoc. f_equal.
  rewrite <- Hb by done. done.
Qed.

Lemma scan_string acc s t :
  scan_in (InStr acc) (factor_escape s +:+ dquote +:+ t) = LStr (acc +:+ s) :: scan t.
Proof.
  revert acc. induction s as [|c s IH]; intros acc.
  - cbn. by rewrite str_app_nil_r.
  - cbn [factor_escape].
    assert (∀ d, scan_in (InStr (acc +:+ String d "")) (factor_escape s +:+ dquote +:+ t) =
                 LStr (acc +:+ String d s) :: scan t) as Hd.
    { intros d. by rewrite IH, str_app_assoc. }
    destruct (Stdlib.Strings.Ascii.eqb_spec c "\"%char) as [->|H1]; [apply (Hd "\"%char)|].
    destruct (Stdlib.Strings.Ascii.eqb_spec c "034"%char) as [->|H2]; [apply (Hd "034"%char)|].
    destruct (Stdlib.Strings.Ascii.eqb_spec c "010"%char) as [->|H3]; [apply (Hd "010"%char)|].
    destruct (Stdlib.Strings.Ascii.eqb_spec c "013"%char) as [->|H4]; [apply (Hd "013"%char)|].
    destruct (Stdlib.Strings.Ascii.eqb_spec c "009"%char) as [->|H5]; [apply (Hd "009"%char)|].
    rewrite !str_app_cons, !str_app_nil_l. cbn [scan_in]. unfold is_dquote.
    apply Stdlib.Strings.Ascii.eqb_neq in H1, H2. rewrite H2, H1. apply Hd.
Qed.

(** A string literal stands for the string it was made from. *)
Lemma reads_string s : reads (quoted_text (factor_escape s)) [LStr s].
Proof.
  intros t Ht. unfold quoted_text. rewrite !str_app_assoc. unfold scan at 1.
  change (dquote +:+ factor_escape s +:+ dquote +:+ t)
    with (String "034" (factor_escape s +:+ dquote +:+ t)).
  cbn [scan_in]. change (is_blank "034") with false. change (is_dquote "034") with true. cbn.
  apply (scan_string "" s t).
Qed.

(** Text that ends in a blank. *)
Definition spaced (t : string) (ls : list lexeme) : Prop := ∀ s, scan (t +:+ s) = ls ++ scan s.

Lemma spaced_nil : spaced "" [].
Proof. done. Qed.
Lemma reads_spaced t ls : reads t ls → spaced (t +:+ " ") ls.
Proof. intros Ht s. by rewrite str_app_assoc, Ht. Qed.
Lemma spaced_app a la b lb : spaced a la → spaced b lb → spaced (a +:+ b) (la ++ lb).
Proof. intros Ha Hb s. by rewrite str_app_assoc, Ha, Hb, app_assoc. Qed.
Lemma spaced_reads a la b lb : spaced a la → reads b lb → reads (a +:+ b) (la ++ lb).
Proof. intros Ha Hb s Hs. by rewrite str_app_assoc, Ha, Hb, app_assoc. Qed.
Lemma spaced_text {A} (g : A → string) (h : A → list lexeme) l :
  Forall (λ x, spaced (g x) (h x)) l → spaced (text_with g l) (flat_map h l).
Proof. induction 1; [apply spaced_nil|]. by apply spaced_app. Qed.

Lemma reads_repeat k w a la :
  token_ok w = true → reads a la → reads (a +:+ repeat_text k (" " +:+ w)) (la ++ repeat (LWord w) k).
Proof.
  intros Hw. revert a la. induction k as [|k IH]; intros a la Ha; cbn [repeat_text repeat].
  { by rewrite str_app_nil_r, app_nil_r. }
  change (LWord w :: repeat (LWord w) k) with ([LWord w] ++ repeat (LWord w) k).
  rewrite app_assoc, <- str_app_assoc. apply IH, reads_join; [done|by apply reads_word].
Qed.

(** Text made of pieces in words, and the lexemes of the pieces. *)
Definition glue (ts : list string) : string := concat_sep " " ts.

Lemma glue_cons t ts : ts ≠ [] → glue (t :: ts) = t +:+ " " +:+ glue ts.
Proof. by destruct ts. Qed.

Lemma reads_glue ts ls : Forall2 reads ts ls → reads (glue ts) (concat ls).
Proof.
  induction 1 as [|t l ts ls Ht Hts IH]; [apply reads_nil|].
  destruct ts as [|t' ts]; [|rewrite glue_cons by done; by apply reads_join].
  inversion Hts. cbn. by rewrite app_nil_r.
Qed.

(** A word that is written out reads as itself, by computation. *)
Ltac token := apply reads_word; vm_compute; reflexivity.

(** ** Reading brackets in pieces *)

Definition word_ok (w : string) : bool := negb (bool_decide (w ∈ opening)).
Definition names_ok (stop : string) (ns : list string) : bool := forallb (λ n, negb (bool_decide (n = stop))) ns.
Fixpoint code_ok (c : fcode) : bool :=
  match c with
  | FWord w => word_ok w
  | FStr _ => true
  | FBind n => negb (bool_decide (n = "("))
  | FQuot b => forallb code_ok b
  | FLet ps b i o => names_ok "|" ps && forallb code_ok b && names_ok "--" i && names_ok ")" o
  end.

Lemma flats_eq q : (fix go l := match l with [] => [] | c :: l' => flat c ++ go l' end) q = flats q.
Proof. done. Qed.
Lemma flats_app a b : flats (a ++ b) = flats a ++ flats b.
Proof. induction a as [|c a IH]; [done|]. cbn. by rewrite IH, app_assoc. Qed.

Lemma read_params ps acc opened cur ls :
  names_ok "|" ps = true →
  read_in (Params acc) opened cur ((LWord <$> ps) ++ LWord "|" :: ls) =
  read_in Code ((Some (rev acc ++ ps), cur) :: opened) [] ls.
Proof.
  revert acc. induction ps as [|p ps IH]; intros acc Hp; [cbn; by rewrite app_nil_r|].
  cbn in Hp. apply andb_true_iff in Hp as [Hp%negb_true_iff Hps]. cbn. rewrite Hp, IH by done.
  cbn. by rewrite <- app_assoc.
Qed.
Lemma read_ins ps b i acc opened cur ls :
  names_ok "--" i = true →
  read_in (CallIns ps b acc) opened cur ((LWord <$> i) ++ LWord "--" :: ls) =
  read_in (CallOuts ps b (acc ++ i) []) opened cur ls.
Proof.
  revert acc. induction i as [|p i IH]; intros acc Hp; [cbn; by rewrite app_nil_r|].
  cbn in Hp. apply andb_true_iff in Hp as [Hp%negb_true_iff Hps]. cbn. rewrite Hp, IH by done.
  by rewrite <- app_assoc.
Qed.
Lemma read_outs ps b i o acc opened cur ls :
  names_ok ")" o = true →
  read_in (CallOuts ps b i acc) opened cur ((LWord <$> o) ++ LWord ")" :: ls) =
  read_in Code opened (FLet ps b i (acc ++ o) :: cur) ls.
Proof.
  revert acc. induction o as [|p o IH]; intros acc Hp; [cbn; by rewrite app_nil_r|].
  cbn in Hp. apply andb_true_iff in Hp as [Hp%negb_true_iff Hps]. cbn. rewrite Hp, IH by done.
  by rewrite <- app_assoc.
Qed.

Lemma read_close ps before opened cur ls :
  read_in Code ((Some ps, before) :: opened) cur (LWord "]" :: LWord "call(" :: ls) =
  read_in (CallIns ps (rev cur) []) opened before ls.
Proof. done. Qed.

Definition reads_back (c : fcode) : Prop :=
  code_ok c = true → ∀ opened cur ls,
  read_in Code opened cur (flat c ++ ls) = read_in Code opened (c :: cur) ls.

Lemma read_flats q :
  Forall reads_back q → forallb code_ok q = true → ∀ opened cur ls,
  read_in Code opened cur (flats q ++ ls) = read_in Code opened (rev q ++ cur) ls.
Proof.
  induction 1 as [|c q Hc Hq IH]; intros Hok opened cur ls; [done|].
  cbn in Hok. apply andb_true_iff in Hok as [Hc' Hok]. cbn [flats rev].
  rewrite <- app_assoc, Hc, IH by done. by rewrite <- app_assoc.
Qed.

Lemma read_flat c : reads_back c.
Proof.
  induction c as [w|s|n|b IH|ps b i o IH] using fcode_nested_ind; intros Hok opened cur ls.
  - cbn in Hok. unfold word_ok, opening in Hok. apply negb_true_iff, bool_decide_eq_false in Hok.
    cbn. repeat rewrite bool_decide_false by set_solver. done.
  - done.
  - cbn in Hok. apply negb_true_iff in Hok. cbn. by rewrite Hok.
  - cbn [flat]. rewrite flats_eq. cbn [app]. rewrite <- app_assoc. cbn [read_in].
    rewrite bool_decide_true by done. rewrite read_flats by done. cbn. by rewrite app_nil_r, rev_involutive.
  - cbn [code_ok] in Hok.
    apply andb_true_iff in Hok as [[[Hps Hb]%andb_true_iff Hi]%andb_true_iff Ho].
    cbn [flat]. rewrite flats_eq. cbn [app]. rewrite <- !app_assoc. cbn [read_in].
    rewrite bool_decide_false by done. rewrite bool_decide_true by done.
    cbn [app]. rewrite <- app_assoc, read_params by done. cbn [app rev].
    rewrite read_flats, <- app_assoc by done. cbn [app]. rewrite read_close, <- app_assoc, read_ins by done.
    cbn [app]. by rewrite read_outs, app_nil_r, rev_involutive.
Qed.

Lemma read_binders ns acc opened cur ls :
  names_ok ")" ns = true →
  read_in (Binders acc) opened cur ((LWord <$> ns) ++ LWord ")" :: ls) =
  read_in Code opened (rev (FBind <$> (rev ns ++ acc)) ++ cur) ls.
Proof.
  revert acc. induction ns as [|n ns IH]; intros acc Hn; [done|].
  cbn in Hn. apply andb_true_iff in Hn as [Hn%negb_true_iff Hns]. cbn. rewrite Hn, IH by done.
  by rewrite <- app_assoc.
Qed.

(** The code whose lexemes a text holds is the code that is read from it. *)
Lemma read_code_of t q : reads t (flats q) → forallb code_ok q = true → read_code t = Some q.
Proof.
  intros Ht Hq. unfold read_code. rewrite (reads_scan _ _ Ht).
  rewrite <- (app_nil_r (flats q)), read_flats by (try done; apply Forall_forall; intros; apply read_flat).
  cbn. by rewrite app_nil_r, rev_involutive.
Qed.

(** ** Running code in pieces

    [leads ρ c s ρ' s']: run from [ρ] and [s], the code [c] hands [ρ'] and
    [s'] to whatever follows it. *)
Section Leads.
Context `{FactorVM}.

Definition leads (ρ : env) (c : list fcode) (s : fstate) (ρ' : env) (s' : fstate) : Prop :=
  ∀ rest s2, frun ρ' rest s' s2 → frun ρ (c ++ rest) s s2.

Lemma leads_nil ρ s : leads ρ [] s ρ s.
Proof. by intros rest s2. Qed.
Lemma leads_app ρ a s ρ1 s1 b ρ2 s2 :
  leads ρ a s ρ1 s1 → leads ρ1 b s1 ρ2 s2 → leads ρ (a ++ b) s ρ2 s2.
Proof. intros Ha Hb rest s3 Hr. rewrite <- app_assoc. by apply Ha, Hb. Qed.
Lemma leads_cons ρ c s ρ1 s1 b ρ2 s2 :
  leads ρ [c] s ρ1 s1 → leads ρ1 b s1 ρ2 s2 → leads ρ (c :: b) s ρ2 s2.
Proof. apply leads_app. Qed.
Lemma leads_run ρ c s ρ' s' : leads ρ c s ρ' s' → frun ρ c s s'.
Proof. intros Hc. rewrite <- (app_nil_r c). apply Hc. constructor. Qed.

Lemma leads_local ρ w v st fs rs : ρ !! w = Some v → leads ρ [FWord w] (st, fs, rs) ρ (v :: st, fs, rs).
Proof. intros Hw rest s2 Hr. by eapply f_local. Qed.
Lemma leads_word ρ w s s' : ρ !! w = None → fstep w s s' → leads ρ [FWord w] s ρ s'.
Proof. intros Hw Hs rest s2 Hr. by eapply f_call. Qed.
Lemma leads_plain ρ w s s' : ρ !! w = None → plain_step w s s' → leads ρ [FWord w] s ρ s'.
Proof. intros Hw Hs. apply leads_word; [done|]. by constructor. Qed.
Lemma leads_fun ρ w args v st fs rs :
  ρ !! w = None → f_fun w args v → leads ρ [FWord w] (rev args ++ st, fs, rs) ρ (v :: st, fs, rs).
Proof. intros Hw Hf. apply leads_plain; [done|]. by constructor. Qed.
Lemma leads_str ρ t st fs rs : leads ρ [FStr t] (st, fs, rs) ρ (f_str t :: st, fs, rs).
Proof. intros rest s2 Hr. by constructor. Qed.
Lemma leads_quot ρ q st fs rs : leads ρ [FQuot q] (st, fs, rs) ρ (f_quot ρ q :: st, fs, rs).
Proof. intros rest s2 Hr. by constructor. Qed.
Lemma leads_bind ρ n v st fs rs : leads ρ [FBind n] (v :: st, fs, rs) (<[n := v]> ρ) (st, fs, rs).
Proof. intros rest s2 Hr. by constructor. Qed.
End Leads.
