(* ===== verification/LetCodeFacts.v ===== *)
(** * LET code computes the LET form

    The postfix text of a form is read back as the code [let_code], and that
    code leaves on the stack the values of the form's results. *)
From stdpp Require Import strings gmap.
From Stdlib Require Import SpecFloat.
From S2P Require Import Prelude Bytes F64 LetLang Classes Resolve Factor LetCode SampleVM FactorFacts.

(** ** The code of a form *)

Definition words (ws : list string) : list fcode := FWord <$> ws.

Definition op_words (op : BinOp) : list string :=
  match op with
  | OpAdd => ["math:+"] | OpSub => ["math:-"] | OpMul => ["math:*"] | OpDiv => ["math:/"]
  | OpPow => ["math.functions:^"]
  | OpEq => ["kernel:="; "1.0"; "0.0"; "kernel:?"]
  | OpNe => ["kernel:="; "kernel:not"; "1.0"; "0.0"; "kernel:?"]
  | OpLt => ["math.order:<"; "1.0"; "0.0"; "kernel:?"]
  | OpGt => ["math.order:>"; "1.0"; "0.0"; "kernel:?"]
  | OpLe => ["math.order:<="; "1.0"; "0.0"; "kernel:?"]
  | OpGe => ["math.order:>="; "1.0"; "0.0"; "kernel:?"]
  end.

Fixpoint lwords (e : LExpr) : list string :=
  match e with
  | LLit n => [let_literal n]
  | LVar name => [factor_local name]
  | LNeg inner => lwords inner ++ ["math:neg"]
  | LBin op l r =>
      match op, small_power r with
      | OpPow, Some k => lwords l ++ repeat "dup" (k - 1) ++ repeat "math:*" (k - 1)
      | _, _ => lwords l ++ lwords r ++ op_words op
      end
  | LCall name args =>
      (fix go l := match l with [] => [] | a :: l' => lwords a ++ go l' end) args ++
      [factor_call_target name]
  end.

(** A binding before the results: a slot of an input, or a WHERE clause. *)
Inductive let_binding :=
  | BSlot (input accessor alias : string)
  | BWhere (name : string) (body : LExpr).

Definition slot_bindings (class_slots : class_map) (inp : LetInput) : list let_binding :=
  match li_destructure inp with
  | None => []
  | Some d =>
      let cls := lowercase (dc_class d) in
      (λ '(alias, slot), BSlot (li_name inp) (factor_user_name (cls +:+ ">" +:+ slot)) alias) <$>
        zip (dc_slots d) (default [] (class_slots !! cls))
  end.
Definition form_bindings (class_slots : class_map) (form : LetForm) : list let_binding :=
  flat_map (slot_bindings class_slots) (lf_inputs form) ++
  ((λ '(name, body), BWhere name body) <$> lf_wheres form).

Definition binding_code (b : let_binding) : list fcode :=
  match b with
  | BSlot input accessor alias => [FWord (factor_local input); FWord accessor; FBind (factor_local alias)]
  | BWhere name body => words (lwords body) ++ [FBind (factor_local name)]
  end.

Definition let_code (class_slots : class_map) (form : LetForm) : fcode :=
  let names := factor_local <$> (li_name <$> lf_inputs form) in
  FLet names (flat_map binding_code (form_bindings class_slots form) ++
              words (flat_map lwords (lf_results form)))
       names (factor_local <$> lf_outputs form).

(** ** The value of a form *)

Section Values.
Context `{FactorVM}.

(** [n] multiplications by [x]. *)
Fixpoint power_value (n : nat) (x v : fV) : Prop :=
  match n with
  | O => v = x
  | S n' => ∃ p, power_value n' x p ∧ f_fun "math:*" [x; p] v
  end.

(** A comparison is 1 or 0. *)
Definition one_or_zero (x : bool) : fV := f_float (f64_of_Z (if x then 1 else 0)).
Definition compares (w : string) (flip : bool) (a b v : fV) : Prop :=
  ∃ x, f_fun w [a; b] (f_bool x) ∧ v = one_or_zero (xorb flip x).

Definition bin_value (op : BinOp) (a b v : fV) : Prop :=
  match op with
  | OpAdd => f_fun "math:+" [a; b] v
  | OpSub => f_fun "math:-" [a; b] v
  | OpMul => f_fun "math:*" [a; b] v
  | OpDiv => f_fun "math:/" [a; b] v
  | OpPow => f_fun "math.functions:^" [a; b] v
  | OpEq => compares "kernel:=" false a b v
  | OpNe => compares "kernel:=" true a b v
  | OpLt => compares "math.order:<" false a b v
  | OpGt => compares "math.order:>" false a b v
  | OpLe => compares "math.order:<=" false a b v
  | OpGe => compares "math.order:>=" false a b v
  end.

(** A power by one of the literals 1 to 8, the number [S n], is a product. *)
Definition product_exponent (r : LExpr) (n : nat) : Prop := (n < 8)%nat ∧ r = LLit (f64_of_Z (Z.of_nat (S n))).
(** Every other power is computed as such: the exponent is no literal, no
    integer, below 1 or above 8. *)
Definition general_exponent (r : LExpr) : Prop :=
  ∀ x, r = LLit x → f64_is_integer x = true → f64_lt x (f64_of_Z 1) = true ∨ f64_lt (f64_of_Z 8) x = true.

(** The word of Factor that a function of LET stands for. *)
Definition call_word (name : string) : string :=
  if decide (name ∈ ["sqrt"; "floor"; "round"; "sin"; "cos"; "tan"; "asin"; "acos"; "atan"; "exp"; "log"; "hypot"])
  then "math.functions:" +:+ name
  else if decide (name ∈ ["min"; "max"]) then "math.order:" +:+ name
  else if decide (name ∈ ["pi"; "e"]) then "math.constants:" +:+ name
  else if decide (name = "abs") then "math:abs"
  else if decide (name = "ceil") then "math.functions:ceiling"
  else if decide (name = "trunc") then "math.functions:truncate"
  else if decide (name = "pow") then "math.functions:^"
  else if decide (name = "atan2") then "math.libm:fatan2"
  else "kernel:throw-LET-unknown-call".

(** The value of an expression, its names bound in [ρ]: its operators on the
    values of its parts, a power by one of the literals 1 to 8 as a product. *)
Fixpoint lvalue (ρ : env) (e : LExpr) (v : fV) : Prop :=
  match e with
  | LLit n => v = f_float n
  | LVar name => ρ !! name = Some v
  | LNeg inner => ∃ x, lvalue ρ inner x ∧ f_fun "math:neg" [x] v
  | LBin op l r =>
      (∃ x n, op = OpPow ∧ product_exponent r n ∧ lvalue ρ l x ∧ power_value n x v) ∨
      (∃ x y, (op = OpPow → general_exponent r) ∧ lvalue ρ l x ∧ lvalue ρ r y ∧ bin_value op x y v)
  | LCall name args =>
      ∃ vs, (fix go l vs := match l, vs with
                            | [], [] => True
                            | a :: l', v :: vs' => lvalue ρ a v ∧ go l' vs'
                            | _, _ => False
                            end) args vs ∧ f_fun (call_word name) vs v
  end.

Definition binding_value (ρ : env) (b : let_binding) (ρ' : env) : Prop :=
  match b with
  | BSlot input accessor alias =>
      ∃ x v, ρ !! input = Some x ∧ f_fun accessor [x] v ∧ ρ' = <[alias := v]> ρ
  | BWhere name body => ∃ v, lvalue ρ body v ∧ ρ' = <[name := v]> ρ
  end.
Fixpoint bindings_value (ρ : env) (bs : list let_binding) (ρ' : env) : Prop :=
  match bs with
  | [] => ρ' = ρ
  | b :: bs' => ∃ ρ1, binding_value ρ b ρ1 ∧ bindings_value ρ1 bs' ρ'
  end.

(** The results of a form on arguments. *)
Definition form_value (class_slots : class_map) (form : LetForm) (args results : list fV) : Prop :=
  ∃ ρ, bindings_value (bind_all (li_name <$> lf_inputs form) args ∅) (form_bindings class_slots form) ρ ∧
       Forall2 (lvalue ρ) (lf_results form) results.
End Values.

(** ** Reading the text *)

Section LExprInd.
Context (P : LExpr → Prop).
Context (HLit : ∀ n, P (LLit n)) (HVar : ∀ n, P (LVar n)) (HNeg : ∀ e, P e → P (LNeg e)).
Context (HBin : ∀ op l r, P l → P r → P (LBin op l r)).
Context (HCall : ∀ n args, Forall P args → P (LCall n args)).
Fixpoint LExpr_nested_ind (e : LExpr) : P e :=
  match e with
  | LLit n => HLit n
  | LVar n => HVar n
  | LNeg a => HNeg a (LExpr_nested_ind a)
  | LBin op l r => HBin op l r (LExpr_nested_ind l) (LExpr_nested_ind r)
  | LCall n args =>
      HCall n args ((fix go l : Forall P l :=
        match l with [] => Forall_nil_2 P | a :: l' => Forall_cons_2 P a l' (LExpr_nested_ind a) (go l') end) args)
  end.
End LExprInd.

Definition lex_words (ws : list string) : list lexeme := LWord <$> ws.

Lemma lex_words_app a b : lex_words (a ++ b) = lex_words a ++ lex_words b.
Proof. apply fmap_app. Qed.
Lemma lex_words_repeat k w : lex_words (repeat w k) = repeat (LWord w) k.
Proof. induction k as [|k IH]; [done|]. cbn. by f_equal. Qed.
Lemma flats_words ws : flats (words ws) = lex_words ws.
Proof. induction ws as [|w ws IH]; [done|]. cbn. by f_equal. Qed.
Lemma words_app a b : words (a ++ b) = words a ++ words b.
Proof. apply fmap_app. Qed.

Lemma lwords_call name args : lwords (LCall name args) = flat_map lwords args ++ [factor_call_target name].
Proof. cbn. f_equal. Qed.

(** The two shapes of a binary expression. *)
Definition small (op : BinOp) (r : LExpr) : option nat := match op with OpPow => small_power r | _ => None end.
Lemma lwords_bin op l r :
  lwords (LBin op l r) =
  match small op r with
  | Some k => lwords l ++ repeat "dup" (k - 1) ++ repeat "math:*" (k - 1)
  | None => lwords l ++ lwords r ++ op_words op
  end.
Proof. by destruct op. Qed.
Lemma emit_bin op l r :
  emit_lexpr (LBin op l r) =
  match small op r with
  | Some k => emit_lexpr l +:+ repeat_text (k - 1) " dup" +:+ repeat_text (k - 1) " math:*"
  | None => emit_lexpr l +:+ " " +:+ emit_lexpr r +:+ " " +:+ factor_bin_op op
  end.
Proof. by destruct op. Qed.
(** The choice of a product is the one of the code generator. *)
Lemma product_small r n : product_exponent r n → small_power r = Some (S n).
Proof. intros [Hn ->]. do 8 (destruct n as [|n]; [vm_compute; reflexivity|]). lia. Qed.
Lemma general_small r : general_exponent r → small_power r = None.
Proof.
  intros Hg. destruct r as [x| | | |]; [|done..]. unfold small_power. destruct (f64_is_integer x) eqn:Hi; [|done]. cbn [andb].
  destruct (Hg x eq_refl Hi) as [H%f64_lt_not_le|H%f64_lt_not_le]; by rewrite H, ?andb_false_r.
Qed.
Lemma digits2_pos_bounds m : (2 ^ (Z.pos (digits2_pos m) - 1) ≤ Z.pos m < 2 ^ Z.pos (digits2_pos m))%Z.
Proof.
  induction m as [m IH|m IH|]; cbn [digits2_pos]; [| |done];
    rewrite Pos2Z.inj_succ; replace (Z.succ (Z.pos (digits2_pos m)) - 1)%Z with (Z.succ (Z.pos (digits2_pos m) - 1))%Z by lia;
    rewrite !Z.pow_succ_r by lia; lia.
Qed.
(** The doubles from 1 to 8 that are integers. *)
Lemma small_integers x : valid_binary f64_prec f64_emax x = true → f64_is_integer x = true →
  f64_lt x (f64_of_Z 1) = false → f64_lt (f64_of_Z 8) x = false → ∃ n, (n < 8)%nat ∧ x = f64_of_Z (Z.of_nat (S n)).
Proof.
  intros Hv Hi H1 H8.
  assert (H1' : ¬ f64_lt x (f64_of_Z 1) = true) by congruence.
  assert (H8' : ¬ f64_lt (f64_of_Z 8) x = true) by congruence. clear H1 H8.
  change (f64_of_Z 1) with (S754_finite false 4503599627370496 (-52)) in H1'.
  change (f64_of_Z 8) with (S754_finite false 4503599627370496 (-49)) in H8'.
  rewrite f64_lt_key in H1', H8'.
  destruct x as [[]|[]| |[] m e]; cbn [f64_key is_nan key_lt] in *; try done; try (exfalso; intuition lia).
  assert (He : (-52 ≤ e ≤ -49)%Z) by (clear -H1' H8'; intuition lia).
  assert (Hm : (4503599627370496 ≤ Z.pos m < 9007199254740992)%Z ∧ (e = -49 → m = 4503599627370496%positive)%Z).
  { pose proof (digits2_pos_bounds m) as Hd. cbn [valid_binary] in Hv. unfold bounded, canonical_mantissa, SpecFloat.fexp, SpecFloat.emin, f64_prec, f64_emax in Hv.
    apply andb_true_iff in Hv as [Hv _]. apply Zeq_bool_eq in Hv. unfold fexp, emin in Hv.
    assert (Z.pos (digits2_pos m) = 53)%Z as Hd53 by lia. rewrite Hd53 in Hd. split; [lia|]. intros ->. lia. }
  cbn [f64_is_integer] in Hi. replace (0 <=? e)%Z with false in Hi by lia. cbn [orb] in Hi. apply Z.eqb_eq in Hi.
  apply Z.mod_divide in Hi as [q Hq]; [|lia].
  assert (Hc : (e = -52 ∧ q = 1 ∨ e = -51 ∧ 2 ≤ q < 4 ∨ e = -50 ∧ 4 ≤ q < 8 ∨ e = -49 ∧ q = 8)%Z).
  { assert (e = -52 ∨ e = -51 ∨ e = -50 ∨ e = -49)%Z as [-> | [-> | [-> | ->]]] by lia; cbn in Hq; lia. }
  exists (Z.to_nat (q - 1)). split; [lia|]. replace (Z.of_nat (S _)) with q by lia.
  destruct Hc as [[-> ->]|[[-> ?]|[[-> ?]|[-> ->]]]]; cbn in Hq.
  - replace m with 4503599627370496%positive by lia. vm_compute. reflexivity.
  - assert (q = 2 ∨ q = 3)%Z as [-> | ->] by lia; [replace m with 4503599627370496%positive by lia|replace m with 6755399441055744%positive by lia]; vm_compute; reflexivity.
  - assert (q = 4 ∨ q = 5 ∨ q = 6 ∨ q = 7)%Z as [-> | [-> | [-> | ->]]] by lia; cbn in Hq;
    apply (f_equal Z.to_pos) in Hq; cbn in Hq; subst m; vm_compute; reflexivity.
  - replace m with 4503599627370496%positive by lia. vm_compute. reflexivity.
Qed.
(** A literal that is a double is of the one kind or the other. *)
Lemma exponent_cases x : valid_binary f64_prec f64_emax x = true →
  general_exponent (LLit x) ∨ ∃ n, product_exponent (LLit x) n.
Proof.
  intros Hv. destruct (f64_is_integer x) eqn:Hi; [|left; intros x' [= <-]; by rewrite Hi].
  destruct (f64_lt x (f64_of_Z 1)) eqn:H1; [left; intros x' [= <-] _; by left|].
  destruct (f64_lt (f64_of_Z 8) x) eqn:H8; [left; intros x' [= <-] _; by right|].
  right. destruct (small_integers x Hv Hi H1 H8) as (n & Hn & ->). by exists n.
Qed.
Lemma lvalue_bin `{FactorVM} ρ op l r v :
  lvalue ρ (LBin op l r) v →
  match small op r with
  | Some k => ∃ x, lvalue ρ l x ∧ power_value (k - 1) x v
  | None => ∃ x y, lvalue ρ l x ∧ lvalue ρ r y ∧ bin_value op x y v
  end.
Proof.
  intros [(x & n & -> & Hr & Hx & Hv)|(x & y & Hg & Hv)].
  - unfold small. rewrite (product_small r n Hr). exists x. by rewrite Nat.sub_succ, Nat.sub_0_r.
  - replace (small op r) with (@None nat); [by exists x, y|]. destruct op; try done. unfold small. by rewrite general_small by auto.
Qed.

Lemma call_word_target name : factor_call_target name = call_word name.
Proof.
  unfold factor_call_target. destruct (list_find _ _) as [[i [n t]]|] eqn:E.
  - apply list_find_Some in E as (Hi & Hn & _). cbn in Hn. subst n. apply list_elem_of_lookup_2 in Hi.
    assert (forallb (λ r, bool_decide (call_word r.1 = r.2)) call_targets = true) as Hall by (vm_compute; reflexivity).
    rewrite forallb_forall in Hall. apply list_elem_of_In, Hall, bool_decide_eq_true in Hi. done.
  - assert (Hk : name ∉ call_targets.*1).
    { intros ([n t] & -> & Hn)%list_elem_of_fmap. by apply (proj1 (Forall_forall _ _) (proj1 (list_find_None _ _) E)) in Hn. }
    unfold call_word. unfold call_targets in Hk. cbn in Hk. rewrite !not_elem_of_cons in Hk.
    rewrite !decide_False; [done|..]; rewrite ?not_elem_of_cons; tauto.
Qed.

Lemma reads_op op : reads (factor_bin_op op) (lex_words (op_words op)).
Proof. destruct op; intros [|c s] Hs; cbn in *; try done; unfold scan; cbn; by rewrite Hs. Qed.

Lemma target_ok name : token_ok (factor_call_target name) = true.
Proof.
  unfold factor_call_target. destruct (list_find _ _) as [[i [n t]]|] eqn:E; [|done].
  apply list_find_Some in E as (Hi & _ & _). apply list_elem_of_lookup_2 in Hi.
  assert (forallb (λ r, token_ok r.2) call_targets = true) as Hall by (vm_compute; reflexivity).
  rewrite forallb_forall in Hall. by apply (Hall (n, t)), list_elem_of_In.
Qed.

Lemma reads_lexpr e : forallb token_ok (lwords e) = true → reads (emit_lexpr e) (lex_words (lwords e)).
Proof.
  induction e as [n|n|e IH|op l r IHl IHr|name args IH] using LExpr_nested_ind; intros Hok.
  - cbn in *. rewrite andb_true_r in Hok. by apply reads_word.
  - cbn in *. rewrite andb_true_r in Hok. by apply reads_word.
  - cbn [lwords emit_lexpr] in *. rewrite forallb_app in Hok. apply andb_true_iff in Hok as [Hok _].
    rewrite lex_words_app. apply (reads_join _ _ "math:neg"); [auto|token].
  - rewrite lwords_bin, emit_bin in *. destruct (small op r) as [k|]; rewrite !forallb_app in Hok.
    + apply andb_true_iff in Hok as [Hok _].
      rewrite !lex_words_app, app_assoc, !lex_words_repeat, <- str_app_assoc.
      apply (reads_repeat _ "math:*"); [done|]. apply (reads_repeat _ "dup"); auto.
    + apply andb_true_iff in Hok as [Hl [Hr _]%andb_true_iff].
      rewrite !lex_words_app. apply reads_join; [auto|]. apply reads_join; [auto|apply reads_op].
  - rewrite lwords_call, forallb_app in *. apply andb_true_iff in Hok as [Hok _].
    rewrite lex_words_app. cbn [emit_lexpr]. apply spaced_reads; [|apply reads_word, target_ok].
    clear -IH Hok. induction IH as [|a args Ha _ IH]; [apply spaced_nil|]. cbn [flat_map] in *.
    rewrite forallb_app in Hok. apply andb_true_iff in Hok as [H1 H2].
    rewrite lex_words_app. apply spaced_app; [|by apply IH]. apply reads_spaced, Ha, H1.
Qed.

(** ** Running the code *)

Definition is_local_word (w : string) : bool := starts_with "nfl-" w.

Fixpoint literals (e : LExpr) : list f64 :=
  match e with
  | LLit n => [n]
  | LVar _ => []
  | LNeg a => literals a
  | LBin op l r => literals l ++ match small op r with Some _ => [] | None => literals r end
  | LCall _ args => (fix go l := match l with [] => [] | a :: l' => literals a ++ go l' end) args
  end.

Section RunExpr.
Context `{FactorVM}.

(** The machine reads the literals as the numbers they are. *)
Definition literal_reads (n : f64) : Prop :=
  f_read (let_literal n) = Some (f_float n) ∧ is_local_word (let_literal n) = false.
Definition truth_reads : Prop :=
  f_read "1.0" = Some (f_float (f64_of_Z 1)) ∧ f_read "0.0" = Some (f_float (f64_of_Z 0)).
(** No word of [ws] but a LET name is bound in [ρ]. *)
Definition hygienic (ρ : env) (ws : list string) : Prop :=
  ∀ w, w ∈ ws → is_local_word w = false → ρ !! w = None.

(** The names of a LET form are the prefixed ones of the code. *)
Definition bound_as (η ρ : env) : Prop := ∀ n v, η !! n = Some v → ρ !! factor_local n = Some v.
Lemma bound_insert η ρ n v : bound_as η ρ → bound_as (<[n := v]> η) (<[factor_local n := v]> ρ).
Proof.
  intros Hb m x. destruct (decide (n = m)) as [->|Hne]; [by rewrite !lookup_insert_eq|].
  rewrite !lookup_insert_ne; [apply Hb| |done]. intros E. apply Hne. unfold factor_local in E. by apply (inj _) in E.
Qed.
Lemma bound_bind η ρ ns vs : bound_as η ρ → bound_as (bind_all ns vs η) (bind_all (factor_local <$> ns) vs ρ).
Proof.
  revert vs η ρ. induction ns as [|n ns IH]; intros [|v vs] η ρ Hb; try done. cbn. by apply IH, bound_insert.
Qed.
Lemma bound_empty ρ : bound_as ∅ ρ.
Proof. intros n v. by rewrite lookup_empty. Qed.
Lemma hygienic_app ρ a b : hygienic ρ (a ++ b) ↔ hygienic ρ a ∧ hygienic ρ b.
Proof. unfold hygienic. setoid_rewrite elem_of_app. naive_solver. Qed.
Lemma hygienic_insert ρ ws n v : hygienic ρ ws → hygienic (<[factor_local n := v]> ρ) ws.
Proof.
  intros Hh w Hw Hl. rewrite lookup_insert_ne; [by apply Hh|]. intros <-.
  unfold is_local_word, factor_local in Hl. by rewrite starts_with_app in Hl.
Qed.
Lemma hygienic_bind ρ ws ns vs :
  hygienic ρ ws → hygienic (bind_all (factor_local <$> ns) vs ρ) ws.
Proof.
  revert vs ρ. induction ns as [|n ns IH]; intros vs ρ Hh; [done|].
  destruct vs as [|v vs]; [done|]. cbn. by apply IH, hygienic_insert.
Qed.

Context (Htruth : truth_reads).

Lemma truth_leads ρ (x : bool) st fs rs :
  hygienic ρ ["1.0"; "0.0"; "kernel:?"] →
  leads ρ (words ["1.0"; "0.0"; "kernel:?"]) (f_bool x :: st, fs, rs) ρ (one_or_zero x :: st, fs, rs).
Proof using Htruth.
  intros Hh. destruct Htruth as [H1 H0]. cbn.
  eapply leads_cons; [apply leads_plain; [apply Hh; set_solver|by apply p_number]|].
  eapply leads_cons; [apply leads_plain; [apply Hh; set_solver|by apply p_number]|].
  replace (one_or_zero x) with (if x then f_float (f64_of_Z 1) else f_float (f64_of_Z 0)) by by destruct x.
  apply leads_plain; [apply Hh; set_solver|apply p_choose].
Qed.

Lemma compare_leads ρ w (flip : bool) a b v st fs rs :
  compares w flip a b v → is_local_word w = false →
  hygienic ρ (w :: (if flip then ["kernel:not"] else []) ++ ["1.0"; "0.0"; "kernel:?"]) →
  leads ρ (words (w :: (if flip then ["kernel:not"] else []) ++ ["1.0"; "0.0"; "kernel:?"]))
    (b :: a :: st, fs, rs) ρ (v :: st, fs, rs).
Proof using Htruth.
  intros (x & Hf & ->) Hw Hh. cbn [words fmap list_fmap].
  eapply leads_cons; [apply (leads_fun _ _ [a; b]); [apply Hh; [set_solver|done]|exact Hf]|].
  destruct flip; cbn [app xorb].
  - eapply leads_cons; [apply leads_plain; [apply Hh; [set_solver|done]|apply p_not]|].
    replace (if x then false else true) with (negb x) by by destruct x.
    apply truth_leads. intros w' Hw'. apply Hh. set_solver.
  - replace (if x then true else false) with x by by destruct x.
    apply truth_leads. intros w' Hw'. apply Hh. set_solver.
Qed.

Lemma bin_leads ρ op a b v st fs rs :
  bin_value op a b v → hygienic ρ (op_words op) →
  leads ρ (words (op_words op)) (b :: a :: st, fs, rs) ρ (v :: st, fs, rs).
Proof using Htruth.
  destruct op; cbn [bin_value op_words]; intros Hv Hh;
    first [ apply (leads_fun _ _ [a; b]); [apply Hh; [set_solver|done]|exact Hv]
          | apply (compare_leads ρ _ _ _ _ _ _ _ _ Hv eq_refl); exact Hh ].
Qed.

Lemma repeat_last {A} (x : A) n : repeat x (S n) = repeat x n ++ [x].
Proof. apply repeat_cons. Qed.

Lemma dup_leads ρ n x st fs rs :
  ρ !! "dup" = None →
  leads ρ (words (repeat "dup" n)) (x :: st, fs, rs) ρ (x :: repeat x n ++ st, fs, rs).
Proof.
  intros Hd. revert st. induction n as [|n IH]; intros st; [apply leads_nil|]. cbn [repeat words fmap list_fmap].
  eapply leads_cons; [apply leads_plain; [done|apply p_dup]|].
  change (x :: repeat x n) with (repeat x (S n)). rewrite repeat_last, <- app_assoc.
  apply IH.
Qed.

Lemma power_leads ρ n x v st fs rs :
  power_value n x v → (n ≠ 0%nat → ρ !! "math:*" = None) →
  leads ρ (words (repeat "math:*" n)) (x :: repeat x n ++ st, fs, rs) ρ (v :: st, fs, rs).
Proof.
  revert v st. induction n as [|n IH]; intros v st Hv Hm; [rewrite Hv; apply leads_nil|].
  destruct Hv as (p & Hp & Hf).
  rewrite !repeat_last, words_app, <- app_assoc.
  eapply leads_app; [apply (IH _ _ Hp); intros _; by apply Hm|].
  apply (leads_fun _ _ [x; p]); [by apply Hm|done].
Qed.

Lemma lvalue_call ρ name args v :
  lvalue ρ (LCall name args) v ↔ ∃ vs, Forall2 (lvalue ρ) args vs ∧ f_fun (call_word name) vs v.
Proof.
  cbn [lvalue]. apply exist_proper. intros vs. apply and_iff_compat_r. clear.
  revert vs. induction args as [|a args IH]; intros [|v vs]; rewrite ?Forall2_cons, ?IH;
    split; try done; inversion 1.
Qed.

Lemma args_leads η ρ args vs st fs rs :
  Forall (λ e, ∀ v st, lvalue η e v → hygienic ρ (lwords e) → Forall literal_reads (literals e) →
            leads ρ (words (lwords e)) (st, fs, rs) ρ (v :: st, fs, rs)) args →
  Forall2 (lvalue η) args vs → hygienic ρ (flat_map lwords args) →
  Forall literal_reads (flat_map literals args) →
  leads ρ (words (flat_map lwords args)) (st, fs, rs) ρ (rev vs ++ st, fs, rs).
Proof.
  intros Hall. revert vs st. induction Hall as [|a args Ha Hall IH]; intros vs st Hvs Hh Hl;
    inversion Hvs; subst; [apply leads_nil|].
  cbn [flat_map] in *. rewrite words_app. apply hygienic_app in Hh as [Hh1 Hh2].
  apply Forall_app in Hl as [Hl1 Hl2]. cbn [rev]. rewrite <- app_assoc.
  eapply leads_app; [by apply Ha|by apply IH].
Qed.

Lemma lexpr_leads η ρ e v st fs rs :
  bound_as η ρ → lvalue η e v → hygienic ρ (lwords e) → Forall literal_reads (literals e) →
  leads ρ (words (lwords e)) (st, fs, rs) ρ (v :: st, fs, rs).
Proof using Htruth.
  intros Hη. revert v st. induction e as [n|n|e IH|op l r IHl IHr|name args IH] using LExpr_nested_ind;
    intros v st Hv Hh Hl.
  - cbn in *. subst v. apply Forall_cons in Hl as [[Hr Hw] _].
    apply leads_plain; [apply Hh; [set_solver|done]|by constructor].
  - by apply leads_local, Hη.
  - destruct Hv as (x & Hx & Hf). cbn [lwords literals] in *. rewrite words_app.
    apply hygienic_app in Hh as [Hh1 Hh2]. eapply leads_app; [by apply IH|].
    apply (leads_fun _ _ [x]); [apply Hh2; [set_solver|done]|done].
  - apply lvalue_bin in Hv. rewrite lwords_bin in *. cbn [literals] in Hl.
    destruct (small op r) as [k|].
    + destruct Hv as (x & Hx & Hp). rewrite !words_app. rewrite app_nil_r in Hl.
      apply hygienic_app in Hh as [Hh1 [Hh2 Hh3]%hygienic_app].
      eapply leads_app; [by apply IHl|].
      destruct (k - 1)%nat as [|n]; [destruct Hp; apply leads_nil|].
      eapply leads_app; [apply dup_leads, Hh2; [by apply elem_of_cons; left|done]|].
      apply power_leads; [done|]. intros _. apply Hh3; [by apply elem_of_cons; left|done].
    + destruct Hv as (x & y & Hx & Hy & Hb). rewrite !words_app.
      apply hygienic_app in Hh as [Hh1 [Hh2 Hh3]%hygienic_app]. apply Forall_app in Hl as [Hl1 Hl2].
      eapply leads_app; [by apply IHl|]. eapply leads_app; [by apply IHr|]. by apply bin_leads.
  - rewrite lvalue_call in Hv. destruct Hv as (vs & Hvs & Hf). rewrite <- call_word_target in Hf. rewrite lwords_call in *. rewrite words_app.
    apply hygienic_app in Hh as [Hh1 Hh2].
    eapply leads_app; [apply (args_leads η); try done; apply Forall_forall; intros a Ha v' st';
                       rewrite Forall_forall in IH; by apply IH|].
    apply leads_fun; [|done]. apply Hh2; [set_solver|].
    unfold factor_call_target. destruct (list_find _ _) as [[i [n t]]|] eqn:E; [|done].
    apply list_find_Some in E as (Hi & _ & _). apply list_elem_of_lookup_2 in Hi.
    assert (forallb (λ r, negb (is_local_word r.2)) call_targets = true) as Hall by (vm_compute; reflexivity).
    rewrite forallb_forall in Hall. by apply negb_true_iff, (Hall (n, t)), list_elem_of_In.
Qed.
End RunExpr.

(** ** The text of a form *)

Definition lex_ok (l : lexeme) : bool := match l with LWord w => token_ok w | LStr _ => true | LBad => false end.
Definition lexes_ok (c : list fcode) : bool := forallb lex_ok (flats c).

(** The names and literals of a form are words, and its code has balanced
    brackets. *)
Definition form_ok (class_slots : class_map) (form : LetForm) : bool :=
  lexes_ok [let_code class_slots form] && code_ok (let_code class_slots form).

Lemma lexes_ok_app a b : lexes_ok (a ++ b) = lexes_ok a && lexes_ok b.
Proof. unfold lexes_ok. by rewrite flats_app, forallb_app. Qed.
Lemma lexes_ok_words ws : lexes_ok (words ws) = forallb token_ok ws.
Proof. unfold lexes_ok. rewrite flats_words. induction ws as [|w ws IH]; [done|]. cbn. by f_equal. Qed.
Lemma flats_flat_map {A} (g : A → list fcode) l : flats (flat_map g l) = flat_map (λ x, flats (g x)) l.
Proof. induction l as [|x l IH]; [done|]. cbn. by rewrite flats_app, IH. Qed.
Lemma lexes_ok_flat_map {A} (g : A → list fcode) l :
  lexes_ok (flat_map g l) = true → Forall (λ x, lexes_ok (g x) = true) l.
Proof.
  induction l as [|x l IH]; [done|]. cbn [flat_map]. rewrite lexes_ok_app.
  intros [Hx Hl]%andb_true_iff. constructor; auto.
Qed.

Lemma spaced_slot input accessor alias :
  lexes_ok (binding_code (BSlot input accessor alias)) = true →
  spaced (factor_local input +:+ " " +:+ accessor +:+ " :> " +:+ factor_local alias +:+ " ")
    (flats (binding_code (BSlot input accessor alias))).
Proof.
  intros Hok. assert (token_ok (factor_local input) = true ∧ token_ok accessor = true ∧
                      token_ok (factor_local alias) = true) as (Hi & Ha & Hl).
  { unfold lexes_ok in Hok. cbn -[token_ok factor_local] in Hok. rewrite !andb_true_iff in Hok. tauto. }
  replace (_ +:+ " " +:+ _)
    with ((((factor_local input +:+ " " +:+ accessor) +:+ " " +:+ ":>") +:+ " " +:+ factor_local alias) +:+ " ")
    by by rewrite !str_app_assoc.
  apply reads_spaced, (reads_join _ [_; _; _]); [|by apply reads_word].
  apply (reads_join _ [_; _]); [|token]. apply (reads_join _ [_]); by apply reads_word.
Qed.

Lemma destructures_spaced cs ins acc la t :
  destructures cs ins acc = Ok t → spaced acc la →
  lexes_ok (flat_map binding_code (flat_map (slot_bindings cs) ins)) = true →
  spaced t (la ++ flats (flat_map binding_code (flat_map (slot_bindings cs) ins))).
Proof.
  revert acc la. induction ins as [|inp ins IH]; intros acc la; cbn [flat_map].
  { intros [= ->] Hacc _. by rewrite app_nil_r. }
  unfold destructures. cbn [fold_result]. fold (destructures cs).
  rewrite flat_map_app, flats_app, lexes_ok_app, app_assoc. intros Ht Hacc [Hok1 Hok2]%andb_true_iff.
  apply result_bind_ok in Ht as (out & Hout & Ht).
  apply result_bind_ok in Hout as (t1 & Ht1 & [= <-]). eapply IH; [exact Ht| |done].
  apply spaced_app; [done|]. clear -Ht1 Hok1. unfold destructure, slot_bindings in *.
  destruct (li_destructure inp) as [d|]; [|by injection Ht1 as <-].
  apply result_bind_ok in Ht1 as (actual & Hact & Ht1).
  destruct (cs !! lowercase (dc_class d)) as [slots|] eqn:Hcs; [|done]. injection Hact as <-.
  destruct (_ <? _)%nat; [done|]. injection Ht1 as <-. cbn [default from_option] in *. change (id slots) with slots in *.
  rewrite flats_flat_map. apply lexes_ok_flat_map in Hok1.
  induction (zip (dc_slots d) slots) as [|[alias slot] zs IH]; [apply spaced_nil|].
  apply Forall_cons in Hok1 as [Hz Hzs]. cbn [fmap list_fmap flat_map text_with].
  apply spaced_app; [by apply spaced_slot|by apply IH].
Qed.

Lemma spaced_where name body :
  lexes_ok (binding_code (BWhere name body)) = true →
  spaced (emit_lexpr body +:+ " :> " +:+ factor_local name +:+ " ") (flats (binding_code (BWhere name body))).
Proof.
  cbn [binding_code]. rewrite lexes_ok_app, lexes_ok_words, flats_app, flats_words.
  intros [Hb Hn]%andb_true_iff. unfold lexes_ok in Hn. cbn -[token_ok factor_local] in Hn.
  rewrite !andb_true_iff in Hn.
  replace (_ +:+ " :> " +:+ _)
    with ((emit_lexpr body +:+ " " +:+ (":>" +:+ " " +:+ factor_local name)) +:+ " ")
    by by rewrite !str_app_assoc.
  apply reads_spaced, reads_join; [by apply reads_lexpr|].
  apply (reads_join _ [_] _ [_]); [token|apply reads_word; tauto].
Qed.

Lemma spaced_names ns :
  forallb token_ok (factor_local <$> ns) = true → spaced (name_list ns) (lex_words (factor_local <$> ns)).
Proof.
  unfold name_list. induction ns as [|n ns IH]; [intros; apply spaced_nil|].
  cbn [fmap list_fmap forallb text_with]. intros [Hn Hns]%andb_true_iff.
  apply (spaced_app _ [LWord (factor_local n)]); [by apply reads_spaced, reads_word|by apply IH].
Qed.

Lemma flat_let ps b i o :
  flat (FLet ps b i o) =
  [LWord "[|"] ++ lex_words ps ++ [LWord "|"] ++ flats b ++ [LWord "]"; LWord "call("] ++
  lex_words i ++ [LWord "--"] ++ lex_words o ++ [LWord ")"].
Proof. done. Qed.

Lemma flat_map_fmap {A B C} (f : B → list C) (g : A → B) l : flat_map f (g <$> l) = flat_map (λ x, f (g x)) l.
Proof. induction l as [|x l IH]; [done|]. cbn. by f_equal. Qed.
Lemma forallb_lex_words ws : forallb lex_ok (lex_words ws) = forallb token_ok ws.
Proof. induction ws as [|w ws IH]; [done|]. cbn. by f_equal. Qed.

Lemma spaced_wheres wheres :
  lexes_ok (flat_map binding_code ((λ '(name, body), BWhere name body) <$> wheres)) = true →
  spaced (text_with (λ '(name, body), emit_lexpr body +:+ " :> " +:+ factor_local name +:+ " ") wheres)
    (flats (flat_map binding_code ((λ '(name, body), BWhere name body) <$> wheres))).
Proof.
  intros Hok%lexes_ok_flat_map. rewrite Forall_fmap in Hok. rewrite flat_map_fmap, flats_flat_map.
  apply spaced_text. eapply Forall_impl; [exact Hok|]. intros [name body]. apply spaced_where.
Qed.

Lemma spaced_results results :
  forallb token_ok (flat_map lwords results) = true →
  spaced (text_with (λ r, emit_lexpr r +:+ " ") results) (lex_words (flat_map lwords results)).
Proof.
  induction results as [|e results IH]; [intros; apply spaced_nil|].
  cbn [flat_map text_with]. rewrite forallb_app, lex_words_app. intros [He Hr]%andb_true_iff.
  apply spaced_app; [by apply reads_spaced, reads_lexpr|by apply IH].
Qed.

(** The text of a form is the lexemes of its code. *)
Lemma lower_reads class_slots form t :
  lower_to_factor form class_slots = Ok t → lexes_ok [let_code class_slots form] = true →
  reads t (flat (let_code class_slots form)).
Proof.
  intros Ht Hlex. unfold lower_to_factor in Ht.
  apply result_bind_ok in Ht as (slots & Hslots & [= <-]).
  unfold lexes_ok in Hlex. cbn [flats] in Hlex. rewrite app_nil_r in Hlex.
  unfold let_code, form_bindings in *. rewrite flat_let in *.
  rewrite flat_map_app, !flats_app, flats_words, !forallb_app, !forallb_lex_words, !andb_true_iff in *.
  destruct Hlex as (_ & Hin & _ & ((Hsl & Hwh) & Hres) & _ & _ & _ & Hout & _).
  apply (spaced_reads "[| "); [apply (reads_spaced "[|"); token|].
  apply spaced_reads; [by apply spaced_names|].
  apply (spaced_reads "| "); [apply (reads_spaced "|"); token|]. rewrite <- !app_assoc.
  apply spaced_reads; [eapply (destructures_spaced _ _ "" []); [exact Hslots|apply spaced_nil|exact Hsl]|].
  apply spaced_reads; [by apply spaced_wheres|].
  apply spaced_reads; [by apply spaced_results|].
  apply (spaced_reads "] call( " [LWord "]"; LWord "call("]).
  { apply (spaced_app "] " [LWord "]"] "call( "); [apply (reads_spaced "]")|apply (reads_spaced "call(")]; token. }
  apply spaced_reads; [by apply spaced_names|].
  apply (spaced_reads "-- "); [apply (reads_spaced "--"); token|].
  apply spaced_reads; [by apply spaced_names|token].
Qed.

(** ** The form computes its value *)

(** The words and the literals of a form's code. *)
Definition form_words (class_slots : class_map) (form : LetForm) : list string :=
  flat_map (λ b, match b with BSlot _ accessor _ => [accessor] | BWhere _ body => lwords body end)
    (form_bindings class_slots form) ++ flat_map lwords (lf_results form).
Definition form_literals (form : LetForm) : list f64 :=
  flat_map (λ w, literals (snd w)) (lf_wheres form) ++ flat_map literals (lf_results form).

Section RunForm.
Context `{FactorVM} (Htruth : truth_reads).

Definition binding_literals (b : let_binding) : list f64 :=
  match b with BSlot _ _ _ => [] | BWhere _ body => literals body end.
Definition binding_words (b : let_binding) : list string :=
  match b with BSlot _ accessor _ => [accessor] | BWhere _ body => lwords body end.

Lemma binding_leads η ρ b η' st fs rs :
  bound_as η ρ → binding_value η b η' → hygienic ρ (binding_words b) → Forall literal_reads (binding_literals b) →
  (match b with BSlot _ accessor _ => is_local_word accessor = false | _ => True end) →
  ∃ ρ', bound_as η' ρ' ∧ (∀ ws, hygienic ρ ws → hygienic ρ' ws) ∧
    leads ρ (binding_code b) (st, fs, rs) ρ' (st, fs, rs).
Proof using Htruth.
  intros Hη. destruct b as [input accessor alias|name body]; cbn [binding_value binding_words binding_literals binding_code].
  - intros (x & v & Hx & Hf & ->) Hh _ Hacc. exists (<[factor_local alias := v]> ρ).
    split; [by apply bound_insert|]. split; [intros ws; apply hygienic_insert|].
    eapply leads_cons; [by apply leads_local, Hη|].
    eapply leads_cons; [apply (leads_fun _ _ [x]); [by apply Hh; [set_solver|]|exact Hf]|apply leads_bind].
  - intros (v & Hv & ->) Hh Hl _. exists (<[factor_local name := v]> ρ).
    split; [by apply bound_insert|]. split; [intros ws; apply hygienic_insert|].
    eapply leads_app; [by eapply lexpr_leads|apply leads_bind].
Qed.

Lemma bindings_leads bs η ρ η' ws st fs rs :
  bound_as η ρ → bindings_value η bs η' → hygienic ρ (flat_map binding_words bs ++ ws) →
  Forall literal_reads (flat_map binding_literals bs) →
  Forall (λ b, match b with BSlot _ accessor _ => is_local_word accessor = false | _ => True end) bs →
  ∃ ρ', bound_as η' ρ' ∧ hygienic ρ' ws ∧ leads ρ (flat_map binding_code bs) (st, fs, rs) ρ' (st, fs, rs).
Proof using Htruth.
  revert η ρ. induction bs as [|b bs IH]; intros η ρ Hη Hv Hh Hl Hacc.
  { cbn in Hv. subst η'. exists ρ. split; [done|]. split; [done|apply leads_nil]. }
  destruct Hv as (η1 & Hb & Hbs). cbn [flat_map] in *. rewrite <- app_assoc in Hh.
  apply Forall_app in Hl as [Hl1 Hl2]. inversion Hacc as [|? ? Ha Hacc']; subst.
  apply hygienic_app in Hh as [Hh1 Hh2].
  destruct (binding_leads η ρ b η1 st fs rs) as (ρ1 & Hη1 & Hkeep & Hrun1); [done..|].
  destruct (IH η1 ρ1) as (ρ' & Hη' & Hws & Hrun); [done|done|by apply Hkeep|done|done|].
  exists ρ'. split; [done|]. split; [done|]. by eapply leads_app.
Qed.

Lemma results_leads η ρ es vs st fs rs :
  bound_as η ρ → Forall2 (lvalue η) es vs → hygienic ρ (flat_map lwords es) → Forall literal_reads (flat_map literals es) →
  leads ρ (words (flat_map lwords es)) (st, fs, rs) ρ (rev vs ++ st, fs, rs).
Proof using Htruth.
  intros Hη Hvs Hh Hl. apply (args_leads η); try done. apply Forall_forall. intros e _ v st' Hv Hh' Hl'.
  by apply (lexpr_leads Htruth η).
Qed.
End RunForm.

Lemma user_name_not_local n : is_local_word (factor_user_name n) = false.
Proof. done. Qed.
Lemma form_accessors class_slots form :
  Forall (λ b, match b with BSlot _ accessor _ => is_local_word accessor = false | _ => True end)
    (form_bindings class_slots form).
Proof.
  apply Forall_forall. intros b [Hb|Hb]%elem_of_app.
  - apply list_elem_of_In, in_flat_map in Hb as (inp & _ & Hb). unfold slot_bindings in Hb.
    destruct (li_destructure inp) as [d|]; [|done].
    apply list_elem_of_In, list_elem_of_fmap in Hb as ([alias slot] & -> & _). apply user_name_not_local.
  - by apply list_elem_of_fmap in Hb as ([name body] & -> & _).
Qed.
Lemma slot_literals class_slots inp : flat_map binding_literals (slot_bindings class_slots inp) = [].
Proof.
  unfold slot_bindings. destruct (li_destructure inp) as [d|]; [|done].
  rewrite flat_map_fmap. by induction (zip _ _) as [|[a s] l IH].
Qed.
Lemma form_binding_literals class_slots form :
  flat_map binding_literals (form_bindings class_slots form) = flat_map (λ w, literals (snd w)) (lf_wheres form).
Proof.
  unfold form_bindings. rewrite flat_map_app, flat_map_fmap.
  replace (flat_map binding_literals (flat_map _ _)) with (@nil f64).
  { apply flat_map_ext. by intros [name body]. }
  induction (lf_inputs form) as [|inp l IH]; [done|]. cbn [flat_map].
  by rewrite flat_map_app, slot_literals, <- IH.
Qed.

(** ** A whole form *)

Lemma let_leads `{FactorVM} class_slots form ρ args results st fs rs :
  length (lf_results form) = length (lf_outputs form) → length args = length (lf_inputs form) →
  truth_reads → Forall literal_reads (form_literals form) → hygienic ρ (form_words class_slots form) →
  form_value class_slots form args results →
  leads ρ [let_code class_slots form] (rev args ++ st, fs, rs) ρ (rev results ++ st, fs, rs).
Proof.
  intros Harity Hargs Htruth [Hl1 Hl2]%Forall_app Hscope (η & Hbind & Hres).
  pose proof (Forall2_length _ _ _ Hres) as Hlen. intros rest s2 Hrest. unfold let_code.
  apply f_let with results fs rs; rewrite ?length_fmap; try done; [lia|].
  destruct (bindings_leads Htruth (form_bindings class_slots form) (bind_all (li_name <$> lf_inputs form) args ∅)
              (bind_all (factor_local <$> (li_name <$> lf_inputs form)) args ρ) η
              (flat_map lwords (lf_results form)) st fs rs) as (ρ' & Hη & Hh & Hrun); try done.
  - apply bound_bind, bound_empty.
  - by apply hygienic_bind.
  - by rewrite form_binding_literals.
  - apply form_accessors.
  - apply leads_run with ρ'. eapply leads_app; [exact Hrun|]. by apply (results_leads Htruth η).
Qed.

(** C3: a LET form compiles to what it denotes.  The Factor text the code
    generator writes is read back as one quotation called on the spot; run on
    the arguments on top of any stack, it leaves the results of the form there
    and changes nothing else.  What the form denotes is said without the code
    generator: names are bound as the form writes them, destructured slots first
    and then the WHERE clauses in order; comparisons are 1.0 and 0.0; a power by
    one of the literals 1 to 8 is the product of so many factors, and any other
    one is [math.functions:^] ([exponent_cases]: there is no third kind of double);
    a call is the word that [call_word] gives.  The names and literals
    of the form are to be words of the text ([form_ok]), the machine is to read
    the literals, 1.0 and 0.0 as the numbers they are, there are as many
    results as outputs and arguments as inputs, and no word the form uses is
    bound as a local name around it ([hygienic]). *)
Theorem let_code_correct `{FactorVM} (class_slots : class_map) (form : LetForm) (t : string)
    (ρ : env) (args results st : list fV) (fs : list Frame) (rs : fR)
    (Htext : lower_to_factor form class_slots = Ok t)
    (Hok : form_ok class_slots form = true)
    (Harity : length (lf_results form) = length (lf_outputs form))
    (Hargs : length args = length (lf_inputs form))
    (Htruth : truth_reads) (Hlits : Forall literal_reads (form_literals form))
    (Hscope : hygienic ρ (form_words class_slots form))
    (Hvalue : form_value class_slots form args results) :
  ∃ q, read_code t = Some q ∧ frun ρ q (rev args ++ st, fs, rs) (rev results ++ st, fs, rs).
Proof.
  exists [let_code class_slots form]. split.
  { apply andb_true_iff in Hok as [Hl Hc]. apply read_code_of; [|cbn [forallb]; by rewrite Hc].
    cbn [flats]. rewrite app_nil_r. by apply lower_reads. }
  by eapply leads_run, let_leads.
Qed.

Definition sample_form : LetForm := Eval vm_compute in
  match let_parse "LET (x, k) -> (y z) = a + k ** 2, x < a WHERE a = x * 2 END" with
  | Done f => f | _ => mkLetForm [] [] [] [] end.
Definition num (z : Z) : val := VNum (f64_of_Z z).

Lemma let_code_correct_witness :
  ∃ q, read_code "[| nfl-x nfl-k | nfl-x 2.0 math:* :> nfl-a nfl-a nfl-k dup math:* math:+ nfl-x nfl-a math.order:<   1.0 0.0 kernel:? ] call( nfl-x nfl-k -- nfl-y nfl-z )" = Some q ∧
    frun ∅ q ([num 4; num 3], [], mkRest ∅ []) ([num 1; num 22], [], mkRest ∅ []).
Proof.
  apply (@let_code_correct SampleVM ∅ sample_form _ ∅ [num 3; num 4] [num 22; num 1] [] [] (mkRest ∅ [])).
  - vm_compute. reflexivity.
  - vm_compute. reflexivity.
  - reflexivity.
  - reflexivity.
  - split; vm_compute; reflexivity.
  - assert (∀ l, forallb (λ n, match vm_read (let_literal n) with Some (VNum x) => bool_decide (x = n) | _ => false end
                            && negb (is_local_word (let_literal n))) l = true →
             Forall literal_reads l) as Hl.
    { intros l. induction l as [|n l IH]; [done|]. intros [[Hr Hw]%andb_true_iff Hl]%andb_true_iff.
      constructor; [|by apply IH]. split; [|by apply negb_true_iff]. cbn.
      destruct (vm_read _) as [[]|]; try done. by apply bool_decide_eq_true in Hr as ->. }
    apply Hl. vm_compute. reflexivity.
  - intros w _ _. apply lookup_empty.
  - exists (<[ "a" := num 6 ]> (<[ "k" := num 4 ]> (<[ "x" := num 3 ]> ∅))). split.
    + eexists. split; [exists (num 6); split; [|reflexivity]|vm_compute; reflexivity].
      right. exists (num 3), (num 2). split; [done|]. repeat split; vm_compute; reflexivity.
    + repeat (apply Forall2_cons; split); [| |apply Forall2_nil_2].
      * right. exists (num 6), (num 16). split; [done|]. split; [vm_compute; reflexivity|]. split; [|vm_compute; reflexivity].
        left. exists (num 4), 1%nat. split; [done|]. split; [split; [lia|vm_compute; reflexivity]|].
        split; [vm_compute; reflexivity|]. exists (num 4). split; vm_compute; reflexivity.
      * right. exists (num 3), (num 6). split; [done|]. split; [vm_compute; reflexivity|]. split; [vm_compute; reflexivity|].
        exists true. split; vm_compute; reflexivity.
Defined.
