(* ===== verification/EmitCode.v ===== *)
(** * The code of a body

    [code_exprs] gives the Factor code of a body as a tree; the text the emitter
    writes is read back as that tree. *)
From stdpp Require Import strings gmap.
From S2P Require Import Prelude Bytes F64 Lex LetLang Ast Classes Resolve Effect.
From S2P Require Import Factor LetCode Sema Emit FactorFacts LetCodeFacts.

Definition print_string : fcode := FWord "forth.runtime:print-string".

Definition lit_code (l : Literal) : list fcode :=
  match l with
  | LitInt v _ => [FWord (pretty v)]
  | LitFloat v _ => [FWord (float_text v)]
  | LitStr v kind _ =>
      FStr v :: match kind with
                | DotQuote => [print_string]
                | SQuote => [FWord "forth.runtime:s-quote-runtime"]
                | SDollarQuote | CQuote => []
                end
  end.

Definition local_code (l : LocalDecl) (f : Fresh) : fcode * Fresh :=
  let '(n, f1) := local_name l f in (FBind n, f1).

Section Code.
Context (r : Sema).

Definition let_expr_code (form : LetForm) : list fcode :=
  match lower_to_factor form (s_class_slots r) with
  | Ok _ => [let_code (s_class_slots r) form]
  | Err e => [FStr ("LET codegen error: " +:+ e); print_string]
  end.

Definition code_seq_with (g : Expr → Fresh → list fcode * Fresh)
    : list Expr → Fresh → list fcode * Fresh :=
  fix go l f :=
    match l with
    | [] => ([], f)
    | e :: l1 => let '(c, f1) := g e f in let '(c', f2) := go l1 f1 in (c ++ c', f2)
    end.
Definition chain_code (arm : CaseArm → Fresh → (list fcode * list fcode) * Fresh)
    (last_code : Fresh → list fcode * Fresh) : list CaseArm → Fresh → list fcode * Fresh :=
  fix go arms f :=
    match arms with
    | [] => last_code f
    | head :: tail =>
        let '((m, b), f1) := arm head f in
        let '(rest, f2) := go tail f1 in
        (FWord "dup" :: m ++ [FWord "="; FQuot (FWord "drop" :: b); FQuot rest; FWord "kernel:if"], f2)
    end.

Definition step_code (k : LoopKind) : list fcode := match k with Plus1 => [FWord "1"] | PlusN => [] end.
Definition do_word (is_qdo : bool) : string :=
  if is_qdo then "forth.runtime:?do-loop" else "forth.runtime:do-loop".

Fixpoint code_expr (e : Expr) (f : Fresh) : list fcode * Fresh :=
  match e with
  | Lit l => (lit_code l, f)
  | WordRef name span => ([FWord (target_text r name span)], f)
  | If t None _ =>
      let '(thn, f1) := code_seq_with code_expr t f in
      ([FWord "math:zero?"; FQuot thn; FWord "kernel:unless"], f1)
  | If t (Some eb) _ =>
      let '(et, f1) := code_seq_with code_expr eb f in
      let '(thn, f2) := code_seq_with code_expr t f1 in
      ([FWord "math:zero?"; FQuot et; FQuot thn; FWord "kernel:if"], f2)
  | BeginUntil b _ =>
      let '(bt, f1) := code_seq_with code_expr b f in
      ([FQuot (bt ++ [FWord "math:zero?"]); FWord "kernel:loop"], f1)
  | BeginWhileRepeat p b _ =>
      let '(pt, f1) := code_seq_with code_expr p f in
      let '(bt, f2) := code_seq_with code_expr b f1 in
      ([FQuot (pt ++ [FWord "math:zero?"; FQuot [FWord "f"]; FQuot (bt ++ [FWord "t"]); FWord "kernel:if"]);
        FWord "kernel:loop"], f2)
  | BeginAgain b _ =>
      let '(bt, f1) := code_seq_with code_expr b f in
      ([FQuot (bt ++ [FWord "t"]); FWord "kernel:loop"], f1)
  | DoLoop is_qdo b loop_kind _ =>
      let '(bt, f1) := code_seq_with code_expr b f in
      ([FQuot (bt ++ step_code loop_kind); FWord (do_word is_qdo)], f1)
  | Case arms d _ =>
      chain_code code_arm
        (λ f, match d with
              | Some b => let '(t, f1) := code_seq_with code_expr b f in (t ++ [FWord "kernel:drop"], f1)
              | None => ([FWord "kernel:drop"], f)
              end) arms f
  | Tick name span => ([FQuot [FWord (target_text r name span)]], f)
  | To name _ => ([FWord (value_storage_name (lowercase name)); FWord "set-global"], f)
  | See name _ => ([FStr (see_report (s_docs r) name); print_string], f)
  | LetExpr form _ => (let_expr_code form, f)
  | Locals names _ => map_state local_code (rev names) f
  end
with code_arm (a : CaseArm) (f : Fresh) : (list fcode * list fcode) * Fresh :=
  match a with
  | mkArm m b _ =>
      let '(mt, f1) := code_seq_with code_expr m f in
      let '(bt, f2) := code_seq_with code_expr b f1 in ((mt, bt), f2)
  end.
Definition code_exprs : list Expr → Fresh → list fcode * Fresh := code_seq_with code_expr.

(** ** The text is read back *)

(** A text for a code, with the same counters after both. *)
Definition text_for (out : string * Fresh) (code : list fcode * Fresh) : Prop :=
  snd out = snd code ∧ (lexes_ok (fst code) = true → reads (fst out) (flats (fst code))).

Definition no_narrow : Prop := ∀ n, is_narrow r n = false.
End Code.

Lemma lexes_ok_cons c l : lexes_ok (c :: l) = lexes_ok [c] && lexes_ok l.
Proof. apply (lexes_ok_app [c]). Qed.
Lemma lexes_ok_quot b : lexes_ok [FQuot b] = lexes_ok b.
Proof.
  unfold lexes_ok. cbn [flats flat]. rewrite flats_eq, app_nil_r. cbn [forallb].
  rewrite forallb_app. cbn. by rewrite andb_true_r.
Qed.
Lemma flats_cons c l : flats (c :: l) = flats [c] ++ flats l.
Proof. apply (flats_app [c] l). Qed.
Lemma flats_quot b : flats [FQuot b] = [LWord "["] ++ flats b ++ [LWord "]"].
Proof. cbn [flats flat]. by rewrite flats_eq, app_nil_r. Qed.
Lemma flats_word w : flats [FWord w] = [LWord w].
Proof. done. Qed.

Lemma reads_quot t b : reads t (flats b) → reads ("[ " +:+ t +:+ " ]") (flats [FQuot b]).
Proof.
  intros Ht. rewrite flats_quot. apply (reads_join "["); [token|].
  apply reads_join; [done|token].
Qed.

(** ** Strings that were escaped by replacements *)

Fixpoint str_flat (f : ascii → string) (s : string) : string :=
  match s with EmptyString => "" | String c r => f c +:+ str_flat f r end.
Lemma str_flat_app f a b : str_flat f (a +:+ b) = str_flat f a +:+ str_flat f b.
Proof.
  induction a as [|c a IH]; [done|]. rewrite str_app_cons. cbn [str_flat]. by rewrite IH, str_app_assoc.
Qed.
Lemma str_flat_flat f g s : str_flat f (str_flat g s) = str_flat (λ c, str_flat f (g c)) s.
Proof. induction s as [|c s IH]; [done|]. cbn [str_flat]. by rewrite str_flat_app, IH. Qed.
Lemma replace_flat c by_ s :
  replace_byte c by_ s = str_flat (λ b, if (b =? c)%char then by_ else String b "") s.
Proof. induction s as [|b s IH]; [done|]. cbn. rewrite <- IH. by destruct (b =? c)%char. Qed.

Lemma replace_app c by_ a b : replace_byte c by_ (a +:+ b) = replace_byte c by_ a +:+ replace_byte c by_ b.
Proof. by rewrite !replace_flat, str_flat_app. Qed.

(** An escaping that the scanner undoes byte by byte. *)
Definition undone (f : ascii → string) : Prop :=
  ∀ b acc u, scan_in (InStr acc) (f b +:+ u) = scan_in (InStr (acc +:+ String b "")) u.
Lemma reads_flat f s : undone f → reads (quoted_text (str_flat f s)) [LStr s].
Proof.
  intros Hf u _. unfold quoted_text. rewrite !str_app_assoc. unfold scan at 1.
  change (dquote +:+ str_flat f s +:+ dquote +:+ u) with (String "034" (str_flat f s +:+ dquote +:+ u)).
  cbn [scan_in]. change (is_blank "034") with false. change (is_dquote "034") with true. cbn [app].
  change (LStr s) with (LStr ("" +:+ s)). generalize "" as acc.
  induction s as [|b s IH]; intros acc; [cbn; by rewrite str_app_nil_r|].
  cbn [str_flat]. by rewrite str_app_assoc, Hf, IH, str_app_assoc.
Qed.
Lemma undone_plain b acc u :
  is_dquote b = false → (b =? "\")%char = false →
  scan_in (InStr acc) (String b "" +:+ u) = scan_in (InStr (acc +:+ String b "")) u.
Proof. intros Hq Hb. rewrite str_app_cons. cbn [scan_in]. by rewrite Hq, Hb. Qed.

Lemma reads_error e :
  reads (quoted_text (replace_byte "034" ("\" +:+ dquote) (replace_byte "\" "\\" e))) [LStr e].
Proof.
  rewrite !replace_flat, str_flat_flat. apply reads_flat. intros b acc u.
  destruct (Stdlib.Strings.Ascii.eqb_spec b "\"%char) as [->|H1]; [done|].
  cbn [str_flat]. rewrite str_app_nil_r.
  destruct (Stdlib.Strings.Ascii.eqb_spec b "034"%char) as [->|H2]; [done|].
  apply Stdlib.Strings.Ascii.eqb_neq in H1, H2. by apply undone_plain.
Qed.
Lemma reads_report s : reads (quoted_text (escape_report s)) [LStr s].
Proof.
  unfold escape_report. rewrite !replace_flat, !str_flat_flat. apply reads_flat. intros b acc u.
  destruct (Stdlib.Strings.Ascii.eqb_spec b "\"%char) as [->|H1]; [done|].
  cbn [str_flat]. rewrite ?str_app_nil_r.
  destruct (Stdlib.Strings.Ascii.eqb_spec b "034"%char) as [->|H2]; [done|].
  cbn [str_flat]. rewrite ?str_app_nil_r.
  destruct (Stdlib.Strings.Ascii.eqb_spec b "010"%char) as [->|H3]; [done|].
  apply Stdlib.Strings.Ascii.eqb_neq in H1, H2, H3. by apply undone_plain.
Qed.

(** ** Expression by expression *)

Section Reads.
Context (r : Sema) (Hnarrow : no_narrow r).
#[local] Set Default Proof Using "Hnarrow".

Lemma text_seq l :
  Forall (λ e, ∀ f, text_for (emit_expr r e f) (code_expr r e f)) l →
  ∀ f, text_for (emit_seq_with r (emit_expr r) l f) (code_seq_with (code_expr r) l f).
Proof.
  induction 1 as [|e l1 He Hl IH]; intros f; [split; [done|]; intros _; apply reads_nil|].
  cbn [emit_seq_with code_seq_with].
  assert (∀ t, match l1 with
          | [] => t
          | e2 :: l2 =>
              match narrow_sink r e e2 with
              | Some t' => let '(t'', f1) := emit_seq_with r (emit_expr r) l2 f in (t' +:+ gap l2 +:+ t'', f1)
              | None => t
              end
          end = t) as Hno.
  { intros t. destruct l1 as [|e2 l2]; [done|].
    destruct e, e2; try done. cbn. by rewrite (Hnarrow _). }
  specialize (He f). destruct (emit_expr r e f) as [t f1], (code_expr r e f) as [c f1'].
  destruct He as [Ef He]. cbn in Ef, He. subst f1'. specialize (IH f1).
  rewrite Hno. fold (emit_seq_with r (emit_expr r)). fold (code_seq_with (code_expr r)).
  destruct (emit_seq_with r (emit_expr r) l1 f1) as [t' f2] eqn:Et.
  destruct (code_seq_with (code_expr r) l1 f1) as [c' f2'] eqn:Ec.
  destruct IH as [Ef IH]. cbn in Ef, IH. subst f2'. split; [done|]. cbn [fst].
  rewrite lexes_ok_app, flats_app. intros [Hc Hc']%andb_true_iff.
  destruct l1 as [|e2 l2]; [|by apply reads_join; auto].
  cbn in Et, Ec. simplify_eq. cbn [gap flats]. rewrite app_nil_r, !str_app_nil_r. auto.
Qed.

(** The part of a text, and of its code, that comes from a nested block. *)
Ltac part :=
  match goal with
  | H : Forall _ ?l |- context [emit_seq_with r (emit_expr r) ?l ?f] =>
      let t := fresh "t" in let c := fresh "c" in let E := fresh "E" in let R := fresh "R" in
      pose proof (text_seq l H f) as [E R];
      destruct (emit_seq_with r (emit_expr r) l f) as [t ?];
      destruct (code_seq_with (code_expr r) l f) as [c ?]; cbn [fst snd] in E, R; subst
  end.
(** The same text with its pieces grouped. *)
Ltac as_text u :=
  match goal with |- reads ?v _ => replace v with u by (rewrite !str_app_assoc; by repeat case_match) end.

Lemma reads_literal l : lexes_ok (lit_code l) = true → reads (emit_literal l) (flats (lit_code l)).
Proof.
  destruct l as [v s|v s|v k s]; cbn [lit_code emit_literal].
  - unfold lexes_ok. cbn -[pretty]. rewrite andb_true_r. apply reads_word.
  - unfold lexes_ok. cbn -[float_text]. rewrite andb_true_r. apply reads_word.
  - intros _. destruct k; cbn [flats flat app]; rewrite ?str_app_nil_r; try apply reads_string;
      (apply (reads_join _ [LStr v] _ [_]); [apply reads_string|token]).
Qed.

Lemma reads_locals names f :
  snd (emit_locals names f) = snd (map_state local_code (rev names) f) ∧
  (lexes_ok (fst (map_state local_code (rev names) f)) = true →
   spaced (fst (emit_locals names f)) (flats (fst (map_state local_code (rev names) f)))).
Proof.
  unfold emit_locals. revert f. induction (rev names) as [|l ls IH]; intros f; [split; [done|intros; apply spaced_nil]|].
  cbn [text_state map_state]. unfold local_code at 1 3 5. destruct (local_name l f) as [n f1].
  destruct (IH f1) as [Ef Hr]. clear IH. destruct (text_state _ ls f1) as [t f2].
  destruct (map_state local_code ls f1) as [c f3]. cbn [fst snd] in *. split; [done|].
  rewrite lexes_ok_cons. intros [Hn Hc]%andb_true_iff. rewrite flats_cons.
  apply spaced_app; [|auto]. unfold lexes_ok in Hn. cbn -[token_ok] in Hn. rewrite !andb_true_iff in Hn.
  apply (reads_spaced (":> " +:+ n)), (reads_join ":>" [_] n [_]); [token|apply reads_word; tauto].
Qed.

Lemma reads_let form :
  lexes_ok (let_expr_code r form) = true → reads (emit_let r form) (flats (let_expr_code r form)).
Proof.
  unfold let_expr_code, emit_let. destruct (lower_to_factor _ _) as [t|e] eqn:E.
  - intros Hok. cbn [flats]. rewrite app_nil_r. by apply lower_reads.
  - intros _. cbn [flats flat app]. apply (reads_join _ [_] _ [_]); [|token].
    pose proof (reads_error ("LET codegen error: " +:+ e)) as H. by rewrite !replace_app in H.
Qed.

Lemma text_opt d :
  (∀ b, d = Some b → Forall (λ e, ∀ f, text_for (emit_expr r e f) (code_expr r e f)) b) → ∀ f,
  text_for
    (match d with
     | Some b => let '(t, f1) := emit_seq_with r (emit_expr r) b f in (t +:+ " kernel:drop", f1)
     | None => ("kernel:drop", f)
     end)
    (match d with
     | Some b => let '(t, f1) := code_seq_with (code_expr r) b f in (t ++ [FWord "kernel:drop"], f1)
     | None => ([FWord "kernel:drop"], f)
     end).
Proof.
  destruct d as [b|]; intros H f; [|split; [done|intros _; token]].
  specialize (H b eq_refl). part. split; [done|]. cbn [fst]. rewrite lexes_ok_app, flats_app.
  intros [Hc _]%andb_true_iff. apply (reads_join _ _ "kernel:drop"); [auto|token].
Qed.

Lemma text_chain arms (lt : Fresh → string * Fresh) (lc : Fresh → list fcode * Fresh) :
  Forall (λ a, Forall (λ e, ∀ f, text_for (emit_expr r e f) (code_expr r e f)) (arm_match a) ∧
               Forall (λ e, ∀ f, text_for (emit_expr r e f) (code_expr r e f)) (arm_body a)) arms →
  (∀ f, text_for (lt f) (lc f)) → ∀ f,
  text_for (case_chain (emit_arm r) lt arms f) (chain_code (code_arm r) lc arms f).
Proof.
  intros Ha Hd. induction Ha as [|[m b s] arms [Hm Hb] _ IH]; intros f; [apply Hd|].
  cbn [case_chain chain_code emit_arm code_arm arm_match arm_body] in *. part. part.
  fold (case_chain (emit_arm r) lt). fold (chain_code (code_arm r) lc).
  match goal with |- context [case_chain _ _ _ ?g] => specialize (IH g) end.
  destruct (case_chain _ _ _ _) as [t' f3], (chain_code _ _ _ _) as [c' f3'].
  destruct IH as [Ef IH]. cbn in Ef, IH. subst f3'. split; [done|]. cbn [fst].
  change (FWord "dup" :: ?a) with ([FWord "dup"] ++ a).
  rewrite !lexes_ok_app, (lexes_ok_cons _ [_; _; _]), (lexes_ok_cons _ [_; _]), (lexes_ok_cons _ [_]),
          !lexes_ok_quot, (lexes_ok_cons _ c0), !andb_true_iff.
  intros (_ & Hm' & _ & (_ & Hb') & Hr & _).
  rewrite !flats_app, (flats_cons _ [_; _; _]), (flats_cons _ [_; _]), (flats_cons _ [_]).
  apply (reads_join "dup" [_]); [token|]. apply reads_join; [auto|].
  apply (reads_join "=" [_]); [token|].
  change (" ] [ " +:+ ?x) with (" ]" +:+ (" " +:+ ("[ " +:+ x))).
  as_text (("[ " +:+ ("drop " +:+ t0) +:+ " ]") +:+ " " +:+ ("[ " +:+ t' +:+ " ]") +:+ " " +:+ "kernel:if").
  apply reads_join; [apply reads_quot; rewrite (flats_cons _ c0); apply (reads_join "drop" [_]); [token|auto]|].
  apply reads_join; [apply reads_quot; auto|token].
Qed.

Lemma text_if t eb s f :
  Forall (λ e, ∀ f, text_for (emit_expr r e f) (code_expr r e f)) t → Forall (λ e, ∀ f, text_for (emit_expr r e f) (code_expr r e f)) eb →
  text_for (emit_expr r (If t (Some eb) s) f) (code_expr r (If t (Some eb) s) f).
Proof.
  intros Ht He. cbn [emit_expr code_expr]. part. part. split; [done|]. cbn [fst].
  rewrite (lexes_ok_cons _ [_; _; _]), (lexes_ok_cons _ [_; _]), (lexes_ok_cons _ [_]), !lexes_ok_quot,
    !andb_true_iff. intros (_ & Hc & Hc' & _).
  rewrite (flats_cons _ [_; _; _]), (flats_cons _ [_; _]), (flats_cons _ [_]).
  as_text ("math:zero?" +:+ " " +:+ ("[ " +:+ t0 +:+ " ]") +:+ " " +:+ ("[ " +:+ t1 +:+ " ]") +:+ " " +:+ "kernel:if").
  apply (reads_join "math:zero?" [_]); [token|]. apply reads_join; [apply reads_quot; auto|].
  apply reads_join; [apply reads_quot; auto|token].
Qed.
Lemma text_while p b s f :
  Forall (λ e, ∀ f, text_for (emit_expr r e f) (code_expr r e f)) p → Forall (λ e, ∀ f, text_for (emit_expr r e f) (code_expr r e f)) b →
  text_for (emit_expr r (BeginWhileRepeat p b s) f) (code_expr r (BeginWhileRepeat p b s) f).
Proof.
  intros Hp Hb. cbn [emit_expr code_expr]. part. part. split; [done|]. cbn [fst].
  rewrite (lexes_ok_cons _ [_]), !lexes_ok_quot, lexes_ok_app, (lexes_ok_cons _ [_; _; _]),
    (lexes_ok_cons _ [_; _]), (lexes_ok_cons _ [_]), !lexes_ok_quot, lexes_ok_app, !andb_true_iff.
  intros ((Hc & _ & _ & (Hc' & _) & _) & _). rewrite (flats_cons _ [_]).
  as_text (("[ " +:+ (t +:+ " " +:+ "math:zero?" +:+ " " +:+ ("[ " +:+ "f" +:+ " ]") +:+ " " +:+
                               ("[ " +:+ (t0 +:+ " " +:+ "t") +:+ " ]") +:+ " " +:+ "kernel:if") +:+ " ]") +:+
                    " " +:+ "kernel:loop").
  apply reads_join; [|token]. apply reads_quot.
  rewrite flats_app, (flats_cons _ [_; _; _]), (flats_cons _ [_; _]), (flats_cons _ [_]).
  apply reads_join; [auto|]. apply (reads_join "math:zero?" [_]); [token|].
  apply reads_join; [apply reads_quot; token|].
  apply reads_join; [apply reads_quot; rewrite flats_app; apply reads_join; [auto|token]|token].
Qed.

Lemma text_expr e : ∀ f, text_for (emit_expr r e f) (code_expr r e f).
Proof.
  induction e as [l|n s|t [eb|] s Ht He|b s Hb|p b s Hp Hb|b s Hb|q b k s Hb|arms d s Ha Hd|n s|n s|n s|form s|ns s]
    using Expr_nested_ind; intros f.
  - split; [done|]. apply reads_literal.
  - split; [done|]. unfold lexes_ok. cbn -[token_ok]. rewrite andb_true_r. apply reads_word.
  - apply text_if; auto.
  - cbn [emit_expr code_expr]. part. split; [done|]. cbn [fst].
    rewrite (lexes_ok_cons _ [_; _]), (lexes_ok_cons _ [_]), !lexes_ok_quot, !andb_true_iff.
    intros (_ & Hc & _). rewrite (flats_cons _ [_; _]), (flats_cons _ [_]).
    as_text ("math:zero?" +:+ " " +:+ ("[ " +:+ t0 +:+ " ]") +:+ " " +:+ "kernel:unless").
    apply (reads_join "math:zero?" [_]); [token|]. apply reads_join; [apply reads_quot; auto|token].
  - cbn [emit_expr code_expr]. part. split; [done|]. cbn [fst].
    rewrite (lexes_ok_cons _ [_]), !lexes_ok_quot, lexes_ok_app, !andb_true_iff.
    intros ((Hc & _) & _). rewrite (flats_cons _ [_]).
    as_text (("[ " +:+ (t +:+ " " +:+ "math:zero?") +:+ " ]") +:+ " " +:+ "kernel:loop").
    apply reads_join; [|token]. apply reads_quot. rewrite flats_app. apply reads_join; [auto|token].
  - by apply text_while.
  - cbn [emit_expr code_expr]. part. split; [done|]. cbn [fst].
    rewrite (lexes_ok_cons _ [_]), !lexes_ok_quot, lexes_ok_app, !andb_true_iff.
    intros ((Hc & _) & _). rewrite (flats_cons _ [_]).
    as_text (("[ " +:+ (t +:+ " " +:+ "t") +:+ " ]") +:+ " " +:+ "kernel:loop").
    apply reads_join; [|token]. apply reads_quot. rewrite flats_app. apply reads_join; [auto|token].
  - cbn [emit_expr code_expr]. part. split; [done|]. cbn [fst].
    rewrite (lexes_ok_cons _ [_]), !lexes_ok_quot, lexes_ok_app, !andb_true_iff.
    intros ((Hc & _) & _). rewrite (flats_cons _ [_]).
    as_text (("[ " +:+ (t +:+ match k with Plus1 => " 1" | PlusN => "" end) +:+ " ]") +:+ " " +:+ do_word q).
    apply reads_join; [|destruct q; token]. apply reads_quot. rewrite flats_app.
    destruct k; cbn [step_code flats]; [apply (reads_join _ _ "1"); [auto|token]|].
    rewrite str_app_nil_r, app_nil_r. auto.
  - cbn [emit_expr code_expr]. apply text_chain; [done|]. by apply text_opt.
  - split; [done|]. cbn [code_expr emit_expr fst]. rewrite lexes_ok_quot. unfold lexes_ok at 1.
    cbn -[token_ok]. rewrite andb_true_r. intros Hw.
    by apply (reads_quot (target_text r n s) [FWord _]), reads_word.
  - split; [done|]. cbn [code_expr emit_expr fst]. unfold lexes_ok. cbn -[token_ok value_storage_name].
    rewrite !andb_true_iff. intros (Hw & _). apply (reads_join _ [_] "set-global"); [by apply reads_word|token].
  - split; [done|]. intros _. cbn [code_expr emit_expr fst]. unfold emit_see.
    apply (reads_join _ [_] "forth.runtime:print-string"); [apply reads_report|token].
  - split; [done|]. apply reads_let.
  - cbn [code_expr emit_expr]. destruct (reads_locals ns f) as [Ef Hr]. split; [done|].
    intros Hok u _. by apply Hr.
Qed.

(** The text of a body is the lexemes of its code. *)
Lemma emit_reads l f : text_for (emit_exprs r l f) (code_exprs r l f).
Proof. apply text_seq, Forall_forall. intros e _. apply text_expr. Qed.
End Reads.
