(* ===== verification/EmitFacts.v ===== *)
(** * The emitted code runs as the body does

    The source semantics of [Semantics], instantiated with a Factor machine and
    the targets of a semantic model, and a forward simulation: a body that ends
    normally is emitted as Factor code with the same effect on data stack,
    loop frames and the rest of the state.  The Forth locals of a definition
    live in one flat scope, the Factor ones in lexical scopes: [scope_seq] is
    the check under which the two agree. *)
From stdpp Require Import strings gmap.
From S2P Require Import Prelude Bytes F64 Lex LetLang Ast Semantics Classes Parse Resolve Effect.
From S2P Require Import Factor LetCode Sema Pipeline Emit SampleVM FactorFacts LetCodeFacts EmitCode.
From S2P Require LowerQdup LowerExit.

(** ** Scopes

    [Γ] holds the locals that are visible, and ["_"] when a discarded value
    has a name of its own. *)
Definition is_discard (w : string) : bool := starts_with "_d" w.
Definition free (Γ : gset string) (w : string) : bool := bool_decide (w ∉ Γ) && negb (is_discard w).
Definition all_free (Γ : gset string) (ws : list string) : bool := forallb (free Γ) ws.

Definition lit_words (l : Literal) : list string :=
  match l with
  | LitInt v _ => [pretty v]
  | LitFloat v _ => [float_text v]
  | LitStr _ DotQuote _ => ["forth.runtime:print-string"]
  | LitStr _ SQuote _ => ["forth.runtime:s-quote-runtime"]
  | LitStr _ _ _ => []
  end.

(** A name bound at its place: new, and written the way it is referred to. *)
Definition scope_local (l : LocalDecl) (Γ : gset string) : option (gset string) :=
  if bool_decide (ld_name l = "_") then Some ({["_"]} ∪ Γ)
  else
    let lc := lowercase (ld_name l) in
    if bool_decide (undot lc = lc) && bool_decide (lc ≠ "_") && free Γ lc then Some ({[lc]} ∪ Γ) else None.
Definition scope_names : list LocalDecl → gset string → option (gset string) :=
  fix go ls Γ := match ls with [] => Some Γ | l :: ls' => Γ1 ← scope_local l Γ; go ls' Γ1 end.

Section Scope.
Context (r : Sema).

Definition scope_word (Γ : gset string) (name : string) (span : Span) : bool :=
  match s_word_targets r !! span with
  | Some (Local lc) => bool_decide (lc ∈ Γ) && bool_decide (lc ≠ "_")
  | Some t =>
      free Γ (to_factor_token t)
  | None => false
  end &&
  if eq_nocase name "dup" then bool_decide (target_text r name span = "dup") && free Γ "dup"
  else if eq_nocase name "drop" then bool_decide (target_text r name span = "drop") && free Γ "drop"
  else negb (eq_nocase name "?dup").

Definition scope_with (g : Expr → gset string → option (gset string))
    : list Expr → gset string → option (gset string) :=
  fix go l Γ := match l with [] => Some Γ | e :: l' => Γ1 ← g e Γ; go l' Γ1 end.

(** [ws] are free at the end of a block. *)
Definition ends_free (ws : list string) (o : option (gset string)) : bool :=
  match o with Some Γ => all_free Γ ws | None => false end.
Definition keep (ok : bool) (Γ : gset string) : option (gset string) := if ok then Some Γ else None.

(** The chain of a [CASE]: the locals of a match are visible after it. *)
Definition scope_chain (match_ body : CaseArm → gset string → option (gset string))
    (last_scope : gset string → option (gset string)) : list CaseArm → gset string → option (gset string) :=
  fix go arms Γ :=
    match arms with
    | [] => Γ1 ← last_scope Γ; keep (all_free Γ1 ["kernel:drop"]) Γ1
    | a :: arms' =>
        Γ1 ← match_ a Γ;
        keep (free Γ "dup" && all_free Γ1 ["="; "drop"; "kernel:if"] && ends_free [] (body a Γ1) &&
              ends_free [] (go arms' Γ1)) Γ1
    end.

Definition scope_let (Γ : gset string) (form : LetForm) : bool :=
  let cs := s_class_slots r in
  match lower_to_factor form cs with
  | Ok _ => form_ok cs form && (length (lf_results form) =? length (lf_outputs form))%nat &&
            forallb (λ w, is_local_word w || free Γ w) (form_words cs form)
  | Err _ => false
  end.

Fixpoint scope_expr (e : Expr) (Γ : gset string) : option (gset string) :=
  match e with
  | Lit l => keep (all_free Γ (lit_words l)) Γ
  | WordRef name span => keep (scope_word Γ name span) Γ
  | If t el _ =>
      keep (all_free Γ ["math:zero?"; "kernel:if"; "kernel:unless"] && ends_free [] (scope_with scope_expr t Γ) &&
            match el with Some b => ends_free [] (scope_with scope_expr b Γ) | None => true end) Γ
  | BeginUntil b _ => keep (free Γ "kernel:loop" && ends_free ["math:zero?"] (scope_with scope_expr b Γ)) Γ
  | BeginWhileRepeat p b _ =>
      keep (free Γ "kernel:loop" &&
            match scope_with scope_expr p Γ with
            | Some Γ1 => all_free Γ1 ["math:zero?"; "f"; "kernel:if"] &&
                         ends_free ["t"] (scope_with scope_expr b Γ1)
            | None => false
            end) Γ
  | BeginAgain b _ => keep (free Γ "kernel:loop" && ends_free ["t"] (scope_with scope_expr b Γ)) Γ
  | DoLoop q b k _ => keep (free Γ (do_word q) && ends_free ["1"] (scope_with scope_expr b Γ)) Γ
  | Case arms d _ =>
      scope_chain scope_match scope_arm_body
        (λ Γ1, match d with Some b => scope_with scope_expr b Γ1 | None => Some Γ1 end) arms Γ
  | Tick _ _ => keep (bool_decide (Γ = ∅)) Γ
  | To name _ => keep (all_free Γ [value_storage_name (lowercase name); "set-global"]) Γ
  | See _ _ => keep (free Γ "forth.runtime:print-string") Γ
  | LetExpr form _ => keep (scope_let Γ form) Γ
  | Locals names _ => scope_names (rev names) Γ
  end
with scope_match (a : CaseArm) (Γ : gset string) : option (gset string) :=
  match a with mkArm m _ _ => scope_with scope_expr m Γ end
with scope_arm_body (a : CaseArm) (Γ : gset string) : option (gset string) :=
  match a with mkArm _ b _ => scope_with scope_expr b Γ end.
Definition scope_seq : list Expr → gset string → option (gset string) := scope_with scope_expr.
End Scope.

(** ** The source machine *)

Section Source.
Context `{FactorVM} (r : Sema).

(** Data stack, locals, loop frames, the rest. *)
Notation sstate := (list fV * (gmap string fV * (list Frame * fR)))%type.
Definition env_of (s : sstate) : env := fst (snd s).
Definition down (s : sstate) : fstate := (fst s, fst (snd (snd s)), snd (snd (snd s))).

Definition plain (w : string) (s s' : sstate) : Prop :=
  plain_step w (down s) (down s') ∧ env_of s' = env_of s.
Definition push (v : fV) (s : sstate) : sstate := (v :: fst s, snd s).

(** The first name is the top of the stack. *)
Fixpoint bind_source (names : list LocalDecl) (s : sstate) : option sstate :=
  match names, s with
  | [], _ => Some s
  | l :: names', (v :: st, (σ, rest)) =>
      bind_source names'
        (st, (if bool_decide (ld_name l = "_") then σ else <[lowercase (ld_name l) := v]> σ, rest))
  | _, _ => None
  end.

Definition body_prim (e : Expr) (s s' : sstate) : Prop :=
  match e with
  | Lit (LitInt v _) => s' = push (f_int v) s
  | Lit (LitFloat v _) => s' = push (f_float v) s
  | Lit (LitStr v DotQuote _) => plain "forth.runtime:print-string" (push (f_str v) s) s'
  | Lit (LitStr v SQuote _) => plain "forth.runtime:s-quote-runtime" (push (f_str v) s) s'
  | Lit (LitStr v _ _) => s' = push (f_str v) s
  | WordRef _ span =>
      match s_word_targets r !! span with
      | Some (Local lc) => ∃ v, env_of s !! lc = Some v ∧ s' = push v s
      | Some t => plain (to_factor_token t) s s'
      | None => False
      end
  | Tick name span => s' = push (f_quot ∅ [FWord (target_text r name span)]) s
  | To name _ => ∃ s1, plain (value_storage_name (lowercase name)) s s1 ∧ plain "set-global" s1 s'
  | See name _ => plain "forth.runtime:print-string" (push (f_str (see_report (s_docs r) name)) s) s'
  | LetExpr form _ =>
      ∃ args results st,
        fst s = rev args ++ st ∧ length args = length (lf_inputs form) ∧
        form_value (s_class_slots r) form args results ∧ s' = (rev results ++ st, snd s)
  | Locals names _ => bind_source (rev names) s = Some s'
  | _ => False
  end.

Definition body_enter (is_qdo : bool) (s : sstate) : option (bool * sstate) :=
  match s with
  | (start :: limit :: st, (σ, (fs, rs))) =>
      if is_qdo && f_same limit start then Some (false, (st, (σ, (fs, rs))))
      else
        match f_to_int limit, f_to_int start with
        | Some l, Some b => Some (true, (st, (σ, (push_loop_frame l b fs, rs))))
        | _, _ => None
        end
  | _ => None
  end.
Definition body_turn (delta : Z) (s : sstate) : option (bool * sstate) :=
  match s with
  | (st, (σ, (fs, rs))) =>
      match bump_loop delta fs with
      | Some (true, fs') => Some (false, (st, (σ, (pop_loop_frame fs', rs))))
      | Some (false, fs') => Some (true, (st, (σ, (fs', rs))))
      | None => None
      end
  end.
Definition body_next (k : LoopKind) (s : sstate) : option (bool * sstate) :=
  match k, s with
  | Plus1, _ => body_turn 1 s
  | PlusN, (d :: st, rest) => match f_to_int d with Some delta => body_turn delta (st, rest) | None => None end
  | PlusN, _ => None
  end.

#[local] Instance BodyMachine : Machine := {|
  V := fV; R := gmap string fV * (list Frame * fR);
  truthy := λ v, negb (f_zero v); same := λ v w, f_same w v;
  prim := body_prim; do_enter := body_enter; do_next := body_next |}.

Definition exit_target (_ : string) (span : Span) : bool := is_return (s_word_targets r) span.

(** The machine reads the numerals of a body as the numbers they are. *)
Definition expr_reads (e : Expr) : list Prop :=
  match e with
  | Lit (LitInt v _) => [f_read (pretty v) = Some (f_int v)]
  | Lit (LitFloat x _) => [f_read (float_text x) = Some (f_float x)]
  | DoLoop _ _ Plus1 _ => [f_read "1" = Some (f_int 1); f_to_int (f_int 1) = Some 1]
  | LetExpr form _ => truth_reads :: (literal_reads <$> form_literals form)
  | _ => []
  end.
Definition body_reads (l : list Expr) : Prop := Forall id (gather_seq expr_reads l).
End Source.

(** ** Scopes grow *)

Lemma keep_some ok Γ Γ' : keep ok Γ = Some Γ' → ok = true ∧ Γ' = Γ.
Proof. unfold keep. destruct ok; [|done]. by intros [= ->]. Qed.

Lemma scope_names_grows ls Γ Γ' : scope_names ls Γ = Some Γ' → Γ ⊆ Γ'.
Proof.
  revert Γ. induction ls as [|l ls IH]; intros Γ; [by intros [= ->]|]. cbn [scope_names].
  intros (Γ1 & Hl & Hls)%bind_Some. transitivity Γ1; [|by apply IH].
  unfold scope_local in Hl. repeat case_match; simplify_eq; set_solver.
Qed.

Section Grows.
Context (r : Sema).
Notation grows g := (∀ Γ Γ', g Γ = Some Γ' → Γ ⊆ Γ').

Lemma scope_seq_grows l :
  Forall (λ e, grows (scope_expr r e)) l → grows (scope_with (scope_expr r) l).
Proof.
  induction 1 as [|e l He _ IH]; intros Γ Γ'; [by intros [= ->]|]. cbn [scope_with].
  intros (Γ1 & H1 & H2)%bind_Some. transitivity Γ1; auto.
Qed.

Lemma scope_chain_grows arms last_scope :
  Forall (λ a, Forall (λ e, grows (scope_expr r e)) (arm_match a) ∧
               Forall (λ e, grows (scope_expr r e)) (arm_body a)) arms →
  grows last_scope → grows (scope_chain (scope_match r) (scope_arm_body r) last_scope arms).
Proof.
  intros Ha Hd Γ Γ'. destruct arms as [|[m b s] arms].
  - intros (Γ1 & H1 & [_ ->]%keep_some)%bind_Some. by apply Hd.
  - cbn [scope_chain]. intros (Γ1 & H1 & [_ ->]%keep_some)%bind_Some.
    apply Forall_cons in Ha as [[Hm _] _]. by eapply scope_seq_grows.
Qed.

Lemma scope_expr_grows e : grows (scope_expr r e).
Proof.
  induction e as [l|n s|t el s Ht He|b s Hb|p b s Hp Hb|b s Hb|q b k s Hb|arms d s Ha Hd|n s|n s|n s|form s|ns s]
    using Expr_nested_ind; intros Γ Γ'; cbn [scope_expr]; try (by intros [_ ->]%keep_some).
  - apply scope_chain_grows; [done|]. destruct d as [b|]; [apply scope_seq_grows; auto|]. by intros ? ? [= ->].
  - apply scope_names_grows.
Qed.
Lemma scope_grows l : grows (scope_seq r l).
Proof. apply scope_seq_grows, Forall_forall. intros e _. apply scope_expr_grows. Qed.
End Grows.

(** ** Environments that agree *)

Section Agree.
Context `{FactorVM}.

Definition agree (Γ : gset string) (ρ σ : env) : Prop :=
  (∀ n, n ∈ Γ → n ≠ "_" → is_discard n = false ∧ ρ !! n = σ !! n) ∧
  (∀ n, is_Some (ρ !! n) → n ∈ Γ ∨ (is_discard n = true ∧ "_" ∈ Γ)).
Definition keeps (Γ : gset string) (σ σ' : env) : Prop := ∀ n, n ∈ Γ → n ≠ "_" → σ' !! n = σ !! n.

Lemma keeps_refl Γ σ : keeps Γ σ σ.
Proof. done. Qed.
Lemma keeps_trans Γ Γ1 σ σ1 σ2 : Γ ⊆ Γ1 → keeps Γ σ σ1 → keeps Γ1 σ1 σ2 → keeps Γ σ σ2.
Proof. intros HΓ H1 H2 n Hn Hu. rewrite H2 by set_solver. auto. Qed.
Lemma agree_keeps Γ ρ σ σ' : agree Γ ρ σ → keeps Γ σ σ' → agree Γ ρ σ'.
Proof. intros [H1 H2] Hk. split; [|done]. intros n Hn Hu. rewrite Hk by done. auto. Qed.
Lemma agree_empty : agree ∅ ∅ ∅.
Proof. split; [set_solver|]. intros n [x Hx]. by rewrite lookup_empty in Hx. Qed.
Lemma agree_nil ρ σ : agree ∅ ρ σ → ρ = ∅.
Proof.
  intros [_ H2]. apply map_eq. intros n. rewrite lookup_empty. destruct (ρ !! n) eqn:E; [|done].
  destruct (H2 n) as [?|[_ ?]]; [by eexists|set_solver..].
Qed.
Lemma agree_free Γ ρ σ w : agree Γ ρ σ → free Γ w = true → ρ !! w = None.
Proof.
  intros [_ H2] [Hw Hd]%andb_true_iff. apply bool_decide_eq_true in Hw. apply negb_true_iff in Hd.
  destruct (ρ !! w) eqn:E; [|done]. destruct (H2 w) as [?|[? _]]; [by eexists|done|congruence].
Qed.
Lemma agree_all_free Γ ρ σ ws w : agree Γ ρ σ → all_free Γ ws = true → w ∈ ws → ρ !! w = None.
Proof.
  intros Ha Hws Hw. unfold all_free in Hws. rewrite forallb_forall in Hws.
  eapply agree_free; [done|]. by apply Hws, list_elem_of_In.
Qed.

Lemma agree_discard Γ ρ σ n v : agree Γ ρ σ → is_discard n = true → agree ({["_"]} ∪ Γ) (<[n := v]> ρ) σ.
Proof.
  intros [H1 H2] Hn. split.
  - intros m Hm Hu. apply elem_of_union in Hm as [->%elem_of_singleton|Hm]; [done|].
    destruct (H1 m Hm Hu) as [Hd Hr]. split; [done|]. rewrite lookup_insert_ne; [done|]. intros <-. congruence.
  - intros m Hm. destruct (decide (n = m)) as [->|Hne]; [right; set_solver|].
    rewrite lookup_insert_ne in Hm by done. destruct (H2 m Hm) as [?|[??]]; [left; set_solver|right; set_solver].
Qed.
Lemma agree_bind Γ ρ σ n v :
  agree Γ ρ σ → free Γ n = true → n ≠ "_" →
  agree ({[n]} ∪ Γ) (<[n := v]> ρ) (<[n := v]> σ) ∧ keeps Γ σ (<[n := v]> σ).
Proof.
  intros [H1 H2] [Hn%bool_decide_eq_true Hd%negb_true_iff]%andb_true_iff Hu. split; [split|].
  - intros m Hm Hmu. destruct (decide (n = m)) as [->|Hne]; [by rewrite !lookup_insert_eq|].
    rewrite !lookup_insert_ne by done. apply H1; [set_solver|done].
  - intros m Hm. destruct (decide (n = m)) as [->|Hne]; [left; set_solver|].
    rewrite lookup_insert_ne in Hm by done. destruct (H2 m Hm) as [?|[??]]; [left; set_solver|right; set_solver].
  - intros m Hm _. apply lookup_insert_ne. intros ->. done.
Qed.

(** ** Locals *)

Lemma local_leads Γ Γ' ρ l v st σ rest f :
  scope_local l Γ = Some Γ' → agree Γ ρ σ →
  let σ' := if bool_decide (ld_name l = "_") then σ else <[lowercase (ld_name l) := v]> σ in
  ∃ ρ', leads ρ [fst (local_code l f)] (v :: st, fst rest, snd rest) ρ' (st, fst rest, snd rest) ∧
        agree Γ' ρ' σ' ∧ keeps Γ σ σ'.
Proof.
  intros Hl Ha σ'. unfold scope_local, local_code, local_name in *. subst σ'.
  destruct (bool_decide (ld_name l = "_")) eqn:Eu.
  - simplify_eq. cbn [next_discard_name fst]. eexists. split; [apply leads_bind|]. split; [|done].
    apply agree_discard; [done|]. apply starts_with_app.
  - case_match eqn:Ec; simplify_eq.
    apply andb_true_iff in Ec as [[->%bool_decide_eq_true Hu%bool_decide_eq_true]%andb_true_iff Hfree].
    eexists. split; [apply leads_bind|]. by apply agree_bind.
Qed.

Lemma names_leads ls Γ Γ' ρ s s' f :
  scope_names ls Γ = Some Γ' → agree Γ ρ (env_of s) → bind_source ls s = Some s' →
  ∃ ρ', leads ρ (fst (map_state local_code ls f)) (down s) ρ' (down s') ∧
        agree Γ' ρ' (env_of s') ∧ keeps Γ (env_of s) (env_of s').
Proof.
  revert Γ ρ s f. induction ls as [|l ls IH]; intros Γ ρ s f Hs Ha Hb.
  { cbn in *. simplify_eq. exists ρ. split; [apply leads_nil|done]. }
  cbn [scope_names] in Hs. apply bind_Some in Hs as (Γ1 & Hl & Hls).
  destruct s as [st [σ [fs rs]]]. destruct st as [|v st]; [done|]. cbn [bind_source] in Hb.
  destruct (local_leads Γ Γ1 ρ l v st σ (fs, rs) f Hl Ha) as (ρ1 & Hrun & Ha1 & Hk1).
  cbn [map_state]. destruct (local_code l f) as [c f1] eqn:Ec.
  destruct (IH Γ1 ρ1 (st, (if bool_decide (ld_name l = "_") then σ else <[lowercase (ld_name l) := v]> σ, (fs, rs)))
              f1 Hls Ha1 Hb) as (ρ' & Hrun' & Ha' & Hk').
  destruct (map_state local_code ls f1) as [cs f2]. cbn [fst] in *.
  exists ρ'. split; [eapply leads_cons; [exact Hrun|exact Hrun']|]. split; [done|].
  eapply keeps_trans; [|exact Hk1|exact Hk']. unfold scope_local in Hl. repeat case_match; simplify_eq; set_solver.
Qed.
End Agree.

(** ** Leaves *)

Section Simulation.
Context `{FactorVM} (r : Sema).
Notation sstate := (list fV * (gmap string fV * (list Frame * fR)))%type.
Notation bleaf := (@leaf (BodyMachine r)).
Notation bexec := (@exec (BodyMachine r) (exit_target r)).
Notation bexec1 := (@exec1 (BodyMachine r) (exit_target r)).
Notation bexec_do := (@exec_do (BodyMachine r) (exit_target r)).
Notation bexec_arms := (@exec_arms (BodyMachine r) (exit_target r)).

(** The code [c] does from [s] what the source does, and leaves the scope
    [Γ'] behind. *)
Definition follows (Γ Γ' : gset string) (ρ : env) (c : list fcode) (s s' : sstate) : Prop :=
  ∃ ρ', leads ρ c (down s) ρ' (down s') ∧ agree Γ' ρ' (env_of s') ∧ keeps Γ (env_of s) (env_of s').

Lemma follows_nil Γ ρ s : agree Γ ρ (env_of s) → follows Γ Γ ρ [] s s.
Proof. intros Ha. exists ρ. split; [apply leads_nil|done]. Qed.
Lemma follows_app Γ Γ1 Γ2 ρ a b s s1 s2 :
  Γ ⊆ Γ1 → follows Γ Γ1 ρ a s s1 → (∀ ρ1, agree Γ1 ρ1 (env_of s1) → follows Γ1 Γ2 ρ1 b s1 s2) →
  follows Γ Γ2 ρ (a ++ b) s s2.
Proof.
  intros HΓ (ρ1 & Ha & Hag & Hk) Hb. destruct (Hb ρ1 Hag) as (ρ2 & Hb' & Hag2 & Hk2).
  exists ρ2. split; [by eapply leads_app|]. split; [done|]. by eapply keeps_trans.
Qed.
Lemma follows_cons Γ Γ2 ρ c b s s1 s2 :
  follows Γ Γ ρ [c] s s1 → (∀ ρ1, agree Γ ρ1 (env_of s1) → follows Γ Γ2 ρ1 b s1 s2) →
  follows Γ Γ2 ρ (c :: b) s s2.
Proof. by apply follows_app. Qed.

(** One word that touches no local. *)
Lemma follows_step Γ ρ w s s' :
  agree Γ ρ (env_of s) → free Γ w = true → fstep w (down s) (down s') → env_of s' = env_of s →
  follows Γ Γ ρ [FWord w] s s'.
Proof.
  intros Ha Hw Hs He. exists ρ. rewrite He.
  split; [apply leads_word; [by eapply agree_free|done]|done].
Qed.
Lemma follows_plain Γ ρ w s s' :
  agree Γ ρ (env_of s) → free Γ w = true → plain w s s' → follows Γ Γ ρ [FWord w] s s'.
Proof. intros Ha Hw [Hs He]. apply follows_step; [done..| |done]. by constructor. Qed.
Lemma follows_word Γ ρ w (s s' : sstate) :
  agree Γ ρ (env_of s) → free Γ w = true → plain_step w (down s) (down s') → env_of s' = env_of s →
  follows Γ Γ ρ [FWord w] s s'.
Proof. intros Ha Hw Hs He. by apply follows_plain. Qed.
Lemma follows_string Γ ρ t s : agree Γ ρ (env_of s) → follows Γ Γ ρ [FStr t] s (push (f_str t) s).
Proof. intros Ha. exists ρ. split; [apply leads_str|done]. Qed.
Lemma follows_quot Γ ρ q s : agree Γ ρ (env_of s) → follows Γ Γ ρ [FQuot q] s (push (f_quot ρ q) s).
Proof. intros Ha. exists ρ. split; [apply leads_quot|done]. Qed.
Lemma follows_run Γ Γ' ρ c s s' : follows Γ Γ' ρ c s s' → frun ρ c (down s) (down s') ∧ keeps Γ (env_of s) (env_of s').
Proof. intros (ρ' & Hc & _ & Hk). split; [by eapply leads_run|done]. Qed.

Lemma hygienic_scope Γ ρ σ ws :
  agree Γ ρ σ → forallb (λ w, is_local_word w || free Γ w) ws = true → hygienic ρ ws.
Proof.
  intros Ha Hws w Hw Hl. rewrite forallb_forall in Hws. apply list_elem_of_In in Hw.
  specialize (Hws w Hw). rewrite Hl in Hws. by eapply agree_free.
Qed.

Lemma literal_follows Γ ρ l s s' :
  body_prim r (Lit l) s s' → all_free Γ (lit_words l) = true →
  Forall id (expr_reads (Lit l)) → agree Γ ρ (env_of s) → follows Γ Γ ρ (lit_code l) s s'.
Proof.
  intros Hp Hw Hr Ha. destruct l as [v sp|v sp|v [] sp]; cbn in *;
    rewrite ?andb_true_r in Hw; try apply Forall_cons in Hr as [Hr _]; try subst s'.
  - apply follows_word; try done. by constructor.
  - apply follows_word; try done. by constructor.
  - eapply follows_cons; [by apply follows_string|]. intros ρ1 Ha1. by apply follows_plain.
  - eapply follows_cons; [by apply follows_string|]. intros ρ1 Ha1. by apply follows_plain.
  - by apply follows_string.
  - by apply follows_string.
Qed.

Lemma word_follows Γ ρ n sp s s' :
  bleaf (WordRef n sp) s s' → scope_word r Γ n sp = true → agree Γ ρ (env_of s) →
  follows Γ Γ ρ [FWord (target_text r n sp)] s s'.
Proof.
  unfold scope_word. cbn [leaf]. intros Hl [Ht Hn]%andb_true_iff Ha.
  destruct s as [st [σ [fs rs]]]. cbn [fst snd] in Hl.
  destruct (eq_nocase n "dup").
  { apply andb_true_iff in Hn as [->%bool_decide_eq_true Hf]. destruct st as [|v st]; [done|]. subst s'.
    apply follows_word; try done. apply p_dup. }
  destruct (eq_nocase n "drop").
  { apply andb_true_iff in Hn as [->%bool_decide_eq_true Hf]. destruct st as [|v st]; [done|]. subst s'.
    apply follows_word; try done. apply p_drop. }
  destruct (eq_nocase n "?dup"); [done|]. cbn in Hl. unfold target_text.
  destruct (s_word_targets r !! sp) as [[v w|v w|w|lc]|]; try done;
    try (by apply follows_plain).
  destruct Hl as (x & Hx & ->). apply andb_true_iff in Ht as [Hlc%bool_decide_eq_true Hu%bool_decide_eq_true].
  exists ρ. split; [|done]. apply leads_local. cbn. destruct Ha as [H1 _]. destruct (H1 lc Hlc Hu) as [_ ->]. done.
Qed.

Lemma let_follows Γ ρ form sp s s' :
  body_prim r (LetExpr form sp) s s' → scope_let r Γ form = true → Forall id (expr_reads (LetExpr form sp)) →
  agree Γ ρ (env_of s) → follows Γ Γ ρ (let_expr_code r form) s s'.
Proof.
  intros (args & results & st & Hst & Hlen & Hv & ->) Hs Hr Ha. unfold scope_let, let_expr_code in *.
  destruct (lower_to_factor _ _) as [t|]; [|done].
  rewrite !andb_true_iff in Hs. destruct Hs as [[_ Harity%Nat.eqb_eq] Hws].
  cbn [expr_reads] in Hr. apply Forall_cons in Hr as [Ht Hl]. rewrite Forall_fmap in Hl.
  exists ρ. split; [|done]. destruct s as [st0 [σ [fs rs]]]. cbn in Hst. subst st0.
  apply let_leads; try done; by eapply hygienic_scope.
Qed.

Lemma leaf_follows e Γ Γ' ρ s s' f :
  is_leaf e = true → bleaf e s s' → scope_expr r e Γ = Some Γ' → Forall id (expr_reads e) →
  agree Γ ρ (env_of s) → follows Γ Γ' ρ (fst (code_expr r e f)) s s'.
Proof.
  destruct e; try done; intros _ Hl Hs Hr Ha; cbn [scope_expr code_expr fst] in *;
    try apply keep_some in Hs as [Hs ->].
  - by apply literal_follows.
  - by apply word_follows.
  - apply bool_decide_eq_true in Hs as ->. cbn in Hl. subst s'. pose proof (agree_nil _ _ Ha) as ->.
    by apply follows_quot.
  - destruct Hl as (s1 & H1 & H2). cbn in Hs. rewrite !andb_true_iff in Hs. destruct Hs as (Hw & Hg & _).
    eapply follows_cons; [by apply follows_plain|]. intros ρ1 Ha1. by apply follows_plain.
  - cbn in Hl. eapply follows_cons; [by apply follows_string|]. intros ρ1 Ha1. by apply follows_plain.
  - by eapply let_follows.
  - by apply names_leads.
Qed.

(** ** Loops *)

Lemma run_nil ρ s s' : frun ρ [] s s' → s' = s.
Proof. by inversion 1. Qed.
Lemma quot_word_inv ρ q w st fs rs s' :
  ρ !! w = None → frun ρ [FQuot q; FWord w] (st, fs, rs) s' → fstep w (f_quot ρ q :: st, fs, rs) s'.
Proof.
  intros Hw Hq. inversion Hq; subst.
  match goal with Hr : frun _ [FWord w] _ _ |- _ => inversion Hr; subst; [congruence|] end.
  by match goal with Hn : frun _ [] _ _ |- _ => inversion Hn; subst end.
Qed.

(** The quotation [q] and the word [w] that runs it. *)
Lemma follows_call Γ ρ q w s s' :
  agree Γ ρ (env_of s) → free Γ w = true →
  fstep w (down (push (f_quot ρ q) s)) (down s') → keeps Γ (env_of s) (env_of s') →
  follows Γ Γ ρ [FQuot q; FWord w] s s'.
Proof.
  intros Ha Hw Hs Hk. exists ρ. split; [|split; [by eapply agree_keeps|done]].
  eapply leads_cons; [apply leads_quot|]. apply leads_word; [by eapply agree_free|done].
Qed.
Lemma follows_call_inv Γ ρ q w s s' :
  agree Γ ρ (env_of s) → free Γ w = true → follows Γ Γ ρ [FQuot q; FWord w] s s' →
  fstep w (down (push (f_quot ρ q) s)) (down s') ∧ keeps Γ (env_of s) (env_of s').
Proof.
  intros Ha Hw Hf. destruct (follows_run _ _ _ _ _ _ Hf) as [Hr Hk]. split; [|done].
  apply quot_word_inv; [by eapply agree_free|]. done.
Qed.

Lemma loop_stop Γ ρ q s s' :
  agree Γ ρ (env_of s) → free Γ "kernel:loop" = true →
  frun ρ q (down s) (down (push (f_bool false) s')) → keeps Γ (env_of s) (env_of s') →
  follows Γ Γ ρ [FQuot q; FWord "kernel:loop"] s s'.
Proof. intros Ha Hw Hq Hk. apply follows_call; [done..| |done]. by apply s_loop_done. Qed.
Lemma loop_turn Γ ρ q s s1 s' :
  agree Γ ρ (env_of s) → free Γ "kernel:loop" = true →
  frun ρ q (down s) (down (push (f_bool true) s1)) → keeps Γ (env_of s) (env_of s1) →
  follows Γ Γ ρ [FQuot q; FWord "kernel:loop"] s1 s' →
  follows Γ Γ ρ [FQuot q; FWord "kernel:loop"] s s'.
Proof.
  intros Ha Hw Hq Hk Hf. destruct (follows_call_inv Γ ρ q "kernel:loop" s1 s') as [Hs Hk'];
    [by eapply agree_keeps|done..|].
  apply follows_call; [done..| |]; [eapply s_loop_more; [exact Hq|exact Hs]|]. eapply keeps_trans; [reflexivity|done..].
Qed.

(** A block, and one more word at its end. *)
Lemma block_word Γ Γb ρ c w s s1 s' :
  Γ ⊆ Γb → follows Γ Γb ρ c s s1 → free Γb w = true → plain w s1 s' →
  follows Γ Γb ρ (c ++ [FWord w]) s s'.
Proof.
  intros HΓ Hc Hw Hp. eapply follows_app; [exact HΓ|exact Hc|]. intros ρ1 Ha. by apply follows_plain.
Qed.
Lemma plain_zero v st rest : plain "math:zero?" (v :: st, rest) (f_bool (f_zero v) :: st, rest).
Proof. split; [apply p_zero|done]. Qed.
Lemma plain_bool (b : bool) s : plain (if b then "t" else "f") s (push (f_bool b) s).
Proof. destruct s as [st [σ [fs rs]]]. split; [apply p_bool|done]. Qed.

(** The choice between two blocks. *)
Lemma follows_if Γ ρ q1 q2 (x : bool) st rest s' :
  agree Γ ρ (fst rest) → free Γ "kernel:if" = true →
  frun ρ (if x then q1 else q2) (down (st, rest)) (down s') → keeps Γ (fst rest) (env_of s') →
  follows Γ Γ ρ [FQuot q1; FQuot q2; FWord "kernel:if"] (f_bool x :: st, rest) s'.
Proof.
  intros Ha Hw Hr Hk. destruct rest as [σ [fs rs]]. exists ρ. split; [|split; [by eapply agree_keeps|done]].
  eapply leads_cons; [apply leads_quot|]. eapply leads_cons; [apply leads_quot|].
  apply leads_word; [by eapply agree_free|]. apply s_if. by destruct x.
Qed.

(** ** Bodies *)

Lemma code_cons e l f :
  fst (code_exprs r (e :: l) f) = fst (code_expr r e f) ++ fst (code_exprs r l (snd (code_expr r e f))).
Proof.
  unfold code_exprs. cbn [code_seq_with]. destruct (code_expr r e f) as [c f1]. fold (code_seq_with (code_expr r)).
  cbn [fst snd]. by destruct (code_seq_with _ l f1).
Qed.

Definition sim_seq (l : list Expr) (s : sstate) (out : flow sstate) : Prop :=
  ∀ s', out = Norm s' → ∀ Γ Γ' ρ f,
  scope_seq r l Γ = Some Γ' → body_reads l → agree Γ ρ (env_of s) →
  follows Γ Γ' ρ (fst (code_exprs r l f)) s s'.
Definition sim_expr (e : Expr) (s : sstate) (out : flow sstate) : Prop :=
  ∀ s', out = Norm s' → ∀ Γ Γ' ρ f,
  scope_expr r e Γ = Some Γ' → Forall id (gather expr_reads e) → agree Γ ρ (env_of s) →
  follows Γ Γ' ρ (fst (code_expr r e f)) s s'.
Definition sim_do (b : list Expr) (k : LoopKind) (s : sstate) (out : flow sstate) : Prop :=
  ∀ s', out = Norm s' → ∀ Γ ρ f,
  ends_free ["1"] (scope_seq r b Γ) = true → body_reads b →
  Forall id (expr_reads (DoLoop false b k (mkSpan (mkPos 0 0 0) (mkPos 0 0 0)))) → agree Γ ρ (env_of s) →
  fturns ρ (fst (code_exprs r b f) ++ step_code k) (down s) (down s') ∧ keeps Γ (env_of s) (env_of s').
Definition last_code (d : option (list Expr)) (f : Fresh) : list fcode * Fresh :=
  match d with
  | Some b => let '(t, f1) := code_exprs r b f in (t ++ [FWord "kernel:drop"], f1)
  | None => ([FWord "kernel:drop"], f)
  end.
Definition last_scope (d : option (list Expr)) (Γ : gset string) : option (gset string) :=
  match d with Some b => scope_seq r b Γ | None => Some Γ end.
Definition sim_arms (arms : list CaseArm) (d : option (list Expr)) (s : sstate) (out : flow sstate) : Prop :=
  ∀ s', out = Norm s' → ∀ Γ Γ' ρ f,
  scope_chain (scope_match r) (scope_arm_body r) (last_scope d) arms Γ = Some Γ' →
  Forall id (flat_with (gather_arm expr_reads) arms) → Forall id (opt_flat (gather_seq expr_reads) d) →
  agree Γ ρ (env_of s) →
  follows Γ Γ' ρ (fst (chain_code (code_arm r) (last_code d) arms f)) s s'.

Lemma ends_free_inv ws o : ends_free ws o = true → ∃ Γ, o = Some Γ ∧ all_free Γ ws = true.
Proof. destruct o as [Γ|]; [|done]. by exists Γ. Qed.

(** Unfold the conditions on an expression. *)
Ltac conditions H :=
  apply keep_some in H as [H ->];
  repeat match goal with
    | H : _ && _ = true |- _ => apply andb_true_iff in H as [? ?]
    | H : ends_free _ _ = true |- _ => apply ends_free_inv in H as (? & ? & ?)
    | H : all_free _ (_ :: _) = true |- _ => cbn [all_free forallb] in H
    end.

Lemma sim_block b s s' Γ Γb ρ f :
  sim_seq b s (Norm s') → scope_seq r b Γ = Some Γb → body_reads b → agree Γ ρ (env_of s) →
  follows Γ Γb ρ (fst (code_exprs r b f)) s s' ∧ Γ ⊆ Γb.
Proof. intros Hb Hs Hr Ha. split; [by eapply Hb|by eapply scope_grows]. Qed.

Lemma sim_until b sp s v st rest out :
  sim_seq b s (Norm (v :: st, rest)) →
  (if f_zero v then sim_expr (BeginUntil b sp) (st, rest) out else out = Norm (st, rest)) →
  sim_expr (BeginUntil b sp) s out.
Proof.
  intros Hb Hgo s' -> Γ Γ' ρ f Hs Hr Ha. pose proof Hs as Hs0. pose proof Hr as Hr0.
  cbn [scope_expr code_expr] in *. fold (scope_seq r) in *. fold (code_exprs r) in *.
  rewrite gather_until in Hr. conditions Hs.
  destruct (sim_block _ _ _ _ _ _ f Hb ltac:(eassumption) Hr Ha) as [Hc HΓ].
  destruct (follows_run _ _ _ _ _ _ (block_word _ _ _ _ _ _ _ (f_bool (f_zero v) :: st, rest) HΓ Hc
              ltac:(eassumption) (plain_zero _ _ _))) as [Hq Hk].
  destruct (code_exprs r b f) as [c f1] eqn:Ec. cbn [fst] in *. destruct (f_zero v).
  - apply (loop_turn Γ ρ _ s (st, rest) s'); [done..|].
    specialize (Hgo s' eq_refl Γ Γ ρ f Hs0 Hr0 ltac:(by eapply agree_keeps)).
    cbn [code_expr] in Hgo. fold (code_exprs r) in Hgo. rewrite Ec in Hgo. exact Hgo.
  - injection Hgo as ->. eapply loop_stop; done.
Qed.

Lemma sim_again b sp s s1 out :
  sim_seq b s (Norm s1) → sim_expr (BeginAgain b sp) s1 out → sim_expr (BeginAgain b sp) s out.
Proof.
  intros Hb Hgo s' -> Γ Γ' ρ f Hs Hr Ha. pose proof Hs as Hs0. pose proof Hr as Hr0.
  cbn [scope_expr code_expr] in *. fold (scope_seq r) in *. fold (code_exprs r) in *.
  rewrite gather_again in Hr. conditions Hs.
  destruct (sim_block _ _ _ _ _ _ f Hb ltac:(eassumption) Hr Ha) as [Hc HΓ].
  destruct (follows_run _ _ _ _ _ _ (block_word _ _ _ _ _ _ _ _ HΓ Hc ltac:(eassumption) (plain_bool true s1)))
    as [Hq Hk].
  destruct (code_exprs r b f) as [c f1] eqn:Ec. cbn [fst] in *.
  apply (loop_turn Γ ρ _ s s1 s'); [done..|].
  specialize (Hgo s' eq_refl Γ Γ ρ f Hs0 Hr0 ltac:(by eapply agree_keeps)).
  cbn [code_expr] in Hgo. fold (code_exprs r) in Hgo. by rewrite Ec in Hgo.
Qed.

(** One turn of [BEGIN .. WHILE .. REPEAT]. *)
Lemma while_turn Γ Γ1 Γb ρ cp cb s v st rest s2 :
  Γ ⊆ Γ1 → follows Γ Γ1 ρ cp s (v :: st, rest) → all_free Γ1 ["math:zero?"; "f"; "kernel:if"] = true →
  (if f_zero v then s2 = (st, rest)
   else Γ1 ⊆ Γb ∧ free Γb "t" = true ∧
        ∀ ρ1, agree Γ1 ρ1 (fst rest) → follows Γ1 Γb ρ1 cb (st, rest) s2) →
  frun ρ (cp ++ [FWord "math:zero?"; FQuot [FWord "f"]; FQuot (cb ++ [FWord "t"]); FWord "kernel:if"])
    (down s) (down (push (f_bool (negb (f_zero v))) s2)) ∧ keeps Γ (env_of s) (env_of s2).
Proof.
  intros HΓ Hp Hfree Hgo. cbn in Hfree. rewrite !andb_true_iff in Hfree. destruct Hfree as (Hz & Hf & Hif & _).
  apply (follows_run Γ Γ1 ρ _ s (push (f_bool (negb (f_zero v))) s2)).
  eapply follows_app; [exact HΓ|exact Hp|]. intros ρ1 Ha1.
  eapply follows_cons; [apply follows_plain; [done..|apply plain_zero]|]. intros ρ2 Ha2.
  assert (frun ρ2 (if f_zero v then [FWord "f"] else cb ++ [FWord "t"]) (down (st, rest))
            (down (push (f_bool (negb (f_zero v))) s2)) ∧ keeps Γ1 (fst rest) (env_of s2)) as [Hr Hk].
  { destruct (f_zero v); cbn [negb].
    - subst s2. apply (follows_run Γ1 Γ1 ρ2 _ (st, rest) (push (f_bool false) (st, rest))).
      by apply follows_plain; [..|apply (plain_bool false)].
    - destruct Hgo as (HΓb & Ht & Hb).
      apply (follows_run Γ1 Γb ρ2 _ (st, rest) (push (f_bool true) s2)).
      eapply block_word; [exact HΓb|by apply Hb|exact Ht|apply (plain_bool true)]. }
  by apply follows_if.
Qed.

Lemma sim_while p b sp s v st rest s2 out :
  sim_seq p s (Norm (v :: st, rest)) →
  (if f_zero v then out = Norm (st, rest)
   else sim_seq b (st, rest) (Norm s2) ∧ sim_expr (BeginWhileRepeat p b sp) s2 out) →
  sim_expr (BeginWhileRepeat p b sp) s out.
Proof.
  intros Hp Hgo s' -> Γ Γ' ρ f Hs Hr Ha. pose proof Hs as Hs0. pose proof Hr as Hr0.
  cbn [scope_expr code_expr] in *. fold (scope_seq r) in *. fold (code_exprs r) in *.
  rewrite gather_while in Hr. cbn [expr_reads app] in Hr. apply Forall_app in Hr as [Hrp Hrb].
  destruct (scope_seq r p Γ) as [Γ1|] eqn:Ep in Hs; [|by rewrite andb_false_r in Hs].
  destruct (scope_seq r b Γ1) as [Γb|] eqn:Eb in Hs; [|by rewrite !andb_false_r in Hs].
  cbn [ends_free] in Hs. conditions Hs.
  destruct (sim_block _ _ _ _ _ _ f Hp Ep Hrp Ha) as [Hc HΓ].
  destruct (code_exprs r p f) as [cp f1] eqn:Ecp.
  destruct (while_turn Γ Γ1 Γb ρ cp (fst (code_exprs r b f1)) s v st rest
              (if f_zero v then (st, rest) else s2)) as [Hq Hk]; try done.
  { cbn [all_free forallb]. by rewrite !andb_true_iff. }
  { destruct (f_zero v); [done|]. destruct Hgo as [Hb _].
    split; [by eapply scope_grows|]. split; [done|]. intros ρ1 Ha1. by eapply Hb. }
  destruct (code_exprs r b f1) as [cb f2] eqn:Ecb. cbn [fst] in *. destruct (f_zero v); cbn [negb] in *.
  - injection Hgo as ->. by eapply loop_stop.
  - destruct Hgo as [_ Hgo]. apply (loop_turn Γ ρ _ s s2 s'); [done..|].
    specialize (Hgo s' eq_refl Γ Γ ρ f Hs0 Hr0 ltac:(by eapply agree_keeps)).
    cbn [code_expr] in Hgo. fold (code_exprs r) in Hgo. by rewrite Ecp, Ecb in Hgo.
Qed.

Lemma sim_if t el sp v st rest out :
  sim_seq (if f_zero v then default [] el else t) (st, rest) out → sim_expr (If t el sp) (v :: st, rest) out.
Proof.
  intros Hb s' -> Γ Γ' ρ f Hs Hr Ha. cbn [scope_expr code_expr] in *.
  fold (scope_seq r) in *. fold (code_exprs r) in *. rewrite gather_if in Hr.
  apply Forall_app in Hr as [_ Hr]. apply Forall_app in Hr as [Hrt Hre].
  apply keep_some in Hs as [Hs ->]. rewrite !andb_true_iff in Hs.
  destruct Hs as [[Hfree Ht%ends_free_inv] Hel]. destruct Ht as (Γt & Ht & _).
  cbn in Hfree. rewrite !andb_true_iff in Hfree. destruct Hfree as (Hz & Hif & Hun & _).
  destruct el as [eb|].
  - apply ends_free_inv in Hel as (Γe & Hel & _). cbn [from_option id opt_flat] in *.
    destruct (code_exprs r eb f) as [ce f1] eqn:Ece. destruct (code_exprs r t f1) as [ct f2] eqn:Ect.
    eapply follows_cons; [apply follows_plain; [done..|apply plain_zero]|]. intros ρ1 Ha1.
    assert (frun ρ1 (if f_zero v then ce else ct) (down (st, rest)) (down s') ∧ keeps Γ (fst rest) (env_of s'))
      as [Hq Hk]; [|by apply follows_if].
    destruct (f_zero v).
    + specialize (Hb s' eq_refl Γ Γe ρ1 f Hel Hre Ha1). rewrite Ece in Hb. by apply follows_run in Hb.
    + specialize (Hb s' eq_refl Γ Γt ρ1 f1 Ht Hrt Ha1). rewrite Ect in Hb. by apply follows_run in Hb.
  - cbn [from_option id] in *. destruct (code_exprs r t f) as [ct f1] eqn:Ect.
    eapply follows_cons; [apply follows_plain; [done..|apply plain_zero]|]. intros ρ1 Ha1.
    destruct (f_zero v).
    + destruct (follows_run _ _ _ _ _ _ (Hb s' eq_refl Γ Γ ρ1 f eq_refl (Forall_nil_2 id) Ha1)) as [Hn Hk].
      apply follows_call; [done..| |done]. cbn in Hn. rewrite (run_nil _ _ _ Hn). apply s_unless_true.
    + specialize (Hb s' eq_refl Γ Γt ρ1 f Ht Hrt Ha1). rewrite Ect in Hb. apply follows_run in Hb as [Hq Hk].
      apply follows_call; [done..| |done]. by apply s_unless_false.
Qed.

(** ** Counted loops *)

(** One turn: the block leaves the step on the stack. *)
Lemma do_turn Γ Γb ρ c k s s1 s2 go :
  Γ ⊆ Γb → follows Γ Γb ρ c s s1 → free Γb "1" = true →
  Forall id (expr_reads (DoLoop false [] k (mkSpan (mkPos 0 0 0) (mkPos 0 0 0)))) →
  body_next k s1 = Some (go, s2) →
  ∃ d delta st fs rs fs',
    frun ρ (c ++ step_code k) (down s) (d :: st, fs, rs) ∧ f_to_int d = Some delta ∧
    bump_loop delta fs = Some (negb go, fs') ∧
    down s2 = (st, (if go then fs' else pop_loop_frame fs'), rs) ∧ keeps Γ (env_of s) (env_of s2).
Proof.
  intros HΓ Hc H1 Hr Hn. destruct k; cbn [body_next step_code expr_reads] in *.
  - apply Forall_cons in Hr as [Hread [Hint _]%Forall_cons]. cbn in Hread, Hint.
    destruct s1 as [st [σ [fs rs]]]. cbn [body_turn] in Hn.
    destruct (follows_run Γ Γb ρ (c ++ [FWord "1"]) s (f_int 1 :: st, (σ, (fs, rs)))) as [Hq Hk].
    { eapply block_word; [done..|]. split; [|done]. by apply p_number. }
    destruct (bump_loop 1 fs) as [[[] fs']|] eqn:Eb; simplify_eq/=; do 6 eexists; repeat split; try done.
  - rewrite app_nil_r. destruct s1 as [[|d st] [σ [fs rs]]]; [done|].
    destruct (follows_run _ _ _ _ _ _ Hc) as [Hq Hk].
    destruct (f_to_int d) as [delta|] eqn:Ed; [|done]. cbn [body_turn] in Hn.
    destruct (bump_loop delta fs) as [[[] fs']|] eqn:Eb; simplify_eq/=; do 6 eexists; repeat split; try done.
Qed.

Lemma sim_do_turn b k s s1 s2 go out :
  sim_seq b s (Norm s1) → body_next k s1 = Some (go, s2) →
  (if go : bool then sim_do b k s2 out else out = Norm s2) → sim_do b k s out.
Proof.
  intros Hb Hn Hgo s' -> Γ ρ f Hs Hr Hk Ha. pose proof Hs as Hs0.
  apply ends_free_inv in Hs as (Γb & Hs & Hfree).
  destruct (sim_block _ _ _ _ _ _ f Hb Hs Hr Ha) as [Hc HΓ].
  cbn in Hfree. rewrite andb_true_r in Hfree.
  destruct (do_turn _ _ _ _ _ _ _ _ _ HΓ Hc Hfree Hk Hn) as (d & delta & st & fs & rs & fs' & Hq & Hd & Hbump & Hdown & Hkeep).
  destruct go; cbn [negb] in Hbump.
  - destruct (Hgo s' eq_refl Γ ρ f Hs0 Hr Hk ltac:(by eapply agree_keeps)) as [Ht Hk'].
    rewrite Hdown in Ht. split; [eapply t_more; [exact Hq|exact Hd|exact Hbump|exact Ht]|eapply (keeps_trans Γ Γ); done].
  - injection Hgo as ->. rewrite Hdown. split; [by eapply t_done|done].
Qed.

Lemma sim_do_enter q b k sp s s1 go out :
  body_enter q s = Some (go, s1) → (if go : bool then sim_do b k s1 out else out = Norm s1) →
  sim_expr (DoLoop q b k sp) s out.
Proof.
  intros He Hgo s' -> Γ Γ' ρ f Hs Hr Ha. cbn [scope_expr code_expr] in *.
  fold (scope_seq r) in *. fold (code_exprs r) in *. rewrite gather_do in Hr.
  apply Forall_app in Hr as [Hk Hr].
  apply keep_some in Hs as [[Hw Hs]%andb_true_iff ->].
  destruct s as [[|start [|limit st]] [σ [fs rs]]]; try done. cbn [body_enter] in He.
  destruct (code_exprs r b f) as [c f1] eqn:Ec. cbn [fst].
  destruct (q && f_same limit start) eqn:Eq.
  - simplify_eq. apply andb_true_iff in Eq as [-> Esame].
    apply follows_call; [done..| |done]. by apply s_qdo_skip.
  - destruct (f_to_int limit) as [l|] eqn:El; [|done]. destruct (f_to_int start) as [i|] eqn:Ei; [|done].
    simplify_eq. destruct (Hgo s' eq_refl Γ ρ f Hs Hr Hk Ha) as [Ht Hkeep].
    rewrite Ec in Ht. apply follows_call; [done..| |done].
    assert (fstep "forth.runtime:do-loop" (f_quot ρ (c ++ step_code k) :: start :: limit :: st, fs, rs) (down s'))
      as Hdo by by eapply s_do.
    destruct q; [|done]. by apply s_qdo.
Qed.

(** ** [CASE] *)

Lemma arm_follows Γ Γ1 ρ cm cb cr x st rest v w st1 rest1 s' :
  agree Γ ρ (fst rest) → Γ ⊆ Γ1 → free Γ "dup" = true → all_free Γ1 ["="; "drop"; "kernel:if"] = true →
  (∀ ρ1, agree Γ ρ1 (fst rest) → follows Γ Γ1 ρ1 cm (x :: x :: st, rest) (v :: w :: st1, rest1)) →
  (∀ ρ1, agree Γ1 ρ1 (fst rest1) →
     frun ρ1 (if f_same w v then FWord "drop" :: cb else cr) (down (st1, rest1)) (down s') ∧
     keeps Γ1 (fst rest1) (env_of s')) →
  follows Γ Γ1 ρ (FWord "dup" :: cm ++ [FWord "="; FQuot (FWord "drop" :: cb); FQuot cr; FWord "kernel:if"])
    (x :: st, rest) s'.
Proof.
  intros Ha HΓ Hdup Hfree Hm Hgo. cbn [all_free forallb] in Hfree. rewrite !andb_true_iff in Hfree.
  destruct Hfree as (Heq & Hdrop & Hif & _).
  eapply (follows_cons _ _ _ _ _ _ (x :: x :: st, rest)); [apply follows_word; [exact Ha|done|apply p_dup|done]|].
  intros ρ1 Ha1.
  eapply follows_app; [exact HΓ|by apply Hm|]. intros ρ2 Ha2.
  eapply (follows_cons _ _ _ _ _ _ (f_bool (f_same w v) :: st1, rest1));
    [apply follows_word; [done..|apply p_equal|done]|].
  intros ρ3 Ha3. destruct (Hgo ρ3 Ha3) as [Hr Hk]. by apply follows_if.
Qed.

Lemma chain_cons m b sp arms last f :
  fst (chain_code (code_arm r) last (mkArm m b sp :: arms) f) =
  let f1 := snd (code_exprs r m f) in
  let f2 := snd (code_exprs r b f1) in
  FWord "dup" :: fst (code_exprs r m f) ++
    [FWord "="; FQuot (FWord "drop" :: fst (code_exprs r b f1));
     FQuot (fst (chain_code (code_arm r) last arms f2)); FWord "kernel:if"].
Proof.
  cbn [chain_code code_arm]. fold (code_exprs r). fold (chain_code (code_arm r) last).
  destruct (code_exprs r m f) as [cm f1]. cbn [fst snd]. destruct (code_exprs r b f1) as [cb f2]. cbn [fst snd].
  by destruct (chain_code _ _ arms f2).
Qed.

(** What the scope of an arm asks for. *)
Lemma scope_chain_cons m b sp arms d Γ Γ' :
  scope_chain (scope_match r) (scope_arm_body r) (last_scope d) (mkArm m b sp :: arms) Γ = Some Γ' →
  scope_seq r m Γ = Some Γ' ∧ Γ ⊆ Γ' ∧ free Γ "dup" = true ∧ all_free Γ' ["="; "drop"; "kernel:if"] = true ∧
  (∃ Γb, scope_seq r b Γ' = Some Γb) ∧
  (∃ Γr, scope_chain (scope_match r) (scope_arm_body r) (last_scope d) arms Γ' = Some Γr).
Proof.
  cbn [scope_chain scope_match scope_arm_body]. fold (scope_seq r).
  fold (scope_chain (scope_match r) (scope_arm_body r) (last_scope d)).
  intros (Γ1 & Hm & [Hk ->]%keep_some)%bind_Some. rewrite !andb_true_iff in Hk.
  destruct Hk as [[[Hd Hf] (Γb & Hb & _)%ends_free_inv] (Γr & Hr & _)%ends_free_inv].
  repeat split; eauto. by eapply scope_grows.
Qed.

Lemma sim_default d s v st rest : sim_seq (default [] d) s (Norm (v :: st, rest)) →
  sim_arms [] d s (Norm (st, rest)).
Proof.
  intros Hd s' [= <-] Γ Γ' ρ f Hs _ Hr Ha. cbn [scope_chain] in Hs.
  apply bind_Some in Hs as (Γ1 & Hs & [Hk ->]%keep_some). cbn in Hk. rewrite andb_true_r in Hk.
  cbn [chain_code]. unfold last_code, last_scope in *.
  assert (plain "kernel:drop" (v :: st, rest) (st, rest)) as Hp by (split; [apply p_kernel_drop|done]).
  destruct d as [b|]; cbn [from_option id opt_flat] in *.
  - pose proof (Hd _ eq_refl Γ Γ1 ρ f Hs Hr Ha) as Hb. destruct (code_exprs r b f) as [c f1]. cbn [fst] in *.
    eapply block_word; [by eapply scope_grows|exact Hb|done|done].
  - injection Hs as <-. pose proof (Hd _ eq_refl Γ Γ ρ f eq_refl (Forall_nil_2 id) Ha) as Hb.
    eapply (follows_app _ _ _ _ [] _ _ _ _ ltac:(done) Hb). intros ρ1 Ha1. by apply follows_plain.
Qed.

Lemma sim_arm m b sp arms d x st rest v w st1 rest1 out :
  sim_seq m (x :: x :: st, rest) (Norm (v :: w :: st1, rest1)) →
  (if f_same w v
   then ∃ y st2, st1 = y :: st2 ∧ sim_seq b (st2, rest1) out
   else sim_arms arms d (st1, rest1) out) →
  sim_arms (mkArm m b sp :: arms) d (x :: st, rest) out.
Proof.
  intros Hm Hgo s' -> Γ Γ' ρ f Hs Hr Hrd Ha.
  apply scope_chain_cons in Hs as (Hsm & HΓ & Hdup & Hfree & (Γb & Hsb) & Γr & Hsr).
  cbn [flat_with] in Hr. rewrite gather_arm_eq in Hr.
  apply Forall_app in Hr as [[Hrm Hrb]%Forall_app Hrr].
  rewrite chain_cons. cbv zeta. eapply arm_follows; [done..| |].
  - intros ρ1 Ha1. by eapply Hm.
  - intros ρ1 Ha1. cbn [all_free forallb] in Hfree. rewrite !andb_true_iff in Hfree.
    destruct Hfree as (_ & Hdrop & _). destruct (f_same w v).
    + destruct Hgo as (y & st2 & -> & Hgo). apply (follows_run Γ' Γb ρ1 _ (y :: st2, rest1) s').
      eapply (follows_cons _ _ _ _ _ _ (st2, rest1)); [apply follows_word; [done..|apply p_drop|done]|].
      intros ρ2 Ha2. by eapply Hgo.
    + apply (follows_run Γ' Γr ρ1 _ (st1, rest1) s'). by eapply Hgo.
Qed.

(** ** All runs *)

Lemma sim_nil s : sim_seq [] s (Norm s).
Proof. intros s' [= <-] Γ Γ' ρ f [= <-] _ Ha. by apply follows_nil. Qed.
Lemma sim_cons e l s s1 out :
  sim_expr e s (Norm s1) → sim_seq l s1 out → sim_seq (e :: l) s out.
Proof.
  intros He Hl s' -> Γ Γ' ρ f Hs Hr Ha. unfold body_reads in Hr. rewrite gather_seq_cons in Hr.
  apply Forall_app in Hr as [Hre Hrl]. unfold scope_seq in Hs. cbn [scope_with] in Hs.
  apply bind_Some in Hs as (Γ1 & Hse & Hsl). rewrite code_cons.
  eapply follows_app; [by eapply scope_expr_grows|by eapply He|]. intros ρ1 Ha1. by eapply Hl.
Qed.
Lemma sim_leaf e s s' : is_leaf e = true → bleaf e s s' → sim_expr e s (Norm s').
Proof.
  intros Hl Hrun s1 [= <-] Γ Γ' ρ f Hs Hr Ha. eapply leaf_follows; try done.
  by destruct e; try done; cbn [gather] in Hr; rewrite app_nil_r in Hr.
Qed.
Lemma sim_case arms d sp s out : sim_arms arms d s out → sim_expr (Case arms d sp) s out.
Proof.
  intros Ha s' -> Γ Γ' ρ f Hs Hr Hag. rewrite gather_case in Hr.
  apply Forall_app in Hr as [_ [Hr Hd]%Forall_app]. by eapply Ha.
Qed.
Lemma simulation :
  (∀ l s out, bexec l s out → sim_seq l s out) ∧ (∀ e s out, bexec1 e s out → sim_expr e s out) ∧
  (∀ b k s out, bexec_do b k s out → sim_do b k s out) ∧
  (∀ arms d s out, bexec_arms arms d s out → sim_arms arms d s out).
Proof.
  assert (∀ v, @truthy (BodyMachine r) v = true → f_zero v = false) as Htrue.
  { intros v Hv. by apply negb_true_iff. }
  assert (∀ v, @truthy (BodyMachine r) v = false → f_zero v = true) as Hfalse.
  { intros v Hv. by apply negb_false_iff. }
  apply exec_induction; try (by intros; intros ?).
  - intros s. apply sim_nil.
  - intros e l s s1 out _ He _ Hl. by eapply sim_cons.
  - intros e s s' Hl _ Hs. by apply sim_leaf.
  - intros t el sp v st rest out Hv _ Hb. apply sim_if. by rewrite (Htrue _ Hv).
  - intros t el sp v st rest out Hv _ Hb. apply sim_if. by rewrite (Hfalse _ Hv).
  - intros b sp s v st rest _ Hb Hv. eapply sim_until; [exact Hb|]. by rewrite (Htrue _ Hv).
  - intros b sp s v st rest out _ Hb Hv _ Hgo. eapply sim_until; [exact Hb|]. by rewrite (Hfalse _ Hv).
  - intros p b sp s v st rest _ Hp Hv. eapply sim_while with (s2 := s); [exact Hp|]. by rewrite (Hfalse _ Hv).
  - intros p b sp s v st rest s2 out _ Hp Hv _ Hb _ Hgo. eapply sim_while; [exact Hp|]. by rewrite (Htrue _ Hv).
  - intros b sp s s1 out _ Hb _ Hgo. by eapply sim_again.
  - intros q b k sp s s1 He. by eapply (sim_do_enter _ _ _ _ _ _ false).
  - intros q b k sp s s1 out He _ Hgo. by eapply (sim_do_enter _ _ _ _ _ _ true).
  - intros arms d sp s out _ Ha. by apply sim_case.
  - intros b k s s1 s2 _ Hb Hn. by eapply (sim_do_turn _ _ _ _ _ false).
  - intros b k s s1 s2 out _ Hb Hn _ Hgo. by eapply (sim_do_turn _ _ _ _ _ true).
  - intros d s v st rest _ Hd. by eapply sim_default.
  - intros m b sp arms d x st rest v w y st1 rest1 out _ Hm Hsame _ Hb.
    eapply sim_arm; [exact Hm|]. cbn in Hsame. rewrite Hsame. by do 2 eexists.
  - intros m b sp arms d x st rest v w st1 rest1 out _ Hm Hsame _ Ha.
    eapply sim_arm; [exact Hm|]. cbn in Hsame. by rewrite Hsame.
Qed.
End Simulation.

(** ** Bodies without [EXIT] *)

Section NoExit.
Context (exit_span : Span → bool).
Notation exit_word := (λ (_ : string) sp, exit_span sp).
Definition exits : list Expr → bool := visits_seq (is_exit exit_word).

Lemma no_exit_runs `{Machine} :
  (∀ l s out, exec exit_word l s out → exits l = false → ∀ s', out ≠ Exit s') ∧
  (∀ e s out, exec1 exit_word e s out → visits (is_exit exit_word) e = false → ∀ s', out ≠ Exit s') ∧
  (∀ b k s out, exec_do exit_word b k s out → exits b = false → ∀ s', out ≠ Exit s') ∧
  (∀ arms d s out, exec_arms exit_word arms d s out →
     any_in (visits_arm (is_exit exit_word)) arms || opt_any exits d = false → ∀ s', out ≠ Exit s').
Proof.
  unfold exits. apply exec_induction; try done; intros; simplify_eq;
    repeat match goal with H : visits _ _ = false |- _ => progress autorewrite with ast in H end;
    repeat match goal with
      | H : visits_seq _ (_ :: _) = false |- _ => rewrite visits_seq_cons in H
      | H : any_in _ (mkArm _ _ _ :: _) || _ = false |- _ => cbn [any_in] in H; rewrite visits_arm_eq in H
      | H : _ || _ = false |- _ => apply orb_false_iff in H as [? ?]
      end; eauto.
  - destruct e; try done. cbn in *. rewrite orb_false_r in *. congruence.
  - destruct el; eauto.
  - destruct d; eauto.
  - match goal with H : _ → ∀ s' : state, r ≠ Exit s' |- _ => apply H end. by apply orb_false_iff.
Qed.

Lemma any_in_false {A} (f g : A → bool) l :
  Forall (λ x, f x = false → g x = false) l → any_in f l = false → any_in g l = false.
Proof. induction 1 as [|x l Hx _ IH]; [done|]. cbn. rewrite !orb_false_iff. intros [? ?]. auto. Qed.

Lemma exits_uses e : visits (is_exit exit_word) e = false → LowerExit.expr_uses_exit exit_span e = false.
Proof.
  induction e as [l|n s|t el s Ht He|b s Hb|p b s Hp Hb|b s Hb|q b k s Hb|arms d s Ha Hd|n s|n s|n s|form s|ns s]
    using Expr_nested_ind; autorewrite with ast; cbn [LowerExit.expr_uses_exit is_exit];
    rewrite ?orb_false_iff; cbn [orb]; try done; try (intros [_ Hv]; split; [done|by eapply any_in_false]).
  - cbn. by rewrite orb_false_r.
  - intros (_ & H1 & H2). split; [done|]. split; [by eapply any_in_false|].
    destruct el as [b|]; [|done]. eapply any_in_false; [by apply He|done].
  - intros (_ & H1 & H2). split; [done|]. split; by eapply any_in_false.
  - intros (_ & H1 & H2). split; [done|]. split.
    + eapply any_in_false; [|exact H1]. eapply Forall_impl; [exact Ha|]. intros [m b s'] [_ Hb].
      rewrite visits_arm_eq. cbn. intros [_ Hv]%orb_false_iff. by eapply any_in_false.
    + destruct d as [b|]; [|done]. eapply any_in_false; [by apply Hd|done].
Qed.
Lemma exits_body l : exits l = false → LowerExit.body_uses_exit exit_span l = false.
Proof. apply any_in_false, Forall_forall. intros e _. apply exits_uses. Qed.
End NoExit.

(** ** Definitions *)

Section Definitions.
Context `{FactorVM} (r : Sema).
Notation exit_at := (is_return (s_word_targets r)).

(** The parameters of a definition, as they are written. *)
Definition params_ok (params : list string) : bool :=
  forallb (λ n, negb (is_discard n) && bool_decide (n ≠ "_")) params.

Lemma bind_all_lookup ps vs ρ n : n ∉ ps → bind_all ps vs ρ !! n = ρ !! n.
Proof.
  revert vs ρ. induction ps as [|p ps IH]; intros [|v vs] ρ Hn; try done. cbn.
  apply not_elem_of_cons in Hn as [Hne Hn]. rewrite IH by done. by apply lookup_insert_ne.
Qed.
Lemma agree_params params args :
  params_ok params = true → agree (list_to_set params) (bind_all params args ∅) (bind_all params args ∅).
Proof.
  intros Hok. unfold params_ok in Hok. rewrite forallb_forall in Hok. split.
  - intros n Hn _. apply elem_of_list_to_set, list_elem_of_In in Hn. split; [|done].
    specialize (Hok n Hn). apply andb_true_iff in Hok as [Hd _]. by apply negb_true_iff.
  - intros n [x Hx]. left. apply elem_of_list_to_set. destruct (decide (n ∈ params)); [done|].
    rewrite bind_all_lookup, lookup_empty in Hx by done. done.
Qed.

(** The code of a body is made of words the reader takes as such. *)
Definition code_fits (body : list Expr) (f : Fresh) : bool :=
  lexes_ok (fst (code_exprs r body f)) && forallb code_ok (fst (code_exprs r body f)).

Lemma body_correct (body : list Expr) (params : list string) (args : list fV) (t : string) (f f' : Fresh)
    (Γ' : gset string) st σ' fs rs st' fs' rs' :
  no_narrow r → emit_exprs r body f = (t, f') → code_fits body f = true → params_ok params = true →
  scope_seq r body (list_to_set params) = Some Γ' → body_reads body →
  @exec (BodyMachine r) (exit_target r) body (st, (bind_all params args ∅, (fs, rs))) (Norm (st', (σ', (fs', rs')))) →
  ∃ q, read_code t = Some q ∧ frun (bind_all params args ∅) q (st, fs, rs) (st', fs', rs').
Proof.
  intros Hn Ht [Hlex Hcode]%andb_true_iff Hp Hs Hr Hrun.
  exists (fst (code_exprs r body f)). split.
  - destruct (emit_reads r Hn body f) as [_ Hread]. rewrite Ht in Hread. apply read_code_of; auto.
  - destruct (proj1 (simulation r) _ _ _ Hrun _ eq_refl (list_to_set params) Γ' (bind_all params args ∅) f Hs Hr)
      as (ρ' & Hl & _); [by apply agree_params|]. by apply leads_run in Hl.
Qed.

(** C2: a definition compiles to code that does what its body does.  Where the
    source body, [EXIT] included, returns, the text the emitter writes for the
    body with its exits lowered is read back as code that goes from the same
    data stack, loop frames and machine state to the same ones, the parameters
    bound as the [::] head binds them.  The conditions are checks on the
    program: locals are used in their block and capture no word the emitter
    writes, no exit is left in a loop, the numerals are read as themselves. *)
Theorem definition_compiles (src : list Expr) (params : list string) (args st st' : list fV)
    (t : string) (f f' : Fresh) (Γ' : gset string) (σ' : env) (fs fs' : list Frame) (rs rs' : fR)
    (Hnarrow : no_narrow r)
    (Hcase : forallb (LowerExit.case_exit_free exit_at) src = true)
    (Hexits : exits exit_at (LowerExit.lower_body exit_at src) = false)
    (Htext : emit_body r (LowerExit.lower_body exit_at src) f = (t, f'))
    (Hfits : code_fits (LowerExit.lower_body exit_at src) f = true)
    (Hparams : params_ok params = true)
    (Hscope : scope_seq r (LowerExit.lower_body exit_at src) (list_to_set params) = Some Γ')
    (Hreads : body_reads (LowerExit.lower_body exit_at src))
    (Hrun : @returns (BodyMachine r) (exit_target r) src (st, (bind_all params args ∅, (fs, rs)))
              (st', (σ', (fs', rs')))) :
  ∃ q, read_code t = Some q ∧ frun (bind_all params args ∅) q (st, fs, rs) (st', fs', rs').
Proof.
  unfold emit_body in Htext. destruct (emit_exprs r _ f) as [t0 f0] eqn:Et.
  rewrite (exits_body _ _ Hexits) in Htext. injection Htext as -> ->.
  apply (@LowerExit.lower_returns exit_at (BodyMachine r) src Hcase) in Hrun as [Hn|Hx].
  - by eapply body_correct.
  - by destruct (proj1 (@no_exit_runs exit_at (BodyMachine r)) _ _ _ Hx Hexits _ eq_refl).
Qed.
End Definitions.

(** [f] adds the numbers below [b] unless [a] is larger. *)
Definition def_text : string := ": f {: a b :} a b > if a exit then 0 b 0 do i + loop ;".
Definition def_program : Program := Eval vm_compute in
  match lex def_text with
  | Done toks => match parse toks with Done p => p | _ => mkProgram [] end
  | _ => mkProgram []
  end.
Definition def_sema : Sema := Eval vm_compute in
  match build LowerQdup.synth_start def_program with (Ok s, _) => s | _ => empty_sema end.
Definition def_body : list Expr := Eval vm_compute in
  match p_items def_program with IDefinition d :: _ => d_body d | _ => [] end.

Definition def_env : gmap string val := @bind_all SampleVM ["a"; "b"] [VInt 1; VInt 2] ∅.
(** A place of its run. *)
Definition def_at (st : list val) (fs : list Frame) : @state (BodyMachine def_sema) :=
  (st, (def_env, (fs, mkRest ∅ []))).

Ltac next st fs := eapply (@x_cons (BodyMachine def_sema) _ _ _ _ (def_at st fs)).
Ltac by_leaf := apply (@x_leaf (BodyMachine def_sema)); [reflexivity|vm_compute; reflexivity|].
Ltac by_local v := by_leaf; exists v; split; vm_compute; reflexivity.
Ltac by_fun args v st := by_leaf; split; [apply (@p_fun SampleVM _ args v st); vm_compute; reflexivity|reflexivity].

Lemma definition_compiles_witness :
  ∃ q, read_code "a b forth.runtime:ans> math:zero? [ 0 b 0 [ forth.runtime:i + 1 ] forth.runtime:do-loop ] [ a ] kernel:if"
         = Some q ∧
       @frun SampleVM def_env q ([], [], mkRest ∅ []) ([VInt 1], [], mkRest ∅ []).
Proof.
  apply (@definition_compiles SampleVM def_sema def_body ["a"; "b"] [VInt 1; VInt 2] [] [VInt 1] _
           (mkFresh 0 0) (mkFresh 0 0) {["b"; "a"]} def_env [] []
           (mkRest ∅ []) (mkRest ∅ [])).
  - intros n. unfold is_narrow. replace (s_escape def_sema) with (∅ : gmap string EscapeState) by (vm_compute; reflexivity).
    by rewrite lookup_empty.
  - vm_compute. reflexivity.
  - vm_compute. reflexivity.
  - vm_compute. reflexivity.
  - vm_compute. reflexivity.
  - vm_compute. reflexivity.
  - vm_compute. reflexivity.
  - repeat constructor; vm_compute; reflexivity.
  - left. unfold def_body. set (M := BodyMachine def_sema).
    next [VInt 1] (@nil Frame); [by_local (VInt 1)|].
    next [VInt 2; VInt 1] (@nil Frame); [by_local (VInt 2)|].
    next [VInt 0] (@nil Frame); [by_fun [VInt 1; VInt 2] (VInt 0) (@nil val)|].
    next (@nil val) (@nil Frame).
    { apply (@x_if_false M); [reflexivity|]. apply (@x_nil M). }
    next [VInt 0] (@nil Frame); [by_leaf; reflexivity|].
    next [VInt 2; VInt 0] (@nil Frame); [by_local (VInt 2)|].
    next [VInt 0; VInt 2; VInt 0] (@nil Frame); [by_leaf; reflexivity|].
    next [VInt 1] (@nil Frame); [|apply (@x_nil M)].
    apply (@x_do M) with (def_at [VInt 0] [mkFrame 2 0 false]); [reflexivity|].
    apply (@d_more M) with (def_at [VInt 0] [mkFrame 2 0 false]) (def_at [VInt 0] [mkFrame 2 1 false]); [|reflexivity|].
    { next [VInt 0; VInt 0] [mkFrame 2 0 false]; [by_leaf; split; [apply (@p_i SampleVM)|]; reflexivity|].
      next [VInt 0] [mkFrame 2 0 false]; [by_fun [VInt 0; VInt 0] (VInt 0) (@nil val)|apply (@x_nil M)]. }
    apply (@d_last M) with (def_at [VInt 1] [mkFrame 2 1 false]); [|reflexivity].
    next [VInt 1; VInt 0] [mkFrame 2 1 false]; [by_leaf; split; [apply (@p_i SampleVM)|]; reflexivity|].
    next [VInt 1] [mkFrame 2 1 false]; [by_fun [VInt 0; VInt 1] (VInt 1) (@nil val)|apply (@x_nil M)].
Defined.
