(* ===== verification/LoopFacts.v ===== *)
(** * Counted loops: how often they turn, and when they do not end *)
From stdpp Require Import strings gmap.
From S2P Require Import Prelude Bytes F64 Lex LetLang Ast Semantics Classes Resolve Effect.
From S2P Require Import Factor LetCode Sema Emit SampleVM EmitFacts.

Section Loops.
Context `{FactorVM} (r : Sema).
Notation bexec := (@exec (BodyMachine r) (exit_target r)).
Notation bexec1 := (@exec1 (BodyMachine r) (exit_target r)).
Notation bexec_do := (@exec_do (BodyMachine r) (exit_target r)).

(** The turns from index [i] on, as many as are left. *)
Lemma do_turns (b : list Expr) (limit : Z) (fs : list Frame) (I : Z → list fV → env → fR → Prop) n : ∀ i st σ rs,
  Z.of_nat n = limit - i → 0 < limit - i →
  (∀ j st σ rs, i ≤ j < limit → I j st σ rs →
     ∃ st' σ' rs', bexec b (st, (σ, (mkFrame limit j false :: fs, rs)))
                     (Norm (st', (σ', (mkFrame limit j false :: fs, rs')))) ∧ I (j + 1) st' σ' rs') →
  I i st σ rs →
  ∃ st' σ' rs', bexec_do b Plus1 (st, (σ, (mkFrame limit i false :: fs, rs))) (Norm (st', (σ', (fs, rs')))) ∧
    I limit st' σ' rs'.
Proof.
  induction n as [|n IH]; intros i st σ rs Hn Hpos Hb Hi; [lia|].
  destruct (Hb i st σ rs ltac:(lia) Hi) as (st1 & σ1 & rs1 & Hrun & Hi1).
  destruct (Z.eqb_spec (i + 1) limit) as [Hlast|Hmore].
  - exists st1, σ1, rs1. split; [|by rewrite <- Hlast].
    eapply (@d_last (BodyMachine r)); [exact Hrun|]. cbn.
    destruct (Z.leb_spec limit (i + 1)); [done|lia].
  - destruct (IH (i + 1) st1 σ1 rs1) as (st2 & σ2 & rs2 & Hdo & Hi2); [lia|lia| |done|].
    { intros j ? ? ? Hj. apply Hb. lia. }
    exists st2, σ2, rs2. split; [|done].
    eapply (@d_more (BodyMachine r)); [exact Hrun| |exact Hdo]. cbn.
    destruct (Z.leb_spec limit (i + 1)); [lia|done].
Qed.

(** C33: [limit start DO .. LOOP] ends.  If the body ends from every state the
    invariant allows, leaves its loop frame as it found it, and takes the
    invariant from [i] to [i + 1], then the loop turns for [start], [start + 1]
    and so on below [limit], drops its frame and ends with the invariant at
    [limit]; when [start] is not below [limit], [DO] turns once and [?DO] with
    equal bounds not at all. *)
Theorem do_loop_rule (is_qdo : bool) (b : list Expr) (sp : Span) (vl vs : fV) (limit start : Z)
    (st : list fV) (σ : env) (fs : list Frame) (rs : fR) (I : Z → list fV → env → fR → Prop)
    (Hlimit : f_to_int vl = Some limit) (Hstart : f_to_int vs = Some start)
    (Hsame : f_same vl vs = bool_decide (limit = start))
    (Hbody : ∀ i st σ rs, start ≤ i < Z.max limit (start + 1) → I i st σ rs →
       ∃ st' σ' rs', bexec b (st, (σ, (mkFrame limit i false :: fs, rs)))
                       (Norm (st', (σ', (mkFrame limit i false :: fs, rs')))) ∧ I (i + 1) st' σ' rs')
    (Hinv : I start st σ rs) :
  ∃ st' σ' rs',
    bexec1 (DoLoop is_qdo b Plus1 sp) (vs :: vl :: st, (σ, (fs, rs))) (Norm (st', (σ', (fs, rs')))) ∧
    I (if is_qdo && (limit =? start) then start else Z.max limit (start + 1)) st' σ' rs'.
Proof.
  destruct (is_qdo && (limit =? start)) eqn:Eskip.
  { exists st, σ, rs. split; [|done]. apply (@x_do_skip (BodyMachine r)). cbn.
    apply andb_true_iff in Eskip as [-> Eq%Z.eqb_eq]. by rewrite Hsame, bool_decide_true. }
  assert (@do_enter (BodyMachine r) is_qdo (vs :: vl :: st, (σ, (fs, rs))) =
          Some (true, (st, (σ, (push_loop_frame limit start fs, rs))))) as Henter.
  { cbn. rewrite Hsame, Hlimit, Hstart. destruct is_qdo; [|done]. cbn in *. apply Z.eqb_neq in Eskip.
    by rewrite bool_decide_false. }
  destruct (Z.leb_spec limit start) as [Hle|Hlt].
  - destruct (Hbody start st σ rs ltac:(lia) Hinv) as (st1 & σ1 & rs1 & Hrun & Hi1).
    exists st1, σ1, rs1. rewrite Z.max_r by lia. split; [|done].
    eapply (@x_do (BodyMachine r)); [exact Henter|]. eapply (@d_last (BodyMachine r)); [exact Hrun|]. cbn.
    destruct (Z.leb_spec limit (start + 1)); [done|lia].
  - rewrite Z.max_l in * by lia.
    destruct (do_turns b limit fs I (Z.to_nat (limit - start)) start st σ rs) as (st1 & σ1 & rs1 & Hdo & Hi1);
      [lia|lia|done|done|].
    exists st1, σ1, rs1. split; [|done]. by eapply (@x_do (BodyMachine r)).
Qed.

(** [n] turns of a loop, the loop going on after each. *)
Fixpoint goes_on (b : list Expr) (k : LoopKind) (n : nat) (s s' : @state (BodyMachine r)) : Prop :=
  match n with
  | O => s' = s
  | S n' => ∃ s1 s2, bexec b s (Norm s1) ∧ @do_next (BodyMachine r) k s1 = Some (true, s2) ∧ goes_on b k n' s2 s'
  end.

(** C38: when a [+LOOP] that counts down ends.  For a body that runs to its end
    from every state, leaving the same negative step and its loop frame every
    time: if the index is still at or above the limit after the first step, the
    loop has a run, and every run of it is that one turn, with the frame
    dropped.  If not, it has no run at all, and goes on for any number of turns,
    its index falling by the step each time; for the test is [limit ≤ index]
    whatever the sign of the step. *)
Theorem plus_loop_down (b : list Expr) (vd : fV) (delta limit i : Z) (fs : list Frame)
    (st : list fV) (σ : env) (rs : fR)
    (Hneg : delta < 0) (Hd : f_to_int vd = Some delta)
    (Hruns : ∀ s, ∃ out, bexec b s out)
    (Hbody : ∀ s out, bexec b s out →
       ∃ st σ rs, out = Norm (vd :: st, (σ, (fst (snd (snd s)), rs)))) :
  let start := (st, (σ, (mkFrame limit i false :: fs, rs))) in
  if limit <=? i + delta then
    (∃ s', bexec_do b PlusN start (Norm s')) ∧
    ∀ out, bexec_do b PlusN start out →
      ∃ st1 σ1 rs1, out = Norm (st1, (σ1, (fs, rs1))) ∧
        bexec b start (Norm (vd :: st1, (σ1, (mkFrame limit i false :: fs, rs1))))
  else
    (∀ out, ¬ bexec_do b PlusN start out) ∧
    ∀ n, ∃ st1 σ1 rs1, goes_on b PlusN n start (st1, (σ1, (mkFrame limit (i + Z.of_nat n * delta) false :: fs, rs1))).
Proof.
  assert (Hturn : ∀ j st σ rs, ∃ st1 σ1 rs1,
    bexec b (st, (σ, (mkFrame limit j false :: fs, rs))) (Norm (vd :: st1, (σ1, (mkFrame limit j false :: fs, rs1))))).
  { intros j st0 σ0 rs0. destruct (Hruns (st0, (σ0, (mkFrame limit j false :: fs, rs0)))) as [out Hrun].
    destruct (Hbody _ _ Hrun) as (st1 & σ1 & rs1 & ->). by exists st1, σ1, rs1. }
  assert (Hnext : ∀ j st σ rs, @do_next (BodyMachine r) PlusN (vd :: st, (σ, (mkFrame limit j false :: fs, rs))) =
    Some (if limit <=? j + delta then (false, (st, (σ, (fs, rs)))) else (true, (st, (σ, (mkFrame limit (j + delta) false :: fs, rs)))))).
  { intros j st0 σ0 rs0. cbn. rewrite Hd. cbn. by destruct (limit <=? j + delta). }
  assert (Hall : ∀ k s out, bexec_do b k s out → k = PlusN → ∀ j st σ rs, s = (st, (σ, (mkFrame limit j false :: fs, rs))) →
    limit ≤ j + delta ∧ ∃ st1 σ1 rs1, out = Norm (st1, (σ1, (fs, rs1))) ∧
      bexec b s (Norm (vd :: st1, (σ1, (mkFrame limit j false :: fs, rs1))))).
  { intros k s out Hdo. clear Hruns Hturn.
    induction Hdo as [b' k s s1 s2 Hrun Hn|b' k s s1 s2 out Hrun Hn Hdo IH|b' k s s1 Hrun];
      intros -> j st0 σ0 rs0 ->; destruct (Hbody _ _ Hrun) as (st1 & σ1 & rs1 & E); simplify_eq/=;
      rewrite Hnext in Hn; destruct (Z.leb_spec limit (j + delta)); simplify_eq.
    - split; [done|]. by exists st1, σ1, rs1.
    - destruct (IH Hbody eq_refl (j + delta) st1 σ1 rs1 eq_refl) as [Hle _]. lia. }
  intros start. destruct (Z.leb_spec limit (i + delta)) as [Hle|Hlt]; split.
  - destruct (Hturn i st σ rs) as (st1 & σ1 & rs1 & Hrun). eexists. eapply (@d_last (BodyMachine r)); [exact Hrun|].
    rewrite Hnext. by destruct (Z.leb_spec limit (i + delta)); [|lia].
  - intros out Hdo. by destruct (Hall _ _ _ Hdo eq_refl i st σ rs eq_refl).
  - intros out Hdo. destruct (Hall _ _ _ Hdo eq_refl i st σ rs eq_refl). lia.
  - intros n. unfold start. clear start. revert i st σ rs Hlt. induction n as [|n IH]; intros i st σ rs Hlt.
    { exists st, σ, rs. by rewrite Z.add_0_r. }
    destruct (Hturn i st σ rs) as (st1 & σ1 & rs1 & Hrun).
    destruct (IH (i + delta) st1 σ1 rs1 ltac:(lia)) as (st2 & σ2 & rs2 & Hgo). exists st2, σ2, rs2.
    eexists _, _. split; [exact Hrun|]. split; [rewrite Hnext; by destruct (Z.leb_spec limit (i + delta)); [lia|]|].
    by replace (i + Z.of_nat (S n) * delta) with (i + delta + Z.of_nat n * delta) by lia.
Qed.
End Loops.

(** ** Examples *)

(** The loop of [f] in [EmitFacts]: [0 10 0 do i + loop] is 45. *)
Definition sum_body : list Expr := Eval vm_compute in
  match last def_body with Some (DoLoop _ b _ _) => b | _ => [] end.
Definition sum_span : Span := mkSpan (mkPos 1 42 41) (mkPos 1 53 52).
Definition sums (j : Z) (st : list val) (σ : gmap string val) (rs : Rest) : Prop :=
  ∃ a, st = [VInt a] ∧ 2 * a = j * (j - 1).

Definition sum_at (st : list val) (σ : gmap string val) (j : Z) (rs : Rest) : @state (BodyMachine def_sema) :=
  (st, (σ, ([mkFrame 10 j false], rs))).

Lemma sum_turn j st σ rs :
  sums j st σ rs →
  ∃ st' σ' rs', @exec (BodyMachine def_sema) (@exit_target def_sema) sum_body (st, (σ, ([mkFrame 10 j false], rs)))
                  (Norm (st', (σ', ([mkFrame 10 j false], rs')))) ∧ sums (j + 1) st' σ' rs'.
Proof.
  intros (a & -> & Ha). exists [VInt (a + j)], σ, rs. split; [|exists (a + j); split; [done|lia]].
  eapply (@x_cons (BodyMachine def_sema) _ _ _ _ (sum_at [VInt j; VInt a] σ j rs)).
  { by_leaf. split; [by apply (@p_i SampleVM)|done]. }
  eapply (@x_cons (BodyMachine def_sema) _ _ _ _ (sum_at [VInt (a + j)] σ j rs)).
  { by_leaf. split; [|done]. by apply (@p_fun SampleVM "+" [VInt a; VInt j] (VInt (a + j)) []). }
  apply (@x_nil (BodyMachine def_sema)).
Qed.

Lemma do_loop_rule_witness :
  ∃ st' σ' rs',
    @exec1 (BodyMachine def_sema) (@exit_target def_sema) (DoLoop false sum_body Plus1 sum_span)
      ([VInt 0; VInt 10; VInt 0], (∅, ([], mkRest ∅ []))) (Norm (st', (σ', ([], rs')))) ∧ sums 10 st' σ' rs'.
Proof.
  apply (@do_loop_rule SampleVM def_sema false sum_body sum_span (VInt 10) (VInt 0) 10 0 [VInt 0] ∅ []
           (mkRest ∅ []) sums); try reflexivity.
  - intros j st σ rs _. apply sum_turn.
  - by exists 0.
Defined.

Definition minus_one : list Expr := [Lit (LitInt (-1) sum_span)].
Lemma minus_one_runs s : ∃ out, @exec (BodyMachine def_sema) (@exit_target def_sema) minus_one s out.
Proof. destruct s as [st [σ [fs rs]]]. eexists. eapply (@x_cons (BodyMachine def_sema)); [by constructor|apply (@x_nil (BodyMachine def_sema))]. Qed.
(** From 10 down to 5 the loop ends at once; from 10 down to 20 it does not end. *)
Lemma plus_loop_down_witness :
  (∃ s', @exec_do (BodyMachine def_sema) (@exit_target def_sema) minus_one PlusN
           ([], (∅, ([mkFrame 5 10 false], mkRest ∅ []))) (Norm s')) ∧
  (∀ out, ¬ @exec_do (BodyMachine def_sema) (@exit_target def_sema) minus_one PlusN
              ([], (∅, ([mkFrame 20 10 false], mkRest ∅ []))) out) ∧
  ∃ st1 σ1 rs1, @goes_on SampleVM def_sema minus_one PlusN 3 ([], (∅, ([mkFrame 20 10 false], mkRest ∅ [])))
                  (st1, (σ1, ([mkFrame 20 7 false], rs1))).
Proof.
  assert (Hb : ∀ s out, @exec (BodyMachine def_sema) (@exit_target def_sema) minus_one s out →
    ∃ st σ rs, out = Norm (VInt (-1) :: st, (σ, (fst (snd (snd s)), rs)))).
  { intros [st1 [σ1 [fs1 rs1]]] out Hrun. inversion Hrun as [|? ? ? ? ? H1 H2|? ? ? ? H1]; subst; inversion H1; simplify_eq/=.
    inversion H2; subst. by do 3 eexists. }
  destruct (@plus_loop_down SampleVM def_sema minus_one (VInt (-1)) (-1) 5 10 [] [] ∅ (mkRest ∅ []) eq_refl eq_refl minus_one_runs Hb) as [H1 _].
  destruct (@plus_loop_down SampleVM def_sema minus_one (VInt (-1)) (-1) 20 10 [] [] ∅ (mkRest ∅ []) eq_refl eq_refl minus_one_runs Hb) as [H2 H3].
  split; [exact H1|]. split; [exact H2|exact (H3 3%nat)].
Defined.
