(* ===== verification/HeadFacts.v ===== *)
(** * The heads of emitted definitions

    Effect annotations, the preamble of a body that binds locals half-way, and
    the vocabularies of the [USING:] line. *)
From stdpp Require Import strings gmap sorting.
From S2P Require Import Prelude Bytes F64 Lex LexRound LetLang Ast Semantics Classes Parse Resolve Effect.
From S2P Require Import Factor LetCode Sema Pipeline Emit SampleVM FactorFacts LetCodeFacts EmitCode EmitFacts.

(** ** Text after a space *)

Lemma reads_led {A} (g : A → string) l a la :
  reads a la → forallb token_ok (g <$> l) = true →
  reads (a +:+ text_with (λ x, " " +:+ g x) l) (la ++ lex_words (g <$> l)).
Proof.
  revert a la. induction l as [|x l IH]; intros a la Ha Hok; cbn [text_with fmap list_fmap].
  { by rewrite str_app_nil_r, app_nil_r. }
  cbn [fmap list_fmap forallb] in Hok. apply andb_true_iff in Hok as [Hx Hl].
  change (lex_words (g x :: (g <$> l))) with ([LWord (g x)] ++ lex_words (g <$> l)).
  rewrite <- str_app_assoc, (app_assoc la). apply IH; [|done].
  apply reads_join; [done|by apply reads_word].
Qed.
Lemma reads_blank a la (b : bool) : reads a la → reads (a +:+ (if b then " " else "")) la.
Proof.
  intros Ha. destruct b; [|by rewrite str_app_nil_r]. intros s _. rewrite str_app_assoc. by rewrite Ha.
Qed.

(** An annotation [( ins -- outs )]. *)
Lemma reads_annotation {A B} (g : A → string) (h : B → string) ins outs (b1 b2 : bool) :
  forallb token_ok (g <$> ins) = true → forallb token_ok (h <$> outs) = true →
  scan ("(" +:+ text_with (λ x, " " +:+ g x) ins +:+ (if b1 then " " else "") +:+ " --" +:+
        text_with (λ x, " " +:+ h x) outs +:+ (if b2 then " " else "") +:+ " ) ") =
  LWord "(" :: lex_words (g <$> ins) ++ LWord "--" :: lex_words (h <$> outs) ++ [LWord ")"].
Proof.
  intros Hi Ho. apply reads_scan.
  replace (_ +:+ _) with
    ((((((("(" +:+ text_with (λ x, " " +:+ g x) ins) +:+ (if b1 then " " else "")) +:+ " " +:+ "--") +:+
        text_with (λ x, " " +:+ h x) outs) +:+ (if b2 then " " else "")) +:+ " " +:+ ")") +:+
      (if true then " " else "")) by by rewrite !str_app_assoc.
  apply (reads_blank _ _ true).
  change (LWord "(" :: ?a ++ LWord "--" :: ?b ++ [LWord ")"])
    with (([LWord "("] ++ a) ++ ([LWord "--"] ++ b) ++ [LWord ")"]).
  rewrite app_assoc, (app_assoc _ [LWord "--"]). apply reads_join; [|token]. apply reads_blank.
  apply reads_led; [|done]. apply reads_join; [|token]. apply reads_blank.
  apply reads_led; [token|done].
Qed.

(** ** Effect annotations *)

Definition slot_name_ok (stop : string) (n : string) : bool := token_ok n && negb (bool_decide (n = stop)).

Lemma letter_ok i : slot_name_ok "--" (effect_letter i) = true.
Proof.
  unfold effect_letter. assert ((i mod 26 < 26)%N) as H by (apply N.mod_lt; lia).
  generalize dependent (i mod 26)%N. intros n Hn.
  assert (∃ k, (k < 26)%nat ∧ n = N.of_nat k) as (k & Hk & ->) by (exists (N.to_nat n); lia).
  do 26 (destruct k as [|k]; [vm_compute; reflexivity|]). lia.
Qed.
Lemma digits_not_blank s : str_all is_digit s = true → str_all (λ b, negb (is_blank b)) s = true.
Proof.
  apply str_all_impl. intros b Hb. destruct (is_blank b) eqn:E; [|done]. unfold is_blank in E.
  rewrite !orb_true_iff, !Stdlib.Strings.Ascii.eqb_eq in E. by destruct E as [[[->| ->]| ->]| ->].
Qed.
Lemma numbered_ok n : slot_name_ok ")" ("r" +:+ pretty (N.of_nat n)) = true.
Proof.
  destruct (pretty_N_num (N.of_nat n)) as (Hd & _). unfold slot_name_ok, token_ok.
  change ("r" +:+ ?s) with (String "r" s). cbn [str_all]. rewrite (digits_not_blank _ Hd).
  by rewrite bool_decide_false.
Qed.

Definition slot_names_ok (stop : string) (ns : list string) : bool := forallb (slot_name_ok stop) ns.
Lemma slot_names_tokens stop ns : slot_names_ok stop ns = true → forallb token_ok ns = true ∧ names_ok stop ns = true.
Proof.
  unfold slot_names_ok, names_ok. induction ns as [|n ns IH]; [done|]. cbn [forallb].
  intros [[Ht Hn]%andb_true_iff Hns]%andb_true_iff. destruct (IH Hns) as [-> ->]. by rewrite Ht, Hn.
Qed.
Lemma slot_names_seq stop (g : nat → string) l :
  (∀ n, slot_name_ok stop (g n) = true) → slot_names_ok stop (g <$> l) = true.
Proof. intros Hg. induction l as [|x l IH]; [done|]. cbn. by rewrite Hg. Qed.

(** An emitted effect annotation states the inferred effect.  Whatever was
    declared, the annotation of a word whose effect was inferred is read as
    that many inputs and that many outputs: the declared names are kept only
    where their numbers agree. *)
Theorem effect_annotation_counts (declared : option StackEffect) (inputs outputs : N)
    (Hdecl : ∀ eff, declared = Some eff →
       slot_names_ok "--" (sanitize <$> se_inputs eff) = true ∧
       slot_names_ok ")" (sanitize <$> se_outputs eff) = true ∧
       Z.of_nat (length (se_inputs eff)) < 2 ^ 32 ∧ Z.of_nat (length (se_outputs eff)) < 2 ^ 32) :
  ∃ ins outs,
    scan (effect_annotation declared (Some (Known inputs outputs))) =
      LWord "(" :: (LWord <$> ins) ++ LWord "--" :: (LWord <$> outs) ++ [LWord ")"] ∧
    names_ok "--" ins = true ∧ names_ok ")" outs = true ∧
    N.of_nat (length ins) = inputs ∧ N.of_nat (length outs) = outputs.
Proof.
  assert (∀ (g : nat → string) (h : nat → string),
    (∀ n, slot_name_ok "--" (g n) = true) → (∀ n, slot_name_ok ")" (h n) = true) →
    let ins := g <$> seq 0 (N.to_nat inputs) in let outs := h <$> seq 0 (N.to_nat outputs) in
    slot_names_ok "--" ins = true ∧ slot_names_ok ")" outs = true ∧
    N.of_nat (length ins) = inputs ∧ N.of_nat (length outs) = outputs) as Hseq.
  { intros g h Hg Hh ins outs. subst ins outs. rewrite !length_fmap, !length_seq.
    split; [by apply slot_names_seq|]. split; [by apply slot_names_seq|lia]. }
  assert (∃ ins outs,
    scan (synth_effect_annotation inputs outputs) =
      LWord "(" :: lex_words ins ++ LWord "--" :: lex_words outs ++ [LWord ")"] ∧
    names_ok "--" ins = true ∧ names_ok ")" outs = true ∧
    N.of_nat (length ins) = inputs ∧ N.of_nat (length outs) = outputs) as Hsynth.
  { destruct (Hseq (λ i, effect_letter (N.of_nat i)) (λ i, "r" +:+ pretty (N.of_nat i))) as (Hi & Ho & Hli & Hlo);
      [intros; apply letter_ok|apply numbered_ok|].
    apply slot_names_tokens in Hi as [Hti Hni], Ho as [Hto Hno].
    do 2 eexists. split; [|done].
    apply (reads_annotation (λ i, effect_letter (N.of_nat i)) (λ i, "r" +:+ pretty (N.of_nat i))); done. }
  destruct declared as [eff|]; [|exact Hsynth]. unfold effect_annotation.
  destruct ((len32 (se_inputs eff) =? inputs) && (len32 (se_outputs eff) =? outputs))%N eqn:E; [|exact Hsynth].
  apply andb_true_iff in E as [E1%N.eqb_eq E2%N.eqb_eq]. destruct (Hdecl eff eq_refl) as (Hi & Ho & Hli & Hlo).
  apply slot_names_tokens in Hi as [Hti Hni], Ho as [Hto Hno].
  exists (sanitize <$> se_inputs eff), (sanitize <$> se_outputs eff). rewrite !length_fmap.
  split; [exact (reads_annotation sanitize sanitize _ _ (is_nil (se_inputs eff)) false Hti Hto)|]. unfold len32 in *. repeat split; [done|done|subst inputs|subst outputs]; rewrite N.mod_small; lia.
Qed.

Definition declared_sample : option StackEffect := Some (mkStackEffect ["a"] ["b"; "c.d"] sp0).
Lemma effect_annotation_counts_witness :
  effect_annotation declared_sample (Some (Known 1 2)) = "( a -- b c_d ) " ∧
  effect_annotation declared_sample (Some (Known 1 1)) = "( a -- r0 ) " ∧
  ∃ ins outs,
    scan (effect_annotation declared_sample (Some (Known 1 1))) =
      LWord "(" :: (LWord <$> ins) ++ LWord "--" :: (LWord <$> outs) ++ [LWord ")"] ∧
    names_ok "--" ins = true ∧ names_ok ")" outs = true ∧
    N.of_nat (length ins) = 1%N ∧ N.of_nat (length outs) = 1%N.
Proof.
  split; [vm_compute; reflexivity|]. split; [vm_compute; reflexivity|].
  apply effect_annotation_counts. intros eff [= <-]. repeat split; vm_compute; reflexivity.
Defined.

(** ** Locals half-way through a body *)

Lemma spaced_words names :
  forallb token_ok names = true → spaced (words_text names) (lex_words names).
Proof.
  induction names as [|n ns IH]; [intros _; apply spaced_nil|]. cbn [forallb]. intros [Hn Hns]%andb_true_iff.
  cbn [words_text text_with]. apply (spaced_app _ [LWord n]); [by apply reads_spaced, reads_word|by apply IH].
Qed.
Lemma words_code names : forallb word_ok names = true → forallb code_ok (words names) = true.
Proof. induction names as [|n ns IH]; [done|]. cbn. intros [-> ?]%andb_true_iff. auto. Qed.

Section Preamble.
Context `{FactorVM}.

Lemma push_params ps args (ρ : env) st fs rs :
  NoDup ps → length args = length ps → (∀ i n v, ps !! i = Some n → args !! i = Some v → ρ !! n = Some v) →
  frun ρ (words ps) (st, fs, rs) (rev args ++ st, fs, rs).
Proof.
  revert args st. induction ps as [|p ps IH]; intros args st Hnd Hlen Hρ.
  { destruct args; [constructor|done]. }
  destruct args as [|v args]; [done|]. apply NoDup_cons in Hnd as [_ Hnd].
  apply f_local with v; [by apply (Hρ 0%nat)|]. cbn [rev]. rewrite <- app_assoc.
  apply IH; [done|by injection Hlen|]. intros i n x Hn Hx. by apply (Hρ (S i)).
Qed.
Lemma bind_all_nth ps args (ρ : env) i n v :
  NoDup ps → ps !! i = Some n → args !! i = Some v → bind_all ps args ρ !! n = Some v.
Proof.
  revert args ρ i. induction ps as [|p ps IH]; intros args ρ i Hnd Hn Hv; [done|].
  destruct args as [|x args]; [by rewrite lookup_nil in Hv|]. apply NoDup_cons in Hnd as [Hp Hnd].
  destruct i as [|i]; cbn in *; simplify_eq; [|by eapply IH].
  rewrite bind_all_lookup by done. apply lookup_insert_eq.
Qed.

(** A body that binds locals half-way gets its inputs back.  Such a
    definition is a [::] word whose parameters are pushed again in front of the
    body: with distinct names the code in front restores the stack the caller
    passed. *)
Theorem preamble_restores (d : Definition_) (synth : option Effect) (names : list string) (args st : list fV)
    (fs : list Frame) (rs : fR)
    (Hnames : preamble_names d synth = Some names)
    (Hnd : NoDup names) (Htokens : forallb token_ok names = true) (Hwords : forallb word_ok names = true)
    (Hargs : length args = length names) :
  ∃ q, read_code (words_text names) = Some q ∧
       frun (bind_all names args ∅) q (st, fs, rs) (rev args ++ st, fs, rs).
Proof.
  exists (words names). split.
  - apply read_code_of.
    + rewrite flats_words. intros s _. by apply spaced_words.
    + by apply words_code.
  - apply push_params; [done..|]. intros i n v. by apply bind_all_nth.
Qed.
End Preamble.

(** With a name used twice the last argument is pushed for both. *)
Definition twice_text : string := ": h ( n n -- n ) dup {: x :} x + ;".
Definition twice_def : option Definition_ := Eval vm_compute in
  match lex twice_text with
  | Done toks => match parse toks with
                 | Done p => match p_items p with IDefinition d :: _ => Some d | _ => None end
                 | _ => None
                 end
  | _ => None
  end.
(** The names of a stack comment need not differ, and then the inputs are
    not restored: in [: h ( n n -- n ) .. ;] the code in front of the body
    leaves the second argument twice. *)
Theorem preamble_repeats_names :
  (d ← twice_def; preamble_names d None) = Some ["n"; "n"] ∧
  ∀ `{FactorVM} (a b : fV) st fs rs s',
    frun (bind_all ["n"; "n"] [a; b] ∅) (words ["n"; "n"]) (st, fs, rs) s' → s' = (b :: b :: st, fs, rs).
Proof.
  split; [vm_compute; reflexivity|]. intros VM a b st fs rs s'. cbn.
  assert ((<["n" := b]> (<["n" := a]> ∅) : gmap string fV) !! "n" = Some b) as Hn by apply lookup_insert_eq.
  intros Hr. inversion Hr as [|? ? v ? ? ? ? ? Hv Hr1|? ? ? ? ? ? Hv| | | |]; subst; [|congruence].
  inversion Hr1 as [|? ? v' ? ? ? ? ? Hv' Hr2|? ? ? ? ? ? Hv'| | | |]; subst; [|congruence].
  inversion Hr2; subst. congruence.
Qed.

Definition swap_def : Definition_ :=
  mkDefinition "h" sp0 (Some (mkStackEffect ["a"; "b"] ["c"] sp0)) [] [] sp0.
Lemma preamble_restores_witness :
  ∃ q, read_code "a b " = Some q ∧
    @frun SampleVM (@bind_all SampleVM ["a"; "b"] [VInt 1; VInt 2] ∅) q
      ([VInt 9], [], mkRest ∅ []) ([VInt 2; VInt 1; VInt 9], [], mkRest ∅ []).
Proof.
  apply (@preamble_restores SampleVM swap_def None ["a"; "b"] [VInt 1; VInt 2] [VInt 9] [] (mkRest ∅ []));
    [reflexivity| |reflexivity..].
  apply (bool_decide_unpack (NoDup ["a"; "b"])). vm_compute. exact I.
Defined.

(** ** Vocabularies in use *)

Lemma bset_insert_elem x y l : x ∈ bset_insert y l ↔ x = y ∨ x ∈ l.
Proof.
  induction l as [|z l IH]; cbn [bset_insert]; [set_solver|].
  destruct (bool_decide (y = z)) eqn:E; [apply bool_decide_eq_true in E; set_solver|].
  destruct (String.leb y z); set_solver.
Qed.
Definition sorted_set (l : list string) : Prop := StronglySorted (λ a b, String.le a b ∧ a ≠ b) l.
Lemma bset_insert_sorted y l : sorted_set l → sorted_set (bset_insert y l).
Proof.
  induction 1 as [|z l Hl IH Hz]; cbn [bset_insert]; [by repeat constructor|].
  destruct (bool_decide (y = z)) eqn:E; [by constructor|]. apply bool_decide_eq_false in E.
  destruct (String.leb y z) eqn:Ele.
  - constructor; [by constructor|]. constructor; [split; [unfold String.le; by rewrite Ele|done]|].
    eapply Forall_impl; [exact Hz|]. intros w [Hw Hne]. split.
    + transitivity z; [unfold String.le; by rewrite Ele|done].
    + intros <-. apply Hne. apply (anti_symm String.le); [done|]. unfold String.le. by rewrite Ele.
  - constructor; [done|]. apply Forall_forall. intros w [->|Hw]%bset_insert_elem.
    + split; [|done]. destruct (total String.le y z) as [H|H]; [unfold String.le in H; by rewrite Ele in H|done].
    + by eapply Forall_forall in Hz.
Qed.
Lemma bset_fold l acc :
  sorted_set acc → sorted_set (fold_with bset_insert l acc) ∧
  ∀ x, x ∈ fold_with bset_insert l acc ↔ x ∈ l ∨ x ∈ acc.
Proof.
  revert acc. induction l as [|y l IH]; intros acc Ha; cbn [fold_with]; [set_solver|].
  destruct (IH (bset_insert y acc) (bset_insert_sorted _ _ Ha)) as [Hs Hx]. split; [done|].
  intros x. rewrite Hx, bset_insert_elem. set_solver.
Qed.

Lemma elem_when (b : bool) (l : list string) v : v ∈ (if b then l else []) → v ∈ l.
Proof. destruct b; [done|]. by intros ?%elem_of_nil. Qed.

(** The [USING:] line names every vocabulary it needs, once and in order.
    The vocabularies are sorted without repetitions; they hold the base ones
    and the vocabulary of every resolved reference, whatever the items are;
    and they hold no other than these and the five for classes, methods and
    locals. *)
Theorem using_line_covers (r : Sema) :
  sorted_set (vocabs_needed r) ∧
  (∀ v, v ∈ base_vocabs → v ∈ vocabs_needed r) ∧
  (∀ span t v, s_word_targets r !! span = Some t → target_vocab t = Some v → v ∈ vocabs_needed r) ∧
  (existsb item_uses_locals (p_items (s_program r)) = true → "locals" ∈ vocabs_needed r) ∧
  (∀ v, v ∈ vocabs_needed r →
     v ∈ base_vocabs ∨ v ∈ ["classes.tuple"; "accessors"; "multi-methods"; "locals"] ∨
     ∃ span t, s_word_targets r !! span = Some t ∧ target_vocab t = Some v).
Proof.
  unfold vocabs_needed. match goal with |- context [fold_with bset_insert ?l []] => destruct (bset_fold l []) as [Hs Hx] end;
    [constructor|]. split; [done|]. setoid_rewrite Hx. repeat split.
  - intros v Hv. left. apply elem_of_app. left. apply elem_of_app. by left.
  - intros span t v Ht Hv. left. apply elem_of_app. right. apply list_elem_of_omap. exists t. split; [|done].
    apply list_elem_of_fmap. exists (span, t). split; [done|by apply elem_of_map_to_list].
  - intros ->. rewrite orb_true_r. left. apply elem_of_app. left. do 3 (apply elem_of_app; right). by_list.
  - intros v [Hv|Hv]; [|by apply elem_of_nil in Hv].
    apply elem_of_app in Hv as [Hv|Hv].
    + repeat (apply elem_of_app in Hv as [Hv|Hv]); [by left|..]; right; left; apply elem_when in Hv;
        repeat (apply elem_of_cons in Hv as [->|Hv]); try (by apply elem_of_nil in Hv); by_list.
    + right. right. apply list_elem_of_omap in Hv as (t & Ht & Hv).
      apply list_elem_of_fmap in Ht as ([span t'] & -> & Ht). apply elem_of_map_to_list in Ht. eauto.
Qed.
