(* ===== verification/GenericFacts.v ===== *)
(** * The wrapper of a generic with before and after methods

    Such a generic is emitted as three: the primary one, and two that return
    nothing.  The word of its name calls the three with the same inputs. *)
From stdpp Require Import strings gmap.
From S2P Require Import Prelude Bytes F64 Lex LexRound LetLang Ast Semantics Classes Parse Resolve Effect.
From S2P Require Import Factor LetCode Sema Pipeline Emit SampleVM FactorFacts LetCodeFacts EmitCode EmitFacts HeadFacts.

(** ** Runs of pushes, calls and bindings *)

Section Runs.
Context `{FactorVM}.
Implicit Types (ρ : env) (s : fstate) (q : list fcode).

(** A state with more items, the last on top. *)
Definition push_args (vs : list fV) (s : fstate) : fstate :=
  let '(st, fs, rs) := s in (rev vs ++ st, fs, rs).

Lemma push_args_app vs ws s : push_args ws (push_args vs s) = push_args (vs ++ ws) s.
Proof. destruct s as [[st fs] rs]. cbn. by rewrite rev_app_distr, app_assoc. Qed.

(** Names that are bound to the values of a list, one by one. *)
Definition bound_to (ρ : env) : list string → list fV → Prop := Forall2 (λ n v, ρ !! n = Some v).

Lemma run_words ρ ns vs q s s' :
  bound_to ρ ns vs → frun ρ (words ns ++ q) s s' ↔ frun ρ q (push_args vs s) s'.
Proof.
  intros Hb. revert s. induction Hb as [|n v ns vs Hv _ IH]; intros s; [by destruct s as [[st fs] rs]|].
  change (v :: vs) with ([v] ++ vs). rewrite <- push_args_app, <- IH. destruct s as [[st fs] rs]. cbn. split.
  - intros Hr. inversion Hr; subst; [|congruence]. by simplify_eq.
  - intros Hr. by apply f_local with v.
Qed.

Lemma run_call ρ w q s s' :
  ρ !! w = None → frun ρ ([FWord w] ++ q) s s' ↔ ∃ s1, fstep w s s1 ∧ frun ρ q s1 s'.
Proof.
  intros Hw. split; [|intros (s1 & Hs & Hr); by eapply f_call].
  intros Hr. inversion Hr; subst; [congruence|eauto].
Qed.

Lemma run_binds ρ ns q s s' :
  frun ρ ((FBind <$> ns) ++ q) s s' ↔
  ∃ vs st fs rs, length vs = length ns ∧ s = (vs ++ st, fs, rs) ∧ frun (bind_all ns vs ρ) q (st, fs, rs) s'.
Proof.
  revert ρ s. induction ns as [|n ns IH]; intros ρ s.
  { split; [|intros ([|v vs] & st & fs & rs & Hl & -> & Hr); done].
    destruct s as [[st fs] rs]. intros Hr. by exists [], st, fs, rs. }
  cbn. split.
  - intros Hr. inversion Hr as [| | | | |? ? ? ? ? ? ? ? Hr0|]; subst. apply IH in Hr0 as (vs & st' & fs' & rs' & Hl & [= -> -> ->] & Hr').
    exists (v :: vs), st', fs', rs'. cbn. by rewrite Hl.
  - intros ([|v vs] & st & fs & rs & [= Hl] & -> & Hr). constructor. apply IH. eauto 7.
Qed.
End Runs.

(** ** The code of the wrapper *)

Definition call_code (n which : string) (ins : list string) : list fcode :=
  if is_nil ins then [] else words ins ++ [FWord (n +:+ which)].
Definition head_code (n : string) (ins : list string) : list fcode :=
  call_code n ":before" ins ++ words ins ++ [FWord (n +:+ ":primary")].
Definition tail_code (n : string) (ins outs : list string) : list fcode :=
  call_code n ":after" ins ++ words outs.
Definition wrapper_code (n : string) (ins outs : list string) : list fcode :=
  head_code n ins ++ (FBind <$> rev outs) ++ tail_code n ins outs.

(** The bindings of the results, as they are written. *)
Definition result_lexemes (outs : list string) : list lexeme :=
  match outs with
  | [] => []
  | [n] => [LWord ":>"; LWord n]
  | _ => LWord ":>" :: LWord "(" :: lex_words outs ++ [LWord ")"]
  end.

Lemma read_results outs opened cur ls :
  names_ok ")" outs = true → names_ok "(" outs = true →
  read_in Code opened cur (result_lexemes outs ++ ls) = read_in Code opened (rev (FBind <$> rev outs) ++ cur) ls.
Proof.
  intros Hc Ho. destruct outs as [|n [|m outs]]; [done|..].
  - cbn in Ho. apply andb_true_iff in Ho as [Ho%negb_true_iff _]. cbn. by rewrite Ho.
  - cbn [result_lexemes app]. rewrite <- app_assoc. cbn [read_in].
    do 2 rewrite bool_decide_false by done. rewrite bool_decide_true by done.
    cbn [app]. rewrite bool_decide_true by done. rewrite read_binders by done. by rewrite app_nil_r.
Qed.

Definition plain_names (ns : list string) : bool :=
  forallb token_ok ns && forallb word_ok ns && names_ok ")" ns && names_ok "(" ns.

Lemma numbers_plain k p : (p = "a" ∨ p = "r") → plain_names (numbers p k) = true.
Proof.
  intros Hp. unfold plain_names, names_ok, numbers. generalize (seq 0 k). intros l.
  induction l as [|i l IH]; [done|]. cbn [fmap list_fmap forallb].
  rewrite !andb_true_iff in *. destruct (pretty_N_num (N.of_nat i)) as (Hd & _).
  assert (∀ c, word_ok (String c (pretty (N.of_nat i))) = true ∨ c ∈ ["[";"]";":"]%char) as Hw.
  { intros c. destruct (decide (c ∈ ["[";"]";":"]%char)); [by right|]. left. unfold word_ok, opening.
    rewrite bool_decide_false; [done|]. set_solver. }
  destruct IH as (((? & ?) & ?) & ?). destruct Hp as [-> | ->];
    (repeat split; [..|done]; try done); cbn;
    try (by rewrite digits_not_blank); try (rewrite bool_decide_false; done).
Qed.

Lemma shadow_ok n which :
  token_ok n = true → which ∈ [":before"; ":primary"; ":after"] →
  token_ok (n +:+ which) = true ∧ word_ok (n +:+ which) = true.
Proof.
  intros Hn Hw. destruct n as [|c n]; [done|]. split.
  - rewrite str_app_cons. cbn [token_ok] in *. rewrite <- str_app_cons, str_all_app.
    apply andb_true_iff in Hn as [-> ->].
    repeat (apply elem_of_cons in Hw as [->|Hw]; [done|]). by apply elem_of_nil in Hw.
  - unfold word_ok, opening. rewrite bool_decide_false; [done|]. intros Hin.
    assert (2 < String.length (String c n +:+ which))%nat as Hl.
    { rewrite str_length_app.
      repeat (apply elem_of_cons in Hw as [->|Hw]; [cbn; lia|]). by apply elem_of_nil in Hw. }
    repeat (apply elem_of_cons in Hin as [E|Hin]; [rewrite E in Hl; cbn in Hl; lia|]). by apply elem_of_nil in Hin.
Qed.

Lemma words_lexemes ns : flats (words ns) = lex_words ns.
Proof. induction ns as [|n ns IH]; [done|]. cbn. f_equal. exact IH. Qed.
Lemma spaced_call n which ins :
  token_ok (n +:+ which) = true → forallb token_ok ins = true →
  spaced (if_some ins (words_text ins +:+ n +:+ which +:+ " ")) (flats (call_code n which ins)).
Proof.
  intros Hw Hins. unfold call_code, if_some. destruct (is_nil ins); [apply spaced_nil|].
  rewrite flats_app, words_lexemes. apply spaced_app; [by apply spaced_words|].
  rewrite <- str_app_assoc. by apply reads_spaced, reads_word.
Qed.

(** Text in front of a blank. *)
Lemma reads_spaced_app a la b lb :
  reads a la → (∀ s, ends (b +:+ s)) → spaced b lb → spaced (a +:+ b) (la ++ lb).
Proof. intros Ha Hb Hs s. by rewrite str_app_assoc, Ha, Hs, app_assoc. Qed.

Lemma spaced_outs k :
  spaced (match numbers "r" k with
          | [] => " " | [_] => " :> r0 " | _ => " :> ( " +:+ words_text (numbers "r" k) +:+ ") "
          end) (result_lexemes (numbers "r" k)).
Proof.
  destruct k as [|[|k]]; [by intros s|by intros s|].
  pose proof (numbers_plain (S (S k)) "r" (or_intror eq_refl)) as Hok. unfold plain_names in Hok.
  rewrite !andb_true_iff in Hok. destruct Hok as (((Ht & _) & _) & _).
  destruct (numbers "r" (S (S k))) as [|n [|m ns]] eqn:E; [done|done|]. cbn [result_lexemes].
  change (LWord ":>" :: LWord "(" :: ?l) with ([LWord ":>"; LWord "("] ++ l).
  apply (spaced_app " :> ( "); [by intros s|]. apply spaced_app; [by apply spaced_words|by intros s].
Qed.

Lemma call_code_ok n which ins :
  word_ok (n +:+ which) = true → forallb word_ok ins = true → forallb code_ok (call_code n which ins) = true.
Proof.
  intros Hw Hi. unfold call_code. destruct (is_nil ins); [done|]. rewrite forallb_app, words_code by done.
  cbn. by rewrite Hw.
Qed.

(** The wrapper's text is read as its code. *)
Lemma wrapper_reads n i o :
  token_ok n = true →
  read_code (wrapper_body n (numbers "a" i) (numbers "r" o)) =
  Some (wrapper_code n (numbers "a" i) (numbers "r" o)).
Proof.
  intros Hn. set (ins := numbers "a" i). set (outs := numbers "r" o).
  pose proof (numbers_plain i "a" (or_introl eq_refl)) as Hi.
  pose proof (numbers_plain o "r" (or_intror eq_refl)) as Ho. fold ins in Hi. fold outs in Ho.
  unfold plain_names in Hi, Ho. rewrite !andb_true_iff in Hi, Ho.
  destruct Hi as (((Hit & Hiw) & _) & _), Ho as (((Hot & How) & Hoc) & Hoo).
  destruct (shadow_ok n ":before" Hn ltac:(by_list)) as [Hb Hbw], (shadow_ok n ":primary" Hn ltac:(by_list)) as [Hp Hpw],
    (shadow_ok n ":after" Hn ltac:(by_list)) as [Ha Haw].
  assert (spaced (wrapper_body n ins outs)
            (flats (head_code n ins) ++ result_lexemes outs ++ flats (tail_code n ins outs))) as Hs.
  { unfold wrapper_body, head_code, tail_code. rewrite !flats_app, !words_lexemes, <- !app_assoc.
    change ":before " with (":before" +:+ " "). change ":after " with (":after" +:+ " ").
    apply spaced_app; [by apply spaced_call|].
    apply spaced_app; [unfold if_some; by destruct ins; [apply spaced_nil|apply spaced_words]|].
    rewrite <- str_app_assoc. apply (reads_spaced_app _ [LWord (n +:+ ":primary")]);
      [by apply reads_word|intros s; unfold outs; by destruct o as [|[|o]]|].
    apply spaced_app; [apply spaced_outs|]. apply spaced_app; [by apply spaced_call|by apply spaced_words]. }
  assert (scan (wrapper_body n ins outs) =
            flats (head_code n ins) ++ result_lexemes outs ++ flats (tail_code n ins outs)) as Hscan.
  { specialize (Hs ""). rewrite str_app_nil_r in Hs. rewrite Hs. apply app_nil_r. }
  assert (∀ q, forallb code_ok q = true → ∀ cur ls,
            read_in Code [] cur (flats q ++ ls) = read_in Code [] (rev q ++ cur) ls) as Hread.
  { intros q Hq cur ls. apply read_flats; [|done]. apply Forall_forall. intros c _. apply read_flat. }
  unfold read_code. rewrite Hscan, Hread, read_results by
    (done || (unfold head_code; rewrite !forallb_app, call_code_ok, words_code by done; cbn; by rewrite Hpw)).
  rewrite <- (app_nil_r (flats (tail_code n ins outs))), Hread by
    (unfold tail_code; by rewrite forallb_app, call_code_ok, words_code).
  cbn. f_equal. unfold wrapper_code. rewrite !rev_app_distr, !rev_involutive. by rewrite <- app_assoc.
Qed.

(** ** What the wrapper does *)

Lemma elem_rev {A} (x : A) l : x ∈ rev l ↔ x ∈ l.
Proof. rewrite !list_elem_of_In. symmetry. apply in_rev. Qed.
Lemma numbers_nodup p k : NoDup (numbers p k).
Proof.
  unfold numbers. apply NoDup_fmap_2; [|apply NoDup_seq]. intros i j E.
  apply (inj (String.append p)) in E. apply (inj pretty) in E. by apply Nat2N.inj.
Qed.
Lemma numbers_elem p k x : x ∈ numbers p k → ∃ i : nat, x = p +:+ pretty (N.of_nat i).
Proof. unfold numbers. intros (i & -> & _)%list_elem_of_fmap. eauto. Qed.
Lemma shadow_not_local n which p k :
  (p = "a" ∨ p = "r") → which ∈ [":before"; ":primary"; ":after"] → n +:+ which ∉ numbers p k.
Proof.
  intros Hp Hw (i & E)%numbers_elem. destruct (pretty_N_num (N.of_nat i)) as (Hd & _).
  assert (str_all (λ b, negb (b =? ":")%char) (n +:+ which) = true) as Ho.
  { rewrite E, str_all_app. apply andb_true_iff. split; [by destruct Hp as [-> | ->]|].
    eapply str_all_impl; [|exact Hd]. intros b Hb.
    destruct (Stdlib.Strings.Ascii.eqb_spec b ":"%char) as [->|]; [done|done]. }
  rewrite str_all_app in Ho. apply andb_true_iff in Ho as [_ Ho].
  repeat (apply elem_of_cons in Hw as [->|Hw]; [done|]). by apply elem_of_nil in Hw.
Qed.

Section Combination.
Context `{FactorVM}.

(** A shadow is asked where there are inputs to choose its method by. *)
Definition aux_call (w : string) (args : list fV) (s s' : fstate) : Prop :=
  match args with [] => s' = s | _ => fstep w (push_args args s) s' end.

(** The before methods, the primary method and the after methods, each with
    the inputs; the results of the primary method are the results. *)
Definition combination (n : string) (n_out : nat) (args : list fV) (s s' : fstate) : Prop :=
  ∃ results s1 s2 s3, length results = n_out ∧
    aux_call (n +:+ ":before") args s s1 ∧
    fstep (n +:+ ":primary") (push_args args s1) (push_args results s2) ∧
    aux_call (n +:+ ":after") args s2 s3 ∧ s' = push_args results s3.

Lemma run_call_code (ρ : env) n which ins args q s s' :
  bound_to ρ ins args → ρ !! (n +:+ which) = None →
  frun ρ (call_code n which ins ++ q) s s' ↔ ∃ s1, aux_call (n +:+ which) args s s1 ∧ frun ρ q s1 s'.
Proof.
  intros Hb Hw. unfold call_code. destruct Hb as [|i v ins args Hv Hb].
  - cbn. split; [eauto|]. by intros (s1 & -> & Hr).
  - cbn [is_nil]. rewrite <- app_assoc, run_words by (by constructor). by apply run_call.
Qed.

Lemma bound_all (ρ : env) ns vs : NoDup ns → length vs = length ns → bound_to (bind_all ns vs ρ) ns vs.
Proof.
  intros Hnd Hl. apply Forall2_same_length_lookup. split; [done|]. intros i n v. by apply bind_all_nth.
Qed.
Lemma bound_rev (ρ : env) ns vs : bound_to ρ (rev ns) (rev vs) → bound_to ρ ns vs.
Proof.
  intros Hb%Forall2_reverse. unfold reverse in Hb. by rewrite <- !rev_alt, !rev_involutive in Hb.
Qed.
Lemma bound_more (ρ : env) ns vs ms ws :
  bound_to ρ ns vs → (∀ n, n ∈ ns → n ∉ ms) → bound_to (bind_all ms ws ρ) ns vs.
Proof.
  intros Hb Hd. induction Hb as [|n v ns vs Hv _ IH]; constructor.
  - rewrite bind_all_lookup; [done|]. apply Hd. by left.
  - apply IH. intros m Hm. apply Hd. by right.
Qed.

Lemma run_done (ρ : env) (s s' : fstate) : frun ρ [] s s' ↔ s' = s.
Proof. split; [by inversion 1|intros ->; constructor]. Qed.

(** What a generic is to a caller: its wrapper's code is the combination. *)
Lemma wrapper_combines n i o args s s' :
  length args = i →
  frun (bind_all (numbers "a" i) args ∅) (wrapper_code n (numbers "a" i) (numbers "r" o)) s s' ↔
  combination n o args s s'.
Proof.
  intros Hl. set (ins := numbers "a" i). set (outs := numbers "r" o).
  assert (length ins = i) as Hi by (unfold ins, numbers; by rewrite length_fmap, length_seq).
  assert (length outs = o) as Ho by (unfold outs, numbers; by rewrite length_fmap, length_seq).
  assert (∀ which, which ∈ [":before"; ":primary"; ":after"] → n +:+ which ∉ ins ∧ n +:+ which ∉ rev outs) as Hn.
  { intros which Hw. rewrite elem_rev. split; apply shadow_not_local; auto. }
  assert (∀ x, x ∈ ins → x ∉ rev outs) as Hdis.
  { intros x (j & ->)%numbers_elem (k & E)%elem_rev%numbers_elem. done. }
  set (ρ := bind_all ins args ∅).
  assert (bound_to ρ ins args) as Hins by (apply bound_all; [apply numbers_nodup|congruence]).
  assert (∀ which, which ∈ [":before"; ":primary"; ":after"] → ρ !! (n +:+ which) = None) as Hfree.
  { intros which Hw. unfold ρ. by rewrite bind_all_lookup, lookup_empty by by apply Hn. }
  assert (∀ vs, length vs = length (rev outs) → let ρ1 := bind_all (rev outs) vs ρ in
    bound_to ρ1 ins args ∧ bound_to ρ1 outs (rev vs) ∧ ρ1 !! (n +:+ ":after") = None) as Hlocals.
  { intros vs Hv ρ1. split; [by apply bound_more|]. split.
    - apply bound_rev. rewrite rev_involutive. apply bound_all; [|done].
      apply NoDup_ListNoDup, NoDup_rev, NoDup_ListNoDup, numbers_nodup.
    - unfold ρ1. rewrite bind_all_lookup by (apply Hn; by_list). apply Hfree. by_list. }
  unfold wrapper_code, head_code, tail_code, combination. rewrite <- !app_assoc.
  rewrite (run_call_code ρ n ":before" ins args) by (done || (apply Hfree; by_list)).
  split.
  - intros (s1 & Hbef & Hr). rewrite (run_words ρ ins args), run_call in Hr by (done || (apply Hfree; by_list)).
    destruct Hr as (s2 & Hp & Hr). apply run_binds in Hr as (vs & st & fs & rs & Hv & -> & Hr).
    destruct (Hlocals vs Hv) as (Hi1 & Ho1 & Ha1).
    rewrite (run_call_code _ n ":after" ins args) in Hr by done. destruct Hr as (s3 & Haft & Hr).
    rewrite <- (app_nil_r (words outs)), (run_words _ outs (rev vs)), run_done in Hr by done. subst s'.
    exists (rev vs), s1, (st, fs, rs), s3. rewrite length_rev, Hv, length_rev. cbn. rewrite rev_involutive. auto.
  - intros (results & s1 & [[st fs] rs] & s3 & Hres & Hbef & Hp & Haft & ->). exists s1. split; [done|].
    rewrite (run_words ρ ins args), run_call by (done || (apply Hfree; by_list)). eexists. split; [exact Hp|].
    assert (length (rev results) = length (rev outs)) as Hv by (rewrite !length_rev; congruence).
    destruct (Hlocals _ Hv) as (Hi1 & Ho1 & Ha1). rewrite rev_involutive in Ho1.
    apply run_binds. exists (rev results), st, fs, rs. split; [done|]. split; [done|].
    rewrite (run_call_code _ n ":after" ins args) by done. exists s3. split; [done|].
    by rewrite <- (app_nil_r (words outs)), (run_words _ outs results), run_done.
Qed.
End Combination.

(** C30: a generic with before and after methods is called as one.  The wrapper
    emitted for it takes its inputs and, for any behaviour of the three words,
    runs exactly as the before methods, the primary method and the after
    methods in this order, each given the inputs, and leaves the results of the
    primary method; without inputs the primary method alone is called. *)
Theorem generic_combines `{FactorVM} (aux : gset string) (g : GenericDef) (n : string) (ins outs : list string)
    (Haux : lowercase (g_name g) ∈ aux)
    (Hn : n = factor_user_name (lowercase (g_name g))) (Htoken : token_ok n = true)
    (Hins : ins = numbers "a" (length (se_inputs (g_effect g))))
    (Houts : outs = numbers "r" (length (se_outputs (g_effect g)))) :
  ∃ declarations code,
    emit_generic aux g =
      declarations +:+ ":: " +:+ n +:+ " ( " +:+ words_text ins +:+ "-- " +:+ words_text outs +:+ ") " +:+
      wrapper_body n ins outs +:+ ";" +:+ nl ∧
    read_code (wrapper_body n ins outs) = Some code ∧
    ∀ args s s', length args = length ins →
      frun (bind_all ins args ∅) code s s' ↔ combination n (length outs) args s s'.
Proof.
  unfold emit_generic. rewrite decide_True, <- Hn by done. unfold aux_generic. rewrite <- Hins, <- Houts.
  exists (aux_declarations n g), (wrapper_code n ins outs). split; [|split].
  - done.
  - subst ins outs. by apply wrapper_reads.
  - subst ins outs. intros args s s' Hl. unfold numbers at 4. rewrite length_fmap, length_seq.
    apply wrapper_combines. unfold numbers in Hl. by rewrite length_fmap, length_seq in Hl.
Qed.

Definition add_generic : GenericDef :=
  mkGeneric "add" sp0 (mkStackEffect ["a"; "b"] ["c"] sp0) sp0.
Lemma generic_combines_witness :
  ∃ declarations code,
    emit_generic {["add"]} add_generic =
      declarations +:+ ":: z-add ( a0 a1 -- r0 ) a0 a1 z-add:before a0 a1 z-add:primary :> r0 " +:+
      "a0 a1 z-add:after r0 ;" +:+ nl ∧
    read_code "a0 a1 z-add:before a0 a1 z-add:primary :> r0 a0 a1 z-add:after r0 " = Some code ∧
    @frun SampleVM (@bind_all SampleVM ["a0"; "a1"] [VInt 1; VInt 2] ∅) code ([], [], mkRest ∅ [])
      ([VInt 3], [], mkRest ∅ [VStr "z-add:before"; VInt 1; VInt 2; VStr "z-add:after"; VInt 1; VInt 2]).
Proof.
  destruct (@generic_combines SampleVM {["add"]} add_generic "z-add" ["a0"; "a1"] ["r0"])
    as (declarations & code & Htext & Hread & Hrun);
    [apply elem_of_singleton; reflexivity|reflexivity|vm_compute; reflexivity..|].
  exists declarations, code. split; [exact Htext|]. split; [exact Hread|].
  apply (Hrun [VInt 1; VInt 2]); [reflexivity|].
  exists [VInt 3], ([], [], mkRest ∅ [VStr "z-add:before"; VInt 1; VInt 2]), 
    ([], [], mkRest ∅ [VStr "z-add:before"; VInt 1; VInt 2]),
    ([], [], mkRest ∅ [VStr "z-add:before"; VInt 1; VInt 2; VStr "z-add:after"; VInt 1; VInt 2]).
  split; [reflexivity|]. split; [|split; [|split; [|reflexivity]]].
  - apply s_plain, (@p_word SampleVM "z-add:before" [VInt 2; VInt 1]). vm_compute. reflexivity.
  - apply s_plain, (@p_fun SampleVM "z-add:primary" [VInt 1; VInt 2]). vm_compute. reflexivity.
  - apply s_plain, (@p_word SampleVM "z-add:after" [VInt 2; VInt 1]). vm_compute. reflexivity.
Defined.

(** ** The classes of a method

    The class an input of a stack comment is declared with. *)
Definition input_class (raw : string) : string :=
  match split_once ":" raw with
  | Some (pname, cls) =>
      if Lex.nonempty pname && Lex.nonempty cls && negb (bool_decide (lowercase cls = "object"))
      then factor_user_name (lowercase cls) else "object"
  | None => "object"
  end.

(** The class of the first specialiser at a position. *)
Definition class_at (specs : list MethodSpecializer) (p : Z) : string :=
  match list_find (λ s, ms_position s = p) specs with
  | Some (_, s) =>
      let raw := lowercase (ms_class s) in
      if bool_decide (raw = "object") then "object" else factor_user_name raw
  | None => "object"
  end.

Lemma split_clean i sp inputs : length (snd (split_specializers i sp inputs)) = length inputs.
Proof.
  revert i. induction inputs as [|raw rest IH]; intros i; [done|]. cbn [split_specializers].
  specialize (IH (i + 1)). destruct (split_specializers (i + 1) sp rest) as [specs clean]. cbn in IH.
  repeat case_match; cbn; by rewrite IH.
Qed.
Lemma split_positions i sp inputs s :
  0 ≤ i → i + Z.of_nat (length inputs) ≤ 2 ^ 32 →
  s ∈ fst (split_specializers i sp inputs) → i ≤ ms_position s.
Proof.
  revert i. induction inputs as [|raw rest IH]; intros i Hi Hl; [by intros ?%elem_of_nil|].
  cbn [split_specializers length] in *. specialize (IH (i + 1)).
  destruct (split_specializers (i + 1) sp rest) as [specs clean]. cbn [fst] in IH.
  assert (s ∈ specs → i ≤ ms_position s) as Hs by (intros Hs; specialize (IH ltac:(lia) ltac:(lia) Hs); lia).
  repeat case_match; cbn [fst]; [|done..]. intros [->|?]%elem_of_cons; [|by auto].
  cbn. unfold u32_wrap. rewrite Z.mod_small; lia.
Qed.
Lemma class_at_none specs p : (∀ s, s ∈ specs → ms_position s ≠ p) → class_at specs p = "object".
Proof.
  intros Hs. unfold class_at. replace (list_find _ _) with (@None (nat * MethodSpecializer)); [done|].
  symmetry. apply list_find_None, Forall_forall. auto.
Qed.
Lemma class_at_cons s specs p :
  class_at (s :: specs) p = if decide (ms_position s = p) then class_at [s] p else class_at specs p.
Proof.
  unfold class_at. cbn [list_find]. destruct (decide (ms_position s = p)); [done|].
  by destruct (list_find _ specs) as [[k s']|].
Qed.

Lemma split_class sp inputs i pos raw :
  0 ≤ i → i + Z.of_nat (length inputs) ≤ 2 ^ 32 → inputs !! pos = Some raw →
  class_at (fst (split_specializers i sp inputs)) (i + Z.of_nat pos) = input_class raw.
Proof.
  revert i pos. induction inputs as [|r rest IH]; intros i pos Hi Hl Hpos; [done|].
  cbn [split_specializers length] in *.
  pose proof (split_positions (i + 1) sp rest) as Hlater. specialize (IH (i + 1)).
  destruct (split_specializers (i + 1) sp rest) as [specs clean]. cbn [fst] in Hlater, IH.
  destruct pos as [|pos]; cbn in Hpos.
  - injection Hpos as ->. rewrite Z.add_0_r.
    assert (class_at specs i = "object") as Hnone.
    { apply class_at_none. intros s Hs. specialize (Hlater s ltac:(lia) ltac:(lia) Hs). lia. }
    unfold input_class. destruct (split_once ":" raw) as [[pname cls]|]; [|done].
    destruct (Lex.nonempty pname && Lex.nonempty cls); [|done]. cbn [fst andb]. rewrite class_at_cons.
    unfold u32_wrap. cbn [ms_position]. rewrite Z.mod_small, decide_True by lia.
    unfold class_at. cbn [list_find ms_position]. rewrite decide_True by done. cbn.
    by destruct (bool_decide _).
  - replace (i + Z.of_nat (S pos)) with (i + 1 + Z.of_nat pos) by lia.
    rewrite <- (IH pos) by (lia || done). destruct (split_once ":" r) as [[pname cls]|]; [|done].
    destruct (Lex.nonempty pname && Lex.nonempty cls); [|done]. cbn [fst]. rewrite class_at_cons.
    cbn [ms_position]. unfold u32_wrap. rewrite Z.mod_small, decide_False by lia. done.
Qed.

Lemma specializer_class_at m pos : specializer_class m pos = class_at (m_specializers m) (Z.of_nat pos).
Proof. done. Qed.
Lemma text_with_words {A} (g : A → string) l : text_with (λ x, g x +:+ " ") l = words_text (g <$> l).
Proof. induction l as [|x l IH]; [done|]. cbn. by f_equal. Qed.

Lemma method_reads fuel kw_span kw kind toks m rest :
  method_definition fuel kw_span kw kind toks = Done (m, rest) →
  ∃ t1 t2 toks' body raw, toks = t1 :: t2 :: toks' ∧ t_kind t2 = TBlockComment body ∧
    parse_stack_effect body (t_span t2) = Some raw ∧
    m_specializers m = fst (split_specializers 0 (t_span t2) (se_inputs raw)) ∧
    length (se_inputs (m_effect m)) = length (se_inputs raw).
Proof.
  unfold method_definition. intros Hm. destruct toks as [|t1 [|t2 toks']]; [done|..].
  - cbn in Hm. by destruct (t_kind t1).
  - cbn [expect_name] in Hm. destruct (t_kind t1) eqn:E1; try done. cbn [mbind outcome_bind required_effect] in Hm.
    destruct (t_kind t2) eqn:E2; try done. destruct (parse_stack_effect _ _) as [raw|] eqn:Er; [|done].
    exists t1, t2, toks', body, raw. pose proof (split_clean 0 (t_span t2) (se_inputs raw)) as Hl.
    cbn in Hm. destruct (split_specializers _ _ _) as [specs clean]. cbn [fst snd] in *.
    destruct (Parse.head_locals _ _) as [[ls r2]| |]; try done. cbn in Hm.
    destruct (Parse.def_body _ _ _ _ _) as [[[b es] r3]| |]; try done. by injection Hm as <- <-.
Qed.

(** A method is registered for the classes of all its inputs.  The class
    list written for a method as it was read has one class per input of its
    stack comment, deepest first: that of a [name:class] input, and [object]
    for the others, so a class never slips to another argument. *)
Theorem method_classes (fuel : nat) (kw_span : Span) (kw : string) (kind : MethodKind) (toks rest : list Token)
    (m : MethodDef)
    (Hparse : method_definition fuel kw_span kw kind toks = Done (m, rest)) :
  ∃ t1 t2 toks' body raw,
    toks = t1 :: t2 :: toks' ∧ t_kind t2 = TBlockComment body ∧ parse_stack_effect body (t_span t2) = Some raw ∧
    let classes := input_class <$> se_inputs raw in
    (se_inputs raw ≠ [] → Z.of_nat (length (se_inputs raw)) ≤ 2 ^ 32 → forallb token_ok classes = true →
     scan (emit_specializer_list m) = LWord "{" :: (LWord <$> classes) ++ [LWord "}"]).
Proof.
  apply method_reads in Hparse as (t1 & t2 & toks' & body & raw & -> & Hb & Hraw & Hspecs & Hlen).
  exists t1, t2, toks', body, raw. split; [done|]. split; [done|]. split; [done|].
  intros classes Hne H32 Hok. unfold emit_specializer_list. rewrite Hlen.
  assert (specializer_class m <$> seq 0 (length (se_inputs raw)) = classes) as Hc.
  { apply list_eq. intros pos. unfold classes. rewrite !list_lookup_fmap.
    destruct (se_inputs raw !! pos) as [x|] eqn:Ex.
    - rewrite lookup_seq_lt by by eapply lookup_lt_Some. cbn. f_equal.
      rewrite specializer_class_at, Hspecs. by apply (split_class (t_span t2) (se_inputs raw) 0 pos x).
    - by rewrite lookup_seq_ge by by apply lookup_ge_None. }
  destruct (length (se_inputs raw)) as [|k] eqn:Ek; [by destruct (se_inputs raw)|].
  rewrite text_with_words, Hc. apply reads_scan. change (LWord "{" :: ?l) with ([LWord "{"] ++ l).
  apply (spaced_reads "{ "); [by intros s|]. apply spaced_reads; [by apply spaced_words|token].
Qed.

Definition method_tokens : list Token := Eval vm_compute in
  match lex "foo ( a:Cat b c:object -- ) drop drop drop ;" with Done toks => toks | _ => [] end.
Definition method_sample : option MethodDef := Eval vm_compute in
  match method_definition 50 sp0 "METHOD:" Primary method_tokens with Done (m, _) => Some m | _ => None end.
Lemma method_classes_witness :
  ∃ m rest, method_definition 50 sp0 "METHOD:" Primary method_tokens = Done (m, rest) ∧
    method_sample = Some m ∧ scan (emit_specializer_list m) = LWord <$> ["{"; "z-cat"; "object"; "object"; "}"].
Proof.
  destruct (method_definition 50 sp0 "METHOD:" Primary method_tokens) as [[m rest]| |] eqn:E; 
    [|vm_compute in E; discriminate E..].
  exists m, rest. split; [reflexivity|].
  destruct (method_classes 50 sp0 "METHOD:" Primary method_tokens rest m E) as (t1 & t2 & toks' & body & raw & Ht & Hb & Hr & Hc).
  vm_compute in Ht. injection Ht as <- <- _. vm_compute in Hb. injection Hb as <-. vm_compute in Hr. injection Hr as <-.
  split; [vm_compute in E; injection E as <- _; reflexivity|].
  apply Hc; [discriminate|vm_compute; discriminate|vm_compute; reflexivity].
Defined.
