(* ===== verification/DriverFacts.v ===== *)
(** * The compile driver: [NEEDS] ends and includes once, sessions remember *)
From stdpp Require Import strings gmap.
From S2P Require Import Prelude Bytes F64 Lex LexFacts LetLang Ast Classes Parse ParseFacts Resolve ResolveFacts Effect.
From S2P Require Import LetCode Sema Pipeline Emit Driver FactorFacts EmitCode.
From S2P Require LowerQdup.

(** ** Stages *)

Lemma parse_text_safe source : parse_text source ≠ OutOfFuel ∧ parse_text source ≠ Fail DPanic.
Proof.
  unfold parse_text. pose proof (lex_covers source) as Hl. destruct (lex source) as [toks|e|]; cbn [stage mbind outcome_bind]; [|done..].
  pose proof (parse_within toks) as Hp. by destruct (parse toks) as [p|[e|]|].
Qed.

Section Needs.
Context `{FileSystem}.

Lemma expand_items_grows expand base items : 
  (∀ items base st, ns_included st ⊆ ns_included (snd (expand items base st))) →
  ∀ out st, ns_included st ⊆ ns_included (snd (expand_items expand base items out st)).
Proof.
  intros He. induction items as [|i items IH]; intros out st; [done|].
  destruct i; try apply IH. cbn [expand_items]. destruct (decide _) as [|Hk]; [apply IH|].
  destruct (read_to_string _) as [contents|e]; [|cbn; set_solver].
  destruct (parse_text contents) as [sub|e|]; cbn [mbind]; try (cbn; set_solver).
  match goal with |- context [expand ?a ?b ?c] => pose proof (He a b c) as Hs; destruct (expand a b c) as [[items'|e|] st2] end;
    cbn [snd ns_included] in *; [pose proof (IH (out ++ items') st2)|..]; set_solver.
Qed.
Lemma expand_grows fuel items base st : ns_included st ⊆ ns_included (snd (expand_needs fuel items base st)).
Proof.
  revert items base st. induction fuel as [|fuel IH]; intros items base st; [done|].
  apply (expand_items_grows (expand_needs fuel)). done.
Qed.

(** The files that are still to be read. *)
Definition unread (files : list string) (included : gset string) : nat :=
  length (filter (λ k, k ∉ included) files).

Lemma unread_mono files a b : a ⊆ b → (unread files b ≤ unread files a)%nat.
Proof.
  intros Hab. unfold unread. induction files as [|k files IH]; [done|]. rewrite !filter_cons.
  destruct (decide (k ∉ b)), (decide (k ∉ a)); cbn; try lia. set_solver.
Qed.
Lemma unread_insert files a k : k ∈ files → k ∉ a → (unread files ({[k]} ∪ a) < unread files a)%nat.
Proof.
  intros Hin Hk. unfold unread. induction files as [|k' files IH]; [by apply elem_of_nil in Hin|].
  pose proof (unread_mono files a ({[k]} ∪ a) ltac:(set_solver)) as Hm. unfold unread in Hm.
  rewrite !filter_cons. apply elem_of_cons in Hin as [->|Hin].
  - rewrite decide_False by set_solver. rewrite decide_True by done. cbn. lia.
  - destruct (decide (k' ∉ {[k]} ∪ a)), (decide (k' ∉ a)); cbn; try (specialize (IH Hin); lia). set_solver.
Qed.

(** C29: expanding [NEEDS] ends.  Where the readable files are finitely many,
    fuel for one more round than there are files not yet included is enough,
    however the files name each other: the answer is a list of items or an
    error, and no stage on the way panics. *)
Theorem needs_terminates (files : list string)
    (Hfiles : ∀ p contents, read_to_string p = Ok contents → path_key p ∈ files)
    (fuel : nat) (items : list Item) (base : option path) (st : NeedsState)
    (Hfuel : (unread files (ns_included st) < fuel)%nat) :
  fst (expand_needs fuel items base st) ≠ OutOfFuel ∧ fst (expand_needs fuel items base st) ≠ Fail DPanic.
Proof.
  revert items base st Hfuel. induction fuel as [|fuel IH]; intros items base st Hfuel; [lia|].
  cbn [expand_needs]. assert (∀ out st, (unread files (ns_included st) < S fuel)%nat →
    fst (expand_items (expand_needs fuel) base items out st) ≠ OutOfFuel ∧
    fst (expand_items (expand_needs fuel) base items out st) ≠ Fail DPanic) as Hgo; [|by apply Hgo].
  clear st Hfuel. induction items as [|i items IHi]; intros out st Hfuel; [done|].
  destruct i; try (by apply IHi). cbn [expand_items]. destruct (decide _) as [|Hk]; [by apply IHi|].
  destruct (read_to_string _) as [contents|e] eqn:Eread; [|done].
  pose proof (unread_insert files _ _ (Hfiles _ _ Eread) Hk) as Hless.
  pose proof (parse_text_safe contents) as [Hp1 Hp2].
  destruct (parse_text contents) as [sub|e|]; [|by split; [|intros [= ->]]|done].
  match goal with |- context [expand_needs fuel ?a ?b ?c] =>
    pose proof (IH a b c ltac:(cbn; lia)) as [H1 H2]; pose proof (expand_grows fuel a b c) as Hg;
    destruct (expand_needs fuel a b c) as [[items'|e|] st2] end; cbn [fst snd ns_included] in *; try done.
  apply IHi. pose proof (unread_mono files _ _ Hg). lia.
Qed.

(** ** Once per session *)

Definition is_needs (i : Item) : bool := match i with INeeds _ _ => true | _ => false end.
(** The files the directives of [items] name are included. *)
Definition all_included (base : option path) (items : list Item) (included : gset string) : Prop :=
  ∀ p sp, INeeds p sp ∈ items → path_key (needs_path base p) ∈ included.

Lemma expand_items_other expand base i items out st :
  is_needs i = false → expand_items expand base (i :: items) out st = expand_items expand base items (out ++ [i]) st.
Proof. by destruct i. Qed.
Lemma is_needs_inv i : is_needs i = true → ∃ p sp, i = INeeds p sp.
Proof. destruct i; try done. intros _. by do 2 eexists. Qed.

Lemma expand_items_done expand base items : 
  (∀ items base st items' st', expand items base st = (Done items', st') →
     Forall (λ i, is_needs i = false) items' ∧ ns_included st ⊆ ns_included st') →
  ∀ out st items' st', expand_items expand base items out st = (Done items', st') →
  Forall (λ i, is_needs i = false) out →
  Forall (λ i, is_needs i = false) items' ∧ ns_included st ⊆ ns_included st' ∧
  all_included base items (ns_included st').
Proof.
  intros He. induction items as [|i items IH]; intros out st items' st' Hex Hout.
  { cbn in Hex. simplify_eq. split; [done|]. split; [done|]. by intros p sp ?%elem_of_nil. }
  destruct (is_needs i) eqn:Ei.
  2: { rewrite expand_items_other in Hex by done.
       destruct (IH _ _ _ _ Hex) as (H1 & H2 & H3); [by apply Forall_app; split; [|by repeat constructor]|].
       split; [done|]. split; [done|]. intros p sp [<-|Hin]%elem_of_cons; [done|by eapply H3]. }
  apply is_needs_inv in Ei as (p & sp & ->).
  cbn [expand_items] in Hex.
  assert (∀ out1 st1, Forall (λ i, is_needs i = false) out1 → ns_included st ⊆ ns_included st1 →
            path_key (needs_path base p) ∈ ns_included st1 →
            expand_items expand base items out1 st1 = (Done items', st') →
            Forall (λ i, is_needs i = false) items' ∧ ns_included st ⊆ ns_included st' ∧
            all_included base (INeeds p sp :: items) (ns_included st')) as Hgo.
  { intros out1 st1 Hout1 Hs Hk Hgo. destruct (IH _ _ _ _ Hgo Hout1) as (H1 & H2 & H3).
    split; [done|]. split; [by etransitivity|].
    intros p' sp' [[= -> ->]|Hin]%elem_of_cons; [by apply H2|by eapply H3]. }
  destruct (decide _) as [Hk|Hk]; [by eapply Hgo|].
  destruct (read_to_string _) as [contents|e]; [|done].
  destruct (parse_text contents) as [sub|e|]; [|done..].
  match type of Hex with context [expand ?a ?b ?c] => destruct (expand a b c) as [[sub'|e|] st2] eqn:Esub end; [|done..].
  destruct (He _ _ _ _ _ Esub) as [Hsub Hs]. cbn [ns_included] in Hs.
  apply (Hgo (out ++ sub') st2); [by apply Forall_app| | |done].
  - etransitivity; [apply union_subseteq_r|exact Hs].
  - apply Hs, elem_of_union_l. by apply elem_of_singleton.
Qed.
Lemma expand_done fuel items base st items' st' :
  expand_needs fuel items base st = (Done items', st') →
  Forall (λ i, is_needs i = false) items' ∧ ns_included st ⊆ ns_included st' ∧
  all_included base items (ns_included st').
Proof.
  revert items base st items' st'. induction fuel as [|fuel IH]; intros items base st items' st' Hex; [done|].
  eapply (expand_items_done (expand_needs fuel)); [|exact Hex|constructor].
  intros items1 base1 st1 items1' st1' Hex1. destruct (IH _ _ _ _ _ Hex1) as (? & ? & _). done.
Qed.
Lemma expand_included expand base items out st :
  all_included base items (ns_included st) →
  expand_items expand base items out st = (Done (out ++ filter (λ i, is_needs i = false) items), st).
Proof.
  revert out. induction items as [|i items IH]; intros out Hall; [by rewrite app_nil_r|].
  assert (all_included base items (ns_included st)) as Hrest.
  { intros p sp Hin. eapply Hall. by apply elem_of_cons; right. }
  destruct (is_needs i) eqn:Ei.
  2: { rewrite expand_items_other, filter_cons, IH by done. by rewrite decide_True, <- app_assoc. }
  apply is_needs_inv in Ei as (p & sp & ->).
  cbn [expand_items]. rewrite decide_True by (eapply Hall; by apply elem_of_cons; left).
  rewrite filter_cons, IH by done. done.
Qed.

(** A file is included once in a session.  After an expansion that
    succeeded no directive is left, the included set has grown by every file
    named, and expanding the same directives again, in this or any later
    compile of the session, adds nothing and leaves the state as it is. *)
Theorem needs_once (fuel fuel' : nat) (items items' : list Item) (base : option path) (st st' later : NeedsState)
    (Hdone : expand_needs fuel items base st = (Done items', st'))
    (Hlater : ns_included st' ⊆ ns_included later) :
  Forall (λ i, is_needs i = false) items' ∧ ns_included st ⊆ ns_included st' ∧
  all_included base items (ns_included st') ∧
  expand_needs (S fuel') items base later = (Done (filter (λ i, is_needs i = false) items), later).
Proof.
  destruct (expand_done _ _ _ _ _ _ Hdone) as (Hno & Hs & Hall). split; [done|]. split; [done|]. split; [done|].
  apply (expand_included _ _ _ []). intros p sp Hin. apply Hlater. by eapply Hall.
Qed.
End Needs.

(** ** A file system of texts in one directory *)

Definition TextFiles (files : gmap string string) : FileSystem := {|
  path := string; path_of := id; path_join := λ _ p, p; path_parent := λ _, Some ""; path_display := id;
  path_key := id;
  read_to_string := λ p, match files !! p with Some t => Ok t | None => Err "not found" end |}.

Definition ring : gmap string string :=
  {[ "a.f" := "NEEDS b.f : a 1 ;"; "b.f" := "NEEDS a.f NEEDS c.f : b 2 ;"; "c.f" := ": c 3 ;" ]}.
Definition ring_items : list Item := [INeeds "a.f" sp0; INeeds "b.f" sp0].
Definition no_docs : NeedsState := mkNeeds ∅ ∅.
Definition def_names (items : list Item) : list string :=
  omap (λ i, match i with IDefinition d => Some (d_name d) | _ => None end) items.

(** Three files that name each other: the fuel for four rounds is enough, and
    each is included once, in the order the directives ask for. *)
Lemma needs_terminates_witness :
  fst (@expand_needs (TextFiles ring) 4 ring_items None no_docs) ≠ OutOfFuel ∧
  match fst (@expand_needs (TextFiles ring) 4 ring_items None no_docs) with
  | Done items => def_names items = ["c"; "b"; "a"] | _ => False
  end.
Proof.
  split; [|vm_compute; reflexivity].
  apply (@needs_terminates (TextFiles ring) ["a.f"; "b.f"; "c.f"]); [|vm_compute; lia].
  intros p contents Hp. change string in p. cbn in Hp. destruct (ring !! p) as [t|] eqn:E; [|discriminate Hp]. clear Hp. unfold ring in E.
  repeat (apply lookup_insert_Some in E as [[<- _]|[_ E]]; [by_list|]).
  apply lookup_singleton_Some in E as [<- _]. by_list.
Defined.

Definition ring_after : NeedsState := snd (@expand_needs (TextFiles ring) 4 ring_items None no_docs).
Definition ring_done : list Item :=
  match fst (@expand_needs (TextFiles ring) 4 ring_items None no_docs) with Done items => items | _ => [] end.
Lemma needs_once_witness :
  ns_included ring_after = {["a.f"; "b.f"; "c.f"]} ∧
  @expand_needs (TextFiles ring) 1 ring_items None ring_after = (Done [], ring_after).
Proof.
  split; [vm_compute; reflexivity|].
  apply (@needs_once (TextFiles ring) 4 0 ring_items ring_done None no_docs ring_after ring_after);
    [vm_compute; reflexivity|done].
Defined.

(** ** What a compile leaves behind *)

Section Sessions.
Context `{FileSystem}.

Lemma compile_steps fuel source ctx g out ctx' g' :
  compile_in_context_with_diagnostics fuel source ctx g = (Done out, ctx', g') →
  ∃ prog items st sema synth,
    parse_text source = Done prog ∧
    expand_needs fuel (p_items prog) None (mkNeeds (c_included ctx) (build_docs (p_items prog) source)) = (Done items, st) ∧
    build_with_prior_state (g_synth g) (mkProgram items) (c_user_words ctx) (c_user_effects ctx) (c_templates ctx)
      (c_values ctx) (c_classes ctx) = (Ok sema, synth) ∧
    let wide := widen sema (ns_docs st ∪ c_docs ctx) in
    out = (fst (emit wide true (g_fresh g)), s_effect_errors sema) ∧
    ctx' = merge_context (set_included ctx (ns_included st)) (ns_included st) wide.
Proof.
  unfold compile_in_context_with_diagnostics. destruct (parse_text source) as [prog|e|]; [|done..].
  destruct (expand_needs _ _ _ _) as [[items|e|] st] eqn:Ex; [|done..]. cbn [set_included c_user_words c_user_effects
    c_templates c_values c_classes].
  destruct (build_with_prior_state _ _ _ _ _ _ _) as [[sema|e] synth] eqn:Eb; [|done].
  destruct (emit _ _ _) as [ir fresh] eqn:Ee. intros [= <- <- <-].
  exists prog, items, st, sema, synth. split; [done|]. split; [done|]. split; [done|]. cbn zeta.
  cbn [set_included c_docs] in Ee. rewrite Ee. done.
Qed.

(** A compile that fails forgets nothing and learns nothing.  When any
    stage answers an error the context is the one before, but for the files
    the [NEEDS] expansion marked as included on the way, which are only more
    than before. *)
Theorem compile_failure_keeps (fuel : nat) (source : string) (ctx ctx' : CompileContext) (g g' : Globals)
    (e : dfail) (Hfail : compile_in_context_with_diagnostics fuel source ctx g = (Fail e, ctx', g')) :
  ctx' = set_included ctx (c_included ctx') ∧ c_included ctx ⊆ c_included ctx'.
Proof.
  unfold compile_in_context_with_diagnostics in Hfail.
  destruct (parse_text source) as [prog|e'|]; [|simplify_eq; by destruct ctx'|done].
  pose proof (expand_grows fuel (p_items prog) None (mkNeeds (c_included ctx) (build_docs (p_items prog) source))) as Hg.
  destruct (expand_needs _ _ _ _) as [[items|e'|] st]; [|simplify_eq; by split|done].
  destruct (build_with_prior_state _ _ _ _ _ _ _) as [[sema|e'] synth]; [|simplify_eq; by split].
  by destruct (emit _ _ _).
Qed.

(** No compile relies on a narrow variable.  The text of every successful
    compile is the emitter's for a semantic model whose variables all have the
    wide form, whatever the escape analysis found, which is the form later
    compiles of the session can refer to and the one the theorems about emitted
    bodies ask for. *)
Theorem compile_is_wide (fuel : nat) (source : string) (ctx ctx' : CompileContext) (g g' : Globals)
    (out : string * list EffectError)
    (Hok : compile_in_context_with_diagnostics fuel source ctx g = (Done out, ctx', g')) :
  ∃ sema, out = (fst (emit sema true (g_fresh g)), s_effect_errors sema) ∧ no_narrow sema.
Proof.
  destruct (compile_steps _ _ _ _ _ _ _ Hok) as (prog & items & st & sema & synth & _ & _ & _ & -> & _).
  exists (widen sema (ns_docs st ∪ c_docs ctx)). split; [reflexivity|]. intros n. unfold is_narrow, widen. cbn [s_escape]. rewrite lookup_fmap.
  by destruct (s_escape sema !! n).
Qed.

Lemma add_word_grows items m k : is_Some (m !! k) → is_Some (fold_with add_word items m !! k).
Proof.
  revert m. induction items as [|i items IH]; intros m Hm; [done|]. cbn [fold_with]. apply IH.
  unfold add_word. destruct (word_entry i); [|done]. by apply lookup_insert_is_Some'; right.
Qed.
Lemma add_word_elem items m i w :
  i ∈ items → word_entry i = Some w → is_Some (fold_with add_word items m !! lowercase (uw_name w)).
Proof.
  revert m. induction items as [|j items IH]; intros m Hi Hw; [by apply elem_of_nil in Hi|].
  apply elem_of_cons in Hi as [->|Hi]; cbn [fold_with]; [|by apply IH].
  apply add_word_grows. unfold add_word. rewrite Hw. rewrite lookup_insert_eq. by eexists.
Qed.
Lemma or_insert_grows {A} k (w : A) m k' : is_Some (m !! k') → is_Some (or_insert k w m !! k').
Proof. intros Hm. unfold or_insert. destruct (m !! k); [done|]. by apply lookup_insert_is_Some'; right. Qed.
Lemma class_words_grow cs items m k : is_Some (m !! k) → is_Some (fold_with (add_class_words cs) items m !! k).
Proof.
  revert m. induction items as [|i items IH]; intros m Hm; [done|]. cbn [fold_with]. apply IH.
  unfold add_class_words. destruct i; try done. unfold class_entry.
  assert (∀ ss m, is_Some (m !! k) → is_Some (fold_with (add_slot_words c) ss m !! k)) as Hs.
  { intros ss. induction ss as [|s ss IHs]; intros m' Hm'; [done|]. cbn [fold_with]. apply IHs.
    unfold add_slot_words, class_entry. by repeat apply or_insert_grows. }
  by apply Hs; repeat apply or_insert_grows.
Qed.
Lemma user_words_declared cs items i w :
  i ∈ items → word_entry i = Some w → is_Some (build_user_words cs items !! lowercase (uw_name w)).
Proof. intros Hi Hw. by apply class_words_grow, add_word_elem with i. Qed.

(** A session resolves the words of its earlier compiles.  A successful
    compile keeps every word, effect, template, value, class and included file
    the session knew, and adds every name its items introduce; and in whatever
    is compiled next, a reference to a known word that is no local there means
    that word, not a built-in one. *)
Theorem session_words (fuel : nat) (source : string) (ctx ctx' : CompileContext) (g g' : Globals)
    (out : string * list EffectError)
    (Hok : compile_in_context_with_diagnostics fuel source ctx g = (Done out, ctx', g')) :
  (∀ n, is_Some (c_user_words ctx !! n) → is_Some (c_user_words ctx' !! n)) ∧
  (∀ n, is_Some (c_user_effects ctx !! n) → is_Some (c_user_effects ctx' !! n)) ∧
  (∀ n, is_Some (c_templates ctx !! n) → is_Some (c_templates ctx' !! n)) ∧
  (∀ n, is_Some (c_values ctx !! n) → is_Some (c_values ctx' !! n)) ∧
  (∀ n, is_Some (c_classes ctx !! n) → is_Some (c_classes ctx' !! n)) ∧
  c_included ctx ⊆ c_included ctx' ∧
  (∃ sema, fst out = fst (emit sema true (g_fresh g)) ∧
     ∀ i w, i ∈ p_items (s_program sema) → word_entry i = Some w →
            is_Some (c_user_words ctx' !! lowercase (uw_name w))) ∧
  (∀ words locals name, is_Some (c_user_words ctx' !! lowercase name) → lowercase name ∉ locals →
     name_target builtin_table (shadow (c_user_words ctx') words) locals name =
       Some (UserDefined (factor_user_name (lowercase name)))).
Proof.
  destruct (compile_steps _ _ _ _ _ _ _ Hok) as (prog & items & st & sema & synth & _ & Hx & Hb & -> & ->).
  assert (∀ A (a b : gmap string A) n, is_Some (b !! n) → is_Some ((a ∪ b) !! n)) as Hr.
  { intros A a b n Hn. apply lookup_union_is_Some. by right. }
  cbn [merge_context set_included c_user_words c_user_effects c_templates c_values c_classes c_included].
  do 5 (split; [intros n; apply Hr|]).
  split; [by destruct (expand_done _ _ _ _ _ _ Hx) as (_ & Hs & _)|]. split.
  - exists (widen sema (ns_docs st ∪ c_docs ctx)). split; [reflexivity|]. intros i w Hi Hw.
    destruct (build_ok _ _ _ _ _ _ _ _ _ Hb) as (r & _ & _ & Ep & _ & _ & Eu & _).
    apply lookup_union_is_Some. left. cbn [widen s_user_words s_program] in *.
    rewrite lookup_fmap, Eu, fmap_is_Some. rewrite Ep in Hi. cbn [p_items] in Hi.
    by eapply user_words_declared.
  - intros words locals name Hn Hl. unfold name_target. rewrite decide_False by done.
    unfold shadow. assert (is_Some ((words ∪ ((uw_span <$> s_user_words (widen sema (ns_docs st ∪ c_docs ctx))) ∪
      c_user_words ctx)) !! lowercase name)) as [x ->]; [by apply Hr|done].
Qed.
End Sessions.

(** ** Examples *)

Definition no_files : FileSystem := TextFiles ∅.
Definition start_globals : Globals := mkGlobals LowerQdup.synth_start (mkFresh 0 0).
Definition first_compile : doutcome (string * list EffectError) * CompileContext * Globals :=
  @compile_in_context_with_diagnostics no_files 1 "variable v : dup 1 v +! ;" new_context start_globals.
Definition first_context : CompileContext := snd (fst first_compile).
Definition first_globals : Globals := snd first_compile.
Definition first_out : string * list EffectError :=
  match fst (fst first_compile) with Done out => out | _ => ("", []) end.

Lemma compile_is_wide_witness :
  ∃ sema, first_out = (fst (emit sema true (mkFresh 0 0)), s_effect_errors sema) ∧ no_narrow sema.
Proof.
  apply (@compile_is_wide no_files 1 "variable v : dup 1 v +! ;" new_context first_context start_globals first_globals).
  vm_compute. reflexivity.
Defined.

(** The session's own [dup] is meant from the next compile on. *)
Lemma session_words_witness :
  name_target builtin_table (shadow (c_user_words first_context) ∅) {["v"]} "DUP" =
    Some (UserDefined "z-dup").
Proof.
  destruct (@session_words no_files 1 "variable v : dup 1 v +! ;" new_context first_context start_globals
              first_globals first_out) as (_ & _ & _ & _ & _ & _ & _ & H); [vm_compute; reflexivity|].
  apply (H ∅ {["v"]} "DUP"); [vm_compute; by eexists|]. intros Hl. apply elem_of_singleton in Hl. discriminate Hl.
Defined.

Definition bad_compile : doutcome (string * list EffectError) * CompileContext * Globals :=
  @compile_in_context_with_diagnostics (TextFiles ring) 4 "NEEDS a.f : d nope ;" first_context first_globals.
Lemma compile_failure_keeps_witness :
  fst (fst bad_compile) = Fail (DErr "unknown word `nope` at line 1, column 15") ∧
  c_included (snd (fst bad_compile)) = {["a.f"; "b.f"; "c.f"]} ∧
  snd (fst bad_compile) = set_included first_context (c_included (snd (fst bad_compile))).
Proof.
  split; [vm_compute; reflexivity|]. split; [vm_compute; reflexivity|].
  apply (@compile_failure_keeps (TextFiles ring) 4 "NEEDS a.f : d nope ;" first_context (snd (fst bad_compile))
           first_globals (snd bad_compile) (DErr "unknown word `nope` at line 1, column 15")).
  vm_compute. reflexivity.
Defined.

(** A file whose [+] stands where the [-] of the text that needs it does. *)
Definition one_file : FileSystem := TextFiles {[ "a.f" := "          : add ( a b -- c ) + ;" ]}.

(** The targets of an included file can be those of the file that needs
    it.  The references of all files share one map keyed by position, so when
    a word of the including text stands at the very position of a word of the
    included one, the later entry wins: here [add], which sums in its own
    file, is compiled to a subtraction. *)
Theorem needs_positions_collide :
  match fst (fst (@compile_in_context_with_diagnostics one_file 2 "NEEDS a.f : sub ( a b -- c ) - ;"
                    new_context start_globals)) with
  | Done (ir, warnings) =>
      warnings = [] ∧
      ir = "USING: forth.runtime io kernel math math.constants math.functions math.libm math.order namespaces ;" +:+ nl +:+
           "IN: scratchpad" +:+ nl +:+
           ": z-add ( a b -- c ) - ;" +:+ nl +:+
           ": z-sub ( a b -- c ) - ;" +:+ nl +:+ "flush"
  | _ => False
  end.
Proof. vm_compute. split; reflexivity. Qed.
