(* ===== verification/Rope.v ===== *)
(** * The rope of the editor ([src/crates/igui/src/rope_buffer.rs])

    A text as a balanced tree of leaves of code points, with lengths and
    newline counts cached in the branches.  Offsets and counts are [usize] and
    never pass the length of a text in memory: they are natural numbers, with
    the subtractions that could go below zero checked.  [Fail tt] is a panic. *)
From stdpp Require Import strings.
From S2P Require Import Prelude Bytes.
#[local] Open Scope nat_scope.

(** A [usize] subtraction. *)
Definition checked_sub (a b : nat) : panics nat := if b <=? a then Done (a - b) else panic.

Definition LEAF_MAX : nat := 2048.
Definition NEWLINE : Z := 10.

(** ** Nodes *)

(** Code points, oldest first. *)
Notation text := (list Z).
Definition count_newlines (buf : text) : nat := length (filter (λ cp, cp = NEWLINE) buf).

Inductive Node :=
  | Leaf (buf : text) (newlines : nat)
  | Branch (left right : Node) (left_len total_len total_newlines : nat) (node_height : nat).

Definition leaf (buf : text) : Node := Leaf buf (count_newlines buf).
Definition empty_leaf : Node := leaf [].
Definition text_len (n : Node) : nat :=
  match n with Leaf buf _ => length buf | Branch _ _ _ len _ _ => len end.
Definition newline_count (n : Node) : nat :=
  match n with Leaf _ nl => nl | Branch _ _ _ _ nl _ => nl end.
Definition height (n : Node) : nat := match n with Leaf _ _ => 0 | Branch _ _ _ _ _ h => h end.
Definition branch (l r : Node) : Node :=
  Branch l r (text_len l) (text_len l + text_len r) (newline_count l + newline_count r)
    (1 + Nat.max (height l) (height r)).
Definition balance_factor (n : Node) : Z :=
  match n with Leaf _ _ => 0 | Branch l r _ _ _ _ => Z.of_nat (height l) - Z.of_nat (height r) end.

(** ** Building *)

Definition chunk_count (t : text) : nat := (length t + LEAF_MAX - 1) / LEAF_MAX.
(** [text[start..end]], with bounds that hold. *)
Definition sub_list (start end_ : nat) (t : text) : text := take (end_ - start) (drop start t).
Definition chunk (t : text) (i : nat) : Node :=
  let start := i * LEAF_MAX in leaf (sub_list start (Nat.min (start + LEAF_MAX) (length t)) t).

Fixpoint pair_up (nodes : list Node) : list Node :=
  match nodes with
  | l :: r :: rest => branch l r :: pair_up rest
  | _ => nodes
  end.
(** [while nodes.len() > 1], and the [expect] behind it. *)
Fixpoint merge_all (fuel : nat) (nodes : list Node) : panics Node :=
  match nodes with
  | [] => panic
  | [n] => Done n
  | _ => match fuel with O => OutOfFuel | S fuel' => merge_all fuel' (pair_up nodes) end
  end.
Definition build_rope_from_slice (t : text) : panics Node :=
  match t with
  | [] => Done empty_leaf
  | _ =>
      if chunk_count t =? 1 then Done (leaf t)
      else let nodes := chunk t <$> seq 0 (chunk_count t) in merge_all (length nodes) nodes
  end.

(** ** Lookup *)

Fixpoint char_at_node (n : Node) (pos : nat) : panics Z :=
  match n with
  | Leaf buf _ => match buf !! pos with Some cp => Done cp | None => panic end
  | Branch l r left_len _ _ _ =>
      if pos <? left_len then char_at_node l pos else char_at_node r (pos - left_len)
  end.

Fixpoint collect_range (n : Node) (start end_ : nat) : text :=
  if end_ <=? start then []
  else
    match n with
    | Leaf buf _ => sub_list (Nat.min start (length buf)) (Nat.min end_ (length buf)) buf
    | Branch l r left_len _ _ _ =>
        (if start <? left_len then collect_range l start (Nat.min end_ left_len) else []) ++
        (if left_len <? end_ then collect_range r (start - left_len) (end_ - left_len) else [])
    end.

(** ** Balancing *)

Definition take_children (n : Node) : panics (Node * Node) :=
  match n with Branch l r _ _ _ _ => Done (l, r) | Leaf _ _ => panic end.
Definition rotate_right (n : Node) : Node :=
  match n with
  | Branch l node_r _ _ _ _ =>
      match l with
      | Branch ll lr _ _ _ _ => branch ll (branch lr node_r)
      | Leaf _ _ => branch l node_r
      end
  | Leaf _ _ => n
  end.
Definition rotate_left (n : Node) : Node :=
  match n with
  | Branch node_l r _ _ _ _ =>
      match r with
      | Branch rl rr _ _ _ _ => branch (branch node_l rl) rr
      | Leaf _ _ => branch node_l r
      end
  | Leaf _ _ => n
  end.
Definition balance (n : Node) : panics Node :=
  let bf := balance_factor n in
  if (1 <? bf)%Z then
    '(l, r) ← take_children n;
    Done (if (balance_factor l <? 0)%Z then rotate_right (branch (rotate_left l) r)
          else rotate_right (branch l r))
  else if (bf <? -1)%Z then
    '(l, r) ← take_children n;
    Done (if (0 <? balance_factor r)%Z then rotate_left (branch l (rotate_right r))
          else rotate_left (branch l r))
  else Done n.

(** ** Joining and splitting *)

(** Two leaves that fit into one. *)
Definition merged (l r : Node) : option Node :=
  match l, r with
  | Leaf lbuf _, Leaf rbuf _ =>
      if length lbuf + length rbuf <=? LEAF_MAX then Some (leaf (lbuf ++ rbuf)) else None
  | _, _ => None
  end.
Definition abs_diff (a b : nat) : nat := (a - b) + (b - a).

(** The recursion goes down the right spine of the left tree, or the left
    spine of the right one. *)
Fixpoint join_nodes (lt : Node) : Node → panics Node :=
  fix join_left (rt : Node) : panics Node :=
    if text_len lt =? 0 then Done rt
    else if text_len rt =? 0 then Done lt
    else
      match merged lt rt with
      | Some n => Done n
      | None =>
          let lh := height lt in let rh := height rt in
          if abs_diff lh rh <=? 1 then Done (branch lt rt)
          else if rh <? lh then
            match lt with
            | Branch ll lr _ _ _ _ => new_right ← join_nodes lr rt; balance (branch ll new_right)
            | Leaf _ _ => panic
            end
          else
            match rt with
            | Branch rl rr _ _ _ _ => new_left ← join_left rl; balance (branch new_left rr)
            | Leaf _ _ => panic
            end
      end.

Fixpoint split_node (n : Node) (pos : nat) : panics (Node * Node) :=
  if pos =? 0 then Done (empty_leaf, n)
  else if text_len n <=? pos then Done (n, empty_leaf)
  else
    match n with
    | Leaf buf _ => Done (leaf (take pos buf), leaf (drop pos buf))
    | Branch l r left_len _ _ _ =>
        if pos =? left_len then Done (l, r)
        else if pos <? left_len then
          '(ll, lr) ← split_node l pos; new_right ← join_nodes lr r; Done (ll, new_right)
        else
          '(rl, rr) ← split_node r (pos - left_len); new_left ← join_nodes l rl; Done (new_left, rr)
    end.

Definition insert_node (root : Node) (pos : nat) (insertion : Node) : panics Node :=
  '(l, r) ← split_node root pos; joined ← join_nodes l insertion; join_nodes joined r.
Definition delete_range (root : Node) (pos count : nat) : panics Node :=
  '(before, rest) ← split_node root pos; '(_, after) ← split_node rest count; join_nodes before after.

(** ** Newlines *)

Fixpoint count_newlines_before (n : Node) (pos : nat) : nat :=
  if pos =? 0 then 0
  else
    match n with
    | Leaf buf _ => count_newlines (take (Nat.min pos (length buf)) buf)
    | Branch l r left_len _ _ _ =>
        if pos <=? left_len then count_newlines_before l pos
        else newline_count l + count_newlines_before r (pos - left_len)
    end.

(** The offset of the [n]th newline of a leaf, [i] the offset and [count] the
    newlines passed. *)
Fixpoint scan_newline (n i count : nat) (buf : text) : option nat :=
  match buf with
  | [] => None
  | cp :: buf' =>
      if bool_decide (cp = NEWLINE) then
        if count =? n then Some i else scan_newline n (i + 1) (count + 1) buf'
      else scan_newline n (i + 1) count buf'
  end.
Fixpoint nth_newline_pos_raw (node : Node) (n : nat) : option nat :=
  match node with
  | Leaf buf _ => scan_newline n 0 0 buf
  | Branch l r left_len _ _ _ =>
      let left_nl := newline_count l in
      if n <? left_nl then nth_newline_pos_raw l n
      else right_pos ← nth_newline_pos_raw r (n - left_nl); Some (left_len + right_pos)
  end.
Definition nth_newline_pos (node : Node) (n : nat) : option nat :=
  (λ p, p + 1) <$> nth_newline_pos_raw node n.

(** ** UTF-8

    A two-, three- or four-byte sequence is taken when its continuation bytes
    are continuation bytes; anything else is replaced byte by byte. *)
Definition cont_bits (b : ascii) : option Z :=
  if (Z.land (byte_val b) 192 =? 128)%Z then Some (Z.land (byte_val b) 63) else None.
Definition REPLACEMENT : Z := 65533.

Fixpoint decode_utf8 (s : string) : text :=
  match s with
  | EmptyString => []
  | String b0 r0 =>
      let byte := byte_val b0 in
      let bad := REPLACEMENT :: decode_utf8 r0 in
      if (byte =? 13)%Z then
        NEWLINE :: match r0 with
                   | String b1 r1 => if (byte_val b1 =? 10)%Z then decode_utf8 r1 else decode_utf8 r0
                   | EmptyString => []
                   end
      else if (byte <? 128)%Z then byte :: decode_utf8 r0
      else if (Z.land byte 224 =? 192)%Z then
        match r0 with
        | String b1 r1 =>
            match cont_bits b1 with
            | Some c1 => Z.lor (Z.shiftl (Z.land byte 31) 6) c1 :: decode_utf8 r1
            | None => bad
            end
        | EmptyString => bad
        end
      else if (Z.land byte 240 =? 224)%Z then
        match r0 with
        | String b1 (String b2 r2) =>
            match cont_bits b1, cont_bits b2 with
            | Some c1, Some c2 =>
                Z.lor (Z.lor (Z.shiftl (Z.land byte 15) 12) (Z.shiftl c1 6)) c2 :: decode_utf8 r2
            | _, _ => bad
            end
        | _ => bad
        end
      else if (Z.land byte 248 =? 240)%Z then
        match r0 with
        | String b1 (String b2 (String b3 r3)) =>
            match cont_bits b1, cont_bits b2, cont_bits b3 with
            | Some c1, Some c2, Some c3 =>
                Z.lor (Z.lor (Z.lor (Z.shiftl (Z.land byte 7) 18) (Z.shiftl c1 12)) (Z.shiftl c2 6)) c3
                :: decode_utf8 r3
            | _, _, _ => bad
            end
        | _ => bad
        end
      else bad
  end.
Definition BOM : string := String (byte_of 239) (String (byte_of 187) (String (byte_of 191) "")).
Definition utf8_to_codepoints (utf8 : string) : text :=
  decode_utf8 (match strip_prefix BOM utf8 with Some rest => rest | None => utf8 end).

(** [char::from_u32], and [String::push] of the character. *)
Definition is_scalar (cp : Z) : bool :=
  ((0 <=? cp) && (cp <? 55296) || (57344 <=? cp) && (cp <? 1114112))%Z.
Definition tail_byte (c : Z) : ascii := byte_of (Z.lor 128 (Z.land c 63)).
Definition encode_char (cp : Z) : string :=
  if (cp <? 128)%Z then String (byte_of cp) ""
  else if (cp <? 2048)%Z then
    String (byte_of (Z.lor 192 (Z.shiftr cp 6))) (String (tail_byte cp) "")
  else if (cp <? 65536)%Z then
    String (byte_of (Z.lor 224 (Z.shiftr cp 12))) (String (tail_byte (Z.shiftr cp 6)) (String (tail_byte cp) ""))
  else
    String (byte_of (Z.lor 240 (Z.shiftr cp 18)))
      (String (tail_byte (Z.shiftr cp 12)) (String (tail_byte (Z.shiftr cp 6)) (String (tail_byte cp) ""))).
Fixpoint codepoints_to_utf8 (cps : text) : string :=
  match cps with
  | [] => ""
  | cp :: cps' => encode_char (if is_scalar cp then cp else REPLACEMENT) +:+ codepoints_to_utf8 cps'
  end.
