(* ===== verification/RopeBuffer.v ===== *)
(** * The buffer of the editor ([src/crates/igui/src/rope_buffer.rs]: [RopeBuffer])

    The operations of the editor's text, over the rope's root. *)
From stdpp Require Import strings.
From S2P Require Import Prelude Bytes Rope.
#[local] Open Scope nat_scope.

Record RopeBuffer := mkRope { root : Node }.

Definition new_buffer : RopeBuffer := mkRope empty_leaf.
Definition from_slice (t : text) : panics RopeBuffer := n ← build_rope_from_slice t; Done (mkRope n).
Definition from_utf8 (utf8 : string) : panics RopeBuffer := from_slice (utf8_to_codepoints utf8).

Definition len (b : RopeBuffer) : nat := text_len (root b).
Definition is_empty (b : RopeBuffer) : bool := len b =? 0.
Definition line_count (b : RopeBuffer) : nat := newline_count (root b) + 1.

Definition char_at (b : RopeBuffer) (pos : nat) : panics (option Z) :=
  if len b <=? pos then Done None else cp ← char_at_node (root b) pos; Done (Some cp).

Definition insert (b : RopeBuffer) (pos : nat) (t : text) : panics RopeBuffer :=
  match t with
  | [] => Done b
  | _ => insertion ← build_rope_from_slice t; n ← insert_node (root b) pos insertion; Done (mkRope n)
  end.
Definition insert_char (b : RopeBuffer) (pos : nat) (cp : Z) : panics RopeBuffer := insert b pos [cp].
Definition insert_utf8 (b : RopeBuffer) (pos : nat) (utf8 : string) : panics RopeBuffer :=
  insert b pos (utf8_to_codepoints utf8).
Definition delete (b : RopeBuffer) (pos count : nat) : panics RopeBuffer :=
  if (count =? 0) || (len b <=? pos) then Done b
  else n ← delete_range (root b) pos (Nat.min count (len b - pos)); Done (mkRope n).
Definition replace (b : RopeBuffer) (pos count : nat) (t : text) : panics RopeBuffer :=
  b1 ← delete b pos count; insert b1 pos t.

(** ** Lines *)

Definition line_start (b : RopeBuffer) (line_idx : nat) : option nat :=
  if line_idx =? 0 then Some 0
  else if line_count b <=? line_idx then None
  else nth_newline_pos (root b) (line_idx - 1).
Definition line_range (b : RopeBuffer) (line_idx : nat) : option (nat * nat) :=
  let total := line_count b in
  if total <=? line_idx then None
  else
    start ← (if line_idx =? 0 then Some 0 else nth_newline_pos (root b) (line_idx - 1));
    let end_ := if line_idx + 1 <? total then default (len b) (nth_newline_pos_raw (root b) line_idx)
                else len b in
    Some (start, end_).

Definition slice (b : RopeBuffer) (start end_ : nat) : text :=
  let total := len b in
  let s := Nat.min start total in
  let e := Nat.min end_ total in
  if e <=? s then [] else collect_range (root b) s e.
Definition get_line (b : RopeBuffer) (line_idx : nat) : text :=
  match line_range b line_idx with Some (s, e) => slice b s e | None => [] end.
Definition to_slice (b : RopeBuffer) : text := slice b 0 (len b).
Definition to_utf8 (b : RopeBuffer) : string := codepoints_to_utf8 (slice b 0 (len b)).

Definition offset_to_line_col (b : RopeBuffer) (offset : nat) : panics (nat * nat) :=
  let pos := Nat.min offset (len b) in
  let nl := count_newlines_before (root b) pos in
  let line_start_off := if nl =? 0 then 0 else default 0 (nth_newline_pos (root b) (nl - 1)) in
  col ← checked_sub pos line_start_off; Done (nl, col).
Definition line_col_to_offset (b : RopeBuffer) (line col : nat) : panics nat :=
  let start := default (len b) (line_start b line) in
  match line_range b line with
  | Some (s, e) => width ← checked_sub e s; Done (start + Nat.min col width)
  | None => Done start
  end.

(** ** Iterators *)

(** [Chars::next] and [Lines::next]: the item and the iterator after. *)
Definition chars_next (b : RopeBuffer) (pos : nat) : panics (option (Z * nat)) :=
  cp ← char_at b pos; Done (match cp with Some c => Some (c, pos + 1) | None => None end).
Definition lines_next (b : RopeBuffer) (line : nat) : option (text * nat) :=
  if line_count b <=? line then None else Some (get_line b line, line + 1).

Example buffer_ex :
  (b ← from_utf8 "AB
CD
EF"; b1 ← insert b 1 [120; 121]%Z; b2 ← delete b1 4 2; p ← offset_to_line_col b 7; o ← line_col_to_offset b 2 1;
   Done (to_utf8 b1, to_utf8 b2, p, o, get_line b 1)) =
  Done ("AxyB
CD
EF", "AxyBD
EF", (2, 1), 7, [67; 68]%Z).
Proof. vm_compute. reflexivity. Qed.
