(* ===== verification/RopeFacts.v ===== *)
(** * The rope holds the text it was given

    [wf] is what the cached numbers of a rope mean; every operation keeps it,
    none panics, and each does to the [contents] what it is named for. *)
From stdpp Require Import strings.
From S2P Require Import Prelude Bytes Rope.
#[local] Open Scope nat_scope.

(** ** Contents and well-formedness *)

Fixpoint contents (n : Node) : text :=
  match n with Leaf buf _ => buf | Branch l r _ _ _ _ => contents l ++ contents r end.

(** The leaves are no longer than allowed, the branches have two children with
    text, and all numbers are those of the children. *)
Fixpoint wf (n : Node) : Prop :=
  match n with
  | Leaf buf nl => nl = count_newlines buf ∧ length buf ≤ LEAF_MAX
  | Branch l r left_len total_len total_newlines h =>
      wf l ∧ wf r ∧ contents l ≠ [] ∧ contents r ≠ [] ∧ n = branch l r
  end.

Lemma count_newlines_app a b : count_newlines (a ++ b) = count_newlines a + count_newlines b.
Proof. unfold count_newlines. by rewrite filter_app, length_app. Qed.

Lemma wf_branch_inv l r a b c d :
  wf (Branch l r a b c d) → wf l ∧ wf r ∧ contents l ≠ [] ∧ contents r ≠ [] ∧ Branch l r a b c d = branch l r.
Proof. done. Qed.
Lemma wf_branch l r : wf l → wf r → contents l ≠ [] → contents r ≠ [] → wf (branch l r).
Proof. cbn. auto. Qed.
Lemma wf_leaf t : length t ≤ LEAF_MAX → wf (leaf t).
Proof. done. Qed.
Lemma wf_empty : wf empty_leaf.
Proof. by apply wf_leaf; cbn; lia. Qed.

Lemma text_len_contents n : wf n → text_len n = length (contents n).
Proof.
  induction n as [buf nl|l IHl r IHr a b c d]; [done|]. intros (Hl & Hr & _ & _ & E). injection E as -> -> -> ->.
  cbn. by rewrite length_app, IHl, IHr.
Qed.
Lemma newline_count_contents n : wf n → newline_count n = count_newlines (contents n).
Proof.
  induction n as [buf nl|l IHl r IHr a b c d]; [by intros [-> _]|]. intros (Hl & Hr & _ & _ & E).
  injection E as -> -> -> ->. cbn [newline_count contents]. by rewrite count_newlines_app, IHl, IHr.
Qed.
Lemma text_len_zero n : wf n → (text_len n =? 0) = bool_decide (contents n = []).
Proof.
  intros Hn. rewrite text_len_contents by done. destruct (contents n); [done|]. by rewrite bool_decide_false.
Qed.
Lemma leaf_height n : height n ≠ 0 → ∃ l r a b c d, n = Branch l r a b c d.
Proof. destruct n as [|l r a b c d]; [done|]. intros _. by do 6 eexists. Qed.

(** ** Balancing keeps the contents *)

(** A tree with the contents [t]. *)
Definition holds (n : Node) (t : text) : Prop := wf n ∧ contents n = t.

Lemma app_not_nil {A} (a b : list A) : a ≠ [] → a ++ b ≠ [].
Proof. by destruct a. Qed.
Lemma app_not_nil_r {A} (a b : list A) : b ≠ [] → a ++ b ≠ [].
Proof. destruct a; [done|]. done. Qed.
#[local] Hint Resolve wf_branch app_not_nil app_not_nil_r : rope.

Lemma rotate_right_holds n : wf n → holds (rotate_right n) (contents n).
Proof.
  destruct n as [|l r a b c d]; [done|]. intros (Hl & Hr & Nl & Nr & _). cbn [rotate_right].
  destruct l as [|ll lr a' b' c' d']; [by split; [apply wf_branch|]|].
  destruct Hl as (Hll & Hlr & Nll & Nlr & _). split; [|cbn; by rewrite app_assoc].
  apply wf_branch; [done|by apply wf_branch|done|cbn; eauto with rope].
Qed.
Lemma rotate_left_holds n : wf n → holds (rotate_left n) (contents n).
Proof.
  destruct n as [|l r a b c d]; [done|]. intros (Hl & Hr & Nl & Nr & _). cbn [rotate_left].
  destruct r as [|rl rr a' b' c' d']; [by split; [apply wf_branch|]|].
  destruct Hr as (Hrl & Hrr & Nrl & Nrr & _). split; [|cbn; by rewrite app_assoc].
  apply wf_branch; [apply wf_branch; eauto with rope|done|cbn; eauto with rope|done].
Qed.

(** What [balance] does to a branch. *)
Definition balanced (l r : Node) : Node :=
  if (1 <? balance_factor (branch l r))%Z then
    rotate_right (branch (if (balance_factor l <? 0)%Z then rotate_left l else l) r)
  else if (balance_factor (branch l r) <? -1)%Z then
    rotate_left (branch l (if (0 <? balance_factor r)%Z then rotate_right r else r))
  else branch l r.
Lemma balance_branch l r : balance (branch l r) = Done (balanced l r).
Proof. unfold balance, balanced. cbn [take_children branch mbind outcome_bind]. repeat case_match; done. Qed.

Lemma balanced_holds l r :
  wf l → wf r → contents l ≠ [] → contents r ≠ [] → holds (balanced l r) (contents l ++ contents r).
Proof.
  intros Hl Hr Nl Nr. unfold balanced.
  destruct (1 <? _)%Z; [|destruct (_ <? -1)%Z; [|by split; [apply wf_branch|]]].
  - destruct (balance_factor l <? 0)%Z; [|apply (rotate_right_holds (branch l r)); auto with rope].
    destruct (rotate_left_holds l Hl) as [Hl' <-].
    apply (rotate_right_holds (branch (rotate_left l) r)), wf_branch; auto.
    destruct (rotate_left_holds l Hl) as [_ ->]. done.
  - destruct (0 <? balance_factor r)%Z; [|apply (rotate_left_holds (branch l r)); auto with rope].
    destruct (rotate_right_holds r Hr) as [Hr' <-].
    apply (rotate_left_holds (branch l (rotate_right r))), wf_branch; auto.
    destruct (rotate_right_holds r Hr) as [_ ->]. done.
Qed.

(** ** Joining *)

Lemma join_eq l r :
  join_nodes l r =
  if text_len l =? 0 then Done r
  else if text_len r =? 0 then Done l
  else
    match merged l r with
    | Some n => Done n
    | None =>
        if abs_diff (height l) (height r) <=? 1 then Done (branch l r)
        else if height r <? height l then
          match l with
          | Branch ll lr _ _ _ _ => n ← join_nodes lr r; balance (branch ll n)
          | Leaf _ _ => panic
          end
        else
          match r with
          | Branch rl rr _ _ _ _ => n ← join_nodes l rl; balance (branch n rr)
          | Leaf _ _ => panic
          end
    end.
Proof. destruct l, r; reflexivity. Qed.

Lemma merged_holds l r n : merged l r = Some n → holds n (contents l ++ contents r).
Proof.
  destruct l as [lbuf ?|], r as [rbuf ?|]; try done. cbn [merged].
  destruct (Nat.leb_spec (length lbuf + length rbuf) LEAF_MAX); [|done]. intros [= <-].
  split; [|done]. apply wf_leaf. by rewrite length_app.
Qed.

Lemma join_left_taller ll lr r n :
  wf ll → contents ll ≠ [] → contents lr ≠ [] → holds n (contents lr ++ contents r) →
  ∃ n', balance (branch ll n) = Done n' ∧ holds n' ((contents ll ++ contents lr) ++ contents r).
Proof.
  intros Hll Nll Nlr [Hn Ec]. rewrite balance_branch. eexists. split; [done|]. rewrite <- app_assoc, <- Ec.
  apply balanced_holds; [done..|rewrite Ec; auto with rope].
Qed.
Lemma join_right_taller l rl rr n :
  wf rr → contents rr ≠ [] → contents l ≠ [] → holds n (contents l ++ contents rl) →
  ∃ n', balance (branch n rr) = Done n' ∧ holds n' (contents l ++ contents rl ++ contents rr).
Proof.
  intros Hrr Nrr Nl [Hn Ec]. rewrite balance_branch. eexists. split; [done|]. rewrite app_assoc, <- Ec.
  apply balanced_holds; [done..|rewrite Ec; auto with rope|done].
Qed.

Lemma join_holds l r : wf l → wf r → ∃ n, join_nodes l r = Done n ∧ holds n (contents l ++ contents r).
Proof.
  revert r. induction l as [lbuf lnl|ll IHll lr IHlr la lb lc ld];
    intros r; (induction r as [rbuf rnl|rl IHrl rr IHrr ra rb rc rd]; intros Hl Hr);
    rewrite join_eq, !text_len_zero by done;
    (case_bool_decide as El; [rewrite El; by eexists|]);
    (case_bool_decide as Er; [rewrite Er, app_nil_r; by eexists|]);
    (destruct (merged _ _) as [n|] eqn:Em; [eexists; split; [done|by apply merged_holds]|]);
    (destruct (_ <=? 1) eqn:Ed; [eexists; split; [done|by split; [apply wf_branch|]]|]);
    unfold abs_diff in Ed; apply Nat.leb_gt in Ed;
    match goal with |- context [height ?a <? height ?b] => destruct (Nat.ltb_spec (height a) (height b)) as [Hh|Hh] end;
    try (cbn [height] in Hh, Ed; lia).
  - apply wf_branch_inv in Hr as (Hrl & Hrr & Nrl & Nrr & _).
    destruct (IHrl Hl Hrl) as (n & -> & Hn). by apply join_right_taller.
  - apply wf_branch_inv in Hl as (Hll & Hlr & Nll & Nlr & _).
    destruct (IHlr _ Hlr Hr) as (n & -> & Hn). by apply join_left_taller.
  - apply wf_branch_inv in Hl as (Hll & Hlr & Nll & Nlr & _).
    destruct (IHlr _ Hlr Hr) as (n & -> & Hn). by apply join_left_taller.
  - pose proof Hr as (Hrl & Hrr & Nrl & Nrr & _).
    destruct (IHrl Hl Hrl) as (n & -> & Hn). by apply join_right_taller.
Qed.

(** ** Splitting *)

Lemma split_holds n pos :
  wf n → ∃ a b, split_node n pos = Done (a, b) ∧ holds a (take pos (contents n)) ∧ holds b (drop pos (contents n)).
Proof.
  revert pos. induction n as [buf nl|l IHl r IHr a b c d]; intros pos Hn; pose proof (text_len_contents _ Hn) as Hlen;
    cbn [split_node];
    (destruct (Nat.eqb_spec pos 0) as [->|Hp]; [do 2 eexists; split; [done|]; split; (split; [first [done|apply wf_empty]|done])|]);
    (match goal with |- context [text_len ?n <=? pos] => destruct (Nat.leb_spec (text_len n) pos) as [Hlp|Hlp] end;
      [rewrite Hlen in Hlp; do 2 eexists; split; [done|];
       rewrite take_ge, drop_ge by done; split; (split; [first [done|apply wf_empty]|done])|]).
  - destruct Hn as [_ Hmax]. do 2 eexists. split; [done|]. split; (split; [|done]); apply wf_leaf;
      rewrite ?length_take, ?length_drop; lia.
  - destruct Hn as (Hl & Hr & Nl & Nr & E). injection E as -> -> -> ->. rewrite (text_len_contents l) by done.
    cbn [contents].
    destruct (Nat.eqb_spec pos (length (contents l))) as [->|Hne].
    { do 2 eexists. split; [done|]. rewrite take_app_length, drop_app_length. done. }
    destruct (Nat.ltb_spec pos (length (contents l))) as [Hlt|Hge].
    + destruct (IHl pos Hl) as (x & y & -> & [Hx Ex] & [Hy Ey]). cbn [mbind outcome_bind].
      destruct (join_holds y r Hy Hr) as (n & -> & Hn). do 2 eexists. split; [done|].
      rewrite take_app_le, drop_app_le by lia. rewrite Ey in Hn. done.
    + destruct (IHr (pos - length (contents l)) Hr) as (x & y & -> & [Hx Ex] & [Hy Ey]). cbn [mbind outcome_bind].
      destruct (join_holds l x Hl Hx) as (n & -> & Hn). do 2 eexists. split; [done|].
      rewrite take_app_ge, drop_app_ge by lia. rewrite Ex in Hn. done.
Qed.

(** ** Building *)

Definition good (n : Node) : Prop := wf n ∧ contents n ≠ [].

Lemma pair_up_good nodes :
  Forall good nodes →
  Forall good (pair_up nodes) ∧ flat_map contents (pair_up nodes) = flat_map contents nodes ∧
  length (pair_up nodes) = (length nodes + 1) / 2.
Proof.
  induction nodes as [nodes IH] using (induction_ltof1 _ (length (A:=_))). unfold ltof in IH.
  destruct nodes as [|x [|y nodes]]; intros Hf; [done..|].
  apply Forall_cons in Hf as [[Hx Nx] [[Hy Ny] Hf]%Forall_cons].
  destruct (IH nodes) as (Hg & Ec & El); [cbn; lia|done|]. cbn [pair_up]. split; [|split].
  - constructor; [|done]. split; [by apply wf_branch|cbn; auto with rope].
  - cbn. by rewrite Ec, app_assoc.
  - cbn [length]. rewrite El. replace (S (S (length nodes)) + 1) with (length nodes + 1 + 1 * 2) by lia.
    rewrite Nat.div_add by lia. lia.
Qed.
Lemma merge_all_holds fuel nodes :
  nodes ≠ [] → length nodes ≤ S fuel → Forall good nodes →
  ∃ n, merge_all fuel nodes = Done n ∧ holds n (flat_map contents nodes).
Proof.
  revert nodes. induction fuel as [|fuel IH]; intros nodes Hne Hlen Hf;
    (destruct nodes as [|x [|y nodes]]; [done|apply Forall_cons in Hf as [[Hx _] _]; eexists; split; [done|];
      split; [done|cbn; by rewrite app_nil_r]|]); [cbn in Hlen; lia|].
  destruct (pair_up_good _ Hf) as (Hg & Ec & El). cbn [merge_all]. rewrite <- Ec.
  apply IH; [done| |done]. rewrite El. cbn [length] in *.
  apply Nat.lt_succ_r, Nat.Div0.div_lt_upper_bound. lia.
Qed.

Lemma chunks_contents k i t :
  length t ≤ (i + k) * LEAF_MAX → flat_map contents (chunk t <$> seq i k) = drop (i * LEAF_MAX) t.
Proof.
  revert i. induction k as [|k IH]; intros i Hl; cbn [seq fmap list_fmap flat_map].
  { rewrite drop_ge; [done|]. by rewrite Nat.add_0_r in Hl. }
  rewrite (IH (S i)) by (by rewrite Nat.add_succ_comm). cbn [contents chunk leaf]. unfold sub_list.
  rewrite <- (take_drop (Nat.min (i * LEAF_MAX + LEAF_MAX) (length t) - i * LEAF_MAX) (drop (i * LEAF_MAX) t)) at 2.
  f_equal. rewrite drop_drop. destruct (Nat.le_gt_cases (length t) (i * LEAF_MAX + LEAF_MAX)).
  - by rewrite !drop_ge by (unfold LEAF_MAX in *; lia).
  - f_equal. unfold LEAF_MAX in *. lia.
Qed.
Lemma chunk_good t i : i * LEAF_MAX < length t → good (chunk t i).
Proof.
  intros Hi. unfold chunk, good. cbn [contents leaf].
  assert (length (sub_list (i * LEAF_MAX) (Nat.min (i * LEAF_MAX + LEAF_MAX) (length t)) t) =
          Nat.min LEAF_MAX (length t - i * LEAF_MAX)) as Hlen.
  { unfold sub_list. rewrite length_take, length_drop. unfold LEAF_MAX in *. lia. }
  split; [apply wf_leaf; lia|]. intros E. rewrite E in Hlen.
  change (length []) with 0 in Hlen. unfold LEAF_MAX in *. lia.
Qed.
Lemma chunk_count_bounds t : t ≠ [] → (chunk_count t - 1) * LEAF_MAX < length t ≤ chunk_count t * LEAF_MAX ∧ 0 < chunk_count t.
Proof.
  intros Ht. assert (0 < length t) by (destruct t; [done|cbn; lia]). unfold chunk_count, LEAF_MAX in *.
  pose proof (Nat.div_mod_eq (length t + 2048 - 1) 2048). pose proof (Nat.mod_upper_bound (length t + 2048 - 1) 2048 ltac:(lia)).
  lia.
Qed.

Lemma build_holds t : ∃ n, build_rope_from_slice t = Done n ∧ holds n t.
Proof.
  unfold build_rope_from_slice. destruct t as [|cp t0]; [eexists; split; [done|split; [apply wf_empty|done]]|].
  set (t := cp :: t0). destruct (chunk_count_bounds t) as ([Hlo Hhi] & Hpos); [done|].
  destruct (Nat.eqb_spec (chunk_count t) 1) as [E|E].
  - eexists. split; [done|]. split; [|done]. apply wf_leaf. rewrite E in Hhi. lia.
  - destruct (merge_all_holds (length (chunk t <$> seq 0 (chunk_count t))) (chunk t <$> seq 0 (chunk_count t)))
      as (n & -> & Hn).
    + intros En%(f_equal length). rewrite length_fmap, length_seq in En. cbn [length] in En. lia.
    + lia.
    + apply Forall_fmap, Forall_seq. intros i Hi. apply chunk_good. unfold LEAF_MAX in *. nia.
    + eexists. split; [done|]. rewrite chunks_contents in Hn by lia. by rewrite drop_0 in Hn.
Qed.
