(* ===== verification/BufferFacts.v ===== *)
(** * The editor's buffer is a text

    Every operation of the buffer is that of a list of code points: the rope is
    a refinement of the list, and its line numbers are those of a walk over the
    text. *)
From stdpp Require Import strings.
From S2P Require Import Prelude Bytes Rope RopeBuffer RopeFacts.
#[local] Open Scope nat_scope.

Definition represents (b : RopeBuffer) (t : text) : Prop := holds (root b) t.

(** ** Newlines of a text *)

(** The offset of the [k]th newline. *)
Fixpoint newline_pos (k : nat) (t : text) : option nat :=
  match t with
  | [] => None
  | cp :: t' =>
      if bool_decide (cp = NEWLINE)
      then match k with O => Some 0 | S k' => S <$> newline_pos k' t' end
      else S <$> newline_pos k t'
  end.

Lemma count_newlines_cons cp t :
  count_newlines (cp :: t) = (if bool_decide (cp = NEWLINE) then 1 else 0) + count_newlines t.
Proof. unfold count_newlines. rewrite filter_cons. by repeat case_match; case_bool_decide. Qed.

Lemma newline_pos_app k a b :
  newline_pos k (a ++ b) =
  if k <? count_newlines a then newline_pos k a
  else (λ p, length a + p) <$> newline_pos (k - count_newlines a) b.
Proof.
  revert k. induction a as [|cp a IH]; intros k.
  { cbn. rewrite Nat.sub_0_r. by destruct (newline_pos k b). }
  rewrite count_newlines_cons. cbn [newline_pos app length]. case_bool_decide.
  - destruct k as [|k]; [done|]. rewrite IH. cbn [Nat.add Nat.sub].
    change (S k <? S (count_newlines a)) with (k <? count_newlines a).
    destruct (k <? count_newlines a); [done|]. by destruct (newline_pos _ b).
  - rewrite IH. cbn [Nat.add]. destruct (k <? count_newlines a); [done|]. by destruct (newline_pos _ b).
Qed.
Lemma newline_pos_bound k t :
  if k <? count_newlines t then ∃ p, newline_pos k t = Some p ∧ p < length t else newline_pos k t = None.
Proof.
  revert k. induction t as [|cp t IH]; intros k; [done|]. rewrite count_newlines_cons. cbn [newline_pos length].
  case_bool_decide.
  - destruct k as [|k]; [cbn [Nat.ltb Nat.leb Nat.add]; exists 0; split; [done|lia]|]. specialize (IH k).
    change (S k <? 1 + count_newlines t) with (k <? count_newlines t).
    destruct (k <? _); [destruct IH as (p & -> & Hp); exists (S p); split; [done|lia]|by rewrite IH].
  - specialize (IH k). cbn [Nat.add].
    destruct (k <? _); [destruct IH as (p & -> & Hp); exists (S p); split; [done|lia]|by rewrite IH].
Qed.
Lemma newline_pos_Some k t : k < count_newlines t → ∃ p, newline_pos k t = Some p ∧ p < length t.
Proof. intros Hk. pose proof (newline_pos_bound k t) as H. by rewrite (proj2 (Nat.ltb_lt _ _) Hk) in H. Qed.
Lemma newline_pos_None k t : count_newlines t ≤ k → newline_pos k t = None.
Proof. intros Hk. pose proof (newline_pos_bound k t) as H. by rewrite (proj2 (Nat.ltb_ge _ _) Hk) in H. Qed.

(** In and behind the first [p] code points. *)
Lemma newline_pos_take k p t : k < count_newlines (take p t) → newline_pos k (take p t) = newline_pos k t.
Proof. intros Hk%Nat.ltb_lt. rewrite <- (take_drop p t) at 2. by rewrite newline_pos_app, Hk. Qed.
Lemma newline_pos_after k p t q :
  count_newlines (take p t) ≤ k → newline_pos k t = Some q → p ≤ q.
Proof.
  intros Hk Hq. destruct (Nat.le_gt_cases p (length t)) as [Hp|Hp].
  - rewrite <- (take_drop p t), newline_pos_app, (proj2 (Nat.ltb_ge _ _) Hk) in Hq.
    destruct (newline_pos _ (drop p t)); [|done]. cbn in Hq. injection Hq as <-. rewrite length_take. lia.
  - rewrite take_ge in Hk by lia. by rewrite newline_pos_None in Hq.
Qed.
Lemma newline_pos_count k t q :
  newline_pos k t = Some q → count_newlines (take q t) = k ∧ count_newlines (take (S q) t) = S k.
Proof.
  revert k q. induction t as [|cp t IH]; intros k q; [done|]. cbn [newline_pos]. case_bool_decide as Hcp.
  - destruct k as [|k].
    + intros [= <-]. cbn [take]. rewrite count_newlines_cons, bool_decide_true by done. done.
    + destruct (newline_pos k t) as [q'|] eqn:E; [|done]. intros [= <-]. destruct (IH _ _ E) as [H1 H2].
      cbn [take]. rewrite !count_newlines_cons, bool_decide_true by done. cbn [take] in H2. by rewrite H1, H2.
  - destruct (newline_pos k t) as [q'|] eqn:E; [|done]. intros [= <-]. destruct (IH _ _ E) as [H1 H2].
    cbn [take]. rewrite !count_newlines_cons, bool_decide_false by done. cbn [take] in H2. by rewrite H1, H2.
Qed.

Lemma scan_newline_pos n i c t : c ≤ n → scan_newline n i c t = (λ p, i + p) <$> newline_pos (n - c) t.
Proof.
  revert i c. induction t as [|cp t IH]; intros i c Hc; [done|]. cbn [scan_newline newline_pos]. case_bool_decide.
  - destruct (Nat.eqb_spec c n) as [->|Hne]; [rewrite Nat.sub_diag; cbn; f_equal; lia|].
    destruct (n - c) as [|k] eqn:E; [lia|]. rewrite IH by lia. replace (n - (c + 1)) with k by lia.
    destruct (newline_pos k t); [|done]. cbn. f_equal. lia.
  - rewrite IH by lia. destruct (newline_pos (n - c) t); [|done]. cbn. f_equal. lia.
Qed.

(** ** What the searches of a rope find *)

Lemma nth_newline_contents n k : wf n → nth_newline_pos_raw n k = newline_pos k (contents n).
Proof.
  revert k. induction n as [buf nl|l IHl r IHr a b c d]; intros k Hn; cbn [nth_newline_pos_raw contents].
  - rewrite scan_newline_pos, Nat.sub_0_r by lia. by destruct (newline_pos k buf).
  - apply wf_branch_inv in Hn as (Hl & Hr & _ & _ & E). injection E as -> -> -> ->.
    rewrite newline_pos_app, newline_count_contents, text_len_contents by done.
    destruct (k <? _); [by apply IHl|]. rewrite IHr by done. by destruct (newline_pos _ (contents r)).
Qed.
Lemma newlines_before_contents n pos :
  wf n → count_newlines_before n pos = count_newlines (take pos (contents n)).
Proof.
  revert pos. induction n as [buf nl|l IHl r IHr a b c d]; intros pos Hn;
    cbn [count_newlines_before contents]; (destruct (Nat.eqb_spec pos 0) as [->|Hp]; [done|]).
  - f_equal. destruct (Nat.le_gt_cases pos (length buf)); [by rewrite Nat.min_l|].
    rewrite Nat.min_r, !take_ge by lia. done.
  - apply wf_branch_inv in Hn as (Hl & Hr & _ & _ & E). injection E as -> -> -> ->.
    rewrite text_len_contents, newline_count_contents by done.
    destruct (Nat.leb_spec pos (length (contents l))).
    + rewrite IHl by done. by rewrite take_app_le.
    + rewrite IHr by done. rewrite take_app_ge by lia. by rewrite count_newlines_app.
Qed.
Lemma char_at_contents n pos cp :
  wf n → contents n !! pos = Some cp → char_at_node n pos = Done cp.
Proof.
  revert pos. induction n as [buf nl|l IHl r IHr a b c d]; intros pos Hn Hcp; cbn [char_at_node contents] in *.
  - by rewrite Hcp.
  - apply wf_branch_inv in Hn as (Hl & Hr & _ & _ & E). injection E as -> -> -> ->.
    rewrite text_len_contents by done. destruct (Nat.ltb_spec pos (length (contents l))).
    + apply IHl; [done|]. by rewrite lookup_app_l in Hcp.
    + apply IHr; [done|]. by rewrite lookup_app_r in Hcp.
Qed.

Lemma sub_list_app s e a b :
  sub_list s e (a ++ b) = sub_list s (Nat.min e (length a)) a ++ sub_list (s - length a) (e - length a) b.
Proof.
  unfold sub_list. rewrite drop_app, take_app, length_drop. f_equal.
  - destruct (Nat.le_gt_cases e (length a)); [by rewrite Nat.min_l|].
    rewrite Nat.min_r, !take_ge by (rewrite ?length_drop; lia). done.
  - destruct (Nat.le_gt_cases s (length a)).
    + rewrite (proj2 (Nat.sub_0_le s (length a))), !drop_0 by lia. f_equal. lia.
    + f_equal. lia.
Qed.
Lemma sub_list_nil s e t : e ≤ s → sub_list s e t = [].
Proof. intros H. unfold sub_list. by rewrite (proj2 (Nat.sub_0_le e s)). Qed.
Lemma collect_contents n s e : wf n → collect_range n s e = sub_list s e (contents n).
Proof.
  revert s e. induction n as [buf nl|l IHl r IHr a b c d]; intros s e Hn; cbn [collect_range contents];
    (destruct (Nat.leb_spec e s); [by rewrite sub_list_nil|]).
  - unfold sub_list. destruct (Nat.le_gt_cases s (length buf)).
    + rewrite (Nat.min_l s) by lia. destruct (Nat.le_gt_cases e (length buf)); [by rewrite Nat.min_l|].
      rewrite Nat.min_r, !take_ge by (rewrite ?length_drop; lia). done.
    + rewrite !drop_ge by lia. by rewrite !take_nil.
  - apply wf_branch_inv in Hn as (Hl & Hr & _ & _ & E). injection E as -> -> -> ->.
    rewrite sub_list_app, text_len_contents by done. f_equal.
    + destruct (Nat.ltb_spec s (length (contents l))); [by apply IHl|]. rewrite sub_list_nil by lia. done.
    + destruct (Nat.ltb_spec (length (contents l)) e); [by apply IHr|]. rewrite sub_list_nil by lia. done.
Qed.

(** ** Reading and writing *)

Lemma slice_contents b t s e : represents b t → slice b s e = take (e - s) (drop s t).
Proof.
  intros [Hb Et]. unfold slice, len. rewrite text_len_contents, Et by done.
  destruct (Nat.leb_spec (Nat.min e (length t)) (Nat.min s (length t))) as [Hle|Hlt].
  - destruct (Nat.le_gt_cases (length t) s); [by rewrite drop_ge, take_nil by lia|].
    replace (e - s) with 0 by lia. done.
  - rewrite collect_contents, Et by done. unfold sub_list. rewrite (Nat.min_l s) by lia.
    destruct (Nat.le_gt_cases e (length t)); [by rewrite Nat.min_l|].
    rewrite Nat.min_r, !take_ge by (rewrite ?length_drop; lia). done.
Qed.
Lemma len_contents b t : represents b t → len b = length t.
Proof. intros [Hb <-]. by apply text_len_contents. Qed.
Lemma line_count_contents b t : represents b t → line_count b = count_newlines t + 1.
Proof. intros [Hb <-]. unfold line_count. by rewrite newline_count_contents. Qed.
Lemma char_at_text b t pos : represents b t → char_at b pos = Done (t !! pos).
Proof.
  intros Hb. unfold char_at. rewrite (len_contents _ _ Hb). destruct Hb as [Hb <-].
  destruct (Nat.leb_spec (length (contents (root b))) pos) as [Hle|Hlt]; [by rewrite lookup_ge_None_2|].
  destruct (lookup_lt_is_Some_2 _ _ Hlt) as [cp Hcp]. by rewrite (char_at_contents _ _ _ Hb Hcp), Hcp.
Qed.

Lemma from_slice_text t : ∃ b, from_slice t = Done b ∧ represents b t.
Proof. unfold from_slice. destruct (build_holds t) as (n & -> & Hn). by exists (mkRope n). Qed.
Lemma insert_text b t pos ins :
  represents b t → ∃ b', insert b pos ins = Done b' ∧ represents b' (take pos t ++ ins ++ drop pos t).
Proof.
  intros [Hb Et]. unfold insert. destruct ins as [|cp ins0].
  { exists b. split; [done|]. split; [done|]. cbn. by rewrite take_drop. }
  destruct (build_holds (cp :: ins0)) as (n & -> & Hn & En). cbn [mbind outcome_bind]. unfold insert_node.
  destruct (split_holds (root b) pos Hb) as (x & y & -> & [Hx Ex] & [Hy Ey]). cbn [mbind outcome_bind].
  destruct (join_holds x n Hx Hn) as (xn & -> & [Hxn Exn]). cbn [mbind outcome_bind].
  destruct (join_holds xn y Hxn Hy) as (m & -> & [Hm Em]). exists (mkRope m). split; [done|]. split; [done|].
  cbn [root]. by rewrite Em, Exn, Ex, Ey, En, Et, <- app_assoc.
Qed.
Lemma delete_text b t pos n :
  represents b t → ∃ b', delete b pos n = Done b' ∧ represents b' (take pos t ++ drop (pos + n) t).
Proof.
  intros Hb. unfold delete. rewrite (len_contents _ _ Hb). destruct Hb as [Hb Et].
  destruct (Nat.eqb_spec n 0) as [->|Hn]; cbn [orb].
  { exists b. split; [done|]. split; [done|]. by rewrite Nat.add_0_r, take_drop. }
  destruct (Nat.leb_spec (length t) pos) as [Hle|Hlt].
  { exists b. split; [done|]. split; [done|]. by rewrite take_ge, drop_ge, app_nil_r by lia. }
  unfold delete_range. destruct (split_holds (root b) pos Hb) as (x & y & -> & [Hx Ex] & [Hy Ey]).
  cbn [mbind outcome_bind].
  destruct (split_holds y (Nat.min n (length t - pos)) Hy) as (y1 & z & -> & _ & [Hz Ez]). cbn [mbind outcome_bind].
  destruct (join_holds x z Hx Hz) as (m & -> & [Hm Em]). exists (mkRope m). split; [done|]. split; [done|].
  cbn [root]. rewrite Em, Ex, Ez, Ey, Et, drop_drop. f_equal.
  destruct (Nat.le_gt_cases n (length t - pos)); [by rewrite Nat.min_l|]. by rewrite !drop_ge by lia.
Qed.
Lemma replace_text b t pos n ins :
  represents b t → ∃ b', replace b pos n ins = Done b' ∧
    represents b' (take pos (take pos t ++ drop (pos + n) t) ++ ins ++ drop pos (take pos t ++ drop (pos + n) t)).
Proof.
  intros Hb. unfold replace. destruct (delete_text b t pos n Hb) as (b1 & -> & Hb1). by apply insert_text.
Qed.

(** C11: the buffer is a text.  Whatever its tree looks like, a buffer that
    represents a list of code points answers every question as the list does,
    changes as the list does, and never panics: positions behind the end read
    nothing, insert at the end and delete nothing. *)
Theorem buffer_refines_text (b : RopeBuffer) (t : text) (Hb : represents b t) :
  len b = length t ∧ line_count b = count_newlines t + 1 ∧
  (∀ pos, char_at b pos = Done (t !! pos)) ∧
  (∀ s e, slice b s e = take (e - s) (drop s t)) ∧
  to_utf8 b = codepoints_to_utf8 t ∧
  (∀ pos ins, ∃ b', insert b pos ins = Done b' ∧ represents b' (take pos t ++ ins ++ drop pos t)) ∧
  (∀ pos n, ∃ b', delete b pos n = Done b' ∧ represents b' (take pos t ++ drop (pos + n) t)) ∧
  (∀ pos n ins, pos ≤ length t →
     ∃ b', replace b pos n ins = Done b' ∧ represents b' (take pos t ++ ins ++ drop (pos + n) t)) ∧
  (∀ t', ∃ b', from_slice t' = Done b' ∧ represents b' t').
Proof.
  split; [by apply len_contents|]. split; [by apply line_count_contents|]. split; [intros; by apply char_at_text|].
  split; [intros; by apply slice_contents|]. split.
  { unfold to_utf8. rewrite (slice_contents b t), (len_contents b t), drop_0, take_ge by (done || lia). done. }
  split; [intros; by apply insert_text|]. split; [intros; by apply delete_text|]. split; [|apply from_slice_text].
  intros pos n ins Hp. destruct (replace_text b t pos n ins Hb) as (b' & E & Hb'). exists b'. split; [done|].
  assert (length (take pos t) = pos) as Hl by (rewrite length_take; lia).
  by rewrite take_app_le, drop_app_ge, Hl, Nat.sub_diag, drop_0, take_ge in Hb' by lia.
Qed.

(** ** Lines and columns *)

(** The position behind a text: a newline starts a line, any other code point
    takes a column. *)
Definition walk (p : nat * nat) (cp : Z) : nat * nat :=
  if bool_decide (cp = NEWLINE) then (p.1 + 1, 0) else (p.1, p.2 + 1).
Definition position (t : text) (p : nat) : nat * nat := foldl walk (0, 0) (take p t).

(** Where the last line of a text starts. *)
Definition last_start (t : text) : nat :=
  match count_newlines t with O => 0 | S k => default 0 (S <$> newline_pos k t) end.

Lemma last_start_le t : last_start t ≤ length t.
Proof.
  unfold last_start. destruct (count_newlines t) as [|k] eqn:E; [lia|].
  destruct (newline_pos_Some k t) as (p & -> & Hp); [lia|]. cbn. lia.
Qed.
Lemma last_start_snoc t cp :
  last_start (t ++ [cp]) = if bool_decide (cp = NEWLINE) then S (length t) else last_start t.
Proof.
  unfold last_start. rewrite count_newlines_app, count_newlines_cons. change (count_newlines []) with 0.
  case_bool_decide as Hcp.
  - rewrite Nat.add_0_r, Nat.add_1_r, newline_pos_app, Nat.ltb_irrefl, Nat.sub_diag. cbn [newline_pos].
    rewrite bool_decide_true by done. cbn. lia.
  - rewrite !Nat.add_0_r. destruct (count_newlines t) as [|k] eqn:E; [done|].
    by rewrite newline_pos_app, E, (proj2 (Nat.ltb_lt k (S k))) by lia.
Qed.
Lemma position_last t : foldl walk (0, 0) t = (count_newlines t, length t - last_start t).
Proof.
  induction t as [|cp t IH] using rev_ind; [done|]. rewrite foldl_snoc, IH, last_start_snoc. pose proof (last_start_le t) as Hle.
  rewrite count_newlines_app, count_newlines_cons, length_app. unfold walk. cbn [fst snd length].
  change (count_newlines []) with 0. case_bool_decide; f_equal; lia.
Qed.

(** Where a line starts, and where it ends. *)
Definition line_from (t : text) (k : nat) : nat :=
  match k with O => 0 | S k' => default 0 (S <$> newline_pos k' t) end.
Definition line_to (t : text) (k : nat) : nat := default (length t) (newline_pos k t).

Lemma line_from_take t k p : k ≤ count_newlines (take p t) → line_from (take p t) k = line_from t k.
Proof. intros Hk. destruct k as [|k]; [done|]. cbn [line_from]. by rewrite newline_pos_take by lia. Qed.
Lemma last_start_from t : last_start t = line_from t (count_newlines t).
Proof. done. Qed.
Lemma line_from_count t k : k ≤ count_newlines t → count_newlines (take (line_from t k) t) = k.
Proof.
  destruct k as [|k]; [done|]. intros Hk. destruct (newline_pos_Some k t) as (q & Hq & _); [lia|].
  cbn [line_from]. rewrite Hq. by apply (newline_pos_count k t q).
Qed.
Lemma line_from_to t k : k ≤ count_newlines t → line_from t k ≤ line_to t k ≤ length t.
Proof.
  intros Hk. unfold line_to. split.
  - destruct (newline_pos k t) as [e|] eqn:E; cbn.
    + apply (newline_pos_after k _ t); [|done]. by rewrite line_from_count.
    + destruct k as [|k]; [cbn; lia|]. destruct (newline_pos_Some k t) as (q & Hq & Hlt); [lia|].
      cbn. rewrite Hq. cbn. lia.
  - destruct (Nat.le_gt_cases (count_newlines t) k); [by rewrite newline_pos_None|].
    destruct (newline_pos_Some k t) as (q & -> & Hlt); [done|]. cbn. lia.
Qed.
Lemma count_take_mono t p q : p ≤ q → count_newlines (take p t) ≤ count_newlines (take q t).
Proof.
  intros Hpq. replace (take p t) with (take p (take q t)) by (rewrite take_take; f_equal; lia).
  rewrite <- (take_drop p (take q t)) at 2. rewrite count_newlines_app. lia.
Qed.
Lemma count_in_line t k p :
  k ≤ count_newlines t → line_from t k ≤ p ≤ line_to t k → count_newlines (take p t) = k.
Proof.
  intros Hk [Hlo Hhi]. apply (count_take_mono t) in Hlo. rewrite line_from_count in Hlo by done.
  apply Nat.le_antisymm; [|done]. unfold line_to in Hhi. destruct (newline_pos k t) as [e|] eqn:E; cbn in Hhi.
  - apply (count_take_mono t) in Hhi. by rewrite (proj1 (newline_pos_count _ _ _ E)) in Hhi.
  - apply (count_take_mono t) in Hhi. rewrite (take_ge t (length t)) in Hhi by done.
    destruct (Nat.le_gt_cases (count_newlines t) k) as [|Hgt]; [lia|].
    destruct (newline_pos_Some k t Hgt) as (q & Hq & _). congruence.
Qed.

Lemma position_eq t p :
  p ≤ length t → position t p = (count_newlines (take p t), p - line_from t (count_newlines (take p t))).
Proof.
  intros Hp. unfold position. rewrite position_last, length_take, Nat.min_l by lia.
  by rewrite last_start_from, line_from_take.
Qed.
Lemma position_in_line t k c :
  k ≤ count_newlines t → c ≤ line_to t k - line_from t k → position t (line_from t k + c) = (k, c).
Proof.
  intros Hk Hc. pose proof (line_from_to t k Hk). rewrite position_eq, (count_in_line t k) by lia. f_equal. lia.
Qed.

Lemma nth_newline_text b t k : represents b t → nth_newline_pos (root b) k = S <$> newline_pos k t.
Proof.
  intros [Hb <-]. unfold nth_newline_pos. rewrite nth_newline_contents by done.
  destruct (newline_pos k _); [|done]. cbn. f_equal. lia.
Qed.
Lemma line_begins b t k :
  represents b t → k ≤ count_newlines t →
  (if k =? 0 then Some 0 else nth_newline_pos (root b) (k - 1)) = Some (line_from t k).
Proof.
  intros Hb Hk. destruct k as [|k]; [done|]. cbn [Nat.eqb Nat.sub]. rewrite Nat.sub_0_r, (nth_newline_text b t) by done.
  cbn [line_from]. destruct (newline_pos_Some k t) as (q & -> & _); [lia|done].
Qed.
Lemma line_range_text b t k :
  represents b t →
  line_range b k = if k <=? count_newlines t then Some (line_from t k, line_to t k) else None.
Proof.
  intros Hb. unfold line_range. rewrite (line_count_contents _ _ Hb), (len_contents _ _ Hb).
  destruct (Nat.leb_spec k (count_newlines t)) as [Hk|Hk].
  - rewrite (proj2 (Nat.leb_gt _ _)) by lia. rewrite (line_begins b t) by done. cbn [mbind option_bind].
    do 2 f_equal. unfold line_to. rewrite nth_newline_contents, (proj2 Hb) by apply Hb.
    destruct (Nat.ltb_spec (k + 1) (count_newlines t + 1)); [done|]. by rewrite newline_pos_None by lia.
  - by rewrite (proj2 (Nat.leb_le _ _)) by lia.
Qed.
Lemma line_start_text b t k :
  represents b t → line_start b k = if k <=? count_newlines t then Some (line_from t k) else None.
Proof.
  intros Hb. unfold line_start. destruct (Nat.leb_spec k (count_newlines t)) as [Hk|Hk].
  - rewrite <- (line_begins b t k Hb Hk), (line_count_contents _ _ Hb). destruct (k =? 0); [done|].
    by rewrite (proj2 (Nat.leb_gt _ _)) by lia.
  - rewrite (line_count_contents _ _ Hb), (proj2 (Nat.eqb_neq _ _)), (proj2 (Nat.leb_le _ _)) by lia. done.
Qed.
Lemma line_col_text b t k col :
  represents b t → k ≤ count_newlines t →
  line_col_to_offset b k col = Done (line_from t k + Nat.min col (line_to t k - line_from t k)).
Proof.
  intros Hb Hk. unfold line_col_to_offset. pose proof (line_from_to t k Hk).
  rewrite (line_range_text b t), (line_start_text b t), (proj2 (Nat.leb_le _ _) Hk) by done.
  unfold checked_sub. by rewrite (proj2 (Nat.leb_le _ _)) by lia.
Qed.

Lemma offset_position b t p : represents b t → offset_to_line_col b p = Done (position t p).
Proof.
  intros Hb. unfold offset_to_line_col, position. rewrite (len_contents _ _ Hb), newlines_before_contents by apply Hb.
  rewrite (proj2 Hb). replace (take p t) with (take (Nat.min p (length t)) t).
  2: { destruct (Nat.le_gt_cases p (length t)); [by rewrite Nat.min_l|]. by rewrite Nat.min_r, !take_ge by lia. }
  set (q := Nat.min p (length t)). assert (length (take q t) = q) as Hq by (rewrite length_take; lia).
  rewrite position_last, Hq. pose proof (last_start_le (take q t)) as Hle. rewrite Hq in Hle.
  rewrite last_start_from, line_from_take in * by lia.
  assert (count_newlines (take q t) ≤ count_newlines t) as Hc.
  { rewrite <- (take_drop q t) at 2. rewrite count_newlines_app. lia. }
  pose proof (line_begins b t _ Hb Hc) as Hline. unfold checked_sub.
  destruct (count_newlines (take q t) =? 0); [injection Hline as <-; done|]. rewrite Hline. cbn [default from_option]. unfold id.
  by rewrite (proj2 (Nat.leb_le _ _) Hle).
Qed.

(** The lines of a text, without their newlines. *)
Fixpoint split_lines (t : text) : list text :=
  match t with
  | [] => [[]]
  | cp :: t' =>
      if bool_decide (cp = NEWLINE) then [] :: split_lines t'
      else match split_lines t' with l :: ls => (cp :: l) :: ls | [] => [[cp]] end
  end.
Lemma split_lines_length t : length (split_lines t) = count_newlines t + 1.
Proof.
  induction t as [|cp t IH]; [done|]. rewrite count_newlines_cons. cbn [split_lines].
  case_bool_decide; [cbn; by rewrite IH|]. destruct (split_lines t); cbn in *; lia.
Qed.
Lemma split_lines_nth t k :
  k ≤ count_newlines t → split_lines t !! k = Some (take (line_to t k - line_from t k) (drop (line_from t k) t)).
Proof.
  revert k. induction t as [|cp t IH]; intros k Hk; [by destruct k; [|cbn in Hk; lia]|].
  rewrite count_newlines_cons in Hk. cbn [split_lines]. case_bool_decide as Hcp; unfold line_to; cbn [newline_pos length];
    [rewrite bool_decide_true by done|rewrite bool_decide_false by done].
  - destruct k as [|k]; [done|]. cbn [lookup list_lookup]. rewrite IH by lia. f_equal.
    unfold line_to. assert (line_from (cp :: t) (S k) = S (line_from t k)) as ->.
    { cbn [line_from newline_pos]. rewrite bool_decide_true by done. destruct k as [|k]; [done|].
      destruct (newline_pos_Some k t) as (q & Hq & _); [lia|]. cbn [line_from]. by rewrite Hq. }
    cbn [drop]. f_equal. destruct (newline_pos k t); done.
  - destruct k as [|k].
    + specialize (IH 0 ltac:(lia)). destruct (split_lines t) as [|l ls]; [done|]. cbn in IH |- *.
      injection IH as ->. unfold line_to. rewrite Nat.sub_0_r. by destruct (newline_pos 0 t).
    + specialize (IH (S k) ltac:(lia)). destruct (newline_pos_Some k t) as (q & Hq & _); [lia|].
      destruct (split_lines t) as [|l ls]; [done|]. cbn [lookup list_lookup] in IH |- *. rewrite IH. f_equal.
      unfold line_to. cbn [line_from newline_pos]. rewrite bool_decide_false by done. rewrite Hq. cbn [drop fmap option_fmap option_map default from_option].
      destruct (newline_pos (S k) t); done.
Qed.

(** C28: the buffer finds lines and columns.  An offset is at the line and
    column a walk over the text up to it arrives at; the two conversions are
    inverse to each other, columns behind the end of a line being taken as its
    end; and the lines it reads are the text split at its newlines. *)
Theorem buffer_lines (b : RopeBuffer) (t : text) (Hb : represents b t) :
  (∀ p, offset_to_line_col b p = Done (position t p)) ∧
  (∀ p, p ≤ length t → line_col_to_offset b (position t p).1 (position t p).2 = Done p) ∧
  (∀ line col, line < line_count b → ∃ s e p,
     line_range b line = Some (s, e) ∧ s ≤ e ≤ length t ∧ line_start b line = Some s ∧
     line_col_to_offset b line col = Done p ∧ p ≤ e ∧ position t p = (line, Nat.min col (e - s))) ∧
  line_count b = length (split_lines t) ∧
  (∀ line, line < line_count b → split_lines t !! line = Some (get_line b line)) ∧
  (∀ line, line_count b ≤ line → line_start b line = None ∧ line_range b line = None).
Proof.
  rewrite (line_count_contents _ _ Hb). split; [intros p; by apply offset_position|]. split; [|split; [|split; [|split]]].
  - intros p Hp. rewrite position_eq by done. cbn [fst snd]. set (k := count_newlines (take p t)).
    assert (k ≤ count_newlines t) as Hk.
    { unfold k. rewrite <- (take_drop p t) at 2. rewrite count_newlines_app. lia. }
    rewrite (line_col_text b t) by done. f_equal.
    assert (line_from t k ≤ p) as Hlo.
    { unfold k. rewrite <- (line_from_take t _ p) by done. rewrite <- last_start_from.
      pose proof (last_start_le (take p t)) as H. rewrite length_take in H. lia. }
    assert (p ≤ line_to t k) as Hhi.
    { unfold line_to. destruct (newline_pos k t) as [q|] eqn:E; [|done]. cbn. by apply (newline_pos_after k p t). }
    lia.
  - intros line col Hl. assert (line ≤ count_newlines t) as Hk by lia. pose proof (line_from_to t line Hk).
    exists (line_from t line), (line_to t line). eexists.
    rewrite (line_range_text b t), (line_start_text b t), (proj2 (Nat.leb_le _ _) Hk), (line_col_text b t) by done.
    repeat split; [lia..|]. apply position_in_line; lia.
  - by rewrite split_lines_length.
  - intros line Hl. rewrite split_lines_nth by lia. unfold get_line.
    rewrite (line_range_text b t), (proj2 (Nat.leb_le line _)) by (done || lia). by rewrite (slice_contents b t).
  - intros line Hl. rewrite (line_range_text b t), (line_start_text b t), (proj2 (Nat.leb_gt _ _)) by (done || lia). done.
Qed.

(** A buffer of three lines. *)
Definition lines_text : text := [65; 66; 10; 67; 10; 68; 69]%Z.
Definition lines_buffer : RopeBuffer := mkRope (branch (leaf [65; 66; 10]%Z) (leaf [67; 10; 68; 69]%Z)).
Lemma lines_represent : represents lines_buffer lines_text.
Proof. split; [|reflexivity]. apply wf_branch; [apply wf_leaf; vm_compute; lia..|discriminate|discriminate]. Defined.

Lemma buffer_refines_text_witness :
  slice lines_buffer 1 5 = [66; 10; 67; 10]%Z ∧ take (5 - 1) (drop 1 lines_text) = [66; 10; 67; 10]%Z ∧
  ∃ b', insert lines_buffer 2 [120]%Z = Done b' ∧ represents b' [65; 66; 120; 10; 67; 10; 68; 69]%Z.
Proof.
  destruct (buffer_refines_text lines_buffer lines_text lines_represent) as (_ & _ & _ & Hs & _ & Hi & _).
  split; [exact (Hs 1 5)|]. split; [reflexivity|]. exact (Hi 2 [120]%Z).
Defined.
Lemma buffer_lines_witness :
  offset_to_line_col lines_buffer 6 = Done (2, 1) ∧ position lines_text 6 = (2, 1) ∧
  line_col_to_offset lines_buffer 2 1 = Done 6.
Proof.
  destruct (buffer_lines lines_buffer lines_text lines_represent) as (Ho & Hb & _).
  split; [exact (Ho 6)|]. split; [reflexivity|]. apply (Hb 6). vm_compute. lia.
Defined.
