(* ===== verification/RopeBalance.v ===== *)
(** * The rope stays balanced

    Joining and splitting keep the height of every branch's children within
    one of each other, and so does every edit by a text whose own tree is built
    balanced, which it is with up to eight leaves other than five; the height
    of such a tree is logarithmic in its text.  A text of five leaves is not
    built balanced: the last section shows it. *)
From stdpp Require Import strings.
From S2P Require Import Prelude Bytes Rope RopeBuffer RopeFacts BufferFacts.
#[local] Open Scope nat_scope.

Fixpoint avl (n : Node) : Prop :=
  match n with
  | Leaf _ _ => True
  | Branch l r _ _ _ h =>
      avl l ∧ avl r ∧ height l ≤ S (height r) ∧ height r ≤ S (height l) ∧ h = 1 + Nat.max (height l) (height r)
  end.

Lemma avl_branch l r : avl l → avl r → height l ≤ S (height r) → height r ≤ S (height l) → avl (branch l r).
Proof. cbn. auto. Qed.

(** A tree of the height [h], or one more. *)
Definition grows (h : nat) (n : Node) : Prop := avl n ∧ h ≤ height n ≤ S h.

(** ** Rotations *)

#[local] Ltac solve_grows :=
  unfold grows; cbn [avl height branch rotate_right rotate_left] in *; repeat split; try assumption; lia.

Lemma balanced_left l r :
  avl l → avl r → height l = S (S (height r)) → grows (height l) (balanced l r).
Proof.
  intros Hl Hr Hh. unfold balanced. cbn [balance_factor branch].
  rewrite (proj2 (Z.ltb_lt _ _)) by lia. destruct l as [|ll lr a b c d]; [done|].
  destruct Hl as (Hll & Hlr & H1 & H2 & ->). cbn [balance_factor height] in *.
  destruct (Z.ltb_spec (Z.of_nat (height ll) - Z.of_nat (height lr)) 0) as [Hlt|Hge].
  - cbn [rotate_left]. destruct lr as [|lrl lrr a' b' c' d']; [cbn [height] in Hlt; lia|].
    destruct Hlr as (Hlrl & Hlrr & H3 & H4 & ->). cbn [height] in *. solve_grows.
  - cbn [rotate_right]. solve_grows.
Qed.
Lemma balanced_right l r :
  avl l → avl r → height r = S (S (height l)) → grows (height r) (balanced l r).
Proof.
  intros Hl Hr Hh. unfold balanced. cbn [balance_factor branch].
  rewrite (proj2 (Z.ltb_ge _ _)), (proj2 (Z.ltb_lt _ _)) by lia. destruct r as [|rl rr a b c d]; [done|].
  destruct Hr as (Hrl & Hrr & H1 & H2 & ->). cbn [balance_factor height] in *.
  destruct (Z.ltb_spec 0 (Z.of_nat (height rl) - Z.of_nat (height rr))) as [Hlt|Hge].
  - cbn [rotate_right]. destruct rl as [|rll rlr a' b' c' d']; [cbn [height] in Hlt; lia|].
    destruct Hrl as (Hrll & Hrlr & H3 & H4 & ->). cbn [height] in *. solve_grows.
  - cbn [rotate_left]. solve_grows.
Qed.
Lemma balanced_even l r :
  avl l → avl r → height l ≤ S (height r) → height r ≤ S (height l) →
  avl (balanced l r) ∧ height (balanced l r) = S (Nat.max (height l) (height r)).
Proof.
  intros Hl Hr H1 H2. unfold balanced. cbn [balance_factor branch]. rewrite !(proj2 (Z.ltb_ge _ _)) by lia.
  split; [by apply avl_branch|done].
Qed.

(** A side that grows by one, or not at all. *)
Lemma regrow_right l r r' :
  avl l → height l ≤ S (height r) → height r ≤ S (height l) → grows (height r) r' →
  grows (S (Nat.max (height l) (height r))) (balanced l r').
Proof.
  intros Hl H1 H2 [Hr' H3]. destruct (Nat.le_gt_cases (height r') (S (height l))).
  - destruct (balanced_even l r') as [? E]; [done..|lia|done|]. split; [done|rewrite E; lia].
  - destruct (balanced_right l r') as [? E]; [done..|lia|]. split; [done|lia].
Qed.
Lemma regrow_left l r l' :
  avl r → height l ≤ S (height r) → height r ≤ S (height l) → grows (height l) l' →
  grows (S (Nat.max (height l) (height r))) (balanced l' r).
Proof.
  intros Hr H1 H2 [Hl' H3]. destruct (Nat.le_gt_cases (height l') (S (height r))).
  - destruct (balanced_even l' r) as [? E]; [done..|lia|]. split; [done|rewrite E; lia].
  - destruct (balanced_left l' r) as [? E]; [done..|lia|]. split; [done|lia].
Qed.

(** ** Joining *)

Lemma merged_leaves l r n : merged l r = Some n → height l = 0 ∧ height r = 0 ∧ height n = 0 ∧ avl n.
Proof.
  destruct l, r; try done. cbn [merged]. destruct (_ <=? LEAF_MAX); [|done]. by intros [= <-].
Qed.
Lemma join_left_grows ll lr a b c d r m n :
  avl (Branch ll lr a b c d) → S (height r) < d → grows (Nat.max (height lr) (height r)) m →
  balance (branch ll m) = Done n → grows (Nat.max d (height r)) n.
Proof.
  intros (Hll & _ & H1 & H2 & ->) Hh Hm. rewrite balance_branch. intros [= <-].
  rewrite (Nat.max_l (1 + _)) by lia. apply regrow_right; [done..|]. by rewrite Nat.max_l in Hm by lia.
Qed.
Lemma join_right_grows l rl rr a b c d m n :
  avl (Branch rl rr a b c d) → S (height l) < d → grows (Nat.max (height l) (height rl)) m →
  balance (branch m rr) = Done n → grows (Nat.max (height l) d) n.
Proof.
  intros (_ & Hrr & H1 & H2 & ->) Hh Hm. rewrite balance_branch. intros [= <-].
  rewrite (Nat.max_r _ (1 + _)) by lia. apply regrow_left; [done..|]. by rewrite Nat.max_r in Hm by lia.
Qed.

(** A branch has text; so a tree without is a leaf. *)
Lemma empty_height n : wf n → contents n = [] → height n = 0.
Proof. destruct n as [|l r a b c d]; [done|]. intros (_ & _ & Nl & _) E. cbn in E. by apply app_eq_nil in E as [? _]. Qed.

#[local] Ltac join_on_left IH :=
  match goal with Wl : wf (Branch _ _ _ _ _ _), Al : avl (Branch ?ll ?lr ?a ?b ?c ?d) |- context [join_nodes ?lr ?r] =>
    intros (m & Em' & En)%outcome_bind_done; destruct Wl as (_ & Wlr & _); apply IH in Em'; [|done|done|apply Al|done];
    refine (join_left_grows _ _ _ _ _ _ _ _ _ Al _ Em' En); cbn [height] in *; lia
  end.
#[local] Ltac join_on_right IH :=
  match goal with Wr : wf (Branch ?rl _ _ _ _ _), Ar : avl (Branch ?rl ?rr ?a ?b ?c ?d) |- context [join_nodes ?l ?rl] =>
    intros (m & Em' & En)%outcome_bind_done; destruct Wr as (Wrl & _); apply IH in Em'; [|done|done|done|apply Ar];
    refine (join_right_grows _ _ _ _ _ _ _ _ _ Ar _ Em' En); cbn [height] in *; lia
  end.
Lemma join_avl l r n :
  wf l → wf r → avl l → avl r → join_nodes l r = Done n → grows (Nat.max (height l) (height r)) n.
Proof.
  revert r n. induction l as [lbuf lnl|ll IHll lr IHlr la lb lc ld];
    intros r; (induction r as [rbuf rnl|rl IHrl rr IHrr ra rb rc rd]; intros n Wl Wr Al Ar);
    rewrite join_eq, !text_len_zero by done;
    (case_bool_decide as El; [intros [= <-]; rewrite (empty_height _ Wl El); split; [done|lia]|]);
    (case_bool_decide as Er; [intros [= <-]; rewrite (empty_height _ Wr Er); split; [done|lia]|]);
    (destruct (merged _ _) as [m|] eqn:Em;
      [intros [= <-]; apply merged_leaves in Em as (E1 & E2 & E3 & Hm); rewrite E1, E2; split; [done|lia]|]);
    (destruct (_ <=? 1) eqn:Ed;
      [intros [= <-]; unfold abs_diff in Ed; apply Nat.leb_le in Ed; split; [apply avl_branch; auto; lia|cbn [height branch]; lia]|]);
    unfold abs_diff in Ed; apply Nat.leb_gt in Ed;
    match goal with |- context [height ?a <? height ?b] => destruct (Nat.ltb_spec (height a) (height b)) as [Hh|Hh] end;
    try (cbn [height] in Hh, Ed; lia).
  - join_on_right IHrl.
  - join_on_left IHlr.
  - join_on_left IHlr.
  - join_on_right IHrl.
Qed.

(** ** Splitting and building *)

Lemma join_avl_only l r n : wf l → wf r → avl l → avl r → join_nodes l r = Done n → avl n.
Proof. intros Wl Wr Al Ar E. apply (join_avl l r n Wl Wr Al Ar E). Qed.

Lemma split_avl n pos a b : wf n → avl n → split_node n pos = Done (a, b) → avl a ∧ avl b.
Proof.
  revert pos a b. induction n as [buf nl|l IHl r IHr la lb lc ld]; intros pos a b Wn An; cbn [split_node];
    (destruct (pos =? 0); [by intros [= <- <-]|]); (destruct (_ <=? pos); [by intros [= <- <-]|]);
    [by intros [= <- <-]|].
  destruct Wn as (Wl & Wr & _). destruct An as (Al & Ar & _).
  destruct (pos =? la); [by intros [= <- <-]|]. destruct (pos <? la).
  - intros ([x y] & Es & (m & Ej & [= <- <-])%outcome_bind_done)%outcome_bind_done.
    destruct (split_holds l pos Wl) as (x' & y' & Es' & Hx & Hy). rewrite Es in Es'; simplify_eq.
    destruct (IHl _ _ _ Wl Al Es) as [Ax Ay]. split; [done|]. refine (join_avl_only _ _ _ _ _ _ _ Ej); [apply Hy|done..].
  - intros ([x y] & Es & (m & Ej & [= <- <-])%outcome_bind_done)%outcome_bind_done.
    destruct (split_holds r (pos - la) Wr) as (x' & y' & Es' & Hx & Hy). rewrite Es in Es'; simplify_eq.
    destruct (IHr _ _ _ Wr Ar Es) as [Ax Ay]. split; [|done]. refine (join_avl_only _ _ _ _ _ _ _ Ej); [done|apply Hx|done..].
Qed.

(** Trees that are well-formed and balanced. *)
Definition sound (n : Node) : Prop := wf n ∧ avl n.

Lemma join_sound l r n : sound l → sound r → join_nodes l r = Done n → sound n.
Proof.
  intros [Wl Al] [Wr Ar] E. destruct (join_holds l r Wl Wr) as (n' & E' & Hn). rewrite E in E'; simplify_eq.
  split; [apply Hn|by eapply join_avl_only, E].
Qed.
Lemma split_sound n pos a b : sound n → split_node n pos = Done (a, b) → sound a ∧ sound b.
Proof.
  intros [Wn An] E. destruct (split_holds n pos Wn) as (a' & b' & E' & Ha & Hb). destruct (split_avl n pos a b Wn An E).
  rewrite E in E'; simplify_eq. split; split; [apply Ha|done|apply Hb|done].
Qed.

(** ** Building

    The tree of a text is as low as its number of leaves allows, but its
    branches need not be balanced. *)
Definition builds_balanced (t : text) : Prop := ∃ n, build_rope_from_slice t = Done n ∧ avl n.

Lemma builds_balanced_few t : chunk_count t ≤ 8 → chunk_count t ≠ 5 → builds_balanced t.
Proof.
  intros Hc H5. unfold builds_balanced, build_rope_from_slice. destruct t as [|cp t0]; [by eexists|].
  destruct (chunk_count_bounds (cp :: t0)) as [_ Hpos]; [done|]. set (t := cp :: t0) in *.
  destruct (chunk_count t) as [|[|[|[|[|[|[|[|[|k]]]]]]]]]; [lia|..|lia]; try done;
    cbn -[chunk]; eexists; (split; [done|]); cbn; lia.
Qed.
Lemma pair_up_low m ns : Forall (λ n, height n ≤ m) ns →
  Forall (λ n, height n ≤ S m) (pair_up ns) ∧ 2 * length (pair_up ns) ≤ S (length ns).
Proof.
  induction ns as [ns IH] using (induction_ltof1 _ length). unfold ltof in IH. intros H.
  destruct ns as [|l [|r ns]]; cbn [pair_up].
  - by split; [|cbn; lia].
  - split; [eapply Forall_impl; [exact H|]; intros; cbn in *; lia|cbn; lia].
  - apply Forall_cons in H as [Hl H]. apply Forall_cons in H as [Hr H].
    destruct (IH ns ltac:(cbn; lia) H) as [H1 H2]. split; [constructor; [cbn; lia|done]|cbn [length] in *; lia].
Qed.
Lemma merge_all_low fuel k m ns n : Forall (λ n, height n ≤ m) ns → length ns ≤ 2 ^ k →
  merge_all fuel ns = Done n → height n ≤ m + k.
Proof.
  revert fuel m ns. induction k as [|k IH]; intros fuel m ns H Hl.
  - destruct ns as [|a [|b ns]]; [by destruct fuel| |cbn in Hl; lia]. apply Forall_cons in H as [Ha _].
    destruct fuel; intros [= <-]; lia.
  - destruct ns as [|a [|b ns]]; [by destruct fuel|apply Forall_cons in H as [Ha _]; destruct fuel; intros [= <-]; lia|].
    destruct fuel as [|fuel]; [done|]. cbn [merge_all]. intros E.
    destruct (pair_up_low m (a :: b :: ns) H) as [H1 H2]. rewrite Nat.pow_succ_r' in Hl.
    apply IH with (m := S m) in E; [lia|done|lia].
Qed.
Lemma build_low t n : build_rope_from_slice t = Done n → height n ≤ Nat.log2_up (chunk_count t).
Proof.
  unfold build_rope_from_slice. destruct t as [|cp t0]; [intros [= <-]; cbn; lia|].
  destruct (chunk_count_bounds (cp :: t0)) as [_ Hpos]; [done|]. set (t := cp :: t0) in *.
  destruct (_ =? 1); [intros [= <-]; cbn; lia|]. intros E.
  apply (merge_all_low _ (Nat.log2_up (chunk_count t)) 0) in E; [lia| |].
  - apply Forall_fmap, Forall_true. intros i. cbn. lia.
  - rewrite length_fmap, length_seq. destruct (decide (chunk_count t = 1)) as [->|]; [cbn; lia|]. apply Nat.log2_up_spec. lia.
Qed.

Lemma build_sound t n : builds_balanced t → build_rope_from_slice t = Done n → sound n.
Proof.
  intros (n' & E' & Ha) E. rewrite E in E'. injection E' as ->. destruct (build_holds t) as (n2 & E2 & Hn).
  rewrite E in E2. injection E2 as ->. split; [apply Hn|done].
Qed.
Lemma insert_sound b pos t b' :
  sound (root b) → builds_balanced t → insert b pos t = Done b' → sound (root b').
Proof.
  intros Hb Hl. unfold insert. destruct t as [|cp t0] eqn:Et; [by intros [= <-]|]. rewrite <- Et in *.
  intros (n & En & (m & Em & [= <-])%outcome_bind_done)%outcome_bind_done. cbn [root].
  unfold insert_node in Em. apply outcome_bind_done in Em as ([x y] & Es & (j & Ej & Ef)%outcome_bind_done).
  apply split_sound in Es as [Hx Hy]; [|done]. apply build_sound in En; [|done].
  apply join_sound in Ej; [|done..]. by apply join_sound in Ef.
Qed.
Lemma delete_sound b pos n b' : sound (root b) → delete b pos n = Done b' → sound (root b').
Proof.
  intros Hb. unfold delete. destruct ((n =? 0) || _); [by intros [= <-]|].
  intros (m & Em & [= <-])%outcome_bind_done. cbn [root]. unfold delete_range in Em.
  apply outcome_bind_done in Em as ([x y] & Es & ([u v] & Es' & Ej)%outcome_bind_done).
  apply split_sound in Es as [Hx Hy]; [|done]. apply split_sound in Es' as [_ Hv]; [|done]. by apply join_sound in Ej.
Qed.

(** ** Heights *)

Lemma avl_size n : wf n → avl n → contents n ≠ [] → 2 ^ (height n / 2) ≤ length (contents n).
Proof.
  induction n as [n IH] using (induction_ltof1 _ height). unfold ltof in IH. intros Wn An Nn.
  destruct n as [buf nl|l r a b c d]; [destruct buf; [done|cbn; lia]|].
  destruct Wn as (Wl & Wr & Nl & Nr & _). destruct An as (Al & Ar & H1 & H2 & ->). cbn [height contents] in *.
  rewrite length_app.
  assert (∀ k x, (x = l ∨ x = r) → k ≤ height x → 2 ^ (k / 2) ≤ length (contents x)) as Hside.
  { intros k x Hx Hk. transitivity (2 ^ (height x / 2)); [apply Nat.pow_le_mono_r; [lia|by apply Nat.Div0.div_le_mono]|].
    destruct Hx as [-> | ->]; apply IH; auto; lia. }
  destruct (Nat.max (height l) (height r)) as [|k] eqn:Ek.
  { specialize (Hside 0 l (or_introl eq_refl)). cbn in *. destruct (contents l); [done|cbn; lia]. }
  replace (1 + S k) with (k + 1 * 2) by lia. rewrite Nat.div_add, Nat.pow_add_r by lia.
  pose proof (Hside k l). pose proof (Hside k r). change (2 ^ 1) with 2.
  assert (2 ^ (k / 2) ≤ length (contents l)) by (apply H; [by left|lia]).
  assert (2 ^ (k / 2) ≤ length (contents r)) by (apply H0; [by right|lia]). lia.
Qed.

(** Buffers that edits lead to, when every text put in is itself built
    balanced. *)
Inductive edited : RopeBuffer → Prop :=
  | edited_new : edited new_buffer
  | edited_load t b : builds_balanced t → from_slice t = Done b → edited b
  | edited_insert b pos t b' : edited b → builds_balanced t → insert b pos t = Done b' → edited b'
  | edited_delete b pos n b' : edited b → delete b pos n = Done b' → edited b'
  | edited_replace b pos n t b' : edited b → builds_balanced t → replace b pos n t = Done b' → edited b'.

(** C14: edits keep a balanced rope balanced.  Not every buffer is balanced: a
    text of five leaves is not built so.  But in a buffer reached from an empty
    one by loading, inserting and replacing texts that are themselves built
    balanced, and by any deletions, the caches of all nodes are right and the
    heights of the two children of every branch differ by at most one; so no
    path to a leaf is longer than twice the logarithm of the text's length.
    Any deletion, and any insertion of at most eight leaves other than five,
    succeeds and leads to such a buffer again; and whatever text is loaded,
    its tree is no higher than the logarithm of its number of leaves. *)
Theorem edits_balanced (b : RopeBuffer) (He : edited b) :
  wf (root b) ∧ avl (root b) ∧ height (root b) ≤ 2 * Nat.log2 (len b) + 1 ∧
  (∀ pos t, chunk_count t ≤ 8 → chunk_count t ≠ 5 → ∃ b', insert b pos t = Done b' ∧ edited b') ∧
  (∀ pos n, ∃ b', delete b pos n = Done b' ∧ edited b') ∧
  (∀ t, ∃ b', from_slice t = Done b' ∧ height (root b') ≤ Nat.log2_up (chunk_count t)).
Proof.
  assert (sound (root b)) as [Hwf Havl].
  { induction He as [|t b Hl E|b pos t b' _ IH Hl E|b pos n b' _ IH E|b pos n t b' _ IH Hl E].
    - split; [apply wf_empty|done].
    - apply outcome_bind_done in E as (n & E & [= <-]). by eapply build_sound.
    - by eapply insert_sound.
    - by eapply delete_sound.
    - apply outcome_bind_done in E as (b1 & E1 & E2). eapply insert_sound; [|done|exact E2]. by eapply delete_sound. }
  split; [done|]. split; [done|]. split; [|split; [|split]].
  - unfold len. rewrite text_len_contents by done.
    destruct (decide (contents (root b) = [])) as [E|E]; [rewrite (empty_height _ Hwf E); lia|].
    pose proof (avl_size _ Hwf Havl E) as Hs.
    apply Nat.log2_le_mono in Hs. rewrite Nat.log2_pow2 in Hs by lia.
    pose proof (Nat.div_mod_eq (height (root b)) 2). pose proof (Nat.mod_upper_bound (height (root b)) 2). lia.
  - intros pos t Hl H5. destruct (insert_text b (contents (root b)) pos t) as (b' & E & _); [done|].
    exists b'. split; [done|]. eapply edited_insert; [done|by apply builds_balanced_few|done].
  - intros pos n. destruct (delete_text b (contents (root b)) pos n) as (b' & E & _); [done|].
    exists b'. split; [done|]. by eapply edited_delete.
  - intros t. destruct (build_holds t) as (n & E & _). exists (mkRope n). unfold from_slice. rewrite E.
    split; [done|]. by apply build_low.
Qed.

(** A text of three leaves is loaded, two leaves are put into it, a code point
    is typed, and a part across the leaves is cut out. *)
Definition sample_edits : panics RopeBuffer :=
  b ← from_slice (repeat 97%Z (3 * LEAF_MAX));
  b ← insert b 3000 (repeat 98%Z (2 * LEAF_MAX));
  b ← insert b 1 [10%Z];
  b ← delete b 5000 1700;
  replace b 9 2 [99; 99; 99]%Z.
Definition few (t : text) : bool := (chunk_count t <=? 8) && negb (chunk_count t =? 5).
Lemma few_leaves t : few t = true → builds_balanced t.
Proof. intros [H1%Nat.leb_le H2%negb_true_iff%Nat.eqb_neq]%andb_true_iff. by apply builds_balanced_few. Qed.
Lemma edits_balanced_witness :
  ∃ b, sample_edits = Done b ∧ edited b ∧ avl (root b) ∧ height (root b) = 3 ∧ len b = 8542.
Proof.
  destruct sample_edits as [b| |] eqn:E; [|vm_compute in E; discriminate..]. exists b. split; [done|].
  assert (Hb : match sample_edits with Done b => (height (root b), len b) | _ => (0, 0) end = (3, 8542)) by (vm_compute; reflexivity).
  rewrite E in Hb. assert (He : edited b).
  { unfold sample_edits in E. apply outcome_bind_done in E as (b1 & E1 & (b2 & E2 & (b3 & E3 & (b4 & E4 & E5)%outcome_bind_done)%outcome_bind_done)%outcome_bind_done).
    assert (Hf : forallb few [repeat 97%Z (3 * LEAF_MAX); repeat 98%Z (2 * LEAF_MAX); [10%Z]; [99; 99; 99]%Z] = true)
      by (vm_compute; reflexivity).
    cbn [forallb] in Hf. rewrite !andb_true_iff in Hf. destruct Hf as (F1%few_leaves & F2%few_leaves & F3%few_leaves & F4%few_leaves & _).
    pose proof (edited_load _ _ F1 E1) as H1. pose proof (edited_insert _ _ _ _ H1 F2 E2) as H2.
    pose proof (edited_insert _ _ _ _ H2 F3 E3) as H3.
    exact (edited_replace _ _ _ _ _ (edited_delete _ _ _ _ H3 E4) F4 E5). }
  split; [done|]. destruct (edits_balanced b He) as (_ & Ha & _). split; [done|].
  split; [exact (f_equal fst Hb)|exact (f_equal snd Hb)].
Defined.

(** ** A text of five leaves

    The leaves are merged in pairs, and the odd one waits until the others are
    one tree. *)
Fixpoint avlb (n : Node) : bool :=
  match n with
  | Leaf _ _ => true
  | Branch l r _ _ _ h => avlb l && avlb r && (abs_diff (height l) (height r) <=? 1)
  end.
Lemma avl_avlb n : avl n → avlb n = true.
Proof.
  induction n as [|l IHl r IHr a b c d]; [done|]. intros (Al & Ar & H1 & H2 & _). cbn.
  rewrite IHl, IHr by done. apply Nat.leb_le. unfold abs_diff. lia.
Qed.
Theorem five_leaves_unbalanced :
  ∃ n, build_rope_from_slice (repeat 97%Z (4 * LEAF_MAX + 1)) = Done n ∧ ¬ avl n.
Proof.
  destruct (build_holds (repeat 97%Z (4 * LEAF_MAX + 1))) as (n & E & _). exists n. split; [done|].
  intros Ha%avl_avlb.
  assert (match build_rope_from_slice (repeat 97%Z (4 * LEAF_MAX + 1)) with Done n => avlb n | _ => true end = false) as H
    by (vm_compute; reflexivity).
  rewrite E in H. congruence.
Qed.
