(* ===== verification/Utf8Facts.v ===== *)
(** * UTF-8 round trips

    A text written out as UTF-8 reads back as it was, with LF or CRLF line
    ends, where its code points are characters and none is CR; a leading byte
    order mark is taken off. *)
From stdpp Require Import strings.
From S2P Require Import Prelude Bytes Rope.

(** ** Bits *)

Lemma lor_add n a b : 0 ≤ n → 0 ≤ b < 2 ^ n → Z.lor (a * 2 ^ n) b = a * 2 ^ n + b.
Proof.
  intros Hn Hb. rewrite <- Z.shiftl_mul_pow2 by done. symmetry. apply Z.add_nocarry_lor, Z.bits_inj'. intros i Hi.
  rewrite Z.land_spec, Z.bits_0, Z.shiftl_spec by done. destruct (Z.lt_ge_cases i n).
  - by rewrite (Z.testbit_neg_r _ (i - n)) by lia.
  - by rewrite <- (Z.mod_small b (2 ^ n)), Z.mod_pow2_bits_high, andb_false_r by lia.
Qed.
Lemma or_bits n a b c : 0 ≤ n → 0 ≤ b < 2 ^ n → c = a * 2 ^ n + b → Z.lor (Z.shiftl a n) b = c.
Proof. intros. rewrite Z.shiftl_mul_pow2, lor_add; lia. Qed.

(** A statement about the small numbers, checked on each. *)
Lemma small_all (p : Z → bool) (n : nat) :
  forallb p (Z.of_nat <$> seq 0 n) = true → ∀ z, 0 ≤ z < Z.of_nat n → p z = true.
Proof.
  rewrite forallb_forall. intros H z Hz. apply H. rewrite <- list_elem_of_In. apply list_elem_of_fmap.
  exists (Z.to_nat z). split; [lia|]. apply elem_of_seq. lia.
Qed.

Lemma tail_bits c : 0 ≤ c → cont_bits (tail_byte c) = Some (c mod 64).
Proof.
  intros Hc. unfold cont_bits, tail_byte. change 63 with (Z.ones 6). rewrite Z.land_ones by lia. change (2 ^ 6) with 64.
  pose proof (Z.mod_pos_bound c 64 ltac:(lia)) as Hm. revert Hm. generalize (c mod 64). clear. intros z Hz.
  assert ((let b := Z.lor 128 z in (b <? 256) && (0 <=? b) && (Z.land b 192 =? 128) && (Z.land b (Z.ones 6) =? z)) = true) as H.
  { refine (small_all (λ z, let b := Z.lor 128 z in (b <? 256) && (0 <=? b) && (Z.land b 192 =? 128) && (Z.land b (Z.ones 6) =? z)) 64 _ z Hz). by vm_compute. }
  cbv zeta in H. rewrite !andb_true_iff in H. destruct H as [[[H1 H2] H3] H4].
  rewrite byte_val_of by lia. rewrite H3. f_equal. lia.
Qed.

(** The lead bytes: the tests the decoder makes of them, and the bits it
    keeps. *)
Definition is_lead2 (b : Z) : bool := (128 <=? b) && (b <? 256) && (Z.land b 224 =? 192).
Definition is_lead3 (b : Z) : bool :=
  (128 <=? b) && (b <? 256) && negb (Z.land b 224 =? 192) && (Z.land b 240 =? 224).
Definition is_lead4 (b : Z) : bool :=
  (128 <=? b) && (b <? 256) && negb (Z.land b 224 =? 192) && negb (Z.land b 240 =? 224) && (Z.land b 248 =? 240).
Definition lead_ok (test : Z → bool) (mark mask z : Z) : bool :=
  test (Z.lor mark z) && (Z.land (Z.lor mark z) mask =? z).
Lemma lead2_ok z : 0 ≤ z < 32 → lead_ok is_lead2 192 31 z = true.
Proof. refine (small_all (lead_ok is_lead2 192 31) 32 _ z). by vm_compute. Qed.
Lemma lead3_ok z : 0 ≤ z < 16 → lead_ok is_lead3 224 15 z = true.
Proof. refine (small_all (lead_ok is_lead3 224 15) 16 _ z). by vm_compute. Qed.
Lemma lead4_ok z : 0 ≤ z < 8 → lead_ok is_lead4 240 7 z = true.
Proof. refine (small_all (lead_ok is_lead4 240 7) 8 _ z). by vm_compute. Qed.

(** ** One character *)

#[local] Ltac lead lem H :=
  pose proof (lem _ H) as L; unfold lead_ok, is_lead2, is_lead3, is_lead4 in L;
  rewrite !andb_true_iff, ?negb_true_iff in L; destruct_and! L; cbn [decode_utf8];
  rewrite byte_val_of, (proj2 (Z.eqb_neq _ 13)), (proj2 (Z.ltb_ge _ _)) by lia.
#[local] Ltac dlia := Z.to_euclidean_division_equations; lia.
#[local] Ltac tests := repeat match goal with E : (_ =? _) = _ |- _ => rewrite E in *; clear E end.

Lemma decode_ascii cp s : 0 ≤ cp < 128 → cp ≠ 13 → decode_utf8 (String (byte_of cp) s) = cp :: decode_utf8 s.
Proof.
  intros Hr Hc. cbn [decode_utf8]. rewrite byte_val_of by lia.
  by rewrite (proj2 (Z.eqb_neq _ _)), (proj2 (Z.ltb_lt _ _)) by lia.
Qed.
Lemma decode_2 cp s :
  128 ≤ cp < 2048 →
  decode_utf8 (String (byte_of (Z.lor 192 (Z.shiftr cp 6))) (String (tail_byte cp) s)) = cp :: decode_utf8 s.
Proof.
  intros Hr. rewrite Z.shiftr_div_pow2 by lia. change (2 ^ 6) with 64.
  assert (0 ≤ cp / 64 < 32) as Hd by dlia.
  lead lead2_ok Hd. tests. rewrite tail_bits by lia. f_equal. apply or_bits; dlia.
Qed.
Lemma decode_3 cp s :
  2048 ≤ cp < 65536 →
  decode_utf8 (String (byte_of (Z.lor 224 (Z.shiftr cp 12)))
    (String (tail_byte (Z.shiftr cp 6)) (String (tail_byte cp) s))) = cp :: decode_utf8 s.
Proof.
  intros Hr. rewrite !Z.shiftr_div_pow2 by lia. change (2 ^ 6) with 64. change (2 ^ 12) with 4096.
  assert (0 ≤ cp / 4096 < 16) as Hd by dlia.
  lead lead3_ok Hd. tests. rewrite !tail_bits by dlia. f_equal.
  rewrite <- Z.lor_assoc, (or_bits 6 _ _ (cp mod 4096)) by dlia. apply or_bits; dlia.
Qed.
Lemma decode_4 cp s :
  65536 ≤ cp < 1114112 →
  decode_utf8 (String (byte_of (Z.lor 240 (Z.shiftr cp 18)))
    (String (tail_byte (Z.shiftr cp 12)) (String (tail_byte (Z.shiftr cp 6)) (String (tail_byte cp) s)))) =
  cp :: decode_utf8 s.
Proof.
  intros Hr. rewrite !Z.shiftr_div_pow2 by lia. change (2 ^ 6) with 64. change (2 ^ 12) with 4096. change (2 ^ 18) with 262144.
  assert (0 ≤ cp / 262144 < 8) as Hd by dlia.
  lead lead4_ok Hd. tests. rewrite !tail_bits by dlia. f_equal.
  rewrite <- !Z.lor_assoc, (or_bits 6 _ _ (cp mod 4096)), (or_bits 12 _ _ (cp mod 262144)) by dlia. apply or_bits; dlia.
Qed.

Lemma is_scalar_range cp : is_scalar cp = true → 0 ≤ cp < 1114112.
Proof. unfold is_scalar. rewrite orb_true_iff, !andb_true_iff. lia. Qed.
Lemma decode_char cp s :
  is_scalar cp = true → cp ≠ 13 → decode_utf8 (encode_char cp +:+ s) = cp :: decode_utf8 s.
Proof.
  intros Hr%is_scalar_range Hc. unfold encode_char.
  destruct (Z.ltb_spec cp 128); [apply decode_ascii; lia|].
  destruct (Z.ltb_spec cp 2048); [apply decode_2; lia|].
  destruct (Z.ltb_spec cp 65536); [apply decode_3; lia|apply decode_4; lia].
Qed.


(** ** Whole texts *)

(** What is kept of a code point that is no character. *)
Definition scrub (cp : Z) : Z := if is_scalar cp then cp else REPLACEMENT.
Lemma scrub_scalar cp : is_scalar (scrub cp) = true.
Proof. unfold scrub. by destruct (is_scalar cp) eqn:E. Qed.
Lemma scrub_not_cr cp : cp ≠ 13 → scrub cp ≠ 13.
Proof. unfold scrub. destruct (is_scalar cp); [done|]. by vm_compute. Qed.
Lemma scrub_id cp : is_scalar cp = true → scrub cp = cp.
Proof. unfold scrub. by intros ->. Qed.

(** [lf_text.replace('\n', CR LF)]. *)
Fixpoint crlf (s : string) : string :=
  match s with
  | EmptyString => ""
  | String b s' => if byte_val b =? 10 then String (byte_of 13) (String b (crlf s')) else String b (crlf s')
  end.

Lemma crlf_app a b : crlf (a +:+ b) = crlf a +:+ crlf b.
Proof.
  induction a as [|c a IH]; [done|]. cbn [crlf String.append]. rewrite IH. by destruct (_ =? 10).
Qed.
Lemma crlf_plain s : str_all (λ b, negb (byte_val b =? 10)) s = true → crlf s = s.
Proof.
  induction s as [|b s IH]; [done|]. cbn [crlf str_all]. intros [Hb%negb_true_iff Hs]%andb_true_iff. by rewrite Hb, IH.
Qed.
Definition high (b : ascii) : bool := 128 <=? byte_val b.
Lemma tail_high c : high (tail_byte c) = true.
Proof.
  unfold high, tail_byte. change 63 with (Z.ones 6). rewrite Z.land_ones by lia.
  pose proof (Z.mod_pos_bound c (2 ^ 6) ltac:(lia)) as Hm. revert Hm. generalize (c mod 2 ^ 6). clear. intros z Hz.
  refine (small_all (λ z, 128 <=? byte_val (byte_of (Z.lor 128 z))) 64 _ z Hz). by vm_compute.
Qed.
Lemma lead_high test mark mask z :
  (∀ b, test b = true → 128 ≤ b < 256) → lead_ok test mark mask z = true → high (byte_of (Z.lor mark z)) = true.
Proof.
  intros Ht [H%Ht _]%andb_true_iff. unfold high. rewrite byte_val_of by lia. lia.
Qed.
Lemma encode_high cp : 128 ≤ cp < 1114112 → str_all high (encode_char cp) = true.
Proof.
  intros Hr. unfold encode_char. rewrite (proj2 (Z.ltb_ge _ _)) by lia. rewrite !Z.shiftr_div_pow2 by lia.
  assert (∀ t b, (t = is_lead2 ∨ t = is_lead3 ∨ t = is_lead4) → t b = true → 128 ≤ b < 256) as Ht.
  { intros t b [-> | [-> | ->]]; unfold is_lead2, is_lead3, is_lead4; rewrite !andb_true_iff; lia. }
  destruct (Z.ltb_spec cp 2048); [|destruct (Z.ltb_spec cp 65536)]; cbn [str_all]; rewrite !tail_high, ?andb_true_r.
  - apply (lead_high is_lead2 _ 31); [intros b; apply Ht; auto|apply lead2_ok; dlia].
  - apply (lead_high is_lead3 _ 15); [intros b; apply Ht; auto|apply lead3_ok; dlia].
  - apply (lead_high is_lead4 _ 7); [intros b; apply Ht; auto|apply lead4_ok; dlia].
Qed.

Lemma crlf_char cp :
  is_scalar cp = true → crlf (encode_char cp) = if cp =? 10 then String (byte_of 13) (encode_char cp) else encode_char cp.
Proof.
  intros Hr%is_scalar_range. destruct (Z.lt_ge_cases cp 128) as [Hlt|Hge].
  - unfold encode_char. rewrite (proj2 (Z.ltb_lt _ _)) by done. cbn [crlf]. by rewrite byte_val_of by lia.
  - rewrite (proj2 (Z.eqb_neq _ _)) by lia. apply crlf_plain.
    assert (str_all high (encode_char cp) = true) as H by (apply encode_high; lia).
    revert H. generalize (encode_char cp). induction s as [|b s IH]; [done|]. cbn [str_all].
    intros [Hb Hs]%andb_true_iff. rewrite IH, andb_true_r by done. unfold high in Hb. lia.
Qed.

Lemma decode_encode cps : Forall (λ cp, cp ≠ 13) cps → decode_utf8 (codepoints_to_utf8 cps) = scrub <$> cps.
Proof.
  induction 1 as [|cp l Hc _ IH]; [done|]. cbn [codepoints_to_utf8 fmap list_fmap].
  change (if is_scalar cp then cp else REPLACEMENT) with (scrub cp).
  rewrite decode_char by auto using scrub_scalar, scrub_not_cr. by rewrite IH.
Qed.
Lemma decode_crlf cps : Forall (λ cp, cp ≠ 13) cps → decode_utf8 (crlf (codepoints_to_utf8 cps)) = scrub <$> cps.
Proof.
  induction 1 as [|cp l Hc _ IH]; [done|]. cbn [codepoints_to_utf8 fmap list_fmap].
  change (if is_scalar cp then cp else REPLACEMENT) with (scrub cp).
  rewrite crlf_app, crlf_char by apply scrub_scalar. destruct (Z.eqb_spec (scrub cp) 10) as [E|E].
  - rewrite E. change (String (byte_of 13) (encode_char 10) +:+ crlf (codepoints_to_utf8 l))
      with (String (byte_of 13) (String (byte_of 10) (crlf (codepoints_to_utf8 l)))).
    cbn [decode_utf8]. rewrite !byte_val_of by lia. cbn [Z.eqb]. by rewrite IH.
  - rewrite decode_char by auto using scrub_scalar, scrub_not_cr. by rewrite IH.
Qed.

(** A text without its byte order mark. *)
Definition drop_bom (t : text) : text :=
  match t with cp :: t' => if cp =? 65279 then t' else t | [] => [] end.

Lemma bom_char : BOM = encode_char 65279.
Proof. by vm_compute. Qed.
Lemma utf8_bom s t :
  decode_utf8 s = t → (∀ t', t = 65279 :: t' → ∃ s', s = BOM +:+ s') → utf8_to_codepoints s = drop_bom t.
Proof.
  intros Hs Hb. unfold utf8_to_codepoints. destruct (strip_prefix BOM s) as [s'|] eqn:E.
  - apply strip_prefix_Some in E. rewrite <- Hs, E, bom_char, decode_char by done. done.
  - rewrite Hs. destruct t as [|cp t]; [done|]. cbn [drop_bom]. destruct (Z.eqb_spec cp 65279) as [->|]; [|done].
    destruct (Hb t eq_refl) as (s' & E'%strip_prefix_Some). congruence.
Qed.
Lemma scrub_bom cp : scrub cp = 65279 → cp = 65279.
Proof. unfold scrub. by destruct (is_scalar cp). Qed.

Lemma utf8_roundtrip cps :
  Forall (λ cp, cp ≠ 13) cps → utf8_to_codepoints (codepoints_to_utf8 cps) = drop_bom (scrub <$> cps).
Proof.
  intros Hcr. apply utf8_bom; [by apply decode_encode|]. intros t' E. destruct cps as [|cp cps]; [done|].
  injection E as E%scrub_bom _. subst cp. by eexists.
Qed.
Lemma crlf_roundtrip cps :
  Forall (λ cp, cp ≠ 13) cps → utf8_to_codepoints (crlf (codepoints_to_utf8 cps)) = drop_bom (scrub <$> cps).
Proof.
  intros Hcr. apply utf8_bom; [by apply decode_crlf|]. intros t' E. destruct cps as [|cp cps]; [done|].
  injection E as E%scrub_bom _. subst cp. cbn [codepoints_to_utf8]. rewrite crlf_app, crlf_char by done. by eexists.
Qed.

(** Sequences no UTF-8 text has are read as code points all the same: a CR in
    two bytes, half of a surrogate pair, a number behind the last character. *)
Lemma overlong_accepted :
  utf8_to_codepoints (String (byte_of 192) (String (byte_of 141) "")) = [13] ∧
  utf8_to_codepoints (String (byte_of 237) (String (byte_of 160) (String (byte_of 128) ""))) = [55296] ∧
  utf8_to_codepoints (String (byte_of 247) (String (byte_of 191) (String (byte_of 191) (String (byte_of 191) "")))) = [2097151].
Proof. by vm_compute. Qed.
