(* ===== verification/Edit.v ===== *)
(** * The editor ([src/crates/igui/src/fedit.rs])

    The editing core of [FeditState] and the handlers of its window: cursor
    and selection, the edits with their undo records, motion, clipboard, files
    and checks.  Painting is not modelled; what painting alone uses (fonts,
    colours, the tokens) has no field here.  Times a Win32 call answers, the
    answer is in the [Host]. *)
From stdpp Require Import strings.
From S2P Require Import Prelude Bytes Rope RopeBuffer.
#[local] Open Scope nat_scope.

#[global] Arguments LEAF_MAX : simpl never.

(** ** Data *)

Inductive UndoOp :=
  | Inserted (start : nat) (ins : text) (cursor_before cursor_after : nat)
  | Deleted (start : nat) (del : text) (cursor_before cursor_after : nat)
  | Replaced (start : nat) (removed inserted : text) (cursor_before cursor_after : nat).
Inductive CoalesceKind := Insert | Backspace.
#[global] Instance CoalesceKind_eq : EqDecision CoalesceKind.
Proof. solve_decision. Defined.

Definition UNDO_CAP : nat := 1024.
#[global] Arguments UNDO_CAP : simpl never.
Definition TAB_WIDTH : nat := 2.

Inductive FileLang := Forth | Masm.
Record Diagnostic := mkDiag { diag_line : nat; diag_column : nat; diag_message : string }.

(** What the editor sends: text to the clipboard, source to the worker, bytes
    to a file, a file to a new window. *)
Inductive Output :=
  | Clipboard (utf8 : string) | EvalBuffer (source : string) | WriteFile (path utf8 : string) | OpenFile (path : string).

(** [undo] and [redo] have the latest entry first; [view_rows] is what
    [visible_rows] computes from the window's size; [sent] has the latest
    output first. *)
Record FeditState := mkFedit {
  buffer : RopeBuffer; cursor : nat; anchor : nat; pref_col : nat; scroll_top : nat;
  file_path : option string; dirty : bool; lang : FileLang; view_rows : nat; selecting_drag : bool;
  undo_ops : list UndoOp; redo_ops : list UndoOp; coalesce : option CoalesceKind;
  tokens_dirty : bool; diagnostics : list Diagnostic; diagnostics_stale : bool; sent : list Output }.

Definition new_state : FeditState :=
  mkFedit new_buffer 0 0 0 0 None false Forth 0 false [] [] None true [] true [].

(** The surroundings of one call. *)
Record Host := mkHost {
  shift_down : bool; ctrl_down : bool;
  clipboard_set : string → bool; clipboard_get : option string;
  read_file : string → option string; write_file : string → string → bool;
  checker : option (string → list Diagnostic);
  open_file_dialog : option string; save_file_dialog : option string }.

(** Assignments to the fields. *)
Definition put_buffer (x : RopeBuffer) (s : FeditState) : FeditState :=
  mkFedit x (cursor s) (anchor s) (pref_col s) (scroll_top s) (file_path s) (dirty s) (lang s) (view_rows s)
    (selecting_drag s) (undo_ops s) (redo_ops s) (coalesce s) (tokens_dirty s) (diagnostics s) (diagnostics_stale s)
    (sent s).
Definition put_cursor (x : nat) (s : FeditState) : FeditState :=
  mkFedit (buffer s) x (anchor s) (pref_col s) (scroll_top s) (file_path s) (dirty s) (lang s) (view_rows s)
    (selecting_drag s) (undo_ops s) (redo_ops s) (coalesce s) (tokens_dirty s) (diagnostics s) (diagnostics_stale s)
    (sent s).
Definition put_anchor (x : nat) (s : FeditState) : FeditState :=
  mkFedit (buffer s) (cursor s) x (pref_col s) (scroll_top s) (file_path s) (dirty s) (lang s) (view_rows s)
    (selecting_drag s) (undo_ops s) (redo_ops s) (coalesce s) (tokens_dirty s) (diagnostics s) (diagnostics_stale s)
    (sent s).
Definition put_pref_col (x : nat) (s : FeditState) : FeditState :=
  mkFedit (buffer s) (cursor s) (anchor s) x (scroll_top s) (file_path s) (dirty s) (lang s) (view_rows s)
    (selecting_drag s) (undo_ops s) (redo_ops s) (coalesce s) (tokens_dirty s) (diagnostics s) (diagnostics_stale s)
    (sent s).
Definition put_scroll_top (x : nat) (s : FeditState) : FeditState :=
  mkFedit (buffer s) (cursor s) (anchor s) (pref_col s) x (file_path s) (dirty s) (lang s) (view_rows s)
    (selecting_drag s) (undo_ops s) (redo_ops s) (coalesce s) (tokens_dirty s) (diagnostics s) (diagnostics_stale s)
    (sent s).
Definition put_file_path (x : option string) (s : FeditState) : FeditState :=
  mkFedit (buffer s) (cursor s) (anchor s) (pref_col s) (scroll_top s) x (dirty s) (lang s) (view_rows s)
    (selecting_drag s) (undo_ops s) (redo_ops s) (coalesce s) (tokens_dirty s) (diagnostics s) (diagnostics_stale s)
    (sent s).
Definition put_dirty (x : bool) (s : FeditState) : FeditState :=
  mkFedit (buffer s) (cursor s) (anchor s) (pref_col s) (scroll_top s) (file_path s) x (lang s) (view_rows s)
    (selecting_drag s) (undo_ops s) (redo_ops s) (coalesce s) (tokens_dirty s) (diagnostics s) (diagnostics_stale s)
    (sent s).
Definition put_lang (x : FileLang) (s : FeditState) : FeditState :=
  mkFedit (buffer s) (cursor s) (anchor s) (pref_col s) (scroll_top s) (file_path s) (dirty s) x (view_rows s)
    (selecting_drag s) (undo_ops s) (redo_ops s) (coalesce s) (tokens_dirty s) (diagnostics s) (diagnostics_stale s)
    (sent s).
Definition put_view_rows (x : nat) (s : FeditState) : FeditState :=
  mkFedit (buffer s) (cursor s) (anchor s) (pref_col s) (scroll_top s) (file_path s) (dirty s) (lang s) x
    (selecting_drag s) (undo_ops s) (redo_ops s) (coalesce s) (tokens_dirty s) (diagnostics s) (diagnostics_stale s)
    (sent s).
Definition put_selecting_drag (x : bool) (s : FeditState) : FeditState :=
  mkFedit (buffer s) (cursor s) (anchor s) (pref_col s) (scroll_top s) (file_path s) (dirty s) (lang s) (view_rows s)
    x (undo_ops s) (redo_ops s) (coalesce s) (tokens_dirty s) (diagnostics s) (diagnostics_stale s) (sent s).
Definition put_undo_ops (x : list UndoOp) (s : FeditState) : FeditState :=
  mkFedit (buffer s) (cursor s) (anchor s) (pref_col s) (scroll_top s) (file_path s) (dirty s) (lang s) (view_rows s)
    (selecting_drag s) x (redo_ops s) (coalesce s) (tokens_dirty s) (diagnostics s) (diagnostics_stale s) (sent s).
Definition put_redo_ops (x : list UndoOp) (s : FeditState) : FeditState :=
  mkFedit (buffer s) (cursor s) (anchor s) (pref_col s) (scroll_top s) (file_path s) (dirty s) (lang s) (view_rows s)
    (selecting_drag s) (undo_ops s) x (coalesce s) (tokens_dirty s) (diagnostics s) (diagnostics_stale s) (sent s).
Definition put_coalesce (x : option CoalesceKind) (s : FeditState) : FeditState :=
  mkFedit (buffer s) (cursor s) (anchor s) (pref_col s) (scroll_top s) (file_path s) (dirty s) (lang s) (view_rows s)
    (selecting_drag s) (undo_ops s) (redo_ops s) x (tokens_dirty s) (diagnostics s) (diagnostics_stale s) (sent s).
Definition put_tokens_dirty (x : bool) (s : FeditState) : FeditState :=
  mkFedit (buffer s) (cursor s) (anchor s) (pref_col s) (scroll_top s) (file_path s) (dirty s) (lang s) (view_rows s)
    (selecting_drag s) (undo_ops s) (redo_ops s) (coalesce s) x (diagnostics s) (diagnostics_stale s) (sent s).
Definition put_diagnostics (x : list Diagnostic) (s : FeditState) : FeditState :=
  mkFedit (buffer s) (cursor s) (anchor s) (pref_col s) (scroll_top s) (file_path s) (dirty s) (lang s) (view_rows s)
    (selecting_drag s) (undo_ops s) (redo_ops s) (coalesce s) (tokens_dirty s) x (diagnostics_stale s) (sent s).
Definition put_diagnostics_stale (x : bool) (s : FeditState) : FeditState :=
  mkFedit (buffer s) (cursor s) (anchor s) (pref_col s) (scroll_top s) (file_path s) (dirty s) (lang s) (view_rows s)
    (selecting_drag s) (undo_ops s) (redo_ops s) (coalesce s) (tokens_dirty s) (diagnostics s) x (sent s).
Definition put_sent (x : list Output) (s : FeditState) : FeditState :=
  mkFedit (buffer s) (cursor s) (anchor s) (pref_col s) (scroll_top s) (file_path s) (dirty s) (lang s) (view_rows s)
    (selecting_drag s) (undo_ops s) (redo_ops s) (coalesce s) (tokens_dirty s) (diagnostics s) (diagnostics_stale s)
    x.

Declare Scope edit_scope.
Notation "s ▷ f" := (f s) (at level 45, left associativity, only parsing) : edit_scope.
#[local] Open Scope edit_scope.
Definition send (o : Output) (s : FeditState) : FeditState := s ▷ put_sent (o :: sent s).

(** ** Cursor and selection *)

Definition cursor_rc (s : FeditState) : panics (nat * nat) := offset_to_line_col (buffer s) (cursor s).
Definition cursor_row (s : FeditState) : panics nat := '(r, _) ← cursor_rc s; Done r.
Definition cursor_col (s : FeditState) : panics nat := '(_, c) ← cursor_rc s; Done c.

Definition selection_range (s : FeditState) : option (nat * nat) :=
  if cursor s =? anchor s then None
  else if anchor s <? cursor s then Some (anchor s, cursor s) else Some (cursor s, anchor s).
Definition is_some {A} (o : option A) : bool := match o with Some _ => true | None => false end.

Definition line_len_cps (s : FeditState) (row : nat) : panics nat :=
  match line_range (buffer s) row with Some (b, e) => checked_sub e b | None => Done 0 end.
(** The characters of a [String] written from code points. *)
Definition chars_of (cps : text) : text := (λ cp, if is_scalar cp then cp else REPLACEMENT) <$> cps.
(** The characters of a row's text. *)
Definition line_text (s : FeditState) (row : nat) : text := chars_of (get_line (buffer s) row).
Definition selected_text (s : FeditState) : string :=
  match selection_range s with
  | Some (lo, hi) => codepoints_to_utf8 (slice (buffer s) lo hi)
  | None => ""
  end.

Definition ensure_cursor_visible (s : FeditState) : panics FeditState :=
  let visible := view_rows s in
  if visible =? 0 then Done s
  else
    cur_row ← cursor_row s;
    Done (if cur_row <? scroll_top s then s ▷ put_scroll_top cur_row
          else if scroll_top s + visible <=? cur_row then s ▷ put_scroll_top (cur_row + 1 - visible)
          else s).

Definition set_cursor_offset (offset : nat) (extend : bool) (s : FeditState) : panics FeditState :=
  let clamped := Nat.min offset (len (buffer s)) in
  let s1 := s ▷ put_cursor clamped in
  let s2 := if extend then s1 else s1 ▷ put_anchor clamped in
  ensure_cursor_visible (s2 ▷ put_coalesce None).
Definition set_cursor_rc (row col : nat) (extend : bool) (s : FeditState) : panics FeditState :=
  let last_row := line_count (buffer s) - 1 in
  let r := Nat.min row last_row in
  line_len ← line_len_cps s r;
  offset ← line_col_to_offset (buffer s) r (Nat.min col line_len);
  set_cursor_offset offset extend s.

(** [self.pref_col = self.cursor_col()]. *)
Definition set_pref (s : FeditState) : panics FeditState := c ← cursor_col s; Done (s ▷ put_pref_col c).
(** [self.cursor = at; self.anchor = at]. *)
Definition point (at_ : nat) (s : FeditState) : FeditState := s ▷ put_cursor at_ ▷ put_anchor at_.

(** ** Changing the text *)

Definition touched (s : FeditState) : FeditState := s ▷ put_tokens_dirty true ▷ put_diagnostics_stale true.
Definition splice_in_utf8 (offset : nat) (utf8 : string) (s : FeditState) : panics (nat * FeditState) :=
  if bool_decide (utf8 = ""%string) then Done (offset, s)
  else
    let cps := utf8_to_codepoints utf8 in
    b ← insert (buffer s) offset cps; Done (offset + length cps, touched s ▷ put_buffer b).
Definition splice_in_cps (offset : nat) (t : text) (s : FeditState) : panics (nat * FeditState) :=
  match t with
  | [] => Done (offset, s)
  | _ => b ← insert (buffer s) offset t; Done (offset + length t, touched s ▷ put_buffer b)
  end.
Definition splice_out (lo hi : nat) (s : FeditState) : panics (text * FeditState) :=
  if hi <=? lo then Done ([], s)
  else
    let removed := slice (buffer s) lo hi in
    b ← delete (buffer s) lo (hi - lo); Done (removed, touched s ▷ put_buffer b).

(** [self.undo.remove(0)] drops the oldest entry. *)
Definition push_undo (op : UndoOp) (s : FeditState) : FeditState :=
  let ops := op :: undo_ops s in
  s ▷ put_undo_ops (if UNDO_CAP <? length ops then take (length ops - 1) ops else ops).

Definition delete_selection_to_undo (s : FeditState) : panics (bool * FeditState) :=
  match selection_range s with
  | None => Done (false, s)
  | Some (lo, hi) =>
      let cursor_before := cursor s in
      '(removed, s1) ← splice_out lo hi s;
      s2 ← set_pref (point lo s1);
      Done (true, s2 ▷ put_dirty true ▷ push_undo (Deleted lo removed cursor_before lo) ▷ put_coalesce None)
  end.

(** The record of an insertion, taken into the latest one where it continues
    its typing. *)
Definition record_insert (extending : bool) (start : nat) (cps : text) (cursor_before end_ : nat)
    (s : FeditState) : FeditState :=
  match undo_ops s with
  | Inserted prev_start prev_text before _ :: ops =>
      if extending && (prev_start + length prev_text =? start)
      then s ▷ put_undo_ops (Inserted prev_start (prev_text ++ cps) before end_ :: ops)
      else s ▷ push_undo (Inserted start cps cursor_before end_)
  | _ => s ▷ push_undo (Inserted start cps cursor_before end_)
  end.
Definition do_insert (utf8 : string) (kind : option CoalesceKind) (s : FeditState) : panics FeditState :=
  s1 ← (if is_some (selection_range s) then '(_, s') ← delete_selection_to_undo s; Done s' else Done s);
  let start := cursor s1 in
  match utf8_to_codepoints utf8 with
  | [] => Done s1
  | cps =>
      '(end_, s2) ← splice_in_cps start cps s1;
      s3 ← set_pref (point end_ s2);
      let s4 := s3 ▷ put_dirty true ▷ put_redo_ops [] in
      let extending := bool_decide (kind = Some Insert) && bool_decide (coalesce s4 = Some Insert) in
      ensure_cursor_visible (s4 ▷ record_insert extending start cps start end_ ▷ put_coalesce kind)
  end.
Definition do_replace (start end_ : nat) (new_cps : text) (cursor_after : nat) (s : FeditState) : panics FeditState :=
  let cursor_before := cursor s in
  '(removed, s1) ← splice_out start end_ s;
  '(_, s2) ← splice_in_cps start new_cps s1;
  s3 ← set_pref (point cursor_after s2);
  ensure_cursor_visible
    (s3 ▷ put_dirty true ▷ put_redo_ops [] ▷ put_coalesce None
        ▷ push_undo (Replaced start removed new_cps cursor_before cursor_after)).

(** ** Undo and redo *)

Definition undo_op (op : UndoOp) (s : FeditState) : panics (nat * FeditState) :=
  match op with
  | Inserted start t before _ => '(_, s1) ← splice_out start (start + length t) s; Done (before, s1)
  | Deleted start t before _ => '(_, s1) ← splice_in_cps start t s; Done (before, s1)
  | Replaced start removed inserted before _ =>
      '(_, s1) ← splice_out start (start + length inserted) s;
      '(_, s2) ← splice_in_cps start removed s1; Done (before, s2)
  end.
Definition undo (s : FeditState) : panics FeditState :=
  match undo_ops s with
  | [] => Done s
  | op :: ops =>
      '(restore_cursor, s1) ← undo_op op (s ▷ put_undo_ops ops);
      s2 ← set_pref (point restore_cursor s1);
      ensure_cursor_visible (s2 ▷ put_dirty true ▷ put_coalesce None ▷ put_redo_ops (op :: redo_ops s2))
  end.

Definition redo_op (op : UndoOp) (s : FeditState) : panics (nat * FeditState) :=
  match op with
  | Inserted start t _ after => '(_, s1) ← splice_in_cps start t s; Done (after, s1)
  | Deleted start t _ after => '(_, s1) ← splice_out start (start + length t) s; Done (after, s1)
  | Replaced start removed inserted _ after =>
      '(_, s1) ← splice_out start (start + length removed) s;
      '(_, s2) ← splice_in_cps start inserted s1; Done (after, s2)
  end.
Definition redo (s : FeditState) : panics FeditState :=
  match redo_ops s with
  | [] => Done s
  | op :: ops =>
      '(after, s1) ← redo_op op (s ▷ put_redo_ops ops);
      s2 ← set_pref (point after s1);
      ensure_cursor_visible (s2 ▷ put_dirty true ▷ put_coalesce None ▷ put_undo_ops (op :: undo_ops s2))
  end.

(** ** Typing *)

Definition insert_char (c : Z) (s : FeditState) : panics FeditState := do_insert (encode_char c) (Some Insert) s.
Definition insert_str (utf8 : string) (s : FeditState) : panics FeditState :=
  if bool_decide (utf8 = ""%string) then Done s else do_insert utf8 None s.

(** The scan both paren counters make, over one character: the depth, an [i32]
    that wraps around as in a release build, and whether it is in a string,
    behind a backslash, in a comment. *)
Record ParenScan := mkScan { depth : Z; in_string : bool; after_backslash : bool; in_comment : bool }.
Definition scan_start : ParenScan := mkScan 0 false false false.
Definition scan_char (p : ParenScan) (c : Z) : ParenScan :=
  if in_comment p then p
  else if after_backslash p then mkScan (depth p) (in_string p) false false
  else if (c =? 92)%Z && in_string p then mkScan (depth p) (in_string p) true false
  else if (c =? 34)%Z then mkScan (depth p) (negb (in_string p)) false false
  else if in_string p then p
  else if (c =? 59)%Z then mkScan (depth p) false false true
  else if (c =? 40)%Z then mkScan (i32_wrap (depth p + 1)) false false false
  else if (c =? 41)%Z then mkScan (i32_wrap (depth p - 1)) false false false
  else p.

Fixpoint take_while (p : Z → bool) (t : text) : text :=
  match t with c :: t' => if p c then c :: take_while p t' else [] | [] => [] end.
Definition is_blank (c : Z) : bool := ((c =? 32) || (c =? 9))%Z.
Definition compute_auto_indent (s : FeditState) : panics text :=
  cur_row ← cursor_row s; cur_col ← cursor_col s;
  if line_count (buffer s) <=? cur_row then Done []
  else
    let line := line_text s cur_row in
    let leading := take_while is_blank line in
    let p := foldl scan_char scan_start (take cur_col line) in
    Done (if (0 <? depth p)%Z then leading ++ [32; 32]%Z else leading).
Definition insert_newline (s : FeditState) : panics FeditState :=
  indent ← compute_auto_indent s; do_insert (codepoints_to_utf8 (NEWLINE :: indent)) None s.

(** Of the whole text; a newline ends a comment, and what is no character is
    passed over. *)
Definition balance_char (p : ParenScan) (cp : Z) : ParenScan :=
  if negb (is_scalar cp) then p
  else if (cp =? NEWLINE)%Z then mkScan (depth p) (in_string p) (after_backslash p) false
  else scan_char p cp.
Definition paren_balance (s : FeditState) : Z := depth (foldl balance_char scan_start (to_slice (buffer s))).

Definition record_backspace (extending : bool) (start : nat) (removed : text) (cursor_before : nat)
    (s : FeditState) : FeditState :=
  match undo_ops s with
  | Deleted prev_start prev_text before _ :: ops =>
      if extending && (prev_start =? cursor_before)
      then s ▷ put_undo_ops (Deleted start (removed ++ prev_text) before start :: ops)
      else s ▷ push_undo (Deleted start removed cursor_before start)
  | _ => s ▷ push_undo (Deleted start removed cursor_before start)
  end.
Definition backspace (s : FeditState) : panics FeditState :=
  '(deleted, s1) ← delete_selection_to_undo s;
  if deleted : bool then ensure_cursor_visible (s1 ▷ put_redo_ops [])
  else if cursor s1 =? 0 then Done s1
  else
    let cursor_before := cursor s1 in
    let start := cursor_before - 1 in
    '(removed, s2) ← splice_out start cursor_before s1;
    s3 ← set_pref (point start s2);
    let s4 := s3 ▷ put_dirty true ▷ put_redo_ops [] in
    let extending := bool_decide (coalesce s4 = Some Backspace) in
    ensure_cursor_visible (s4 ▷ record_backspace extending start removed cursor_before ▷ put_coalesce (Some Backspace)).
Definition delete_forward (s : FeditState) : panics FeditState :=
  '(deleted, s1) ← delete_selection_to_undo s;
  if deleted : bool then ensure_cursor_visible (s1 ▷ put_redo_ops [])
  else if len (buffer s1) <=? cursor s1 then Done s1
  else
    let cursor_before := cursor s1 in
    '(removed, s2) ← splice_out cursor_before (cursor_before + 1) s1;
    Done (s2 ▷ put_dirty true ▷ put_redo_ops [] ▷ put_coalesce None
             ▷ push_undo (Deleted cursor_before removed cursor_before cursor_before)).

(** ** Motion *)

Definition is_ws_cp (cp : Z) : bool := ((cp =? 32) || (cp =? 9) || (cp =? 10) || (cp =? 13) || (cp =? 12))%Z.
Definition cp_at (b : RopeBuffer) (i : nat) : panics Z := o ← char_at b i; Done (default 0%Z o).
(** [while i < end && p(char_at(i)) { i += 1 }], and back: at most [fuel]
    steps. *)
Fixpoint skip_forward (p : Z → bool) (b : RopeBuffer) (end_ : nat) (fuel i : nat) : panics nat :=
  if i <? end_ then
    cp ← cp_at b i;
    if p cp then match fuel with O => OutOfFuel | S fuel' => skip_forward p b end_ fuel' (i + 1) end else Done i
  else Done i.
Fixpoint skip_back (p : Z → bool) (b : RopeBuffer) (i : nat) : panics nat :=
  match i with
  | O => Done 0
  | S i' => cp ← cp_at b i'; if p cp then skip_back p b i' else Done i
  end.
Definition move_next_word (extend : bool) (s : FeditState) : panics FeditState :=
  let end_ := len (buffer s) in
  i ← skip_forward (λ c, negb (is_ws_cp c)) (buffer s) end_ end_ (cursor s);
  j ← skip_forward is_ws_cp (buffer s) end_ end_ i;
  s1 ← set_cursor_offset j extend s; set_pref s1.
Definition move_prev_word (extend : bool) (s : FeditState) : panics FeditState :=
  i ← skip_back is_ws_cp (buffer s) (cursor s);
  j ← skip_back (λ c, negb (is_ws_cp c)) (buffer s) i;
  s1 ← set_cursor_offset j extend s; set_pref s1.

(** The offset a motion that does not extend collapses the selection to. *)
Definition collapse (pick : nat * nat → nat) (extend : bool) (s : FeditState) : option nat :=
  if extend then None else pick <$> selection_range s.
Definition move_left (extend : bool) (s : FeditState) : panics FeditState :=
  match collapse fst extend s with
  | Some lo => s1 ← set_cursor_offset lo false s; set_pref s1
  | None =>
      s1 ← (if 0 <? cursor s then set_cursor_offset (cursor s - 1) extend s else Done s); set_pref s1
  end.
Definition move_right (extend : bool) (s : FeditState) : panics FeditState :=
  match collapse snd extend s with
  | Some hi => s1 ← set_cursor_offset hi false s; set_pref s1
  | None =>
      s1 ← (if cursor s <? len (buffer s) then set_cursor_offset (cursor s + 1) extend s else Done s); set_pref s1
  end.
(** To a row, in the column that vertical motion keeps. *)
Definition to_row (row : nat) (extend : bool) (s : FeditState) : panics FeditState :=
  let pref := pref_col s in
  s1 ← set_cursor_rc row pref extend s; Done (s1 ▷ put_pref_col pref).
Definition move_up (extend : bool) (s : FeditState) : panics FeditState :=
  r ← cursor_row s; if r =? 0 then Done s else to_row (r - 1) extend s.
Definition move_down (extend : bool) (s : FeditState) : panics FeditState :=
  r ← cursor_row s; if line_count (buffer s) <=? r + 1 then Done s else to_row (r + 1) extend s.
Definition move_home (extend : bool) (s : FeditState) : panics FeditState :=
  r ← cursor_row s; s1 ← set_cursor_rc r 0 extend s; Done (s1 ▷ put_pref_col 0).
Definition move_end (extend : bool) (s : FeditState) : panics FeditState :=
  r ← cursor_row s; n ← line_len_cps s r; s1 ← set_cursor_rc r n extend s; set_pref s1.
Definition page_up (extend : bool) (s : FeditState) : panics FeditState :=
  r ← cursor_row s; to_row (r - Nat.max (view_rows s) 1) extend s.
Definition page_down (extend : bool) (s : FeditState) : panics FeditState :=
  r ← cursor_row s; to_row (Nat.min (r + Nat.max (view_rows s) 1) (line_count (buffer s) - 1)) extend s.
Definition select_all (s : FeditState) : panics FeditState :=
  s1 ← set_pref (s ▷ put_anchor 0 ▷ put_cursor (len (buffer s))); ensure_cursor_visible (s1 ▷ put_coalesce None).
