(* ===== verification/EditWindow.v ===== *)
(** * The editor's window ([src/crates/igui/src/fedit.rs])

    Tabs, clipboard, files, checks, and the dispatch of window messages, menu
    commands, keys and characters to the operations of [Edit]. *)
From stdpp Require Import strings.
From S2P Require Import Prelude Bytes Rope RopeBuffer Utf8Facts Edit.
#[local] Open Scope nat_scope.
#[local] Open Scope edit_scope.

(** ** Tabs *)

Definition TAB : Z := 9.
Definition tab_pad (col : nat) : nat := TAB_WIDTH - col mod TAB_WIDTH.
Fixpoint expand_line_from (col : nat) (line : text) : text :=
  match line with
  | [] => []
  | c :: line' =>
      if (c =? TAB)%Z then repeat 32%Z (tab_pad col) ++ expand_line_from (col + tab_pad col) line'
      else c :: expand_line_from (col + 1) line'
  end.
Definition expand_line (line : text) : text := expand_line_from 0 line.
(** [i] and [col] are the loop's character index and column. *)
Fixpoint to_display (col i char_col : nat) (line : text) : nat :=
  match line with
  | [] => col
  | c :: line' =>
      if i =? char_col then col
      else to_display (if (c =? TAB)%Z then col + tab_pad col else col + 1) (i + 1) char_col line'
  end.
Definition buffer_col_to_display (line : text) (char_col : nat) : nat := to_display 0 0 char_col line.
Fixpoint of_display (col i display_col : nat) (line : text) : nat :=
  match line with
  | [] => i
  | c :: line' =>
      if display_col <=? col then i
      else if (c =? TAB)%Z then
        if display_col <? col + tab_pad col
        then if display_col <=? col + tab_pad col / 2 then i else i + 1
        else of_display (col + tab_pad col) (i + 1) display_col line'
      else of_display (col + 1) (i + 1) display_col line'
  end.
Definition display_col_to_buffer (line : text) (display_col : nat) : nat := of_display 0 0 display_col line.

(** ** Clipboard *)

Definition cut (h : Host) (s : FeditState) : panics FeditState :=
  if negb (is_some (selection_range s)) then Done s
  else
    let t := selected_text s in
    if clipboard_set h t then
      '(_, s1) ← delete_selection_to_undo (s ▷ send (Clipboard t));
      ensure_cursor_visible (s1 ▷ put_redo_ops [] ▷ put_coalesce None)
    else Done s.
Definition copy (h : Host) (s : FeditState) : FeditState :=
  if negb (is_some (selection_range s)) then s
  else if clipboard_set h (selected_text s) then s ▷ send (Clipboard (selected_text s)) else s.
Definition paste (h : Host) (s : FeditState) : panics FeditState :=
  match clipboard_get h with
  | Some t => if bool_decide (t = ""%string) then Done s else do_insert t None s
  | None => Done s
  end.

(** ** Mouse

    A point of the window is given by the row it is below the top one and the
    column of the display grid, which the window computes from pixels. *)
Definition pos_at_cell (row_offset display_col : nat) (s : FeditState) : nat * nat :=
  let row := Nat.min (scroll_top s + row_offset) (line_count (buffer s) - 1) in
  let line := line_text s row in
  (row, Nat.min (display_col_to_buffer line display_col) (length line)).
Definition click (row_offset display_col : nat) (extend : bool) (s : FeditState) : panics FeditState :=
  let '(r, c) := pos_at_cell row_offset display_col s in s1 ← set_cursor_rc r c extend s; set_pref s1.
Definition drag_to (row_offset display_col : nat) (s : FeditState) : panics FeditState :=
  if negb (selecting_drag s) then Done s
  else
    let '(r, c) := pos_at_cell row_offset display_col s in
    n ← line_len_cps s r;
    offset ← line_col_to_offset (buffer s) r (Nat.min c n);
    s1 ← set_pref (s ▷ put_cursor offset);
    ensure_cursor_visible (s1 ▷ put_coalesce None).
Definition WHEEL_DELTA : Z := 120.
Definition wheel (delta : Z) (s : FeditState) : FeditState :=
  let lines := (- Z.quot delta WHEEL_DELTA * 3)%Z in
  if (lines =? 0)%Z then s
  else
    let max_top := line_count (buffer s) - 1 in
    let new_top := Z.to_nat (Z.max (Z.of_nat (scroll_top s) + lines) 0) in
    s ▷ put_scroll_top (Nat.min new_top max_top).

(** ** Checks *)

Definition run_check (h : Host) (s : FeditState) : FeditState :=
  let t := to_utf8 (buffer s) in
  match checker h with
  | Some f => s ▷ put_diagnostics (f t) ▷ put_diagnostics_stale false
  | None => s ▷ put_diagnostics [] ▷ put_diagnostics_stale false
  end.
(** [min_by_key(|d| (d.line, d.column))]: the first of the least. *)
Definition diag_before (a b : Diagnostic) : bool :=
  (diag_line a <? diag_line b) || (diag_line a =? diag_line b) && (diag_column a <? diag_column b).
Definition min_diag (ds : list Diagnostic) : option Diagnostic :=
  match ds with
  | [] => None
  | d :: ds' => Some (foldl (λ best x, if diag_before x best then x else best) d ds')
  end.
Definition next_diagnostic (cur : nat) (ds : list Diagnostic) : option Diagnostic :=
  match min_diag (filter (λ d, cur < diag_line d) ds) with
  | Some d => Some d
  | None => min_diag ds
  end.
Definition jump_to_next_diagnostic (s : FeditState) : panics FeditState :=
  r ← cursor_row s;
  match next_diagnostic (r + 1) (diagnostics s) with
  | Some d =>
      let last := line_count (buffer s) - 1 in
      s1 ← set_cursor_rc (Nat.min (diag_line d - 1) last) (diag_column d - 1) false s; set_pref s1
  | None => Done s
  end.
Definition diagnostic_on_line (s : FeditState) (line_1based : nat) : option Diagnostic :=
  head (filter (λ d, diag_line d = line_1based) (diagnostics s)).

(** ** Files *)

(** [Path::extension]: what is behind the last dot of the last component,
    unless the dot starts it. *)
Definition is_separator (b : ascii) : bool := (b =? "/")%char || (b =? "\")%char.
Fixpoint components (cur s : string) : list string :=
  match s with
  | EmptyString => [cur]
  | String b s' => if is_separator b then cur :: components "" s' else components (cur +:+ String b "") s'
  end.
Definition file_name (path : string) : option string :=
  last (filter (λ c, c ≠ "" ∧ c ≠ ".")%string (components "" path)).
Fixpoint after_dot (s : string) : option string :=
  match s with
  | EmptyString => None
  | String b s' =>
      match after_dot s' with
      | Some e => Some e
      | None => if (b =? ".")%char then Some s' else None
      end
  end.
Definition extension (path : string) : option string :=
  name ← file_name path;
  match name with
  | String _ s' => if bool_decide (name = "..")%string then None else after_dot s'
  | EmptyString => None
  end.
Definition from_path (path : string) : FileLang :=
  match extension path with
  | None => Forth
  | Some ext => if bool_decide (lowercase ext = "masm"%string) then Masm else Forth
  end.

Definition load_from (h : Host) (path : string) (s : FeditState) : panics FeditState :=
  match read_file h path with
  | Some bytes =>
      b ← from_utf8 bytes;
      Done (s ▷ put_buffer b ▷ point 0 ▷ put_pref_col 0 ▷ put_scroll_top 0 ▷ put_dirty false
              ▷ put_undo_ops [] ▷ put_redo_ops [] ▷ put_coalesce None ▷ put_tokens_dirty true
              ▷ put_diagnostics [] ▷ put_diagnostics_stale true ▷ put_lang (from_path path)
              ▷ put_file_path (Some path))
  | None => Done s
  end.
Definition save_to (h : Host) (path : string) (s : FeditState) : bool * FeditState :=
  let t := crlf (to_utf8 (buffer s)) in
  if write_file h path t then
    (true, run_check h (s ▷ send (WriteFile path t) ▷ put_lang (from_path path) ▷ put_file_path (Some path)
                          ▷ put_dirty false ▷ put_tokens_dirty true))
  else (false, s).
Definition run_buffer (s : FeditState) : FeditState :=
  let sel := selected_text s in
  s ▷ send (EvalBuffer (if bool_decide (sel = ""%string) then to_utf8 (buffer s) else sel)).

(** ** Messages *)

Inductive VirtualKey :=
  | VK_LEFT | VK_RIGHT | VK_UP | VK_DOWN | VK_HOME | VK_END | VK_PRIOR | VK_NEXT | VK_DELETE | VK_F5 | VK_RETURN
  | VK_F7 | VK_F8 | VK_OTHER.

Definition handle_key (h : Host) (vk : VirtualKey) (s : FeditState) : panics FeditState :=
  let extend := shift_down h in
  match vk with
  | VK_LEFT => if ctrl_down h then move_prev_word extend s else move_left extend s
  | VK_RIGHT => if ctrl_down h then move_next_word extend s else move_right extend s
  | VK_UP => move_up extend s
  | VK_DOWN => move_down extend s
  | VK_HOME => move_home extend s
  | VK_END => move_end extend s
  | VK_PRIOR => page_up extend s
  | VK_NEXT => page_down extend s
  | VK_DELETE => if extend && is_some (selection_range s) then cut h s else delete_forward s
  | VK_F5 => Done (run_buffer s)
  | VK_RETURN => if ctrl_down h then Done (run_buffer s) else Done s
  | VK_F7 => Done (run_check h s)
  | VK_F8 => jump_to_next_diagnostic s
  | VK_OTHER => Done s
  end.

(** [open_file] makes a new window. *)
Definition open_in_new (h : Host) (s : FeditState) : FeditState :=
  match open_file_dialog h with Some p => s ▷ send (OpenFile p) | None => s end.
Definition save_as (h : Host) (s : FeditState) : FeditState :=
  match save_file_dialog h with Some p => (save_to h p s).2 | None => s end.

(** Spaces up to the next tab stop. *)
Definition soft_tab (s : FeditState) : panics FeditState :=
  '(cur_row, cur_col) ← cursor_rc s;
  let display_col := buffer_col_to_display (line_text s cur_row) cur_col in
  insert_str (codepoints_to_utf8 (repeat 32%Z (tab_pad display_col))) s.

Definition handle_char (h : Host) (c : Z) (s : FeditState) : panics FeditState :=
  if (c =? 1)%Z then select_all s
  else if (c =? 3)%Z then Done (copy h s)
  else if (c =? 15)%Z then Done (open_in_new h s)
  else if (c =? 19)%Z then
    Done (if shift_down h then save_as h s
          else match file_path s with Some p => (save_to h p s).2 | None => save_as h s end)
  else if (c =? 22)%Z then paste h s
  else if (c =? 18)%Z then Done (run_buffer s)
  else if (c =? 24)%Z then cut h s
  else if (c =? 25)%Z then redo s
  else if (c =? 26)%Z then undo s
  else if (c =? 13)%Z then insert_newline s
  else if (c =? 10)%Z then Done s
  else if (c =? 9)%Z then soft_tab s
  else if (c =? 8)%Z then backspace s
  else if (c <? 32)%Z then Done s
  else insert_char c s.

Definition EDIT_CMD_UNDO : Z := 12544.
Definition EDIT_CMD_REDO : Z := 12545.
Definition EDIT_CMD_CUT : Z := 12560.
Definition EDIT_CMD_COPY : Z := 12561.
Definition EDIT_CMD_PASTE : Z := 12562.
Definition EDIT_CMD_SELECT_ALL : Z := 12563.
Definition EDIT_CMD_NEXT_WORD : Z := 12576.
Definition EDIT_CMD_PREV_WORD : Z := 12577.
Definition EDIT_CMD_RUN_BUFFER : Z := 12608.
Definition EDIT_CMD_SAVE : Z := 12624.
Definition EDIT_CMD_SAVE_AS : Z := 12625.
Definition EDIT_CMD_OPEN : Z := 12626.

(** Whether the command is one of the editor's, and the state after it. *)
Definition handle_edit_menu (h : Host) (cmd : Z) (s : FeditState) : panics (bool * FeditState) :=
  let run (o : panics FeditState) := s' ← o; Done (true, s') in
  if (cmd =? EDIT_CMD_UNDO)%Z then run (undo s)
  else if (cmd =? EDIT_CMD_REDO)%Z then run (redo s)
  else if (cmd =? EDIT_CMD_CUT)%Z then run (cut h s)
  else if (cmd =? EDIT_CMD_COPY)%Z then run (Done (copy h s))
  else if (cmd =? EDIT_CMD_PASTE)%Z then run (paste h s)
  else if (cmd =? EDIT_CMD_SELECT_ALL)%Z then run (select_all s)
  else if (cmd =? EDIT_CMD_NEXT_WORD)%Z then run (move_next_word false s)
  else if (cmd =? EDIT_CMD_PREV_WORD)%Z then run (move_prev_word false s)
  else if (cmd =? EDIT_CMD_RUN_BUFFER)%Z then run (Done (run_buffer s))
  else if (cmd =? EDIT_CMD_OPEN)%Z then run (Done (open_in_new h s))
  else if (cmd =? EDIT_CMD_SAVE)%Z then
    run (Done (match file_path s with Some p => (save_to h p s).2 | None => save_as h s end))
  else if (cmd =? EDIT_CMD_SAVE_AS)%Z then run (Done (save_as h s))
  else Done (false, s).

(** The messages that change the state; [WM_SIZE] and the change of the
    monitor's scale give the number of rows shown, [WM_CHAR] a number that is
    passed over unless it is a character. *)
Inductive Message :=
  | WM_SIZE (rows : nat)
  | WM_LBUTTONDOWN (row_offset display_col : nat)
  | WM_MOUSEMOVE (lbutton_down : bool) (row_offset display_col : nat)
  | WM_LBUTTONUP
  | WM_MOUSEWHEEL (delta : Z)
  | WM_KEYDOWN (vk : VirtualKey)
  | WM_COMMAND (cmd : Z)
  | WM_CHAR (cp : Z)
  | WM_FEDIT_LOAD_PATH (path : string).
Definition fedit_wnd_proc (h : Host) (m : Message) (s : FeditState) : panics FeditState :=
  match m with
  | WM_SIZE rows => Done (s ▷ put_view_rows rows)
  | WM_LBUTTONDOWN r c => s1 ← click r c (shift_down h) s; Done (s1 ▷ put_selecting_drag true)
  | WM_MOUSEMOVE down r c =>
      if selecting_drag s && down then drag_to r c s
      else if selecting_drag s then Done (s ▷ put_selecting_drag false) else Done s
  | WM_LBUTTONUP => Done (s ▷ put_selecting_drag false)
  | WM_MOUSEWHEEL delta => Done (wheel delta s)
  | WM_KEYDOWN vk => handle_key h vk s
  | WM_COMMAND cmd => '(_, s1) ← handle_edit_menu h cmd s; Done s1
  | WM_CHAR cp => if is_scalar cp then handle_char h cp s else Done s
  | WM_FEDIT_LOAD_PATH path => load_from h path s
  end.
Fixpoint run_messages (ms : list (Host * Message)) (s : FeditState) : panics FeditState :=
  match ms with [] => Done s | (h, m) :: ms' => s1 ← fedit_wnd_proc h m s; run_messages ms' s1 end.

(** A session: a word is typed, and undone at once, and the next message's
    text goes in. *)
Definition quiet : Host := mkHost false false (λ _, true) (Some "dup") (λ _, None) (λ _ _, true) None None None.
Definition shown (o : panics FeditState) : option (string * nat * nat) :=
  match o with Done s => Some (to_utf8 (buffer s), cursor s, pref_col s) | _ => None end.
Example typing_ex :
  shown (run_messages ((λ c, (quiet, WM_CHAR c)) <$> [58; 32; 40; 13; 97; 98; 9]%Z) new_state) = Some (": (
  ab  ", 10, 6) ∧
  shown (run_messages ((λ c, (quiet, WM_CHAR c)) <$> [97; 98; 99; 26; 25; 26; 22]%Z) new_state) = Some ("dup", 3, 3) ∧
  from_path "demos\x.y.MASM" = Masm ∧ from_path ".masm" = Forth.
Proof. vm_compute. auto. Qed.
