(* ===== verification/EditFacts.v ===== *)
(** * What the editor's operations do to the text

    Every operation ends, without a panic, on every text and with the cursor
    anywhere; what it does to the text, the cursor, the selection and the two
    lists of records is stated by [doc]. *)
From stdpp Require Import strings.
From S2P Require Import Prelude Bytes Rope RopeBuffer RopeFacts BufferFacts Utf8Facts Edit.
#[local] Open Scope nat_scope.
#[local] Open Scope edit_scope.

(** The part of the state that edits are about. *)
Record Doc := mkDoc {
  doc_text : text; doc_cursor : nat; doc_anchor : nat; doc_undo : list UndoOp; doc_redo : list UndoOp;
  doc_kind : option CoalesceKind }.
Definition doc (s : FeditState) (d : Doc) : Prop :=
  represents (buffer s) (doc_text d) ∧ cursor s = doc_cursor d ∧ anchor s = doc_anchor d ∧
  undo_ops s = doc_undo d ∧ redo_ops s = doc_redo d ∧ coalesce s = doc_kind d.
(** What a state is said to be when its buffer is well-formed. *)
Definition doc_of (s : FeditState) : Doc :=
  mkDoc (contents (root (buffer s))) (cursor s) (anchor s) (undo_ops s) (redo_ops s) (coalesce s).
Lemma doc_of_ok s : wf (root (buffer s)) → doc s (doc_of s).
Proof. by repeat split. Qed.
Lemma doc_doc_of s d : doc s d → doc_of s = d ∧ wf (root (buffer s)).
Proof. destruct d. intros ([Hw Et] & Ec & Ea & Eu & Er & Ek). cbn in *. by subst. Qed.

(** [o] ends with the document [d]. *)
Definition ends {A} (o : panics A) (P : A → Prop) : Prop := ∃ x, o = Done x ∧ P x.
Lemma ends_done {A} (x : A) (P : A → Prop) : P x → ends (Done x) P.
Proof. intros. by exists x. Qed.
Lemma ends_bind {A B} (o : panics A) (f : A → panics B) P Q :
  ends o P → (∀ x, P x → ends (f x) Q) → ends (x ← o; f x) Q.
Proof. intros (x & -> & Hx) Hf. by apply Hf. Qed.
Lemma ends_mono {A} (o : panics A) (P Q : A → Prop) : ends o P → (∀ x, P x → Q x) → ends o Q.
Proof. intros (x & -> & Hx) H. exists x. auto. Qed.

Definition capped {A} (l : list A) : list A := if UNDO_CAP <? length l then take (length l - 1) l else l.

(** ** Steps that keep the document *)

Section Keeping.
  Context (s : FeditState) (d : Doc) (Hd : doc s d).

Lemma buffer_wf : represents (buffer s) (doc_text d).
Proof using Hd. apply Hd. Qed.
Lemma cursor_rc_doc : cursor_rc s = Done (position (doc_text d) (doc_cursor d)).
Proof using Hd. unfold cursor_rc. rewrite (offset_position _ _ _ buffer_wf). by destruct Hd as (_ & -> & _). Qed.
Lemma cursor_row_doc : cursor_row s = Done (position (doc_text d) (doc_cursor d)).1.
Proof using Hd. unfold cursor_row. rewrite cursor_rc_doc. by destruct (position _ _). Qed.
Lemma cursor_col_doc : cursor_col s = Done (position (doc_text d) (doc_cursor d)).2.
Proof using Hd. unfold cursor_col. rewrite cursor_rc_doc. by destruct (position _ _). Qed.

Lemma set_pref_doc : ends (set_pref s) (λ s', doc s' d ∧ pref_col s' = (position (doc_text d) (doc_cursor d)).2).
Proof using Hd. unfold set_pref. rewrite cursor_col_doc. by apply ends_done. Qed.
Lemma ensure_doc : ends (ensure_cursor_visible s) (λ s', doc s' d ∧ pref_col s' = pref_col s).
Proof using Hd.
  unfold ensure_cursor_visible. destruct (_ =? 0); [by apply ends_done|]. rewrite cursor_row_doc.
  cbn [mbind outcome_bind]. apply ends_done. by repeat case_match.
Qed.

Lemma line_len_doc row : line_len_cps s row = Done (if row <=? count_newlines (doc_text d)
                                                   then line_to (doc_text d) row - line_from (doc_text d) row else 0).
Proof using Hd.
  unfold line_len_cps. rewrite (line_range_text _ _ row buffer_wf). destruct (Nat.leb_spec row (count_newlines (doc_text d))) as [H|H]; [|done].
  pose proof (line_from_to _ _ H). unfold checked_sub. by rewrite (proj2 (Nat.leb_le _ _)) by lia.
Qed.
Lemma selection_doc : selection_range s =
  if doc_cursor d =? doc_anchor d then None
  else Some (Nat.min (doc_cursor d) (doc_anchor d), Nat.max (doc_cursor d) (doc_anchor d)).
Proof using Hd.
  destruct Hd as (_ & Hc & Ha & _). unfold selection_range. rewrite Hc, Ha. destruct (_ =? _); [done|].
  destruct (Nat.ltb_spec (doc_anchor d) (doc_cursor d)); do 2 f_equal; lia.
Qed.
End Keeping.

(** ** Motion *)

Definition moved (c a : nat) (d : Doc) : Doc := mkDoc (doc_text d) c a (doc_undo d) (doc_redo d) None.

Lemma set_cursor_offset_doc s d offset extend :
  doc s d →
  ends (set_cursor_offset offset extend s)
    (λ s', let c := Nat.min offset (length (doc_text d)) in
           doc s' (moved c (if extend then doc_anchor d else c) d) ∧ pref_col s' = pref_col s).
Proof.
  intros Hd. unfold set_cursor_offset. rewrite (len_contents _ _ (buffer_wf _ _ Hd)).
  set (c := Nat.min _ _). set (s2 := put_coalesce _ _).
  assert (doc s2 (moved c (if extend then doc_anchor d else c) d)) as H2.
  { destruct Hd as (? & ? & ? & ? & ? & ?). unfold s2. by destruct extend. }
  apply (ends_mono _ _ _ (ensure_doc _ _ H2)). intros s' [? Hp]. split; [done|]. rewrite Hp. by destruct extend.
Qed.

(** A row, and a column no further than its end. *)
Definition clamp_row (t : text) (row : nat) : nat := Nat.min row (count_newlines t).
Definition row_offset (t : text) (row col : nat) : nat :=
  line_from t (clamp_row t row) + Nat.min col (line_to t (clamp_row t row) - line_from t (clamp_row t row)).
Lemma row_offset_le t row col : row_offset t row col ≤ length t.
Proof.
  unfold row_offset. pose proof (line_from_to t (clamp_row t row) ltac:(unfold clamp_row; lia)). lia.
Qed.
Lemma position_row_offset t row col :
  position t (row_offset t row col) =
  (clamp_row t row, Nat.min col (line_to t (clamp_row t row) - line_from t (clamp_row t row))).
Proof. apply position_in_line; [unfold clamp_row|]; lia. Qed.

Lemma set_cursor_rc_doc s d row col extend :
  doc s d →
  ends (set_cursor_rc row col extend s)
    (λ s', let c := row_offset (doc_text d) row col in
           doc s' (moved c (if extend then doc_anchor d else c) d) ∧ pref_col s' = pref_col s).
Proof.
  intros Hd. pose proof (buffer_wf _ _ Hd) as Hb. unfold set_cursor_rc. rewrite (line_count_contents _ _ Hb), Nat.add_sub.
  change (Nat.min row (count_newlines (doc_text d))) with (clamp_row (doc_text d) row).
  assert (clamp_row (doc_text d) row ≤ count_newlines (doc_text d)) as Hr by (unfold clamp_row; lia).
  rewrite (line_len_doc s d Hd), (proj2 (Nat.leb_le _ _) Hr). cbn [mbind outcome_bind].
  rewrite (line_col_text _ _ _ _ Hb Hr). cbn [mbind outcome_bind].
  pose proof (row_offset_le (doc_text d) row col) as Hle. unfold row_offset in *.
  refine (ends_mono _ _ _ (set_cursor_offset_doc s d _ extend Hd) _). intros s'. cbv zeta.
  rewrite <- Nat.min_assoc, Nat.min_id, (Nat.min_l (_ + _) (length _)) by done. done.
Qed.

(** ** Splices *)

Definition with_text (t : text) (d : Doc) : Doc :=
  mkDoc t (doc_cursor d) (doc_anchor d) (doc_undo d) (doc_redo d) (doc_kind d).
Definition at_point (c : nat) (d : Doc) : Doc := mkDoc (doc_text d) c c (doc_undo d) (doc_redo d) (doc_kind d).
(** The text with [removed] code points at [start] replaced. *)
Definition spliced (start removed : nat) (ins t : text) : text := take start t ++ ins ++ drop (start + removed) t.

Lemma spliced_none start t : spliced start 0 [] t = t.
Proof. unfold spliced. by rewrite Nat.add_0_r, app_nil_l, take_drop. Qed.

Lemma splice_in_cps_doc s d offset ins :
  doc s d → ends (splice_in_cps offset ins s)
              (λ p, p.1 = offset + length ins ∧ doc p.2 (with_text (spliced offset 0 ins (doc_text d)) d)).
Proof.
  intros Hd. unfold splice_in_cps. destruct ins as [|cp ins].
  { apply ends_done. rewrite spliced_none. split; [cbn; lia|]. by destruct d. }
  destruct (insert_text _ _ offset (cp :: ins) (buffer_wf _ _ Hd)) as (b & -> & Hb).
  cbn [mbind outcome_bind]. apply ends_done. split; [done|]. unfold spliced. rewrite Nat.add_0_r.
  by destruct Hd as (_ & ? & ? & ? & ? & ?).
Qed.
Lemma splice_out_doc s d lo hi :
  doc s d → ends (splice_out lo hi s)
              (λ p, p.1 = take (hi - lo) (drop lo (doc_text d)) ∧ doc p.2 (with_text (spliced lo (hi - lo) [] (doc_text d)) d)).
Proof.
  intros Hd. pose proof (buffer_wf _ _ Hd) as Hb. unfold splice_out. destruct (Nat.leb_spec hi lo) as [Hle|Hgt].
  { apply ends_done. replace (hi - lo) with 0 by lia. rewrite spliced_none. split; [done|]. by destruct d. }
  destruct (delete_text _ _ lo (hi - lo) Hb) as (b & -> & Hb'). cbn [mbind outcome_bind].
  apply ends_done. split; [by apply slice_contents|]. by destruct Hd as (_ & ? & ? & ? & ? & ?).
Qed.
Lemma point_doc s d c : doc s d → doc (point c s) (at_point c d).
Proof. by intros (? & ? & ? & ? & ? & ?). Qed.

(** ** Edits *)

Definition with_history (u r : list UndoOp) (k : option CoalesceKind) (d : Doc) : Doc :=
  mkDoc (doc_text d) (doc_cursor d) (doc_anchor d) u r k.

(** Setting the cursor, and [pref_col] with it. *)
Lemma settle_doc s d c (f : FeditState → FeditState) u r k :
  doc s d → (∀ s', doc s' (at_point c d) → doc (f s') (with_history u r k (at_point c d))) →
  ends (s1 ← set_pref (point c s); ensure_cursor_visible (f s1)) (λ s', doc s' (with_history u r k (at_point c d))).
Proof.
  intros Hd Hf. refine (ends_bind _ _ _ _ (set_pref_doc _ _ (point_doc _ _ c Hd)) _). intros s1 [H1 _].
  apply (ends_mono _ _ _ (ensure_doc _ _ (Hf _ H1))). by intros s' [? _].
Qed.

Definition selected (d : Doc) : bool := negb (doc_cursor d =? doc_anchor d).
Definition sel_lo (d : Doc) : nat := Nat.min (doc_cursor d) (doc_anchor d).
Definition sel_hi (d : Doc) : nat := Nat.max (doc_cursor d) (doc_anchor d).
Definition sel_text (d : Doc) : text := take (sel_hi d - sel_lo d) (drop (sel_lo d) (doc_text d)).
(** The document with the selection deleted. *)
Definition cut_selection (d : Doc) : Doc :=
  mkDoc (spliced (sel_lo d) (sel_hi d - sel_lo d) [] (doc_text d)) (sel_lo d) (sel_lo d)
    (capped (Deleted (sel_lo d) (sel_text d) (doc_cursor d) (sel_lo d) :: doc_undo d)) (doc_redo d) None.

Lemma push_undo_doc s d op : doc s d → doc (push_undo op s) (with_history (capped (op :: doc_undo d)) (doc_redo d) (doc_kind d) d).
Proof.
  intros (? & ? & ? & Hu & ? & ?). unfold push_undo. cbv zeta. rewrite Hu. by split_and!.
Qed.

Lemma delete_selection_doc s d :
  doc s d → ends (delete_selection_to_undo s)
              (λ p, p.1 = selected d ∧ doc p.2 (if selected d then cut_selection d else d)).
Proof.
  intros Hd. unfold delete_selection_to_undo, selected. rewrite (selection_doc _ _ Hd).
  destruct (_ =? _); [by apply ends_done|]. cbn [negb].
  refine (ends_bind _ _ _ _ (splice_out_doc s d (sel_lo d) (sel_hi d) Hd) _). intros [removed s1] [Er H1]. cbn [fst snd] in *.
  refine (ends_bind _ _ _ _ (set_pref_doc _ _ (point_doc _ _ (sel_lo d) H1)) _). intros s2 [H2 _].
  apply ends_done. split; [done|]. assert (doc (put_dirty true s2) (at_point (sel_lo d) (with_text (spliced (sel_lo d) (sel_hi d - sel_lo d) [] (doc_text d)) d))) as H3 by done.
  apply (push_undo_doc _ _ (Deleted (sel_lo d) removed (cursor s) (sel_lo d))) in H3.
  destruct Hd as (_ & Ec & _). rewrite Ec, Er in *. destruct H3 as (? & ? & ? & ? & ? & ?). by split_and!.
Qed.

(** The records after an insertion. *)
Definition insert_record (extending : bool) (start : nat) (cps : text) (u : list UndoOp) : list UndoOp :=
  match u with
  | Inserted prev_start prev_text before after :: ops =>
      if extending && (prev_start + length prev_text =? start)
      then Inserted prev_start (prev_text ++ cps) before (start + length cps) :: ops
      else capped (Inserted start cps start (start + length cps) :: u)
  | _ => capped (Inserted start cps start (start + length cps) :: u)
  end.
(** The document with [cps] put in at the cursor. *)
Definition put_in (kind : option CoalesceKind) (cps : text) (d : Doc) : Doc :=
  let extending := bool_decide (kind = Some Insert) && bool_decide (doc_kind d = Some Insert) in
  mkDoc (spliced (doc_cursor d) 0 cps (doc_text d)) (doc_cursor d + length cps) (doc_cursor d + length cps)
    (insert_record extending (doc_cursor d) cps (doc_undo d)) [] kind.

Definition inserted_doc (kind : option CoalesceKind) (cps : text) (d : Doc) : Doc :=
  let d1 := if selected d then cut_selection d else d in
  match cps with [] => d1 | _ => put_in kind cps d1 end.

Lemma record_insert_doc s d kind start cps extending :
  doc s d → extending = bool_decide (kind = Some Insert) && bool_decide (doc_kind d = Some Insert) →
  doc (put_coalesce kind (record_insert extending start cps start (start + length cps) s))
    (with_history (insert_record extending start cps (doc_undo d)) (doc_redo d) kind d).
Proof.
  intros Hd ->. pose proof (push_undo_doc s d (Inserted start cps start (start + length cps)) Hd) as (? & ? & ? & ? & ? & _).
  destruct Hd as (? & ? & ? & Eu & ? & Ek). unfold record_insert, insert_record. rewrite Eu.
  destruct (doc_undo d) as [|[]]; [by split_and!|case_match|..]; by split_and!.
Qed.

Lemma do_insert_doc s d utf8 kind :
  doc s d → ends (do_insert utf8 kind s) (λ s', doc s' (inserted_doc kind (utf8_to_codepoints utf8) d)).
Proof.
  intros Hd. unfold do_insert, inserted_doc. set (d1 := if selected d then cut_selection d else d).
  refine (ends_bind _ _ (λ s1, doc s1 d1) _ _ _).
  { unfold d1. destruct (is_some (selection_range s)) eqn:Es; rewrite (selection_doc _ _ Hd) in Es; unfold selected.
    - refine (ends_bind _ _ _ _ (delete_selection_doc s d Hd) _). intros [b s1] [_ H1]. by apply ends_done.
    - apply ends_done. by destruct (_ =? _). }
  intros s1 H1. cbv zeta. replace (cursor s1) with (doc_cursor d1) by (symmetry; apply H1).
  destruct (utf8_to_codepoints utf8) as [|cp cps] eqn:E; [by apply ends_done|]. clear E. set (ins := cp :: cps).
  refine (ends_bind _ _ _ _ (splice_in_cps_doc s1 d1 (doc_cursor d1) ins H1) _). intros [end_ s2] [Ee H2]. cbn [fst snd] in *. subst end_.
  refine (settle_doc s2 _ (doc_cursor d1 + length ins)
    (λ s3, let s4 := put_redo_ops [] (put_dirty true s3) in
           put_coalesce kind (record_insert (bool_decide (kind = Some Insert) && bool_decide (coalesce s4 = Some Insert))
             (doc_cursor d1) ins (doc_cursor d1) (doc_cursor d1 + length ins) s4)) _ [] kind H2 _).
  intros s3 H3. cbv zeta. assert (doc (put_redo_ops [] (put_dirty true s3))
    (mkDoc (spliced (doc_cursor d1) 0 ins (doc_text d1)) (doc_cursor d1 + length ins) (doc_cursor d1 + length ins) (doc_undo d1) [] (doc_kind d1))) as H4.
  { destruct H3 as (? & ? & ? & ? & ? & ?). by split_and!. }
  assert (coalesce (put_redo_ops [] (put_dirty true s3)) = doc_kind d1) as -> by apply H4.
  destruct (record_insert_doc _ _ kind (doc_cursor d1) ins _ H4 eq_refl) as (? & ? & ? & ? & ? & ?). by split_and!.
Qed.

Definition replaced_doc (start end_ : nat) (cps : text) (after : nat) (d : Doc) : Doc :=
  let removed := take (end_ - start) (drop start (doc_text d)) in
  mkDoc (spliced start 0 cps (spliced start (end_ - start) [] (doc_text d))) after after
    (capped (Replaced start removed cps (doc_cursor d) after :: doc_undo d)) [] None.
Lemma do_replace_doc s d start end_ cps after :
  doc s d → ends (do_replace start end_ cps after s) (λ s', doc s' (replaced_doc start end_ cps after d)).
Proof.
  intros Hd. unfold do_replace. replace (cursor s) with (doc_cursor d) by (symmetry; apply Hd).
  refine (ends_bind _ _ _ _ (splice_out_doc s d start end_ Hd) _). intros [removed s1] [Er H1]. cbn [fst snd] in *.
  refine (ends_bind _ _ _ _ (splice_in_cps_doc s1 _ start cps H1) _). intros [? s2] [_ H2]. cbn [fst snd] in *. subst removed.
  refine (settle_doc s2 _ after
    (λ s3, push_undo (Replaced start (take (end_ - start) (drop start (doc_text d))) cps (doc_cursor d) after)
             (put_coalesce None (put_redo_ops [] (put_dirty true s3)))) _ [] None H2 _).
  intros s3 (? & ? & ? & ? & ? & ?).
  refine (push_undo_doc (put_coalesce None (put_redo_ops [] (put_dirty true s3))) (mkDoc _ after after _ [] None) _ _).
  by split_and!.
Qed.

(** ** Undo and redo *)

Definition unapply (op : UndoOp) (t : text) : text :=
  match op with
  | Inserted start ins _ _ => spliced start (length ins) [] t
  | Deleted start del _ _ => spliced start 0 del t
  | Replaced start removed ins _ _ => spliced start 0 removed (spliced start (length ins) [] t)
  end.
Definition reapply (op : UndoOp) (t : text) : text :=
  match op with
  | Inserted start ins _ _ => spliced start 0 ins t
  | Deleted start del _ _ => spliced start (length del) [] t
  | Replaced start removed ins _ _ => spliced start 0 ins (spliced start (length removed) [] t)
  end.
Definition op_before (op : UndoOp) : nat :=
  match op with Inserted _ _ b _ | Deleted _ _ b _ | Replaced _ _ _ b _ => b end.
Definition op_after (op : UndoOp) : nat :=
  match op with Inserted _ _ _ a | Deleted _ _ _ a | Replaced _ _ _ _ a => a end.

Lemma splice_step {A} s d (o : FeditState → panics (A * FeditState)) t' (x : nat) :
  ends (o s) (λ p, doc p.2 (with_text t' d)) → ends ('(_, s1) ← o s; Done (x, s1)) (λ p, p.1 = x ∧ doc p.2 (with_text t' d)).
Proof. intros H. refine (ends_bind _ _ _ _ H _). intros [? s1] H1. by apply ends_done. Qed.
Lemma remove_doc s d start n :
  doc s d → ends (splice_out start (start + n) s) (λ p, doc p.2 (with_text (spliced start n [] (doc_text d)) d)).
Proof.
  intros Hd. refine (ends_mono _ _ _ (splice_out_doc s d start (start + n) Hd) _). intros [? s1] [_ H1].
  by replace (start + n - start) with n in H1 by lia.
Qed.
Lemma put_back_doc s d start ins :
  doc s d → ends (splice_in_cps start ins s) (λ p, doc p.2 (with_text (spliced start 0 ins (doc_text d)) d)).
Proof. intros Hd. refine (ends_mono _ _ _ (splice_in_cps_doc s d start ins Hd) _). by intros [? s1] [_ H1]. Qed.

Lemma undo_op_doc s d op :
  doc s d → ends (undo_op op s) (λ p, p.1 = op_before op ∧ doc p.2 (with_text (unapply op (doc_text d)) d)).
Proof.
  intros Hd. destruct op as [start t b a|start t b a|start removed ins b a]; cbn [undo_op op_before unapply].
  - refine (splice_step s d (splice_out start (start + length t)) _ b _). by apply remove_doc.
  - refine (splice_step s d (splice_in_cps start t) _ b _). by apply put_back_doc.
  - refine (ends_bind _ _ _ _ (remove_doc s d start (length ins) Hd) _). intros [? s1] H1. cbn [snd] in H1.
    refine (splice_step s1 _ (splice_in_cps start removed) _ b _). by apply (put_back_doc _ _ _ _ H1).
Qed.
Lemma redo_op_doc s d op :
  doc s d → ends (redo_op op s) (λ p, p.1 = op_after op ∧ doc p.2 (with_text (reapply op (doc_text d)) d)).
Proof.
  intros Hd. destruct op as [start t b a|start t b a|start removed ins b a]; cbn [redo_op op_after reapply].
  - refine (splice_step s d (splice_in_cps start t) _ a _). by apply put_back_doc.
  - refine (splice_step s d (splice_out start (start + length t)) _ a _). by apply remove_doc.
  - refine (ends_bind _ _ _ _ (remove_doc s d start (length removed) Hd) _). intros [? s1] H1. cbn [snd] in H1.
    refine (splice_step s1 _ (splice_in_cps start ins) _ a _). by apply (put_back_doc _ _ _ _ H1).
Qed.

Definition undone (d : Doc) : Doc :=
  match doc_undo d with
  | [] => d
  | op :: ops => mkDoc (unapply op (doc_text d)) (op_before op) (op_before op) ops (op :: doc_redo d) None
  end.
Definition redone (d : Doc) : Doc :=
  match doc_redo d with
  | [] => d
  | op :: ops => mkDoc (reapply op (doc_text d)) (op_after op) (op_after op) (op :: doc_undo d) ops None
  end.
Lemma undo_doc s d : doc s d → ends (undo s) (λ s', doc s' (undone d)).
Proof.
  intros Hd. unfold undo, undone. replace (undo_ops s) with (doc_undo d) by (symmetry; apply Hd).
  destruct (doc_undo d) as [|op ops] eqn:E; [by apply ends_done|].
  assert (doc (put_undo_ops ops s) (with_history ops (doc_redo d) (doc_kind d) d)) as H0.
  { destruct Hd as (? & ? & ? & ? & ? & ?). by split_and!. }
  refine (ends_bind _ _ _ _ (undo_op_doc _ _ op H0) _). intros [c s1] [Ec H1]. cbn [fst snd] in *. subst c.
  refine (settle_doc s1 _ (op_before op)
    (λ s2, put_redo_ops (op :: redo_ops s2) (put_coalesce None (put_dirty true s2))) ops (op :: doc_redo d) None H1 _).
  intros s2 (? & ? & ? & ? & Er & ?). cbn in Er. split_and!; [done..| |done]. cbn. by rewrite Er.
Qed.
Lemma redo_doc s d : doc s d → ends (redo s) (λ s', doc s' (redone d)).
Proof.
  intros Hd. unfold redo, redone. replace (redo_ops s) with (doc_redo d) by (symmetry; apply Hd).
  destruct (doc_redo d) as [|op ops] eqn:E; [by apply ends_done|].
  assert (doc (put_redo_ops ops s) (with_history (doc_undo d) ops (doc_kind d) d)) as H0.
  { destruct Hd as (? & ? & ? & ? & ? & ?). by split_and!. }
  refine (ends_bind _ _ _ _ (redo_op_doc _ _ op H0) _). intros [c s1] [Ec H1]. cbn [fst snd] in *. subst c.
  refine (settle_doc s1 _ (op_after op)
    (λ s2, put_undo_ops (op :: undo_ops s2) (put_coalesce None (put_dirty true s2))) (op :: doc_undo d) ops None H1 _).
  intros s2 (? & ? & ? & Eu & ? & ?). cbn in Eu. split_and!; [done..| |done|done]. cbn. by rewrite Eu.
Qed.

(** ** Deleting *)

Definition erase_record (extending : bool) (start : nat) (removed : text) (u : list UndoOp) : list UndoOp :=
  match u with
  | Deleted prev_start prev_text before after :: ops =>
      if extending && (prev_start =? start + 1)
      then Deleted start (removed ++ prev_text) before start :: ops
      else capped (Deleted start removed (start + 1) start :: u)
  | _ => capped (Deleted start removed (start + 1) start :: u)
  end.
(** The document without the code point before, or behind, the cursor. *)
Definition erased (d : Doc) : Doc :=
  match doc_cursor d with
  | O => d
  | S c =>
      mkDoc (spliced c 1 [] (doc_text d)) c c
        (erase_record (bool_decide (doc_kind d = Some Backspace)) c (take 1 (drop c (doc_text d))) (doc_undo d)) [] (Some Backspace)
  end.
Definition erased_forward (d : Doc) : Doc :=
  if length (doc_text d) <=? doc_cursor d then d
  else
    let c := doc_cursor d in
    mkDoc (spliced c 1 [] (doc_text d)) c (doc_anchor d)
      (capped (Deleted c (take 1 (drop c (doc_text d))) c c :: doc_undo d)) [] None.
Definition forget_redo (d : Doc) : Doc := with_history (doc_undo d) [] (doc_kind d) d.
Definition deleting (step : Doc → Doc) (d : Doc) : Doc :=
  if selected d then forget_redo (cut_selection d) else step d.

Lemma forget_redo_doc s d : doc s d → doc (put_redo_ops [] s) (forget_redo d).
Proof. intros (? & ? & ? & ? & ? & ?). by split_and!. Qed.
Lemma ensure_only s d : doc s d → ends (ensure_cursor_visible s) (λ s', doc s' d).
Proof. intros Hd. apply (ends_mono _ _ _ (ensure_doc s d Hd)). by intros s' [? _]. Qed.

Lemma record_backspace_doc s d c removed extending :
  doc s d → extending = bool_decide (doc_kind d = Some Backspace) →
  doc (put_coalesce (Some Backspace) (record_backspace extending c removed (c + 1) s))
    (with_history (erase_record extending c removed (doc_undo d)) (doc_redo d) (Some Backspace) d).
Proof.
  intros Hd ->. pose proof (push_undo_doc s d (Deleted c removed (c + 1) c) Hd) as (? & ? & ? & ? & ? & _).
  destruct Hd as (? & ? & ? & Eu & ? & Ek). unfold record_backspace, erase_record. rewrite Eu.
  destruct (doc_undo d) as [|[]]; [by split_and!|..|by split_and!]; [by split_and!|case_match; by split_and!].
Qed.
Lemma backspace_doc s d : doc s d → ends (backspace s) (λ s', doc s' (deleting erased d)).
Proof.
  intros Hd. unfold backspace, deleting. refine (ends_bind _ _ _ _ (delete_selection_doc s d Hd) _).
  intros [b s1] [Eb H1]. cbn [fst snd] in *. subst b. destruct (selected d); [by apply ensure_only, forget_redo_doc|].
  clear Hd s. unfold erased. replace (cursor s1) with (doc_cursor d) by (symmetry; apply H1).
  destruct (doc_cursor d) as [|c] eqn:Ec; [by apply ends_done|]. cbn [Nat.eqb]. replace (S c - 1) with c by lia.
  refine (ends_bind _ _ _ _ (splice_out_doc s1 d c (S c) H1) _). intros [removed s2] [Er H2]. cbn [fst snd] in *. subst removed.
  replace (S c - c) with 1 in * by lia. replace (S c) with (c + 1) by lia.
  refine (settle_doc s2 _ c
    (λ s3, let s4 := put_redo_ops [] (put_dirty true s3) in
           put_coalesce (Some Backspace) (record_backspace (bool_decide (coalesce s4 = Some Backspace)) c
             (take 1 (drop c (doc_text d))) (c + 1) s4)) _ [] (Some Backspace) H2 _).
  intros s3 H3. cbv zeta. assert (doc (put_redo_ops [] (put_dirty true s3)) (mkDoc (spliced c 1 [] (doc_text d)) c c (doc_undo d) [] (doc_kind d))) as H4.
  { destruct H3 as (? & ? & ? & ? & ? & ?). by split_and!. }
  assert (coalesce (put_redo_ops [] (put_dirty true s3)) = doc_kind d) as -> by apply H4.
  destruct (record_backspace_doc _ _ c (take 1 (drop c (doc_text d))) _ H4 eq_refl) as (? & ? & ? & ? & ? & ?). by split_and!.
Qed.
Lemma delete_forward_doc s d : doc s d → ends (delete_forward s) (λ s', doc s' (deleting erased_forward d)).
Proof.
  intros Hd. unfold delete_forward, deleting. refine (ends_bind _ _ _ _ (delete_selection_doc s d Hd) _).
  intros [b s1] [Eb H1]. cbn [fst snd] in *. subst b. destruct (selected d); [by apply ensure_only, forget_redo_doc|].
  clear Hd s. unfold erased_forward. rewrite (len_contents _ _ (buffer_wf _ _ H1)).
  replace (cursor s1) with (doc_cursor d) by (symmetry; apply H1).
  destruct (_ <=? _); [by apply ends_done|]. set (c := doc_cursor d).
  refine (ends_bind _ _ _ _ (splice_out_doc s1 d c (c + 1) H1) _). intros [removed s2] [Er H2]. cbn [fst snd] in *. subst removed.
  replace (c + 1 - c) with 1 in * by lia. apply ends_done.
  refine (push_undo_doc (put_coalesce None (put_redo_ops [] (put_dirty true s2))) (mkDoc _ c (doc_anchor d) _ [] None) _ _).
  destruct H2 as (? & ? & ? & ? & ? & ?). by split_and!.
Qed.

(** ** More motion *)

(** A motion that leaves the cursor at [c], the selection extended or not. *)
Definition goes (s' : FeditState) (d : Doc) (c : nat) (extend : bool) : Prop :=
  doc s' (moved c (if extend then doc_anchor d else c) d).
Definition kept (s' : FeditState) (d : Doc) : Prop := doc s' d.

Lemma set_offset_pref s d offset extend :
  doc s d → offset ≤ length (doc_text d) →
  ends (s1 ← set_cursor_offset offset extend s; set_pref s1) (λ s', goes s' d offset extend).
Proof.
  intros Hd Ho. refine (ends_bind _ _ _ _ (set_cursor_offset_doc s d offset extend Hd) _). intros s1 [H1 _].
  cbv zeta in H1. rewrite Nat.min_l in H1 by done. apply (ends_mono _ _ _ (set_pref_doc _ _ H1)). by intros s' [? _].
Qed.
Lemma set_rc_pref s d row col extend :
  doc s d → ends (s1 ← set_cursor_rc row col extend s; set_pref s1) (λ s', goes s' d (row_offset (doc_text d) row col) extend).
Proof.
  intros Hd. refine (ends_bind _ _ _ _ (set_cursor_rc_doc s d row col extend Hd) _). intros s1 [H1 _].
  apply (ends_mono _ _ _ (set_pref_doc _ _ H1)). by intros s' [? _].
Qed.
Lemma to_row_doc s d row extend :
  doc s d → ends (to_row row extend s)
              (λ s', goes s' d (row_offset (doc_text d) row (pref_col s)) extend ∧ pref_col s' = pref_col s).
Proof.
  intros Hd. unfold to_row. refine (ends_bind _ _ _ _ (set_cursor_rc_doc s d row (pref_col s) extend Hd) _).
  intros s1 [H1 _]. by apply ends_done.
Qed.
