(* ===== verification/EditMotion.v ===== *)
(** * The editor's cursor moves

    Motion never changes the text or the history; each motion ends at the
    place it is named for, and extends the selection or drops it. *)
From stdpp Require Import strings.
From S2P Require Import Prelude Bytes Rope RopeBuffer RopeFacts BufferFacts Utf8Facts Edit EditFacts.
#[local] Open Scope nat_scope.
#[local] Open Scope edit_scope.

(** The document of [s'] is [d] but for the cursor and the anchor. *)
Definition at_cursor (d : Doc) (c : nat) (extend : bool) (s' : FeditState) : Prop :=
  ∃ k, doc s' (mkDoc (doc_text d) c (if extend then doc_anchor d else c) (doc_undo d) (doc_redo d) k).
Lemma goes_at s' d c extend : goes s' d c extend → at_cursor d c extend s'.
Proof. intros H. by eexists. Qed.
(** Besides, vertical motion aims for the cursor's column from now on. *)
Definition aimed (d : Doc) (c : nat) (extend : bool) (s' : FeditState) : Prop :=
  at_cursor d c extend s' ∧ pref_col s' = (position (doc_text d) c).2.

Section Offsets.
  Context (s : FeditState) (d : Doc) (Hd : doc s d).

Lemma offset_at offset extend :
  ends (s1 ← set_cursor_offset offset extend s; set_pref s1) (aimed d (Nat.min offset (length (doc_text d))) extend).
Proof using Hd.
  refine (ends_bind _ _ _ _ (set_cursor_offset_doc s d offset extend Hd) _). intros s1 [H1 _].
  refine (ends_mono _ _ _ (set_pref_doc _ _ H1) _). intros s' [? ?]. split; [by eexists|done].
Qed.
(** The cursor stays. *)
Lemma stays_at extend : extend = true ∨ selected d = false → ends (set_pref s) (aimed d (doc_cursor d) extend).
Proof using Hd.
  intros He. refine (ends_mono _ _ _ (set_pref_doc _ _ Hd) _). intros s' [H ?]. split; [|done]. exists (doc_kind d).
  destruct He as [-> | E]; [by destruct d|]. unfold selected in E. apply negb_false_iff, Nat.eqb_eq in E.
  destruct d, extend; cbn in *; by subst.
Qed.

Lemma collapse_doc pick extend : collapse pick extend s =
  if negb extend && selected d then Some (pick (sel_lo d, sel_hi d)) else None.
Proof using Hd.
  unfold collapse. rewrite (selection_doc _ _ Hd). unfold selected. destruct extend; [done|]. by destruct (_ =? _).
Qed.

Definition left_of (extend : bool) : nat :=
  if negb extend && selected d then Nat.min (sel_lo d) (length (doc_text d))
  else if 0 <? doc_cursor d then Nat.min (doc_cursor d - 1) (length (doc_text d)) else 0.
Definition right_of (extend : bool) : nat :=
  if negb extend && selected d then Nat.min (sel_hi d) (length (doc_text d))
  else if doc_cursor d <? length (doc_text d) then doc_cursor d + 1 else doc_cursor d.

Lemma unselected_cases extend : negb extend && selected d = false → extend = true ∨ selected d = false.
Proof. destruct extend, (selected d); auto. Qed.
Lemma move_left_at extend : ends (move_left extend s) (aimed d (left_of extend) extend).
Proof using Hd.
  unfold move_left, left_of. rewrite collapse_doc. replace (cursor s) with (doc_cursor d) by (symmetry; apply Hd).
  destruct (negb extend && selected d) eqn:E.
  - destruct extend; [done|]. apply offset_at.
  - destruct (Nat.ltb_spec 0 (doc_cursor d)) as [Hlt|Hge]; [apply offset_at|].
    replace 0 with (doc_cursor d) by lia. cbn [mbind outcome_bind]. by apply stays_at, unselected_cases.
Qed.
Lemma move_right_at extend : ends (move_right extend s) (aimed d (right_of extend) extend).
Proof using Hd.
  unfold move_right, right_of. rewrite collapse_doc, (len_contents _ _ (buffer_wf _ _ Hd)).
  replace (cursor s) with (doc_cursor d) by (symmetry; apply Hd).
  destruct (negb extend && selected d) eqn:E.
  - destruct extend; [done|]. apply offset_at.
  - destruct (Nat.ltb_spec (doc_cursor d) (length (doc_text d))) as [Hlt|Hge].
    + rewrite <- (Nat.min_l (doc_cursor d + 1) (length (doc_text d))) at 2 by lia. apply offset_at.
    + cbn [mbind outcome_bind]. by apply stays_at, unselected_cases.
Qed.
End Offsets.

(** ** Rows *)

Definition row_of (d : Doc) : nat := (position (doc_text d) (doc_cursor d)).1.
Lemma row_le d : row_of d ≤ count_newlines (doc_text d).
Proof.
  unfold row_of, position. rewrite position_last. cbn [fst].
  rewrite <- (take_drop (doc_cursor d) (doc_text d)) at 2. rewrite count_newlines_app. lia.
Qed.

Section Rows.
  Context (s : FeditState) (d : Doc) (Hd : doc s d) (extend : bool).
Definition row_at (row col : nat) : FeditState → Prop := at_cursor d (row_offset (doc_text d) row col) extend.

Lemma rc_at row col : ends (s1 ← set_cursor_rc row col extend s; set_pref s1) (aimed d (row_offset (doc_text d) row col) extend).
Proof using Hd.
  refine (ends_bind _ _ _ _ (set_cursor_rc_doc s d row col extend Hd) _). intros s1 [H1 _].
  refine (ends_mono _ _ _ (set_pref_doc _ _ H1) _). intros s' [? ?]. split; [by eexists|done].
Qed.
Lemma to_row_at row : ends (to_row row extend s) (λ s', row_at row (pref_col s) s' ∧ pref_col s' = pref_col s).
Proof using Hd. refine (ends_mono _ _ _ (to_row_doc s d row extend Hd) _). intros s' [H ?]. split; [by apply goes_at|done]. Qed.

Lemma move_up_at :
  ends (move_up extend s) (λ s', pref_col s' = pref_col s ∧
    if row_of d =? 0 then doc s' d else row_at (row_of d - 1) (pref_col s) s').
Proof using Hd.
  unfold move_up. rewrite (cursor_row_doc s d Hd). cbn [mbind outcome_bind]. fold (row_of d).
  destruct (row_of d =? 0); [by apply ends_done|]. refine (ends_mono _ _ _ (to_row_at _) _). tauto.
Qed.
Lemma move_down_at :
  ends (move_down extend s) (λ s', pref_col s' = pref_col s ∧
    if count_newlines (doc_text d) <=? row_of d then doc s' d else row_at (row_of d + 1) (pref_col s) s').
Proof using Hd.
  unfold move_down. rewrite (cursor_row_doc s d Hd), (line_count_contents _ _ (buffer_wf _ _ Hd)). cbn [mbind outcome_bind]. fold (row_of d).
  replace (count_newlines (doc_text d) + 1 <=? row_of d + 1) with (count_newlines (doc_text d) <=? row_of d).
  2: { apply eq_true_iff_eq. rewrite !Nat.leb_le. lia. }
  destruct (_ <=? _); [by apply ends_done|]. refine (ends_mono _ _ _ (to_row_at _) _). tauto.
Qed.
Lemma move_home_at : ends (move_home extend s) (λ s', row_at (row_of d) 0 s' ∧ pref_col s' = 0).
Proof using Hd.
  unfold move_home. rewrite (cursor_row_doc s d Hd). cbn [mbind outcome_bind]. fold (row_of d).
  refine (ends_bind _ _ _ _ (set_cursor_rc_doc s d (row_of d) 0 extend Hd) _). intros s1 [H1 _].
  apply ends_done. split; [by eexists|done].
Qed.
Lemma move_end_at : ends (move_end extend s) (λ s', row_at (row_of d) (line_to (doc_text d) (row_of d)) s' ∧
  pref_col s' = line_to (doc_text d) (row_of d) - line_from (doc_text d) (row_of d)).
Proof using Hd.
  unfold move_end. rewrite (cursor_row_doc s d Hd). cbn [mbind outcome_bind]. fold (row_of d).
  rewrite (line_len_doc s d Hd), (proj2 (Nat.leb_le _ _) (row_le d)). cbn [mbind outcome_bind].
  refine (ends_mono _ _ _ (rc_at _ _) _). intros s' [H Hp]. rewrite position_row_offset in Hp. cbn [snd] in Hp. revert H Hp.
  unfold row_at, row_offset, clamp_row. rewrite (Nat.min_l (row_of d)) by apply row_le.
  rewrite Nat.min_id, (Nat.min_r _ (_ - _)) by lia. intros H Hp. by split.
Qed.
Lemma page_up_at :
  ends (page_up extend s) (λ s', row_at (row_of d - Nat.max (view_rows s) 1) (pref_col s) s' ∧ pref_col s' = pref_col s).
Proof using Hd. unfold page_up. rewrite (cursor_row_doc s d Hd). cbn [mbind outcome_bind]. apply to_row_at. Qed.
Lemma page_down_at :
  ends (page_down extend s) (λ s', row_at (row_of d + Nat.max (view_rows s) 1) (pref_col s) s' ∧ pref_col s' = pref_col s).
Proof using Hd.
  unfold page_down. rewrite (cursor_row_doc s d Hd), (line_count_contents _ _ (buffer_wf _ _ Hd)). cbn [mbind outcome_bind].
  fold (row_of d). refine (ends_mono _ _ _ (to_row_at _) _). intros s'. unfold row_at, row_offset, clamp_row.
  rewrite Nat.add_sub. by rewrite <- Nat.min_assoc, Nat.min_id.
Qed.
End Rows.

(** ** Words *)

Definition not_ws (c : Z) : bool := negb (is_ws_cp c).
Definition next_word (t : text) (i : nat) : nat :=
  let j := i + length (take_while not_ws (drop i t)) in j + length (take_while is_ws_cp (drop j t)).
Definition prev_word (t : text) (i : nat) : nat :=
  let j := i - length (take_while is_ws_cp (reverse (take i t))) in
  j - length (take_while not_ws (reverse (take j t))).

Lemma cp_at_text b t i : represents b t → cp_at b i = Done (default 0%Z (t !! i)).
Proof. intros Hb. unfold cp_at. by rewrite (char_at_text _ _ _ Hb). Qed.
Lemma skip_forward_text p b t fuel i :
  represents b t → length t - i ≤ fuel →
  skip_forward p b (length t) fuel i = Done (i + length (take_while p (drop i t))).
Proof.
  intros Hb. revert i. induction fuel as [|fuel IH]; intros i Hf; cbn [skip_forward];
    (destruct (Nat.ltb_spec i (length t)) as [Hlt|Hge]; [|by rewrite drop_ge, Nat.add_0_r by lia]); [lia|].
  destruct (lookup_lt_is_Some_2 _ _ Hlt) as [cp Hcp]. rewrite (cp_at_text _ _ _ Hb), Hcp. cbn [mbind outcome_bind default from_option].
  rewrite (drop_S _ _ _ Hcp). cbn [take_while]. unfold id. destruct (p cp); [|by rewrite Nat.add_0_r].
  rewrite IH by lia. rewrite Nat.add_1_r. cbn [length]. f_equal. lia.
Qed.
Lemma skip_back_text p b t i :
  represents b t → i ≤ length t → skip_back p b i = Done (i - length (take_while p (reverse (take i t)))).
Proof.
  intros Hb. induction i as [|i IH]; intros Hi; [done|]. cbn [skip_back].
  destruct (lookup_lt_is_Some_2 t i Hi) as [cp Hcp]. rewrite (cp_at_text _ _ _ Hb), Hcp. cbn [mbind outcome_bind default from_option].
  rewrite (take_S_r _ _ _ Hcp), reverse_snoc. cbn [take_while]. unfold id. destruct (p cp); [|done]. by rewrite IH by lia.
Qed.
Lemma skip_back_total p b t i : represents b t → ends (skip_back p b i) (λ _, True).
Proof.
  intros Hb. induction i as [|i IH]; [by apply ends_done|]. cbn [skip_back]. rewrite (cp_at_text _ _ _ Hb).
  cbn [mbind outcome_bind]. destruct (p _); [done|by apply ends_done].
Qed.

Lemma take_while_length p t : length (take_while p t) ≤ length t.
Proof. induction t as [|c t IH]; [done|]. cbn. destruct (p c); cbn; lia. Qed.
Lemma next_word_le t i : i ≤ length t → next_word t i ≤ length t.
Proof.
  intros Hi. unfold next_word. set (j := i + _).
  pose proof (take_while_length not_ws (drop i t)) as H1. pose proof (take_while_length is_ws_cp (drop j t)) as H2.
  rewrite !length_drop in *. unfold j in *. lia.
Qed.

Lemma move_next_word_at s d extend :
  doc s d → ends (move_next_word extend s)
              (aimed d (Nat.min (next_word (doc_text d) (doc_cursor d)) (length (doc_text d))) extend).
Proof.
  intros Hd. pose proof (buffer_wf _ _ Hd) as Hb. unfold move_next_word. rewrite (len_contents _ _ Hb).
  replace (cursor s) with (doc_cursor d) by (symmetry; apply Hd).
  rewrite (skip_forward_text _ _ _ _ _ Hb) by lia. cbn [mbind outcome_bind].
  rewrite (skip_forward_text _ _ _ _ _ Hb) by lia. cbn [mbind outcome_bind]. by apply offset_at.
Qed.
Lemma move_prev_word_at s d extend :
  doc s d → doc_cursor d ≤ length (doc_text d) →
  ends (move_prev_word extend s) (aimed d (prev_word (doc_text d) (doc_cursor d)) extend).
Proof.
  intros Hd Hc. pose proof (buffer_wf _ _ Hd) as Hb. unfold move_prev_word.
  replace (cursor s) with (doc_cursor d) by (symmetry; apply Hd).
  rewrite (skip_back_text _ _ _ _ Hb) by done. cbn [mbind outcome_bind].
  rewrite (skip_back_text _ _ _ _ Hb) by lia. cbn [mbind outcome_bind]. refine (ends_mono _ _ _ (offset_at _ _ Hd _ extend) _). intros s'.
  by rewrite Nat.min_l by lia.
Qed.
Lemma move_prev_word_total s d extend :
  doc s d → ends (move_prev_word extend s) (λ s', ∃ c, c ≤ length (doc_text d) ∧ at_cursor d c extend s').
Proof.
  intros Hd. pose proof (buffer_wf _ _ Hd) as Hb. unfold move_prev_word.
  refine (ends_bind _ _ _ _ (skip_back_total _ _ _ _ Hb) _). intros i _.
  refine (ends_bind _ _ _ _ (skip_back_total _ _ _ _ Hb) _). intros j _.
  refine (ends_mono _ _ _ (offset_at _ _ Hd j extend) _). intros s' [H _]. eexists. split; [|exact H]. lia.
Qed.

(** ** The motions *)

(** The cursor ends at column [col] of row [row], or at the row's end. *)
Definition lands (d : Doc) (row col : nat) (extend : bool) (s' : FeditState) : Prop :=
  ∃ c line, split_lines (doc_text d) !! row = Some line ∧ c ≤ length (doc_text d) ∧
    position (doc_text d) c = (row, Nat.min col (length line)) ∧ at_cursor d c extend s'.
Lemma row_at_lands d extend row col s' :
  row_at d extend row col s' → lands d (Nat.min row (count_newlines (doc_text d))) col extend s'.
Proof.
  intros H. set (t := doc_text d) in *. set (r := Nat.min row (count_newlines t)). assert (r ≤ count_newlines t) as Hle by (unfold r; lia).
  pose proof (line_from_to t r Hle) as Hr.
  exists (row_offset t row col). eexists. split; [by apply split_lines_nth|]. split; [apply row_offset_le|]. split; [|exact H].
  rewrite position_row_offset, length_take, length_drop. unfold clamp_row. fold t r. f_equal. lia.
Qed.

(** C35: motions end where they should.  From a cursor in the text, no motion
    panics or changes the text and the history; left and right go one code
    point, or to the end of a selection they drop; up, down and the pages keep
    the column they aim for, which short lines do not change, and stay in the
    text; home and end go to the ends of the line; and the word motions pass
    the rest of a word and the white space behind it, or the white space before
    the cursor and the word before that.  (The comment at [move_next_word] has the
    motion stop at the white space after the next token; the code goes on to
    the first code point of the next one.)  The motions other than up, down and
    the pages make the column they end in the one to aim for. *)
Theorem motions_move (s : FeditState) (d : Doc) (extend : bool)
    (Hd : doc s d) (Hc : doc_cursor d ≤ length (doc_text d)) (Ha : doc_anchor d ≤ length (doc_text d)) :
  let t := doc_text d in let r := row_of d in
  ends (move_left extend s) (aimed d (if negb extend && selected d then sel_lo d else doc_cursor d - 1) extend) ∧
  ends (move_right extend s)
    (aimed d (if negb extend && selected d then sel_hi d else Nat.min (doc_cursor d + 1) (length t)) extend) ∧
  ends (move_up extend s) (λ s', pref_col s' = pref_col s ∧
    match r with O => doc s' d | S r' => lands d r' (pref_col s) extend s' end) ∧
  ends (move_down extend s) (λ s', pref_col s' = pref_col s ∧
    if r <? count_newlines t then lands d (r + 1) (pref_col s) extend s' else doc s' d) ∧
  ends (move_home extend s) (λ s', lands d r 0 extend s' ∧ pref_col s' = 0) ∧
  ends (move_end extend s) (λ s', ∃ line, split_lines t !! r = Some line ∧ lands d r (length line) extend s' ∧
    pref_col s' = length line) ∧
  ends (page_up extend s) (λ s', lands d (r - Nat.max (view_rows s) 1) (pref_col s) extend s' ∧ pref_col s' = pref_col s) ∧
  ends (page_down extend s) (λ s',
    lands d (Nat.min (r + Nat.max (view_rows s) 1) (count_newlines t)) (pref_col s) extend s' ∧ pref_col s' = pref_col s) ∧
  ends (move_next_word extend s) (aimed d (next_word t (doc_cursor d)) extend) ∧
  ends (move_prev_word extend s) (aimed d (prev_word t (doc_cursor d)) extend).
Proof.
  intros t r. pose proof (row_le d) as Hr. fold t r in Hr.
  assert (∀ row col s', row ≤ count_newlines t → row_at d extend row col s' → lands d row col extend s') as Hland.
  { intros row col s' Hrow H%row_at_lands. by rewrite Nat.min_l in H. }
  split_and!.
  - refine (ends_mono _ _ _ (move_left_at s d Hd extend) _). intros s'. unfold left_of.
    destruct (negb extend && selected d); [by rewrite Nat.min_l by (unfold sel_lo; lia)|].
    destruct (Nat.ltb_spec 0 (doc_cursor d)); [by rewrite Nat.min_l by lia|]. by replace (doc_cursor d - 1) with 0 by lia.
  - refine (ends_mono _ _ _ (move_right_at s d Hd extend) _). intros s'. unfold right_of. fold t.
    destruct (negb extend && selected d); [by rewrite Nat.min_l by (unfold sel_hi, t; lia)|].
    destruct (Nat.ltb_spec (doc_cursor d) (length t)); [by rewrite Nat.min_l by lia|].
    by replace (Nat.min (doc_cursor d + 1) (length t)) with (doc_cursor d) by (unfold t in *; lia).
  - refine (ends_mono _ _ _ (move_up_at s d Hd extend) _). intros s' [Hp H]. split; [done|]. fold r in H.
    destruct r as [|r']; [done|]. cbn [Nat.eqb] in H. replace (S r' - 1) with r' in H by lia. apply Hland; [lia|done].
  - refine (ends_mono _ _ _ (move_down_at s d Hd extend) _). intros s' [Hp H]. split; [done|]. fold r t in H.
    destruct (Nat.leb_spec (count_newlines t) r); [by rewrite (proj2 (Nat.ltb_ge _ _))|].
    rewrite (proj2 (Nat.ltb_lt _ _)) by done. apply Hland; [lia|done].
  - refine (ends_mono _ _ _ (move_home_at s d Hd extend) _). intros s' [H Hp]. split; [by apply Hland|done].
  - refine (ends_mono _ _ _ (move_end_at s d Hd extend) _). intros s' [H Hp]. pose proof (line_from_to t r Hr) as Hl.
    eexists. split; [by apply split_lines_nth|]. fold t r in H, Hp. rewrite length_take, length_drop.
    split; [|rewrite Hp; lia]. apply Hland; [done|]. revert H. unfold row_at, row_offset, clamp_row.
    rewrite (Nat.min_l r) by done. fold t.
    by replace (Nat.min (Nat.min (line_to t r - line_from t r) (length t - line_from t r)) (line_to t r - line_from t r))
      with (Nat.min (line_to t r) (line_to t r - line_from t r)) by lia.
  - refine (ends_mono _ _ _ (page_up_at s d Hd extend) _). intros s' [H Hp]. split; [|done]. apply Hland; [lia|done].
  - refine (ends_mono _ _ _ (page_down_at s d Hd extend) _). intros s' [H Hp]. split; [|done]. by apply row_at_lands.
  - rewrite <- (Nat.min_l (next_word t (doc_cursor d)) (length t)) by by apply next_word_le. by apply move_next_word_at.
  - by apply move_prev_word_at.
Qed.

Definition two_lines : FeditState := mkFedit (mkRope (leaf [65; 66; 10; 67]%Z)) 2 2 2 0 None false Forth 0 false [] [] None true [] true [].
Lemma two_lines_doc : doc two_lines (doc_of two_lines).
Proof. apply doc_of_ok, wf_leaf. vm_compute. lia. Qed.
Lemma motions_move_witness :
  ends (move_down true two_lines) (λ s', pref_col s' = 2 ∧ lands (doc_of two_lines) 1 2 true s') ∧
  ends (page_down true two_lines) (λ s', lands (doc_of two_lines) 1 2 true s' ∧ pref_col s' = 2) ∧
  ends (move_next_word true two_lines) (aimed (doc_of two_lines) 3 true) ∧
  row_of (doc_of two_lines) = 0 ∧ split_lines [65; 66; 10; 67]%Z !! 1 = Some [67]%Z.
Proof.
  destruct (motions_move two_lines (doc_of two_lines) true two_lines_doc) as (_ & _ & _ & H & _ & _ & _ & H2 & H3 & _); [vm_compute; lia..|].
  split; [exact H|]. split; [exact H2|]. split; [exact H3|]. split; reflexivity.
Defined.
