(* ===== verification/EditMessages.v ===== *)
(** * What a message does to the document

    Every message ends without a panic, whatever the text, the records and the
    cursor are; and it is a motion, an insertion, a deletion, an undo, a redo
    or a load. *)
From stdpp Require Import strings.
From S2P Require Import Prelude Bytes Rope RopeBuffer RopeFacts BufferFacts Utf8Facts Edit EditWindow EditFacts EditMotion.
#[local] Open Scope nat_scope.
#[local] Open Scope edit_scope.

(** Messages that may insert text that is only a byte order mark. *)
Definition blank (h : Host) (m : Message) : Prop := m = WM_CHAR 65279 ∨ clipboard_get h = Some BOM.

Inductive effect (b : Prop) (d : Doc) : Doc → Prop :=
  | eff_move c a k :
      c ≤ length (doc_text d) ∨ c = doc_cursor d →
      a ≤ length (doc_text d) ∨ a = doc_anchor d ∨ a = doc_cursor d →
      effect b d (mkDoc (doc_text d) c a (doc_undo d) (doc_redo d) k)
  | eff_insert kind cps : (cps = [] → b) → effect b d (inserted_doc kind cps d)
  | eff_erase : effect b d (deleting erased d)
  | eff_erase_forward : effect b d (deleting erased_forward d)
  | eff_cut : selected d = true → effect b d (forget_redo (cut_selection d)).
#[local] Hint Constructors effect : core.

Definition does (b : Prop) (d : Doc) (s' : FeditState) : Prop := ∃ d', doc s' d' ∧ effect b d d'.

(** ** Motions *)

Lemma eff_same b d : effect b d d.
Proof. destruct d as [t c a u r k]. refine (eff_move b (mkDoc t c a u r k) c a k _ _); auto. Qed.
Lemma does_same b s d : doc s d → does b d s.
Proof. intros Hd. exists d. split; [done|apply eff_same]. Qed.
Lemma does_at b d c extend s' :
  at_cursor d c extend s' → c ≤ length (doc_text d) ∨ c = doc_cursor d → does b d s'.
Proof. intros [k H] Hc. eexists. split; [exact H|]. apply eff_move; [done|]. destruct extend; tauto. Qed.

Section Motions.
  Context (b : Prop) (s : FeditState) (d : Doc) (Hd : doc s d) (extend : bool).

Lemma does_left : ends (move_left extend s) (does b d).
Proof using Hd.
  refine (ends_mono _ _ _ (move_left_at s d Hd extend) _). intros s' [H _]. refine (does_at _ _ _ _ _ H _). unfold left_of.
  destruct (negb extend && selected d); [|destruct (_ <? _)]; lia.
Qed.
Lemma does_right : ends (move_right extend s) (does b d).
Proof using Hd.
  refine (ends_mono _ _ _ (move_right_at s d Hd extend) _). intros s' [H _]. refine (does_at _ _ _ _ _ H _). unfold right_of.
  destruct (negb extend && selected d); [|destruct (Nat.ltb_spec (doc_cursor d) (length (doc_text d)))]; lia.
Qed.
Lemma does_row row col s' : row_at d extend row col s' → does b d s'.
Proof. intros H. refine (does_at _ _ _ _ _ H _). left. apply row_offset_le. Qed.
Lemma does_up : ends (move_up extend s) (does b d).
Proof using Hd.
  refine (ends_mono _ _ _ (move_up_at s d Hd extend) _). intros s' [_ H].
  destruct (_ =? _); [by apply does_same|by eapply does_row].
Qed.
Lemma does_down : ends (move_down extend s) (does b d).
Proof using Hd.
  refine (ends_mono _ _ _ (move_down_at s d Hd extend) _). intros s' [_ H].
  destruct (_ <=? _); [by apply does_same|by eapply does_row].
Qed.
Lemma does_home : ends (move_home extend s) (does b d).
Proof using Hd. refine (ends_mono _ _ _ (move_home_at s d Hd extend) _). intros s' [H _]. by eapply does_row. Qed.
Lemma does_end : ends (move_end extend s) (does b d).
Proof using Hd. refine (ends_mono _ _ _ (move_end_at s d Hd extend) _). intros s' [H _]. by eapply does_row. Qed.
Lemma does_page_up : ends (page_up extend s) (does b d).
Proof using Hd. refine (ends_mono _ _ _ (page_up_at s d Hd extend) _). intros s' [H _]. by eapply does_row. Qed.
Lemma does_page_down : ends (page_down extend s) (does b d).
Proof using Hd. refine (ends_mono _ _ _ (page_down_at s d Hd extend) _). intros s' [H _]. by eapply does_row. Qed.
Lemma does_next_word : ends (move_next_word extend s) (does b d).
Proof using Hd. refine (ends_mono _ _ _ (move_next_word_at s d extend Hd) _). intros s' [H _]. refine (does_at _ _ _ _ _ H _). lia. Qed.
Lemma does_prev_word : ends (move_prev_word extend s) (does b d).
Proof using Hd.
  refine (ends_mono _ _ _ (move_prev_word_total s d extend Hd) _). intros s' (c & Hc & H). refine (does_at _ _ _ _ _ H _). by left.
Qed.
Lemma does_rc row col : ends (s1 ← set_cursor_rc row col extend s; set_pref s1) (does b d).
Proof using Hd. refine (ends_mono _ _ _ (rc_at s d Hd extend row col) _). intros s' [H _]. by eapply does_row. Qed.
End Motions.

Lemma does_select_all b s d : doc s d → ends (select_all s) (does b d).
Proof.
  intros Hd. unfold select_all. rewrite (len_contents _ _ (buffer_wf _ _ Hd)). set (n := length (doc_text d)).
  assert (doc (put_cursor n (put_anchor 0 s)) (mkDoc (doc_text d) n 0 (doc_undo d) (doc_redo d) (doc_kind d))) as H0.
  { destruct Hd as (? & ? & ? & ? & ? & ?). by split_and!. }
  refine (ends_bind _ _ _ _ (set_pref_doc _ _ H0) _). intros s1 [H1 _].
  refine (ends_mono _ _ _ (ensure_only (put_coalesce None s1) (mkDoc (doc_text d) n 0 (doc_undo d) (doc_redo d) None) _) _).
  { destruct H1 as (? & ? & ? & ? & ? & ?). by split_and!. }
  intros s' H. eexists. split; [exact H|]. apply eff_move; [by left|left; lia].
Qed.
Lemma does_click b s d r c extend : doc s d → ends (click r c extend s) (does b d).
Proof. intros Hd. unfold click. destruct (pos_at_cell r c s). by apply does_rc. Qed.
Lemma does_drag b s d r c : doc s d → ends (drag_to r c s) (does b d).
Proof.
  intros Hd. pose proof (buffer_wf _ _ Hd) as Hb. unfold drag_to. destruct (negb _); [by apply ends_done, does_same|].
  destruct (pos_at_cell r c s) as [row col] eqn:E. rewrite (line_len_doc s d Hd). cbn [mbind outcome_bind].
  assert (row ≤ count_newlines (doc_text d)) as Hr.
  { unfold pos_at_cell in E. injection E as <- _. rewrite (line_count_contents _ _ Hb). lia. }
  rewrite (line_col_text _ _ _ _ Hb Hr). cbn [mbind outcome_bind]. set (o := _ + _).
  assert (o ≤ length (doc_text d)) as Ho by (unfold o; pose proof (line_from_to _ _ Hr); lia).
  assert (doc (put_cursor o s) (mkDoc (doc_text d) o (doc_anchor d) (doc_undo d) (doc_redo d) (doc_kind d))) as H0.
  { destruct Hd as (? & ? & ? & ? & ? & ?). by split_and!. }
  refine (ends_bind _ _ _ _ (set_pref_doc _ _ H0) _). intros s1 [H1 _].
  refine (ends_mono _ _ _ (ensure_only (put_coalesce None s1) (mkDoc (doc_text d) o (doc_anchor d) (doc_undo d) (doc_redo d) None) _) _).
  { destruct H1 as (? & ? & ? & ? & ? & ?). by split_and!. }
  intros s' H. eexists. split; [exact H|]. apply eff_move; auto.
Qed.
Lemma does_jump b s d : doc s d → ends (jump_to_next_diagnostic s) (does b d).
Proof.
  intros Hd. unfold jump_to_next_diagnostic. rewrite (cursor_row_doc s d Hd). cbn [mbind outcome_bind].
  destruct (next_diagnostic _ _); [by apply does_rc|by apply ends_done, does_same].
Qed.

(** ** Insertions *)

Lemma decode_nil s : decode_utf8 s = [] → s = ""%string.
Proof.
  destruct s as [|b s]; [done|]. cbn [decode_utf8]. intros H. exfalso. revert H.
  repeat case_match; done.
Qed.
(** Only the mark alone is read as nothing. *)
Lemma reads_nothing s : utf8_to_codepoints s = [] → s = ""%string ∨ s = BOM.
Proof.
  unfold utf8_to_codepoints. destruct (strip_prefix BOM s) as [r|] eqn:E; intros ->%decode_nil; [right|by left].
  apply strip_prefix_Some in E. by rewrite E.
Qed.
Lemma reads_char c : is_scalar c = true → utf8_to_codepoints (encode_char c) = [] → c = 65279%Z.
Proof.
  intros Hc H%reads_nothing. assert (∀ cp, is_scalar cp = true → cp ≠ 13%Z → decode_utf8 (encode_char cp) = [cp]) as Hdec.
  { intros cp ? ?. rewrite <- (str_app_nil_r (encode_char cp)). by rewrite decode_char. }
  destruct (decide (c = 13%Z)) as [->|Hcr]; [by destruct H|]. specialize (Hdec c Hc Hcr).
  destruct H as [E | E]; rewrite E in Hdec; [done|]. by injection Hdec as <-.
Qed.
Lemma reads_plain cps :
  Forall (λ c, c = NEWLINE ∨ is_blank c = true) cps → utf8_to_codepoints (codepoints_to_utf8 cps) = cps.
Proof.
  intros H. rewrite utf8_roundtrip.
  - assert (scrub <$> cps = cps) as ->.
    { induction H as [|c l Hc _ IH]; [done|]. cbn. rewrite IH. f_equal.
      destruct Hc as [-> | [->%Z.eqb_eq | ->%Z.eqb_eq]%orb_true_iff]; done. }
    destruct H as [|c l Hc _]; [done|]. destruct Hc as [-> | [->%Z.eqb_eq | ->%Z.eqb_eq]%orb_true_iff]; done.
  - refine (Forall_impl _ _ _ H _). intros c [-> | [->%Z.eqb_eq | ->%Z.eqb_eq]%orb_true_iff]; done.
Qed.

Lemma take_while_all p t : Forall (λ c, p c = true) (take_while p t).
Proof. induction t as [|c t IH]; [constructor|]. cbn. destruct (p c) eqn:E; [by constructor|constructor]. Qed.
Lemma auto_indent_blank s d : doc s d → ends (compute_auto_indent s) (Forall (λ c, is_blank c = true)).
Proof.
  intros Hd. unfold compute_auto_indent. rewrite (cursor_row_doc s d Hd), (cursor_col_doc s d Hd). cbn [mbind outcome_bind].
  destruct (_ <=? _); [apply ends_done; constructor|]. apply ends_done.
  pose proof (take_while_all is_blank (line_text s (position (doc_text d) (doc_cursor d)).1)).
  destruct (0 <? _)%Z; [|done]. apply Forall_app. split; [done|]. by repeat constructor.
Qed.

(** An insertion of code points that are known. *)
Definition inserts (kind : option CoalesceKind) (d : Doc) (cps : text) (s' : FeditState) : Prop :=
  doc s' (inserted_doc kind cps d).
Lemma insert_newline_doc s d :
  doc s d → ends (insert_newline s) (λ s', ∃ indent, Forall (λ c, is_blank c = true) indent ∧ inserts None d (NEWLINE :: indent) s').
Proof.
  intros Hd. unfold insert_newline. refine (ends_bind _ _ _ _ (auto_indent_blank s d Hd) _). intros indent Hi.
  refine (ends_mono _ _ _ (do_insert_doc s d _ None Hd) _). intros s' H. exists indent. split; [done|].
  rewrite reads_plain in H; [done|]. constructor; [by left|]. refine (Forall_impl _ _ _ Hi _). by right.
Qed.
Lemma soft_tab_doc s d :
  doc s d → ends (soft_tab s) (λ s', ∃ col, inserts None d (repeat 32%Z (tab_pad col)) s').
Proof.
  intros Hd. unfold soft_tab. rewrite (cursor_rc_doc s d Hd). destruct (position _ _) as [row col]. cbn [mbind outcome_bind].
  set (n := buffer_col_to_display _ _). unfold insert_str.
  assert (0 < tab_pad n) as Hpad by (unfold tab_pad, TAB_WIDTH; pose proof (Nat.mod_upper_bound n 2); lia).
  rewrite bool_decide_false.
  2: { destruct (tab_pad n); [lia|]. done. }
  refine (ends_mono _ _ _ (do_insert_doc s d _ None Hd) _). intros s' H. exists n. rewrite reads_plain in H; [done|].
  apply Forall_forall. intros c Hc. apply list_elem_of_In, repeat_spec in Hc as ->. by right.
Qed.

Section Insertions.
  Context (b : Prop) (s : FeditState) (d : Doc) (Hd : doc s d).

Lemma does_insert kind cps s' : (cps = [] → b) → inserts kind d cps s' → does b d s'.
Proof. intros Hb H. eexists. split; [exact H|by apply eff_insert]. Qed.
Lemma does_newline : ends (insert_newline s) (does b d).
Proof using Hd. refine (ends_mono _ _ _ (insert_newline_doc s d Hd) _). intros s' (i & _ & H). by refine (does_insert _ _ _ _ H). Qed.
Lemma does_tab : ends (soft_tab s) (does b d).
Proof using Hd.
  refine (ends_mono _ _ _ (soft_tab_doc s d Hd) _). intros s' (col & H). refine (does_insert _ _ _ _ H).
  unfold tab_pad, TAB_WIDTH. pose proof (Nat.mod_upper_bound col 2). by destruct (2 - col mod 2) eqn:E; [lia|].
Qed.
Lemma does_char c : is_scalar c = true → (c = 65279%Z → b) → ends (insert_char c s) (does b d).
Proof using Hd.
  intros Hc Hb. refine (ends_mono _ _ _ (do_insert_doc s d _ (Some Insert) Hd) _). intros s' H. refine (does_insert _ _ _ _ H).
  intros E. apply Hb. by apply reads_char.
Qed.
Lemma does_paste h : (clipboard_get h = Some BOM → b) → ends (paste h s) (does b d).
Proof using Hd.
  intros Hb. unfold paste. destruct (clipboard_get h) as [t|]; [|by apply ends_done, does_same].
  case_bool_decide as Ht; [by apply ends_done, does_same|].
  refine (ends_mono _ _ _ (do_insert_doc s d t None Hd) _). intros s' H. refine (does_insert _ _ _ _ H).
  intros [E|E]%reads_nothing; [done|]. apply Hb. by rewrite E.
Qed.
Lemma does_backspace : ends (backspace s) (does b d).
Proof using Hd. refine (ends_mono _ _ _ (backspace_doc s d Hd) _). intros s' H. eexists. split; [exact H|constructor]. Qed.
Lemma does_delete : ends (delete_forward s) (does b d).
Proof using Hd. refine (ends_mono _ _ _ (delete_forward_doc s d Hd) _). intros s' H. eexists. split; [exact H|constructor]. Qed.
Lemma cut_doc h :
  ends (cut h s) (λ s', if selected d && clipboard_set h (selected_text s)
                         then doc s' (forget_redo (cut_selection d)) else doc s' d).
Proof using Hd.
  unfold cut. rewrite (selection_doc _ _ Hd). unfold selected. destruct (doc_cursor d =? doc_anchor d) eqn:E; cbn [is_some negb andb];
    [by apply ends_done|]. destruct (clipboard_set h _); [|by apply ends_done].
  assert (doc (send (Clipboard (selected_text s)) s) d) as H0 by (destruct Hd as (? & ? & ? & ? & ? & ?); by split_and!).
  refine (ends_bind _ _ _ _ (delete_selection_doc _ d H0) _). intros [? s1] [_ H1]. unfold selected in H1. rewrite E in H1.
  cbn [snd negb] in H1. apply ensure_only. destruct H1 as (? & ? & ? & ? & ? & ?). by split_and!.
Qed.
Lemma does_cut h : ends (cut h s) (does b d).
Proof using Hd.
  refine (ends_mono _ _ _ (cut_doc h) _). intros s'. destruct (selected d) eqn:E; [|apply does_same].
  destruct (clipboard_set _ _); [|apply does_same]. intros H. eexists. split; [exact H|by apply eff_cut].
Qed.
End Insertions.

(** ** What leaves the document alone *)

(** The fields a document is about are the same. *)
Definition same_doc (s s' : FeditState) : Prop :=
  buffer s' = buffer s ∧ cursor s' = cursor s ∧ anchor s' = anchor s ∧ undo_ops s' = undo_ops s ∧
  redo_ops s' = redo_ops s ∧ coalesce s' = coalesce s.
Lemma same_doc_doc s s' d : same_doc s s' → doc s d → doc s' d.
Proof. intros (Eb & Ec & Ea & Eu & Er & Ek). unfold doc. by rewrite Eb, Ec, Ea, Eu, Er, Ek. Qed.
Lemma same_run_check h s : same_doc s (run_check h s).
Proof. unfold run_check. by destruct (checker h). Qed.
Lemma same_save h p s : same_doc s (save_to h p s).2.
Proof. unfold save_to. destruct (write_file h p _); [|done]. cbn [snd]. unfold run_check. by destruct (checker h). Qed.
Lemma same_save_as h s : same_doc s (save_as h s).
Proof. unfold save_as. destruct (save_file_dialog h); [apply same_save|done]. Qed.
Lemma same_open h s : same_doc s (open_in_new h s).
Proof. unfold open_in_new. by destruct (open_file_dialog h). Qed.
Lemma same_copy h s : same_doc s (copy h s).
Proof. unfold copy. destruct (negb _); [done|]. by destruct (clipboard_set _ _). Qed.
Lemma same_wheel delta s : same_doc s (wheel delta s).
Proof. unfold wheel. by destruct (_ =? 0)%Z. Qed.
Lemma same_save_key h s (again : bool) :
  same_doc s (if again then save_as h s else match file_path s with Some p => (save_to h p s).2 | None => save_as h s end).
Proof. destruct again; [apply same_save_as|]. destruct (file_path s); [apply same_save|apply same_save_as]. Qed.
#[local] Hint Resolve same_run_check same_save same_save_as same_open same_copy same_wheel : same.

(** ** Messages *)

Definition is_undo (m : Message) : bool :=
  match m with WM_CHAR c => (c =? 26)%Z | WM_COMMAND c => (c =? EDIT_CMD_UNDO)%Z | _ => false end.
Definition is_redo (m : Message) : bool :=
  match m with WM_CHAR c => (c =? 25)%Z | WM_COMMAND c => (c =? EDIT_CMD_REDO)%Z | _ => false end.
Definition loaded (t : text) : Doc := mkDoc t 0 0 [] [] None.
Definition result (h : Host) (m : Message) (d : Doc) (s' : FeditState) : Prop :=
  if is_undo m then doc s' (undone d)
  else if is_redo m then doc s' (redone d)
  else match m with
       | WM_FEDIT_LOAD_PATH p => doc s' match read_file h p with Some u => loaded (utf8_to_codepoints u) | None => d end
       | _ => does (blank h m) d s'
       end.

Section Dispatch.
  Context (h : Host) (s : FeditState) (d : Doc) (Hd : doc s d).

Lemma still b s' : same_doc s s' → ends (Done s') (does b d).
Proof using Hd. intros E. by apply ends_done, does_same, (same_doc_doc s). Qed.

Lemma key_result vk : ends (handle_key h vk s) (result h (WM_KEYDOWN vk) d).
Proof using Hd.
  change (ends (handle_key h vk s) (does (blank h (WM_KEYDOWN vk)) d)). destruct vk; cbn [handle_key];
    repeat match goal with |- ends (if ?c then _ else _) _ => destruct c end;
    eauto using does_left, does_right, does_up, does_down, does_home, does_end, does_page_up, does_page_down,
      does_next_word, does_prev_word, does_cut, does_delete, does_jump; apply still; auto with same; done.
Qed.
Lemma char_result c : is_scalar c = true → ends (handle_char h c s) (result h (WM_CHAR c) d).
Proof using Hd.
  intros Hc. unfold handle_char, result. cbn [is_undo is_redo].
  destruct (Z.eqb_spec c 1) as [->|]; [by apply does_select_all|]. destruct (Z.eqb_spec c 3) as [->|]; [apply still, same_copy|].
  destruct (Z.eqb_spec c 15) as [->|]; [apply still, same_open|]. destruct (Z.eqb_spec c 19) as [->|]; [apply still, same_save_key|].
  destruct (Z.eqb_spec c 22) as [->|]; [apply does_paste; [done|by right]|].
  destruct (Z.eqb_spec c 18) as [->|]; [by apply still|]. destruct (Z.eqb_spec c 24) as [->|]; [by apply does_cut|].
  destruct (Z.eqb_spec c 25) as [->|]; [by apply redo_doc|]. destruct (Z.eqb_spec c 26) as [->|]; [by apply undo_doc|].
  destruct (Z.eqb_spec c 13); [by apply does_newline|]. destruct (Z.eqb_spec c 10); [by apply still|].
  destruct (Z.eqb_spec c 9); [by apply does_tab|]. destruct (Z.eqb_spec c 8); [by apply does_backspace|].
  destruct (c <? 32)%Z; [by apply still|]. apply does_char; [done..|]. intros ->. by left.
Qed.

Lemma run_ends (o : panics FeditState) P :
  ends o P → ends ('(_, s1) ← (s' ← o; Done (true, s')); Done s1) P.
Proof using. intros (x & -> & Hx). by apply ends_done. Qed.
Lemma menu_result cmd : ends ('(_, s1) ← handle_edit_menu h cmd s; Done s1) (result h (WM_COMMAND cmd) d).
Proof using Hd.
  unfold handle_edit_menu, result. cbn [is_undo is_redo].
  destruct (Z.eqb_spec cmd EDIT_CMD_UNDO); [by apply run_ends, undo_doc|].
  destruct (Z.eqb_spec cmd EDIT_CMD_REDO); [by apply run_ends, redo_doc|].
  destruct (Z.eqb_spec cmd EDIT_CMD_CUT); [by apply run_ends, does_cut|].
  destruct (Z.eqb_spec cmd EDIT_CMD_COPY); [apply run_ends, still, same_copy|].
  destruct (Z.eqb_spec cmd EDIT_CMD_PASTE); [apply run_ends, does_paste; [done|by right]|].
  destruct (Z.eqb_spec cmd EDIT_CMD_SELECT_ALL); [by apply run_ends, does_select_all|].
  destruct (Z.eqb_spec cmd EDIT_CMD_NEXT_WORD); [by apply run_ends, does_next_word|].
  destruct (Z.eqb_spec cmd EDIT_CMD_PREV_WORD); [by apply run_ends, does_prev_word|].
  destruct (Z.eqb_spec cmd EDIT_CMD_RUN_BUFFER); [by apply run_ends, still|].
  destruct (Z.eqb_spec cmd EDIT_CMD_OPEN); [apply run_ends, still, same_open|].
  destruct (Z.eqb_spec cmd EDIT_CMD_SAVE); [apply run_ends, still, (same_save_key h s false)|].
  destruct (Z.eqb_spec cmd EDIT_CMD_SAVE_AS); [apply run_ends, still, same_save_as|].
  cbn [mbind outcome_bind]. by apply still.
Qed.
Lemma load_result p : ends (load_from h p s) (result h (WM_FEDIT_LOAD_PATH p) d).
Proof using Hd.
  unfold load_from, result. cbn [is_undo is_redo]. destruct (read_file h p) as [u|]; [|by apply ends_done].
  unfold from_utf8. destruct (from_slice_text (utf8_to_codepoints u)) as (b & -> & Hb). cbn [mbind outcome_bind].
  by apply ends_done.
Qed.

Lemma message_result m : ends (fedit_wnd_proc h m s) (result h m d).
Proof using Hd.
  destruct m as [rows|r c|down r c| |delta|vk|cmd|c|p]; cbn [fedit_wnd_proc].
  - by apply still.
  - refine (ends_bind _ _ _ _ (does_click (blank h (WM_LBUTTONDOWN r c)) s d r c (shift_down h) Hd) _). intros s1 (d' & H1 & He).
    apply ends_done. exists d'. split; [|done]. refine (same_doc_doc s1 _ _ _ H1). done.
  - destruct (selecting_drag s && down); [by apply does_drag|]. destruct (selecting_drag s); by apply still.
  - by apply still.
  - apply still, same_wheel.
  - apply key_result.
  - apply menu_result.
  - destruct (is_scalar c) eqn:Ec; [by apply char_result|]. unfold result. cbn [is_undo is_redo].
    destruct (Z.eqb_spec c 26) as [->|]; [done|]. destruct (Z.eqb_spec c 25) as [->|]; [done|]. by apply still.
  - apply load_result.
Qed.
End Dispatch.

(** C26: no message makes the editor panic.  Whatever is in the buffer, the
    records and the clipboard, however far out the cursor is and whatever the
    dialogs, files and the checker answer, a run of messages ends, and the
    caches of the buffer's rope are right after it. *)
Theorem editor_never_panics (s : FeditState) (Hs : wf (root (buffer s))) (ms : list (Host * Message)) :
  ∃ s', run_messages ms s = Done s' ∧ wf (root (buffer s')).
Proof.
  revert s Hs. induction ms as [|[h m] ms IH]; intros s Hs; [by exists s|]. cbn [run_messages].
  destruct (message_result h s (doc_of s) (doc_of_ok s Hs) m) as (s1 & -> & H1). cbn [mbind outcome_bind]. apply IH.
  unfold result in H1. destruct (is_undo m); [apply H1|]. destruct (is_redo m); [apply H1|].
  destruct m; first [destruct H1 as (d' & H1 & _); apply H1|apply H1].
Qed.
Lemma editor_never_panics_witness :
  wf (root (buffer (put_cursor 900 two_lines))) ∧
  ∃ s', run_messages [(quiet, WM_CHAR 120%Z); (quiet, WM_CHAR 8%Z); (quiet, WM_CHAR 26%Z)] (put_cursor 900 two_lines) = Done s' ∧
    wf (root (buffer s')).
Proof.
  assert (wf (root (buffer (put_cursor 900 two_lines)))) as H by (apply wf_leaf; vm_compute; lia).
  split; [exact H|]. exact (editor_never_panics _ H _).
Defined.
