(* ===== verification/EditHistory.v ===== *)
(** * The records of the editor are its history

    The lists of undo and redo records stand for the texts there were: a
    zipper with the present text in the middle.  Every message moves in it, or
    puts the present text on the list of the older ones. *)
From stdpp Require Import strings.
From S2P Require Import Prelude Bytes Rope RopeBuffer RopeFacts BufferFacts Utf8Facts Edit EditWindow EditFacts EditMotion EditMessages.
#[local] Open Scope nat_scope.
#[local] Open Scope edit_scope.

(** ** Splicing *)

Lemma spliced_at x n ins y : spliced (length x) n ins (x ++ y) = x ++ ins ++ drop n y.
Proof.
  unfold spliced. rewrite take_app_length. f_equal. f_equal. by rewrite drop_app_ge, Nat.add_comm, Nat.add_sub by lia.
Qed.
Lemma spliced_split start n ins t :
  start ≤ length t → ∃ x y, t = x ++ y ∧ length x = start ∧ spliced start n ins t = x ++ ins ++ drop n y.
Proof.
  intros Hs. exists (take start t), (drop start t). split; [by rewrite take_drop|].
  assert (length (take start t) = start) as Hl by (rewrite length_take; lia). split; [done|].
  rewrite <- (take_drop start t) at 1. rewrite <- Hl at 1. by rewrite spliced_at.
Qed.
Lemma spliced_length start n ins t : start + n ≤ length t → length (spliced start n ins t) = length t - n + length ins.
Proof. intros H. unfold spliced. rewrite !length_app, length_take, length_drop. lia. Qed.

(** ** Records and texts *)

(** The record [op] is of an edit from [p] to [q]. *)
Definition between (op : UndoOp) (p q : text) : Prop :=
  reapply op p = q ∧ unapply op q = p ∧ op_before op ≤ length p ∧ op_after op ≤ length q.

Lemma between_insert start cps t :
  start ≤ length t → between (Inserted start cps start (start + length cps)) t (spliced start 0 cps t).
Proof.
  intros Hs. destruct (spliced_split start 0 cps t Hs) as (x & y & Et & Hl & E). unfold between. cbn [reapply unapply op_before op_after].
  rewrite E, drop_0. split; [done|]. split; [|split; [lia|rewrite !length_app; lia]].
  rewrite <- Hl, spliced_at, app_nil_l, drop_app_length. by subst t.
Qed.
Lemma between_delete start n b t :
  start + n ≤ length t → b ≤ length t →
  between (Deleted start (take n (drop start t)) b start) t (spliced start n [] t).
Proof.
  intros Hs Hb. destruct (spliced_split start n [] t ltac:(lia)) as (x & y & Et & Hl & E). rewrite E.
  assert (drop start t = y) as Ey by (rewrite Et, <- Hl; apply drop_app_length). rewrite Ey.
  assert (length y = length t - start) as Hly by (rewrite Et, length_app; lia).
  unfold between. cbn [reapply unapply op_before op_after]. rewrite length_take, (Nat.min_l n) by lia.
  split; [done|]. split; [|split; [done|rewrite length_app; lia]].
  rewrite app_nil_l, <- Hl, spliced_at, drop_0, take_drop. done.
Qed.

(** An insertion continued. *)
Lemma between_insert_on st ins b a cps p q :
  between (Inserted st ins b a) p q → st + length ins ≤ length q →
  between (Inserted st (ins ++ cps) b (st + length ins + length cps)) p (spliced (st + length ins) 0 cps q).
Proof.
  intros (Hr & Hu & Hb & _) Hl. cbn [reapply unapply op_before op_after] in *.
  assert (st ≤ length p) as Hst.
  { rewrite <- Hr in Hl. destruct (Nat.le_gt_cases st (length p)); [done|]. unfold spliced in Hl.
    rewrite !length_app, length_take, length_drop in Hl. lia. }
  destruct (spliced_split st 0 ins p Hst) as (x & y & Ep & Hx & E). rewrite E, drop_0 in Hr. clear Hu E. subst q p st.
  unfold between. cbn [reapply unapply op_before op_after].
  assert (spliced (length x + length ins) 0 cps (x ++ ins ++ y) = x ++ (ins ++ cps) ++ y) as ->.
  { rewrite <- length_app, app_assoc, spliced_at, drop_0. by rewrite <- !app_assoc. }
  rewrite !spliced_at, drop_0, drop_app_length. split_and!; [done..|rewrite !length_app; lia].
Qed.
(** A run of backspaces continued. *)
Lemma between_erase_on c pt b a p q :
  between (Deleted (c + 1) pt b a) p q → c + 1 ≤ length q →
  between (Deleted c (take 1 (drop c q) ++ pt) b c) p (spliced c 1 [] q).
Proof.
  intros (_ & Hu & Hb & _) Hl. cbn [reapply unapply op_before op_after] in *.
  destruct (spliced_split c 1 [] q ltac:(lia)) as (x & y & Eq & Hx & E). rewrite E. subst q.
  rewrite length_app in Hl. destruct y as [|z y]; [cbn in Hl; lia|]. rewrite <- Hx, drop_app_length. cbn [take drop app].
  assert (x ++ z :: y = (x ++ [z]) ++ y) as Ez by by rewrite <- app_assoc.
  rewrite Ez in Hu. replace (c + 1) with (length (x ++ [z])) in Hu by (rewrite length_app; cbn; lia).
  rewrite spliced_at, drop_0, <- app_assoc in Hu. cbn [app] in Hu. unfold between. cbn [reapply unapply op_before op_after].
  rewrite take_0. cbn [app]. split; [|split; [|split; [done|rewrite length_app; lia]]].
  - rewrite <- Hu, spliced_at. cbn. by rewrite drop_app_length.
  - by rewrite spliced_at, drop_0.
Qed.

(** The older texts, the latest first, and the newer ones. *)
Fixpoint past (ops : list UndoOp) (ps : list text) (t : text) : Prop :=
  match ops, ps with
  | [], [] => True
  | op :: ops', p :: ps' => between op p t ∧ past ops' ps' p
  | _, _ => False
  end.
Fixpoint future (ops : list UndoOp) (fs : list text) (t : text) : Prop :=
  match ops, fs with
  | [], [] => True
  | op :: ops', f :: fs' => between op t f ∧ future ops' fs' f
  | _, _ => False
  end.
Lemma past_length ops ps t : past ops ps t → length ops = length ps.
Proof.
  revert ps t. induction ops as [|op ops IH]; intros [|p ps] t; try done. intros [_ H]. cbn. by rewrite (IH ps p).
Qed.
Lemma past_take n ops ps t : past ops ps t → past (take n ops) (take n ps) t.
Proof.
  revert n ps t. induction ops as [|op ops IH]; intros n [|p ps] t; try done; [by destruct n|].
  intros [Hop H]. destruct n; [done|]. split; [done|]. by apply IH.
Qed.
Lemma past_capped ops ps t : past ops ps t → past (capped ops) (capped ps) t.
Proof.
  intros H. unfold capped. rewrite (past_length _ _ _ H). destruct (_ <? _); [by apply past_take|done].
Qed.

(** ** The history *)

Record Hist := mkHist { older : list text; now : text; newer : list text }.
Definition tracked (d : Doc) (z : Hist) : Prop :=
  doc_text d = now z ∧ doc_cursor d ≤ length (now z) ∧ doc_anchor d ≤ length (now z) ∧
  past (doc_undo d) (older z) (now z) ∧ future (doc_redo d) (newer z) (now z).

(** An edit puts the present text before the older ones, of which at most
    [UNDO_CAP] are kept, or goes on with the edit before, whose older text
    stays; the newer texts are lost. *)
Inductive edit_step : Hist → Hist → Prop :=
  | edit_fresh ps t fs t' : edit_step (mkHist ps t fs) (mkHist (capped (t :: ps)) t' [])
  | edit_joined p ps t fs t' : edit_step (mkHist (p :: ps) t fs) (mkHist (p :: ps) t' []).
Definition undo_step (z : Hist) : Hist :=
  match older z with [] => z | p :: ps => mkHist ps p (now z :: newer z) end.
Definition redo_step (z : Hist) : Hist :=
  match newer z with [] => z | f :: fs => mkHist (now z :: older z) f fs end.

Lemma undo_tracked d z : tracked d z → tracked (undone d) (undo_step z).
Proof.
  destruct z as [ps t fs], d as [t0 c a u r k]. intros (Et & Hc & Ha & Hp & Hf). cbn in Et, Hc, Ha, Hp, Hf. subst t0.
  unfold undone, undo_step. cbn [doc_undo older now newer doc_text doc_redo].
  destruct u as [|op ops], ps as [|p ps]; try done. destruct Hp as [Hop Hp]. pose proof Hop as (_ & <- & Hb & _).
  by split_and!.
Qed.
Lemma redo_tracked d z : tracked d z → tracked (redone d) (redo_step z).
Proof.
  destruct z as [ps t fs], d as [t0 c a u r k]. intros (Et & Hc & Ha & Hp & Hf). cbn in Et, Hc, Ha, Hp, Hf. subst t0.
  unfold redone, redo_step. cbn [doc_undo older now newer doc_text doc_redo].
  destruct r as [|op ops], fs as [|f fs]; try done. destruct Hf as [Hop Hf]. pose proof Hop as (<- & _ & _ & Ha').
  by split_and!.
Qed.

Lemma fresh_of z t' : edit_step z (mkHist (capped (now z :: older z)) t' []).
Proof. destruct z. apply edit_fresh. Qed.

(** A new record. *)
Lemma record_tracked d z op t' c k :
  tracked d z → between op (now z) t' → c ≤ length t' →
  tracked (mkDoc t' c c (capped (op :: doc_undo d)) [] k) (mkHist (capped (now z :: older z)) t' []).
Proof. intros (_ & _ & _ & Hp & _) Hop Hc. split_and!; [done..| |done]. by apply past_capped. Qed.

Lemma put_in_tracked d z kind cps :
  tracked d z → ∃ z', edit_step z z' ∧ tracked (put_in kind cps d) z'.
Proof.
  intros Ht. pose proof Ht as (Et & Hc & _ & Hp & _). unfold put_in. set (extending := _ && _). rewrite Et.
  set (t' := spliced (doc_cursor d) 0 cps (now z)).
  assert (doc_cursor d + length cps ≤ length t') as Hc' by (unfold t'; rewrite spliced_length; lia).
  assert (tracked (mkDoc t' (doc_cursor d + length cps) (doc_cursor d + length cps)
            (capped (Inserted (doc_cursor d) cps (doc_cursor d) (doc_cursor d + length cps) :: doc_undo d)) [] kind)
          (mkHist (capped (now z :: older z)) t' [])) as Hnew.
  { apply record_tracked; [done|by apply between_insert|done]. }
  unfold insert_record. destruct z as [ps t fs]. cbn [older now newer] in *. destruct (doc_undo d) as [|[st ins b a| |] ops] eqn:Eu;
    try (eexists; split; [apply edit_fresh|exact Hnew]).
  destruct (extending && (st + length ins =? doc_cursor d)) eqn:E; [|eexists; split; [apply edit_fresh|exact Hnew]].
  apply andb_true_iff in E as [_ E%Nat.eqb_eq]. destruct ps as [|p ps]; [done|]. destruct Hp as [Hop Hp].
  eexists. split; [apply edit_joined|]. split_and!; [done..| |done]. split; [|done]. unfold t'. rewrite <- E.
  apply (between_insert_on _ _ _ a); [done|lia].
Qed.

Lemma sel_bounds d z : tracked d z → sel_lo d ≤ sel_hi d ∧ sel_hi d ≤ length (now z).
Proof. intros (_ & Hc & Ha & _). unfold sel_lo, sel_hi. lia. Qed.
Lemma cut_tracked d z :
  tracked d z → ∃ z', edit_step z z' ∧ tracked (forget_redo (cut_selection d)) z'.
Proof.
  intros Ht. pose proof Ht as (Et & Hc & _ & Hp & _). pose proof (sel_bounds _ _ Ht) as [Hlo Hhi]. unfold cut_selection, forget_redo, with_history.
  cbn [doc_text doc_cursor doc_anchor doc_undo doc_redo doc_kind]. unfold sel_text. rewrite Et.
  eexists. split; [apply fresh_of|].
  apply record_tracked; [done|apply between_delete; lia|rewrite spliced_length by lia; cbn; lia].
Qed.

Lemma moved_tracked d z c a k :
  tracked d z → c ≤ length (doc_text d) ∨ c = doc_cursor d →
  a ≤ length (doc_text d) ∨ a = doc_anchor d ∨ a = doc_cursor d →
  tracked (mkDoc (doc_text d) c a (doc_undo d) (doc_redo d) k) z.
Proof. intros (Et & Hc & Ha & Hp & Hf) Hc' Ha'. rewrite Et in *. split_and!; cbn; try done; lia. Qed.
Lemma selected_false d : selected d = false → doc_anchor d = doc_cursor d.
Proof. unfold selected. intros E%negb_false_iff%Nat.eqb_eq. done. Qed.

(** The deletion of one code point: none, or one edit. *)
Lemma erased_tracked d z : tracked d z → ∃ z', (z' = z ∨ edit_step z z') ∧ tracked (erased d) z'.
Proof.
  intros Ht. pose proof Ht as (Et & Hc & _ & Hp & _). unfold erased. destruct (doc_cursor d) as [|c] eqn:Ec; [exists z; auto|].
  rewrite Et. set (t' := spliced c 1 [] (now z)). set (extending := bool_decide _).
  assert (c ≤ length t') as Hc' by (unfold t'; rewrite spliced_length; cbn; lia).
  assert (tracked (mkDoc t' c c (capped (Deleted c (take 1 (drop c (now z))) (c + 1) c :: doc_undo d)) [] (Some Backspace))
            (mkHist (capped (now z :: older z)) t' [])) as Hnew.
  { apply record_tracked; [done|apply between_delete; lia|done]. }
  unfold erase_record. destruct z as [ps t fs]. cbn [older now newer] in *. destruct (doc_undo d) as [|[|st pt b a|] ops] eqn:Eu;
    try (eexists; split; [right; apply edit_fresh|exact Hnew]).
  destruct (extending && (st =? c + 1)) eqn:E; [|eexists; split; [right; apply edit_fresh|exact Hnew]].
  apply andb_true_iff in E as [_ ->%Nat.eqb_eq]. destruct ps as [|p ps]; [done|]. destruct Hp as [Hop Hp].
  eexists. split; [right; apply edit_joined|]. split_and!; [done..| |done]. split; [|done].
  apply (between_erase_on _ _ _ a); [done|lia].
Qed.
Lemma erased_forward_tracked d z :
  tracked d z → selected d = false → ∃ z', (z' = z ∨ edit_step z z') ∧ tracked (erased_forward d) z'.
Proof.
  intros Ht Es. pose proof Ht as (Et & Hc & _ & Hp & _). unfold erased_forward. rewrite (selected_false _ Es), Et.
  destruct (Nat.leb_spec (length (now z)) (doc_cursor d)) as [Hle|Hlt]; [exists z; auto|].
  eexists. split; [right; apply fresh_of|].
  apply record_tracked; [done|apply between_delete; lia|rewrite spliced_length; cbn; lia].
Qed.
Lemma deleting_tracked step d z :
  tracked d z → (selected d = false → ∃ z', (z' = z ∨ edit_step z z') ∧ tracked (step d) z') →
  ∃ z', (z' = z ∨ edit_step z z') ∧ tracked (deleting step d) z'.
Proof.
  intros Ht Hs. unfold deleting. destruct (selected d); [|by apply Hs].
  destruct (cut_tracked d z Ht) as (z' & ? & ?). exists z'. auto.
Qed.
(** An insertion, over a selection or not. *)
Definition edits (z z' : Hist) : Prop := z' = z ∨ edit_step z z' ∨ ∃ y, edit_step z y ∧ edit_step y z'.
Lemma put_in_forget kind cps d : put_in kind cps (forget_redo d) = put_in kind cps d.
Proof. done. Qed.
Lemma inserted_tracked d z kind cps :
  tracked d z → cps ≠ [] → ∃ z', edits z z' ∧ tracked (inserted_doc kind cps d) z'.
Proof.
  intros Ht Hne. unfold inserted_doc. destruct cps as [|cp cps]; [done|]. destruct (selected d).
  - destruct (cut_tracked d z Ht) as (y & Hy & Hty). rewrite <- put_in_forget.
    destruct (put_in_tracked _ y kind (cp :: cps) Hty) as (z' & Hz & Ht'). exists z'. split; [|done]. right. right. by exists y.
  - destruct (put_in_tracked _ z kind (cp :: cps) Ht) as (z' & Hz & Ht'). exists z'. split; [|done]. right. by left.
Qed.

Lemma effect_tracked d d' z : effect False d d' → tracked d z → ∃ z', edits z z' ∧ tracked d' z'.
Proof.
  intros He Ht. destruct He as [c a k Hc Ha|kind cps Hne| | |Hs].
  - exists z. split; [by left|by apply moved_tracked].
  - apply inserted_tracked; [done|]. intros E. by apply Hne.
  - destruct (deleting_tracked erased d z Ht) as (z' & [?|?] & ?); [intros _; by apply erased_tracked|..]; exists z'; unfold edits; auto.
  - destruct (deleting_tracked erased_forward d z Ht) as (z' & [?|?] & ?); [intros; by apply erased_forward_tracked|..];
      exists z'; unfold edits; auto.
  - destruct (cut_tracked d z Ht) as (z' & ? & ?). exists z'. unfold edits. auto.
Qed.

(** ** Messages *)

(** A state with the history [z]. *)
Definition tracks (s : FeditState) (z : Hist) : Prop := ∃ d, doc s d ∧ tracked d z.
(** What a message does to the history. *)
Definition history_step (h : Host) (m : Message) (z z' : Hist) : Prop :=
  if is_undo m then z' = undo_step z
  else if is_redo m then z' = redo_step z
  else match m with
       | WM_FEDIT_LOAD_PATH p =>
           z' = match read_file h p with Some u => mkHist [] (utf8_to_codepoints u) [] | None => z end
       | _ => edits z z'
       end.
Inductive history_run : list (Host * Message) → Hist → Hist → Prop :=
  | history_nil z : history_run [] z z
  | history_cons h m ms z z1 z2 : history_step h m z z1 → history_run ms z1 z2 → history_run ((h, m) :: ms) z z2.

Lemma effect_not_blank (b : Prop) d d' : ¬ b → effect b d d' → effect False d d'.
Proof. intros Hb [ | | | | ]; constructor; auto. Qed.
Lemma message_tracks h m s z :
  ¬ blank h m → tracks s z → ∃ s' z', fedit_wnd_proc h m s = Done s' ∧ tracks s' z' ∧ history_step h m z z'.
Proof.
  intros Hb (d & Hd & Ht). destruct (message_result h s d Hd m) as (s' & E & Hr). exists s'. unfold result in Hr. unfold history_step.
  destruct (is_undo m). { eexists. split; [done|]. split; [|done]. exists (undone d). split; [done|by apply undo_tracked]. }
  destruct (is_redo m). { eexists. split; [done|]. split; [|done]. exists (redone d). split; [done|by apply redo_tracked]. }
  assert (does (blank h m) d s' → ∃ z', fedit_wnd_proc h m s = Done s' ∧ tracks s' z' ∧ edits z z') as Hdoes.
  { intros (d' & H1 & He%(effect_not_blank _ _ _ Hb)). destruct (effect_tracked _ _ _ He Ht) as (z' & ? & ?).
    exists z'. split; [done|]. split; [by exists d'|done]. }
  destruct m; try by apply Hdoes. destruct (read_file h path).
  - eexists. split; [done|]. split; [|done]. eexists. split; [exact Hr|]. split_and!; cbn; try done; lia.
  - exists z. split; [done|]. split; [by exists d|done].
Qed.

(** C4: undo and redo go through the texts there were.  For a state whose
    records stand for a history of texts, and so for a new editor, a run of
    messages ends, and its records stand for the history the run made: an edit
    puts the text there was before the older ones, or goes on with a run of
    typing or backspacing, and forgets the newer ones; two edits replace a
    selection; Ctrl-Z and Ctrl-Y take the text before and the text after,
    whatever they were; and the cursor and the anchor stay inside the text.
    Messages that may insert a lone byte order mark are left out. *)
Theorem history_refines (s : FeditState) (z : Hist) (ms : list (Host * Message))
    (Hs : tracks s z) (Hm : Forall (λ p, ¬ blank p.1 p.2) ms) :
  ∃ s' z', run_messages ms s = Done s' ∧ tracks s' z' ∧ history_run ms z z' ∧
    to_slice (buffer s') = now z' ∧ cursor s' ≤ length (now z') ∧ anchor s' ≤ length (now z') ∧
    length (undo_ops s') = length (older z') ∧ length (redo_ops s') = length (newer z').
Proof.
  revert s z Hs. induction Hm as [|[h m] ms Hb _ IH]; intros s z Hs.
  - exists s, z. split; [done|]. split; [done|]. split; [constructor|]. destruct Hs as (d & (Hb & Ec & Ea & Eu & Er & _) & Et & Hc & Ha & Hp & Hf).
    rewrite Ec, Ea, Eu, Er, <- Et in *. split_and!; [|done|done|by eapply past_length|].
    + unfold to_slice. by rewrite (slice_contents _ _ _ _ Hb), drop_0, Nat.sub_0_r, (len_contents _ _ Hb), take_ge by lia.
    + clear -Hf. revert Hf. generalize (doc_text d) (newer z). induction (doc_redo d) as [|op ops IH]; intros t [|f fs]; try done.
      intros [_ H]. cbn. by rewrite (IH f fs).
  - destruct (message_tracks h m s z Hb Hs) as (s1 & z1 & E & H1 & Hz). cbn [run_messages]. rewrite E. cbn [mbind outcome_bind].
    destruct (IH s1 z1 H1) as (s' & z' & ? & ? & ? & ?). exists s', z'. split; [done|]. split; [done|]. split; [by econstructor|done].
Qed.

Lemma new_tracks : tracks new_state (mkHist [] [] []).
Proof. exists (doc_of new_state). split; [by apply doc_of_ok, wf_empty|]. split_and!; cbn; done || lia. Defined.
(** Two letters, a new line and both taken back: the messages of the session. *)
Definition session : list (Host * Message) := (λ c, (quiet, WM_CHAR c)) <$> [97; 98; 13; 26; 26; 25]%Z.
Lemma history_refines_witness :
  Forall (λ p, ¬ blank p.1 p.2) session ∧
  ∃ s', run_messages session new_state = Done s' ∧ to_slice (buffer s') = [97; 98]%Z ∧
    length (undo_ops s') = 1 ∧ length (redo_ops s') = 1.
Proof.
  assert (Forall (λ p, ¬ blank p.1 p.2) session) as Hm.
  { unfold session. repeat (apply List.Forall_cons; [intros [[=]|[=]]|]). apply List.Forall_nil. }
  split; [exact Hm|]. destruct (history_refines new_state (mkHist [] [] []) session new_tracks Hm) as (s' & z' & E & _).
  exists s'. split; [exact E|]. vm_compute in E. injection E as <-. vm_compute. auto.
Defined.

(** The mark over a selection: the selection is deleted, the newer texts are
    kept, and Ctrl-Y leaves the cursor behind the end of the text. *)
Theorem blank_breaks_history :
  ∃ s', run_messages ((λ c, (quiet, WM_CHAR c)) <$> [97; 13; 26; 1; 65279; 25]%Z) new_state = Done s' ∧
    len (buffer s') < cursor s'.
Proof. eexists. split; [vm_compute; reflexivity|]. vm_compute. lia. Qed.

(** Typing over a selection makes two records, so that one Ctrl-Z takes back
    the letter alone. *)
Theorem selection_takes_two_undos :
  ∃ s' s'', run_messages ((λ c, (quiet, WM_CHAR c)) <$> [97; 1; 98]%Z) new_state = Done s' ∧
    length (undo_ops s') = 3 ∧ undo s' = Done s'' ∧ to_slice (buffer s'') = [].
Proof. do 2 eexists. split; [vm_compute; reflexivity|]. split; [reflexivity|]. split; [vm_compute; reflexivity|reflexivity]. Qed.
