(* ===== verification/EditText.v ===== *)
(** * The text the editor leaves

    What typing and deleting do to the text; then columns of the display, and
    files written and read back. *)
From stdpp Require Import strings.
From S2P Require Import Prelude Bytes Rope RopeBuffer RopeFacts BufferFacts Utf8Facts Edit EditWindow EditFacts EditMotion EditMessages EditHistory.
#[local] Open Scope nat_scope.
#[local] Open Scope edit_scope.

(** The text and the cursor of a state. *)
Definition reads (t : text) (c : nat) (s : FeditState) : Prop := represents (buffer s) t ∧ cursor s = c ∧ anchor s = c.
Lemma doc_reads s d c : doc s d → doc_cursor d = c → doc_anchor d = c → reads (doc_text d) c s.
Proof. intros (? & ? & ? & _) <- E. split_and!; congruence. Qed.

(** ** Edits *)

Lemma spliced_spliced t lo hi ins :
  lo ≤ hi → hi ≤ length t → spliced lo 0 ins (spliced lo (hi - lo) [] t) = take lo t ++ ins ++ drop hi t.
Proof.
  intros Hlo Hhi. destruct (spliced_split lo (hi - lo) [] t ltac:(lia)) as (x & y & Et & Hx & E). rewrite E, app_nil_l. subst t lo.
  rewrite spliced_at, drop_0, take_app_length, drop_app_ge by lia. done.
Qed.
Lemma inserted_text d kind cps :
  doc_cursor d ≤ length (doc_text d) → doc_anchor d ≤ length (doc_text d) → cps ≠ [] →
  doc_text (inserted_doc kind cps d) = take (sel_lo d) (doc_text d) ++ cps ++ drop (sel_hi d) (doc_text d) ∧
  doc_cursor (inserted_doc kind cps d) = sel_lo d + length cps ∧ doc_anchor (inserted_doc kind cps d) = sel_lo d + length cps.
Proof.
  intros Hc Ha Hne. unfold inserted_doc. destruct cps as [|cp cps]; [done|]. destruct (selected d) eqn:Es; cbn [put_in doc_text doc_cursor doc_anchor cut_selection].
  - split; [|done]. apply spliced_spliced; unfold sel_lo, sel_hi; lia.
  - pose proof (selected_false _ Es) as E. unfold sel_lo, sel_hi. rewrite E, Nat.min_id, Nat.max_id.
    unfold spliced. by rewrite Nat.add_0_r.
Qed.
Lemma do_insert_reads s d utf8 kind :
  doc s d → doc_cursor d ≤ length (doc_text d) → doc_anchor d ≤ length (doc_text d) → utf8_to_codepoints utf8 ≠ [] →
  let cps := utf8_to_codepoints utf8 in
  ends (do_insert utf8 kind s)
    (reads (take (sel_lo d) (doc_text d) ++ cps ++ drop (sel_hi d) (doc_text d)) (sel_lo d + length cps)).
Proof.
  intros Hd Hc Ha Hne cps. refine (ends_mono _ _ _ (do_insert_doc s d utf8 kind Hd) _). intros s' H.
  destruct (inserted_text d kind cps Hc Ha Hne) as (<- & E1 & E2). by eapply doc_reads.
Qed.

(** C32: edits change the text where the cursor is.  With the cursor and the
    anchor in the text, a text put in, typed or pasted, takes the place of the
    selection and leaves the cursor behind it; backspace and delete take the
    selection, or one code point before or behind the cursor if there is one;
    cut takes the selection when the clipboard has it, and otherwise nothing. *)
Theorem edits_text (s : FeditState) (d : Doc) (h : Host)
    (Hd : doc s d) (Hc : doc_cursor d ≤ length (doc_text d)) (Ha : doc_anchor d ≤ length (doc_text d)) :
  let t := doc_text d in let c := doc_cursor d in let lo := sel_lo d in let hi := sel_hi d in
  (∀ utf8 kind, let cps := utf8_to_codepoints utf8 in cps ≠ [] →
     ends (do_insert utf8 kind s) (reads (take lo t ++ cps ++ drop hi t) (lo + length cps))) ∧
  ends (backspace s) (if selected d then reads (take lo t ++ drop hi t) lo else reads (take (c - 1) t ++ drop c t) (c - 1)) ∧
  ends (delete_forward s) (if selected d then reads (take lo t ++ drop hi t) lo else reads (take c t ++ drop (c + 1) t) c) ∧
  ends (cut h s) (if selected d && clipboard_set h (codepoints_to_utf8 (take (hi - lo) (drop lo t)))
                   then reads (take lo t ++ drop hi t) lo else λ s', doc s' d).
Proof.
  intros t c lo hi. assert (lo ≤ hi ∧ hi ≤ length t) as [Hlo Hhi] by (unfold lo, hi, t, sel_lo, sel_hi; lia).
  assert (doc_text (cut_selection d) = take lo t ++ drop hi t) as Ecut.
  { cbn. unfold spliced. fold lo hi t. by replace (lo + (hi - lo)) with hi by lia. }
  split; [intros utf8 kind cps Hne; by apply do_insert_reads|]. split; [|split].
  - refine (ends_mono _ _ _ (backspace_doc s d Hd) _). intros s'. unfold deleting. destruct (selected d) eqn:Es; intros H.
    { rewrite <- Ecut. by apply (doc_reads _ _ _ H). }
    unfold erased in H. fold c t in H. destruct c as [|c'] eqn:Ec.
    + cbn. rewrite take_0. cbn. pose proof (selected_false _ Es) as Ea. fold c in Ea. rewrite Ec in Ea.
      by apply (doc_reads _ _ _ H).
    + replace (S c' - 1) with c' by lia. assert (spliced c' 1 [] t = take c' t ++ drop (S c') t) as E.
      { unfold spliced. by rewrite Nat.add_1_r. }
      rewrite <- E. by apply (doc_reads _ _ _ H).
  - refine (ends_mono _ _ _ (delete_forward_doc s d Hd) _). intros s'. unfold deleting. destruct (selected d) eqn:Es; intros H.
    { rewrite <- Ecut. by apply (doc_reads _ _ _ H). }
    pose proof (selected_false _ Es) as Ea. unfold erased_forward in H. fold t c in H, Ea. destruct (Nat.leb_spec (length t) c).
    + rewrite take_ge, drop_ge, app_nil_r by lia. by apply (doc_reads _ _ _ H).
    + apply (doc_reads _ _ _ H); done.
  - assert (selected d = true → selected_text s = codepoints_to_utf8 (take (hi - lo) (drop lo t))) as Esel.
    { unfold selected, selected_text. rewrite (selection_doc _ _ Hd). destruct (_ =? _); [done|]. intros _.
      fold lo hi. by rewrite (slice_contents _ t) by apply Hd. }
    refine (ends_mono _ _ _ (cut_doc s d Hd h) _). intros s'. destruct (selected d); [|done]. rewrite Esel by done. cbn [andb].
    destruct (clipboard_set h _); [|done]. intros H. rewrite <- Ecut. by apply (doc_reads _ _ _ H).
Qed.
Lemma edits_text_witness :
  ends (backspace two_lines) (reads [65; 10; 67]%Z 1) ∧ ends (delete_forward two_lines) (reads [65; 66; 67]%Z 2).
Proof.
  destruct (edits_text two_lines (doc_of two_lines) quiet two_lines_doc) as (_ & Hb & Hf & _); [vm_compute; lia..|].
  exact (conj Hb Hf).
Defined.

(** ** A run of typing *)

Definition typed (c : Z) : Prop := is_scalar c = true ∧ (32 ≤ c)%Z ∧ c ≠ 65279%Z.
Lemma typed_reads c : typed c → utf8_to_codepoints (encode_char c) = [c].
Proof.
  intros (Hs & Hc & Hb). pose proof (utf8_roundtrip [c]) as H. cbn [codepoints_to_utf8] in H. rewrite Hs, str_app_nil_r in H.
  rewrite H by (constructor; [lia|constructor]). cbn. rewrite scrub_id by done. by rewrite (proj2 (Z.eqb_neq _ _)).
Qed.
Lemma typed_message h s c : typed c → fedit_wnd_proc h (WM_CHAR c) s = do_insert (encode_char c) (Some Insert) s.
Proof.
  intros (Hs & Hc & _). cbn [fedit_wnd_proc]. rewrite Hs. unfold handle_char, insert_char.
  rewrite !(proj2 (Z.eqb_neq c _)), (proj2 (Z.ltb_ge _ _)) by lia. done.
Qed.
Lemma capped_cons {A} (x : A) l : ∃ l', capped (x :: l) = x :: l'.
Proof.
  unfold capped. destruct (Nat.ltb_spec UNDO_CAP (length (x :: l))) as [H|]; [|by exists l].
  destruct l as [|y l]; [unfold UNDO_CAP in H; cbn in H; lia|]. cbn [length Nat.sub take]. rewrite ?Nat.sub_0_r. by eexists.
Qed.

(** The document while a run of typing that began at [d] goes on. *)
Definition typing (d : Doc) (u : list UndoOp) (cs : text) : Doc :=
  let c := doc_cursor d in
  mkDoc (spliced c 0 cs (doc_text d)) (c + length cs) (c + length cs) (Inserted c cs c (c + length cs) :: u) [] (Some Insert).
Lemma typing_on d u cs c : doc_cursor d ≤ length (doc_text d) → inserted_doc (Some Insert) [c] (typing d u cs) = typing d u (cs ++ [c]).
Proof.
  intros Hc. destruct (spliced_split (doc_cursor d) 0 cs (doc_text d) Hc) as (x & y & Et & Hx & _). unfold inserted_doc, selected, typing.
  cbn [doc_cursor doc_anchor doc_text doc_undo doc_redo doc_kind]. rewrite Nat.eqb_refl. cbn [negb].
  unfold put_in. cbn [doc_cursor doc_anchor doc_text doc_undo doc_redo doc_kind insert_record andb bool_decide].
  rewrite !bool_decide_true, Nat.eqb_refl by done. cbn [andb]. rewrite length_app, Nat.add_assoc. f_equal.
  rewrite Et, <- Hx, !spliced_at, drop_0. replace (length x + length cs) with (length (x ++ cs)) by apply length_app.
  by rewrite app_assoc, spliced_at, drop_0, <- !app_assoc.
Qed.
Lemma typing_run h s d u cs cs' :
  doc_cursor d ≤ length (doc_text d) → doc s (typing d u cs) → Forall typed cs' →
  ends (run_messages ((λ c, (h, WM_CHAR c)) <$> cs') s) (λ s', doc s' (typing d u (cs ++ cs'))).
Proof.
  intros Hc Hs Hcs. revert s cs Hs. induction Hcs as [|c l Ht _ IH]; intros s cs Hs; [rewrite app_nil_r; by apply ends_done|].
  cbn [fmap list_fmap run_messages]. rewrite typed_message by done.
  refine (ends_bind _ _ _ _ (do_insert_doc s _ _ (Some Insert) Hs) _). intros s1 H1. rewrite typed_reads, typing_on in H1 by done.
  specialize (IH s1 (cs ++ [c]) H1). by rewrite <- app_assoc in IH.
Qed.

(** A run of typing is one step of the history.  Characters typed one
    after another, with nothing selected and no typing before them to go on
    with, stand at the cursor in their order, and one undo takes them all back
    and puts the cursor where it was. *)
Theorem typing_is_one_step (h : Host) (s : FeditState) (d : Doc) (cs : text)
    (Hd : doc s d) (Hsel : selected d = false) (Hk : doc_kind d ≠ Some Insert)
    (Hc : doc_cursor d ≤ length (doc_text d)) (Hne : cs ≠ []) (Ht : Forall typed cs) :
  ∃ s1 s2, run_messages ((λ c, (h, WM_CHAR c)) <$> cs) s = Done s1 ∧
    reads (take (doc_cursor d) (doc_text d) ++ cs ++ drop (doc_cursor d) (doc_text d)) (doc_cursor d + length cs) s1 ∧
    undo s1 = Done s2 ∧ reads (doc_text d) (doc_cursor d) s2.
Proof.
  destruct Ht as [|c l Ht Hl]; [done|]. cbn [fmap list_fmap run_messages]. rewrite typed_message by done.
  destruct (do_insert_doc s d (encode_char c) (Some Insert) Hd) as (s0 & -> & H0). cbn [mbind outcome_bind].
  destruct (capped_cons (Inserted (doc_cursor d) [c] (doc_cursor d) (doc_cursor d + 1)) (doc_undo d)) as [u Eu].
  assert (inserted_doc (Some Insert) [c] d = typing d u [c]) as E.
  { unfold inserted_doc. rewrite Hsel. unfold put_in, typing. rewrite (bool_decide_false (doc_kind d = _)), andb_false_r by done.
    change (length [c]) with 1. f_equal. rewrite <- Eu. unfold insert_record. by destruct (doc_undo d) as [|[]]. }
  rewrite typed_reads, E in H0 by done. destruct (typing_run h s0 d u [c] l Hc H0 Hl) as (s1 & -> & H1). cbn [app] in H1.
  destruct (undo_doc s1 _ H1) as (s2 & E2 & H2). exists s1, s2. split; [done|]. split; [|split; [done|]].
  - assert (spliced (doc_cursor d) 0 (c :: l) (doc_text d) =
      take (doc_cursor d) (doc_text d) ++ (c :: l) ++ drop (doc_cursor d) (doc_text d)) as <- by (unfold spliced; by rewrite Nat.add_0_r).
    by apply (doc_reads _ _ _ H1).
  - destruct (spliced_split (doc_cursor d) 0 (c :: l) (doc_text d) Hc) as (x & y & Et & Hx & _).
    assert (doc_text (undone (typing d u (c :: l))) = doc_text d) as <-.
    { cbn [undone typing doc_undo doc_text unapply]. rewrite Et, <- Hx, !spliced_at, drop_0. cbn. by rewrite drop_app_length. }
    by apply (doc_reads _ _ _ H2).
Qed.
Lemma typing_is_one_step_witness :
  Forall typed [120; 233; 128512]%Z ∧
  ∃ s1 s2, run_messages ((λ c, (quiet, WM_CHAR c)) <$> [120; 233; 128512]%Z) two_lines = Done s1 ∧
    reads [65; 66; 120; 233; 128512; 10; 67]%Z 5 s1 ∧ undo s1 = Done s2 ∧ reads [65; 66; 10; 67]%Z 2 s2.
Proof.
  assert (Forall typed [120; 233; 128512]%Z) as Ht by (repeat constructor; done || lia). split; [exact Ht|].
  refine (typing_is_one_step quiet two_lines (doc_of two_lines) _ two_lines_doc eq_refl _ _ _ Ht); [discriminate|vm_compute; lia|discriminate].
Defined.

(** * Tabs and files

    Columns of the display against columns of the text, and a file written
    and read back. *)

(** ** Columns *)

(** The column behind a character that starts at [col], and behind a line. *)
Definition cell (col : nat) (c : Z) : nat := if (c =? TAB)%Z then col + tab_pad col else col + 1.
Definition width (line : text) : nat := foldl cell 0 line.

Lemma tab_pad_bounds col : 1 ≤ tab_pad col ≤ 2.
Proof. unfold tab_pad, TAB_WIDTH. pose proof (Nat.mod_upper_bound col 2). lia. Qed.
Lemma cell_bounds col c : col + 1 ≤ cell col c ≤ col + 2.
Proof. unfold cell. pose proof (tab_pad_bounds col). destruct (_ =? _)%Z; lia. Qed.
Lemma width_ge col line : col + length line ≤ foldl cell col line.
Proof.
  revert col. induction line as [|c line IH]; intros col; cbn; [lia|]. specialize (IH (cell col c)).
  pose proof (cell_bounds col c). lia.
Qed.

Lemma expand_from col line : col + length (expand_line_from col line) = foldl cell col line.
Proof.
  revert col. induction line as [|c line IH]; intros col; [cbn; lia|]. cbn [expand_line_from foldl]. unfold cell at 2.
  destruct (_ =? _)%Z; rewrite <- IH; [rewrite length_app, repeat_length; lia|cbn; lia].
Qed.
Lemma to_display_from col i k line :
  to_display col i (i + k) line = foldl cell col (take k line).
Proof.
  revert col i k. induction line as [|c line IH]; intros col i k; [by rewrite take_nil|]. cbn [to_display].
  destruct k as [|k]; [by rewrite Nat.add_0_r, Nat.eqb_refl|]. rewrite (proj2 (Nat.eqb_neq _ _)) by lia.
  replace (i + S k) with (i + 1 + k) by lia. by rewrite IH.
Qed.
Lemma of_display_from col i k line :
  k ≤ length line → of_display col i (foldl cell col (take k line)) line = i + k.
Proof.
  revert col i k. induction line as [|c line IH]; intros col i k Hk; [cbn in *; lia|]. destruct k as [|k].
  { cbn. by rewrite Nat.leb_refl, Nat.add_0_r. }
  cbn [take foldl of_display]. pose proof (width_ge (cell col c) (take k line)) as Hw. pose proof (cell_bounds col c).
  rewrite (proj2 (Nat.leb_gt _ _)) by lia. cbn [length] in Hk. specialize (IH (cell col c) (i + 1) k ltac:(lia)).
  revert Hw IH. generalize (foldl cell (cell col c) (take k line)). unfold cell. intros dc Hw IH.
  replace (i + S k) with (i + 1 + k) by lia. destruct (c =? TAB)%Z; [|done]. by rewrite (proj2 (Nat.ltb_ge _ _)) by lia.
Qed.
(** The column that is nearest. *)
Lemma of_display_near col i dc line :
  col ≤ dc → dc ≤ foldl cell col line →
  ∃ k, k ≤ length line ∧ of_display col i dc line = i + k ∧
    foldl cell col (take k line) ≤ dc + 1 ∧ dc ≤ foldl cell col (take k line) + 1.
Proof.
  revert col i. induction line as [|c line IH]; intros col i Hlo Hhi; [exists 0; cbn in *; lia|]. cbn [of_display].
  destruct (Nat.leb_spec dc col); [exists 0; cbn; lia|]. cbn [foldl] in Hhi. pose proof (tab_pad_bounds col).
  assert (∀ next, cell col c = next → next ≤ dc → ∃ k, k ≤ length (c :: line) ∧ of_display next (i + 1) dc line = i + k ∧
    foldl cell col (take k (c :: line)) ≤ dc + 1 ∧ dc ≤ foldl cell col (take k (c :: line)) + 1) as Hnext.
  { intros next <- Hn. destruct (IH (cell col c) (i + 1) Hn Hhi) as (k & Hk & E & Ha & Hb). exists (S k).
    cbn [take foldl length]. split_and!; [lia|rewrite E; lia|done|done]. }
  unfold cell in Hnext at 1. destruct (c =? TAB)%Z eqn:Ec; [|apply Hnext; [done|lia]].
  destruct (Nat.ltb_spec dc (col + tab_pad col)) as [Hin|Hout]; [|by apply Hnext].
  destruct (Nat.leb_spec dc (col + tab_pad col / 2)) as [Hl|Hr].
  - exists 0. cbn [take foldl length]. split_and!; lia.
  - exists 1. cbn [take foldl length]. unfold cell. rewrite Ec. rewrite take_0. cbn [foldl].
    assert (tab_pad col / 2 ≤ 1) by (apply Nat.Div0.div_le_upper_bound; lia). split_and!; lia.
Qed.

(** Columns of the display.  The display column of a place in a line is
    the length of what is drawn before it; the place found at this column is
    the same one again; and the place found at any column of the line is the
    nearest, less than two cells away. *)
Theorem display_columns (line : text) :
  length (expand_line line) = buffer_col_to_display line (length line) ∧
  (∀ c, c ≤ length line → buffer_col_to_display line c = length (expand_line (take c line)) ∧
     display_col_to_buffer line (buffer_col_to_display line c) = c) ∧
  (∀ dc, dc ≤ length (expand_line line) → ∃ c, c ≤ length line ∧ display_col_to_buffer line dc = c ∧
     buffer_col_to_display line c ≤ dc + 1 ∧ dc ≤ buffer_col_to_display line c + 1).
Proof.
  assert (∀ c, buffer_col_to_display line c = foldl cell 0 (take c line)) as Hto by (intros c; apply (to_display_from 0 0)).
  assert (∀ l, length (expand_line l) = foldl cell 0 l) as Hex by (intros l; apply (expand_from 0)).
  split; [by rewrite Hto, Hex, take_ge by lia|]. split.
  - intros c Hc. rewrite Hto, Hex. split; [done|]. by apply (of_display_from 0 0).
  - intros dc Hdc. rewrite Hex in Hdc. destruct (of_display_near 0 0 dc line ltac:(lia) Hdc) as (k & Hk & E & Ha & Hb).
    exists k. rewrite Hto. split_and!; [done|exact E|lia|lia].
Qed.

Lemma display_columns_witness :
  display_col_to_buffer [9; 65; 9; 66]%Z 4 = 3 ∧ buffer_col_to_display [9; 65; 9; 66]%Z 3 = 4 ∧
  length (expand_line [9; 65; 9]%Z) = 4.
Proof.
  destruct (display_columns [9; 65; 9; 66]%Z) as (_ & H & _). destruct (H 3 ltac:(vm_compute; lia)) as [E1 E2].
  split; [exact E2|]. split; [reflexivity|exact (eq_sym E1)].
Defined.

(** ** Files *)

Lemma clean_scrub t : Forall (λ cp, is_scalar cp = true) t → scrub <$> t = t.
Proof. induction 1 as [|cp t Hcp _ IH]; [done|]. cbn. by rewrite IH, scrub_id. Qed.

(** C36: a saved file loads as the text it was saved from.  A text of
    characters without CR that does not begin with a byte order mark is
    written with CRLF line ends, and an editor that reads these bytes has the
    same text, with the cursor at its start and an empty history; saving
    changes neither text nor history. *)
Theorem save_load_roundtrip (h h' : Host) (s s2 : FeditState) (d : Doc) (path : string)
    (Hd : doc s d) (Hw : ∀ bytes, write_file h path bytes = true)
    (Hr : read_file h' path = Some (crlf (to_utf8 (buffer s))))
    (Ht : Forall (λ cp, is_scalar cp = true ∧ cp ≠ 13%Z) (doc_text d)) (Hb : head (doc_text d) ≠ Some 65279%Z) :
  (∃ s1, save_to h path s = (true, s1) ∧ doc s1 d ∧ head (sent s1) = Some (WriteFile path (crlf (to_utf8 (buffer s)))) ∧
     dirty s1 = false ∧ file_path s1 = Some path) ∧
  ends (load_from h' path s2) (λ s3, reads (doc_text d) 0 s3 ∧ undo_ops s3 = [] ∧ redo_ops s3 = [] ∧ dirty s3 = false).
Proof.
  split.
  - eexists. split; [unfold save_to; rewrite Hw; reflexivity|]. split; [|by unfold run_check; destruct (checker h)].
    refine (same_doc_doc s _ _ _ Hd). unfold run_check. by destruct (checker h).
  - assert (utf8_to_codepoints (crlf (to_utf8 (buffer s))) = doc_text d) as E.
    { assert (to_utf8 (buffer s) = codepoints_to_utf8 (doc_text d)) as ->.
      { destruct Hd as (Hb' & _). unfold to_utf8. by rewrite (slice_contents _ _ _ _ Hb'), drop_0, Nat.sub_0_r, (len_contents _ _ Hb'), take_ge by lia. }
      rewrite crlf_roundtrip by (refine (Forall_impl _ _ _ Ht _); tauto).
      rewrite clean_scrub by (refine (Forall_impl _ _ _ Ht _); tauto).
      destruct (doc_text d) as [|cp t]; [done|]. cbn. destruct (Z.eqb_spec cp 65279); [|done]. subst cp. by destruct Hb. }
    unfold load_from. rewrite Hr. unfold from_utf8. rewrite E. destruct (from_slice_text (doc_text d)) as (b & -> & Hb').
    by apply ends_done.
Qed.
Definition disk : Host := mkHost false false (λ _, true) None (λ p, if bool_decide (p = "a.f"%string) then Some (crlf "AB
C") else None) (λ _ _, true) None None None.
Lemma save_load_roundtrip_witness :
  to_utf8 (buffer two_lines) = "AB
C"%string ∧
  ends (load_from disk "a.f" new_state) (λ s3, reads [65; 66; 10; 67]%Z 0 s3 ∧ undo_ops s3 = [] ∧ redo_ops s3 = [] ∧ dirty s3 = false).
Proof.
  split; [vm_compute; reflexivity|].
  refine (proj2 (save_load_roundtrip disk disk two_lines new_state (doc_of two_lines) "a.f" two_lines_doc (λ _, eq_refl) _ _ _)).
  - vm_compute. reflexivity.
  - repeat constructor; discriminate.
  - discriminate.
Defined.
