(* ===== verification/SortBy.v ===== *)
(** * Sorting with a comparison ([slice::sort], [sort_by], [sort_by_key])

    The standard library's sorts are stable.  On a total preorder there is one
    stable sorting of a list; [sort_by] computes it by insertion.  The element
    put in goes before the elements it is less than or equal to, and elements
    are put in from the right, so equal ones keep their order. *)
From stdpp Require Import strings sorting.
From S2P Require Import Prelude.

Section sort.
Context {A : Type} (le : A → A → bool).

Fixpoint insert_by (x : A) (l : list A) : list A :=
  match l with
  | [] => [x]
  | y :: l' => if le x y then x :: l else y :: insert_by x l'
  end.
Fixpoint sort_by (l : list A) : list A :=
  match l with [] => [] | x :: l' => insert_by x (sort_by l') end.

Lemma insert_by_perm x l : insert_by x l ≡ₚ x :: l.
Proof.
  induction l as [|y l IH]; cbn; [done|]. destruct (le x y); [done|].
  rewrite IH. apply Permutation_swap.
Qed.
Lemma sort_by_perm l : sort_by l ≡ₚ l.
Proof. induction l as [|x l IH]; cbn; [done|]. by rewrite insert_by_perm, IH. Qed.

Lemma sort_by_elem x l : x ∈ sort_by l ↔ x ∈ l.
Proof. by rewrite sort_by_perm. Qed.
Lemma sort_by_length l : length (sort_by l) = length l.
Proof. by rewrite sort_by_perm. Qed.
Lemma sort_by_nodup l : NoDup l → NoDup (sort_by l).
Proof. by rewrite sort_by_perm. Qed.

(** A total, transitive comparison gives a sorted list. *)
Context (Htot : ∀ x y, le x y = true ∨ le y x = true)
  (Htrans : ∀ x y z, le x y = true → le y z = true → le x z = true).

Lemma insert_by_sorted x l :
  StronglySorted (λ a b, le a b = true) l → StronglySorted (λ a b, le a b = true) (insert_by x l).
Proof using All.
  induction 1 as [|y l Hl IH Hy]; cbn; [by repeat constructor|].
  destruct (le x y) eqn:E.
  - constructor; [by constructor|]. constructor; [done|].
    eapply Forall_impl; [exact Hy|]. intros z Hz. by apply (Htrans _ y).
  - constructor; [done|]. rewrite insert_by_perm. constructor; [|done].
    destruct (Htot x y); [congruence|done].
Qed.
Lemma sort_by_sorted l : StronglySorted (λ a b, le a b = true) (sort_by l).
Proof using All. induction l as [|x l IH]; cbn; [constructor|]. by apply insert_by_sorted. Qed.
End sort.

(** A comparison that is antisymmetric too sorts a set one way only. *)
Lemma sort_by_unique {A} (le : A → A → bool) l1 l2 :
  (∀ x y, le x y = true ∨ le y x = true) →
  (∀ x y z, le x y = true → le y z = true → le x z = true) →
  (∀ x y, le x y = true → le y x = true → x = y) →
  l1 ≡ₚ l2 → sort_by le l1 = sort_by le l2.
Proof.
  intros Htot Htr Hanti Hp.
  assert (AntiSymm (=) (λ a b, le a b = true)) by (intros x y; apply Hanti).
  apply (StronglySorted_unique (λ a b, le a b = true)); [by apply sort_by_sorted..|].
  by rewrite !sort_by_perm.
Qed.

(** ** Strings

    Rust compares strings byte by byte, as [String.leb] does. *)
Definition string_leb : string → string → bool := String.leb.

Lemma string_leb_total x y : string_leb x y = true ∨ string_leb y x = true.
Proof. destruct (total String.le x y) as [H|H]; unfold String.le in H; unfold string_leb; [left|right]; by destruct (String.leb _ _). Qed.
Lemma string_leb_trans x y z : string_leb x y = true → string_leb y z = true → string_leb x z = true.
Proof.
  unfold string_leb. intros H1 H2.
  assert (H : String.le x z) by (transitivity y; unfold String.le; [by rewrite H1|by rewrite H2]).
  unfold String.le in H. by destruct (String.leb x z).
Qed.
Lemma string_leb_antisym x y : string_leb x y = true → string_leb y x = true → x = y.
Proof. apply Stdlib.Strings.String.leb_antisym. Qed.

Definition sort_strings : list string → list string := sort_by string_leb.
Definition opt_string_leb (a b : option string) : bool :=
  match a, b with
  | None, _ => true
  | Some _, None => false
  | Some x, Some y => string_leb x y
  end.
