(* ===== verification/DagreGraph.v ===== *)
(** * The graph of the layered layout
      ([src/crates/selkie/src/layout/dagre/graph.rs])

    A directed multigraph whose nodes may have parents.  Hash maps and sets are
    [gmap] and [gset].  The order in which a hash map is walked is not known:
    it is the parameter [edge_order] of the class [MapOrder], some permutation
    of the keys.  The lists of nodes are sorted by the code.  Ranks, weights
    and lengths are [i32], held as [Z]; positions in a list are [nat]; the
    counter of names is [N].  [Fail tt] is a panic. *)
From stdpp Require Import strings gmap sorting pretty.
From S2P Require Import Prelude F64 SortBy.
From Stdlib Require Import SpecFloat.

(** ** Keys *)

Record EdgeKey := mkKey { key_v : string; key_w : string; key_name : option string }.
Definition EdgeKey_new (v w : string) : EdgeKey := mkKey v w None.
Definition EdgeKey_with_name (v w name : string) : EdgeKey := mkKey v w (Some name).

#[export] Instance EdgeKey_eq_dec : EqDecision EdgeKey.
Proof. solve_decision. Defined.
#[export] Instance EdgeKey_countable : Countable EdgeKey.
Proof.
  by refine (inj_countable' (λ k, (key_v k, key_w k, key_name k)) (λ p, mkKey p.1.1 p.1.2 p.2) _); intros [].
Defined.

(** The derived order: source, target, name, with no name first. *)
Definition edge_key_leb (a b : EdgeKey) : bool :=
  if bool_decide (key_v a = key_v b) then
    if bool_decide (key_w a = key_w b) then opt_string_leb (key_name a) (key_name b)
    else string_leb (key_w a) (key_w b)
  else string_leb (key_v a) (key_v b).

(** ** Labels *)

Inductive NodeShape :=
  | Rectangle | RoundedRect | Circle | DoubleCircle | Ellipse | Diamond | Hexagon | Stadium
  | Cylinder | Subroutine | Trapezoid | InvTrapezoid | LeanRight | LeanLeft | Odd
  | HorizontalBar | Custom.

Record Point := mkPoint { p_x : f64; p_y : f64 }.

Record EdgeLabel := mkEdgeLabel {
  e_minlen : Z;
  e_weight : Z;
  e_width : f64;
  e_height : f64;
  e_x : option f64;
  e_y : option f64;
  e_points : list Point;
  e_labelpos : string;
  e_labeloffset : f64;
  e_reversed : bool;
  e_forward_name : option string;
  e_cutvalue : option Z;
  e_label_rank : option Z;
  e_nesting_edge : bool;
  e_original_source : option string;
  e_original_target : option string
}.

Definition f64_zero : f64 := S754_zero false.
Definition EdgeLabel_default : EdgeLabel :=
  {| e_minlen := 1; e_weight := 1; e_width := f64_zero; e_height := f64_zero;
     e_x := None; e_y := None; e_points := []; e_labelpos := "r"; e_labeloffset := f64_of_Z 10;
     e_reversed := false; e_forward_name := None; e_cutvalue := None; e_label_rank := None;
     e_nesting_edge := false; e_original_source := None; e_original_target := None |}.

Record SelfEdgeInfo := mkSelfEdge { se_edge_key : EdgeKey; se_label : EdgeLabel }.

Record NodeLabel := mkNodeLabel {
  n_width : f64;
  n_height : f64;
  n_shape : NodeShape;
  n_x : option f64;
  n_y : option f64;
  n_rank : option Z;
  n_order : option nat;
  n_dummy : option string;
  n_labelpos : option string;
  n_low : option Z;
  n_lim : option Z;
  n_parent : option string;
  n_edge_label : option EdgeLabel;
  n_edge_obj : option (string * string * option string);
  n_border_top : option string;
  n_border_bottom : option string;
  n_border_left : list (option string);
  n_border_right : list (option string);
  n_min_rank : option Z;
  n_max_rank : option Z;
  n_border_type : option string;
  n_self_edges : list SelfEdgeInfo;
  n_self_edge_info : option SelfEdgeInfo
}.

Definition NodeLabel_default : NodeLabel :=
  {| n_width := f64_zero; n_height := f64_zero; n_shape := Rectangle; n_x := None; n_y := None;
     n_rank := None; n_order := None; n_dummy := None; n_labelpos := None; n_low := None;
     n_lim := None; n_parent := None; n_edge_label := None; n_edge_obj := None;
     n_border_top := None; n_border_bottom := None; n_border_left := []; n_border_right := [];
     n_min_rank := None; n_max_rank := None; n_border_type := None; n_self_edges := [];
     n_self_edge_info := None |}.

Record GraphLabel := mkGraphLabel {
  gl_nodesep : f64;
  gl_edgesep : f64;
  gl_ranksep : f64;
  gl_rankdir : string;
  gl_marginx : f64;
  gl_marginy : f64;
  gl_acyclicer : string;
  gl_ranker : string;
  gl_width : option f64;
  gl_height : option f64;
  gl_dummy_chains : list string;
  gl_nesting_root : option string;
  gl_node_rank_factor : option Z;
  gl_max_rank : option Z
}.

Record DagreGraph := mkGraph {
  g_graph_label : GraphLabel;
  g_nodes : gmap string NodeLabel;
  g_edges : gmap EdgeKey EdgeLabel;
  g_out_edges : gmap string (list EdgeKey);
  g_in_edges : gmap string (list EdgeKey);
  g_parent : gmap string string;
  g_children : gmap string (gset string);
  g_edge_counter : N
}.

(** Assignments to one field. *)
Definition set_e_minlen (x : Z) (e : EdgeLabel) : EdgeLabel :=
  mkEdgeLabel x (e_weight e) (e_width e) (e_height e) (e_x e) (e_y e) (e_points e) (e_labelpos e)
    (e_labeloffset e) (e_reversed e) (e_forward_name e) (e_cutvalue e) (e_label_rank e)
    (e_nesting_edge e) (e_original_source e) (e_original_target e).
Definition set_e_weight (x : Z) (e : EdgeLabel) : EdgeLabel :=
  mkEdgeLabel (e_minlen e) x (e_width e) (e_height e) (e_x e) (e_y e) (e_points e) (e_labelpos e)
    (e_labeloffset e) (e_reversed e) (e_forward_name e) (e_cutvalue e) (e_label_rank e)
    (e_nesting_edge e) (e_original_source e) (e_original_target e).
Definition set_e_width (x : f64) (e : EdgeLabel) : EdgeLabel :=
  mkEdgeLabel (e_minlen e) (e_weight e) x (e_height e) (e_x e) (e_y e) (e_points e) (e_labelpos e)
    (e_labeloffset e) (e_reversed e) (e_forward_name e) (e_cutvalue e) (e_label_rank e)
    (e_nesting_edge e) (e_original_source e) (e_original_target e).
Definition set_e_height (x : f64) (e : EdgeLabel) : EdgeLabel :=
  mkEdgeLabel (e_minlen e) (e_weight e) (e_width e) x (e_x e) (e_y e) (e_points e) (e_labelpos e)
    (e_labeloffset e) (e_reversed e) (e_forward_name e) (e_cutvalue e) (e_label_rank e)
    (e_nesting_edge e) (e_original_source e) (e_original_target e).
Definition set_e_x (x : option f64) (e : EdgeLabel) : EdgeLabel :=
  mkEdgeLabel (e_minlen e) (e_weight e) (e_width e) (e_height e) x (e_y e) (e_points e)
    (e_labelpos e) (e_labeloffset e) (e_reversed e) (e_forward_name e) (e_cutvalue e)
    (e_label_rank e) (e_nesting_edge e) (e_original_source e) (e_original_target e).
Definition set_e_y (x : option f64) (e : EdgeLabel) : EdgeLabel :=
  mkEdgeLabel (e_minlen e) (e_weight e) (e_width e) (e_height e) (e_x e) x (e_points e)
    (e_labelpos e) (e_labeloffset e) (e_reversed e) (e_forward_name e) (e_cutvalue e)
    (e_label_rank e) (e_nesting_edge e) (e_original_source e) (e_original_target e).
Definition set_e_points (x : list Point) (e : EdgeLabel) : EdgeLabel :=
  mkEdgeLabel (e_minlen e) (e_weight e) (e_width e) (e_height e) (e_x e) (e_y e) x (e_labelpos e)
    (e_labeloffset e) (e_reversed e) (e_forward_name e) (e_cutvalue e) (e_label_rank e)
    (e_nesting_edge e) (e_original_source e) (e_original_target e).
Definition set_e_reversed (x : bool) (e : EdgeLabel) : EdgeLabel :=
  mkEdgeLabel (e_minlen e) (e_weight e) (e_width e) (e_height e) (e_x e) (e_y e) (e_points e)
    (e_labelpos e) (e_labeloffset e) x (e_forward_name e) (e_cutvalue e) (e_label_rank e)
    (e_nesting_edge e) (e_original_source e) (e_original_target e).
Definition set_e_forward_name (x : option string) (e : EdgeLabel) : EdgeLabel :=
  mkEdgeLabel (e_minlen e) (e_weight e) (e_width e) (e_height e) (e_x e) (e_y e) (e_points e)
    (e_labelpos e) (e_labeloffset e) (e_reversed e) x (e_cutvalue e) (e_label_rank e)
    (e_nesting_edge e) (e_original_source e) (e_original_target e).
Definition set_e_label_rank (x : option Z) (e : EdgeLabel) : EdgeLabel :=
  mkEdgeLabel (e_minlen e) (e_weight e) (e_width e) (e_height e) (e_x e) (e_y e) (e_points e)
    (e_labelpos e) (e_labeloffset e) (e_reversed e) (e_forward_name e) (e_cutvalue e) x
    (e_nesting_edge e) (e_original_source e) (e_original_target e).
Definition set_e_nesting_edge (x : bool) (e : EdgeLabel) : EdgeLabel :=
  mkEdgeLabel (e_minlen e) (e_weight e) (e_width e) (e_height e) (e_x e) (e_y e) (e_points e)
    (e_labelpos e) (e_labeloffset e) (e_reversed e) (e_forward_name e) (e_cutvalue e)
    (e_label_rank e) x (e_original_source e) (e_original_target e).
Definition set_e_original_source (x : option string) (e : EdgeLabel) : EdgeLabel :=
  mkEdgeLabel (e_minlen e) (e_weight e) (e_width e) (e_height e) (e_x e) (e_y e) (e_points e)
    (e_labelpos e) (e_labeloffset e) (e_reversed e) (e_forward_name e) (e_cutvalue e)
    (e_label_rank e) (e_nesting_edge e) x (e_original_target e).
Definition set_e_original_target (x : option string) (e : EdgeLabel) : EdgeLabel :=
  mkEdgeLabel (e_minlen e) (e_weight e) (e_width e) (e_height e) (e_x e) (e_y e) (e_points e)
    (e_labelpos e) (e_labeloffset e) (e_reversed e) (e_forward_name e) (e_cutvalue e)
    (e_label_rank e) (e_nesting_edge e) (e_original_source e) x.
Definition set_n_width (x : f64) (n : NodeLabel) : NodeLabel :=
  mkNodeLabel x (n_height n) (n_shape n) (n_x n) (n_y n) (n_rank n) (n_order n) (n_dummy n)
    (n_labelpos n) (n_low n) (n_lim n) (n_parent n) (n_edge_label n) (n_edge_obj n) (n_border_top n)
    (n_border_bottom n) (n_border_left n) (n_border_right n) (n_min_rank n) (n_max_rank n)
    (n_border_type n) (n_self_edges n) (n_self_edge_info n).
Definition set_n_height (x : f64) (n : NodeLabel) : NodeLabel :=
  mkNodeLabel (n_width n) x (n_shape n) (n_x n) (n_y n) (n_rank n) (n_order n) (n_dummy n)
    (n_labelpos n) (n_low n) (n_lim n) (n_parent n) (n_edge_label n) (n_edge_obj n) (n_border_top n)
    (n_border_bottom n) (n_border_left n) (n_border_right n) (n_min_rank n) (n_max_rank n)
    (n_border_type n) (n_self_edges n) (n_self_edge_info n).
Definition set_n_x (x : option f64) (n : NodeLabel) : NodeLabel :=
  mkNodeLabel (n_width n) (n_height n) (n_shape n) x (n_y n) (n_rank n) (n_order n) (n_dummy n)
    (n_labelpos n) (n_low n) (n_lim n) (n_parent n) (n_edge_label n) (n_edge_obj n) (n_border_top n)
    (n_border_bottom n) (n_border_left n) (n_border_right n) (n_min_rank n) (n_max_rank n)
    (n_border_type n) (n_self_edges n) (n_self_edge_info n).
Definition set_n_y (x : option f64) (n : NodeLabel) : NodeLabel :=
  mkNodeLabel (n_width n) (n_height n) (n_shape n) (n_x n) x (n_rank n) (n_order n) (n_dummy n)
    (n_labelpos n) (n_low n) (n_lim n) (n_parent n) (n_edge_label n) (n_edge_obj n) (n_border_top n)
    (n_border_bottom n) (n_border_left n) (n_border_right n) (n_min_rank n) (n_max_rank n)
    (n_border_type n) (n_self_edges n) (n_self_edge_info n).
Definition set_n_rank (x : option Z) (n : NodeLabel) : NodeLabel :=
  mkNodeLabel (n_width n) (n_height n) (n_shape n) (n_x n) (n_y n) x (n_order n) (n_dummy n)
    (n_labelpos n) (n_low n) (n_lim n) (n_parent n) (n_edge_label n) (n_edge_obj n) (n_border_top n)
    (n_border_bottom n) (n_border_left n) (n_border_right n) (n_min_rank n) (n_max_rank n)
    (n_border_type n) (n_self_edges n) (n_self_edge_info n).
Definition set_n_order (x : option nat) (n : NodeLabel) : NodeLabel :=
  mkNodeLabel (n_width n) (n_height n) (n_shape n) (n_x n) (n_y n) (n_rank n) x (n_dummy n)
    (n_labelpos n) (n_low n) (n_lim n) (n_parent n) (n_edge_label n) (n_edge_obj n) (n_border_top n)
    (n_border_bottom n) (n_border_left n) (n_border_right n) (n_min_rank n) (n_max_rank n)
    (n_border_type n) (n_self_edges n) (n_self_edge_info n).
Definition set_n_dummy (x : option string) (n : NodeLabel) : NodeLabel :=
  mkNodeLabel (n_width n) (n_height n) (n_shape n) (n_x n) (n_y n) (n_rank n) (n_order n) x
    (n_labelpos n) (n_low n) (n_lim n) (n_parent n) (n_edge_label n) (n_edge_obj n) (n_border_top n)
    (n_border_bottom n) (n_border_left n) (n_border_right n) (n_min_rank n) (n_max_rank n)
    (n_border_type n) (n_self_edges n) (n_self_edge_info n).
Definition set_n_labelpos (x : option string) (n : NodeLabel) : NodeLabel :=
  mkNodeLabel (n_width n) (n_height n) (n_shape n) (n_x n) (n_y n) (n_rank n) (n_order n)
    (n_dummy n) x (n_low n) (n_lim n) (n_parent n) (n_edge_label n) (n_edge_obj n) (n_border_top n)
    (n_border_bottom n) (n_border_left n) (n_border_right n) (n_min_rank n) (n_max_rank n)
    (n_border_type n) (n_self_edges n) (n_self_edge_info n).
Definition set_n_edge_label (x : option EdgeLabel) (n : NodeLabel) : NodeLabel :=
  mkNodeLabel (n_width n) (n_height n) (n_shape n) (n_x n) (n_y n) (n_rank n) (n_order n)
    (n_dummy n) (n_labelpos n) (n_low n) (n_lim n) (n_parent n) x (n_edge_obj n) (n_border_top n)
    (n_border_bottom n) (n_border_left n) (n_border_right n) (n_min_rank n) (n_max_rank n)
    (n_border_type n) (n_self_edges n) (n_self_edge_info n).
Definition set_n_edge_obj (x : option (string * string * option string)) (n : NodeLabel) : NodeLabel :=
  mkNodeLabel (n_width n) (n_height n) (n_shape n) (n_x n) (n_y n) (n_rank n) (n_order n)
    (n_dummy n) (n_labelpos n) (n_low n) (n_lim n) (n_parent n) (n_edge_label n) x (n_border_top n)
    (n_border_bottom n) (n_border_left n) (n_border_right n) (n_min_rank n) (n_max_rank n)
    (n_border_type n) (n_self_edges n) (n_self_edge_info n).
Definition set_n_border_top (x : option string) (n : NodeLabel) : NodeLabel :=
  mkNodeLabel (n_width n) (n_height n) (n_shape n) (n_x n) (n_y n) (n_rank n) (n_order n)
    (n_dummy n) (n_labelpos n) (n_low n) (n_lim n) (n_parent n) (n_edge_label n) (n_edge_obj n) x
    (n_border_bottom n) (n_border_left n) (n_border_right n) (n_min_rank n) (n_max_rank n)
    (n_border_type n) (n_self_edges n) (n_self_edge_info n).
Definition set_n_border_bottom (x : option string) (n : NodeLabel) : NodeLabel :=
  mkNodeLabel (n_width n) (n_height n) (n_shape n) (n_x n) (n_y n) (n_rank n) (n_order n)
    (n_dummy n) (n_labelpos n) (n_low n) (n_lim n) (n_parent n) (n_edge_label n) (n_edge_obj n)
    (n_border_top n) x (n_border_left n) (n_border_right n) (n_min_rank n) (n_max_rank n)
    (n_border_type n) (n_self_edges n) (n_self_edge_info n).
Definition set_n_border_left (x : list (option string)) (n : NodeLabel) : NodeLabel :=
  mkNodeLabel (n_width n) (n_height n) (n_shape n) (n_x n) (n_y n) (n_rank n) (n_order n)
    (n_dummy n) (n_labelpos n) (n_low n) (n_lim n) (n_parent n) (n_edge_label n) (n_edge_obj n)
    (n_border_top n) (n_border_bottom n) x (n_border_right n) (n_min_rank n) (n_max_rank n)
    (n_border_type n) (n_self_edges n) (n_self_edge_info n).
Definition set_n_border_right (x : list (option string)) (n : NodeLabel) : NodeLabel :=
  mkNodeLabel (n_width n) (n_height n) (n_shape n) (n_x n) (n_y n) (n_rank n) (n_order n)
    (n_dummy n) (n_labelpos n) (n_low n) (n_lim n) (n_parent n) (n_edge_label n) (n_edge_obj n)
    (n_border_top n) (n_border_bottom n) (n_border_left n) x (n_min_rank n) (n_max_rank n)
    (n_border_type n) (n_self_edges n) (n_self_edge_info n).
Definition set_n_min_rank (x : option Z) (n : NodeLabel) : NodeLabel :=
  mkNodeLabel (n_width n) (n_height n) (n_shape n) (n_x n) (n_y n) (n_rank n) (n_order n)
    (n_dummy n) (n_labelpos n) (n_low n) (n_lim n) (n_parent n) (n_edge_label n) (n_edge_obj n)
    (n_border_top n) (n_border_bottom n) (n_border_left n) (n_border_right n) x (n_max_rank n)
    (n_border_type n) (n_self_edges n) (n_self_edge_info n).
Definition set_n_max_rank (x : option Z) (n : NodeLabel) : NodeLabel :=
  mkNodeLabel (n_width n) (n_height n) (n_shape n) (n_x n) (n_y n) (n_rank n) (n_order n)
    (n_dummy n) (n_labelpos n) (n_low n) (n_lim n) (n_parent n) (n_edge_label n) (n_edge_obj n)
    (n_border_top n) (n_border_bottom n) (n_border_left n) (n_border_right n) (n_min_rank n) x
    (n_border_type n) (n_self_edges n) (n_self_edge_info n).
Definition set_n_border_type (x : option string) (n : NodeLabel) : NodeLabel :=
  mkNodeLabel (n_width n) (n_height n) (n_shape n) (n_x n) (n_y n) (n_rank n) (n_order n)
    (n_dummy n) (n_labelpos n) (n_low n) (n_lim n) (n_parent n) (n_edge_label n) (n_edge_obj n)
    (n_border_top n) (n_border_bottom n) (n_border_left n) (n_border_right n) (n_min_rank n)
    (n_max_rank n) x (n_self_edges n) (n_self_edge_info n).
Definition set_n_self_edges (x : list SelfEdgeInfo) (n : NodeLabel) : NodeLabel :=
  mkNodeLabel (n_width n) (n_height n) (n_shape n) (n_x n) (n_y n) (n_rank n) (n_order n)
    (n_dummy n) (n_labelpos n) (n_low n) (n_lim n) (n_parent n) (n_edge_label n) (n_edge_obj n)
    (n_border_top n) (n_border_bottom n) (n_border_left n) (n_border_right n) (n_min_rank n)
    (n_max_rank n) (n_border_type n) x (n_self_edge_info n).
Definition set_n_self_edge_info (x : option SelfEdgeInfo) (n : NodeLabel) : NodeLabel :=
  mkNodeLabel (n_width n) (n_height n) (n_shape n) (n_x n) (n_y n) (n_rank n) (n_order n)
    (n_dummy n) (n_labelpos n) (n_low n) (n_lim n) (n_parent n) (n_edge_label n) (n_edge_obj n)
    (n_border_top n) (n_border_bottom n) (n_border_left n) (n_border_right n) (n_min_rank n)
    (n_max_rank n) (n_border_type n) (n_self_edges n) x.
Definition set_gl_ranksep (x : f64) (l : GraphLabel) : GraphLabel :=
  mkGraphLabel (gl_nodesep l) (gl_edgesep l) x (gl_rankdir l) (gl_marginx l) (gl_marginy l)
    (gl_acyclicer l) (gl_ranker l) (gl_width l) (gl_height l) (gl_dummy_chains l)
    (gl_nesting_root l) (gl_node_rank_factor l) (gl_max_rank l).
Definition set_gl_width (x : option f64) (l : GraphLabel) : GraphLabel :=
  mkGraphLabel (gl_nodesep l) (gl_edgesep l) (gl_ranksep l) (gl_rankdir l) (gl_marginx l)
    (gl_marginy l) (gl_acyclicer l) (gl_ranker l) x (gl_height l) (gl_dummy_chains l)
    (gl_nesting_root l) (gl_node_rank_factor l) (gl_max_rank l).
Definition set_gl_height (x : option f64) (l : GraphLabel) : GraphLabel :=
  mkGraphLabel (gl_nodesep l) (gl_edgesep l) (gl_ranksep l) (gl_rankdir l) (gl_marginx l)
    (gl_marginy l) (gl_acyclicer l) (gl_ranker l) (gl_width l) x (gl_dummy_chains l)
    (gl_nesting_root l) (gl_node_rank_factor l) (gl_max_rank l).
Definition set_gl_nesting_root (x : option string) (l : GraphLabel) : GraphLabel :=
  mkGraphLabel (gl_nodesep l) (gl_edgesep l) (gl_ranksep l) (gl_rankdir l) (gl_marginx l)
    (gl_marginy l) (gl_acyclicer l) (gl_ranker l) (gl_width l) (gl_height l) (gl_dummy_chains l) x
    (gl_node_rank_factor l) (gl_max_rank l).
Definition set_gl_node_rank_factor (x : option Z) (l : GraphLabel) : GraphLabel :=
  mkGraphLabel (gl_nodesep l) (gl_edgesep l) (gl_ranksep l) (gl_rankdir l) (gl_marginx l)
    (gl_marginy l) (gl_acyclicer l) (gl_ranker l) (gl_width l) (gl_height l) (gl_dummy_chains l)
    (gl_nesting_root l) x (gl_max_rank l).
Definition set_gl_max_rank (x : option Z) (l : GraphLabel) : GraphLabel :=
  mkGraphLabel (gl_nodesep l) (gl_edgesep l) (gl_ranksep l) (gl_rankdir l) (gl_marginx l)
    (gl_marginy l) (gl_acyclicer l) (gl_ranker l) (gl_width l) (gl_height l) (gl_dummy_chains l)
    (gl_nesting_root l) (gl_node_rank_factor l) x.
Definition set_gl_dummy_chains (x : list string) (l : GraphLabel) : GraphLabel :=
  mkGraphLabel (gl_nodesep l) (gl_edgesep l) (gl_ranksep l) (gl_rankdir l) (gl_marginx l)
    (gl_marginy l) (gl_acyclicer l) (gl_ranker l) (gl_width l) (gl_height l) x (gl_nesting_root l)
    (gl_node_rank_factor l) (gl_max_rank l).
Definition set_g_graph_label (x : GraphLabel) (g : DagreGraph) : DagreGraph :=
  mkGraph x (g_nodes g) (g_edges g) (g_out_edges g) (g_in_edges g) (g_parent g) (g_children g)
    (g_edge_counter g).
Definition set_g_nodes (x : gmap string NodeLabel) (g : DagreGraph) : DagreGraph :=
  mkGraph (g_graph_label g) x (g_edges g) (g_out_edges g) (g_in_edges g) (g_parent g) (g_children g)
    (g_edge_counter g).
Definition set_g_edges (x : gmap EdgeKey EdgeLabel) (g : DagreGraph) : DagreGraph :=
  mkGraph (g_graph_label g) (g_nodes g) x (g_out_edges g) (g_in_edges g) (g_parent g) (g_children g)
    (g_edge_counter g).
Definition set_g_out_edges (x : gmap string (list EdgeKey)) (g : DagreGraph) : DagreGraph :=
  mkGraph (g_graph_label g) (g_nodes g) (g_edges g) x (g_in_edges g) (g_parent g) (g_children g)
    (g_edge_counter g).
Definition set_g_in_edges (x : gmap string (list EdgeKey)) (g : DagreGraph) : DagreGraph :=
  mkGraph (g_graph_label g) (g_nodes g) (g_edges g) (g_out_edges g) x (g_parent g) (g_children g)
    (g_edge_counter g).

(** ** Reading *)

Definition DagreGraph_new : DagreGraph :=
  mkGraph
    {| gl_nodesep := f64_of_Z 50; gl_edgesep := f64_of_Z 20; gl_ranksep := f64_of_Z 50;
       gl_rankdir := "TB"; gl_marginx := f64_zero; gl_marginy := f64_zero;
       gl_acyclicer := "greedy"; gl_ranker := "network-simplex"; gl_width := None;
       gl_height := None; gl_dummy_chains := []; gl_nesting_root := None;
       gl_node_rank_factor := None; gl_max_rank := None |}
    ∅ ∅ ∅ ∅ ∅ ∅ 0%N.

(** The keys of a hash map, in the order they come in. *)
Class MapOrder := {
  edge_order : gmap EdgeKey EdgeLabel → list EdgeKey;
  edge_order_perm m : edge_order m ≡ₚ (map_to_list m).*1
}.

Definition map_keys {A} (m : gmap string A) : list string := (map_to_list m).*1.
Definition nodes (g : DagreGraph) : list string := sort_strings (map_keys (g_nodes g)).
Definition node_count (g : DagreGraph) : nat := size (g_nodes g).
Definition has_node (g : DagreGraph) (v : string) : bool := bool_decide (is_Some (g_nodes g !! v)).
Definition node (g : DagreGraph) (v : string) : option NodeLabel := g_nodes g !! v.
(** [if let Some(n) = g.node_mut(v) { ... }]. *)
Definition node_mut (f : NodeLabel → NodeLabel) (v : string) (g : DagreGraph) : DagreGraph :=
  set_g_nodes (alter f v (g_nodes g)) g.

Definition edges `{MapOrder} (g : DagreGraph) : list EdgeKey := edge_order (g_edges g).
Definition edge_count (g : DagreGraph) : nat := size (g_edges g).
Definition joins (v w : string) (k : EdgeKey) : bool :=
  bool_decide (key_v k = v) && bool_decide (key_w k = w).
Definition has_edge `{MapOrder} (g : DagreGraph) (v w : string) : bool :=
  existsb (joins v w) (edges g).
Definition has_edge_with_name (g : DagreGraph) (v w name : string) : bool :=
  bool_decide (is_Some (g_edges g !! EdgeKey_with_name v w name)).
Definition edge_by_key (g : DagreGraph) (k : EdgeKey) : option EdgeLabel := g_edges g !! k.
(** [if let Some(e) = g.edge_by_key_mut(k) { ... }]. *)
Definition edge_by_key_mut (f : EdgeLabel → EdgeLabel) (k : EdgeKey) (g : DagreGraph) : DagreGraph :=
  set_g_edges (alter f k (g_edges g)) g.
(** The first edge between two nodes that the map meets. *)
Definition edge `{MapOrder} (g : DagreGraph) (v w : string) : option EdgeLabel :=
  k ← List.find (joins v w) (edges g); edge_by_key g k.
Definition edge_mut `{MapOrder} (f : EdgeLabel → EdgeLabel) (v w : string) (g : DagreGraph) : DagreGraph :=
  match List.find (joins v w) (edges g) with Some k => edge_by_key_mut f k g | None => g end.

(** Edges at a node, in the order they were put in. *)
Definition out_edges (g : DagreGraph) (v : string) : list EdgeKey := default [] (g_out_edges g !! v).
Definition in_edges (g : DagreGraph) (v : string) : list EdgeKey := default [] (g_in_edges g !! v).
Definition out_edges_to (g : DagreGraph) (v w : string) : list EdgeKey :=
  filter (λ k, key_w k = w) (out_edges g v).
Definition predecessors (g : DagreGraph) (v : string) : list string := key_v <$> in_edges g v.
Definition successors (g : DagreGraph) (v : string) : list string := key_w <$> out_edges g v.
Definition neighbors (g : DagreGraph) (v : string) : list string :=
  sort_strings (predecessors g v ++ successors g v).

Definition parent (g : DagreGraph) (v : string) : option string := g_parent g !! v.
Definition children (g : DagreGraph) (v : string) : list string :=
  sort_strings (elements (default ∅ (g_children g !! v))).
Definition root_children (g : DagreGraph) : list string :=
  sort_strings (filter (λ v, g_parent g !! v = None) (map_keys (g_nodes g))).
Definition is_compound (g : DagreGraph) : bool :=
  existsb (λ p, negb (bool_decide (p.2 = (∅ : gset string)))) (map_to_list (g_children g)).

(** ** Nodes *)

Definition set_node (v : string) (label : NodeLabel) (g : DagreGraph) : DagreGraph :=
  let g := if has_node g v then g
           else set_g_in_edges (<[v := []]> (g_in_edges g)) (set_g_out_edges (<[v := []]> (g_out_edges g)) g) in
  set_g_nodes (<[v := label]> (g_nodes g)) g.
Definition set_nodes (vs : list string) (g : DagreGraph) : DagreGraph :=
  fold_with (λ v, set_node v NodeLabel_default) vs g.
Definition ensure_node (v : string) (g : DagreGraph) : DagreGraph :=
  if has_node g v then g else set_node v NodeLabel_default g.

(** [list.retain(|k| k != key)] on the list of a node, if it has one. *)
Definition retain_not (key : EdgeKey) (v : string) (m : gmap string (list EdgeKey)) :
    gmap string (list EdgeKey) := alter (filter (λ k, k ≠ key)) v m.
Definition drop_out (key : EdgeKey) (g : DagreGraph) : DagreGraph :=
  set_g_in_edges (retain_not key (key_w key) (g_in_edges g)) (set_g_edges (delete key (g_edges g)) g).
Definition drop_in (key : EdgeKey) (g : DagreGraph) : DagreGraph :=
  set_g_out_edges (retain_not key (key_v key) (g_out_edges g)) (set_g_edges (delete key (g_edges g)) g).
Definition remove_out (v : string) (g : DagreGraph) : DagreGraph :=
  match g_out_edges g !! v with
  | Some out => fold_with drop_out out (set_g_out_edges (delete v (g_out_edges g)) g)
  | None => g
  end.
Definition remove_in (v : string) (g : DagreGraph) : DagreGraph :=
  match g_in_edges g !! v with
  | Some inn => fold_with drop_in inn (set_g_in_edges (delete v (g_in_edges g)) g)
  | None => g
  end.
Definition remove_family (v : string) (g : DagreGraph) : DagreGraph :=
  let ch := match g_parent g !! v with
            | Some p => alter (λ c, c ∖ {[v]}) p (g_children g)
            | None => g_children g
            end in
  mkGraph (g_graph_label g) (g_nodes g) (g_edges g) (g_out_edges g) (g_in_edges g)
    (delete v (g_parent g)) (delete v ch) (g_edge_counter g).
Definition remove_node (v : string) (g : DagreGraph) : DagreGraph :=
  if has_node g v then
    remove_family v (remove_in v (remove_out v (set_g_nodes (delete v (g_nodes g)) g)))
  else g.

(** ** Edges *)

(** [map.get_mut(v).unwrap().push(key)]. *)
Definition push_at (v : string) (key : EdgeKey) (m : gmap string (list EdgeKey)) :
    panics (gmap string (list EdgeKey)) :=
  l ← unwrap (m !! v); Done (<[v := l ++ [key]]> m).
(** The edge into the map and at the end of both lists. *)
Definition link (key : EdgeKey) (label : EdgeLabel) (g : DagreGraph) : panics DagreGraph :=
  out ← push_at (key_v key) key (g_out_edges g);
  inn ← push_at (key_w key) key (g_in_edges g);
  Done (set_g_in_edges inn (set_g_out_edges out (set_g_edges (<[key := label]> (g_edges g)) g))).
Definition set_edge_key (key : EdgeKey) (label : EdgeLabel) (g : DagreGraph) : panics DagreGraph :=
  link key label (ensure_node (key_w key) (ensure_node (key_v key) g)).
Definition set_edge (v w : string) (label : EdgeLabel) (g : DagreGraph) : panics DagreGraph :=
  set_edge_key (EdgeKey_new v w) label g.
Definition set_edge_with_name (v w : string) (label : EdgeLabel) (name : string) (g : DagreGraph) :
    panics DagreGraph := set_edge_key (EdgeKey_with_name v w name) label g.

(** Out of the map and of both lists. *)
Definition unlink (key : EdgeKey) (g : DagreGraph) : DagreGraph :=
  set_g_in_edges (retain_not key (key_w key) (g_in_edges g))
    (set_g_out_edges (retain_not key (key_v key) (g_out_edges g))
      (set_g_edges (delete key (g_edges g)) g)).
Definition remove_edge_by_key (key : EdgeKey) (g : DagreGraph) : DagreGraph :=
  match g_edges g !! key with Some _ => unlink key g | None => g end.
Definition remove_edge `{MapOrder} (v w : string) (g : DagreGraph) : DagreGraph :=
  fold_with remove_edge_by_key (filter (λ k, joins v w k = true) (edges g)) g.

(** [nodes.len() - 1] of an empty path goes below zero, and [nodes[0]] panics. *)
Fixpoint set_path_from (v : string) (vs : list string) (g : DagreGraph) : panics DagreGraph :=
  match vs with
  | [] => Done g
  | w :: vs' => g' ← set_edge v w EdgeLabel_default g; set_path_from w vs' g'
  end.
Definition set_path (vs : list string) (g : DagreGraph) : panics DagreGraph :=
  match vs with [] => panic | v :: vs' => set_path_from v vs' g end.

(** ** Parents *)

Definition set_parent (v p : string) (g : DagreGraph) : DagreGraph :=
  let g := ensure_node p (ensure_node v g) in
  let ch := match g_parent g !! v with
            | Some old => alter (λ c, c ∖ {[v]}) old (g_children g)
            | None => g_children g
            end in
  mkGraph (g_graph_label g) (g_nodes g) (g_edges g) (g_out_edges g) (g_in_edges g)
    (<[v := p]> (g_parent g)) (<[p := default ∅ (ch !! p) ∪ {[v]}]> ch) (g_edge_counter g).

(** ** Names *)

Definition counter_name (pre : string) (n : N) : string := (pre +:+ "_" +:+ pretty n)%string.
Definition unique_id (pre : string) (g : DagreGraph) : string * DagreGraph :=
  let n := (g_edge_counter g + 1)%N in
  (counter_name pre n,
   mkGraph (g_graph_label g) (g_nodes g) (g_edges g) (g_out_edges g) (g_in_edges g)
     (g_parent g) (g_children g) n).
