(* ===== verification/DagreGraphFacts.v ===== *)
(** * What the layout graph keeps true

    [wf]: the lists at the nodes and the map of edges hold the same edges, and
    no node is somebody's child without knowing it.  Every operation keeps
    [wf], and on a graph with [wf] none panics. *)
From stdpp Require Import strings gmap.
From S2P Require Import Prelude F64 SortBy DagreGraph.

Create HintDb dagre.

(** ** How often a key is in a list *)

Definition occ (k : EdgeKey) (l : list EdgeKey) : nat := length (filter (λ x, x = k) l).

Lemma occ_app k a b : occ k (a ++ b) = (occ k a + occ k b)%nat.
Proof. unfold occ. by rewrite filter_app, length_app. Qed.
Lemma occ_pos k l : k ∈ l ↔ (0 < occ k l)%nat.
Proof.
  unfold occ. induction l as [|x l IH]; [by rewrite elem_of_nil; simpl; split; [|lia]|].
  rewrite filter_cons, elem_of_cons. destruct (decide (x = k)) as [->|Hne]; simpl; [split; [lia|by left]|].
  rewrite <- IH. split; [by intros [->|]|by right].
Qed.
Lemma occ_filter (P : EdgeKey → Prop) `{!∀ x, Decision (P x)} k l :
  occ k (filter P l) = if decide (P k) then occ k l else 0%nat.
Proof.
  unfold occ. induction l as [|x l IH]; [by destruct (decide (P k))|].
  rewrite filter_cons. destruct (decide (P x)) as [Hx|Hx]; rewrite !filter_cons; destruct (decide (x = k)) as [->|Hne];
    destruct (decide (P k)); simpl; try done; rewrite IH; by destruct (decide (P k)).
Qed.
Lemma filter_ext_in {A} (P Q : A → Prop) `{!∀ x, Decision (P x), !∀ x, Decision (Q x)} (l : list A) :
  (∀ x, x ∈ l → P x ↔ Q x) → filter P l = filter Q l.
Proof.
  induction l as [|x l IH]; intros Hl; [done|]. rewrite !filter_cons.
  rewrite (decide_ext (P x) (Q x)) by (apply Hl; by left).
  rewrite IH; [done|]. intros y Hy. apply Hl. by right.
Qed.
Lemma filter_all {A} (P : A → Prop) `{!∀ x, Decision (P x)} (l : list A) :
  (∀ x, x ∈ l → P x) → filter P l = l.
Proof.
  induction l as [|x l IH]; intros Hl; [done|]. rewrite filter_cons, decide_True by (apply Hl; by left).
  rewrite IH; [done|]. intros y Hy. apply Hl. by right.
Qed.
Lemma occ_nil k : occ k [] = 0%nat.
Proof. done. Qed.
Lemma occ_single k x : occ k [x] = if decide (x = k) then 1%nat else 0%nat.
Proof. unfold occ. rewrite filter_cons. by destruct (decide (x = k)). Qed.

(** ** The invariant *)

Record wf (g : DagreGraph) : Prop := {
  wf_out_dom v : is_Some (g_out_edges g !! v) ↔ is_Some (g_nodes g !! v);
  wf_in_dom v : is_Some (g_in_edges g !! v) ↔ is_Some (g_nodes g !! v);
  wf_out v k : k ∈ out_edges g v → key_v k = v ∧ is_Some (g_edges g !! k);
  wf_in w k : k ∈ in_edges g w → key_w k = w ∧ is_Some (g_edges g !! k);
  wf_edge k : is_Some (g_edges g !! k) → k ∈ out_edges g (key_v k);
  wf_occ k : occ k (out_edges g (key_v k)) = occ k (in_edges g (key_w k));
  wf_family v p : v ∈ default ∅ (g_children g !! p) → g_parent g !! v = Some p
}.

Lemma wf_edge_in g k : wf g → is_Some (g_edges g !! k) → k ∈ in_edges g (key_w k).
Proof. intros H Hk. apply occ_pos. rewrite <- (wf_occ g H). by apply occ_pos, (wf_edge g H). Qed.
Lemma out_edges_node g v k : wf g → k ∈ out_edges g v → is_Some (g_nodes g !! v).
Proof.
  intros H Hk. apply (wf_out_dom g H). unfold out_edges in Hk.
  destruct (g_out_edges g !! v); [by eexists|]. by apply elem_of_nil in Hk.
Qed.
Lemma in_edges_node g v k : wf g → k ∈ in_edges g v → is_Some (g_nodes g !! v).
Proof.
  intros H Hk. apply (wf_in_dom g H). unfold in_edges in Hk.
  destruct (g_in_edges g !! v); [by eexists|]. by apply elem_of_nil in Hk.
Qed.
Lemma edge_ends g k : wf g → is_Some (g_edges g !! k) →
  is_Some (g_nodes g !! key_v k) ∧ is_Some (g_nodes g !! key_w k).
Proof.
  intros H Hk. split; [by eapply out_edges_node, wf_edge|by eapply in_edges_node, wf_edge_in].
Qed.
Lemma out_edges_iff g v k : wf g → k ∈ out_edges g v ↔ is_Some (g_edges g !! k) ∧ key_v k = v.
Proof.
  intros H. split; [by intros [? ?]%(wf_out g H)|]. intros [Hk <-]. by apply (wf_edge g H).
Qed.
Lemma in_edges_iff g v k : wf g → k ∈ in_edges g v ↔ is_Some (g_edges g !! k) ∧ key_w k = v.
Proof.
  intros H. split; [by intros [? ?]%(wf_in g H)|]. intros [Hk <-]. by apply (wf_edge_in g).
Qed.

Lemma nodes_elem g v : v ∈ nodes g ↔ is_Some (g_nodes g !! v).
Proof.
  unfold nodes, sort_strings, map_keys. rewrite sort_by_elem, list_elem_of_fmap. split.
  - intros ([x l] & -> & Hx%elem_of_map_to_list). by eexists.
  - intros [l Hl]. exists (v, l). by rewrite elem_of_map_to_list.
Qed.
Lemma nodes_nodup g : NoDup (nodes g).
Proof. apply sort_by_nodup, NoDup_fst_map_to_list. Qed.
Lemma edges_elem `{MapOrder} g k : k ∈ edges g ↔ is_Some (g_edges g !! k).
Proof.
  unfold edges. rewrite edge_order_perm, list_elem_of_fmap. split.
  - intros ([x l] & -> & Hx%elem_of_map_to_list). by eexists.
  - intros [l Hl]. exists (k, l). by rewrite elem_of_map_to_list.
Qed.
Lemma edges_nodup `{MapOrder} g : NoDup (edges g).
Proof. unfold edges. rewrite edge_order_perm. apply NoDup_fst_map_to_list. Qed.
Lemma has_node_spec g v : has_node g v = true ↔ is_Some (g_nodes g !! v).
Proof. apply bool_decide_eq_true. Qed.

Lemma wf_new : wf DagreGraph_new.
Proof.
  split; intros *; unfold out_edges, in_edges; cbn; rewrite ?lookup_empty; cbn;
    rewrite ?elem_of_nil; done.
Qed.

(** Assignments to labels that keep the edges where they are. *)
Definition same_shape (g g' : DagreGraph) : Prop :=
  (∀ v, is_Some (g_nodes g' !! v) ↔ is_Some (g_nodes g !! v)) ∧
  (∀ k, is_Some (g_edges g' !! k) ↔ is_Some (g_edges g !! k)) ∧
  g_out_edges g' = g_out_edges g ∧ g_in_edges g' = g_in_edges g ∧
  g_parent g' = g_parent g ∧ g_children g' = g_children g.
Lemma wf_same_shape g g' : same_shape g g' → wf g → wf g'.
Proof.
  intros (Hn & He & Ho & Hi & Hp & Hc) H.
  split; intros *; unfold out_edges, in_edges; rewrite ?Hn, ?Ho, ?Hi, ?He, ?Hp, ?Hc; apply H.
Qed.
Lemma same_shape_refl g : same_shape g g.
Proof. by split_and!. Qed.
Lemma same_shape_trans a b c : same_shape a b → same_shape b c → same_shape a c.
Proof. intros (?&?&?&?&?&?) (?&?&?&?&?&?). split_and!; try congruence; naive_solver. Qed.
Lemma node_mut_shape f v g : same_shape g (node_mut f v g).
Proof.
  split_and!; try done. intros x. cbn.
  destruct (decide (v = x)) as [->|]; [by rewrite lookup_alter_eq, fmap_is_Some|by rewrite lookup_alter_ne].
Qed.
Lemma edge_mut_shape f k g : same_shape g (edge_by_key_mut f k g).
Proof.
  split_and!; try done. intros x. cbn.
  destruct (decide (k = x)) as [->|]; [by rewrite lookup_alter_eq, fmap_is_Some|by rewrite lookup_alter_ne].
Qed.
Lemma set_label_shape l g : same_shape g (set_g_graph_label l g).
Proof. by split_and!. Qed.

(** ** Nodes put in *)

(** What edges are not about. *)
Definition rest (g : DagreGraph) : GraphLabel * gmap string string * gmap string (gset string) * N :=
  (g_graph_label g, g_parent g, g_children g, g_edge_counter g).

Lemma rest_parent g g' : rest g = rest g' → g_parent g = g_parent g'.
Proof. by injection 1. Qed.
Lemma rest_children g g' : rest g = rest g' → g_children g = g_children g'.
Proof. by injection 1. Qed.
Lemma rest_label g g' : rest g = rest g' → g_graph_label g = g_graph_label g'.
Proof. by injection 1. Qed.
Lemma rest_counter g g' : rest g = rest g' → g_edge_counter g = g_edge_counter g'.
Proof. by injection 1. Qed.

Lemma set_node_nodes v l g : g_nodes (set_node v l g) = <[v := l]> (g_nodes g).
Proof. unfold set_node. by destruct (has_node g v). Qed.
Lemma set_node_edges v l g : g_edges (set_node v l g) = g_edges g.
Proof. unfold set_node. by destruct (has_node g v). Qed.
Lemma set_node_rest v l g : rest (set_node v l g) = rest g.
Proof. unfold set_node. by destruct (has_node g v). Qed.

Lemma no_list {A} (m : gmap string A) (n : gmap string NodeLabel) v :
  (is_Some (m !! v) ↔ is_Some (n !! v)) → ¬ is_Some (n !! v) → m !! v = None.
Proof. intros H Hn. apply eq_None_not_Some. by rewrite H. Qed.

Lemma set_node_lists v l g : wf g →
  (∀ x, out_edges (set_node v l g) x = out_edges g x) ∧
  (∀ x, in_edges (set_node v l g) x = in_edges g x).
Proof.
  intros H. unfold set_node. destruct (has_node g v) eqn:E; [done|].
  assert (Hn : ¬ is_Some (g_nodes g !! v)) by (rewrite <- has_node_spec; congruence).
  split; intros x; unfold out_edges, in_edges; cbn; destruct (decide (v = x)) as [->|Hne];
    rewrite ?lookup_insert_ne by done; rewrite ?lookup_insert_eq; try done.
  - by rewrite (no_list _ _ _ (wf_out_dom g H x) Hn).
  - by rewrite (no_list _ _ _ (wf_in_dom g H x) Hn).
Qed.

Lemma insert_dom {A B} (m : gmap string A) (n : gmap string B) v a b x :
  (is_Some (m !! x) ↔ is_Some (n !! x)) → (is_Some (<[v := a]> m !! x) ↔ is_Some (<[v := b]> n !! x)).
Proof.
  intros H. destruct (decide (v = x)) as [->|]; [by rewrite !lookup_insert_eq|].
  by rewrite !lookup_insert_ne.
Qed.
Lemma insert_dom_r {A B} (m : gmap string A) (n : gmap string B) v b x :
  is_Some (n !! v) → (is_Some (m !! x) ↔ is_Some (n !! x)) → (is_Some (m !! x) ↔ is_Some (<[v := b]> n !! x)).
Proof.
  intros Hv H. destruct (decide (v = x)) as [->|]; [by rewrite lookup_insert_eq, H|].
  by rewrite !lookup_insert_ne.
Qed.

Lemma wf_set_node v l g : wf g → wf (set_node v l g).
Proof.
  intros H. destruct (set_node_lists v l g H) as [Ho Hi].
  pose proof (set_node_rest v l g) as Hr.
  split; intros *; rewrite ?Ho, ?Hi, ?set_node_edges, ?set_node_nodes; try apply H.
  - unfold set_node. destruct (has_node g v) eqn:E; cbn; [|apply insert_dom, H].
    apply insert_dom_r; [by apply has_node_spec|apply H].
  - unfold set_node. destruct (has_node g v) eqn:E; cbn; [|apply insert_dom, H].
    apply insert_dom_r; [by apply has_node_spec|apply H].
  - rewrite (rest_parent _ _ Hr), (rest_children _ _ Hr). apply H.
Qed.

Lemma ensure_node_nodes v g x : is_Some (g_nodes (ensure_node v g) !! x) ↔ x = v ∨ is_Some (g_nodes g !! x).
Proof.
  unfold ensure_node. destruct (has_node g v) eqn:E.
  - apply has_node_spec in E. split; [by right|]. by intros [->|].
  - rewrite set_node_nodes. destruct (decide (v = x)) as [->|Hne]; [rewrite lookup_insert_eq; naive_solver|].
    rewrite lookup_insert_ne by done. naive_solver.
Qed.
(** What a node that was there carries. *)
Lemma ensure_node_label v g x l : g_nodes g !! x = Some l → g_nodes (ensure_node v g) !! x = Some l.
Proof.
  intros Hx. unfold ensure_node. destruct (has_node g v) eqn:E; [done|]. rewrite set_node_nodes.
  rewrite lookup_insert_ne; [done|]. intros ->.
  assert (has_node g x = true) by (apply has_node_spec; by eexists). congruence.
Qed.
Lemma ensure_node_same v g : is_Some (g_nodes g !! v) → ensure_node v g = g.
Proof. intros H%has_node_spec. unfold ensure_node. by rewrite H. Qed.
Lemma ensure_node_edges v g : g_edges (ensure_node v g) = g_edges g.
Proof. unfold ensure_node. destruct (has_node g v); [done|apply set_node_edges]. Qed.
Lemma ensure_node_rest v g : rest (ensure_node v g) = rest g.
Proof. unfold ensure_node. destruct (has_node g v); [done|apply set_node_rest]. Qed.
Lemma ensure_node_lists v g : wf g →
  (∀ x, out_edges (ensure_node v g) x = out_edges g x) ∧ (∀ x, in_edges (ensure_node v g) x = in_edges g x).
Proof. intros H. unfold ensure_node. destruct (has_node g v); [done|by apply set_node_lists]. Qed.
Lemma wf_ensure_node v g : wf g → wf (ensure_node v g).
Proof. intros H. unfold ensure_node. destruct (has_node g v); [done|by apply wf_set_node]. Qed.
#[export] Hint Resolve wf_set_node wf_ensure_node : dagre.

(** ** Edges put in *)

Definition at_node {A} (v x : string) (l : list A) : list A := if decide (v = x) then l else [].

Lemma push_at_lookup v key m m' x :
  push_at v key m = Done m' →
  is_Some (m !! v) ∧ (is_Some (m' !! x) ↔ is_Some (m !! x)) ∧
  default [] (m' !! x) = default [] (m !! x) ++ at_node v x [key].
Proof.
  unfold push_at, at_node. destruct (m !! v) as [l|] eqn:E; cbn; [|done]. intros [= <-].
  split; [by eexists|]. destruct (decide (v = x)) as [->|Hne].
  - by rewrite lookup_insert_eq, E.
  - by rewrite lookup_insert_ne, app_nil_r.
Qed.

(** What an edge put in does to a graph. *)
Record linked (key : EdgeKey) (label : EdgeLabel) (g g' : DagreGraph) : Prop := {
  linked_nodes : g_nodes g' = g_nodes g;
  linked_edges : g_edges g' = <[key := label]> (g_edges g);
  linked_out x : out_edges g' x = out_edges g x ++ at_node (key_v key) x [key];
  linked_in x : in_edges g' x = in_edges g x ++ at_node (key_w key) x [key];
  linked_rest : rest g' = rest g
}.

Lemma elem_at_node v x (k key : EdgeKey) : k ∈ at_node v x [key] ↔ v = x ∧ k = key.
Proof. unfold at_node. destruct (decide (v = x)); set_solver. Qed.

Lemma link_spec key label g : wf g →
  is_Some (g_nodes g !! key_v key) → is_Some (g_nodes g !! key_w key) →
  ∃ g', link key label g = Done g' ∧ linked key label g g' ∧ wf g'.
Proof.
  intros H Hv Hw. unfold link.
  apply (wf_out_dom g H) in Hv as [lo Ho]. apply (wf_in_dom g H) in Hw as [li Hi].
  assert (Eo : push_at (key_v key) key (g_out_edges g) = Done (<[key_v key := lo ++ [key]]> (g_out_edges g)))
    by (unfold push_at; by rewrite Ho).
  assert (Ei : push_at (key_w key) key (g_in_edges g) = Done (<[key_w key := li ++ [key]]> (g_in_edges g)))
    by (unfold push_at; by rewrite Hi).
  rewrite Eo, Ei. cbn. eexists. split; [done|].
  match goal with |- linked _ _ _ ?x ∧ _ => set (g' := x) end.
  assert (L : linked key label g g').
  { split; try done; intros x; [apply (push_at_lookup _ _ _ _ x Eo)|apply (push_at_lookup _ _ _ _ x Ei)]. }
  split; [done|]. split.
  - intros v. change (g_nodes g') with (g_nodes g). rewrite <- (wf_out_dom g H). apply (push_at_lookup _ _ _ _ v Eo).
  - intros v. change (g_nodes g') with (g_nodes g). rewrite <- (wf_in_dom g H). apply (push_at_lookup _ _ _ _ v Ei).
  - intros v k. rewrite (linked_out _ _ _ _ L), (linked_edges _ _ _ _ L), elem_of_app, elem_at_node.
    intros [[? ?]%(wf_out g H)|[<- ->]]; [|by rewrite lookup_insert_eq].
    split; [done|]. by apply lookup_insert_is_Some'; right.
  - intros v k. rewrite (linked_in _ _ _ _ L), (linked_edges _ _ _ _ L), elem_of_app, elem_at_node.
    intros [[? ?]%(wf_in g H)|[<- ->]]; [|by rewrite lookup_insert_eq].
    split; [done|]. by apply lookup_insert_is_Some'; right.
  - intros k. rewrite (linked_out _ _ _ _ L), (linked_edges _ _ _ _ L), elem_of_app, elem_at_node.
    intros [<-|Hk]%lookup_insert_is_Some'; [by right|left]. by apply (wf_edge g H).
  - intros k. rewrite (linked_out _ _ _ _ L), (linked_in _ _ _ _ L), !occ_app, (wf_occ g H).
    f_equal. unfold at_node. destruct (decide (k = key)) as [->|Hne]; [by rewrite !decide_True|].
    assert (E0 : occ k [key] = 0%nat) by (rewrite occ_single; by rewrite decide_False).
    by destruct (decide (key_v key = key_v k)), (decide (key_w key = key_w k)); rewrite ?E0.
  - apply (wf_family g H).
Qed.

Lemma set_edge_key_spec key label g : wf g →
  ∃ g', set_edge_key key label g = Done g' ∧ wf g' ∧
    linked key label (ensure_node (key_w key) (ensure_node (key_v key) g)) g'.
Proof.
  intros H. unfold set_edge_key.
  destruct (link_spec key label (ensure_node (key_w key) (ensure_node (key_v key) g))) as (g' & E & L & W);
    [auto with dagre|..].
  - apply ensure_node_nodes. right. apply ensure_node_nodes. by left.
  - apply ensure_node_nodes. by left.
  - by exists g'.
Qed.

(** Between nodes that are there, only the edges change. *)
Lemma set_edge_key_linked key label g : wf g →
  is_Some (g_nodes g !! key_v key) → is_Some (g_nodes g !! key_w key) →
  ∃ g', set_edge_key key label g = Done g' ∧ wf g' ∧ linked key label g g'.
Proof.
  intros H Hv Hw. destruct (set_edge_key_spec key label g H) as (g' & E & W & L).
  exists g'. split_and!; [done..|].
  rewrite (ensure_node_same (key_v key)), (ensure_node_same (key_w key)) in L by done. done.
Qed.

(** ** Edges taken out *)

Lemma retain_not_lookup key v m x :
  retain_not key v m !! x = filter (λ k, ¬ (k = key ∧ v = x)) <$> m !! x.
Proof.
  unfold retain_not. destruct (decide (v = x)) as [->|Hne].
  - rewrite lookup_alter_eq. destruct (m !! x) as [l|]; cbn; [|done]. f_equal. apply filter_ext_in. naive_solver.
  - rewrite lookup_alter_ne by done. destruct (m !! x) as [l|]; cbn; [|done]. f_equal.
    symmetry. apply filter_all. naive_solver.
Qed.
Lemma default_filter (P : EdgeKey → Prop) `{!∀ k, Decision (P k)} o :
  default [] (filter P <$> o) = filter P (default [] o).
Proof. by destruct o. Qed.

Record unlinked (P : EdgeKey → Prop) `{!∀ k, Decision (P k)} (g g' : DagreGraph) : Prop := {
  unlinked_nodes : g_nodes g' = g_nodes g;
  unlinked_edges k : g_edges g' !! k = if decide (P k) then None else g_edges g !! k;
  unlinked_out x : out_edges g' x = filter (λ k, ¬ P k) (out_edges g x);
  unlinked_in x : in_edges g' x = filter (λ k, ¬ P k) (in_edges g x);
  unlinked_out_dom x : is_Some (g_out_edges g' !! x) ↔ is_Some (g_out_edges g !! x);
  unlinked_in_dom x : is_Some (g_in_edges g' !! x) ↔ is_Some (g_in_edges g !! x);
  unlinked_rest : rest g' = rest g
}.

Lemma unlink_spec key g : wf g → unlinked (λ k, k = key) g (unlink key g).
Proof.
  intros H. split; try done.
  - intros k. cbn. destruct (decide (k = key)) as [->|Hne]; [by rewrite lookup_delete_eq|by rewrite lookup_delete_ne].
  - intros x. unfold out_edges at 1. cbn. rewrite retain_not_lookup, default_filter.
    apply filter_ext_in. intros k [Hk _]%(wf_out g H). naive_solver.
  - intros x. unfold in_edges at 1. cbn. rewrite retain_not_lookup, default_filter.
    apply filter_ext_in. intros k [Hk _]%(wf_in g H). naive_solver.
  - intros x. cbn. by rewrite retain_not_lookup, fmap_is_Some.
  - intros x. cbn. by rewrite retain_not_lookup, fmap_is_Some.
Qed.

Section unlinked.
Context (P : EdgeKey → Prop) `{!∀ k, Decision (P k)} (g g' : DagreGraph) (U : unlinked P g g').
Lemma unlinked_some k : is_Some (g_edges g' !! k) ↔ is_Some (g_edges g !! k) ∧ ¬ P k.
Proof using All.
  rewrite (unlinked_edges _ _ _ U). destruct (decide (P k)); [|naive_solver].
  split; [by intros []|by intros []].
Qed.
Lemma wf_unlinked : wf g → wf g'.
Proof using All.
  intros W. split.
  - intros v. rewrite (unlinked_out_dom _ _ _ U), (unlinked_nodes _ _ _ U). apply (wf_out_dom g W).
  - intros v. rewrite (unlinked_in_dom _ _ _ U), (unlinked_nodes _ _ _ U). apply (wf_in_dom g W).
  - intros v k. rewrite (unlinked_out _ _ _ U), list_elem_of_filter, unlinked_some.
    intros [? [? ?]%(wf_out g W)]. done.
  - intros v k. rewrite (unlinked_in _ _ _ U), list_elem_of_filter, unlinked_some.
    intros [? [? ?]%(wf_in g W)]. done.
  - intros k [Hk Hp]%unlinked_some. rewrite (unlinked_out _ _ _ U), list_elem_of_filter.
    split; [done|by apply (wf_edge g W)].
  - intros k. rewrite (unlinked_out _ _ _ U), (unlinked_in _ _ _ U), !occ_filter. by rewrite (wf_occ g W).
  - intros v p. rewrite (rest_parent _ _ (unlinked_rest _ _ _ U)), (rest_children _ _ (unlinked_rest _ _ _ U)).
    apply (wf_family g W).
Qed.
End unlinked.

Lemma unlinked_refl g : unlinked (λ _, False) g g.
Proof. split; try done; intros; symmetry; apply filter_all; naive_solver. Qed.
Lemma filter_filter_and (P Q R : EdgeKey → Prop) `{!∀ k, Decision (P k), !∀ k, Decision (Q k), !∀ k, Decision (R k)} (l : list EdgeKey) :
  (∀ k, R k ↔ P k ∧ Q k) → filter P (filter Q l) = filter R l.
Proof. intros HR. rewrite list_filter_filter. apply filter_ext_in. intros k _. by rewrite HR. Qed.
Lemma unlinked_trans (P Q R : EdgeKey → Prop) `{!∀ k, Decision (P k), !∀ k, Decision (Q k), !∀ k, Decision (R k)} a b c :
  (∀ k, R k ↔ P k ∨ Q k) → unlinked P a b → unlinked Q b c → unlinked R a c.
Proof.
  intros HR U V. split.
  - by rewrite (unlinked_nodes _ _ _ V), (unlinked_nodes _ _ _ U).
  - intros k. rewrite (unlinked_edges _ _ _ V), (unlinked_edges _ _ _ U).
    destruct (decide (R k)) as [Hk|Hk]; rewrite HR in Hk; destruct (decide (Q k)), (decide (P k)); naive_solver.
  - intros x. rewrite (unlinked_out _ _ _ V), (unlinked_out _ _ _ U).
    apply filter_filter_and. intros k. rewrite HR. tauto.
  - intros x. rewrite (unlinked_in _ _ _ V), (unlinked_in _ _ _ U).
    apply filter_filter_and. intros k. rewrite HR. tauto.
  - intros x. by rewrite (unlinked_out_dom _ _ _ V), (unlinked_out_dom _ _ _ U).
  - intros x. by rewrite (unlinked_in_dom _ _ _ V), (unlinked_in_dom _ _ _ U).
  - by rewrite (unlinked_rest _ _ _ V), (unlinked_rest _ _ _ U).
Qed.

Lemma remove_edge_by_key_spec key g : wf g → unlinked (λ k, k = key) g (remove_edge_by_key key g).
Proof.
  intros H. unfold remove_edge_by_key. destruct (g_edges g !! key) eqn:E; [by apply unlink_spec|].
  assert (Hn : ¬ is_Some (g_edges g !! key)) by (rewrite E; by intros []).
  split; try done.
  - intros k. by destruct (decide (k = key)) as [->|].
  - intros x. symmetry. apply filter_all. intros k [_ Hk]%(wf_out g H). by intros ->.
  - intros x. symmetry. apply filter_all. intros k [_ Hk]%(wf_in g H). by intros ->.
Qed.
Lemma wf_remove_edge_by_key key g : wf g → wf (remove_edge_by_key key g).
Proof. intros H. eapply wf_unlinked; [by apply remove_edge_by_key_spec|done]. Qed.
Lemma remove_keys_spec l g : wf g → unlinked (λ k, k ∈ l) g (fold_with remove_edge_by_key l g).
Proof.
  revert g. induction l as [|key l IH]; intros g H; simpl.
  - destruct (unlinked_refl g). split; try done; intros; symmetry; apply filter_all; set_solver.
  - eapply unlinked_trans; [|by apply remove_edge_by_key_spec|by apply IH, wf_remove_edge_by_key].
    intros k. cbn. by rewrite elem_of_cons.
Qed.
Lemma remove_edge_spec `{MapOrder} v w g : wf g → unlinked (λ k, joins v w k = true) g (remove_edge v w g).
Proof.
  intros H0. pose proof (remove_keys_spec (filter (λ k, joins v w k = true) (edges g)) g H0) as U.
  assert (Hi : ∀ k, is_Some (g_edges g !! k) →
    k ∈ filter (λ k, joins v w k = true) (edges g) ↔ joins v w k = true).
  { intros k Hk. rewrite list_elem_of_filter, edges_elem. naive_solver. }
  split; try apply U.
  - intros k. unfold remove_edge. rewrite (unlinked_edges _ _ _ U).
    destruct (g_edges g !! k) eqn:E; [|by destruct (decide _), (decide _)].
    apply (decide_ext _ _ None (Some e)). apply Hi. by eexists.
  - intros x. unfold remove_edge. rewrite (unlinked_out _ _ _ U).
    apply filter_ext_in. intros k [_ Hk]%(wf_out g H0). by rewrite Hi.
  - intros x. unfold remove_edge. rewrite (unlinked_in _ _ _ U).
    apply filter_ext_in. intros k [_ Hk]%(wf_in g H0). by rewrite Hi.
Qed.
Lemma wf_remove_edge `{MapOrder} v w g : wf g → wf (remove_edge v w g).
Proof. intros H0. eapply wf_unlinked; [by apply remove_edge_spec|done]. Qed.
#[export] Hint Resolve wf_remove_edge_by_key wf_remove_edge : dagre.

(** ** Nodes taken out *)

Definition touches (v : string) (k : EdgeKey) : Prop := key_v k = v ∨ key_w k = v.
#[export] Instance touches_dec v k : Decision (touches v k).
Proof. unfold touches. apply _. Defined.

Lemma drop_out_fold l g :
  let g' := fold_with drop_out l g in
  g_nodes g' = g_nodes g ∧ g_out_edges g' = g_out_edges g ∧ rest g' = rest g ∧
  (∀ k, g_edges g' !! k = if decide (k ∈ l) then None else g_edges g !! k) ∧
  (∀ x, g_in_edges g' !! x = filter (λ k, ¬ (k ∈ l ∧ key_w k = x)) <$> g_in_edges g !! x).
Proof.
  cbn zeta. revert g. induction l as [|key l IH]; intros g; simpl.
  - split_and!; try done. intros x. destruct (g_in_edges g !! x); [|done]. cbn. f_equal. symmetry.
    apply filter_all. set_solver.
  - destruct (IH (drop_out key g)) as (-> & -> & -> & He & Hi). split_and!; try done.
    + intros k. rewrite He. cbn. destruct (decide (k = key)) as [->|Hne].
      * rewrite lookup_delete_eq. by destruct (decide (key ∈ l)), (decide (key ∈ key :: l)); set_solver.
      * rewrite lookup_delete_ne by done. apply decide_ext. set_solver.
    + intros x. rewrite Hi. cbn. rewrite retain_not_lookup. destruct (g_in_edges g !! x); [|done]. cbn.
      f_equal. apply filter_filter_and. set_solver.
Qed.
Lemma drop_in_fold l g :
  let g' := fold_with drop_in l g in
  g_nodes g' = g_nodes g ∧ g_in_edges g' = g_in_edges g ∧ rest g' = rest g ∧
  (∀ k, g_edges g' !! k = if decide (k ∈ l) then None else g_edges g !! k) ∧
  (∀ x, g_out_edges g' !! x = filter (λ k, ¬ (k ∈ l ∧ key_v k = x)) <$> g_out_edges g !! x).
Proof.
  cbn zeta. revert g. induction l as [|key l IH]; intros g; simpl.
  - split_and!; try done. intros x. destruct (g_out_edges g !! x); [|done]. cbn. f_equal. symmetry.
    apply filter_all. set_solver.
  - destruct (IH (drop_in key g)) as (-> & -> & -> & He & Hi). split_and!; try done.
    + intros k. rewrite He. cbn. destruct (decide (k = key)) as [->|Hne].
      * rewrite lookup_delete_eq. by destruct (decide (key ∈ l)), (decide (key ∈ key :: l)); set_solver.
      * rewrite lookup_delete_ne by done. apply decide_ext. set_solver.
    + intros x. rewrite Hi. cbn. rewrite retain_not_lookup. destruct (g_out_edges g !! x); [|done]. cbn.
      f_equal. apply filter_filter_and. set_solver.
Qed.

(** What the removal of a node leaves. *)
Record removed (v : string) (g g' : DagreGraph) : Prop := {
  removed_nodes : g_nodes g' = delete v (g_nodes g);
  removed_edges k : g_edges g' !! k = if decide (touches v k) then None else g_edges g !! k;
  removed_out x : out_edges g' x = filter (λ k, ¬ touches v k) (out_edges g x);
  removed_in x : in_edges g' x = filter (λ k, ¬ touches v k) (in_edges g x);
  removed_out_dom x : is_Some (g_out_edges g' !! x) ↔ x ≠ v ∧ is_Some (g_out_edges g !! x);
  removed_in_dom x : is_Some (g_in_edges g' !! x) ↔ x ≠ v ∧ is_Some (g_in_edges g !! x);
  removed_parent : g_parent g' = delete v (g_parent g);
  removed_label : g_graph_label g' = g_graph_label g;
  removed_counter : g_edge_counter g' = g_edge_counter g
}.

Lemma remove_node_spec v g : wf g → is_Some (g_nodes g !! v) → removed v g (remove_node v g).
Proof.
  intros H Hv. unfold remove_node. destruct (has_node_spec g v) as [_ ->]; [|done].
  set (g1 := set_g_nodes (delete v (g_nodes g)) g).
  destruct (proj2 (wf_out_dom g H v) Hv) as [lo Ho]. destruct (proj2 (wf_in_dom g H v) Hv) as [li Hi].
  assert (Hlo : ∀ k, k ∈ lo ↔ is_Some (g_edges g !! k) ∧ key_v k = v).
  { intros k. rewrite <- (out_edges_iff g v k H). unfold out_edges. by rewrite Ho. }
  assert (Hli : ∀ k, k ∈ li ↔ is_Some (g_edges g !! k) ∧ key_w k = v).
  { intros k. rewrite <- (in_edges_iff g v k H). unfold in_edges. by rewrite Hi. }
  unfold remove_out. change (g_out_edges g1) with (g_out_edges g). rewrite Ho.
  destruct (drop_out_fold lo (set_g_out_edges (delete v (g_out_edges g)) g1)) as (N2 & O2 & R2 & E2 & I2).
  set (g2 := fold_with drop_out lo _) in *. cbn in O2, N2, I2, E2.
  unfold remove_in. rewrite I2, Hi. cbn.
  set (li' := filter _ li).
  assert (Hli' : ∀ k, k ∈ li' ↔ is_Some (g_edges g !! k) ∧ key_w k = v ∧ key_v k ≠ v).
  { intros k. unfold li'. rewrite list_elem_of_filter, Hli, Hlo. naive_solver. }
  destruct (drop_in_fold li' (set_g_in_edges (delete v (g_in_edges g2)) g2)) as (N3 & I3 & R3 & E3 & O3).
  set (g3 := fold_with drop_in li' _) in *. cbn in N3, I3, R3, E3, O3.
  injection R3 as R3a R3b R3c R3d. injection R2 as R2a R2b R2c R2d.
  assert (Eall : ∀ k, g_edges g3 !! k = if decide (touches v k) then None else g_edges g !! k).
  { intros k. rewrite E3, E2. destruct (g_edges g !! k) as [e|] eqn:Ek; [|by repeat case_decide].
    assert (Hk : is_Some (g_edges g !! k)) by by eexists.
    destruct (decide (touches v k)) as [[Ht|Ht]|Ht].
    - destruct (decide (k ∈ li')); [done|]. rewrite decide_True; [done|]. by apply Hlo.
    - destruct (decide (key_v k = v)).
      + destruct (decide (k ∈ li')); [done|]. rewrite decide_True; [done|]. by apply Hlo.
      + rewrite decide_True; [done|]. by apply Hli'.
    - unfold touches in Ht. rewrite decide_False by (rewrite Hli'; tauto). rewrite decide_False by (rewrite Hlo; tauto). done. }
  split; try done.
  - cbn. by rewrite N3, N2.
  - intros x. unfold out_edges. cbn. rewrite O3, O2, default_filter.
    destruct (decide (v = x)) as [->|Hne].
    + rewrite lookup_delete_eq. cbn. symmetry. rewrite Ho. cbn.
      assert (Hall : ∀ k, k ∈ lo → touches x k) by (intros k [_ Hk]%Hlo; by left).
      clear -Hall. induction lo as [|k lo IH]; [done|]. rewrite filter_cons, decide_False.
      * apply IH. intros; apply Hall. by right.
      * intros Hk. apply Hk, Hall. by left.
    + rewrite lookup_delete_ne by done. fold (out_edges g x). apply filter_ext_in.
      intros k [Hk Hs]%(wf_out g H). rewrite Hli'. unfold touches. naive_solver.
  - intros x. unfold in_edges. cbn. rewrite I3.
    destruct (decide (v = x)) as [->|Hne].
    + rewrite lookup_delete_eq. cbn. symmetry. rewrite Hi. cbn.
      assert (Hall : ∀ k, k ∈ li → touches x k) by (intros k [_ Hk]%Hli; by right).
      clear -Hall. induction li as [|k li IH]; [done|]. rewrite filter_cons, decide_False.
      * apply IH. intros; apply Hall. by right.
      * intros Hk. apply Hk, Hall. by left.
    + rewrite lookup_delete_ne by done. rewrite I2, default_filter. fold (in_edges g x). apply filter_ext_in.
      intros k [Hk Hs]%(wf_in g H). rewrite Hlo. unfold touches. naive_solver.
  - intros x. cbn. rewrite O3, fmap_is_Some, O2. rewrite lookup_delete_is_Some. naive_solver.
  - intros x. cbn. rewrite I3, lookup_delete_is_Some, I2, fmap_is_Some. naive_solver.
  - cbn. by rewrite R3b, R2b.
  - cbn. by rewrite R3a, R2a.
  - cbn. by rewrite R3d, R2d.
Qed.

Lemma remove_node_none v g : g_nodes g !! v = None → remove_node v g = g.
Proof. intros H. unfold remove_node, has_node. rewrite H. by rewrite bool_decide_eq_false_2 by (intros []; done). Qed.

(** Nobody keeps a removed node as a child. *)
Lemma remove_node_family v g : wf g → is_Some (g_nodes g !! v) →
  g_children (remove_node v g) =
  delete v (match g_parent g !! v with Some p => alter (λ c, c ∖ {[v]}) p (g_children g) | None => g_children g end).
Proof.
  intros H Hv. unfold remove_node. destruct (has_node_spec g v) as [_ ->]; [|done].
  set (g1 := set_g_nodes (delete v (g_nodes g)) g).
  assert (R2 : rest (remove_out v g1) = rest g).
  { unfold remove_out. change (g_out_edges g1) with (g_out_edges g). destruct (g_out_edges g !! v) as [lo|]; [|done].
    by destruct (drop_out_fold lo (set_g_out_edges (delete v (g_out_edges g)) g1)) as (_ & _ & -> & _). }
  assert (R3 : rest (remove_in v (remove_out v g1)) = rest g).
  { unfold remove_in. destruct (g_in_edges (remove_out v g1) !! v) as [li|]; [|done].
    by destruct (drop_in_fold li (set_g_in_edges (delete v (g_in_edges (remove_out v g1))) (remove_out v g1)))
      as (_ & _ & -> & _). }
  cbn. by rewrite (rest_parent _ _ R3), (rest_children _ _ R3).
Qed.

Lemma children_without v p m c x :
  (match m !! v with Some q => alter (λ s, s ∖ {[v]}) q c | None => c end : gmap string (gset string)) !! p = Some x →
  ∃ y, c !! p = Some y ∧ (∀ u, u ∈ x ↔ u ∈ y ∧ ¬ (u = v ∧ (m : gmap string string) !! v = Some p)).
Proof.
  destruct (m !! v) as [q|]; [|by intros ->; exists x; split; [|naive_solver]].
  destruct (decide (q = p)) as [->|Hne].
  - rewrite lookup_alter_eq. intros (y & -> & ->)%fmap_Some. exists y. split; [done|]. set_solver.
  - rewrite lookup_alter_ne by done. intros ->. exists x. split; [done|]. naive_solver.
Qed.

Lemma wf_remove_node v g : wf g → wf (remove_node v g).
Proof.
  intros H. destruct (g_nodes g !! v) as [lab|] eqn:Ev; [|by rewrite remove_node_none].
  assert (Hv : is_Some (g_nodes g !! v)) by by eexists.
  pose proof (remove_node_spec v g H Hv) as R.
  assert (Hsome : ∀ k, is_Some (g_edges (remove_node v g) !! k) ↔ is_Some (g_edges g !! k) ∧ ¬ touches v k).
  { intros k. rewrite (removed_edges _ _ _ R). destruct (decide (touches v k)); [|naive_solver].
    split; [by intros []|by intros []]. }
  split.
  - intros x. rewrite (removed_out_dom _ _ _ R), (removed_nodes _ _ _ R), lookup_delete_is_Some, (wf_out_dom g H). naive_solver.
  - intros x. rewrite (removed_in_dom _ _ _ R), (removed_nodes _ _ _ R), lookup_delete_is_Some, (wf_in_dom g H). naive_solver.
  - intros x k. rewrite (removed_out _ _ _ R), list_elem_of_filter, Hsome. by intros [? [? ?]%(wf_out g H)].
  - intros x k. rewrite (removed_in _ _ _ R), list_elem_of_filter, Hsome. by intros [? [? ?]%(wf_in g H)].
  - intros k [Hk Ht]%Hsome. rewrite (removed_out _ _ _ R), list_elem_of_filter. split; [done|by apply (wf_edge g H)].
  - intros k. rewrite (removed_out _ _ _ R), (removed_in _ _ _ R), !occ_filter. by rewrite (wf_occ g H).
  - intros x p. rewrite (remove_node_family v g H Hv), (removed_parent _ _ _ R).
    destruct (delete v _ !! p) as [c|] eqn:E; cbn; [|by rewrite elem_of_empty].
    apply lookup_delete_Some in E as [Hp (y & Hy & Hc)%children_without].
    intros [Hx Hn]%Hc. assert (Hxp : g_parent g !! x = Some p) by (apply (wf_family g H); by rewrite Hy).
    rewrite lookup_delete_ne; [done|]. intros ->. by apply Hn.
Qed.
#[export] Hint Resolve wf_remove_node : dagre.

(** ** Parents and names *)

Lemma wf_set_parent v p g : wf g → wf (set_parent v p g).
Proof.
  intros H0. unfold set_parent. set (g1 := ensure_node p (ensure_node v g)).
  assert (H : wf g1) by (unfold g1; auto with dagre). clearbody g1. clear g H0.
  split; cbn; try apply H. intros x q.
  destruct (decide (p = q)) as [->|Hne].
  - rewrite lookup_insert_eq. cbn. rewrite elem_of_union, elem_of_singleton. intros [Hx| ->]; [|by rewrite lookup_insert_eq].
    destruct (decide (v = x)) as [->|Hne]; [by rewrite lookup_insert_eq|]. rewrite lookup_insert_ne by done.
    destruct (_ !! q) as [c|] eqn:E in Hx; cbn in Hx; [|by apply elem_of_empty in Hx].
    apply children_without in E as (y & Hy & Hc). apply Hc in Hx as [Hx _].
    apply (wf_family g1 H). by rewrite Hy.
  - rewrite lookup_insert_ne by done. intros Hx.
    destruct (_ !! q) as [c|] eqn:E in Hx; cbn in Hx; [|by apply elem_of_empty in Hx].
    apply children_without in E as (y & Hy & Hc). apply Hc in Hx as [Hx Hn].
    assert (Hxp : g_parent g1 !! x = Some q) by (apply (wf_family g1 H); by rewrite Hy).
    rewrite lookup_insert_ne; [done|]. intros ->. by apply Hn.
Qed.
Lemma wf_unique_id pre g : wf g → wf (unique_id pre g).2.
Proof. intros H. split; cbn; apply H. Qed.
#[export] Hint Resolve wf_set_parent wf_unique_id : dagre.

(** ** Any sequence of operations *)

(** The public operations of the graph.  [Relabel] and [RelabelEdge] are the
    changes made through [node_mut] and [edge_by_key_mut]; their functions
    stand for what the layout assigns. *)
Inductive GraphOp :=
  | SetNode (v : string) (label : NodeLabel)
  | SetNodes (vs : list string)
  | RemoveNode (v : string)
  | SetEdge (v w : string) (label : EdgeLabel)
  | SetEdgeWithName (v w : string) (label : EdgeLabel) (name : string)
  | RemoveEdge (v w : string)
  | RemoveEdgeByKey (key : EdgeKey)
  | SetPath (vs : list string)
  | SetParent (v parent : string)
  | UniqueId (pre : string)
  | Relabel (f : NodeLabel → NodeLabel) (v : string)
  | RelabelEdge (f : EdgeLabel → EdgeLabel) (key : EdgeKey)
  | SetGraph (label : GraphLabel).

Definition apply_op `{MapOrder} (op : GraphOp) (g : DagreGraph) : panics DagreGraph :=
  match op with
  | SetNode v label => Done (set_node v label g)
  | SetNodes vs => Done (set_nodes vs g)
  | RemoveNode v => Done (remove_node v g)
  | SetEdge v w label => set_edge v w label g
  | SetEdgeWithName v w label name => set_edge_with_name v w label name g
  | RemoveEdge v w => Done (remove_edge v w g)
  | RemoveEdgeByKey key => Done (remove_edge_by_key key g)
  | SetPath vs => set_path vs g
  | SetParent v p => Done (set_parent v p g)
  | UniqueId pre => Done (unique_id pre g).2
  | Relabel f v => Done (node_mut f v g)
  | RelabelEdge f key => Done (edge_by_key_mut f key g)
  | SetGraph label => Done (set_g_graph_label label g)
  end.

Lemma wf_set_nodes vs g : wf g → wf (set_nodes vs g).
Proof. revert g. induction vs as [|v vs IH]; intros g H; simpl; [done|]. by apply IH, wf_set_node. Qed.
Lemma set_path_from_ok v vs g : wf g → ∃ g', set_path_from v vs g = Done g' ∧ wf g'.
Proof.
  revert v g. induction vs as [|w vs IH]; intros v g H; simpl; [by eexists|].
  destruct (set_edge_key_spec (EdgeKey_new v w) EdgeLabel_default g H) as (g1 & E & W1 & _).
  unfold set_edge. rewrite E, bind_done. by apply IH.
Qed.
Lemma apply_op_ok `{MapOrder} op g : wf g →
  match apply_op op g with Done g' => op ≠ SetPath [] ∧ wf g' | Fail _ => op = SetPath [] | OutOfFuel => False end.
Proof.
  intros W. destruct op as [| | |v w label|v w label name| | |[|v vs]| | | | |]; cbn [apply_op set_path]; try done;
    try (split; [done|]; auto with dagre).
  - by apply wf_set_nodes.
  - destruct (set_edge_key_spec (EdgeKey_new v w) label g W) as (g1 & E & W1 & _). unfold set_edge. by rewrite E.
  - destruct (set_edge_key_spec (EdgeKey_with_name v w name) label g W) as (g1 & E & W1 & _). unfold set_edge_with_name. by rewrite E.
  - destruct (set_path_from_ok v vs g W) as (g1 & -> & W1). done.
  - eapply wf_same_shape; [apply node_mut_shape|done].
  - eapply wf_same_shape; [apply edge_mut_shape|done].
  - eapply wf_same_shape; [apply set_label_shape|done].
Qed.

(** *** Parents through a sequence *)

(** After [op], the node [v] still has the parent it had. *)
Definition keeps_parent (v : string) (op : GraphOp) : Prop :=
  match op with SetParent x _ | RemoveNode x => x ≠ v | _ => True end.
(** And [p] still lists it as a child. *)
Definition keeps_child (v p : string) (op : GraphOp) : Prop :=
  match op with SetParent x _ => x ≠ v | RemoveNode x => x ≠ v ∧ x ≠ p | _ => True end.
(** [p] was made the parent of [v], and what came after keeps that. *)
Definition stays (keeps : GraphOp → Prop) (v p : string) (ops : list GraphOp) : Prop :=
  ∃ pre post, ops = pre ++ SetParent v p :: post ∧ Forall keeps post.

Lemma stays_nil keeps v p : ¬ stays keeps v p [].
Proof. by intros ([|] & ? & ? & _). Qed.
Lemma stays_snoc keeps v p ops op :
  stays keeps v p (ops ++ [op]) ↔ op = SetParent v p ∨ stays keeps v p ops ∧ keeps op.
Proof.
  split.
  - intros (pre & post & E & Hk). destruct post as [|x post _] using rev_ind.
    + left. by apply app_inj_tail in E as [_ ->].
    + right. rewrite app_comm_cons, app_assoc in E. apply app_inj_tail in E as [-> ->].
      apply Forall_app in Hk as [Hk Hx]. apply Forall_cons in Hx as [Hx _]. split; [by exists pre, post|done].
  - intros [->|[(pre & post & -> & Hk) Hx]]; [by exists ops, []|]. exists pre, (post ++ [op]).
    split; [by rewrite <- app_assoc|]. apply Forall_app. by split; [|constructor].
Qed.

(** A node with a parent is there, and one with children. *)
Definition named (g : DagreGraph) : Prop :=
  (∀ v p, g_parent g !! v = Some p → is_Some (g_nodes g !! v)) ∧
  (∀ v p, v ∈ default ∅ (g_children g !! p) → is_Some (g_nodes g !! p)).
(** What one operation does to parents and children. *)
Record family_step (op : GraphOp) (g g' : DagreGraph) : Prop := {
  fs_named : named g';
  fs_parent v p : g_parent g' !! v = Some p ↔ op = SetParent v p ∨ g_parent g !! v = Some p ∧ keeps_parent v op;
  fs_child v p : v ∈ default ∅ (g_children g' !! p) ↔
    op = SetParent v p ∨ v ∈ default ∅ (g_children g !! p) ∧ keeps_child v p op
}.
Lemma plain_step op g g' : (match op with SetParent _ _ | RemoveNode _ => False | _ => True end) →
  g_parent g' = g_parent g → g_children g' = g_children g → (∀ x, is_Some (g_nodes g !! x) → is_Some (g_nodes g' !! x)) →
  named g → family_step op g g'.
Proof.
  intros Hop Hp Hc Hn [N1 N2]. split.
  - split; intros v p; rewrite ?Hp, ?Hc; intros ?; eapply Hn; eauto.
  - intros v p. rewrite Hp. destruct op; naive_solver.
  - intros v p. rewrite Hc. destruct op; naive_solver.
Qed.
Lemma set_parent_step v p g : wf g → named g → family_step (SetParent v p) g (set_parent v p g).
Proof.
  intros W [N1 N2]. unfold set_parent. set (g1 := ensure_node p (ensure_node v g)).
  assert (Hn : ∀ x, is_Some (g_nodes g1 !! x) ↔ x = p ∨ x = v ∨ is_Some (g_nodes g !! x)).
  { intros x. unfold g1. by rewrite !ensure_node_nodes. }
  assert (Hr : rest g1 = rest g) by (unfold g1; by rewrite !ensure_node_rest).
  rewrite (rest_parent _ _ Hr), (rest_children _ _ Hr). cbn.
  set (ch := match g_parent g !! v with Some old => _ | None => _ end).
  assert (Hch : ∀ u q, u ∈ default ∅ (ch !! q) ↔ u ∈ default ∅ (g_children g !! q) ∧ u ≠ v).
  { intros u q. pose proof (wf_family g W v q) as Hf. unfold ch. destruct (g_parent g !! v) as [old|] eqn:E.
    - destruct (decide (old = q)) as [->|Hne].
      + rewrite lookup_alter_eq. destruct (g_children g !! q); cbn; set_solver.
      + rewrite lookup_alter_ne by done. split; [|by intros [? _]]. intros Hu. split; [done|]. intros ->. apply Hf in Hu. congruence.
    - split; [|by intros [? _]]. intros Hu. split; [done|]. intros ->. by apply Hf in Hu. }
  assert (Hin : ∀ u q, u ∈ default ∅ (<[p := default ∅ (ch !! p) ∪ {[v]}]> ch !! q) ↔
    (v = u ∧ p = q) ∨ u ∈ default ∅ (g_children g !! q) ∧ u ≠ v).
  { intros u q. destruct (decide (p = q)) as [->|Hne].
    - rewrite lookup_insert_eq. cbn. rewrite elem_of_union, elem_of_singleton, Hch. naive_solver.
    - rewrite lookup_insert_ne, Hch by done. naive_solver. }
  split; cbn.
  - split; cbn; intros u q.
    + rewrite lookup_insert_Some. rewrite Hn. intros [[-> _]|[_ ?%N1]]; auto.
    + rewrite Hin, Hn. intros [[_ ->]|[?%N2 _]]; auto.
  - intros u q. rewrite lookup_insert_Some. naive_solver.
  - intros u q. rewrite Hin. naive_solver.
Qed.
Lemma remove_node_step v g : wf g → named g → family_step (RemoveNode v) g (remove_node v g).
Proof.
  intros W [N1 N2]. destruct (g_nodes g !! v) as [l|] eqn:E.
  2:{ rewrite remove_node_none by done. assert (Hv : ¬ is_Some (g_nodes g !! v)) by (rewrite E; by intros []).
      split; [done|..]; intros u q; cbn.
      - split; [intros Hu; right; split; [done|]; intros ->; by apply N1 in Hu|by intros [|[]]].
      - split; [intros Hu; right; split_and!; [done| |]; intros ->|by intros [|[]]].
        + by apply (wf_family g W), N1 in Hu.
        + by apply N2 in Hu. }
  assert (Hv : is_Some (g_nodes g !! v)) by by eexists.
  pose proof (remove_node_spec v g W Hv) as R. pose proof (remove_node_family v g W Hv) as F.
  assert (Hin : ∀ u q, u ∈ default ∅ (g_children (remove_node v g) !! q) ↔ u ∈ default ∅ (g_children g !! q) ∧ v ≠ u ∧ v ≠ q).
  { intros u q. rewrite F. pose proof (wf_family g W v q) as Hf. destruct (decide (v = q)) as [->|Hq].
    { rewrite lookup_delete_eq. cbn. set_solver. }
    rewrite lookup_delete_ne by done. destruct (g_parent g !! v) as [old|] eqn:Ep.
    - destruct (decide (old = q)) as [->|Hne].
      + rewrite lookup_alter_eq. destruct (g_children g !! q); cbn; set_solver.
      + rewrite lookup_alter_ne by done. split; [|by intros [? _]]. intros Hu. split_and!; [done| |done]. intros ->. apply Hf in Hu. congruence.
    - split; [|by intros [? _]]. intros Hu. split_and!; [done| |done]. intros ->. by apply Hf in Hu. }
  split; cbn.
  - split; intros u q; rewrite ?(removed_parent _ _ _ R), (removed_nodes _ _ _ R), lookup_delete_is_Some.
    + rewrite lookup_delete_Some. intros [? ?%N1]. done.
    + rewrite Hin. intros (?%N2 & _ & ?). done.
  - intros u q. rewrite (removed_parent _ _ _ R), lookup_delete_Some. naive_solver.
  - intros u q. rewrite Hin. naive_solver.
Qed.

Lemma set_path_family v vs g : wf g → ∃ g', set_path_from v vs g = Done g' ∧ g_parent g' = g_parent g ∧ g_children g' = g_children g ∧
  ∀ x, is_Some (g_nodes g !! x) → is_Some (g_nodes g' !! x).
Proof.
  revert v g. induction vs as [|w vs IH]; intros v g W; cbn [set_path_from]; [by exists g|].
  destruct (set_edge_key_spec (EdgeKey_new v w) EdgeLabel_default g W) as (g1 & E & W1 & L).
  unfold set_edge. rewrite E, bind_done. destruct (IH w g1 W1) as (g2 & -> & Hp & Hc & Hn). exists g2.
  assert (Hr : rest g1 = rest g) by (rewrite (linked_rest _ _ _ _ L), !ensure_node_rest; done).
  split_and!; [done|by rewrite Hp, (rest_parent _ _ Hr)|by rewrite Hc, (rest_children _ _ Hr)|].
  intros x Hx. apply Hn. rewrite (linked_nodes _ _ _ _ L), !ensure_node_nodes. auto.
Qed.
Lemma op_family_step `{MapOrder} op g g' : wf g → named g → apply_op op g = Done g' → family_step op g g'.
Proof.
  intros W N.
  assert (Hlink : ∀ key label, set_edge_key key label g = Done g' →
    g_parent g' = g_parent g ∧ g_children g' = g_children g ∧ ∀ x, is_Some (g_nodes g !! x) → is_Some (g_nodes g' !! x)).
  { intros key label E. destruct (set_edge_key_spec key label g W) as (g1 & E1 & _ & L). rewrite E in E1. injection E1 as <-.
    assert (Hr : rest g' = rest g) by (rewrite (linked_rest _ _ _ _ L), !ensure_node_rest; done).
    split_and!; [by apply rest_parent|by apply rest_children|]. intros x Hx. rewrite (linked_nodes _ _ _ _ L), !ensure_node_nodes. auto. }
  destruct op as [v l|vs|v|v w l|v w l nm|v w|k|[|v vs]|v p|pre|f v|f k|l]; cbn [apply_op set_path]; intros E; try done.
  - injection E as <-. pose proof (set_node_rest v l g) as Hr.
    apply plain_step; [done|by apply rest_parent|by apply rest_children| |done].
    intros x Hx. rewrite set_node_nodes. apply lookup_insert_is_Some'. by right.
  - injection E as <-. apply plain_step; [done|..|done].
    + clear. revert g. induction vs as [|v vs IH]; intros g; [done|]. cbn. unfold set_nodes in *. cbn.
      rewrite IH. apply rest_parent, set_node_rest.
    + clear. revert g. induction vs as [|v vs IH]; intros g; [done|]. cbn. unfold set_nodes in *. cbn.
      rewrite IH. apply rest_children, set_node_rest.
    + clear. revert g. induction vs as [|v vs IH]; intros g x Hx; [done|]. apply IH. rewrite set_node_nodes.
      apply lookup_insert_is_Some'. by right.
  - injection E as <-. by apply remove_node_step.
  - destruct (Hlink _ _ E) as (? & ? & ?). by apply plain_step.
  - destruct (Hlink _ _ E) as (? & ? & ?). by apply plain_step.
  - injection E as <-. pose proof (remove_edge_spec v w g W) as U.
    apply plain_step; [done|by apply rest_parent, U|by apply rest_children, U| |done]. by rewrite (unlinked_nodes _ _ _ U).
  - injection E as <-. pose proof (remove_edge_by_key_spec k g W) as U.
    apply plain_step; [done|by apply rest_parent, U|by apply rest_children, U| |done]. by rewrite (unlinked_nodes _ _ _ U).
  - destruct (set_path_family v vs g W) as (g1 & E1 & ? & ? & ?). rewrite E in E1. injection E1 as <-. by apply plain_step.
  - injection E as <-. by apply set_parent_step.
  - injection E as <-. by apply plain_step.
  - injection E as <-. destruct (node_mut_shape f v g) as (Hn & _ & _ & _ & Hp & Hc). apply plain_step; [done..| |done]. intros x. by rewrite Hn.
  - injection E as <-. by apply plain_step.
  - injection E as <-. by apply plain_step.
Qed.

(** What is true of the graph that [ops] left. *)
Record after_ops (ops : list GraphOp) (g : DagreGraph) : Prop := {
  ao_wf : wf g;
  ao_named : named g;
  ao_path : SetPath [] ∉ ops;
  ao_parent v p : g_parent g !! v = Some p ↔ stays (keeps_parent v) v p ops;
  ao_child v p : v ∈ default ∅ (g_children g !! p) ↔ stays (keeps_child v p) v p ops
}.
Lemma apply_ops_ok `{MapOrder} ops :
  match fold_outcome apply_op ops DagreGraph_new with
  | Done g => after_ops ops g
  | Fail _ => SetPath [] ∈ ops
  | OutOfFuel => False
  end.
Proof.
  induction ops as [|op ops IH] using rev_ind.
  - split; [apply wf_new|by split; intros v p; cbn; rewrite lookup_empty|by apply not_elem_of_nil|..]; intros v p; cbn; rewrite lookup_empty; cbn.
    + split; [done|]. by intros ?%stays_nil.
    + split; [by intros ?%elem_of_empty|]. by intros ?%stays_nil.
  - rewrite fold_outcome_app. destruct (fold_outcome apply_op ops DagreGraph_new) as [g|[]|]; [|cbn; set_solver|done].
    destruct IH as [W N Hs Hp Hc]. rewrite bind_done. cbn [fold_outcome]. pose proof (apply_op_ok op g W) as Hok.
    destruct (apply_op op g) as [g'|[]|] eqn:E; cbn; [|set_solver|done]. destruct Hok as [Hne W'].
    destruct (op_family_step op g g' W N E) as [N' Fp Fc]. split; [done|done|set_solver|..]; intros v p.
    + by rewrite Fp, stays_snoc, Hp.
    + by rewrite Fc, stays_snoc, Hc.
Qed.

(** C25: whatever is done to a graph, its parts agree, and nothing panics but an
    empty path.
    From the empty graph, a sequence of operations runs to its end unless one of
    them is [set_path] of no nodes, which panics.  In the graph it leaves, the
    keys at a node's outgoing list are exactly the edges of the map that start
    there, those at its incoming list the ones that end there, and the ends of
    every edge are nodes.  The parent of [v] is [p] exactly when it was made so
    and [v] has neither been given another nor been removed since; and [p] lists
    [v] as a child exactly when, besides, [p] has not been removed since: a node
    whose parent is removed keeps naming it, and is its child no more even when
    the parent is put in again. *)
Theorem graph_parts_agree `{MapOrder} ops :
  match fold_outcome apply_op ops DagreGraph_new with
  | Done g =>
      SetPath [] ∉ ops ∧
      (∀ v k, k ∈ out_edges g v ↔ k ∈ edges g ∧ key_v k = v) ∧
      (∀ v k, k ∈ in_edges g v ↔ k ∈ edges g ∧ key_w k = v) ∧
      (∀ k, k ∈ edges g → key_v k ∈ nodes g ∧ key_w k ∈ nodes g) ∧
      (∀ v p, parent g v = Some p ↔ stays (keeps_parent v) v p ops) ∧
      (∀ v p, v ∈ children g p ↔ stays (keeps_child v p) v p ops)
  | Fail _ => SetPath [] ∈ ops
  | OutOfFuel => False
  end.
Proof.
  pose proof (apply_ops_ok ops) as H0. destruct (fold_outcome _ _ _) as [g|[]|]; [|done..].
  destruct H0 as [W N Hs Hp Hc]. split_and!; [done|..].
  - intros v k. rewrite edges_elem. by apply out_edges_iff.
  - intros v k. rewrite edges_elem. by apply in_edges_iff.
  - intros k. rewrite edges_elem, !nodes_elem. by apply edge_ends.
  - apply Hp.
  - intros v p. unfold children, sort_strings. rewrite sort_by_elem, elem_of_elements. apply Hc.
Qed.

(** ** Examples *)

(** A hash map walked in the order of [map_to_list]. *)
Definition list_order : MapOrder := {| edge_order m := (map_to_list m).*1; edge_order_perm m := reflexivity _ |}.
Definition graph_of (ops : list GraphOp) : DagreGraph :=
  match fold_outcome (@apply_op list_order) ops DagreGraph_new with Done g => g | _ => DagreGraph_new end.
Lemma wf_graph_of ops : wf (graph_of ops).
Proof. unfold graph_of. pose proof (@apply_ops_ok list_order ops) as H. destruct (fold_outcome _ _ _); [apply H|apply wf_new..]. Qed.
