(* ===== verification/Acyclic.v ===== *)
(** * Breaking cycles ([src/crates/selkie/src/layout/dagre/acyclic.rs])

    A set of edges is found whose reversal leaves no cycle, by depth-first
    search or by taking nodes off greedily; [run] reverses them under new names
    and [undo] turns them back.  The recursion of [dfs] is as deep as there are
    nodes, and each round of [greedy_fas] takes off at least one: the number of
    nodes is the fuel of both. *)
From stdpp Require Import strings gmap.
From S2P Require Import Prelude F64 SortBy DagreGraph.

Inductive Acyclicer := Greedy | Dfs.

(** ** Depth-first search *)

Record DfsState := mkDfs { visited : gset string; stack : gset string; fas : list EdgeKey }.

Fixpoint dfs (fuel : nat) (g : DagreGraph) (v : string) (s : DfsState) : panics DfsState :=
  match fuel with
  | O => OutOfFuel
  | S fuel' =>
      if decide (v ∈ visited s) then Done s else
      s ← fold_outcome
            (λ e s,
               if decide (key_w e ∈ stack s) then Done (mkDfs (visited s) (stack s) (fas s ++ [e]))
               else dfs fuel' g (key_w e) s)
            (out_edges g v)
            (mkDfs ({[v]} ∪ visited s) ({[v]} ∪ stack s) (fas s));
      Done (mkDfs (visited s) (stack s ∖ {[v]}) (fas s))
  end.

Definition is_source (g : DagreGraph) (v : string) : bool := bool_decide (in_edges g v = []).
Definition dfs_fas (g : DagreGraph) : panics (list EdgeKey) :=
  let fuel := S (node_count g) in
  let ns := sort_strings (nodes g) in
  let sources := sort_strings (filter (λ v, is_source g v = true) ns) in
  s ← fold_outcome (dfs fuel g) sources (mkDfs ∅ ∅ []);
  s ← fold_outcome (dfs fuel g) ns s;
  Done (fas s).

(** ** Greedy *)

Record GreedyState := mkGreedy {
  in_degree : gmap string Z;
  out_degree : gmap string Z;
  active_nodes : gset string;
  greedy_set : list EdgeKey
}.

Definition degree (m : gmap string Z) (v : string) : Z := default 0 (m !! v).
(** [*map.get_mut(v).unwrap() -= 1]. *)
Definition decrement (v : string) (m : gmap string Z) : panics (gmap string Z) :=
  d ← unwrap (m !! v); Done (<[v := i32_wrap (d - 1)]> m).
Definition list_len (l : list EdgeKey) : Z := i32_wrap (Z.of_nat (length l)).

Definition greedy_init (g : DagreGraph) : GreedyState :=
  fold_with (λ v s, mkGreedy (<[v := list_len (in_edges g v)]> (in_degree s))
                             (<[v := list_len (out_edges g v)]> (out_degree s))
                             ({[v]} ∪ active_nodes s) (greedy_set s))
    (nodes g) (mkGreedy ∅ ∅ ∅ []).

Definition deactivate (v : string) (s : GreedyState) : GreedyState :=
  mkGreedy (in_degree s) (out_degree s) (active_nodes s ∖ {[v]}) (greedy_set s).
(** The targets of [v]'s edges lose an incoming edge. *)
Definition drop_targets (g : DagreGraph) (v : string) (s : GreedyState) : panics GreedyState :=
  fold_outcome
    (λ e s, if decide (key_w e ∈ active_nodes s) then
              m ← decrement (key_w e) (in_degree s);
              Done (mkGreedy m (out_degree s) (active_nodes s) (greedy_set s))
            else Done s)
    (out_edges g v) s.
(** The sources of [v]'s edges lose an outgoing edge; [cut]: into the set. *)
Definition drop_sources (cut : bool) (g : DagreGraph) (v : string) (s : GreedyState) : panics GreedyState :=
  fold_outcome
    (λ e s, if decide (key_v e ∈ active_nodes s) then
              m ← decrement (key_v e) (out_degree s);
              Done (mkGreedy (in_degree s) m (active_nodes s)
                      (if cut then greedy_set s ++ [e] else greedy_set s))
            else Done s)
    (in_edges g v) s.

Definition remove_source (g : DagreGraph) (v : string) (s : GreedyState) : panics GreedyState :=
  s ← drop_targets g v s; Done (deactivate v s).
Definition remove_sink (g : DagreGraph) (v : string) (s : GreedyState) : panics GreedyState :=
  s ← drop_sources false g v s; Done (deactivate v s).

(** The active node with the largest difference of degrees, the first of them. *)
Definition best_node (s : GreedyState) : option string :=
  (fold_with (λ v '(best, best_score),
       let score := i32_wrap (degree (out_degree s) v - degree (in_degree s) v) in
       if best_score <? score then (Some v, score) else (best, best_score))
     (sort_strings (elements (active_nodes s))) (None, i32_min)).1.
Definition break_cycle (g : DagreGraph) (s : GreedyState) : panics GreedyState :=
  if decide (active_nodes s = ∅) then Done s else
  match best_node s with
  | None => Done s
  | Some v =>
      s ← drop_sources true g v s;
      s ← drop_targets g v s;
      Done (deactivate v s)
  end.

Definition greedy_round (g : DagreGraph) (s : GreedyState) : panics GreedyState :=
  let sorted_nodes := sort_strings (elements (active_nodes s)) in
  let sources := filter (λ v, degree (in_degree s) v = 0) sorted_nodes in
  let sinks := filter (λ v, degree (out_degree s) v = 0) sorted_nodes in
  s ← fold_outcome (remove_source g) sources s;
  s ← fold_outcome (remove_sink g) sinks s;
  break_cycle g s.
Fixpoint greedy_loop (fuel : nat) (g : DagreGraph) (s : GreedyState) : panics GreedyState :=
  if decide (active_nodes s = ∅) then Done s else
  match fuel with
  | O => OutOfFuel
  | S fuel' => s ← greedy_round g s; greedy_loop fuel' g s
  end.

(** [fas.retain(|e| seen.insert(e.clone()))]. *)
Fixpoint keep_first (seen : gset EdgeKey) (l : list EdgeKey) : list EdgeKey :=
  match l with
  | [] => []
  | e :: l' => if decide (e ∈ seen) then keep_first seen l' else e :: keep_first ({[e]} ∪ seen) l'
  end.
Definition greedy_fas (g : DagreGraph) : panics (list EdgeKey) :=
  if (node_count g =? 0)%nat then Done [] else
  s ← greedy_loop (node_count g) g (greedy_init g);
  Done (keep_first ∅ (greedy_set s)).

(** ** Reversal *)

Definition reverse_edge (key : EdgeKey) (g : DagreGraph) : panics DagreGraph :=
  match g_edges g !! key with
  | None => Done g
  | Some label =>
      let g := unlink key g in
      let label := set_e_reversed true (set_e_forward_name (key_name key) label) in
      let '(rev_name, g) := unique_id "rev" g in
      link (EdgeKey_with_name (key_w key) (key_v key) rev_name) label g
  end.
Definition find_fas (g : DagreGraph) (method : Acyclicer) : panics (list EdgeKey) :=
  match method with Greedy => greedy_fas g | Dfs => dfs_fas g end.
Definition run (g : DagreGraph) (method : Acyclicer) : panics DagreGraph :=
  fas ← find_fas g method; fold_outcome reverse_edge fas g.

Definition restore_edge (key : EdgeKey) (g : DagreGraph) : panics DagreGraph :=
  match g_edges g !! key with
  | None => Done g
  | Some label =>
      let g := unlink key g in
      link (mkKey (key_w key) (key_v key) (e_forward_name label))
           (set_e_reversed false (set_e_forward_name None label)) g
  end.
Definition is_reversed (g : DagreGraph) (key : EdgeKey) : bool :=
  match g_edges g !! key with Some l => e_reversed l | None => false end.
Definition undo `{MapOrder} (g : DagreGraph) : panics DagreGraph :=
  fold_outcome restore_edge (sort_by edge_key_leb (filter (λ k, is_reversed g k = true) (edges g))) g.
