(* ===== verification/FasDfs.v ===== *)
(** * The edges to reverse, by depth-first search

    A feedback set comes with an ordering of the nodes that the edges outside
    the set follow and the edges inside go against ([fas_ok]).  For the search
    of [dfs_fas] it is the reverse of the order in which nodes are finished. *)
From stdpp Require Import strings gmap.
From S2P Require Import Prelude F64 SortBy DagreGraph DagreGraphFacts Acyclic.

(** ** Orderings *)

Definition before {A} (L : list A) (a b : A) : Prop := ∃ l1 l2 l3, L = l1 ++ a :: l2 ++ b :: l3.
(** An ordering that the edges outside [fas] follow and those inside oppose;
    edges from a node to itself are left aside. *)
Definition orders (g : DagreGraph) (F : list EdgeKey) (L : list string) : Prop :=
  NoDup L ∧ (∀ k, k ∈ F → is_Some (g_edges g !! k)) ∧ ∀ k, is_Some (g_edges g !! k) → key_v k ≠ key_w k →
    (k ∈ F ∧ before L (key_w k) (key_v k)) ∨ (k ∉ F ∧ before L (key_v k) (key_w k)).
Definition fas_ok (g : DagreGraph) (F : list EdgeKey) : Prop := ∃ L, orders g F L.

Lemma before_middle {A} (L l1 l2 : list A) a b : L = l1 ++ a :: l2 → b ∈ l2 → before L a b.
Proof. intros -> (x & y & ->)%list_elem_of_split. by exists l1, x, y. Qed.
Lemma before_middle_r {A} (L l1 l2 : list A) a b : L = l1 ++ b :: l2 → a ∈ l1 → before L a b.
Proof. intros -> (x & y & ->)%list_elem_of_split. exists x, y, l2. by rewrite <- app_assoc. Qed.

(** ** Depth-first search *)

Section dfs.
#[local] Set Default Proof Using "All".
Context (g : DagreGraph) (W : wf g).

Definition all_nodes : gset string := dom (g_nodes g).

(** What has been finished, latest first, is finished in an order of the edges. *)
Record dfs_inv (s : DfsState) (fin : list string) : Prop := {
  dfs_visited x : x ∈ visited s ↔ x ∈ stack s ∨ x ∈ fin;
  dfs_apart x : x ∈ stack s → x ∉ fin;
  dfs_nodup : NoDup fin;
  dfs_fin l1 v l2 k : fin = l1 ++ v :: l2 → k ∈ out_edges g v →
    (k ∈ fas s ∧ key_w k ∉ l2) ∨ (k ∉ fas s ∧ key_w k ∈ l2);
  dfs_fas_visited k : k ∈ fas s → key_v k ∈ visited s;
  dfs_fas_edge k : k ∈ fas s → is_Some (g_edges g !! k)
}.
(** Edges are put in the set when their source is entered. *)
Definition same_fas (s s' : DfsState) : Prop := ∀ k, key_v k ∈ visited s → k ∈ fas s' ↔ k ∈ fas s.

(** Halfway through the edges of [v], of which [pre] are done. *)
Record loop_inv (v : string) (s0 : DfsState) (fin : list string) (pre : list EdgeKey) (s : DfsState) : Prop := {
  loop_fin : ∃ fin', dfs_inv s (fin' ++ fin) ∧
    (∀ k, k ∈ pre → key_v k = v ∧ ((k ∈ fas s ∧ key_w k ∈ stack s) ∨ (k ∉ fas s ∧ key_w k ∈ fin' ++ fin)));
  loop_stack : stack s = {[v]} ∪ stack s0;
  loop_own k : k ∈ fas s → key_v k = v → key_w k ∈ stack s;
  loop_mono : visited s0 ⊆ visited s;
  loop_same : same_fas s0 s
}.

Lemma visited_v v s0 fin pre s : loop_inv v s0 fin pre s → v ∈ visited s.
Proof. intros [(fin' & I & _) S _ _ _]. apply (dfs_visited _ _ I). left. rewrite S. set_solver. Qed.

Lemma loop_push v s0 fin pre s k :
  loop_inv v s0 fin pre s → v ∉ visited s0 → key_v k = v → is_Some (g_edges g !! k) → key_w k ∈ stack s →
  loop_inv v s0 fin (pre ++ [k]) (mkDfs (visited s) (stack s) (fas s ++ [k])).
Proof.
  intros L Hv0 Hk Hke Hw. pose proof (visited_v _ _ _ _ _ L) as Hv. destruct L as [(fin' & I & Hp) S O M Sm].
  split; cbn; try done.
  - exists fin'. split.
    + destruct I as [Iv Ia In If Ir Ie]. split; cbn; try done.
      * intros l1 x l2 k' E Hk'. specialize (If _ _ _ _ E Hk').
        assert (k' ≠ k). { intros ->. apply (wf_out g W) in Hk' as [Hx _]. apply (Ia v); [rewrite S; set_solver|].
          rewrite E. rewrite <- Hk, Hx. set_solver. }
        set_solver.
      * intros k'. rewrite elem_of_app, list_elem_of_singleton. intros [?| ->]; [by apply Ir|by rewrite Hk].
      * intros k'. rewrite elem_of_app, list_elem_of_singleton. intros [?| ->]; [by apply Ie|done].
    + intros k'. rewrite elem_of_app, list_elem_of_singleton. intros [Hk'| ->]; [|set_solver].
      destruct (Hp k' Hk') as [? [[? ?]|[? Hin]]]; [split; [done|left]; split; [apply elem_of_app; by left|done]|]. split; [done|right]. split; [|done].
      assert (k' ≠ k) by (intros ->; by apply (dfs_apart _ _ I (key_w k))). set_solver.
  - intros k'. rewrite elem_of_app, list_elem_of_singleton. intros [?| ->]; [by apply O|done].
  - intros k' Hk'. cbn. rewrite elem_of_app, list_elem_of_singleton, (Sm k' Hk').
    split; [|by left]. intros [?| ->]; [done|]. by rewrite Hk in Hk'.
Qed.

Definition dfs_post (v : string) (s : DfsState) (fin : list string) (s' : DfsState) : Prop :=
  ∃ fin', dfs_inv s' (fin' ++ fin) ∧ stack s' = stack s ∧ v ∈ fin' ++ fin ∧ same_fas s s'.

Lemma post_mono v s fin s' : dfs_inv s fin → dfs_post v s fin s' → visited s ⊆ visited s'.
Proof.
  intros I (fin' & I' & S & _ & _) x. rewrite (dfs_visited _ _ I), (dfs_visited _ _ I'), S, elem_of_app. tauto.
Qed.

Lemma loop_call v s0 fin pre s s' k :
  loop_inv v s0 fin pre s → key_v k = v → key_w k ∉ stack s →
  (∀ fin1, dfs_inv s fin1 → dfs_post (key_w k) s fin1 s') →
  loop_inv v s0 fin (pre ++ [k]) s'.
Proof.
  intros L Hk Hw Hpost. pose proof (visited_v _ _ _ _ _ L) as Hv. destruct L as [(fin' & I & Hp) S O M Sm].
  pose proof (Hpost _ I) as P. pose proof (post_mono _ _ _ _ I P) as M'. destruct P as (fin2 & I2 & S2 & Hin & Sm2).
  assert (Hkf : k ∉ fas s) by (intros Hf; by apply Hw, O).
  split.
  - exists (fin2 ++ fin'). rewrite <- app_assoc. split; [done|].
    intros k'. rewrite elem_of_app, list_elem_of_singleton, S2. intros [Hk'| ->].
    + destruct (Hp k' Hk') as [Hkv Hcase]. split; [done|].
      assert (Hsame : k' ∈ fas s' ↔ k' ∈ fas s) by (apply Sm2; by rewrite Hkv).
      rewrite Hsame. destruct Hcase as [?|[? ?]]; [by left|right]. set_solver.
    + split; [done|right]. split; [|done]. rewrite (Sm2 k); [done|by rewrite Hk].
  - by rewrite S2.
  - intros k' Hf Hkv. rewrite S2. apply O; [|done]. apply Sm2; [by rewrite Hkv|done].
  - by transitivity (visited s).
  - intros k' Hk'. rewrite (Sm2 k' (M _ Hk')). by apply Sm.
Qed.

Lemma size_diff_insert (X : gset string) v :
  v ∈ all_nodes → v ∉ X → (size (all_nodes ∖ ({[v]} ∪ X)) < size (all_nodes ∖ X))%nat.
Proof. intros Hv Hx. apply subset_size. set_solver. Qed.
Lemma size_diff_mono (X Y : gset string) : X ⊆ Y → (size (all_nodes ∖ Y) ≤ size (all_nodes ∖ X))%nat.
Proof. intros H. apply subseteq_size. set_solver. Qed.

Lemma dfs_spec fuel v s fin :
  v ∈ all_nodes → v ∉ stack s → dfs_inv s fin → (size (all_nodes ∖ visited s) < fuel)%nat →
  ∃ s', dfs fuel g v s = Done s' ∧ dfs_post v s fin s'.
Proof.
  revert v s fin. induction fuel as [|fuel IH]; intros v s fin Hv Hst I Hf; [lia|]. cbn [dfs].
  destruct (decide (v ∈ visited s)) as [Hvis|Hvis].
  { exists s. split; [done|]. exists []. split_and!; try done.
    apply (dfs_visited _ _ I) in Hvis as [?|?]; [done|set_solver]. }
  set (s1 := mkDfs ({[v]} ∪ visited s) ({[v]} ∪ stack s) (fas s)).
  assert (Hfin : v ∉ fin) by (intros Hin; apply Hvis, (dfs_visited _ _ I); by right).
  destruct (fold_outcome_inv (loop_inv v s fin)
    (λ e s, if decide (key_w e ∈ stack s) then Done (mkDfs (visited s) (stack s) (fas s ++ [e]))
            else dfs fuel g (key_w e) s) (out_edges g v) s1) as (s2 & -> & L).
  - split; cbn; try done; [| |set_solver].
    + exists []. split; [|set_solver]. destruct I as [Iv Ia In If Ir Ie].
      split; cbn; try done; set_solver.
    + intros k Hk Hkv. exfalso. apply Hvis. rewrite <- Hkv. by apply (dfs_fas_visited _ _ I).
  - intros pre k post s2 E L.
    assert (Hk : k ∈ out_edges g v) by (rewrite E; set_solver).
    destruct (wf_out g W v k Hk) as [Hkv Hke].
    destruct (decide (key_w k ∈ stack s2)) as [Hw|Hw]; [eexists; split; [done|by apply loop_push]|].
    assert (Hwn : key_w k ∈ all_nodes) by (apply elem_of_dom, (edge_ends g k W Hke)).
    assert (Hm : (size (all_nodes ∖ visited s2) < fuel)%nat).
    { pose proof (size_diff_insert (visited s) v Hv Hvis).
      assert (Hsub : {[v]} ∪ visited s ⊆ visited s2).
      { pose proof (visited_v _ _ _ _ _ L). pose proof (loop_mono _ _ _ _ _ L). set_solver. }
      pose proof (size_diff_mono _ _ Hsub). lia. }
    destruct (loop_fin _ _ _ _ _ L) as (fin' & I2 & _).
    destruct (IH (key_w k) s2 _ Hwn Hw I2 Hm) as (s3 & E3 & P3).
    exists s3. split; [done|]. eapply loop_call; [done..|].
    intros fin1 I1. destruct (IH (key_w k) s2 _ Hwn Hw I1 Hm) as (s3' & E3' & P3').
    rewrite E3 in E3'. by injection E3' as <-.
  - cbn. eexists. split; [done|]. destruct L as [(fin' & I2 & Hp) S O M Sm].
    destruct I2 as [Iv Ia In If Ir Ie].
    assert (Hvf : v ∉ fin' ++ fin) by (apply Ia; rewrite S; set_solver).
    exists (v :: fin'). split_and!; cbn; [split; cbn| |set_solver|done].
    + intros x. rewrite Iv, elem_of_difference, elem_of_singleton, elem_of_cons.
      destruct (decide (x = v)) as [->|]; [rewrite S; set_solver|tauto].
    + intros x [Hx Hne]%elem_of_difference. specialize (Ia x Hx). set_solver.
    + by constructor.
    + intros [|y l1] x l2 k E Hk; simplify_eq/=; [|by eapply If].
      destruct (Hp k Hk) as [_ [[? Hs]|?]]; [left|by right]. split; [done|]. intros Hin. by apply (Ia _ Hs).
    + done.
    + done.
    + rewrite S. set_solver.
Qed.

Lemma dfs_all l s fin :
  (∀ v, v ∈ l → v ∈ all_nodes) → dfs_inv s fin → stack s = ∅ →
  ∃ s' fin', fold_outcome (dfs (S (node_count g)) g) l s = Done s' ∧ dfs_inv s' fin' ∧ stack s' = ∅ ∧
    (∀ v, v ∈ l ∨ v ∈ fin → v ∈ fin').
Proof.
  intros Hl I Hs.
  destruct (fold_outcome_inv (λ pre s', ∃ fin', dfs_inv s' fin' ∧ stack s' = ∅ ∧ (∀ v, v ∈ pre ∨ v ∈ fin → v ∈ fin'))
    (dfs (S (node_count g)) g) l s) as (s' & E & fin' & H); [exists fin; set_solver| |by exists s', fin'].
  intros pre v post s1 E (fin1 & I1 & Hs1 & Hp).
  destruct (dfs_spec (S (node_count g)) v s1 fin1) as (s2 & E2 & fin2 & I2 & Hs2 & Hv & _); try done.
  - apply Hl. rewrite E. set_solver.
  - rewrite Hs1. set_solver.
  - unfold node_count. rewrite <- size_dom. fold all_nodes.
    assert (size (all_nodes ∖ visited s1) ≤ size all_nodes)%nat by (apply subseteq_size; set_solver). lia.
  - exists s2. split; [done|]. exists (fin2 ++ fin1). split_and!; [done|by rewrite Hs2|]. set_solver.
Qed.

Lemma dfs_fas_ok : ∃ F, dfs_fas g = Done F ∧ fas_ok g F.
Proof.
  unfold dfs_fas.
  assert (Hn : ∀ v, v ∈ sort_strings (nodes g) ↔ v ∈ all_nodes).
  { intros v. unfold sort_strings. rewrite sort_by_elem, nodes_elem. unfold all_nodes. by rewrite elem_of_dom. }
  destruct (dfs_all (sort_strings (filter (λ v, is_source g v = true) (sort_strings (nodes g))))
    (mkDfs ∅ ∅ []) []) as (s1 & fin1 & E1 & I1 & Hs1 & _); [| |done|].
  { intros v Hv. unfold sort_strings at 1 in Hv. rewrite sort_by_elem, list_elem_of_filter in Hv. apply Hn, Hv. }
  { split; cbn; [set_solver|set_solver|constructor| |set_solver|set_solver]. by intros [] ? ? ? ?. }
  rewrite E1, bind_done.
  destruct (dfs_all (sort_strings (nodes g)) s1 fin1) as (s2 & fin2 & E2 & I2 & Hs2 & Hin); [by intros v ?%Hn|done..|].
  rewrite E2, bind_done. eexists. split; [done|]. exists fin2. split_and!; [by apply (dfs_nodup _ _ I2)|by apply (dfs_fas_edge _ _ I2)|].
  intros k Hk Hne. destruct (edge_ends g k W Hk) as [Hv Hw].
  assert (Hvf : key_v k ∈ fin2) by (apply Hin; left; by apply Hn, elem_of_dom).
  assert (Hwf : key_w k ∈ fin2) by (apply Hin; left; by apply Hn, elem_of_dom).
  apply list_elem_of_split in Hvf as (l1 & l2 & E).
  destruct (dfs_fin _ _ I2 l1 (key_v k) l2 k E) as [[Hf Hl]|[Hf Hl]]; [by apply wf_edge| |].
  - left. split; [done|]. eapply before_middle_r; [done|]. rewrite E in Hwf. set_solver.
  - right. split; [done|]. by eapply before_middle.
Qed.
End dfs.

