(* ===== verification/FasGreedy.v ===== *)
(** * The edges to reverse, greedily

    Sources are taken off at the front, sinks at the back, and where neither is
    left a node goes to the front with the edges into it cut.  The degrees kept
    are the numbers of edges between active nodes, so each round takes off at
    least one node, and front then back is an ordering for the set. *)
From stdpp Require Import strings gmap sorting.
From S2P Require Import Prelude F64 SortBy DagreGraph DagreGraphFacts Acyclic FasDfs.

(** ** Greedy *)

Lemma occ_perm (a b : list EdgeKey) : (∀ k, occ k a = occ k b) → a ≡ₚ b.
Proof.
  intros H. apply (Permutation_count_occ EdgeKey_eq_dec). intros k. specialize (H k).
  assert (Hc : ∀ l, count_occ EdgeKey_eq_dec l k = occ k l); [|by rewrite !Hc].
  clear. unfold occ. induction l as [|x l IH]; [done|]. rewrite filter_cons. cbn. rewrite IH.
  by destruct (EdgeKey_eq_dec x k), (decide (x = k)).
Qed.

(** How many of the edges in a list have their end in a set, or at a node. *)
Definition hits (sel : EdgeKey → string) (A : gset string) (l : list EdgeKey) : nat :=
  length (filter (λ k, sel k ∈ A) l).
Definition at_end (sel : EdgeKey → string) (x : string) (l : list EdgeKey) : nat :=
  length (filter (λ k, sel k = x) l).

Lemma hits_remove sel (A : gset string) v l : v ∈ A → hits sel A l = (hits sel (A ∖ {[v]}) l + at_end sel v l)%nat.
Proof.
  intros Hv. unfold hits, at_end. induction l as [|k l IH]; [done|]. rewrite !filter_cons.
  destruct (decide (sel k = v)) as [Ek|Hne].
  - rewrite decide_True by (by rewrite Ek). rewrite decide_False by set_solver. simpl. lia.
  - destruct (decide (sel k ∈ A)); [rewrite decide_True by set_solver|rewrite decide_False by set_solver]; simpl; lia.
Qed.
Lemma hits_zero sel A l : hits sel A l = 0%nat ↔ ∀ k, k ∈ l → sel k ∉ A.
Proof.
  unfold hits. rewrite length_zero_iff_nil. split.
  - intros E k Hk Ha. apply (not_elem_of_nil k). rewrite <- E. by apply list_elem_of_filter.
  - intros H. destruct (filter _ l) as [|k f] eqn:E; [done|].
    assert (Hk : k ∈ filter (λ k, sel k ∈ A) l) by (rewrite E; by left).
    apply list_elem_of_filter in Hk as [Ha Hk]. by destruct (H k Hk).
Qed.
Lemma hits_mono sel (A B : gset string) l : A ⊆ B → (hits sel A l ≤ hits sel B l)%nat.
Proof.
  intros H. unfold hits. induction l as [|k l IH]; [done|]. rewrite !filter_cons.
  destruct (decide (sel k ∈ A)); [rewrite decide_True by set_solver; simpl; lia|].
  destruct (decide (sel k ∈ B)); simpl; lia.
Qed.
Lemma hits_length sel A l : (hits sel A l ≤ length l)%nat.
Proof. unfold hits. apply length_filter. Qed.

(** Decrements along a list. *)
Definition decrements (sel : EdgeKey → string) (A : gset string) : list EdgeKey → gmap string Z → panics (gmap string Z) :=
  fold_outcome (λ e m, if decide (sel e ∈ A) then decrement (sel e) m else Done m).
Definition counts (m : gmap string Z) (A : gset string) (f : string → nat) : Prop :=
  ∀ x, x ∈ A → m !! x = Some (Z.of_nat (f x)).

Lemma decrements_spec sel A l m f :
  counts m A f → (∀ x, x ∈ A → (at_end sel x l ≤ f x)%nat ∧ Z.of_nat (f x) ≤ i32_max) →
  ∃ m', decrements sel A l m = Done m' ∧ counts m' A (λ x, f x - at_end sel x l)%nat.
Proof.
  revert m f. induction l as [|k l IH]; intros m f Hm Hf; unfold decrements; simpl.
  { exists m. split; [done|]. intros x Hx. rewrite (Hm x Hx). f_equal. unfold at_end. simpl. lia. }
  assert (Hcons : ∀ x, at_end sel x (k :: l) = ((if decide (sel k = x) then 1 else 0) + at_end sel x l)%nat).
  { intros x. unfold at_end. rewrite filter_cons. by destruct (decide (sel k = x)). }
  destruct (decide (sel k ∈ A)) as [Ha|Ha].
  - assert (E : decrement (sel k) m = Done (<[sel k := i32_wrap (Z.of_nat (f (sel k)) - 1)]> m))
      by (unfold decrement; by rewrite (Hm _ Ha)).
    rewrite E, bind_done. clear E. destruct (Hf _ Ha) as [Hle Hmax]. rewrite Hcons, decide_True in Hle by done.
    rewrite i32_wrap_small by (unfold is_i32, i32_min in *; lia).
    destruct (IH (<[sel k := Z.of_nat (f (sel k)) - 1]> m) (λ x, f x - (if decide (sel k = x) then 1 else 0))%nat) as (m' & E & Hm').
    + intros x Hx. destruct (decide (sel k = x)) as [<-|Hne].
      * rewrite lookup_insert_eq. f_equal. lia.
      * rewrite lookup_insert_ne, (Hm x Hx) by done. f_equal. lia.
    + intros x Hx. destruct (Hf x Hx) as [Hl ?]. rewrite Hcons in Hl. destruct (decide (sel k = x)); lia.
    + exists m'. split; [done|]. intros x Hx. rewrite (Hm' x Hx), Hcons. do 2 f_equal. lia.
  - destruct (IH m f Hm) as (m' & E & Hm').
    + intros x Hx. destruct (Hf x Hx) as [Hl ?]. rewrite Hcons in Hl. split; [lia|done].
    + exists m'. split; [done|]. intros x Hx. rewrite (Hm' x Hx), Hcons, decide_False; [done|]. by intros <-.
Qed.

Lemma drop_targets_eq g v s :
  drop_targets g v s =
  (m ← decrements key_w (active_nodes s) (out_edges g v) (in_degree s);
   Done (mkGreedy m (out_degree s) (active_nodes s) (greedy_set s))).
Proof.
  unfold drop_targets, decrements. generalize (out_edges g v). intros l. revert s.
  induction l as [|k l IH]; intros s; simpl; [by destruct s|].
  destruct (decide (key_w k ∈ active_nodes s)); [|apply IH].
  destruct (decrement _ _); simpl; [|done..]. by rewrite IH.
Qed.
Lemma drop_sources_eq cut g v s :
  drop_sources cut g v s =
  (m ← decrements key_v (active_nodes s) (in_edges g v) (out_degree s);
   Done (mkGreedy (in_degree s) m (active_nodes s)
     (greedy_set s ++ if cut then filter (λ k, key_v k ∈ active_nodes s) (in_edges g v) else []))).
Proof.
  unfold drop_sources, decrements. generalize (in_edges g v). intros l. revert s.
  induction l as [|k l IH]; intros s; simpl; [destruct s, cut; cbn; by rewrite ?app_nil_r|].
  rewrite filter_cons. destruct (decide (key_v k ∈ active_nodes s)); [|apply IH].
  destruct (decrement _ _); simpl; [|done..]. rewrite IH. cbn. destruct cut; [|done].
  destruct (fold_outcome _ l _); cbn; [|done..]. by rewrite <- app_assoc.
Qed.

(** No node has 2^31 edges on one side: degrees do not wrap. *)
Definition small_degrees (g : DagreGraph) : Prop :=
  ∀ v, Z.of_nat (length (in_edges g v)) ≤ i32_max ∧ Z.of_nat (length (out_edges g v)) ≤ i32_max.

Section greedy.
#[local] Set Default Proof Using "All".
Context (g : DagreGraph) (W : wf g) (Hsmall : small_degrees g).

Definition din (A : gset string) (v : string) : nat := hits key_v A (in_edges g v).
Definition dout (A : gset string) (v : string) : nat := hits key_w A (out_edges g v).

(** The edges from [a] to [b], seen from either end. *)
Lemma between_ends a b : at_end key_w b (out_edges g a) = at_end key_v a (in_edges g b).
Proof.
  unfold at_end. apply Permutation_length, occ_perm. intros k. rewrite !occ_filter.
  destruct (decide (key_w k = b)) as [Hw|Hw], (decide (key_v k = a)) as [Hv|Hv]; [| | |done].
  - rewrite <- Hv, <- Hw. apply (wf_occ g W).
  - destruct (occ k (out_edges g a)) eqn:E; [done|].
    assert (Hk : k ∈ out_edges g a) by (apply occ_pos; lia). by destruct (wf_out g W _ _ Hk).
  - destruct (occ k (in_edges g b)) eqn:E; [done|].
    assert (Hk : k ∈ in_edges g b) by (apply occ_pos; lia). by destruct (wf_in g W _ _ Hk).
Qed.
Lemma din_remove A v x : v ∈ A → din A x = (din (A ∖ {[v]}) x + at_end key_w x (out_edges g v))%nat.
Proof. intros Hv. unfold din. by rewrite (hits_remove key_v A v), between_ends. Qed.
Lemma dout_remove A v x : v ∈ A → dout A x = (dout (A ∖ {[v]}) x + at_end key_v x (in_edges g v))%nat.
Proof. intros Hv. unfold dout. by rewrite (hits_remove key_w A v), between_ends. Qed.
Lemma din_max A x : Z.of_nat (din A x) ≤ i32_max.
Proof. pose proof (hits_length key_v A (in_edges g x)). destruct (Hsmall x). unfold din. lia. Qed.
Lemma dout_max A x : Z.of_nat (dout A x) ≤ i32_max.
Proof. pose proof (hits_length key_w A (out_edges g x)). destruct (Hsmall x). unfold dout. lia. Qed.

Definition degrees_in (s : GreedyState) (A : gset string) : Prop := counts (in_degree s) A (din A).
Definition degrees_out (s : GreedyState) (A : gset string) : Prop := counts (out_degree s) A (dout A).

(** Nodes taken off at the front, nodes left, nodes taken off at the back. *)
Record placed (F : list EdgeKey) (A : gset string) (front back : list string) : Prop := {
  pl_all x : x ∈ dom (g_nodes g) ↔ x ∈ front ∨ x ∈ A ∨ x ∈ back;
  pl_active x : x ∈ A → x ∉ front ∧ x ∉ back;
  pl_nodup : NoDup (front ++ back);
  pl_front l1 w l2 k : front = l1 ++ w :: l2 → k ∈ in_edges g w → key_v k ≠ w → k ∈ F ↔ key_v k ∉ l1;
  pl_back l1 v l2 k : back = l1 ++ v :: l2 → k ∈ out_edges g v → key_w k ∈ front ∨ key_w k ∈ l2;
  pl_fas k : k ∈ F → key_w k ∈ front;
  pl_edge k : k ∈ F → is_Some (g_edges g !! k)
}.
Definition greedy_inv (s : GreedyState) (A : gset string) (front back : list string) : Prop :=
  active_nodes s = A ∧ degrees_in s A ∧ degrees_out s A ∧ placed (greedy_set s) A front back.

(** A node goes to the front with the edges into it from active nodes. *)
Lemma placed_front F A front back v :
  placed F A front back → v ∈ A →
  placed (F ++ filter (λ k, key_v k ∈ A) (in_edges g v)) (A ∖ {[v]}) (front ++ [v]) back.
Proof.
  intros [Pa Pd Pn Pf Pb Ps Pe] Hv. destruct (Pd v Hv) as [Hvf Hvb].
  assert (Hnew : ∀ k, k ∈ filter (λ k, key_v k ∈ A) (in_edges g v) → key_w k = v).
  { intros k [_ [Hk _]%(wf_in g W)]%list_elem_of_filter. done. }
  split.
  - intros x. rewrite Pa. destruct (decide (x = v)) as [->|]; set_solver.
  - intros x Hx. destruct (Pd x); set_solver.
  - rewrite <- app_assoc. simpl. apply NoDup_app in Pn as (N1 & N2 & N3). apply NoDup_app.
    split_and!; [done| |by constructor]. intros x Hx. specialize (N2 x Hx). set_solver.
  - intros l1 w l2 k E Hk Hne. rewrite elem_of_app.
    assert (Hcase : (l2 = [] ∧ w = v ∧ front = l1) ∨ (∃ l2', l2 = l2' ++ [v] ∧ front = l1 ++ w :: l2')).
    { destruct l2 as [|y l2' _] using rev_ind.
      - apply app_inj_tail in E as [-> ->]. by left.
      - rewrite app_comm_cons, app_assoc in E. apply app_inj_tail in E as [-> ->]. right. by exists l2'. }
    destruct Hcase as [(-> & -> & ->)|(l2' & -> & Ef)].
    + assert (HF : k ∉ F). { intros Hx%Ps. destruct (wf_in g W v k Hk) as [Ew _]. congruence. }
      rewrite list_elem_of_filter. split.
      * intros [?|[Ha _]]; [done|]. by destruct (Pd _ Ha).
      * intros Hl1. right. split; [|done]. destruct (wf_in g W v k Hk) as [Ew Hke].
        destruct (edge_ends g k W Hke) as [Hkv _]. apply elem_of_dom, Pa in Hkv as [?|[?|Hb]]; [done|done|].
        apply list_elem_of_split in Hb as (b1 & b2 & Eb).
        assert (Hko : k ∈ out_edges g (key_v k)) by by apply (wf_edge g W).
        destruct (Pb _ _ _ _ Eb Hko) as [Hx|Hx]; rewrite Ew in Hx; [done|]. exfalso. apply Hvb. rewrite Eb. set_solver.
    + rewrite (Pf _ _ _ _ Ef Hk Hne).
      assert (Hn : k ∉ filter (λ k, key_v k ∈ A) (in_edges g v)); [|tauto].
      intros Hx%Hnew. destruct (wf_in g W w k Hk) as [Ew _]. apply Hvf. rewrite Ef, <- Hx, Ew. set_solver.
  - intros l1 x l2 k E Hk. destruct (Pb _ _ _ _ E Hk); [left; set_solver|by right].
  - intros k [Hk%Ps|Hk%Hnew]%elem_of_app; set_solver.
  - intros k [Hk%Pe|[_ [_ Hk]%(wf_in g W)]%list_elem_of_filter]%elem_of_app; done.
Qed.
Lemma placed_back F A front back v :
  placed F A front back → v ∈ A → dout A v = 0%nat → placed F (A ∖ {[v]}) front (v :: back).
Proof.
  intros [Pa Pd Pn Pf Pb Ps] Hv Hz. destruct (Pd v Hv) as [Hvf Hvb].
  split; try done.
  - intros x. rewrite Pa. destruct (decide (x = v)) as [->|]; set_solver.
  - intros x Hx. destruct (Pd x); set_solver.
  - apply NoDup_app in Pn as (N1 & N2 & N3). apply NoDup_app.
    split_and!; [done| |by constructor]. intros x Hx. specialize (N2 x Hx). set_solver.
  - intros [|y l1] x l2 k E Hk; simplify_eq/=; [|by eapply Pb].
    assert (Ha : key_w k ∉ A) by by apply (proj1 (hits_zero key_w A (out_edges g x)) Hz).
    destruct (wf_out g W x k Hk) as [_ Hke]. destruct (edge_ends g k W Hke) as [_ Hkw].
    apply elem_of_dom, Pa in Hkw. tauto.
Qed.

(** *** The steps *)

Lemma filter_hits_nil A v : din A v = 0%nat → filter (λ k, key_v k ∈ A) (in_edges g v) = [].
Proof. intros H. by apply length_zero_iff_nil. Qed.

(** Decrementing along the edges of a node takes it out of the counts. *)
Lemma targets_dropped s A v : degrees_in s A → v ∈ A →
  ∃ m, decrements key_w A (out_edges g v) (in_degree s) = Done m ∧ counts m (A ∖ {[v]}) (din (A ∖ {[v]})).
Proof.
  intros H Hv. destruct (decrements_spec key_w A (out_edges g v) (in_degree s) (din A) H) as (m & E & Hm).
  - intros x _. split; [|apply din_max]. rewrite (din_remove A v x Hv). lia.
  - exists m. split; [done|]. intros x [Hx _]%elem_of_difference. rewrite (Hm x Hx). do 2 f_equal.
    rewrite (din_remove A v x Hv). lia.
Qed.
Lemma sources_dropped s A v : degrees_out s A → v ∈ A →
  ∃ m, decrements key_v A (in_edges g v) (out_degree s) = Done m ∧ counts m (A ∖ {[v]}) (dout (A ∖ {[v]})).
Proof.
  intros H Hv. destruct (decrements_spec key_v A (in_edges g v) (out_degree s) (dout A) H) as (m & E & Hm).
  - intros x _. split; [|apply dout_max]. rewrite (dout_remove A v x Hv). lia.
  - exists m. split; [done|]. intros x [Hx _]%elem_of_difference. rewrite (Hm x Hx). do 2 f_equal.
    rewrite (dout_remove A v x Hv). lia.
Qed.
(** A node without edges from active nodes is not in their counts. *)
Lemma source_counts s A v : degrees_out s A → v ∈ A → din A v = 0%nat → counts (out_degree s) (A ∖ {[v]}) (dout (A ∖ {[v]})).
Proof.
  intros H Hv Hz x [Hx _]%elem_of_difference. rewrite (H x Hx). do 2 f_equal. rewrite (dout_remove A v x Hv).
  assert (E : at_end key_v x (in_edges g v) = 0%nat); [|lia].
  unfold at_end. apply length_zero_iff_nil. destruct (filter _ _) as [|k l] eqn:E; [done|].
  assert (Hk : k ∈ filter (λ k, key_v k = x) (in_edges g v)) by (rewrite E; by left).
  apply list_elem_of_filter in Hk as [Hk Hin]. unfold din in Hz. rewrite hits_zero in Hz.
  destruct (Hz k Hin). by rewrite Hk.
Qed.
Lemma sink_counts s A v : degrees_in s A → v ∈ A → dout A v = 0%nat → counts (in_degree s) (A ∖ {[v]}) (din (A ∖ {[v]})).
Proof.
  intros H Hv Hz x [Hx _]%elem_of_difference. rewrite (H x Hx). do 2 f_equal. rewrite (din_remove A v x Hv).
  assert (E : at_end key_w x (out_edges g v) = 0%nat); [|lia].
  unfold at_end. apply length_zero_iff_nil. destruct (filter _ _) as [|k l] eqn:E; [done|].
  assert (Hk : k ∈ filter (λ k, key_w k = x) (out_edges g v)) by (rewrite E; by left).
  apply list_elem_of_filter in Hk as [Hk Hin]. unfold dout in Hz. rewrite hits_zero in Hz.
  destruct (Hz k Hin). by rewrite Hk.
Qed.

Lemma remove_source_spec v s A front back :
  greedy_inv s A front back → v ∈ A → din A v = 0%nat →
  ∃ s', remove_source g v s = Done s' ∧ greedy_inv s' (A ∖ {[v]}) (front ++ [v]) back.
Proof.
  intros (Ea & Di & Do & P) Hv Hz. unfold remove_source. rewrite drop_targets_eq, Ea.
  destruct (targets_dropped s A v Di Hv) as (m & -> & Hm). rewrite !bind_done. eexists. split; [done|].
  split_and!; cbn; [by rewrite ?Ea|done|by apply source_counts|].
  pose proof (placed_front _ _ _ _ _ P Hv) as P'. by rewrite (filter_hits_nil A v Hz), app_nil_r in P'.
Qed.
Lemma remove_sink_spec v s A front back :
  greedy_inv s A front back → v ∈ A → dout A v = 0%nat →
  ∃ s', remove_sink g v s = Done s' ∧ greedy_inv s' (A ∖ {[v]}) front (v :: back).
Proof.
  intros (Ea & Di & Do & P) Hv Hz. unfold remove_sink. rewrite drop_sources_eq, Ea.
  destruct (sources_dropped s A v Do Hv) as (m & -> & Hm). rewrite !bind_done. eexists. split; [done|].
  split_and!; cbn; rewrite ?app_nil_r; [by rewrite ?Ea|by apply sink_counts|done|by apply placed_back].
Qed.
(** A node that was a source too has gone already. *)
Lemma remove_sink_gone v s A front back :
  greedy_inv s A front back → v ∉ A → din A v = 0%nat →
  ∃ s', remove_sink g v s = Done s' ∧ greedy_inv s' A front back.
Proof.
  intros (Ea & Di & Do & P) Hv Hz. unfold remove_sink. rewrite drop_sources_eq, Ea.
  unfold din in Hz. rewrite hits_zero in Hz.
  assert (E : ∀ l m, (∀ k, k ∈ l → key_v k ∉ A) → decrements key_v A l m = Done m).
  { clear. induction l as [|k l IH]; intros m H; [done|]. unfold decrements. simpl. rewrite decide_False by set_solver.
    apply IH. set_solver. }
  rewrite E by done. rewrite !bind_done. eexists. split; [done|].
  assert (EA : A ∖ {[v]} = A) by set_solver.
  split_and!; cbn; rewrite ?app_nil_r; [by rewrite ?Ea|done..].
Qed.

(** *** The node that breaks a cycle *)

Lemma fold_best (score : string → Z) l b sc :
  (∀ v, v ∈ l → i32_min < score v) →
  (b = None → sc = i32_min) →
  (b = None ∧ l = [] ∨ ∃ v, (v ∈ l ∨ b = Some v) ∧
    (fold_with (λ v '(best, best_score), if best_score <? score v then (Some v, score v) else (best, best_score))
       l (b, sc)).1 = Some v).
Proof.
  revert b sc. induction l as [|x l IH]; intros b sc Hl Hb.
  { destruct b as [v|]; [right; exists v; split; [by right|done]|by left]. }
  right. cbn [fold_with]. destruct (Z.ltb_spec sc (score x)) as [Hlt|Hge].
  - destruct (IH (Some x) (score x)) as [[? _]|(v & Hv & ->)]; [intros; apply Hl; by right|done|done|].
    exists v. split; [|done]. left. destruct Hv as [?|[= <-]]; [by right|by left].
  - destruct (IH b sc) as [[-> ->]|(v & Hv & ->)]; [intros; apply Hl; by right|done| |].
    + specialize (Hl x ltac:(by left)). rewrite (Hb eq_refl) in Hge. lia.
    + exists v. split; [|done]. destruct Hv as [?|?]; [left; by right|by right].
Qed.
Lemma best_node_spec s A front back :
  greedy_inv s A front back → A ≠ ∅ → ∃ v, best_node s = Some v ∧ v ∈ A.
Proof.
  intros (Ea & Di & Do & P) Hne. unfold best_node. rewrite Ea.
  destruct (fold_best (λ v, i32_wrap (degree (out_degree s) v - degree (in_degree s) v))
    (sort_strings (elements A)) None i32_min) as [[_ E]|(v & Hv & E)].
  - intros v Hv. unfold sort_strings in Hv. rewrite sort_by_elem, elem_of_elements in Hv.
    unfold degree. rewrite (Di v Hv), (Do v Hv). cbn [default].
    pose proof (din_max A v). pose proof (dout_max A v).
    rewrite i32_wrap_small; unfold is_i32, i32_min, i32_max in *; cbn; lia.
  - done.
  - exfalso. apply Hne, leibniz_equiv, elements_empty_inv. unfold sort_strings in E.
    apply (f_equal length) in E. rewrite sort_by_length in E. by apply length_zero_iff_nil.
  - exists v. split; [done|]. destruct Hv as [Hv|?]; [|done].
    unfold sort_strings in Hv. by rewrite sort_by_elem, elem_of_elements in Hv.
Qed.
Lemma break_cycle_spec s A front back :
  greedy_inv s A front back →
  ∃ s' A' front', break_cycle g s = Done s' ∧ greedy_inv s' A' front' back ∧ A' ⊆ A ∧ (A ≠ ∅ → A' ⊂ A).
Proof.
  intros I. pose proof I as (Ea & Di & Do & P). unfold break_cycle. rewrite Ea.
  destruct (decide (A = ∅)) as [->|Hne]; [by exists s, ∅, front|].
  destruct (best_node_spec s A front back I Hne) as (v & -> & Hv).
  rewrite drop_sources_eq, Ea. destruct (sources_dropped s A v Do Hv) as (mo & -> & Hmo). rewrite !bind_done.
  rewrite drop_targets_eq. cbn.
  destruct (targets_dropped s A v Di Hv) as (mi & -> & Hmi). rewrite !bind_done.
  eexists _, (A ∖ {[v]}), (front ++ [v]). split; [done|].
  split_and!; [|set_solver|set_solver].
  split_and!; cbn; [by rewrite ?Ea|done|done|by apply placed_front].
Qed.

(** *** Rounds *)

Lemma din_mono A B v : A ⊆ B → din B v = 0%nat → din A v = 0%nat.
Proof. intros H Hz. pose proof (hits_mono key_v A B (in_edges g v) H). unfold din in *. lia. Qed.
Lemma dout_mono A B v : A ⊆ B → dout B v = 0%nat → dout A v = 0%nat.
Proof. intros H Hz. pose proof (hits_mono key_w A B (out_edges g v) H). unfold dout in *. lia. Qed.

Lemma sources_loop l s A front back :
  greedy_inv s A front back → NoDup l → (∀ v, v ∈ l → v ∈ A ∧ din A v = 0%nat) →
  ∃ s' front', fold_outcome (remove_source g) l s = Done s' ∧ greedy_inv s' (A ∖ list_to_set l) front' back.
Proof.
  revert s A front. induction l as [|v l IH]; intros s A front I Hnd Hl; simpl.
  { exists s, front. by rewrite difference_empty_L. }
  apply NoDup_cons in Hnd as [Hv Hnd]. destruct (Hl v ltac:(by left)) as [Ha Hz].
  destruct (remove_source_spec v s A front back I Ha Hz) as (s1 & -> & I1). cbn.
  destruct (IH _ _ _ I1 Hnd) as (s2 & front2 & E2 & I2).
  - intros u Hu. destruct (Hl u ltac:(by right)) as [? Hzu]. split; [set_solver|].
    apply (din_mono _ A); [set_solver|done].
  - exists s2, front2. split; [done|]. by rewrite <- difference_difference_l_L.
Qed.
Lemma sinks_loop l s A front back :
  greedy_inv s A front back → NoDup l →
  (∀ v, v ∈ l → (v ∈ A ∧ dout A v = 0%nat) ∨ (v ∉ A ∧ din A v = 0%nat)) →
  ∃ s' A' back', fold_outcome (remove_sink g) l s = Done s' ∧ greedy_inv s' A' front back' ∧ A' ⊆ A.
Proof.
  revert s A back. induction l as [|v l IH]; intros s A back I Hnd Hl; simpl.
  { by exists s, A, back. }
  apply NoDup_cons in Hnd as [Hv Hnd].
  assert (H1 : ∃ s1 A1 back1, remove_sink g v s = Done s1 ∧ greedy_inv s1 A1 front back1 ∧ A1 ⊆ A ∧ A ⊆ A1 ∪ {[v]}).
  { destruct (Hl v ltac:(by left)) as [[Ha Hz]|[Ha Hz]].
    - destruct (remove_sink_spec v s A front back I Ha Hz) as (s1 & E & I1). exists s1, (A ∖ {[v]}), (v :: back).
      split_and!; [done..|set_solver|]. intros x. destruct (decide (x = v)); set_solver.
    - destruct (remove_sink_gone v s A front back I Ha Hz) as (s1 & E & I1). exists s1, A, back. set_solver. }
  destruct H1 as (s1 & A1 & back1 & -> & I1 & Hsub & Hsup). cbn.
  destruct (IH _ _ _ I1 Hnd) as (s2 & A2 & back2 & E2 & I2 & Hsub2).
  - intros u Hu. assert (u ≠ v) by (by intros ->).
    destruct (Hl u ltac:(by right)) as [[? Hz]|[? Hz]]; [left|right]; (split; [set_solver|]).
    + by apply (dout_mono _ A).
    + by apply (din_mono _ A).
  - exists s2, A2, back2. split_and!; [done..|set_solver].
Qed.

Lemma nodup_sorted_filter (P : string → Prop) `{!∀ x, Decision (P x)} (A : gset string) :
  NoDup (filter P (sort_strings (elements A))) ∧ ∀ v, v ∈ filter P (sort_strings (elements A)) ↔ P v ∧ v ∈ A.
Proof.
  split; [apply NoDup_filter, sort_by_nodup, NoDup_elements|].
  intros v. unfold sort_strings. by rewrite list_elem_of_filter, sort_by_elem, elem_of_elements.
Qed.

Lemma greedy_round_spec s A front back :
  greedy_inv s A front back → A ≠ ∅ →
  ∃ s' A' front' back', greedy_round g s = Done s' ∧ greedy_inv s' A' front' back' ∧ A' ⊂ A.
Proof.
  intros I Hne. pose proof I as (Ea & Di & Do & P). unfold greedy_round. rewrite Ea.
  destruct (nodup_sorted_filter (λ v, degree (in_degree s) v = 0) A) as [N1 M1].
  destruct (nodup_sorted_filter (λ v, degree (out_degree s) v = 0) A) as [N2 M2].
  set (sources := filter _ _) in N1, M1 |- *. set (sinks := filter _ _) in N2, M2 |- *.
  assert (Hsrc : ∀ v, v ∈ sources → v ∈ A ∧ din A v = 0%nat).
  { intros v [Hd Hv]%M1. split; [done|]. unfold degree in Hd. rewrite (Di v Hv) in Hd. cbn in Hd. lia. }
  destruct (sources_loop sources s A front back I N1 Hsrc) as (s1 & front1 & E1 & I1). rewrite E1, bind_done.
  destruct (sinks_loop sinks s1 _ front1 back I1 N2) as (s2 & A2 & back2 & E2 & I2 & Hsub).
  { intros v [Hd Hv]%M2. unfold degree in Hd. rewrite (Do v Hv) in Hd. cbn in Hd.
    destruct (decide (v ∈ sources)) as [Hs|Hs]; [right|left].
    - split; [set_solver|]. apply (din_mono _ A); [set_solver|]. by apply Hsrc.
    - split; [set_solver|]. apply (dout_mono _ A); [set_solver|lia]. }
  rewrite E2, bind_done.
  destruct (break_cycle_spec s2 A2 front1 back2 I2) as (s3 & A3 & front3 & E3 & I3 & Hsub3 & Hlt).
  exists s3, A3, front3, back2. split_and!; [done..|].
  destruct (decide (A2 = ∅)) as [->|Hne2]; [|specialize (Hlt Hne2); set_solver].
  set_solver.
Qed.
Lemma greedy_loop_spec fuel s A front back :
  greedy_inv s A front back → (size A ≤ fuel)%nat →
  ∃ s' front' back', greedy_loop fuel g s = Done s' ∧ greedy_inv s' ∅ front' back'.
Proof.
  revert s A front back. induction fuel as [|fuel IH]; intros s A front back I Hf; pose proof I as (Ea & _); cbn [greedy_loop];
    rewrite Ea; destruct (decide (A = ∅)) as [->|Hne]; try (by exists s, front, back).
  - exfalso. apply Hne, leibniz_equiv, size_empty_inv. lia.
  - destruct (greedy_round_spec s A front back I Hne) as (s1 & A1 & front1 & back1 & -> & I1 & Hlt). cbn.
    apply (IH s1 A1 front1 back1 I1). pose proof (subset_size _ _ Hlt). lia.
Qed.

(** *** From the first round to the set *)

Lemma greedy_init_inv : greedy_inv (greedy_init g) (dom (g_nodes g)) [] [].
Proof.
  assert (H : ∀ l s A, active_nodes s = A → (∀ x, x ∈ A → in_degree s !! x = Some (list_len (in_edges g x)) ∧
                         out_degree s !! x = Some (list_len (out_edges g x))) →
    let s' := fold_with (λ v s, mkGreedy (<[v := list_len (in_edges g v)]> (in_degree s))
                             (<[v := list_len (out_edges g v)]> (out_degree s))
                             ({[v]} ∪ active_nodes s) (greedy_set s)) l s in
    active_nodes s' = A ∪ list_to_set l ∧ greedy_set s' = greedy_set s ∧
    ∀ x, x ∈ A ∪ list_to_set l → in_degree s' !! x = Some (list_len (in_edges g x)) ∧
                         out_degree s' !! x = Some (list_len (out_edges g x))).
  { cbn zeta. induction l as [|v l IH]; intros s A Ea Hs; simpl; [split_and!; [set_solver|done|intros x Hx; apply Hs; set_solver]|].
    rewrite Ea.
    replace (A ∪ ({[v]} ∪ list_to_set l)) with (({[v]} ∪ A) ∪ list_to_set l) by set_solver.
    apply (IH (mkGreedy (<[v := list_len (in_edges g v)]> (in_degree s))
                        (<[v := list_len (out_edges g v)]> (out_degree s)) ({[v]} ∪ A) (greedy_set s))); [done|].
    intros x Hx. cbn. destruct (decide (v = x)) as [->|Hne]; [by rewrite !lookup_insert_eq|].
    rewrite !lookup_insert_ne by done. apply Hs. set_solver. }
  destruct (H (nodes g) (mkGreedy ∅ ∅ ∅ []) (∅ : gset string) (@eq_refl (gset string) ∅)) as (Ha & Hg & Hd);
    [by intros x ?%elem_of_empty|]. clear H.
  assert (Edom : ∅ ∪ list_to_set (nodes g) =@{gset string} dom (g_nodes g)).
  { apply set_eq. intros x. rewrite elem_of_union, elem_of_list_to_set, nodes_elem, elem_of_dom.
    pose proof (not_elem_of_empty (C:=gset string) x). tauto. }
  rewrite Edom in Ha, Hd. fold (greedy_init g) in Ha, Hg, Hd.
  assert (Hfull : ∀ sel l, (∀ k, k ∈ l → sel k ∈ dom (g_nodes g)) → hits sel (dom (g_nodes g)) l = length l).
  { intros sel l Hl. unfold hits. by rewrite filter_all. }
  split_and!; [done| | |].
  - intros x Hx. destruct (Hd x Hx) as [-> _]. f_equal. unfold list_len, din.
    rewrite i32_wrap_small by (destruct (Hsmall x); unfold is_i32, i32_min; lia).
    rewrite Hfull; [done|]. intros k [_ Hk]%(wf_in g W). by apply elem_of_dom, (edge_ends g k W).
  - intros x Hx. destruct (Hd x Hx) as [_ ->]. f_equal. unfold list_len, dout.
    rewrite i32_wrap_small by (destruct (Hsmall x); unfold is_i32, i32_min; lia).
    rewrite Hfull; [done|]. intros k [_ Hk]%(wf_out g W). by apply elem_of_dom, (edge_ends g k W).
  - rewrite Hg. split; cbn; [set_solver|set_solver|constructor|by intros [] ? ? ? ?|by intros [] ? ? ? ?|set_solver|set_solver].
Qed.

Lemma keep_first_elem seen l k : k ∈ keep_first seen l ↔ k ∈ l ∧ k ∉ seen.
Proof.
  revert seen. induction l as [|x l IH]; intros seen; cbn [keep_first]; [set_solver|].
  destruct (decide (x ∈ seen)); [rewrite IH; set_solver|].
  rewrite elem_of_cons, IH. destruct (decide (k = x)); set_solver.
Qed.

(** With every node placed, front then back is an ordering. *)
Lemma placed_orders F front back : placed F ∅ front back → orders g F (front ++ back).
Proof.
  intros [Pa Pd Pn Pf Pb Ps Pe]. split_and!; [done..|]. intros k Hk Hne.
  destruct (edge_ends g k W Hk) as [Hv Hw]. apply elem_of_dom, Pa in Hv, Hw.
  destruct Hw as [Hw|[?|Hw]]; [|set_solver|].
  - apply list_elem_of_split in Hw as (l1 & l2 & E).
    pose proof (Pf l1 (key_w k) l2 k E ltac:(by apply wf_edge_in) Hne) as Hf.
    destruct (decide (key_v k ∈ l1)) as [Hl|Hl].
    + right. split; [tauto|]. eapply before_middle_r; [|done]. rewrite E. by rewrite <- app_assoc.
    + left. split; [tauto|]. eapply before_middle; [rewrite E; by rewrite <- app_assoc|].
      rewrite E in Hv. set_solver.
  - assert (Hf : key_w k ∉ front). { apply NoDup_app in Pn as (_ & N & _). intros Hf. by apply (N _ Hf). }
    right. split; [intros Hx; by apply Hf, Ps|].
    destruct Hv as [Hv|[?|Hv]]; [|set_solver|].
    + apply list_elem_of_split in Hv as (l1 & l2 & ->). eapply before_middle; [by rewrite <- app_assoc|]. set_solver.
    + apply list_elem_of_split in Hv as (l1 & l2 & E).
      destruct (Pb l1 (key_v k) l2 k E ltac:(by apply wf_edge)) as [?|?]; [done|].
      eapply before_middle; [rewrite E; by rewrite app_assoc|done].
Qed.

Lemma greedy_fas_ok : ∃ F, greedy_fas g = Done F ∧ fas_ok g F.
Proof.
  unfold greedy_fas. destruct (Nat.eqb_spec (node_count g) 0) as [E|Hne].
  - exists []. split; [done|]. exists []. split_and!; [constructor|set_solver|]. intros k Hk.
    destruct (edge_ends g k W Hk) as [[l Hv] _]. unfold node_count in E.
    apply map_size_empty_inv in E. by rewrite E, lookup_empty in Hv.
  - destruct (greedy_loop_spec (node_count g) (greedy_init g) _ [] [] greedy_init_inv) as (s & front & back & -> & I).
    { unfold node_count. by rewrite size_dom. }
    cbn. eexists. split; [done|]. destruct I as (_ & _ & _ & P). exists (front ++ back).
    destruct (placed_orders _ _ _ P) as (N & He & H). split_and!; [done| |].
    { intros k [Hk _]%keep_first_elem. by apply He. }
    intros k Hk Hkne.
    rewrite keep_first_elem. destruct (H k Hk Hkne) as [[? ?]|[? ?]]; [left|right]; set_solver.
Qed.
End greedy.

