(* ===== verification/AcyclicFacts.v ===== *)
(** * Breaking cycles: the graph is left without any, and gets its edges back

    Reversing the set either search finds leaves an acyclic graph.  Turning the
    reversed edges back restores the map of edges, unless a name of the user's
    is one of the made-up names. *)
From stdpp Require Import strings gmap relations.
From S2P Require Import Prelude F64 SortBy DagreGraph DagreGraphFacts Acyclic FasDfs FasGreedy.

Lemma find_fas_ok g method : wf g → small_degrees g → ∃ F, find_fas g method = Done F ∧ fas_ok g F.
Proof. intros W H. destruct method; [by apply greedy_fas_ok|by apply dfs_fas_ok]. Qed.

(** ** Walks *)

Definition arrow (g : DagreGraph) (a b : string) : Prop := ∃ k, is_Some (g_edges g !! k) ∧ key_v k = a ∧ key_w k = b.
(** No walk along edges comes back. *)
Definition acyclic (g : DagreGraph) : Prop := ∀ v, ¬ tc (arrow g) v v.
Definition follows (g : DagreGraph) (L : list string) : Prop :=
  NoDup L ∧ ∀ k, is_Some (g_edges g !! k) → before L (key_v k) (key_w k).

Lemma before_lookup {A} (L : list A) a b :
  before L a b ↔ ∃ i j, (i < j)%nat ∧ L !! i = Some a ∧ L !! j = Some b.
Proof.
  split.
  - intros (l1 & l2 & l3 & ->). exists (length l1), (length l1 + S (length l2))%nat.
    split_and!; [lia|by rewrite lookup_app_r, Nat.sub_diag by lia|].
    rewrite lookup_app_r by lia. replace (length l1 + S (length l2) - length l1)%nat with (S (length l2)) by lia.
    simpl. by rewrite lookup_app_r, Nat.sub_diag by lia.
  - intros (i & j & Hij & Ha & Hb). exists (take i L), (take (j - S i) (drop (S i) L)), (drop (S j) L).
    rewrite <- (take_drop_middle L i a Ha) at 1. f_equal. f_equal.
    rewrite <- (take_drop_middle (drop (S i) L) (j - S i) b) at 1; [|rewrite lookup_drop; rewrite <- Hb; f_equal; lia].
    do 2 f_equal. rewrite drop_drop. f_equal. lia.
Qed.
Lemma before_trans {A} (L : list A) a b c : NoDup L → before L a b → before L b c → before L a c.
Proof.
  rewrite !before_lookup. intros N (i & j & ? & Ha & Hb) (i' & j' & ? & Hb' & Hc).
  assert (j = i') by (by eapply NoDup_lookup). exists i, j'. split_and!; [lia|done..].
Qed.
Lemma before_irrefl {A} (L : list A) a : NoDup L → ¬ before L a a.
Proof.
  rewrite before_lookup. intros N (i & j & ? & Ha & Hb). assert (i = j) by (by eapply NoDup_lookup). lia.
Qed.
Lemma follows_acyclic g L : follows g L → acyclic g.
Proof.
  intros [N H] v Hv.
  assert (Ht : ∀ a b, tc (arrow g) a b → before L a b).
  { induction 1 as [a b (k & Hk & <- & <-)|a b c (k & Hk & <- & <-) _ IH]; [by apply H|].
    eapply before_trans; [done|by apply H|done]. }
  by apply (before_irrefl L v N), Ht.
Qed.

(** ** One reversal *)

Definition mark_reversed (key : EdgeKey) (l : EdgeLabel) : EdgeLabel :=
  set_e_reversed true (set_e_forward_name (key_name key) l).
Definition rev_key (key : EdgeKey) (n : N) : EdgeKey := mkKey (key_w key) (key_v key) (Some (counter_name "rev" n)).

(** The label of the graph and the tree of its nodes. *)
Definition same_family (g g' : DagreGraph) : Prop :=
  g_graph_label g' = g_graph_label g ∧ g_parent g' = g_parent g ∧ g_children g' = g_children g.
Lemma reverse_edge_spec key label g : wf g → g_edges g !! key = Some label →
  ∃ g', reverse_edge key g = Done g' ∧ wf g' ∧ g_nodes g' = g_nodes g ∧
    g_edge_counter g' = (g_edge_counter g + 1)%N ∧
    g_edges g' = <[rev_key key (g_edge_counter g + 1) := mark_reversed key label]> (delete key (g_edges g)) ∧
    same_family g g' ∧
    ∀ x, out_edges g' x = filter (λ k, k ≠ key) (out_edges g x) ++ at_node (key_w key) x [rev_key key (g_edge_counter g + 1)].
Proof.
  intros W Hk. unfold reverse_edge. rewrite Hk.
  set (g1 := unlink key g). pose proof (unlink_spec key g W) as U. fold g1 in U.
  destruct (edge_ends g key W ltac:(by eexists)) as [Hv Hw].
  assert (W2 : wf (unique_id "rev" g1).2) by (apply wf_unique_id; by eapply wf_unlinked).
  cbn zeta. destruct (unique_id "rev" g1) as [nm g2] eqn:Eu. injection Eu as <- Eg2. cbn in W2.
  destruct (link_spec (rev_key key (g_edge_counter g + 1)) (mark_reversed key label) g2 W2) as (g' & E & L & W').
  - rewrite <- Eg2. done.
  - rewrite <- Eg2. done.
  - exists g'. pose proof (linked_rest _ _ _ _ L) as Lr. split_and!; [exact E|done| | | | |].
    + rewrite (linked_nodes _ _ _ _ L), <- Eg2. done.
    + rewrite (rest_counter _ _ Lr), <- Eg2. done.
    + rewrite (linked_edges _ _ _ _ L), <- Eg2. done.
    + unfold same_family. by rewrite (rest_label _ _ Lr), (rest_parent _ _ Lr), (rest_children _ _ Lr), <- Eg2.
    + intros x. rewrite (linked_out _ _ _ _ L), <- Eg2. f_equal. exact (unlinked_out _ _ _ U x).
Qed.

Lemma run_spec g method F L : wf g → find_fas g method = Done F → orders g F L →
  (∀ k, is_Some (g_edges g !! k) → key_v k ≠ key_w k) →
  ∃ g', run g method = Done g' ∧ wf g' ∧ g_nodes g' = g_nodes g ∧ follows g' L.
Proof.
  intros W EF (N & HF & HO) Hself. unfold run. rewrite EF, bind_done.
  destruct (fold_outcome_inv (λ pre g', wf g' ∧ g_nodes g' = g_nodes g ∧ ∀ k, is_Some (g_edges g' !! k) →
    (is_Some (g_edges g !! k) ∧ k ∈ F ∧ k ∉ pre) ∨ before L (key_v k) (key_w k)) reverse_edge F g)
    as (g' & E & W' & Hn & H).
  - split_and!; [done..|]. intros k Hk.
    destruct (HO k Hk (Hself k Hk)) as [[? _]|[_ ?]]; [left; set_solver|by right].
  - intros pre x post g1 EF' (W1 & Hn1 & H1).
    assert (Hx : x ∈ F) by (rewrite EF'; set_solver).
    destruct (g_edges g1 !! x) as [label|] eqn:Ex.
    + destruct (reverse_edge_spec x label g1 W1 Ex) as (g2 & E2 & W2 & Hn2 & _ & He2 & _).
      exists g2. split_and!; [done..|by rewrite Hn2|]. rewrite He2. intros k [<-|[Hne Hk]]%lookup_insert_is_Some.
      * right. cbn. pose proof (HF x Hx) as Hxe. destruct (HO x Hxe (Hself x Hxe)) as [[_ ?]|[? _]]; done.
      * apply lookup_delete_is_Some in Hk as [Hkx Hk]. destruct (H1 k Hk) as [(? & ? & ?)|?]; [left|by right].
        split_and!; [done..|]. set_solver.
    + exists g1. split; [unfold reverse_edge; by rewrite Ex|]. split_and!; [done..|].
      intros k Hk. destruct (H1 k Hk) as [(? & ? & ?)|?]; [left|by right]. split_and!; [done..|].
      assert (k ≠ x) by (intros ->; rewrite Ex in Hk; by destruct Hk). set_solver.
  - exists g'. split_and!; [done..|]. split; [done|]. intros k Hk. destruct (H k Hk) as [(_ & ? & ?)|?]; done.
Qed.

(** C7: breaking cycles leaves none, for either method.
    On a graph without self-edges (the layout takes them out first), where no
    node has 2^31 edges on a side, [run] ends without a panic; afterwards no
    walk along the edges comes back to where it began, and the nodes are the
    same. *)
Theorem run_acyclic g method :
  wf g → small_degrees g → (∀ k, is_Some (g_edges g !! k) → key_v k ≠ key_w k) →
  ∃ g', run g method = Done g' ∧ wf g' ∧ g_nodes g' = g_nodes g ∧ acyclic g'.
Proof.
  intros W Hs Hself. destruct (find_fas_ok g method W Hs) as (F & EF & L & HL).
  destruct (run_spec g method F L W EF HL Hself) as (g' & E & W' & Hn & Hf).
  exists g'. split_and!; [done..|]. by eapply follows_acyclic.
Qed.

(** ** There and back *)

(** As the layout receives its graph: nothing reversed yet, and no name that
    [run] is going to make up. *)
Definition unreversed (g : DagreGraph) : Prop :=
  (∀ k l, g_edges g !! k = Some l → e_reversed l = false ∧ e_forward_name l = None) ∧
  (∀ k n, is_Some (g_edges g !! k) → (g_edge_counter g < n)%N → key_name k ≠ Some (counter_name "rev" n)).

(** [k], carrying [l], is edge [k0] with label [l0] turned round. *)
Definition turned (g : DagreGraph) (k : EdgeKey) (l : EdgeLabel) (k0 : EdgeKey) (l0 : EdgeLabel) : Prop :=
  g_edges g !! k0 = Some l0 ∧ l = mark_reversed k0 l0 ∧
  ∃ n, (g_edge_counter g < n)%N ∧ k = rev_key k0 n.

Record run_inv (g : DagreGraph) (pre : list EdgeKey) (g' : DagreGraph) : Prop := {
  ri_wf : wf g';
  ri_nodes : g_nodes g' = g_nodes g;
  ri_counter : (g_edge_counter g ≤ g_edge_counter g')%N;
  ri_sound k l : g_edges g' !! k = Some l →
    g_edges g !! k = Some l ∨ ∃ k0 l0, turned g k l k0 l0;
  ri_complete k0 l0 : g_edges g !! k0 = Some l0 →
    g_edges g' !! k0 = Some l0 ∨ ∃ k l, g_edges g' !! k = Some l ∧ turned g k l k0 l0;
  ri_fresh k n : is_Some (g_edges g' !! k) → (g_edge_counter g' < n)%N → key_name k ≠ Some (counter_name "rev" n);
  ri_gone k l k0 l0 : g_edges g' !! k = Some l → turned g k l k0 l0 → g_edges g' !! k0 = None;
  ri_once k l k' l' k0 l0 : g_edges g' !! k = Some l → g_edges g' !! k' = Some l' →
    turned g k l k0 l0 → turned g k' l' k0 l0 → k = k';
  ri_family : same_family g g';
  ri_lists v : NoDup (out_edges g v) → NoDup (out_edges g' v)
}.

Lemma counter_name_inj pre m n : counter_name pre m = counter_name pre n → m = n.
Proof.
  unfold counter_name. intros H.
  assert (Hd : ∀ p x y, (p +:+ x = p +:+ y → x = y)%string) by (induction p as [|c p IH]; intros x y; cbn; [done|intros [= ?]; by apply IH]).
  apply Hd in H. cbn in H. injection H as H. by apply (inj pretty).
Qed.

(** Turned edges have names the graph did not have. *)
Lemma turned_new g k l k0 l0 : unreversed g → turned g k l k0 l0 → g_edges g !! k = None.
Proof.
  intros [_ Hn] (_ & _ & n & Hlt & ->). apply eq_None_not_Some. intros Hk. by apply (Hn _ n Hk Hlt).
Qed.

Lemma turned_source g k l k0 l0 k1 l1 : turned g k l k0 l0 → turned g k l k1 l1 → k0 = k1.
Proof.
  intros (_ & E0 & n & _ & F0) (_ & E1 & m & _ & F1). rewrite E0 in E1. apply (f_equal e_forward_name) in E1. cbn in E1.
  rewrite F0 in F1. destruct k0, k1. injection F1 as -> -> _. cbn in E1. by subst.
Qed.

Lemma run_inv_step g pre x g1 : unreversed g → is_Some (g_edges g !! x) → run_inv g pre g1 →
  ∃ g2, reverse_edge x g1 = Done g2 ∧ run_inv g (pre ++ [x]) g2.
Proof.
  intros U Hxg I. destruct (g_edges g1 !! x) as [label|] eqn:Ex.
  2:{ exists g1. split; [unfold reverse_edge; by rewrite Ex|]. by destruct I. }
  destruct (reverse_edge_spec x label g1 (ri_wf _ _ _ I) Ex) as (g2 & E2 & W2 & Hn2 & Hc2 & He2 & Hf2 & Ho2).
  exists g2. split; [done|]. set (n := (g_edge_counter g1 + 1)%N) in *.
  assert (Hx : g_edges g !! x = Some label).
  { destruct (ri_sound _ _ _ I x label Ex) as [?|(k0 & l0 & Ht)]; [done|].
    apply (turned_new _ _ _ _ _ U) in Ht. rewrite Ht in Hxg. by destruct Hxg. }
  assert (Hnew : ∀ k, is_Some (g_edges g1 !! k) → k ≠ rev_key x n).
  { intros k Hk ->. apply (ri_fresh _ _ _ I _ n Hk); [lia|done]. }
  assert (Hc : (g_edge_counter g < n)%N) by (pose proof (ri_counter _ _ _ I); lia).
  assert (Ht : turned g (rev_key x n) (mark_reversed x label) x label) by (split_and!; [done|done|by exists n]).
  (* where the edges of the new graph come from *)
  assert (Hcase : ∀ k l, g_edges g2 !! k = Some l →
    (k = rev_key x n ∧ l = mark_reversed x label) ∨ (k ≠ x ∧ g_edges g1 !! k = Some l)).
  { intros k l. rewrite He2. by intros [[<- <-]|[_ [? ?]%lookup_delete_Some]]%lookup_insert_Some; [left|right]. }
  assert (Hback : ∀ k l k0 l0, g_edges g2 !! k = Some l → turned g k l k0 l0 →
    (k = rev_key x n ∧ k0 = x) ∨ (k0 ≠ x ∧ g_edges g1 !! k = Some l)).
  { intros k l k0 l0 [[-> ->]|[_ Hk]]%Hcase Hk0; [left|right].
    - split; [done|]. by apply (turned_source _ _ _ _ _ _ _ Hk0 Ht).
    - split; [|done]. intros ->. pose proof (ri_gone _ _ _ I k l x l0 Hk Hk0). congruence. }
  split; [done|by rewrite Hn2; apply I|lia|..].
  - intros k l [[-> ->]|[_ Hk]]%Hcase; [right; by exists x, label|by apply (ri_sound _ _ _ I)].
  - intros k0 l0 H0. rewrite He2. destruct (ri_complete _ _ _ I k0 l0 H0) as [H1|(k & l & H1 & Hk)].
    + destruct (decide (x = k0)) as [<-|Hne].
      * right. exists (rev_key x n), (mark_reversed x label). rewrite lookup_insert_eq.
        split; [done|]. rewrite Hx in H0. by injection H0 as <-.
      * left. rewrite lookup_insert_ne, lookup_delete_ne; [done..|]. intros E. by apply (Hnew k0).
    + right. exists k, l. split; [|done]. rewrite lookup_insert_ne, lookup_delete_ne; [done| |].
      * intros ->. by rewrite (turned_new _ _ _ _ _ U Hk) in Hx.
      * intros E. by apply (Hnew k).
  - intros k m. rewrite He2, Hc2. fold n. intros [<-|[_ [_ Hk]%lookup_delete_is_Some]]%lookup_insert_is_Some Hm.
    + change (key_name (rev_key x n)) with (Some (counter_name "rev" n)).
      intros E%(inj Some)%counter_name_inj. lia.
    + apply (ri_fresh _ _ _ I); [done|lia].
  - intros k l k0 l0 Hk Hk0. rewrite He2. destruct (Hback k l k0 l0 Hk Hk0) as [[-> ->]|[Hne Hk1]].
    + rewrite lookup_insert_ne by (intros E; apply (Hnew x); [by eexists|done]). by rewrite lookup_delete_eq.
    + rewrite lookup_insert_ne, lookup_delete_ne by (done || intros <-; by destruct Hk0 as [H0 _];
        rewrite (turned_new _ _ _ _ _ U Ht) in H0). by apply (ri_gone _ _ _ I k l k0 l0).
  - intros k l k' l' k0 l0 Hk Hk' Hk0 Hk0'.
    destruct (Hback k l k0 l0 Hk Hk0) as [[E1 E1']|[Hne Hk1]], (Hback k' l' k0 l0 Hk' Hk0') as [[E3 E3']|[Hne' Hk1']]; try congruence.
    by apply (ri_once _ _ _ I k l k' l' k0 l0).
  - destruct (ri_family _ _ _ I) as (A & B & C), Hf2 as (A2 & B2 & C2). split_and!; congruence.
  - intros v Hv%(ri_lists _ _ _ I). rewrite Ho2. apply NoDup_app. split_and!; [by apply NoDup_filter| |].
    + intros k [_ Hk]%list_elem_of_filter [_ ->]%elem_at_node. apply (Hnew (rev_key x n)); [|done].
      by apply (wf_out g1 (ri_wf _ _ _ I)) in Hk as [_ ?].
    + unfold at_node. case_decide; [apply NoDup_singleton|constructor].
Qed.

Lemma run_inv_run g method F L : wf g → unreversed g → find_fas g method = Done F → orders g F L →
  ∃ g', run g method = Done g' ∧ run_inv g F g'.
Proof.
  intros W U EF (_ & HF & _). unfold run. rewrite EF, bind_done.
  apply (fold_outcome_inv (run_inv g)).
  - assert (Hno : ∀ k l k0 l0, g_edges g !! k = Some l → ¬ turned g k l k0 l0).
    { intros k l k0 l0 Hk Ht. by rewrite (turned_new _ _ _ _ _ U Ht) in Hk. }
    split; [done..|lia|by left|by left|apply U| | |done|done].
    + intros k l k0 l0 Hk Ht. by destruct (Hno k l k0 l0).
    + intros k l k' l' k0 l0 Hk _ Ht. by destruct (Hno k l k0 l0).
  - intros pre x post g1 E I. apply run_inv_step; [done|apply HF; rewrite E; set_solver|done].
Qed.

(** *** Turning back *)

Definition unmark (l : EdgeLabel) : EdgeLabel := set_e_reversed false (set_e_forward_name None l).
Definition origin (k : EdgeKey) (l : EdgeLabel) : EdgeKey := mkKey (key_w k) (key_v k) (e_forward_name l).

Lemma restore_edge_spec key label g : wf g → g_edges g !! key = Some label →
  ∃ g', restore_edge key g = Done g' ∧ wf g' ∧ g_nodes g' = g_nodes g ∧
    g_edges g' = <[origin key label := unmark label]> (delete key (g_edges g)) ∧ same_family g g'.
Proof.
  intros W Hk. unfold restore_edge. rewrite Hk.
  destruct (edge_ends g key W ltac:(by eexists)) as [Hv Hw].
  assert (W1 : wf (unlink key g)) by (eapply wf_unlinked; [by apply unlink_spec|done]).
  destruct (link_spec (origin key label) (unmark label) (unlink key g) W1) as (g' & E & L & W'); [done..|].
  pose proof (linked_rest _ _ _ _ L) as Lr.
  exists g'. split_and!; [exact E|done|by rewrite (linked_nodes _ _ _ _ L)|by rewrite (linked_edges _ _ _ _ L)|].
  unfold same_family. by rewrite (rest_label _ _ Lr), (rest_parent _ _ Lr), (rest_children _ _ Lr).
Qed.

Lemma turned_back g k l k0 l0 : unreversed g → turned g k l k0 l0 → origin k l = k0 ∧ unmark l = l0 ∧ e_reversed l = true.
Proof.
  intros [Hr _] (H0 & -> & n & _ & ->). destruct (Hr k0 l0 H0) as [Ha Hb]. destruct k0, l0. cbn in *. by subst.
Qed.

(** Turning back changes the reversed edges and no others, whatever else was
    done to the labels. *)
Record undone (g1 : DagreGraph) (pre : list EdgeKey) (g' : DagreGraph) : Prop := {
  ud_wf : wf g';
  ud_nodes : g_nodes g' = g_nodes g1;
  ud_family : same_family g1 g';
  ud_edges k l : g_edges g' !! k = Some l ↔
    (k ∉ pre ∧ g_edges g1 !! k = Some l) ∨
    ∃ k1 l1, k1 ∈ pre ∧ g_edges g1 !! k1 = Some l1 ∧ k = origin k1 l1 ∧ l = unmark l1
}.
(** No two reversed edges come from the same one, and none from one that is there. *)
Record turnable (g : DagreGraph) : Prop := {
  ta_gone k l : is_reversed g k = true → g_edges g !! k = Some l → g_edges g !! origin k l = None;
  ta_once k l k' l' : is_reversed g k = true → is_reversed g k' = true → g_edges g !! k = Some l →
    g_edges g !! k' = Some l' → origin k l = origin k' l' → k = k'
}.

Lemma restore_step g1 pre x g' : turnable g1 → is_reversed g1 x = true → (∀ k, k ∈ pre → is_reversed g1 k = true) → x ∉ pre →
  undone g1 pre g' → ∃ g2, restore_edge x g' = Done g2 ∧ undone g1 (pre ++ [x]) g2.
Proof.
  intros [Hgone Honce] Hx Hpre Hxp I. destruct (g_edges g1 !! x) as [label|] eqn:E1.
  2:{ unfold is_reversed in Hx. by rewrite E1 in Hx. }
  assert (Ex : g_edges g' !! x = Some label) by (apply (ud_edges _ _ _ I); by left).
  destruct (restore_edge_spec x label g' (ud_wf _ _ _ I) Ex) as (g2 & E2 & W2 & Hn2 & He2 & Hf2).
  pose proof (Hgone x label Hx E1) as Hgo.
  exists g2. split; [done|]. split; [done|by rewrite Hn2; apply I| |].
  { destruct (ud_family _ _ _ I) as (A & B & C), Hf2 as (A2 & B2 & C2). split_and!; congruence. }
  intros k l. rewrite He2, lookup_insert_Some, lookup_delete_Some, (ud_edges _ _ _ I). split.
  - intros [[<- <-]|(Hk & Hne & [[Hkp Hk1]|(k1 & l1 & Hk1 & E & -> & ->)])].
    + right. exists x, label. set_solver.
    + left. set_solver.
    + right. exists k1, l1. set_solver.
  - intros [[Hk Hk1]|(k1 & l1 & [Hk1| ->%list_elem_of_singleton]%elem_of_app & E & -> & ->)].
    + right. split_and!; [intros <-; congruence|set_solver|left; set_solver].
    + assert (Hne : k1 ≠ x) by (intros ->; done). right. split_and!.
      * intros E'. by destruct Hne, (Honce x label k1 l1 Hx (Hpre k1 Hk1) E1 E E').
      * intros Eo. pose proof (Hgone k1 l1 (Hpre k1 Hk1) E) as Hno. rewrite <- Eo in Hno. congruence.
      * right. by exists k1, l1.
    + left. assert (l1 = label) as -> by congruence. done.
Qed.

Lemma undo_spec `{MapOrder} g1 : wf g1 → turnable g1 → ∃ g2, undo g1 = Done g2 ∧ wf g2 ∧ g_nodes g2 = g_nodes g1 ∧ same_family g1 g2 ∧
  ∀ k l, g_edges g2 !! k = Some l ↔ (is_reversed g1 k = false ∧ g_edges g1 !! k = Some l) ∨
    ∃ k1 l1, is_reversed g1 k1 = true ∧ g_edges g1 !! k1 = Some l1 ∧ k = origin k1 l1 ∧ l = unmark l1.
Proof.
  intros W T. unfold undo. set (R := sort_by edge_key_leb (filter (λ k, is_reversed g1 k = true) (edges g1))).
  assert (HR : ∀ k, k ∈ R ↔ is_reversed g1 k = true).
  { intros k. unfold R. rewrite sort_by_elem, list_elem_of_filter, edges_elem. split; [tauto|].
    intros Hk. split; [done|]. unfold is_reversed in Hk. by destruct (g_edges g1 !! k). }
  assert (NR : NoDup R) by (apply sort_by_nodup, NoDup_filter, edges_nodup).
  destruct (fold_outcome_inv (undone g1) restore_edge R g1) as (g2 & E2 & I).
  - split; [done..|]. intros k l. split; [left; split; [apply not_elem_of_nil|done]|].
    intros [[_ ?]|(? & ? & []%elem_of_nil & _)]; done.
  - intros pre x post g' E I. rewrite E in NR. apply NoDup_app in NR as (_ & Hd & _).
    apply restore_step; [done|apply HR; rewrite E; set_solver| | |done].
    + intros k Hk. apply HR. rewrite E. set_solver.
    + intros Hp. apply (Hd x Hp). by left.
  - exists g2. split_and!; [done|apply I..|]. intros k l. rewrite (ud_edges _ _ _ I), HR.
    destruct (is_reversed g1 k); naive_solver.
Qed.

(** Labels may change between [run] and [undo], but for what [run] notes there. *)
Definition same_marks (g g' : DagreGraph) : Prop :=
  ∀ k, (λ l, (e_reversed l, e_forward_name l)) <$> g_edges g' !! k = (λ l, (e_reversed l, e_forward_name l)) <$> g_edges g !! k.
Lemma same_marks_lookup g g' k l' : same_marks g g' → g_edges g' !! k = Some l' →
  ∃ l, g_edges g !! k = Some l ∧ e_reversed l' = e_reversed l ∧ e_forward_name l' = e_forward_name l.
Proof. intros M Hk. specialize (M k). rewrite Hk in M. destruct (g_edges g !! k) as [l|]; [|done]. injection M as ? ?. by exists l. Qed.
Lemma run_reversed g F g1 k l : unreversed g → run_inv g F g1 → g_edges g1 !! k = Some l →
  e_reversed l = true ↔ ∃ k0 l0, turned g k l k0 l0.
Proof.
  intros U I Hk. split.
  - intros Hr. destruct (ri_sound _ _ _ I k l Hk) as [H0|?]; [|done]. destruct (proj1 U k l H0). congruence.
  - intros (k0 & l0 & Ht). by apply (turned_back _ _ _ _ _ U Ht).
Qed.
Lemma run_turnable g F g1 g2 : unreversed g → run_inv g F g1 → same_marks g1 g2 → turnable g2.
Proof.
  intros U I M.
  assert (Hr : ∀ k l, is_reversed g2 k = true → g_edges g2 !! k = Some l →
    ∃ l1 k0 l0, g_edges g1 !! k = Some l1 ∧ turned g k l1 k0 l0 ∧ origin k l = k0).
  { intros k l Hk Hl. destruct (same_marks_lookup _ _ _ _ M Hl) as (l1 & H1 & Er & Ef).
    unfold is_reversed in Hk. rewrite Hl, Er in Hk. apply (run_reversed _ _ _ _ _ U I H1) in Hk as (k0 & l0 & Ht).
    exists l1, k0, l0. split_and!; [done..|]. unfold origin. rewrite Ef. by apply (turned_back _ _ _ _ _ U Ht). }
  split.
  - intros k l Hk Hl. destruct (Hr k l Hk Hl) as (l1 & k0 & l0 & H1 & Ht & ->).
    pose proof (ri_gone _ _ _ I _ _ _ _ H1 Ht) as Hg. destruct (g_edges g2 !! k0) as [l2|] eqn:E; [|done].
    destruct (same_marks_lookup _ _ _ _ M E) as (? & ? & _). congruence.
  - intros k l k' l' Hk Hk' Hl Hl'. destruct (Hr k l Hk Hl) as (l1 & k0 & l0 & H1 & Ht & ->).
    destruct (Hr k' l' Hk' Hl') as (l1' & k0' & l0' & H1' & Ht' & ->). intros <-.
    assert (l0 = l0') as <- by (destruct Ht, Ht'; congruence). by apply (ri_once _ _ _ I k l1 k' l1' k0 l0).
Qed.

(** Undoing the reversals gives every edge back.
    For either method: after [run] and [undo], neither of which panics, the map
    of edges and the map of nodes are what they were, labels, names and edges
    from a node to itself included.  What it needs is that no edge comes in
    reversed or with a name [rev_n] that [run] makes up. *)
Theorem undo_run `{MapOrder} g method :
  wf g → small_degrees g → unreversed g →
  ∃ g1 g2, run g method = Done g1 ∧ undo g1 = Done g2 ∧ wf g2 ∧
    g_edges g2 = g_edges g ∧ g_nodes g2 = g_nodes g.
Proof.
  intros W Hs U. destruct (find_fas_ok g method W Hs) as (F & EF & L & HL).
  destruct (run_inv_run g method F L W U EF HL) as (g1 & E1 & RI). exists g1.
  destruct (undo_spec g1 (ri_wf _ _ _ RI)) as (g2 & E2 & W2 & Hn2 & _ & He2); [by eapply run_turnable|].
  assert (Hrev : ∀ k l, g_edges g1 !! k = Some l → is_reversed g1 k = e_reversed l) by (intros k l Hk; unfold is_reversed; by rewrite Hk).
  exists g2. split_and!; [done..| |by rewrite Hn2; apply RI]. apply map_eq. intros k. apply option_eq. intros l. rewrite He2. split.
  - intros [[Hr Hk]|(k1 & l1 & Hr & Hk & -> & ->)].
    + destruct (ri_sound _ _ _ RI k l Hk) as [?|(k0 & l0 & Ht)]; [done|].
      rewrite (Hrev k l Hk) in Hr. destruct (turned_back _ _ _ _ _ U Ht) as (_ & _ & ?). congruence.
    + rewrite (Hrev k1 l1 Hk) in Hr. apply (run_reversed _ _ _ _ _ U RI Hk) in Hr as (k0 & l0 & Ht).
      destruct (turned_back _ _ _ _ _ U Ht) as (-> & -> & _). apply Ht.
  - intros H0. destruct (ri_complete _ _ _ RI k l H0) as [H1|(k1 & l1 & H1 & Ht)].
    + left. split; [|done]. rewrite (Hrev k l H1). apply (proj1 U k l H0).
    + right. exists k1, l1. destruct (turned_back _ _ _ _ _ U Ht) as (<- & <- & Hr). by rewrite (Hrev k1 l1 H1).
Qed.

(** ** Examples *)

Lemma small_degrees_check g :
  bool_decide (map_Forall (λ _ l, Z.of_nat (length l) ≤ i32_max) (g_in_edges g)) = true →
  bool_decide (map_Forall (λ _ l, Z.of_nat (length l) ≤ i32_max) (g_out_edges g)) = true → small_degrees g.
Proof.
  rewrite !bool_decide_eq_true. intros Hi Ho v. unfold in_edges, out_edges.
  destruct (g_in_edges g !! v) eqn:Ei, (g_out_edges g !! v) eqn:Eo; cbn;
    try (apply Hi in Ei); try (apply Ho in Eo); cbn in *; split; (done || (unfold i32_max; lia)).
Qed.
Lemma edges_check (P : EdgeKey → EdgeLabel → Prop) `{!∀ k l, Decision (P k l)} g :
  bool_decide (map_Forall P (g_edges g)) = true → ∀ k l, g_edges g !! k = Some l → P k l.
Proof. rewrite bool_decide_eq_true. intros Hm k l Hk. by apply Hm. Qed.

(** A ring of three nodes with a shortcut and a doubled edge. *)
Definition ring : DagreGraph :=
  graph_of [SetPath ["a"; "b"; "c"; "a"]; SetEdge "a" "c" EdgeLabel_default;
            SetEdgeWithName "b" "c" EdgeLabel_default "twin"].
Lemma ring_small : small_degrees ring.
Proof. apply small_degrees_check; vm_compute; reflexivity. Qed.
Lemma ring_straight k : is_Some (g_edges ring !! k) → key_v k ≠ key_w k.
Proof. intros [l Hl]. apply (edges_check (λ k _, key_v k ≠ key_w k) ring) in Hl; [done|]. vm_compute. reflexivity. Qed.

Lemma run_acyclic_witness :
  (∃ g', run ring Greedy = Done g' ∧ wf g' ∧ g_nodes g' = g_nodes ring ∧ acyclic g') ∧
  (∃ g', run ring Dfs = Done g' ∧ wf g' ∧ g_nodes g' = g_nodes ring ∧ acyclic g').
Proof.
  split; [apply (run_acyclic ring Greedy)|apply (run_acyclic ring Dfs)];
    first [apply wf_graph_of|apply ring_small|apply ring_straight].
Defined.

(** With an edge from a node to itself. *)
Definition looped : DagreGraph := graph_of [SetPath ["a"; "b"; "c"; "a"; "a"]].
Lemma undo_run_witness :
  ∃ g1 g2, run looped Greedy = Done g1 ∧ @undo list_order g1 = Done g2 ∧ wf g2 ∧
    g_edges g2 = g_edges looped ∧ g_nodes g2 = g_nodes looped.
Proof.
  apply (@undo_run list_order looped Greedy).
  - apply wf_graph_of.
  - apply small_degrees_check; vm_compute; reflexivity.
  - split.
    + intros k l Hl. apply (edges_check (λ _ l, e_reversed l = false ∧ e_forward_name l = None) looped) in Hl; [done|].
      vm_compute. reflexivity.
    + intros k n [l Hl] _. apply (edges_check (λ k _, key_name k = None) looped) in Hl; [by rewrite Hl|].
      vm_compute. reflexivity.
Defined.
