(* ===== verification/CrossCount.v ===== *)
(** * Counting crossings
      ([src/crates/selkie/src/layout/dagre/order/cross_count.rs])

    Two edges between neighbouring layers cross when their ends are in opposite
    orders.  The code counts pairs, by weight, with an accumulator tree over
    the lower layer; [crossings] is the sum over pairs it stands for, and the
    two are equal in [i32] arithmetic.  The tree has the least power of two of
    leaves that is enough; climbing from a leaf halves the index, so the index
    is the fuel of the climb, and the length of the layer that of the search
    for the power. *)
From stdpp Require Import strings gmap sorting.
From S2P Require Import Prelude F64 SortBy DagreGraph.
#[local] Open Scope nat_scope.

(** ** The code *)

(** The place of each node in the lower layer, the last one where it repeats. *)
Fixpoint positions (i : nat) (layer : list string) (m : gmap string nat) : gmap string nat :=
  match layer with [] => m | v :: layer' => positions (S i) layer' (<[v := i]> m) end.
Definition south_pos (south : list string) : gmap string nat := positions 0 south ∅.

Definition edge_weight (g : DagreGraph) (e : EdgeKey) : Z :=
  match edge_by_key g e with Some l => e_weight l | None => 1%Z end.
(** The edges of [v] into the lower layer: place and weight. *)
Definition ends_of (g : DagreGraph) (pos : gmap string nat) (v : string) : list (nat * Z) :=
  omap (λ e, p ← pos !! key_w e; Some (p, edge_weight g e)) (out_edges g v).
Definition by_place (a b : nat * Z) : bool := a.1 <=? b.1.
Definition south_entries (g : DagreGraph) (north south : list string) : list (nat * Z) :=
  let pos := south_pos south in
  concat ((λ v, sort_by by_place (ends_of g pos v)) <$> north).

(** [while first_index < len { first_index <<= 1; }]. *)
Fixpoint leaves_for (fuel first_index len : nat) : panics nat :=
  if first_index <? len then
    match fuel with O => OutOfFuel | S fuel' => leaves_for fuel' (first_index * 2) len end
  else Done first_index.

(** [if index < tree.len() { tree[index] += weight; }]. *)
Definition add_at (index : nat) (weight : Z) (tree : list Z) : list Z :=
  if index <? length tree then alter (λ x, i32_wrap (x + weight)) index tree else tree.
(** The loop from a leaf to the root: the tree and the weight to the right. *)
Fixpoint climb (fuel : nat) (weight : Z) (index : nat) (tree : list Z) (weight_sum : Z) : panics (list Z * Z) :=
  if index =? 0 then Done (tree, weight_sum) else
  match fuel with
  | O => OutOfFuel
  | S fuel' =>
      let weight_sum :=
        if (index mod 2 =? 1) && (index + 1 <? length tree)
        then i32_wrap (weight_sum + default 0%Z (tree !! (index + 1))) else weight_sum in
      let index := (index - 1) / 2 in
      climb fuel' weight index (add_at index weight tree) weight_sum
  end.
Definition count_entry (first_index : nat) (entry : nat * Z) (s : list Z * Z) : panics (list Z * Z) :=
  let '(pos, weight) := entry in
  let '(tree, cc) := s in
  let index := pos + first_index in
  '(tree, weight_sum) ← climb index weight index (add_at index weight tree) 0%Z;
  Done (tree, i32_wrap (cc + i32_wrap (weight * weight_sum))).

Definition two_layer_cross_count (g : DagreGraph) (north south : list string) : panics Z :=
  let entries := south_entries g north south in
  match south with
  | [] => Done 0%Z
  | _ =>
      first_index ← leaves_for (length south) 1 (length south);
      s ← fold_outcome (count_entry (first_index - 1)) entries
            (replicate (2 * first_index - 1) 0%Z, 0%Z);
      Done s.2
  end.
Fixpoint cross_count_from (g : DagreGraph) (north : list string) (layering : list (list string)) (cc : Z) : panics Z :=
  match layering with
  | [] => Done cc
  | south :: layering' =>
      c ← two_layer_cross_count g north south;
      cross_count_from g south layering' (i32_wrap (cc + c))
  end.
Definition cross_count (g : DagreGraph) (layering : list (list string)) : panics Z :=
  match layering with [] => Done 0%Z | north :: layering' => cross_count_from g north layering' 0%Z end.

(** ** What is counted *)

Definition sum_by {A} (f : A → Z) (l : list A) : Z := foldr (λ x s, (f x + s)%Z) 0%Z l.

(** The weight of the pairs of an edge of [a] and an edge of [b], a node
    further right, that cross. *)
Definition crossing (p q : nat * Z) : Z := if decide (q.1 < p.1) then (p.2 * q.2)%Z else 0%Z.
Definition crossings_between (a b : list (nat * Z)) : Z := sum_by (λ p, sum_by (crossing p) b) a.
Fixpoint crossings (nodes : list (list (nat * Z))) : Z :=
  match nodes with
  | [] => 0%Z
  | a :: nodes' => (sum_by (crossings_between a) nodes' + crossings nodes')%Z
  end.
Definition crossings_of (g : DagreGraph) (north south : list string) : Z :=
  crossings (ends_of g (south_pos south) <$> north).

(** ** Sums *)

Lemma sum_by_cons {A} (f : A → Z) x l : sum_by f (x :: l) = (f x + sum_by f l)%Z.
Proof. done. Qed.
Lemma sum_by_app {A} (f : A → Z) a b : sum_by f (a ++ b) = (sum_by f a + sum_by f b)%Z.
Proof. induction a as [|x a IH]; [done|]. rewrite <- app_comm_cons, !sum_by_cons. lia. Qed.
Lemma sum_by_perm {A} (f : A → Z) a b : a ≡ₚ b → sum_by f a = sum_by f b.
Proof. induction 1; rewrite ?sum_by_cons in *; lia. Qed.
Lemma sum_by_ext {A} (f h : A → Z) l : (∀ x, x ∈ l → f x = h x) → sum_by f l = sum_by h l.
Proof.
  induction l as [|x l IH]; intros E; [done|]. rewrite !sum_by_cons, E, IH; [done|set_solver|by left].
Qed.
Lemma sum_by_add {A} (f h : A → Z) l : sum_by (λ x, f x + h x)%Z l = (sum_by f l + sum_by h l)%Z.
Proof. induction l as [|x l IH]; [done|]. rewrite !sum_by_cons. lia. Qed.
Lemma sum_by_zero {A} (f : A → Z) l : (∀ x, x ∈ l → f x = 0%Z) → sum_by f l = 0%Z.
Proof.
  induction l as [|x l IH]; intros E; [done|]. rewrite sum_by_cons, E, IH; [done|set_solver|by left].
Qed.
Lemma sum_by_mul {A} (f : A → Z) c l : sum_by (λ x, f x * c)%Z l = (sum_by f l * c)%Z.
Proof. induction l as [|x l IH]; [done|]. rewrite !sum_by_cons. lia. Qed.
Lemma sum_by_concat {A B} (f : B → Z) (h : A → list B) l :
  sum_by f (concat (h <$> l)) = sum_by (λ x, sum_by f (h x)) l.
Proof. induction l as [|x l IH]; [done|]. rewrite fmap_cons. cbn [concat]. by rewrite sum_by_app, IH. Qed.

#[local] Infix "≡₃₂" := eqm (at level 70).

(** ** The tree

    A node of the tree is counted from one, so that halving goes to its parent;
    [up k j] is the ancestor of [j] that is [k] levels above. *)
Definition up (k j : nat) : nat := j / 2 ^ k.

Lemma up_0 j : up 0 j = j.
Proof. unfold up. by rewrite Nat.div_1_r. Qed.
Lemma up_S k j : up (S k) j = up k j / 2.
Proof. unfold up. rewrite Nat.Div0.div_div. f_equal. simpl. lia. Qed.

(** Weight under the nodes of level [k] that satisfy [P]. *)
Definition under (P : nat → Prop) `{!∀ j, Decision (P j)} (F k : nat) (es : list (nat * Z)) : Z :=
  sum_by (λ e, if decide (P (up k (F + e.1))) then e.2 else 0%Z) es.
Definition at_node (F k j : nat) : list (nat * Z) → Z := under (λ i, i = j) F k.
Definition right_of (F k j : nat) : list (nat * Z) → Z := under (λ i, j < i) F k.

Lemma half_cases a : (a = 2 * (a / 2)) ∨ (a = 2 * (a / 2) + 1).
Proof. pose proof (Nat.div_mod a 2). pose proof (Nat.mod_upper_bound a 2). lia. Qed.

(** What is to the right of a node: what is to the right of its parent, and
    the sibling if the node is a left child. *)
Lemma right_of_up F k j es :
  right_of F k j es = (right_of F (S k) (j / 2) es +
    if Nat.even j then at_node F k (S j) es else 0)%Z.
Proof.
  unfold right_of, at_node, under. destruct (Nat.even j) eqn:Ev.
  - rewrite <- sum_by_add. apply sum_by_ext. intros e _. rewrite up_S.
    apply Nat.even_spec in Ev as [m ->]. rewrite (Nat.mul_comm 2 m), Nat.div_mul by lia.
    destruct (half_cases (up k (F + e.1))) as [E|E]; revert E; generalize (up k (F + e.1)); intros a E;
      repeat case_decide; lia.
  - rewrite Z.add_0_r. apply sum_by_ext. intros e _. rewrite up_S.
    assert (Ho : Nat.odd j = true) by (by rewrite <- Nat.negb_even, Ev). apply Nat.odd_spec in Ho as [m ->].
    assert (Em : (2 * m + 1) / 2 = m) by (symmetry; apply (Nat.div_unique _ 2 m 1); lia). rewrite Em.
    destruct (half_cases (up k (F + e.1))) as [E|E]; revert E; generalize (up k (F + e.1)); intros a E;
      repeat case_decide; lia.
Qed.

Section tree.
#[local] Set Default Proof Using "All".
Context (h : nat).
Let F : nat := 2 ^ h.

(** The nodes of level [k] are counted from [2^(h-k)] up to twice that. *)
Definition in_level (k j : nat) : Prop := 2 ^ (h - k) ≤ j < 2 * 2 ^ (h - k).

Lemma level_unique k k' j : k ≤ h → k' ≤ h → in_level k j → in_level k' j → k = k'.
Proof.
  unfold in_level. intros Hk Hk' [A B] [C D].
  destruct (Nat.lt_trichotomy k k') as [Hlt|[?|Hlt]]; [|done|].
  - assert (H : 2 ^ S (h - k') ≤ 2 ^ (h - k)) by (apply Nat.pow_le_mono_r; lia). simpl in H. lia.
  - assert (H : 2 ^ S (h - k) ≤ 2 ^ (h - k')) by (apply Nat.pow_le_mono_r; lia). simpl in H. lia.
Qed.
Lemma up_in_level k p : k ≤ h → p < F → in_level k (up k (F + p)).
Proof.
  intros Hk Hp. unfold in_level, up, F in *.
  assert (E : 2 ^ h = 2 ^ k * 2 ^ (h - k)) by (rewrite <- Nat.pow_add_r; f_equal; lia).
  assert (2 ^ k ≠ 0) by (apply Nat.pow_nonzero; lia).
  split; [apply Nat.div_le_lower_bound; lia|apply Nat.Div0.div_lt_upper_bound; lia].
Qed.

Definition places_ok (es : list (nat * Z)) : Prop := ∀ e, e ∈ es → e.1 < F.
(** Every node holds the weight below it; [es k] is what level [k] has seen. *)
Definition tree_inv (tree : list Z) (es : nat → list (nat * Z)) : Prop :=
  length tree = 2 * F - 1 ∧
  ∀ k j, k ≤ h → in_level k j → ∃ x, tree !! (j - 1) = Some x ∧ x ≡₃₂ at_node F k j (es k).

Lemma under_snoc (P : nat → Prop) `{!∀ j, Decision (P j)} k es e :
  under P F k (es ++ [e]) = (under P F k es + if decide (P (up k (F + e.1))) then e.2 else 0)%Z.
Proof. unfold under. rewrite sum_by_app. cbn. lia. Qed.

(** What the levels have seen when [e] has gone up to level [k]. *)
Definition seen (k : nat) (es : list (nat * Z)) (e : nat * Z) : nat → list (nat * Z) :=
  λ k', if k' <=? k then es ++ [e] else es.

Lemma add_at_inv k es e tree es' :
  k ≤ h → e.1 < F → tree_inv tree es' → es' k = es → 
  tree_inv (add_at (up k (F + e.1) - 1) e.2 tree) (λ k', if k' =? k then es ++ [e] else es' k').
Proof.
  intros Hk He [Hl Ht] Hes. pose proof (up_in_level k e.1 Hk He) as Hlev.
  set (j := up k (F + e.1)) in *.
  assert (Hpow : ∀ n, 1 ≤ 2 ^ n) by (intros n; pose proof (Nat.pow_nonzero 2 n); lia).
  assert (Hj : j - 1 < length tree).
  { rewrite Hl. assert (2 ^ (h - k) ≤ F) by (apply Nat.pow_le_mono_r; lia). unfold in_level in Hlev. lia. }
  unfold add_at. destruct (Nat.ltb_spec (j - 1) (length tree)); [|lia].
  split; [by rewrite length_alter|]. intros k' j' Hk' Hlev'.
  destruct (Ht k' j' Hk' Hlev') as (x & Hx & Ex).
  destruct (Nat.eqb_spec k' k) as [->|Hne].
  - rewrite Hes in Ex. unfold at_node in *. rewrite under_snoc. fold j.
    destruct (decide (j = j')) as [<-|Hj'].
    + exists (i32_wrap (x + e.2)). rewrite list_lookup_alter_eq, Hx. split; [done|].
      rewrite wrap_eqm. by rewrite Ex.
    + exists x. rewrite list_lookup_alter_ne; [by rewrite Z.add_0_r|].
      unfold in_level in *. specialize (Hpow (h - k)). lia.
  - exists x. rewrite list_lookup_alter_ne; [done|].
    assert (Hjj : j ≠ j') by (intros <-; apply Hne; by apply (level_unique k' k j)).
    unfold in_level in *. pose proof (Hpow (h - k)). pose proof (Hpow (h - k')). lia.
Qed.

Lemma right_of_root es : places_ok es → right_of F h 1 es = 0%Z.
Proof.
  intros H. apply sum_by_zero. intros e He. rewrite decide_False; [done|].
  pose proof (up_in_level h e.1 ltac:(lia) (H e He)) as Hl. unfold in_level in Hl. rewrite Nat.sub_diag in Hl. simpl in Hl. lia.
Qed.

Lemma seen_step k es e : ∀ k', (if k' =? S k then es ++ [e] else seen k es e k') = seen (S k) es e k'.
Proof.
  intros k'. unfold seen. destruct (Nat.eqb_spec k' (S k)), (Nat.leb_spec k' k), (Nat.leb_spec k' (S k)); try done; lia.
Qed.
Lemma tree_inv_ext tree es es' : (∀ k, k ≤ h → es k = es' k) → tree_inv tree es → tree_inv tree es'.
Proof. intros E [Hl Ht]. split; [done|]. intros k j Hk. rewrite <- (E k Hk). by apply Ht. Qed.

Lemma climb_spec n : ∀ k es e tree s fuel,
  n = h - k → k ≤ h → e.1 < F → places_ok es → tree_inv tree (seen k es e) → up k (F + e.1) - 1 ≤ fuel →
  ∃ tree' s', climb fuel e.2 (up k (F + e.1) - 1) tree s = Done (tree', s') ∧
    tree_inv tree' (λ _, es ++ [e]) ∧ s' ≡₃₂ (s + right_of F k (up k (F + e.1)) es)%Z.
Proof.
  induction n as [|n IH]; intros k es e tree s fuel Hn Hk He Hes Ht Hf; pose proof (up_in_level k e.1 Hk He) as Hlev.
  - assert (Ek : k = h) by lia. rewrite Ek in *.
    assert (Ej : up h (F + e.1) = 1) by (unfold in_level in Hlev; rewrite Nat.sub_diag in Hlev; simpl in Hlev; lia).
    rewrite Ej in *. exists tree, s. split; [by destruct fuel|]. split; [|by rewrite right_of_root, Z.add_0_r].
    eapply tree_inv_ext; [|exact Ht]. intros k' Hk'. unfold seen. destruct (Nat.leb_spec k' h); [done|lia].
  - set (j := up k (F + e.1)) in *.
    assert (Hj2 : 2 ≤ j).
    { assert (2 ^ 1 ≤ 2 ^ (h - k)) by (apply Nat.pow_le_mono_r; lia). simpl in *. unfold in_level in Hlev. lia. }
    destruct fuel as [|fuel]; [lia|]. cbn [climb]. destruct (Nat.eqb_spec (j - 1) 0); [lia|].
    assert (Hup : up (S k) (F + e.1) = j / 2) by apply up_S.
    assert (Eidx : (j - 1 - 1) / 2 = up (S k) (F + e.1) - 1).
    { rewrite Hup. pose proof (half_cases j). pose proof (half_cases (j - 1 - 1)). lia. }
    rewrite Eidx.
    set (s1 := if (_ =? 1) && _ then _ else s).
    assert (Hs1 : s1 ≡₃₂ (s + (if Nat.even j then at_node F k (S j) es else 0))%Z).
    { unfold s1. destruct (Nat.even j) eqn:Ev.
      - apply Nat.even_spec in Ev as [m Em].
        assert (Em1 : (j - 1) mod 2 = 1).
        { replace (j - 1) with (1 + (m - 1) * 2) by lia. by rewrite Nat.Div0.mod_add. }
        rewrite Em1. cbn [Nat.eqb andb].
        destruct (Ht) as [Hl Hcell]. replace (j - 1 + 1) with j by lia.
        assert (Hlev' : in_level k (S j)).
        { unfold in_level in *. lia. }
        destruct (Hcell k (S j) Hk Hlev') as (x & Hx & Ex). replace (S j - 1) with j in Hx by lia.
        pose proof (lookup_lt_Some _ _ _ Hx) as Hlt. destruct (Nat.ltb_spec j (length tree)); [|lia].
        rewrite Hx. cbn [default]. rewrite wrap_eqm, Ex.
        assert (Es : at_node F k (S j) (seen k es e k) = at_node F k (S j) es).
        { unfold seen. rewrite Nat.leb_refl. unfold at_node. rewrite under_snoc.
          fold j. rewrite decide_False by lia. lia. }
        by rewrite Es.
      - rewrite Z.add_0_r. destruct (Nat.eqb_spec ((j - 1) mod 2) 1) as [Em|Em]; [|done].
        exfalso. rewrite <- Nat.negb_odd in Ev. apply negb_false_iff, Nat.odd_spec in Ev as [m ->].
        replace (2 * m + 1 - 1) with (m * 2) in Em by lia. by rewrite Nat.Div0.mod_mul in Em. }
    destruct (IH (S k) es e (add_at (up (S k) (F + e.1) - 1) e.2 tree) s1 fuel) as (tree' & s' & E & Ht' & Hs').
    + lia.
    + lia.
    + done.
    + done.
    + eapply tree_inv_ext; [intros k' _; apply seen_step|]. apply add_at_inv; [lia|done|done|].
      unfold seen. destruct (Nat.leb_spec (S k) k); [lia|done].
    + rewrite Hup. pose proof (Nat.div_lt j 2 ltac:(lia) ltac:(lia)). lia.
    + exists tree', s'. split; [done|]. split; [done|]. rewrite Hs', Hs1, Hup, (right_of_up F k j es). 
      by rewrite <- Z.add_assoc, (Z.add_comm (if Nat.even j then _ else _)).
Qed.
End tree.

(** ** The count *)

(** The weight of the pairs of entries in opposite orders. *)
Fixpoint pairs (es : list (nat * Z)) : Z :=
  match es with [] => 0%Z | p :: es' => (sum_by (crossing p) es' + pairs es')%Z end.

Lemma pairs_app a b : pairs (a ++ b) = (pairs a + pairs b + crossings_between a b)%Z.
Proof.
  unfold crossings_between. induction a as [|p a IH]; cbn [app pairs]; [unfold sum_by; simpl; lia|].
  rewrite sum_by_app, sum_by_cons, IH. lia.
Qed.
Lemma pairs_snoc h es e : pairs (es ++ [e]) = (pairs es + e.2 * right_of (2 ^ h) 0 (2 ^ h + e.1) es)%Z.
Proof.
  rewrite pairs_app. cbn [pairs]. unfold sum_by at 1. cbn [foldr].
  assert (E : crossings_between es [e] = (e.2 * right_of (2 ^ h) 0 (2 ^ h + e.1) es)%Z); [|lia].
  unfold crossings_between, right_of, under. rewrite Z.mul_comm, <- sum_by_mul. apply sum_by_ext.
  intros p _. rewrite sum_by_cons. unfold sum_by, crossing. cbn [foldr]. rewrite up_0.
  repeat case_decide; lia.
Qed.

Lemma count_entries h es : places_ok h es →
  ∃ tree cc, fold_outcome (count_entry (2 ^ h - 1)) es (replicate (2 * 2 ^ h - 1) 0%Z, 0%Z) = Done (tree, cc) ∧ cc = i32_wrap (pairs es).
Proof.
  intros Hes. assert (Hpow : 1 ≤ 2 ^ h) by (pose proof (Nat.pow_nonzero 2 h); lia).
  destruct (fold_outcome_inv (λ pre s, tree_inv h s.1 (λ _, pre) ∧ s.2 = i32_wrap (pairs pre))
    (count_entry (2 ^ h - 1)) es (replicate (2 * 2 ^ h - 1) 0%Z, 0%Z)) as ([tree cc] & E & _ & Hcc); [| |by exists tree, cc].
  - split; [|done]. split; cbn; [by rewrite length_replicate|]. intros k j Hk Hj. exists 0%Z. split; [|done].
    apply lookup_replicate_2. unfold in_level in Hj.
    assert (2 ^ (h - k) ≤ 2 ^ h) by (apply Nat.pow_le_mono_r; lia).
    pose proof (Nat.pow_nonzero 2 (h - k)). lia.
  - intros pre [p w] post [tree cc] E [Ht Hcc]. cbn [fst snd] in *.
    assert (Hp : p < 2 ^ h) by (apply (Hes (p, w)); rewrite E; set_solver).
    assert (Hpre : places_ok h pre) by (intros e He; apply Hes; rewrite E; set_solver).
    unfold count_entry. replace (p + (2 ^ h - 1)) with (up 0 (2 ^ h + (p, w).1) - 1) by (rewrite up_0; cbn; lia).
    destruct (climb_spec h (h - 0) 0 pre (p, w) (add_at (up 0 (2 ^ h + (p, w).1) - 1) w tree) 0%Z
      (up 0 (2 ^ h + (p, w).1) - 1)) as (tree' & s' & Ec & Ht' & Hs'); [done|lia|done|done| |done|].
    { eapply tree_inv_ext; [|by apply (add_at_inv h 0 pre (p, w) tree (λ _, pre)); [lia|done..]].
      intros k _. unfold seen. by destruct k. }
    cbn [snd] in Ec. rewrite Ec, bind_done. eexists. split; [done|]. split; [exact Ht'|]. cbn [snd].
    apply eqm_wrap. rewrite Hcc, !wrap_eqm, Hs', (pairs_snoc h), up_0. done.
Qed.

Lemma leaves_for_spec fuel a len : len ≤ 2 ^ a * 2 ^ fuel →
  ∃ h, leaves_for fuel (2 ^ a) len = Done (2 ^ h) ∧ len ≤ 2 ^ h.
Proof.
  revert a. induction fuel as [|fuel IH]; intros a Hl; cbn [leaves_for].
  - destruct (Nat.ltb_spec (2 ^ a) len); [simpl in Hl; lia|]. by exists a.
  - destruct (Nat.ltb_spec (2 ^ a) len); [|by exists a].
    replace (2 ^ a * 2) with (2 ^ S a) by (simpl; lia). apply IH. simpl in *. lia.
Qed.

(** ** Places and orders *)

Lemma positions_bound i layer m v p :
  positions i layer m !! v = Some p → m !! v = Some p ∨ p < i + length layer.
Proof.
  revert i m. induction layer as [|u layer IH]; intros i m; cbn [positions length]; [by left|].
  intros [Hm|?]%IH; [|right; lia]. apply lookup_insert_Some in Hm as [[_ <-]|[_ ?]]; [right; lia|by left].
Qed.
Lemma ends_of_places g south v p w : (p, w) ∈ ends_of g (south_pos south) v → p < length south.
Proof.
  unfold ends_of. intros (e & _ & He)%list_elem_of_omap.
  destruct (south_pos south !! key_w e) as [q|] eqn:E; [|done]. injection He as <- _.
  apply positions_bound in E as [E|?]; [by rewrite lookup_empty in E|done].
Qed.
Lemma pairs_sorted es : StronglySorted (λ a b, by_place a b = true) es → pairs es = 0%Z.
Proof.
  induction 1 as [|p es _ IH Hp]; [done|]. cbn [pairs]. rewrite IH, Z.add_0_r. apply sum_by_zero.
  intros q Hq. eapply Forall_forall in Hp; [|exact Hq]. unfold by_place in Hp. apply Nat.leb_le in Hp.
  unfold crossing. by rewrite decide_False by lia.
Qed.
Lemma sort_place_pairs es : pairs (sort_by by_place es) = 0%Z.
Proof.
  apply pairs_sorted, sort_by_sorted; unfold by_place.
  - intros x y. rewrite !Nat.leb_le. lia.
  - intros x y z. rewrite !Nat.leb_le. lia.
Qed.
Lemma crossings_between_perm a a' b : a ≡ₚ a' → crossings_between a b = crossings_between a' b.
Proof. apply sum_by_perm. Qed.
Lemma pairs_concat (ls : list (list (nat * Z))) :
  pairs (concat (sort_by by_place <$> ls)) = crossings ls.
Proof.
  induction ls as [|l ls IH]; [done|]. rewrite fmap_cons. cbn [concat crossings].
  rewrite pairs_app, sort_place_pairs, IH.
  rewrite (crossings_between_perm _ l) by apply sort_by_perm.
  assert (E : crossings_between l (concat (sort_by by_place <$> ls)) = sum_by (crossings_between l) ls); [|lia].
  unfold crossings_between. clear IH. induction l as [|p l IHl].
  - symmetry. by apply sum_by_zero.
  - rewrite sum_by_cons, IHl, sum_by_concat. rewrite <- sum_by_add. apply sum_by_ext. intros q _.
    rewrite sum_by_cons. f_equal. apply sum_by_perm, sort_by_perm.
Qed.

Lemma two_layers g north south : two_layer_cross_count g north south = Done (i32_wrap (crossings_of g north south)).
Proof.
  unfold two_layer_cross_count. destruct south as [|s south'] eqn:Es.
  - unfold crossings_of. assert (E : ∀ l, crossings (ends_of g (south_pos []) <$> l) = 0%Z); [|by rewrite E].
    assert (Ee : ∀ v, ends_of g (south_pos []) v = []).
    { intros v. unfold ends_of, south_pos. cbn [positions]. induction (out_edges g v) as [|e l IH]; [done|].
      cbn. rewrite lookup_empty. cbn. exact IH. }
    induction l as [|v l IH]; [done|]. rewrite fmap_cons. cbn [crossings]. rewrite IH, sum_by_zero; [done|].
    intros x _. by rewrite Ee.
  - rewrite <- Es. clear Es s south'.
    destruct (leaves_for_spec (length south) 0 (length south)) as (h & E & Hh).
    { simpl. pose proof (Nat.pow_gt_lin_r 2 (length south)). lia. }
    change (2 ^ 0) with 1 in E. rewrite E, bind_done.
    destruct (count_entries h (south_entries g north south)) as (tree & cc & -> & ->).
    { intros [p w] He. cbn. unfold south_entries in He. apply list_elem_of_In, Stdlib.Lists.List.in_concat in He as (l & Hl & Hp).
      apply list_elem_of_In, list_elem_of_fmap in Hl as (v & -> & _). apply list_elem_of_In in Hp.
      rewrite sort_by_elem in Hp. apply ends_of_places in Hp. lia. }
    rewrite bind_done. cbn [snd]. unfold south_entries, crossings_of. by rewrite <- pairs_concat, <- list_fmap_compose.
Qed.

(** Over all pairs of neighbouring layers. *)
Fixpoint all_crossings (g : DagreGraph) (layering : list (list string)) : Z :=
  match layering with
  | [] => 0%Z
  | north :: rest =>
      match rest with
      | [] => 0%Z
      | south :: _ => (crossings_of g north south + all_crossings g rest)%Z
      end
  end.

Lemma cross_count_value g layering :
  cross_count g layering = Done (i32_wrap (all_crossings g layering)).
Proof.
  destruct layering as [|north rest]; [done|]. cbn [cross_count].
  assert (H : ∀ north cc, cross_count_from g north rest (i32_wrap cc) =
    Done (i32_wrap (cc + all_crossings g (north :: rest)))); [|exact (H north 0%Z)].
  clear north. induction rest as [|south rest IH]; intros north cc; cbn [cross_count_from].
  { by rewrite Z.add_0_r. }
  rewrite two_layers, bind_done.
  assert (E : i32_wrap (i32_wrap cc + i32_wrap (crossings_of g north south)) = i32_wrap (cc + crossings_of g north south)).
  { apply eqm_wrap. by rewrite !wrap_eqm. }
  rewrite E, IH. do 2 f_equal. cbn [all_crossings]. lia.
Qed.

(** C21: the accumulator tree counts crossings.
    For any graph and layering the count ends without a panic and is, in [i32]
    arithmetic, the sum over neighbouring layers of the products of weights of
    the pairs of edges that cross: pairs whose upper ends and lower ends are in
    opposite orders. *)
Theorem cross_count_spec g layering :
  cross_count g layering = Done (i32_wrap (all_crossings g layering)).
Proof. apply cross_count_value. Qed.
