(* ===== verification/Rank.v ===== *)
(** * Ranks by longest paths
      ([src/crates/selkie/src/layout/dagre/rank/{longest_path,util,mod}.rs])

    [run] gives each node the length of the longest path to it, with an
    explicit stack; then nodes without predecessors move towards their
    successors.  A node is put on the stack to be explored once, and computed
    once, so twice the number of nodes is enough fuel. *)
From stdpp Require Import strings gmap.
From S2P Require Import Prelude F64 SortBy DagreGraph.

Definition node_rank (g : DagreGraph) (v : string) : option Z := n ← node g v; n_rank n.
Definition set_rank (r : Z) (v : string) (g : DagreGraph) : DagreGraph := node_mut (set_n_rank (Some r)) v g.
Definition edge_minlen (g : DagreGraph) (k : EdgeKey) : Z :=
  match edge_by_key g k with Some l => e_minlen l | None => 1 end.

(** ** Longest paths *)

Inductive StackItem := Explore (v : string) | Compute (v : string).

Record PathState := mkPath {
  lp_graph : DagreGraph;
  lp_visited : gset string;
  lp_in_progress : gset string;
  lp_stack : list StackItem  (* the top is the head *)
}.

(** The predecessors that are neither visited nor on the stack. *)
Definition push_preds (preds : list string) (s : PathState) : PathState :=
  fold_with
    (λ pred s,
       if decide (pred ∈ lp_visited s ∨ pred ∈ lp_in_progress s) then s
       else mkPath (lp_graph s) (lp_visited s) ({[pred]} ∪ lp_in_progress s) (Explore pred :: lp_stack s))
    preds s.
(** The largest of the predecessors' ranks, each plus the length of its edge. *)
Definition compute_rank (g : DagreGraph) (v : string) : Z :=
  fold_with
    (λ k rank, match node_rank g (key_v k) with
               | Some r => Z.max rank (i32_wrap (r + edge_minlen g k))
               | None => rank
               end)
    (in_edges g v) 0.

Definition path_step (item : StackItem) (s : PathState) : PathState :=
  match item with
  | Explore v =>
      if decide (v ∈ lp_visited s)
      then mkPath (lp_graph s) (lp_visited s) (lp_in_progress s ∖ {[v]}) (lp_stack s)
      else push_preds (predecessors (lp_graph s) v)
             (mkPath (lp_graph s) (lp_visited s) (lp_in_progress s) (Compute v :: lp_stack s))
  | Compute v =>
      let s := mkPath (lp_graph s) (lp_visited s) (lp_in_progress s ∖ {[v]}) (lp_stack s) in
      if decide (v ∈ lp_visited s) then s
      else mkPath (set_rank (compute_rank (lp_graph s) v) v (lp_graph s))
             ({[v]} ∪ lp_visited s) (lp_in_progress s) (lp_stack s)
  end.
(** [while let Some(state) = stack.pop()]. *)
Fixpoint path_loop (fuel : nat) (s : PathState) : panics PathState :=
  match lp_stack s with
  | [] => Done s
  | item :: rest =>
      match fuel with
      | O => OutOfFuel
      | S fuel' => path_loop fuel' (path_step item (mkPath (lp_graph s) (lp_visited s) (lp_in_progress s) rest))
      end
  end.
Definition path_from (start : string) (s : PathState) : panics PathState :=
  if decide (start ∈ lp_visited s) then Done s else
  path_loop (2 * node_count (lp_graph s))
    (mkPath (lp_graph s) (lp_visited s) ({[start]} ∪ lp_in_progress s) (Explore start :: lp_stack s)).

Definition no_in_edges (g : DagreGraph) (v : string) : bool := bool_decide (in_edges g v = []).
Definition rank_sources (g : DagreGraph) : DagreGraph * gset string * list string :=
  fold_with
    (λ v '(g, visited, sources),
       if no_in_edges g v then (set_rank 0 v g, {[v]} ∪ visited, sources ++ [v])
       else (g, visited, sources))
    (nodes g) (g, ∅, []).

(** The rank next to the nearest successor: [i32::MAX] without any. *)
Definition nearest_rank (g : DagreGraph) (v : string) : Z :=
  fold_with
    (λ k rank, match node_rank g (key_w k) with
               | Some r => Z.min rank (i32_wrap (r - edge_minlen g k))
               | None => rank
               end)
    (out_edges g v) i32_max.
Definition tighten (v : string) (g : DagreGraph) : DagreGraph :=
  if decide (out_edges g v = []) then g else
  if 0 <? nearest_rank g v then set_rank (nearest_rank g v) v g else g.

Definition longest_path_run (g : DagreGraph) : panics DagreGraph :=
  let ns := nodes g in
  let '(g, visited, sources) := rank_sources g in
  s ← fold_outcome path_from ns (mkPath g visited ∅ []);
  Done (fold_with tighten sources (lp_graph s)).

(** ** Sources towards their targets *)

(** The shortest of the edges to ranked targets: [i32::MAX] without any. *)
Definition min_minlen (g : DagreGraph) (v : string) : Z :=
  fold_with
    (λ k m, match node_rank g (key_w k) with Some _ => Z.min m (edge_minlen g k) | None => m end)
    (out_edges g v) i32_max.
Definition pull_source (v : string) (g : DagreGraph) : DagreGraph :=
  if negb (no_in_edges g v) then g else
  if decide (out_edges g v = []) then g else
  let max_rank := nearest_rank g v in
  if (max_rank =? i32_max) || (min_minlen g v =? i32_max) then g else
  match node_rank g v with
  | Some current_rank =>
      if min_minlen g v <? i32_wrap (max_rank - current_rank) then set_rank max_rank v g else g
  | None => g
  end.
Definition pull_sources_toward_targets (g : DagreGraph) : DagreGraph := fold_with pull_source (nodes g) g.

(** ** Ranks from zero *)

Definition ranks_of (g : DagreGraph) : list Z := omap (node_rank g) (nodes g).
Definition min_rank (g : DagreGraph) : Z :=
  match ranks_of g with [] => 0 | r :: rs => foldr Z.min r rs end.
Definition shift_rank (d : Z) (v : string) (g : DagreGraph) : DagreGraph :=
  match node_rank g v with Some r => set_rank (i32_wrap (r + d)) v g | None => g end.
Definition normalize_ranks (g : DagreGraph) : DagreGraph :=
  let m := min_rank g in
  if m =? 0 then g else fold_with (shift_rank (- m)) (nodes g) g.

(** The rank difference of an edge beyond its least length. *)
Definition slack `{MapOrder} (g : DagreGraph) (v w : string) : option Z :=
  v_rank ← node_rank g v;
  w_rank ← node_rank g w;
  let minlen := match edge g v w with Some l => e_minlen l | None => 1 end in
  Some (i32_wrap (i32_wrap (w_rank - v_rank) - minlen)).
