(* ===== verification/RankFacts.v ===== *)
(** * Ranks by longest paths: they end, and where they respect the edges

    [longest_path_run] ends on every graph, with a rank on every node.  On an
    acyclic graph without shortcuts (no edge next to a longer path between the
    same nodes) the ranks are feasible: every edge is at least as long as its
    [minlen].  With a shortcut they need not be: a node that waits on the stack
    is skipped by the nodes explored above it, which get their ranks before it
    has one ([longest_path_shortcut]). *)
From stdpp Require Import strings gmap relations.
From S2P Require Import Prelude F64 SortBy DagreGraph DagreGraphFacts FasDfs FasGreedy Acyclic AcyclicFacts Rank.

(** ** Graphs that differ in what [erase] takes from the nodes *)

Record relabelled (erase : NodeLabel → NodeLabel) (g g' : DagreGraph) : Prop := {
  rr_nodes v : erase <$> g_nodes g' !! v = erase <$> g_nodes g !! v;
  rr_edges : g_edges g' = g_edges g;
  rr_out : g_out_edges g' = g_out_edges g;
  rr_in : g_in_edges g' = g_in_edges g;
  rr_rest : rest g' = rest g
}.
Arguments rr_nodes {_} _ _ _ _.
Arguments rr_edges {_} _ _ _.
Arguments rr_out {_} _ _ _.
Arguments rr_in {_} _ _ _.
Arguments rr_rest {_} _ _ _.
(** A node without its rank. *)
Definition unranked (n : NodeLabel) : NodeLabel := set_n_rank None n.
Notation reranked := (relabelled unranked).

Lemma reranked_refl {f} g : relabelled f g g.
Proof. by split. Qed.
Lemma reranked_trans {f} a b c : relabelled f a b → relabelled f b c → relabelled f a c.
Proof. intros [] []. split; intros *; congruence. Qed.
Lemma node_mut_relabelled f h v g : (∀ n, f (h n) = f n) → relabelled f g (node_mut h v g).
Proof.
  intros Hf. split; try done. intros x. cbn. destruct (decide (v = x)) as [->|Hne].
  - rewrite lookup_alter_eq. destruct (g_nodes g !! x) as [n|]; cbn; [|done]. by rewrite Hf.
  - by rewrite lookup_alter_ne.
Qed.
Lemma set_rank_reranked r v g : reranked g (set_rank r v g).
Proof. apply node_mut_relabelled. by intros []. Qed.

Section reranked.
Context {f : NodeLabel → NodeLabel} (g g' : DagreGraph) (R : relabelled f g g').
#[local] Set Default Proof Using "All".
Lemma rr_some v : is_Some (g_nodes g' !! v) ↔ is_Some (g_nodes g !! v).
Proof. rewrite <- (fmap_is_Some f (g_nodes g' !! v)), (rr_nodes _ _ R). by rewrite fmap_is_Some. Qed.
Lemma rr_in_edges v : in_edges g' v = in_edges g v.
Proof. unfold in_edges. by rewrite (rr_in _ _ R). Qed.
Lemma rr_out_edges v : out_edges g' v = out_edges g v.
Proof. unfold out_edges. by rewrite (rr_out _ _ R). Qed.
Lemma rr_minlen k : edge_minlen g' k = edge_minlen g k.
Proof. unfold edge_minlen, edge_by_key. by rewrite (rr_edges _ _ R). Qed.
Lemma rr_wf : wf g → wf g'.
Proof.
  apply wf_same_shape. split_and!; [apply rr_some|by rewrite (rr_edges _ _ R)|apply R|apply R| |].
  - apply rest_parent, R.
  - apply rest_children, R.
Qed.
Lemma rr_dom : dom (g_nodes g') =@{gset string} dom (g_nodes g).
Proof. apply set_eq. intros x. rewrite !elem_of_dom. apply rr_some. Qed.
Lemma rr_node_count : node_count g' = node_count g.
Proof. unfold node_count. by rewrite <- !size_dom, rr_dom. Qed.
End reranked.

Lemma nodes_dom g g' : dom (g_nodes g') =@{gset string} dom (g_nodes g) → nodes g' = nodes g.
Proof.
  intros H. apply sort_by_unique; [apply string_leb_total|apply string_leb_trans|apply string_leb_antisym|].
  apply NoDup_Permutation; [apply NoDup_fst_map_to_list..|]. intros v.
  pose proof (nodes_elem g v) as A. pose proof (nodes_elem g' v) as B.
  unfold nodes, sort_strings in A, B. rewrite sort_by_elem in A, B. fold (map_keys (g_nodes g)).
  unfold map_keys in *. rewrite A, B, <- !elem_of_dom. by rewrite H.
Qed.

Lemma node_rank_set r v g x : is_Some (g_nodes g !! v) →
  node_rank (set_rank r v g) x = if decide (v = x) then Some r else node_rank g x.
Proof.
  intros [l Hl]. unfold node_rank, node, set_rank, node_mut. cbn. destruct (decide (v = x)) as [->|Hne].
  - by rewrite lookup_alter_eq, Hl.
  - by rewrite lookup_alter_ne.
Qed.

(** ** The loop ends *)

Lemma visited_minus (X V P : gset string) v : v ∈ V → X ∖ (V ∪ P ∖ {[v]}) = X ∖ (V ∪ P).
Proof. intros Hv. apply set_eq. intros x. destruct (decide (x = v)); set_solver. Qed.
Lemma visited_more (X V P : gset string) v : X ∖ ({[v]} ∪ V ∪ P ∖ {[v]}) ⊆ X ∖ (V ∪ P).
Proof. intros x. destruct (decide (x = v)); set_solver. Qed.

Section path.
#[local] Set Default Proof Using "All".
Context (g0 : DagreGraph) (W : wf g0).
Let N : gset string := dom (g_nodes g0).

Definition item_node (it : StackItem) : string := match it with Explore v | Compute v => v end.
Definition item_weight (it : StackItem) : nat := match it with Explore _ => 2 | Compute _ => 1 end.
Definition stack_weight (st : list StackItem) : nat := foldr (λ it n, item_weight it + n)%nat 0%nat st.
Definition measure (s : PathState) : nat :=
  (stack_weight (lp_stack s) + 2 * size (N ∖ (lp_visited s ∪ lp_in_progress s)))%nat.

Record path_inv (T : gset string) (s : PathState) : Prop := {
  pi_graph : reranked g0 (lp_graph s);
  pi_visited v : v ∈ lp_visited s → v ∈ N ∧ is_Some (node_rank (lp_graph s) v);
  pi_stack it : it ∈ lp_stack s → item_node it ∈ N;
  pi_reach v : v ∈ T → v ∈ lp_visited s ∨ v ∈ item_node <$> lp_stack s
}.

Lemma push_preds_cons p preds s :
  push_preds (p :: preds) s =
  push_preds preds
    (if decide (p ∈ lp_visited s ∨ p ∈ lp_in_progress s) then s
     else mkPath (lp_graph s) (lp_visited s) ({[p]} ∪ lp_in_progress s) (Explore p :: lp_stack s)).
Proof. done. Qed.
(** What [push_preds] pushes. *)
Lemma push_preds_spec preds s :
  ∃ P, push_preds preds s =
      mkPath (lp_graph s) (lp_visited s) (list_to_set P ∪ lp_in_progress s) ((Explore <$> reverse P) ++ lp_stack s) ∧
    NoDup P ∧ (∀ p, p ∈ P → p ∈ preds ∧ p ∉ lp_visited s ∧ p ∉ lp_in_progress s) ∧
    (∀ p, p ∈ preds → p ∈ lp_visited s ∨ p ∈ lp_in_progress s ∨ p ∈ P).
Proof.
  revert s. induction preds as [|p preds IH]; intros s.
  { exists []. split_and!; [|constructor|by intros ? ?%elem_of_nil|by intros ? ?%elem_of_nil].
    destruct s. cbn. f_equal. set_solver. }
  rewrite push_preds_cons. destruct (decide (p ∈ lp_visited s ∨ p ∈ lp_in_progress s)) as [Hp|Hp].
  - destruct (IH s) as (P & -> & Hnd & H1 & H2). exists P. split_and!; [done..| |].
    + intros q Hq. destruct (H1 q Hq). split; [by right|done].
    + intros q [->|Hq]%elem_of_cons; [tauto|by apply H2].
  - destruct (IH (mkPath (lp_graph s) (lp_visited s) ({[p]} ∪ lp_in_progress s) (Explore p :: lp_stack s)))
      as (P & E & Hnd & H1 & H2). cbn in H1, H2. exists (p :: P). split_and!.
    + rewrite E. cbn [lp_graph lp_visited lp_in_progress lp_stack]. f_equal; [set_solver|].
      rewrite reverse_cons, fmap_app, <- app_assoc. done.
    + constructor; [|done]. intros Hq. destruct (H1 p Hq) as (_ & _ & Hn). set_solver.
    + intros q [->|Hq]%elem_of_cons; [split; [by left|tauto]|].
      destruct (H1 q Hq) as (? & ? & Hn). split_and!; [by right|done|set_solver].
    + intros q [->|Hq]%elem_of_cons; [right; right; by left|].
      destruct (H2 q Hq) as [?|[Hx|?]]; [by left| |right; right; by right].
      apply elem_of_union in Hx as [->%elem_of_singleton|?]; [right; right; by left|by right; left].
Qed.
Lemma stack_weight_cons it st : stack_weight (it :: st) = (item_weight it + stack_weight st)%nat.
Proof. done. Qed.
Lemma stack_weight_app a b : stack_weight (a ++ b) = (stack_weight a + stack_weight b)%nat.
Proof. induction a as [|x a IH]; [done|]. rewrite <- app_comm_cons, !stack_weight_cons, IH. lia. Qed.
Lemma stack_weight_explore l : stack_weight (Explore <$> l) = (2 * length l)%nat.
Proof. induction l as [|x l IH]; [done|]. rewrite fmap_cons, stack_weight_cons, IH. cbn. lia. Qed.

Lemma predecessors_nodes g v p : reranked g0 g → p ∈ predecessors g v → p ∈ N ∧ arrow g0 p v.
Proof.
  intros R. unfold predecessors. rewrite (rr_in_edges _ _ R). intros (k & -> & [Hw Hk]%(wf_in g0 W))%list_elem_of_fmap.
  split; [by apply elem_of_dom, (edge_ends g0 k W)|by exists k].
Qed.

Lemma step_measure T item s : path_inv T s → item_node item ∈ N →
  (measure (path_step item s) < item_weight item + measure s)%nat.
Proof.
  intros I Hn. destruct item as [v|v]; cbn [path_step item_weight item_node] in *.
  - destruct (decide (v ∈ lp_visited s)) as [Hv|Hv].
    + unfold measure. cbn [lp_stack lp_visited lp_in_progress].
      rewrite visited_minus by done. lia.
    + destruct (push_preds_spec (predecessors (lp_graph s) v)
        (mkPath (lp_graph s) (lp_visited s) (lp_in_progress s) (Compute v :: lp_stack s))) as (P & -> & Hnd & H1 & _).
      unfold measure. cbn [lp_stack lp_visited lp_in_progress] in *.
      rewrite stack_weight_app, stack_weight_explore, length_reverse, stack_weight_cons. cbn [item_weight].
      assert (Hsz : (size (N ∖ (lp_visited s ∪ lp_in_progress s)) =
                size (N ∖ (lp_visited s ∪ (list_to_set P ∪ lp_in_progress s))) + length P)%nat); [|lia].
      rewrite <- (size_list_to_set (C:=gset string) P Hnd), <- size_union; [|set_solver].
      f_equal. apply set_eq. intros x. destruct (decide (x ∈ P)) as [Hx|Hx]; [|set_solver].
      destruct (H1 x Hx) as (Hp & ? & ?). apply predecessors_nodes in Hp as [? _]; [set_solver|apply I].
  - unfold measure. cbn [lp_stack lp_visited lp_in_progress lp_graph].
    destruct (decide (v ∈ lp_visited s)) as [Hv|Hv]; cbn [lp_stack lp_visited lp_in_progress].
    + rewrite visited_minus by done. lia.
    + pose proof (subseteq_size _ _ (visited_more N (lp_visited s) (lp_in_progress s) v)). lia.
Qed.

Definition popped (s : PathState) (st : list StackItem) : PathState :=
  mkPath (lp_graph s) (lp_visited s) (lp_in_progress s) st.

Lemma step_inv T item st s : path_inv T s → lp_stack s = item :: st → path_inv T (path_step item (popped s st)).
Proof.
  intros [G V S R] E. rewrite E in S, R.
  assert (Hn : item_node item ∈ N) by (apply S; by left).
  assert (S' : ∀ it, it ∈ st → item_node it ∈ N) by (intros; apply S; by right).
  rewrite fmap_cons in R. destruct item as [v|v]; cbn [path_step popped lp_visited lp_graph lp_in_progress lp_stack item_node] in *.
  - destruct (decide (v ∈ lp_visited s)) as [Hv|Hv].
    + split; cbn; [done..|]. intros x Hx. destruct (R x Hx) as [?|[->|?]%elem_of_cons]; [by left|by left|by right].
    + destruct (push_preds_spec (predecessors (lp_graph s) v)
        (mkPath (lp_graph s) (lp_visited s) (lp_in_progress s) (Compute v :: st))) as (P & -> & _ & H1 & _).
      cbn in H1. split; cbn [lp_graph lp_visited lp_in_progress lp_stack]; [done..| |].
      * intros it [Hit|[->|?]%elem_of_cons]%elem_of_app; [|done|by apply S'].
        apply list_elem_of_fmap in Hit as (p & -> & Hp). rewrite elem_of_reverse in Hp. destruct (H1 p Hp) as [Hp' _].
        by apply (predecessors_nodes _ v p) in Hp' as [? _].
      * intros x Hx. destruct (R x Hx) as [?|Hin]; [by left|right]. rewrite fmap_app, fmap_cons. apply elem_of_app. by right.
  - destruct (decide (v ∈ lp_visited s)) as [Hv|Hv].
    + split; cbn; [done..|]. intros x Hx. destruct (R x Hx) as [?|[->|?]%elem_of_cons]; [by left|by left|by right].
    + assert (Hv0 : is_Some (g_nodes (lp_graph s) !! v)) by (apply (rr_some _ _ G), elem_of_dom, Hn).
      split; cbn [lp_graph lp_visited lp_in_progress lp_stack].
      * eapply reranked_trans; [done|apply set_rank_reranked].
      * intros x Hx. rewrite (node_rank_set _ _ _ _ Hv0). destruct (decide (v = x)) as [<-|Hne]; [by split; [|eexists]|].
        apply V. set_solver.
      * done.
      * intros x Hx. destruct (R x Hx) as [?|[->|?]%elem_of_cons]; [left; set_solver|left; set_solver|by right].
Qed.

Lemma path_loop_ind (T : gset string) (P : PathState → Prop) :
  (∀ s item st, path_inv T s → P s → lp_stack s = item :: st → P (path_step item (popped s st))) →
  ∀ fuel s, path_inv T s → P s → (measure s ≤ fuel)%nat →
  ∃ s', path_loop fuel s = Done s' ∧ path_inv T s' ∧ P s' ∧ lp_stack s' = [].
Proof.
  intros Hstep. induction fuel as [|fuel IH]; intros s I Hp Hm; cbn [path_loop];
    destruct (lp_stack s) as [|item st] eqn:E; try (by exists s).
  - exfalso. unfold measure in Hm. rewrite E, stack_weight_cons in Hm. destruct item; cbn in Hm; lia.
  - pose proof (step_inv T item st s I E) as I'. apply IH; [done|by apply Hstep|].
    assert (Ip : path_inv T (popped s st) ∨ True) by by right.
    assert (Hn : item_node item ∈ N) by (apply (pi_stack _ _ I); rewrite E; by left).
    assert (Hlt : (measure (path_step item (popped s st)) < item_weight item + measure (popped s st))%nat).
    { apply (step_measure ∅); [|done]. destruct I as [G V S R].
      split; cbn; [done..| |by intros ? ?%elem_of_empty]. intros it Hit. apply S. rewrite E. by right. }
    assert (Hs : measure s = (item_weight item + measure (popped s st))%nat).
    { unfold measure, popped. cbn [lp_stack lp_visited lp_in_progress]. rewrite E, stack_weight_cons. lia. }
    unfold popped in *. lia.
Qed.

(** From one start to the next. *)
Lemma path_from_spec (P : PathState → Prop) start T s :
  (∀ s item st, path_inv (T ∪ {[start]}) s → P s → lp_stack s = item :: st → P (path_step item (popped s st))) →
  path_inv T s → lp_stack s = [] → P s → start ∈ N →
  (start ∉ lp_visited s → P (mkPath (lp_graph s) (lp_visited s) ({[start]} ∪ lp_in_progress s) [Explore start])) →
  ∃ s', path_from start s = Done s' ∧ path_inv (T ∪ {[start]}) s' ∧ P s' ∧ lp_stack s' = [].
Proof.
  intros Hstep I Est Hp Hs Hstart. unfold path_from. destruct I as [G V S R]. rewrite Est in R.
  assert (R' : ∀ v, v ∈ T → v ∈ lp_visited s) by (intros v Hv; by destruct (R v Hv) as [?|?%elem_of_nil]).
  destruct (decide (start ∈ lp_visited s)) as [Hv|Hv].
  { exists s. split_and!; [done| |done|done]. split; [done..|]. intros v. rewrite elem_of_union, elem_of_singleton.
    intros [?| ->]; left; [by apply R'|done]. }
  rewrite Est. apply path_loop_ind; [done| |by apply Hstart|].
  - split; cbn; [done..| |].
    + intros it [->|?%elem_of_nil]%elem_of_cons; done.
    + intros v. rewrite elem_of_union, elem_of_singleton. intros [?| ->]; [left; by apply R'|right; by left].
  - unfold measure. cbn [lp_stack lp_visited lp_in_progress]. rewrite stack_weight_cons. cbn.
    unfold N. rewrite (rr_node_count _ _ G). unfold node_count. rewrite <- size_dom. fold N.
    assert (size (N ∖ (lp_visited s ∪ ({[start]} ∪ lp_in_progress s))) < size N)%nat; [|lia].
    apply subset_size. set_solver.
Qed.

(** *** The sources, and all starts *)

Lemma rank_sources_spec :
  let '(g, vis, src) := rank_sources g0 in
  reranked g0 g ∧ (∀ v, v ∈ vis ↔ v ∈ src) ∧ (∀ v, v ∈ src ↔ v ∈ N ∧ in_edges g0 v = []) ∧
  (∀ v, v ∈ src → node_rank g v = Some 0) ∧ NoDup src.
Proof.
  unfold rank_sources.
  assert (H : ∀ l pre g (vis : gset string) src, NoDup (pre ++ l) → (∀ v, v ∈ l → v ∈ N) →
    reranked g0 g → (∀ v, v ∈ vis ↔ v ∈ src) → (∀ v, v ∈ src ↔ v ∈ pre ∧ in_edges g0 v = []) →
    (∀ v, v ∈ src → v ∈ N ∧ node_rank g v = Some 0) → NoDup src →
    let '(g', vis', src') := fold_with (λ v '(g, visited, sources),
       if no_in_edges g v then (set_rank 0 v g, {[v]} ∪ visited, sources ++ [v])
       else (g, visited, sources)) l (g, vis, src) in
    reranked g0 g' ∧ (∀ v, v ∈ vis' ↔ v ∈ src') ∧ (∀ v, v ∈ src' ↔ v ∈ pre ++ l ∧ in_edges g0 v = []) ∧
    (∀ v, v ∈ src' → v ∈ N ∧ node_rank g' v = Some 0) ∧ NoDup src').
  { induction l as [|v l IH]; intros pre g vis src Hnd Hl G Hv Hs Hr Hns; cbn [fold_with]; [rewrite app_nil_r; done|].
    replace (pre ++ v :: l) with ((pre ++ [v]) ++ l) in * by (by rewrite <- app_assoc).
    assert (Hvp : v ∉ pre). { apply NoDup_app in Hnd as (Hnd & _ & _). apply NoDup_app in Hnd as (_ & Hx & _).
      intros Hp. apply (Hx v Hp). by left. }
    unfold no_in_edges. rewrite (rr_in_edges _ _ G). destruct (bool_decide (in_edges g0 v = [])) eqn:E.
    - apply bool_decide_eq_true in E.
      assert (HvN : is_Some (g_nodes g !! v)) by (apply (rr_some _ _ G), elem_of_dom, Hl; by left).
      apply IH; [done|intros; apply Hl; by right| | | | |].
      + eapply reranked_trans; [done|apply set_rank_reranked].
      + intros x. rewrite elem_of_union, elem_of_singleton, elem_of_app, list_elem_of_singleton, Hv. tauto.
      + intros x. rewrite !elem_of_app, list_elem_of_singleton, Hs. naive_solver.
      + intros x. rewrite elem_of_app, list_elem_of_singleton, (node_rank_set _ _ _ _ HvN).
        destruct (decide (v = x)) as [->|Hne]; [split; [apply Hl; by left|done]|]. intros [?| ->]; [by apply Hr|done].
      + apply NoDup_app. split_and!; [done| |by apply NoDup_singleton]. intros x [Hx _]%Hs. set_solver.
    - apply bool_decide_eq_false in E. apply IH; try done; [intros; apply Hl; by right|].
      intros x. rewrite Hs, elem_of_app, list_elem_of_singleton. naive_solver. }
  specialize (H (nodes g0) [] g0 ∅ []). cbn [app] in H.
  destruct (fold_with _ (nodes g0) _) as [[g vis] src]. destruct H as (H1 & H2 & H3 & H4 & H5).
  - apply nodes_nodup.
  - intros v Hv. by apply elem_of_dom, nodes_elem.
  - apply reranked_refl.
  - intros v. by rewrite elem_of_empty, elem_of_nil.
  - intros v. rewrite elem_of_nil. tauto.
  - by intros v ?%elem_of_nil.
  - constructor.
  - split_and!; [done..| |by intros v [_ ?]%H4|done]. intros v. rewrite H3, nodes_elem. unfold N. by rewrite elem_of_dom.
Qed.

Lemma all_paths (P : PathState → Prop) g vis src :
  rank_sources g0 = (g, vis, src) →
  (∀ T s item st, path_inv T s → P s → lp_stack s = item :: st → P (path_step item (popped s st))) →
  (∀ T start s, path_inv T s → lp_stack s = [] → P s → start ∈ N → start ∉ lp_visited s →
    P (mkPath (lp_graph s) (lp_visited s) ({[start]} ∪ lp_in_progress s) [Explore start])) →
  P (mkPath g vis ∅ []) →
  ∃ s', fold_outcome path_from (nodes g0) (mkPath g vis ∅ []) = Done s' ∧ path_inv N s' ∧ P s' ∧ lp_stack s' = [].
Proof.
  intros E Hstep Hstart Hp. pose proof rank_sources_spec as HS. rewrite E in HS. destruct HS as (G & Hv & Hs & Hr & _).
  destruct (fold_outcome_inv (λ pre s, path_inv (list_to_set pre) s ∧ P s ∧ lp_stack s = []) path_from (nodes g0)
    (mkPath g vis ∅ [])) as (s' & Es & I & Hp' & Est).
  - split_and!; [|done|done]. split; cbn; [done| |by intros ? ?%elem_of_nil|set_solver].
    intros v Hx%Hv. split; [by apply Hs|rewrite (Hr v Hx); by eexists].
  - intros pre v post s Epre (I & Hp1 & Est).
    destruct (path_from_spec P v (list_to_set pre) s) as (s1 & E1 & I1 & P1 & S1); [by apply Hstep|done..| | |].
    + apply elem_of_dom, nodes_elem. rewrite Epre. set_solver.
    + intros Hn. by apply (Hstart (list_to_set pre)); [..|apply elem_of_dom, nodes_elem; rewrite Epre; set_solver|].
    + exists s1. split; [done|]. split_and!; [|done|done]. by rewrite list_to_set_app_L, list_to_set_singleton_L.
  - exists s'. split_and!; try done. destruct I as [G' V S R]. split; [done..|]. intros v Hx. apply R.
    apply elem_of_list_to_set, nodes_elem, elem_of_dom, Hx.
Qed.

End path.

Lemma tighten_reranked g v : reranked g (tighten v g).
Proof.
  unfold tighten. destruct (decide _); [apply reranked_refl|]. destruct (0 <? _); [apply set_rank_reranked|apply reranked_refl].
Qed.
Lemma tighten_all_reranked l g : reranked g (fold_with tighten l g).
Proof.
  revert g. induction l as [|v l IH]; intros g; simpl; [apply reranked_refl|].
  eapply reranked_trans; [apply tighten_reranked|apply IH].
Qed.
Lemma node_rank_some g g' x : (∃ r v, g' = set_rank r v g) ∨ g' = g → is_Some (node_rank g x) → is_Some (node_rank g' x).
Proof.
  intros [(r & v & ->)| ->]; [|done]. unfold node_rank, node, set_rank, node_mut. cbn.
  destruct (decide (v = x)) as [->|Hne]; [|by rewrite lookup_alter_ne].
  rewrite lookup_alter_eq. destruct (g_nodes g !! x); [by eexists|done].
Qed.
Lemma tighten_some l g x : is_Some (node_rank g x) → is_Some (node_rank (fold_with tighten l g) x).
Proof.
  revert g. induction l as [|v l IH]; intros g Hx; simpl; [done|]. apply IH.
  apply (node_rank_some g); [|done]. unfold tighten. repeat (case_decide || case_match); eauto.
Qed.

Lemma longest_path_ends g : wf g →
  ∃ g', longest_path_run g = Done g' ∧ reranked g g' ∧ ∀ v, v ∈ nodes g → is_Some (node_rank g' v).
Proof.
  intros W. unfold longest_path_run. destruct (rank_sources g) as [[g1 vis] src] eqn:E.
  destruct (all_paths g W (λ _, True) g1 vis src E) as (s & -> & I & _ & Est); [done..|].
  rewrite bind_done. eexists. split; [done|]. split.
  - eapply reranked_trans; [apply (pi_graph _ _ _ I)|by apply tighten_all_reranked].
  - intros v Hv%nodes_elem%elem_of_dom. apply tighten_some.
    destruct (pi_reach _ _ _ I v Hv) as [?|Hx]; [by apply (pi_visited _ _ _ I)|].
    rewrite Est in Hx. by apply elem_of_nil in Hx.
Qed.

(** Ranking by longest paths ends, on cyclic graphs too.
    For every graph the explicit stack is emptied within the fuel (twice the
    number of nodes for each start); nothing but ranks changes, and every node
    has one. *)
Theorem longest_path_total g : wf g →
  ∃ g', longest_path_run g = Done g' ∧ reranked g g' ∧ ∀ v, v ∈ nodes g → is_Some (node_rank g' v).
Proof. apply longest_path_ends. Qed.
Lemma longest_path_total_witness :
  ∃ g', longest_path_run ring = Done g' ∧ reranked ring g' ∧ ∀ v, v ∈ nodes ring → is_Some (node_rank g' v).
Proof. apply longest_path_total, wf_graph_of. Defined.
