(* ===== verification/RankFeasible.v ===== *)
(** * Ranks by longest paths: where they respect the edges

    On an acyclic graph without shortcuts, a node on the stack is computed
    after all its predecessors: one that waits further down would be the start
    of a shortcut.  The ranks are then feasible, the tightening of sources and
    the two later passes keep them so, and the least is brought to zero. *)
From stdpp Require Import strings gmap relations.
From S2P Require Import Prelude F64 SortBy DagreGraph DagreGraphFacts FasDfs FasGreedy Acyclic AcyclicFacts Rank RankFacts.

(** No edge beside a longer path between the same nodes. *)
Definition no_shortcut (g : DagreGraph) : Prop :=
  ∀ u y x, arrow g u x → tc (arrow g) u y → arrow g y x → False.
(** Every edge is at least as long as its [minlen]. *)
Definition feasible (g : DagreGraph) : Prop :=
  ∀ k, is_Some (g_edges g !! k) →
    ∃ a b, node_rank g (key_v k) = Some a ∧ node_rank g (key_w k) = Some b ∧ a + edge_minlen g k ≤ b.

(** A chain of edges from a node without predecessors, and its length. *)
Inductive chain_to (g : DagreGraph) : string → Z → Prop :=
  | chain_source v : in_edges g v = [] → chain_to g v 0
  | chain_edge k r : is_Some (g_edges g !! k) → chain_to g (key_v k) r → chain_to g (key_w k) (r + edge_minlen g k).
(** The length of the longest of them. *)
Definition longest_to (g : DagreGraph) (v : string) (r : Z) : Prop := chain_to g v r ∧ ∀ r', chain_to g v r' → r' ≤ r.
Lemma chain_source_inv g v r : wf g → in_edges g v = [] → chain_to g v r → r = 0.
Proof.
  intros W Hv Hc. destruct Hc as [|k r Hk _]; [done|]. apply (wf_edge_in g k W) in Hk. rewrite Hv in Hk. by apply elem_of_nil in Hk.
Qed.
(** A source as near to its targets as one of its edges lets it. *)
Definition snug (g0 g : DagreGraph) (v : string) : Prop :=
  ∃ r, node_rank g v = Some r ∧ ((out_edges g0 v = [] ∧ r = 0) ∨
    ∃ k b, k ∈ out_edges g0 v ∧ node_rank g (key_w k) = Some b ∧ r + edge_minlen g0 k = b).

(** ** The stack *)

(** The node that waits for those above it. *)
Fixpoint waiting (st : list StackItem) : option string :=
  match st with
  | [] => None
  | Compute x :: _ => Some x
  | Explore _ :: st' => waiting st'
  end.
(** Each item has an edge to the nearest node that waits below it. *)
Fixpoint chain (g : DagreGraph) (st : list StackItem) : Prop :=
  match st with
  | [] => True
  | it :: st' => chain g st' ∧ match waiting st' with Some x => arrow g (item_node it) x | None => st' = [] end
  end.
(** The predecessors of a waiting node are visited or above it. *)
Fixpoint ready (g : DagreGraph) (above : list string) (vis : gset string) (st : list StackItem) : Prop :=
  match st with
  | [] => True
  | it :: st' =>
      match it with Compute v => ∀ p, arrow g p v → p ∈ vis ∨ p ∈ above | Explore _ => True end ∧
      ready g (item_node it :: above) vis st'
  end.

Lemma ready_mono g a a' vis vis' st :
  (∀ p, p ∈ vis ∨ p ∈ a → p ∈ vis' ∨ p ∈ a') → ready g a vis st → ready g a' vis' st.
Proof.
  revert a a'. induction st as [|it st IH]; intros a a' H; [done|]. cbn [ready]. intros [Hc Hr]. split.
  - destruct it; [done|]. intros p Hp. apply H, Hc, Hp.
  - eapply IH; [|exact Hr]. intros p. rewrite !elem_of_cons. naive_solver.
Qed.

(** What lies below an item whose node is [v]. *)
Lemma chain_below g it st : chain g (it :: st) → ∀ p,
  (Compute p ∈ st → tc (arrow g) (item_node it) p) ∧
  (Explore p ∈ st → ∃ y x, rtc (arrow g) (item_node it) y ∧ arrow g y x ∧ arrow g p x).
Proof.
  revert it. induction st as [|it' st IH]; intros it; [by split; intros ?%elem_of_nil|].
  intros [Hst Hw] p. destruct it' as [q|x]; cbn [waiting] in Hw.
  - cbn [chain item_node] in Hst. destruct Hst as [Hst Hq].
    destruct (waiting st) as [x|] eqn:Ew; [|by subst st].
    assert (Hch : chain g (it :: st)) by (cbn [chain]; rewrite Ew; done).
    destruct (IH it Hch p) as [HC HE]. split.
    + intros [?|?]%elem_of_cons; [done|by apply HC].
    + intros [[= ->]|?]%elem_of_cons; [|by apply HE]. exists (item_node it), x. split_and!; [apply rtc_refl|done|done].
  - destruct (IH (Compute x) Hst p) as [HC HE]. split.
    + intros [[= ->]|?]%elem_of_cons; [by apply tc_once|]. eapply tc_l; [exact Hw|by apply HC].
    + intros [?|?]%elem_of_cons; [done|]. destruct (HE ltac:(done)) as (y & z & ? & ? & ?).
      exists y, z. split_and!; [|done|done]. by eapply rtc_l.
Qed.

Lemma chain_push g v P st : chain g (Compute v :: st) → (∀ p, p ∈ P → arrow g p v) →
  chain g ((Explore <$> P) ++ Compute v :: st) ∧ waiting ((Explore <$> P) ++ Compute v :: st) = Some v.
Proof.
  intros Hst HP. induction P as [|p P IH]; [done|].
  destruct IH as [Hc Hw]; [intros; apply HP; by right|]. rewrite fmap_cons, <- app_comm_cons. cbn [waiting chain].
  split; [|done]. split; [done|]. rewrite Hw. apply HP. by left.
Qed.
Lemma chain_tail g it st : chain g (it :: st) → chain g st.
Proof. by intros [? _]. Qed.
Lemma ready_push g v vis P a st :
  (∀ p, arrow g p v → p ∈ vis ∨ p ∈ P ∨ p ∈ a) → ready g (v :: a) vis st →
  ready g a vis ((Explore <$> P) ++ Compute v :: st).
Proof.
  revert a. induction P as [|p P IH]; intros a HP Hr.
  - cbn [app fmap list_fmap ready]. split; [|done]. intros q Hq. destruct (HP q Hq) as [?|[?%elem_of_nil|?]]; tauto.
  - rewrite fmap_cons, <- app_comm_cons. cbn [ready item_node]. split; [done|]. apply IH.
    + intros q Hq. specialize (HP q Hq). rewrite elem_of_cons in HP |- *. tauto.
    + eapply ready_mono; [|exact Hr]. set_solver.
Qed.

Section feasible.
#[local] Set Default Proof Using "All".
Context (g0 : DagreGraph) (W : wf g0) (m : Z).
Context (Hlen : ∀ k l, g_edges g0 !! k = Some l → 0 ≤ e_minlen l ≤ m).
Context (Hm : 0 ≤ m) (Hbound : m * Z.of_nat (node_count g0) ≤ i32_max).

Lemma minlen_range k : is_Some (g_edges g0 !! k) → 0 ≤ edge_minlen g0 k ≤ m.
Proof. intros [l Hl]. unfold edge_minlen, edge_by_key. rewrite Hl. by eapply Hlen. Qed.

(** The ranks of visited nodes are bounded and in the order of the edges. *)
Record ranks_ok (g : DagreGraph) (vis : gset string) : Prop := {
  ro_graph : reranked g0 g;
  ro_nodes : vis ⊆ dom (g_nodes g0);
  ro_rank v : v ∈ vis → ∃ r, node_rank g v = Some r ∧ 0 ≤ r ≤ m * Z.of_nat (size vis);
  ro_edge v k : v ∈ vis → k ∈ in_edges g0 v →
    key_v k ∈ vis ∧ ∃ a b, node_rank g (key_v k) = Some a ∧ node_rank g v = Some b ∧ a + edge_minlen g0 k ≤ b;
  ro_chain v r : v ∈ vis → node_rank g v = Some r → chain_to g0 v r
}.

(** The largest rank any of the predecessors asks for. *)
Lemma compute_rank_spec g vis v : ranks_ok g vis →
  (∀ k, k ∈ in_edges g0 v → key_v k ∈ vis) → m * (Z.of_nat (size vis) + 1) ≤ i32_max →
  0 ≤ compute_rank g v ≤ m * (Z.of_nat (size vis) + 1) ∧
  (∀ k a, k ∈ in_edges g0 v → node_rank g (key_v k) = Some a → a + edge_minlen g0 k ≤ compute_rank g v) ∧
  (in_edges g0 v = [] ∧ compute_rank g v = 0 ∨
   ∃ k a, k ∈ in_edges g0 v ∧ node_rank g (key_v k) = Some a ∧ compute_rank g v = a + edge_minlen g0 k).
Proof.
  intros [G Hn Hr He _] Hin Hb. unfold compute_rank. rewrite (rr_in_edges _ _ G).
  assert (Hk : ∀ k, k ∈ in_edges g0 v → is_Some (g_edges g0 !! k)) by (intros k Hk; apply (wf_in g0 W v k Hk)).
  revert Hin Hk. generalize (in_edges g0 v). intros l Hin Hk.
  assert (H : ∀ acc, 0 ≤ acc ≤ m * (Z.of_nat (size vis) + 1) →
    let r := fold_with (λ k rank, match node_rank g (key_v k) with
               | Some r => Z.max rank (i32_wrap (r + edge_minlen g k)) | None => rank end) l acc in
    acc ≤ r ≤ m * (Z.of_nat (size vis) + 1) ∧
    (∀ k a, k ∈ l → node_rank g (key_v k) = Some a → a + edge_minlen g0 k ≤ r) ∧
    (r = acc ∨ ∃ k a, k ∈ l ∧ node_rank g (key_v k) = Some a ∧ r = a + edge_minlen g0 k)).
  { cbn zeta. induction l as [|k l IH]; intros acc Ha; cbn [fold_with].
    { split; [lia|]. split; [by intros k a ?%elem_of_nil|by left]. }
    destruct (Hr (key_v k)) as (r & Er & Hr1); [by apply Hin; left|]. rewrite Er, (rr_minlen _ _ G).
    pose proof (minlen_range k (Hk k ltac:(by left))) as Hml.
    rewrite i32_wrap_small by (unfold is_i32, i32_min in *; lia).
    destruct (IH ltac:(intros; apply Hin; by right) ltac:(intros; apply Hk; by right)
      (Z.max acc (r + edge_minlen g0 k))) as (IH1 & IH2 & IH3); [lia|].
    split; [lia|]. split.
    - intros k' a [->|Hk']%elem_of_cons Ha'; [|by apply IH2]. simplify_eq. lia.
    - destruct IH3 as [E|(k' & a & Hk' & Ha' & E)]; [|right; exists k', a; split_and!; [by right|done..]].
      destruct (Z.max_spec acc (r + edge_minlen g0 k)) as [[_ E']|[_ E']]; rewrite E' in E |- *; [right; exists k, r|by left].
      split_and!; [by left|done|done]. }
  destruct (H 0 ltac:(lia)) as (H1 & H2 & H3). split_and!; [lia|lia|done|]. destruct l as [|k l]; [by left|right].
  destruct H3 as [E|?]; [|done]. destruct (Hr (key_v k)) as (a & Ea & Ha); [by apply Hin; left|].
  exists k, a. split_and!; [by left|done|]. pose proof (H2 k a ltac:(by left) Ea). pose proof (minlen_range k (Hk k ltac:(by left))). lia.
Qed.
Lemma size_vis vis : vis ⊆ dom (g_nodes g0) → (size vis ≤ node_count g0)%nat.
Proof. intros Hs. unfold node_count. rewrite <- size_dom. by apply subseteq_size. Qed.

Lemma ranks_ok_compute g vis v : ranks_ok g vis → v ∈@{gset string} dom (g_nodes g0) → v ∉ vis →
  (∀ p, arrow g0 p v → p ∈ vis) → ranks_ok (set_rank (compute_rank g v) v g) ({[v]} ∪ vis).
Proof.
  intros R Hv Hnv Hp. pose proof R as [G Hn Hr He Hch].
  assert (Hsz : (size ({[v]} ∪ vis) = S (size vis))%nat) by (rewrite size_union, size_singleton; [done|set_solver]).
  assert (Hle : (size ({[v]} ∪ vis) ≤ node_count g0)%nat) by (apply size_vis; set_solver).
  assert (Hb : m * (Z.of_nat (size vis) + 1) ≤ i32_max) by nia.
  assert (Hin : ∀ k, k ∈ in_edges g0 v → key_v k ∈ vis).
  { intros k [Hw Hk]%(wf_in g0 W). apply Hp. by exists k. }
  destruct (compute_rank_spec g vis v R Hin Hb) as (Hc & Hce & Hat).
  assert (Hvn : is_Some (g_nodes g !! v)) by (apply (rr_some _ _ G), elem_of_dom, Hv).
  assert (Hset : ∀ x, node_rank (set_rank (compute_rank g v) v g) x = if decide (v = x) then Some (compute_rank g v) else node_rank g x)
    by (intros; by apply node_rank_set).
  split.
  - eapply reranked_trans; [done|apply set_rank_reranked].
  - set_solver.
  - intros x. rewrite elem_of_union, elem_of_singleton, Hset, Hsz. intros Hx.
    destruct (decide (v = x)) as [->|Hne]; [exists (compute_rank g x); split; [done|lia]|].
    destruct (Hr x) as (r & Er & Hr1); [naive_solver|]. exists r. split; [done|]. nia.
  - intros x k Hx Hk. rewrite !Hset.
    assert (Hkv : key_v k ∈ vis) by (destruct (decide (v = x)) as [->|Hne]; [by apply Hin|apply (He x); [set_solver|done]]).
    split; [set_solver|]. rewrite decide_False by (intros ->; done).
    destruct (decide (v = x)) as [->|Hne].
    + destruct (Hr _ Hkv) as (r & Er & _). exists r, (compute_rank g x). split_and!; [done..|]. by apply Hce.
    + apply (He x); [set_solver|done].
  - intros x r Hx. rewrite Hset. destruct (decide (v = x)) as [->|Hne]; [|apply Hch; set_solver]. intros [= <-].
    destruct Hat as [[Hi ->]|(k & a & Hk & Ha & ->)]; [by apply chain_source|]. destruct (wf_in g0 W x k Hk) as [<- Hke].
    apply chain_edge; [done|]. apply Hch; [by apply Hin|done].
Qed.

Context (Hac : acyclic g0) (Hns : no_shortcut g0).

Record path_good (s : PathState) : Prop := {
  pg_chain : chain g0 (lp_stack s);
  pg_ready : ready g0 [] (lp_visited s) (lp_stack s);
  pg_prog p : p ∈ lp_in_progress s → p ∈ lp_visited s ∨ p ∈ item_node <$> lp_stack s;
  pg_ranks : ranks_ok (lp_graph s) (lp_visited s)
}.

(** A predecessor of the node explored does not wait further down. *)
Lemma not_below v st p : chain g0 (Explore v :: st) → arrow g0 p v → p ∈ item_node <$> st → False.
Proof.
  intros Hc Hp (it & -> & Hin)%list_elem_of_fmap. destruct (chain_below _ _ _ Hc (item_node it)) as [HC HE].
  destruct it as [q|q]; cbn [item_node] in *.
  - destruct (HE Hin) as (y & x & Hy & Hyx & Hqx). apply (Hns q y x Hqx); [|done].
    eapply tc_rtc_r; [apply tc_once, Hp|done].
  - apply (Hac v). eapply tc_r; [by apply HC|done].
Qed.

Lemma predecessors_arrow g v p : reranked g0 g → arrow g0 p v → p ∈ predecessors g v.
Proof.
  intros G (k & Hk & <- & <-). unfold predecessors. rewrite (rr_in_edges _ _ G).
  apply list_elem_of_fmap. exists k. split; [done|by apply wf_edge_in].
Qed.

Lemma good_step T s item st : path_inv g0 T s → path_good s → lp_stack s = item :: st →
  path_good (path_step item (popped s st)).
Proof.
  intros I [Hc Hr Hp R] E. rewrite E in *. rewrite fmap_cons in Hp.
  pose proof (pi_stack _ _ _ I item) as Hn. rewrite E in Hn. specialize (Hn ltac:(by left)).
  destruct item as [v|v]; cbn [path_step popped lp_visited lp_graph lp_in_progress lp_stack item_node] in *.
  - destruct (decide (v ∈ lp_visited s)) as [Hv|Hv].
    + split; cbn [lp_visited lp_graph lp_in_progress lp_stack].
      * by eapply chain_tail.
      * cbn [ready item_node] in Hr. eapply ready_mono; [|apply Hr]. set_solver.
      * intros p [Hin Hne]%elem_of_difference. destruct (Hp p Hin) as [?|[?|?]%elem_of_cons]; [by left|set_solver|by right].
      * done.
    + destruct (push_preds_spec g0 W (predecessors (lp_graph s) v)
        (mkPath (lp_graph s) (lp_visited s) (lp_in_progress s) (Compute v :: st))) as (P & -> & _ & H1 & H2).
      cbn [lp_visited lp_graph lp_in_progress lp_stack] in *.
      pose proof (ro_graph _ _ R) as G.
      destruct (chain_push g0 v (reverse P) st) as [Hc' _]; [exact Hc| |].
      { intros p. rewrite elem_of_reverse. intros Hx%H1. destruct Hx as [Hx _].
        by apply (predecessors_nodes g0 W _ v p G) in Hx as [_ ?]. }
      split; cbn [lp_visited lp_graph lp_in_progress lp_stack]; [done| | |done].
      * apply ready_push; [|apply Hr]. intros p Ha. rewrite elem_of_reverse.
        destruct (H2 p) as [?|[Hx|?]]; [by apply predecessors_arrow|by left| |by right; left].
        destruct (Hp p Hx) as [?|[->|Hin]%elem_of_cons]; [by left| |].
        -- exfalso. by apply (Hac v), tc_once.
        -- exfalso. by apply (not_below v st p Hc Ha).
      * intros p. rewrite elem_of_union, elem_of_list_to_set, fmap_app, fmap_cons, elem_of_app, elem_of_cons.
        intros [Hx|Hx].
        -- right. left. rewrite <- list_fmap_compose. apply list_elem_of_fmap. exists p. by rewrite elem_of_reverse.
        -- destruct (Hp p Hx) as [?|[?|?]%elem_of_cons]; tauto.
  - destruct (decide (v ∈ lp_visited s)) as [Hv|Hv]; split; cbn [lp_visited lp_graph lp_in_progress lp_stack]; try (by eapply chain_tail).
    + cbn [ready item_node] in Hr. eapply ready_mono; [|apply Hr]. set_solver.
    + intros p [Hin Hne]%elem_of_difference. destruct (Hp p Hin) as [?|[?|?]%elem_of_cons]; [by left|set_solver|by right].
    + done.
    + cbn [ready item_node] in Hr. eapply ready_mono; [|apply Hr]. set_solver.
    + intros p [Hin Hne]%elem_of_difference. destruct (Hp p Hin) as [?|[?|?]%elem_of_cons]; set_solver.
    + cbn [ready] in Hr. destruct Hr as [Hpre _]. apply ranks_ok_compute; [done|exact Hn|done|].
      intros p Ha. destruct (Hpre p Ha) as [?|?%elem_of_nil]; done.
Qed.

Definition top_rank : Z := m * Z.of_nat (node_count g0).
(** Every node has a rank in range, and the ranks respect the edges. *)
Record ranked_ok (g : DagreGraph) : Prop := {
  rk_graph : reranked g0 g;
  rk_rank v : v ∈@{gset string} dom (g_nodes g0) → ∃ r, node_rank g v = Some r ∧ 0 ≤ r ≤ top_rank;
  rk_feasible : feasible g;
  rk_chain v r : in_edges g0 v ≠ [] → node_rank g v = Some r → chain_to g0 v r
}.

Lemma minlen_top k : is_Some (g_edges g0 !! k) → 0 ≤ edge_minlen g0 k ≤ m ∧ m ≤ i32_max.
Proof.
  intros Hk. split; [by apply minlen_range|].
  destruct (edge_ends g0 k W Hk) as [[l Hv] _].
  assert (node_count g0 ≠ 0%nat); [|nia]. unfold node_count. intros E. apply map_size_empty_inv in E.
  by rewrite E, lookup_empty in Hv.
Qed.

Lemma longest_paths_ok : ∃ s src,
  (∃ g vis, rank_sources g0 = (g, vis, src) ∧ fold_outcome path_from (nodes g0) (mkPath g vis ∅ []) = Done s) ∧
  ranked_ok (lp_graph s) ∧ (∀ v, v ∈ src ↔ v ∈@{gset string} dom (g_nodes g0) ∧ in_edges g0 v = []) ∧
  (∀ v, v ∈ src → node_rank (lp_graph s) v = Some 0).
Proof.
  destruct (rank_sources g0) as [[g vis] src] eqn:E.
  pose proof (rank_sources_spec g0 W) as HS. rewrite E in HS. destruct HS as (G & Hv & Hs & Hr & _).
  destruct (all_paths g0 W path_good g vis src E) as (s & Es & I & Hg & Est).
  - apply good_step.
  - intros T start s I Est Hg Hstart Hn. destruct Hg as [Hc Hrd Hp R]. rewrite Est in Hp.
    split; cbn; [done..| |done]. intros p. rewrite elem_of_union, elem_of_singleton. intros [->|Hin]; [right; by left|].
    destruct (Hp p Hin) as [?|?%elem_of_nil]; [by left|done].
  - split; cbn; [done..| |]; [by intros p ?%elem_of_empty|]. split; [done| | | |].
    + intros v [Hx _]%Hv%Hs. done.
    + intros v Hx%Hv. exists 0. split; [by apply Hr|nia].
    + intros v k Hx%Hv Hk. apply Hs in Hx as [_ Hx]. rewrite Hx in Hk. by apply elem_of_nil in Hk.
    + intros v r Hx%Hv Er. rewrite (Hr v Hx) in Er. injection Er as <-. apply chain_source. by apply Hs in Hx as [_ ?].
  - exists s, src. split; [by exists g, vis|].
    pose proof (pg_ranks _ Hg) as [G' Hsub Hrk He Hch].
    assert (Hall : ∀ v, v ∈@{gset string} dom (g_nodes g0) → v ∈ lp_visited s).
    { intros v Hx. destruct (pi_reach _ _ _ I v Hx) as [?|Hx']; [done|]. rewrite Est in Hx'. by apply elem_of_nil in Hx'. }
    split; [split; [done| | |]|split; [exact Hs|]].
    + intros v Hx. destruct (Hrk v (Hall v Hx)) as (r & Er & Hr1). exists r. split; [done|]. unfold top_rank.
      pose proof (size_vis _ Hsub). nia.
    + intros k. rewrite (rr_edges _ _ G'). intros Hk. destruct (edge_ends g0 k W Hk) as [_ Hw].
      destruct (He (key_w k) k) as [_ (a & b & ? & ? & ?)]; [by apply Hall, elem_of_dom|by apply wf_edge_in|].
      exists a, b. by rewrite (rr_minlen _ _ G').
    + intros v r _ Er. apply Hch; [|done]. apply Hall, elem_of_dom, (rr_some _ _ G'). unfold node_rank, node in Er.
      destruct (g_nodes (lp_graph s) !! v); [by eexists|done].
    + intros v [Hx Hi]%Hs. destruct (Hrk v (Hall v Hx)) as (r & Er & _). rewrite Er. f_equal.
      apply (chain_source_inv g0 v r W Hi). by apply Hch; [apply Hall|].
Qed.

(** *** Moving a source *)

Lemma raise_source g v r : ranked_ok g → in_edges g0 v = [] → v ∈@{gset string} dom (g_nodes g0) → 0 ≤ r ≤ top_rank →
  (∀ k b, k ∈ out_edges g0 v → node_rank g (key_w k) = Some b → r + edge_minlen g0 k ≤ b) →
  ranked_ok (set_rank r v g).
Proof.
  intros [G Hr Hf Hch] Hin Hv Hr0 Hout.
  assert (Hvn : is_Some (g_nodes g !! v)) by (apply (rr_some _ _ G), elem_of_dom, Hv).
  split.
  - eapply reranked_trans; [done|apply set_rank_reranked].
  - intros x Hx. rewrite (node_rank_set _ _ _ _ Hvn). destruct (decide (v = x)); [by exists r|by apply Hr].
  - intros k Hk. change (g_edges (set_rank r v g)) with (g_edges g) in Hk. 
    destruct (Hf k Hk) as (a & b & Ha & Hb & Hab). rewrite (rr_edges _ _ G) in Hk.
    rewrite !(node_rank_set _ _ _ _ Hvn).
    assert (Hw : key_w k ≠ v).
    { intros E. pose proof (wf_edge_in g0 k W Hk) as Hx. rewrite E, Hin in Hx. by apply elem_of_nil in Hx. }
    change (edge_minlen (set_rank r v g) k) with (edge_minlen g k). rewrite (rr_minlen _ _ G) in *.
    rewrite (decide_False (P := v = key_w k)) by done.
    destruct (decide (v = key_v k)) as [->|Hne]; [|by exists a, b].
    exists r, b. split_and!; [done..|]. apply Hout; [by apply wf_edge|done].
  - intros x y Hx. rewrite (node_rank_set _ _ _ _ Hvn). destruct (decide (v = x)) as [->|]; [done|]. by apply Hch.
Qed.

Lemma nearest_rank_spec g v : ranked_ok g → out_edges g0 v ≠ [] →
  - m ≤ nearest_rank g v ≤ top_rank ∧
  (∀ k b, k ∈ out_edges g0 v → node_rank g (key_w k) = Some b → nearest_rank g v + edge_minlen g0 k ≤ b) ∧
  (∀ r, node_rank g v = Some r → r ≤ i32_max → r ≤ nearest_rank g v) ∧
  ∃ k b, k ∈ out_edges g0 v ∧ node_rank g (key_w k) = Some b ∧ nearest_rank g v + edge_minlen g0 k = b.
Proof.
  intros [G Hr Hf _] Hne. unfold nearest_rank. rewrite (rr_out_edges _ _ G).
  assert (Hk : ∀ k, k ∈ out_edges g0 v → is_Some (g_edges g0 !! k)) by (intros k Hk; apply (wf_out g0 W v k Hk)).
  assert (Hlow : ∀ k r b, k ∈ out_edges g0 v → node_rank g v = Some r → node_rank g (key_w k) = Some b → r + edge_minlen g0 k ≤ b).
  { intros k r b Hin Er Eb. destruct (wf_out g0 W v k Hin) as [<- Hke].
    destruct (Hf k) as (a' & b' & ? & ? & ?); [by rewrite (rr_edges _ _ G)|]. rewrite (rr_minlen _ _ G) in *. by simplify_eq. }
  revert Hne Hk Hlow. generalize (out_edges g0 v). intros l Hne Hk Hlow.
  assert (H : ∀ acc, - m ≤ acc →
    let r := fold_with (λ k rank, match node_rank g (key_w k) with
               | Some r => Z.min rank (i32_wrap (r - edge_minlen g k)) | None => rank end) l acc in
    - m ≤ r ≤ acc ∧ (l ≠ [] → r ≤ top_rank) ∧
    (∀ k b, k ∈ l → node_rank g (key_w k) = Some b → r + edge_minlen g0 k ≤ b) ∧
    (∀ r0, node_rank g v = Some r0 → r0 ≤ acc → r0 ≤ r) ∧
    (r = acc ∨ ∃ k b, k ∈ l ∧ node_rank g (key_w k) = Some b ∧ r + edge_minlen g0 k = b)).
  { clear Hne. cbn zeta. induction l as [|k l IH]; intros acc Ha; cbn [fold_with].
    { split_and!; [lia|lia|done| |done|by left]. by intros k a ?%elem_of_nil. }
    pose proof (Hk k ltac:(by left)) as Hke. destruct (minlen_top k Hke) as [Hml Hmm].
    destruct (edge_ends g0 k W Hke) as [_ Hw%elem_of_dom].
    destruct (Hr (key_w k) Hw) as (r & Er & Hr1). rewrite Er, (rr_minlen _ _ G).
    rewrite i32_wrap_small by (unfold is_i32, i32_min, i32_max, top_rank in *; lia).
    destruct (IH ltac:(intros; apply Hk; by right) ltac:(intros; eapply Hlow; [by right|done..])
      (Z.min acc (r - edge_minlen g0 k))) as (IH1 & IH2 & IH3 & IH4 & IH5); [lia|].
    split_and!; [lia|lia|lia| | |].
    - intros k' a [->|Hk']%elem_of_cons Ha'; [|by apply IH3]. simplify_eq. lia.
    - intros r0 E0 Hr0. apply IH4; [done|]. pose proof (Hlow k r0 r ltac:(by left) E0 Er). lia.
    - destruct IH5 as [E|(k' & b & Hk' & Hb' & E)]; [|right; exists k', b; split_and!; [by right|done..]].
      destruct (Z.min_spec acc (r - edge_minlen g0 k)) as [[_ E']|[_ E']]; rewrite E' in E |- *; [by left|right; exists k, r].
      split_and!; [by left|done|]. lia. }
  destruct (H i32_max) as (H1 & H2 & H3 & H4 & H5); [unfold i32_max; lia|]. specialize (H2 Hne). split_and!; [lia|lia|done|done|].
  destruct H5 as [E|?]; [|done]. destruct l as [|k l]; [done|]. pose proof (Hk k ltac:(by left)) as Hke. destruct (minlen_top k Hke) as [Hml _].
  destruct (edge_ends g0 k W Hke) as [_ Hw%elem_of_dom]. destruct (Hr (key_w k) Hw) as (b & Eb & Hb). exists k, b.
  split_and!; [by left|done|]. pose proof (H3 k b ltac:(by left) Eb). unfold top_rank in *. lia.
Qed.

(** Ranks are such that sources are snug, or at zero. *)
Record sources_ok (g : DagreGraph) (done : list string) : Prop := {
  so_ranked : ranked_ok g;
  so_snug v : v ∈ done → snug g0 g v;
  so_zero v : v ∈@{gset string} dom (g_nodes g0) → in_edges g0 v = [] → node_rank g v = Some 0 ∨ snug g0 g v
}.
(** Only the source itself moves: its targets are no sources. *)
Lemma snug_set g v u r : is_Some (g_nodes g !! v) → in_edges g0 v = [] → u ≠ v → snug g0 g u → snug g0 (set_rank r v g) u.
Proof.
  intros Hv Hin Hu (x & Ex & Hx). exists x. rewrite (node_rank_set _ _ _ _ Hv), decide_False by done. split; [done|].
  destruct Hx as [?|(k & b & Hk & Eb & E)]; [by left|right]. exists k, b. rewrite (node_rank_set _ _ _ _ Hv), decide_False; [done|].
  intros ->. destruct (wf_out g0 W u k Hk) as [_ Hx%(wf_edge_in g0 k W)]. rewrite Hin in Hx. by apply elem_of_nil in Hx.
Qed.
Lemma tighten_ok g l v : sources_ok g l → in_edges g0 v = [] → v ∈@{gset string} dom (g_nodes g0) → sources_ok (tighten v g) (l ++ [v]).
Proof.
  intros [R Hs Hz] Hin Hv. assert (Hsame : snug g0 g v → sources_ok g (l ++ [v])).
  { intros Hsn. split; [done| |done]. intros u [Hu| ->%list_elem_of_singleton]%elem_of_app; [by apply Hs|done]. }
  unfold tighten. rewrite (rr_out_edges _ _ (rk_graph _ R)).
  destruct (decide (out_edges g0 v = [])) as [Ho|Hne].
  { apply Hsame. destruct (Hz v Hv Hin) as [E|?]; [|done]. exists 0. split; [done|by left]. }
  destruct (nearest_rank_spec g v R Hne) as (Hb & Hout & Hlow & (k & b & Hk & Eb & E)).
  assert (Hvn : is_Some (g_nodes g !! v)) by (apply (rr_some _ _ (rk_graph _ R)), elem_of_dom, Hv).
  assert (Hw : v ≠ key_w k).
  { intros Ew. destruct (wf_out g0 W v k Hk) as [_ Hx%(wf_edge_in g0 k W)]. rewrite <- Ew, Hin in Hx. by apply elem_of_nil in Hx. }
  destruct (Z.ltb_spec 0 (nearest_rank g v)) as [Hlt|Hge].
  - assert (R' : ranked_ok (set_rank (nearest_rank g v) v g)) by (apply raise_source; [done..|lia|done]).
    assert (Hsv : snug g0 (set_rank (nearest_rank g v) v g) v).
    { exists (nearest_rank g v). rewrite (node_rank_set _ _ _ _ Hvn), decide_True by done. split; [done|right]. exists k, b.
      by rewrite (node_rank_set _ _ _ _ Hvn), decide_False. }
    split; [done| |].
    + intros u [Hu| ->%list_elem_of_singleton]%elem_of_app; [|done]. destruct (decide (u = v)) as [->|Huv]; [done|]. apply snug_set; auto.
    + intros u Hu Hui. destruct (decide (u = v)) as [->|Huv]; [by right|]. rewrite (node_rank_set _ _ _ _ Hvn), decide_False by done.
      destruct (Hz u Hu Hui) as [?|?]; [by left|right]. by apply snug_set.
  - apply Hsame. destruct (Hz v Hv Hin) as [E0|?]; [|done]. specialize (Hlow 0 E0 ltac:(unfold i32_max; lia)). exists 0. split; [done|right].
    exists k, b. split_and!; [done..|lia].
Qed.
Lemma tighten_all_ok l pre g : sources_ok g pre → (∀ v, v ∈ l → v ∈@{gset string} dom (g_nodes g0) ∧ in_edges g0 v = []) →
  sources_ok (fold_with tighten l g) (pre ++ l).
Proof.
  revert pre g. induction l as [|v l IH]; intros pre g R Hl; cbn [fold_with]; [by rewrite app_nil_r|].
  rewrite cons_middle, app_assoc. destruct (Hl v) as [Hv Hi]; [by left|]. apply IH; [by apply tighten_ok|intros; apply Hl; by right].
Qed.
(** Ranks by longest paths: of a node with predecessors, the length of the
    longest chain to it; of a source, next to a target. *)
Record longest_ok (g : DagreGraph) : Prop := {
  lg_ranked : ranked_ok g;
  lg_snug v : v ∈@{gset string} dom (g_nodes g0) → in_edges g0 v = [] → snug g0 g v
}.
Lemma longest_path_ok : ∃ g, longest_path_run g0 = Done g ∧ longest_ok g.
Proof.
  destruct longest_paths_ok as (s & src & (g & vis & E & Es) & R & Hsrc & Hz).
  unfold longest_path_run. rewrite E, Es, bind_done. eexists. split; [done|].
  destruct (tighten_all_ok src [] (lp_graph s)) as [R' Hs _].
  - split; [done|by intros v ?%elem_of_nil|]. intros v Hv Hi. left. by apply Hz, Hsrc.
  - by intros v ?%Hsrc.
  - split; [done|]. intros v Hv Hi. by apply Hs, Hsrc.
Qed.
Lemma chain_to_rank g v r r' : ranked_ok g → (∀ u, in_edges g0 u = [] → u ∈@{gset string} dom (g_nodes g0) → ∃ x, node_rank g u = Some x ∧ 0 ≤ x) →
  node_rank g v = Some r → chain_to g0 v r' → r' ≤ r.
Proof.
  intros R Hs Er Hc. revert r Er. induction Hc as [v Hv|k x Hk Hc IH]; intros r Er.
  - destruct (Hs v Hv) as (y & Ey & Hy); [|simplify_eq; lia]. apply elem_of_dom, (rr_some _ _ (rk_graph _ R)).
    unfold node_rank, node in Er. destruct (g_nodes g !! v); [by eexists|done].
  - destruct (rk_feasible _ R k) as (a & b & Ea & Eb & Hab); [by rewrite (rr_edges _ _ (rk_graph _ R))|].
    rewrite (rr_minlen _ _ (rk_graph _ R)) in Hab. specialize (IH a Ea). simplify_eq. lia.
Qed.
Lemma longest_exact g v r : ranked_ok g → in_edges g0 v ≠ [] → node_rank g v = Some r → longest_to g0 v r.
Proof.
  intros R Hi Er. split; [by apply (rk_chain _ R)|]. intros r' Hc. apply (chain_to_rank g v r r' R); [|done..].
  intros u _ Hu. destruct (rk_rank _ R u Hu) as (x & Ex & ?). exists x. split; [done|lia].
Qed.
(** Where the longest chain to a node begins, the rank is zero. *)
Lemma chain_begins g v r : longest_ok g → chain_to g0 v r → in_edges g0 v ≠ [] → node_rank g v = Some r →
  ∃ u, node_rank g u = Some 0.
Proof.
  intros [R Hs] Hc. pose proof (rk_graph _ R) as G. induction Hc as [v Hv|k x Hk Hc IH]; intros Hi Er; [done|].
  destruct (rk_feasible _ R k) as (a & b & Ea & Eb & Hab); [by rewrite (rr_edges _ _ G)|]. rewrite (rr_minlen _ _ G) in Hab. simplify_eq.
  destruct (edge_ends g0 k W Hk) as [Hkv%elem_of_dom _]. destruct (rk_rank _ R _ Hkv) as (a' & Ea' & Ha'). simplify_eq.
  destruct (decide (in_edges g0 (key_v k) = [])) as [Hi'|Hi'].
  - exists (key_v k). rewrite Ea. f_equal. pose proof (chain_source_inv g0 _ _ W Hi' Hc). lia.
  - apply IH; [done|]. rewrite Ea. f_equal. destruct (longest_exact g _ a R Hi' Ea) as [_ Hl]. specialize (Hl x Hc). lia.
Qed.
Lemma starts_at_zero g : longest_ok g → nodes g0 ≠ [] → ∃ u, node_rank g u = Some 0.
Proof.
  intros L Hne. pose proof L as [R Hs]. destruct (nodes g0) as [|v l] eqn:E; [done|].
  assert (Hv : v ∈@{gset string} dom (g_nodes g0)) by (apply elem_of_dom, nodes_elem; rewrite E; by left).
  assert (Hnon : ∀ w, w ∈@{gset string} dom (g_nodes g0) → in_edges g0 w ≠ [] → ∃ u, node_rank g u = Some 0).
  { intros w Hw Hi. destruct (rk_rank _ R w Hw) as (r & Er & _). apply (chain_begins g w r L); [by apply (rk_chain _ R)|done..]. }
  destruct (decide (in_edges g0 v = [])) as [Hi|Hi]; [|by apply (Hnon v)].
  destruct (Hs v Hv Hi) as (r & Er & [[_ ->]|(k & b & Hk & _ & _)]); [by exists v|].
  destruct (wf_out g0 W v k Hk) as [_ Hke]. apply (Hnon (key_w k)); [by apply elem_of_dom, (edge_ends g0 k W Hke)|].
  apply (wf_edge_in g0 k W) in Hke. intros E'. rewrite E' in Hke. by apply elem_of_nil in Hke.
Qed.

Lemma min_minlen_spec g v : reranked g0 g → 0 ≤ min_minlen g v.
Proof.
  intros G. unfold min_minlen. rewrite (rr_out_edges _ _ G).
  assert (Hk : ∀ k, k ∈ out_edges g0 v → is_Some (g_edges g0 !! k)) by (intros k Hk; apply (wf_out g0 W v k Hk)).
  revert Hk. generalize (out_edges g0 v). intros l.
  assert (H : 0 ≤ i32_max) by (unfold i32_max; lia). revert H. generalize i32_max.
  induction l as [|k l IH]; intros acc Ha Hk; cbn [fold_with]; [done|].
  apply IH; [|intros; apply Hk; by right]. rewrite (rr_minlen _ _ G).
  pose proof (minlen_range k (Hk k ltac:(by left))). case_match; lia.
Qed.
(** Sources that are next to a target stay. *)
Lemma pull_same g v : ranked_ok g → (in_edges g0 v = [] → snug g0 g v) → pull_source v g = g.
Proof.
  intros R Hsn. pose proof (rk_graph _ R) as G. unfold pull_source, no_in_edges. rewrite (rr_in_edges _ _ G).
  destruct (bool_decide _) eqn:E; [|done]. cbn [negb]. apply bool_decide_eq_true in E.
  rewrite (rr_out_edges _ _ G). destruct (decide (out_edges g0 v = [])) as [?|Hne]; [done|].
  destruct (_ || _); [done|]. destruct (Hsn E) as (r & Er & [[? _]|(k & b & Hk & Eb & Hkb)]); [done|]. rewrite Er.
  destruct (nearest_rank_spec g v R Hne) as (_ & Hout & Hlow & _). specialize (Hout k b Hk Eb).
  assert (Hr : r ≤ i32_max).
  { destruct (wf_out g0 W v k Hk) as [_ Hke]. destruct (minlen_top k Hke) as [? _]. destruct (edge_ends g0 k W Hke) as [_ Hw%elem_of_dom].
    destruct (rk_rank _ R _ Hw) as (b' & Eb' & ?). unfold top_rank in *. simplify_eq. lia. }
  specialize (Hlow r Er Hr). replace (nearest_rank g v - r) with 0 by lia. pose proof (min_minlen_spec g v G).
  rewrite i32_wrap_small by done. destruct (Z.ltb_spec (min_minlen g v) 0); [lia|done].
Qed.
Lemma pull_all_same g : longest_ok g → pull_sources_toward_targets g = g.
Proof.
  intros [R Hs]. unfold pull_sources_toward_targets.
  assert (Hl : ∀ v, v ∈ nodes g → v ∈@{gset string} dom (g_nodes g0)).
  { intros v Hv%nodes_elem. by apply elem_of_dom, (rr_some _ _ (rk_graph _ R)). }
  revert Hl. generalize (nodes g). intros l. induction l as [|v l IH]; intros Hl; cbn [fold_with]; [done|].
  rewrite pull_same; [apply IH; intros; apply Hl; by right|done|]. intros Hi. apply Hs; [apply Hl; by left|done].
Qed.
End feasible.

(** ** Ranks from zero *)

Lemma foldr_min_spec r rs : foldr Z.min r rs ∈ r :: rs ∧ ∀ x, x ∈ r :: rs → foldr Z.min r rs ≤ x.
Proof.
  induction rs as [|y rs [IH1 IH2]]; cbn [foldr].
  { split; [by left|]. intros x [->|?%elem_of_nil]%elem_of_cons; [lia|done]. }
  split.
  - destruct (Z.min_spec y (foldr Z.min r rs)) as [[_ ->]|[_ ->]]; [right; by left|].
    apply elem_of_cons in IH1 as [E|?]; [rewrite E; by left|right; by right].
  - intros x [->|[->|Hx]%elem_of_cons]%elem_of_cons; [|lia|].
    + specialize (IH2 r ltac:(by left)). lia.
    + specialize (IH2 x ltac:(by right)). lia.
Qed.
Lemma ranks_of_elem g r : r ∈ ranks_of g ↔ ∃ v, node_rank g v = Some r.
Proof.
  unfold ranks_of. rewrite list_elem_of_omap. split; [by intros (v & _ & ?); exists v|].
  intros [v Hv]. exists v. split; [|done]. apply nodes_elem. unfold node_rank, node in Hv.
  destruct (g_nodes g !! v); [by eexists|done].
Qed.
Lemma min_rank_spec g v r : node_rank g v = Some r → min_rank g ≤ r ∧ ∃ u, node_rank g u = Some (min_rank g).
Proof.
  intros Hv. unfold min_rank. assert (Hr : r ∈ ranks_of g) by (apply ranks_of_elem; by exists v).
  destruct (ranks_of g) as [|x rs] eqn:E; [by apply elem_of_nil in Hr|].
  destruct (foldr_min_spec x rs) as [H1 H2]. split; [by apply H2|]. apply ranks_of_elem. by rewrite E.
Qed.

Lemma shift_rank_reranked d v g : reranked g (shift_rank d v g).
Proof. unfold shift_rank. destruct (node_rank g v); [apply set_rank_reranked|apply reranked_refl]. Qed.
Lemma shift_rank_lookup d v g x :
  node_rank (shift_rank d v g) x = if decide (v = x) then (λ r, i32_wrap (r + d)) <$> node_rank g x else node_rank g x.
Proof.
  unfold shift_rank. destruct (node_rank g v) as [r|] eqn:E.
  - rewrite node_rank_set by (unfold node_rank, node in E; destruct (g_nodes g !! v); [by eexists|done]).
    destruct (decide (v = x)) as [<-|]; [by rewrite E|done].
  - destruct (decide (v = x)) as [<-|]; [by rewrite E|done].
Qed.
Lemma shift_all d l g : NoDup l →
  reranked g (fold_with (shift_rank d) l g) ∧
  ∀ x, node_rank (fold_with (shift_rank d) l g) x =
    if decide (x ∈ l) then (λ r, i32_wrap (r + d)) <$> node_rank g x else node_rank g x.
Proof.
  revert g. induction l as [|v l IH]; intros g Hnd; cbn [fold_with]; [by split; [apply reranked_refl|]|].
  apply NoDup_cons in Hnd as [Hv Hnd]. destruct (IH (shift_rank d v g) Hnd) as [R Hx]. split.
  - eapply reranked_trans; [apply shift_rank_reranked|done].
  - intros x. rewrite Hx, shift_rank_lookup. destruct (decide (v = x)) as [->|Hne].
    + rewrite decide_False by done. by rewrite decide_True by (by left).
    + apply decide_ext. set_solver.
Qed.

(** The least rank becomes zero and differences stay, where they fit. *)
Lemma normalize_ranks_spec g :
  (∀ v r, node_rank g v = Some r → r - min_rank g ≤ i32_max) →
  reranked g (normalize_ranks g) ∧
  ∀ x, node_rank (normalize_ranks g) x = (λ r, r - min_rank g) <$> node_rank g x.
Proof.
  intros Hfit. unfold normalize_ranks. destruct (Z.eqb_spec (min_rank g) 0) as [E|Hne].
  - split; [apply reranked_refl|]. intros x. rewrite E. destruct (node_rank g x); [|done]. cbn. f_equal. lia.
  - destruct (shift_all (- min_rank g) (nodes g) g (nodes_nodup g)) as [R Hx]. split; [done|]. intros x. rewrite Hx.
    destruct (node_rank g x) as [r|] eqn:Er; [|by destruct (decide _)].
    rewrite decide_True.
    + cbn. f_equal. destruct (min_rank_spec g x r Er) as [? _]. specialize (Hfit x r Er).
      rewrite i32_wrap_small; unfold is_i32, i32_min in *; lia.
    + apply nodes_elem. unfold node_rank, node in Er. destruct (g_nodes g !! x); [by eexists|done].
Qed.
Lemma normalize_ranks_zero g v : (∀ u r, node_rank g u = Some r → 0 ≤ r) → node_rank g v = Some 0 → normalize_ranks g = g.
Proof.
  intros Hr Hv. unfold normalize_ranks. destruct (min_rank_spec g v 0 Hv) as [? [u Hu]]. specialize (Hr _ _ Hu).
  replace (min_rank g =? 0) with true by (symmetry; apply Z.eqb_eq; lia). done.
Qed.
