(* ===== verification/NetworkSimplex.v ===== *)
(** * Ranks by network simplex
      ([src/crates/selkie/src/layout/dagre/rank/{network_simplex,mod}.rs])

    From the longest paths, a spanning tree of tight edges is grown; then tree
    edges with a negative cut value are exchanged for others until none is
    left or the count of iterations is used up.  The walks of [dfs_assign] and
    [has_cycle] stop by themselves at depth 1001, which is their fuel; the two
    walks that list the tree have the number of its nodes.  Hash sets are
    walked in the order [set_order]. *)
From stdpp Require Import strings gmap.
From S2P Require Import Prelude F64 SortBy DagreGraph Rank.

Class SetOrder := {
  set_order : gset string → list string;
  set_order_perm X : set_order X ≡ₚ elements X
}.

(** ** The spanning tree *)

Record TreeEdge := mkTreeEdge { cutvalue : option Z }.
Record TreeNode := mkTreeNode { low : option Z; lim : option Z; tn_parent : option string }.
Record SpanningTree := mkTree {
  t_edges : gmap (string * string) TreeEdge;
  t_nodes : gmap string TreeNode;
  t_root : option string
}.
Definition TreeEdge_default : TreeEdge := mkTreeEdge None.
Definition TreeNode_default : TreeNode := mkTreeNode None None None.
Definition SpanningTree_new : SpanningTree := mkTree ∅ ∅ None.

Definition tree_set_edge (v w : string) (e : TreeEdge) (t : SpanningTree) : SpanningTree :=
  mkTree (<[(w, v) := e]> (<[(v, w) := e]> (t_edges t))) (t_nodes t) (t_root t).
Definition tree_remove_edge (v w : string) (t : SpanningTree) : SpanningTree :=
  mkTree (delete (w, v) (delete (v, w) (t_edges t))) (t_nodes t) (t_root t).
Definition tree_has_edge (t : SpanningTree) (v w : string) : bool := bool_decide (is_Some (t_edges t !! (v, w))).
Definition tree_edge (t : SpanningTree) (v w : string) : option TreeEdge := t_edges t !! (v, w).
(** [if let Some(edge) = tree.edge_mut(v, w) { edge.cutvalue = Some(cv); }]. *)
Definition set_cutvalue (cv : Z) (v w : string) (t : SpanningTree) : SpanningTree :=
  mkTree (alter (λ _, mkTreeEdge (Some cv)) (v, w) (t_edges t)) (t_nodes t) (t_root t).
Definition tree_set_node (v : string) (n : TreeNode) (t : SpanningTree) : SpanningTree :=
  mkTree (t_edges t) (<[v := n]> (t_nodes t)) (t_root t).
Definition tree_node (t : SpanningTree) (v : string) : option TreeNode := t_nodes t !! v.
Definition tree_node_mut (f : TreeNode → TreeNode) (v : string) (t : SpanningTree) : SpanningTree :=
  mkTree (t_edges t) (alter f v (t_nodes t)) (t_root t).
Definition tree_nodes (t : SpanningTree) : list string := sort_strings (map_keys (t_nodes t)).

Definition pair_leb (a b : string * string) : bool :=
  if bool_decide (a.1 = b.1) then string_leb a.2 b.2 else string_leb a.1 b.1.
Definition edges_list (t : SpanningTree) : list (string * string) :=
  (fold_with
     (λ '(v, w) '(result, seen),
        if decide ((w, v) ∈ seen) then (result, seen) else (result ++ [(v, w)], {[(v, w)]} ∪ seen))
     (sort_by pair_leb ((map_to_list (t_edges t)).*1))
     ([], ∅ : gset (string * string))).1.
Definition tree_neighbors (t : SpanningTree) (v : string) : list string :=
  sort_strings (snd <$> filter (λ p, p.1 = v) ((map_to_list (t_edges t)).*1)).

(** The root, or else the first node. *)
Definition root_or_first (t : SpanningTree) (root : option string) : option string :=
  match root with Some r => Some r | None => head (tree_nodes t) end.

(** ** A feasible tree *)

Section trees.
Context `{MapOrder, SetOrder}.

(** One edge of the node [v] that the walk is at. *)
Definition try_edge (g : DagreGraph) (compound_nodes : gset string) (v : string) (k : EdgeKey)
    (s : SpanningTree * gset string * list string) : SpanningTree * gset string * list string :=
  let '(tree, in_tree, stack) := s in
  let w := if bool_decide (key_v k = v) then key_w k else key_v k in
  if decide (w ∈ compound_nodes) then s else
  if decide (w ∈ in_tree) then s else
  if default i32_max (slack g (key_v k) (key_w k)) =? 0
  then (tree_set_edge (key_v k) (key_w k) TreeEdge_default tree, {[w]} ∪ in_tree, w :: stack) else s.
(** The stack's top is its head; every node is pushed at most once. *)
Fixpoint expand_loop (fuel : nat) (g : DagreGraph) (compound_nodes : gset string)
    (tree : SpanningTree) (in_tree : gset string) (stack : list string) : panics (SpanningTree * gset string) :=
  match stack with
  | [] => Done (tree, in_tree)
  | v :: rest =>
      match fuel with
      | O => OutOfFuel
      | S fuel' =>
          let '(tree, in_tree, rest) :=
            fold_with (try_edge g compound_nodes v) (in_edges g v ++ out_edges g v) (tree, in_tree, rest) in
          expand_loop fuel' g compound_nodes tree in_tree rest
      end
  end.
Definition expand_tight_tree (g : DagreGraph) (compound_nodes : gset string) (tree : SpanningTree)
    (in_tree : gset string) : panics (SpanningTree * gset string) :=
  expand_loop (size in_tree + node_count g) g compound_nodes tree in_tree (reverse (set_order in_tree)).

Definition find_min_slack_edge (g : DagreGraph) (compound_nodes in_tree : gset string) : option EdgeKey :=
  (fold_with
     (λ k '(best, best_slack),
        if decide (key_v k ∈ compound_nodes ∨ key_w k ∈ compound_nodes) then (best, best_slack) else
        if bool_decide (key_v k ∈ in_tree ↔ key_w k ∈ in_tree) then (best, best_slack) else
        match slack g (key_v k) (key_w k) with
        | Some s => if s <? best_slack then (Some k, s) else (best, best_slack)
        | None => (best, best_slack)
        end)
     (edges g) (None, i32_max)).1.

(** [rank = rank + delta] for the nodes of the tree. *)
Definition shift_tree (delta : Z) (in_tree : gset string) (g : DagreGraph) : DagreGraph :=
  if delta =? 0 then g else fold_with (shift_rank delta) (set_order in_tree) g.
Fixpoint feasible_loop (fuel : nat) (compound_nodes : gset string) (target : nat)
    (g : DagreGraph) (tree : SpanningTree) (in_tree : gset string) : panics (DagreGraph * SpanningTree) :=
  if (size in_tree <? target)%nat then
    match fuel with
    | O => OutOfFuel
    | S fuel' =>
        '(tree, in_tree) ← expand_tight_tree g compound_nodes tree in_tree;
        if (size in_tree =? target)%nat then Done (g, tree) else
        match find_min_slack_edge g compound_nodes in_tree with
        | None => Done (g, tree)
        | Some k =>
            let s := default 0 (slack g (key_v k) (key_w k)) in
            let delta := if decide (key_v k ∈ in_tree) then s else i32_wrap (- s) in
            feasible_loop fuel' compound_nodes target (shift_tree delta in_tree g) tree in_tree
        end
    end
  else Done (g, tree).
Definition is_simple (compound_nodes : gset string) (v : string) : bool := bool_decide (v ∉ compound_nodes).
Definition feasible_tree (g : DagreGraph) (compound_nodes : gset string) : panics (DagreGraph * SpanningTree) :=
  let simple := filter (λ v, is_simple compound_nodes v = true) (nodes g) in
  let tree := fold_with (λ v, tree_set_node v TreeNode_default) simple SpanningTree_new in
  let target := size (t_nodes tree) in
  match simple with
  | [] => Done (g, tree)
  | first :: _ =>
      feasible_loop (S target) compound_nodes target g (mkTree (t_edges tree) (t_nodes tree) (Some first)) {[first]}
  end.

(** ** Numbers of the tree *)

Definition DFS_LIMIT : Z := 1000.
Definition is_parent (parent : option string) (w : string) : bool := bool_decide (parent = Some w).
Fixpoint dfs_assign (fuel : nat) (v : string) (parent : option string) (s : SpanningTree * Z) :
    panics (SpanningTree * Z) :=
  match fuel with
  | O => OutOfFuel
  | S fuel' =>
      let '(tree, counter) := s in
      if DFS_LIMIT <? counter then panic else
      let low_v := counter + 1 in
      let tree := tree_node_mut (λ n, mkTreeNode (low n) (lim n) parent) v tree in
      '(tree, counter) ←
        fold_outcome
          (λ w s, if is_parent parent w then Done s else dfs_assign fuel' w (Some v) s)
          (tree_neighbors tree v) (tree, low_v);
      let lim_v := i32_wrap (counter + 1) in
      Done (tree_node_mut (λ n, mkTreeNode (Some low_v) (Some lim_v) (tn_parent n)) v tree, lim_v)
  end.
Definition init_low_lim_values (tree : SpanningTree) (root : option string) : panics SpanningTree :=
  match root_or_first tree root with
  | Some r => s ← dfs_assign (Z.to_nat DFS_LIMIT + 2) r None (tree, 0); Done s.1
  | None => Done tree
  end.

Fixpoint dfs_preorder (fuel : nat) (tree : SpanningTree) (v : string) (parent : option string) (out : list string) :
    panics (list string) :=
  match fuel with
  | O => OutOfFuel
  | S fuel' =>
      fold_outcome
        (λ w out, if is_parent parent w then Done out else dfs_preorder fuel' tree w (Some v) out)
        (tree_neighbors tree v) (out ++ [v])
  end.
Fixpoint dfs_postorder (fuel : nat) (tree : SpanningTree) (v : string) (parent : option string) (out : list string) :
    panics (list string) :=
  match fuel with
  | O => OutOfFuel
  | S fuel' =>
      out ← fold_outcome
        (λ w out, if is_parent parent w then Done out else dfs_postorder fuel' tree w (Some v) out)
        (tree_neighbors tree v) out;
      Done (out ++ [v])
  end.
Definition tree_fuel (tree : SpanningTree) : nat := S (size (t_nodes tree)).

(** The weight of an incident edge, and the cut of a tree edge beyond it. *)
Definition calc_cut_value (tree : SpanningTree) (g : DagreGraph) (v w : string) : Z :=
  let v_is_child := match tree_node tree v with Some n => bool_decide (tn_parent n = Some w) | None => false end in
  let child := if v_is_child then v else w in
  let parent := if bool_decide (child = v) then w else v in
  let '(child_is_tail, graph_edge) :=
    match edge g child parent with Some e => (true, Some e) | None => (false, edge g parent child) end in
  let start := match graph_edge with Some e => e_weight e | None => 0 end in
  let incident_edges := remove_dups (sort_by edge_key_leb (in_edges g child ++ out_edges g child)) in
  fold_with
    (λ k cv,
       let is_out_edge := bool_decide (key_v k = child) in
       let other := if is_out_edge then key_w k else key_v k in
       if bool_decide (other = parent) then cv else
       let points_to_head := Bool.eqb is_out_edge child_is_tail in
       let other_weight := match edge_by_key g k with Some e => e_weight e | None => 1 end in
       let cv := i32_wrap (cv + if points_to_head then other_weight else i32_wrap (- other_weight)) in
       if tree_has_edge tree child other then
         let other_cut := default 0 (e ← tree_edge tree child other; cutvalue e) in
         i32_wrap (cv + if points_to_head then i32_wrap (- other_cut) else other_cut)
       else cv)
    incident_edges start.
Definition init_cut_values (tree : SpanningTree) (g : DagreGraph) : panics SpanningTree :=
  match root_or_first tree (t_root tree) with
  | None => Done tree
  | Some root =>
      order ← dfs_postorder (tree_fuel tree) tree root None [];
      Done (fold_with
              (λ v tree,
                 match n ← tree_node tree v; tn_parent n with
                 | None => tree
                 | Some parent =>
                     let cv := calc_cut_value tree g v parent in
                     set_cutvalue cv parent v (set_cutvalue cv v parent tree)
                 end)
              (filter (λ v, v ≠ root) order) tree)
  end.

(** ** Exchanges *)

Definition is_descendant (tree : SpanningTree) (v u : string) : bool :=
  match tree_node tree v, tree_node tree u with
  | Some vn, Some un =>
      match low vn, lim vn, low un, lim un with
      | Some v_low, Some v_lim, Some u_low, Some u_lim => (u_low <=? v_low) && (v_lim <=? u_lim)
      | _, _, _, _ => false
      end
  | _, _ => false
  end.
Definition has_negative_cut (tree : SpanningTree) (p : string * string) : bool :=
  match tree_edge tree p.1 p.2 with
  | Some e => match cutvalue e with Some cv => cv <? 0 | None => false end
  | None => false
  end.
Definition leave_edge (tree : SpanningTree) : option (string * string) :=
  List.find (has_negative_cut tree) (edges_list tree).

Definition same_ends (k : EdgeKey) (p : string * string) : bool :=
  bool_decide (key_v k = p.1 ∧ key_w k = p.2) || bool_decide (key_v k = p.2 ∧ key_w k = p.1).
Definition enter_edge_with_exclusion (tree : SpanningTree) (g : DagreGraph) (leave : string * string)
    (exclude : option (string * string)) : option EdgeKey :=
  let '(v, w) := match edge g leave.1 leave.2 with Some _ => leave | None => (leave.2, leave.1) end in
  v_label ← tree_node tree v;
  w_label ← tree_node tree w;
  let flip := default 0 (lim w_label) <? default 0 (lim v_label) in
  let tail := if flip then w else v in
  (fold_with
     (λ k '(best, best_slack),
        if tree_has_edge tree (key_v k) (key_w k) then (best, best_slack) else
        if match exclude with Some ex => same_ends k ex | None => false end then (best, best_slack) else
        let v_in_tail := is_descendant tree (key_v k) tail in
        let w_in_tail := is_descendant tree (key_w k) tail in
        if Bool.eqb flip v_in_tail && negb (Bool.eqb flip w_in_tail) then
          match slack g (key_v k) (key_w k) with
          | Some s => if s <? best_slack then (Some k, s) else (best, best_slack)
          | None => (best, best_slack)
          end
        else (best, best_slack))
     (edges g) (None, i32_max)).1.
Definition enter_edge (tree : SpanningTree) (g : DagreGraph) (leave : string * string) : option EdgeKey :=
  enter_edge_with_exclusion tree g leave None.

(** [Some true] in the answer: a cycle; the set of visited nodes goes on. *)
Fixpoint dfs_cycle (fuel : nat) (tree : SpanningTree) (v : string) (parent : option string)
    (visited : gset string) (depth : Z) : panics (bool * gset string) :=
  match fuel with
  | O => OutOfFuel
  | S fuel' =>
      if DFS_LIMIT <? depth then Done (true, visited) else
      if decide (v ∈ visited) then Done (true, visited) else
      fold_outcome
        (λ w '(found, visited),
           if (found : bool) then Done (true, visited) else
           if is_parent parent w then Done (false, visited)
           else dfs_cycle fuel' tree w (Some v) visited (depth + 1))
        (tree_neighbors tree v) (false, {[v]} ∪ visited)
  end.
Definition has_cycle (tree : SpanningTree) : panics bool :=
  match tree_nodes tree with
  | [] => Done false
  | first :: _ => r ← dfs_cycle (Z.to_nat DFS_LIMIT + 2) tree first None ∅ 0; Done r.1
  end.

Definition update_ranks (tree : SpanningTree) (g : DagreGraph) : panics DagreGraph :=
  match root_or_first tree (t_root tree) with
  | None => Done g
  | Some root =>
      let g := match node g root with
               | Some n => if bool_decide (n_rank n = None) then set_rank 0 root g else g
               | None => g
               end in
      ordered ← dfs_preorder (tree_fuel tree) tree root None [];
      Done (fold_with
              (λ v g,
                 match n ← tree_node tree v; tn_parent n with
                 | None => g
                 | Some parent =>
                     let delta :=
                       match edge g v parent with
                       | Some e => Some (i32_wrap (- e_minlen e))
                       | None => match edge g parent v with Some e => Some (e_minlen e) | None => None end
                       end in
                     match delta with
                     | None => g
                     | Some d => set_rank (i32_wrap (default 0 (node_rank g parent) + d)) v g
                     end
                 end)
              (tail ordered) g)
  end.

Definition neutral (leave : string * string) (tree : SpanningTree) : SpanningTree :=
  set_cutvalue 0 leave.2 leave.1 (set_cutvalue 0 leave.1 leave.2 tree).
Definition exchange_edges (tree : SpanningTree) (g : DagreGraph) (leave : string * string) (enter : EdgeKey) :
    panics (bool * SpanningTree * DagreGraph) :=
  let tree := tree_remove_edge leave.1 leave.2 tree in
  let tree := tree_set_edge (key_v enter) (key_w enter) TreeEdge_default tree in
  cyclic ← has_cycle tree;
  if (cyclic : bool) then
    let tree := tree_remove_edge (key_v enter) (key_w enter) tree in
    let tree := tree_set_edge leave.1 leave.2 TreeEdge_default tree in
    tree ← init_low_lim_values tree (t_root tree);
    tree ← init_cut_values tree g;
    Done (false, neutral leave tree, g)
  else
    tree ← init_low_lim_values tree (t_root tree);
    tree ← init_cut_values tree g;
    g ← update_ranks tree g;
    Done (true, tree, g).

(** ** The iteration *)

Abbreviation exchange_counts := (gmap ((string * string) * (string * string)) nat).
(** [if a < b { (a, b) } else { (b, a) }]. *)
Definition ordered_pair (a b : string) : string * string :=
  if string_leb a b && negb (bool_decide (a = b)) then (a, b) else (b, a).

(** The attempts to replace one edge; [excluded] counts and holds the failures,
    the latest first. *)
Fixpoint attempts (fuel : nat) (tree : SpanningTree) (g : DagreGraph) (counts : exchange_counts)
    (leave : string * string) (excluded : list (string * string)) :
    panics (bool * SpanningTree * DagreGraph * exchange_counts) :=
  match fuel with
  | O => OutOfFuel
  | S fuel' =>
      match enter_edge_with_exclusion tree g leave (head excluded) with
      | None => Done (false, tree, g, counts)
      | Some enter =>
          let exchange := (ordered_pair leave.1 leave.2, ordered_pair (key_v enter) (key_w enter)) in
          let count := S (default 0%nat (counts !! exchange)) in
          let counts := <[exchange := count]> counts in
          if (2 <? count)%nat then Done (false, tree, g, counts) else
          '(done, tree, g) ← exchange_edges tree g leave enter;
          if (done : bool) then Done (true, tree, g, counts) else
          let excluded := (key_v enter, key_w enter) :: excluded in
          if (10 <? length excluded)%nat then Done (false, tree, g, counts)
          else attempts fuel' tree g counts leave excluded
      end
  end.
(** [while let Some(leave) = leave_edge(&tree)], [left] iterations of
    [max_iterations] to go. *)
Fixpoint simplex_loop (left : nat) (tree : SpanningTree) (g : DagreGraph) (counts : exchange_counts) : panics DagreGraph :=
  match leave_edge tree with
  | None => Done g
  | Some leave =>
      match left with
      | O => Done g
      | S left' =>
          '(found, tree, g, counts) ← attempts 11 tree g counts leave [];
          simplex_loop left' (if (found : bool) then tree else neutral leave tree) g counts
      end
  end.
Definition compound_nodes (g : DagreGraph) : gset string :=
  list_to_set (filter (λ v, children g v ≠ []) (nodes g)).
Definition network_simplex_run (g : DagreGraph) : panics DagreGraph :=
  let compound := compound_nodes g in
  g ← longest_path_run g;
  '(g, tree) ← feasible_tree g compound;
  tree ← init_low_lim_values tree (t_root tree);
  tree ← init_cut_values tree g;
  simplex_loop (node_count g * edge_count g + 1) tree g ∅.

(** ** The choice of ranker *)

Inductive Ranker := NetworkSimplex | TightTree | LongestPath.
Definition assign_ranks (g : DagreGraph) (method : Ranker) : panics DagreGraph :=
  g ← match method with
      | LongestPath => g ← longest_path_run g; Done (pull_sources_toward_targets g)
      | TightTree => longest_path_run g
      | NetworkSimplex => network_simplex_run g
      end;
  Done (normalize_ranks g).
End trees.
