(* ===== verification/SimplexFacts.v ===== *)
(** * The feasible tree, and what the choice of ranker promises

    Growing the tree of tight edges ends, and leaves every edge of the tree
    with no slack: moving the whole tree does not change the slack inside it,
    and makes the edge that was chosen tight.  [assign_ranks] by longest paths
    is feasible from rank zero on graphs without shortcuts; with a shortcut no
    method is. *)
From stdpp Require Import strings gmap relations.
From S2P Require Import Prelude F64 SortBy DagreGraph DagreGraphFacts FasDfs FasGreedy Acyclic AcyclicFacts CrossCount Rank RankFacts RankFeasible NetworkSimplex.

Section tight.
#[local] Set Default Proof Using "All".
Context `{MO : MapOrder, SO : SetOrder}.

(** ** Slack *)

Lemma slack_some g v w s : slack g v w = Some s → ∃ a b, node_rank g v = Some a ∧ node_rank g w = Some b ∧
  s = i32_wrap (b - a - match edge g v w with Some l => e_minlen l | None => 1 end).
Proof.
  unfold slack. destruct (node_rank g v) as [a|]; cbn; [|done]. destruct (node_rank g w) as [b|]; cbn; [|done].
  intros [= <-]. exists a, b. split_and!; [done..|]. apply eqm_wrap. by rewrite wrap_eqm.
Qed.
Lemma slack_ranked g v w a b : node_rank g v = Some a → node_rank g w = Some b →
  slack g v w = Some (i32_wrap (b - a - match edge g v w with Some l => e_minlen l | None => 1 end)).
Proof.
  intros Ha Hb. destruct (slack g v w) as [s|] eqn:E; [|unfold slack in E; by rewrite Ha, Hb in E].
  destruct (slack_some g v w s E) as (a' & b' & ? & ? & ->). by simplify_eq.
Qed.
Lemma edge_reranked g g' v w : reranked g g' → edge g' v w = edge g v w.
Proof. intros R. unfold edge, edges, edge_by_key. by rewrite (rr_edges _ _ R). Qed.

(** ** Moving the tree *)

Lemma shift_tree_spec d (X : gset string) g :
  reranked g (shift_tree d X g) ∧
  ∀ x r, node_rank g x = Some r →
    ∃ r', node_rank (shift_tree d X g) x = Some r' ∧ eqm r' (if decide (x ∈ X) then r + d else r).
Proof.
  unfold shift_tree. destruct (Z.eqb_spec d 0) as [->|Hne].
  { split; [apply reranked_refl|]. intros x r Hr. exists r. split; [done|]. destruct (decide _); [|done]. by rewrite Z.add_0_r. }
  assert (Hnd : NoDup (set_order X)) by (rewrite set_order_perm; apply NoDup_elements).
  destruct (shift_all d (set_order X) g Hnd) as [R Hx]. split; [done|]. intros x r Hr. rewrite Hx, Hr.
  assert (Hin : x ∈ set_order X ↔ x ∈ X) by (rewrite set_order_perm; apply elem_of_elements).
  destruct (decide (x ∈ set_order X)) as [Hi|Hi]; rewrite Hin in Hi.
  - eexists. split; [done|]. rewrite decide_True by done. apply wrap_eqm.
  - exists r. split; [done|]. by rewrite decide_False.
Qed.

(** Between two nodes of the tree the slack stays. *)
Lemma shift_inside d X g v w s : v ∈ X → w ∈ X → slack g v w = Some s → slack (shift_tree d X g) v w = Some s.
Proof.
  intros Hv Hw E. destruct (slack_some g v w s E) as (a & b & Ha & Hb & ->).
  destruct (shift_tree_spec d X g) as [R Hx].
  destruct (Hx v a Ha) as (a' & Ea & Ma). destruct (Hx w b Hb) as (b' & Eb & Mb).
  rewrite decide_True in Ma by done. rewrite decide_True in Mb by done.
  rewrite (slack_ranked _ v w a' b' Ea Eb), (edge_reranked _ _ v w R). f_equal. apply eqm_wrap.
  rewrite Mb, Ma. by replace (b + d - (a + d)) with (b - a) by lia.
Qed.
(** An edge out of the tree, or into it, becomes tight. *)
Lemma shift_across X g v w s : slack g v w = Some s → (v ∈ X ↔ w ∉ X) →
  slack (shift_tree (if decide (v ∈ X) then s else i32_wrap (- s)) X g) v w = Some 0.
Proof.
  intros E Hx. destruct (slack_some g v w s E) as (a & b & Ha & Hb & Es).
  set (ml := match edge g v w with Some l => e_minlen l | None => 1 end) in *.
  set (d := if decide (v ∈ X) then s else i32_wrap (- s)).
  destruct (shift_tree_spec d X g) as [R Hs].
  destruct (Hs v a Ha) as (a' & Ea & Ma). destruct (Hs w b Hb) as (b' & Eb & Mb).
  rewrite (slack_ranked _ v w a' b' Ea Eb), (edge_reranked _ _ v w R). fold ml. f_equal.
  change 0 with (i32_wrap 0). apply eqm_wrap.
  assert (Ms : eqm s (b - a - ml)) by (rewrite Es; apply wrap_eqm).
  unfold d in Ma, Mb. destruct (decide (v ∈ X)) as [Hv|Hv].
  - rewrite decide_False in Mb by tauto. rewrite Mb, Ma, Ms.
    by replace (b - (a + (b - a - ml)) - ml) with 0 by lia.
  - rewrite decide_True in Mb by (destruct (decide (w ∈ X)); tauto). rewrite Mb, Ma, wrap_eqm.
    rewrite <- (Z.sub_0_l s), Ms. by replace (b + (0 - (b - a - ml)) - a - ml) with 0 by lia.
Qed.

(** ** Growing the tree *)

(** Two nodes with an edge of the tree between them. *)
Definition tree_adj (t : SpanningTree) (v w : string) : Prop := is_Some (t_edges t !! (v, w)).
(** An edge of the graph between two nodes, with no slack. *)
Definition tight_between (g0 g : DagreGraph) (v w : string) : Prop :=
  ∃ k, is_Some (g_edges g0 !! k) ∧ slack g (key_v k) (key_w k) = Some 0 ∧
    ((key_v k = v ∧ key_w k = w) ∨ (key_v k = w ∧ key_w k = v)).

(** The tree begins with the simple nodes, and without edges. *)
Lemma tree_init l : 
  let t := fold_with (λ v, tree_set_node v TreeNode_default) l SpanningTree_new in
  t_edges t = ∅ ∧ dom (t_nodes t) =@{gset string} list_to_set l.
Proof.
  cbn zeta.
  assert (H : ∀ l t, t_edges (fold_with (λ v, tree_set_node v TreeNode_default) l t) = t_edges t ∧
    dom (t_nodes (fold_with (λ v, tree_set_node v TreeNode_default) l t)) =@{gset string} list_to_set l ∪ dom (t_nodes t)).
  { clear l. induction l as [|v l IH]; intros t; cbn [fold_with list_to_set]; [split; [done|set_solver]|].
    destruct (IH (tree_set_node v TreeNode_default t)) as [-> ->]. split; [done|]. cbn. rewrite dom_insert_L. set_solver. }
  destruct (H l SpanningTree_new) as [-> ->]. split; [done|]. cbn. rewrite dom_empty_L. set_solver.
Qed.
Section grow.
Context (g0 : DagreGraph) (W : wf g0) (C : gset string) (root : string) (M : gmap string TreeNode).
Let N : gset string := dom (g_nodes g0).

(** A tree of tight edges with the nodes [X], all of which its root is joined
    with; every edge is stored in both directions. *)
Record tree_tight (g : DagreGraph) (t : SpanningTree) (X : gset string) : Prop := {
  tt_edge v w : tree_adj t v w → v ∈ X ∧ w ∈ X ∧ tight_between g0 g v w;
  tt_sym v w : tree_adj t v w → tree_adj t w v;
  tt_reach x : x ∈ X → rtc (tree_adj t) root x;
  tt_size : size (t_edges t) = (2 * pred (size X))%nat;
  tt_rooted : root ∈ X;
  tt_nodes : t_nodes t = M ∧ t_root t = Some root
}.
Definition other_end (v : string) (k : EdgeKey) : string := if bool_decide (key_v k = v) then key_w k else key_v k.
(** A processed node has no tight edge out of the tree left. *)
Definition done_with (g : DagreGraph) (X : gset string) (v : string) (k : EdgeKey) : Prop :=
  other_end v k ∈ C ∨ other_end v k ∈ X ∨ slack g (key_v k) (key_w k) ≠ Some 0.
Definition incident (v : string) : list EdgeKey := in_edges g0 v ++ out_edges g0 v.

Lemma incident_edge v k : k ∈ incident v → is_Some (g_edges g0 !! k) ∧ (key_v k = v ∨ key_w k = v).
Proof. intros [[? ?]%(wf_in g0 W)|[? ?]%(wf_out g0 W)]%elem_of_app; tauto. Qed.
Lemma other_end_cases v k : k ∈ incident v →
  (key_v k = v ∧ key_w k = other_end v k) ∨ (key_w k = v ∧ key_v k = other_end v k).
Proof.
  intros [_ H]%incident_edge. unfold other_end. destruct (decide (key_v k = v)) as [E|E].
  - left. split; [done|]. by rewrite bool_decide_eq_true_2.
  - right. rewrite bool_decide_eq_false_2 by done. naive_solver.
Qed.

Record grow_inv (g : DagreGraph) (t : SpanningTree) (X : gset string) (stack : list string) : Prop := {
  gr_tight : tree_tight g t X;
  gr_nodes : X ⊆ N;
  gr_simple x : x ∈ X → x ∉ C;
  gr_stack x : x ∈ stack → x ∈ X;
  gr_done v k : v ∈ X → v ∉ stack → k ∈ incident v → done_with g X v k
}.
(** While the edges of [v] are walked, of which [pre] have been. *)
Record walk_inv (g : DagreGraph) (v : string) (X0 : gset string) (pre : list EdgeKey)
    (t : SpanningTree) (X : gset string) (stack : list string) : Prop := {
  wk_tight : tree_tight g t X;
  wk_nodes : X ⊆ N;
  wk_simple x : x ∈ X → x ∉ C;
  wk_stack x : x ∈ stack → x ∈ X;
  wk_mono : X0 ⊆ X;
  wk_v : v ∈ X;
  wk_done u k : u ∈ X → u ∉ stack → u ≠ v → k ∈ incident u → done_with g X u k;
  wk_pre k : k ∈ pre → done_with g X v k
}.

Lemma done_mono g X X' v k : X ⊆ X' → done_with g X v k → done_with g X' v k.
Proof. unfold done_with. set_solver. Qed.

Lemma adj_set_edge t a b e v w : tree_adj (tree_set_edge a b e t) v w ↔ (v = b ∧ w = a) ∨ (v = a ∧ w = b) ∨ tree_adj t v w.
Proof.
  unfold tree_adj, tree_set_edge. cbn [t_edges]. rewrite !lookup_insert_is_Some'. split.
  - intros [[= -> ->]|[[= -> ->]|?]]; auto.
  - intros [[-> ->]|[[-> ->]|?]]; auto.
Qed.
Lemma tree_tight_add g t X v w k : tree_tight g t X → v ∈ X → w ∉ X → is_Some (g_edges g0 !! k) →
  slack g (key_v k) (key_w k) = Some 0 → (key_v k = v ∧ key_w k = w) ∨ (key_w k = v ∧ key_v k = w) →
  tree_tight g (tree_set_edge (key_v k) (key_w k) TreeEdge_default t) ({[w]} ∪ X).
Proof.
  intros [Te Ts Tr Tz Tx Tn] Hv Hw Hk S Hends. set (t' := tree_set_edge _ _ _ t).
  assert (Hadj : ∀ x y, tree_adj t' x y ↔ (x = v ∧ y = w) ∨ (x = w ∧ y = v) ∨ tree_adj t x y).
  { intros x y. unfold t'. rewrite adj_set_edge. destruct Hends as [[-> ->]|[-> ->]]; tauto. }
  assert (Hb : tight_between g0 g v w ∧ tight_between g0 g w v).
  { split; exists k; (split; [done|]); (split; [done|]); tauto. }
  split; [| | | |set_solver|done].
  - intros x y [[-> ->]|[[-> ->]|Hxy]]%Hadj; [split_and!; [set_solver|set_solver|apply Hb]..|].
    destruct (Te x y Hxy) as (? & ? & ?). split_and!; [set_solver|set_solver|done].
  - intros x y. rewrite !Hadj. intros [[-> ->]|[[-> ->]|Hxy%Ts]]; tauto.
  - assert (Hold : ∀ x, x ∈ X → rtc (tree_adj t') root x).
    { intros x Hx. eapply rtc_subrel; [|by apply Tr]. intros a b Hab. apply Hadj. tauto. }
    intros x [->%elem_of_singleton|Hx]%elem_of_union; [|by apply Hold]. eapply rtc_r; [by apply (Hold v)|]. apply Hadj. tauto.
  - assert (Hfresh : ∀ a, t_edges t !! (w, a) = None ∧ t_edges t !! (a, w) = None).
    { intros a. split; apply eq_None_not_Some; intros Ha; apply Te in Ha as (? & ? & _); done. }
    assert (Hvw : v ≠ w) by (intros ->; done).
    assert (Hsz : size (t_edges t') = (2 + size (t_edges t))%nat).
    { unfold t', tree_set_edge. cbn [t_edges]. destruct Hends as [[-> ->]|[-> ->]].
      - rewrite map_size_insert_None, map_size_insert_None; [done|apply Hfresh|]. rewrite lookup_insert_ne by congruence. apply Hfresh.
      - rewrite map_size_insert_None, map_size_insert_None; [done|apply Hfresh|]. rewrite lookup_insert_ne by congruence. apply Hfresh. }
    rewrite Hsz, Tz, size_union, size_singleton by set_solver.
    assert (size X ≠ 0%nat); [|lia]. intros E%size_empty_inv. set_solver.
Qed.
Lemma walk_step g v X0 pre k t X st : k ∈ incident v → walk_inv g v X0 pre t X st →
  let '(t', X', st') := try_edge g C v k (t, X, st) in
  walk_inv g v X0 (pre ++ [k]) t' X' st' ∧ (length st' + size (N ∖ X') = length st + size (N ∖ X))%nat.
Proof.
  intros Hk [T Hn Hs Hst Hm Hv Hd Hp]. unfold try_edge. fold (other_end v k). set (w := other_end v k).
  assert (Hskip : done_with g X v k → walk_inv g v X0 (pre ++ [k]) t X st).
  { intros Hdk. split; try done. intros k' [?| ->%list_elem_of_singleton]%elem_of_app; [by apply Hp|done]. }
  destruct (decide (w ∈ C)) as [Hc|Hc]; [split; [apply Hskip; by left|done]|].
  destruct (decide (w ∈ X)) as [Hx|Hx]; [split; [apply Hskip; by right; left|done]|].
  destruct (Z.eqb_spec (default i32_max (slack g (key_v k) (key_w k))) 0) as [E|E].
  - assert (Hsl : slack g (key_v k) (key_w k) = Some 0).
    { destruct (slack g (key_v k) (key_w k)); cbn in E; [by f_equal|done]. }
    assert (HwN : w ∈ N).
    { destruct (incident_edge v k Hk) as [Hke _]. destruct (edge_ends g0 k W Hke) as [Ha Hb].
      apply elem_of_dom. destruct (other_end_cases v k Hk) as [[_ E1]|[_ E1]]; fold w in E1; by rewrite <- E1. }
    split; [split|].
    + destruct (incident_edge v k Hk) as [Hke _]. apply (tree_tight_add g t X v w k); [done..|]. apply other_end_cases, Hk.
    + set_solver.
    + intros x [->%elem_of_singleton|?]%elem_of_union; [done|by apply Hs].
    + intros x [->|?]%elem_of_cons; [set_solver|]. apply elem_of_union_r. by apply Hst.
    + set_solver.
    + set_solver.
    + intros u k' Hu Hnu Hne Hk'. apply (done_mono g X); [set_solver|]. apply Hd; [set_solver|set_solver|done|done].
    + intros k' [Hk'| ->%list_elem_of_singleton]%elem_of_app; [apply (done_mono g X); [set_solver|by apply Hp]|].
      right; left. fold w. set_solver.
    + cbn [length]. assert (Esz : (size (N ∖ X) = S (size (N ∖ ({[w]} ∪ X))))%nat); [|lia].
      replace (N ∖ X) with ({[w]} ∪ N ∖ ({[w]} ∪ X)) by (apply set_eq; intros x; destruct (decide (x = w)); set_solver).
      rewrite size_union, size_singleton by set_solver. done.
  - split; [|done]. apply Hskip. right; right. intros Hsl. by rewrite Hsl in E.
Qed.
Lemma walk_all g v X0 l pre t X st : (∀ k, k ∈ l → k ∈ incident v) → walk_inv g v X0 pre t X st →
  let '(t', X', st') := fold_with (try_edge g C v) l (t, X, st) in
  walk_inv g v X0 (pre ++ l) t' X' st' ∧ (length st' + size (N ∖ X') = length st + size (N ∖ X))%nat.
Proof.
  revert pre t X st. induction l as [|k l IH]; intros pre t X st Hl I; cbn [fold_with]; [by rewrite app_nil_r|].
  pose proof (walk_step g v X0 pre k t X st ltac:(apply Hl; by left) I) as Hstep.
  destruct (try_edge g C v k (t, X, st)) as [[t1 X1] st1]. destruct Hstep as [I1 E1].
  pose proof (IH (pre ++ [k]) t1 X1 st1 ltac:(intros; apply Hl; by right) I1) as Hrest.
  destruct (fold_with _ l _) as [[t2 X2] st2]. destruct Hrest as [I2 E2]. rewrite <- app_assoc in I2. split; [done|lia].
Qed.

Lemma expand_loop_spec fuel g t X st : reranked g0 g → grow_inv g t X st →
  (length st + size (N ∖ X) ≤ fuel)%nat →
  ∃ t' X', expand_loop fuel g C t X st = Done (t', X') ∧ grow_inv g t' X' [] ∧ X ⊆ X'.
Proof.
  intros G. revert t X st. induction fuel as [|fuel IH]; intros t X st I Hf; destruct st as [|v st]; cbn [expand_loop];
    try (by exists t, X); [cbn in Hf; lia|].
  assert (Einc : in_edges g v ++ out_edges g v = incident v).
  { unfold incident. by rewrite (rr_in_edges _ _ G), (rr_out_edges _ _ G). }
  rewrite Einc. destruct I as [T Hn Hs Hst Hd].
  pose proof (walk_all g v X (incident v) [] t X st) as Hw.
  destruct (fold_with _ _ _) as [[t1 X1] st1]. destruct Hw as [[T1 N1 S1 St1 M1 V1 D1 P1] E1]; [done| |].
  { split; try done.
    - intros x Hx. apply Hst. by right.
    - apply Hst. by left.
    - intros u k Hu Hnu Hne Hk. apply Hd; [done| |done]. set_solver.
    - by intros k ?%elem_of_nil. }
  destruct (IH t1 X1 st1) as (t2 & X2 & E2 & I2 & M2); [|cbn [length] in Hf; lia|].
  - split; try done. intros u k Hu Hnu Hk. destruct (decide (u = v)) as [->|Hne]; [by apply P1|by apply D1].
  - exists t2, X2. split_and!; [done..|set_solver].
Qed.
Lemma expand_spec g t X : reranked g0 g → tree_tight g t X → X ⊆ N → (∀ x, x ∈ X → x ∉ C) →
  ∃ t' X', expand_tight_tree g C t X = Done (t', X') ∧ grow_inv g t' X' [] ∧ X ⊆ X'.
Proof.
  intros G T Hn Hs. apply expand_loop_spec; [done| |].
  - assert (Hin : ∀ x, x ∈ reverse (set_order X) ↔ x ∈ X).
    { intros x. rewrite elem_of_reverse, set_order_perm. apply elem_of_elements. }
    split; try done; [intros x; by rewrite Hin|]. intros v k Hv Hnv. by rewrite Hin in Hnv.
  - rewrite length_reverse, set_order_perm. change (length (elements X)) with (size X).
    rewrite (rr_node_count _ _ G). unfold node_count. rewrite <- size_dom. fold N.
    assert (size (N ∖ X) ≤ size N)%nat by (apply subseteq_size; set_solver). lia.
Qed.

(** ** Growing and moving in turns *)

Definition crosses (X : gset string) (k : EdgeKey) : Prop :=
  key_v k ∉ C ∧ key_w k ∉ C ∧ (key_v k ∈ X ↔ key_w k ∉ X).
Lemma crosses_dec X k :
  crosses X k ↔ ¬ (key_v k ∈ C ∨ key_w k ∈ C) ∧ ¬ (key_v k ∈ X ↔ key_w k ∈ X).
Proof. unfold crosses. destruct (decide (key_v k ∈ X)), (decide (key_w k ∈ X)); tauto. Qed.

Lemma find_min_slack_spec g X :
  match find_min_slack_edge g C X with
  | Some k => is_Some (g_edges g !! k) ∧ crosses X k ∧ is_Some (slack g (key_v k) (key_w k))
  | None => ∀ k s, is_Some (g_edges g !! k) → crosses X k → slack g (key_v k) (key_w k) = Some s → i32_max ≤ s
  end.
Proof.
  unfold find_min_slack_edge.
  assert (Hl : ∀ k, k ∈ edges g ↔ is_Some (g_edges g !! k)) by apply edges_elem.
  assert (H : ∀ l b bs, (∀ k, b = Some k → is_Some (g_edges g !! k) ∧ crosses X k ∧ is_Some (slack g (key_v k) (key_w k))) →
    (∀ k, k ∈ l → is_Some (g_edges g !! k)) → (b = None → bs = i32_max) →
    match (fold_with (λ k '(best, best_slack),
        if decide (key_v k ∈ C ∨ key_w k ∈ C) then (best, best_slack) else
        if bool_decide (key_v k ∈ X ↔ key_w k ∈ X) then (best, best_slack) else
        match slack g (key_v k) (key_w k) with
        | Some s => if s <? best_slack then (Some k, s) else (best, best_slack)
        | None => (best, best_slack) end) l (b, bs)).1 with
    | Some k => is_Some (g_edges g !! k) ∧ crosses X k ∧ is_Some (slack g (key_v k) (key_w k))
    | None => b = None ∧ ∀ k s, k ∈ l → crosses X k → slack g (key_v k) (key_w k) = Some s → i32_max ≤ s
    end).
  { induction l as [|k l IH]; intros b bs Hb Hk Hbs; cbn [fold_with].
    { destruct b as [k|]; [by apply Hb|]. split; [done|]. by intros k s ?%elem_of_nil. }
    assert (Hk' : ∀ k, k ∈ l → is_Some (g_edges g !! k)) by (intros; apply Hk; by right).
    assert (Hkeep : (∀ s, crosses X k → slack g (key_v k) (key_w k) = Some s → bs ≤ s) →
      match (fold_with (λ k '(best, best_slack),
        if decide (key_v k ∈ C ∨ key_w k ∈ C) then (best, best_slack) else
        if bool_decide (key_v k ∈ X ↔ key_w k ∈ X) then (best, best_slack) else
        match slack g (key_v k) (key_w k) with
        | Some s => if s <? best_slack then (Some k, s) else (best, best_slack)
        | None => (best, best_slack) end) l (b, bs)).1 with
      | Some k => is_Some (g_edges g !! k) ∧ crosses X k ∧ is_Some (slack g (key_v k) (key_w k))
      | None => b = None ∧ ∀ k' s, k' ∈ k :: l → crosses X k' → slack g (key_v k') (key_w k') = Some s → i32_max ≤ s
      end).
    { intros Hc. pose proof (IH b bs Hb Hk' Hbs) as H. destruct (fold_with _ l _).1; [done|].
      destruct H as [-> H]. split; [done|]. intros k' s [->|?]%elem_of_cons; [|by apply H].
      rewrite <- (Hbs eq_refl). apply Hc. }
    destruct (decide (key_v k ∈ C ∨ key_w k ∈ C)) as [Hc|Hc].
    { apply Hkeep. intros s Hx. apply crosses_dec in Hx. tauto. }
    destruct (bool_decide (key_v k ∈ X ↔ key_w k ∈ X)) eqn:Ex.
    { apply bool_decide_eq_true in Ex. apply Hkeep. intros s Hx. apply crosses_dec in Hx. tauto. }
    apply bool_decide_eq_false in Ex.
    destruct (slack g (key_v k) (key_w k)) as [s|] eqn:Es; [|by apply Hkeep].
    destruct (Z.ltb_spec s bs); [|apply Hkeep; intros s' _ [= <-]; done].
    assert (Hnew : ∀ k0, Some k = Some k0 → is_Some (g_edges g !! k0) ∧ crosses X k0 ∧ is_Some (slack g (key_v k0) (key_w k0))).
    { intros k0 [= <-]. split_and!; [apply Hk; by left|by apply crosses_dec|rewrite Es; by eexists]. }
    clear Hkeep. pose proof (IH (Some k) s Hnew Hk' ltac:(done)) as H1. destruct (fold_with _ l _).1; [done|].
    by destruct H1. }
  pose proof (H (edges g) None i32_max) as Hf. destruct (fold_with _ _ _).1 as [k|].
  - apply Hf; [done|by intros k0 ?%Hl|done].
  - destruct Hf as [_ Hf]; [done|by intros k0 ?%Hl|done|]. intros k s Hk. apply Hf. by apply Hl.
Qed.

Definition tight_crossing (g : DagreGraph) (X : gset string) : Prop :=
  ∃ k, is_Some (g_edges g0 !! k) ∧ crosses X k ∧ slack g (key_v k) (key_w k) = Some 0.
Lemma crossing_grows g t X X' : tight_crossing g X → grow_inv g t X' [] → X ⊆ X' → (size X < size X')%nat.
Proof.
  intros (k & Hk & (Hv & Hw & Hx) & Hs) I Hsub. apply subset_size. split; [done|]. intros Hback.
  destruct (decide (key_v k ∈ X)) as [Hvx|Hvx].
  - assert (Hinc : k ∈ incident (key_v k)) by (apply elem_of_app; right; by apply wf_edge).
    destruct (gr_done _ _ _ _ I (key_v k) k ltac:(set_solver) ltac:(set_solver) Hinc) as [H|[H|H]];
      unfold other_end in *; rewrite ?bool_decide_eq_true_2 in H by done; [done|set_solver|done].
  - assert (Hwx : key_w k ∈ X) by (destruct (decide (key_w k ∈ X)); tauto).
    assert (Hinc : k ∈ incident (key_w k)) by (apply elem_of_app; left; by apply wf_edge_in).
    assert (Hne : key_v k ≠ key_w k) by congruence.
    destruct (gr_done _ _ _ _ I (key_w k) k ltac:(set_solver) ltac:(set_solver) Hinc) as [H|[H|H]];
      unfold other_end in *; rewrite ?bool_decide_eq_false_2 in H by done; [done|set_solver|done].
Qed.

Lemma tight_shift d g t X : tree_tight g t X → tree_tight (shift_tree d X g) t X.
Proof.
  intros [Te Ts Tr Tz Tx Tn]. split; [|done..]. intros v w Hvw. destruct (Te v w Hvw) as (Hv & Hw & (k & Hk & Hs & Hends)).
  split_and!; [done..|]. exists k. split_and!; [done| |done]. destruct Hends as [[<- <-]|[<- <-]]; by apply shift_inside.
Qed.

Lemma feasible_loop_spec fuel g t X :
  reranked g0 g → tree_tight g t X → X ⊆ N → (∀ x, x ∈ X → x ∉ C) →
  (tight_crossing g X ∧ (size (N ∖ C) - size X ≤ fuel)%nat ∨ (S (size (N ∖ C)) - size X ≤ fuel)%nat) →
  ∃ g' t' X', feasible_loop fuel C (size (N ∖ C)) g t X = Done (g', t') ∧ reranked g0 g' ∧ tree_tight g' t' X' ∧
    X ⊆ X' ∧ X' ⊆ N ∖ C ∧
    (X' = N ∖ C ∨ ∀ k s, is_Some (g_edges g0 !! k) → crosses X' k → slack g' (key_v k) (key_w k) = Some s → i32_max ≤ s).
Proof.
  revert g t X. induction fuel as [|fuel IH]; intros g t X G T Hn Hs Hf; cbn [feasible_loop].
  - assert (Hsub : X ⊆ N ∖ C) by set_solver. pose proof (subseteq_size _ _ Hsub) as Hsz.
    destruct (Nat.ltb_spec (size X) (size (N ∖ C))) as [Hlt|Hge].
    + exfalso. destruct Hf as [[_ Hf]|Hf]; lia.
    + exists g, t, X. split_and!; try done. left. apply leibniz_equiv, set_subseteq_size_equiv; [done|lia].
  - assert (Hsub : X ⊆ N ∖ C) by set_solver. pose proof (subseteq_size _ _ Hsub) as Hsz.
    destruct (Nat.ltb_spec (size X) (size (N ∖ C))) as [Hlt|Hge].
    2:{ exists g, t, X. split_and!; try done. left. apply leibniz_equiv, set_subseteq_size_equiv; [done|lia]. }
    destruct (expand_spec g t X G T Hn Hs) as (t1 & X1 & -> & I1 & M1). rewrite bind_done.
    assert (Hsub1 : X1 ⊆ N ∖ C).
    { intros x Hx. apply elem_of_difference. split; [by apply (gr_nodes _ _ _ _ I1)|by apply (gr_simple _ _ _ _ I1)]. }
    destruct (Nat.eqb_spec (size X1) (size (N ∖ C))) as [E1|E1].
    { exists g, t1, X1. split_and!; try done; [apply I1|]. left. apply leibniz_equiv, set_subseteq_size_equiv; [done|lia]. }
    pose proof (find_min_slack_spec g X1) as HF. destruct (find_min_slack_edge g C X1) as [k|].
    2:{ exists g, t1, X1. split_and!; try done; [apply I1|]. right. intros k s Hk. apply HF. by rewrite (rr_edges _ _ G). }
    destruct HF as (Hk & Hc & s & Hsl). rewrite Hsl. cbn [default].
    set (d := if decide (key_v k ∈ X1) then s else i32_wrap (- s)).
    destruct (shift_tree_spec d X1 g) as [G1 _].
    destruct (IH (shift_tree d X1 g) t1 X1) as (g' & t' & X' & E & H1 & H2 & H3 & H4 & H5).
    + by eapply reranked_trans.
    + apply tight_shift, I1.
    + apply I1.
    + apply I1.
    + left. split; [|].
      * exists k. rewrite (rr_edges _ _ G) in Hk. split_and!; [done..|]. unfold d. apply shift_across; [done|apply Hc].
      * pose proof (subseteq_size _ _ M1). pose proof (subseteq_size _ _ Hsub1).
        destruct Hf as [[Hcr Hf]|Hf]; [|lia]. pose proof (crossing_grows g t1 X X1 Hcr I1 M1). lia.
    + exists g', t', X'. split_and!; try done. set_solver.
Qed.
End grow.

(** What [feasible_tree] returns: with simple nodes, a tree of tight edges that
    begins with the first of them. *)
Lemma feasible_tree_spec g0 (W : wf g0) (C : gset string) g : reranked g0 g →
  ∃ g' t X, feasible_tree g C = Done (g', t) ∧ reranked g0 g' ∧
    dom (t_nodes t) =@{gset string} dom (g_nodes g0) ∖ C ∧ X ⊆ dom (g_nodes g0) ∖ C ∧
    match t_root t with
    | Some root => root ∈ X ∧ tree_tight g0 root (t_nodes t) g' t X
    | None => X = ∅ ∧ dom (g_nodes g0) ∖ C = ∅ ∧ t_edges t = ∅
    end ∧
    (X = dom (g_nodes g0) ∖ C ∨ ∀ k s, is_Some (g_edges g0 !! k) → crosses C X k → slack g' (key_v k) (key_w k) = Some s → i32_max ≤ s).
Proof.
  intros G. unfold feasible_tree. set (simple := filter _ (nodes g)).
  assert (Hin : ∀ x, x ∈ simple ↔ x ∈ dom (g_nodes g0) ∖ C).
  { intros x. unfold simple, is_simple. rewrite list_elem_of_filter, bool_decide_eq_true, nodes_elem, elem_of_difference.
    rewrite elem_of_dom. rewrite (rr_some _ _ G). tauto. }
  destruct (tree_init simple) as [He Hd]. set (t0 := fold_with _ simple _) in *.
  assert (Hdom : dom (t_nodes t0) =@{gset string} dom (g_nodes g0) ∖ C).
  { rewrite Hd. apply set_eq. intros x. by rewrite elem_of_list_to_set. }
  assert (Hsz : size (t_nodes t0) = size (dom (g_nodes g0) ∖ C)) by (by rewrite <- Hdom, size_dom).
  rewrite Hsz. destruct simple as [|first l] eqn:Es.
  - exists g, t0, ∅. assert (HC : dom (g_nodes g0) ∖ C = ∅).
    { apply leibniz_equiv. intros x. rewrite <- Hin. split; [by intros ?%elem_of_nil|by intros ?%elem_of_empty]. }
    split_and!; [done|done|done|set_solver|subst t0; cbn; by split_and!|by left].
  - assert (Hf : first ∈ dom (g_nodes g0) ∖ C) by (apply Hin; by left).
    destruct (feasible_loop_spec g0 W C first (t_nodes t0) (S (size (dom (g_nodes g0) ∖ C))) g (mkTree (t_edges t0) (t_nodes t0) (Some first)) {[first]})
      as (g' & t' & X' & E & H1 & H2 & H3 & H4 & H5); [done| | | |right; lia|].
    + split; unfold tree_adj; cbn [t_edges t_nodes t_root]; rewrite ?He; [..|done].
      * intros v w [e Hvw]. by rewrite lookup_empty in Hvw.
      * intros v w [e Hvw]. by rewrite lookup_empty in Hvw.
      * intros x ->%elem_of_singleton. apply rtc_refl.
      * by rewrite map_size_empty, size_singleton.
      * by apply elem_of_singleton.
    + set_solver.
    + set_solver.
    + exists g', t', X'. destruct (tt_nodes _ _ _ _ _ _ H2) as [En Er]. split_and!; [done|done|by rewrite En|done| |done].
      rewrite Er, En. split; [apply H2|done].
Qed.

(** The nodes of the tree are those its edges join with the root. *)
Lemma tree_reached g0 g t X (S : gset string) :
  match t_root t with
  | Some root => root ∈ X ∧ tree_tight g0 root (t_nodes t) g t X
  | None => X = ∅ ∧ S = ∅ ∧ t_edges t = ∅
  end → ∀ x, x ∈ X ↔ ∃ root, t_root t = Some root ∧ rtc (tree_adj t) root x.
Proof.
  destruct (t_root t) as [root|].
  - intros [Hr T] x. split; [intros Hx; exists root; split; [done|]; by apply T|]. intros (? & [= <-] & Hx).
    pose proof (tt_edge _ _ _ _ _ _ T) as Te. clear T. induction Hx as [|a b c Hab _ IH]; [done|].
    apply IH. by apply Te in Hab as (? & ? & _).
  - intros (-> & _) x. split; [by intros ?%elem_of_empty|by intros (? & ? & _)].
Qed.
End tight.
