(* ===== verification/AssignRanks.v ===== *)
(** * What the choice of ranker promises

    Ranks by longest paths are feasible and start at zero on acyclic graphs
    without a shortcut; with one, every ranker can leave an edge going the wrong
    way.  The tight tree of the network simplex has no slack on its edges. *)
From stdpp Require Import strings gmap relations.
From S2P Require Import Prelude F64 SortBy DagreGraph DagreGraphFacts FasDfs FasGreedy Acyclic AcyclicFacts CrossCount Rank RankFacts RankFeasible NetworkSimplex SimplexFacts.

(** ** Only ranks change *)

Section only_ranks.
Context `{MapOrder, SetOrder}.
Lemma fold_with_reranked {A} (f : A → DagreGraph → DagreGraph) l : (∀ x g, reranked g (f x g)) → ∀ g, reranked g (fold_with f l g).
Proof.
  intros Hf. induction l as [|x l IH]; intros g; cbn [fold_with]; [apply reranked_refl|]. by eapply reranked_trans.
Qed.
Lemma update_ranks_reranked tree g g' : update_ranks tree g = Done g' → reranked g g'.
Proof.
  unfold update_ranks. destruct (root_or_first tree (t_root tree)) as [r|]; [|intros [= <-]; apply reranked_refl].
  intros (l & _ & Hg)%outcome_bind_done. injection Hg as <-. eapply reranked_trans; [|apply fold_with_reranked].
  - repeat case_match; try apply reranked_refl. apply set_rank_reranked.
  - intros v h. repeat case_match; try apply reranked_refl; apply set_rank_reranked.
Qed.
Lemma exchange_reranked tree g leave enter b t g' : exchange_edges tree g leave enter = Done (b, t, g') → reranked g g'.
Proof.
  unfold exchange_edges. intros (c & _ & Hg)%outcome_bind_done. destruct c.
  - apply outcome_bind_done in Hg as (t1 & _ & Hg). apply outcome_bind_done in Hg as (t2 & _ & [= _ _ <-]). apply reranked_refl.
  - apply outcome_bind_done in Hg as (t1 & _ & Hg). apply outcome_bind_done in Hg as (t2 & _ & Hg).
    apply outcome_bind_done in Hg as (g2 & Hu & [= _ _ <-]). by eapply update_ranks_reranked.
Qed.
Lemma attempts_reranked fuel : ∀ tree g counts leave excluded b t g' c,
  attempts fuel tree g counts leave excluded = Done (b, t, g', c) → reranked g g'.
Proof.
  induction fuel as [|fuel IH]; intros tree g counts leave excluded b t g' c; [done|]. cbn [attempts].
  destruct (enter_edge_with_exclusion _ _ _ _) as [enter|]; [|intros [= _ _ <- _]; apply reranked_refl].
  cbn zeta. case_match; [intros [= _ _ <- _]; apply reranked_refl|].
  intros ([[done1 t1] g1] & E1%exchange_reranked & Hg)%outcome_bind_done. destruct done1; [by injection Hg as _ _ <- _|].
  case_match; [by injection Hg as _ _ <- _|]. eapply reranked_trans; [done|by eapply IH].
Qed.
Lemma simplex_loop_reranked left : ∀ tree g counts g', simplex_loop left tree g counts = Done g' → reranked g g'.
Proof.
  induction left as [|left IH]; intros tree g counts g'; cbn [simplex_loop];
    (destruct (leave_edge tree) as [leave|]; [|intros [= <-]; apply reranked_refl]); [intros [= <-]; apply reranked_refl|].
  intros ([[[b t1] g1] c1] & E1%attempts_reranked & Hg)%outcome_bind_done. eapply reranked_trans; [done|by eapply IH].
Qed.
Lemma normalize_ranks_reranked g : reranked g (normalize_ranks g).
Proof. unfold normalize_ranks. cbn zeta. case_match; [apply reranked_refl|]. apply fold_with_reranked. intros v h. apply shift_rank_reranked. Qed.
Lemma pull_all_reranked g : reranked g (pull_sources_toward_targets g).
Proof. apply fold_with_reranked. intros v h. unfold pull_source. repeat case_match; try apply reranked_refl; apply set_rank_reranked. Qed.
(** Whatever the ranker, and however the ranks come out. *)
Lemma assign_ranks_reranked g method g' : wf g → assign_ranks g method = Done g' → reranked g g'.
Proof.
  intros W (g1 & E1 & [= <-])%outcome_bind_done. eapply reranked_trans; [|apply normalize_ranks_reranked].
  destruct (longest_path_ends g W) as (g2 & E2 & R2 & _). destruct method.
  - unfold network_simplex_run in E1. cbn zeta in E1. rewrite E2, bind_done in E1.
    destruct (feasible_tree_spec g W (compound_nodes g) g2 R2) as (g3 & t & X & E3 & R3 & _). rewrite E3, bind_done in E1.
    apply outcome_bind_done in E1 as (t1 & _ & E1). apply outcome_bind_done in E1 as (t2 & _ & E1%simplex_loop_reranked).
    by eapply reranked_trans.
  - congruence.
  - rewrite E2, bind_done in E1. injection E1 as <-. eapply reranked_trans; [done|apply pull_all_reranked].
Qed.
End only_ranks.

(** C23: assigned ranks are those of the longest chains.
    For an acyclic graph whose waiting nodes have no shortcut, with edge lengths
    between 0 and [m] and [m] times the number of nodes within [i32], ranking by
    longest paths (with sources pulled down, or not) returns: nothing but ranks
    changes, and every edge is at least as long as its [minlen].  The rank of a
    node with predecessors is exactly the length of the longest chain of edges
    that leads to it.  A source without targets has rank 0; one with targets has
    an edge that is just as long as its [minlen].  So some node has rank 0, and
    no rank exceeds the product above. *)
Theorem assign_ranks_feasible `{MapOrder, SetOrder} g m method :
  wf g → (∀ k l, g_edges g !! k = Some l → 0 ≤ e_minlen l ≤ m) → 0 ≤ m →
  m * Z.of_nat (node_count g) ≤ i32_max → acyclic g → no_shortcut g → method ≠ NetworkSimplex →
  ∃ g', assign_ranks g method = Done g' ∧ reranked g g' ∧ feasible g' ∧
    (∀ v, v ∈ nodes g → in_edges g v ≠ [] → ∃ r, node_rank g' v = Some r ∧ longest_to g v r) ∧
    (∀ v, v ∈ nodes g → in_edges g v = [] → snug g g' v) ∧
    (∀ v, v ∈ nodes g → ∃ r, node_rank g' v = Some r ∧ 0 ≤ r ≤ m * Z.of_nat (node_count g)) ∧
    (nodes g ≠ [] → ∃ v, node_rank g' v = Some 0).
Proof.
  intros W Hlen Hm Hb Hac Hns Hmeth.
  destruct (longest_path_ok g W m Hlen Hm Hb Hac Hns) as (g1 & E1 & L). pose proof L as [R Hs]. pose proof R as [G Hr Hf Hc].
  assert (Hz : nodes g ≠ [] → ∃ v, node_rank g1 v = Some 0) by (apply (starts_at_zero g W m Hlen Hm Hb Hac Hns g1 L)).
  assert (Hin : ∀ v, v ∈ nodes g → v ∈@{gset string} dom (g_nodes g)) by (intros v ?%nodes_elem; by apply elem_of_dom).
  assert (En : normalize_ranks g1 = g1).
  { destruct (nodes g) as [|x l] eqn:E.
    - unfold normalize_ranks. assert (Er : ranks_of g1 = []).
      { destruct (ranks_of g1) as [|r rs] eqn:Er; [done|]. assert (Hx : r ∈ ranks_of g1) by (rewrite Er; by left).
        apply ranks_of_elem in Hx as [v Hv]. exfalso. assert (Hv' : v ∈ nodes g).
        { apply nodes_elem, (rr_some _ _ G). unfold node_rank, node in Hv. destruct (g_nodes g1 !! v); [by eexists|done]. }
        rewrite E in Hv'. by apply elem_of_nil in Hv'. }
      unfold min_rank. by rewrite Er.
    - destruct Hz as [v Hv]; [done|]. apply (normalize_ranks_zero g1 v); [|done]. intros u r Hu.
      destruct (Hr u) as (r' & Er & ?); [|simplify_eq; lia].
      apply elem_of_dom, (rr_some _ _ G). unfold node_rank, node in Hu. destruct (g_nodes g1 !! u); [by eexists|done]. }
  assert (E2 : assign_ranks g method = Done g1).
  { unfold assign_ranks. destruct method; [done|..]; rewrite E1, !bind_done; [by rewrite En|].
    by rewrite (pull_all_same g W m Hlen Hm Hb Hac Hns g1 L), En. }
  exists g1. split_and!; [done..| | | |done].
  - intros v Hv Hi. destruct (Hr v (Hin v Hv)) as (r & Er & _). exists r. split; [done|]. by apply (longest_exact g W m Hlen Hm Hb Hac Hns g1).
  - intros v Hv. by apply Hs, Hin.
  - intros v Hv. by apply Hr, Hin.
Qed.

(** ** Examples *)

(** The set order that the elements come in. *)
Definition elements_order : SetOrder := {| set_order := elements; set_order_perm X := reflexivity _ |}.
(** Two chains of different lengths between the same ends. *)
Definition diamond : DagreGraph :=
  graph_of [SetPath ["a"; "b"; "c"; "d"]; SetPath ["a"; "e"; "d"]].
Definition arrows (g : DagreGraph) : list (string * string) :=
  (λ k, (key_v k, key_w k)) <$> (map_to_list (g_edges g)).*1.
Lemma arrows_spec g a b : arrow g a b ↔ (a, b) ∈ arrows g.
Proof.
  unfold arrow, arrows. rewrite list_elem_of_fmap. split.
  - intros (k & [l Hk] & <- & <-). exists k. split; [done|]. apply list_elem_of_fmap.
    exists (k, l). split; [done|]. by apply elem_of_map_to_list.
  - intros (k & [= -> ->] & Hk). apply list_elem_of_fmap in Hk as ([k' l] & -> & Hk%elem_of_map_to_list).
    exists k'. split_and!; [by exists l|done..].
Qed.
(** A relation that holds the arrows and is closed under one more holds the walks. *)
Definition closed_under (A R : list (string * string)) : bool :=
  forallb (λ p, bool_decide (p ∈ R) && forallb (λ q, bool_decide (p.2 = q.1 → (p.1, q.2) ∈ R)) R) A.
Lemma walks_in g R a b : closed_under (arrows g) R = true → tc (arrow g) a b → (a, b) ∈ R.
Proof.
  unfold closed_under. rewrite forallb_forall. intros Hc.
  assert (Hstep : ∀ x y, arrow g x y → (x, y) ∈ R ∧ ∀ z, (y, z) ∈ R → (x, z) ∈ R).
  { intros x y Hxy%arrows_spec%list_elem_of_In%Hc. apply andb_true_iff in Hxy as [H1 H2].
    apply bool_decide_eq_true in H1. split; [done|]. intros z Hz. rewrite forallb_forall in H2.
    apply list_elem_of_In, H2, bool_decide_eq_true in Hz. by apply Hz. }
  induction 1 as [a b Hab|a b c Hab _ IH]; [by apply Hstep|]. by apply (Hstep a b).
Qed.
Fixpoint walks (fuel : nat) (A R : list (string * string)) : list (string * string) :=
  match fuel with
  | O => R
  | S fuel => walks fuel A (remove_dups (R ++ (p ← A; q ← R; if bool_decide (p.2 = q.1) then [(p.1, q.2)] else [])))
  end.
Definition walked (g : DagreGraph) : list (string * string) := walks (node_count g) (arrows g) (arrows g).
Lemma acyclic_check g : closed_under (arrows g) (walked g) = true →
  forallb (λ p, bool_decide (p.1 ≠ p.2)) (walked g) = true → acyclic g.
Proof.
  rewrite forallb_forall. intros Hc Hd v Hv%(walks_in g _ _ _ Hc)%list_elem_of_In%Hd. by apply bool_decide_eq_true in Hv.
Qed.
Lemma no_shortcut_check g : closed_under (arrows g) (walked g) = true →
  forallb (λ p, forallb (λ q, bool_decide (p.2 = q.2 → (p.1, q.1) ∉ walked g)) (arrows g)) (arrows g) = true →
  no_shortcut g.
Proof.
  rewrite forallb_forall. intros Hc Hd u y x Hu%arrows_spec%list_elem_of_In%Hd Huy%(walks_in g _ _ _ Hc) Hy.
  rewrite forallb_forall in Hu. apply arrows_spec, list_elem_of_In, Hu, bool_decide_eq_true in Hy. by apply Hy.
Qed.

Lemma assign_ranks_feasible_witness :
  ∃ g', @assign_ranks list_order elements_order diamond LongestPath = Done g' ∧ reranked diamond g' ∧ feasible g' ∧
    (∀ v, v ∈ nodes diamond → in_edges diamond v ≠ [] → ∃ r, node_rank g' v = Some r ∧ longest_to diamond v r) ∧
    (∀ v, v ∈ nodes diamond → in_edges diamond v = [] → snug diamond g' v) ∧
    (∀ v, v ∈ nodes diamond → ∃ r, node_rank g' v = Some r ∧ 0 ≤ r ≤ 1 * Z.of_nat (node_count diamond)) ∧
    (nodes diamond ≠ [] → ∃ v, node_rank g' v = Some 0).
Proof.
  apply (@assign_ranks_feasible list_order elements_order diamond 1 LongestPath); [| | | | | |done].
  - apply wf_graph_of.
  - intros k l Hl. apply (edges_check (λ _ l, 0 ≤ e_minlen l ∧ e_minlen l ≤ 1) diamond) in Hl; [done|]. vm_compute. reflexivity.
  - done.
  - vm_compute. done.
  - apply acyclic_check; vm_compute; reflexivity.
  - apply no_shortcut_check; vm_compute; reflexivity.
Defined.

(** ** A shortcut *)

(** The node [a] is reached from [b] and from [c], and [c] from [b]. *)
Definition shortcut : DagreGraph :=
  graph_of [SetEdge "s" "b" EdgeLabel_default; SetEdge "b" "a" EdgeLabel_default;
            SetEdge "c" "a" EdgeLabel_default; SetEdge "b" "c" EdgeLabel_default].
Definition ranks_in (r : panics DagreGraph) : list (string * option Z) :=
  match r with Done g => (λ v, (v, node_rank g v)) <$> nodes g | _ => [] end.

(** With a shortcut, no ranker respects every edge.
    The graph has the edges s→b, b→a, c→a and b→c, is acyclic, and every edge is
    to be at least one long.  The node [c], already waiting on the stack when
    [b] is reached, is skipped: longest paths put [b] below [c], which the edge
    b→c leads to; and the network simplex, which starts from those ranks, ends
    with [c] and [a] on the same rank. *)
Theorem ranks_against_an_edge :
  wf shortcut ∧ acyclic shortcut ∧ (∀ k, is_Some (g_edges shortcut !! k) → edge_minlen shortcut k = 1) ∧
  ranks_in (@assign_ranks list_order elements_order shortcut LongestPath) =
    [("a", Some 2); ("b", Some 1); ("c", Some 0); ("s", Some 0)] ∧
  ranks_in (@assign_ranks list_order elements_order shortcut TightTree) =
    [("a", Some 2); ("b", Some 1); ("c", Some 0); ("s", Some 0)] ∧
  ranks_in (@assign_ranks list_order elements_order shortcut NetworkSimplex) =
    [("a", Some 2); ("b", Some 1); ("c", Some 2); ("s", Some 0)].
Proof.
  split_and!.
  - apply wf_graph_of.
  - apply acyclic_check; vm_compute; reflexivity.
  - intros k [l Hl]. apply (edges_check (λ k _, 1 ≤ edge_minlen shortcut k ∧ edge_minlen shortcut k ≤ 1) shortcut) in Hl; [lia|].
    vm_compute. reflexivity.
  - vm_compute. reflexivity.
  - vm_compute. reflexivity.
  - vm_compute. reflexivity.
Qed.

(** C40: growing the feasible tree ends with a tree of tight edges that no edge
    leaves.
    For every well-formed graph, [feasible_tree] returns and changes only ranks.
    The nodes of the tree are the simple nodes, and it has a root unless there
    are none.  [reached] are the nodes the edges of the tree join with the root:
    they are simple; every edge of the tree is stored in both directions, joins
    two of them, and is an edge of the graph whose rank difference is its
    [minlen]; and there is one fewer of them than nodes reached, so they form a
    tree.  And either all simple nodes are reached, or every edge of the graph
    with just one end reached has a slack of [i32::MAX]. *)
Theorem feasible_tree_tight `{MapOrder, SetOrder} g (compound_nodes : gset string) : wf g →
  ∃ g' tree (reached : gset string), feasible_tree g compound_nodes = Done (g', tree) ∧ reranked g g' ∧
    dom (t_nodes tree) = dom (g_nodes g) ∖ compound_nodes ∧
    (t_root tree = None → dom (g_nodes g) ∖ compound_nodes = ∅) ∧
    (∀ v, v ∈ reached ↔ ∃ root, t_root tree = Some root ∧ rtc (tree_adj tree) root v) ∧
    reached ⊆ dom (g_nodes g) ∖ compound_nodes ∧
    (∀ v w, tree_adj tree v w → tree_adj tree w v ∧ v ∈ reached ∧ w ∈ reached ∧ tight_between g g' v w) ∧
    size (t_edges tree) = (2 * pred (size reached))%nat ∧
    (reached = dom (g_nodes g) ∖ compound_nodes ∨
     ∀ k s, is_Some (g_edges g !! k) → key_v k ∉ compound_nodes → key_w k ∉ compound_nodes →
       (key_v k ∈ reached ↔ key_w k ∉ reached) → slack g' (key_v k) (key_w k) = Some s → i32_max ≤ s).
Proof.
  intros W. destruct (feasible_tree_spec g W compound_nodes g (reranked_refl g)) as (g' & t & X & E & R & Hd & Hs & Hr & Hx).
  exists g', t, X. split_and!; [done|done|done| | |done| | |].
  - destruct (t_root t); [done|intros _; apply Hr].
  - intros v. apply (tree_reached g g' t X _ Hr).
  - intros v w Hvw. destruct (t_root t) as [root|]; [destruct Hr as [_ T]|].
    + split; [by apply T|]. by apply T.
    + destruct Hr as (_ & _ & He). unfold tree_adj in Hvw. rewrite He in Hvw. by destruct Hvw.
  - destruct (t_root t) as [root|]; [apply Hr|]. destruct Hr as (-> & _ & ->). done.
  - destruct Hx as [?|Hx]; [by left|right]. intros k s Hk Hv Hw Hc. by apply Hx.
Qed.
Lemma feasible_tree_tight_witness :
  let g := match longest_path_run diamond with Done g => g | _ => diamond end in
  ∃ g' tree (reached : gset string), @feasible_tree list_order elements_order g ∅ = Done (g', tree) ∧ reranked g g' ∧
    dom (t_nodes tree) = dom (g_nodes g) ∖ (∅ : gset string) ∧
    (t_root tree = None → dom (g_nodes g) ∖ (∅ : gset string) = ∅) ∧
    (∀ v, v ∈ reached ↔ ∃ root, t_root tree = Some root ∧ rtc (tree_adj tree) root v) ∧
    reached ⊆ dom (g_nodes g) ∖ (∅ : gset string) ∧
    (∀ v w, tree_adj tree v w →
       tree_adj tree w v ∧ v ∈ reached ∧ w ∈ reached ∧ @tight_between list_order g g' v w) ∧
    size (t_edges tree) = (2 * pred (size reached))%nat ∧
    (reached = dom (g_nodes g) ∖ (∅ : gset string) ∨
     ∀ k s, is_Some (g_edges g !! k) → key_v k ∉ (∅ : gset string) → key_w k ∉ (∅ : gset string) →
       (key_v k ∈ reached ↔ key_w k ∉ reached) → @slack list_order g' (key_v k) (key_w k) = Some s → i32_max ≤ s).
Proof.
  apply (@feasible_tree_tight list_order elements_order). destruct (longest_path_ends diamond) as (g' & -> & R & _).
  - apply wf_graph_of.
  - apply (rr_wf _ _ R), wf_graph_of.
Defined.
