(* ===== verification/Normalize.v ===== *)
(** * Long edges cut into unit segments ([normalize.rs])

    [run] replaces every edge that does not go from one rank to the next by a
    chain of dummy nodes, [undo] reads the chain's positions back into the points
    of the edge, and [assign_node_intersects] adds the points where an edge meets
    the border of its ends. *)
From stdpp Require Import strings gmap pretty.
From S2P Require Import Prelude F64 SortBy DagreGraph Rank.

(** ** Cutting *)

Record LongEdge := mkLong { le_v : string; le_w : string; le_name : option string; le_v_rank : Z; le_w_rank : Z }.
Definition le_key (le : LongEdge) : EdgeKey := mkKey (le_v le) (le_w le) (le_name le).
Definition long_edge (g : DagreGraph) (v : string) (v_rank : Z) (key : EdgeKey) : option LongEdge :=
  match node_rank g (key_w key) with
  | Some w_rank =>
      if w_rank =? i32_wrap (v_rank + 1) then None else Some (mkLong v (key_w key) (key_name key) v_rank w_rank)
  | None => None
  end.
Definition long_edges_of (g : DagreGraph) (v : string) : list LongEdge :=
  match node_rank g v with
  | Some v_rank => omap (long_edge g v v_rank) (out_edges g v)
  | None => []
  end.
Definition edges_to_normalize (g : DagreGraph) : list LongEdge := nodes g ≫= long_edges_of g.

Definition dummy_id (rank : Z) (count : nat) : string := ("_d" +:+ pretty rank +:+ "_" +:+ pretty (N.of_nat count))%string.
Definition dummy_label (edge_label : EdgeLabel) (le : LongEdge) (rank : Z) : NodeLabel :=
  let d := set_n_rank (Some rank) (set_n_dummy (Some "edge")
             (set_n_edge_label (Some edge_label) (set_n_edge_obj (Some (le_v le, le_w le, le_name le)) NodeLabel_default))) in
  if bool_decide (e_label_rank edge_label = Some rank)
  then set_n_labelpos (Some (e_labelpos edge_label)) (set_n_dummy (Some "edge-label")
         (set_n_height (e_height edge_label) (set_n_width (e_width edge_label) d)))
  else d.
Definition segment_label (weight : Z) : EdgeLabel := set_e_weight weight EdgeLabel_default.

Record ChainState := mkChain { ch_graph : DagreGraph; ch_prev : string; ch_first : option string }.
Definition add_dummy (edge_label : EdgeLabel) (le : LongEdge) (rank : Z) (s : ChainState) : panics ChainState :=
  let id := dummy_id rank (node_count (ch_graph s)) in
  let g := set_node id (dummy_label edge_label le rank) (ch_graph s) in
  g ← set_edge (ch_prev s) id (segment_label (e_weight edge_label)) g;
  Done (mkChain g id (match ch_first s with Some d => Some d | None => Some id end)).
(** [(v_rank + 1)..w_rank]. *)
Definition ranks_between (le : LongEdge) : list Z :=
  let lo := i32_wrap (le_v_rank le + 1) in seqZ lo (le_w_rank le - lo).
Definition split_edge (le : LongEdge) (s : DagreGraph * list string) : panics (DagreGraph * list string) :=
  let '(g, dummy_chains) := s in
  let edge_label := default EdgeLabel_default (edge_by_key g (le_key le)) in
  let g := remove_edge_by_key (le_key le) g in
  c ← fold_outcome (add_dummy edge_label le) (ranks_between le) (mkChain g (le_v le) None);
  g ← set_edge (ch_prev c) (le_w le) (segment_label (e_weight edge_label)) (ch_graph c);
  Done (g, match ch_first c with Some d => dummy_chains ++ [d] | None => dummy_chains end).
Definition run (g : DagreGraph) : panics DagreGraph :=
  '(g, dummy_chains) ← fold_outcome split_edge (edges_to_normalize g) (g, []);
  Done (set_g_graph_label (set_gl_dummy_chains dummy_chains (g_graph_label g)) g).

(** ** Joining again *)

Definition point_of (n : NodeLabel) : option Point :=
  match n_x n, n_y n with Some x, Some y => Some (mkPoint x y) | _, _ => None end.
Definition at_label (n : NodeLabel) (l : EdgeLabel) : EdgeLabel :=
  if bool_decide (n_dummy n = Some "edge-label")
  then set_e_height (n_height n) (set_e_width (n_width n) (set_e_y (n_y n) (set_e_x (n_x n) l)))
  else l.
Record Collected := mkCollected { co_graph : DagreGraph; co_points : list Point; co_label : EdgeLabel }.
(** Every turn removes a node. *)
Fixpoint collect (fuel : nat) (current : string) (c : Collected) : panics Collected :=
  match node (co_graph c) current with
  | None => Done c
  | Some n =>
      match n_dummy n with
      | None => Done c
      | Some _ =>
          match fuel with
          | O => OutOfFuel
          | S fuel' =>
              let next := head (successors (co_graph c) current) in
              let c := mkCollected (remove_node current (co_graph c))
                         (match point_of n with Some p => co_points c ++ [p] | None => co_points c end)
                         (at_label n (co_label c)) in
              match next with Some n => collect fuel' n c | None => Done c end
          end
      end
  end.
Definition join_chain (start : string) (g : DagreGraph) : panics DagreGraph :=
  match node g start with
  | None => Done g
  | Some n =>
      match n_edge_obj n with
      | None => Done g
      | Some (orig_v, orig_w, orig_name) =>
          c ← collect (node_count g) start (mkCollected g [] (default EdgeLabel_default (n_edge_label n)));
          let orig_label := set_e_points (co_points c) (co_label c) in
          match orig_name with
          | Some name => set_edge_with_name orig_v orig_w orig_label name (co_graph c)
          | None => set_edge orig_v orig_w orig_label (co_graph c)
          end
      end
  end.
Definition undo (g : DagreGraph) : panics DagreGraph :=
  let dummy_chains := gl_dummy_chains (g_graph_label g) in
  fold_outcome join_chain dummy_chains (set_g_graph_label (set_gl_dummy_chains [] (g_graph_label g)) g).

(** ** Where an edge meets a node *)

Definition sy_for_sx (dx dy sx : f64) : f64 :=
  if f64_eqb dx f64_zero then f64_zero else f64_div (f64_mul dy sx) dx.
Definition sx_for_sy (dx dy sy : f64) : f64 :=
  if f64_eqb dy f64_zero then f64_zero else f64_div (f64_mul dx sy) dy.
Definition intersect_rect (n : NodeLabel) (p : Point) : Point :=
  match n_x n, n_y n with
  | Some cx, Some cy =>
      let w := f64_half (n_width n) in
      let h := f64_half (n_height n) in
      let dx := f64_sub (p_x p) cx in
      let dy := f64_sub (p_y p) cy in
      if f64_eqb dx f64_zero && f64_eqb dy f64_zero then mkPoint cx cy else
      let '(sx, sy) :=
        if f64_lt (f64_mul (f64_abs dy) w) (f64_mul (f64_abs dx) h)
        then let sx := if f64_lt f64_zero dx then w else f64_neg w in (sx, sy_for_sx dx dy sx)
        else let sy := if f64_lt f64_zero dy then h else f64_neg h in (sx_for_sy dx dy sy, sy) in
      mkPoint (f64_add cx sx) (f64_add cy sy)
  | _, _ => p
  end.
Definition intersect_diamond (n : NodeLabel) (p : Point) : Point :=
  match n_x n, n_y n with
  | Some cx, Some cy =>
      let w := f64_half (n_width n) in
      let h := f64_half (n_height n) in
      let dx := f64_sub (p_x p) cx in
      let dy := f64_sub (p_y p) cy in
      if f64_eqb dx f64_zero && f64_eqb dy f64_zero then mkPoint cx cy else
      let t := f64_div (f64_of_Z 1) (f64_add (f64_div (f64_abs dx) w) (f64_div (f64_abs dy) h)) in
      mkPoint (f64_add cx (f64_mul t dx)) (f64_add cy (f64_mul t dy))
  | _, _ => p
  end.
Definition intersect_circle (n : NodeLabel) (p : Point) : Point :=
  match n_x n, n_y n with
  | Some cx, Some cy =>
      let r := f64_half (f64_min (n_width n) (n_height n)) in
      let dx := f64_sub (p_x p) cx in
      let dy := f64_sub (p_y p) cy in
      let dist := f64_sqrt (f64_add (f64_mul dx dx) (f64_mul dy dy)) in
      if f64_eqb dist f64_zero then mkPoint cx cy else
      mkPoint (f64_add cx (f64_div (f64_mul r dx) dist)) (f64_add cy (f64_div (f64_mul r dy) dist))
  | _, _ => p
  end.
(** [powi(2)] is one product. *)
Definition f64_square (a : f64) : f64 := f64_mul a a.
Definition intersect_ellipse (n : NodeLabel) (p : Point) : Point :=
  match n_x n, n_y n with
  | Some cx, Some cy =>
      let rx := f64_half (n_width n) in
      let ry := f64_half (n_height n) in
      let dx := f64_sub (p_x p) cx in
      let dy := f64_sub (p_y p) cy in
      if f64_eqb dx f64_zero && f64_eqb dy f64_zero then mkPoint cx cy else
      let t := f64_div (f64_of_Z 1)
                 (f64_sqrt (f64_add (f64_square (f64_div dx rx)) (f64_square (f64_div dy ry)))) in
      mkPoint (f64_add cx (f64_mul t dx)) (f64_add cy (f64_mul t dy))
  | _, _ => p
  end.
Definition intersect_node (n : NodeLabel) (p : Point) : Point :=
  match n_shape n with
  | Diamond => intersect_diamond n p
  | Circle | DoubleCircle => intersect_circle n p
  | Ellipse => intersect_ellipse n p
  | _ => intersect_rect n p
  end.

Definition center (n : NodeLabel) : Point := mkPoint (default f64_zero (n_x n)) (default f64_zero (n_y n)).
(** The points of an edge between two nodes, with its ends on their borders. *)
Definition with_ends (node_v node_w : NodeLabel) (points : list Point) : list Point :=
  let p1 := default (center node_w) (head points) in
  let p2 := default (center node_v) (last points) in
  intersect_node node_v p1 :: points ++ [intersect_node node_w p2].
(** Nodes do not change, so reading them edge by edge gives the same. *)
Definition end_points (key : EdgeKey) (g : DagreGraph) : DagreGraph :=
  match node g (key_v key), node g (key_w key) with
  | Some node_v, Some node_w => edge_by_key_mut (λ e, set_e_points (with_ends node_v node_w (e_points e)) e) key g
  | _, _ => g
  end.
Definition assign_node_intersects `{MapOrder} (g : DagreGraph) : DagreGraph := fold_with end_points (edges g) g.
