(* ===== verification/NormalizeFacts.v ===== *)
(** * Cutting long edges: what is cut, and the way back

    After [run] every edge goes from one rank to the next; [undo], whatever
    positions the dummy nodes were given, restores nodes and edges and gives each
    cut edge the positions of its chain. *)
From stdpp Require Import strings gmap pretty.
From S2P Require Import Prelude F64 SortBy DagreGraph DagreGraphFacts Rank RankFacts Normalize.

(** ** Names of dummies *)

Fixpoint no_underscore (s : string) : Prop :=
  match s with EmptyString => True | String c s => c ≠ "_"%char ∧ no_underscore s end.
Lemma underscore_split a b a' b' : no_underscore a → no_underscore a' →
  (a +:+ "_" +:+ b = a' +:+ "_" +:+ b')%string → a = a' ∧ b = b'.
Proof.
  revert a'. induction a as [|c a IH]; intros [|c' a']; cbn.
  - by intros _ _ [= ->].
  - by intros _ [Hc' _] [= ? _].
  - by intros [Hc _] _ [= ? _].
  - intros [_ Ha] [_ Ha'] [= -> H]. by destruct (IH a' Ha Ha' H) as [-> ->].
Qed.
Lemma pretty_N_go_digits x s : no_underscore s → no_underscore (pretty_N_go x s).
Proof.
  revert s. induction (N.lt_wf_0 x) as [x _ IH]; intros s Hs.
  destruct (decide (x = 0)%N) as [->|Hx]; [by rewrite pretty_N_go_0|].
  rewrite pretty_N_go_step by lia. apply IH; [apply N.div_lt; lia|]. split; [|done].
  unfold pretty_N_char. by repeat case_match.
Qed.
Lemma pretty_N_digits (x : N) : no_underscore (pretty x).
Proof.
  unfold pretty, pretty_N. destruct (decide _); [by split|]. by apply pretty_N_go_digits.
Qed.
Lemma pretty_Z_digits (z : Z) : no_underscore (pretty z).
Proof.
  destruct z as [|p|p].
  - by split.
  - apply (pretty_N_digits (Npos p)).
  - split; [done|]. apply (pretty_N_digits (Npos p)).
Qed.
Lemma dummy_id_inj r n r' n' : dummy_id r n = dummy_id r' n' → r = r' ∧ n = n'.
Proof.
  unfold dummy_id. intros [= H].
  apply underscore_split in H as [Hr%(inj pretty) Hn%(inj pretty)]; [|apply pretty_Z_digits..].
  split; [done|]. by apply Nat2N.inj.
Qed.

(** ** Walking a chain *)

(** The only way on from each of [ids] is to the next, and from the last to [w]. *)
Fixpoint linear (g : DagreGraph) (ids : list string) (w : string) : Prop :=
  match ids with
  | [] => True
  | d :: ids' =>
      is_Some (g_edges g !! EdgeKey_new d (default w (head ids'))) ∧
      (∀ k, is_Some (g_edges g !! k) → key_v k = d → key_w k = default w (head ids')) ∧
      linear g ids' w
  end.
(** What the chain's nodes add to the label of the edge. *)
Definition routed (ns : list NodeLabel) (l : EdgeLabel) : EdgeLabel :=
  set_e_points (omap point_of ns) (fold_with at_label ns l).

Lemma linear_intro g ids w :
  (∀ i d nx, ids !! i = Some d → (ids ++ [w]) !! S i = Some nx →
    is_Some (g_edges g !! EdgeKey_new d nx) ∧ ∀ k, is_Some (g_edges g !! k) → key_v k = d → key_w k = nx) →
  linear g ids w.
Proof.
  induction ids as [|d ids IH]; intros H; [done|].
  assert (Hnx : (d :: ids ++ [w]) !! 1%nat = Some (default w (head ids))) by (by destruct ids).
  destruct (H 0%nat d _ eq_refl Hnx) as [H1 H2]. split_and!; [done..|]. apply IH.
  intros i x nx Hi Hx. apply (H (S i)); [done|]. exact Hx.
Qed.
Lemma linear_removed g g' d ids w : removed d g g' → d ∉ ids → d ≠ w → linear g ids w → linear g' ids w.
Proof.
  intros R. induction ids as [|x ids IH]; intros Hd Hw; [done|]. cbn [linear]. intros (He & Hk & Hl).
  apply not_elem_of_cons in Hd as [Hx Hd]. split_and!; [|intros k|by apply IH].
  - rewrite (removed_edges _ _ _ R), decide_False; [done|]. unfold touches. cbn.
    destruct ids as [|y ids]; cbn; [naive_solver|]. apply not_elem_of_cons in Hd as [? _]. naive_solver.
  - rewrite (removed_edges _ _ _ R). destruct (decide _); [by intros []|]. apply Hk.
Qed.
Lemma successors_linear g d nx : wf g → is_Some (g_edges g !! EdgeKey_new d nx) →
  (∀ k, is_Some (g_edges g !! k) → key_v k = d → key_w k = nx) → head (successors g d) = Some nx.
Proof.
  intros W He Hk. unfold successors. assert (Hin : EdgeKey_new d nx ∈ out_edges g d) by (by apply out_edges_iff).
  destruct (out_edges g d) as [|k l] eqn:E; [by apply elem_of_nil in Hin|]. cbn. f_equal.
  assert (Hk1 : k ∈ out_edges g d) by (rewrite E; by left). apply out_edges_iff in Hk1 as [? ?]; [|done]. by apply Hk.
Qed.
Lemma Forall2_impl_in {A B} (P Q : A → B → Prop) l k : Forall2 P l k → (∀ x y, x ∈ l → P x y → Q x y) → Forall2 Q l k.
Proof.
  induction 1 as [|x y l k Hxy _ IH]; intros H; [constructor|]. constructor; [apply H; [by left|done]|].
  apply IH. intros; apply H; [by right|done].
Qed.
Lemma collect_ok ids : ∀ g ns fuel pts lbl w nw, wf g → NoDup ids →
  Forall2 (λ d n, g_nodes g !! d = Some n ∧ is_Some (n_dummy n)) ids ns → linear g ids w →
  g_nodes g !! w = Some nw → n_dummy nw = None → (length ids ≤ fuel)%nat →
  ∃ g', collect fuel (default w (head ids)) (mkCollected g pts lbl) =
      Done (mkCollected g' (pts ++ omap point_of ns) (fold_with at_label ns lbl)) ∧
    wf g' ∧ g_graph_label g' = g_graph_label g ∧
    (∀ x, g_nodes g' !! x = if decide (x ∈ ids) then None else g_nodes g !! x) ∧
    (∀ k, g_edges g' !! k = if decide (key_v k ∈ ids ∨ key_w k ∈ ids) then None else g_edges g !! k).
Proof.
  induction ids as [|d ids IH]; intros g ns fuel pts lbl w nw W Hnd Hns Hl Hw Hp Hf.
  - apply Forall2_nil_inv_l in Hns as ->. exists g. split_and!; [|done|done| |].
    + cbn [head hd_error default]. destruct fuel; cbn; rewrite app_nil_r; unfold node; by rewrite Hw, Hp.
    + intros x. rewrite decide_False; [done|]. apply not_elem_of_nil.
    + intros k. rewrite decide_False; [done|]. set_solver.
  - apply Forall2_cons_inv_l in Hns as (n & ns' & (Hd & [dm Hdm]) & Hns & ->). destruct Hl as (He & Hk & Hl).
    apply NoDup_cons in Hnd as [Hdi Hnd]. destruct fuel as [|fuel]; [cbn in Hf; lia|].
    change (default w (head (d :: ids))) with d. cbn [collect co_graph]. unfold node. rewrite Hd, Hdm.
    rewrite (successors_linear g d _ W He Hk). cbn [co_points co_label].
    pose proof (remove_node_spec d g W ltac:(by eexists)) as R.
    assert (Hdw : d ≠ w) by (intros <-; congruence).
    set (pts' := match point_of n with Some p => pts ++ [p] | None => pts end).
    destruct (IH (remove_node d g) ns' fuel pts' (at_label n lbl) w nw) as (g' & E & W' & Hg & Hn & Hke).
    + by apply wf_remove_node.
    + done.
    + eapply Forall2_impl_in; [exact Hns|]. intros x m Hx [Hxm ?]. split; [|done].
      rewrite (removed_nodes _ _ _ R), lookup_delete_ne; [done|]. intros ->. done.
    + by apply (linear_removed g _ d).
    + by rewrite (removed_nodes _ _ _ R), lookup_delete_ne.
    + done.
    + cbn in Hf. lia.
    + rewrite E. exists g'. split_and!; [|done| | |].
      * f_equal. f_equal. unfold pts'. cbn [omap list_omap]. destruct (point_of n); [|done]. by rewrite <- app_assoc.
      * by rewrite Hg, (removed_label _ _ _ R).
      * intros x. rewrite Hn, (removed_nodes _ _ _ R). destruct (decide (x = d)) as [->|Hx].
        { rewrite lookup_delete_eq. rewrite (decide_True (P := d ∈ d :: ids)) by (by left). by case_decide. }
        rewrite lookup_delete_ne by done. apply decide_ext. set_solver.
      * intros k. rewrite Hke, (removed_edges _ _ _ R). unfold touches.
        repeat case_decide; try done; set_solver.
Qed.

(** ** The edges that are cut *)

Definition cut_label (g0 : DagreGraph) (le : LongEdge) : EdgeLabel := default EdgeLabel_default (g_edges g0 !! le_key le).

(** The graph after layout: positions, sizes and orders may differ. *)
Record placed (g1 g2 : DagreGraph) : Prop := {
  pl_wf : wf g2;
  pl_edges : g_edges g2 = g_edges g1;
  pl_chains : gl_dummy_chains (g_graph_label g2) = gl_dummy_chains (g_graph_label g1);
  pl_dom x : is_Some (g_nodes g2 !! x) ↔ is_Some (g_nodes g1 !! x);
  pl_node x n n' : g_nodes g1 !! x = Some n → g_nodes g2 !! x = Some n' →
    n_rank n' = n_rank n ∧ n_dummy n' = n_dummy n ∧ n_edge_label n' = n_edge_label n ∧ n_edge_obj n' = n_edge_obj n
}.

Section cutting.
#[local] Set Default Proof Using "All".
Context (g0 : DagreGraph) (W : wf g0).
(** Edges go down, and the ranks are [i32]s. *)
Context (Hdown : ∀ k, is_Some (g_edges g0 !! k) → ∃ a b,
  node_rank g0 (key_v k) = Some a ∧ node_rank g0 (key_w k) = Some b ∧ a < b ∧ i32_min ≤ a ∧ b ≤ i32_max).
Context (Hnames : ∀ r n, g_nodes g0 !! dummy_id r n = None).
Context (Hout : ∀ v, NoDup (out_edges g0 v)).

Let L := edges_to_normalize g0.
Record is_cut (le : LongEdge) : Prop := {
  ic_edge : is_Some (g_edges g0 !! le_key le);
  ic_v : node_rank g0 (le_v le) = Some (le_v_rank le);
  ic_w : node_rank g0 (le_w le) = Some (le_w_rank le);
  ic_long : le_v_rank le + 1 < le_w_rank le;
  ic_wrap : i32_wrap (le_v_rank le + 1) = le_v_rank le + 1
}.

Lemma down_wrap k a b : is_Some (g_edges g0 !! k) → node_rank g0 (key_v k) = Some a → node_rank g0 (key_w k) = Some b →
  a < b ∧ i32_wrap (a + 1) = a + 1.
Proof.
  intros Hk Ha Hb. destruct (Hdown k Hk) as (a' & b' & Ea & Eb & Hlt & Hlo & Hhi). simplify_eq. split; [done|].
  apply i32_wrap_small. unfold is_i32, i32_min, i32_max in *. lia.
Qed.
Lemma long_edge_spec v a key le : key ∈ out_edges g0 v → node_rank g0 v = Some a →
  long_edge g0 v a key = Some le → le_key le = key ∧ is_cut le.
Proof.
  intros [Hv Hk]%(wf_out g0 W) Ha. unfold long_edge. destruct (node_rank g0 (key_w key)) as [b|] eqn:Eb; [|done].
  destruct (Z.eqb_spec b (i32_wrap (a + 1))); [done|]. intros [= <-].
  rewrite <- Hv in Ha. destruct (down_wrap key a b Hk Ha Eb) as [Hlt Hwr].
  assert (Ek : mkKey v (key_w key) (key_name key) = key) by (destruct key; simpl in *; by subst).
  unfold le_key; cbn [le_v le_w le_name]. split; [done|].
  split; unfold le_key; cbn [le_v le_w le_name le_v_rank le_w_rank]; rewrite ?Ek; try done; [by rewrite <- Hv|lia].
Qed.
Lemma cut_is_cut le : le ∈ L → is_cut le.
Proof.
  unfold L, edges_to_normalize. intros (v & Hle & Hv)%list_elem_of_bind. unfold long_edges_of in Hle.
  destruct (node_rank g0 v) as [a|] eqn:Ea; [|by apply elem_of_nil in Hle].
  apply list_elem_of_omap in Hle as (key & Hkey & Hle). by eapply long_edge_spec.
Qed.
Lemma cut_or_unit k : is_Some (g_edges g0 !! k) →
  (∃ a, node_rank g0 (key_v k) = Some a ∧ node_rank g0 (key_w k) = Some (a + 1)) ∨ k ∈ le_key <$> L.
Proof.
  intros Hk. destruct (Hdown k Hk) as (a & b & Ea & Eb & Hlt & _). destruct (down_wrap k a b Hk Ea Eb) as [_ Hwr].
  destruct (decide (b = a + 1)) as [->|Hne]; [left; by exists a|right].
  apply list_elem_of_fmap. exists (mkLong (key_v k) (key_w k) (key_name k) a b). split; [by destruct k|].
  unfold L, edges_to_normalize. apply list_elem_of_bind. exists (key_v k). split.
  - unfold long_edges_of. rewrite Ea. apply list_elem_of_omap. exists k. split; [by apply (wf_edge g0 W)|].
    unfold long_edge. rewrite Eb, Hwr. by destruct (Z.eqb_spec b (a + 1)).
  - apply nodes_elem. by destruct (edge_ends g0 k W Hk).
Qed.
Lemma cut_keys_nodup : NoDup (le_key <$> L).
Proof.
  assert (H : ∀ vs, NoDup vs → NoDup (le_key <$> (vs ≫= long_edges_of g0))).
  { assert (Hin : ∀ v k, k ∈ le_key <$> long_edges_of g0 v → k ∈ out_edges g0 v).
    { intros v k (le & -> & Hle)%list_elem_of_fmap. unfold long_edges_of in Hle.
      destruct (node_rank g0 v) as [a|] eqn:Ea; [|by apply elem_of_nil in Hle].
      apply list_elem_of_omap in Hle as (key & Hkey & Hle). by destruct (long_edge_spec v a key le Hkey Ea Hle) as [-> _]. }
    induction 1 as [|v vs Hv _ IH]; [constructor|]. cbn [mbind list_bind]. fold (mbind (long_edges_of g0) vs).
    rewrite fmap_app. apply NoDup_app. split_and!; [|intros k Hk Hk'|done].
    - unfold long_edges_of. destruct (node_rank g0 v) as [a|] eqn:Ea; [|constructor].
      assert (Hs : ∀ l, (∀ k, k ∈ l → k ∈ out_edges g0 v) → NoDup l → NoDup (le_key <$> omap (long_edge g0 v a) l)).
      { induction l as [|k l IHl]; intros Hl Hnd; cbn; [constructor|]. apply NoDup_cons in Hnd as [Hk Hnd].
        assert (IHl' : NoDup (le_key <$> omap (long_edge g0 v a) l)) by (apply IHl; [intros; apply Hl; by right|done]).
        destruct (long_edge g0 v a k) as [le|] eqn:E; [|done]. cbn. apply NoDup_cons. split; [|done].
        destruct (long_edge_spec v a k le (Hl k ltac:(by left)) Ea E) as [-> _].
        intros (le' & Ek & (k' & Hk' & E')%list_elem_of_omap)%list_elem_of_fmap.
        destruct (long_edge_spec v a k' le' (Hl k' ltac:(by right)) Ea E') as [Ek' _]. congruence. }
      by apply Hs.
    - apply Hin, (wf_out g0 W) in Hk as [<- _]. apply list_elem_of_fmap in Hk' as (le & -> & (u & Hle & Hu)%list_elem_of_bind).
      assert (Hk' : le_key le ∈ out_edges g0 u) by (apply Hin, list_elem_of_fmap; by exists le).
      apply (wf_out g0 W) in Hk' as [<- _]. done. }
  apply H, nodes_nodup.
Qed.

(** ** The chains put in *)

Record Chain := mkCut { c_edge : LongEdge; c_ids : list string }.
Definition c_rank (c : Chain) (i : nat) : Z := le_v_rank (c_edge c) + 1 + Z.of_nat i.
Definition c_node (c : Chain) (i : nat) : NodeLabel := dummy_label (cut_label g0 (c_edge c)) (c_edge c) (c_rank c i).
Definition c_segment (c : Chain) : EdgeLabel := segment_label (e_weight (cut_label g0 (c_edge c))).
(** The segments along a path that starts at [v]. *)
Definition path_keys (v : string) (ids : list string) : list EdgeKey := zip_with EdgeKey_new (v :: ids) ids.
Definition segments (c : Chain) : list EdgeKey := path_keys (le_v (c_edge c)) (c_ids c ++ [le_w (c_edge c)]).

Lemma path_keys_snoc v ids w : path_keys v (ids ++ [w]) = path_keys v ids ++ [EdgeKey_new (default v (last ids)) w].
Proof.
  unfold path_keys. revert v. induction ids as [|d ids IH]; intros v; cbn; [done|]. f_equal.
  change (zip_with EdgeKey_new (d :: (ids ++ [w])) (ids ++ [w]) = zip_with EdgeKey_new (d :: ids) ids ++ [EdgeKey_new (default v (last (d :: ids))) w]).
  rewrite (IH d). do 3 f_equal. rewrite last_cons. by destruct (last ids).
Qed.
Lemma path_keys_ends v ids k : k ∈ path_keys v ids → key_w k ∈ ids ∧ (key_v k = v ∨ key_v k ∈ ids).
Proof.
  unfold path_keys. revert v. induction ids as [|d ids IH]; intros v; cbn; [by intros ?%elem_of_nil|].
  intros [->|Hk]%elem_of_cons; [cbn; set_solver|]. destruct (IH d Hk). set_solver.
Qed.

(** Nodes are those of the first graph, or dummies with small numbers. *)
Definition fresh_from (g : DagreGraph) : Prop := ∀ x, is_Some (g_nodes g !! x) →
  is_Some (g_nodes g0 !! x) ∨ ∃ r n, x = dummy_id r n ∧ (n < node_count g)%nat.
Lemma dummy_fresh g r : fresh_from g → g_nodes g !! dummy_id r (node_count g) = None.
Proof.
  intros F. apply eq_None_not_Some. intros H. destruct (F _ H) as [[x Hx]|(r' & n & E & Hn)].
  - by rewrite Hnames in Hx.
  - apply dummy_id_inj in E as [_ <-]. lia.
Qed.
Lemma set_node_count v l g : g_nodes g !! v = None → node_count (set_node v l g) = S (node_count g).
Proof. intros Hv. unfold node_count. rewrite set_node_nodes. by apply map_size_insert_None. Qed.

(** The state while the dummies of one edge are put in, onto [g1]. *)
Record chain_inv (g1 : DagreGraph) (e : EdgeLabel) (le : LongEdge) (ids : list string) (s : ChainState) : Prop := {
  ci_wf : wf (ch_graph s);
  ci_fresh : fresh_from (ch_graph s);
  ci_prev : ch_prev s = default (le_v le) (last ids);
  ci_first : ch_first s = head ids;
  ci_nodup : NoDup ids;
  ci_new d : d ∈ ids → g_nodes g1 !! d = None;
  ci_old x : x ∉ ids → g_nodes (ch_graph s) !! x = g_nodes g1 !! x;
  ci_node i d : ids !! i = Some d →
    g_nodes (ch_graph s) !! d = Some (dummy_label e le (le_v_rank le + 1 + Z.of_nat i));
  ci_edge k l : g_edges (ch_graph s) !! k = Some l ↔
    (g_edges g1 !! k = Some l ∧ k ∉ path_keys (le_v le) ids) ∨ (k ∈ path_keys (le_v le) ids ∧ l = segment_label (e_weight e));
  ci_rest : rest (ch_graph s) = rest g1
}.
Lemma add_dummy_ok g1 e le ids s r : chain_inv g1 e le ids s → is_Some (g_nodes g1 !! le_v le) →
  r = le_v_rank le + 1 + Z.of_nat (length ids) →
  ∃ s' d, add_dummy e le r s = Done s' ∧ chain_inv g1 e le (ids ++ [d]) s'.
Proof.
  intros [Wc F Hp Hf Hnd Hnew Hold Hnode Hedge Hrest] Hv Hr. unfold add_dummy.
  set (d := dummy_id r (node_count (ch_graph s))). set (g := set_node d (dummy_label e le r) (ch_graph s)).
  pose proof (dummy_fresh (ch_graph s) r F) as Hd. fold d in Hd.
  assert (Hdi : d ∉ ids).
  { intros [i Hi]%list_elem_of_lookup_1. by rewrite (Hnode i d Hi) in Hd. }
  assert (Hd1 : g_nodes g1 !! d = None) by (by rewrite <- (Hold d Hdi)).
  assert (Wg : wf g) by (by apply wf_set_node).
  assert (Hsome : ∀ x, is_Some (g_nodes (ch_graph s) !! x) → is_Some (g_nodes g !! x)).
  { intros x Hx. unfold g. rewrite set_node_nodes. apply lookup_insert_is_Some'. by right. }
  assert (Hprev : is_Some (g_nodes (ch_graph s) !! ch_prev s)).
  { rewrite Hp. destruct (last ids) as [p|] eqn:El; cbn.
    - apply last_Some in El as [l ->]. rewrite (Hnode (length l) p) by (by rewrite lookup_app_r, Nat.sub_diag by lia). by eexists.
    - rewrite Hold; [done|]. intros Hi%Hnew. by rewrite Hi in Hv; destruct Hv. }
  unfold set_edge. destruct (set_edge_key_linked (EdgeKey_new (ch_prev s) d) (segment_label (e_weight e)) g Wg)
    as (g' & -> & Wg' & Lk).
  { by apply Hsome. }
  { unfold g. rewrite set_node_nodes. apply lookup_insert_is_Some'. by left. }
  rewrite bind_done. eexists _, d. split; [done|].
  assert (Hnodes : g_nodes g' = <[d := dummy_label e le r]> (g_nodes (ch_graph s))).
  { rewrite (linked_nodes _ _ _ _ Lk). unfold g. apply set_node_nodes. }
  assert (Hcount : node_count g' = S (node_count (ch_graph s))).
  { unfold node_count. rewrite Hnodes. by apply map_size_insert_None. }
  split; cbn [ch_graph ch_prev ch_first].
  - done.
  - intros x. rewrite Hnodes, Hcount. intros [<-|Hx]%lookup_insert_is_Some'.
    + right. exists r, (node_count (ch_graph s)). split; [done|lia].
    + destruct (F x Hx) as [?|(r' & n & ? & ?)]; [by left|right]. exists r', n. split; [done|lia].
  - by rewrite last_snoc.
  - rewrite Hf. by destruct ids.
  - apply NoDup_app. split_and!; [done| |apply NoDup_singleton]. intros x Hx ->%list_elem_of_singleton. done.
  - intros x [?| ->%list_elem_of_singleton]%elem_of_app; [by apply Hnew|done].
  - intros x [Hx Hxd%not_elem_of_cons]%not_elem_of_app. rewrite Hnodes, lookup_insert_ne by naive_solver. by apply Hold.
  - intros i x [Hi|[-> <-]]%lookup_snoc_Some.
    + destruct Hi as [_ Hi]. rewrite Hnodes, lookup_insert_ne; [by apply Hnode|].
      intros <-. apply Hdi. by eapply list_elem_of_lookup_2.
    + by rewrite Hnodes, lookup_insert_eq, Hr.
  - intros k l. rewrite path_keys_snoc, <- Hp, (linked_edges _ _ _ _ Lk), elem_of_app, list_elem_of_singleton.
    unfold g. rewrite set_node_edges. destruct (decide (k = EdgeKey_new (ch_prev s) d)) as [->|Hne].
    + rewrite lookup_insert_eq. split; [intros [= <-]; right; auto|]. intros [[_ []]|[_ ->]]; [by right|done].
    + rewrite lookup_insert_ne by done. rewrite (Hedge k l). naive_solver.
  - rewrite (linked_rest _ _ _ _ Lk). unfold g. by rewrite set_node_rest.
Qed.
Lemma add_dummies_ok g1 e le n : wf g1 → fresh_from g1 → is_Some (g_nodes g1 !! le_v le) →
  ∃ s ids, fold_outcome (add_dummy e le) (seqZ (le_v_rank le + 1) n) (mkChain g1 (le_v le) None) = Done s ∧
    length ids = Z.to_nat n ∧ chain_inv g1 e le ids s.
Proof.
  intros W1 F1 Hv.
  destruct (fold_outcome_inv (λ pre s, ∃ ids, length ids = length pre ∧ chain_inv g1 e le ids s)
    (add_dummy e le) (seqZ (le_v_rank le + 1) n) (mkChain g1 (le_v le) None)) as (s & E & ids & Hlen & I).
  - exists []. split; [done|]. split; cbn; try done.
    + constructor.
    + by intros d ?%elem_of_nil.
    + intros k l. unfold path_keys. cbn. set_solver.
  - intros pre x post s Hl (ids & Hlen & I). destruct (add_dummy_ok g1 e le ids s x I Hv) as (s' & d & E & I').
    + assert (Hx : seqZ (le_v_rank le + 1) n !! length pre = Some x) by (by rewrite Hl, list_lookup_middle).
      apply lookup_seqZ in Hx as [-> _]. by rewrite Hlen.
    + exists s'. split; [done|]. exists (ids ++ [d]). split; [|done]. rewrite !length_app. cbn. lia.
  - exists s, ids. split_and!; [done| |done]. by rewrite Hlen, length_seqZ.
Qed.

Lemma segment_touches v ids w k : ids ≠ [] → k ∈ path_keys v (ids ++ [w]) → key_v k ∈ ids ∨ key_w k ∈ ids.
Proof.
  intros Hne. rewrite path_keys_snoc, elem_of_app, list_elem_of_singleton. intros [Hk| ->].
  - right. by apply (path_keys_ends v ids k).
  - left. cbn. destruct (last ids) as [d|] eqn:E; [|by apply last_None in E]. apply last_Some in E as [l ->]. set_solver.
Qed.

Record cut_inv (pre : list LongEdge) (cs : list Chain) (g : DagreGraph) : Prop := {
  cu_wf : wf g;
  cu_fresh : fresh_from g;
  cu_edges : c_edge <$> cs = pre;
  cu_nodup : NoDup (cs ≫= c_ids);
  cu_length c : c ∈ cs → length (c_ids c) = Z.to_nat (le_w_rank (c_edge c) - (le_v_rank (c_edge c) + 1));
  cu_in c : c ∈ cs → is_cut (c_edge c) ∧ c_ids c ≠ [];
  cu_new d : d ∈ cs ≫= c_ids → g_nodes g0 !! d = None;
  cu_old x : x ∉ cs ≫= c_ids → g_nodes g !! x = g_nodes g0 !! x;
  cu_node c i d : c ∈ cs → c_ids c !! i = Some d → g_nodes g !! d = Some (c_node c i);
  cu_edge k l : g_edges g !! k = Some l ↔
    (g_edges g0 !! k = Some l ∧ k ∉ le_key <$> pre) ∨ (∃ c, c ∈ cs ∧ k ∈ segments c ∧ l = c_segment c);
  cu_rest : rest g = rest g0
}.
Lemma in_ids c cs d : c ∈ cs → d ∈ c_ids c → d ∈ cs ≫= c_ids.
Proof. intros Hc Hd. apply list_elem_of_bind. by exists c. Qed.
Lemma cut_step pre cs le g chains : le ∈ L → le_key le ∉ le_key <$> pre → cut_inv pre cs g →
  ∃ g' ids, split_edge le (g, chains) = Done (g', chains ++ [default "" (head ids)]) ∧ ids ≠ [] ∧
    cut_inv (pre ++ [le]) (cs ++ [mkCut le ids]) g'.
Proof.
  intros Hle Hnot [Wg F Hpre Hnd Hlen Hin Hnew Hold Hnode Hedge Hrest].
  pose proof (cut_is_cut le Hle) as Hcut. destruct (cut_is_cut le Hle) as [[e Hke] Hvr Hwr Hlong Hwrap].
  assert (Hkg : g_edges g !! le_key le = Some e) by (apply Hedge; by left).
  unfold split_edge. unfold edge_by_key. rewrite Hkg. change (default EdgeLabel_default (Some e)) with e. cbn zeta.
  pose proof (remove_edge_by_key_spec (le_key le) g Wg) as U. set (g1 := remove_edge_by_key (le_key le) g) in *.
  assert (W1 : wf g1) by (by apply wf_remove_edge_by_key).
  pose proof (unlinked_nodes _ _ _ U) as N1.
  assert (F1 : fresh_from g1). { intros x. unfold node_count. rewrite N1. apply F. }
  destruct (edge_ends g _ Wg (ex_intro _ e Hkg)) as [Hv Hw]. cbn in Hv, Hw.
  unfold ranks_between. rewrite Hwrap. destruct (add_dummies_ok g1 e le (le_w_rank le - (le_v_rank le + 1)) W1 F1) as (s & ids & E & Hl & C).
  { by rewrite N1. }
  rewrite E, bind_done. destruct C as [Wc Fc Hp Hf Hndi Hnewi Holdi Hnodei Hedgei Hresti].
  assert (Hne : ids ≠ []) by (intros ->; cbn in Hl; lia).
  unfold set_edge. destruct (set_edge_key_linked (EdgeKey_new (ch_prev s) (le_w le)) (segment_label (e_weight e)) (ch_graph s) Wc)
    as (g' & -> & Wg' & Lk).
  { cbn. rewrite Hp. destruct (last ids) as [d|] eqn:El; [|by apply last_None in El]. apply last_Some in El as [l ->].
    cbn. rewrite (Hnodei (length l) d) by (by rewrite lookup_app_r, Nat.sub_diag by lia). by eexists. }
  { cbn. rewrite Holdi by (intros Hi%Hnewi; rewrite N1 in Hi; by rewrite Hi in Hw; destruct Hw). by rewrite N1. }
  rewrite bind_done. exists g', ids. split_and!; [rewrite Hf; by destruct ids|done|].
  set (c := mkCut le ids).
  assert (Eseg : segments c = path_keys (le_v le) ids ++ [EdgeKey_new (ch_prev s) (le_w le)]).
  { unfold segments. rewrite path_keys_snoc, Hp. done. }
  assert (Hseg : ∀ k, k ∈ segments c → g_edges g1 !! k = None).
  { intros k Hk. apply eq_None_not_Some. intros Hs. destruct (edge_ends g1 k W1 Hs) as [[? Ha] [? Hb]].
    destruct (segment_touches _ _ _ _ Hne Hk) as [Hi|Hi]; apply Hnewi in Hi; congruence. }
  assert (Hlab : c_segment c = segment_label (e_weight e)) by (unfold c_segment, cut_label; cbn; by rewrite Hke).
  assert (Hids : (cs ++ [c]) ≫= c_ids = (cs ≫= c_ids) ++ ids) by (rewrite bind_app; cbn; by rewrite app_nil_r).
  assert (Hidsg : ∀ d, d ∈ cs ≫= c_ids → is_Some (g_nodes g !! d)).
  { intros d (c' & Hd & Hc')%list_elem_of_bind. apply list_elem_of_lookup_1 in Hd as [i Hi].
    rewrite (Hnode c' i d Hc' Hi). by eexists. }
  assert (Hdisj : ∀ d, d ∈ ids → d ∉ cs ≫= c_ids).
  { intros d Hd Hd'. apply Hnewi in Hd. rewrite N1 in Hd. destruct (Hidsg d Hd') as [? ?]. congruence. }
  split.
  - done.
  - intros x. unfold node_count. rewrite (linked_nodes _ _ _ _ Lk). apply Fc.
  - by rewrite fmap_app, Hpre.
  - rewrite Hids. apply NoDup_app. split_and!; [done| |done]. intros d Hd Hd'. by apply (Hdisj d).
  - intros c' [Hc'| ->%list_elem_of_singleton]%elem_of_app; [by apply Hlen|done].
  - intros c' [Hc'| ->%list_elem_of_singleton]%elem_of_app; [by apply Hin|done].
  - intros d. rewrite Hids, elem_of_app. intros [?|Hd]; [by apply Hnew|].
    rewrite <- (Hold d) by (by apply Hdisj). rewrite <- N1. by apply Hnewi.
  - intros x. rewrite Hids, not_elem_of_app. intros [Hx Hx']. rewrite (linked_nodes _ _ _ _ Lk), Holdi, N1 by done. by apply Hold.
  - intros c' i d [Hc'| ->%list_elem_of_singleton]%elem_of_app Hi.
    + rewrite (linked_nodes _ _ _ _ Lk), Holdi, N1; [by apply Hnode|]. intros Hd. apply (Hdisj d Hd).
      apply (in_ids c'); [done|by eapply list_elem_of_lookup_2].
    + rewrite (linked_nodes _ _ _ _ Lk), (Hnodei i d Hi). unfold c_node, c_rank, cut_label. cbn. by rewrite Hke.
  - intros k l. rewrite (linked_edges _ _ _ _ Lk).
    assert (Hsplit : (<[EdgeKey_new (ch_prev s) (le_w le) := segment_label (e_weight e)]> (g_edges (ch_graph s)) !! k = Some l) ↔
      (g_edges g1 !! k = Some l ∨ (k ∈ segments c ∧ l = c_segment c))).
    { rewrite Eseg, elem_of_app, list_elem_of_singleton, Hlab. rewrite Eseg in Hseg.
      destruct (decide (k = EdgeKey_new (ch_prev s) (le_w le))) as [->|Hk].
      - rewrite lookup_insert_eq. rewrite Hseg by set_solver. naive_solver.
      - rewrite lookup_insert_ne by done. rewrite (Hedgei k l). split; [naive_solver|].
        intros [H1|[[?|?] ?]]; [left|by right|done]. split; [done|]. intros Hpk. rewrite Hseg in H1; [done|set_solver]. }
    rewrite Hsplit, (unlinked_edges _ _ _ U k), fmap_app, elem_of_app. setoid_rewrite elem_of_app. setoid_rewrite list_elem_of_singleton.
    destruct (decide (k = le_key le)) as [->|Hk].
    + split; [intros [?|[Hs ?]]; [done|right; by exists c; auto]|]. intros [[_ []]|(c' & [Hc'| ->] & Hs & ->)]; [by right| |by right].
      exfalso. destruct (edge_ends g0 _ W (ex_intro _ e Hke)) as [[? Ha] [? Hb]].
      destruct (Hin c' Hc') as [_ Hne'].
      destruct (segment_touches _ _ _ _ Hne' Hs) as [Hi|Hi]; apply (in_ids c' cs _ Hc'), Hnew in Hi; congruence.
    + rewrite (Hedge k l). split.
      * intros [[[? ?]|(c' & ? & ?)]|[? ?]]; [left|right; exists c'; tauto|right; exists c; tauto].
        split; [done|]. by intros [?|?].
      * intros [[? ?]|(c' & [?| ->] & ? & ?)]; [left; left; tauto|left; right; exists c'; tauto|right; tauto].
  - by rewrite (linked_rest _ _ _ _ Lk), Hresti, (unlinked_rest _ _ _ U).
Qed.

Lemma cut_run : ∃ cs g, run g0 = Done (set_g_graph_label (set_gl_dummy_chains (default "" ∘ head ∘ c_ids <$> cs) (g_graph_label g0)) g) ∧
  cut_inv L cs g.
Proof.
  destruct (fold_outcome_inv (λ pre s, ∃ cs, s.2 = (default "" ∘ head ∘ c_ids <$> cs) ∧ cut_inv pre cs s.1)
    split_edge L (g0, [])) as ([g chains] & E & cs & Ech & I).
  - exists []. split; [done|]. split; cbn; try done.
    + intros x Hx. by left.
    + constructor.
    + by intros c ?%elem_of_nil.
    + by intros c ?%elem_of_nil.
    + by intros d ?%elem_of_nil.
    + by intros c i d ?%elem_of_nil.
    + intros k l. split; [left; split; [done|by intros ?%elem_of_nil]|].
      intros [[? _]|(c & ?%elem_of_nil & _)]; done.
  - intros pre le post [g chains] Hl (cs & Ech & I). cbn in Ech, I.
    assert (Hnd : NoDup (le_key <$> L)) by apply cut_keys_nodup.
    rewrite Hl, fmap_app, fmap_cons in Hnd. apply NoDup_app in Hnd as (_ & Hd & _).
    destruct (cut_step pre cs le g chains) as (g' & ids & E & _ & I'); [rewrite Hl; set_solver|intros Hk; apply (Hd _ Hk); by left|done|].
    exists (g', chains ++ [default "" (head ids)]). split; [done|].
    exists (cs ++ [mkCut le ids]). split; [|done]. cbn. by rewrite fmap_app, Ech.
  - cbn in Ech, I. exists cs, g. split; [|done]. unfold run. fold L. rewrite E, bind_done. cbn.
    rewrite <- Ech. by rewrite (rest_label g g0) by apply (cu_rest _ _ _ I).
Qed.
(** Ranks along a chain. *)
Lemma chain_rank cs g c i a : cut_inv L cs g → c ∈ cs → (le_v (c_edge c) :: c_ids c ++ [le_w (c_edge c)]) !! i = Some a →
  node_rank g a = Some (le_v_rank (c_edge c) + Z.of_nat i).
Proof.
  intros I Hc Hi.
  assert (Hle : c_edge c ∈ L) by (rewrite <- (cu_edges _ _ _ I); apply list_elem_of_fmap; by exists c).
  destruct (cut_is_cut _ Hle) as [Hke Hvr Hwr Hlong Hwrap]. destruct (edge_ends g0 _ W Hke) as [Hv Hw]. cbn in Hv, Hw.
  assert (Horig : ∀ x, is_Some (g_nodes g0 !! x) → node_rank g x = node_rank g0 x).
  { intros x [n Hx]. unfold node_rank, node. rewrite (cu_old _ _ _ I x); [done|].
    intros Hd%(cu_new _ _ _ I). congruence. }
  destruct i as [|i]; cbn in Hi.
  { injection Hi as <-. rewrite Horig, Hvr by done. f_equal. lia. }
  apply lookup_snoc_Some in Hi as [[_ Hi]|[-> <-]].
  - unfold node_rank, node. rewrite (cu_node _ _ _ I c i a Hc Hi). cbn.
    assert (Hr : ∀ e r, n_rank (dummy_label e (c_edge c) r) = Some r) by (intros e r; unfold dummy_label; by case_match).
    unfold c_node. rewrite Hr. unfold c_rank. f_equal. lia.
  - rewrite Horig, Hwr by done. f_equal. pose proof (cu_length _ _ _ I c Hc). lia.
Qed.
Lemma cut_unit cs g k : cut_inv L cs g → is_Some (g_edges g !! k) →
  ∃ a, node_rank g (key_v k) = Some a ∧ node_rank g (key_w k) = Some (a + 1).
Proof.
  intros I [l [[Hk Hn]|(c & Hc & Hs & _)]%(cu_edge _ _ _ I)].
  - destruct (cut_or_unit k (ex_intro _ l Hk)) as [(a & Ha & Hb)|?]; [|done].
    destruct (edge_ends g0 _ W (ex_intro _ l Hk)) as [[? Hv] [? Hw]].
    assert (Horig : ∀ x n, g_nodes g0 !! x = Some n → node_rank g x = node_rank g0 x).
    { intros y n Hy. unfold node_rank, node. rewrite (cu_old _ _ _ I y); [done|].
      intros Hd%(cu_new _ _ _ I). congruence. }
    exists a. split; [by rewrite (Horig _ _ Hv)|by rewrite (Horig _ _ Hw)].
  - unfold segments, path_keys in Hs. apply list_elem_of_lookup_1 in Hs as [i Hi].
    apply lookup_zip_with_Some in Hi as (a & b & -> & Ha & Hb).
    assert (Hb' : (le_v (c_edge c) :: c_ids c ++ [le_w (c_edge c)]) !! S i = Some b) by done.
    exists (le_v_rank (c_edge c) + Z.of_nat i). change (key_v (EdgeKey_new a b)) with a. change (key_w (EdgeKey_new a b)) with b.
    rewrite (chain_rank cs g c i a I Hc Ha), (chain_rank cs g c (S i) b I Hc Hb'). split; [done|]. f_equal. lia.
Qed.

(** ** The way back *)

Context (Hplain : ∀ x n, g_nodes g0 !! x = Some n → n_dummy n = None).
Section joining.
Context (cs : list Chain) (g1 g2 : DagreGraph) (I : cut_inv L cs g1).
Context (W2 : wf g2) (He2 : g_edges g2 = g_edges g1).
Context (Hdom : ∀ x, is_Some (g_nodes g2 !! x) ↔ is_Some (g_nodes g1 !! x)).
Context (Hn2 : ∀ x n n', g_nodes g1 !! x = Some n → g_nodes g2 !! x = Some n' →
  n_rank n' = n_rank n ∧ n_dummy n' = n_dummy n ∧ n_edge_label n' = n_edge_label n ∧ n_edge_obj n' = n_edge_obj n).

Definition chain_nodes (c : Chain) : list NodeLabel := omap (λ d, g_nodes g2 !! d) (c_ids c).
Definition rejoined (c : Chain) : EdgeLabel := routed (chain_nodes c) (cut_label g0 (c_edge c)).

Record join_inv (pre post : list Chain) (g : DagreGraph) : Prop := {
  ji_wf : wf g;
  ji_nodes x : g_nodes g !! x = if decide (x ∈ pre ≫= c_ids) then None else g_nodes g2 !! x;
  ji_edges k l : g_edges g !! k = Some l ↔
    (g_edges g0 !! k = Some l ∧ k ∉ le_key <$> L) ∨
    (∃ c, c ∈ post ∧ k ∈ segments c ∧ l = c_segment c) ∨
    (∃ c, c ∈ pre ∧ k = le_key (c_edge c) ∧ l = rejoined c)
}.
Lemma chain_edge c : c ∈ cs → is_cut (c_edge c) ∧ c_ids c ≠ [] ∧ c_edge c ∈ L.
Proof.
  intros Hc. destruct (cu_in _ _ _ I c Hc). split_and!; [done..|].
  rewrite <- (cu_edges _ _ _ I). apply list_elem_of_fmap. by exists c.
Qed.
Lemma original_node x : is_Some (g_nodes g0 !! x) → x ∉ cs ≫= c_ids ∧ ∃ n, g_nodes g2 !! x = Some n ∧ n_dummy n = None.
Proof.
  intros [n Hx]. assert (Hni : x ∉ cs ≫= c_ids) by (intros Hi%(cu_new _ _ _ I); congruence). split; [done|].
  assert (H1 : g_nodes g1 !! x = Some n) by (by rewrite (cu_old _ _ _ I)).
  destruct (proj2 (Hdom x) ltac:(by eexists)) as [n' Hn']. exists n'. split; [done|].
  destruct (Hn2 x n n' H1 Hn') as (_ & -> & _). by eapply Hplain.
Qed.
Lemma dummy_node c i d : c ∈ cs → c_ids c !! i = Some d → ∃ n, g_nodes g2 !! d = Some n ∧
  n_rank n = Some (c_rank c i) ∧ is_Some (n_dummy n) ∧ n_edge_label n = Some (cut_label g0 (c_edge c)) ∧
  n_edge_obj n = Some (le_v (c_edge c), le_w (c_edge c), le_name (c_edge c)).
Proof.
  intros Hc Hi. pose proof (cu_node _ _ _ I c i d Hc Hi) as H1.
  destruct (proj2 (Hdom d) ltac:(by eexists)) as [n Hn]. exists n. split; [done|].
  destruct (Hn2 d _ n H1 Hn) as (-> & -> & -> & ->). unfold c_node, dummy_label.
  case_bool_decide; cbn; split_and!; try done; by eexists.
Qed.
Lemma chain_nodes_spec c : c ∈ cs → Forall2 (λ d n, g_nodes g2 !! d = Some n ∧ is_Some (n_dummy n)) (c_ids c) (chain_nodes c).
Proof.
  intros Hc. unfold chain_nodes.
  assert (H : ∀ d, d ∈ c_ids c → ∃ n, g_nodes g2 !! d = Some n ∧ is_Some (n_dummy n)).
  { intros d [i Hi]%list_elem_of_lookup_1. destruct (dummy_node c i d Hc Hi) as (n & ? & _ & ? & _). by exists n. }
  induction (c_ids c) as [|d ids IH]; cbn [omap list_omap]; [constructor|].
  destruct (H d ltac:(by left)) as (n & Hn & Hd). rewrite Hn. constructor; [done|]. apply IH. intros; apply H; by right.
Qed.
Lemma original_edge k : is_Some (g_edges g0 !! k) → key_v k ∉ cs ≫= c_ids ∧ key_w k ∉ cs ≫= c_ids.
Proof. intros Hk. destruct (edge_ends g0 k W Hk) as [Hv Hw]. split; by apply original_node. Qed.
Lemma segment_at c i d nx : c ∈ cs → c_ids c !! i = Some d → (c_ids c ++ [le_w (c_edge c)]) !! S i = Some nx →
  EdgeKey_new d nx ∈ segments c ∧ ∀ k, k ∈ segments c → key_v k = d → key_w k = nx.
Proof.
  intros Hc Hi Hnx. destruct (chain_edge c Hc) as ([Hke _ _ _ _] & _ & _). destruct (original_edge _ Hke) as [Hv _]. cbn in Hv.
  assert (Hdi : d ∈ c_ids c) by (by eapply list_elem_of_lookup_2).
  unfold segments, path_keys. split.
  - apply (list_elem_of_lookup_2 _ (S i)), lookup_zip_with_Some. exists d, nx. split_and!; [done| |done].
    change ((c_ids c ++ [le_w (c_edge c)]) !! i = Some d). rewrite lookup_app_l by (by eapply lookup_lt_Some). done.
  - intros k [j Hj]%list_elem_of_lookup_1 Hk. apply lookup_zip_with_Some in Hj as (a & b & -> & Ha & Hb). cbn in Hk. subst a. change (b = nx).
    destruct j as [|j].
    + cbn in Ha. injection Ha as Ha. exfalso. apply Hv. rewrite Ha. by apply (in_ids c).
    + change ((c_ids c ++ [le_w (c_edge c)]) !! j = Some d) in Ha. assert (Hij : i = j); [|by simplify_eq].
      assert (Hl : (j < length (c_ids c))%nat).
      { apply lookup_lt_Some in Hb. rewrite length_app in Hb. cbn in Hb. lia. }
      rewrite lookup_app_l in Ha by done. pose proof (cu_nodup _ _ _ I) as Hnd.
      apply list_elem_of_lookup_1 in Hc as [m Hm]. rewrite <- (take_drop_middle _ _ _ Hm), bind_app in Hnd. cbn in Hnd.
      apply NoDup_app in Hnd as (_ & _ & [Hnd _]%NoDup_app). by eapply NoDup_lookup.
Qed.
(** Segments of one chain keep away from the dummies of another. *)
Lemma segment_apart c c' k d : c' ∈ cs → (∀ x, x ∈ c_ids c → x ∉ c_ids c') → d ∈ c_ids c → c ∈ cs →
  k ∈ segments c' → key_v k ≠ d ∧ key_w k ≠ d.
Proof.
  intros Hc' Hap Hd Hc Hk. destruct (chain_edge c' Hc') as ([Hke _ _ _ _] & _ & _). destruct (original_edge _ Hke) as [Hv Hw]. cbn in Hv, Hw.
  apply path_keys_ends in Hk as [Hkw Hkv]. pose proof (in_ids c cs d Hc Hd) as Hin. specialize (Hap d Hd).
  split; intros E; rewrite E in *.
  - destruct Hkv as [->|[?|Hkv%list_elem_of_singleton]%elem_of_app]; [done..|by rewrite Hkv in Hin].
  - apply elem_of_app in Hkw as [?|Hkw%list_elem_of_singleton]; [done|by rewrite Hkw in Hin].
Qed.
Lemma cs_apart pre c post : cs = pre ++ c :: post →
  NoDup (c_ids c) ∧ (∀ d, d ∈ c_ids c → d ∉ pre ≫= c_ids) ∧ (∀ c' d, c' ∈ post → d ∈ c_ids c → d ∉ c_ids c').
Proof.
  intros E. pose proof (cu_nodup _ _ _ I) as Hnd. rewrite E, bind_app in Hnd. cbn in Hnd.
  apply NoDup_app in Hnd as (_ & Hd & (Hn & Hp & _)%NoDup_app). split_and!; [done|intros d ?? |].
  - apply (Hd d); [done|]. apply elem_of_app. by left.
  - intros c' d Hc' Hdc Hd'. apply (Hp d Hdc). by apply (in_ids c').
Qed.
Lemma join_linear pre c post g : cs = pre ++ c :: post → join_inv pre (c :: post) g → linear g (c_ids c) (le_w (c_edge c)).
Proof.
  intros E [Wg Hn He]. destruct (cs_apart pre c post E) as (Hnd & Hpre & Hpost).
  assert (Hc : c ∈ cs) by (rewrite E; set_solver). apply linear_intro. intros i d nx Hi Hnx.
  assert (Hd : d ∈ c_ids c) by (by eapply list_elem_of_lookup_2). pose proof (in_ids c cs d Hc Hd) as Hin.
  destruct (segment_at c i d nx Hc Hi Hnx) as [Hs Hu]. split.
  - exists (c_segment c). apply He. right; left. exists c. split; [by left|done].
  - intros k [l [[Hk _]|[(c' & Hc' & Hk & _)|(c' & Hc' & -> & _)]]%He] Hkd.
    + destruct (original_edge k (ex_intro _ l Hk)) as [Hv _]. by rewrite Hkd in Hv.
    + apply elem_of_cons in Hc' as [->|Hc']; [by apply Hu|]. exfalso.
      assert (Hc'' : c' ∈ cs) by (rewrite E; set_solver).
      destruct (segment_apart c c' k d Hc'') as [? _]; [intros; by apply Hpost|done..].
    + assert (Hc'' : c' ∈ cs) by (rewrite E; set_solver). destruct (chain_edge c' Hc'') as ([Hke _ _ _ _] & _ & _).
      destruct (original_edge _ Hke) as [Hv _]. by rewrite Hkd in Hv.
Qed.
(** Off the dummies of [c], the state before and after. *)
Lemma join_edges pre c post k l : cs = pre ++ c :: post →
  let before := (g_edges g0 !! k = Some l ∧ k ∉ le_key <$> L) ∨
    (∃ c', c' ∈ c :: post ∧ k ∈ segments c' ∧ l = c_segment c') ∨
    (∃ c', c' ∈ pre ∧ k = le_key (c_edge c') ∧ l = rejoined c') in
  ((k = le_key (c_edge c) ∧ l = rejoined c) ∨
    (k ≠ le_key (c_edge c) ∧ ¬ (key_v k ∈ c_ids c ∨ key_w k ∈ c_ids c) ∧ before)) ↔
  ((g_edges g0 !! k = Some l ∧ k ∉ le_key <$> L) ∨
    (∃ c', c' ∈ post ∧ k ∈ segments c' ∧ l = c_segment c') ∨
    (∃ c', c' ∈ pre ++ [c] ∧ k = le_key (c_edge c') ∧ l = rejoined c')).
Proof.
  intros E. cbn zeta. destruct (cs_apart pre c post E) as (Hnd & Hpre & Hpost).
  assert (Hc : c ∈ cs) by (rewrite E; set_solver).
  destruct (chain_edge c Hc) as ([Hke _ _ _ _] & Hne & HL).
  assert (Hoff : ∀ x, is_Some (g_edges g0 !! x) → ¬ (key_v x ∈ c_ids c ∨ key_w x ∈ c_ids c)).
  { intros x [Hv Hw]%original_edge. intros [?|?]; [apply Hv|apply Hw]; by apply (in_ids c). }
  assert (Hin : ∀ c', c' ∈ pre ∨ c' ∈ post → c' ∈ cs) by (intros c'; rewrite E; set_solver).
  assert (Hpoff : ∀ c', c' ∈ post → k ∈ segments c' → ¬ (key_v k ∈ c_ids c ∨ key_w k ∈ c_ids c)).
  { intros c' Hc' Hk [Hd|Hd]; (eapply (segment_apart c c' k _ (Hin c' ltac:(by right))) in Hk; [|intros; by apply Hpost|exact Hd|done]); tauto. }
  assert (Hkeys : NoDup ((λ c', le_key (c_edge c')) <$> cs)).
  { pose proof cut_keys_nodup as H. fold L in H. rewrite <- (cu_edges _ _ _ I), <- list_fmap_compose in H. exact H. }
  rewrite E, fmap_app, fmap_cons in Hkeys. apply NoDup_app in Hkeys as (_ & Hkp & [_ _]%NoDup_cons).
  split.
  - intros [[-> ->]|(Hk & Hoffk & [?|[(c' & Hc' & Hs & ->)|(c' & Hc' & -> & ->)]])].
    + right; right. exists c. set_solver.
    + by left.
    + apply elem_of_cons in Hc' as [->|Hc']; [|right; left; by exists c'].
      exfalso. apply Hoffk. by apply (segment_touches _ _ (le_w (c_edge c))) in Hs.
    + right; right. exists c'. set_solver.
  - intros [[Hk Hn]|[(c' & Hc' & Hs & ->)|(c' & Hc' & -> & ->)]].
    + right. split_and!; [|apply Hoff; by eexists|by left]. intros ->. apply Hn. apply list_elem_of_fmap. by exists (c_edge c).
    + right. split_and!; [|by eapply Hpoff|right; left; exists c'; set_solver]. intros ->.
      destruct (chain_edge c' (Hin c' ltac:(by right))) as (_ & Hne' & _).
      destruct (segment_touches _ _ _ _ Hne' Hs) as [Hd|Hd]; apply (in_ids c' cs) in Hd; try (apply Hin; by right);
        by apply (original_edge _ Hke) in Hd.
    + apply elem_of_app in Hc' as [Hc'| ->%list_elem_of_singleton]; [|by left].
      destruct (chain_edge c' (Hin c' ltac:(by left))) as ([Hke' _ _ _ _] & _ & _).
      right. split_and!; [|by apply Hoff|right; right; by exists c']. intros Hk.
      apply (Hkp (le_key (c_edge c'))); [apply list_elem_of_fmap; by exists c'|rewrite Hk; by left].
Qed.
Lemma join_step pre c post g : cs = pre ++ c :: post → join_inv pre (c :: post) g →
  ∃ g', join_chain (default "" (head (c_ids c))) g = Done g' ∧ join_inv (pre ++ [c]) post g'.
Proof.
  intros E J. destruct (cs_apart pre c post E) as (Hnd & Hpre & Hpost). pose proof (join_linear pre c post g E J) as Hlin.
  assert (Hc : c ∈ cs) by (rewrite E; set_solver). destruct (chain_edge c Hc) as ([Hke _ _ _ _] & Hne & HL).
  destruct J as [Wg Hn He]. assert (Hg2 : ∀ d, d ∈ c_ids c → g_nodes g !! d = g_nodes g2 !! d).
  { intros d Hd. rewrite Hn, decide_False; [done|by apply Hpre]. }
  destruct (edge_ends g0 _ W Hke) as [Hv0 Hw0]. cbn in Hv0, Hw0.
  assert (Horig : ∀ x, is_Some (g_nodes g0 !! x) → x ∉ c_ids c ∧ ∃ n, g_nodes g !! x = Some n ∧ n_dummy n = None).
  { intros x Hx. destruct (original_node x Hx) as (Hni & n & Hx2 & Hp). split; [intros ?; by apply Hni, (in_ids c)|].
    exists n. split; [|done]. rewrite Hn, decide_False; [done|]. rewrite E, bind_app in Hni. set_solver. }
  destruct (Horig _ Hw0) as (Hwi & nw & Hw & Hpw). destruct (Horig _ Hv0) as (Hvi & nv & Hv & _).
  destruct (c_ids c) as [|d0 ids] eqn:Eids; [done|]. rewrite <- Eids in *. clear Hne.
  assert (Hd0 : c_ids c !! 0%nat = Some d0) by (by rewrite Eids).
  destruct (dummy_node c 0 d0 Hc Hd0) as (n0 & Hn0 & _ & _ & Hlab & Hobj).
  unfold join_chain. replace (default "" (head (c_ids c))) with d0 by (by rewrite Eids). unfold node.
  rewrite (Hg2 d0), Hn0, Hobj, Hlab by (rewrite Eids; by left).
  destruct (collect_ok (c_ids c) g (chain_nodes c) (node_count g) [] (cut_label g0 (c_edge c)) (le_w (c_edge c)) nw)
    as (g' & Eg & Wg' & Hlg & Hng & Heg); [done|done| |done|done|done| |].
  { eapply Forall2_impl_in; [by apply chain_nodes_spec|]. intros x n Hx [Hxn ?]. by rewrite Hg2. }
  { unfold node_count. rewrite <- (size_dom (D := gset string)), <- (size_list_to_set (C := gset string)) by done.
    apply subseteq_size. intros x Hx%elem_of_list_to_set. apply elem_of_dom. rewrite Hg2 by done.
    apply list_elem_of_lookup_1 in Hx as [i Hi]. destruct (dummy_node c i x Hc Hi) as (n & Hxn & _). by exists n. }
  replace (default (le_w (c_edge c)) (head (c_ids c))) with d0 in Eg by (by rewrite Eids).
  change (default EdgeLabel_default (Some (cut_label g0 (c_edge c)))) with (cut_label g0 (c_edge c)). rewrite Eg, bind_done.
  cbn [co_points co_label co_graph app].
  destruct (set_edge_key_linked (le_key (c_edge c)) (rejoined c) g' Wg') as (g3 & E3 & W3 & Lk).
  { cbn. rewrite Hng, decide_False, Hv by done. by eexists. }
  { cbn. rewrite Hng, decide_False, Hw by done. by eexists. }
  exists g3. split.
  { unfold le_key, rejoined, routed in E3. unfold set_edge, set_edge_with_name, EdgeKey_new, EdgeKey_with_name.
    by destruct (le_name (c_edge c)). }
  split.
  - done.
  - intros x. rewrite (linked_nodes _ _ _ _ Lk), Hng, Hn, bind_app. cbn [mbind list_bind]. rewrite app_nil_r.
    destruct (decide (x ∈ c_ids c)) as [Hx|Hx].
    + rewrite decide_True; [done|]. apply elem_of_app. by right.
    + apply decide_ext. rewrite elem_of_app. tauto.
  - intros k l. rewrite <- (join_edges pre c post k l E), (linked_edges _ _ _ _ Lk), <- (He k l).
    destruct (decide (k = le_key (c_edge c))) as [->|Hk].
    + rewrite lookup_insert_eq. naive_solver.
    + rewrite lookup_insert_ne, Heg by done. destruct (decide _) as [Ht|Ht]; [|tauto].
      split; [done|]. intros [[]|(_ & [] & _)]; done.
Qed.
Lemma join_all : gl_dummy_chains (g_graph_label g2) = (default "" ∘ head ∘ c_ids <$> cs) →
  ∃ g3, undo g2 = Done g3 ∧ join_inv cs [] g3.
Proof.
  intros Hch. unfold undo. rewrite Hch.
  assert (H : ∀ post pre g, cs = pre ++ post → join_inv pre post g →
    ∃ g3, fold_outcome join_chain (default "" ∘ head ∘ c_ids <$> post) g = Done g3 ∧ join_inv cs [] g3).
  { induction post as [|c post IH]; intros pre g E J.
    - exists g. rewrite app_nil_r in E. subst pre. by split.
    - destruct (join_step pre c post g E J) as (g' & Eg & J'). cbn [fmap list_fmap fold_outcome]. 
      change ((default "" ∘ head ∘ c_ids) c) with (default "" (head (c_ids c))). rewrite Eg, bind_done.
      apply (IH (pre ++ [c])); [by rewrite <- app_assoc|done]. }
  apply (H cs []); [done|]. split.
  - by apply (wf_same_shape g2).
  - intros x. by rewrite decide_False by (by intros ?%elem_of_nil).
  - intros k l. change (g_edges (set_g_graph_label _ g2)) with (g_edges g2). rewrite He2, (cu_edge _ _ _ I k l).
    assert (Hnil : ¬ ∃ c, c ∈ ([] : list Chain) ∧ k = le_key (c_edge c) ∧ l = rejoined c) by (by intros (c & ?%elem_of_nil & _)).
    tauto.
Qed.
End joining.
End cutting.

(** ** What normalisation promises *)

(** Every edge goes down, ranks are [i32]s, no user node has a dummy's name or a
    [dummy] mark, and no adjacency list holds a key twice. *)
Record normalizable (g : DagreGraph) : Prop := {
  nz_wf : wf g;
  nz_down k : is_Some (g_edges g !! k) → ∃ a b,
    node_rank g (key_v k) = Some a ∧ node_rank g (key_w k) = Some b ∧ a < b ∧ i32_min ≤ a ∧ b ≤ i32_max;
  nz_names r n : g_nodes g !! dummy_id r n = None;
  nz_out v : NoDup (out_edges g v);
  nz_plain x n : g_nodes g !! x = Some n → n_dummy n = None
}.

(** What comes out of [run]: unit edges, the old nodes, and dummies between them. *)
Lemma normalize_ok g : normalizable g →
  ∃ g', run g = Done g' ∧ wf g' ∧
    (∀ k, is_Some (g_edges g' !! k) → ∃ a, node_rank g' (key_v k) = Some a ∧ node_rank g' (key_w k) = Some (a + 1)) ∧
    (∀ x n, g_nodes g !! x = Some n → g_nodes g' !! x = Some n) ∧
    (∀ x n, g_nodes g' !! x = Some n → g_nodes g !! x = Some n ∨
      ∃ e le r u a w b, n = dummy_label e le r ∧ node_rank g u = Some a ∧ node_rank g w = Some b ∧ a < r < b) ∧
    g_parent g' = g_parent g ∧ g_children g' = g_children g ∧
    g_graph_label g' = set_gl_dummy_chains (gl_dummy_chains (g_graph_label g')) (g_graph_label g).
Proof.
  intros [W Hd Hn Ho Hp]. destruct (cut_run g W Hd Hn Ho) as (cs & g' & -> & I). eexists. split_and!; [done| | | | | | |].
  - apply (wf_same_shape g'); [done|]. by apply (cu_wf _ _ _ _ I).
  - intros k Hk. by apply (cut_unit g W Hd Hn Ho cs g').
  - intros x n Hx. cbn. rewrite (cu_old _ _ _ _ I); [done|]. intros Hi%(cu_new _ _ _ _ I). congruence.
  - intros x n Hx. cbn in Hx. destruct (decide (x ∈ cs ≫= c_ids)) as [(c & Hc & Hcs)%list_elem_of_bind|Hx'].
    + right. apply list_elem_of_lookup_1 in Hc as [i Hi]. rewrite (cu_node _ _ _ _ I c i x Hcs Hi) in Hx. injection Hx as <-.
      destruct (cu_in _ _ _ _ I c Hcs) as [[_ Hv Hw Hlong _] _]. pose proof (cu_length _ _ _ _ I c Hcs) as Hl. apply lookup_lt_Some in Hi.
      exists (cut_label g (c_edge c)), (c_edge c), (c_rank c i), (le_v (c_edge c)), (le_v_rank (c_edge c)), (le_w (c_edge c)), (le_w_rank (c_edge c)).
      split_and!; [done..|unfold c_rank; lia|unfold c_rank; lia].
    + left. by rewrite <- (cu_old _ _ _ _ I).
  - cbn. exact (rest_parent _ _ (cu_rest _ _ _ _ I)).
  - cbn. exact (rest_children _ _ (cu_rest _ _ _ _ I)).
  - done.
Qed.
Lemma normalize_undo_ok g g1 g2 : normalizable g → run g = Done g1 → placed g1 g2 →
  ∃ g3, undo g2 = Done g3 ∧ wf g3 ∧
    (∀ x, g_nodes g3 !! x = if has_node g x then g_nodes g2 !! x else None) ∧
    (∀ k, g_edges g !! k = None → g_edges g3 !! k = None) ∧
    (∀ k l a b, g_edges g !! k = Some l → node_rank g (key_v k) = Some a → node_rank g (key_w k) = Some b →
      if b =? a + 1 then g_edges g3 !! k = Some l else
      ∃ ns, g_edges g3 !! k = Some (routed ns l) ∧ n_rank <$> ns = Some <$> seqZ (a + 1) (b - (a + 1)) ∧
        ∀ n, n ∈ ns → ∃ d, g_nodes g2 !! d = Some n ∧ g_nodes g !! d = None).
Proof.
  intros [W Hd Hn Ho Hp] E [W2 He2 Hch Hdom Hnode]. destruct (cut_run g W Hd Hn Ho) as (cs & g' & E' & I).
  rewrite E' in E. injection E as <-. cbn in He2, Hdom, Hnode.
  destruct (join_all g W Hd Hn Ho Hp cs g' g2 I W2 He2 Hdom Hnode Hch) as (g3 & Eu & [W3 Hn3 He3]).
  exists g3. split_and!; [done|done| | |].
  - intros x. rewrite Hn3. unfold has_node. case_bool_decide as Hx.
    + rewrite decide_False; [done|]. intros Hi%(cu_new _ _ _ _ I). by rewrite Hi in Hx; destruct Hx.
    + destruct (decide (x ∈ cs ≫= c_ids)) as [?|Hi]; [done|]. apply eq_None_not_Some. intros Hx2%Hdom.
      apply Hx. by rewrite <- (cu_old _ _ _ _ I x Hi).
  - intros k Hk. apply eq_None_not_Some. intros [l [[? _]|[(c & ?%elem_of_nil & _)|(c & Hc & -> & _)]]%He3]; [congruence|done|].
    destruct (chain_edge g W Hd Hn Ho Hp cs g' g2 I W2 He2 Hdom Hnode c Hc) as ([[? ?] _ _ _ _] & _). congruence.
  - intros k l a b Hk Ha Hb. destruct (Z.eqb_spec b (a + 1)) as [->|Hne].
    + apply He3. left. split; [done|]. intros (le & -> & Hle)%list_elem_of_fmap.
      destruct (cut_is_cut g W Hd Hn Ho le Hle) as [_ Hv Hw Hlong _].
      change (node_rank g (le_v le) = Some a) in Ha. rewrite Hv in Ha.
      match type of Hb with _ = ?r => change (node_rank g (le_w le) = r) in Hb end. rewrite Hw in Hb. injection Ha as <-. injection Hb as Hb. lia.
    + destruct (cut_or_unit g W Hd Hn Ho k (ex_intro _ l Hk)) as [(a' & ? & ?)|Hkl]; [simplify_eq|].
      apply list_elem_of_fmap in Hkl as (le & -> & Hle). destruct (cut_is_cut g W Hd Hn Ho le Hle) as [_ Hv Hw Hlong _].
      change (node_rank g (le_v le) = Some a) in Ha. rewrite Hv in Ha.
      match type of Hb with _ = ?r => change (node_rank g (le_w le) = r) in Hb end. rewrite Hw in Hb. injection Ha as <-. injection Hb as <-.
      rewrite <- (cu_edges _ _ _ _ I) in Hle. apply list_elem_of_fmap in Hle as (c & -> & Hc).
      pose proof (chain_nodes_spec g W Hd Hn Ho Hp cs g' g2 I W2 He2 Hdom Hnode c Hc) as Hns.
      exists (chain_nodes g2 c). split_and!.
      * apply He3. right; right. exists c. split_and!; [done..|]. unfold rejoined, cut_label. by rewrite Hk.
      * apply list_eq_same_length with (n := length (c_ids c)); [| |].
        { rewrite length_fmap, length_seqZ. symmetry. apply (cu_length _ _ _ _ I c Hc). }
        { by rewrite length_fmap, <- (Forall2_length _ _ _ Hns). }
        intros i x y Hi Hx Hy. apply list_lookup_fmap_Some in Hx as (n & -> & Hi').
        destruct (lookup_lt_is_Some_2 (c_ids c) i Hi) as [d Hdi].
        destruct (dummy_node g W Hd Hn Ho Hp cs g' g2 I W2 He2 Hdom Hnode c i d Hc Hdi) as (n' & Hn' & Hr & _).
        destruct (Forall2_lookup_lr _ _ _ _ _ _ Hns Hdi Hi') as [? _]. simplify_eq. rewrite Hr.
        apply list_lookup_fmap_Some in Hy as (z & -> & Hz). apply lookup_seqZ in Hz as [-> _]. done.
      * intros n Hnin. apply list_elem_of_lookup_1 in Hnin as [i Hi].
        destruct (Forall2_lookup_r _ _ _ _ _ Hns Hi) as (d & Hdi & Hdn & _). exists d. split; [done|].
        apply (cu_new _ _ _ _ I). apply (in_ids g W Hd Hn Ho c); [done|by eapply list_elem_of_lookup_2].
Qed.

(** C8: after [normalize::run] every edge goes to the next rank.
    On a graph whose edges go down, [run] returns a well-formed graph in which
    every edge ends one rank below its start, and the nodes that were there,
    with their ranks, are unchanged. *)
Theorem normalize_unit_edges g : normalizable g →
  ∃ g', run g = Done g' ∧ wf g' ∧
    (∀ k, is_Some (g_edges g' !! k) → ∃ a, node_rank g' (key_v k) = Some a ∧ node_rank g' (key_w k) = Some (a + 1)) ∧
    (∀ x n, g_nodes g !! x = Some n → g_nodes g' !! x = Some n).
Proof. intros (g' & ? & ? & ? & ? & _)%normalize_ok. by exists g'. Qed.

(** C9: [normalize::undo] takes the dummies out and gives edges their bends.
    Whatever the layout does to positions, sizes and orders of nodes in between,
    [undo] restores exactly the nodes and the edges of the graph that was cut; an
    edge between neighbouring ranks keeps its label, and a longer one gets, as
    its points, the positions of one dummy per rank it crosses, in the order of
    the ranks, and the position of the dummy at its label's rank. *)
Theorem normalize_undo_run g g1 g2 : normalizable g → run g = Done g1 → placed g1 g2 →
  ∃ g3, undo g2 = Done g3 ∧ wf g3 ∧
    (∀ x, g_nodes g3 !! x = if has_node g x then g_nodes g2 !! x else None) ∧
    (∀ k, g_edges g !! k = None → g_edges g3 !! k = None) ∧
    (∀ k l a b, g_edges g !! k = Some l → node_rank g (key_v k) = Some a → node_rank g (key_w k) = Some b →
      if b =? a + 1 then g_edges g3 !! k = Some l else
      ∃ ns, g_edges g3 !! k = Some (routed ns l) ∧ n_rank <$> ns = Some <$> seqZ (a + 1) (b - (a + 1)) ∧
        ∀ n, n ∈ ns → ∃ d, g_nodes g2 !! d = Some n ∧ g_nodes g !! d = None).
Proof. apply normalize_undo_ok. Qed.

(** ** An example *)

Definition ranked (r : Z) : NodeLabel := set_n_rank (Some r) NodeLabel_default.
(** Three edges in a row, and one past them with a label at rank 2. *)
Definition ladder : DagreGraph :=
  graph_of [SetNode "a" (ranked 0); SetNode "b" (ranked 1); SetNode "c" (ranked 2); SetNode "d" (ranked 3);
            SetPath ["a"; "b"; "c"; "d"]; SetEdge "a" "d" (set_e_label_rank (Some 2) EdgeLabel_default)].
Definition goes_down (g : DagreGraph) (k : EdgeKey) : bool :=
  match node_rank g (key_v k), node_rank g (key_w k) with
  | Some a, Some b => (a <? b) && (i32_min <=? a) && (b <=? i32_max)
  | _, _ => false
  end.
Definition user_name (x : string) (n : NodeLabel) : bool :=
  match x with String c _ => negb (bool_decide (c = "_"%char)) | EmptyString => true end && bool_decide (n_dummy n = None).
Lemma normalizable_check g : wf g →
  forallb (λ p, goes_down g p.1) (map_to_list (g_edges g)) = true →
  forallb (λ p, user_name p.1 p.2) (map_to_list (g_nodes g)) = true →
  forallb (λ p, bool_decide (NoDup p.2)) (map_to_list (g_out_edges g)) = true → normalizable g.
Proof.
  rewrite !forallb_forall. intros W He Hn Ho.
  assert (Hu : ∀ x n, g_nodes g !! x = Some n → user_name x n = true).
  { intros x n Hx. apply (Hn (x, n)), list_elem_of_In. by apply elem_of_map_to_list. }
  split.
  - done.
  - intros k [l Hk]. assert (Hd : goes_down g k = true).
    { apply (He (k, l)), list_elem_of_In. by apply elem_of_map_to_list. }
    unfold goes_down in Hd. destruct (node_rank g (key_v k)) as [a|], (node_rank g (key_w k)) as [b|]; try done.
    exists a, b. split_and!; [done..|lia|lia|lia].
  - intros r n. apply eq_None_not_Some. intros [m Hm%Hu]. by cbn in Hm.
  - intros v. unfold out_edges. destruct (g_out_edges g !! v) as [l|] eqn:E; [|constructor]. cbn.
    apply (bool_decide_eq_true (NoDup l)), (Ho (v, l)), list_elem_of_In. by apply elem_of_map_to_list.
  - intros x n Hx%Hu. unfold user_name in Hx. apply andb_true_iff in Hx as [_ Hx]. by apply bool_decide_eq_true in Hx.
Qed.
Lemma ladder_normalizable : normalizable ladder.
Proof. apply normalizable_check; [apply wf_graph_of|vm_compute; reflexivity..]. Qed.

Lemma normalize_unit_edges_witness :
  ∃ g', run ladder = Done g' ∧ wf g' ∧
    (∀ k, is_Some (g_edges g' !! k) → ∃ a, node_rank g' (key_v k) = Some a ∧ node_rank g' (key_w k) = Some (a + 1)) ∧
    (∀ x n, g_nodes ladder !! x = Some n → g_nodes g' !! x = Some n).
Proof. apply normalize_unit_edges, ladder_normalizable. Defined.

Definition cut_ladder : DagreGraph := match run ladder with Done g => g | _ => ladder end.
Lemma normalizable_run g : normalizable g → ∃ g', run g = Done g' ∧ wf g'.
Proof.
  intros [W Hd Hn Ho _]. destruct (cut_run g W Hd Hn Ho) as (cs & g' & E & I). eexists. split; [exact E|].
  apply (wf_same_shape g'); [done|]. by apply (cu_wf _ _ _ _ I).
Qed.
Lemma cut_ladder_run : run ladder = Done cut_ladder ∧ wf cut_ladder.
Proof.
  destruct (normalizable_run ladder ladder_normalizable) as (g' & E & W). unfold cut_ladder. rewrite E. by split.
Qed.
(** Every node is put at its rank. *)
Definition at_rank (n : NodeLabel) : NodeLabel :=
  set_n_x (Some f64_zero) (set_n_y (f64_of_Z <$> n_rank n) n).
Definition placed_ladder : DagreGraph := set_g_nodes (at_rank <$> g_nodes cut_ladder) cut_ladder.
Lemma at_rank_placed g : wf g → placed g (set_g_nodes (at_rank <$> g_nodes g) g).
Proof.
  intros W. assert (Hs : ∀ x, is_Some ((at_rank <$> g_nodes g) !! x) ↔ is_Some (g_nodes g !! x)).
  { intros x. rewrite lookup_fmap. apply fmap_is_Some. }
  split; [| done | done | done |].
  - apply (wf_same_shape g); [|done]. split_and!; done.
  - intros x n n' Hn Hn'. cbn in Hn'. rewrite lookup_fmap, Hn in Hn'. by injection Hn' as <-.
Qed.
Lemma ladder_placed : placed cut_ladder placed_ladder.
Proof. exact (at_rank_placed _ (proj2 cut_ladder_run)). Qed.
Lemma normalize_undo_run_witness :
  ∃ g3, undo placed_ladder = Done g3 ∧ wf g3 ∧
    (∀ x, g_nodes g3 !! x = if has_node ladder x then g_nodes placed_ladder !! x else None) ∧
    (∀ k, g_edges ladder !! k = None → g_edges g3 !! k = None) ∧
    (∀ k l a b, g_edges ladder !! k = Some l → node_rank ladder (key_v k) = Some a → node_rank ladder (key_w k) = Some b →
      if b =? a + 1 then g_edges g3 !! k = Some l else
      ∃ ns, g_edges g3 !! k = Some (routed ns l) ∧ n_rank <$> ns = Some <$> seqZ (a + 1) (b - (a + 1)) ∧
        ∀ n, n ∈ ns → ∃ d, g_nodes placed_ladder !! d = Some n ∧ g_nodes ladder !! d = None).
Proof.
  apply (normalize_undo_run ladder cut_ladder placed_ladder ladder_normalizable); [exact (proj1 cut_ladder_run)|exact ladder_placed].
Defined.
(** The bends of the long edge are at ranks 1 and 2, and its label at 2. *)
Example ladder_routed :
  match undo placed_ladder with
  | Done g => (λ l, (p_y <$> e_points l, e_y l)) <$> g_edges g !! EdgeKey_new "a" "d"
  | _ => None
  end = Some ([f64_of_Z 1; f64_of_Z 2], Some (f64_of_Z 2)).
Proof. vm_compute. reflexivity. Qed.
