(* ===== verification/Layers.v ===== *)
(** * Layers: the initial order, and layers read back from ranks and orders
      ([order/init_order.rs], [util.rs], [build_layer_matrix] of [order/mod.rs])

    The search of [init_order] goes as deep as there are nodes: their number is
    its fuel. *)
From stdpp Require Import strings gmap.
From S2P Require Import Prelude F64 SortBy DagreGraph Rank.

Definition node_order (g : DagreGraph) (v : string) : option nat := n ← node g v; n_order n.
Definition set_order_of (i : nat) (v : string) (g : DagreGraph) : DagreGraph := node_mut (set_n_order (Some i)) v g.
(** [.filter_map(rank).max()]. *)
Definition max_rank (g : DagreGraph) : option Z :=
  match ranks_of g with [] => None | r :: rs => Some (foldr Z.max r rs) end.
(** [rank as usize]. *)
Definition as_usize (z : Z) : nat := Z.to_nat (z mod 2 ^ 64).

(** [layers[rank].push(x)], where the index is in range. *)
Definition push_layer {A} (rank : nat) (x : A) (layers : list (list A)) : list (list A) :=
  alter (λ l, l ++ [x]) rank layers.

(** ** The initial order *)

Record InitState := mkInit { in_visited : gset string; in_layers : list (list string) }.
Definition place (g : DagreGraph) (v : string) (layers : list (list string)) : list (list string) :=
  match node_rank g v with
  | Some rank =>
      if (0 <=? rank) && (Z.to_nat rank <? length layers)%nat then push_layer (Z.to_nat rank) v layers else layers
  | None => layers
  end.
Fixpoint init_dfs (fuel : nat) (g : DagreGraph) (v : string) (s : InitState) : panics InitState :=
  if decide (v ∈ in_visited s) then Done s else
  match fuel with
  | O => OutOfFuel
  | S fuel' =>
      fold_outcome (init_dfs fuel' g) (successors g v)
        (mkInit ({[v]} ∪ in_visited s) (place g v (in_layers s)))
  end.

Definition rank_or_max (g : DagreGraph) (v : string) : Z := default i32_max (node_rank g v).
Definition disconnected (g : DagreGraph) (v : string) : bool :=
  bool_decide (in_edges g v = []) && bool_decide (out_edges g v = []).
(** By rank, connected nodes first, by name. *)
Definition init_leb (g : DagreGraph) (a b : string) : bool :=
  match rank_or_max g a ?= rank_or_max g b with
  | Lt => true
  | Gt => false
  | Eq =>
      match disconnected g a, disconnected g b with
      | false, true => true
      | true, false => false
      | _, _ => string_leb a b
      end
  end.
Definition init_order (g : DagreGraph) : panics (list (list string)) :=
  let layers := replicate (Z.to_nat (default 0 (max_rank g) + 1)) [] in
  s ← fold_outcome (init_dfs (node_count g) g) (sort_by (init_leb g) (nodes g)) (mkInit ∅ layers);
  Done (in_layers s).

Definition assign_layer (layer : list string) (g : DagreGraph) : DagreGraph :=
  fold_with (λ p g, set_order_of p.1 p.2 g) (imap pair layer) g.
Definition assign_order (layering : list (list string)) (g : DagreGraph) : DagreGraph :=
  fold_with assign_layer layering g.

(** ** Layers by order *)

Definition by_order (a b : string * nat) : bool := (a.2 <=? b.2)%nat.
Definition sorted_layers (layers : list (list (string * nat))) : list (list string) :=
  (λ layer, (sort_by by_order layer).*1) <$> layers.
(** Of [order/mod.rs]: nodes with a rank in range and an order. *)
Definition order_layer_matrix (g : DagreGraph) (max_rank : nat) : list (list string) :=
  let layers :=
    fold_with
      (λ v layers,
         match node_rank g v, node_order g v with
         | Some rank, Some order =>
             if (0 <=? rank) && (Z.to_nat rank <=? max_rank)%nat then push_layer (Z.to_nat rank) (v, order) layers else layers
         | _, _ => layers
         end)
      (nodes g) (replicate (S max_rank) []) in
  sorted_layers layers.
(** Of [util.rs]: every ranked node; a rank below zero is out of range. *)
Definition put_in_layer (g : DagreGraph) (v : string) (layers : list (list (string * nat))) :
    panics (list (list (string * nat))) :=
  match node_rank g v with
  | Some rank =>
      if rank <? 0 then panic else Done (push_layer (Z.to_nat rank) (v, default 0%nat (node_order g v)) layers)
  | None => Done layers
  end.
Definition build_layer_matrix (g : DagreGraph) : panics (list (list string)) :=
  match max_rank g with
  | None => Done []
  | Some m =>
      if m <? 0 then Done [] else
      layers ← fold_outcome (put_in_layer g) (nodes g) (replicate (Z.to_nat (m + 1)) []);
      Done (sorted_layers layers)
  end.

(** ** Empty ranks *)

(** Where no [node_rank_factor] is set it is 1, and no rank is removed. *)
Definition collapse_layer (node_rank_factor : nat) (i : nat) (layer : list string) (s : Z * DagreGraph) : Z * DagreGraph :=
  let '(delta, g) := s in
  match layer with
  | [] => if (node_rank_factor =? 0)%nat || negb (i mod node_rank_factor =? 0)%nat then (i32_wrap (delta - 1), g) else s
  | _ => if delta =? 0 then s else (delta, fold_with (shift_rank delta) layer g)
  end.
Definition remove_empty_ranks (g : DagreGraph) : DagreGraph :=
  match max_rank g with
  | None => g
  | Some m =>
      let offset := min_rank g in
      let layers :=
        fold_with
          (λ v layers, match node_rank g v with
                       | Some rank => push_layer (Z.to_nat (rank - offset)) v layers
                       | None => layers
                       end)
          (nodes g) (replicate (Z.to_nat (m - offset + 1)) []) in
      let node_rank_factor := as_usize (default 1 (gl_node_rank_factor (g_graph_label g))) in
      (fold_with (λ p s, collapse_layer node_rank_factor p.1 p.2 s) (imap pair layers) (0, g)).2
  end.
