(* ===== verification/Order.v ===== *)
(** * Ordering the nodes of each layer ([order/mod.rs], [barycenter.rs],
      [sort.rs], and of [sort_subgraph.rs] and [resolve_conflicts.rs] what
      [order] uses)

    At most 24 sweeps, downwards and upwards in turns, sort each layer by the
    mean place of its neighbours; the layering with the fewest crossings is kept.
    A hash map of groups is made anew in every call, so its order is a parameter
    that may depend on the sweep and the rank.  [add_subgraph_constraints] walks
    up parents: their number is its fuel. *)
From stdpp Require Import strings gmap.
From S2P Require Import Prelude F64 SortBy DagreGraph Rank CrossCount Layers.

(** ** Barycenters *)

Record BarycenterEntry := mkBary { be_v : string; be_barycenter : option f64; be_weight : f64; be_i : nat }.
Definition epsilon : f64 := f64_of_decimal false 1 (-6).
(** One edge of the node, whose other end is [u]. *)
Definition add_end (g : DagreGraph) (other : EdgeKey → string) (e : EdgeKey) (s : f64 * f64) : f64 * f64 :=
  let '(sum, weight) := s in
  let w := f64_of_Z (edge_weight g e) in
  match node_order g (other e) with
  | Some order => (f64_add sum (f64_mul w (f64_of_Z (Z.of_nat order))), f64_add weight w)
  | None => s
  end.
Definition entry_of (g : DagreGraph) (other : EdgeKey → string) (es : list EdgeKey) (i : nat) (v : string) : BarycenterEntry :=
  match es with
  | [] => mkBary v None f64_zero i
  | _ =>
      let '(sum, weight) := fold_with (add_end g other) es (f64_zero, f64_zero) in
      if f64_lt f64_zero weight
      then mkBary v (Some (f64_add (f64_div sum weight) (f64_mul (f64_of_Z (Z.of_nat i)) epsilon))) weight i
      else mkBary v None f64_zero i
  end.
Definition barycenter (g : DagreGraph) (movable : list string) : list BarycenterEntry :=
  imap (λ i v, entry_of g key_v (in_edges g v) i v) movable.
Definition barycenter_down (g : DagreGraph) (movable : list string) : list BarycenterEntry :=
  imap (λ i v, entry_of g key_w (out_edges g v) i v) movable.

(** ** Sorting one group *)

Record SortResult := mkSortResult { sr_vs : list string; sr_barycenter : option f64; sr_weight : f64 }.
Definition has_barycenter (e : BarycenterEntry) : bool := match be_barycenter e with Some _ => true | None => false end.
Definition barycenter_leb (bias_right : bool) (a b : BarycenterEntry) : bool :=
  let bc_a := default f64_zero (be_barycenter a) in
  let bc_b := default f64_zero (be_barycenter b) in
  if f64_lt bc_a bc_b then true
  else if f64_lt bc_b bc_a then false
  else if bias_right then (be_i b <=? be_i a)%nat else (be_i a <=? be_i b)%nat.

Record Merge := mkMerge { mg_vs : list string; mg_unsortable : list BarycenterEntry; mg_index : nat; mg_sum : f64; mg_weight : f64 }.
(** Entries without neighbours keep their places; the next one is the head. *)
Fixpoint consume (u : list BarycenterEntry) (vs : list string) (index : nat) : list string * list BarycenterEntry * nat :=
  match u with
  | [] => (vs, [], index)
  | e :: u' => if (be_i e <=? index)%nat then consume u' (vs ++ [be_v e]) (S index) else (vs, u, index)
  end.
Definition consume_unsortable (m : Merge) : Merge :=
  let '(vs, u, index) := consume (mg_unsortable m) (mg_vs m) (mg_index m) in
  mkMerge vs u index (mg_sum m) (mg_weight m).
Definition take_sortable (e : BarycenterEntry) (m : Merge) : Merge :=
  let '(sum, weight) :=
    match be_barycenter e with
    | Some bc => (f64_add (mg_sum m) (f64_mul bc (be_weight e)), f64_add (mg_weight m) (be_weight e))
    | None => (mg_sum m, mg_weight m)
    end in
  consume_unsortable (mkMerge (mg_vs m ++ [be_v e]) (mg_unsortable m) (S (mg_index m)) sum weight).
(** The vector of entries without a barycenter is popped from its end. *)
Definition sort (entries : list BarycenterEntry) (bias_right : bool) : SortResult :=
  let sortable := sort_by (barycenter_leb bias_right) (filter (λ e, has_barycenter e = true) entries) in
  let unsortable := reverse (sort_by (λ a b, (be_i b <=? be_i a)%nat) (filter (λ e, has_barycenter e = false) entries)) in
  let m := fold_with take_sortable sortable (consume_unsortable (mkMerge [] unsortable 0 f64_zero f64_zero)) in
  mkSortResult (mg_vs m)
    (if f64_lt f64_zero (mg_weight m) then Some (f64_div (mg_sum m) (mg_weight m)) else None) (mg_weight m).

(** ** Sorting a layer *)

Class GroupOrder := {
  group_order : nat → nat → list (option string * list string) → list (option string * list string);
  group_order_perm i rank l : group_order i rank l ≡ₚ l
}.

Definition border_at (l : list (option string)) (i : nat) : option string := mjoin (l !! i).
Definition borders_of (g : DagreGraph) (vs : list string) (parent : string) : option string * option string :=
  match node g parent with
  | Some parent_node =>
      match v ← head vs; node_rank g v with
      | Some rank =>
          let min_rank := default 0 (n_min_rank parent_node) in
          if min_rank <=? rank then
            let rank_idx := Z.to_nat (rank - min_rank) in
            (border_at (n_border_left parent_node) rank_idx, border_at (n_border_right parent_node) rank_idx)
          else (None, None)
      | None => (None, None)
      end
  | None => (None, None)
  end.
Definition border_in (vs : list string) (b : option string) : list string :=
  match b with Some v => if decide (v ∈ vs) then [v] else [] | None => [] end.
Definition ensure_border_nodes (g : DagreGraph) (vs : list string) (parent : option string) : list string :=
  match parent with
  | None => vs
  | Some p =>
      let '(border_left, border_right) := borders_of g vs p in
      border_in vs border_left ++
      filter (λ v, Some v ≠ border_left ∧ Some v ≠ border_right) vs ++
      border_in vs border_right
  end.

Definition order_key (g : DagreGraph) (d : Z) (v : string) : Z := match node_order g v with Some o => Z.of_nat o | None => d end.
Definition by_key (g : DagreGraph) (d : Z) (a b : string) : bool := order_key g d a <=? order_key g d b.
Definition usize_max : Z := 2 ^ 64 - 1.

(** Nodes with the same parent, groups in the order they are met. *)
Fixpoint add_group (parent : option string) (v : string) (groups : list (option string * list string)) :
    list (option string * list string) :=
  match groups with
  | [] => [(parent, [v])]
  | (p, vs) :: groups' =>
      if decide (p = parent) then (p, vs ++ [v]) :: groups' else (p, vs) :: add_group parent v groups'
  end.
Definition by_parent (g : DagreGraph) (layer_nodes : list string) : list (option string * list string) :=
  fold_with (λ v, add_group (parent g v) v) layer_nodes [].
Record ParentGroup := mkGroup { pg_nodes : list string; pg_barycenter : option f64 }.
Definition add_order (g : DagreGraph) (v : string) (s : f64 * f64) : f64 * f64 :=
  match node_order g v with
  | Some order => (f64_add s.1 (f64_of_Z (Z.of_nat order)), f64_add s.2 (f64_of_Z 1))
  | None => s
  end.
Definition sort_group (g : DagreGraph) (bias_right use_predecessors : bool) (group : option string * list string) : ParentGroup :=
  let '(par, nodes) := group in
  let nodes := sort_by (by_key g usize_max) nodes in
  let entries := if use_predecessors then barycenter g nodes else barycenter_down g nodes in
  let reordered := ensure_border_nodes g (sr_vs (sort entries bias_right)) par in
  let '(sum, weight) := fold_with (add_order g) reordered (f64_zero, f64_zero) in
  mkGroup reordered (if f64_lt f64_zero weight then Some (f64_div sum weight) else None).
Definition group_leb (a b : ParentGroup) : bool :=
  match pg_barycenter a, pg_barycenter b with
  | Some bc_a, Some bc_b => negb (f64_lt bc_b bc_a)
  | None, Some _ => false
  | _, None => true
  end.
(** The constraint graph is handed in and not read. *)
Definition sort_layer_hierarchical `{GroupOrder} (i rank : nat) (g : DagreGraph) (layer_nodes : list string)
    (bias_right use_predecessors : bool) : list string :=
  let parent_entries := sort_group g bias_right use_predecessors <$> group_order i rank (by_parent g layer_nodes) in
  concat (pg_nodes <$> sort_by group_leb parent_entries).

(** ** Constraints between subgraphs *)

Definition ConstraintGraph := gset (string * string).
Record Siblings := mkSiblings { sb_prev : gmap string string; sb_root_prev : option string; sb_cg : ConstraintGraph }.
(** The loop for one node; [true]: the call returns. *)
Fixpoint constrain_up (fuel : nat) (g : DagreGraph) (child : option string) (s : Siblings) : panics (bool * Siblings) :=
  match child, sb_root_prev s with
  | None, Some _ => Done (false, s)
  | _, _ =>
      let par := c ← child; parent g c in
      let prev_child := match par with Some p => sb_prev s !! p | None => sb_root_prev s end in
      let s := match par with
               | Some p => mkSiblings (<[p := default "" child]> (sb_prev s)) (sb_root_prev s) (sb_cg s)
               | None => mkSiblings (sb_prev s) child (sb_cg s)
               end in
      let next s :=
        match par with
        | None => Done (false, s)
        | Some _ => match fuel with O => OutOfFuel | S fuel' => constrain_up fuel' g par s end
        end in
      match prev_child, child with
      | Some pc, Some c =>
          if decide (pc = c) then next s
          else Done (true, mkSiblings (sb_prev s) (sb_root_prev s) ({[(pc, c)]} ∪ sb_cg s))
      | _, _ => next s
      end
  end.
Fixpoint constrain (g : DagreGraph) (vs : list string) (s : Siblings) : panics ConstraintGraph :=
  match vs with
  | [] => Done (sb_cg s)
  | v :: vs' =>
      '(returned, s) ← constrain_up (size (g_parent g)) g (parent g v) s;
      if returned : bool then Done (sb_cg s) else constrain g vs' s
  end.
Definition add_subgraph_constraints (g : DagreGraph) (cg : ConstraintGraph) (vs : list string) : panics ConstraintGraph :=
  constrain g vs (mkSiblings ∅ None cg).

(** ** Sweeps *)

Section sweeps.
Context `{GroupOrder}.

Definition sweep_rank (i : nat) (bias_right use_predecessors : bool) (rank : nat) (s : DagreGraph * ConstraintGraph) :
    panics (DagreGraph * ConstraintGraph) :=
  let '(g, cg) := s in
  let layer_nodes :=
    sort_by (by_key g i32_max)
      (filter (λ v, node_rank g v = Some (i32_wrap (Z.of_nat rank))) (nodes g)) in
  match layer_nodes with
  | [] => Done s
  | _ =>
      let sorted := sort_layer_hierarchical i rank g layer_nodes bias_right use_predecessors in
      let g := assign_layer sorted g in
      cg ← add_subgraph_constraints g cg sorted;
      Done (g, cg)
  end.
Definition sweep_down_hierarchical (i : nat) (max_rank : nat) (bias_right : bool) (g : DagreGraph) : panics DagreGraph :=
  s ← fold_outcome (sweep_rank i bias_right true) (seq 1 max_rank) (g, ∅); Done s.1.
Definition sweep_up_hierarchical (i : nat) (max_rank : nat) (bias_right : bool) (g : DagreGraph) : panics DagreGraph :=
  s ← fold_outcome (sweep_rank i bias_right false) (reverse (seq 0 max_rank)) (g, ∅); Done s.1.
(** The [i]th sweep: down and up in turns, with a bias in turns of two. *)
Definition sweep (max_rank : nat) (i : nat) (g : DagreGraph) : panics DagreGraph :=
  let bias_right := (2 <=? i mod 4)%nat in
  if (i mod 2 =? 0)%nat then sweep_down_hierarchical i max_rank bias_right g
  else sweep_up_hierarchical i max_rank bias_right g.

Record Best := mkBest { bs_graph : DagreGraph; best_cc : Z; best_layering : list (list string); last_best : nat }.
(** Once four sweeps did not improve, the rest are skipped. *)
Definition order_step (max_rank : nat) (i : nat) (s : Best) : panics Best :=
  if (4 <=? last_best s)%nat then Done s else
  g ← sweep max_rank i (bs_graph s);
  let current_layering := order_layer_matrix g max_rank in
  cc ← cross_count g current_layering;
  if cc <? best_cc s then Done (mkBest g cc current_layering 0)
  else Done (mkBest g (best_cc s) (best_layering s) (S (last_best s))).
Definition order (g : DagreGraph) : panics DagreGraph :=
  layering ← init_order g;
  let g := assign_order layering g in
  let max_rank := as_usize (default 0 (max_rank g)) in
  if (max_rank =? 0)%nat then Done g else
  s ← fold_outcome (order_step max_rank) (seq 0 24) (mkBest g i32_max layering 0);
  Done (assign_order (best_layering s) (bs_graph s)).
End sweeps.
