(* ===== verification/OrderSort.v ===== *)
(** * Sorting by barycenters keeps every node

    Entries without a barycenter keep their places among those with one; as
    the places of a group are 0, 1, ..., all of them are taken up, and sorting
    a group, and a layer group by group, is a permutation. *)
From stdpp Require Import strings gmap sorting.
From S2P Require Import Prelude F64 SortBy DagreGraph Rank CrossCount Layers Order.
#[local] Open Scope nat_scope.

(** ** Lists in reverse *)

Lemma StronglySorted_snoc {A} (R : A → A → Prop) l x :
  StronglySorted R l → (∀ y, y ∈ l → R y x) → StronglySorted R (l ++ [x]).
Proof.
  induction 1 as [|y l Hl IH Hy]; intros H; cbn; [by repeat constructor|].
  constructor; [apply IH; intros; apply H; by right|].
  apply Forall_app. split; [done|]. repeat constructor. apply H. by left.
Qed.
Lemma StronglySorted_reverse {A} (R : A → A → Prop) l : StronglySorted R l → StronglySorted (flip R) (reverse l).
Proof.
  induction 1 as [|y l Hl IH Hy]; [constructor|]. rewrite reverse_cons. apply StronglySorted_snoc; [done|].
  intros z. rewrite elem_of_reverse. rewrite Forall_forall in Hy. apply Hy.
Qed.
Lemma StronglySorted_impl {A} (R R' : A → A → Prop) l :
  (∀ x y, R x y → R' x y) → StronglySorted R l → StronglySorted R' l.
Proof. intros H. induction 1 as [|x l _ IH Hx]; constructor; [done|]. eapply Forall_impl; [exact Hx|]. intros; by apply H. Qed.
Lemma filter_split {A} (f : A → bool) l : filter (λ x, f x = true) l ++ filter (λ x, f x = false) l ≡ₚ l.
Proof.
  induction l as [|x l IH]; [done|]. rewrite !filter_cons. destruct (decide (f x = true)) as [E|E].
  - rewrite decide_False by congruence. by rewrite <- app_comm_cons, IH.
  - rewrite decide_True by (by destruct (f x)). by rewrite <- Permutation_middle, IH.
Qed.

(** ** One group *)

(** Entries at distinct places before [n], in ascending order. *)
Record waiting_ok (n : nat) (u : list BarycenterEntry) : Prop := {
  wo_nodup : NoDup (be_i <$> u);
  wo_bound e : e ∈ u → be_i e < n;
  wo_sorted : StronglySorted (λ a b, be_i a <= be_i b) u
}.
Lemma waiting_tail n e u : waiting_ok n (e :: u) → waiting_ok n u.
Proof.
  intros [Hn Hb Hs]. split; [by apply NoDup_cons in Hn as [_ ?]|intros; apply Hb; by right|by apply StronglySorted_inv in Hs as [? _]].
Qed.
Lemma waiting_length n e u : waiting_ok n (e :: u) → be_i e + length (e :: u) <= n.
Proof.
  intros [Hn Hb Hs]. assert (Hsub : (be_i <$> e :: u) ⊆+ seq (be_i e) (n - be_i e)).
  { apply NoDup_submseteq; [done|]. intros i (x & -> & Hx)%list_elem_of_fmap. apply elem_of_seq.
    pose proof (Hb e ltac:(by left)). pose proof (Hb x Hx). apply elem_of_cons in Hx as [->|Hx]; [lia|].
    apply StronglySorted_inv in Hs as [_ Hf]. rewrite Forall_forall in Hf. specialize (Hf x Hx). lia. }
  apply submseteq_length in Hsub. rewrite length_fmap, length_seq in Hsub. pose proof (Hb e ltac:(by left)). lia.
Qed.

(** No entry waits whose place has come. *)
Definition settled (index : nat) (u : list BarycenterEntry) : Prop :=
  match u with [] => True | e :: _ => index < be_i e end.
Lemma consume_spec n u vs : waiting_ok n u →
  let '(vs', u', index) := consume u vs (length vs) in
  index = length vs' ∧ vs' ++ (be_v <$> u') = vs ++ (be_v <$> u) ∧ waiting_ok n u' ∧ settled index u'.
Proof.
  revert vs. induction u as [|e u IH]; intros vs W; cbn; [done|].
  destruct (Nat.leb_spec (be_i e) (length vs)) as [Hle|Hgt]; [|split_and!; [done..|cbn; lia]].
  specialize (IH (vs ++ [be_v e]) (waiting_tail _ _ _ W)). rewrite length_app in IH. cbn in IH.
  replace (length vs + 1) with (S (length vs)) in IH by lia.
  destruct (consume u (vs ++ [be_v e]) (S (length vs))) as [[vs' u'] index]. destruct IH as (-> & E & W' & S').
  split_and!; [done| |done..]. rewrite E, <- app_assoc. done.
Qed.

Record merge_inv (n : nat) (all : list string) (rest : list BarycenterEntry) (m : Merge) : Prop := {
  mi_index : mg_index m = length (mg_vs m);
  mi_perm : mg_vs m ++ (be_v <$> mg_unsortable m) ++ (be_v <$> rest) ≡ₚ all;
  mi_waiting : waiting_ok n (mg_unsortable m)
}.
Lemma consume_inv n all rest m : merge_inv n all rest m →
  merge_inv n all rest (consume_unsortable m) ∧ settled (mg_index (consume_unsortable m)) (mg_unsortable (consume_unsortable m)).
Proof.
  intros [Hi Hp Hw]. unfold consume_unsortable. rewrite Hi. pose proof (consume_spec n (mg_unsortable m) (mg_vs m) Hw) as H.
  destruct (consume _ _ _) as [[vs u] index]. destruct H as (-> & E & W & S). split; [|done]. split; cbn; [done| |done].
  by rewrite app_assoc, E, <- app_assoc.
Qed.
Lemma take_inv n all e rest m : merge_inv n all (e :: rest) m →
  merge_inv n all rest (take_sortable e m) ∧ settled (mg_index (take_sortable e m)) (mg_unsortable (take_sortable e m)).
Proof.
  intros [Hi Hp Hw]. unfold take_sortable. destruct (match be_barycenter e with Some bc => _ | None => _ end) as [sum weight].
  apply consume_inv. split; cbn; [rewrite length_app; cbn; lia| |done].
  rewrite <- Hp. rewrite <- app_assoc. apply Permutation_app_head. cbn. by rewrite Permutation_middle.
Qed.
Lemma take_all n all rest m : merge_inv n all rest m → settled (mg_index m) (mg_unsortable m) →
  let m' := fold_with take_sortable rest m in merge_inv n all [] m' ∧ settled (mg_index m') (mg_unsortable m').
Proof.
  revert m. induction rest as [|e rest IH]; intros m I S; [done|]. cbn. destruct (take_inv _ _ _ _ _ I) as [I' S']. by apply IH.
Qed.

Lemma sort_perm entries bias_right : be_i <$> entries ≡ₚ seq 0 (length entries) →
  sr_vs (sort entries bias_right) ≡ₚ be_v <$> entries.
Proof.
  intros Hi. unfold sort. set (n := length entries).
  set (su := filter (λ e, has_barycenter e = true) entries). set (un := filter (λ e, has_barycenter e = false) entries).
  assert (Hsplit : su ++ un ≡ₚ entries) by apply filter_split.
  set (u := reverse (sort_by (λ a b, (be_i b <=? be_i a)%nat) un)).
  assert (Hu : u ≡ₚ un) by (unfold u; by rewrite reverse_Permutation, sort_by_perm).
  assert (Hw : waiting_ok n u).
  { split.
    - rewrite Hu. assert (Hnd : NoDup (be_i <$> entries)) by (rewrite Hi; apply NoDup_seq).
      rewrite <- Hsplit, fmap_app in Hnd. by apply NoDup_app in Hnd as (_ & _ & ?).
    - intros e He. rewrite Hu in He. assert (Hin : be_i e ∈ be_i <$> entries).
      { apply list_elem_of_fmap. exists e. split; [done|]. rewrite <- Hsplit. apply elem_of_app. by right. }
      rewrite Hi in Hin. apply elem_of_seq in Hin. unfold n. lia.
    - unfold u. assert (Hs : StronglySorted (λ a b, (be_i b <=? be_i a) = true) (sort_by (λ a b, (be_i b <=? be_i a)) un)).
      { apply sort_by_sorted; intros; rewrite ?Nat.leb_le in *; lia. }
      apply StronglySorted_reverse in Hs. eapply StronglySorted_impl; [|exact Hs]. intros a b Hab. cbn in Hab.
      by apply Nat.leb_le. }
  destruct (consume_inv n (be_v <$> entries) (sort_by (barycenter_leb bias_right) su) (mkMerge [] u 0 f64_zero f64_zero)) as [I S].
  { split; cbn; [done| |done]. rewrite sort_by_perm, Hu, <- fmap_app. rewrite (Permutation_app_comm un su). by rewrite Hsplit. }
  destruct (take_all _ _ _ _ I S) as [[Hidx Hperm Hwait] S']. cbn [sr_vs]. set (m := fold_with take_sortable _ _) in *.
  destruct (mg_unsortable m) as [|e u'] eqn:Eu.
  - cbn in Hperm. by rewrite app_nil_r in Hperm.
  - exfalso. pose proof (waiting_length _ _ _ Hwait) as Hl. cbn in S'. rewrite Hidx in S'.
    apply Permutation_length in Hperm. rewrite !length_app, !length_fmap in Hperm. cbn in Hperm. fold n in Hperm. cbn in Hl. lia.
Qed.
(** Sorting by barycenters is a permutation of the group.
    When the entries carry the places 0, 1, ... in any order, every entry comes
    out once: those without a barycenter, which wait for their place, are all
    taken up by the end. *)
Theorem sort_permutes entries bias_right : be_i <$> entries ≡ₚ seq 0 (length entries) →
  sr_vs (sort entries bias_right) ≡ₚ be_v <$> entries.
Proof. apply sort_perm. Qed.
Lemma sort_permutes_witness :
  let entries := [mkBary "b" (Some (f64_of_Z 2)) (f64_of_Z 1) 0; mkBary "x" None f64_zero 1; mkBary "a" (Some (f64_of_Z 1)) (f64_of_Z 1) 2] in
  sr_vs (sort entries true) ≡ₚ be_v <$> entries ∧ sr_vs (sort entries true) = ["a"; "x"; "b"].
Proof. split; [apply sort_permutes; reflexivity|vm_compute; reflexivity]. Defined.

(** ** A layer *)

(** No place of a parent's border has the same node on the left and the right. *)
Definition distinct_borders (g : DagreGraph) : Prop :=
  ∀ p n i b, g_nodes g !! p = Some n → border_at (n_border_left n) i = Some b → border_at (n_border_right n) i ≠ Some b.

Lemma entry_of_place g other es i v : be_v (entry_of g other es i v) = v ∧ be_i (entry_of g other es i v) = i.
Proof.
  unfold entry_of. destruct es; [done|]. destruct (fold_with _ _ _) as [sum weight]. by destruct (f64_lt _ _).
Qed.
Lemma imap_places (f : nat → string → BarycenterEntry) l : (∀ i v, be_v (f i v) = v ∧ be_i (f i v) = i) →
  be_v <$> imap f l = l ∧ be_i <$> imap f l = seq 0 (length l).
Proof.
  intros H. split.
  - rewrite fmap_imap. rewrite <- (list_fmap_id l) at 2. rewrite <- imap_const. apply imap_ext. intros i v _. apply H.
  - rewrite fmap_imap. apply list_eq. intros i. rewrite list_lookup_imap. cbn. destruct (l !! i) as [v|] eqn:E; cbn.
    + symmetry. rewrite lookup_seq_lt; [f_equal; symmetry; apply H|]. by eapply lookup_lt_Some.
    + symmetry. apply lookup_seq_ge. by apply lookup_ge_None.
Qed.
Lemma sort_entries_perm (f : nat → string → BarycenterEntry) l bias_right : (∀ i v, be_v (f i v) = v ∧ be_i (f i v) = i) →
  sr_vs (sort (imap f l) bias_right) ≡ₚ l.
Proof.
  intros H. destruct (imap_places f l H) as [Hv Hi]. rewrite sort_perm; [by rewrite Hv|].
  rewrite Hi. by rewrite length_imap.
Qed.
Lemma ensure_border_perm g vs par : distinct_borders g → NoDup vs → ensure_border_nodes g vs par ≡ₚ vs.
Proof.
  intros Hd Hnd. unfold ensure_border_nodes. destruct par as [p|]; [|done].
  destruct (borders_of g vs p) as [bl br] eqn:E.
  assert (Hne : ∀ b, bl = Some b → br ≠ Some b).
  { unfold borders_of, node in E. destruct (g_nodes g !! p) as [n|] eqn:Ep; [|by simplify_eq].
    destruct (v ← head vs; node_rank g v); [|by simplify_eq]. destruct (_ <=? _)%Z; [|by simplify_eq]. simplify_eq.
    intros b. by eapply Hd. }
  assert (Hin : ∀ b x, x ∈ border_in vs b ↔ x ∈ vs ∧ b = Some x).
  { intros [b|] x; cbn; [|set_solver]. destruct (decide (b ∈ vs)); set_solver. }
  assert (Hn1 : ∀ b, NoDup (border_in vs b)).
  { intros [b|]; cbn; [|constructor]. destruct (decide _); [apply NoDup_singleton|constructor]. }
  apply NoDup_Permutation; [|done|].
  - apply NoDup_app. split_and!; [done| |apply NoDup_app; split_and!; [by apply NoDup_filter| |done]].
    + intros x [_ ->]%Hin [[[? _] _]%list_elem_of_filter|[_ Hr]%Hin]%elem_of_app; [done|]. by apply (Hne x).
    + intros x [[_ ?] _]%list_elem_of_filter [_ ->]%Hin. done.
  - intros x. rewrite !elem_of_app, !Hin, list_elem_of_filter.
    destruct (decide (bl = Some x)), (decide (br = Some x)); naive_solver.
Qed.
Lemma add_group_perm p v groups : concat (add_group p v groups).*2 ≡ₚ v :: concat groups.*2.
Proof.
  induction groups as [|[q vs] groups IH]; cbn; [done|]. destruct (decide (q = p)); cbn.
  - rewrite <- app_assoc. cbn. by rewrite Permutation_middle.
  - rewrite IH. by rewrite Permutation_middle.
Qed.
Lemma by_parent_perm g l : concat (by_parent g l).*2 ≡ₚ l.
Proof.
  unfold by_parent. assert (H : ∀ gs, concat (fold_with (λ v, add_group (parent g v) v) l gs).*2 ≡ₚ concat gs.*2 ++ l).
  { induction l as [|v l IH]; intros gs; cbn; [by rewrite app_nil_r|].
    rewrite IH, add_group_perm. cbn. by rewrite Permutation_middle. }
  by rewrite H.
Qed.
Lemma sort_group_perm g bias_right use_predecessors grp : distinct_borders g → NoDup grp.2 →
  pg_nodes (sort_group g bias_right use_predecessors grp) ≡ₚ grp.2.
Proof.
  destruct grp as [par nodes]. intros Hd Hnd. unfold sort_group. cbn in Hnd |- *.
  assert (Hs : sr_vs (sort (if use_predecessors then barycenter g (sort_by (by_key g usize_max) nodes)
                            else barycenter_down g (sort_by (by_key g usize_max) nodes)) bias_right) ≡ₚ nodes).
  { etrans; [|apply (sort_by_perm (by_key g usize_max) nodes)].
    destruct use_predecessors; apply sort_entries_perm; intros; apply entry_of_place. }
  destruct (fold_with _ _ _) as [sum weight]. cbn [pg_nodes]. rewrite ensure_border_perm; [done..|]. by rewrite Hs.
Qed.
Lemma sort_layer_perm `{GroupOrder} i rank g l bias_right use_predecessors : distinct_borders g → NoDup l →
  sort_layer_hierarchical i rank g l bias_right use_predecessors ≡ₚ l.
Proof.
  intros Hd Hnd. unfold sort_layer_hierarchical. rewrite sort_by_perm.
  assert (Hp : concat (group_order i rank (by_parent g l)).*2 ≡ₚ l) by (by rewrite group_order_perm, by_parent_perm).
  etrans; [|exact Hp]. rewrite <- Hp in Hnd. clear Hp. induction (group_order i rank (by_parent g l)) as [|grp gs IH]; cbn; [done|].
  cbn in Hnd. apply NoDup_app in Hnd as (H1 & _ & H2). by rewrite IH, sort_group_perm.
Qed.
