(* ===== verification/OrderFacts.v ===== *)
(** * Every layering is an order of the layers' nodes

    The initial search and each sweep give the nodes of a rank the orders
    0, 1, ..., n-1; the layers read back from a graph are the ones that were
    assigned; and of the layerings tried the one with the fewest crossings is
    kept. *)
From stdpp Require Import strings gmap sorting.
From S2P Require Import Prelude F64 SortBy DagreGraph DagreGraphFacts Rank RankFacts RankFeasible CrossCount Layers Order OrderSort.

(** ** Graphs that differ in orders *)

Definition unordered (n : NodeLabel) : NodeLabel := set_n_order None n.
Notation reordered := (relabelled unordered).

Lemma set_order_reordered i v g : reordered g (set_order_of i v g).
Proof. apply node_mut_relabelled. by intros []. Qed.
Lemma ro_rank g g' v : reordered g g' → node_rank g' v = node_rank g v.
Proof.
  intros R. pose proof (rr_nodes _ _ R v) as H. unfold node_rank, node.
  destruct (g_nodes g' !! v) as [n'|], (g_nodes g !! v) as [n|]; cbn in H; try done.
  apply (inj Some) in H. cbn. change (n_rank (unordered n') = n_rank (unordered n)). by rewrite H.
Qed.
Lemma ro_borders g g' : reordered g g' → distinct_borders g → distinct_borders g'.
Proof.
  intros R Hd p n' i b Hp. pose proof (rr_nodes _ _ R p) as H. rewrite Hp in H.
  destruct (g_nodes g !! p) as [n|] eqn:E; cbn in H; [|done]. apply (inj Some) in H.
  change (n_border_left n') with (n_border_left (unordered n')). change (n_border_right n') with (n_border_right (unordered n')).
  rewrite H. apply (Hd p n i b E).
Qed.
Lemma ro_nodes g g' : reordered g g' → nodes g' = nodes g.
Proof. intros R. apply nodes_dom, (rr_dom _ _ R). Qed.

(** The nodes of a rank. *)
Definition rank_nodes (g : DagreGraph) (r : Z) : list string := filter (λ v, node_rank g v = Some r) (nodes g).
Lemma rank_nodes_elem g r v : v ∈ rank_nodes g r ↔ node_rank g v = Some r.
Proof.
  unfold rank_nodes. rewrite list_elem_of_filter, nodes_elem. split; [tauto|]. intros Hr. split; [done|].
  unfold node_rank, node in Hr. destruct (g_nodes g !! v); [by eexists|done].
Qed.
Lemma rank_nodes_nodup g r : NoDup (rank_nodes g r).
Proof. apply NoDup_filter, nodes_nodup. Qed.
Lemma ro_rank_nodes g g' r : reordered g g' → rank_nodes g' r = rank_nodes g r.
Proof.
  intros R. unfold rank_nodes. rewrite (ro_nodes _ _ R). apply filter_ext_in. intros v _. by rewrite (ro_rank _ _ v R).
Qed.

(** ** Layerings *)

(** One list per rank, each an ordering of the rank's nodes. *)
Record layering_of (g : DagreGraph) (L : list (list string)) : Prop := {
  lo_row r l : L !! r = Some l → l ≡ₚ rank_nodes g (Z.of_nat r);
  lo_rank v r : node_rank g v = Some r → 0 ≤ r < Z.of_nat (length L)
}.
Record in_order (g : DagreGraph) (L : list (list string)) : Prop := {
  io_layering : layering_of g L;
  io_order r l i v : L !! r = Some l → l !! i = Some v → node_order g v = Some i
}.
Lemma layering_reordered g g' L : reordered g g' → layering_of g L → layering_of g' L.
Proof.
  intros R [Hr Hk]. split; [intros r l Hl; rewrite (ro_rank_nodes _ _ _ R); by apply Hr|].
  intros v r. rewrite (ro_rank _ _ _ R). apply Hk.
Qed.
Lemma row_elem g L r l v : layering_of g L → L !! r = Some l → v ∈ l ↔ node_rank g v = Some (Z.of_nat r).
Proof. intros Hl Hr. rewrite (lo_row _ _ Hl r l Hr). apply rank_nodes_elem. Qed.
Lemma row_nodup g L r l : layering_of g L → L !! r = Some l → NoDup l.
Proof. intros Hl Hr. rewrite (lo_row _ _ Hl r l Hr). apply rank_nodes_nodup. Qed.
Lemma ranked_some g v r : node_rank g v = Some r → is_Some (g_nodes g !! v).
Proof. unfold node_rank, node. destruct (g_nodes g !! v); [by eexists|done]. Qed.

Lemma set_order_lookup i v g x : is_Some (g_nodes g !! v) →
  node_order (set_order_of i v g) x = if decide (x = v) then Some i else node_order g x.
Proof.
  intros [n Hn]. unfold node_order, node, set_order_of, node_mut. cbn. destruct (decide (x = v)) as [->|Hne].
  - by rewrite lookup_alter_eq, Hn.
  - by rewrite lookup_alter_ne.
Qed.
Lemma assign_layer_spec l g : NoDup l → (∀ v, v ∈ l → is_Some (g_nodes g !! v)) →
  reordered g (assign_layer l g) ∧
  (∀ i v, l !! i = Some v → node_order (assign_layer l g) v = Some i) ∧
  (∀ v, v ∉ l → node_order (assign_layer l g) v = node_order g v).
Proof.
  unfold assign_layer.
  assert (H : ∀ h : nat → nat, NoDup l → (∀ v, v ∈ l → is_Some (g_nodes g !! v)) →
    let g' := fold_with (λ p g, set_order_of p.1 p.2 g) (imap (λ i v, (h i, v)) l) g in
    reordered g g' ∧ (∀ i v, l !! i = Some v → node_order g' v = Some (h i)) ∧ (∀ v, v ∉ l → node_order g' v = node_order g v)).
  2: { intros Hnd Hl. exact (H id Hnd Hl). }
  revert g. induction l as [|x l IH]; intros g h Hnd Hl; cbn [imap fold_with].
  { split_and!; [apply reranked_refl|done|done]. }
  apply NoDup_cons in Hnd as [Hx Hnd].
  assert (R0 : reordered g (set_order_of (h 0%nat) x g)) by apply set_order_reordered.
  assert (Hs : is_Some (g_nodes g !! x)) by (apply Hl; by left).
  destruct (IH (set_order_of (h 0%nat) x g) (h ∘ S) Hnd) as (R & Ho & Hn).
  { intros v Hv. apply (rr_some _ _ R0), Hl. by right. }
  cbn [fst snd] in *. split_and!.
  - by eapply reranked_trans.
  - intros [|i] v Hi; cbn in Hi.
    + injection Hi as ->. etrans; [by apply Hn|]. rewrite set_order_lookup by done. by rewrite decide_True.
    + by apply Ho.
  - intros v [Hvx Hv]%not_elem_of_cons. etrans; [by apply Hn|]. rewrite set_order_lookup by done. by rewrite decide_False.
Qed.
Lemma assign_row g L r l : in_order g L → L !! r = Some l → ∀ l', l' ≡ₚ l →
  reordered g (assign_layer l' g) ∧ in_order (assign_layer l' g) (<[r := l']> L).
Proof.
  intros [Hl Ho] Hr l' Hp. assert (Hnd : NoDup l') by (rewrite Hp; by eapply row_nodup).
  assert (Hin : ∀ v, v ∈ l' ↔ node_rank g v = Some (Z.of_nat r)) by (intros v; rewrite Hp; by eapply row_elem).
  destruct (assign_layer_spec l' g Hnd) as (R & Hi & Hn); [intros v Hv%Hin; by eapply ranked_some|].
  split; [done|]. assert (Hlt : (r < length L)%nat) by (by eapply lookup_lt_Some).
  assert (HL : layering_of g (<[r := l']> L)).
  { split; [|rewrite length_insert; apply (lo_rank _ _ Hl)]. intros q m. destruct (decide (q = r)) as [->|Hne].
    - rewrite list_lookup_insert_eq by done. intros [= <-]. rewrite Hp. by apply (lo_row _ _ Hl).
    - rewrite list_lookup_insert_ne by done. apply (lo_row _ _ Hl). }
  split; [by eapply layering_reordered|]. intros q m i v Hq Hm. destruct (decide (q = r)) as [->|Hne].
  - rewrite list_lookup_insert_eq in Hq by done. injection Hq as <-. by apply Hi.
  - rewrite list_lookup_insert_ne in Hq by done. rewrite Hn; [by eapply Ho|].
    rewrite Hin. intros Hv. assert (Hvm : v ∈ m) by (by eapply list_elem_of_lookup_2).
    rewrite (row_elem g L q m v Hl Hq), Hv in Hvm. apply Hne. injection Hvm. lia.
Qed.
Lemma assign_order_spec L g : layering_of g L → reordered g (assign_order L g) ∧ in_order (assign_order L g) L.
Proof.
  intros Hl. unfold assign_order.
  assert (H : ∀ post pre g', L = pre ++ post → reordered g g' →
    (∀ r l i v, pre !! r = Some l → l !! i = Some v → node_order g' v = Some i) →
    reordered g (fold_with assign_layer post g') ∧
    (∀ r l i v, L !! r = Some l → l !! i = Some v → node_order (fold_with assign_layer post g') v = Some i)).
  { induction post as [|l post IH]; intros pre g' E R Ho; [rewrite app_nil_r in E; by subst pre|]. cbn [fold_with].
    assert (Hr : L !! length pre = Some l) by (by rewrite E, list_lookup_middle).
    pose proof (layering_reordered _ _ _ R Hl) as Hl'.
    destruct (assign_layer_spec l g' (row_nodup _ _ _ _ Hl' Hr)) as (R' & Hi & Hn).
    { intros v Hv. apply (row_elem _ _ _ _ v Hl' Hr) in Hv. by eapply ranked_some. }
    apply (IH (pre ++ [l])); [by rewrite <- app_assoc|by eapply reranked_trans|].
    intros r m i v Hm Hv. destruct (decide (v ∈ l)) as [Hvl|Hvl].
    - assert (Hr' : L !! r = Some m).
      { rewrite E. replace (pre ++ l :: post) with ((pre ++ [l]) ++ post) by (by rewrite <- app_assoc). by apply lookup_app_l_Some. }
      assert (Hvm : v ∈ m) by (by eapply list_elem_of_lookup_2).
      apply (row_elem _ _ _ _ v Hl' Hr') in Hvm. apply (row_elem _ _ _ _ v Hl' Hr) in Hvl.
      assert (r = length pre) as -> by (rewrite Hvm in Hvl; injection Hvl; lia). simplify_eq. by apply Hi.
    - rewrite Hn by done. apply lookup_snoc_Some in Hm as [[_ Hm]|[_ <-]]; [by eapply Ho|].
      exfalso. apply Hvl. by eapply list_elem_of_lookup_2. }
  destruct (H L [] g) as [R Ho]; [done|apply reranked_refl|done|]. split; [done|].
  split; [by eapply layering_reordered|done].
Qed.

(** ** Layers read back *)

Lemma push_layers {A} (pick : string → option (nat * A)) l n r :
  fold_with (λ v layers, match pick v with Some (q, x) => push_layer q x layers | None => layers end) l (replicate n []) !! r =
  if decide (r < n)%nat then Some (omap (λ v, match pick v with Some (q, x) => if decide (q = r) then Some x else None | None => None end) l)
  else None.
Proof.
  assert (H : ∀ layers : list (list A),
    fold_with (λ v layers, match pick v with Some (q, x) => push_layer q x layers | None => layers end) l layers !! r =
    (λ row, row ++ omap (λ v, match pick v with Some (q, x) => if decide (q = r) then Some x else None | None => None end) l) <$> layers !! r).
  { induction l as [|v l IH]; intros layers; cbn [fold_with omap list_omap].
    - destruct (layers !! r); cbn; [by rewrite app_nil_r|done].
    - rewrite IH. destruct (pick v) as [[q x]|]; [|done]. unfold push_layer. destruct (decide (q = r)) as [->|Hne].
      + rewrite list_lookup_alter_eq. destruct (layers !! r); cbn; [by rewrite <- app_assoc|done].
      + by rewrite list_lookup_alter_ne. }
  rewrite H. case_decide as Hr.
  - by rewrite lookup_replicate_2.
  - rewrite (lookup_ge_None_2 (replicate n []) r); [done|rewrite length_replicate; lia].
Qed.

Lemma by_order_sorted l : StronglySorted (λ a b, by_order a b = true) (sort_by by_order l).
Proof. apply sort_by_sorted; unfold by_order; intros; rewrite ?Nat.leb_le in *; lia. Qed.
Lemma imap_sorted (l : list string) : StronglySorted (λ a b, by_order a b = true) (imap (λ i v, (v, i)) l).
Proof.
  assert (H : ∀ h : nat → nat, (∀ i j, (i < j)%nat → (h i < h j)%nat) → StronglySorted (λ a b, by_order a b = true) (imap (λ i v, (v, h i)) l)).
  { induction l as [|v l IH]; intros h Hh; cbn [imap]; constructor.
    - apply (IH (h ∘ S)). intros i j Hij. apply Hh. lia.
    - apply Forall_forall. intros p Hp. apply elem_of_lookup_imap in Hp as (i & x & -> & _). unfold by_order. cbn.
      apply Nat.leb_le. assert (h 0 < h (S i))%nat by (apply Hh; lia). lia. }
  by apply (H id).
Qed.
Lemma sort_row rows l : rows ≡ₚ imap (λ i v, (v, i)) l → (sort_by by_order rows).*1 = l.
Proof.
  intros Hp. assert (E : sort_by by_order rows = imap (λ i v, (v, i)) l).
  { eapply StronglySorted_unique_strong; [|apply by_order_sorted|apply imap_sorted|by rewrite sort_by_perm].
    intros [a i] [b j]. rewrite sort_by_elem, Hp. intros (i' & a' & [= -> ->] & Ha)%elem_of_lookup_imap (j' & b' & [= -> ->] & Hb)%elem_of_lookup_imap.
    unfold by_order; cbn. rewrite !Nat.leb_le. intros ??. assert (i' = j') as -> by lia. by simplify_eq. }
  rewrite E, fmap_imap. rewrite <- (list_fmap_id l) at 2. rewrite <- imap_const. by apply imap_ext.
Qed.

Lemma order_row g L r l : in_order g L → L !! r = Some l → ∀ rows,
  rows = omap (λ v, if decide (node_rank g v = Some (Z.of_nat r)) then (λ o, (v, o)) <$> node_order g v else None) (nodes g) →
  rows ≡ₚ imap (λ i v, (v, i)) l.
Proof.
  intros [Hl Ho] Hr rows ->.
  assert (Hin : ∀ v i, l !! i = Some v ↔ node_rank g v = Some (Z.of_nat r) ∧ node_order g v = Some i).
  { intros v i. split.
    - intros Hi. split; [|by eapply Ho]. eapply row_elem; [done..|]. by eapply list_elem_of_lookup_2.
    - intros [Hv Hi]. apply (row_elem g L r l v Hl Hr) in Hv. apply list_elem_of_lookup_1 in Hv as [j Hj].
      pose proof (Ho r l j v Hr Hj). by simplify_eq. }
  apply NoDup_Permutation.
  - pose proof (nodes_nodup g) as Hnd. revert Hnd. generalize (nodes g). induction l0 as [|v vs IH]; cbn; [constructor|].
    intros [Hv Hnd]%NoDup_cons. destruct (decide _); [|by apply IH]. destruct (node_order g v) as [o|]; cbn; [|by apply IH].
    apply NoDup_cons. split; [|by apply IH]. intros (x & Hx & E)%list_elem_of_omap.
    destruct (decide _); [|done]. destruct (node_order g x); cbn in E; [|done]. injection E as -> _. done.
  - rewrite NoDup_alt. intros i j p Hi Hj. rewrite list_lookup_imap in Hi, Hj.
    destruct (l !! i) as [a|], (l !! j) as [b|]; cbn in *; try done. congruence.
  - intros [v o]. rewrite list_elem_of_omap. split.
    + intros (x & Hx & E). destruct (decide _) as [Hk|]; [|done]. destruct (node_order g x) as [o'|] eqn:Eo; cbn in E; [|done].
      injection E as -> ->. apply elem_of_lookup_imap. exists o, v. split; [done|]. by apply Hin.
    + intros (i & x & [= -> ->] & [Hk Hi]%Hin)%elem_of_lookup_imap. exists x. split.
      * apply nodes_elem. by eapply ranked_some.
      * rewrite decide_True by done. by rewrite Hi.
Qed.
(** The row of a rank: its nodes that have an order. *)
Definition row_of (g : DagreGraph) (r : nat) : list (string * nat) :=
  omap (λ v, if decide (node_rank g v = Some (Z.of_nat r)) then (λ o, (v, o)) <$> node_order g v else None) (nodes g).
Lemma matrix_row g m r : order_layer_matrix g m !! r = if decide (r < S m)%nat then Some (sort_by by_order (row_of g r)).*1 else None.
Proof.
  unfold order_layer_matrix, sorted_layers. rewrite list_lookup_fmap.
  set (pick := λ v, match node_rank g v, node_order g v with
                    | Some rank, Some order => if (0 <=? rank) && (Z.to_nat rank <=? m)%nat then Some (Z.to_nat rank, (v, order)) else None
                    | _, _ => None end).
  assert (E : ∀ l ls, fold_with (λ v layers, match node_rank g v, node_order g v with
      | Some rank, Some order => if (0 <=? rank) && (Z.to_nat rank <=? m)%nat then push_layer (Z.to_nat rank) (v, order) layers else layers
      | _, _ => layers end) l ls =
    fold_with (λ v layers, match pick v with Some (q, x) => push_layer q x layers | None => layers end) l ls).
  { induction l as [|v l IH]; intros ls; cbn [fold_with]; [done|]. rewrite IH. f_equal. unfold pick.
    destruct (node_rank g v), (node_order g v); try done. by destruct (_ && _). }
  rewrite E, push_layers. destruct (decide _) as [Hr|Hr]; [|done]. cbn. do 3 f_equal.
  apply list_omap_ext, Forall_Forall2_diag, Forall_true.
  intros v. unfold pick. destruct (node_rank g v) as [q|], (node_order g v) as [o|]; cbn; try (by case_decide).
  destruct (Z.leb_spec 0 q); cbn.
  - destruct (Nat.leb_spec (Z.to_nat q) m).
    + destruct (decide (Z.to_nat q = r)) as [Eq|Eq], (decide (Some q = Some (Z.of_nat r))) as [Eq'|Eq']; try done.
      * exfalso. apply Eq'. f_equal. lia.
      * exfalso. injection Eq' as Eq'. lia.
    + rewrite decide_False; [done|]. intros [= ->]. lia.
  - rewrite decide_False; [done|]. intros [= ->]. lia.
Qed.
Lemma matrix_in_order g L m : in_order g L → length L = S m → order_layer_matrix g m = L.
Proof.
  intros I Hlen. apply list_eq. intros r. rewrite matrix_row.
  destruct (decide _) as [Hr|Hr]; [|symmetry; apply lookup_ge_None; lia].
  destruct (lookup_lt_is_Some_2 L r) as [l Hl]; [lia|]. rewrite Hl. f_equal. apply sort_row.
  by apply (order_row g L r l I Hl).
Qed.
Lemma matrix_has g m v r o : node_rank g v = Some r → node_order g v = Some o → 0 ≤ r ≤ Z.of_nat m → v ∈ concat (order_layer_matrix g m).
Proof.
  intros Hr Ho Hb. apply list_elem_of_In, in_concat.
  exists (sort_by by_order (row_of g (Z.to_nat r))).*1. rewrite <- !list_elem_of_In. split.
  - apply (list_elem_of_lookup_2 _ (Z.to_nat r)). rewrite matrix_row, decide_True; [done|lia].
  - apply list_elem_of_fmap. exists (v, o). split; [done|]. apply sort_by_elem, list_elem_of_omap.
    exists v. split; [apply nodes_elem; by eapply ranked_some|]. by rewrite decide_True, Ho by (rewrite Hr; f_equal; lia).
Qed.

(** ** Constraints end *)

(** Every node's chain of parents ends. *)
Definition parents_end (g : DagreGraph) : Prop :=
  ∃ depth : string → nat, ∀ v p, g_parent g !! v = Some p → (depth p < depth v ≤ size (g_parent g))%nat.

Lemma constrain_up_total g depth : (∀ v p, g_parent g !! v = Some p → (depth p < depth v ≤ size (g_parent g))%nat) →
  ∀ fuel child s, match child with Some c => (depth c ≤ fuel)%nat | None => True end → ∃ r, constrain_up fuel g child s = Done r.
Proof.
  intros Hd. induction fuel as [|fuel IH]; intros child s Hc; cbn [constrain_up];
    (destruct child as [c|]; [|destruct (sb_root_prev s); by eexists]); cbn [mbind option_bind]; unfold parent;
    (destruct (g_parent g !! c) as [p|] eqn:Ep; [destruct (Hd c p Ep)|]).
  - lia.
  - case_match; [case_decide|]; by eexists.
  - set (s' := mkSiblings _ _ _). destruct (IH (Some p) s' ltac:(cbn in *; lia)) as [r E]. rewrite E.
    case_match; [case_decide|]; by eexists.
  - case_match; [case_decide|]; by eexists.
Qed.
Lemma constraints_total g cg vs : parents_end g → ∃ cg', add_subgraph_constraints g cg vs = Done cg'.
Proof.
  intros [depth Hd]. unfold add_subgraph_constraints. generalize (mkSiblings ∅ None cg).
  induction vs as [|v vs IH]; intros s; cbn [constrain]; [by eexists|].
  destruct (constrain_up_total g depth Hd (size (g_parent g)) (parent g v) s) as [[returned s'] ->].
  { unfold parent. destruct (g_parent g !! v) as [p|] eqn:E; [|done]. destruct (Hd v p E). lia. }
  rewrite bind_done. destruct returned; [by eexists|apply IH].
Qed.
Lemma parents_same {f} g g' : relabelled f g g' → parents_end g → parents_end g'.
Proof. intros R. unfold parents_end. by rewrite (rest_parent _ _ (rr_rest _ _ R)). Qed.

(** ** Sweeps *)

Section sweeps.
#[local] Set Default Proof Using "All".
Context `{GO : GroupOrder}.
(** A graph that can be ordered: ranks fit, parents end, borders are distinct. *)
Record orderable (g : DagreGraph) : Prop := {
  od_wf : wf g;
  od_rank v r : node_rank g v = Some r → 0 ≤ r ≤ i32_max;
  od_parents : parents_end g;
  od_borders : distinct_borders g
}.
Lemma orderable_same g g' : reordered g g' → orderable g → orderable g'.
Proof.
  intros R [W Hr Hp Hb]. split.
  - by apply (rr_wf _ _ R).
  - intros v r. rewrite (ro_rank _ _ _ R). apply Hr.
  - by eapply parents_same.
  - by eapply ro_borders.
Qed.

Definition ordered (n : nat) (g : DagreGraph) : Prop := ∃ L, in_order g L ∧ length L = n.
Lemma sweep_rank_ok i bias_right use_predecessors rank n g cg : orderable g → ordered n g →
  (rank < n)%nat → Z.of_nat n ≤ i32_max + 1 → ∃ g' cg', sweep_rank i bias_right use_predecessors rank (g, cg) = Done (g', cg') ∧ reordered g g' ∧ ordered n g'.
Proof.
  intros O (L & I & Hlen) Hr Hn. unfold sweep_rank.
  destruct (lookup_lt_is_Some_2 L rank) as [l Hl]; [lia|]. pose proof (io_layering _ _ I) as HL.
  set (layer := sort_by _ _).
  assert (Hlayer : layer ≡ₚ l).
  { unfold layer. rewrite sort_by_perm, (lo_row _ _ HL rank l Hl).
    change (filter _ (nodes g)) with (rank_nodes g (i32_wrap (Z.of_nat rank))).
    rewrite i32_wrap_small; [done|]. unfold is_i32, i32_min, i32_max in *. lia. }
  destruct layer as [|v vs] eqn:E.
  - exists g, cg. split_and!; [done|apply reranked_refl|by exists L].
  - rewrite <- E in *. clear E.
    set (sorted := sort_layer_hierarchical i rank g layer bias_right use_predecessors).
    assert (Hs : sorted ≡ₚ l).
    { unfold sorted. rewrite sort_layer_perm; [done|apply O|]. rewrite Hlayer. by eapply row_nodup. }
    destruct (assign_row g L rank l I Hl sorted Hs) as [R I'].
    destruct (constraints_total (assign_layer sorted g) cg sorted) as [cg' ->]; [by eapply parents_same, O|].
    rewrite bind_done. exists (assign_layer sorted g), cg'. split_and!; [done..|].
    exists (<[rank := sorted]> L). split; [done|]. by rewrite length_insert.
Qed.
Lemma sweep_ranks_ok i bias_right use_predecessors ranks n g cg : orderable g → ordered n g → Z.of_nat n ≤ i32_max + 1 →
  (∀ rank, rank ∈ ranks → (rank < n)%nat) →
  ∃ s, fold_outcome (sweep_rank i bias_right use_predecessors) ranks (g, cg) = Done s ∧ reordered g s.1 ∧ ordered n s.1.
Proof.
  intros O Hg Hn Hr. destruct (fold_outcome_inv (λ _ s, reordered g s.1 ∧ ordered n s.1)
    (sweep_rank i bias_right use_predecessors) ranks (g, cg)) as (s & E & H).
  - split; [apply reranked_refl|done].
  - intros pre rank post [g1 cg1] E [R1 O1]. cbn in R1, O1.
    destruct (sweep_rank_ok i bias_right use_predecessors rank n g1 cg1) as (g2 & cg2 & -> & R2 & O2);
      [by eapply orderable_same|done|apply Hr; rewrite E; set_solver|done|].
    eexists. split; [done|]. split; [by eapply reranked_trans|done].
  - by exists s.
Qed.
Lemma sweep_ok m i g : orderable g → ordered (S m) g → Z.of_nat m ≤ i32_max →
  ∃ g', sweep m i g = Done g' ∧ reordered g g' ∧ ordered (S m) g'.
Proof.
  intros O Hg Hm. unfold sweep, sweep_down_hierarchical, sweep_up_hierarchical. destruct (_ =? _)%nat.
  - destruct (sweep_ranks_ok i (2 <=? i mod 4)%nat true (seq 1 m) (S m) g ∅) as ([g' cg'] & -> & R & O'); [done|done|lia| |].
    + intros rank Hr%elem_of_seq. lia.
    + by exists g'.
  - destruct (sweep_ranks_ok i (2 <=? i mod 4)%nat false (reverse (seq 0 m)) (S m) g ∅) as ([g' cg'] & -> & R & O'); [done|done|lia| |].
    + intros rank. rewrite elem_of_reverse, elem_of_seq. lia.
    + by exists g'.
Qed.
End sweeps.

(** ** The initial order *)

Lemma max_rank_spec g : match max_rank g with
  | Some m => (∃ v, node_rank g v = Some m) ∧ ∀ v r, node_rank g v = Some r → r ≤ m
  | None => ∀ v, node_rank g v = None end.
Proof.
  unfold max_rank. pose proof (ranks_of_elem g) as H. destruct (ranks_of g) as [|r rs].
  - intros v. apply eq_None_not_Some. intros [r Hr]. apply (elem_of_nil r). apply H. by exists v.
  - assert (Hm : foldr Z.max r rs ∈ r :: rs ∧ ∀ x, x ∈ r :: rs → x ≤ foldr Z.max r rs).
    { clear H. induction rs as [|y rs [IH1 IH2]]; cbn [foldr].
      { split; [by left|]. intros x Hx. apply list_elem_of_singleton in Hx as ->. lia. }
      split.
      - destruct (Z.max_spec y (foldr Z.max r rs)) as [[_ ->]|[_ ->]]; set_solver.
      - intros x [->|[->|Hx]%elem_of_cons]%elem_of_cons; [|lia|].
        + specialize (IH2 r ltac:(by left)). lia.
        + specialize (IH2 x ltac:(by right)). lia. }
    destruct Hm as [Hm1 Hm2]. split; [by apply H|]. intros v x Hx. apply Hm2, H. by exists v.
Qed.

Section init.
#[local] Set Default Proof Using "All".
Context (g : DagreGraph) (W : wf g) (n : nat) (Hr : ∀ v r, node_rank g v = Some r → 0 ≤ r < Z.of_nat n).
Let N : gset string := dom (g_nodes g).

Record init_inv (s : InitState) : Prop := {
  ii_length : length (in_layers s) = n;
  ii_row r l : in_layers s !! r = Some l → NoDup l;
  ii_elem r l v : in_layers s !! r = Some l → v ∈ l ↔ v ∈ in_visited s ∧ node_rank g v = Some (Z.of_nat r)
}.
Lemma place_inv v s : init_inv s → v ∉ in_visited s → init_inv (mkInit ({[v]} ∪ in_visited s) (place g v (in_layers s))).
Proof.
  intros [Hl Hn He] Hv. unfold place. destruct (node_rank g v) as [q|] eqn:Eq.
  - pose proof (Hr v q Eq). rewrite (proj2 (Z.leb_le 0 q)) by lia. rewrite (proj2 (Nat.ltb_lt (Z.to_nat q) _)) by lia. cbn [andb].
    unfold push_layer. split; cbn.
    + by rewrite length_alter.
    + intros r l. destruct (decide (Z.to_nat q = r)) as [<-|Hne]; [|rewrite list_lookup_alter_ne by done; by apply Hn].
      rewrite list_lookup_alter_eq. destruct (in_layers s !! Z.to_nat q) as [l0|] eqn:E; cbn; [|done]. intros [= <-].
      apply NoDup_app. split_and!; [by eapply Hn| |apply NoDup_singleton].
      intros x Hx ->%list_elem_of_singleton. by apply (He _ _ v E) in Hx as [? _].
    + intros r l x. destruct (decide (Z.to_nat q = r)) as [<-|Hne].
      * rewrite list_lookup_alter_eq. destruct (in_layers s !! Z.to_nat q) as [l0|] eqn:E; cbn; [|done]. intros [= <-].
        rewrite elem_of_app, (He _ _ x E), list_elem_of_singleton, elem_of_union, elem_of_singleton.
        replace (Z.of_nat (Z.to_nat q)) with q by lia. naive_solver.
      * rewrite list_lookup_alter_ne by done. intros Hrl. rewrite (He _ _ x Hrl), elem_of_union, elem_of_singleton.
        split; [tauto|]. intros [[->|?] Hx]; [|done]. rewrite Eq in Hx. injection Hx. lia.
  - split; cbn; [done|done|]. intros r l x Hrl. rewrite (He _ _ x Hrl), elem_of_union, elem_of_singleton.
    split; [tauto|]. intros [[->|?] Hx]; [congruence|done].
Qed.
Lemma init_dfs_ok fuel : ∀ v s, v ∈ N → in_visited s ⊆ N → init_inv s → (size (N ∖ in_visited s) ≤ fuel)%nat →
  ∃ s', init_dfs fuel g v s = Done s' ∧ init_inv s' ∧ in_visited s' ⊆ N ∧ {[v]} ∪ in_visited s ⊆ in_visited s'.
Proof.
  induction fuel as [|fuel IH]; intros v s Hv Hs I Hf; cbn [init_dfs].
  - destruct (decide (v ∈ in_visited s)); [exists s; split_and!; [done..|set_solver]|].
    exfalso. apply Nat.le_0_r, size_empty_inv in Hf. set_solver.
  - destruct (decide (v ∈ in_visited s)) as [|Hnv]; [exists s; split_and!; [done..|set_solver]|].
    set (s0 := mkInit _ _).
    destruct (fold_outcome_inv (λ _ s', init_inv s' ∧ in_visited s' ⊆ N ∧ {[v]} ∪ in_visited s ⊆ in_visited s')
      (init_dfs fuel g) (successors g v) s0) as (s' & E & H1 & H2 & H3).
    + split_and!; [by apply place_inv|cbn; set_solver|done].
    + intros pre w post s1 E (I1 & N1 & V1).
      assert (Hw : w ∈ N).
      { assert (Hin : w ∈ successors g v) by (rewrite E; set_solver).
        unfold successors in Hin. apply list_elem_of_fmap in Hin as (k & -> & [_ Hk]%(wf_out g W)).
        apply elem_of_dom. by destruct (edge_ends g k W Hk). }
      destruct (IH w s1 Hw N1 I1) as (s2 & E2 & I2 & N2 & V2).
      * assert (size (N ∖ in_visited s1) < size (N ∖ in_visited s))%nat; [|lia].
        apply subset_size. split; [set_solver|]. intros Hsub. assert (v ∈ N ∖ in_visited s) by set_solver. set_solver.
      * exists s2. split_and!; [done..|]. set_solver.
    + by exists s'.
Qed.
Lemma init_all l s : (∀ v, v ∈ l → v ∈ N) → in_visited s ⊆ N → init_inv s →
  ∃ s', fold_outcome (init_dfs (node_count g) g) l s = Done s' ∧ init_inv s' ∧ in_visited s' ⊆ N ∧
    list_to_set l ∪ in_visited s ⊆ in_visited s'.
Proof.
  intros Hl Hs I.
  destruct (fold_outcome_inv (λ pre s', init_inv s' ∧ in_visited s' ⊆ N ∧ list_to_set pre ∪ in_visited s ⊆ in_visited s')
    (init_dfs (node_count g) g) l s) as (s' & E & H1 & H2 & H3); [split_and!; [done..|set_solver]| |by exists s'].
  intros pre v post s1 E (I1 & N1 & V1).
  destruct (init_dfs_ok (node_count g) v s1) as (s2 & E2 & I2 & N2 & V2); [apply Hl; rewrite E; set_solver|done..| |].
  - unfold node_count. rewrite <- (size_dom (D := gset string)). apply subseteq_size. set_solver.
  - exists s2. split_and!; [done..|]. rewrite list_to_set_app_L. set_solver.
Qed.
Lemma init_order_ok : Z.to_nat (default 0 (max_rank g) + 1) = n → ∃ L, init_order g = Done L ∧ layering_of g L ∧ length L = n.
Proof.
  intros Hn. unfold init_order. rewrite Hn.
  destruct (init_all (sort_by (init_leb g) (nodes g)) (mkInit ∅ (replicate n []))) as (s & -> & [Hl Hnd He] & HN & HV).
  - intros v. rewrite sort_by_elem, nodes_elem. apply elem_of_dom.
  - cbn. set_solver.
  - split; cbn; [by rewrite length_replicate| |].
    + intros r l [-> _]%lookup_replicate. constructor.
    + intros r l v [-> _]%lookup_replicate. set_solver.
  - rewrite bind_done. exists (in_layers s). split_and!; [done| |done]. split.
    + intros r l Hrl. apply NoDup_Permutation; [by eapply Hnd|apply rank_nodes_nodup|]. intros v.
      rewrite (He r l v Hrl), rank_nodes_elem. split; [tauto|]. intros Hv. split; [|done]. apply HV, elem_of_union_l, elem_of_list_to_set.
      rewrite sort_by_elem, nodes_elem. by eapply ranked_some.
    + intros v r Hv. rewrite Hl. by eapply Hr.
Qed.
End init.

(** ** The whole order *)

Lemma crossings_same {f} g g' L : relabelled f g g' → all_crossings g' L = all_crossings g L.
Proof.
  intros R. assert (E : ∀ a b, crossings_of g' a b = crossings_of g a b).
  { intros a b. unfold crossings_of, ends_of. f_equal. apply list_fmap_ext. intros _ v _.
    rewrite (rr_out_edges _ _ R). apply list_omap_ext, Forall_Forall2_diag, Forall_true. intros k.
    unfold edge_weight, edge_by_key. by rewrite (rr_edges _ _ R). }
  induction L as [|a [|b L] IH]; [done..|]. cbn [all_crossings] in *. by rewrite E, IH.
Qed.
(** The crossings of a graph's own layers, as the code counts them. *)
Definition crossings_in (g : DagreGraph) (m : nat) : Z := i32_wrap (all_crossings g (order_layer_matrix g m)).

(** ** The best of what was tried *)

(** The first least of a list is at [j]. *)
Definition first_least (j : nat) (l : list Z) : Prop :=
  ∃ c, l !! j = Some c ∧ ∀ i d, l !! i = Some d → c ≤ d ∧ ((i < j)%nat → c < d).
Lemma first_least_unique i j l : first_least i l → first_least j l → i = j.
Proof.
  intros (c & Hc & Hi) (d & Hd & Hj). destruct (Hi _ _ Hd) as [H1 H1'], (Hj _ _ Hc) as [H2 H2'].
  destruct (lt_eq_lt_dec i j) as [[H|H]|H]; [specialize (H2' H); lia|done|specialize (H1' H); lia].
Qed.
Lemma first_least_lt j l : first_least j l → (j < length l)%nat.
Proof. intros (c & Hc & _). by eapply lookup_lt_Some. Qed.
Lemma first_least_snoc j l c d : first_least j l → l !! j = Some c → first_least (if d <? c then length l else j) (l ++ [d]).
Proof.
  intros (c' & Hc & Hl) Hc'. simplify_eq. destruct (Z.ltb_spec d c') as [Hlt|Hge].
  - exists d. split; [by apply list_lookup_middle|]. intros i e [He|[Hi He]]%lookup_app_Some.
    + destruct (Hl i e He). pose proof (lookup_lt_Some _ _ _ He). split; lia.
    + apply list_lookup_singleton_Some in He as [Hi' ->]. split; lia.
  - exists c'. pose proof (lookup_lt_Some _ _ _ Hc). split; [by apply lookup_app_l_Some|]. intros i e [He|[Hi He]]%lookup_app_Some; [by apply Hl|].
    apply list_lookup_singleton_Some in He as [_ ->]. split; lia.
Qed.
(** The layerings there are to choose from, with their crossings: the initial
    one, which counts as the worst there can be, and one after each sweep. *)
Definition tried (m : nat) (L : list (list string)) (gs : list DagreGraph) : list (list (list string) * Z) :=
  (L, i32_max) :: ((λ g, (order_layer_matrix g m, crossings_in g m)) <$> gs).
Lemma tried_snoc m L gs g : tried m L (gs ++ [g]) = tried m L gs ++ [(order_layer_matrix g m, crossings_in g m)].
Proof. unfold tried. by rewrite fmap_app. Qed.
(** The sweeps end at the [k]th: there are no more, or the last four did not
    find fewer crossings; and at none before did they end. *)
Definition ends_at (k : nat) (counts : list Z) : Prop :=
  (∃ j, first_least j counts ∧ (k = 24 ∨ k = j + 4)%nat) ∧
  ∀ k' j, (k' < k)%nat → first_least j (take (S k') counts) → (k' < 24 ∧ k' < j + 4)%nat.

Section order.
#[local] Set Default Proof Using "All".
Context `{GO : GroupOrder}.

(** The graphs after each of the first [k] sweeps, and the last of them. *)
Fixpoint sweeps (m k : nat) (g : DagreGraph) : panics (list DagreGraph * DagreGraph) :=
  match k with
  | O => Done ([], g)
  | S k' => '(gs, last) ← sweeps m k' g; g' ← sweep m k' last; Done (gs ++ [g'], g')
  end.

Context (g0 : DagreGraph) (O0 : orderable g0) (m : nat) (Hm : Z.of_nat m ≤ i32_max) (L0 : list (list string)).
(** After [k] sweeps, the best was found [last_best] sweeps ago. *)
Record traced (n k : nat) (gs : list DagreGraph) (j : nat) (s : Best) : Prop := {
  tr_le : (k ≤ n)%nat;
  tr_run : sweeps m k g0 = Done (gs, bs_graph s);
  tr_length : length gs = k;
  tr_best : first_least j (tried m L0 gs).*2;
  tr_at : tried m L0 gs !! j = Some (best_layering s, best_cc s);
  tr_last : k = (j + last_best s)%nat ∧ (last_best s ≤ 4)%nat;
  tr_on : (last_best s < 4)%nat → k = n;
  tr_before k' j' : (k' < k)%nat → first_least j' (take (S k') (tried m L0 gs).*2) → (k' < n ∧ k' < j' + 4)%nat
}.
Record best_inv (n : nat) (s : Best) : Prop := {
  bi_trace : ∃ k gs j, traced n k gs j s;
  bi_same : reordered g0 (bs_graph s);
  bi_ordered : ordered (S m) (bs_graph s);
  bi_layering : layering_of g0 (best_layering s) ∧ length (best_layering s) = S m;
  bi_best : i32_wrap (all_crossings g0 (best_layering s)) ≤ best_cc s
}.
Lemma traced_next n gs j s g' s' : traced n n gs j s → (last_best s < 4)%nat → sweep m n (bs_graph s) = Done g' →
  s' = (if crossings_in g' m <? best_cc s then mkBest g' (crossings_in g' m) (order_layer_matrix g' m) 0
        else mkBest g' (best_cc s) (best_layering s) (S (last_best s))) →
  ∃ j', traced (S n) (S n) (gs ++ [g']) j' s'.
Proof.
  intros [Hk Hr Hlen Hb Ha [Hl Hl4] _ Hbef] Hgo Eg ->. pose proof (first_least_lt _ _ Hb) as Hj. rewrite length_fmap in Hj.
  assert (Hc : (tried m L0 gs).*2 !! j = Some (best_cc s)) by (by rewrite list_lookup_fmap, Ha).
  assert (Hlt : length (tried m L0 gs) = S n) by (unfold tried; cbn; by rewrite length_fmap, Hlen).
  pose proof (first_least_snoc j _ _ (crossings_in g' m) Hb Hc) as Hb'. rewrite length_fmap, Hlt in Hb'.
  assert (Ht : (tried m L0 (gs ++ [g'])).*2 = (tried m L0 gs).*2 ++ [crossings_in g' m]) by (by rewrite tried_snoc, fmap_app).
  exists (if crossings_in g' m <? best_cc s then S n else j). split; [done| |rewrite length_app; cbn; lia|by rewrite Ht| | | |].
  - cbn [sweeps]. rewrite Hr, bind_done. rewrite Eg, bind_done. by case_match.
  - rewrite tried_snoc. case_match; [|by apply lookup_app_l_Some]. apply list_lookup_middle. by rewrite Hlt.
  - case_match; cbn; lia.
  - done.
  - intros k' j' Hk' Hf. rewrite Ht, take_app_le in Hf by (rewrite length_fmap; lia). split; [done|].
    destruct (decide (k' = n)) as [->|Hne]; [|apply (Hbef k' j'); [lia|done]].
    rewrite take_ge in Hf by (rewrite length_fmap; lia). rewrite (first_least_unique _ _ _ Hf Hb). lia.
Qed.
Lemma order_step_ok n s : best_inv n s → ∃ s', order_step m n s = Done s' ∧ best_inv (S n) s'.
Proof.
  intros [(k & gs & j & T) R Hord [HL Hlen] Hb]. unfold order_step.
  destruct (Nat.leb_spec 4 (last_best s)) as [Hstop|Hgo].
  { exists s. split; [done|]. destruct T as [T1 T2 T3 T4 T5 T6 T7 T8]. split; [exists k, gs, j; split; try done; [lia|lia|]|done..].
    intros k' j' Hk' Hf. destruct (T8 k' j' Hk' Hf). lia. }
  pose proof (tr_on _ _ _ _ _ T Hgo) as ->.
  destruct (sweep_ok m n (bs_graph s)) as (g' & Eg & R' & (L & I & HlL)); [by eapply orderable_same|done|done|].
  assert (R0 : reordered g0 g') by (by eapply reranked_trans).
  destruct (traced_next n gs j s g' _ T Hgo Eg eq_refl) as (j' & T').
  rewrite Eg, bind_done. cbn zeta. pose proof (matrix_in_order g' L m I HlL) as EL. rewrite cross_count_value, bind_done.
  assert (HL0 : layering_of g0 L).
  { destruct (io_layering _ _ I) as [Hr1 Hr2]. split.
    - intros r l Hl. rewrite <- (ro_rank_nodes _ _ _ R0). by apply Hr1.
    - intros v r. rewrite <- (ro_rank _ _ _ R0). apply Hr2. }
  change (i32_wrap (all_crossings g' (order_layer_matrix g' m))) with (crossings_in g' m).
  destruct (Z.ltb_spec (crossings_in g' m) (best_cc s)); eexists; (split; [done|]); split; cbn [bs_graph best_cc best_layering]; try done; try by exists (S n), (gs ++ [g']), j'.
  - by exists L.
  - by rewrite EL.
  - unfold crossings_in. rewrite EL. by rewrite <- (crossings_same _ _ L R0).
  - by exists L.
Qed.
Lemma order_steps_ok : layering_of g0 L0 → length L0 = S m → ordered (S m) g0 →
  ∃ s, fold_outcome (order_step m) (seq 0 24) (mkBest g0 i32_max L0 0) = Done s ∧ best_inv 24 s.
Proof.
  intros HL Hlen Hord. destruct (fold_outcome_inv (λ pre s, best_inv (length pre) s) (order_step m) (seq 0 24)
    (mkBest g0 i32_max L0 0)) as (s & E & I).
  - split; cbn; [|apply reranked_refl|done|done|apply i32_wrap_range].
    exists 0%nat, [], 0%nat. split; cbn; try done; try lia. exists i32_max. split; [done|]. intros [|i] d Hd; [|done]. injection Hd as <-. split; lia.
  - intros pre i post s E I. assert (i = length pre) as ->.
    { assert (Hi : seq 0 24 !! length pre = Some i) by (by rewrite E, list_lookup_middle). by apply lookup_seq in Hi as [-> _]. }
    destruct (order_step_ok _ s I) as (s' & Es & I'). exists s'. split; [done|]. rewrite length_app. cbn.
    by rewrite Nat.add_1_r.
  - by exists s.
Qed.
End order.

(** The state the sweeps start from, and the one they end in. *)
Lemma order_run `{GroupOrder} g : orderable g → ∃ L m g', init_order g = Done L ∧ m = Z.to_nat (default 0 (max_rank g)) ∧
  order g = Done g' ∧ reordered g g' ∧ ordered (S m) g' ∧
  (m ≠ 0%nat → ∃ s, best_inv (assign_order L g) m L 24 s ∧ in_order g' (best_layering s)).
Proof.
  intros O. set (n := Z.to_nat (default 0 (max_rank g) + 1)). pose proof (max_rank_spec g) as Hmax.
  assert (Hr : ∀ v r, node_rank g v = Some r → 0 ≤ r < Z.of_nat n).
  { intros v r Hv. pose proof (od_rank _ O v r Hv). unfold n. destruct (max_rank g) as [m|]; cbn.
    - destruct Hmax as [_ Hmax]. specialize (Hmax v r Hv). lia.
    - by rewrite Hmax in Hv. }
  assert (Hd : 0 ≤ default 0 (max_rank g) ≤ i32_max).
  { destruct (max_rank g) as [m|]; cbn; [|done]. destruct Hmax as [[v Hv] _]. by apply (od_rank _ O v). }
  destruct (init_order_ok g (od_wf _ O) n Hr eq_refl) as (L & EL & HL & Hlen).
  destruct (assign_order_spec L g HL) as [R I]. set (g0 := assign_order L g) in *.
  assert (HL0 : layering_of g0 L) by (by eapply layering_reordered).
  exists L, (Z.to_nat (default 0 (max_rank g))). unfold order. rewrite EL, bind_done. fold g0.
  assert (Emax : max_rank g0 = max_rank g).
  { unfold max_rank, ranks_of. rewrite (ro_nodes _ _ R).
    rewrite (list_omap_ext (node_rank g0) (node_rank g) (nodes g) (nodes g)); [done|].
    apply Forall_Forall2_diag, Forall_true. intros v. by apply ro_rank. }
  rewrite Emax. assert (Eus : as_usize (default 0 (max_rank g)) = Z.to_nat (default 0 (max_rank g))).
  { unfold as_usize. rewrite Z.mod_small; [done|]. unfold i32_max in Hd. lia. }
  cbn zeta. rewrite Eus. set (m := Z.to_nat (default 0 (max_rank g))) in *.
  assert (Hn : n = S m) by (unfold n, m; lia). rewrite Hn in Hlen.
  destruct (Nat.eqb_spec m 0) as [E0|Hne].
  { exists g0. split_and!; [done..| |done]. by exists L. }
  assert (O0 : orderable g0) by (by eapply orderable_same).
  destruct (order_steps_ok g0 O0 m ltac:(lia) L HL0 Hlen) as (s & -> & I'); [by exists L|]. rewrite bind_done.
  destruct (bi_layering _ _ _ _ _ I') as [HLb Hlb]. pose proof (bi_same _ _ _ _ _ I') as Rs.
  destruct (assign_order_spec (best_layering s) (bs_graph s)) as [Rb Ib]; [by eapply layering_reordered|].
  eexists. split_and!; [done|done|done| | |].
  - eapply reranked_trans; [done|]. by eapply reranked_trans.
  - by exists (best_layering s).
  - intros _. exists s. by split.
Qed.

(** C22: [order] gives the nodes of every rank the orders 0, 1, ..., n-1.
    For a graph whose ranks are not negative, whatever order the hash maps come
    in, ordering returns and changes nothing but orders, and the orders of the
    nodes of each rank are 0 to n-1, each once. *)
Theorem order_permutes `{GroupOrder} g : orderable g →
  ∃ g', order g = Done g' ∧ reordered g g' ∧
    ∀ r, node_order g' <$> rank_nodes g r ≡ₚ Some <$> seq 0 (length (rank_nodes g r)).
Proof.
  intros O. destruct (order_run g O) as (L & m & g' & _ & _ & E & R & (L' & I & _) & _).
  exists g'. split_and!; [done..|]. intros r. rewrite <- (ro_rank_nodes _ _ r R). pose proof (io_layering _ _ I) as HL.
  destruct (rank_nodes g' r) as [|v vs] eqn:Er; [done|]. rewrite <- Er.
  assert (Hv : node_rank g' v = Some r) by (apply rank_nodes_elem; rewrite Er; by left).
  pose proof (lo_rank _ _ HL v r Hv) as Hb. destruct (lookup_lt_is_Some_2 L' (Z.to_nat r)) as [l Hl]; [lia|].
  pose proof (lo_row _ _ HL _ _ Hl) as Hp. replace (Z.of_nat (Z.to_nat r)) with r in Hp by lia.
  rewrite <- Hp. assert (Eo : node_order g' <$> l = Some <$> seq 0 (length l)); [|by rewrite Eo]. apply list_eq. intros i. rewrite !list_lookup_fmap.
  destruct (l !! i) as [x|] eqn:Ei; cbn.
  - rewrite lookup_seq_lt by (by eapply lookup_lt_Some). cbn. f_equal. by eapply (io_order _ _ I).
  - rewrite lookup_seq_ge; [done|]. by apply lookup_ge_None.
Qed.

(** C24: of the layerings tried, the first with the fewest crossings is kept.
    When there is more than one rank, sweeps are run one after the other from the
    initial order.  They end with the 24th, or after four in a row that do not
    find fewer crossings than all before, and not earlier.  The layering of the
    result is the first with the least count, in [i32] arithmetic, among those
    after the sweeps and the initial one, which counts as [i32::MAX].  So at
    least four sweeps are run, and none of them ends with fewer crossings than
    the result has. *)
Theorem order_fewest_crossings `{GroupOrder} g m : orderable g → max_rank g = Some (Z.of_nat m) → m ≠ 0%nat →
  ∃ L g' k gs last j, init_order g = Done L ∧ order g = Done g' ∧ sweeps m k (assign_order L g) = Done (gs, last) ∧
    length gs = k ∧ ends_at k (tried m L gs).*2 ∧ (4 ≤ k ≤ 24)%nat ∧
    first_least j (tried m L gs).*2 ∧ (tried m L gs).*1 !! j = Some (order_layer_matrix g' m) ∧
    ∀ gj, gj ∈ gs → crossings_in g' m ≤ crossings_in gj m.
Proof.
  intros O Em Hm. destruct (order_run g O) as (L & m' & g' & EL & Hm' & E & R & _ & Hbest).
  rewrite Em in Hm'. cbn in Hm'. rewrite Nat2Z.id in Hm'. subst m'.
  destruct (Hbest Hm) as (s & [(k & gs & j & [Hk Hr Hl Hb Ha [Hkj Hl4] Hon Hbef]) Rs _ [_ Hlen] Hcc] & I).
  pose proof (matrix_in_order g' (best_layering s) m I Hlen) as EM.
  exists L, g', k, gs, (bs_graph s), j. split_and!; [exact EL|exact E|exact Hr|exact Hl| | |lia|exact Hb|by rewrite EM, list_lookup_fmap, Ha|].
  - split; [|exact Hbef]. exists j. split; [done|]. destruct (decide (last_best s < 4)%nat) as [Hlt|?]; [left; by apply Hon|right; lia].
  - destruct (decide (last_best s < 4)%nat) as [Hlt|?]; [rewrite (Hon Hlt); lia|lia].
  - intros gj Hj. assert (Hle : best_cc s ≤ crossings_in gj m).
    { destruct Hb as (c & Hc & Hleast). rewrite list_lookup_fmap, Ha in Hc. injection Hc as <-.
      apply list_elem_of_lookup in Hj as [i Hi]. apply (Hleast (S i)). rewrite list_lookup_fmap.
      change (tried m L gs !! S i) with (((λ g, (order_layer_matrix g m, crossings_in g m)) <$> gs) !! i). by rewrite list_lookup_fmap, Hi. }
    unfold crossings_in at 1. rewrite EM. destruct (assign_order_spec L g) as [R0 _]; [|].
    { destruct (init_order_ok g (od_wf _ O) (S m)) as (L' & EL' & HL' & _); [| |rewrite EL in EL'; injection EL' as <-; exact HL'].
      - intros v r Hv. pose proof (od_rank _ O v r Hv). pose proof (max_rank_spec g) as Hmax. rewrite Em in Hmax.
        destruct Hmax as [_ Hmax]. specialize (Hmax v r Hv). lia.
      - rewrite Em. cbn. lia. }
    rewrite (crossings_same _ _ _ R), <- (crossings_same _ _ _ R0). lia.
Qed.

(** ** An example *)

(** Groups in the order they are met. *)
Definition met_order : GroupOrder := {| group_order _ _ l := l; group_order_perm _ _ l := reflexivity l |}.
Definition at_level (r : Z) : NodeLabel := set_n_rank (Some r) NodeLabel_default.
(** Two edges that cross in the order of names. *)
Definition crossed : DagreGraph :=
  graph_of [SetNode "a" (at_level 0); SetNode "b" (at_level 0); SetNode "c" (at_level 1); SetNode "d" (at_level 1);
            SetEdge "a" "d" EdgeLabel_default; SetEdge "b" "c" EdgeLabel_default; SetEdge "b" "d" EdgeLabel_default].
Definition level_fits (n : NodeLabel) : bool :=
  match n_rank n with Some r => (0 <=? r) && (r <=? i32_max) | None => true end && bool_decide (n_border_left n = []).
Lemma orderable_check g : wf g → g_parent g = ∅ → forallb (λ p, level_fits p.2) (map_to_list (g_nodes g)) = true → orderable g.
Proof.
  rewrite forallb_forall. intros W Hp Hn.
  assert (Hf : ∀ x n, g_nodes g !! x = Some n → level_fits n = true).
  { intros x n Hx. apply (Hn (x, n)), list_elem_of_In. by apply elem_of_map_to_list. }
  split; [done| | |].
  - intros v r Hv. destruct (ranked_some g v r Hv) as [n Hx]. unfold node_rank, node in Hv. rewrite Hx in Hv. cbn in Hv.
    apply Hf in Hx. unfold level_fits in Hx. rewrite Hv in Hx. lia.
  - exists (λ _, 0%nat). rewrite Hp. intros v p Hv. by rewrite lookup_empty in Hv.
  - intros p n i b Hx%Hf. unfold level_fits in Hx. apply andb_true_iff in Hx as [_ Hx]. apply bool_decide_eq_true in Hx.
    rewrite Hx. unfold border_at. by destruct i.
Qed.
Lemma crossed_orderable : orderable crossed.
Proof. apply orderable_check; [apply wf_graph_of|vm_compute; reflexivity..]. Qed.

Lemma order_permutes_witness :
  ∃ g', @order met_order crossed = Done g' ∧ reordered crossed g' ∧
    ∀ r, node_order g' <$> rank_nodes crossed r ≡ₚ Some <$> seq 0 (length (rank_nodes crossed r)).
Proof. apply (@order_permutes met_order), crossed_orderable. Defined.
Lemma order_fewest_crossings_witness :
  ∃ L g' k gs last j, init_order crossed = Done L ∧ @order met_order crossed = Done g' ∧
    @sweeps met_order 1 k (assign_order L crossed) = Done (gs, last) ∧
    length gs = k ∧ ends_at k (tried 1 L gs).*2 ∧ (4 ≤ k ≤ 24)%nat ∧
    first_least j (tried 1 L gs).*2 ∧ (tried 1 L gs).*1 !! j = Some (order_layer_matrix g' 1) ∧
    ∀ gj, gj ∈ gs → crossings_in g' 1 ≤ crossings_in gj 1.
Proof.
  apply (@order_fewest_crossings met_order crossed 1 crossed_orderable); [vm_compute; reflexivity|done].
Defined.
(** The initial search already undoes the crossing. *)
Example crossed_order :
  match @order met_order crossed with
  | Done g => ((λ v, (v, node_order g v)) <$> nodes g, crossings_in g 1)
  | _ => ([], 0)
  end = ([("a", Some 0%nat); ("b", Some 1%nat); ("c", Some 1%nat); ("d", Some 0%nat)], 0).
Proof. vm_compute. reflexivity. Qed.
