(* ===== verification/Phases.v ===== *)
(** * The small phases of the layout
      ([self_edges.rs], [edge_labels.rs], and of [mod.rs] the changes of
      coordinates)

    Edges from a node to itself wait on their node while ranks and orders are
    found; labels get room, a proxy node and a rank; left-to-right layouts are
    computed top to bottom with widths and heights exchanged. *)
From stdpp Require Import strings gmap.
From S2P Require Import Prelude Bytes F64 SortBy DagreGraph Rank Layers.

Inductive RankDir := TB | BT | LR | RL.
#[export] Instance RankDir_eq_dec : EqDecision RankDir.
Proof. solve_decision. Defined.
Definition vertical (d : RankDir) : bool := match d with TB | BT => true | LR | RL => false end.
Definition dummy_is (kind : string) (n : NodeLabel) : bool := bool_decide (n_dummy n = Some kind).

(** ** Self-edges *)

Definition is_loop (k : EdgeKey) : bool := bool_decide (key_v k = key_w k).
Definition remove_self_edge (key : EdgeKey) (g : DagreGraph) : DagreGraph :=
  match edge_by_key g key with
  | Some label =>
      remove_edge_by_key key
        (node_mut (λ n, set_n_self_edges (n_self_edges n ++ [mkSelfEdge key label]) n) (key_v key) g)
  | None => g
  end.
Definition remove_self_edges `{MapOrder} (g : DagreGraph) : DagreGraph :=
  fold_with remove_self_edge (filter (λ k, is_loop k = true) (edges g)) g.

Definition self_dummy_name (v : string) (order_shift : nat) : string :=
  ("_se_" +:+ v +:+ "_" +:+ pretty (N.of_nat order_shift))%string.
Definition self_dummy (rank : option Z) (order : nat) (se : SelfEdgeInfo) : NodeLabel :=
  set_n_self_edge_info (Some se)
    (set_n_dummy (Some "selfedge") (set_n_order (Some order) (set_n_rank rank
      (set_n_height (e_height (se_label se)) (set_n_width (e_width (se_label se)) NodeLabel_default))))).
(** The dummies of the node at place [i], each further to the right. *)
Definition add_self_dummy (v : string) (i : nat) (rank : option Z) (se : SelfEdgeInfo) (s : nat * DagreGraph) : nat * DagreGraph :=
  let order_shift := S s.1 in
  (order_shift, set_node (self_dummy_name v order_shift) (self_dummy rank (i + order_shift) se) s.2).
Definition insert_at_node (p : nat * string) (s : nat * DagreGraph) : nat * DagreGraph :=
  let '(i, v) := p in
  let '(order_shift, g) := s in
  match node g v with
  | Some n =>
      let g := node_mut (λ n, set_n_self_edges [] (set_n_order (Some (i + order_shift)%nat) n)) v g in
      fold_with (add_self_dummy v i (n_rank n)) (n_self_edges n) (order_shift, g)
  | None => s
  end.
Definition insert_self_edges (g : DagreGraph) : panics DagreGraph :=
  layers ← build_layer_matrix g;
  Done (fold_with (λ layer g, (fold_with insert_at_node (imap pair layer) (0%nat, g)).2) layers g).

Definition self_label (n : NodeLabel) (dummy_x : option f64) (label : EdgeLabel) : EdgeLabel :=
  let x := f64_add (default f64_zero (n_x n)) (f64_half (n_width n)) in
  let y := default f64_zero (n_y n) in
  let dx := f64_sub (default x dummy_x) x in
  let dy := f64_half (n_height n) in
  set_e_y (Some y) (set_e_x (Some (f64_add x dx))
    (set_e_points [mkPoint (f64_add x dx) (f64_sub y dy); mkPoint (f64_add x dx) (f64_add y dy)] label)).
Definition position_self_edge (dummy_name : string) (g : DagreGraph) : panics DagreGraph :=
  match node g dummy_name with
  | None => Done g
  | Some dummy =>
      match n_self_edge_info dummy with
      | None => Done g
      | Some se =>
          match node g (key_v (se_edge_key se)) with
          | None => Done g
          | Some self_node =>
              let label := self_label self_node (n_x dummy) (se_label se) in
              let k := se_edge_key se in
              g ← match key_name k with
                  | Some name => set_edge_with_name (key_v k) (key_w k) label name g
                  | None => set_edge (key_v k) (key_w k) label g
                  end;
              Done (remove_node dummy_name g)
          end
      end
  end.
Definition position_self_edges (g : DagreGraph) : panics DagreGraph :=
  fold_outcome position_self_edge
    (filter (λ v, match node g v with Some n => dummy_is "selfedge" n | None => false end = true) (nodes g)) g.

(** ** Edge labels *)

(** [to_lowercase] is ASCII's here: no other letter becomes one of those compared. *)
Definition i32_double (z : Z) : Z := i32_wrap (z * 2).
Definition make_space (rankdir : RankDir) (e : EdgeLabel) : EdgeLabel :=
  let e' := set_e_minlen (i32_double (e_minlen e)) e in
  if bool_decide (lowercase (e_labelpos e) = "c") then e' else
  if vertical rankdir then set_e_width (f64_add (e_width e) (e_labeloffset e)) e'
  else set_e_height (f64_add (e_height e) (e_labeloffset e)) e'.
Definition make_space_for_edge_labels `{MapOrder} (rankdir : RankDir) (g : DagreGraph) : DagreGraph :=
  let g := set_g_graph_label (set_gl_ranksep (f64_half (gl_ranksep (g_graph_label g))) (g_graph_label g)) g in
  fold_with (edge_by_key_mut (make_space rankdir)) (edges g) g.

(** [i32] division rounds towards zero. *)
Definition label_rank_of (g : DagreGraph) (k : EdgeKey) : Z :=
  let v_rank := default 0 (node_rank g (key_v k)) in
  let w_rank := default 0 (node_rank g (key_w k)) in
  i32_wrap (Z.quot (i32_wrap (w_rank - v_rank)) 2 + v_rank).
Definition needs_proxy (e : EdgeLabel) : bool :=
  negb (f64_le (e_width e) f64_zero || f64_le (e_height e) f64_zero).
Definition proxy_for (g : DagreGraph) (k : EdgeKey) : option (EdgeKey * Z) :=
  match edge_by_key g k with
  | Some e => if needs_proxy e then Some (k, label_rank_of g k) else None
  | None => None
  end.
Definition proxy_node (k : EdgeKey) (label_rank : Z) : NodeLabel :=
  set_n_edge_obj (Some (key_v k, key_w k, key_name k)) (set_n_rank (Some label_rank)
    (set_n_dummy (Some "edge-proxy") NodeLabel_default)).
Definition inject_proxy (p : EdgeKey * Z) (g : DagreGraph) : DagreGraph :=
  let '(proxy_id, g) := unique_id "_ep" g in set_node proxy_id (proxy_node p.1 p.2) g.
Definition inject_edge_label_proxies `{MapOrder} (g : DagreGraph) : DagreGraph :=
  fold_with inject_proxy (omap (proxy_for g) (edges g)) g.

Definition proxy_at (g : DagreGraph) (v : string) : option (string * Z * EdgeKey) :=
  match node g v with
  | Some n =>
      if dummy_is "edge-proxy" n then
        match n_rank n, n_edge_obj n with
        | Some rank, Some (ev, ew, ename) => Some (v, rank, mkKey ev ew ename)
        | _, _ => None
        end
      else None
  | None => None
  end.
Definition remove_proxy (p : string * Z * EdgeKey) (g : DagreGraph) : DagreGraph :=
  let '(node_id, rank, key) := p in
  remove_node node_id (edge_by_key_mut (set_e_label_rank (Some rank)) key g).
Definition remove_edge_label_proxies (g : DagreGraph) : DagreGraph :=
  fold_with remove_proxy (omap (proxy_at g) (nodes g)) g.

Definition fixup_label (rankdir : RankDir) (e : EdgeLabel) : EdgeLabel :=
  match e_x e with
  | None => e
  | Some x =>
      let labelpos := lowercase (e_labelpos e) in
      let e' :=
        if bool_decide (labelpos = "l" ∨ labelpos = "r") then
          if vertical rankdir then set_e_width (f64_sub (e_width e) (e_labeloffset e)) e
          else set_e_height (f64_sub (e_height e) (e_labeloffset e)) e
        else e in
      if bool_decide (labelpos = "l") then
        set_e_x (Some (f64_sub (f64_sub x (f64_half (e_width e))) (e_labeloffset e))) e'
      else if bool_decide (labelpos = "r") then
        set_e_x (Some (f64_add (f64_add x (f64_half (e_width e))) (e_labeloffset e))) e'
      else e'
  end.
Definition fixup_edge_label_coords `{MapOrder} (rankdir : RankDir) (g : DagreGraph) : DagreGraph :=
  fold_with (edge_by_key_mut (fixup_label rankdir)) (edges g) g.

(** ** Coordinates *)

Definition swap_size (n : NodeLabel) : NodeLabel := set_n_height (n_width n) (set_n_width (n_height n) n).
Definition swap_sizes (g : DagreGraph) : DagreGraph := fold_with (node_mut swap_size) (nodes g) g.
Definition adjust_coordinate_system (rankdir : RankDir) (g : DagreGraph) : DagreGraph :=
  if vertical rankdir then g else swap_sizes g.

Definition reverse_node_y (n : NodeLabel) : NodeLabel := set_n_y (f64_neg <$> n_y n) n.
Definition reverse_edge_y (e : EdgeLabel) : EdgeLabel :=
  set_e_y (f64_neg <$> e_y e) (set_e_points ((λ p, mkPoint (p_x p) (f64_neg (p_y p))) <$> e_points e) e).
Definition reverse_y `{MapOrder} (g : DagreGraph) : DagreGraph :=
  let g := fold_with (node_mut reverse_node_y) (nodes g) g in
  fold_with (edge_by_key_mut reverse_edge_y) (edges g) g.
Definition swap_node_xy (n : NodeLabel) : NodeLabel := set_n_y (n_x n) (set_n_x (n_y n) n).
Definition swap_edge_xy (e : EdgeLabel) : EdgeLabel :=
  set_e_y (e_x e) (set_e_x (e_y e) (set_e_points ((λ p, mkPoint (p_y p) (p_x p)) <$> e_points e) e)).
Definition swap_xy `{MapOrder} (g : DagreGraph) : DagreGraph :=
  let g := fold_with (node_mut swap_node_xy) (nodes g) g in
  fold_with (edge_by_key_mut swap_edge_xy) (edges g) g.
Definition undo_coordinate_system `{MapOrder} (rankdir : RankDir) (g : DagreGraph) : DagreGraph :=
  let g := if decide (rankdir = BT ∨ rankdir = RL) then reverse_y g else g in
  if vertical rankdir then g else swap_sizes (swap_xy g).

Definition reverse_points (e : EdgeLabel) : EdgeLabel := set_e_points (reverse (e_points e)) e.
Definition reverse_points_for_reversed_edges `{MapOrder} (g : DagreGraph) : DagreGraph :=
  fold_with (edge_by_key_mut reverse_points)
    (filter (λ k, match edge_by_key g k with Some e => e_reversed e | None => false end = true) (edges g)) g.

(** ** Dimensions *)

Record Bounds := mkBounds { b_min_x : f64; b_min_y : f64; b_max_x : f64; b_max_y : f64 }.
Definition include (left right top bottom : f64) (b : Bounds) : Bounds :=
  mkBounds (f64_min (b_min_x b) left) (f64_min (b_min_y b) top) (f64_max (b_max_x b) right) (f64_max (b_max_y b) bottom).
Definition include_box (x y : option f64) (width height : f64) (b : Bounds) : Bounds :=
  match x, y with
  | Some x, Some y =>
      include (f64_sub x (f64_half width)) (f64_add x (f64_half width))
        (f64_sub y (f64_half height)) (f64_add y (f64_half height)) b
  | _, _ => b
  end.
Definition include_node (g : DagreGraph) (v : string) (b : Bounds) : Bounds :=
  match node g v with Some n => include_box (n_x n) (n_y n) (n_width n) (n_height n) b | None => b end.
Definition include_edge (g : DagreGraph) (k : EdgeKey) (b : Bounds) : Bounds :=
  match edge_by_key g k with
  | Some e =>
      include_box (e_x e) (e_y e) (e_width e) (e_height e)
        (fold_with (λ p, include (p_x p) (p_x p) (p_y p) (p_y p)) (e_points e) b)
  | None => b
  end.
Definition bounds_of `{MapOrder} (g : DagreGraph) : Bounds :=
  fold_with (include_edge g) (edges g)
    (fold_with (include_node g) (nodes g) (mkBounds f64_largest f64_largest f64_least f64_least)).
Definition move_node (dx dy : f64) (n : NodeLabel) : NodeLabel :=
  set_n_y ((λ y, f64_add y dy) <$> n_y n) (set_n_x ((λ x, f64_add x dx) <$> n_x n) n).
Definition move_edge (dx dy : f64) (e : EdgeLabel) : EdgeLabel :=
  set_e_y ((λ y, f64_add y dy) <$> e_y e) (set_e_x ((λ x, f64_add x dx) <$> e_x e)
    (set_e_points ((λ p, mkPoint (f64_add (p_x p) dx) (f64_add (p_y p) dy)) <$> e_points e) e)).
Definition compute_dimensions `{MapOrder} (g : DagreGraph) : DagreGraph :=
  let b := bounds_of g in
  if f64_eqb (b_min_x b) f64_largest then g else
  let offset_x := f64_neg (b_min_x b) in
  let offset_y := f64_neg (b_min_y b) in
  let g := fold_with (node_mut (move_node offset_x offset_y)) (nodes g) g in
  let g := fold_with (edge_by_key_mut (move_edge offset_x offset_y)) (edges g) g in
  set_g_graph_label
    (set_gl_height (Some (f64_sub (b_max_y b) (b_min_y b)))
      (set_gl_width (Some (f64_sub (b_max_x b) (b_min_x b))) (g_graph_label g))) g.
