(* ===== verification/PhasesFacts.v ===== *)
(** * What the small phases promise

    Self-edges wait on their nodes, proxies leave nothing but label ranks
    behind, and sizes come back whatever the direction of the layout. *)
From stdpp Require Import strings gmap.
From S2P Require Import Prelude Bytes F64 SortBy DagreGraph DagreGraphFacts Acyclic FasDfs FasGreedy AcyclicFacts Rank Layers Phases.

(** ** Every node, every edge *)

Lemma alter_all `{Countable K} {A} (f : A → A) (m : gmap K A) l : NoDup l → (∀ k, is_Some (m !! k) → k ∈ l) →
  fold_with (λ k (m : gmap K A), alter f k m) l m = f <$> m.
Proof.
  intros Hnd Hl. assert (Hx : ∀ k, fold_with (λ k (m : gmap K A), alter f k m) l m !! k = if decide (k ∈ l) then f <$> m !! k else m !! k).
  { clear Hl. revert m. induction l as [|x l IH]; intros m k; cbn [fold_with]; [by rewrite decide_False by apply not_elem_of_nil|].
    apply NoDup_cons in Hnd as [Hx Hnd]. rewrite IH by done. destruct (decide (k = x)) as [->|Hne].
    - rewrite decide_False by done. rewrite decide_True by (by left). apply lookup_alter_eq.
    - rewrite lookup_alter_ne by done. apply decide_ext. set_solver. }
  apply map_eq. intros k. rewrite Hx, lookup_fmap. destruct (decide (k ∈ l)) as [|Hn]; [done|].
  destruct (m !! k) eqn:E; [|done]. exfalso. apply Hn, Hl. by eexists.
Qed.
Lemma mut_all_nodes f g : fold_with (node_mut f) (nodes g) g = set_g_nodes (f <$> g_nodes g) g.
Proof.
  rewrite <- (alter_all f (g_nodes g) (nodes g) (nodes_nodup g)) by (intros; by apply nodes_elem).
  generalize (nodes g). intros l. revert g. induction l as [|v l IH]; intros g; [by destruct g|]. cbn [fold_with]. by rewrite IH.
Qed.
Lemma mut_all_edges `{MapOrder} f g : fold_with (edge_by_key_mut f) (edges g) g = set_g_edges (f <$> g_edges g) g.
Proof.
  rewrite <- (alter_all f (g_edges g) (edges g) (edges_nodup g)) by (intros; by apply edges_elem).
  generalize (edges g). intros l. revert g. induction l as [|v l IH]; intros g; [by destruct g|]. cbn [fold_with]. by rewrite IH.
Qed.

(** ** Coordinates *)

(** Where a node laid out at (x, y), top to bottom, ends up. *)
Definition turned_to (d : RankDir) (x y : option f64) : option f64 * option f64 :=
  match d with
  | TB => (x, y)
  | BT => (x, f64_neg <$> y)
  | LR => (y, x)
  | RL => (f64_neg <$> y, x)
  end.

(** Sizes come back and positions turn with the direction.
    Let [h] be what a layout does to nodes, keeping their sizes.  Between
    [adjust_coordinate_system] and [undo_coordinate_system], every node gets its
    own width and height back, and its position is the one [h] gave it, turned:
    mirrored for bottom to top, transposed for left to right, both for right to
    left. *)
Theorem coordinates_turned `{MapOrder} d g (h : NodeLabel → NodeLabel) :
  (∀ n, n_width (h n) = n_width n ∧ n_height (h n) = n_height n) →
  let g1 := adjust_coordinate_system d g in
  let g3 := undo_coordinate_system d (set_g_nodes (h <$> g_nodes g1) g1) in
  ∀ v n, g_nodes g !! v = Some n → ∃ n1 n3, g_nodes g1 !! v = Some n1 ∧ g_nodes g3 !! v = Some n3 ∧
    n_width n3 = n_width n ∧ n_height n3 = n_height n ∧ (n_x n3, n_y n3) = turned_to d (n_x (h n1)) (n_y (h n1)).
Proof.
  intros Hh g1 g3 v n Hv.
  unfold g3, g1, adjust_coordinate_system, undo_coordinate_system, swap_sizes, swap_xy, reverse_y.
  destruct d; cbn [vertical]; destruct (decide _) as [Hd|Hd]; try (exfalso; naive_solver);
    rewrite ?mut_all_nodes, ?mut_all_edges; cbn [g_nodes set_g_nodes set_g_edges];
    rewrite ?mut_all_nodes; cbn [g_nodes set_g_nodes set_g_edges];
    rewrite !lookup_fmap, Hv; cbn; eexists _, _; split_and!; try reflexivity;
    first [apply Hh|apply (Hh (swap_size n))].
Qed.

(** ** Self-edges *)

(** The self-edges of [v] among [l], with their labels. *)
Definition loops_at (g : DagreGraph) (l : list EdgeKey) (v : string) : list SelfEdgeInfo :=
  omap (λ k, if decide (key_v k = v) then mkSelfEdge k <$> g_edges g !! k else None) l.
Record loops_removed (g : DagreGraph) (pre : list EdgeKey) (g' : DagreGraph) : Prop := {
  lr_wf : wf g';
  lr_edges k : g_edges g' !! k = if decide (k ∈ pre) then None else g_edges g !! k;
  lr_nodes v : g_nodes g' !! v = (λ n, set_n_self_edges (n_self_edges n ++ loops_at g pre v) n) <$> g_nodes g !! v
}.
Lemma node_mut_lookup f v g x : g_nodes (node_mut f v g) !! x = if decide (x = v) then f <$> g_nodes g !! x else g_nodes g !! x.
Proof. cbn. destruct (decide (x = v)) as [->|Hne]; [apply lookup_alter_eq|by rewrite lookup_alter_ne]. Qed.
Lemma set_self_edges_same n : set_n_self_edges (n_self_edges n) n = n.
Proof. by destruct n. Qed.
Lemma remove_self_edge_step g pre key g' : loops_removed g pre g' → is_Some (g_edges g !! key) → key ∉ pre →
  loops_removed g (pre ++ [key]) (remove_self_edge key g').
Proof.
  intros [Wg He Hn] [label Hk] Hpre. unfold remove_self_edge, edge_by_key. rewrite He, decide_False, Hk by done.
  set (f := λ n, set_n_self_edges (n_self_edges n ++ [mkSelfEdge key label]) n).
  assert (W1 : wf (node_mut f (key_v key) g')) by (eapply wf_same_shape; [apply node_mut_shape|done]).
  pose proof (remove_edge_by_key_spec key _ W1) as U. split.
  - by apply wf_remove_edge_by_key.
  - intros k. rewrite (unlinked_edges _ _ _ U). change (g_edges (node_mut f (key_v key) g')) with (g_edges g'). rewrite He.
    destruct (decide (k = key)) as [->|Hne].
    + by rewrite decide_True by set_solver.
    + apply decide_ext. set_solver.
  - intros v. rewrite (unlinked_nodes _ _ _ U), node_mut_lookup, Hn. unfold loops_at. rewrite omap_app. cbn. rewrite Hk.
    destruct (decide (v = key_v key)) as [->|Hne]; destruct (g_nodes g !! _) as [n|]; cbn; try done.
    + rewrite decide_True by done. cbn. unfold f. cbn. by rewrite app_assoc.
    + rewrite decide_False by congruence. by rewrite app_nil_r.
Qed.

(** [remove_self_edges] moves exactly the self-edges onto their nodes.
    Afterwards the graph is well formed, no edge joins a node to itself, every
    other edge keeps its label, and the list of each node has grown by its
    self-edges with their labels; nothing else of a node changes. *)
Theorem self_edges_stored `{MapOrder} g : wf g →
  let loops := filter (λ k, is_loop k = true) (edges g) in
  let g' := remove_self_edges g in
  wf g' ∧ (∀ k, g_edges g' !! k = if decide (key_v k = key_w k) then None else g_edges g !! k) ∧
  (∀ v, g_nodes g' !! v = (λ n, set_n_self_edges (n_self_edges n ++ loops_at g loops v) n) <$> g_nodes g !! v) ∧
  (∀ v se, se ∈ loops_at g loops v ↔ key_v (se_edge_key se) = v ∧ key_w (se_edge_key se) = v ∧
    g_edges g !! se_edge_key se = Some (se_label se)).
Proof.
  intros W loops g'.
  assert (Hin : ∀ k, k ∈ loops ↔ key_v k = key_w k ∧ is_Some (g_edges g !! k)).
  { intros k. unfold loops, is_loop. by rewrite list_elem_of_filter, bool_decide_eq_true, edges_elem. }
  assert (Hnd : NoDup loops) by (apply NoDup_filter, edges_nodup).
  assert (I : loops_removed g loops g').
  { unfold g', remove_self_edges. fold loops.
    assert (Hfold : ∀ post pre g1, loops = pre ++ post → loops_removed g pre g1 → loops_removed g loops (fold_with remove_self_edge post g1)).
    { induction post as [|k post IH]; intros pre g1 E I; [rewrite app_nil_r in E; by subst pre|]. cbn [fold_with].
      apply (IH (pre ++ [k])); [by rewrite <- app_assoc|]. apply remove_self_edge_step; [done|apply Hin; rewrite E; set_solver|].
      rewrite E in Hnd. apply NoDup_app in Hnd as (_ & Hd & _). intros Hk. apply (Hd k Hk). by left. }
    apply (Hfold loops []); [done|]. split; [done| |].
    - intros k. by rewrite decide_False by apply not_elem_of_nil.
    - intros v. destruct (g_nodes g !! v) as [n|]; cbn; [|done]. by rewrite app_nil_r, set_self_edges_same. }
  destruct I as [Wg' He Hn]. split_and!; [done| |done|].
  - intros k. rewrite He. destruct (decide (k ∈ loops)) as [Hk|Hk]; rewrite Hin in Hk.
    + by rewrite decide_True by apply Hk.
    + destruct (decide (key_v k = key_w k)) as [E|E]; [|done]. destruct (g_edges g !! k) eqn:Ek; [|done].
      exfalso. apply Hk. split; [done|by eexists].
  - intros v [k l]. unfold loops_at. rewrite list_elem_of_omap. cbn. split.
    + intros (k' & Hk' & E). destruct (decide (key_v k' = v)) as [<-|]; [|done]. destruct (g_edges g !! k') eqn:Ek; cbn in E; [|done].
      injection E as -> ->. apply Hin in Hk' as [? _]. by split_and!.
    + intros (Hv & Hw & Hk). exists k. rewrite decide_True, Hk by done. split; [|done]. apply Hin. split; [congruence|by eexists].
Qed.
Lemma self_edges_stored_witness :
  let loops := filter (λ k, is_loop k = true) (@edges list_order looped) in
  let g' := @remove_self_edges list_order looped in
  wf g' ∧ (∀ k, g_edges g' !! k = if decide (key_v k = key_w k) then None else g_edges looped !! k) ∧
  (∀ v, g_nodes g' !! v = (λ n, set_n_self_edges (n_self_edges n ++ loops_at looped loops v) n) <$> g_nodes looped !! v) ∧
  (∀ v se, se ∈ loops_at looped loops v ↔ key_v (se_edge_key se) = v ∧ key_w (se_edge_key se) = v ∧
    g_edges looped !! se_edge_key se = Some (se_label se)).
Proof. exact (@self_edges_stored list_order looped (wf_graph_of _)). Defined.
Example looped_stored :
  (length ∘ n_self_edges) <$> g_nodes (@remove_self_edges list_order looped) !! "a" = Some 1%nat.
Proof. vm_compute. reflexivity. Qed.

(** ** Proxies of edge labels *)

(** No node has the name of a proxy to come, or is marked as one. *)
Definition no_proxies (g : DagreGraph) : Prop :=
  (∀ n, (g_edge_counter g < n)%N → g_nodes g !! counter_name "_ep" n = None) ∧
  (∀ v n, g_nodes g !! v = Some n → n_dummy n ≠ Some "edge-proxy").
Record injected (g : DagreGraph) (ps : list (EdgeKey * Z)) (ids : list string) (g' : DagreGraph) : Prop := {
  ij_wf : wf g';
  ij_edges : g_edges g' = g_edges g;
  ij_length : length ids = length ps;
  ij_nodup : NoDup ids;
  ij_new v : v ∈ ids → g_nodes g !! v = None;
  ij_old v : v ∉ ids → g_nodes g' !! v = g_nodes g !! v;
  ij_node i v p : ids !! i = Some v → ps !! i = Some p → g_nodes g' !! v = Some (proxy_node p.1 p.2);
  ij_counter : (g_edge_counter g ≤ g_edge_counter g')%N;
  ij_fresh n : (g_edge_counter g' < n)%N → counter_name "_ep" n ∉ ids
}.
Lemma inject_step g ps ids g' p : no_proxies g → injected g ps ids g' →
  ∃ id, injected g (ps ++ [p]) (ids ++ [id]) (inject_proxy p g').
Proof.
  intros [Hf _] [Wg He Hl Hnd Hnew Hold Hnode Hc Hfr]. unfold inject_proxy, unique_id.
  set (n := (g_edge_counter g' + 1)%N). set (id := counter_name "_ep" n). set (g1 := mkGraph _ _ _ _ _ _ _ n).
  assert (W1 : wf g1) by (apply (wf_unique_id "_ep" g' Wg)).
  assert (Hid : id ∉ ids) by (apply Hfr; unfold n; lia).
  exists id. pose proof (set_node_edges id (proxy_node p.1 p.2) g1) as Ee.
  pose proof (set_node_nodes id (proxy_node p.1 p.2) g1) as En. change (g_nodes g1) with (g_nodes g') in En.
  assert (Ec : g_edge_counter (set_node id (proxy_node p.1 p.2) g1) = n).
  { change n with (g_edge_counter g1). apply rest_counter, set_node_rest. }
  split.
  - by apply wf_set_node.
  - by rewrite Ee.
  - rewrite !length_app. cbn. lia.
  - apply NoDup_app. split_and!; [done| |apply NoDup_singleton]. by intros x Hx ->%list_elem_of_singleton.
  - intros v [?| ->%list_elem_of_singleton]%elem_of_app; [by apply Hnew|]. apply Hf. unfold n. lia.
  - intros v [Hv Hv']%not_elem_of_app. rewrite En, lookup_insert_ne; [by apply Hold|set_solver].
  - intros i v q Hi Hq. apply lookup_snoc_Some in Hi as [[Hi Hv]|[-> <-]].
    + rewrite lookup_app_l in Hq by lia. rewrite En, lookup_insert_ne; [by eapply Hnode|].
      intros <-. apply Hid. by eapply list_elem_of_lookup_2.
    + rewrite Hl, list_lookup_middle in Hq by done. injection Hq as <-. by rewrite En, lookup_insert_eq.
  - rewrite Ec. unfold n. lia.
  - intros m. rewrite Ec. intros Hm [Hin|Hin%list_elem_of_singleton]%elem_of_app.
    + apply (Hfr m); [unfold n in Hm; lia|done].
    + unfold id in Hin. apply counter_name_inj in Hin. lia.
Qed.
Lemma inject_all g ps : wf g → no_proxies g → ∃ ids, injected g ps ids (fold_with inject_proxy ps g).
Proof.
  intros W N. assert (H : ∀ post pre ids g', ps = pre ++ post → injected g pre ids g' →
    ∃ ids', injected g ps ids' (fold_with inject_proxy post g')).
  { induction post as [|p post IH]; intros pre ids g' E I; [rewrite app_nil_r in E; subst pre; by exists ids|]. cbn [fold_with].
    destruct (inject_step g pre ids g' p N I) as [id I']. apply (IH (pre ++ [p]) (ids ++ [id])); [by rewrite <- app_assoc|done]. }
  apply (H ps [] []); [done|]. split; try done.
  - constructor.
  - by intros v ?%elem_of_nil.
  - intros n _. apply not_elem_of_nil.
Qed.

(** The graph while the proxies in [pre] have been taken out. *)
Record removing (g g1 : DagreGraph) (pre : list (string * Z * EdgeKey)) (g' : DagreGraph) : Prop := {
  rm_wf : wf g';
  rm_nodes v : g_nodes g' !! v = if decide (v ∈ (pre.*1).*1) then None else g_nodes g1 !! v;
  rm_some k : is_Some (g_edges g' !! k) ↔ is_Some (g_edges g !! k);
  rm_set k r v e : g_edges g !! k = Some e → (v, r, k) ∈ pre → NoDup pre.*2 → g_edges g' !! k = Some (set_e_label_rank (Some r) e);
  rm_keep k : k ∉ pre.*2 → g_edges g' !! k = g_edges g !! k
}.
Lemma remove_proxy_step g g1 pre g' v r k : removing g g1 pre g' → v ∉ (pre.*1).*1 → k ∉ pre.*2 →
  is_Some (g_nodes g1 !! v) → (∀ e, is_Some (g_edges g !! e) → key_v e ≠ v ∧ key_w e ≠ v) →
  removing g g1 (pre ++ [(v, r, k)]) (remove_proxy (v, r, k) g').
Proof.
  intros [Wg Hn Hsome Hset Hkeep] Hv Hk Hs Hoff. unfold remove_proxy.
  set (g2 := edge_by_key_mut (set_e_label_rank (Some r)) k g').
  assert (W2 : wf g2) by (eapply wf_same_shape; [apply edge_mut_shape|done]).
  assert (Hs2 : is_Some (g_nodes g2 !! v)) by (change (g_nodes g2) with (g_nodes g'); by rewrite Hn, decide_False).
  pose proof (remove_node_spec v g2 W2 Hs2) as R.
  assert (Ee : ∀ x, g_edges (remove_node v g2) !! x = g_edges g2 !! x).
  { intros x. rewrite (removed_edges _ _ _ R). destruct (decide (touches v x)) as [Ht|]; [|done].
    destruct (g_edges g2 !! x) eqn:Ex; [|done]. exfalso.
    assert (Hx : is_Some (g_edges g !! x)).
    { apply Hsome. destruct (edge_mut_shape (set_e_label_rank (Some r)) k g') as (_ & Hsh & _). apply Hsh. fold g2. rewrite Ex. by eexists. }
    destruct (Hoff x Hx). by destruct Ht. }
  assert (E2 : ∀ x, g_edges g2 !! x = if decide (x = k) then set_e_label_rank (Some r) <$> g_edges g' !! x else g_edges g' !! x).
  { intros x. unfold g2. cbn. destruct (decide (x = k)) as [->|Hne]; [apply lookup_alter_eq|by rewrite lookup_alter_ne]. }
  split.
  - by apply wf_remove_node.
  - intros x. rewrite (removed_nodes _ _ _ R). change (g_nodes g2) with (g_nodes g'). rewrite !fmap_app.
    destruct (decide (x = v)) as [->|Hne]; cbn.
    + rewrite lookup_delete_eq. by rewrite decide_True by set_solver.
    + rewrite lookup_delete_ne, Hn by done. apply decide_ext. set_solver.
  - intros x. rewrite Ee, E2. destruct (decide _) as [->|]; [rewrite fmap_is_Some|]; apply Hsome.
  - intros x q u e Hx Hin Hnd. rewrite fmap_app in Hnd. apply NoDup_app in Hnd as (Hnd & _ & _).
    rewrite Ee, E2. apply elem_of_app in Hin as [Hin|Hin%list_elem_of_singleton].
    + rewrite decide_False; [by eapply Hset|]. intros ->. apply Hk, list_elem_of_fmap. by exists (u, q, k).
    + injection Hin as -> -> ->. rewrite decide_True, Hkeep, Hx by done. done.
  - intros x. rewrite fmap_app. cbn. intros [Hx Hx']%not_elem_of_app. rewrite Ee, E2, decide_False by set_solver. by apply Hkeep.
Qed.
Lemma proxy_at_spec g v r k : proxy_at g v = Some (v, r, k) ↔
  ∃ n, g_nodes g !! v = Some n ∧ n_dummy n = Some "edge-proxy" ∧ n_rank n = Some r ∧ n_edge_obj n = Some (key_v k, key_w k, key_name k).
Proof.
  unfold proxy_at, node, dummy_is. destruct (g_nodes g !! v) as [n|]; [|naive_solver]. case_bool_decide as Hd; [|naive_solver].
  destruct (n_rank n) as [q|] eqn:Er; [|naive_solver]. destruct (n_edge_obj n) as [[[a b] c]|] eqn:Eo; [|naive_solver].
  split; [intros [= <- <-]; by exists n|]. intros (n' & [= <-] & _ & Hr & Ho). rewrite Er in Hr. rewrite Eo in Ho.
  injection Hr as ->. injection Ho as -> -> ->. by destruct k.
Qed.
Lemma proxy_at_name g v p : proxy_at g v = Some p → p.1.1 = v.
Proof. unfold proxy_at. repeat case_match; intros [= <-]; done. Qed.
Lemma proxies_found g ps ids g1 : no_proxies g → injected g ps ids g1 →
  omap (proxy_at g1) (nodes g1) ≡ₚ zip_with (λ v p, (v, p.2, p.1)) ids ps.
Proof.
  intros [_ Hno] [Wg He Hl Hnd Hnew Hold Hnode _ _]. apply NoDup_Permutation.
  - pose proof (nodes_nodup g1) as Hn. revert Hn. generalize (nodes g1). induction l as [|v l IH]; cbn; [constructor|].
    intros [Hv Hl']%NoDup_cons. destruct (proxy_at g1 v) as [p|] eqn:E; [|by apply IH]. apply NoDup_cons. split; [|by apply IH].
    intros (x & Hx & Ex)%list_elem_of_omap. apply proxy_at_name in E, Ex. congruence.
  - clear -Hnd. revert ps. induction ids as [|v ids IH]; intros [|p ps]; cbn; try constructor.
    + intros Hin. apply elem_of_lookup_zip_with in Hin as (i & x & y & [= -> _ _] & Hi & _). apply NoDup_cons in Hnd as [Hv _].
      apply Hv. by eapply list_elem_of_lookup_2.
    + apply IH. by apply NoDup_cons in Hnd as [_ ?].
  - intros [[v r] k]. rewrite list_elem_of_omap, elem_of_lookup_zip_with. split.
    + intros (x & _ & E). pose proof (proxy_at_name _ _ _ E) as Ev. cbn in Ev. subst x.
      apply proxy_at_spec in E as (n & Hn & Hd & Hr & Ho). destruct (decide (v ∈ ids)) as [Hv|Hv].
      * apply list_elem_of_lookup_1 in Hv as [i Hi]. destruct (lookup_lt_is_Some_2 ps i) as [[k' r'] Hp].
        { rewrite <- Hl. by eapply lookup_lt_Some. }
        pose proof (Hnode i v _ Hi Hp) as Hn'. cbn in Hn'. rewrite Hn in Hn'. injection Hn' as ->. cbn in Hr, Ho.
        injection Hr as ->. injection Ho as E1 E2 E3. exists i, v, (k', r). split_and!; [|done|done].
        cbn. do 2 f_equal. destruct k, k'; cbn in *; by subst.
      * rewrite Hold in Hn by done. by apply Hno in Hn.
    + intros (i & x & [k' r'] & E & Hi & Hp). cbn in E. injection E as -> -> ->. exists x.
      pose proof (Hnode i x _ Hi Hp) as Hn. cbn in Hn. split; [apply nodes_elem; by eexists|]. apply proxy_at_spec.
      eexists. split; [done|]. done.
Qed.

Lemma zip_parts (ids : list string) (ps : list (EdgeKey * Z)) : length ids = length ps →
  ((zip_with (λ v p, (v, p.2, p.1)) ids ps).*1).*1 = ids ∧ (zip_with (λ v p, (v, p.2, p.1)) ids ps).*2 = ps.*1.
Proof.
  revert ps. induction ids as [|v ids IH]; intros [|p ps]; cbn; try done. intros [= Hl].
  destruct (IH ps Hl) as [E1 E2]. split; f_equal; done.
Qed.

Lemma proxies_ok `{MapOrder} g : wf g → no_proxies g →
  let g2 := remove_edge_label_proxies (inject_edge_label_proxies g) in
  wf g2 ∧ (∀ v, g_nodes g2 !! v = g_nodes g !! v) ∧
  ∀ k, g_edges g2 !! k = (λ e, if needs_proxy e then set_e_label_rank (Some (label_rank_of g k)) e else e) <$> g_edges g !! k.
Proof.
  intros W N. unfold inject_edge_label_proxies. set (ps := omap (proxy_for g) (edges g)).
  destruct (inject_all g ps W N) as [ids J]. set (g1 := fold_with inject_proxy ps g) in *.
  assert (Hps : ∀ k r, (k, r) ∈ ps ↔ ∃ e, g_edges g !! k = Some e ∧ needs_proxy e = true ∧ r = label_rank_of g k).
  { intros k r. unfold ps. rewrite list_elem_of_omap. unfold proxy_for, edge_by_key. split.
    - intros (x & Hx & E). destruct (g_edges g !! x) as [e|] eqn:Ex; [|done]. destruct (needs_proxy e) eqn:En; [|done].
      injection E as -> <-. by exists e.
    - intros (e & Hk & En & ->). exists k. rewrite Hk, En. split; [|done]. apply edges_elem. by eexists. }
  assert (Hnd : NoDup ps.*1).
  { unfold ps. pose proof (edges_nodup g) as Hn. revert Hn. generalize (edges g). induction l as [|x l IH]; cbn; [constructor|].
    intros [Hx Hl]%NoDup_cons. destruct (proxy_for g x) as [p|] eqn:E; [|by apply IH]. cbn. apply NoDup_cons. split; [|by apply IH].
    assert (Hf : ∀ x p, proxy_for g x = Some p → p.1 = x) by (intros y q; unfold proxy_for; repeat case_match; by intros [= <-]).
    intros (q & Eq & (y & Hy & Ey)%list_elem_of_omap)%list_elem_of_fmap. apply Hf in E, Ey. congruence. }
  pose proof (proxies_found g ps ids g1 N J) as Hq. unfold remove_edge_label_proxies.
  set (qs := omap (proxy_at g1) (nodes g1)) in *.
  assert (Hq1 : (qs.*1).*1 ≡ₚ ids).
  { rewrite Hq. by rewrite (proj1 (zip_parts ids ps (ij_length _ _ _ _ J))). }
  assert (Hq2 : qs.*2 ≡ₚ ps.*1).
  { rewrite Hq. by rewrite (proj2 (zip_parts ids ps (ij_length _ _ _ _ J))). }
  assert (Hn1 : NoDup (qs.*1).*1) by (rewrite Hq1; apply J). assert (Hn2 : NoDup qs.*2) by (by rewrite Hq2).
  assert (Hids : ∀ v r k, (v, r, k) ∈ qs → v ∈ ids ∧ (k, r) ∈ ps).
  { intros v r k. rewrite Hq, elem_of_lookup_zip_with. intros (i & x & [k' r'] & E & Hi & Hp). injection E as -> -> ->.
    split; by eapply list_elem_of_lookup_2. }
  assert (Hfold : ∀ post pre g', qs = pre ++ post → removing g g1 pre g' → removing g g1 qs (fold_with remove_proxy post g')).
  { induction post as [|[[v r] k] post IH]; intros pre g' E R; [rewrite app_nil_r in E; by subst pre|]. cbn [fold_with].
    apply (IH (pre ++ [(v, r, k)])); [by rewrite <- app_assoc|].
    assert (Hin : (v, r, k) ∈ qs) by (rewrite E; set_solver). destruct (Hids v r k Hin) as [Hv _].
    apply remove_proxy_step; [done| | | |].
    - rewrite E, !fmap_app in Hn1. apply NoDup_app in Hn1 as (_ & Hd & _). intros Hp. apply (Hd v Hp). by left.
    - rewrite E, fmap_app in Hn2. apply NoDup_app in Hn2 as (_ & Hd & _). intros Hp. apply (Hd k Hp). by left.
    - apply list_elem_of_lookup_1 in Hv as [i Hi]. destruct (lookup_lt_is_Some_2 ps i) as [p Hp].
      { rewrite <- (ij_length _ _ _ _ J). by eapply lookup_lt_Some. }
      rewrite (ij_node _ _ _ _ J i v p Hi Hp). by eexists.
    - intros e He. destruct (edge_ends g e W He) as [[? Ha] [? Hb]]. pose proof (ij_new _ _ _ _ J v Hv). split; congruence. }
  destruct (Hfold qs [] g1) as [W2 Hn Hsome Hset Hkeep]; [done| |].
  { split; [apply J|intros v; by rewrite decide_False by apply not_elem_of_nil|intros k; by rewrite (ij_edges _ _ _ _ J)| |].
    - intros k r v e _ ?%elem_of_nil; done.
    - intros k _. by rewrite (ij_edges _ _ _ _ J). }
  split_and!; [done| |].
  - intros v. rewrite Hn. destruct (decide (v ∈ (qs.*1).*1)) as [Hv|Hv]; rewrite Hq1 in Hv.
    + by rewrite (ij_new _ _ _ _ J).
    + by rewrite (ij_old _ _ _ _ J).
  - intros k. destruct (g_edges g !! k) as [e|] eqn:Ek; cbn.
    + destruct (needs_proxy e) eqn:En.
      * assert (Hk : (k, label_rank_of g k) ∈ ps) by (apply Hps; by exists e).
        assert (Hk2 : k ∈ qs.*2) by (rewrite Hq2; apply list_elem_of_fmap; by exists (k, label_rank_of g k)).
        apply list_elem_of_fmap in Hk2 as ([[v r] k'] & -> & Hin). destruct (Hids _ _ _ Hin) as [_ (e' & ? & _ & ->)%Hps].
        by eapply Hset.
      * rewrite Hkeep; [done|]. rewrite Hq2. intros ([k' r] & -> & (e' & He' & En' & _)%Hps)%list_elem_of_fmap. cbn in Ek. congruence.
    + destruct (g_edges (fold_with remove_proxy qs g1) !! k) eqn:E; [|done]. exfalso.
      assert (Hk : is_Some (g_edges g !! k)) by (apply Hsome; by eexists). rewrite Ek in Hk. by destruct Hk.
Qed.

(** Proxies leave label ranks behind and nothing else.
    Taking out the proxies that were put in restores the nodes and the keys of
    the edges; an edge whose label has a width and a height gets the rank half
    way between its ends (rounded towards the upper end) as its label's, and
    every other edge keeps its label as it was. *)
Theorem proxies_leave_ranks `{MapOrder} g : wf g → no_proxies g →
  let g2 := remove_edge_label_proxies (inject_edge_label_proxies g) in
  wf g2 ∧ (∀ v, g_nodes g2 !! v = g_nodes g !! v) ∧
  ∀ k, g_edges g2 !! k = (λ e, if needs_proxy e then set_e_label_rank (Some (label_rank_of g k)) e else e) <$> g_edges g !! k.
Proof. apply proxies_ok. Qed.

(** An edge over four ranks with a label. *)
Definition labelled : DagreGraph :=
  graph_of [SetNode "a" (set_n_rank (Some 0) NodeLabel_default); SetNode "b" (set_n_rank (Some 4) NodeLabel_default);
            SetEdge "a" "b" (set_e_height (f64_of_Z 10) (set_e_width (f64_of_Z 20) EdgeLabel_default));
            SetEdge "b" "a" EdgeLabel_default].
Lemma labelled_no_proxies : no_proxies labelled.
Proof.
  assert (H : ∀ v n, g_nodes labelled !! v = Some n → negb (bool_decide (String.prefix "_" v = true)) && bool_decide (n_dummy n = None) = true).
  { intros v n Hv. assert (Hall : forallb (λ p, negb (bool_decide (String.prefix "_" p.1 = true)) && bool_decide (n_dummy p.2 = None)) (map_to_list (g_nodes labelled)) = true) by (vm_compute; reflexivity).
    rewrite forallb_forall in Hall. apply (Hall (v, n)), list_elem_of_In. by apply elem_of_map_to_list. }
  split.
  - intros n _. apply eq_None_not_Some. intros [m Hm%H]. by cbn in Hm.
  - intros v n Hv%H. apply andb_true_iff in Hv as [_ Hv]. apply bool_decide_eq_true in Hv. congruence.
Qed.
Lemma proxies_leave_ranks_witness :
  let g2 := remove_edge_label_proxies (@inject_edge_label_proxies list_order labelled) in
  wf g2 ∧ (∀ v, g_nodes g2 !! v = g_nodes labelled !! v) ∧
  ∀ k, g_edges g2 !! k = (λ e, if needs_proxy e then set_e_label_rank (Some (label_rank_of labelled k)) e else e) <$> g_edges labelled !! k.
Proof. exact (@proxies_leave_ranks list_order labelled (wf_graph_of _) labelled_no_proxies). Defined.
Example labelled_ranks :
  (λ k, e_label_rank <$> g_edges (remove_edge_label_proxies (@inject_edge_label_proxies list_order labelled)) !! k)
    <$> [EdgeKey_new "a" "b"; EdgeKey_new "b" "a"] = [Some (Some 2); Some None].
Proof. vm_compute. reflexivity. Qed.
