(* ===== verification/Nesting.v ===== *)
(** * The nesting graph ([nesting_graph.rs])

    Every subgraph gets a node at its top and one at its bottom, with edges that
    keep its children between them; a root is joined to everything else, so that
    ranks are found for all of it.  The searches go down from nodes without a
    parent, so they are no deeper than there are parents: that is their fuel. *)
From stdpp Require Import strings gmap.
From S2P Require Import Prelude F64 SortBy DagreGraph.

Definition is_border (g : DagreGraph) (v : string) : bool :=
  match node g v with Some n => bool_decide (n_dummy n = Some "border") | None => false end.

(** ** Depths *)

(** How deep a search from a node without a parent can go. *)
Definition tree_bound (g : DagreGraph) : nat := S (size (g_parent g)).
Fixpoint dfs_depth (fuel : nat) (g : DagreGraph) (depth : Z) (v : string) (depths : gmap string Z) : panics (gmap string Z) :=
  match fuel with
  | O => OutOfFuel
  | S fuel' =>
      depths ← fold_outcome (dfs_depth fuel' g (i32_wrap (depth + 1))) (children g v) depths;
      Done (<[v := depth]> depths)
  end.
Definition tree_depths (g : DagreGraph) : panics (gmap string Z) :=
  fold_outcome (dfs_depth (tree_bound g) g 1) (root_children g) ∅.
(** [depths.values().copied().max().unwrap_or(1).saturating_sub(1)]. *)
Definition height_of (depths : gmap string Z) : Z :=
  match (map_to_list depths).*2 with
  | [] => 0
  | d :: ds => Z.max i32_min (foldr Z.max d ds - 1)
  end.

Definition sum_weights `{MapOrder} (g : DagreGraph) : Z :=
  fold_with (λ w sum, i32_wrap (sum + w)) (omap (λ k, e_weight <$> edge_by_key g k) (edges g)) 0.

(** ** Borders *)

Definition add_dummy_node (dummy_type : string) (label : NodeLabel) (pre : string) (g : DagreGraph) : string * DagreGraph :=
  let '(id, g) := unique_id pre g in (id, set_node id (set_n_dummy (Some dummy_type) label) g).
Definition add_border_node (pre : string) (g : DagreGraph) : string * DagreGraph :=
  add_dummy_node "border" NodeLabel_default pre g.
Definition nesting_label (weight minlen : Z) : EdgeLabel :=
  set_e_nesting_edge true (set_e_minlen minlen (set_e_weight weight EdgeLabel_default)).

Definition depth_of (depths : gmap string Z) (v : string) : Z := default 0 (depths !! v).
(** The borders of a child that has some, and else the child itself. *)
Definition child_ends (g : DagreGraph) (child : string) : string * string :=
  match node g child with
  | Some n => (default child (n_border_top n), default child (n_border_bottom n))
  | None => (child, child)
  end.
Definition child_has_border (g : DagreGraph) (child : string) : bool :=
  match node g child with Some n => bool_decide (is_Some (n_border_top n)) | None => false end.
(** A child is put between the borders of its parent. *)
Definition nest_child (weight height v_depth : Z) (top bottom child : string) (g : DagreGraph) : panics DagreGraph :=
  let '(child_top, child_bottom) := child_ends g child in
  let this_weight := if child_has_border g child then weight else i32_wrap (2 * weight) in
  let minlen := if bool_decide (child_top = child_bottom) then i32_wrap (i32_wrap (height - v_depth) + 1) else 1 in
  g ← set_edge top child_top (nesting_label this_weight minlen) g;
  set_edge child_bottom bottom (nesting_label this_weight minlen) g.
Definition set_borders (top bottom v : string) (g : DagreGraph) : DagreGraph :=
  node_mut (λ n, set_n_border_bottom (Some bottom) (set_n_border_top (Some top) n)) v
    (set_parent bottom v (set_parent top v g)).

Fixpoint dfs (fuel : nat) (root : string) (node_sep weight height : Z) (depths : gmap string Z) (v : string)
    (g : DagreGraph) : panics DagreGraph :=
  match fuel with
  | O => OutOfFuel
  | S fuel' =>
      match filter (λ c, is_border g c = false) (children g v) with
      | [] => if decide (v = root) then Done g else set_edge root v (nesting_label 0 node_sep) g
      | children =>
          let '(top, g) := add_border_node "_bt" g in
          let '(bottom, g) := add_border_node "_bb" g in
          g ← fold_outcome
                (λ child g,
                   g ← dfs fuel' root node_sep weight height depths child g;
                   nest_child weight height (depth_of depths v) top bottom child g)
                children (set_borders top bottom v g);
          match parent g v with
          | None => set_edge root top (nesting_label 0 (i32_wrap (height + depth_of depths v))) g
          | Some _ => Done g
          end
      end
  end.

(** ** The whole *)

Definition stretch (node_sep : Z) (e : EdgeLabel) : EdgeLabel := set_e_minlen (i32_wrap (e_minlen e * node_sep)) e.
Definition run `{MapOrder} (g : DagreGraph) : panics DagreGraph :=
  if negb (is_compound g) then Done g else
  let '(root, g) := add_dummy_node "root" NodeLabel_default "_root" g in
  let g := set_g_graph_label (set_gl_nesting_root (Some root) (g_graph_label g)) g in
  depths ← tree_depths g;
  let height := height_of depths in
  let node_sep := if 0 <? height then i32_wrap (i32_wrap (2 * height) + 1) else 1 in
  let g := fold_with (edge_by_key_mut (stretch node_sep)) (edges g) g in
  let weight := i32_wrap (sum_weights g + 1) in
  g ← fold_outcome (dfs (tree_bound g) root node_sep weight height depths) (root_children g) g;
  Done (set_g_graph_label (set_gl_node_rank_factor (Some node_sep) (g_graph_label g)) g).

Definition is_nesting_edge (g : DagreGraph) (k : EdgeKey) : bool :=
  match edge_by_key g k with Some e => e_nesting_edge e | None => false end.
Definition remove_root (g : DagreGraph) : DagreGraph :=
  match gl_nesting_root (g_graph_label g) with
  | Some root =>
      let g := remove_node root g in
      set_g_graph_label (set_gl_nesting_root None (g_graph_label g)) g
  | None => g
  end.
Definition cleanup `{MapOrder} (g : DagreGraph) : DagreGraph :=
  let g := remove_root g in
  fold_with remove_edge_by_key (filter (λ k, is_nesting_edge g k = true) (edges g)) g.
