(* ===== verification/Compound.v ===== *)
(** * Subgraphs ([compound.rs])

    Ranks of subgraphs from their borders, border nodes at every rank a subgraph
    spans, boxes from the positions of borders, and edges whose ends are
    subgraphs.  The search of [add_border_segments] goes down from nodes without
    a parent, as in [Nesting]. *)
From stdpp Require Import strings gmap.
From S2P Require Import Prelude F64 SortBy DagreGraph Rank Nesting.

(** Nodes with children. *)
Definition compound_nodes_of (g : DagreGraph) : list string := filter (λ v, children g v ≠ []) (nodes g).

(** ** Ranks of subgraphs *)

Definition rank_at (g : DagreGraph) (v : option string) : option Z := u ← v; node_rank g u.
Definition set_min_max (min_r max_r : Z) (n : NodeLabel) : NodeLabel :=
  set_n_max_rank (Some max_r) (set_n_min_rank (Some min_r) n).
(** [panic]: a node with children is no node. *)
Definition assign_min_max (v : string) (s : DagreGraph * Z) : panics (DagreGraph * Z) :=
  let '(g, max_rank) := s in
  n ← unwrap (node g v);
  Done match rank_at g (n_border_top n), rank_at g (n_border_bottom n) with
       | Some min_r, Some max_r => (node_mut (set_min_max min_r max_r) v g, Z.max max_rank max_r)
       | _, _ => s
       end.
Definition assign_rank_min_max (g : DagreGraph) : panics DagreGraph :=
  '(g, max_rank) ← fold_outcome assign_min_max (compound_nodes_of g) (g, 0);
  Done (set_g_graph_label (set_gl_max_rank (Some max_rank) (g_graph_label g)) g).

(** ** Borders at every rank *)

Inductive Side := BorderLeft | BorderRight.
Definition side_prop (s : Side) : string := match s with BorderLeft => "borderLeft" | BorderRight => "borderRight" end.
Definition side_prefix (s : Side) : string := match s with BorderLeft => "_bl" | BorderRight => "_br" end.
Definition side_list (s : Side) (n : NodeLabel) : list (option string) :=
  match s with BorderLeft => n_border_left n | BorderRight => n_border_right n end.
Definition set_side (s : Side) (l : list (option string)) (n : NodeLabel) : NodeLabel :=
  match s with BorderLeft => set_n_border_left l n | BorderRight => set_n_border_right l n end.

Definition BORDER_NODE_WIDTH : f64 := f64_of_Z 10.
Definition border_label (s : Side) (rank : Z) : NodeLabel :=
  set_n_dummy (Some "border") (set_n_border_type (Some (side_prop s)) (set_n_rank (Some rank)
    (set_n_height f64_zero (set_n_width BORDER_NODE_WIDTH NodeLabel_default)))).
(** The place of a rank in the lists of [sg]. *)
Definition border_index (g : DagreGraph) (sg : string) (rank : Z) : nat :=
  Z.to_nat (i32_wrap (rank - default 0 (n ← node g sg; n_min_rank n)) mod 2 ^ 64).
Definition add_border_node (s : Side) (sg : string) (rank : Z) (g : DagreGraph) : panics DagreGraph :=
  let '(id, g) := unique_id (side_prefix s) g in
  let g := set_parent id sg (set_node id (border_label s rank) g) in
  let idx := border_index g sg rank in
  let prev_id := if (0 <? idx)%nat then n ← node g sg; mjoin (side_list s n !! (idx - 1)%nat) else None in
  let g := node_mut (λ n, set_side s (<[idx := Some id]> (side_list s n)) n) sg g in
  match prev_id with
  | Some prev => set_edge prev id (set_e_weight 1 EdgeLabel_default) g
  | None => Done g
  end.
(** [(max_r - min_r + 1) as usize], and one more: a vector of more than
    [isize::MAX] bytes, 24 for each entry, panics. *)
Definition border_slots (min_r max_r : Z) : panics nat :=
  let capacity := i32_wrap (i32_wrap (max_r - min_r) + 1) mod 2 ^ 64 in
  let len := u64_wrap (capacity + 1) in
  if 2 ^ 63 - 1 <? 24 * len then panic else Done (Z.to_nat len).
Definition clear_borders (len : nat) (n : NodeLabel) : NodeLabel :=
  set_n_border_right (replicate len None) (set_n_border_left (replicate len None) n).
Definition border_rank (v : string) (rank : Z) (g : DagreGraph) : panics DagreGraph :=
  g ← add_border_node BorderLeft v rank g; add_border_node BorderRight v rank g.
(** [min_r..=max_r]. *)
Definition rank_range (min_r max_r : Z) : list Z := seqZ min_r (max_r - min_r + 1).
Definition add_segments (v : string) (g : DagreGraph) : panics DagreGraph :=
  match n ← node g v; min_r ← n_min_rank n; max_r ← n_max_rank n; Some (min_r, max_r) with
  | Some (min_r, max_r) =>
      len ← border_slots min_r max_r;
      fold_outcome (border_rank v) (rank_range min_r max_r) (node_mut (clear_borders len) v g)
  | None => Done g
  end.
Fixpoint segments_dfs (fuel : nat) (v : string) (g : DagreGraph) : panics DagreGraph :=
  match fuel with
  | O => OutOfFuel
  | S fuel' => g ← fold_outcome (segments_dfs fuel') (children g v) g; add_segments v g
  end.
Definition add_border_segments (g : DagreGraph) : panics DagreGraph :=
  fold_outcome (segments_dfs (tree_bound g)) (root_children g) g.

(** ** Boxes *)

Definition y_at (g : DagreGraph) (v : option string) : option f64 := u ← v; n ← node g u; n_y n.
(** The last of the borders that has a position. *)
Definition last_x (g : DagreGraph) (l : list (option string)) : option f64 :=
  head (omap (λ v, u ← v; n ← node g u; n_x n) (reverse l)).
Definition box_of (g : DagreGraph) (n : NodeLabel) : option (f64 * f64 * f64 * f64) :=
  ty ← y_at g (n_border_top n);
  by_ ← y_at g (n_border_bottom n);
  lx ← last_x g (n_border_left n);
  rx ← last_x g (n_border_right n);
  let width := f64_abs (f64_sub rx lx) in
  let height := f64_abs (f64_sub by_ ty) in
  Some (width, height, f64_add lx (f64_half width), f64_add ty (f64_half height)).
Definition set_box (b : f64 * f64 * f64 * f64) (n : NodeLabel) : NodeLabel :=
  let '(width, height, x, y) := b in
  set_n_y (Some y) (set_n_x (Some x) (set_n_height height (set_n_width width n))).
Definition measure_compound (v : string) (g : DagreGraph) : DagreGraph :=
  match n ← node g v; box_of g n with Some b => node_mut (set_box b) v g | None => g end.
Definition remove_border_nodes (g : DagreGraph) : DagreGraph :=
  let g := fold_with measure_compound (compound_nodes_of g) g in
  fold_with remove_node (filter (λ v, is_border g v = true) (nodes g)) g.

(** ** Edges of subgraphs *)

(** Maps from nodes with children to their borders, as lookups. *)
Definition border_of (f : NodeLabel → option string) (g : DagreGraph) (v : string) : option string :=
  if decide (v ∈ compound_nodes_of g) then n ← node g v; f n else None.
Definition redirection (g : DagreGraph) (key : EdgeKey) : option (EdgeKey * EdgeLabel * string * string) :=
  edge ← edge_by_key g key;
  if e_nesting_edge edge then None else
  match border_of n_border_bottom g (key_v key), border_of n_border_top g (key_w key) with
  | None, None => None
  | new_source, new_target => Some (key, edge, default (key_v key) new_source, default (key_w key) new_target)
  end.
(** [if label.original_source.is_none() { ... = Some(old_key.v) }]. *)
Definition note_original (key : EdgeKey) (label : EdgeLabel) : EdgeLabel :=
  set_e_original_target (Some (default (key_w key) (e_original_target label)))
    (set_e_original_source (Some (default (key_v key) (e_original_source label))) label).
Definition redirect_edge (r : EdgeKey * EdgeLabel * string * string) (g : DagreGraph) : panics DagreGraph :=
  let '(old_key, label, new_source, new_target) := r in
  set_edge new_source new_target (note_original old_key label) (remove_edge_by_key old_key g).
Definition redirect_edges_to_border_nodes `{MapOrder} (g : DagreGraph) : panics DagreGraph :=
  fold_outcome redirect_edge (omap (redirection g) (edges g)) g.

Definition redirected (g : DagreGraph) (key : EdgeKey) : option (EdgeKey * EdgeLabel) :=
  edge ← edge_by_key g key;
  match e_original_source edge, e_original_target edge with
  | None, None => None
  | _, _ => Some (key, edge)
  end.
Definition restore_original (r : EdgeKey * EdgeLabel) (g : DagreGraph) : panics DagreGraph :=
  let '(old_key, label) := r in
  set_edge (default (key_v old_key) (e_original_source label)) (default (key_w old_key) (e_original_target label))
    (set_e_original_target None (set_e_original_source None label)) (remove_edge_by_key old_key g).
Definition restore_redirected_edges `{MapOrder} (g : DagreGraph) : panics DagreGraph :=
  fold_outcome restore_original (omap (redirected g) (edges g)) g.
