(* ===== verification/ParentChains.v ===== *)
(** * Parents of dummy nodes ([parent_dummy_chains.rs])

    Each dummy of a chain gets a parent on the way from the edge's source up to
    the lowest common ancestor and down to its target.  Going up parents takes
    as many steps as there are parents, going along a chain as many as there are
    nodes; the indices of a path are its length away from its end. *)
From stdpp Require Import strings gmap.
From S2P Require Import Prelude F64 SortBy DagreGraph Rank Nesting.

(** ** Numbers of the tree *)

Record PostorderNums := mkNums { pn_low : Z; pn_lim : Z }.
Fixpoint postorder_dfs (fuel : nat) (g : DagreGraph) (v : string) (s : Z * gmap string PostorderNums) :
    panics (Z * gmap string PostorderNums) :=
  match fuel with
  | O => OutOfFuel
  | S fuel' =>
      let low := s.1 in
      '(lim, result) ← fold_outcome (postorder_dfs fuel' g) (children g v) s;
      let lim := i32_wrap (lim + 1) in
      Done (lim, <[v := mkNums low (i32_wrap (lim - 1))]> result)
  end.
Definition postorder (g : DagreGraph) : panics (gmap string PostorderNums) :=
  s ← fold_outcome (postorder_dfs (tree_bound g) g) (root_children g) (0, ∅); Done s.2.

(** ** The path through the common ancestor *)

Record PathResult := mkPathResult { pr_path : list string; pr_lca : string }.
Definition covers (nums : gmap string PostorderNums) (low lim : Z) (p : string) : bool :=
  match nums !! p with Some pn => (pn_low pn <=? low) && (lim <=? pn_lim pn) | None => false end.
(** From [p] up to the ancestor whose numbers cover both ends. *)
Fixpoint climb_up (fuel : nat) (g : DagreGraph) (nums : gmap string PostorderNums) (low lim : Z) (p : string)
    (v_path : list string) : panics (list string * string) :=
  match fuel with
  | O => OutOfFuel
  | S fuel' =>
      match parent g p with
      | Some q =>
          if covers nums low lim q then Done (v_path ++ [q], q)
          else climb_up fuel' g nums low lim q (v_path ++ [q])
      | None => Done (v_path, "")
      end
  end.
(** From [p] up to below the ancestor. *)
Fixpoint climb_to (fuel : nat) (g : DagreGraph) (lca : string) (p : option string) (w_path : list string) :
    panics (list string) :=
  match p with
  | None => Done w_path
  | Some p =>
      if decide (p = lca) then Done w_path else
      match fuel with
      | O => OutOfFuel
      | S fuel' => climb_to fuel' g lca (parent g p) (w_path ++ [p])
      end
  end.
Definition find_path (g : DagreGraph) (nums : gmap string PostorderNums) (v w : string) : panics PathResult :=
  match nums !! v, nums !! w with
  | Some vn, Some wn =>
      let low := Z.min (pn_low vn) (pn_low wn) in
      let lim := Z.max (pn_lim vn) (pn_lim wn) in
      '(v_path, lca) ← climb_up (tree_bound g) g nums low lim v [];
      w_path ← climb_to (tree_bound g) g lca (parent g w) [];
      Done (mkPathResult (v_path ++ reverse w_path) lca)
  | _, _ => Done (mkPathResult [] "")
  end.

(** ** Along a chain *)

Definition max_rank_of (g : DagreGraph) (v : string) : option Z := n ← node g v; n_max_rank n.
Definition min_rank_of (g : DagreGraph) (v : string) : option Z := n ← node g v; n_min_rank n.
(** Up: past the nodes of the path that end above the rank; [path_idx] into the
    path, which is read off its end in vain. *)
Fixpoint ascend (fuel : nat) (g : DagreGraph) (path : list string) (lca : string) (rank : option Z) (path_idx : nat) : panics nat :=
  match path !! path_idx with
  | None => Done path_idx
  | Some pv =>
      if decide (pv = lca) then Done path_idx else
      match rank, max_rank_of g pv with
      | Some nr, Some pmr =>
          if pmr <? nr then
            match fuel with O => OutOfFuel | S fuel' => ascend fuel' g path lca rank (S path_idx) end
          else Done path_idx
      | _, _ => Done path_idx
      end
  end.
(** Down: as long as the next node of the path begins at the rank or above; at
    the last index, and on an empty path, there is no next node. *)
Fixpoint descend (fuel : nat) (g : DagreGraph) (path : list string) (rank : option Z) (path_idx : nat) : panics nat :=
  match path !! S path_idx with
  | None => Done path_idx
  | Some nv =>
      match rank, min_rank_of g nv with
      | Some nr, Some nmr =>
          if nmr <=? nr then
            match fuel with O => OutOfFuel | S fuel' => descend fuel' g path rank (S path_idx) end
          else Done path_idx
      | _, _ => Done path_idx
      end
  end.
Record Walk := mkWalk { wk_idx : nat; wk_v : option string; wk_ascending : bool }.
(** One node of the chain: where on the path it belongs. *)
Definition walk_step (g : DagreGraph) (p : PathResult) (rank : option Z) (s : Walk) : panics Walk :=
  let path := pr_path p in
  s ← (if wk_ascending s then
         idx ← ascend (length path) g path (pr_lca p) rank (wk_idx s);
         let path_v := path !! idx in
         Done (mkWalk idx path_v (negb (bool_decide (path_v = Some (pr_lca p)))))
       else Done s);
  if wk_ascending s then Done s else
  idx ← descend (length path) g path rank (wk_idx s);
  Done (mkWalk idx (path !! idx) false).
Definition adopt (current : string) (path_v : option string) (g : DagreGraph) : DagreGraph :=
  match path_v with Some pv => set_parent current pv g | None => g end.
Fixpoint walk_chain (fuel : nat) (p : PathResult) (edge_w current : string) (s : Walk) (g : DagreGraph) : panics DagreGraph :=
  if decide (current = edge_w) then Done g else
  match fuel with
  | O => OutOfFuel
  | S fuel' =>
      s ← walk_step g p (node_rank g current) s;
      let g := adopt current (wk_v s) g in
      match head (successors g current) with
      | Some next => walk_chain fuel' p edge_w next s g
      | None => Done g
      end
  end.
Definition parent_chain (nums : gmap string PostorderNums) (chain_start : string) (g : DagreGraph) : panics DagreGraph :=
  match n ← node g chain_start; n_edge_obj n with
  | Some (edge_v, edge_w, _) =>
      p ← find_path g nums edge_v edge_w;
      walk_chain (node_count g) p edge_w chain_start (mkWalk 0 (pr_path p !! 0%nat) true) g
  | None => Done g
  end.
Definition run (g : DagreGraph) : panics DagreGraph :=
  match gl_dummy_chains (g_graph_label g) with
  | [] => Done g
  | dummy_chains => nums ← postorder g; fold_outcome (parent_chain nums) dummy_chains g
  end.
