(* ===== verification/NestingFacts.v ===== *)
(** * What the phases for subgraphs promise

    The nesting graph: the searches through the tree of subgraphs end, and the
    edges they put in keep the children of a subgraph between its borders.
    Compound graphs: every subgraph gets borders at each of its ranks.  Parents
    of dummies: the path between two nodes goes through their lowest common
    ancestor. *)
From stdpp Require Import strings gmap relations.
From S2P Require Import Prelude F64 SortBy DagreGraph DagreGraphFacts Rank PhasesFacts Nesting.
From S2P Require AcyclicFacts.
Import AcyclicFacts(counter_name_inj).

(** ** The tree of subgraphs *)

Section tree.
#[local] Set Default Proof Using "Type".
Context (g : DagreGraph) (W : wf g).
Definition child_of (p c : string) : Prop := c ∈ children g p.
(** Down from the nodes without a parent. *)
Inductive at_depth : string → nat → Prop :=
  | depth_root v : v ∈ root_children g → at_depth v 1
  | depth_child p c d : at_depth p d → c ∈ children g p → at_depth c (S d).
Definition below : string → string → Prop := rtc child_of.
Lemma children_parent c p : c ∈ children g p → g_parent g !! c = Some p.
Proof using W. unfold children, sort_strings. rewrite sort_by_elem, elem_of_elements. apply (wf_family _ W). Qed.
Lemma root_parent v : v ∈ root_children g ↔ g_parent g !! v = None ∧ is_Some (g_nodes g !! v).
Proof.
  rewrite <- nodes_elem. unfold root_children, nodes, sort_strings. by rewrite !sort_by_elem, list_elem_of_filter.
Qed.
Lemma depth_unique v d d' : at_depth v d → at_depth v d' → d = d'.
Proof using W.
  intros H. revert d'. induction H as [v Hv|p c d Hp IH Hc]; intros d' H'; inversion H' as [v' Hv'|p' c' e Hp' Hc']; subst; [done| | |].
  - apply root_parent in Hv as [Hv _]. apply children_parent in Hc'. congruence.
  - apply root_parent in Hv' as [Hv' _]. apply children_parent in Hc. congruence.
  - apply children_parent in Hc, Hc'. f_equal. apply IH. congruence.
Qed.
Lemma below_depth v u d : below v u → at_depth v d → ∃ e, at_depth u e ∧ (d ≤ e)%nat ∧ (v = u ∨ d < e)%nat.
Proof.
  intros H. revert d. induction H as [v|v c u Hc _ IH]; intros d Hd; [exists d; by auto|].
  destruct (IH (S d)) as (e & He & Hle & _); [by eapply depth_child|]. exists e. split_and!; [done|lia|right; lia].
Qed.
(** Subtrees of different nodes at one depth have nothing in common. *)
Lemma below_apart a b u d : below a u → below b u → at_depth a d → at_depth b d → a = b.
Proof using W.
  intros Ha. revert b d. induction Ha as [a|a c u Hc Hu IH]; intros b d Hb Da Db.
  - destruct (below_depth _ _ _ Hb Db) as (e & He & _ & [?|Hlt]); [done|]. rewrite (depth_unique _ _ _ He Da) in Hlt. lia.
  - apply rtc_inv in Hb as Hb'. destruct Hb' as [<-|(c' & Hc' & Hu')].
    + destruct (below_depth c b (S d) Hu (depth_child a c d Da Hc)) as (e & He & Hle & _). rewrite (depth_unique _ _ _ He Db) in Hle. lia.
    + assert (c = c') by exact (IH c' (S d) Hu' (depth_child a c d Da Hc) (depth_child b c' d Db Hc')). subst c'.
      apply children_parent in Hc, Hc'. congruence.
Qed.
Lemma depth_below v d : at_depth v d → ∃ r, r ∈ root_children g ∧ below r v.
Proof.
  induction 1 as [v Hv|p c d Hp (r & Hr & Hb) Hc]; [exists v; split; [done|apply rtc_refl]|].
  exists r. split; [done|]. eapply rtc_r; [exact Hb|exact Hc].
Qed.
Lemma depth_path v d : at_depth v d → ∃ l, NoDup l ∧ S (length l) = d ∧ ∀ x, x ∈ l → is_Some (g_parent g !! x) ∧ ∃ e, at_depth x e ∧ (e ≤ d)%nat.
Proof using W.
  induction 1 as [v Hv|p c d Hp (l & Hnd & Hl & Hx) Hc].
  - exists []. split_and!; [by apply NoDup_nil|done|by intros x ?%elem_of_nil].
  - exists (c :: l). split_and!; [|cbn; lia|].
    + apply NoDup_cons. split; [|done]. intros Hin. destruct (Hx c Hin) as (_ & e & He & Hle).
      pose proof (depth_unique c e (S d) He (depth_child p c d Hp Hc)). lia.
    + intros x [->|Hin]%elem_of_cons; [|destruct (Hx x Hin) as (? & e & ? & ?); split; [done|exists e; split; [done|lia]]].
      split; [rewrite (children_parent _ _ Hc); by eexists|]. exists (S d). split; [by eapply depth_child|lia].
Qed.
Lemma depth_bound v d : at_depth v d → (1 ≤ d ≤ tree_bound g)%nat.
Proof using W.
  intros (l & Hnd & <- & Hx)%depth_path. split; [lia|]. unfold tree_bound. apply le_n_S.
  rewrite <- (size_list_to_set (C := gset string) l Hnd), <- size_dom. apply subseteq_size. intros x. rewrite elem_of_list_to_set, elem_of_dom. by intros [? _]%Hx.
Qed.

(** *** Walks

    What a walk from every one of some siblings does, put together. *)
Definition below_some (l : list string) (u : string) : Prop := ∃ c, c ∈ l ∧ below c u.
Lemma below_some_snoc l c u : below_some (l ++ [c]) u ↔ below_some l u ∨ below c u.
Proof.
  split.
  - intros (x & [Hx| ->%list_elem_of_singleton]%elem_of_app & Hu); [left; by exists x|by right].
  - intros [(x & Hx & Hu)|Hu]; [exists x|exists c]; (split; [apply elem_of_app|done]); [by left|right; by left].
Qed.
Lemma below_children v u : below v u ↔ u = v ∨ below_some (children g v) u.
Proof.
  split.
  - intros [<-|(c & Hc & Hu)]%rtc_inv; [by left|right; by exists c].
  - intros [->|(c & Hc & Hu)]; [apply rtc_refl|by eapply rtc_l].
Qed.
Lemma children_not_above v d p : at_depth v d → below_some (children g v) p → ¬ below p v.
Proof using W.
  intros Hd (c & Hc & Hp) Hb. destruct (below_depth c p (S d) Hp (depth_child v c d Hd Hc)) as (e & He & Hle & _).
  destruct (below_depth p v e Hb He) as (e' & He' & Hle' & _). pose proof (depth_unique v d e' Hd He'). lia.
Qed.
Lemma siblings_fold {A} (R : (string → Prop) → A → A → Prop) (f : string → A → panics A) d l s :
  NoDup l → (∀ c, c ∈ l → at_depth c d) → (∀ P, (∀ u, ¬ P u) → R P s s) →
  (∀ P Q PQ a b c, R P a b → R Q b c → (∀ u, PQ u ↔ P u ∨ Q u) → (∀ p u, P p → Q u → ¬ below p u ∧ ¬ below u p) → R PQ a c) →
  (∀ P c s', c ∈ l → R P s s' → (∀ u, below c u → ¬ P u) → ∃ s'', f c s' = Done s'' ∧ R (below c) s' s'') →
  ∃ s', fold_outcome f l s = Done s' ∧ R (below_some l) s s'.
Proof using W.
  intros Hnd Hl Hnone Hthen Hf. apply (fold_outcome_inv (λ pre s', R (below_some pre) s s')).
  - apply Hnone. by intros u (c & ?%elem_of_nil & _).
  - intros pre c post s1 E H1. assert (Hc : c ∈ l) by (rewrite E; apply elem_of_app; right; by left).
    assert (Hap : ∀ c' u, c' ∈ pre → below c' u → ¬ below c u).
    { intros c' u Hc' Hu Hu'. assert (Hl' : c' ∈ l) by (rewrite E; apply elem_of_app; by left).
      assert (c' = c) as -> by exact (below_apart c' c u d Hu Hu' (Hl _ Hl') (Hl _ Hc)).
      rewrite E in Hnd. apply NoDup_app in Hnd as (_ & Hnd & _). apply (Hnd c Hc'). by left. }
    destruct (Hf (below_some pre) c s1 Hc H1) as (s2 & E2 & H2); [intros u Hu (c' & Hc' & Hu'); by apply (Hap c' u)|].
    exists s2. split; [exact E2|]. apply (Hthen (below_some pre) (below c) _ s s1 s2 H1 H2); [apply below_some_snoc|].
    intros p u (c' & Hc' & Hp) Hu. split; intros Hb; [apply (Hap c' u Hc'); [by transitivity p|done]|].
    apply (Hap c' p Hc' Hp). by transitivity u.
Qed.

(** *** Depths *)

Context (Hsize : Z.of_nat (tree_bound g) ≤ i32_max).
Definition depths_right (m : gmap string Z) : Prop := ∀ u z, m !! u = Some z → ∃ d, z = Z.of_nat d ∧ at_depth u d.
Lemma dfs_depth_ok fuel : ∀ v d m, at_depth v d → (tree_bound g < fuel + d)%nat → depths_right m →
  ∃ m', dfs_depth fuel g (Z.of_nat d) v m = Done m' ∧ depths_right m' ∧ (∀ u, is_Some (m !! u) → is_Some (m' !! u)) ∧
    ∀ u, below v u → is_Some (m' !! u).
Proof using W Hsize.
  induction fuel as [|fuel IH]; intros v d m Hd Hf Hm; [pose proof (depth_bound _ _ Hd); lia|]. cbn [dfs_depth].
  destruct (fold_outcome_inv (λ pre m1, depths_right m1 ∧ (∀ u, is_Some (m !! u) → is_Some (m1 !! u)) ∧
    ∀ c u, c ∈ pre → below c u → is_Some (m1 !! u)) (dfs_depth fuel g (i32_wrap (Z.of_nat d + 1))) (children g v) m)
    as (m1 & -> & Hr & Hk & Hc).
  - split_and!; [done|done|by intros c u ?%elem_of_nil].
  - intros pre c post m1 E (Hr & Hk & Hc). assert (Hcv : c ∈ children g v) by (rewrite E; set_solver).
    pose proof (depth_child v c d Hd Hcv) as Dc. pose proof (depth_bound _ _ Dc).
    rewrite i32_wrap_small by (unfold is_i32, i32_min, i32_max in *; lia). replace (Z.of_nat d + 1) with (Z.of_nat (S d)) by lia.
    destruct (IH c (S d) m1 Dc ltac:(lia) Hr) as (m2 & -> & Hr2 & Hk2 & Hc2). exists m2. split; [done|]. split_and!; [done|auto|].
    intros c' u [?| ->%list_elem_of_singleton]%elem_of_app Hu; [by apply Hk2, (Hc c')|by apply Hc2].
  - rewrite bind_done. eexists. split; [done|]. split_and!.
    + intros u z. destruct (decide (u = v)) as [->|Hne]; [rewrite lookup_insert_eq; intros [= <-]; by exists d|].
      rewrite lookup_insert_ne by done. apply Hr.
    + intros u Hu. destruct (decide (u = v)) as [->|Hne]; [rewrite lookup_insert_eq; by eexists|]. rewrite lookup_insert_ne by done. auto.
    + intros u Hu. destruct (decide (u = v)) as [->|Hne]; [rewrite lookup_insert_eq; by eexists|]. rewrite lookup_insert_ne by done.
      apply rtc_inv in Hu as [?|(c & Hcv & Hu)]; [done|]. by apply (Hc c).
Qed.
Lemma tree_depths_ok : ∃ m, tree_depths g = Done m ∧ depths_right m ∧ ∀ v d, at_depth v d → m !! v = Some (Z.of_nat d).
Proof using W Hsize.
  unfold tree_depths.
  destruct (fold_outcome_inv (λ pre m, depths_right m ∧ ∀ c u, c ∈ pre → below c u → is_Some (m !! u)) (dfs_depth (tree_bound g) g 1) (root_children g) ∅)
    as (m & -> & Hr & Hc).
  - split; [by intros u z|by intros c u ?%elem_of_nil].
  - intros pre c post m E (Hr & Hc).
    destruct (dfs_depth_ok (tree_bound g) c 1 m) as (m' & E' & Hr' & Hk & Hc'); [apply depth_root; rewrite E; set_solver|lia|done|].
    exists m'. split; [exact E'|]. split; [done|]. intros c' u [?| ->%list_elem_of_singleton]%elem_of_app Hu; [by apply Hk, (Hc c')|by apply Hc'].
  - exists m. split_and!; [done..|]. intros v d Hd.
    destruct (depth_below v d Hd) as (r & Hrr & Hb). destruct (Hc r v Hrr Hb) as [z Hz]. destruct (Hr v z Hz) as (d' & -> & Hd'). rewrite Hz. do 2 f_equal. by eapply depth_unique.
Qed.
(** The deepest node is one lower than the height. *)
Lemma height_ok m : depths_right m → (∀ v d, at_depth v d → m !! v = Some (Z.of_nat d)) →
  0 ≤ height_of m ≤ Z.of_nat (tree_bound g) ∧ ∀ v d, at_depth v d → Z.of_nat d ≤ height_of m + 1.
Proof using W Hsize.
  intros Hr Hm. unfold height_of.
  assert (Hall : ∀ z, z ∈ (map_to_list m).*2 → 1 ≤ z ≤ Z.of_nat (tree_bound g)).
  { intros z ([u z'] & -> & Hu%elem_of_map_to_list)%list_elem_of_fmap. destruct (Hr u z' Hu) as (d & -> & Hd). pose proof (depth_bound _ _ Hd). cbn. lia. }
  assert (Hin : ∀ v d, at_depth v d → Z.of_nat d ∈ (map_to_list m).*2).
  { intros v d Hd%Hm. apply list_elem_of_fmap. exists (v, Z.of_nat d). split; [done|]. by apply elem_of_map_to_list. }
  destruct ((map_to_list m).*2) as [|z zs].
  { split; [unfold tree_bound; lia|]. by intros v d ?%Hin%elem_of_nil. }
  assert (Hmax : foldr Z.max z zs ∈ z :: zs ∧ ∀ x, x ∈ z :: zs → x ≤ foldr Z.max z zs).
  { clear. induction zs as [|y zs [IH1 IH2]]; cbn [foldr]; [split; [by left|intros x ->%list_elem_of_singleton; lia]|]. split.
    - destruct (Z.max_spec y (foldr Z.max z zs)) as [[_ ->]|[_ ->]]; set_solver.
    - intros x [->|[->|Hx]%elem_of_cons]%elem_of_cons; [specialize (IH2 z ltac:(by left)); lia|lia|specialize (IH2 x ltac:(by right)); lia]. }
  destruct Hmax as [Hm1 Hm2]. pose proof (Hall _ Hm1). split; [unfold i32_min; lia|]. intros v d Hd%Hin%Hm2. unfold i32_min. lia.
Qed.
End tree.

Lemma set_parent_same v p h : is_Some (g_nodes h !! v) → is_Some (g_nodes h !! p) → g_parent h !! v = None →
  g_nodes (set_parent v p h) = g_nodes h ∧ g_edges (set_parent v p h) = g_edges h ∧ g_edge_counter (set_parent v p h) = g_edge_counter h ∧
  g_parent (set_parent v p h) = <[v := p]> (g_parent h) ∧
  ∀ x q, x ∈ children (set_parent v p h) q ↔ x ∈ children h q ∨ x = v ∧ q = p.
Proof.
  intros Hv Hp Hn. unfold set_parent. rewrite (ensure_node_same v), (ensure_node_same p) by done. rewrite Hn. cbn.
  split_and!; [done..|]. intros x q. unfold children, sort_strings. rewrite !sort_by_elem, !elem_of_elements. cbn.
  destruct (decide (p = q)) as [->|Hne]; [rewrite lookup_insert_eq; cbn; set_solver|]. rewrite lookup_insert_ne by done. naive_solver.
Qed.

(** ** The search *)

Section search.
#[local] Set Default Proof Using "Type".
Context (g0 : DagreGraph) (W0 : wf g0).
(** Nodes come without borders, and children and parents are nodes. *)
Context (Hplain : ∀ v n, g_nodes g0 !! v = Some n → n_dummy n ≠ Some "border" ∧ n_border_top n = None ∧ n_border_bottom n = None).
Context (Hkids : ∀ c p, g_parent g0 !! c = Some p → is_Some (g_nodes g0 !! c) ∧ is_Some (g_nodes g0 !! p)).

(** The graph with borders put in: nodes that were there, border nodes, and
    between the former the tree of before. *)
Record bordered (h : DagreGraph) : Prop := {
  bd_wf : wf h;
  bd_old v : is_Some (g_nodes g0 !! v) → ∃ n, g_nodes h !! v = Some n ∧ n_dummy n ≠ Some "border";
  bd_new v n : g_nodes h !! v = Some n → g_nodes g0 !! v = None → n_dummy n = Some "border";
  bd_children v p : is_Some (g_nodes g0 !! v) → v ∈ children h p ↔ v ∈ children g0 p;
  bd_parent v : is_Some (g_nodes g0 !! v) → g_parent h !! v = g_parent g0 !! v;
  bd_kid v p : g_parent h !! v = Some p → is_Some (g_nodes h !! v);
  bd_leaf v : is_Some (g_nodes g0 !! v) → (∀ c, c ∉ children g0 v) → g_nodes h !! v = g_nodes g0 !! v;
  bd_fresh n : (g_edge_counter h < n)%N → g_nodes h !! counter_name "_bt" n = None ∧ g_nodes h !! counter_name "_bb" n = None;
  bd_ends v n t : is_Some (g_nodes g0 !! v) → g_nodes h !! v = Some n → n_border_top n = Some t ∨ n_border_bottom n = Some t →
    is_Some (g_nodes h !! t)
}.
(** An edge between two nodes with a minimal length of at least one. *)
Definition tied (h : DagreGraph) (a b : string) : Prop := ∃ e, g_edges h !! EdgeKey_new a b = Some e ∧ 1 ≤ e_minlen e.
(** What a later graph keeps. *)
Definition keeps (h h' : DagreGraph) : Prop :=
  (∀ v, is_Some (g_nodes h !! v) → is_Some (g_nodes h' !! v)) ∧ ∀ a b, tied h a b → tied h' a b.
Lemma grows_refl h : keeps h h.
Proof. by split. Qed.
Lemma grows_trans a b c : keeps a b → keeps b c → keeps a c.
Proof. intros [H1 H2] [H3 H4]. split; auto. Qed.

Lemma tie_ok h a b weight minlen : bordered h → is_Some (g_nodes h !! a) → is_Some (g_nodes h !! b) → 1 ≤ minlen →
  ∃ h', set_edge a b (nesting_label weight minlen) h = Done h' ∧ bordered h' ∧ keeps h h' ∧ tied h' a b ∧ g_nodes h' = g_nodes h.
Proof.
  intros B Ha Hb Hm. destruct (set_edge_key_linked (EdgeKey_new a b) (nesting_label weight minlen) h (bd_wf _ B) Ha Hb) as (h' & E & W' & [Hn He _ _ Hr]).
  exists h'. split_and!; [exact E| | | |done].
  - destruct B as [_ B1 B2 B3 B4 B5 B6 B7 B8]. pose proof (rest_parent _ _ Hr) as Ep. pose proof (rest_children _ _ Hr) as Ec.
    pose proof (rest_counter _ _ Hr) as Ek. split; [done|by rewrite Hn|by rewrite Hn| |by rewrite Ep|by rewrite Ep, Hn|by rewrite Hn|by rewrite Ek, Hn|by rewrite Hn].
    intros v p Hv. rewrite <- (B3 v p Hv). unfold children. by rewrite Ec.
  - split; [by rewrite Hn|]. intros x y (e & Hxy & Hme). unfold tied. rewrite He.
    destruct (decide (EdgeKey_new a b = EdgeKey_new x y)) as [->|Hne]; [rewrite lookup_insert_eq; by eexists|].
    rewrite lookup_insert_ne by done. by exists e.
  - unfold tied. rewrite He, lookup_insert_eq. by eexists.
Qed.

(** A new node, and its parent. *)
Lemma new_ok h pre id h' : bordered h → pre = "_bt" ∨ pre = "_bb" → add_border_node pre h = (id, h') →
  bordered h' ∧ keeps h h' ∧ g_nodes h !! id = None ∧ is_Some (g_nodes h' !! id) ∧ g_parent h' !! id = None ∧
  (∀ v, v ≠ id → g_nodes h' !! v = g_nodes h !! v) ∧ g_parent h' = g_parent h.
Proof.
  intros B Hpre E. unfold add_border_node, add_dummy_node in E. cbn in E. injection E as <- <-.
  set (id := counter_name pre (g_edge_counter h + 1)). set (h1 := mkGraph _ _ _ _ _ _ _ _). set (l := set_n_dummy _ _).
  assert (Hid : g_nodes h !! id = None) by (destruct (bd_fresh _ B (g_edge_counter h + 1)%N ltac:(lia)); by destruct Hpre as [-> | ->]).
  assert (Hid0 : g_nodes g0 !! id = None).
  { apply eq_None_not_Some. intros Hs. destruct (bd_old _ B _ Hs) as (n & ? & _). congruence. }
  assert (Hn : ∀ v, v ≠ id → g_nodes (set_node id l h1) !! v = g_nodes h !! v) by (intros v ?; rewrite set_node_nodes; by apply lookup_insert_ne).
  assert (Hi : g_nodes (set_node id l h1) !! id = Some l) by (rewrite set_node_nodes; apply lookup_insert_eq).
  assert (Hs : rest (set_node id l h1) = rest h1) by apply set_node_rest.
  assert (Ep : g_parent (set_node id l h1) = g_parent h) by (by rewrite (rest_parent _ _ Hs)).
  assert (Hpar : g_parent h !! id = None).
  { apply eq_None_not_Some. intros [p Hp%(bd_kid _ B)]. rewrite Hid in Hp. by destruct Hp. }
  split_and!; [|split|done|by rewrite Hi; eexists|by rewrite Ep|done|done].
  - split.
    + apply wf_set_node. apply (wf_unique_id pre h), B.
    + intros v Hv. destruct (decide (v = id)) as [->|Hne]; [rewrite Hid0 in Hv; by destruct Hv|]. rewrite Hn by done. by apply B.
    + intros v n. destruct (decide (v = id)) as [->|Hne]; [rewrite Hi; by intros [= <-]|]. rewrite Hn by done. by apply B.
    + intros v p Hv. rewrite <- (bd_children _ B v p Hv). unfold children. by rewrite (rest_children _ _ Hs).
    + rewrite Ep. apply B.
    + intros v p. rewrite Ep. intros Hv%(bd_kid _ B). destruct (decide (v = id)) as [->|Hne]; [rewrite Hi; by eexists|by rewrite Hn].
    + intros v Hv Hc. destruct (decide (v = id)) as [->|Hne]; [rewrite Hid0 in Hv; by destruct Hv|]. rewrite Hn by done. by apply B.
    + intros n Hlt. rewrite (rest_counter _ _ Hs) in Hlt. cbn in Hlt. destruct (bd_fresh _ B n ltac:(lia)) as [F1 F2].
      assert (Hne : ∀ q, q = "_bt" ∨ q = "_bb" → counter_name q n ≠ id).
      { intros q Hq. unfold id. destruct Hq as [-> | ->], Hpre as [-> | ->]; try (intros Heq; unfold counter_name in Heq; cbn in Heq; congruence);
          intros ?%counter_name_inj; lia. }
      rewrite !Hn by (apply Hne; auto). done.
    + intros v n t Hv. destruct (decide (v = id)) as [->|Hne]; [rewrite Hid0 in Hv; by destruct Hv|]. rewrite Hn by done.
      intros Hvn Ht. pose proof (bd_ends _ B v n t Hv Hvn Ht) as Hht. destruct (decide (t = id)) as [->|Hte]; [rewrite Hi; by eexists|by rewrite Hn].
  - intros v Hv. destruct (decide (v = id)) as [->|Hne]; [rewrite Hi; by eexists|by rewrite Hn].
  - intros a b. unfold tied. by rewrite set_node_edges.
Qed.
Lemma adopt_ok h v p : bordered h → is_Some (g_nodes h !! v) → g_parent h !! v = None → g_nodes g0 !! v = None → is_Some (g_nodes g0 !! p) →
  bordered (set_parent v p h) ∧ keeps h (set_parent v p h) ∧ g_nodes (set_parent v p h) = g_nodes h ∧ g_parent (set_parent v p h) = <[v := p]> (g_parent h).
Proof.
  intros B Hv Hpar Hv0 Hp. assert (Hph : is_Some (g_nodes h !! p)) by (destruct (bd_old _ B p Hp) as (n & -> & _); by eexists).
  destruct (set_parent_same v p h Hv Hph Hpar) as (En & Ee & Ec & Epar & Hch). split_and!; [|split|done|done].
  - destruct B as [B0 B1 B2 B3 B4 B5 B6 B7 B8].
    split; [by apply wf_set_parent|by rewrite En|by rewrite En| | | |by rewrite En|by rewrite Ec, En|by rewrite En].
    + intros x q Hx. rewrite Hch, (B3 x q Hx). split; [intros [?|[-> _]]; [done|rewrite Hv0 in Hx; by destruct Hx]|by left].
    + intros x Hx. rewrite Epar, lookup_insert_ne; [by apply B4|]. intros ->. rewrite Hv0 in Hx. by destruct Hx.
    + intros x q. rewrite Epar, En. destruct (decide (x = v)) as [->|Hne]; [done|]. rewrite lookup_insert_ne by done. apply B5.
  - by rewrite En.
  - intros a b. unfold tied. by rewrite Ee.
Qed.
Lemma borders_ok h v top bottom : bordered h → is_Some (g_nodes g0 !! v) → (∃ c, c ∈ children g0 v) →
  is_Some (g_nodes h !! top) → is_Some (g_nodes h !! bottom) →
  let f := λ n, set_n_border_bottom (Some bottom) (set_n_border_top (Some top) n) in
  bordered (node_mut f v h) ∧ keeps h (node_mut f v h) ∧ (∀ u, u ≠ v → g_nodes (node_mut f v h) !! u = g_nodes h !! u) ∧
  ∃ n, g_nodes (node_mut f v h) !! v = Some n ∧ n_border_top n = Some top ∧ n_border_bottom n = Some bottom.
Proof.
  intros B Hv [c Hc] Ht Hb f. pose proof (node_mut_shape f v h) as S. pose proof (node_mut_lookup f v h) as Hl.
  assert (Hsome : ∀ x, is_Some (g_nodes h !! x) → is_Some (g_nodes (node_mut f v h) !! x)).
  { intros x. rewrite Hl. destruct (decide (x = v)); [by rewrite fmap_is_Some|done]. }
  destruct (bd_old _ B v Hv) as (nv & Hnv & Hdv). split_and!; [|split; [exact Hsome|done]| |].
  - destruct B as [B0 B1 B2 B3 B4 B5 B6 B7 B8]. split; [by apply (wf_same_shape h)| | |done|done| | | |].
    + intros x Hx. rewrite Hl. destruct (decide (x = v)) as [->|]; [|by apply B1]. rewrite Hnv. cbn. by eexists.
    + intros x n. rewrite Hl. destruct (decide (x = v)) as [->|]; [|by apply B2]. intros _ Hx. rewrite Hx in Hv. by destruct Hv.
    + intros x p Hp. apply Hsome. by eapply B5.
    + intros x Hx Hxc. rewrite Hl, decide_False; [by apply B6|]. intros ->. by apply (Hxc c).
    + intros n Hn. destruct (B7 n Hn) as [F1 F2]. rewrite !Hl, F1, F2. by repeat case_decide.
    + intros x n t Hx. rewrite Hl. destruct (decide (x = v)) as [->|].
      * rewrite Hnv. cbn. intros [= <-] Hor. apply Hsome. cbn in Hor. destruct Hor; congruence.
      * intros Hxn Hor. apply Hsome. by eapply B8.
  - intros u Hu. by rewrite Hl, decide_False.
  - rewrite Hl, decide_True, Hnv by done. by eexists.
Qed.
(** The borders of a subgraph. *)
Lemma open_ok h v top h1 bottom h2 : bordered h → is_Some (g_nodes g0 !! v) → (∃ c, c ∈ children g0 v) →
  add_border_node "_bt" h = (top, h1) → add_border_node "_bb" h1 = (bottom, h2) → let h' := set_borders top bottom v h2 in
  bordered h' ∧ keeps h h' ∧ is_Some (g_nodes h' !! top) ∧ is_Some (g_nodes h' !! bottom) ∧
  (∀ u, is_Some (g_nodes g0 !! u) → u ≠ v → g_nodes h' !! u = g_nodes h !! u) ∧
  ∃ n, g_nodes h' !! v = Some n ∧ n_border_top n = Some top ∧ n_border_bottom n = Some bottom.
Proof.
  intros B Hv Hc E1 E2 h'. destruct (new_ok h "_bt" top h1 B ltac:(auto) E1) as (B1 & K1 & Nt & St & Pt & O1 & P1).
  destruct (new_ok h1 "_bb" bottom h2 B1 ltac:(auto) E2) as (B2 & K2 & Nb & Sb & Pb & O2 & P2).
  assert (Hnew : ∀ x, g_nodes h !! x = None → g_nodes g0 !! x = None).
  { intros x Hx. apply eq_None_not_Some. intros Hs. destruct (bd_old _ B x Hs) as (n & ? & _). congruence. }
  assert (Hnew1 : ∀ x, g_nodes h1 !! x = None → g_nodes g0 !! x = None).
  { intros x Hx. apply eq_None_not_Some. intros Hs. destruct (bd_old _ B1 x Hs) as (n & ? & _). congruence. }
  assert (Hne : bottom ≠ top) by (intros ->; rewrite Nb in St; by destruct St).
  destruct (adopt_ok h2 top v B2) as (B3 & K3 & N3 & P3); [by apply K2|by rewrite P2|by apply Hnew|done|].
  destruct (adopt_ok (set_parent top v h2) bottom v B3) as (B4 & K4 & N4 & P4); [by rewrite N3|by rewrite P3, lookup_insert_ne|by apply Hnew1|done|].
  assert (Hn4 : g_nodes (set_parent bottom v (set_parent top v h2)) = g_nodes h2) by (by rewrite N4, N3).
  destruct (borders_ok _ v top bottom B4 Hv Hc) as (B5 & K5 & O5 & Hvn); [rewrite Hn4; by apply K2|by rewrite Hn4|].
  assert (K : keeps h2 h') by (eapply grows_trans; [exact K3|eapply grows_trans; [exact K4|exact K5]]).
  split_and!; [exact B5| | | | |exact Hvn].
  - eapply grows_trans; [exact K1|eapply grows_trans; [exact K2|exact K]].
  - by apply K, K2.
  - by apply K.
  - intros u Hu Hune. unfold h', set_borders. rewrite O5 by done. rewrite Hn4.
    assert (u ≠ top ∧ u ≠ bottom) as [? ?] by (split; intros ->; [rewrite (Hnew _ Nt) in Hu|rewrite (Hnew1 _ Nb) in Hu]; by destruct Hu).
    by rewrite O2, O1.
Qed.

(** A child that is between the borders of its parent. *)
Definition nested (h : DagreGraph) (u c : string) : Prop :=
  ∃ n t b, g_nodes h !! u = Some n ∧ n_border_top n = Some t ∧ n_border_bottom n = Some b ∧
    tied h t (child_ends h c).1 ∧ tied h (child_ends h c).2 b.
Lemma nested_keeps h h' u c : keeps h h' → g_nodes h' !! u = g_nodes h !! u → g_nodes h' !! c = g_nodes h !! c →
  nested h u c → nested h' u c.
Proof.
  intros [_ K] Hu Hc (n & t & b & Hn & Ht & Hb & T1 & T2). exists n, t, b. rewrite Hu.
  assert (E : child_ends h' c = child_ends h c) by (unfold child_ends, node; by rewrite Hc). rewrite E. split_and!; auto.
Qed.
Lemma nest_ok weight height v_depth h v n top bottom c : bordered h → g_nodes h !! v = Some n → n_border_top n = Some top → n_border_bottom n = Some bottom →
  is_Some (g_nodes h !! top) → is_Some (g_nodes h !! bottom) → is_Some (g_nodes g0 !! c) → 1 ≤ i32_wrap (i32_wrap (height - v_depth) + 1) →
  ∃ h', nest_child weight height v_depth top bottom c h = Done h' ∧ bordered h' ∧ keeps h h' ∧ g_nodes h' = g_nodes h ∧ nested h' v c.
Proof.
  intros B Hv Ht Hb St Sb Hc Hm. unfold nest_child. destruct (child_ends h c) as [ct cb] eqn:E.
  assert (Hends : is_Some (g_nodes h !! ct) ∧ is_Some (g_nodes h !! cb)).
  { destruct (bd_old _ B c Hc) as (m & Hcm & _). unfold child_ends, node in E. rewrite Hcm in E. injection E as <- <-. split.
    - destruct (n_border_top m) as [t|] eqn:Et; [|by eexists]. apply (bd_ends _ B c m t Hc Hcm). by left.
    - destruct (n_border_bottom m) as [t|] eqn:Et; [|by eexists]. apply (bd_ends _ B c m t Hc Hcm). by right. }
  destruct Hends as [Sct Scb]. set (w := if child_has_border h c then _ else _). set (ml := if bool_decide (ct = cb) then _ else 1).
  assert (Hml : 1 ≤ ml) by (unfold ml; by case_bool_decide).
  destruct (tie_ok h top ct w ml B St Sct Hml) as (h1 & -> & B1 & K1 & T1 & N1). rewrite bind_done.
  destruct (tie_ok h1 cb bottom w ml B1) as (h2 & -> & B2 & K2 & T2 & N2); [by rewrite N1|by rewrite N1|done|].
  exists h2. split_and!; [done|done|by eapply grows_trans|by rewrite N2|]. exists n, top, bottom. rewrite N2, N1.
  assert (E' : child_ends h2 c = (ct, cb)) by (unfold child_ends, node in *; by rewrite N2, N1). rewrite E'. split_and!; [done..| |done]. by apply K2.
Qed.

Context (root : string) (node_sep weight height : Z) (depths : gmap string Z).
Context (Hroot : is_Some (g_nodes g0 !! root)) (Hsep : 1 ≤ node_sep).
Context (Hdown : ∀ v d c, at_depth g0 v d → c ∈ children g0 v → 1 ≤ i32_wrap (i32_wrap (height - depth_of depths v) + 1)).
Context (Hheight : ∀ v d, at_depth g0 v d → 1 ≤ i32_wrap (height + depth_of depths v)).

(** What a search over the nodes of [P] achieves. *)
Record searched (P : string → Prop) (h h' : DagreGraph) : Prop := {
  se_bordered : bordered h';
  se_keeps : keeps h h';
  se_frame u : is_Some (g_nodes g0 !! u) → ¬ P u → g_nodes h' !! u = g_nodes h !! u;
  se_nested u c : P u → c ∈ children g0 u → nested h' u c
}.
Lemma kid_node c p : c ∈ children g0 p → is_Some (g_nodes g0 !! c) ∧ is_Some (g_nodes g0 !! p).
Proof using W0 Hkids. intros Hc. by apply Hkids, children_parent. Qed.
Lemma open_children h v : bordered h → filter (λ c, is_border h c = false) (children h v) = [] ∧ (∀ c, c ∉ children g0 v) ∨
  (∃ c, c ∈ children g0 v) ∧ ∀ c, c ∈ filter (λ c, is_border h c = false) (children h v) ↔ c ∈ children g0 v.
Proof using W0 Hkids.
  intros B. assert (Hf : ∀ c, c ∈ filter (λ c, is_border h c = false) (children h v) ↔ c ∈ children g0 v).
  { intros c. rewrite list_elem_of_filter. unfold is_border, node. split.
    - intros [Hb Hc]. destruct (g_nodes g0 !! c) as [n0|] eqn:E; [apply (bd_children _ B c v); [by eexists|done]|].
      apply (children_parent _ (bd_wf _ B)), (bd_kid _ B) in Hc. destruct Hc as [n Hn]. pose proof (bd_new _ B c n Hn E) as Hd.
      rewrite Hn, Hd in Hb. by rewrite bool_decide_true in Hb.
    - intros Hc. destruct (kid_node c v Hc) as [Hs _]. split; [|by apply (bd_children _ B c v Hs)].
      destruct (bd_old _ B c Hs) as (n & -> & Hd). by apply bool_decide_eq_false. }
  destruct (filter _ (children h v)) as [|c l]; [left|right].
  - split; [done|]. intros c Hc%Hf. by apply elem_of_nil in Hc.
  - split; [|done]. exists c. apply Hf. by left.
Qed.
Lemma searched_none (P : string → Prop) h : (∀ u, ¬ P u) → bordered h → searched P h h.
Proof. intros HP B. split; [done|apply grows_refl|done|by intros u c ?%HP]. Qed.
Lemma searched_then (P Q PQ : string → Prop) a b c : searched P a b → searched Q b c → (∀ u, PQ u ↔ P u ∨ Q u) →
  (∀ p u, P p → Q u → ¬ below g0 p u ∧ ¬ below g0 u p) → searched PQ a c.
Proof using W0 Hkids.
  intros [B1 K1 F1 N1] [B2 K2 F2 N2] HPQ Hap. split; [done|by eapply grows_trans| |].
  - intros u Hu Hn. rewrite HPQ in Hn. rewrite F2, F1 by tauto. done.
  - intros u x [Hu|Hu]%HPQ Hx; [|by apply N2]. destruct (kid_node x u Hx) as [Sx Su].
    apply (nested_keeps b); [done| | |by apply N1]; (apply F2; [done|]; intros HQ; destruct (Hap u _ Hu HQ) as [Hb _]; apply Hb); [apply rtc_refl|by apply rtc_once].
Qed.
(** Edges between nodes that are there take nothing back. *)
Lemma searched_tied (P : string → Prop) h h' h'' : searched P h h' → bordered h'' → keeps h' h'' → g_nodes h'' = g_nodes h' → searched P h h''.
Proof.
  intros [B K F N] B' K' E. split; [done|by eapply grows_trans|by rewrite E|].
  intros u c Hu Hc. apply (nested_keeps h'); [done|by rewrite E|by rewrite E|by apply N].
Qed.
(** A search from [v] between two of its children. *)
Record so_far (v : string) (n : NodeLabel) (P : string → Prop) (h h' : DagreGraph) : Prop := {
  sf_searched : searched P h h';
  sf_self : g_nodes h' !! v = Some n;
  sf_own c : c ∈ children g0 v → P c → nested h' v c
}.
Lemma so_far_then v n (P Q PQ : string → Prop) a b c : so_far v n P a b → so_far v n Q b c → (∀ u, PQ u ↔ P u ∨ Q u) →
  (∀ p u, P p → Q u → ¬ below g0 p u ∧ ¬ below g0 u p) → so_far v n PQ a c.
Proof using W0 Hkids.
  intros [S1 E1 O1] [S2 E2 O2] HPQ Hap. split; [by eapply searched_then|done|].
  intros x Hx [HP|HQ]%HPQ; [|by apply O2]. apply (nested_keeps b); [apply S2|congruence| |by apply O1].
  apply S2; [by apply (kid_node x v)|]. intros HQ. destruct (Hap x x HP HQ) as [Hb _]. apply Hb, rtc_refl.
Qed.
(** With all its children searched, only the root is left to be joined. *)
Lemma so_far_done v n h h3 h4 : is_Some (g_nodes g0 !! v) → keeps h h3 →
  (∀ u, is_Some (g_nodes g0 !! u) → u ≠ v → g_nodes h3 !! u = g_nodes h !! u) → so_far v n (below_some g0 (children g0 v)) h3 h4 → searched (below g0 v) h h4.
Proof.
  intros Hv K O [[B4 K4 Hfr Hu4] Hn4 Hv4]. split; [done|by eapply grows_trans| |].
  - intros u Hu Hvu. rewrite below_children in Hvu. rewrite Hfr, O; [done..|tauto|done|tauto].
  - intros u c [->|Hu]%(below_children g0) Hc; [|by apply Hu4]. apply Hv4; [done|]. exists c. split; [done|apply rtc_refl].
Qed.
Lemma old_some h v : bordered h → is_Some (g_nodes g0 !! v) → is_Some (g_nodes h !! v).
Proof. intros B Hv. destruct (bd_old _ B v Hv) as (n & -> & _). by eexists. Qed.
Lemma searched_tie P h h' top weight' minlen : searched P h h' → is_Some (g_nodes h' !! top) → 1 ≤ minlen →
  ∃ h'', set_edge root top (nesting_label weight' minlen) h' = Done h'' ∧ searched P h h''.
Proof using Hroot.
  intros Sd St Hm. pose proof (se_bordered _ _ _ Sd) as B.
  destruct (tie_ok h' root top weight' minlen B (old_some _ _ B Hroot) St Hm) as (h2 & E & B2 & K2 & _ & N2).
  exists h2. split; [exact E|]. by eapply searched_tied.
Qed.
Lemma dfs_ok fuel : ∀ v d h, at_depth g0 v d → (tree_bound g0 < fuel + d)%nat → bordered h → is_Some (g_nodes g0 !! v) →
  ∃ h', dfs fuel root node_sep weight height depths v h = Done h' ∧ searched (below g0 v) h h'.
Proof using W0 Hkids Hroot Hsep Hdown Hheight.
  induction fuel as [|fuel IH]; intros v d h Hd Hf B Hv; [pose proof (depth_bound g0 W0 v d Hd); lia|]. cbn [dfs].
  destruct (open_children h v B) as [[-> Hno]|[Hsome Hch]].
  - assert (S : searched (below g0 v) h h).
    { split; [done|apply grows_refl|done|]. intros u c [->|(c' & Hc' & _)]%(below_children g0) Hc; exfalso; by eapply Hno. }
    destruct (decide (v = root)) as [->|Hr]; [by exists h|]. apply searched_tie; [done|by apply old_some|done].
  - destruct (filter _ (children h v)) as [|c0 cs0] eqn:Ef; [destruct Hsome as [c Hc%Hch]; by apply elem_of_nil in Hc|].
    assert (Hnd : NoDup (c0 :: cs0)) by (rewrite <- Ef; apply NoDup_filter; unfold children, sort_strings; apply sort_by_nodup, NoDup_elements).
    destruct (add_border_node "_bt" h) as [top h1] eqn:E1, (add_border_node "_bb" h1) as [bottom h2] eqn:E2.
    destruct (open_ok h v top h1 bottom h2 B Hv Hsome E1 E2) as (B3 & K3 & St & Sb & O3 & (n & Hn & Ht & Hb)). set (h3 := set_borders top bottom v h2) in *.
    assert (Hdc : ∀ c, c ∈ c0 :: cs0 → at_depth g0 c (S d)) by (intros c Hc%Hch; by apply (depth_child g0 v)).
    destruct (siblings_fold g0 W0 (so_far v n)
      (λ child g, g ← dfs fuel root node_sep weight height depths child g; nest_child weight height (depth_of depths v) top bottom child g)
      (S d) (c0 :: cs0) h3 Hnd Hdc) as (h4 & -> & S4).
    + intros P HP. split; [by apply searched_none|done|by intros c _ ?%HP].
    + apply so_far_then.
    + intros P c h4 Hc [S4 Hn4 _] Hap. pose proof (Hdc c Hc) as Dc. apply Hch in Hc. destruct (kid_node c v Hc) as [Sc _].
      destruct (IH c (S d) h4 Dc ltac:(lia) (se_bordered _ _ _ S4) Sc) as (h5 & -> & S5). rewrite bind_done.
      assert (Hn5 : g_nodes h5 !! v = Some n).
      { rewrite (se_frame _ _ _ S5 v Hv); [done|]. apply (children_not_above g0 W0 v d c Hd). exists c. split; [done|apply rtc_refl]. }
      destruct (nest_ok weight height (depth_of depths v) h5 v n top bottom c (se_bordered _ _ _ S5) Hn5 Ht Hb) as (h6 & -> & B6 & K6 & N6 & T6);
        [by apply (se_keeps _ _ _ S5), (se_keeps _ _ _ S4)|by apply (se_keeps _ _ _ S5), (se_keeps _ _ _ S4)|done|by eapply Hdown|].
      exists h6. split; [done|]. split; [by eapply searched_tied|by rewrite N6|]. intros c' Hc' Hb'.
      assert (c = c') as <- by exact (below_apart g0 W0 c c' c' (S d) Hb' (rtc_refl _ _) Dc (depth_child g0 v c' d Hd Hc')). done.
    + rewrite bind_done. assert (Sd : searched (below g0 v) h h4).
      { apply (so_far_done v n h h3 h4 Hv K3 O3). destruct S4 as [[B4 K4 F4 N4] E4 O4].
        assert (Hb4 : ∀ u, below_some g0 (c0 :: cs0) u ↔ below_some g0 (children g0 v) u).
        { intros u. split; intros (c & Hc & Hu); exists c; (split; [by apply Hch|done]). }
        split; [split; [done|done|intros u Hu; rewrite <- Hb4; by apply F4|intros u c; rewrite <- Hb4; by apply N4]|done|intros c; rewrite <- Hb4; by apply O4]. }
      unfold parent. destruct (g_parent h4 !! v); [by exists h4|].
      apply searched_tie; [done|by apply (se_keeps _ _ _ (sf_searched _ _ _ _ _ S4))|by eapply Hheight].
Qed.
(** All searches: subtrees of different roots have nothing in common. *)
Lemma dfs_roots : bordered g0 → ∃ h, fold_outcome (dfs (tree_bound g0) root node_sep weight height depths) (root_children g0) g0 = Done h ∧
  searched (below_some g0 (root_children g0)) g0 h.
Proof using W0 Hkids Hroot Hsep Hdown Hheight.
  intros B0. apply (siblings_fold g0 W0 searched _ 1).
  - unfold root_children, sort_strings. apply sort_by_nodup, NoDup_filter, NoDup_fst_map_to_list.
  - intros c Hc. by apply depth_root.
  - intros P HP. by apply searched_none.
  - apply searched_then.
  - intros P c h Hc Sh _. apply (dfs_ok (tree_bound g0) c 1); [by apply depth_root|lia|apply Sh|by apply root_parent].
Qed.
End search.

(** ** The whole *)

(** A graph before borders are put in: nodes come without any, children and
    parents are nodes, parents lead up to a node without one, and the names to
    come are not in use. *)
Definition nesting_names : list string := ["_root"; "_bt"; "_bb"].
Record nestable (g : DagreGraph) : Prop := {
  ns_wf : wf g;
  ns_compound : is_compound g = true;
  ns_plain v n : g_nodes g !! v = Some n → n_dummy n ≠ Some "border" ∧ n_border_top n = None ∧ n_border_bottom n = None;
  ns_kids c p : g_parent g !! c = Some p → is_Some (g_nodes g !! c) ∧ is_Some (g_nodes g !! p);
  ns_rooted v : is_Some (g_nodes g !! v) → ∃ d, at_depth g v d;
  ns_fresh pre n : pre ∈ nesting_names → (g_edge_counter g < n)%N → g_nodes g !! counter_name pre n = None;
  ns_small : Z.of_nat (tree_bound g) ≤ 2 ^ 29
}.
Lemma at_depth_same g g' v d : g_nodes g' = g_nodes g → g_parent g' = g_parent g → g_children g' = g_children g → at_depth g v d → at_depth g' v d.
Proof.
  intros En Ep Ec. induction 1 as [v Hv|p c d _ IH Hc].
  - apply depth_root. apply root_parent. rewrite En, Ep. by apply root_parent.
  - apply (depth_child g' p); [done|]. unfold children in *. by rewrite Ec.
Qed.

(** The graph that is searched: the root is in it, and edges are longer. *)
Section rooted.
#[local] Set Default Proof Using "Type".
Context `{MapOrder} (g : DagreGraph) (N : nestable g).
Let root := counter_name "_root" (g_edge_counter g + 1).
Let g1 := set_node root (set_n_dummy (Some "root") NodeLabel_default) (unique_id "_root" g).2.
Let g2 := set_g_graph_label (set_gl_nesting_root (Some root) (g_graph_label g1)) g1.
Lemma root_new : g_nodes g !! root = None.
Proof using N. apply (ns_fresh _ N); [by left|lia]. Qed.
Lemma rooted_nodes v : g_nodes g2 !! v = if decide (root = v) then Some (set_n_dummy (Some "root") NodeLabel_default) else g_nodes g !! v.
Proof.
  unfold g2, g1. cbn [set_g_graph_label g_nodes]. rewrite set_node_nodes. case_decide as E; [by rewrite E, lookup_insert_eq|by rewrite lookup_insert_ne].
Qed.
Lemma rooted_old v : is_Some (g_nodes g !! v) → g_nodes g2 !! v = g_nodes g !! v.
Proof using N. intros Hv. rewrite rooted_nodes, decide_False; [done|]. intros <-. rewrite root_new in Hv. by destruct Hv. Qed.
Lemma rooted_rest : g_parent g2 = g_parent g ∧ g_children g2 = g_children g ∧ g_edge_counter g2 = (g_edge_counter g + 1)%N ∧ wf g2.
Proof using N.
  pose proof (set_node_rest root (set_n_dummy (Some "root") NodeLabel_default) (unique_id "_root" g).2) as R.
  split_and!; [exact (rest_parent _ _ R)|exact (rest_children _ _ R)|exact (rest_counter _ _ R)|].
  apply (wf_same_shape g1); [apply set_label_shape|].
  apply wf_set_node, wf_unique_id, N.
Qed.
Lemma rooted_depth v d : at_depth g v d → at_depth g2 v d.
Proof using N.
  destruct rooted_rest as (Ep & Ec & _ & _). induction 1 as [v Hv|p c d _ IH Hc].
  - apply depth_root. apply root_parent. rewrite Ep. apply root_parent in Hv as [Hv Hs]. split; [done|]. by rewrite rooted_old.
  - apply (depth_child g2 p); [done|]. unfold children in *. by rewrite Ec.
Qed.
Lemma rooted_bound : tree_bound g2 = tree_bound g.
Proof using N. destruct rooted_rest as (Ep & _). unfold tree_bound. by rewrite Ep. Qed.
(** Also with other edges, it is ready to be searched. *)
Lemma rooted_bordered g3 : g_nodes g3 = g_nodes g2 → g_parent g3 = g_parent g2 → g_edge_counter g3 = g_edge_counter g2 → wf g3 → bordered g3 g3.
Proof using N.
  intros E3 P3 C3 W. destruct rooted_rest as (Ep & Ec & Ek & _). split; [done| | |done|done| |done| |]; rewrite ?E3, ?P3, ?C3.
  - intros v [n Hn]. exists n. split; [done|]. rewrite rooted_nodes in Hn. case_decide; [by injection Hn as <-|]. by apply (ns_plain _ N v).
  - intros v n Hn Hn'. congruence.
  - rewrite Ep. intros v p Hp. destruct (ns_kids _ N _ _ Hp) as [Hs _]. by rewrite rooted_old.
  - rewrite Ek. intros n Hn.
    assert (Hf : ∀ pre, pre = "_bt" ∨ pre = "_bb" → g_nodes g2 !! counter_name pre n = None).
    { intros pre Hpre. rewrite rooted_nodes, decide_False.
      - apply (ns_fresh _ N); [destruct Hpre as [-> | ->]; unfold nesting_names; set_solver|lia].
      - intros Heq. destruct Hpre as [-> | ->]; unfold root, counter_name in Heq; cbn in Heq; congruence. }
    split; apply Hf; auto.
  - intros v n t _ Hn Ht. rewrite rooted_nodes in Hn. case_decide; [injection Hn as <-; cbn in Ht; by destruct Ht|].
    destruct (ns_plain _ N v n Hn) as (_ & E1 & E2). rewrite E1, E2 in Ht. by destruct Ht.
Qed.
Lemma run_ok : ∃ h, run g = Done h ∧ (∀ p c, c ∈ children g p → nested h p c) ∧
  ∀ v, is_Some (g_nodes g !! v) → (∀ c, c ∉ children g v) → g_nodes h !! v = g_nodes g !! v.
Proof using N.
  destruct rooted_rest as (Ep & Ec & Ek & W2). pose proof (ns_small _ N) as Hsmall. rewrite <- rooted_bound in Hsmall.
  unfold run. rewrite (ns_compound _ N). cbn [negb]. change (add_dummy_node "root" NodeLabel_default "_root" g) with
    (root, set_node root (set_n_dummy (Some "root") NodeLabel_default) (unique_id "_root" g).2). cbn beta iota zeta.
  change (set_node root _ _) with g1. change (set_g_graph_label _ g1) with g2.
  destruct (tree_depths_ok g2 W2) as (depths & -> & Hr & Hd); [unfold i32_max; lia|]. rewrite bind_done.
  destruct (height_ok g2 W2 ltac:(unfold i32_max; lia) depths Hr Hd) as [Hh Hdh]. set (height := height_of depths) in *. clearbody height.
  set (sep := if 0 <? height then _ else 1).
  assert (Hsep : 1 ≤ sep).
  { unfold sep. destruct (Z.ltb_spec 0 height); [|lia]. rewrite (i32_wrap_small (2 * height)), i32_wrap_small; unfold is_i32, i32_min, i32_max; lia. }
  rewrite mut_all_edges. set (m := stretch sep <$> g_edges g2). set (weight := i32_wrap _). clearbody weight.
  set (g3 := set_g_edges m g2).
  assert (W3 : wf g3).
  { unfold g3, m. rewrite <- mut_all_edges. apply (fold_with_pres wf); [|done]. intros k x Hx. exact (wf_same_shape _ _ (edge_mut_shape _ _ _) Hx). }
  assert (B3 : bordered g3 g3) by (by apply rooted_bordered).
  assert (D3 : ∀ v d, at_depth g3 v d → at_depth g2 v d) by (intros v d; by apply at_depth_same).
  assert (D3' : ∀ v d, at_depth g v d → at_depth g3 v d) by (intros v d Hv; apply (at_depth_same g2); [done..|by apply rooted_depth]).
  assert (Hdep : ∀ v d, at_depth g3 v d → depth_of depths v = Z.of_nat d) by (intros v d Hv; unfold depth_of; by rewrite (Hd v d (D3 v d Hv))).
  assert (C3 : ∀ v, children g3 v = children g v) by (intros v; unfold children; by rewrite <- Ec).
  destruct (dfs_roots g3 W3) with (root := root) (node_sep := sep) (weight := weight) (height := height) (depths := depths) as (h & Eh & [Bh _ _ Nh]); [..|done|].
  - change (g_nodes g3) with (g_nodes g2). change (g_parent g3) with (g_parent g2). rewrite Ep. intros c p Hp.
    destruct (ns_kids _ N _ _ Hp) as [? ?]. by rewrite !rooted_old.
  - change (g_nodes g3) with (g_nodes g2). rewrite rooted_nodes, decide_True by done. by eexists.
  - done.
  - intros v d c Hv Hc. pose proof (Hdh c (S d) (D3 c (S d) (depth_child g3 v c d Hv Hc))) as Hle.
    rewrite (Hdep v d Hv), (i32_wrap_small (height - _)), i32_wrap_small; unfold is_i32, i32_min, i32_max; lia.
  - intros v d Hv. pose proof (Hdh v d (D3 v d Hv)). pose proof (depth_bound g2 W2 v d (D3 v d Hv)).
    rewrite (Hdep v d Hv), i32_wrap_small; unfold is_i32, i32_min, i32_max; lia.
  - rewrite Eh, bind_done. eexists. split; [done|]. split.
    + intros p c Hc. destruct (ns_kids _ N c p) as [_ Sp]; [by apply children_parent, Hc; apply N|].
      destruct (ns_rooted _ N p Sp) as (d & Hp). destruct (depth_below g3 p d (D3' p d Hp)) as (r & Hr' & Hb). apply Nh; [by exists r|by rewrite C3].
    + intros v Hv Hc. rewrite <- (rooted_old v Hv). apply (bd_leaf _ _ Bh v); [|by rewrite C3].
      change (g_nodes g3) with (g_nodes g2). by rewrite (rooted_old v Hv).
Qed.
End rooted.

(** Ranks that every edge is long enough for. *)
Definition ranks_fit (g : DagreGraph) (r : string → Z) : Prop := ∀ k e, g_edges g !! k = Some e → r (key_v k) + e_minlen e ≤ r (key_w k).
Lemma tied_lt g r a b : ranks_fit g r → tied g a b → r a < r b.
Proof. intros Hr (e & He & Hm). specialize (Hr _ _ He). cbn in Hr. lia. Qed.
(** The top of what is below a node is never under its bottom. *)
Lemma ends_ordered `{MapOrder} g h r : nestable g → (∀ p c, c ∈ children g p → nested h p c) →
  (∀ v, is_Some (g_nodes g !! v) → (∀ c, c ∉ children g v) → g_nodes h !! v = g_nodes g !! v) → ranks_fit h r →
  ∀ n v d, at_depth g v d → (tree_bound g < n + d)%nat → is_Some (g_nodes g !! v) → r (child_ends h v).1 ≤ r (child_ends h v).2.
Proof.
  intros N Hn Hl Hr. induction n as [|n IH]; intros v d Hd Hf Hv; [pose proof (depth_bound g (ns_wf _ N) v d Hd); lia|].
  destruct (children g v) as [|c cs] eqn:E.
  - destruct Hv as [m Hm]. destruct (ns_plain _ N v m Hm) as (_ & Et & Eb). unfold child_ends, node.
    rewrite Hl, Hm, Et, Eb; [done|by eexists|]. intros c. rewrite E. apply not_elem_of_nil.
  - assert (Hc : c ∈ children g v) by (rewrite E; by left). destruct (Hn v c Hc) as (m & t & b & Hm & Et & Eb & T1 & T2).
    destruct (ns_kids _ N c v (children_parent g (ns_wf _ N) c v Hc)) as [Sc _].
    pose proof (IH c (S d) (depth_child g v c d Hd Hc) ltac:(lia) Sc). apply (tied_lt h r _ _ Hr) in T1, T2.
    assert (Ev : child_ends h v = (t, b)) by (unfold child_ends, node; by rewrite Hm, Et, Eb). rewrite Ev. cbn [fst snd]. lia.
Qed.

(** C16: Putting in borders never fails, and whatever ranks are then found that
    every edge is long enough for, each child of a subgraph, a subgraph itself or
    not, lies strictly between the top and the bottom of its parent. *)
Theorem nesting_contains `{MapOrder} g : nestable g →
  ∃ g', run g = Done g' ∧ ∀ p c, c ∈ children g p →
    ∃ n top bottom, node g' p = Some n ∧ n_border_top n = Some top ∧ n_border_bottom n = Some bottom ∧
      ∀ r, ranks_fit g' r → r top < r (child_ends g' c).1 ≤ r (child_ends g' c).2 ∧ r (child_ends g' c).2 < r bottom.
Proof.
  intros N. destruct (run_ok g N) as (h & E & Hn & Hl). exists h. split; [done|]. intros p c Hc.
  destruct (Hn p c Hc) as (n & t & b & Hp & Et & Eb & T1 & T2). exists n, t, b. split_and!; [done..|]. intros r Hr.
  destruct (ns_kids _ N c p (children_parent g (ns_wf _ N) c p Hc)) as [Sc _]. destruct (ns_rooted _ N c Sc) as (d & Hd).
  pose proof (ends_ordered g h r N Hn Hl Hr (S (tree_bound g)) c d Hd ltac:(lia) Sc). apply (tied_lt h r _ _ Hr) in T1, T2. lia.
Qed.

(** A subgraph in a subgraph, with a node beside it. *)
Definition nest : DagreGraph :=
  graph_of [SetParent "inner" "outer"; SetParent "b" "inner"; SetParent "c" "inner"; SetParent "a" "outer";
            SetEdge "a" "b" EdgeLabel_default; SetEdge "c" "d" EdgeLabel_default].
Lemma nestable_check g : wf g → is_compound g = true →
  map_Forall (λ v n, n_dummy n ≠ Some "border" ∧ n_border_top n = None ∧ n_border_bottom n = None ∧ String.get 0 v ≠ Some "_"%char) (g_nodes g) →
  map_Forall (λ c p, is_Some (g_nodes g !! c) ∧ is_Some (g_nodes g !! p)) (g_parent g) →
  (∀ v, v ∈ nodes g → ∃ d, at_depth g v d) → Z.of_nat (tree_bound g) ≤ 2 ^ 29 → nestable g.
Proof.
  intros W C Hn Hp Hd Hs. split; [done..| | |by intros v Hv%nodes_elem; apply Hd| |done].
  - intros v n Hv. destruct (Hn v n Hv) as (? & ? & ? & _). auto.
  - intros c p. apply Hp.
  - intros pre n Hpre _. apply eq_None_not_Some. intros [m Hm]. destruct (Hn _ _ Hm) as (_ & _ & _ & Hc). apply Hc.
    unfold nesting_names in Hpre. by repeat (apply elem_of_cons in Hpre as [->|Hpre]; [reflexivity|]); apply elem_of_nil in Hpre.
Qed.
Lemma nest_nestable : nestable nest.
Proof.
  assert (H2 : at_depth nest "outer" 1) by (apply depth_root; apply (bool_decide_unpack _); vm_compute; exact I).
  assert (H1 : at_depth nest "inner" 2) by (apply (depth_child _ "outer"); [done|apply (bool_decide_unpack _); vm_compute; exact I]).
  apply nestable_check; [apply wf_graph_of|vm_compute; reflexivity|apply (bool_decide_unpack _); vm_compute; exact I..| |vm_compute; discriminate].
  assert (E : nodes nest = ["a"; "b"; "c"; "d"; "inner"; "outer"]) by (vm_compute; reflexivity).
  apply (Forall_forall (λ v, ∃ d, at_depth nest v d)). rewrite E. repeat (apply Forall_cons; split); [..|by apply Forall_nil].
  - exists 2%nat. apply (depth_child _ "outer"); [done|apply (bool_decide_unpack _); vm_compute; exact I].
  - exists 3%nat. apply (depth_child _ "inner"); [done|apply (bool_decide_unpack _); vm_compute; exact I].
  - exists 3%nat. apply (depth_child _ "inner"); [done|apply (bool_decide_unpack _); vm_compute; exact I].
  - exists 1%nat. apply depth_root; apply (bool_decide_unpack _); vm_compute; exact I.
  - by exists 2%nat.
  - by exists 1%nat.
Qed.
Lemma nesting_contains_witness :
  ∃ g', @run list_order nest = Done g' ∧ ∀ p c, c ∈ children nest p →
    ∃ n top bottom, node g' p = Some n ∧ n_border_top n = Some top ∧ n_border_bottom n = Some bottom ∧
      ∀ r, ranks_fit g' r → r top < r (child_ends g' c).1 ≤ r (child_ends g' c).2 ∧ r (child_ends g' c).2 < r bottom.
Proof. exact (@nesting_contains list_order nest nest_nestable). Defined.

(** * Borders at every rank

    A subgraph that spans the ranks from [min] to [max] gets a node on its left
    and one on its right at each of them, and each of these is joined to the one
    on the rank above. *)
From S2P Require Import Compound.

(** A graph that can take border nodes: their names are not in use, and parents
    and their children are nodes. *)
Record ready (h : DagreGraph) : Prop := {
  rd_wf : wf h;
  rd_kids c p : g_parent h !! c = Some p → is_Some (g_nodes h !! c) ∧ is_Some (g_nodes h !! p);
  rd_fresh s n : (g_edge_counter h < n)%N → g_nodes h !! counter_name (side_prefix s) n = None
}.
(** Outside of [P] nothing that was there changes. *)
Record grown (P : string → Prop) (h h' : DagreGraph) : Prop := {
  gr_ready : ready h';
  gr_kept u : is_Some (g_nodes h !! u) → is_Some (g_nodes h' !! u);
  gr_nodes u : is_Some (g_nodes h !! u) → ¬ P u → g_nodes h' !! u = g_nodes h !! u;
  gr_children u : is_Some (g_nodes h !! u) → ¬ P u → children h' u = children h u;
  gr_parent u : is_Some (g_nodes h !! u) → g_parent h' !! u = g_parent h !! u;
  gr_edges k : is_Some (g_edges h !! k) → g_edges h' !! k = g_edges h !! k
}.
Lemma grown_none P h : ready h → grown P h h.
Proof. by split. Qed.
Lemma grown_then (P Q PQ : string → Prop) a b c : grown P a b → grown Q b c → (∀ u, PQ u ↔ P u ∨ Q u) → grown PQ a c.
Proof.
  intros [R1 K1 N1 C1 P1 E1] [R2 K2 N2 C2 P2 E2] HPQ. split; [done|by auto| | | |].
  - intros u Hu Hn. rewrite HPQ in Hn. rewrite N2; [apply N1; tauto|by apply K1|tauto].
  - intros u Hu Hn. rewrite HPQ in Hn. rewrite C2; [apply C1; tauto|by apply K1|tauto].
  - intros u Hu. rewrite P2; [by apply P1|by apply K1].
  - intros k Hk. rewrite E2; [by apply E1|]. by rewrite E1.
Qed.

(** ** One node *)

#[export] Instance side_eq_dec : EqDecision Side.
Proof. solve_decision. Defined.
(** The place of a rank in a list that begins with [min]. *)
Definition slot_of (min r : Z) : nat := Z.to_nat (r - min).
(** The border of [v] on one side at one rank. *)
Definition slot (h : DagreGraph) (v : string) (n : NodeLabel) (min : Z) (s : Side) (r : Z) : Prop :=
  ∃ id, side_list s n !! slot_of min r = Some (Some id) ∧ g_nodes h !! id = Some (border_label s r) ∧ g_parent h !! id = Some v ∧
    (min < r → ∃ prev, side_list s n !! slot_of min (r - 1) = Some (Some prev) ∧ is_Some (g_edges h !! EdgeKey_new prev id)).
Record filled (v : string) (min : Z) (len : nat) (D : list (Side * Z)) (h : DagreGraph) (n : NodeLabel) : Prop := {
  fi_node : g_nodes h !! v = Some n;
  fi_min : n_min_rank n = Some min;
  fi_length s : length (side_list s n) = len;
  fi_slots s r : (s, r) ∈ D → min ≤ r ∧ slot h v n min s r
}.
Lemma slot_grown P h h' v n min s r : grown P h h' → (∀ u l, P u → g_nodes h !! u = Some l → n_border_type l = None) → slot h v n min s r → slot h' v n min s r.
Proof.
  intros G HP (id & Hs & Hi & Hp & Hr). exists id. assert (Si : is_Some (g_nodes h !! id)) by (by rewrite Hi).
  assert (Hid : ¬ P id). { intros HPi. specialize (HP id _ HPi Hi). by destruct s. }
  split_and!; [done|by rewrite (gr_nodes _ _ _ G)|by rewrite (gr_parent _ _ _ G)|].
  intros Hlt. destruct (Hr Hlt) as (prev & Hprev & He). exists prev. split; [done|]. by rewrite (gr_edges _ _ _ G).
Qed.
Lemma side_set s s' l n : side_list s' (set_side s l n) = if decide (s = s') then l else side_list s' n.
Proof. destruct s, s'; by case_decide. Qed.

(** A new node below [v]. *)
Lemma new_node_ok s v r h : ready h → is_Some (g_nodes h !! v) →
  let id := (unique_id (side_prefix s) h).1 in
  let h' := set_parent id v (set_node id (border_label s r) (unique_id (side_prefix s) h).2) in
  grown (eq v) h h' ∧ g_nodes h !! id = None ∧ (∀ u, g_nodes h' !! u = if decide (u = id) then Some (border_label s r) else g_nodes h !! u) ∧
  g_parent h' !! id = Some v ∧ g_edges h' = g_edges h.
Proof.
  intros R Hv id h'. set (h1 := set_node id _ _) in h'. assert (Hid : g_nodes h !! id = None) by (apply (rd_fresh _ R); lia).
  assert (Hne : v ≠ id) by (intros ->; rewrite Hid in Hv; by destruct Hv).
  assert (W1 : wf h1) by (by apply wf_set_node, wf_unique_id, R).
  assert (Hn1 : ∀ u, g_nodes h1 !! u = if decide (u = id) then Some (border_label s r) else g_nodes h !! u).
  { intros u. unfold h1. rewrite set_node_nodes. case_decide as E; [rewrite E; apply lookup_insert_eq|by apply lookup_insert_ne]. }
  pose proof (set_node_rest id (border_label s r) (unique_id (side_prefix s) h).2) as Hs. fold h1 in Hs.
  assert (Hp1 : g_parent h1 = g_parent h) by exact (rest_parent _ _ Hs). assert (Hc1 : g_children h1 = g_children h) by exact (rest_children _ _ Hs).
  assert (Hk1 : g_edge_counter h1 = (g_edge_counter h + 1)%N) by exact (rest_counter _ _ Hs).
  assert (Hpar : g_parent h !! id = None).
  { apply eq_None_not_Some. intros [p Hp]. destruct (rd_kids _ R _ _ Hp) as [Hsome _]. rewrite Hid in Hsome. by destruct Hsome. }
  destruct (set_parent_same id v h1) as (En & Ee & Ek & Ep & _).
  { rewrite Hn1, decide_True by done. by eexists. } { by rewrite Hn1, decide_False. } { by rewrite Hp1. }
  fold h' in En, Ee, Ek, Ep. rewrite Hp1 in Ep.
  assert (Hkept : ∀ u, is_Some (g_nodes h !! u) → u ≠ id) by (intros u Hu ->; rewrite Hid in Hu; by destruct Hu).
  assert (Hee : g_edges h' = g_edges h) by (rewrite Ee; unfold h1; by rewrite set_node_edges).
  split_and!; [|done|by rewrite En|by rewrite Ep, lookup_insert_eq|done]. split.
  - split; [by apply wf_set_parent| |].
    + intros c p. rewrite Ep, En, !Hn1. intros Hcp. destruct (decide (c = id)) as [->|Hc].
      * rewrite lookup_insert_eq in Hcp. injection Hcp as <-. rewrite decide_False by done. split; [by eexists|done].
      * rewrite lookup_insert_ne in Hcp by done. destruct (rd_kids _ R _ _ Hcp) as [Hsc Hsp]. rewrite decide_False by (by apply Hkept). done.
    + intros s' n. rewrite Ek, Hk1, En, Hn1. intros Hn. case_decide as Hd; [|apply (rd_fresh _ R); lia]. exfalso. unfold id in Hd. cbn [unique_id fst] in Hd.
      destruct s, s'; try (unfold counter_name in Hd; cbn in Hd; congruence); apply counter_name_inj in Hd; lia.
  - intros u Hu. rewrite En, Hn1. case_decide; [by eexists|done].
  - intros u Hu _. by rewrite En, Hn1, decide_False by (by apply Hkept).
  - intros u Hu Huv. unfold children. f_equal. f_equal. unfold h', set_parent. rewrite (ensure_node_same id), (ensure_node_same v).
    + rewrite Hp1, Hpar. cbn [g_children]. rewrite lookup_insert_ne by done. by rewrite Hc1.
    + rewrite Hn1, decide_False by done. done.
    + rewrite Hn1, decide_True by done. by eexists.
  - intros u Hu. rewrite Ep, lookup_insert_ne; [done|]. intros <-. rewrite Hid in Hu. by destruct Hu.
  - intros k _. by rewrite Hee.
Qed.

Lemma slot_of_inj min a b : min ≤ a → min ≤ b → slot_of min a = slot_of min b → a = b.
Proof. unfold slot_of. lia. Qed.
Lemma index_ok h v n min r : g_nodes h !! v = Some n → n_min_rank n = Some min → min ≤ r → is_i32 (r - min) →
  border_index h v r = slot_of min r.
Proof.
  intros Hn Hm Hr Hi. unfold border_index, node. rewrite Hn. cbn. rewrite Hm. cbn. rewrite i32_wrap_small by done. unfold slot_of.
  rewrite Z.mod_small; [done|]. unfold is_i32, i32_max in Hi. lia.
Qed.
Lemma relabel_grown f v h : ready h → grown (eq v) h (node_mut f v h).
Proof.
  intros [W K F]. pose proof (node_mut_lookup f v h) as Hl.
  assert (Hsome : ∀ u, is_Some (g_nodes h !! u) → is_Some (g_nodes (node_mut f v h) !! u)).
  { intros u. rewrite Hl. case_decide; [by rewrite fmap_is_Some|done]. }
  split; [split|done| |done|done|done].
  - apply (wf_same_shape h); [apply node_mut_shape|done].
  - intros c p Hp. destruct (K c p Hp). auto.
  - intros s n Hn. rewrite Hl, (F s n Hn). by case_decide.
  - intros u _ Hu. rewrite Hl, decide_False; [done|]. intros ->. by apply Hu.
Qed.
Lemma edge_grown P a b l h : ready h → is_Some (g_nodes h !! a) → is_Some (g_nodes h !! b) → g_edges h !! EdgeKey_new a b = None →
  ∃ h', set_edge a b l h = Done h' ∧ grown P h h' ∧ g_nodes h' = g_nodes h ∧ g_parent h' = g_parent h ∧ is_Some (g_edges h' !! EdgeKey_new a b).
Proof.
  intros [W K F] Ha Hb He. destruct (set_edge_key_linked (EdgeKey_new a b) l h W Ha Hb) as (h' & E & W' & [Hn Hed _ _ Hr]).
  exists h'. split; [exact E|]. pose proof (rest_parent _ _ Hr) as Ep. pose proof (rest_children _ _ Hr) as Ec. pose proof (rest_counter _ _ Hr) as Ek.
  split_and!; [|done|done|rewrite Hed, lookup_insert_eq; by eexists].
  split; [split; [done|by rewrite Ep, Hn|by rewrite Ek, Hn]|by rewrite Hn|by rewrite Hn| |by rewrite Ep|].
  - intros u _ _. unfold children. by rewrite Ec.
  - intros k Hk. rewrite Hed, lookup_insert_ne; [done|]. intros <-. rewrite He in Hk. by destruct Hk.
Qed.
Lemma slot_insert h v n min s r x s' r' : slot h v n min s' r' → min ≤ r' → min ≤ r → (s = s' → r' < r) →
  slot h v (set_side s (<[slot_of min r := x]> (side_list s n)) n) min s' r'.
Proof.
  intros (id & Hs & Hi & Hp & Hr) Hm' Hm Hlt. exists id. rewrite side_set.
  destruct (decide (s = s')) as [<-|Hne]; [|done]. specialize (Hlt eq_refl).
  rewrite list_lookup_insert_ne by (unfold slot_of; lia). split_and!; [done..|]. intros Hmr. rewrite list_lookup_insert_ne by (unfold slot_of; lia). by apply Hr.
Qed.
Lemma add_border_ok v min len D s r h n : ready h → filled v min len D h n → min ≤ r → is_i32 (r - min) → (slot_of min r < len)%nat →
  (∀ r', (s, r') ∈ D → r' < r) → (min < r → (s, r - 1) ∈ D) → n_border_type n = None →
  ∃ h' n', add_border_node s v r h = Done h' ∧ grown (eq v) h h' ∧ filled v min len ((s, r) :: D) h' n' ∧ n_border_type n' = n_border_type n.
Proof.
  intros R [Hn Hmin Hlen Hs] Hr Hi Hlt Hfresh Hprev Hd. assert (Hv : is_Some (g_nodes h !! v)) by (by rewrite Hn).
  destruct (new_node_ok s v r h R Hv) as (G1 & Hid & N1 & Pid & E1). unfold add_border_node. rewrite (surjective_pairing (unique_id (side_prefix s) h)).
  set (id := (unique_id (side_prefix s) h).1) in *. set (h1 := set_parent id v _) in *.
  assert (Hvid : v ≠ id) by (intros Hvi; rewrite Hvi in Hn; congruence). assert (Hn1 : g_nodes h1 !! v = Some n) by (by rewrite N1, decide_False).
  rewrite (index_ok h1 v n min r Hn1 Hmin Hr Hi). unfold node. rewrite Hn1. cbn [mbind option_bind].
  set (f := λ n, set_side s _ n). set (n' := f n). set (h2 := node_mut f v h1).
  assert (G2 : grown (eq v) h h2).
  { eapply grown_then; [exact G1|apply relabel_grown, G1|]. tauto. }
  assert (N2 : ∀ u, g_nodes h2 !! u = if decide (u = v) then Some n' else g_nodes h1 !! u).
  { intros u. unfold h2. rewrite node_mut_lookup. case_decide as Hu; [by rewrite Hu, Hn1|done]. }
  assert (Hlen' : ∀ s', length (side_list s' n') = len).
  { intros s'. unfold n', f. rewrite side_set. case_decide as Hss; [rewrite length_insert|]; apply Hlen. }
  assert (Hfill : ∀ h3, grown (eq v) h h3 → g_nodes h3 = g_nodes h2 → g_parent h3 = g_parent h2 →
    (min < r → ∃ prev, side_list s n !! slot_of min (r - 1) = Some (Some prev) ∧ is_Some (g_edges h3 !! EdgeKey_new prev id)) →
    filled v min len ((s, r) :: D) h3 n').
  { intros h3 G3 En Ep Hp. split; [by rewrite En, N2, decide_True|by destruct s|done|]. intros s' r' [[= -> ->]|Hin]%elem_of_cons.
    - split; [done|]. exists id. unfold n', f. rewrite side_set, decide_True by done. split_and!.
      + apply list_lookup_insert_eq. by rewrite Hlen.
      + by rewrite En, N2, decide_False, N1, decide_True.
      + by rewrite Ep.
      + intros Hmr. rewrite list_lookup_insert_ne by (unfold slot_of; lia). by apply Hp.
    - destruct (Hs s' r' Hin) as [Hm' Hsl]. split; [done|]. apply slot_insert; [|done|done|intros <-; by apply Hfresh].
      eapply slot_grown; [exact G3| |done]. intros u l <-. rewrite Hn. by intros [= <-]. }
  assert (Hdd : n_border_type n' = n_border_type n) by (by destruct s).
  destruct (decide (min < r)) as [Hmr|Hmr].
  - destruct (Hs s (r - 1) (Hprev Hmr)) as [_ (prev & Hpl & Hpn & _)].
    replace (0 <? slot_of min r)%nat with true by (symmetry; apply Nat.ltb_lt; unfold slot_of; lia).
    replace (slot_of min r - 1)%nat with (slot_of min (r - 1)) by (unfold slot_of; lia). rewrite Hpl. cbn [mjoin option_join].
    destruct (edge_grown (eq v) prev id (set_e_weight 1 EdgeLabel_default) h2) as (h3 & -> & G3 & En & Ep & He).
    + apply G2.
    + apply (gr_kept _ _ _ G2). by rewrite Hpn.
    + rewrite N2, decide_False, N1, decide_True by done. by eexists.
    + change (g_edges h2) with (g_edges h1). rewrite E1. apply eq_None_not_Some. intros He%(edge_ends _ _ (rd_wf _ R)).
      destruct He as [_ He]. change (is_Some (g_nodes h !! id)) in He. rewrite Hid in He. by destruct He.
    + exists h3, n'. assert (G3' : grown (eq v) h h3) by (eapply grown_then; [exact G2|exact G3|tauto]). split_and!; [done|done| |done].
      apply Hfill; [done..|]. intros _. by exists prev.
  - replace (0 <? slot_of min r)%nat with false by (symmetry; apply Nat.ltb_ge; unfold slot_of; lia).
    exists h2, n'. split_and!; [done|done| |done]. apply Hfill; [done..|lia].
Qed.

(** ** A subgraph *)

(** Of one subgraph: a border on either side at each of its ranks, in order. *)
Definition segmented (h : DagreGraph) (v : string) (min max : Z) : Prop :=
  ∃ n, g_nodes h !! v = Some n ∧ ∀ s r, min ≤ r ≤ max → slot h v n min s r.
Definition both (l : list Z) : list (Side * Z) := l ≫= (λ r, [(BorderRight, r); (BorderLeft, r)]).
Lemma both_elem s r l : (s, r) ∈ both l ↔ r ∈ l.
Proof.
  unfold both. rewrite list_elem_of_bind. split.
  - intros (x & Hx & Hin). by repeat (apply elem_of_cons in Hx as [[= -> ->]|Hx]); [..|apply elem_of_nil in Hx].
  - intros Hr. exists r. split; [destruct s; set_solver|done].
Qed.
Lemma filled_same v min len D D' h n : (∀ s r, (s, r) ∈ D' → (s, r) ∈ D) → filled v min len D h n → filled v min len D' h n.
Proof. intros HD [? ? ? Hs]. split; [done..|]. auto. Qed.
Lemma border_rank_ok v min len pre r h n : ready h → filled v min len (both pre) h n → min ≤ r → is_i32 (r - min) → (slot_of min r < len)%nat →
  (∀ r', r' ∈ pre → r' < r) → (min < r → r - 1 ∈ pre) → n_border_type n = None →
  ∃ h' n', border_rank v r h = Done h' ∧ grown (eq v) h h' ∧ filled v min len (both (pre ++ [r])) h' n' ∧ n_border_type n' = n_border_type n.
Proof.
  intros R F Hr Hi Hlt Hpre Hprev Hd. unfold border_rank.
  destruct (add_border_ok v min len (both pre) BorderLeft r h n R F Hr Hi Hlt) as (h1 & n1 & -> & G1 & F1 & D1);
    [by intros r' ?%both_elem; apply Hpre|by intros ?; apply both_elem, Hprev|done|]. rewrite bind_done.
  destruct (add_border_ok v min len _ BorderRight r h1 n1 (gr_ready _ _ _ G1) F1 Hr Hi Hlt) as (h2 & n2 & -> & G2 & F2 & D2).
  - intros r' [?|?%both_elem]%elem_of_cons; [done|by apply Hpre].
  - intros ?. right. by apply both_elem, Hprev.
  - congruence.
  - exists h2, n2. split_and!; [done|eapply grown_then; [exact G1|exact G2|tauto]| |congruence].
    eapply filled_same; [|exact F2]. intros s r' [Hin| ->%list_elem_of_singleton]%both_elem%elem_of_app.
    + right; right. by apply both_elem.
    + destruct s; [right; by left|by left].
Qed.
Lemma slots_enough min max : min ≤ max → max - min + 1 ≤ i32_max →
  ∃ len, border_slots min max = Done len ∧ ∀ r, min ≤ r ≤ max → (slot_of min r < len)%nat.
Proof.
  intros Hle Hmax. unfold border_slots. rewrite (i32_wrap_small (max - min)) by (unfold is_i32, i32_min, i32_max in *; lia).
  rewrite (i32_wrap_small (max - min + 1)) by (unfold is_i32, i32_min, i32_max in *; lia). unfold i32_max in Hmax.
  rewrite Z.mod_small by lia. unfold u64_wrap. rewrite Z.mod_small by lia.
  destruct (Z.ltb_spec (2 ^ 63 - 1) (24 * (max - min + 1 + 1))) as [Hb|_]; [lia|]. eexists. split; [done|]. intros r Hr. unfold slot_of. lia.
Qed.
Lemma seqZ_split m len pre x post : seqZ m len = pre ++ x :: post → x = m + Z.of_nat (length pre) ∧ ∀ y, y ∈ pre ↔ m ≤ y < x.
Proof.
  intros E. assert (Hx : x = m + Z.of_nat (length pre)).
  { assert (H : seqZ m len !! length pre = Some x) by (rewrite E; by apply list_lookup_middle). by apply lookup_seqZ in H as [-> _]. }
  split; [done|]. intros y. rewrite list_elem_of_lookup. split.
  - intros [i Hi]. pose proof (lookup_lt_Some _ _ _ Hi). assert (H' : seqZ m len !! i = Some y) by (rewrite E; by apply lookup_app_l_Some).
    apply lookup_seqZ in H' as [-> _]. lia.
  - intros Hy. exists (Z.to_nat (y - m)). assert (Hlt : (Z.to_nat (y - m) < length pre)%nat) by lia.
    rewrite <- (lookup_app_l pre (x :: post)), <- E by done. apply lookup_seqZ.
    assert (Hlen : length (seqZ m len) = (length pre + S (length post))%nat) by (rewrite E, length_app; done). rewrite length_seqZ in Hlen. lia.
Qed.
Lemma add_segments_ok v h n min max : ready h → g_nodes h !! v = Some n → n_min_rank n = Some min → n_max_rank n = Some max →
  min ≤ max → max - min + 1 ≤ i32_max → n_border_type n = None →
  ∃ h', add_segments v h = Done h' ∧ grown (eq v) h h' ∧ segmented h' v min max.
Proof.
  intros R Hn Hmin Hmax Hle Hsmall Hd. unfold add_segments, node. rewrite Hn. cbn [mbind option_bind]. rewrite Hmin. cbn [mbind option_bind]. rewrite Hmax. cbn [mbind option_bind].
  destruct (slots_enough min max Hle Hsmall) as (len & -> & Hlen). rewrite bind_done. set (h0 := node_mut (clear_borders len) v h).
  assert (G0 : grown (eq v) h h0) by (by apply relabel_grown).
  destruct (fold_outcome_inv (λ pre h1, grown (eq v) h h1 ∧ ∃ n1, filled v min len (both pre) h1 n1 ∧ n_border_type n1 = None) (border_rank v) (rank_range min max) h0)
    as (h' & E & G & n' & F & _).
  - split; [done|]. exists (clear_borders len n). split; [|done]. split; [|done| |by intros s r ?%elem_of_nil].
    + unfold h0. by rewrite node_mut_lookup, decide_True, Hn.
    + intros []; apply length_replicate.
  - intros pre r post h1 Ep (G1 & n1 & F1 & D1). unfold rank_range in Ep. destruct (seqZ_split _ _ _ _ _ Ep) as [Er Hpre].
    assert (Hr : min ≤ r ≤ max).
    { assert (H : r ∈ seqZ min (max - min + 1)) by (rewrite Ep; apply elem_of_app; right; by left). apply elem_of_seqZ in H. lia. }
    destruct (border_rank_ok v min len pre r h1 n1 (gr_ready _ _ _ G1) F1) as (h2 & n2 & -> & G2 & F2 & D2).
    + lia.
    + unfold is_i32, i32_min, i32_max in *. lia.
    + by apply Hlen.
    + intros r' Hr'%Hpre. lia.
    + intros Hmr. apply Hpre. lia.
    + done.
    + exists h2. split; [done|]. split; [eapply grown_then; [exact G1|exact G2|tauto]|]. exists n2. by rewrite D2.
  - exists h'. split; [exact E|]. split; [done|]. exists n'. split; [apply F|]. intros s r Hr. apply (fi_slots _ _ _ _ _ _ F).
    apply both_elem. unfold rank_range. apply elem_of_seqZ. lia.
Qed.

(** ** The tree of subgraphs *)

Section segments.
#[local] Set Default Proof Using "Type".
Context (g0 : DagreGraph) (R0 : ready g0).
Context (Hplain : ∀ v n, g_nodes g0 !! v = Some n → n_border_type n = None).
Context (Hspan : ∀ v n min max, g_nodes g0 !! v = Some n → n_min_rank n = Some min → n_max_rank n = Some max → min ≤ max ∧ max - min + 1 ≤ i32_max).
Lemma spans_wf : wf g0.
Proof using R0. apply R0. Qed.
(** A node as it was in the beginning. *)
Definition untouched (h : DagreGraph) (u : string) : Prop :=
  is_Some (g_nodes g0 !! u) ∧ g_nodes h !! u = g_nodes g0 !! u ∧ children h u = children g0 u.
Record segments (P : string → Prop) (h h' : DagreGraph) : Prop := {
  sg_grown : grown P h h';
  sg_all u : is_Some (g_nodes g0 !! u) → is_Some (g_nodes h !! u);
  sg_old u : P u → untouched h u;
  sg_done u n min max : P u → g_nodes g0 !! u = Some n → n_min_rank n = Some min → n_max_rank n = Some max → segmented h' u min max
}.
Lemma untouched_grown P h h' u : grown P h h' → is_Some (g_nodes h !! u) → ¬ P u → untouched h' u ↔ untouched h u.
Proof. intros G Hh HP. unfold untouched. by rewrite (gr_nodes _ _ _ G u Hh HP), (gr_children _ _ _ G u Hh HP). Qed.
Lemma segments_then (P Q PQ : string → Prop) a b c : segments P a b → segments Q b c → (∀ u, PQ u ↔ P u ∨ Q u) → (∀ u, P u → ¬ Q u) → segments PQ a c.
Proof using Hplain.
  intros [G1 A1 O1 D1] [G2 A2 O2 D2] HPQ Hap. split; [by eapply grown_then|done| |].
  - intros u [Hu|Hu]%HPQ; [by apply O1|]. pose proof (O2 u Hu) as Ub. apply (untouched_grown P a b); [done|by apply A1, Ub| |done]. intros HP. by apply (Hap u).
  - intros u n min max [Hu|Hu]%HPQ En Emin Emax; [|by apply (D2 u n)].
    destruct (D1 u n min max Hu En Emin Emax) as (n' & Hn' & Hsl). exists n'. split.
    + rewrite (gr_nodes _ _ _ G2); [done|by rewrite Hn'|by apply Hap].
    + intros s r Hr. apply (slot_grown Q b); [done| |by apply Hsl]. intros x l Hx Hl. destruct (O2 x Hx) as (_ & E & _). rewrite E in Hl. by apply (Hplain x).
Qed.
Lemma own_segments v h : ready h → (∀ u, is_Some (g_nodes g0 !! u) → is_Some (g_nodes h !! u)) → untouched h v → ∃ h', add_segments v h = Done h' ∧ segments (eq v) h h'.
Proof using Hplain Hspan.
  intros R A U. pose proof U as ([n Hn] & Eh & _). rewrite Hn in Eh.
  assert (Hno : add_segments v h = Done h → (∀ min max, n_min_rank n = Some min → n_max_rank n = Some max → False) → ∃ h', add_segments v h = Done h' ∧ segments (eq v) h h').
  { intros E Hno. exists h. split; [done|]. split; [by apply grown_none|done|by intros u <-|]. intros u n' min max <- En Emin Emax.
    exfalso. apply (Hno min max); congruence. }
  destruct (n_min_rank n) as [min|] eqn:Emin, (n_max_rank n) as [max|] eqn:Emax;
    [|apply Hno; [unfold add_segments, node; rewrite Eh; cbn [mbind option_bind]; by rewrite Emin, ?Emax|done]..].
  destruct (Hspan v n min max Hn Emin Emax) as [Hle Hsm].
  destruct (add_segments_ok v h n min max R Eh Emin Emax Hle Hsm (Hplain v n Hn)) as (h' & E & G & Sg). exists h'. split; [exact E|].
  split; [done|done|by intros u <-|]. intros u n' min' max' <- En' Emin' Emax'. simplify_eq. done.
Qed.
Lemma segments_fold f d l h : NoDup l → (∀ c, c ∈ l → at_depth g0 c d) → ready h → (∀ u, is_Some (g_nodes g0 !! u) → is_Some (g_nodes h !! u)) →
  (∀ u, below_some g0 l u → untouched h u) →
  (∀ c h', c ∈ l → ready h' → (∀ u, is_Some (g_nodes g0 !! u) → is_Some (g_nodes h' !! u)) → (∀ u, below g0 c u → untouched h' u) →
    ∃ h'', f c h' = Done h'' ∧ segments (below g0 c) h' h'') →
  ∃ h' : DagreGraph, fold_outcome f l h = (Done h' : panics DagreGraph) ∧ segments (below_some g0 l) h h'.
Proof using R0 Hplain.
  intros Hnd Hl R A U Hf. apply (siblings_fold g0 spans_wf segments f d l h Hnd Hl).
  - intros P HP. split; [by apply grown_none|done|by intros u ?%HP|by intros u n min max ?%HP].
  - intros P Q PQ a b c S1 S2 HPQ Hap. apply (segments_then P Q PQ a b c); [done..|]. intros u HP HQ. destruct (Hap u u HP HQ) as [Hb _]. apply Hb, rtc_refl.
  - intros P c h' Hc [G _ _ _] Hap. apply Hf; [done|apply G|intros u Hu; by apply (gr_kept _ _ _ G), A|].
    intros u Hu. assert (Uu : untouched h u) by (apply U; by exists c). apply (untouched_grown P h); [done|apply A, Uu|by apply Hap|done].
Qed.
Lemma segments_dfs_ok fuel : ∀ v d h, at_depth g0 v d → (tree_bound g0 < fuel + d)%nat → ready h →
  (∀ u, is_Some (g_nodes g0 !! u) → is_Some (g_nodes h !! u)) → (∀ u, below g0 v u → untouched h u) →
  ∃ h', segments_dfs fuel v h = Done h' ∧ segments (below g0 v) h h'.
Proof using R0 Hplain Hspan.
  induction fuel as [|fuel IH]; intros v d h Hd Hf R A U; [pose proof (depth_bound g0 spans_wf v d Hd); lia|]. cbn [segments_dfs].
  assert (Uv : untouched h v) by apply U, rtc_refl. pose proof Uv as (_ & _ & ->).
  destruct (segments_fold (segments_dfs fuel) (S d) (children g0 v) h) as (h1 & -> & S1).
  - unfold children, sort_strings. apply sort_by_nodup, NoDup_elements.
  - intros c Hc. by apply (depth_child g0 v).
  - done.
  - done.
  - intros u Hu. apply U, below_children. by right.
  - intros c h' Hc R' A' U'. apply (IH c (S d)); [by apply (depth_child g0 v)|lia|done..].
  - rewrite bind_done. assert (Hv : ¬ below_some g0 (children g0 v) v).
    { intros Hb. apply (children_not_above g0 spans_wf v d v Hd Hb), rtc_refl. }
    destruct (own_segments v h1) as (h2 & E & S2).
    + apply S1.
    + intros u Hu. by apply (gr_kept _ _ _ (sg_grown _ _ _ S1)), A.
    + apply (untouched_grown (below_some g0 (children g0 v)) h); [apply S1|apply A, Uv|done|done].
    + exists h2. split; [exact E|]. apply (segments_then (below_some g0 (children g0 v)) (eq v) _ h h1 h2 S1 S2); [|by intros u Hu <-].
      intros u. rewrite below_children. split; (intros [?|?]; [by right|by left]).
Qed.
End segments.

(** ** The whole *)

(** Parents lead up to nodes without one, no node is a border yet, and subgraphs
    span ranks from the lower to the higher. *)
Record segmentable (g : DagreGraph) : Prop := {
  sm_ready : ready g;
  sm_rooted v : is_Some (g_nodes g !! v) → ∃ d, at_depth g v d;
  sm_plain v n : g_nodes g !! v = Some n → n_border_type n = None;
  sm_span v n min max : g_nodes g !! v = Some n → n_min_rank n = Some min → n_max_rank n = Some max → min ≤ max ∧ max - min + 1 ≤ i32_max
}.

Lemma depth_node g v d : ready g → at_depth g v d → is_Some (g_nodes g !! v).
Proof.
  intros [W K _]. destruct 1 as [v Hv|p c d _ Hc]; [by apply root_parent|]. apply (K c p). by apply children_parent.
Qed.
(** C17: every subgraph gets borders at each of its ranks.
    Adding border segments does not fail, and changes no edge that was there.
    Afterwards, where a node had a lowest and a highest rank, each of its lists of
    borders has at the place of each rank between them a node of that rank, with
    the label of a border of that side and the node as its parent, and an edge
    leads to it from the border one rank above. *)
Theorem border_segments g : segmentable g →
  ∃ g', add_border_segments g = Done g' ∧ (∀ k, is_Some (g_edges g !! k) → g_edges g' !! k = g_edges g !! k) ∧
    ∀ v n min max, node g v = Some n → n_min_rank n = Some min → n_max_rank n = Some max →
      ∃ n', node g' v = Some n' ∧ ∀ s r, min ≤ r ≤ max →
        ∃ id, side_list s n' !! Z.to_nat (r - min) = Some (Some id) ∧ node g' id = Some (border_label s r) ∧ parent g' id = Some v ∧
          (min < r → ∃ prev, side_list s n' !! Z.to_nat (r - 1 - min) = Some (Some prev) ∧ is_Some (g_edges g' !! EdgeKey_new prev id)).
Proof.
  intros [R Hr Hp Hs]. destruct (segments_fold g R Hp (segments_dfs (tree_bound g)) 1 (root_children g) g) as (g' & E & [G _ _ D]).
  - unfold root_children, sort_strings. apply sort_by_nodup, NoDup_filter, NoDup_fst_map_to_list.
  - intros c Hc. by apply depth_root.
  - done.
  - done.
  - intros u (r & Hrt & Hb). destruct (below_depth g r u 1 Hb (depth_root g r Hrt)) as (e & He & _).
    split; [by eapply depth_node|done].
  - intros c h Hc R' A' U'. apply (segments_dfs_ok g R Hp Hs (tree_bound g) c 1); [by apply depth_root|lia|done..].
  - exists g'. split; [exact E|]. split; [apply G|]. intros v n min max Hv Hmin Hmax.
    destruct (Hr v) as (d & Hd); [unfold node in Hv; rewrite Hv; by eexists|]. destruct (depth_below g v d Hd) as (r & Hrt & Hb).
    destruct (D v n min max) as (n' & Hn' & Hsl); [by exists r|done..|]. by exists n'.
Qed.

(** A subgraph over three ranks. *)
Definition spanning : DagreGraph := graph_of [SetNode "sg" (set_min_max 2 4 NodeLabel_default); SetParent "b" "sg"; SetEdge "a" "b" EdgeLabel_default].
Lemma spanning_ok : segmentable spanning.
Proof.
  assert (Hsg : at_depth spanning "sg" 1) by (apply depth_root, (bool_decide_unpack _); vm_compute; exact I).
  assert (Hn : map_Forall (λ v n, n_border_type n = None ∧ String.get 0 v ≠ Some "_"%char) (g_nodes spanning)) by (apply (bool_decide_unpack _); vm_compute; exact I).
  assert (Hk : map_Forall (λ c p, is_Some (g_nodes spanning !! c) ∧ is_Some (g_nodes spanning !! p)) (g_parent spanning)) by (apply (bool_decide_unpack _); vm_compute; exact I).
  split; [split; [apply wf_graph_of|exact Hk|]| |by intros v n Hv; apply (Hn v n Hv)|].
  - intros s n _. apply eq_None_not_Some. intros [m Hm]. destruct (Hn _ _ Hm) as [_ Hc]. by destruct s.
  - intros v Hv%nodes_elem. revert v Hv. apply (Forall_forall (λ v, ∃ d, at_depth spanning v d)).
    assert (E : nodes spanning = ["a"; "b"; "sg"]) by (vm_compute; reflexivity). rewrite E. repeat (apply Forall_cons; split); [..|by apply Forall_nil].
    + exists 1%nat. apply depth_root, (bool_decide_unpack _). vm_compute. exact I.
    + exists 2%nat. apply (depth_child _ "sg"); [done|apply (bool_decide_unpack _); vm_compute; exact I].
    + by exists 1%nat.
  - intros v n min max Hv. assert (Hs : map_Forall (λ _ n, (n_min_rank n = Some 2 ∧ n_max_rank n = Some 4) ∨ n_min_rank n = None) (g_nodes spanning))
      by (apply (bool_decide_unpack _); vm_compute; exact I).
    destruct (Hs v n Hv) as [[-> ->]| ->]; [|done]. intros [= <-] [= <-]. split; vm_compute; discriminate.
Qed.
Lemma border_segments_witness :
  ∃ g', add_border_segments spanning = Done g' ∧ (∀ k, is_Some (g_edges spanning !! k) → g_edges g' !! k = g_edges spanning !! k) ∧
    ∀ v n min max, node spanning v = Some n → n_min_rank n = Some min → n_max_rank n = Some max →
      ∃ n', node g' v = Some n' ∧ ∀ s r, min ≤ r ≤ max →
        ∃ id, side_list s n' !! Z.to_nat (r - min) = Some (Some id) ∧ node g' id = Some (border_label s r) ∧ parent g' id = Some v ∧
          (min < r → ∃ prev, side_list s n' !! Z.to_nat (r - 1 - min) = Some (Some prev) ∧ is_Some (g_edges g' !! EdgeKey_new prev id)).
Proof. exact (border_segments spanning spanning_ok). Defined.

(** * The path between the ends of a long edge

    The numbers a walk through the tree of subgraphs gives its nodes tell who is
    below whom, and so the path found with them goes through the lowest common
    ancestor. *)
From S2P Require Import ParentChains.

Section forest.
#[local] Set Default Proof Using "Type".
Context (g : DagreGraph) (W : wf g).
Context (Hlisted : ∀ c p, g_parent g !! c = Some p → c ∈ children g p).
Context (Hkids : ∀ c p, g_parent g !! c = Some p → is_Some (g_nodes g !! c) ∧ is_Some (g_nodes g !! p)).
Context (Hrooted : ∀ v, is_Some (g_nodes g !! v) → ∃ d, at_depth g v d).
Context (Hsize : Z.of_nat (size (g_nodes g)) ≤ i32_max).

(** ** Numbers *)

Definition nums_inside (np nu : PostorderNums) : Prop := pn_low np ≤ pn_low nu ∧ pn_lim nu ≤ pn_lim np.
(** The nodes of [P] have got numbers, from [lo] on, and others have not. *)
Record given_nums (P : string → Prop) (m m' : gmap string PostorderNums) : Prop := {
  nb_frame u : ¬ P u → m' !! u = m !! u;
  nb_range u : P u → ∃ n, m' !! u = Some n ∧ Z.of_nat (size m) ≤ pn_low n ≤ pn_lim n ∧ pn_lim n < Z.of_nat (size m');
  nb_inside p u np nu : P p → P u → m' !! p = Some np → m' !! u = Some nu → nums_inside np nu ↔ below g p u;
  nb_nodes u : is_Some (m' !! u) → is_Some (g_nodes g !! u);
  nb_grows : (size m ≤ size m')%nat
}.
Lemma numbered_size m : (∀ u, is_Some (m !! u) → is_Some (g_nodes g !! u)) → (size (m : gmap string PostorderNums) ≤ size (g_nodes g))%nat.
Proof. intros Hm. rewrite <- !size_dom. apply subseteq_size. intros u. rewrite !elem_of_dom. apply Hm. Qed.
Lemma numbered_none (P : string → Prop) m : (∀ u, ¬ P u) → (∀ u, is_Some (m !! u) → is_Some (g_nodes g !! u)) → given_nums P m m.
Proof. intros HP Hm. split; [done|by intros u ?%HP|by intros p u np nu ?%HP|done|lia]. Qed.
(** First the ones, then the others, none of which is below one of the former
    or above it. *)
Lemma numbered_then (P Q R : string → Prop) m m1 m2 : given_nums P m m1 → given_nums Q m1 m2 → (∀ u, R u ↔ P u ∨ Q u) →
  (∀ p u, P p → Q u → ¬ below g p u ∧ ¬ below g u p) → given_nums R m m2.
Proof.
  intros [F1 R1 I1 N1 G1] [F2 R2 I2 N2 G2] HR Hap.
  assert (Hold : ∀ u, P u → m2 !! u = m1 !! u).
  { intros u Hu. apply F2. intros Hu'. destruct (Hap u u Hu Hu') as [Hb _]. apply Hb, rtc_refl. }
  split; [| | |done|lia].
  - intros u Hu. rewrite HR in Hu. rewrite F2, F1 by tauto. done.
  - intros u [Hu|Hu]%HR.
    + destruct (R1 u Hu) as (n & Hn & ? & ?). exists n. rewrite Hold by done. split_and!; [done|lia..].
    + destruct (R2 u Hu) as (n & Hn & ? & ?). exists n. split_and!; [done|lia..].
  - intros p u np nu Hp Hu Enp Enu. apply HR in Hp, Hu. destruct Hp as [Hp|Hp], Hu as [Hu|Hu].
    + rewrite Hold in Enp, Enu by done. by apply I1.
    + rewrite Hold in Enp by done. destruct (R1 p Hp) as (n & Hn & ? & ?), (R2 u Hu) as (n' & Hn' & ? & ?). destruct (Hap p u Hp Hu) as [Hb _].
      simplify_eq. unfold nums_inside. split; [lia|done].
    + rewrite Hold in Enu by done. destruct (R2 p Hp) as (n & Hn & ? & ?), (R1 u Hu) as (n' & Hn' & ? & ?). destruct (Hap u p Hu Hp) as [_ Hb].
      simplify_eq. unfold nums_inside. split; [lia|done].
    + by apply I2.
Qed.
(** A walk through several trees. *)
Definition numbers_more (P : string → Prop) (s s' : Z * gmap string PostorderNums) : Prop :=
  s.1 = Z.of_nat (size s.2) ∧ s'.1 = Z.of_nat (size s'.2) ∧ given_nums P s.2 s'.2.
Lemma numbered_fold (f : string → Z * gmap string PostorderNums → panics (Z * gmap string PostorderNums)) d l m :
  NoDup l → (∀ c, c ∈ l → at_depth g c d) → (∀ u, below_some g l u → m !! u = None) →
  (∀ u, is_Some (m !! u) → is_Some (g_nodes g !! u)) →
  (∀ c m, c ∈ l → (∀ u, below g c u → m !! u = None) → (∀ u, is_Some (m !! u) → is_Some (g_nodes g !! u)) →
    ∃ m', f c (Z.of_nat (size m), m) = Done (Z.of_nat (size m'), m') ∧ given_nums (below g c) m m') →
  ∃ m', fold_outcome f l (Z.of_nat (size m), m) = Done (Z.of_nat (size m'), m') ∧ given_nums (below_some g l) m m'.
Proof using W.
  intros Hnd Hl Hm Hn Hf.
  destruct (siblings_fold g W numbers_more f d l (Z.of_nat (size m), m) Hnd Hl) as ([z m'] & -> & _ & Ez & N); [| | |by exists m'; cbn in Ez; rewrite Ez].
  - intros P HP. split_and!; [done..|]. by apply numbered_none.
  - intros P Q PQ a b c (E1 & _ & N1) (_ & E2 & N2) HPQ Hap. split_and!; [done..|]. by apply (numbered_then P Q PQ _ b.2).
  - intros P c [z m1] Hc (_ & Ez & N) Hap. cbn in Ez, N. subst z. destruct (Hf c m1 Hc) as (m2 & -> & N2); [|apply N|by exists (Z.of_nat (size m2), m2)].
    intros u Hu. rewrite (nb_frame _ _ _ N) by (by apply Hap). apply Hm. by exists c.
Qed.
(** A node has its number after all its children. *)
Lemma numbered_top v d m m1 : at_depth g v d → is_Some (g_nodes g !! v) → m !! v = None → given_nums (below_some g (children g v)) m m1 →
  let m' := <[v := mkNums (Z.of_nat (size m)) (Z.of_nat (size m1))]> m1 in
  size m' = S (size m1) ∧ given_nums (below g v) m m'.
Proof using W.
  intros Hd Hv Hm [F R I N G] m'. assert (Hself : ¬ below_some g (children g v) v).
  { intros Hb. apply (children_not_above g W v d v Hd Hb). apply rtc_refl. }
  assert (Es : size m' = S (size m1)) by (apply map_size_insert_None; by rewrite F).
  assert (Hne : ∀ u, u ≠ v → m' !! u = m1 !! u) by (intros u Hu; by apply lookup_insert_ne).
  assert (Htop : m' !! v = Some (mkNums (Z.of_nat (size m)) (Z.of_nat (size m1)))) by apply lookup_insert_eq.
  split; [done|]. split; [| | | |lia].
  - intros u Hu. rewrite (below_children g) in Hu. rewrite Hne, F; [done|tauto..].
  - intros u [->|Hu]%(below_children g); [eexists; split; [exact Htop|cbn; lia]|].
    destruct (R u Hu) as (n & Hn & ? & ?). exists n. rewrite Hne by (intros ->; done). split_and!; [done|lia..].
  - intros p u np nu Hp Hu Enp Enu. apply (below_children g) in Hp as Hp', Hu as Hu'. destruct Hp' as [->|Hp'], Hu' as [->|Hu'].
    + rewrite Htop in Enp, Enu. simplify_eq. unfold nums_inside. split; [done|lia].
    + rewrite Htop in Enp. rewrite Hne in Enu by (intros ->; done). destruct (R u Hu') as (n & Hn & ? & ?). simplify_eq. unfold nums_inside. cbn. split; [done|lia].
    + rewrite Htop in Enu. rewrite Hne in Enp by (intros ->; done). destruct (R p Hp') as (n & Hn & ? & ?). simplify_eq. unfold nums_inside. cbn.
      split; [lia|]. intros Hb. by destruct (children_not_above g W v d p Hd Hp').
    + rewrite Hne in Enp, Enu by (intros ->; done). by apply I.
  - intros u Hu. destruct (decide (u = v)) as [->|Hvu]; [done|]. rewrite Hne in Hu by done. by apply N.
Qed.
Lemma postorder_dfs_ok fuel : ∀ v d m, at_depth g v d → (tree_bound g < fuel + d)%nat → is_Some (g_nodes g !! v) →
  (∀ u, below g v u → m !! u = None) → (∀ u, is_Some (m !! u) → is_Some (g_nodes g !! u)) →
  ∃ m', postorder_dfs fuel g v (Z.of_nat (size m), m) = Done (Z.of_nat (size m'), m') ∧ given_nums (below g v) m m'.
Proof using W Hkids Hsize.
  induction fuel as [|fuel IH]; intros v d m Hd Hf Hv Hm Hn; [pose proof (depth_bound g W v d Hd); lia|]. cbn [postorder_dfs fst].
  destruct (numbered_fold (postorder_dfs fuel g) (S d) (children g v) m) as (m1 & -> & N1); [..|done| |].
  { apply sort_by_nodup, NoDup_elements. }
  { intros c Hc. by eapply depth_child. }
  { intros u (c & Hc & Hu). apply Hm. by eapply rtc_l. }
  { intros c m' Hc Hm' Hn'. apply (IH c (S d)); [by eapply depth_child|lia| |done|done]. apply (Hkids c v). by apply children_parent. }
  rewrite bind_done. pose proof (nb_grows _ _ _ N1) as Hg1.
  destruct (numbered_top v d m m1 Hd Hv (Hm v (rtc_refl _ _)) N1) as [Es N2]. pose proof (numbered_size _ (nb_nodes _ _ _ N2)) as Hle. rewrite Es in Hle.
  eexists. split; [|exact N2]. unfold i32_max in Hsize.
  rewrite (i32_wrap_small (_ + 1)) by (unfold is_i32, i32_min, i32_max; lia).
  rewrite (i32_wrap_small (_ - 1)) by (unfold is_i32, i32_min, i32_max; lia).
  replace (Z.of_nat (size m1) + 1 - 1) with (Z.of_nat (size m1)) by lia. rewrite Es. do 2 f_equal. lia.
Qed.
Lemma node_below v : is_Some (g_nodes g !! v) → below_some g (root_children g) v.
Proof using Hrooted. intros (d & Hd)%Hrooted. destruct (depth_below g v d Hd) as (r & Hr & Hb). by exists r. Qed.
Lemma postorder_ok : ∃ nums, postorder g = Done nums ∧ ∀ p u, is_Some (g_nodes g !! p) → is_Some (g_nodes g !! u) →
  ∃ np nu, nums !! p = Some np ∧ nums !! u = Some nu ∧ (nums_inside np nu ↔ below g p u).
Proof using W Hkids Hsize Hrooted.
  destruct (numbered_fold (postorder_dfs (tree_bound g) g) 1 (root_children g) ∅) as (m & E & N).
  - unfold root_children, sort_strings. apply sort_by_nodup, NoDup_filter, NoDup_fst_map_to_list.
  - intros c Hc. by apply depth_root.
  - intros u _. apply lookup_empty.
  - intros u. rewrite lookup_empty. by intros [? ?].
  - intros c m Hc Hm Hn. apply (postorder_dfs_ok (tree_bound g) c 1); [by apply depth_root|lia|by apply root_parent|done|done].
  - exists m. unfold postorder. rewrite map_size_empty in E. change 0 with (Z.of_nat 0). rewrite E, bind_done. split; [done|]. intros p u Hp%node_below Hu%node_below.
    destruct (nb_range _ _ _ N p Hp) as (np & Hnp & _), (nb_range _ _ _ N u Hu) as (nu & Hnu & _). exists np, nu.
    split_and!; [done..|]. by apply (nb_inside _ _ _ N).
Qed.

(** ** The way up *)

(** What is above a node, from its parent on. *)
Inductive ancestors : string → list string → Prop :=
  | ancestors_root v : g_parent g !! v = None → ancestors v []
  | ancestors_up v p l : g_parent g !! v = Some p → ancestors p l → ancestors v (p :: l).
Lemma ancestors_unique v l : ancestors v l → ∀ l', ancestors v l' → l = l'.
Proof. induction 1 as [v Hv|v p l Hp _ IH]; intros l' Hl'; inversion Hl'; simplify_eq; [done|]. f_equal. by apply IH. Qed.
Lemma ancestors_after v a q c : ancestors v (a ++ q :: c) → ancestors q c.
Proof. revert v. induction a as [|x a IH]; intros v H; inversion H; subst; [done|]. by eapply IH. Qed.
Lemma depth_ancestors v d : at_depth g v d → ∃ l, ancestors v l ∧ S (length l) = d.
Proof using W.
  induction 1 as [v Hv|p c d _ (l & Hl & <-) Hc].
  - exists []. split; [|done]. apply ancestors_root. by apply root_parent in Hv as [? _].
  - exists (p :: l). split; [|done]. apply ancestors_up; [|done]. by apply children_parent.
Qed.
Lemma ancestors_depth v d l : at_depth g v d → ancestors v l → S (length l) = d.
Proof using W. intros (l' & Hl' & <-)%depth_ancestors Hl. by rewrite (ancestors_unique v l Hl l' Hl'). Qed.
Lemma ancestors_iff v l u : ancestors v l → u ∈ v :: l ↔ below g u v.
Proof using W Hlisted.
  intros H. split.
  - induction H as [v _|v p l Hp _ IH]; intros [->|Hu]%elem_of_cons; [apply rtc_refl|by apply elem_of_nil in Hu|apply rtc_refl|].
    eapply rtc_r; [by apply IH|]. by apply Hlisted.
  - intros Hb. induction H as [v Hv|v p l Hp _ IH]; (apply rtc_inv_r in Hb as [->|(y & Hb & Hy%children_parent)]; [by left| |done]); simplify_eq.
    right. by apply IH.
Qed.
Lemma ancestors_apart v d l : at_depth g v d → ancestors v l → v ∉ l.
Proof using W Hlisted.
  intros Hd Hl Hv. inversion Hl as [|? p l' Hp Hl']; subst; [by apply elem_of_nil in Hv|].
  apply (ancestors_iff p l' v Hl') in Hv as (e & He & Hle & _)%(below_depth g v p d); [|done].
  pose proof (depth_ancestors p e He) as (l2 & Hl2 & <-). rewrite (ancestors_unique p l' Hl' l2 Hl2) in Hl.
  pose proof (ancestors_depth v d _ Hd Hl) as Hlen. cbn in Hlen. lia.
Qed.

(** *** The two climbs *)

Lemma climb_up_ok nums low lim v l : ancestors v l → ∀ fuel acc, (length l < fuel)%nat →
  (∃ a q c, l = a ++ q :: c ∧ (∀ x, x ∈ a → covers nums low lim x = false) ∧ covers nums low lim q = true ∧
     climb_up fuel g nums low lim v acc = Done (acc ++ a ++ [q], q)) ∨
  (∀ x, x ∈ l → covers nums low lim x = false) ∧ climb_up fuel g nums low lim v acc = Done (acc ++ l, "").
Proof.
  induction 1 as [v Hv|v p l Hp _ IH]; intros fuel acc Hf; (destruct fuel as [|fuel]; [cbn in Hf; lia|]); cbn [climb_up]; unfold parent.
  - right. rewrite Hv, app_nil_r. split; [by intros x ?%elem_of_nil|done].
  - rewrite Hp. destruct (covers nums low lim p) eqn:Ec.
    + left. exists [], p, l. split_and!; [done|by intros x ?%elem_of_nil|done|done].
    + destruct (IH fuel (acc ++ [p])) as [(a & q & c & -> & Ha & Hq & E)|(Hl & E)]; [cbn in Hf; lia|left|right].
      * exists (p :: a), q, c. split_and!; [done|by intros x [->|?]%elem_of_cons; auto|done|]. by rewrite E, <- app_assoc.
      * split; [by intros x [->|?]%elem_of_cons; auto|]. by rewrite E, <- app_assoc.
Qed.
Lemma climb_to_ok lca v l : ancestors v l → ∀ fuel acc, (length l ≤ fuel)%nat →
  (∃ b c, l = b ++ lca :: c ∧ climb_to fuel g lca (parent g v) acc = Done (acc ++ b)) ∨
  lca ∉ l ∧ climb_to fuel g lca (parent g v) acc = Done (acc ++ l).
Proof.
  induction 1 as [v Hv|v p l Hp _ IH]; intros fuel acc Hf; unfold parent.
  - right. rewrite Hv, app_nil_r. split; [apply not_elem_of_nil|]. by destruct fuel.
  - rewrite Hp. destruct (decide (p = lca)) as [->|Hne].
    + left. exists [], l. split; [done|]. rewrite app_nil_r. destruct fuel; cbn [climb_to]; by rewrite decide_True.
    + destruct fuel as [|fuel]; [cbn in Hf; lia|]. cbn [climb_to]. rewrite decide_False by done.
      destruct (IH fuel (acc ++ [p])) as [(b & c & -> & E)|(Hl & E)]; [cbn in Hf; lia|left|right].
      * exists (p :: b), c. split; [done|]. by rewrite E, <- app_assoc.
      * split; [by apply not_elem_of_cons|]. by rewrite E, <- app_assoc.
Qed.
Lemma ancestor_node v l x : ancestors v l → x ∈ l → is_Some (g_nodes g !! x).
Proof using Hkids.
  induction 1 as [v _|v p l Hp _ IH]; [by intros ?%elem_of_nil|]. intros [->|Hx]%elem_of_cons; [|by apply IH]. by apply (Hkids v p).
Qed.
Lemma covers_below nums v w vn wn p : (∀ p u, is_Some (g_nodes g !! p) → is_Some (g_nodes g !! u) →
    ∃ np nu, nums !! p = Some np ∧ nums !! u = Some nu ∧ (nums_inside np nu ↔ below g p u)) →
  is_Some (g_nodes g !! p) → is_Some (g_nodes g !! v) → is_Some (g_nodes g !! w) → nums !! v = Some vn → nums !! w = Some wn →
  covers nums (Z.min (pn_low vn) (pn_low wn)) (Z.max (pn_lim vn) (pn_lim wn)) p = true ↔ below g p v ∧ below g p w.
Proof.
  intros Hn Hp Hv Hw Ev Ew. destruct (Hn p v Hp Hv) as (np & nv & Enp & Env & Iv), (Hn p w Hp Hw) as (np' & nw & Enp' & Enw & Iw). simplify_eq.
  unfold covers. rewrite Enp, <- Iv, <- Iw. unfold nums_inside. rewrite andb_true_iff, !Z.leb_le. lia.
Qed.
Lemma find_path_ok v w d e lv lw : at_depth g v d → at_depth g w e → is_Some (g_nodes g !! v) → is_Some (g_nodes g !! w) →
  ancestors v lv → ancestors w lw → "" ∉ lw →
  ∃ nums path lca, postorder g = Done nums ∧ find_path g nums v w = Done (mkPathResult path lca) ∧
    ((∃ a b c, lv = a ++ lca :: c ∧ lw = b ++ lca :: c ∧ (∀ x, x ∈ a → x ∉ w :: lw) ∧ path = a ++ lca :: reverse b) ∨
     (∃ a, lv = a ++ w :: lw ∧ (∀ x, x ∈ a → x ∉ w :: lw) ∧ lca = w ∧ path = a ++ w :: reverse lw) ∨
     ((∀ x, x ∈ lv → x ∉ w :: lw) ∧ lca = "" ∧ path = lv ++ reverse lw)).
Proof using W Hkids Hlisted Hsize Hrooted.
  intros Dv Dw Hv Hw Av Aw He. destruct postorder_ok as (nums & E & Hn). exists nums.
  destruct (Hn v w Hv Hw) as (vn & wn & Evn & Ewn & _). unfold find_path. rewrite Evn, Ewn.
  set (low := Z.min _ _). set (lim := Z.max _ _).
  assert (Hc : ∀ x, x ∈ lv → covers nums low lim x = true ↔ x ∈ w :: lw).
  { intros x Hx. unfold low, lim. rewrite (covers_below nums v w vn wn x Hn (ancestor_node v lv x Av Hx) Hv Hw Evn Ewn), (ancestors_iff w lw x Aw).
    split; [by intros [_ ?]|]. split; [|done]. apply (ancestors_iff v lv x Av). by right. }
  assert (Hcf : ∀ x, x ∈ lv → covers nums low lim x = false → x ∉ w :: lw).
  { intros x Hx Hf Hw'. apply (Hc x Hx) in Hw'. congruence. }
  pose proof (ancestors_depth v d lv Dv Av). pose proof (depth_bound g W v d Dv).
  pose proof (ancestors_depth w e lw Dw Aw). pose proof (depth_bound g W w e Dw).
  destruct (climb_up_ok nums low lim v lv Av (tree_bound g) []) as [(a & q & c & -> & Ha & Hq & ->)|(Hl & ->)]; [lia| |];
    rewrite bind_done; [rewrite app_nil_l|].
  - apply (Hc q) in Hq; [|apply elem_of_app; right; by left].
    assert (Ha' : ∀ x, x ∈ a → x ∉ w :: lw) by (intros x Hx; apply Hcf; [apply elem_of_app; by left|by apply Ha]).
    pose proof (ancestors_after v a q c Av) as Aq.
    destruct (climb_to_ok q w lw Aw (tree_bound g) []) as [(b & c' & -> & ->)|(Hlw & ->)]; [lia| |]; rewrite bind_done, app_nil_l.
    + rewrite (ancestors_unique q c' (ancestors_after w b q c' Aw) c Aq) in *. eexists _, _. split; [done|]. split; [done|]. left.
      exists a, b, c. split_and!; [done..|]. by rewrite <- app_assoc.
    + apply elem_of_cons in Hq as [->|Hq]; [|done]. rewrite (ancestors_unique w c Aq lw Aw) in *. eexists _, _. split; [done|]. split; [done|].
      right; left. exists a. split_and!; [done..|]. by rewrite <- app_assoc.
  - destruct (climb_to_ok "" w lw Aw (tree_bound g) []) as [(b & c' & -> & _)|(_ & ->)]; [lia| |].
    { exfalso. apply He, elem_of_app. right. by left. }
    rewrite bind_done, !app_nil_l. eexists _, _. split; [done|]. split; [done|]. right; right. split_and!; [|done..]. intros x Hx. apply Hcf; [done|by apply Hl].
Qed.
End forest.

(** ** The whole *)

(** Subgraphs form a forest: parents list their children, both are nodes, and
    lead up to nodes without a parent. *)
Record forest (g : DagreGraph) : Prop := {
  fo_wf : wf g;
  fo_listed c p : g_parent g !! c = Some p → c ∈ children g p;
  fo_kids c p : g_parent g !! c = Some p → is_Some (g_nodes g !! c) ∧ is_Some (g_nodes g !! p);
  fo_rooted v : is_Some (g_nodes g !! v) → ∃ d, at_depth g v d;
  fo_size : Z.of_nat (size (g_nodes g)) ≤ i32_max
}.

(** C18: the path between two nodes goes through their lowest common ancestor.
    Numbering a forest and finding a path in it ends.  Let [lv] and [lw] be the
    ancestors of [v] and [w], from the parent up.  If they have one in common, the
    path goes up those of [v] to the lowest that [w] has too and down those of
    [w] below it.  If that is [w] itself, the path then goes on to the root of
    [w].  If there is none, the path is all of [lv] and then all of [lw]. *)
Theorem find_path_meets g v w lv lw : forest g → is_Some (g_nodes g !! v) → is_Some (g_nodes g !! w) →
  ancestors g v lv → ancestors g w lw → "" ∉ lw →
  ∃ nums path lca, postorder g = Done nums ∧ find_path g nums v w = Done (mkPathResult path lca) ∧
    ((∃ a b c, lv = a ++ lca :: c ∧ lw = b ++ lca :: c ∧ (∀ x, x ∈ a → x ∉ w :: lw) ∧ path = a ++ lca :: reverse b) ∨
     (∃ a, lv = a ++ w :: lw ∧ (∀ x, x ∈ a → x ∉ w :: lw) ∧ lca = w ∧ path = a ++ w :: reverse lw) ∨
     ((∀ x, x ∈ lv → x ∉ w :: lw) ∧ lca = "" ∧ path = lv ++ reverse lw)).
Proof.
  intros [W Hl Hk Hr Hs] Hv Hw Av Aw He. destruct (Hr v Hv) as (d & Dv), (Hr w Hw) as (e & Dw).
  by apply (find_path_ok g W Hl Hk Hr Hs v w d e).
Qed.

Lemma nest_forest : forest nest.
Proof.
  destruct nest_nestable as [W _ _ Hk Hr _ _]. split; [done| |done|done|vm_compute; discriminate].
  intros c p. assert (H : map_Forall (λ c p, c ∈ children nest p) (g_parent nest)) by (apply (bool_decide_unpack _); vm_compute; exact I).
  apply H.
Qed.
Lemma find_path_meets_witness :
  ancestors nest "b" ["inner"; "outer"] ∧ ancestors nest "a" ["outer"] ∧
  ∃ nums path lca, postorder nest = Done nums ∧ find_path nest nums "b" "a" = Done (mkPathResult path lca) ∧
    ((∃ a b c, ["inner"; "outer"] = a ++ lca :: c ∧ ["outer"] = b ++ lca :: c ∧ (∀ x, x ∈ a → x ∉ ["a"; "outer"]) ∧ path = a ++ lca :: reverse b) ∨
     (∃ a, ["inner"; "outer"] = a ++ ["a"; "outer"] ∧ (∀ x, x ∈ a → x ∉ ["a"; "outer"]) ∧ lca = "a" ∧ path = a ++ "a" :: reverse ["outer"]) ∨
     ((∀ x, x ∈ ["inner"; "outer"] → x ∉ ["a"; "outer"]) ∧ lca = "" ∧ path = ["inner"; "outer"] ++ reverse ["outer"])).
Proof.
  assert (A1 : ancestors nest "a" ["outer"]) by (apply ancestors_up; [vm_compute; reflexivity|apply ancestors_root; vm_compute; reflexivity]).
  assert (A2 : ancestors nest "b" ["inner"; "outer"]).
  { apply ancestors_up; [vm_compute; reflexivity|]. apply ancestors_up; [vm_compute; reflexivity|apply ancestors_root; vm_compute; reflexivity]. }
  split; [exact A2|]. split; [exact A1|].
  apply (find_path_meets nest "b" "a" ["inner"; "outer"] ["outer"] nest_forest); [| |exact A2|exact A1|].
  - apply (bool_decide_unpack _). vm_compute. exact I.
  - apply (bool_decide_unpack _). vm_compute. exact I.
  - apply (bool_decide_unpack _). vm_compute. exact I.
Defined.
(** In the example the first case is the one. *)
Example nest_path : match postorder nest with
  | Done nums => find_path nest nums "b" "a" = Done (mkPathResult ["inner"; "outer"] "outer")
  | _ => False
  end.
Proof. vm_compute. reflexivity. Qed.
