(* ===== verification/Bk.v ===== *)
(** * Horizontal coordinates ([position/bk.rs])

    Nodes are aligned with the median of their neighbours into vertical blocks,
    four times (upwards and downwards, from the left and from the right); the
    blocks of each alignment are placed as far left as the separations allow, and
    a node gets the mean of the two middle ones of its four places.  Hash maps
    are read in orders that are parameters.  A search over the blocks pushes each
    block and its neighbours once: the number of pushes is its fuel. *)
From stdpp Require Import strings gmap.
From S2P Require Import Prelude Bytes F64 SortBy DagreGraph Rank Layers.

Definition f64_infinity : f64 := SpecFloat.S754_infinity false.
Definition f64_neg_infinity : f64 := SpecFloat.S754_infinity true.
Definition is_dummy (g : DagreGraph) (v : string) : bool :=
  match node g v with Some n => bool_decide (is_Some (n_dummy n)) | None => false end.

(** [max_rank as usize] of a negative rank asks for more than there is. *)
Definition bk_layers (g : DagreGraph) : panics (list (list string)) :=
  let m := default 0 (max_rank g) in
  if m <? 0 then panic else Done (order_layer_matrix g (Z.to_nat m)).

(** ** Conflicts *)

Definition Conflicts := gmap string (gset string).
Definition conflict_pair (v w : string) : string * string := if string_leb v w then (v, w) else (w, v).
Definition add_conflict (v w : string) (c : Conflicts) : Conflicts :=
  let '(v, w) := conflict_pair v w in <[v := {[w]} ∪ default ∅ (c !! v)]> c.
Definition has_conflict (c : Conflicts) (v w : string) : bool :=
  let '(v, w) := conflict_pair v w in bool_decide (w ∈ default ∅ (c !! v)).
Definition merge_conflicts (a b : Conflicts) : Conflicts := union_with (λ x y, Some (x ∪ y)) a b.

Definition find_other_inner_segment_node (g : DagreGraph) (v : string) : option string :=
  if is_dummy g v then List.find (is_dummy g) (predecessors g v) else None.

(** Edges of [scan_node] from outside of [k0 .. k1] that are no inner segments. *)
Definition scan_type1 (g : DagreGraph) (k0 k1 : nat) (scan_node : string) (c : Conflicts) : Conflicts :=
  fold_with
    (λ u c,
       let u_pos := default 0%nat (node_order g u) in
       if (bool_decide (u_pos < k0)%nat || bool_decide (k1 < u_pos)%nat) && negb (is_dummy g u && is_dummy g scan_node)
       then add_conflict u scan_node c else c)
    (predecessors g scan_node) c.
Record Scan1 := mkScan1 { s1_conflicts : Conflicts; s1_k0 : nat; s1_pos : nat }.
Definition type1_at (g : DagreGraph) (prev_layer_length : nat) (layer : list string) (p : nat * string) (s : Scan1) : Scan1 :=
  let '(i_in_layer, v) := p in
  let w := find_other_inner_segment_node g v in
  let k1 := default prev_layer_length (u ← w; node_order g u) in
  if bool_decide (is_Some w) || (S i_in_layer =? length layer)%nat then
    mkScan1 (fold_with (scan_type1 g (s1_k0 s) k1) (drop (s1_pos s) (take (S i_in_layer) layer)) (s1_conflicts s))
      k1 (S i_in_layer)
  else s.
(** [f] for each layer and the one before it. *)
Fixpoint fold_layers {A} (f : list string → list string → A → A) (layering : list (list string)) (a : A) : A :=
  match layering with
  | north :: (south :: _) as rest => fold_layers f rest (f north south a)
  | _ => a
  end.
Definition find_type1_conflicts (g : DagreGraph) (layering : list (list string)) : Conflicts :=
  fold_layers
    (λ prev_layer layer c,
       s1_conflicts (fold_with (type1_at g (length prev_layer) layer) (imap pair layer) (mkScan1 c 0 0)))
    layering ∅.

Definition scan_type2 (g : DagreGraph) (prev_north_pos next_north_pos : Z) (scan_node : string) (c : Conflicts) : Conflicts :=
  if is_dummy g scan_node then
    fold_with
      (λ u c,
         if is_dummy g u then
           let u_order := Z.of_nat (default 0%nat (node_order g u)) in
           if (u_order <? prev_north_pos) || (next_north_pos <? u_order) then add_conflict u scan_node c else c
         else c)
      (predecessors g scan_node) c
  else c.
Record Scan2 := mkScan2 { s2_conflicts : Conflicts; s2_prev : Z; s2_pos : nat }.
Definition dummy_kind (g : DagreGraph) (v : string) : option string := n ← node g v; n_dummy n.
Definition type2_at (g : DagreGraph) (south : list string) (p : nat * string) (s : Scan2) : Scan2 :=
  let '(south_lookahead, v) := p in
  if bool_decide (dummy_kind g v = Some "border") then
    match head (predecessors g v) with
    | Some pred =>
        let next_north_pos := Z.of_nat (default 0%nat (node_order g pred)) in
        mkScan2 (fold_with (scan_type2 g (s2_prev s) next_north_pos) (drop (s2_pos s) (take south_lookahead south)) (s2_conflicts s))
          next_north_pos south_lookahead
    | None => s
    end
  else s.
Definition find_type2_conflicts (g : DagreGraph) (layering : list (list string)) : Conflicts :=
  fold_layers
    (λ north south c,
       let s := fold_with (type2_at g south) (imap pair south) (mkScan2 c (-1) 0) in
       fold_with (scan_type2 g (s2_prev s) (Z.of_nat (length north))) (drop (s2_pos s) south) (s2_conflicts s))
    layering ∅.

(** ** Vertical alignment *)

Record Alignment := mkAlign { al_root : gmap string string; al_align : gmap string string }.
Definition index_of (pos : gmap string nat) (v : string) : nat := default 0%nat (pos !! v).
Definition positions_of (layers : list (list string)) : gmap string nat :=
  fold_with (λ layer m, fold_with (λ p m, <[p.2 := p.1]> m) (imap pair layer) m) layers ∅.
Definition align_init (layers : list (list string)) : Alignment :=
  fold_with (λ layer a, fold_with (λ v a, mkAlign (<[v := v]> (al_root a)) (<[v := v]> (al_align a))) layer a)
    layers (mkAlign ∅ ∅).
(** [(len - 1) / 2] rounded down and up, of at least one neighbour. *)
Definition medians (neighbors : list string) : list string :=
  let low := ((length neighbors - 1) / 2)%nat in
  let high := (length neighbors / 2)%nat in
  take (high - low + 1) (drop low neighbors).
Definition try_align (conflicts : Conflicts) (pos : gmap string nat) (v w : string) (s : Alignment * Z) : Alignment * Z :=
  let '(a, prev_idx) := s in
  let w_pos := Z.of_nat (index_of pos w) in
  if bool_decide (al_align a !! v = Some v) && (prev_idx <? w_pos) && negb (has_conflict conflicts v w) then
    let r := default w (al_root a !! w) in
    (mkAlign (<[v := r]> (al_root a)) (<[v := r]> (<[w := v]> (al_align a))), w_pos)
  else s.
Definition by_pos (pos : gmap string nat) (a b : string) : bool := (index_of pos a <=? index_of pos b)%nat.
Definition align_node (conflicts : Conflicts) (pos : gmap string nat) (neighbor_fn : string → list string) (v : string)
    (s : Alignment * Z) : Alignment * Z :=
  fold_with (try_align conflicts pos v) (medians (sort_by (by_pos pos) (neighbor_fn v))) s.
Definition align_layer (conflicts : Conflicts) (pos : gmap string nat) (neighbor_fn : string → list string)
    (layer : list string) (a : Alignment) : Alignment :=
  (fold_with (align_node conflicts pos neighbor_fn) layer (a, -1)).1.
Definition vertical_alignment (layers : list (list string)) (conflicts : Conflicts) (neighbor_fn : string → list string) : Alignment :=
  fold_with (align_layer conflicts (positions_of layers) neighbor_fn) layers (align_init layers).

(** ** Horizontal compaction *)

(** How far to one side a label at [labelpos] draws a node of width [width]. *)
Definition label_delta (labelpos : option string) (width : f64) : f64 :=
  match lowercase <$> labelpos with
  | Some "l" => f64_half (f64_neg width)
  | Some "r" => f64_half width
  | _ => f64_zero
  end.
Definition add_delta (reverse_sep : bool) (delta sum : f64) : f64 :=
  if f64_eqb delta f64_zero then sum else f64_add sum (if reverse_sep then delta else f64_neg delta).
Definition width_of (g : DagreGraph) (v : string) : f64 := match node g v with Some n => n_width n | None => f64_zero end.
Definition labelpos_of (g : DagreGraph) (v : string) : option string := n ← node g v; n_labelpos n.
(** The second node's label pulls the other way. *)
Definition label_delta_w (labelpos : option string) (width : f64) : f64 :=
  match lowercase <$> labelpos with
  | Some "l" => f64_half width
  | Some "r" => f64_half (f64_neg width)
  | _ => f64_zero
  end.
Definition calculate_sep (g : DagreGraph) (nodesep edgesep : f64) (reverse_sep : bool) (v w : string) : f64 :=
  let sum := f64_add f64_zero (f64_half (width_of g v)) in
  let sum := add_delta reverse_sep (label_delta (labelpos_of g v) (width_of g v)) sum in
  let sum := f64_add sum (f64_half (if is_dummy g v then edgesep else nodesep)) in
  let sum := f64_add sum (f64_half (if is_dummy g w then edgesep else nodesep)) in
  let sum := f64_add sum (f64_half (width_of g w)) in
  add_delta reverse_sep (label_delta_w (labelpos_of g w) (width_of g w)) sum.

Definition BlockEdges := gmap string (list (string * f64)).
Definition edges_at (m : BlockEdges) (v : string) : list (string * f64) := default [] (m !! v).
Record Blocks := mkBlocks { bl_nodes : list string; bl_edges : BlockEdges }.
Definition root_of (root : gmap string string) (v : string) : string := default v (root !! v).
Definition add_block (r : string) (b : Blocks) : Blocks :=
  if decide (r ∈ bl_nodes b) then b else mkBlocks (bl_nodes b ++ [r]) (bl_edges b).
Definition sep_between (preds : list (string * f64)) (u_root : string) : f64 :=
  match List.find (λ p, bool_decide (p.1 = u_root)) preds with Some p => p.2 | None => f64_zero end.
(** The larger separation is kept. *)
Definition add_sep (u_root v_root : string) (sep : f64) (b : Blocks) : Blocks :=
  let preds := edges_at (bl_edges b) v_root in
  if f64_lt (sep_between preds u_root) sep then
    mkBlocks (bl_nodes b) (<[v_root := filter (λ p, p.1 ≠ u_root) preds ++ [(u_root, sep)]]> (bl_edges b))
  else b.
Fixpoint block_layer (sep_fn : string → string → f64) (root : gmap string string) (prev : option string)
    (layer : list string) (b : Blocks) : Blocks :=
  match layer with
  | [] => b
  | v :: layer' =>
      let b := add_block (root_of root v) b in
      let b := match prev with
               | Some u => add_sep (root_of root u) (root_of root v) (sep_fn v u) b
               | None => b
               end in
      block_layer sep_fn root (Some v) layer' b
  end.
Definition build_block_graph (sep_fn : string → string → f64) (layers : list (list string)) (root : gmap string string) : Blocks :=
  fold_with (block_layer sep_fn root None) layers (mkBlocks [] ∅).

(** Targets by source, in the order of the targets. *)
Definition push_successor (target : string) (p : string * f64) (m : BlockEdges) : BlockEdges :=
  <[p.1 := edges_at m p.1 ++ [(target, p.2)]]> m.
Definition successors_of (b : Blocks) : BlockEdges :=
  fold_with (λ target m, fold_with (push_successor target) (edges_at (bl_edges b) target) m) (bl_nodes b) ∅.

Section iterate.
Context {S : Type} (get_neighbors : string → list string) (process : string → S → S).
(** The top of the stack is the head of the list. *)
Fixpoint iterate (fuel : nat) (stack : list string) (visited : gset string) (s : S) : panics S :=
  match stack with
  | [] => Done s
  | elem :: rest =>
      match fuel with
      | O => OutOfFuel
      | Datatypes.S fuel' =>
          if decide (elem ∈ visited) then iterate fuel' rest visited (process elem s)
          else iterate fuel' (reverse (get_neighbors elem) ++ elem :: rest) ({[elem]} ∪ visited) s
      end
  end.
Definition pushes (nodes : list string) : nat :=
  foldr (λ v n, Datatypes.S (length (get_neighbors v)) + n)%nat (length nodes) nodes.
Definition dfs_iterate (nodes : list string) (s : S) : panics S := iterate (pushes nodes) (reverse nodes) ∅ s.
End iterate.

(** As far left as the blocks to the left allow. *)
Definition place_left (preds : BlockEdges) (elem : string) (xs : gmap string f64) : gmap string f64 :=
  <[elem := fold_with (λ p x, match xs !! p.1 with Some px => f64_max x (f64_add px p.2) | None => x end)
              (edges_at preds elem) f64_zero]> xs.
(** The place next to the nearest block to the right. *)
Definition nearest_right (succs : BlockEdges) (xs : gmap string f64) (elem : string) : f64 :=
  fold_with (λ p x, match xs !! p.1 with Some sx => f64_min x (f64_sub sx p.2) | None => x end)
    (edges_at succs elem) f64_infinity.
Definition border_type_of (g : DagreGraph) (v : string) : option string := n ← node g v; n_border_type n.
Definition pull_right (g : DagreGraph) (skip : string) (succs : BlockEdges) (elem : string) (xs : gmap string f64) : gmap string f64 :=
  let min_x := nearest_right succs xs elem in
  if negb (f64_eqb min_x f64_infinity) && negb (bool_decide (border_type_of g elem = Some skip))
  then alter (λ x, f64_max x min_x) elem xs else xs.
Definition skip_border_type (reverse_sep : bool) : string := if reverse_sep then "borderLeft" else "borderRight".
Definition compact_blocks (g : DagreGraph) (b : Blocks) (reverse_sep : bool) : panics (gmap string f64) :=
  xs ← dfs_iterate (λ v, (edges_at (bl_edges b) v).*1) (place_left (bl_edges b)) (bl_nodes b) ∅;
  let succs := successors_of b in
  dfs_iterate (λ v, (edges_at succs v).*1) (pull_right g (skip_border_type reverse_sep) succs) (bl_nodes b) xs.
Definition horizontal_compaction (g : DagreGraph) (layers : list (list string)) (root : gmap string string)
    (nodesep edgesep : f64) (reverse_sep : bool) : panics (gmap string f64) :=
  xs ← compact_blocks g (build_block_graph (calculate_sep g nodesep edgesep reverse_sep) layers root) reverse_sep;
  Done (omap (λ r, xs !! r) root).

(** ** The four alignments *)

Class XsOrder := {
  (** the entries of the coordinates called [name] *)
  xs_order : string → gmap string f64 → list (string * f64);
  xs_order_perm name m : xs_order name m ≡ₚ map_to_list m;
  (** the four coordinates by name *)
  name_order : list (string * gmap string f64) → list (string * gmap string f64);
  name_order_perm l : name_order l ≡ₚ l
}.

Section balance.
Context `{XsOrder}.

Definition visual_width (g : DagreGraph) (name : string) (xs : gmap string f64) : f64 :=
  let '(max_bound, min_bound) :=
    fold_with
      (λ '(v, x) '(max_bound, min_bound),
         let half_width := f64_half (width_of g v) in
         (f64_max max_bound (f64_add x half_width), f64_min min_bound (f64_sub x half_width)))
      (xs_order name xs) (f64_neg_infinity, f64_infinity) in
  f64_sub max_bound min_bound.
Definition find_smallest_width_alignment (g : DagreGraph) (xss : list (string * gmap string f64)) : option string :=
  (fold_with
     (λ '(name, xs) '(best, min_width),
        let width := visual_width g name xs in
        if f64_lt width min_width then (Some name, width) else (best, min_width))
     (name_order xss) (None, f64_largest)).1.

Definition least (name : string) (xs : gmap string f64) : f64 :=
  fold_with (λ p m, f64_min m p.2) (xs_order name xs) f64_infinity.
Definition greatest (name : string) (xs : gmap string f64) : f64 :=
  fold_with (λ p m, f64_max m p.2) (xs_order name xs) f64_neg_infinity.
Definition is_left (name : string) : bool := bool_decide (name = "ul" ∨ name = "dl").
Definition shift_to (align_to : string) (align_xs : gmap string f64) (p : string * gmap string f64) : string * gmap string f64 :=
  let '(name, xs) := p in
  if decide (name = align_to) then p else
  let delta := if is_left name then f64_sub (least align_to align_xs) (least name xs)
               else f64_sub (greatest align_to align_xs) (greatest name xs) in
  if f64_eqb delta f64_zero then p else (name, (λ x, f64_add x delta) <$> xs).
Definition align_coordinates (align_to : string) (xss : list (string * gmap string f64)) : list (string * gmap string f64) :=
  match List.find (λ p, bool_decide (p.1 = align_to)) xss with
  | Some (_, align_xs) => shift_to align_to align_xs <$> xss
  | None => xss
  end.

(** [partial_cmp] of a NaN has no answer, and every coordinate is compared when
    there is more than one. *)
Definition sort_coords (coords : list f64) : panics (list f64) :=
  if existsb is_nan coords && (2 <=? length coords)%nat then panic
  else Done (sort_by (λ a b, negb (f64_lt b a)) coords).
Definition median (coords : list f64) : f64 :=
  let at_ i := nth i coords f64_zero in
  let len := length coords in
  if (4 <=? len)%nat then f64_half (f64_add (at_ 1%nat) (at_ 2%nat))
  else if (2 <=? len)%nat then f64_half (f64_add (at_ 0%nat) (at_ (len - 1)%nat))
  else at_ 0%nat.
Definition balance_node (xss : list (string * gmap string f64)) (v : string) (result : gmap string f64) : panics (gmap string f64) :=
  coords ← sort_coords (omap (λ p : string * gmap string f64, p.2 !! v) (name_order xss));
  Done (<[v := median coords]> result).
Definition balance (g : DagreGraph) (xss : list (string * gmap string f64)) (layers : list (list string)) : panics (gmap string f64) :=
  let aligned :=
    match find_smallest_width_alignment g xss with
    | Some align_name => align_coordinates align_name xss
    | None => xss
    end in
  fold_outcome (balance_node aligned) (concat layers) ∅.

(** One of the four: the layers from below for [down], from the right for [right]. *)
Definition turned_layers (down right : bool) (layers : list (list string)) : list (list string) :=
  let adjusted := if down then reverse layers else layers in
  if right then reverse <$> adjusted else adjusted.
Definition neighbor_fn (g : DagreGraph) (down : bool) : string → list string := if down then successors g else predecessors g.
Definition alignment_xs (g : DagreGraph) (layers : list (list string)) (conflicts : Conflicts) (down right : bool) :
    panics (gmap string f64) :=
  let aligned_layers := turned_layers down right layers in
  let a := vertical_alignment aligned_layers conflicts (neighbor_fn g down) in
  xs ← horizontal_compaction g aligned_layers (al_root a) (gl_nodesep (g_graph_label g)) (gl_edgesep (g_graph_label g)) right;
  Done (if right then f64_neg <$> (xs : gmap string f64) else xs).
Definition position_x (g : DagreGraph) : panics (gmap string f64) :=
  layers ← bk_layers g;
  let conflicts := merge_conflicts (find_type1_conflicts g layers) (find_type2_conflicts g layers) in
  ul ← alignment_xs g layers conflicts false false;
  ur ← alignment_xs g layers conflicts false true;
  dl ← alignment_xs g layers conflicts true false;
  dr ← alignment_xs g layers conflicts true true;
  balance g [("ul", ul); ("ur", ur); ("dl", dl); ("dr", dr)] layers.
End balance.
