(* ===== verification/BkFacts.v ===== *)
(** * What horizontal coordinates promise

    The searches over the blocks end, after the neighbours of each block; blocks
    stay apart in every row, whichever of the four alignments placed them. *)
From stdpp Require Import strings gmap sorting.
From S2P Require Import Prelude Bytes F64 SortBy DagreGraph DagreGraphFacts Rank Layers OrderFacts Bk.
From S2P Require NormalizeFacts.

(** ** The search over the blocks *)

Lemma in_reverse {A} (x : A) l : x ∈ reverse l → x ∈ l.
Proof. by rewrite elem_of_reverse. Qed.

Section iterate.
#[local] Set Default Proof Using "All".
Context {S : Type} (nbrs : string → list string) (process : string → S → S).

(** The pushes of the nodes of [l] not yet visited. *)
Definition pushes_left (l : list string) (visited : gset string) : nat :=
  foldr (λ v n, (if decide (v ∈ visited) then 0 else Datatypes.S (length (nbrs v))) + n)%nat 0%nat l.
Lemma pushes_left_visit x l visited : NoDup l → x ∈ l → x ∉ visited →
  pushes_left l visited = (Datatypes.S (length (nbrs x)) + pushes_left l ({[x]} ∪ visited))%nat.
Proof.
  assert (Hout : ∀ l, x ∉ l → pushes_left l visited = pushes_left l ({[x]} ∪ visited)).
  { unfold pushes_left. induction l0 as [|y l0 IH]; cbn [foldr]; [done|]. intros Hx. rewrite IH by set_solver.
    f_equal. apply decide_ext. set_solver. }
  unfold pushes_left in *. induction l as [|y l IH]; intros Hnd Hx Hv; [by apply elem_of_nil in Hx|].
  apply NoDup_cons in Hnd as [Hy Hnd]. cbn [foldr]. destruct (decide (y = x)) as [->|Hne].
  - rewrite (decide_False (P := x ∈ visited)), (decide_True (P := x ∈ {[x]} ∪ visited)) by set_solver. by rewrite Hout.
  - rewrite (IH Hnd) by set_solver. rewrite (decide_ext (y ∈ {[x]} ∪ visited) (y ∈ visited)) by set_solver.
    destruct (decide _); lia.
Qed.
Context (U : list string) (Hnbrs : ∀ v n, v ∈ U → n ∈ nbrs v → n ∈ U).
Lemma iterate_ends : NoDup U → ∀ fuel stack visited s, (∀ v, v ∈ stack → v ∈ U) →
  (length stack + pushes_left U visited ≤ fuel)%nat → ∃ s', iterate nbrs process fuel stack visited s = Done s'.
Proof.
  intros Hnd. induction fuel as [|fuel IH]; intros [|x stack] visited s Hs Hf; cbn [iterate]; try (by eexists); [cbn in Hf; lia|].
  assert (Hx : x ∈ U) by (apply Hs; by left). destruct (decide _) as [Hv|Hv].
  - apply IH; [intros v ?; apply Hs; by right|cbn in Hf; lia].
  - apply IH.
    + intros v [Hr%in_reverse|[->|?]%elem_of_cons]%elem_of_app; [by apply (Hnbrs x)|done|apply Hs; by right].
    + rewrite (pushes_left_visit x U visited Hnd Hx Hv) in Hf. rewrite length_app, length_reverse. cbn in *. lia.
Qed.
Lemma pushes_enough l k : (k + pushes_left l ∅ ≤ foldr (λ v n, Datatypes.S (length (nbrs v)) + n) k l)%nat.
Proof.
  unfold pushes_left. induction l as [|y l IH]; cbn [foldr]; [lia|]. rewrite decide_False by apply not_elem_of_empty. lia.
Qed.
Lemma dfs_iterate_ends s : NoDup U → ∃ s', dfs_iterate nbrs process U s = Done s'.
Proof.
  intros Hnd. apply iterate_ends; [done|intros v ?%in_reverse; done|]. rewrite length_reverse. apply pushes_enough.
Qed.

(** Where neighbours come first in some order, [process] comes to a block after
    all of its neighbours; [I X] holds once the blocks of [X] are processed. *)
Context (h : string → nat) (Hh : ∀ v n, v ∈ U → n ∈ nbrs v → (h n < h v)%nat).
Context (I : gset string → S → Prop).
Context (Hstep : ∀ x X s, x ∈ U → (∀ n, n ∈ nbrs x → n ∈ X) → I X s → I ({[x]} ∪ X) (process x s)).
(** A visited block is processed, or waits below all that must come before it. *)
Definition waits (stack : list string) (X : gset string) (e : string) : Prop :=
  ∃ A B, stack = A ++ e :: B ∧ (∀ a, a ∈ A → h a < h e)%nat ∧ ∀ n, n ∈ nbrs e → n ∈ A ∨ n ∈ X.
Lemma waits_pop x stack X e : waits (x :: stack) X e → e ≠ x → waits stack ({[x]} ∪ X) e.
Proof.
  intros (A & B & E & HA & Hn) Hne. destruct A as [|a A]; [by injection E as -> _|]. injection E as -> ->.
  exists A, B. split_and!; [done|intros a' ?; apply HA; by right|]. intros n [Hi|?]%Hn; [|set_solver].
  apply elem_of_cons in Hi as [->|?]; set_solver.
Qed.
Lemma iterate_inv fuel : ∀ stack visited X s s', (∀ v, v ∈ stack → v ∈ U) → (∀ v, v ∈ visited → v ∈ U) →
  (∀ e, e ∈ visited → e ∉ X → waits stack X e) → (∀ e n, e ∈ X → n ∈ nbrs e → n ∈ X) → I X s →
  iterate nbrs process fuel stack visited s = Done s' → ∃ X', I X' s' ∧ X ⊆ X' ∧ ∀ v, v ∈ stack → v ∈ X'.
Proof.
  induction fuel as [|fuel IH]; intros [|x stack] visited X s s' Hs Hv Hw Hc HI E; cbn [iterate] in E; try done;
    try (injection E as <-; exists X; split_and!; [done|done|by intros v ?%elem_of_nil]).
  assert (Hx : x ∈ U) by (apply Hs; by left). destruct (decide _) as [Hxv|Hxv].
  - assert (Hn : ∀ n, n ∈ nbrs x → n ∈ X).
    { intros n Hn. destruct (decide (x ∈ X)) as [|HX]; [by eapply Hc|].
      destruct (Hw x Hxv HX) as ([|a A] & B & E' & HA & Hb); [by destruct (Hb n Hn) as [?%elem_of_nil|?]|].
      injection E' as -> _. specialize (HA a ltac:(by left)). lia. }
    destruct (IH stack visited ({[x]} ∪ X) (process x s) s') as (X' & HI' & HX & Hst); [..|done|].
    + intros v ?. apply Hs. by right.
    + done.
    + intros e He HeX. apply waits_pop; [apply Hw; set_solver|set_solver].
    + intros e n [->%elem_of_singleton|?]%elem_of_union Hen; [set_solver|]. apply elem_of_union. right. by eapply Hc.
    + by apply Hstep.
    + exists X'. split_and!; [done|set_solver|]. intros v [->|?]%elem_of_cons; [set_solver|by apply Hst].
  - destruct (IH (reverse (nbrs x) ++ x :: stack) ({[x]} ∪ visited) X s s') as (X' & HI' & HX & Hst); [..|done|].
    + intros v [Hr%in_reverse|[->|?]%elem_of_cons]%elem_of_app; [by apply (Hnbrs x)|done|apply Hs; by right].
    + intros v [->%elem_of_singleton|?]%elem_of_union; [done|by apply Hv].
    + intros e He HeX. destruct (decide (e = x)) as [->|Hne].
      * exists (reverse (nbrs x)), stack. split_and!; [done| |].
        -- intros a Ha%in_reverse. by apply Hh.
        -- intros n Hn. left. by apply elem_of_reverse.
      * destruct (Hw e ltac:(set_solver) HeX) as (A & B & E' & HA & Hn). destruct A as [|a A]; [by injection E' as -> _|].
        injection E' as -> ->. exists (reverse (nbrs a) ++ a :: A), B. split_and!.
        -- by rewrite <- app_assoc.
        -- intros b [Hb%in_reverse|Hb]%elem_of_app; [|by apply HA].
           pose proof (HA a ltac:(by left)). pose proof (Hh a b Hx Hb). lia.
        -- intros n [?|?]%Hn; [left; set_solver|by right].
    + done.
    + done.
    + exists X'. split_and!; [done|done|]. intros v Hvs. apply Hst. set_solver.
Qed.
Lemma dfs_iterate_inv s s' : I ∅ s → dfs_iterate nbrs process U s = Done s' → ∃ X, I X s' ∧ ∀ v, v ∈ U → v ∈ X.
Proof.
  intros HI E. destruct (iterate_inv (pushes nbrs U) (reverse U) ∅ ∅ s s') as (X & HX & _ & Hv); [| | | |done|exact E|].
  - by intros v ?%in_reverse.
  - set_solver.
  - set_solver.
  - set_solver.
  - exists X. split; [done|]. intros v ?. by apply Hv, elem_of_reverse.
Qed.
End iterate.

(** ** The graph of blocks *)

Lemma f64_lt_trans a b c : f64_lt a b = true → f64_lt b c = true → f64_lt a c = true.
Proof.
  intros H1 H2. assert (Hc : is_nan c = false) by (by apply f64_lt_key in H2 as (_ & ? & _)).
  destruct (f64_lt_between a c b Hc H1) as [?|H]; [done|]. by rewrite (f64_lt_asym _ _ H2) in H.
Qed.

(** The separation kept for an edge is not below [s]. *)
Definition covered (b : Blocks) (u v : string) (s : f64) : Prop :=
  f64_lt (sep_between (edges_at (bl_edges b) v) u) s = false.
(** Edges join blocks that are there, and stand for neighbours in a row. *)
Record block_inv (next : string → string → f64 → Prop) (b : Blocks) : Prop := {
  bi_nodup : NoDup (bl_nodes b);
  bi_ends v p : p ∈ edges_at (bl_edges b) v → p.1 ∈ bl_nodes b ∧ v ∈ bl_nodes b;
  bi_next v p : p ∈ edges_at (bl_edges b) v → next p.1 v p.2 ∧ f64_lt f64_zero p.2 = true
}.
Lemma edges_at_insert v l m x : edges_at (<[v := l]> m) x = if decide (x = v) then l else edges_at m x.
Proof.
  unfold edges_at, BlockEdges in *. destruct (decide (x = v)) as [->|Hne]; [by rewrite (lookup_insert_eq (M := gmap string))|].
  by rewrite (lookup_insert_ne (M := gmap string)).
Qed.
Lemma sep_between_replace l u s w : sep_between (filter (λ p, p.1 ≠ u) l ++ [(u, s)]) w = if decide (w = u) then s else sep_between l w.
Proof.
  unfold sep_between. induction l as [|[x t] l IH].
  - cbn. case_bool_decide; [by rewrite decide_True|]. by rewrite decide_False by congruence.
  - rewrite filter_cons. cbn [fst]. destruct (decide (x ≠ u)) as [Hx|Hx].
    + cbn. case_bool_decide; [subst; by rewrite decide_False|]. apply IH.
    + apply dec_stable in Hx as ->. rewrite IH. cbn. destruct (decide (w = u)) as [->|Hw]; [done|].
      by rewrite bool_decide_false by congruence.
Qed.
Lemma add_sep_covers u v s b : covered (add_sep u v s b) u v s.
Proof.
  unfold covered, add_sep. destruct (f64_lt (sep_between (edges_at (bl_edges b) v) u) s) eqn:E; [|done]. cbn.
  rewrite edges_at_insert, decide_True by done. rewrite sep_between_replace, decide_True by done. apply f64_lt_irrefl.
Qed.
Lemma add_sep_keeps u v s b x y t : covered b x y t → covered (add_sep u v s b) x y t.
Proof.
  unfold covered, add_sep. intros Hc. destruct (f64_lt (sep_between (edges_at (bl_edges b) v) u) s) eqn:E; [|done]. cbn.
  rewrite edges_at_insert. destruct (decide (y = v)) as [->|Hy]; [|done]. rewrite sep_between_replace.
  destruct (decide (x = u)) as [->|Hx]; [|done]. apply not_true_is_false. intros Ht.
  by rewrite (f64_lt_trans _ _ _ E Ht) in Hc.
Qed.
Lemma sep_between_cases l u : sep_between l u = f64_zero ∨ (u, sep_between l u) ∈ l.
Proof.
  unfold sep_between. destruct (List.find _ _) as [[x t]|] eqn:E; [right|by left].
  apply List.find_some in E as [Hin Hx]. apply bool_decide_eq_true in Hx. cbn in Hx. subst. by apply list_elem_of_In.
Qed.
Lemma add_sep_inv next u v s b : block_inv next b → u ∈ bl_nodes b → v ∈ bl_nodes b → next u v s → block_inv next (add_sep u v s b).
Proof.
  intros [Hnd He Hx] Hu Hv Hn. unfold add_sep. destruct (f64_lt _ s) eqn:Es; [|done].
  assert (Hs : f64_lt f64_zero s = true).
  { destruct (sep_between_cases (edges_at (bl_edges b) v) u) as [E|E]; [by rewrite E in Es|].
    apply Hx in E as [_ E]. by eapply f64_lt_trans. }
  split; cbn; [done| |].
  - intros w p. rewrite edges_at_insert. destruct (decide (w = v)) as [->|_]; [|apply He].
    intros [[_ Hp]%list_elem_of_filter| ->%list_elem_of_singleton]%elem_of_app; [by apply He|done].
  - intros w p. rewrite edges_at_insert. destruct (decide (w = v)) as [->|_]; [|apply Hx].
    intros [[_ Hp]%list_elem_of_filter| ->%list_elem_of_singleton]%elem_of_app; [by apply Hx|done].
Qed.
Lemma add_block_inv next r b : block_inv next b → block_inv next (add_block r b) ∧ r ∈ bl_nodes (add_block r b) ∧
  (∀ x, x ∈ bl_nodes b → x ∈ bl_nodes (add_block r b)) ∧ bl_edges (add_block r b) = bl_edges b.
Proof.
  intros [Hnd He Hx]. unfold add_block. destruct (decide _) as [|Hr]; [by split_and!|]. split_and!; cbn; [split; cbn|set_solver..|done].
  - apply NoDup_app. split_and!; [done|by intros x ? ->%list_elem_of_singleton|by apply NoDup_singleton].
  - intros v p Hp. destruct (He v p Hp). set_solver.
  - done.
Qed.

Section blocks.
#[local] Set Default Proof Using "Type".
Context (sep_fn : string → string → f64) (root : gmap string string) (L : list (list string)).

(** Two nodes next to each other in a row. *)
Definition next_to (u v : string) : Prop := ∃ row i, row ∈ L ∧ row !! i = Some u ∧ row !! S i = Some v.
Definition next_block (a b : string) (s : f64) : Prop :=
  ∃ u v, next_to u v ∧ root_of root u = a ∧ root_of root v = b ∧ s = sep_fn v u.
(** What a row adds. *)
Record row_added (prev : option string) (row : list string) (b b' : Blocks) : Prop := {
  ra_inv : block_inv next_block b';
  ra_old x : x ∈ bl_nodes b → x ∈ bl_nodes b';
  ra_new v : v ∈ row → root_of root v ∈ bl_nodes b';
  ra_keeps x y t : covered b x y t → covered b' x y t;
  ra_covers i u v : (match prev with Some u => u :: row | None => row end) !! i = Some u →
    (match prev with Some u => u :: row | None => row end) !! S i = Some v →
    covered b' (root_of root u) (root_of root v) (sep_fn v u)
}.
Lemma block_layer_ok row : ∀ pre prev b, pre ++ row ∈ L → last pre = prev → block_inv next_block b →
  (∀ u, prev = Some u → root_of root u ∈ bl_nodes b) →
  row_added prev row b (block_layer sep_fn root prev row b).
Proof.
  induction row as [|v row IH]; intros pre prev b Hrow Hl Hb Hp; cbn [block_layer].
  { split; [done|done|by intros v ?%elem_of_nil|done|]. intros i u v _ Hv. by destruct prev, i. }
  destruct (add_block_inv next_block (root_of root v) b Hb) as (B1 & Hv1 & Ho1 & He1). set (b1 := add_block _ b) in *.
  set (b2 := match prev with Some u => _ | None => b1 end).
  assert (B2 : block_inv next_block b2 ∧ bl_nodes b2 = bl_nodes b1 ∧ (∀ x y t, covered b1 x y t → covered b2 x y t) ∧
    ∀ u, prev = Some u → covered b2 (root_of root u) (root_of root v) (sep_fn v u)).
  { unfold b2. destruct prev as [u|]; [|done]. split_and!.
    - apply add_sep_inv; [done|by apply Ho1, Hp|done|]. exists u, v. split_and!; [|done..].
      apply last_Some in Hl as [pre' ->]. exists (pre' ++ u :: v :: row), (length pre').
      rewrite <- app_assoc in Hrow. split_and!; [done|by rewrite list_lookup_middle|]. cbn.
      rewrite lookup_app_r by lia. by replace (S (length pre') - length pre')%nat with 1%nat by lia.
    - unfold add_sep. by case_match.
    - intros x y t. apply add_sep_keeps.
    - intros u' [= <-]. apply add_sep_covers. }
  destruct B2 as (B2 & Hn2 & Hk2 & Hc2).
  destruct (IH (pre ++ [v]) (Some v) b2) as [I Io In Ik Ic]; [by rewrite <- app_assoc|by rewrite last_snoc|done|by intros u [= <-]; rewrite Hn2|].
  split; [done| | | |].
  - intros x Hx. apply Io. rewrite Hn2. by apply Ho1.
  - intros x [->|Hx]%elem_of_cons; [|by apply In]. apply Io. by rewrite Hn2.
  - intros x y t Hc. apply Ik, Hk2. unfold covered. by rewrite He1.
  - intros i x y Hx Hy. destruct prev as [u|].
    + destruct i as [|i]; [|by apply (Ic i)]. injection Hx as <-. injection Hy as <-. by apply Ik, Hc2.
    + by apply (Ic i).
Qed.
Lemma block_graph_ok : let b := build_block_graph sep_fn L root in
  block_inv next_block b ∧ (∀ row v, row ∈ L → v ∈ row → root_of root v ∈ bl_nodes b) ∧
  ∀ u v, next_to u v → covered b (root_of root u) (root_of root v) (sep_fn v u).
Proof.
  cbn zeta. unfold build_block_graph.
  assert (H : ∀ rows b, (∀ row, row ∈ rows → row ∈ L) → block_inv next_block b →
    let b' := fold_with (block_layer sep_fn root None) rows b in
    block_inv next_block b' ∧ (∀ x, x ∈ bl_nodes b → x ∈ bl_nodes b') ∧ (∀ x y t, covered b x y t → covered b' x y t) ∧
    (∀ row v, row ∈ rows → v ∈ row → root_of root v ∈ bl_nodes b') ∧
    ∀ row i u v, row ∈ rows → row !! i = Some u → row !! S i = Some v → covered b' (root_of root u) (root_of root v) (sep_fn v u)).
  { induction rows as [|row rows IH]; intros b Hr Hb; cbn [fold_with].
    { split_and!; [done..|by intros row v ?%elem_of_nil|by intros row i u v ?%elem_of_nil]. }
    destruct (block_layer_ok row [] None b) as [I Io In Ik Ic]; [apply Hr; by left|done|done|done|].
    destruct (IH (block_layer sep_fn root None row b)) as (J & Jo & Jk & Jn & Jc); [intros r ?; apply Hr; by right|done|].
    split_and!; [done|auto|auto| |].
    - intros r v [->|?]%elem_of_cons Hv; [by apply Jo, In|by apply (Jn r)].
    - intros r i u v [->|?]%elem_of_cons Hu Hv; [by apply Jk, (Ic i)|by apply (Jc r i)]. }
  destruct (H L (mkBlocks [] ∅)) as (I & _ & _ & Hn & Hc); [done| |].
  { split; [by constructor|by intros v p ?%elem_of_nil|by intros v p ?%elem_of_nil]. }
  split_and!; [done|done|]. intros u v (row & i & Hrow & Hu & Hv). by apply (Hc row i).
Qed.
End blocks.

(** A separation above zero stands on an edge. *)
Lemma covered_edge b u v s : covered b u v s → f64_lt f64_zero s = true →
  (u, sep_between (edges_at (bl_edges b) v) u) ∈ edges_at (bl_edges b) v.
Proof.
  unfold covered. intros Hc Hs. destruct (sep_between_cases (edges_at (bl_edges b) v) u) as [E|E]; [|done].
  rewrite E in Hc. congruence.
Qed.
Lemma successors_ok b u v t : (v, t) ∈ edges_at (successors_of b) u ↔ v ∈ bl_nodes b ∧ (u, t) ∈ edges_at (bl_edges b) v.
Proof.
  unfold successors_of.
  assert (Hp : ∀ target ps m, (v, t) ∈ edges_at (fold_with (push_successor target) ps m) u ↔
    (v, t) ∈ edges_at m u ∨ v = target ∧ (u, t) ∈ ps).
  { intros target ps. induction ps as [|[x s] ps IH]; intros m; cbn [fold_with].
    - rewrite elem_of_nil. tauto.
    - rewrite IH. unfold push_successor. rewrite edges_at_insert. cbn. destruct (decide (u = x)) as [->|Hne].
      + rewrite elem_of_app, list_elem_of_singleton, elem_of_cons. split; [intros [[?|[= -> ->]]|[-> ?]]; auto|].
        intros [?|[-> [[= ->]|?]]]; auto.
      + rewrite elem_of_cons. split; [intros [?|[-> ?]]; auto|]. intros [?|[-> [[= ? ?]|?]]]; auto; done. }
  assert (Hl : ∀ l m, (v, t) ∈ edges_at (fold_with (λ target m, fold_with (push_successor target) (edges_at (bl_edges b) target) m) l m) u ↔
    (v, t) ∈ edges_at m u ∨ v ∈ l ∧ (u, t) ∈ edges_at (bl_edges b) v).
  { induction l as [|x l IH]; intros m; cbn [fold_with]; [rewrite elem_of_nil; tauto|].
    rewrite IH, Hp, elem_of_cons. split; [intros [[?|[-> ?]]|[? ?]]; auto|]. intros [?|[[->|?] ?]]; auto. }
  rewrite Hl. change (edges_at (∅ : BlockEdges) u) with ([] : list (string * f64)). rewrite elem_of_nil. tauto.
Qed.

(** ** Compaction *)

Lemma fold_ext_in {A S} (f g : A → S → S) l : (∀ x s, x ∈ l → f x s = g x s) → ∀ s, fold_with f l s = fold_with g l s.
Proof.
  induction l as [|x l IH]; intros H s; cbn [fold_with]; [done|]. rewrite (H x s) by (by left). apply IH. intros y t ?. apply H. by right.
Qed.
Definition left_bound (xs : gmap string f64) (p : string * f64) (x : f64) : f64 :=
  match xs !! p.1 with Some px => f64_max x (f64_add px p.2) | None => x end.
Definition right_bound (xs : gmap string f64) (p : string * f64) (x : f64) : f64 :=
  match xs !! p.1 with Some sx => f64_min x (f64_sub sx p.2) | None => x end.
Lemma left_bound_ok xs l : ∀ a, is_nan a = false → let r := fold_with (left_bound xs) l a in
  is_nan r = false ∧ f64_lt r a = false ∧ ∀ p px, p ∈ l → xs !! p.1 = Some px → f64_lt r (f64_add px p.2) = false.
Proof.
  induction l as [|p l IH]; intros a Ha; cbn [fold_with].
  { split_and!; [done|apply f64_lt_irrefl|by intros p px ?%elem_of_nil]. }
  assert (Hb : is_nan (left_bound xs p a) = false ∧ f64_lt (left_bound xs p a) a = false).
  { unfold left_bound. destruct (xs !! p.1); [|split; [done|apply f64_lt_irrefl]]. split; [by apply f64_max_nan|apply f64_max_above]. }
  destruct Hb as [Hb1 Hb2]. destruct (IH _ Hb1) as (I1 & I2 & I3). split_and!; [done|by eapply (f64_not_lt_trans _ (left_bound xs p a))|].
  intros q px [->|Hq]%elem_of_cons Hx; [|by apply I3]. eapply (f64_not_lt_trans _ (left_bound xs p a)); [done| |done].
  unfold left_bound. rewrite Hx. apply f64_max_above.
Qed.
Lemma right_bound_ok xs l : ∀ a, is_nan a = false → let r := fold_with (right_bound xs) l a in
  is_nan r = false ∧ f64_lt a r = false ∧ ∀ p sx, p ∈ l → xs !! p.1 = Some sx → f64_lt (f64_sub sx p.2) r = false.
Proof.
  induction l as [|p l IH]; intros a Ha; cbn [fold_with].
  { split_and!; [done|apply f64_lt_irrefl|by intros p px ?%elem_of_nil]. }
  assert (Hb : is_nan (right_bound xs p a) = false ∧ f64_lt a (right_bound xs p a) = false).
  { unfold right_bound. destruct (xs !! p.1); [|split; [done|apply f64_lt_irrefl]]. split; [by apply f64_min_nan|apply f64_min_below]. }
  destruct Hb as [Hb1 Hb2]. destruct (IH _ Hb1) as (I1 & I2 & I3). split_and!; [done|by eapply (f64_not_lt_trans _ (right_bound xs p a))|].
  intros q px [->|Hq]%elem_of_cons Hx; [|by apply I3]. eapply (f64_not_lt_trans _ (right_bound xs p a)); [done|done|].
  unfold right_bound. rewrite Hx. apply f64_min_below.
Qed.

Section compaction.
#[local] Set Default Proof Using "All".
Context (g : DagreGraph) (skip : string) (b : Blocks).
Context (Hnd : NoDup (bl_nodes b)) (Hends : ∀ v p, p ∈ edges_at (bl_edges b) v → p.1 ∈ bl_nodes b ∧ v ∈ bl_nodes b).
(** Blocks in an order: their edges go up in it. *)
Context (h : string → nat) (Hh : ∀ v p, p ∈ edges_at (bl_edges b) v → (h p.1 < h v)%nat).

Definition left_place (xs : gmap string f64) (v : string) : f64 := fold_with (left_bound xs) (edges_at (bl_edges b) v) f64_zero.
Record left_inv (X : gset string) (xs : gmap string f64) : Prop := {
  li_dom v : is_Some (xs !! v) → v ∈ X;
  li_val v : v ∈ X → xs !! v = Some (left_place xs v);
  li_preds v p : v ∈ X → p ∈ edges_at (bl_edges b) v → p.1 ∈ X
}.
Lemma left_step x X xs : (∀ n, n ∈ (edges_at (bl_edges b) x).*1 → n ∈ X) → left_inv X xs →
  left_inv ({[x]} ∪ X) (place_left (bl_edges b) x xs).
Proof.
  intros Hx [Hd Hv Hp]. change (place_left (bl_edges b) x xs) with (<[x := left_place xs x]> xs).
  assert (Hx' : ∀ p, p ∈ edges_at (bl_edges b) x → p.1 ∈ X) by (intros p Hp'; apply Hx, list_elem_of_fmap; by exists p).
  assert (Heq : ∀ v, v = x ∨ v ∈ X → left_place (<[x := left_place xs x]> xs) v = left_place xs v).
  { intros v Hvx. destruct (decide (x ∈ X)) as [HX|HX]; [by rewrite insert_id by (by apply Hv)|].
    unfold left_place at 1 3. apply fold_ext_in. intros p a Hpv. unfold left_bound.
    assert (p.1 ∈ X) by (destruct Hvx as [->|?]; [by apply Hx'|by eapply Hp]). rewrite lookup_insert_ne; [done|congruence]. }
  split.
  - intros v. destruct (decide (v = x)) as [->|Hne]; [set_solver|]. rewrite lookup_insert_ne by done. intros ?%Hd. set_solver.
  - intros v Hvx. destruct (decide (v = x)) as [->|Hne]; [rewrite lookup_insert_eq, Heq by (by left); done|].
    rewrite lookup_insert_ne by done. rewrite Heq by set_solver. apply Hv. set_solver.
  - intros v p [->%elem_of_singleton|HvX]%elem_of_union Hpv; apply elem_of_union; right; [by apply Hx'|by eapply Hp].
Qed.
Lemma left_pass : ∃ xs, dfs_iterate (λ v, (edges_at (bl_edges b) v).*1) (place_left (bl_edges b)) (bl_nodes b) ∅ = Done xs ∧
  (∀ v, v ∈ bl_nodes b → ∃ x, xs !! v = Some x ∧ is_nan x = false ∧ f64_lt x f64_zero = false) ∧
  ∀ u v t x y, (u, t) ∈ edges_at (bl_edges b) v → xs !! u = Some x → xs !! v = Some y → f64_lt y (f64_add x t) = false.
Proof.
  assert (Hn : ∀ v n, v ∈ bl_nodes b → n ∈ (edges_at (bl_edges b) v).*1 → n ∈ bl_nodes b).
  { intros v n _ (p & -> & Hp)%list_elem_of_fmap. apply (Hends v p Hp). }
  destruct (dfs_iterate_ends _ (place_left (bl_edges b)) (bl_nodes b) Hn ∅ Hnd) as [xs E]. exists xs. split; [done|].
  destruct (dfs_iterate_inv _ (place_left (bl_edges b)) (bl_nodes b) Hn h) with (I := left_inv) (s := ∅ : gmap string f64) (s' := xs) as (X & [Hd Hv Hp] & HX);
    [|by intros x X s _; apply left_step| |done|].
  - intros v n _ (p & -> & Hpv)%list_elem_of_fmap. by apply Hh.
  - split; [intros v; rewrite lookup_empty; by intros []|set_solver..].
  - split.
    + intros v Hvb. exists (left_place xs v). split; [by apply Hv, HX|]. split; by apply left_bound_ok.
    + intros u v t x y Huv Hu Hvy. assert (v ∈ X) by (apply Hd; by eexists). rewrite (Hv v) in Hvy by done. injection Hvy as <-.
      by apply (proj2 (proj2 (left_bound_ok xs (edges_at (bl_edges b) v) f64_zero eq_refl)) (u, t)).
Qed.

Let succs := successors_of b.
Context (xs1 : gmap string f64).
Definition pulls (m : f64) (v : string) : bool :=
  negb (f64_eqb m f64_infinity) && negb (bool_decide (border_type_of g v = Some skip)).
Definition pulled (xs : gmap string f64) (v : string) : option f64 :=
  let m := nearest_right succs xs v in if pulls m v then (λ x, f64_max x m) <$> xs1 !! v else xs1 !! v.
Record right_inv (X : gset string) (xs : gmap string f64) : Prop := {
  ri_out v : v ∉ X → xs !! v = xs1 !! v;
  ri_val v : v ∈ X → xs !! v = pulled xs v;
  ri_succs v p : v ∈ X → p ∈ edges_at succs v → p.1 ∈ X
}.
Lemma nearest_ext xs xs' v : (∀ p, p ∈ edges_at succs v → xs' !! p.1 = xs !! p.1) → nearest_right succs xs' v = nearest_right succs xs v.
Proof. intros H. apply fold_ext_in. intros p a Hp. by rewrite H. Qed.
Lemma pull_lookup xs x v : pull_right g skip succs x xs !! v =
  if decide (v = x) then (if pulls (nearest_right succs xs x) x then (λ y, f64_max y (nearest_right succs xs x)) <$> xs !! x else xs !! x) else xs !! v.
Proof.
  unfold pull_right. fold (pulls (nearest_right succs xs x) x). destruct (pulls _ x), (decide (v = x)) as [->|Hne]; try done.
  - by rewrite lookup_alter_eq.
  - by rewrite lookup_alter_ne.
Qed.
Lemma right_step x X xs : x ∈ bl_nodes b → (∀ n, n ∈ (edges_at succs x).*1 → n ∈ X) → right_inv X xs →
  right_inv ({[x]} ∪ X) (pull_right g skip succs x xs).
Proof.
  intros Hxb Hx [Ho Hv Hs]. set (xs' := pull_right g skip succs x xs).
  assert (Hx' : ∀ p, p ∈ edges_at succs x → p.1 ∈ X) by (intros p Hp; apply Hx, list_elem_of_fmap; by exists p).
  assert (Hself : ∀ v p, p ∈ edges_at succs v → p.1 ≠ v).
  { intros v [w t] Hp%successors_ok E. cbn in E. subst. destruct Hp as [_ Hp]. specialize (Hh _ _ Hp). cbn in Hh. lia. }
  assert (Hsame : x ∈ X → xs' = xs).
  { intros HX. apply map_eq. intros v. unfold xs'. rewrite pull_lookup. destruct (decide (v = x)) as [->|]; [|done].
    rewrite (Hv x HX). unfold pulled. destruct (pulls _ x); [|done]. destruct (xs1 !! x); cbn; [|done]. by rewrite f64_max_again. }
  assert (Hne : ∀ v, v ≠ x → xs' !! v = xs !! v) by (intros v ?; unfold xs'; by rewrite pull_lookup, decide_False).
  assert (Heq : ∀ v, v = x ∨ v ∈ X → nearest_right succs xs' v = nearest_right succs xs v).
  { intros v Hvx. destruct (decide (x ∈ X)) as [HX|HX]; [by rewrite Hsame|]. apply nearest_ext. intros p Hp. apply Hne.
    destruct Hvx as [->|Hvx]; [by apply Hself|]. specialize (Hs v p Hvx Hp). congruence. }
  split.
  - intros v Hvx. rewrite Hne by set_solver. apply Ho. set_solver.
  - intros v Hvx. unfold pulled. rewrite Heq by set_solver. destruct (decide (v = x)) as [->|Hvne].
    + unfold xs'. rewrite pull_lookup, decide_True by done. destruct (decide (x ∈ X)) as [HX|HX]; [|by rewrite Ho].
      rewrite (Hv x HX). unfold pulled. destruct (pulls _ x); [|done]. destruct (xs1 !! x); cbn; [|done]. by rewrite f64_max_again.
    + rewrite Hne by done. rewrite Hv by set_solver. done.
  - intros v p [->%elem_of_singleton|HvX]%elem_of_union Hpv; apply elem_of_union; right; [by apply Hx'|by eapply Hs].
Qed.
(** [y] is at least [t] to the right of [x], or [x] to the left of [y]: sums and
    differences round, so that it need not be both.  No NaN is apart. *)
Definition apart (x y t : f64) : Prop := f64_le (f64_add x t) y = true ∨ f64_le x (f64_sub y t) = true.
Lemma apart_of x y t : is_nan x = false → f64_lt x f64_zero = false → is_nan y = false → f64_lt f64_zero t = true →
  f64_lt y (f64_add x t) = false ∨ f64_lt (f64_sub y t) x = false → apart x y t.
Proof.
  clear. intros Nx Px Ny Pt Ha. assert (Nt : is_nan t = false) by (by apply f64_lt_key in Pt as (_ & ? & _)).
  destruct Ha as [Ha|Ha]; [left; apply f64_not_lt_le; [by apply f64_add_num|done..]|].
  destruct (decide (y = f64_infinity ∧ t = f64_infinity)) as [[-> ->]|Hi].
  - left. by destruct x as [[]|[]| |[] ? ?].
  - right. apply f64_not_lt_le; [done| |done]. apply f64_sub_num; [done|done| |done]. intros -> ->. by apply Hi.
Qed.
Context (Hpos : ∀ v p, p ∈ edges_at (bl_edges b) v → f64_lt f64_zero p.2 = true).
Context (Hsome : ∀ v, v ∈ bl_nodes b → ∃ x, xs1 !! v = Some x ∧ is_nan x = false ∧ f64_lt x f64_zero = false).
Context (Hleft : ∀ u v t x y, (u, t) ∈ edges_at (bl_edges b) v → xs1 !! u = Some x → xs1 !! v = Some y → f64_lt y (f64_add x t) = false).
Lemma right_pass : ∃ xs, dfs_iterate (λ v, (edges_at succs v).*1) (pull_right g skip succs) (bl_nodes b) xs1 = Done xs ∧
  (∀ v, v ∈ bl_nodes b → is_Some (xs !! v)) ∧
  ∀ u v t x y, (u, t) ∈ edges_at (bl_edges b) v → xs !! u = Some x → xs !! v = Some y → apart x y t.
Proof.
  assert (Hn : ∀ v n, v ∈ bl_nodes b → n ∈ (edges_at succs v).*1 → n ∈ bl_nodes b ∧ (h v < h n)%nat).
  { intros v n _ ([w t] & -> & [Hw Hp]%successors_ok)%list_elem_of_fmap. split; [done|]. apply (Hh w (v, t) Hp). }
  destruct (dfs_iterate_ends (λ v, (edges_at succs v).*1) (pull_right g skip succs) (bl_nodes b) (λ v n Hv Hi, proj1 (Hn v n Hv Hi)) xs1 Hnd) as [xs E].
  exists xs. split; [done|]. set (M := foldr Nat.max 0%nat (h <$> bl_nodes b)).
  assert (HM : ∀ v, v ∈ bl_nodes b → (h v ≤ M)%nat).
  { unfold M. clear. intros v. induction (bl_nodes b) as [|x l IH]; [by intros ?%elem_of_nil|]. cbn. intros [->|?%IH]%elem_of_cons; lia. }
  destruct (dfs_iterate_inv _ (pull_right g skip succs) (bl_nodes b) (λ v n Hv Hi, proj1 (Hn v n Hv Hi)) (λ v, M - h v)%nat)
    with (I := right_inv) (s := xs1) (s' := xs) as (X & [Ho Hv Hs] & HX); [| |split; [done|set_solver..]|done|].
  - intros v n Hvb Hi. destruct (Hn v n Hvb Hi) as [Hnb Hlt]. specialize (HM n Hnb). lia.
  - intros x X s Hxb Hx I. by apply right_step.
  - assert (Hval : ∀ v, v ∈ bl_nodes b → ∃ x y, xs1 !! v = Some x ∧ is_nan x = false ∧ xs !! v = Some y ∧ f64_lt y x = false ∧
      (y = x ∨ y = nearest_right succs xs v) ∧ is_nan y = false ∧ f64_lt y f64_zero = false).
    { intros v Hvb. destruct (Hsome v Hvb) as (x & Hx & Hnan & Hnn). specialize (Hv v (HX v Hvb)). unfold pulled in Hv. rewrite Hx in Hv.
      destruct (pulls _ v); cbn in Hv; (eexists x, _; split_and!; [done|done|exact Hv|..]).
      - apply f64_max_above.
      - unfold f64_max. rewrite Hnan. repeat case_match; by auto.
      - by apply f64_max_nan.
      - eapply (f64_not_lt_trans _ x); [done|done|apply f64_max_above].
      - apply f64_lt_irrefl.
      - by left.
      - done.
      - done. }
    split.
    + intros v Hvb. destruct (Hval v Hvb) as (x & y & _ & _ & -> & _). by eexists.
    + intros u v t x y Huv Hu Hvy. destruct (Hends v (u, t) Huv) as [Hub Hvb]. cbn in Hub.
      destruct (Hval u Hub) as (x1 & x' & Hx1 & _ & Hx & _ & Hux & Nx & Px).
      destruct (Hval v Hvb) as (y1 & y' & Hy1 & Hny & Hy & Hge & _ & Ny & _).
      rewrite Hu in Hx. rewrite Hvy in Hy. injection Hx as <-. injection Hy as <-.
      apply apart_of; [done|done|done|by apply (Hpos v (u, t))|]. destruct Hux as [->| ->].
      * left. eapply (f64_not_lt_trans _ y1); [done|by eapply Hleft|done].
      * right. apply (proj2 (proj2 (right_bound_ok xs (edges_at succs u) f64_infinity eq_refl)) (v, t)); [|done].
        by apply successors_ok.
Qed.
End compaction.

Lemma compact_ok g b h reverse_sep : NoDup (bl_nodes b) →
  (∀ v p, p ∈ edges_at (bl_edges b) v → p.1 ∈ bl_nodes b ∧ v ∈ bl_nodes b) → (∀ v p, p ∈ edges_at (bl_edges b) v → (h p.1 < h v)%nat) →
  (∀ v p, p ∈ edges_at (bl_edges b) v → f64_lt f64_zero p.2 = true) →
  ∃ xs, compact_blocks g b reverse_sep = Done xs ∧ (∀ v, v ∈ bl_nodes b → is_Some (xs !! v)) ∧
    ∀ u v t x y, (u, t) ∈ edges_at (bl_edges b) v → xs !! u = Some x → xs !! v = Some y → apart x y t.
Proof.
  intros Hnd He Hh Hp. destruct (left_pass g "" b Hnd He h Hh) as (xs1 & E1 & Hs1 & Hl1).
  destruct (right_pass g (skip_border_type reverse_sep) b Hnd He h Hh xs1 Hp Hs1 Hl1) as (xs & E & Hs & Ha).
  exists xs. split_and!; [|done..]. unfold compact_blocks. by rewrite E1, bind_done.
Qed.
(** The searches end whatever the order of the blocks. *)
Lemma compact_ends g b reverse_sep : NoDup (bl_nodes b) →
  (∀ v p, p ∈ edges_at (bl_edges b) v → p.1 ∈ bl_nodes b ∧ v ∈ bl_nodes b) → ∃ xs, compact_blocks g b reverse_sep = Done xs.
Proof.
  intros Hnd He. unfold compact_blocks.
  destruct (dfs_iterate_ends (λ v, (edges_at (bl_edges b) v).*1) (place_left (bl_edges b)) (bl_nodes b)) with (s := ∅ : gmap string f64) as [xs1 ->];
    [|done|rewrite bind_done; apply dfs_iterate_ends; [|done]].
  - intros v n _ (p & -> & Hp)%list_elem_of_fmap. apply (He v p Hp).
  - intros v n _ ([w t] & -> & [Hw _]%successors_ok)%list_elem_of_fmap. done.
Qed.

(** ** Orders *)

Lemma weave (rs : list string) : ∀ l, NoDup l → NoDup rs → filter (λ x, x ∈ l) rs `sublist_of` l →
  ∃ l', NoDup l' ∧ l `sublist_of` l' ∧ rs `sublist_of` l' ∧ ∀ x, x ∈ l' ↔ x ∈ l ∨ x ∈ rs.
Proof.
  induction rs as [|r rs IH]; intros l Hl Hrs Hf.
  { exists l. split_and!; [done|done|apply sublist_nil_l|]. intros x. rewrite elem_of_nil. tauto. }
  apply NoDup_cons in Hrs as [Hr Hrs]. rewrite filter_cons in Hf. destruct (decide (r ∈ l)) as [Hrl|Hrl].
  - apply sublist_cons_l in Hf as (A & B & -> & Hf). apply NoDup_app in Hl as (HA & HAB & [HrB HB]%NoDup_cons).
    assert (Hin : ∀ x, x ∈ rs → x ∈ A ++ r :: B → x ∈ B).
    { intros x Hx Hxl. apply sublist_submseteq in Hf. eapply elem_of_submseteq; [|exact Hf]. by apply list_elem_of_filter. }
    destruct (IH B HB Hrs) as (B' & HB' & HsB & Hsr & Hel).
    { erewrite filter_ext_in; [exact Hf|]. intros x Hx. split; [set_solver|by apply Hin]. }
    exists (A ++ r :: B'). split_and!.
    + apply NoDup_app. split_and!; [done| |apply NoDup_cons; split; [|done]].
      * intros x HxA [->|[HxB|Hxr]%Hel]%elem_of_cons; [by apply (HAB r HxA); left|by apply (HAB x HxA); right|].
        apply (HAB x HxA). right. apply Hin; [done|set_solver].
      * by intros [?|?]%Hel.
    + by apply sublist_app, sublist_skip.
    + apply sublist_inserts_l. by apply sublist_skip.
    + intros x. rewrite !elem_of_app, !elem_of_cons, Hel. tauto.
  - destruct (IH l Hl Hrs Hf) as (l' & Hl' & Hs & Hsr & Hel). exists (r :: l'). split_and!.
    + apply NoDup_cons. split; [|done]. by intros [?|?]%Hel.
    + by apply sublist_cons.
    + by apply sublist_skip.
    + intros x. rewrite !elem_of_cons, Hel. tauto.
Qed.
Definition index_in (l : list string) (x : string) : nat := default 0%nat (fst <$> list_find (λ y, y = x) l).
Lemma index_in_lookup l i x : NoDup l → l !! i = Some x → index_in l x = i.
Proof.
  intros Hnd Hi. unfold index_in. destruct (list_find (λ y, y = x) l) as [[j y]|] eqn:E; cbn.
  - apply list_find_Some in E as (Hj & -> & _). by eapply NoDup_lookup.
  - exfalso. eapply list_find_None in E. rewrite Forall_forall in E. apply (E x); [by eapply list_elem_of_lookup_2|done].
Qed.
Lemma sublist_indices (a l : list string) i x y : a `sublist_of` l → a !! i = Some x → a !! S i = Some y → ∃ p q, (p < q)%nat ∧ l !! p = Some x ∧ l !! q = Some y.
Proof.
  intros Hs. revert i. induction Hs as [|z a l Hs IH|z a l Hs IH]; intros i Hx Hy; [done| |].
  - destruct i as [|i].
    + injection Hx as ->. cbn in Hy. assert (Hin : y ∈ l) by (eapply elem_of_submseteq; [by eapply list_elem_of_lookup_2|by apply sublist_submseteq]).
      apply list_elem_of_lookup_1 in Hin as [q Hq]. exists 0%nat, (S q). split_and!; [lia|done|done].
    + destruct (IH i Hx Hy) as (p & q & ? & ? & ?). exists (S p), (S q). split_and!; [lia|done|done].
  - destruct (IH i Hx Hy) as (p & q & ? & ? & ?). exists (S p), (S q). split_and!; [lia|done|done].
Qed.

(** ** Alignment *)

Lemma row_positions row : NoDup row → ∀ k (m : gmap string nat),
  (∀ j v, row !! j = Some v → fold_with (λ p m, <[p.2 := p.1]> m) (imap (λ i v, (k + i, v)%nat) row) m !! v = Some (k + j)%nat) ∧
  ∀ v, v ∉ row → fold_with (λ p m, <[p.2 := p.1]> m) (imap (λ i v, (k + i, v)%nat) row) m !! v = m !! v.
Proof.
  induction row as [|x row IH]; intros Hnd k m; cbn [imap fold_with]; [done|]. apply NoDup_cons in Hnd as [Hx Hnd].
  assert (E : imap ((λ i v, ((k + i)%nat, v)) ∘ S) row = imap (λ i v, ((S k + i)%nat, v)) row).
  { apply imap_ext. intros i v _. cbn. f_equal. lia. }
  rewrite E. destruct (IH Hnd (S k) (<[(k + 0, x)%nat.2 := (k + 0, x)%nat.1]> m)) as [H1 H2]. split.
  - intros [|j] v Hv; [injection Hv as <-; rewrite H2 by done; apply lookup_insert_eq|]. rewrite (H1 j v Hv). f_equal. lia.
  - intros v Hv. rewrite H2 by set_solver. rewrite lookup_insert_ne; [done|]. cbn. set_solver.
Qed.
Definition place_row (row : list string) (m : gmap string nat) : gmap string nat :=
  fold_with (λ p m, <[p.2 := p.1]> m) (imap pair row) m.
Lemma place_row_in row j v m : NoDup row → row !! j = Some v → place_row row m !! v = Some j.
Proof. intros Hnd Hv. exact (proj1 (row_positions row Hnd 0 m) j v Hv). Qed.
Lemma place_row_out row v m : NoDup row → v ∉ row → place_row row m !! v = m !! v.
Proof. intros Hnd Hv. exact (proj2 (row_positions row Hnd 0 m) v Hv). Qed.
Lemma place_rows_out rows v : ∀ m, NoDup (concat rows) → v ∉ concat rows → fold_with place_row rows m !! v = m !! v.
Proof.
  induction rows as [|row rows IH]; intros m Hnd Hv; cbn [fold_with]; [done|]. cbn in Hnd, Hv. apply NoDup_app in Hnd as (Hr & _ & Hnd).
  rewrite IH by set_solver. apply place_row_out; set_solver.
Qed.
Lemma positions_ok layers row j w : NoDup (concat layers) → row ∈ layers → row !! j = Some w → positions_of layers !! w = Some j.
Proof.
  change (positions_of layers) with (fold_with place_row layers ∅). generalize (∅ : gmap string nat).
  induction layers as [|r layers IH]; intros m Hnd Hr Hw; [by apply elem_of_nil in Hr|].
  cbn [fold_with]. cbn in Hnd. apply NoDup_app in Hnd as (Hr1 & Hd & Hl). apply elem_of_cons in Hr as [->|Hr]; [|by apply IH].
  rewrite place_rows_out; [by apply place_row_in|done|]. apply Hd. by eapply list_elem_of_lookup_2.
Qed.

Section alignment.
#[local] Set Default Proof Using "Type".
Context (conflicts : Conflicts) (pos : gmap string nat) (nbr : string → list string).

Definition link_up (v w r : string) (a : Alignment) : Alignment :=
  mkAlign (<[v := r]> (al_root a)) (<[v := r]> (<[w := v]> (al_align a))).
Lemma try_align_cases v w a prev : try_align conflicts pos v w (a, prev) = (a, prev) ∨
  prev < Z.of_nat (index_of pos w) ∧ has_conflict conflicts v w = false ∧
  try_align conflicts pos v w (a, prev) = (link_up v w (default w (al_root a !! w)) a, Z.of_nat (index_of pos w)).
Proof.
  unfold try_align. destruct (bool_decide _); cbn; [|by left]. destruct (Z.ltb_spec prev (Z.of_nat (index_of pos w))); cbn; [|by left].
  destruct (has_conflict conflicts v w); cbn; [by left|]. by right.
Qed.
Lemma aligned_once v l a prev r : al_align a !! v = Some r → r ≠ v → fold_with (try_align conflicts pos v) l (a, prev) = (a, prev).
Proof.
  intros Ha Hr. induction l as [|w l IH]; cbn [fold_with]; [done|]. unfold try_align at 2. by rewrite bool_decide_false by congruence.
Qed.
(** A node is left alone or put below one neighbour, right of the last one used. *)
Lemma align_node_cases v a prev : (∀ w, w ∈ nbr v → ∃ r, al_root a !! w = Some r ∧ r ≠ v) →
  align_node conflicts pos nbr v (a, prev) = (a, prev) ∨
  ∃ w r, w ∈ nbr v ∧ has_conflict conflicts v w = false ∧ prev < Z.of_nat (index_of pos w) ∧ al_root a !! w = Some r ∧
    align_node conflicts pos nbr v (a, prev) = (link_up v w r a, Z.of_nat (index_of pos w)).
Proof.
  intros Hw. unfold align_node.
  assert (Hl : ∀ w, w ∈ medians (sort_by (by_pos pos) (nbr v)) → w ∈ nbr v).
  { intros w Hin. unfold medians in Hin. apply (sort_by_elem (by_pos pos)).
    eapply elem_of_submseteq; [exact Hin|]. apply sublist_submseteq. etrans; [apply sublist_take|apply sublist_drop]. }
  revert Hl. generalize (medians (sort_by (by_pos pos) (nbr v))). induction l as [|w l IH]; intros Hl; cbn [fold_with]; [by left|].
  destruct (try_align_cases v w a prev) as [->|(Hp & Hc & E)]; [apply IH; intros x ?; apply Hl; by right|].
  right. destruct (Hw w (Hl w ltac:(by left))) as (r & Hr & Hne). exists w, r. split_and!; [apply Hl; by left|done..|].
  rewrite E, Hr. cbn [default]. apply (aligned_once _ _ _ _ r); [|done]. unfold link_up. cbn. apply lookup_insert_eq.
Qed.

(** What was chosen for a node of a row: a neighbour above, or nothing. *)
Definition chosen (a a' : Alignment) (v : string) (c : option string) : Prop :=
  match c with
  | Some w => w ∈ nbr v ∧ has_conflict conflicts v w = false ∧ al_root a' !! v = al_root a !! w
  | None => al_root a' !! v = Some v
  end.
Record row_aligned (a : Alignment) (up pre : list string) (s : Alignment * Z) (cs : list (option string)) : Prop := {
  rw_other x : x ∉ pre → al_root s.1 !! x = al_root a !! x;
  rw_prev : -1 ≤ s.2;
  rw_chosen : Forall2 (chosen a s.1) pre cs;
  rw_order : omap id cs `sublist_of` take (Z.to_nat (s.2 + 1)) up
}.
Lemma align_row a up row : NoDup up → NoDup row →
  (∀ v, v ∈ row → al_root a !! v = Some v) → (∀ v w, v ∈ row → w ∈ nbr v → w ∈ up) →
  (∀ w, w ∈ up → w ∉ row ∧ ∃ r, al_root a !! w = Some r ∧ r ∉ row) →
  (∀ j w, up !! j = Some w → index_of pos w = j) →
  ∃ cs, row_aligned a up row (fold_with (align_node conflicts pos nbr) row (a, -1)) cs.
Proof.
  intros Hup Hnd Hroot Hnbr Hw Hpos.
  assert (H : ∀ post pre s cs, row = pre ++ post → row_aligned a up pre s cs →
    ∃ cs', row_aligned a up row (fold_with (align_node conflicts pos nbr) post s) cs').
  2: { apply (H row [] (a, -1) []); [done|]. split; [done|done|constructor|apply sublist_nil_l]. }
  induction post as [|v post IH]; intros pre [a1 prev] cs Er [Ho Hp Hc Hs]; cbn [fold_with fst snd] in *.
  { rewrite app_nil_r in Er. subst pre. exists cs. by split. }
  assert (Hv : v ∈ row) by (rewrite Er; set_solver).
  assert (Hvp : v ∉ pre). { rewrite Er in Hnd. apply NoDup_app in Hnd as (_ & Hd & _). intros ?. apply (Hd v); set_solver. }
  assert (Hpre : ∀ x, x ∈ pre → x ∈ row) by (rewrite Er; set_solver).
  assert (Hr1 : ∀ w, w ∈ up → al_root a1 !! w = al_root a !! w) by (intros w [Hwr _]%Hw; apply Ho; auto).
  destruct (align_node_cases v a1 prev) as [->|(w & r & Hin & Hnc & Hlt & Hr & ->)].
  - intros w Hin. specialize (Hnbr v w Hv Hin). destruct (Hw w Hnbr) as (_ & r & Hr & Hne). exists r.
    split; [by rewrite Hr1|congruence].
  - apply (IH (pre ++ [v]) (a1, prev) (cs ++ [None])); [by rewrite <- app_assoc|]. split; cbn; [intros x ?; apply Ho; set_solver|done| |].
    + apply Forall2_app; [done|]. constructor; [|constructor]. cbn. rewrite Ho by done. by apply Hroot.
    + by rewrite omap_app, app_nil_r.
  - specialize (Hnbr v w Hv Hin). apply list_elem_of_lookup_1 in Hnbr as [j Hj]. rewrite (Hpos j w Hj) in *.
    apply (IH (pre ++ [v]) _ (cs ++ [Some w])); [by rewrite <- app_assoc|]. split; cbn.
    + intros x Hx. rewrite lookup_insert_ne by set_solver. apply Ho. set_solver.
    + lia.
    + apply Forall2_app; [|constructor; [|constructor]].
      * eapply NormalizeFacts.Forall2_impl_in; [exact Hc|]. intros x c Hx Hch. unfold chosen in *. cbn.
        rewrite (lookup_insert_ne (al_root a1)) by congruence. done.
      * cbn. split_and!; [done|done|]. rewrite lookup_insert_eq, <- Hr. apply Hr1. by eapply list_elem_of_lookup_2.
    + rewrite omap_app. cbn. replace (Z.to_nat (Z.of_nat j + 1)) with (S j) by lia. rewrite (take_S_r _ _ _ Hj).
      apply sublist_app; [|done]. etrans; [exact Hs|]. replace (take (Z.to_nat (prev + 1)) up) with (take (Z.to_nat (prev + 1)) (take j up)); [apply sublist_take|].
      rewrite take_take. f_equal. lia.
Qed.
End alignment.

(** ** Blocks *)

(** The roots of a row: those of blocks from above come in the order of the
    nodes above, all others are new. *)
Lemma roots_split conflicts nbr a a' row cs order : Forall2 (chosen conflicts nbr a a') row cs → NoDup row → NoDup order →
  (∀ v, v ∈ row → v ∉ order) → (∀ w, w ∈ omap id cs → is_Some (al_root a !! w) ∧ root_of (al_root a) w ∈ order) →
  NoDup (root_of (al_root a) <$> omap id cs) →
  let rs := root_of (al_root a') <$> row in
  filter (λ x, x ∈ order) rs = root_of (al_root a) <$> omap id cs ∧ NoDup rs ∧ ∀ x, x ∈ rs → x ∈ order ∨ x ∈ row.
Proof.
  intros Hc Hnd Ho Hout. cbn zeta. induction Hc as [|v c row cs Hv Hc IH]; intros Hin Hnr;
    [split_and!; [done|by apply NoDup_nil|by intros x ?%elem_of_nil]|].
  apply NoDup_cons in Hnd as [Hvr Hnd]. cbn [fmap list_fmap].
  destruct c as [w|]; cbn [omap list_omap id] in *.
  - apply NoDup_cons in Hnr as [Hwr Hnr]. destruct IH as (I1 & I2 & I3); [done|set_solver|set_solver|done|].
    destruct Hv as (_ & _ & Hv). destruct (Hin w ltac:(by left)) as [[r Hr] Hro].
    assert (E : root_of (al_root a') v = root_of (al_root a) w) by (unfold root_of; by rewrite Hv, Hr). rewrite E. split_and!.
    + rewrite filter_cons, decide_True by done. by rewrite I1.
    + apply NoDup_cons. split; [|done]. intros Hi. apply Hwr.
      assert (Hf : root_of (al_root a) w ∈ filter (λ x, x ∈ order) (root_of (al_root a') <$> row)) by (by apply list_elem_of_filter).
      rewrite I1 in Hf. exact Hf.
    + intros x [->|?%I3]%elem_of_cons; [by left|set_solver].
  - destruct IH as (I1 & I2 & I3); [done|set_solver|done|done|]. cbn in Hv.
    assert (E : root_of (al_root a') v = v) by (unfold root_of; by rewrite Hv). rewrite E.
    assert (Hvo : v ∉ order) by (apply Hout; by left). split_and!.
    + by rewrite filter_cons, decide_False.
    + apply NoDup_cons. split; [|done]. intros [?|?]%I3; [done|done].
    + intros x [->|?%I3]%elem_of_cons; [right; by left|set_solver].
Qed.

Section rows.
#[local] Set Default Proof Using "Type".
Context (conflicts : Conflicts) (nbr : string → list string) (layers : list (list string)).
Context (Hnd : NoDup (concat layers)).
(** Neighbours are in the row before. *)
Context (Hnbr : ∀ pre row post v w, layers = pre ++ row :: post → v ∈ row → w ∈ nbr v → ∃ up, last pre = Some up ∧ w ∈ up).

Record rows_aligned (pre : list (list string)) (a : Alignment) : Prop := {
  rl_rest v : v ∈ concat layers → v ∉ concat pre → al_root a !! v = Some v;
  rl_root row v : row ∈ pre → v ∈ row → is_Some (al_root a !! v) ∧
    (al_root a !! v = Some v ∨ ∃ w, w ∈ nbr v ∧ has_conflict conflicts v w = false ∧ al_root a !! v = al_root a !! w);
  rl_order : ∃ order, NoDup order ∧ (∀ x, x ∈ order → x ∈ concat pre) ∧ ∀ row, row ∈ pre → root_of (al_root a) <$> row `sublist_of` order
}.
Lemma in_concat_row (rows : list (list string)) row v : row ∈ rows → v ∈ row → v ∈ concat rows.
Proof. intros Hr Hv. apply list_elem_of_In, in_concat. exists row. by rewrite <- !list_elem_of_In. Qed.
Lemma concat_row (rows : list (list string)) v : v ∈ concat rows → ∃ row, row ∈ rows ∧ v ∈ row.
Proof. intros Hv%list_elem_of_In%in_concat. destruct Hv as (row & ? & ?). exists row. by rewrite !list_elem_of_In. Qed.
Lemma sublist_nodup {A} (l k : list A) : l `sublist_of` k → NoDup k → NoDup l.
Proof. intros Hs. induction Hs as [|x l k Hs IH|x l k Hs IH]; [done| |]; intros [Hx Hk]%NoDup_cons; [|by apply IH].
  apply NoDup_cons. split; [|by apply IH]. intros Hl. apply Hx. eapply elem_of_submseteq; [done|by apply sublist_submseteq]. Qed.
Lemma align_rows_step pre row post a : layers = pre ++ row :: post → rows_aligned pre a →
  rows_aligned (pre ++ [row]) (align_layer conflicts (positions_of layers) nbr row a).
Proof using Hnd Hnbr.
  intros El [Hrest Hroot (order & Ho & Hop & Hos)].
  assert (Hc : concat layers = concat pre ++ row ++ concat post) by (rewrite El, concat_app; done).
  pose proof Hnd as Hd. rewrite Hc in Hd. apply NoDup_app in Hd as (Hpre & Hd1 & (Hrow & Hd2 & Hpost)%NoDup_app).
  set (up := default [] (last pre)).
  assert (Hup : up = [] ∨ up ∈ pre).
  { unfold up. destruct (last pre) as [u|] eqn:E; [right|by left]. apply last_Some in E as [p ->]. set_solver. }
  assert (Hupc : ∀ w, w ∈ up → up ∈ pre ∧ w ∈ concat pre).
  { intros w Hw. destruct Hup as [E|Hup]; [rewrite E in Hw; by apply elem_of_nil in Hw|]. split; [done|by eapply in_concat_row]. }
  assert (Hrt : ∀ w, w ∈ up → ∃ r, al_root a !! w = Some r ∧ r ∈ order).
  { intros w Hw. destruct (Hupc w Hw) as [Hu _]. destruct (Hroot up w Hu Hw) as [[r Hr] _]. exists r. split; [done|].
    eapply elem_of_submseteq; [|apply sublist_submseteq, (Hos up Hu)]. apply list_elem_of_fmap. exists w. unfold root_of. by rewrite Hr. }
  destruct (align_row conflicts (positions_of layers) nbr a up row) as (cs & [Hoth Hpv Hch Hsl]).
  { destruct Hup as [E|Hu]; [rewrite E; constructor|]. apply list_elem_of_split in Hu as (p1 & p2 & E).
    rewrite E, concat_app in Hpre. cbn in Hpre. apply NoDup_app in Hpre as (_ & _ & (? & _)%NoDup_app). done. }
  { done. }
  { intros v Hv. apply Hrest; [rewrite Hc; set_solver|]. intros Hp. apply (Hd1 v Hp). set_solver. }
  { intros v w Hv Hw. destruct (Hnbr pre row post v w El Hv Hw) as (u & Eu & Hwu). unfold up. by rewrite Eu. }
  { intros w Hw. destruct (Hupc w Hw) as [_ Hwc]. split; [intros ?; apply (Hd1 w Hwc); set_solver|].
    destruct (Hrt w Hw) as (r & Hr & Hro). exists r. split; [done|]. intros ?. apply (Hd1 r (Hop r Hro)). set_solver. }
  { intros j w Hj. unfold index_of. rewrite (positions_ok layers up j w Hnd); [done| |done]. rewrite El.
    destruct (Hupc w) as [? _]; [by eapply list_elem_of_lookup_2|set_solver]. }
  set (s' := fold_with _ row (a, -1)) in *. change (align_layer conflicts (positions_of layers) nbr row a) with s'.1.
  assert (Hrel : ∀ v, v ∈ concat pre → al_root s'.1 !! v = al_root a !! v) by (intros v Hv; apply Hoth; intros ?; apply (Hd1 v Hv); set_solver).
  assert (Hws : ∀ w, w ∈ omap id cs → w ∈ up).
  { intros w Hw. eapply elem_of_submseteq; [exact Hw|]. apply sublist_submseteq. etrans; [exact Hsl|apply sublist_take]. }
  split.
  - intros v Hv Hvn. rewrite concat_app in Hvn. cbn in Hvn. rewrite Hoth by set_solver. apply Hrest; [done|set_solver].
  - intros r v Hr Hv. apply elem_of_app in Hr as [Hr| ->%list_elem_of_singleton].
    + rewrite (Hrel v) by (by eapply in_concat_row). destruct (Hroot r v Hr Hv) as [Hs Hcase]. split; [done|].
      destruct Hcase as [?|(w & Hw & Hnc & Hrw)]; [by left|]. right. exists w. split_and!; [done..|]. rewrite Hrw. symmetry. apply Hrel.
      apply list_elem_of_split in Hr as (p1 & p2 & E). rewrite E, <- app_assoc in El.
      destruct (Hnbr _ _ _ v w El Hv Hw) as (u & Hu & Hwu). apply last_Some in Hu as [p E']. rewrite E, E', !concat_app. cbn. set_solver.
    + apply list_elem_of_lookup_1 in Hv as [i Hi]. destruct (Forall2_lookup_l _ _ _ _ _ Hch Hi) as (c & Hci & Hcv).
      destruct c as [w|]; cbn in Hcv; [|by rewrite Hcv; split; [|left]].
      destruct Hcv as (Hw & Hnc & Hr). assert (Hwu : w ∈ up) by (apply Hws, list_elem_of_omap; exists (Some w); split; [by eapply list_elem_of_lookup_2|done]).
      destruct (Hrt w Hwu) as (r & Hrw & _). split; [by rewrite Hr, Hrw|]. right. exists w. split_and!; [done..|].
      rewrite Hr. symmetry. apply Hrel. by apply Hupc.
  - assert (Hso : root_of (al_root a) <$> omap id cs `sublist_of` order).
    { destruct Hup as [E|Hu].
      - rewrite E, take_nil in Hsl. apply sublist_nil_r in Hsl as ->. apply sublist_nil_l.
      - etrans; [|apply (Hos up Hu)]. apply fmap_sublist. etrans; [exact Hsl|apply sublist_take]. }
    destruct (roots_split conflicts nbr a s'.1 row cs order) as (Hf & Hnr & Hel); [done..| | |by eapply sublist_nodup|].
    { intros v Hv Hvo. apply (Hd1 v (Hop v Hvo)). set_solver. }
    { intros w Hw. destruct (Hrt w (Hws w Hw)) as (r & Hr & Hro). unfold root_of. by rewrite Hr. }
    destruct (weave (root_of (al_root s'.1) <$> row) order Ho Hnr) as (order' & Ho' & Hs1 & Hs2 & Hel'); [by rewrite Hf|].
    exists order'. split_and!; [done| |].
    + intros x [Hx|Hx]%Hel'; rewrite concat_app; cbn; [set_solver|]. apply Hel in Hx as [?|?]; set_solver.
    + intros r [Hr| ->%list_elem_of_singleton]%elem_of_app; [|done]. etrans; [|exact Hs1].
      replace (root_of (al_root s'.1) <$> r) with (root_of (al_root a) <$> r); [by apply Hos|]. apply list_fmap_ext.
      intros i v Hv. unfold root_of. by rewrite Hrel by (eapply in_concat_row; [done|by eapply list_elem_of_lookup_2]).
Qed.
Lemma init_roots v : v ∈ concat layers → al_root (align_init layers) !! v = Some v.
Proof.
  clear Hnd Hnbr nbr conflicts. unfold align_init. set (f := λ v a, mkAlign (<[v := v]> (al_root a)) (<[v := v]> (al_align a))).
  assert (Hrow : ∀ row a, v ∈ row ∨ al_root a !! v = Some v → al_root (fold_with f row a) !! v = Some v).
  { induction row as [|x row IH]; intros a Hv; cbn [fold_with]; [by destruct Hv as [?%elem_of_nil|?]|]. apply IH.
    destruct (decide (v = x)) as [->|Hne]; [right; apply lookup_insert_eq|]. unfold f. cbn.
    rewrite (lookup_insert_ne (al_root a)) by done. set_solver. }
  generalize (mkAlign ∅ ∅) as a. assert (Hrows : ∀ rows a, v ∈ concat rows ∨ al_root a !! v = Some v →
    al_root (fold_with (λ layer a, fold_with f layer a) rows a) !! v = Some v); [|intros a Hv; apply Hrows; by left].
  induction rows as [|row rows IH]; intros a Hv; cbn [fold_with]; [by destruct Hv as [?%elem_of_nil|?]|]. apply IH.
  destruct Hv as [Hv|Hv]; [|by right; apply Hrow; right]. cbn in Hv. apply elem_of_app in Hv as [?|?]; [right; apply Hrow|]; by left.
Qed.
Lemma vertical_ok : rows_aligned layers (vertical_alignment layers conflicts nbr).
Proof using Hnd Hnbr.
  assert (H : ∀ post pre a, layers = pre ++ post → rows_aligned pre a →
    rows_aligned layers (fold_with (align_layer conflicts (positions_of layers) nbr) post a)).
  { induction post as [|row post IH]; intros pre a E I; cbn [fold_with]; [rewrite app_nil_r in E; by rewrite E|].
    apply (IH (pre ++ [row])); [by rewrite <- app_assoc|]. by eapply align_rows_step. }
  apply (H layers []); [done|]. split.
  - intros v Hv _. by apply init_roots.
  - by intros row v ?%elem_of_nil.
  - exists []. split_and!; [by apply NoDup_nil|by intros x ?%elem_of_nil|by intros row ?%elem_of_nil].
Qed.
End rows.

(** Every neighbour of a node is in the row before the node's. *)
Definition rows_above (layers : list (list string)) (nbr : string → list string) : Prop :=
  ∀ pre row post v w, layers = pre ++ row :: post → v ∈ row → w ∈ nbr v → ∃ up, last pre = Some up ∧ w ∈ up.

(** C20: vertical alignment makes blocks that do not cross.
    When neighbours are in the row before, every row meets the blocks in one and
    the same order, and each block at most once; and a block goes on from one
    row to the next only along an edge that is in no conflict. *)
Theorem blocks_do_not_cross conflicts nbr layers : NoDup (concat layers) → rows_above layers nbr →
  let root := al_root (vertical_alignment layers conflicts nbr) in
  (∃ order, NoDup order ∧ ∀ row, row ∈ layers → root_of root <$> row `sublist_of` order) ∧
  ∀ row v, row ∈ layers → v ∈ row → root !! v = Some v ∨
    ∃ w, w ∈ nbr v ∧ has_conflict conflicts v w = false ∧ root !! v = root !! w.
Proof.
  intros Hnd Hn. destruct (vertical_ok conflicts nbr layers Hnd Hn) as [_ Hroot (order & Ho & _ & Hs)]. split.
  - by exists order.
  - intros row v Hr Hv. by apply (Hroot row v Hr Hv).
Qed.

(** C19: compaction keeps blocks straight and neighbours apart.
    For the blocks of a vertical alignment, in either direction: compaction
    ends; every node of the layers gets a coordinate, and nodes of one block the
    same.  And of two neighbours [u], [v] in a row whose separation is above
    zero, [v] is to the right of [u] by the largest separation of any two
    neighbours from the same two blocks, which is the separation of some [u'] and
    [v'] of these: the coordinate of [v] is at least that of [u] plus it, or that
    of [u] at most that of [v] minus it ([f64] sums and differences round, so that
    it is the one or the other).  Both comparisons are of numbers: no coordinate
    of the two, nor the separation, is a NaN. *)
Theorem rows_apart g conflicts nbr layers nodesep edgesep reverse_sep : NoDup (concat layers) → rows_above layers nbr →
  let root := al_root (vertical_alignment layers conflicts nbr) in
  let sep u v := calculate_sep g nodesep edgesep reverse_sep v u in
  ∃ xs, horizontal_compaction g layers root nodesep edgesep reverse_sep = Done xs ∧
    (∀ v, v ∈ concat layers → is_Some (xs !! v)) ∧
    (∀ u v, u ∈ concat layers → v ∈ concat layers → root_of root u = root_of root v → xs !! u = xs !! v) ∧
    ∀ u v x y, next_to layers u v → xs !! u = Some x → xs !! v = Some y → f64_lt f64_zero (sep u v) = true →
      ∃ u' v', next_to layers u' v' ∧ root_of root u' = root_of root u ∧ root_of root v' = root_of root v ∧
        (∀ u2 v2, next_to layers u2 v2 → root_of root u2 = root_of root u → root_of root v2 = root_of root v →
           f64_lt (sep u' v') (sep u2 v2) = false) ∧
        apart x y (sep u' v').
Proof.
  intros Hnd Hn. cbn zeta. destruct (vertical_ok conflicts nbr layers Hnd Hn) as [_ Hroot (order & Ho & _ & Hs)].
  set (root := al_root (vertical_alignment layers conflicts nbr)) in *. set (sep_fn := calculate_sep g nodesep edgesep reverse_sep).
  destruct (block_graph_ok sep_fn root layers) as ([Hnb He Hx] & Hb & Hc). set (b := build_block_graph sep_fn layers root) in *.
  destruct (compact_ok g b (index_in order) reverse_sep Hnb He) as (xs & E & Hsome & Hap); [|by intros v p Hp; apply (Hx v p Hp)|].
  { intros v p Hp. destruct (Hx v p Hp) as [(u & w & (row & i & Hrow & Hu & Hw) & <- & <- & _) _].
    destruct (sublist_indices (root_of root <$> row) order i (root_of root u) (root_of root w)) as (j & k & Hlt & Hj & Hk);
      [by apply Hs|by rewrite list_lookup_fmap, Hu|by rewrite list_lookup_fmap, Hw|].
    by rewrite (index_in_lookup order j _ Ho Hj), (index_in_lookup order k _ Ho Hk). }
  exists (omap (λ r, xs !! r) root). unfold horizontal_compaction. fold sep_fn b. rewrite E, bind_done.
  assert (Hl : ∀ v, v ∈ concat layers → omap (λ r, xs !! r) root !! v = xs !! root_of root v).
  { intros v Hv. apply concat_row in Hv as (row & Hrow & Hv). destruct (Hroot row v Hrow Hv) as [[r Hr] _].
    rewrite lookup_omap. unfold root_of. by rewrite Hr. }
  split_and!; [done| | |].
  - intros v Hv. rewrite (Hl v Hv). apply concat_row in Hv as (row & Hrow & Hv). by apply Hsome, (Hb row v).
  - intros u v Hu Hv Huv. by rewrite (Hl u Hu), (Hl v Hv), Huv.
  - intros u v x y Huv Hu Hv Hpos. pose proof Huv as (row & i & Hrow & Hi & Hj).
    rewrite Hl in Hu, Hv by (eapply in_concat_row; [done|by eapply list_elem_of_lookup_2]).
    pose proof (covered_edge _ _ _ _ (Hc u v Huv) Hpos) as Ht. destruct (Hx _ _ Ht) as [(u' & v' & Hn' & Hu' & Hv' & Et) _].
    cbn in Hu', Et. exists u', v'. split_and!; [done..| |].
    + intros u2 v2 Hn2 Hu2 Hv2. change (calculate_sep g nodesep edgesep reverse_sep v' u') with (sep_fn v' u'). rewrite <- Et.
      specialize (Hc u2 v2 Hn2). by rewrite Hu2, Hv2 in Hc.
    + change (calculate_sep g nodesep edgesep reverse_sep v' u') with (sep_fn v' u'). rewrite <- Et. by eapply Hap.
Qed.

Lemma fold_outcome_ends {E A S} (f : A → S → outcome E S) l : (∀ x s, f x s ≠ OutOfFuel) → ∀ s, fold_outcome f l s ≠ OutOfFuel.
Proof.
  intros Hf. induction l as [|x l IH]; intros s; cbn [fold_outcome]; [done|]. specialize (Hf x s).
  destruct (f x s); cbn; [apply IH|done|done].
Qed.
Lemma alignment_xs_ends g layers conflicts down right : ∃ xs, alignment_xs g layers conflicts down right = Done xs.
Proof.
  unfold alignment_xs, horizontal_compaction. cbn zeta. set (root := al_root _).
  match goal with |- context [build_block_graph ?f ?L _] => destruct (block_graph_ok f root L) as ([Hnb He _] & _ & _) end.
  destruct (compact_ends g _ right Hnb He) as [xs ->]. rewrite !bind_done. by eexists.
Qed.
(** C39: horizontal coordinates are found in the fuel given.
    Whatever the graph, [position_x] does not run out of fuel: the searches over
    the blocks of all four alignments end, with crossings, cycles and conflicts
    or without; what is left that can go wrong is a panic, of a negative rank or
    of a coordinate that is no number. *)
Theorem position_x_ends `{XsOrder} g : position_x g ≠ OutOfFuel.
Proof.
  unfold position_x, bk_layers. cbn zeta. destruct (default 0 (max_rank g) <? 0); [done|]. rewrite bind_done.
  set (L := order_layer_matrix g _). set (c := merge_conflicts _ _).
  destruct (alignment_xs_ends g L c false false) as [ul ->], (alignment_xs_ends g L c false true) as [ur ->],
    (alignment_xs_ends g L c true false) as [dl ->], (alignment_xs_ends g L c true true) as [dr ->]. rewrite !bind_done.
  apply fold_outcome_ends. intros v s. unfold balance_node, sort_coords. by destruct (_ && _).
Qed.

(** ** An example *)

Fixpoint above (nbr : string → list string) (prev : list string) (rows : list (list string)) : bool :=
  match rows with
  | [] => true
  | row :: rest => forallb (λ v, forallb (λ w, bool_decide (w ∈ prev)) (nbr v)) row && above nbr row rest
  end.
Lemma above_check nbr layers : above nbr [] layers = true → rows_above layers nbr.
Proof.
  assert (H : ∀ pre0 prev rows, above nbr prev rows = true → (prev = [] ∨ last pre0 = Some prev) →
    ∀ pre row post v w, rows = pre ++ row :: post → v ∈ row → w ∈ nbr v → ∃ up, last (pre0 ++ pre) = Some up ∧ w ∈ up).
  { intros pre0 prev rows. revert pre0 prev. induction rows as [|r rows IH]; intros pre0 prev Ha Hp pre row post v w E Hv Hw; [by destruct pre|].
    apply andb_true_iff in Ha as [Hr Ha]. destruct pre as [|p pre]; injection E as -> ->.
    - rewrite forallb_forall in Hr. specialize (Hr v ltac:(by apply list_elem_of_In)). rewrite forallb_forall in Hr.
      specialize (Hr w ltac:(by apply list_elem_of_In)). apply bool_decide_eq_true in Hr. rewrite app_nil_r.
      destruct Hp as [->|Hp]; [by apply elem_of_nil in Hr|by exists prev].
    - destruct (IH (pre0 ++ [p]) p Ha ltac:(right; by rewrite last_snoc) pre row post v w eq_refl Hv Hw) as (up & Hu & ?).
      exists up. by rewrite <- app_assoc in Hu. }
  intros Ha pre row post v w E Hv Hw. apply (H [] [] layers Ha (or_introl eq_refl) pre row post v w E Hv Hw).
Qed.
(** Two edges that cross, one of them between dummies. *)
Definition site (dummy : option string) (order : nat) (rank : Z) : NodeLabel :=
  set_n_dummy dummy (set_n_order (Some order) (set_n_rank (Some rank) (set_n_width (f64_of_Z 40) NodeLabel_default))).
Definition crossing : DagreGraph :=
  graph_of [SetNode "a" (site None 0 0); SetNode "b" (site (Some "edge") 1 0); SetNode "c" (site (Some "edge") 0 1);
            SetNode "d" (site None 1 1); SetNode "e" (site None 0 2);
            SetPath ["a"; "d"; "e"]; SetPath ["b"; "c"; "e"]].
Definition crossing_rows : list (list string) := order_layer_matrix crossing 2.
Definition crossing_conflicts : Conflicts := find_type1_conflicts crossing crossing_rows.
Lemma crossing_nodup : NoDup (concat crossing_rows).
Proof. apply (bool_decide_eq_true_1 (NoDup (concat crossing_rows))). vm_compute. reflexivity. Qed.
Lemma crossing_above : rows_above crossing_rows (predecessors crossing).
Proof. apply above_check. vm_compute. reflexivity. Qed.
Lemma blocks_do_not_cross_witness :
  let root := al_root (vertical_alignment crossing_rows crossing_conflicts (predecessors crossing)) in
  (∃ order, NoDup order ∧ ∀ row, row ∈ crossing_rows → root_of root <$> row `sublist_of` order) ∧
  ∀ row v, row ∈ crossing_rows → v ∈ row → root !! v = Some v ∨
    ∃ w, w ∈ predecessors crossing v ∧ has_conflict crossing_conflicts v w = false ∧ root !! v = root !! w.
Proof.
  exact (blocks_do_not_cross crossing_conflicts (predecessors crossing) crossing_rows
    crossing_nodup crossing_above).
Defined.
Lemma rows_apart_witness :
  let root := al_root (vertical_alignment crossing_rows crossing_conflicts (predecessors crossing)) in
  let sep u v := calculate_sep crossing (f64_of_Z 50) (f64_of_Z 20) false v u in
  ∃ xs, horizontal_compaction crossing crossing_rows root (f64_of_Z 50) (f64_of_Z 20) false = Done xs ∧
    (∀ v, v ∈ concat crossing_rows → is_Some (xs !! v)) ∧
    (∀ u v, u ∈ concat crossing_rows → v ∈ concat crossing_rows → root_of root u = root_of root v → xs !! u = xs !! v) ∧
    ∀ u v x y, next_to crossing_rows u v → xs !! u = Some x → xs !! v = Some y → f64_lt f64_zero (sep u v) = true →
      ∃ u' v', next_to crossing_rows u' v' ∧ root_of root u' = root_of root u ∧ root_of root v' = root_of root v ∧
        (∀ u2 v2, next_to crossing_rows u2 v2 → root_of root u2 = root_of root u → root_of root v2 = root_of root v →
           f64_lt (sep u' v') (sep u2 v2) = false) ∧
        apart x y (sep u' v').
Proof.
  exact (rows_apart crossing crossing_conflicts (predecessors crossing) crossing_rows (f64_of_Z 50) (f64_of_Z 20) false
    crossing_nodup crossing_above).
Defined.
