(* ===== verification/Layout.v ===== *)
(** * The layout ([position/mod.rs] and [layout] of [mod.rs])

    The phases in the order the code runs them. *)
From stdpp Require Import strings gmap.
From S2P Require Import Prelude F64 SortBy DagreGraph Rank Layers NetworkSimplex Order Phases Nesting Compound ParentChains Bk.
From S2P Require Acyclic Normalize.

(** ** Coordinates *)

(** Ranks from 0 to the largest; of a negative one, as in [bk_layers]. *)
Definition rank_layers (g : DagreGraph) : panics (list (list string)) :=
  let m := default 0 (max_rank g) in
  if m <? 0 then panic else
  Done (fold_with
          (λ v layers,
             match node_rank g v with
             | Some rank => if (0 <=? rank) && (rank <=? m) then push_layer (Z.to_nat rank) v layers else layers
             | None => layers
             end)
          (nodes g) (replicate (S (Z.to_nat m)) [])).
Definition height_of (g : DagreGraph) (v : string) : option f64 := n_height <$> node g v.
Definition max_height (g : DagreGraph) (layer : list string) : f64 :=
  fold_with (λ h m, f64_max m h) (omap (height_of g) layer) f64_zero.
(** Every node of a layer at the middle of its row. *)
Definition place_layer (ranksep : f64) (layer : list string) (s : f64 * DagreGraph) : f64 * DagreGraph :=
  let '(prev_y, g) := s in
  let h := max_height g layer in
  let y := f64_add prev_y (f64_half h) in
  (f64_add prev_y (f64_add h ranksep), fold_with (node_mut (set_n_y (Some y))) layer g).
Definition position_y (g : DagreGraph) : panics DagreGraph :=
  layers ← rank_layers g;
  Done (fold_with (place_layer (gl_ranksep (g_graph_label g))) layers (f64_zero, g)).2.
(** The entries of the map may come in any order: each is for a node of its own. *)
Definition position `{XsOrder} (g : DagreGraph) : panics DagreGraph :=
  g ← position_y g;
  xs ← position_x g;
  Done (fold_with (λ '(v, x), node_mut (set_n_x (Some x)) v) (map_to_list xs) g).

(** ** All of it *)

Record DagreConfig := mkConfig {
  dc_rankdir : RankDir;
  dc_nodesep : f64;
  dc_edgesep : f64;
  dc_ranksep : f64;
  dc_marginx : f64;
  dc_marginy : f64;
  dc_acyclicer : Acyclic.Acyclicer;
  dc_ranker : Ranker
}.
Definition DagreConfig_default : DagreConfig :=
  {| dc_rankdir := TB; dc_nodesep := f64_of_Z 50; dc_edgesep := f64_of_Z 20; dc_ranksep := f64_of_Z 50;
     dc_marginx := f64_zero; dc_marginy := f64_zero; dc_acyclicer := Acyclic.Greedy; dc_ranker := NetworkSimplex |}.

Section layout.
Context `{MapOrder, SetOrder, GroupOrder, XsOrder}.

(** A phase that is for graphs with subgraphs. *)
Definition when (b : bool) (f : DagreGraph → panics DagreGraph) (g : DagreGraph) : panics DagreGraph :=
  if b then f g else Done g.

(** Phases 1 to 4: the graph with ranks, and whether it had subgraphs. *)
Definition layout_rank (config : DagreConfig) (g : DagreGraph) : panics (DagreGraph * bool) :=
  let g := adjust_coordinate_system (dc_rankdir config) g in
  let g := make_space_for_edge_labels (dc_rankdir config) g in
  let g := remove_self_edges g in
  g ← Acyclic.run g (dc_acyclicer config);
  let compound := is_compound g in
  g ← when compound (λ g, g ← Nesting.run g; redirect_edges_to_border_nodes g) g;
  g ← assign_ranks g (dc_ranker config);
  Done (g, compound).
(** Phases 5 to 12.5: long edges are cut and every node has a place. *)
Definition layout_order (compound : bool) (g : DagreGraph) : panics DagreGraph :=
  let g := remove_empty_ranks (inject_edge_label_proxies g) in
  let g := remove_edge_label_proxies (if compound then cleanup g else g) in
  g ← when compound assign_rank_min_max g;
  g ← Normalize.run g;
  g ← when compound (λ g, g ← ParentChains.run g; add_border_segments g) g;
  g ← order g;
  insert_self_edges g.
(** Phases 13 to 17: coordinates, and everything put in is taken out. *)
Definition layout_place (config : DagreConfig) (compound : bool) (g : DagreGraph) : panics DagreGraph :=
  g ← position g;
  g ← position_self_edges g;
  g ← Normalize.undo (if compound then remove_border_nodes g else g);
  g ← when compound restore_redirected_edges g;
  let g := fixup_edge_label_coords (dc_rankdir config) g in
  let g := undo_coordinate_system (dc_rankdir config) g in
  let g := reverse_points_for_reversed_edges (Normalize.assign_node_intersects g) in
  g ← Acyclic.undo g;
  Done (compute_dimensions g).
Definition layout (g : DagreGraph) (config : DagreConfig) : panics DagreGraph :=
  '(g, compound) ← layout_rank config g;
  g ← layout_order compound g;
  layout_place config compound g.
End layout.
