(* ===== verification/LayoutFacts.v ===== *)
(** * The layout of a graph without subgraphs

    Once its ranks go down along every edge, the layout gives such a graph back
    with the nodes and edges it came with, every node placed and every edge
    drawn from border to border: what the phases put in (reversed edges, label
    proxies, chains of dummies) they take out again. *)
From stdpp Require Import strings gmap relations.
From S2P Require Import Prelude Bytes F64 SortBy DagreGraph DagreGraphFacts FasDfs FasGreedy Rank RankFacts RankFeasible NetworkSimplex AssignRanks Layers Order OrderSort OrderFacts Phases PhasesFacts Nesting Compound ParentChains Bk Layout.
From S2P Require Acyclic AcyclicFacts Normalize NormalizeFacts.

Import Acyclic(is_reversed) AcyclicFacts.

(** ** Relabellings *)

Lemma relabelled_weaken (f h : NodeLabel → NodeLabel) g g' : (∀ n n', f n = f n' → h n = h n') → relabelled f g g' → relabelled h g g'.
Proof.
  intros Hfh R. split; try apply R. intros v. pose proof (rr_nodes _ _ R v) as H.
  destruct (g_nodes g' !! v), (g_nodes g !! v); cbn in *; try done. apply (inj Some) in H. by rewrite (Hfh _ _ H).
Qed.
(** A node without what ordering and positions give it. *)
Definition unplaced (n : NodeLabel) : NodeLabel :=
  set_n_self_edges [] (set_n_y None (set_n_x None (set_n_order None n))).
Lemma reordered_unplaced g g' : reordered g g' → relabelled unplaced g g'.
Proof.
  apply relabelled_weaken. intros n n' E. unfold unplaced. change (set_n_order None n) with (unordered n).
  change (set_n_order None n') with (unordered n'). by rewrite E.
Qed.
Lemma relabelled_lookup {f} g g' v n' : relabelled f g g' → g_nodes g' !! v = Some n' → ∃ n, g_nodes g !! v = Some n ∧ f n' = f n.
Proof.
  intros R Hv. pose proof (rr_nodes _ _ R v) as H. rewrite Hv in H. destruct (g_nodes g !! v) as [n|]; cbn in H; [|done].
  apply (inj Some) in H. by exists n.
Qed.
Lemma fold_relabelled {A} f (h : A → DagreGraph → DagreGraph) l : (∀ x g, relabelled f g (h x g)) → ∀ g, relabelled f g (fold_with h l g).
Proof.
  intros Hh. induction l as [|x l IH]; intros g; cbn [fold_with]; [apply reranked_refl|]. by eapply reranked_trans.
Qed.
Lemma unplaced_fields n n' : unplaced n = unplaced n' →
  n_rank n = n_rank n' ∧ n_dummy n = n_dummy n' ∧ n_edge_label n = n_edge_label n' ∧ n_edge_obj n = n_edge_obj n' ∧
  n_width n = n_width n' ∧ n_height n = n_height n' ∧ n_shape n = n_shape n'.
Proof. destruct n, n'. intros [= ]. by split_and!. Qed.
Lemma unplaced_rank g g' v : relabelled unplaced g g' → node_rank g' v = node_rank g v.
Proof.
  intros R. unfold node_rank, node. destruct (g_nodes g' !! v) as [n'|] eqn:E.
  - destruct (relabelled_lookup _ _ _ _ R E) as (n & -> & (H & _)%unplaced_fields). done.
  - destruct (g_nodes g !! v) eqn:E2; [|done]. pose proof (rr_nodes _ _ R v) as H. rewrite E, E2 in H. done.
Qed.

(** ** What the phases before the coordinates keep *)

Record tame (g g' : DagreGraph) : Prop := {
  tm_wf : wf g';
  tm_lists : (∀ v, NoDup (out_edges g v)) → ∀ v, NoDup (out_edges g' v);
  tm_label : g_graph_label g' = g_graph_label g;
  tm_parent : g_parent g = ∅ → g_parent g' = ∅
}.
Lemma tame_refl g : wf g → tame g g.
Proof. by split. Qed.
Lemma tame_trans a b c : tame a b → tame b c → tame a c.
Proof. intros [? A B C] [? A' B' C']. split; [done|intros Hl; apply A', A, Hl|congruence|intros Hp; by apply C', C]. Qed.
Lemma tame_shape g g' : wf g → same_shape g g' → g_graph_label g' = g_graph_label g → tame g g'.
Proof.
  intros W Hs Hl. split; [by apply (wf_same_shape g)| |done|]; destruct Hs as (_ & _ & Ho & _ & Hp & _).
  - unfold out_edges. by rewrite Ho.
  - by rewrite Hp.
Qed.
Lemma tame_relabelled {f} g g' : wf g → relabelled f g g' → tame g g'.
Proof.
  intros W R. split; [by apply (rr_wf _ _ R)| | |].
  - intros Hl v. by rewrite (rr_out_edges _ _ R).
  - by rewrite (rest_label _ _ (rr_rest _ _ R)).
  - by rewrite (rest_parent _ _ (rr_rest _ _ R)).
Qed.
Lemma tame_set_node v l g : wf g → tame g (set_node v l g).
Proof.
  intros W. split; [by apply wf_set_node| | |].
  - intros Hl x. by rewrite (proj1 (set_node_lists v l g W)).
  - apply rest_label, set_node_rest.
  - by rewrite (rest_parent _ _ (set_node_rest v l g)).
Qed.
Lemma tame_remove_node v g : wf g → tame g (remove_node v g).
Proof.
  intros W. destruct (g_nodes g !! v) as [n|] eqn:E; [|rewrite remove_node_none by done; by apply tame_refl].
  pose proof (remove_node_spec v g W ltac:(by eexists)) as R. split; [by apply wf_remove_node| | |].
  - intros Hl x. rewrite (removed_out _ _ _ R). by apply NoDup_filter.
  - apply (removed_label _ _ _ R).
  - intros Hp. rewrite (removed_parent _ _ _ R), Hp. apply delete_empty.
Qed.
Lemma tame_fold {A} (h : A → DagreGraph → DagreGraph) l : (∀ x g, wf g → tame g (h x g)) → ∀ g, wf g → tame g (fold_with h l g).
Proof.
  intros Hh. induction l as [|x l IH]; intros g W; cbn [fold_with]; [by apply tame_refl|].
  eapply tame_trans; [by apply Hh|]. apply IH. by apply (tm_wf g), Hh.
Qed.
Lemma tame_inject `{MapOrder} g : wf g → tame g (inject_edge_label_proxies g).
Proof.
  apply tame_fold. intros p h W. unfold inject_proxy, unique_id. eapply tame_trans; [|apply tame_set_node].
  - apply tame_shape; [done|by split_and!|done].
  - by apply (wf_same_shape h).
Qed.
Lemma tame_remove_proxies g : wf g → tame g (remove_edge_label_proxies g).
Proof.
  apply tame_fold. intros [[v r] k] h W. unfold remove_proxy.
  eapply tame_trans; [apply tame_shape; [done|apply edge_mut_shape|done]|].
  apply tame_remove_node. eapply wf_same_shape; [apply edge_mut_shape|done].
Qed.

(** Without a factor no rank counts as empty. *)
Lemma no_empty_ranks g : gl_node_rank_factor (g_graph_label g) = None → remove_empty_ranks g = g.
Proof.
  intros Hf. unfold remove_empty_ranks. rewrite Hf. destruct (max_rank g) as [m|]; [|done]. cbn zeta.
  change (as_usize (default 1 None)) with 1%nat.
  match goal with |- (fold_with _ ?l (0, g)).2 = g => generalize l end.
  intros l. assert (E : fold_with (λ p s, collapse_layer 1 p.1 p.2 s) l (0, g) = (0, g)); [|by rewrite E].
  induction l as [|[i layer] l IH]; cbn [fold_with]; [done|]. cbn [fst snd].
  assert (Es : collapse_layer 1 i layer (0, g) = (0, g)) by (destruct layer; cbn; by rewrite ?Nat.mod_1_r). by rewrite Es.
Qed.

(** ** The graphs of the theorem *)

(** No subgraphs, no self-edges, nothing a phase of the layout leaves behind,
    and no name that begins like those the layout makes up. *)
Record calm (g : DagreGraph) : Prop := {
  ca_wf : wf g;
  ca_lists v : NoDup (out_edges g v);
  ca_flat : g_parent g = ∅;
  ca_node x n : g_nodes g !! x = Some n →
    NormalizeFacts.user_name x n = true ∧ n_border_left n = [] ∧ n_self_edges n = [];
  ca_factor : gl_node_rank_factor (g_graph_label g) = None
}.
Record plain_input (g : DagreGraph) : Prop := {
  pi_calm : calm g;
  pi_degrees : small_degrees g;
  pi_unreversed : unreversed g;
  pi_loops k : is_Some (g_edges g !! k) → key_v k ≠ key_w k
}.

(** What stays of a node while it is ranked, ordered and placed. *)
Definition bare (n : NodeLabel) : NodeLabel := set_n_rank None (unplaced n).
(** The graph with sizes turned and room for labels. *)
Definition spaced `{MapOrder} (d : RankDir) (g : DagreGraph) : DagreGraph :=
  make_space_for_edge_labels d (adjust_coordinate_system d g).

Section spaced.
#[local] Set Default Proof Using "Type".
Context `{MapOrder} (d : RankDir) (g : DagreGraph).
Lemma spaced_nodes : g_nodes (spaced d g) = (if vertical d then id else swap_size) <$> g_nodes g.
Proof.
  unfold spaced, make_space_for_edge_labels, adjust_coordinate_system, swap_sizes. rewrite mut_all_edges. cbn.
  destruct (vertical d); [by rewrite map_fmap_id|by rewrite mut_all_nodes].
Qed.
Lemma spaced_edges : g_edges (spaced d g) = make_space d <$> g_edges g.
Proof.
  unfold spaced, make_space_for_edge_labels, adjust_coordinate_system, swap_sizes. rewrite mut_all_edges. cbn.
  destruct (vertical d); [done|by rewrite mut_all_nodes].
Qed.
Lemma spaced_rest : g_out_edges (spaced d g) = g_out_edges g ∧ g_in_edges (spaced d g) = g_in_edges g ∧
  g_parent (spaced d g) = g_parent g ∧ g_children (spaced d g) = g_children g ∧
  g_edge_counter (spaced d g) = g_edge_counter g ∧
  gl_node_rank_factor (g_graph_label (spaced d g)) = gl_node_rank_factor (g_graph_label g).
Proof.
  unfold spaced, make_space_for_edge_labels, adjust_coordinate_system, swap_sizes. rewrite mut_all_edges. cbn.
  destruct (vertical d); [done|by rewrite mut_all_nodes].
Qed.
Lemma make_space_marks e : e_reversed (make_space d e) = e_reversed e ∧ e_forward_name (make_space d e) = e_forward_name e.
Proof. unfold make_space. by repeat case_match. Qed.
Lemma spaced_plain : plain_input g → plain_input (spaced d g).
Proof.
  intros [[W Ho Hp Hx Hf] Hd [Hu Hn] Hl]. destruct spaced_rest as (E1 & E2 & E3 & E4 & E5 & E6).
  assert (Hs : ∀ k, is_Some (g_edges (spaced d g) !! k) ↔ is_Some (g_edges g !! k))
    by (intros k; by rewrite spaced_edges, lookup_fmap, fmap_is_Some).
  split; [split| | |].
  - apply (wf_same_shape g); [|done]. split_and!; [intros v; by rewrite spaced_nodes, lookup_fmap, fmap_is_Some|done..].
  - intros v. unfold out_edges. rewrite E1. apply Ho.
  - by rewrite E3.
  - intros x n. rewrite spaced_nodes, lookup_fmap. intros (n0 & Hn0 & ->)%fmap_Some. by destruct (vertical d); apply Hx in Hn0.
  - by rewrite E6.
  - intros v. unfold in_edges, out_edges. rewrite E1, E2. apply Hd.
  - split; [|intros k n; rewrite Hs, E5; apply Hn]. intros k l. rewrite spaced_edges, lookup_fmap.
    intros (e & He & ->)%fmap_Some. destruct (make_space_marks e) as [-> ->]. by eapply Hu.
  - intros k. rewrite Hs. apply Hl.
Qed.
End spaced.

(** Nothing is done for self-edges where there are none. *)
Lemma no_self_edges `{MapOrder} g : (∀ k, is_Some (g_edges g !! k) → key_v k ≠ key_w k) → remove_self_edges g = g.
Proof.
  intros Hl. unfold remove_self_edges. assert (E : filter (λ k, is_loop k = true) (edges g) = []); [|by rewrite E].
  destruct (filter _ _) as [|k l] eqn:E; [done|]. assert (Hk : k ∈ k :: l) by (by left). rewrite <- E in Hk.
  apply list_elem_of_filter in Hk as [Hk He%edges_elem]. unfold is_loop in Hk. apply bool_decide_eq_true in Hk. by destruct (Hl k He).
Qed.
Lemma flat_simple g : wf g → g_parent g = ∅ → is_compound g = false.
Proof.
  intros W Hp. apply not_true_is_false. unfold is_compound. rewrite existsb_exists.
  intros ([p c] & Hin%list_elem_of_In%elem_of_map_to_list & Hc). apply negb_true_iff, bool_decide_eq_false in Hc. cbn in Hc.
  apply Hc, set_eq. intros v. split; [|by intros ?%elem_of_empty]. intros Hv. exfalso.
  assert (Hd : v ∈ default ∅ (g_children g !! p)) by (by rewrite Hin). apply (wf_family _ W) in Hd. by rewrite Hp in Hd.
Qed.

(** ** Phases 1 to 4 *)

Section ranking.
#[local] Set Default Proof Using "Type".
Context `{MapOrder, SetOrder}.
Lemma calm_run g F g' : calm g → AcyclicFacts.run_inv g F g' → calm g'.
Proof.
  intros [W Ho Hp Hx Hf] I. destruct (ri_family _ _ _ I) as (El & Ep & _). split.
  - apply I.
  - intros v. by apply I.
  - by rewrite Ep.
  - rewrite (ri_nodes _ _ _ I). apply Hx.
  - by rewrite El.
Qed.
Lemma calm_reranked g g' : calm g → reranked g g' → calm g'.
Proof.
  intros [W Ho Hp Hx Hf] R. destruct (tame_relabelled g g' W R) as [W' Ho' El Ep]. split; auto.
  - intros x n' (n & Hn & E)%(relabelled_lookup _ _ _ _ R). destruct (Hx x n Hn) as (Hu & Hb & Hs).
    destruct n, n'. injection E as. unfold NormalizeFacts.user_name in *. cbn in *. by subst.
  - by rewrite El.
Qed.
Lemma rank_phase config g g4 compound : plain_input g → layout_rank config g = Done (g4, compound) →
  compound = false ∧ ∃ F g2, run_inv (spaced (dc_rankdir config) g) F g2 ∧ reranked g2 g4 ∧ calm g4.
Proof.
  intros P%(spaced_plain (dc_rankdir config)) E. unfold layout_rank in E.
  change (make_space_for_edge_labels _ _) with (spaced (dc_rankdir config) g) in E. set (g1 := spaced (dc_rankdir config) g) in *.
  cbn zeta in E. rewrite no_self_edges in E by apply P. pose proof (pi_calm _ P) as C.
  destruct (find_fas_ok g1 (dc_acyclicer config) (ca_wf _ C) (pi_degrees _ P)) as (F & EF & L & HL).
  destruct (run_inv_run g1 _ F L (ca_wf _ C) (pi_unreversed _ P) EF HL) as (g2 & E2 & RI).
  pose proof (calm_run _ _ _ C RI) as C2.
  rewrite E2, bind_done, (flat_simple g2) in E; [|apply C2..]. unfold when in E. rewrite bind_done in E.
  apply outcome_bind_done in E as (g3 & E3 & [= <- <-]). split; [done|]. exists F, g2.
  assert (R : reranked g2 g3) by (eapply assign_ranks_reranked; [apply RI|done]).
  split_and!; [done..|by eapply calm_reranked].
Qed.
End ranking.

(** ** Self-edges after ordering *)

(** Nodes have orders and no self-edges. *)
Definition settled (g : DagreGraph) : Prop :=
  ∀ v n, g_nodes g !! v = Some n → is_Some (n_order n) ∧ n_self_edges n = [].
Lemma insert_at_settled g p s : relabelled unplaced g s.2 → settled s.2 →
  relabelled unplaced g (insert_at_node p s).2 ∧ settled (insert_at_node p s).2.
Proof.
  destruct p as [i v], s as [shift h]. cbn [snd]. intros R Hs. unfold insert_at_node, node.
  destruct (g_nodes h !! v) as [n|] eqn:E; [|done]. destruct (Hs v n E) as [_ ->]. cbn [fold_with foldl snd]. split.
  - eapply reranked_trans; [done|]. apply node_mut_relabelled. by intros [].
  - intros x m. rewrite node_mut_lookup. destruct (decide (x = v)) as [->|Hx]; [|apply Hs].
    rewrite E. intros [= <-]. split; [by eexists|done].
Qed.
Lemma layers_total g : (∀ v r, node_rank g v = Some r → 0 ≤ r) → ∃ L, build_layer_matrix g = Done L.
Proof.
  intros Hr. unfold build_layer_matrix. destruct (max_rank g) as [m|]; [|by eexists]. destruct (m <? 0); [by eexists|].
  destruct (fold_outcome_inv (λ _ _, True) (put_in_layer g) (nodes g) (replicate (Z.to_nat (m + 1)) [])) as (L & -> & _); [done| |by eexists].
  intros _ v _ s _ _. unfold put_in_layer. destruct (node_rank g v) as [r|] eqn:E; [|by eexists].
  apply Hr in E. destruct (Z.ltb_spec r 0); [lia|by eexists].
Qed.
Lemma insert_settled g : (∀ v r, node_rank g v = Some r → 0 ≤ r) → settled g →
  ∃ g', insert_self_edges g = Done g' ∧ relabelled unplaced g g' ∧ settled g'.
Proof.
  intros Hr Hs. destruct (layers_total g Hr) as [L E]. unfold insert_self_edges. rewrite E, bind_done. eexists. split; [done|].
  apply (fold_with_pres (λ h, relabelled unplaced g h ∧ settled h)); [|split; [apply reranked_refl|done]].
  intros layer h [R Ho]. apply (fold_with_pres (λ s, relabelled unplaced g s.2 ∧ settled s.2)); [|done].
  intros p s [R' Ho']. by apply insert_at_settled.
Qed.

(** ** What drawing changes *)

(** What is read of an edge stays, and it gets at least [c] points more. *)
Definition kept (e e' : EdgeLabel) : Prop :=
  e_reversed e' = e_reversed e ∧ e_forward_name e' = e_forward_name e ∧ e_weight e' = e_weight e ∧ e_minlen e' = e_minlen e.
Definition drawn (c : nat) (e e' : EdgeLabel) : Prop :=
  kept e e' ∧ (c + length (e_points e) ≤ length (e_points e'))%nat.
Lemma kept_trans e1 e2 e3 : kept e1 e2 → kept e2 e3 → kept e1 e3.
Proof. unfold kept. intros (? & ? & ? & ?) (? & ? & ? & ?). split_and!; congruence. Qed.
Definition has_x (n : NodeLabel) : Prop := is_Some (n_x n).
Definition has_y (n : NodeLabel) : Prop := is_Some (n_y n).
Definition stays (n n' : NodeLabel) : Prop :=
  n_width n' = n_width n ∧ n_height n' = n_height n ∧ n_shape n' = n_shape n ∧ (has_x n ∧ has_y n → has_x n' ∧ has_y n').
Record redrawn (P : NodeLabel → NodeLabel → Prop) (c : nat) (g g' : DagreGraph) : Prop := {
  rd_nodes v : option_Forall2 P (g_nodes g !! v) (g_nodes g' !! v);
  rd_edges k : option_Forall2 (drawn c) (g_edges g !! k) (g_edges g' !! k);
  rd_lists : g_out_edges g' = g_out_edges g ∧ g_in_edges g' = g_in_edges g;
  rd_family : g_parent g' = g_parent g ∧ g_children g' = g_children g
}.
Lemma drawn_refl e : drawn 0 e e.
Proof. by split; [split_and!|]. Qed.
Lemma drawn_trans a b e1 e2 e3 : drawn a e1 e2 → drawn b e2 e3 → drawn (a + b) e1 e3.
Proof. intros [? ?] [? ?]. split; [by eapply kept_trans|lia]. Qed.
Lemma stays_trans n1 n2 n3 : stays n1 n2 → stays n2 n3 → stays n1 n3.
Proof. unfold stays. intros (? & ? & ? & ?) (? & ? & ? & ?). split_and!; [congruence..|tauto]. Qed.
Lemma forall2_trans {A} (P Q R : A → A → Prop) a b c : (∀ x y z, P x y → Q y z → R x z) →
  option_Forall2 P a b → option_Forall2 Q b c → option_Forall2 R a c.
Proof. intros H [x y Hxy|]; inversion 1; constructor. by eapply H. Qed.
Lemma forall2_refl {A} (P : A → A → Prop) a : (∀ x, P x x) → option_Forall2 P a a.
Proof. intros H. destruct a; by constructor. Qed.
Lemma forall2_fmap {A} (P : A → A → Prop) (h : A → A) a : (∀ x, P x (h x)) → option_Forall2 P a (h <$> a).
Proof. intros H. destruct a; by constructor. Qed.
Lemma redrawn_trans P Q R a b x y z : (∀ n1 n2 n3, P n1 n2 → Q n2 n3 → R n1 n3) → redrawn P a x y → redrawn Q b y z → redrawn R (a + b) x z.
Proof.
  intros H [A1 A2 [A3 A4] [A5 A6]] [B1 B2 [B3 B4] [B5 B6]]. split; [| |split; congruence..].
  - intros v. by eapply forall2_trans.
  - intros k. eapply forall2_trans; [apply drawn_trans|done..].
Qed.
Lemma redrawn_shape {P c} g g' : redrawn P c g g' → same_shape g g'.
Proof.
  intros [Hn He [Ho Hi] [Hp Hc]]. split_and!; [| |done..].
  - intros v. destruct (Hn v); split; intros []; by eexists.
  - intros k. destruct (He k); split; intros []; by eexists.
Qed.
Lemma kept_marks g g' : (∀ k, option_Forall2 kept (g_edges g !! k) (g_edges g' !! k)) → same_marks g g'.
Proof. intros H k. destruct (H k) as [e e' (Hr & Hf & _)|]; cbn; congruence. Qed.
(** The maps of the graph changed at every node and every edge. *)
Lemma redrawn_maps P c hn he g : (∀ n, P n (hn n)) → (∀ e, drawn c e (he e)) →
  redrawn P c g (set_g_edges (he <$> g_edges g) (set_g_nodes (hn <$> g_nodes g) g)).
Proof. intros Hn He. split; cbn; [| |done..]; intros; rewrite lookup_fmap; by apply forall2_fmap. Qed.

(** ** Phases 5 to 12.5 *)

(** Every node has a rank of its own, at least 0, and every edge goes down. *)
Record well_ranked (g : DagreGraph) : Prop := {
  wk_node v n : g_nodes g !! v = Some n → ∃ r, n_rank n = Some r ∧ 0 ≤ r ≤ i32_max;
  wk_edge k a b : is_Some (g_edges g !! k) → node_rank g (key_v k) = Some a → node_rank g (key_w k) = Some b → a < b
}.
Lemma wk_rank g v r : well_ranked g → node_rank g v = Some r → 0 ≤ r ≤ i32_max.
Proof.
  intros K. unfold node_rank, node. destruct (g_nodes g !! v) as [n|] eqn:E; [|done]. cbn.
  destruct (wk_node _ K v n E) as (r' & -> & ?). by intros [= ->].
Qed.
Lemma wk_ranked g v : well_ranked g → is_Some (g_nodes g !! v) → ∃ r, node_rank g v = Some r ∧ 0 ≤ r ≤ i32_max.
Proof. intros K [n Hn]. destruct (wk_node _ K v n Hn) as (r & Hr & ?). exists r. unfold node_rank, node. by rewrite Hn. Qed.
Lemma calm_no_proxies g : calm g → no_proxies g.
Proof.
  intros C. split.
  - intros n _. apply eq_None_not_Some. intros [m Hm]. by destruct (ca_node _ C _ _ Hm) as [? _].
  - intros v n Hn. destruct (ca_node _ C _ _ Hn) as [Hu _]. unfold NormalizeFacts.user_name in Hu.
    apply andb_true_iff in Hu as [_ Hu]. apply bool_decide_eq_true in Hu. by rewrite Hu.
Qed.
Lemma calm_normalizable g : calm g → well_ranked g → NormalizeFacts.normalizable g.
Proof.
  intros C K. split; [apply C| |..].
  - intros k Hk. pose proof (edge_ends g k (ca_wf _ C) Hk) as [Hv Hw].
    destruct (wk_ranked g _ K Hv) as (a & Ha & ?), (wk_ranked g _ K Hw) as (b & Hb & ?).
    pose proof (wk_edge _ K k a b Hk Ha Hb). exists a, b. split_and!; [done..|unfold i32_min; lia|lia].
  - intros r n. apply eq_None_not_Some. intros [m Hm]. by destruct (ca_node _ C _ _ Hm) as [? _].
  - apply C.
  - intros x n Hn. destruct (ca_node _ C _ _ Hn) as [Hu _]. unfold NormalizeFacts.user_name in Hu.
    apply andb_true_iff in Hu as [_ Hu]. by apply bool_decide_eq_true in Hu.
Qed.

(** Ordered ranks leave no ranked node without an order. *)
Lemma order_given g L v r : in_order g L → node_rank g v = Some r → is_Some (node_order g v).
Proof.
  intros [Lo Ho] Hv. pose proof (lo_rank _ _ Lo v r Hv) as Hb. destruct (lookup_lt_is_Some_2 L (Z.to_nat r)) as [l Hl]; [lia|].
  assert (Hin : v ∈ l) by (apply (row_elem g L _ l v Lo Hl); rewrite Hv; f_equal; lia).
  apply list_elem_of_lookup_1 in Hin as [i Hi]. rewrite (Ho _ _ _ _ Hl Hi). by eexists.
Qed.

Section ordering.
#[local] Set Default Proof Using "Type".
Context `{MapOrder, GroupOrder}.

(** What the graph with proxies taken out again, [g5], has kept. *)
Lemma proxy_phase g : calm g →
  let g5 := remove_edge_label_proxies (remove_empty_ranks (inject_edge_label_proxies g)) in
  calm g5 ∧ g_nodes g5 = g_nodes g ∧ ∀ k, option_Forall2 (drawn 0) (g_edges g !! k) (g_edges g5 !! k).
Proof.
  intros C. pose proof (ca_wf _ C) as W. pose proof (tame_inject g W) as T. cbn zeta.
  rewrite no_empty_ranks by (rewrite (tm_label _ _ T); apply C).
  destruct (proxies_ok g W (calm_no_proxies g C)) as (W5 & Hn & He). cbn zeta in *.
  assert (T5 : tame g (remove_edge_label_proxies (inject_edge_label_proxies g)))
    by (eapply tame_trans; [done|apply tame_remove_proxies, T]).
  set (g5 := remove_edge_label_proxies _) in *. destruct T5 as [_ Ho El Ep]. split_and!.
  - split; [done|apply Ho, C|apply Ep, C|intros x n; rewrite Hn; apply C|by rewrite El; apply C].
  - by apply map_eq.
  - intros k. rewrite He. apply forall2_fmap. intros e. by destruct (needs_proxy e).
Qed.

(** Cutting and ordering: nodes are as bare as before, ranked, in order. *)
Lemma order_phase g : calm g → well_ranked g → ∃ g6 g7, Normalize.run g = Done g6 ∧
  (g ← order g6; insert_self_edges g) = Done g7 ∧ relabelled unplaced g6 g7 ∧ settled g7 ∧ g_parent g6 = ∅ ∧
  (∀ v n, g_nodes g6 !! v = Some n → (∃ r, n_rank n = Some r ∧ 0 ≤ r ≤ i32_max) ∧ n_dummy n ≠ Some "selfedge").
Proof.
  intros C K. destruct (NormalizeFacts.normalize_ok g (calm_normalizable g C K)) as (g6 & E6 & W6 & _ & Hold & Hnew & Hp & _ & _).
  assert (Hn : ∀ v n, g_nodes g6 !! v = Some n → (∃ r, n_rank n = Some r ∧ 0 ≤ r ≤ i32_max) ∧
    n_dummy n ≠ Some "selfedge" ∧ n_border_left n = [] ∧ n_self_edges n = []).
  { intros v n [Hv|(e & le & r & u & a & w & b & -> & Ha%(wk_rank _ _ _ K) & Hb%(wk_rank _ _ _ K) & Hr)]%Hnew.
    - destruct (ca_node _ C v n Hv) as (Hu & ? & ?). apply andb_true_iff in Hu as [_ Hu]. apply bool_decide_eq_true in Hu.
      split_and!; [by eapply wk_node|by rewrite Hu|done..].
    - unfold Normalize.dummy_label. case_bool_decide; (split_and!; [exists r; split; [done|lia]|done..]). }
  assert (O : orderable g6).
  { split; [done| | |].
    - intros v r. unfold node_rank, node. destruct (g_nodes g6 !! v) as [n|] eqn:E; [|done]. cbn.
      destruct (Hn v n E) as ((r' & -> & ?) & _). by intros [= ->].
    - exists (λ _, 0%nat). intros v p. rewrite Hp, (ca_flat _ C). done.
    - intros v n i b Hv. destruct (Hn v n Hv) as (_ & _ & -> & _). done. }
  destruct (order_run g6 O) as (_ & m & go & _ & _ & Eo & R & (L & I & HL) & _).
  destruct (insert_settled go) as (g7 & E7 & R7 & S7).
  - intros v r. rewrite (ro_rank _ _ _ R). apply O.
  - intros v n Hv. destruct (relabelled_lookup _ _ _ _ R Hv) as (n0 & Hn0 & E). destruct (Hn v n0 Hn0) as ((r & Hr & _) & _ & _ & Hs).
    split; [|destruct n, n0; injection E as; cbn in *; by subst].
    assert (Hvr : node_rank go v = Some r) by (rewrite (ro_rank _ _ _ R); unfold node_rank, node; by rewrite Hn0).
    pose proof (order_given _ _ _ _ I Hvr) as Ho. unfold node_order, node in Ho. by rewrite Hv in Ho.
  - exists g6, g7. split_and!; [done|by rewrite Eo, bind_done|eapply reranked_trans; [by apply reordered_unplaced|done]|done| |].
    + by rewrite Hp, (ca_flat _ C).
    + intros v n Hv. by destruct (Hn v n Hv) as (? & ? & _).
Qed.
End ordering.

(** ** Phase 13 *)

(** From [g] to [g'] every node among [hit] gets [Q], and none loses it. *)
Definition gains (Q : NodeLabel → Prop) (hit : list string) (g g' : DagreGraph) : Prop :=
  ∀ v n', g_nodes g' !! v = Some n' → (v ∈ hit → Q n') ∧ ∃ n, g_nodes g !! v = Some n ∧ (Q n → Q n').
Lemma gains_refl Q g : gains Q [] g g.
Proof. intros v n Hn. split; [by intros ?%elem_of_nil|]. by exists n. Qed.
Lemma gains_trans Q a b x y z : gains Q a x y → gains Q b y z → gains Q (a ++ b) x z.
Proof.
  intros H1 H2 v n' Hn'. destruct (H2 v n' Hn') as (Hb & n & Hn & Hk). destruct (H1 v n Hn) as (Ha & n0 & Hn0 & Hk').
  split; [intros [?|?]%elem_of_app; auto|]. exists n0. auto.
Qed.
Lemma gains_fold {A S} Q (gr : S → DagreGraph) (hits : A → list string) (f : A → S → S) l :
  (∀ x s, gains Q (hits x) (gr s) (gr (f x s))) → ∀ s, gains Q (l ≫= hits) (gr s) (gr (fold_with f l s)).
Proof.
  intros Hf. induction l as [|x l IH]; intros s; cbn [fold_with]; [apply gains_refl|].
  change ((x :: l) ≫= hits) with (hits x ++ (l ≫= hits)). eapply gains_trans; [apply Hf|apply IH].
Qed.
Lemma gains_mut (Q : NodeLabel → Prop) h v g : (∀ n, Q (h n)) → gains Q [v] g (node_mut h v g).
Proof.
  intros Hq x n'. rewrite node_mut_lookup. destruct (decide (x = v)) as [->|Hne].
  - intros (n & Hn & ->)%fmap_Some. split; [done|]. by exists n.
  - intros Hn. split; [by intros ?%list_elem_of_singleton|]. by exists n'.
Qed.
(** A node without its position. *)
Definition unsited (n : NodeLabel) : NodeLabel := set_n_y None (set_n_x None n).
Lemma unsited_unplaced g g' : relabelled unsited g g' → relabelled unplaced g g'.
Proof.
  apply relabelled_weaken. intros n n' E. change (unplaced n) with (set_n_self_edges [] (set_n_y None (set_n_x None (set_n_order None (unsited n))))).
  by rewrite E.
Qed.
Lemma bind_singletons (l : list string) : l ≫= (λ v, [v]) = l.
Proof. induction l as [|v l IH]; [done|]. change ((v :: l) ≫= (λ v, [v])) with (v :: (l ≫= (λ v, [v]))). by rewrite IH. Qed.
Lemma bind_nothing {A} (l : list A) : l ≫= (λ _, []) = ([] : list string).
Proof. by induction l. Qed.
Lemma bind_ids (L : list (list string)) : L ≫= id = concat L.
Proof. induction L as [|l L IH]; [done|]. change ((l :: L) ≫= id) with (l ++ (L ≫= id)). by rewrite IH. Qed.
Lemma place_layer_ok sep L s : relabelled unsited s.2 (fold_with (place_layer sep) L s).2 ∧
  gains has_y (concat L) s.2 (fold_with (place_layer sep) L s).2.
Proof.
  split.
  - apply (fold_with_pres (λ t, relabelled unsited s.2 t.2)); [|apply reranked_refl]. intros l [y g] R. cbn.
    eapply reranked_trans; [done|]. apply fold_relabelled. intros v h. apply node_mut_relabelled. by intros [].
  - rewrite <- bind_ids. apply (gains_fold has_y snd id). intros l [y g]. cbn. rewrite <- (bind_singletons l) at 1.
    apply (gains_fold has_y id). intros v h. apply gains_mut. intros n. by eexists.
Qed.
Lemma rank_layers_has g L v r : rank_layers g = Done L → node_rank g v = Some r → 0 ≤ r → v ∈ concat L.
Proof.
  unfold rank_layers. intros E Hr Hb. pose proof (max_rank_spec g) as Hm. destruct (max_rank g) as [m|]; [|by rewrite Hm in Hr].
  destruct Hm as [_ Hm]. pose proof (Hm v r Hr) as Hle. change (default 0 (Some m)) with m in E.
  rewrite (proj2 (Z.ltb_ge m 0)) in E by lia.
  match type of E with Done ?x = _ => assert (EL : x = L) by congruence end. clear E.
  set (pick := λ v, match node_rank g v with Some rank => if (0 <=? rank) && (rank <=? m) then Some (Z.to_nat rank, v) else None | None => None end).
  assert (Ef : ∀ l ls, fold_with (λ v layers, match node_rank g v with
      | Some rank => if (0 <=? rank) && (rank <=? m) then push_layer (Z.to_nat rank) v layers else layers
      | None => layers end) l ls =
    fold_with (λ v layers, match pick v with Some (q, x) => push_layer q x layers | None => layers end) l ls).
  { induction l as [|x l IH]; intros ls; cbn [fold_with]; [done|]. rewrite IH. f_equal. unfold pick.
    destruct (node_rank g x); [|done]. by destruct (_ && _). }
  rewrite Ef in EL. clear Ef. apply list_elem_of_In, in_concat.
  exists (omap (λ x, match pick x with Some (q, y) => if decide (q = Z.to_nat r) then Some y else None | None => None end) (nodes g)).
  rewrite <- !list_elem_of_In. split.
  - apply (list_elem_of_lookup_2 _ (Z.to_nat r)). rewrite <- EL, push_layers, decide_True by lia. done.
  - apply list_elem_of_omap. exists v. split; [apply nodes_elem; by eapply ranked_some|].
    unfold pick. rewrite Hr, (proj2 (Z.leb_le 0 r)), (proj2 (Z.leb_le r m)) by lia. cbn. by rewrite decide_True.
Qed.

Lemma balance_node_keeps {O : XsOrder} a l : ∀ xs xs', fold_outcome (balance_node a) l xs = Done xs' →
  ∀ v, v ∈ l ∨ is_Some (xs !! v) → is_Some (xs' !! v).
Proof.
  induction l as [|w l IH]; intros xs xs' E v Hv; cbn [fold_outcome] in E.
  - injection E as <-. by destruct Hv as [?%elem_of_nil|?].
  - apply outcome_bind_done in E as (xs1 & E1 & E). apply (IH _ _ E). apply outcome_bind_done in E1 as (c & _ & [= <-]).
    destruct (decide (v = w)) as [->|Hne]; [right; rewrite lookup_insert_eq; by eexists|].
    rewrite lookup_insert_ne by done. set_solver.
Qed.

Section positions.
#[local] Set Default Proof Using "Type".
Context {O : XsOrder}.

Lemma position_x_has g xs v r : position_x g = Done xs → node_rank g v = Some r → 0 ≤ r → is_Some (node_order g v) →
  is_Some (xs !! v).
Proof.
  unfold position_x, bk_layers. intros E Hr Hb [o Ho]. pose proof (max_rank_spec g) as Hm.
  destruct (max_rank g) as [m|]; [|by rewrite Hm in Hr]. destruct Hm as [_ Hm]. pose proof (Hm v r Hr).
  change (default 0 (Some m)) with m in E. rewrite (proj2 (Z.ltb_ge m 0)), bind_done in E by lia. cbn zeta in E.
  do 4 apply outcome_bind_done in E as (? & _ & E). apply (balance_node_keeps _ _ _ _ E). left.
  apply (matrix_has _ _ _ r o); [done..|lia].
Qed.

(** Every ranked and ordered node gets a position, and that is all. *)
Lemma position_phase g g' : (∀ v n, g_nodes g !! v = Some n → (∃ r, n_rank n = Some r ∧ 0 ≤ r) ∧ is_Some (n_order n)) →
  position g = Done g' → relabelled unsited g g' ∧ ∀ v n, g_nodes g' !! v = Some n → has_x n ∧ has_y n.
Proof.
  intros Hg E. unfold position in E. apply outcome_bind_done in E as (gy & Ey & E). apply outcome_bind_done in E as (xs & Ex & [= <-]).
  unfold position_y in Ey. apply outcome_bind_done in Ey as (L & EL & [= Ey]).
  destruct (place_layer_ok (gl_ranksep (g_graph_label g)) L (f64_zero, g)) as [Ry Gy]. rewrite Ey in Ry, Gy. cbn [snd] in Ry, Gy.
  set (f := λ '(v, x), _) in *.
  assert (Rx : relabelled unsited gy (fold_with f (map_to_list xs) gy)).
  { apply fold_relabelled. intros [v x] h. apply node_mut_relabelled. by intros []. }
  assert (Gx : gains has_x ((map_to_list xs) ≫= (λ p, [p.1])) gy (fold_with f (map_to_list xs) gy)).
  { apply (gains_fold has_x id). intros [v x] h. apply gains_mut. intros n. by eexists. }
  assert (Gy' : gains has_y [] gy (fold_with f (map_to_list xs) gy)).
  { rewrite <- (bind_nothing (map_to_list xs)).
    apply (gains_fold has_y id). intros [v x] h w n'. cbn [id f]. rewrite node_mut_lookup. destruct (decide (w = v)) as [->|Hne].
    - intros (n & Hn & ->)%fmap_Some. split; [by intros ?%elem_of_nil|]. by exists n.
    - intros Hn. split; [by intros ?%elem_of_nil|]. by exists n'. }
  split; [by eapply reranked_trans|]. intros v n' Hn'.
  destruct (relabelled_lookup _ _ _ _ Rx Hn') as (n1 & Hn1 & _). destruct (relabelled_lookup _ _ _ _ Ry Hn1) as (n & Hn & En).
  destruct (Hg v n Hn) as [(r & Hr & Hb) Ho].
  assert (E1 : n_rank n1 = n_rank n ∧ n_order n1 = n_order n) by (destruct n, n1; by injection En as).
  destruct E1 as [Er Eo]. split.
  - destruct (Gx v n' Hn') as [Hx _]. apply Hx.
    destruct (position_x_has gy xs v r Ex) as [x Hxv]; [unfold node_rank, node; by rewrite Hn1; cbn; rewrite Er|done| |].
    { unfold node_order, node. rewrite Hn1. cbn. by rewrite Eo. }
    apply elem_of_map_to_list in Hxv. apply list_elem_of_bind. exists (v, x). split; [|done]. by apply list_elem_of_singleton.
  - destruct (Gy' v n' Hn') as (_ & n2 & Hn2 & Hk). apply Hk. destruct (Gy v n2 Hn2) as [Hy _]. apply Hy.
    apply (rank_layers_has g L v r EL); [|done]. unfold node_rank, node. by rewrite Hn.
Qed.
End positions.

(** ** Phases 16 and 17 *)

Lemma redrawn_refl g : redrawn eq 0 g g.
Proof. split; [intros; by apply forall2_refl|intros; apply forall2_refl, drawn_refl|done..]. Qed.
Lemma redrawn_edges f k g : (∀ e, drawn 0 e (f e)) → redrawn eq 0 g (edge_by_key_mut f k g).
Proof.
  intros Hf. split; [intros; by apply forall2_refl| |done..]. intros x. cbn. destruct (decide (x = k)) as [->|Hne].
  - rewrite lookup_alter_eq. by apply forall2_fmap.
  - rewrite lookup_alter_ne by done. apply forall2_refl, drawn_refl.
Qed.
Lemma redrawn_fold {A} (f : A → DagreGraph → DagreGraph) l : (∀ x g, redrawn eq 0 g (f x g)) → ∀ g, redrawn eq 0 g (fold_with f l g).
Proof.
  intros Hf. induction l as [|x l IH]; intros g; cbn [fold_with]; [apply redrawn_refl|].
  change 0%nat with (0 + 0)%nat. eapply redrawn_trans; [|apply Hf|apply IH]. congruence.
Qed.
Lemma points_drawn (h : Point → Point) e : drawn 0 e (set_e_points (h <$> e_points e) e).
Proof. split; [done|]. cbn. by rewrite length_fmap. Qed.

Section drawing.
#[local] Set Default Proof Using "Type".
Context `{MapOrder} (d : RankDir).

Lemma fixup_redrawn g : redrawn eq 0 g (fixup_edge_label_coords d g).
Proof.
  apply redrawn_fold. intros k h. apply redrawn_edges. intros e. unfold fixup_label, drawn.
  repeat case_match; cbn; split; done.
Qed.
Lemma reverse_y_redrawn g : redrawn stays 0 g (reverse_y g).
Proof.
  unfold reverse_y. rewrite mut_all_nodes, mut_all_edges. apply (redrawn_maps stays 0 reverse_node_y reverse_edge_y g).
  - intros n. split_and!; try done. unfold has_x, has_y. cbn. intros [? [y ->]]. split; [done|by eexists].
  - intros e. apply (points_drawn (λ p, mkPoint (p_x p) (f64_neg (p_y p)))).
Qed.
Lemma swap_xy_redrawn g : redrawn stays 0 g (swap_xy g).
Proof.
  unfold swap_xy. rewrite mut_all_nodes, mut_all_edges. apply (redrawn_maps stays 0 swap_node_xy swap_edge_xy g).
  - intros n. split_and!; try done. unfold has_x, has_y. cbn. tauto.
  - intros e. apply (points_drawn (λ p, mkPoint (p_y p) (p_x p))).
Qed.
Lemma swap_sizes_redrawn g : redrawn (λ n n', stays (swap_size n) n') 0 g (swap_sizes g).
Proof.
  unfold swap_sizes. rewrite mut_all_nodes. split; [| |done..].
  - intros v. cbn. rewrite lookup_fmap. by apply forall2_fmap.
  - intros k. apply forall2_refl, drawn_refl.
Qed.
Lemma stays_swap n n' : stays n n' → stays (swap_size n) (swap_size n').
Proof. intros (Hw & Hh & Hs & Hp). split_and!; done. Qed.
Lemma undo_redrawn g : redrawn (λ n n', stays (if vertical d then n else swap_size n) n') 0 g (undo_coordinate_system d g).
Proof.
  unfold undo_coordinate_system. set (g1 := if decide _ then _ else g).
  assert (R : redrawn stays 0 g g1).
  { unfold g1. case_decide; [apply reverse_y_redrawn|]. split; [|intros; apply forall2_refl, drawn_refl|done..].
    intros v. by apply forall2_refl. }
  destruct (vertical d); [done|]. change 0%nat with (0 + (0 + 0))%nat. eapply redrawn_trans; [|apply R|].
  2: { eapply (redrawn_trans stays); [|apply swap_xy_redrawn|apply swap_sizes_redrawn].
       intros n1 n2 n3 H1 H2. exact (stays_trans (swap_size n1) _ _ (stays_swap _ _ H1) H2). }
  cbn. intros n1 n2 n3 H1 H2. exact (stays_trans (swap_size n1) _ _ (stays_swap _ _ H1) H2).
Qed.
Lemma end_points_drawn k g x : is_Some (g_nodes g !! key_v k) → is_Some (g_nodes g !! key_w k) →
  option_Forall2 (drawn (if decide (x = k) then 2 else 0)) (g_edges g !! x) (g_edges (Normalize.end_points k g) !! x).
Proof.
  intros [nv Hv] [nw Hw]. unfold Normalize.end_points, node. rewrite Hv, Hw. cbn. destruct (decide (x = k)) as [->|Hne].
  - rewrite lookup_alter_eq. apply forall2_fmap. intros e. unfold drawn, Normalize.with_ends. cbn. rewrite length_app. cbn. split; [done|lia].
  - rewrite lookup_alter_ne by done. apply forall2_refl, drawn_refl.
Qed.
Lemma end_points_rest k g : g_nodes (Normalize.end_points k g) = g_nodes g ∧ g_out_edges (Normalize.end_points k g) = g_out_edges g ∧
  g_in_edges (Normalize.end_points k g) = g_in_edges g ∧ g_parent (Normalize.end_points k g) = g_parent g ∧ g_children (Normalize.end_points k g) = g_children g.
Proof. unfold Normalize.end_points. by repeat case_match. Qed.
Lemma ends_fold l : ∀ g, NoDup l → (∀ k, k ∈ l → is_Some (g_nodes g !! key_v k) ∧ is_Some (g_nodes g !! key_w k)) →
  let g' := fold_with Normalize.end_points l g in
  (g_nodes g' = g_nodes g ∧ g_out_edges g' = g_out_edges g ∧ g_in_edges g' = g_in_edges g ∧ g_parent g' = g_parent g ∧ g_children g' = g_children g) ∧
  ∀ k, option_Forall2 (drawn (if decide (k ∈ l) then 2 else 0)) (g_edges g !! k) (g_edges g' !! k).
Proof.
  induction l as [|x l IH]; intros g Hnd Hl; cbn [fold_with].
  { split; [done|]. intros k. rewrite decide_False by apply not_elem_of_nil. apply forall2_refl, drawn_refl. }
  apply NoDup_cons in Hnd as [Hx Hnd]. destruct (end_points_rest x g) as (E1 & E2 & E3 & E4 & E5).
  destruct (IH (Normalize.end_points x g) Hnd) as ((F1 & F2 & F3 & F4 & F5) & He).
  { intros k Hk. rewrite E1. apply Hl. by right. }
  split; [split_and!; congruence|]. intros k. destruct (Hl x ltac:(by left)) as [Hv Hw].
  pose proof (end_points_drawn x g k Hv Hw) as H1. specialize (He k).
  assert (Hsum : (if decide (k ∈ x :: l) then 2 else 0)%nat = ((if decide (k = x) then 2 else 0) + (if decide (k ∈ l) then 2 else 0))%nat).
  { destruct (decide (k = x)) as [->|Hne].
    - rewrite (decide_True (P := x ∈ x :: l)) by (by left). by rewrite (decide_False (P := x ∈ l)).
    - destruct (decide (k ∈ l)); [rewrite decide_True by (by right)|rewrite decide_False by set_solver]; done. }
  rewrite Hsum. eapply forall2_trans; [apply drawn_trans|done..].
Qed.
Lemma intersects_redrawn g : wf g → redrawn eq 2 g (Normalize.assign_node_intersects g).
Proof.
  intros W. destruct (ends_fold (edges g) g) as ((E1 & E2 & E3 & E4 & E5) & He).
  - apply edges_nodup.
  - intros k Hk%edges_elem. by apply edge_ends.
  - fold (Normalize.assign_node_intersects g) in *. split; [|  |done..].
    + intros v. rewrite E1. by apply forall2_refl.
    + intros k. specialize (He k). destruct (decide (k ∈ edges g)) as [|Hk]; [done|]. rewrite edges_elem in Hk.
      destruct He as [e e' Hee|]; [|constructor]. exfalso. apply Hk. by eexists.
Qed.
Lemma drawing_phase g : wf g →
  redrawn (λ n n', stays (if vertical d then n else swap_size n) n') 2 g
    (reverse_points_for_reversed_edges (Normalize.assign_node_intersects (undo_coordinate_system d (fixup_edge_label_coords d g)))).
Proof.
  intros W. change 2%nat with (0 + (0 + (2 + 0)))%nat. pose proof (fixup_redrawn g) as R1.
  eapply (redrawn_trans eq); [|apply R1|]; [by intros n1 n2 n3 ->; exact id|].
  pose proof (wf_same_shape _ _ (redrawn_shape _ _ R1) W) as W1. set (g1 := fixup_edge_label_coords d g) in *.
  pose proof (undo_redrawn g1) as R2. eapply (redrawn_trans _ eq); [|apply R2|]; [by intros n1 n2 n3 ? <-|].
  pose proof (wf_same_shape _ _ (redrawn_shape _ _ R2) W1) as W2. set (g2 := undo_coordinate_system d g1) in *.
  eapply (redrawn_trans eq eq); [|apply intersects_redrawn, W2|]; [congruence|].
  apply redrawn_fold. intros k h. apply redrawn_edges. intros e. split; [done|]. cbn. by rewrite length_reverse.
Qed.
End drawing.

(** ** Edges turned back *)

Definition laid_out (e e' : EdgeLabel) : Prop :=
  e_reversed e' = false ∧ e_weight e' = e_weight e ∧ e_minlen e' = e_minlen e ∧ (2 ≤ length (e_points e'))%nat.
Definition with_points (e e' : EdgeLabel) : Prop := kept e e' ∧ (2 ≤ length (e_points e'))%nat.
Lemma forall2_some_l {A} (P : A → A → Prop) x o : option_Forall2 P (Some x) o → ∃ y, o = Some y ∧ P x y.
Proof. inversion 1; by eexists. Qed.
Lemma forall2_some_r {A} (P : A → A → Prop) o y : option_Forall2 P o (Some y) → ∃ x, o = Some x ∧ P x y.
Proof. inversion 1; by eexists. Qed.
Lemma forall2_impl {A} (P Q : A → A → Prop) a b : (∀ x y, P x y → Q x y) → option_Forall2 P a b → option_Forall2 Q a b.
Proof. intros H []; constructor; auto. Qed.
Lemma undo_phase `{MapOrder} g F g2 g10 : unreversed g → run_inv g F g2 → wf g10 →
  (∀ k, option_Forall2 with_points (g_edges g2 !! k) (g_edges g10 !! k)) →
  ∃ g11, Acyclic.undo g10 = Done g11 ∧ wf g11 ∧ g_nodes g11 = g_nodes g10 ∧
    ∀ k, option_Forall2 laid_out (g_edges g !! k) (g_edges g11 !! k).
Proof.
  intros U I W He.
  assert (M : same_marks g2 g10) by (apply kept_marks; intros k; eapply forall2_impl; [|apply He]; by intros ?? [? _]).
  destruct (undo_spec g10 W) as (g11 & E & W11 & Hn & _ & Hu); [by eapply run_turnable|]. exists g11. split_and!; [done..|].
  assert (Hr : ∀ k l2 l, g_edges g2 !! k = Some l2 → g_edges g10 !! k = Some l → is_reversed g10 k = e_reversed l2 ∧ with_points l2 l).
  { intros k l2 l H2 H10. specialize (He k). rewrite H2, H10 in He. inversion He as [? ? Hk|]; subst.
    unfold is_reversed. rewrite H10. split; [apply Hk|done]. }
  intros k. destruct (g_edges g !! k) as [e|] eqn:Ek.
  - destruct (ri_complete _ _ _ I k e Ek) as [H2|(k' & l' & H2 & T)].
    + pose proof (He k) as Hk. rewrite H2 in Hk. apply forall2_some_l in Hk as (l & H10 & [(Ar & _ & Aw & Am) Ap]).
      destruct (Hr k e l H2 H10) as [R _]. destruct (proj1 U k e Ek) as [Re _].
      assert (H11 : g_edges g11 !! k = Some l) by (apply Hu; left; by rewrite R). rewrite H11. constructor.
      split_and!; [by rewrite Ar|done..].
    + pose proof (He k') as Hk. rewrite H2 in Hk. apply forall2_some_l in Hk as (l & H10 & [(Ar & Af & Aw & Am) Ap]).
      destruct (Hr k' l' l H2 H10) as [R _]. destruct (turned_back _ _ _ _ _ U T) as (Eo & _ & Rl).
      assert (H11 : g_edges g11 !! k = Some (unmark l)).
      { apply Hu. right. exists k', l. rewrite R. split_and!; [done..| |done]. unfold origin. rewrite Af. symmetry. exact Eo. }
      rewrite H11. constructor. destruct T as (_ & -> & _). by split_and!.
  - destruct (g_edges g11 !! k) as [l|] eqn:E11; [|constructor]. exfalso.
    apply Hu in E11 as [[R H10]|(k1 & l1 & R & H10 & Eo & _)].
    + pose proof (He k) as Hk. rewrite H10 in Hk. apply forall2_some_r in Hk as (l2 & H2 & _).
      destruct (Hr k l2 l H2 H10) as [R' _]. destruct (ri_sound _ _ _ I k l2 H2) as [?|(k0 & l0 & T)]; [congruence|].
      destruct (turned_back _ _ _ _ _ U T) as (_ & _ & ?). congruence.
    + pose proof (He k1) as Hk. rewrite H10 in Hk. apply forall2_some_r in Hk as (l2 & H2 & _).
      destruct (Hr k1 l2 l1 H2 H10) as [R' [(_ & Af & _) _]]. rewrite R in R'. symmetry in R'.
      apply (run_reversed _ _ _ _ _ U I H2) in R' as (k0 & l0 & T). destruct (turned_back _ _ _ _ _ U T) as (Eo' & _ & _).
      unfold origin in Eo, Eo'. rewrite Af in Eo. destruct T as (? & _). congruence.
Qed.
Lemma move_redrawn `{MapOrder} g : redrawn stays 0 g (compute_dimensions g).
Proof.
  unfold compute_dimensions. cbn zeta. destruct (f64_eqb _ _).
  { split; [|intros; apply forall2_refl, drawn_refl|done..]. intros v. by apply forall2_refl. }
  rewrite mut_all_nodes, mut_all_edges. set (dx := f64_neg _). set (dy := f64_neg (b_min_y _)).
  destruct (redrawn_maps stays 0 (move_node dx dy) (move_edge dx dy) g) as [A B C D].
  - intros n. split_and!; try done. unfold has_x, has_y. cbn. by intros [[x ->] [y ->]].
  - intros e. apply (points_drawn (λ p, mkPoint (f64_add (p_x p) dx) (f64_add (p_y p) dy))).
  - by split.
Qed.

(** ** Chains taken out *)

Lemma routed_kept ns l : kept l (NormalizeFacts.routed ns l).
Proof.
  unfold NormalizeFacts.routed. change (kept l (fold_with Normalize.at_label ns l)).
  apply (fold_with_pres (kept l)); [|done]. intros n l' Hl. unfold Normalize.at_label. by case_bool_decide.
Qed.
Lemma unplaced_placed g g' : wf g → relabelled unplaced g g' → NormalizeFacts.placed g g'.
Proof.
  intros W R. split.
  - by apply (rr_wf _ _ R).
  - apply R.
  - by rewrite (rest_label _ _ (rr_rest _ _ R)).
  - apply (rr_some _ _ R).
  - intros x n n' Hn Hn'. destruct (relabelled_lookup _ _ _ _ R Hn') as (n0 & Hn0 & (? & ? & ? & ? & _)%unplaced_fields).
    by simplify_eq.
Qed.
(** Sizes as they were, and a position. *)
Definition sited (n n' : NodeLabel) : Prop :=
  n_width n' = n_width n ∧ n_height n' = n_height n ∧ n_shape n' = n_shape n ∧ has_x n' ∧ has_y n'.
Lemma join_phase g g1 g2 : calm g → well_ranked g → Normalize.run g = Done g1 → relabelled unplaced g1 g2 →
  (∀ v n, g_nodes g2 !! v = Some n → has_x n ∧ has_y n) →
  ∃ g3, Normalize.undo g2 = Done g3 ∧ wf g3 ∧ (∀ v, option_Forall2 sited (g_nodes g !! v) (g_nodes g3 !! v)) ∧
    ∀ k, option_Forall2 kept (g_edges g !! k) (g_edges g3 !! k).
Proof.
  intros C K E R Hs. pose proof (calm_normalizable g C K) as N.
  destruct (NormalizeFacts.normalize_ok g N) as (g1' & E' & W1 & _ & Hold & _). rewrite E in E'. injection E' as <-.
  destruct (NormalizeFacts.normalize_undo_ok g g1 g2 N E (unplaced_placed _ _ W1 R)) as (g3 & E3 & W3 & Hn & Hno & He).
  exists g3. split_and!; [done..| |].
  - intros v. rewrite Hn. unfold has_node. destruct (g_nodes g !! v) as [n|] eqn:Ev.
    + rewrite bool_decide_true by (by eexists). pose proof (Hold v n Ev) as H1.
      destruct (g_nodes g2 !! v) as [n2|] eqn:E2.
      * constructor. destruct (relabelled_lookup _ _ _ _ R E2) as (n1 & Hn1 & (_ & _ & _ & _ & Hw & Hh & Hsh)%unplaced_fields).
        rewrite H1 in Hn1. injection Hn1 as <-. destruct (Hs v n2 E2). by split_and!.
      * exfalso. pose proof (rr_nodes _ _ R v) as Hr. rewrite E2, H1 in Hr. done.
    + rewrite bool_decide_false by (by intros []). constructor.
  - intros k. destruct (g_edges g !! k) as [e|] eqn:Ek; [|rewrite Hno by done; constructor].
    destruct (NormalizeFacts.nz_down _ N k ltac:(by eexists)) as (a & b & Ha & Hb & _).
    specialize (He k e a b Ek Ha Hb). destruct (b =? a + 1).
    + rewrite He. by constructor.
    + destruct He as (ns & -> & _). constructor. apply routed_kept.
Qed.

(** ** The layout *)

Lemma no_self_dummies g : (∀ v n, g_nodes g !! v = Some n → n_dummy n ≠ Some "selfedge") → position_self_edges g = Done g.
Proof.
  intros Hn. unfold position_self_edges. destruct (filter _ _) as [|v l] eqn:E; [done|]. assert (Hv : v ∈ v :: l) by (by left).
  rewrite <- E in Hv. apply list_elem_of_filter in Hv as [Hv _]. unfold node, dummy_is in Hv.
  destruct (g_nodes g !! v) as [n|] eqn:Ev; [|done]. apply bool_decide_eq_true in Hv. by apply Hn in Ev.
Qed.
Section layout.
#[local] Set Default Proof Using "Type".
Context `{MapOrder, SetOrder, GroupOrder} {XO : XsOrder}.

(** From ranks to the graph without dummies. *)
Lemma middle_phase g4 : calm g4 → well_ranked g4 →
  (∀ g7, layout_order false g4 = Done g7 → ∃ g8, position g7 = Done g8) →
  ∃ g7 g8 g9, layout_order false g4 = Done g7 ∧ position g7 = Done g8 ∧ position_self_edges g8 = Done g8 ∧
    Normalize.undo g8 = Done g9 ∧ wf g9 ∧
    (∀ v, option_Forall2 sited (g_nodes g4 !! v) (g_nodes g9 !! v)) ∧
    (∀ k, option_Forall2 kept (g_edges g4 !! k) (g_edges g9 !! k)).
Proof.
  intros C K Hpos. destruct (proxy_phase g4 C) as (C5 & En & He). cbn zeta in *.
  set (g5 := remove_edge_label_proxies _) in *.
  assert (K5 : well_ranked g5).
  { split; [rewrite En; apply K|]. intros k a b Hk. unfold node_rank, node. rewrite En. apply (wk_edge _ K).
    destruct (He k); [by eexists|by destruct Hk]. }
  destruct (order_phase g5 C5 K5) as (g6 & g7 & E6 & E7 & R7 & S7 & _ & Hn6).
  assert (EO : layout_order false g4 = Done g7).
  { unfold layout_order, when. cbn zeta. fold g5. by rewrite bind_done, E6, bind_done, bind_done. }
  destruct (Hpos g7 EO) as [g8 E8].
  assert (Hn7 : ∀ v n, g_nodes g7 !! v = Some n → (∃ r, n_rank n = Some r ∧ 0 ≤ r) ∧ is_Some (n_order n)).
  { intros v n Hv. destruct (S7 v n Hv) as [Ho _]. split; [|done].
    destruct (relabelled_lookup _ _ _ _ R7 Hv) as (n6 & H6 & (-> & _)%unplaced_fields).
    destruct (Hn6 v n6 H6) as ((r & Hr & ?) & _). exists r. split; [done|lia]. }
  destruct (position_phase g7 g8 Hn7 E8) as [R8%unsited_unplaced Hxy].
  assert (R : relabelled unplaced g6 g8) by (by eapply reranked_trans).
  destruct (join_phase g5 g6 g8 C5 K5 E6 R Hxy) as (g9 & E9 & W9 & Hs & Hk).
  exists g7, g8, g9. split_and!; [done|done| |done|done| |].
  - apply no_self_dummies. intros v n Hv. destruct (relabelled_lookup _ _ _ _ R Hv) as (n6 & H6 & (_ & -> & _)%unplaced_fields).
    by destruct (Hn6 v n6 H6).
  - intros v. rewrite <- En. apply Hs.
  - intros k. eapply forall2_trans; [apply kept_trans| |apply Hk]. eapply forall2_impl; [|apply He]. by intros ?? [? _].
Qed.

Lemma sited_stays n1 n2 n3 : sited n1 n2 → stays n2 n3 → sited n1 n3.
Proof. intros (? & ? & ? & ? & ?) (? & ? & ? & Hp). split_and!; [congruence..| |]; by apply Hp. Qed.
(** Drawing, turning edges back and moving to the origin. *)
Lemma last_phase d g g1 F g2 g9 : plain_input g → g1 = spaced d g → run_inv g1 F g2 → wf g9 →
  (∀ v, option_Forall2 (λ n n', sited (if vertical d then n else swap_size n) n') (g_nodes g !! v) (g_nodes g9 !! v)) →
  (∀ k, option_Forall2 kept (g_edges g2 !! k) (g_edges g9 !! k)) →
  let g10 := reverse_points_for_reversed_edges (Normalize.assign_node_intersects (undo_coordinate_system d (fixup_edge_label_coords d g9))) in
  ∃ g11, Acyclic.undo g10 = Done g11 ∧ wf (compute_dimensions g11) ∧
    (∀ v, option_Forall2 sited (g_nodes g !! v) (g_nodes (compute_dimensions g11) !! v)) ∧
    (∀ k, option_Forall2 laid_out (make_space d <$> g_edges g !! k) (g_edges (compute_dimensions g11) !! k)).
Proof.
  intros P -> I W9 Hn He g10. pose proof (drawing_phase d g9 W9) as R. fold g10 in R.
  pose proof (wf_same_shape _ _ (redrawn_shape _ _ R) W9) as W10.
  destruct (undo_phase (spaced d g) F g2 g10) as (g11 & E11 & W11 & En & He11).
  { apply (pi_unreversed _ (spaced_plain d g P)). }
  { done. }
  { done. }
  { intros k. eapply forall2_trans; [|apply He|apply (rd_edges _ _ _ _ R)].
    intros e1 e2 e3 Hk [Hk' Hl]. split; [by eapply kept_trans|lia]. }
  pose proof (move_redrawn g11) as Rm. exists g11. split_and!; [done| | |].
  - apply (wf_same_shape _ _ (redrawn_shape _ _ Rm) W11).
  - intros v. eapply (forall2_trans (λ n n', sited n n') stays); [apply sited_stays| |apply (rd_nodes _ _ _ _ Rm)].
    rewrite En. eapply forall2_trans; [|apply Hn|apply (rd_nodes _ _ _ _ R)].
    intros n1 n2 n3 (Hw & Hh & Hs & Hx & Hy) (Hw' & Hh' & Hs' & Hp). destruct (vertical d).
    + split_and!; try congruence; tauto.
    + cbn in *. split_and!; try congruence; apply Hp; by split.
  - intros k. rewrite <- lookup_fmap, <- spaced_edges. eapply forall2_trans; [|apply He11|apply (rd_edges _ _ _ _ Rm)].
    intros e1 e2 e3 (Hr & Hw & Hm & Hl) [(Hr' & _ & Hw' & Hm') Hl']. split_and!; [congruence..|lia].
Qed.

(** C6: the layout of a graph without subgraphs gives the graph back, placed.
    Take such a graph in which ranks go down along every edge once they are
    assigned, and coordinates that can be compared (no NaN among them).  The
    layout then returns a well-formed graph with exactly the nodes and the edges
    it was given: every node has its size and shape and a position, every edge
    has its own direction and weight, at least two points (it starts and ends at
    the borders of its nodes), and twice the minimal length it came with. *)
Theorem layout_keeps_graph config g g4 compound : plain_input g →
  layout_rank config g = Done (g4, compound) → well_ranked g4 →
  (∀ g7, layout_order compound g4 = Done g7 → ∃ g8, position g7 = Done g8) →
  ∃ g', layout g config = Done g' ∧ wf g' ∧
    (∀ v, option_Forall2 sited (g_nodes g !! v) (g_nodes g' !! v)) ∧
    (∀ k, option_Forall2 (λ e e', e_reversed e' = false ∧ e_weight e' = e_weight e ∧ e_minlen e' = i32_double (e_minlen e) ∧
        (2 ≤ length (e_points e'))%nat) (g_edges g !! k) (g_edges g' !! k)).
Proof.
  intros P E4 K Hpos. destruct (rank_phase config g g4 compound P E4) as (-> & F & g2 & I & R4 & C4).
  destruct (middle_phase g4 C4 K Hpos) as (g7 & g8 & g9 & E7 & E8 & Es & E9 & W9 & Hn & He).
  destruct (last_phase (dc_rankdir config) g _ F g2 g9 P eq_refl I W9) as (g11 & E11 & W & Hn' & He').
  - intros v. assert (Hv : option_Forall2 (λ n n', n_width n' = n_width n ∧ n_height n' = n_height n ∧ n_shape n' = n_shape n)
      (g_nodes g2 !! v) (g_nodes g4 !! v)).
    { pose proof (rr_nodes _ _ R4 v) as Hr. destruct (g_nodes g4 !! v) as [n4|], (g_nodes g2 !! v) as [n2|]; try done; constructor.
      apply (inj Some) in Hr. destruct n2, n4. by injection Hr as. }
    assert (Hs : option_Forall2 sited (g_nodes g2 !! v) (g_nodes g9 !! v)).
    { eapply forall2_trans; [|exact Hv|exact (Hn v)]. intros n1 n2 n3 (Hw & Hh & Hs) (Hw' & Hh' & Hs' & Hx & Hy).
      by split_and!; try congruence. }
    rewrite (ri_nodes _ _ _ I), spaced_nodes, lookup_fmap in Hs. destruct (g_nodes g !! v) as [n|]; [|inversion Hs; constructor].
    apply forall2_some_l in Hs as (n' & -> & Hs). constructor. by destruct (vertical (dc_rankdir config)).
  - intros k. rewrite <- (rr_edges _ _ R4). apply He.
  - exists (compute_dimensions g11). split_and!; [|done|done|].
    + unfold layout. rewrite E4, bind_done. cbn [fst snd]. rewrite E7, bind_done. unfold layout_place, when.
      rewrite E8, bind_done, Es, bind_done, E9, bind_done, bind_done. cbn zeta. by rewrite E11, bind_done.
    + intros k. specialize (He' k). destruct (g_edges g !! k) as [e|]; [|inversion He'; constructor].
      apply forall2_some_l in He' as (e' & -> & Hr & Hw & Hm & Hl). constructor.
      split_and!; [done|rewrite Hw; by unfold make_space; repeat case_match|rewrite Hm; by unfold make_space; repeat case_match|done].
Qed.
End layout.

(** ** An example *)

Definition as_listed : XsOrder :=
  {| xs_order _ m := map_to_list m; xs_order_perm _ _ := reflexivity _; name_order l := l; name_order_perm l := reflexivity _ |}.
Definition box (w h : Z) : NodeLabel := set_n_width (f64_of_Z w) (set_n_height (f64_of_Z h) NodeLabel_default).
(** A cycle, a long edge and a label, from left to right. *)
Definition sample : DagreGraph :=
  graph_of [SetNode "a" (box 60 40); SetNode "b" (box 50 40); SetNode "c" (box 40 40); SetNode "d" (box 30 40);
            SetPath ["a"; "b"; "c"; "a"]; SetEdge "c" "d" EdgeLabel_default;
            SetEdge "a" "d" (set_e_height (f64_of_Z 10) (set_e_width (f64_of_Z 30) EdgeLabel_default))].
Definition left_to_right : DagreConfig :=
  {| dc_rankdir := LR; dc_nodesep := f64_of_Z 50; dc_edgesep := f64_of_Z 20; dc_ranksep := f64_of_Z 50;
     dc_marginx := f64_zero; dc_marginy := f64_zero; dc_acyclicer := Acyclic.Greedy; dc_ranker := NetworkSimplex |}.
#[local] Existing Instances list_order elements_order met_order as_listed.

Lemma nodes_check (f : string → NodeLabel → bool) g :
  forallb (λ p, f p.1 p.2) (map_to_list (g_nodes g)) = true → ∀ v n, g_nodes g !! v = Some n → f v n = true.
Proof.
  rewrite forallb_forall. intros Hf v n Hv. apply elem_of_map_to_list, list_elem_of_In in Hv. by apply Hf in Hv.
Qed.
Definition plain_node (v : string) (n : NodeLabel) : bool :=
  NormalizeFacts.user_name v n && bool_decide (n_border_left n = []) && bool_decide (n_self_edges n = []).
Definition plain_edge (k : EdgeKey) (e : EdgeLabel) : bool :=
  negb (e_reversed e) && bool_decide (e_forward_name e = None) && bool_decide (key_name k = None) && negb (bool_decide (key_v k = key_w k)).
Definition is_done {A} (r : panics A) : bool := match r with Done _ => true | _ => false end.
Definition result_of {A} (d : A) (r : panics A) : A := match r with Done a => a | _ => d end.
Lemma result_done {A} (d : A) r : is_done r = true → r = Done (result_of d r).
Proof. by destruct r. Qed.
Definition down_edge (g : DagreGraph) (k : EdgeKey) (_ : EdgeLabel) : bool :=
  match node_rank g (key_v k), node_rank g (key_w k) with Some a, Some b => a <? b | _, _ => true end.
Definition ranked_node (_ : string) (n : NodeLabel) : bool :=
  match n_rank n with Some r => (0 <=? r) && (r <=? i32_max) | None => false end.
Lemma plain_check g : wf g → small_degrees g → g_parent g = ∅ → gl_node_rank_factor (g_graph_label g) = None →
  forallb (λ p, plain_node p.1 p.2) (map_to_list (g_nodes g)) = true →
  bool_decide (map_Forall (λ k e, plain_edge k e = true) (g_edges g)) = true →
  forallb (λ p, bool_decide (NoDup p.2)) (map_to_list (g_out_edges g)) = true → plain_input g.
Proof.
  intros W Hd Hp Hf Hn He Ho.
  assert (He' : ∀ k e, g_edges g !! k = Some e → e_reversed e = false ∧ e_forward_name e = None ∧ key_name k = None ∧ key_v k ≠ key_w k).
  { intros k e Hk. apply (edges_check (λ k e, plain_edge k e = true) g He) in Hk. unfold plain_edge in Hk.
    rewrite !andb_true_iff, !bool_decide_eq_true, !negb_true_iff, bool_decide_eq_false in Hk. tauto. }
  split; [split| | |].
  - done.
  - intros v. unfold out_edges. destruct (g_out_edges g !! v) as [l|] eqn:E; [|constructor].
    apply (bool_decide_eq_true (NoDup l)). rewrite forallb_forall in Ho. apply (Ho (v, l)), list_elem_of_In. by apply elem_of_map_to_list.
  - done.
  - intros v n Hv. apply (nodes_check _ g Hn) in Hv. unfold plain_node in Hv.
    rewrite !andb_true_iff, !bool_decide_eq_true in Hv. tauto.
  - done.
  - done.
  - split; [by intros k e (? & ? & _)%He'|]. intros k n [e (_ & _ & -> & _)%He'] _. done.
  - intros k [e (_ & _ & _ & ?)%He']. done.
Qed.
Lemma well_ranked_check g : forallb (λ p, ranked_node p.1 p.2) (map_to_list (g_nodes g)) = true →
  bool_decide (map_Forall (λ k e, down_edge g k e = true) (g_edges g)) = true → well_ranked g.
Proof.
  intros Hn He. split.
  - intros v n Hv. apply (nodes_check _ g Hn) in Hv. unfold ranked_node in Hv.
    destruct (n_rank n) as [r|]; [|done]. exists r. split; [done|lia].
  - intros k a b [e Hk] Ha Hb. apply (edges_check (λ k e, down_edge g k e = true) g He) in Hk. unfold down_edge in Hk.
    rewrite Ha, Hb in Hk. lia.
Qed.
Definition sample_ranked : DagreGraph * bool := result_of (sample, false) (layout_rank left_to_right sample).
Lemma position_check (r : panics DagreGraph) : match r with Done g => is_done (position g) | _ => true end = true →
  ∀ g, r = Done g → ∃ g', position g = Done g'.
Proof. intros Hr g ->. exists (result_of g (position g)). by apply result_done. Qed.
Lemma layout_keeps_graph_witness :
  ∃ g', layout sample left_to_right = Done g' ∧ wf g' ∧
    (∀ v, option_Forall2 sited (g_nodes sample !! v) (g_nodes g' !! v)) ∧
    (∀ k, option_Forall2 (λ e e', e_reversed e' = false ∧ e_weight e' = e_weight e ∧ e_minlen e' = i32_double (e_minlen e) ∧
        (2 ≤ length (e_points e'))%nat) (g_edges sample !! k) (g_edges g' !! k)).
Proof.
  apply (layout_keeps_graph left_to_right sample sample_ranked.1 sample_ranked.2).
  - apply plain_check; [apply wf_graph_of|apply small_degrees_check|..]; vm_compute; reflexivity.
  - vm_compute. reflexivity.
  - apply well_ranked_check; vm_compute; reflexivity.
  - apply position_check. vm_compute. reflexivity.
Defined.

(** * Graphs with subgraphs that the layout does not leave as they were

    Three graphs on which the composed layout is evaluated.  They go with the
    findings on [compound.rs], [mod.rs] and [parent_dummy_chains.rs]; a graph
    without subgraphs is left as it was, which is [layout_keeps_graph]. *)

(** [b] is alone in the subgraph [sg]. *)
Definition with_subgraph (ops : list GraphOp) : DagreGraph :=
  graph_of ([SetNode "a" (box 50 40); SetNode "b" (box 50 40); SetNode "sg" NodeLabel_default; SetParent "b" "sg"] ++ ops).
Definition by_default (g : DagreGraph) : panics DagreGraph :=
  @layout list_order elements_order met_order as_listed g DagreConfig_default.
(** What is asked of a run that ends. *)
Definition ends_with (P : DagreGraph → bool) (r : panics DagreGraph) : bool :=
  match r with Done g => P g | _ => false end.

(** An edge to a subgraph and one back from it are one edge afterwards: both
    are redirected to the top of the subgraph, and [acyclic::run] has reversed
    one of them under a name, which the redirection drops. *)
Lemma edges_to_and_from_merge :
  let g := with_subgraph [SetEdge "a" "sg" EdgeLabel_default; SetEdge "sg" "a" EdgeLabel_default] in
  edge_count g = 2%nat ∧ ends_with (λ g', bool_decide (edge_count g' = 1%nat)) (by_default g) = true.
Proof. split; vm_compute; reflexivity. Qed.

(** A border node, which no input has, is left in the graph. *)
Lemma border_left_behind :
  let g := with_subgraph [SetEdge "b" "a" EdgeLabel_default; SetEdge "a" "sg" EdgeLabel_default] in
  ends_with (λ g', existsb (λ v, negb (has_node g v)) (nodes g')) (by_default g) = true.
Proof. vm_compute. reflexivity. Qed.

(** The layout as far as the parents of the dummies of long edges. *)
Definition with_chains (g : DagreGraph) : panics DagreGraph :=
  '(g, _) ← @layout_rank list_order elements_order DagreConfig_default g;
  let g := remove_empty_ranks (@inject_edge_label_proxies list_order g) in
  let g := remove_edge_label_proxies (@cleanup list_order g) in
  g ← assign_rank_min_max g;
  g ← Normalize.run g;
  ParentChains.run g.
(** A node above the ranks of its parent. *)
Definition above_parent (g : DagreGraph) (v : string) : bool :=
  match parent g v, node_rank g v with
  | Some p, Some r => match min_rank_of g p with Some m => r <? m | None => false end
  | _, _ => false
  end.
(** Dummies above a subgraph are given it as their parent. *)
Lemma chain_above_its_parent :
  let g := with_subgraph [SetPath ["a"; "c"; "d"; "b"]; SetEdge "a" "b" EdgeLabel_default] in
  ends_with (λ g', existsb (above_parent g') (nodes g')) (with_chains g) = true.
Proof. vm_compute. reflexivity. Qed.
